(* ===== verification/_CoqProject ===== *)
-Q . S2P
Prelude.v
Types.v
Wait.v
Deadline.v
TimeConv.v
Preempt.v
Context.v
Vm.v
Time.v
Sched.v
World.v
Transition.v
Handoff.v
CpuInv.v
SchedInv.v
Switch.v
Lifecycle.v
TransitionSpec.v
LifecycleSpec.v
WorldInv.v
TimeSpec.v
SwitchSpec.v
WakeSpec.v
Frames.v
EntrySpec.v
BlockSpec.v
JoinSpec.v
ThreadSpec.v
SpawnSpec.v
TimerSpec.v
Boot.v
StartSpec.v
Mailbox.v
MailboxSpec.v
Console.v
ConsoleSpec.v
Liveness.v
MemMap.v
MemMapSpec.v
FrameAlloc.v
FrameSpec.v
MemInit.v
PageTable.v
PageTableSpec.v
AddressSpace.v
SpaceSafety.v
Ramfs.v
RamfsSpec.v
RamfsIndex.v
Mount.v
PathRes.v
FdTable.v
PhysMem.v
UserCopy.v
UserAccess.v
UserSafety.v
UserImage.v
FrameRuns.v
ImageSafety.v
ExecStack.v
ExecRead.v
Staging.v
StageSafety.v
CloneSpec.v
Process.v
ProcessOps.v
Syscall.v
ProcSpec.v
ProcHistory.v
ForkSpec.v
ProcKernel.v
ExecKernel.v
SyscallSpec.v
System.v
Demo.v
ProcSafety.v
SyscallSafety.v
SyscallFiles.v
Safety.v
