(* ===== verification/Prelude.v ===== *)
(** * genrt: a verification development for the genrt kernel

    genrt is a small preemptive kernel for AArch64: a scheduler for several
    CPUs with threads bound to their home CPU, timed waits and mailboxes, a
    physical frame allocator with user page tables, a read-only file system
    mounted from an archive, a console, and Unix-like processes with fork, exec,
    wait and a small set of system calls.  This library models that code as
    executable definitions and proves what each part promises.  Paths below are
    under [src/].

    ** How the code is modelled

    A Rust function is a Rocq function of the same name.  Code that changes
    state runs in the monad [M S] of this file: from a state it either ends
    with a value and a new state ([Done]) or panics ([Panic]); every assertion,
    index and unwrap of the source is a possible panic.  [Result] is a sum with
    the error on the right, and [←?] is the question mark.  Machine integers
    are [Z] (or [nat] for table indices) with wrap-around, saturation and
    checked operations written out.  Specifications are weakest preconditions
    [wp m Q s]: from [s], [m] does not panic and ends in [Q]; so they include
    termination, because a loop that is not structural carries fuel and running
    out of fuel is a panic.

    Fuel: heap sifts get the length of the heap, walks of the free list the
    number of free frames, page loops the number of pages of the range, scans
    of strings and argument vectors the length bound of the code, the directory
    listing the size of its buffer, draining the console three steps per queued
    byte.  No specification assumes enough fuel; each shows that it suffices.

    ** The parts, and where they are

    - Shared identities and capacities ([kernel/src/config.rs], [cpu.rs]):
      [Types].
    - Waits ([sched/wait.rs]): [Wait], the state machine of one wait.
    - Time ([time.rs]): [TimeConv] (conversions), [Deadline] (the bounded heap,
      against the interface [DeadlineService]), [Time] (the events and the timer
      of one CPU, over that interface).
    - Preemption ([sync/preempt.rs]): [Preempt].  Register frames
      ([arch/aarch64/src/context.rs], [trap_frame.rs]): [Context].
    - Address-space ownership ([memory/vm.rs]): [Vm].
    - The scheduler ([sched/]): its data in [Sched], the machine it runs on
      (one record of CPU-local state per CPU, the live register frames, the
      timers) in [World], the lifecycle transitions in [Transition], the entry
      points with the context handoff in [Handoff], start-up in [Boot].
      [CpuInv], [SchedInv] and [WorldInv] state its invariant, [Switch] and
      [Lifecycle] the transitions as pure moves, and [TransitionSpec],
      [LifecycleSpec], [TimeSpec], [SwitchSpec], [WakeSpec], [Frames],
      [EntrySpec], [BlockSpec], [JoinSpec], [ThreadSpec], [SpawnSpec],
      [TimerSpec], [StartSpec] and [Liveness] that the code computes them.
    - Mailboxes ([ipc.rs]): [Mailbox], [MailboxSpec].
    - The console ([console.rs]): [Console], [ConsoleSpec].
    - Memory ([memory/map.rs], [frame_alloc.rs], [mod.rs], [heap.rs]): [MemMap],
      [FrameAlloc] with [MemMapSpec], [FrameSpec], [MemInit].
    - User page tables ([arch/aarch64/src/mmu/hva.rs]): [PageTable] with
      [PageTableSpec], [AddressSpace], [SpaceSafety].  Tables and free list
      live in one physical memory.
    - The file system ([fs/]): [Ramfs], [PathRes], [FdTable] with [RamfsSpec],
      [RamfsIndex], [Mount].
    - User memory ([memory/user.rs], [loader/elf.rs]): [PhysMem], [UserCopy],
      [UserImage] with [UserAccess], [UserSafety], [FrameRuns], [ImageSafety].
    - Processes ([process/]): [ExecStack] (arguments), [Staging] (images under
      construction), [Process] (the table), [ProcessOps] (the operations on
      scheduler, table and memory together), with [ExecRead], [StageSafety],
      [CloneSpec], [ProcSpec], [ProcHistory], [ForkSpec], [ProcKernel],
      [ExecKernel], [ProcSafety].
    - System calls ([syscall.rs], [errno.rs], [power.rs]): [Syscall] with
      [SyscallSpec], [SyscallSafety], [SyscallFiles].
    - The kernel as a transition system: [System]; concrete machines for the
      witnesses: [Demo]; the theorems about every reachable state: [Safety].

    ** What the theorems show

    - [Safety]: in every state the machine can reach after boot, no scheduler
      entry point panics under its calling convention and the kernel's own
      validation passes; a thread is in exactly one place; registers change only
      by the thread itself; the installed address space is that of the running
      thread and no root is installed twice; a guard prevents preemption; each
      event queue stays below its reservation.  Yields serve the queue in turn,
      timed waits end at the first interrupt at or after their deadline, exit
      codes reach the joiner, the next input byte wakes the reader, and boot,
      spawn, join, sleep and mailboxes have exactly their specified outcome.
    - [Wait], [Deadline], [Time], [TimeConv]: a wait completes at most once, the
      heap refines a finite map, the timer is never late, a deadline is the
      first counter value at or after the requested time.
    - [MemInit], [SpaceSafety]: boot finds exactly the usable frames, the
      allocator refines a set of frames, a mapping changes one translation of
      one address space, and an address space gives back all it took.
    - [Mount], [PathRes], [FdTable]: the mounted tree is the archive's, paths
      resolve as a walk in it, descriptors are independent streams.
    - [UserSafety], [ImageSafety]: copies move exactly the bytes of a permitted
      range, and fail exactly for the others; a program is loaded exactly or
      not at all.
    - [ProcHistory], [ProcSafety]: the process table and its reverse index stay
      consistent, an identity names one process, [fork] gives the child a copy
      in frames of its own, [execve] replaces the program or changes nothing.
    - [SyscallSafety], [SyscallFiles]: no sequence of calls that keep the CPU
      panics or touches another process; [read] and [getdents64] put exactly
      the right bytes into the caller's memory.
    - [ConsoleSpec]: accepted messages are printed once, whole and in order
      under any interleaving of the callers.

    ** Parameters

    Code that is not part of the repository is an argument: the archive reader
    ([iter_files], the crate cpio_reader), the ELF field reader
    ([minimal_parse], the crate elf), the answers of the heap ([reserve],
    [granted], or the script in the file system's state), the firmware.  The
    two address-translation instructions are [hw_translate] and [at_s1e0r]; the
    theorems assume that they follow the page tables in memory, as the
    architecture says.  [arch_ok] says that the hooks for activation and
    interrupts succeed.  Every such hypothesis holds in a witness with concrete
    functions.

    ** Granularity

    Scheduler entry points are atomic steps of [System]: the CPUs interleave
    between them.  The code takes the scheduler lock once in most of them; a
    sleep and a timer interrupt release it in between, and interleavings inside
    those are not covered.  The console is modelled at the level of single lock
    holds and atomic operations, in any interleaving.  A call that blocks is
    split where the thread gives up its CPU.

    ** Not modelled

    - Spin locks, interrupt masking, memory ordering, barriers, TLB and cache
      maintenance: they are what makes the steps above atomic and have no
      effect on the memory of the model.
    - The exception vectors, the trap entry that decodes the exception class,
      boot assembly, boot page tables, kernel mappings, device drivers and
      platform code: assembly, system registers and memory-mapped devices.
    - The registry of CPUs and device-tree parsing, whose results are the
      environment of the model.
    - The heap allocator (an external crate), logging, the emergency console
      writer and the optional profiling.
    - The frames of a joined thread's user stack go with the joiner as a value;
      freeing them is not replayed on the memory of the machine.  The blocking
      system calls ([exit], [waitpid], [clock_nanosleep], reading the console)
      are definitions; the theorems about them are those of the scheduler and of
      the process table.
    - User programs, the build tool and the test images. *)

From stdpp Require Export base tactics option list numbers strings relations.
From Stdlib Require Export ZArith Lia.

(** ** Machine integers

    The kernel's [usize] and [u64] are 64 bits wide, [u32] is 32 bits wide.
    Counters, addresses and generations are kept as [Z] with the bound made
    explicit; indices into bounded tables are [nat]. *)

Definition u32_max : Z := (2 ^ 32 - 1)%Z.
Definition u64_max : Z := (2 ^ 64 - 1)%Z.
Definition u128_max : Z := (2 ^ 128 - 1)%Z.

Definition in_u32 (z : Z) : Prop := (0 <= z <= u32_max)%Z.
Definition in_u64 (z : Z) : Prop := (0 <= z <= u64_max)%Z.

(** [wrapping_add] of the two widths. *)
Definition u32_wrapping_add (a b : Z) : Z := ((a + b) mod (u32_max + 1))%Z.
Definition u64_wrapping_add (a b : Z) : Z := ((a + b) mod (u64_max + 1))%Z.

(** [checked_add], [checked_sub], [checked_mul] and [saturating_*] on [u64]
    (and on [usize], which has the same width). *)
Definition u64_checked_add (a b : Z) : option Z :=
  if (a + b <=? u64_max)%Z then Some (a + b)%Z else None.
Definition u64_checked_sub (a b : Z) : option Z :=
  if (b <=? a)%Z then Some (a - b)%Z else None.
Definition u64_checked_mul (a b : Z) : option Z :=
  if (a * b <=? u64_max)%Z then Some (a * b)%Z else None.
Definition u64_saturating_add (a b : Z) : Z := Z.min (a + b) u64_max.
Definition u64_saturating_sub (a b : Z) : Z := Z.max (a - b) 0.
Definition u128_saturating_mul (a b : Z) : Z := Z.min (a * b) u128_max.

(** ** Panics and state

    A Rust [panic!] halts the kernel: no state survives it.  [outcome] is the
    result of code that may panic, and [M S] the computations that thread a
    state [S] and may panic. *)

Inductive outcome (A : Type) : Type :=
| Done (a : A)
| Panic (why : string).
Arguments Done {A} a.
Arguments Panic {A} why.

#[global] Instance outcome_ret : MRet outcome := λ A a, Done a.
#[global] Instance outcome_bind : MBind outcome :=
  λ A B f m, match m with Done a => f a | Panic e => Panic e end.

Lemma done_bind {A B} (a : A) (f : A → outcome B) : (Done a ≫= f) = f a.
Proof. done. Qed.

Definition M (S A : Type) : Type := S → outcome (A * S).

#[global] Instance M_ret S : MRet (M S) := λ A a s, Done (a, s).
#[global] Instance M_bind S : MBind (M S) :=
  λ A B f m s, match m s with Done (a, s') => f a s' | Panic e => Panic e end.

Definition gets {S A} (f : S → A) : M S A := λ s, Done (f s, s).
Definition modify {S} (f : S → S) : M S unit := λ s, Done (tt, f s).
Definition panic {S A} (why : string) : M S A := λ _, Panic why.

(** A pure computation that may panic, read from the state. *)
Definition reads {S A} (f : S → outcome A) : M S A :=
  λ s, match f s with Done a => Done (a, s) | Panic e => Panic e end.

(** A pure update that may panic, with a result. *)
Definition updates {S A} (f : S → outcome (A * S)) : M S A := f.

(** [if !cond { panic!(..) }]: go on when the test holds. *)
Definition assert_that {S} (b : bool) (why : string) : M S unit :=
  if b then mret tt else panic why.

Definition expect {S A} (o : option A) (why : string) : M S A :=
  match o with Some a => mret a | None => panic why end.

Definition expect_o {A} (o : option A) (why : string) : outcome A :=
  match o with Some a => Done a | None => Panic why end.

(** ** Fallible code

    A Rust function that returns [Result<A, E>] and may also panic.  [?] is
    the bind. *)

Definition Res (E A : Type) : Type := outcome (A + E).

#[global] Instance Res_ret E : MRet (Res E) := λ A a, Done (inl a).
#[global] Instance Res_bind E : MBind (Res E) :=
  λ A B f m, match m with
             | Done (inl a) => f a
             | Done (inr e) => Done (inr e)
             | Panic why => Panic why
             end.

Definition err {E A} (e : E) : Res E A := Done (inr e).
Definition ok_or {E A} (o : option A) (e : E) : Res E A := match o with Some a => mret a | None => err e end.
Definition returns {E A} (m : outcome A) : Res E A := match m with Done a => mret a | Panic why => Panic why end.

(** [for x in l { s = f(x, s)?; }] *)
Fixpoint res_fold {E A S} (f : A → S → Res E S) (l : list A) (s : S) : Res E S :=
  match l with
  | [] => mret s
  | x :: l' => s' ← f x s; res_fold f l' s'
  end.

Fixpoint out_fold {A S} (f : A → S → outcome S) (l : list A) (s : S) : outcome S :=
  match l with
  | [] => mret s
  | x :: l' => s' ← f x s; out_fold f l' s'
  end.

Lemma res_bind_inl {E A B} (m : Res E A) (f : A → Res E B) b :
  (m ≫= f) = Done (inl b) → ∃ a, m = Done (inl a) ∧ f a = Done (inl b).
Proof. unfold mbind, Res_bind. destruct m as [[a|e]|]; [eauto|done..]. Qed.

Lemma ok_or_inl {E A} (o : option A) (e : E) a : ok_or o e = Done (inl a) → o = Some a.
Proof. destruct o; [|done]. by intros [= ->]. Qed.

Lemma returns_inl {E A} (m : outcome A) a : returns (E:=E) m = Done (inl a) → m = Done a.
Proof. destruct m; [|done]. by intros [= ->]. Qed.

Lemma out_bind_done {A B} (m : outcome A) (f : A → outcome B) b :
  (m ≫= f) = Done b → ∃ a, m = Done a ∧ f a = Done b.
Proof. unfold mbind, outcome_bind. destruct m as [a|]; [eauto|done]. Qed.

(** [?] in stateful code: the rest runs on the value, an error is returned. *)
Definition try_bind {S E A B} (m : M S (A + E)) (k : A → M S (B + E)) : M S (B + E) :=
  r ← m; match r with inl a => k a | inr e => mret (inr e) end.
Notation "x ←? m ; k" := (try_bind m (λ x, k)) (at level 20, m at level 100, k at level 200, only parsing).

(** ** Weakest preconditions

    [wp m Q s]: run from [s], [m] does not panic and its result and final
    state satisfy [Q].  All properties of stateful operations are stated with
    it, so each of them also says that the operation returns. *)

Definition wp {S A} (m : M S A) (Q : A → S → Prop) (s : S) : Prop :=
  match m s with Done (a, s') => Q a s' | Panic _ => False end.

Section wp.
Context {S : Type}.
Implicit Types s : S.

Lemma wp_ret {A} (a : A) (Q : A → S → Prop) s : Q a s → wp (mret a) Q s.
Proof. done. Qed.

Lemma wp_bind {A B} (m : M S A) (f : A → M S B) (Q : B → S → Prop) s :
  wp m (λ a s', wp (f a) Q s') s → wp (m ≫= f) Q s.
Proof. unfold wp, mbind, M_bind. by destruct (m s) as [[a s']|]. Qed.

Lemma wp_bind_inv {A B} (m : M S A) (f : A → M S B) (Q : B → S → Prop) s :
  wp (m ≫= f) Q s → wp m (λ a s', wp (f a) Q s') s.
Proof. unfold wp, mbind, M_bind. by destruct (m s) as [[a s']|]. Qed.

Lemma wp_mono {A} (m : M S A) (P Q : A → S → Prop) s :
  wp m P s → (∀ a s', P a s' → Q a s') → wp m Q s.
Proof. unfold wp. destruct (m s) as [[a s']|]; eauto. Qed.

Lemma wp_run {A} (m : M S A) (Q : A → S → Prop) s : wp m Q s → ∃ a s', m s = Done (a, s') ∧ Q a s'.
Proof. unfold wp. destruct (m s) as [[a s']|]; [eauto|done]. Qed.

Lemma wp_try {E A B} (m : M S (A + E)) (k : A → M S (B + E)) (Q : B + E → S → Prop) s :
  wp m (λ r s', match r with inl a => wp (k a) Q s' | inr e => Q (inr e) s' end) s → wp (try_bind m k) Q s.
Proof. unfold wp, try_bind, mbind, M_bind. destruct (m s) as [[[a|e] s']|]; done. Qed.

Lemma wp_gets {A} (f : S → A) (Q : A → S → Prop) s : Q (f s) s → wp (gets f) Q s.
Proof. done. Qed.

Lemma wp_modify (f : S → S) (Q : unit → S → Prop) s : Q tt (f s) → wp (modify f) Q s.
Proof. done. Qed.

Lemma wp_reads {A} (f : S → outcome A) (Q : A → S → Prop) s a :
  f s = Done a → Q a s → wp (reads f) Q s.
Proof. unfold wp, reads. by intros ->. Qed.

Lemma wp_assert (b : bool) why (Q : unit → S → Prop) s :
  b = true → Q tt s → wp (assert_that b why) Q s.
Proof. by intros ->. Qed.

Lemma wp_expect {A} (o : option A) why (Q : A → S → Prop) s a :
  o = Some a → Q a s → wp (expect o why) Q s.
Proof. by intros ->. Qed.

Lemma wp_conj {A} (m : M S A) (P Q : A → S → Prop) s :
  wp m P s → wp m Q s → wp m (λ a s', P a s' ∧ Q a s') s.
Proof. unfold wp. by destruct (m s) as [[a s']|]. Qed.

(** The result a [wp] speaks about. *)
Lemma wp_done {A} (m : M S A) (Q : A → S → Prop) s :
  wp m Q s ↔ ∃ a s', m s = Done (a, s') ∧ Q a s'.
Proof.
  unfold wp. destruct (m s) as [[a s']|]; split; intros; naive_solver.
Qed.
End wp.

(** One step of symbolic execution of a monadic body. *)
Ltac wp_step :=
  match goal with
  | |- wp (mbind _ _) _ _ => apply wp_bind
  | |- wp (mret _) _ _ => apply wp_ret
  | |- wp (gets _) _ _ => apply wp_gets
  | |- wp (modify _) _ _ => apply wp_modify
  | |- wp (assert_that _ _) _ _ => apply wp_assert
  end; cbv beta.

(** ** Lists *)

Section list_lemmas.
Context {A : Type}.
Implicit Types l : list A.

(** Tests that agree on the elements of a list select the same elements. *)
Lemma list_filter_ext_on (P1 P2 : A → Prop) `{∀ x, Decision (P1 x)} `{∀ x, Decision (P2 x)} l :
  (∀ x, x ∈ l → P1 x ↔ P2 x) → filter P1 l = filter P2 l.
Proof.
  induction l as [|x l IH]; intros HP; [done|]. rewrite !filter_cons, IH.
  - by rewrite (decide_ext (P1 x) (P2 x)) by (apply HP, list_elem_of_here).
  - intros y Hy. apply HP. by right.
Qed.

Lemma list_alter_compose (f g : A → A) l i : alter (g ∘ f) i l = alter g i (alter f i l).
Proof.
  apply list_eq. intros j. destruct (decide (i = j)) as [->|Hne].
  - rewrite !list_lookup_alter_eq. by destruct (l !! j).
  - by rewrite !list_lookup_alter_ne by done.
Qed.

Lemma list_alter_commute (f g : A → A) l i j :
  i ≠ j → alter g j (alter f i l) = alter f i (alter g j l).
Proof.
  intros Hne. apply list_eq. intros k. destruct (decide (i = k)) as [->|Hi].
  - by rewrite list_lookup_alter_ne, !list_lookup_alter_eq, list_lookup_alter_ne by done.
  - destruct (decide (j = k)) as [->|].
    + by rewrite list_lookup_alter_eq, !list_lookup_alter_ne, list_lookup_alter_eq by done.
    + by rewrite !list_lookup_alter_ne by done.
Qed.

Lemma list_insert_as_alter (f : A → A) l i x : l !! i = Some x → <[i := f x]> l = alter f i l.
Proof.
  intros Hx. apply list_eq. intros j. destruct (decide (i = j)) as [<-|Hne].
  - rewrite list_lookup_alter_eq, Hx. apply list_lookup_insert_eq. by apply lookup_lt_Some in Hx.
  - by rewrite list_lookup_alter_ne, list_lookup_insert_ne.
Qed.

(** A duplicate-free list of indices below [n] that avoids one of them has
    fewer than [n] elements: the capacity argument of every bounded queue. *)
Lemma NoDup_below_length (l : list nat) (n : nat) :
  NoDup l → (∀ i, i ∈ l → i < n) → length l ≤ n.
Proof.
  intros Hnd Hlt. rewrite <-(length_seq n 0).
  apply submseteq_length, NoDup_submseteq; [done|].
  intros i Hi. apply elem_of_seq. specialize (Hlt i Hi). lia.
Qed.

Lemma NoDup_below_avoid_length (l : list nat) (n k : nat) :
  NoDup l → (∀ i, i ∈ l → i < n) → k < n → k ∉ l → length l ≤ n - 1.
Proof.
  intros Hnd Hlt Hk Hnin.
  assert (length (k :: l) ≤ n) as Hle; [|simpl in Hle; lia].
  apply NoDup_below_length; [by constructor|].
  intros i [->|Hi]%elem_of_cons; eauto.
Qed.
End list_lemmas.

(** ** Rings *)

(** Positions less than a ring's capacity apart have different slots. *)
Lemma ring_slot_inj (h n i j : nat) : 0 < n → i < j → j < i + n → (h + i) mod n ≠ (h + j) mod n.
Proof.
  intros Hn Hij Hj Heq.
  pose proof (Nat.div_mod (h + i) n ltac:(lia)) as Hi. pose proof (Nat.div_mod (h + j) n ltac:(lia)) as Hd.
  rewrite <-Heq in Hd. assert (n * ((h + j) / n) = n * ((h + i) / n) + (j - i)) as Hq by lia.
  assert ((h + i) / n < (h + j) / n) as Hlt by nia. nia.
Qed.
