(* ===== verification/Types.v ===== *)
(** * Shared identities and configuration

    The identities that every kernel component exchanges: logical CPUs
    ([kernel/src/cpu.rs]), generation-bearing thread handles
    ([kernel/src/sched/mod.rs]), wait tokens ([kernel/src/sched/wait.rs]) and
    timed events ([kernel/src/time.rs]), with the fixed capacities of
    [kernel/src/config.rs]. *)

From stdpp Require Import countable.
From S2P Require Import Prelude.

(** ** Configuration *)

Definition GENRT_PATH_MAX : nat := 4096.
Definition SCHED_RR_QUANTUM_MS : Z := 10.
Definition KERNEL_THREAD_CAPACITY : nat := 12.
Definition KERNEL_CPU_CAPACITY : nat := 4.
Definition TIMED_EVENT_CAPACITY_PER_THREAD : nat := 3.
Definition THREAD_STACK_SIZE : Z := 32768.
Definition INITIAL_THREAD_GENERATION : Z := 1.

(** ** Logical CPU identities

    [CpuId] wraps an index below [KERNEL_CPU_CAPACITY]; [from_index] is its
    checked constructor. *)
Abbreviation CpuId := nat (only parsing).

Definition CpuId_from_index (index : nat) : option CpuId :=
  if decide (index < KERNEL_CPU_CAPACITY) then Some index else None.

(** ** Thread handles *)
Record ThreadId := mkThreadId { tid_index : nat; tid_generation : Z }.

#[global] Instance ThreadId_eq_dec : EqDecision ThreadId.
Proof. solve_decision. Defined.

#[global] Program Instance ThreadId_countable : Countable ThreadId :=
  inj_countable' (λ t, (tid_index t, tid_generation t)) (λ p, mkThreadId p.1 p.2) _.
Next Obligation. by intros []. Qed.

(** ** Wait tokens *)
Record WaitToken := mkWaitToken {
  wt_thread : ThreadId;
  wt_cpu : CpuId;
  wt_sequence : Z
}.

#[global] Instance WaitToken_eq_dec : EqDecision WaitToken.
Proof. solve_decision. Defined.

#[global] Program Instance WaitToken_countable : Countable WaitToken :=
  inj_countable' (λ t, (wt_thread t, wt_cpu t, wt_sequence t))
                 (λ p, mkWaitToken p.1.1 p.1.2 p.2) _.
Next Obligation. by intros []. Qed.

Inductive WaitCause := Notified | Timeout.

#[global] Instance WaitCause_eq_dec : EqDecision WaitCause.
Proof. solve_decision. Defined.

(** ** Timed events *)
Inductive TimedEvent :=
| WaitDeadline (cpu : CpuId) (token : WaitToken)
| QuantumExpired (cpu : CpuId) (thread : ThreadId).

#[global] Instance TimedEvent_eq_dec : EqDecision TimedEvent.
Proof. solve_decision. Defined.

#[global] Program Instance TimedEvent_countable : Countable TimedEvent :=
  inj_countable'
    (λ e, match e with
          | WaitDeadline c t => inl (c, t)
          | QuantumExpired c t => inr (c, t)
          end)
    (λ s, match s with
          | inl (c, t) => WaitDeadline c t
          | inr (c, t) => QuantumExpired c t
          end) _.
Next Obligation. by intros []. Qed.

Definition wait_deadline (token : WaitToken) : TimedEvent :=
  WaitDeadline (wt_cpu token) token.
Definition quantum_expired (cpu : CpuId) (thread : ThreadId) : TimedEvent :=
  QuantumExpired cpu thread.
Definition event_cpu (e : TimedEvent) : CpuId :=
  match e with WaitDeadline cpu _ => cpu | QuantumExpired cpu _ => cpu end.
