(* ===== verification/Wait.v ===== *)
(** * Wait metadata: the inline state machine of one blocking episode

    Models [kernel/src/sched/wait.rs], [WaitMetadata] and its operations.  A
    thread owns at most one active wait; external owners hold only the exact
    [WaitToken].  The theorems show that the first exact completion wins, that
    a wait is completed effectively at most once, and that a token whose wait
    is over can never affect a later one, slot reuse included. *)

From S2P Require Import Prelude Types.

Inductive WaitPhase := Prepared | PhaseBlocked | Completed (cause : WaitCause).
Inductive WaitConsumption := Explicit | Automatic.

#[global] Instance WaitPhase_eq_dec : EqDecision WaitPhase.
Proof. solve_decision. Defined.
#[global] Instance WaitConsumption_eq_dec : EqDecision WaitConsumption.
Proof. solve_decision. Defined.

Record PreparedWait := mkPreparedWait {
  pw_token : WaitToken;
  pw_consumption : WaitConsumption
}.

Record ActiveWait := mkActiveWait {
  aw_token : WaitToken;
  aw_phase : WaitPhase;
  aw_consumption : WaitConsumption
}.

Record WaitMetadata := mkWaitMetadata {
  next_sequence : Z;
  active : option ActiveWait
}.

#[global] Instance ActiveWait_eq_dec : EqDecision ActiveWait.
Proof. solve_decision. Defined.
#[global] Instance WaitMetadata_eq_dec : EqDecision WaitMetadata.
Proof. solve_decision. Defined.

Inductive CompletionResult := CompletedPrepared | WokeBlocked | AlreadyCompleted | CompletionStale.
Inductive CommitState := Block (token : WaitToken) | Early (cause : WaitCause) | CommitStale.
Inductive CancelResult := Cancelled | CancelCompleted (cause : WaitCause) | CancelStale.
Inductive FinishError := FinishStale | NotCompleted.

#[global] Instance CompletionResult_eq_dec : EqDecision CompletionResult.
Proof. solve_decision. Defined.

Definition with_next_sequence (n : Z) : WaitMetadata := mkWaitMetadata n None.

Definition set_phase (a : ActiveWait) (p : WaitPhase) : ActiveWait :=
  mkActiveWait (aw_token a) p (aw_consumption a).
Definition set_active (w : WaitMetadata) (a : option ActiveWait) : WaitMetadata :=
  mkWaitMetadata (next_sequence w) a.
Arguments set_phase _ _ /.
Arguments set_active _ _ /.

Definition prepare_with_consumption (w : WaitMetadata) (thread : ThreadId) (cpu : CpuId)
    (consumption : WaitConsumption) : outcome (PreparedWait * WaitMetadata) :=
  match active w with
  | Some _ => Panic "sched: new wait before prior completion is consumed"
  | None =>
      match u64_checked_add (next_sequence w) 1 with
      | None => Panic "sched: wait sequence overflow before publication"
      | Some n =>
          let token := mkWaitToken thread cpu n in
          Done (mkPreparedWait token consumption,
                mkWaitMetadata n (Some (mkActiveWait token Prepared consumption)))
      end
  end.

Definition prepare w thread cpu := prepare_with_consumption w thread cpu Explicit.
Definition prepare_automatic w thread cpu := prepare_with_consumption w thread cpu Automatic.

Definition commit (w : WaitMetadata) (prepared : PreparedWait) : CommitState * WaitMetadata :=
  match active w with
  | None => (CommitStale, w)
  | Some a =>
      if decide (aw_token a ≠ pw_token prepared) then (CommitStale, w)
      else match aw_phase a with
           | Prepared =>
               if decide (aw_consumption a = pw_consumption prepared)
               then (Block (aw_token a), set_active w (Some (set_phase a PhaseBlocked)))
               else (CommitStale, w)
           | Completed cause => (Early cause, set_active w None)
           | PhaseBlocked => (CommitStale, w)
           end
  end.

Definition complete (w : WaitMetadata) (token : WaitToken) (cause : WaitCause)
    : CompletionResult * WaitMetadata :=
  match active w with
  | None => (CompletionStale, w)
  | Some a =>
      if decide (aw_token a ≠ token) then (CompletionStale, w)
      else match aw_phase a with
           | Prepared =>
               (CompletedPrepared, set_active w (Some (set_phase a (Completed cause))))
           | PhaseBlocked =>
               (WokeBlocked,
                match aw_consumption a with
                | Explicit => set_active w (Some (set_phase a (Completed cause)))
                | Automatic => set_active w None
                end)
           | Completed _ => (AlreadyCompleted, w)
           end
  end.

Definition cancel (w : WaitMetadata) (prepared : PreparedWait) : CancelResult * WaitMetadata :=
  match active w with
  | None => (CancelStale, w)
  | Some a =>
      if decide (aw_token a ≠ pw_token prepared) then (CancelStale, w)
      else match aw_phase a with
           | Prepared => (Cancelled, set_active w None)
           | Completed cause => (CancelCompleted cause, set_active w None)
           | PhaseBlocked => (CancelStale, w)
           end
  end.

Definition finish (w : WaitMetadata) (token : WaitToken)
    : (WaitCause + FinishError) * WaitMetadata :=
  match active w with
  | None => (inr FinishStale, w)
  | Some a =>
      if decide (aw_token a ≠ token) then (inr FinishStale, w)
      else match aw_phase a with
           | Completed cause => (inl cause, set_active w None)
           | _ => (inr NotCompleted, w)
           end
  end.

Definition wait_is_none (w : WaitMetadata) : bool :=
  match active w with None => true | Some _ => false end.
Definition wait_is_prepared (w : WaitMetadata) : bool :=
  match active w with Some (mkActiveWait _ Prepared _) => true | _ => false end.
Definition wait_is_blocked (w : WaitMetadata) : bool :=
  match active w with Some (mkActiveWait _ PhaseBlocked _) => true | _ => false end.
Definition wait_is_completed (w : WaitMetadata) : bool :=
  match active w with Some (mkActiveWait _ (Completed _) _) => true | _ => false end.

(** ** Histories of one thread slot

    Everything the kernel does to the wait metadata of a slot.  [OpReuse] is
    the release of the slot followed by its next publication: [release]
    refuses active metadata and [publish] restarts from the parked sequence. *)

Inductive wait_op :=
| OpPrepare (thread : ThreadId) (cpu : CpuId) (consumption : WaitConsumption)
| OpCommit (prepared : PreparedWait)
| OpComplete (token : WaitToken) (cause : WaitCause)
| OpCancel (prepared : PreparedWait)
| OpFinish (token : WaitToken)
| OpReuse.

Definition apply_op (w : WaitMetadata) (o : wait_op) : outcome WaitMetadata :=
  match o with
  | OpPrepare t c k => '(_, w') ← prepare_with_consumption w t c k; mret w'
  | OpCommit p => mret (commit w p).2
  | OpComplete t c => mret (complete w t c).2
  | OpCancel p => mret (cancel w p).2
  | OpFinish t => mret (finish w t).2
  | OpReuse => if wait_is_none w then mret (with_next_sequence (next_sequence w))
               else Panic "sched: release with active wait metadata"
  end.

Definition wait_step (w w' : WaitMetadata) : Prop := ∃ o, apply_op w o = Done w'.

(** The completions of [token] that had an effect along a run. *)
Definition effective (w : WaitMetadata) (token : WaitToken) (o : wait_op) : nat :=
  match o with
  | OpComplete t c =>
      if decide (t = token) then
        match (complete w t c).1 with
        | CompletedPrepared | WokeBlocked => 1
        | _ => 0
        end
      else 0
  | _ => 0
  end.

Fixpoint effective_completions (token : WaitToken) (w : WaitMetadata) (ops : list wait_op) : nat :=
  match ops with
  | [] => 0
  | o :: ops' =>
      match apply_op w o with
      | Done w' => effective w token o + effective_completions token w' ops'
      | Panic _ => 0
      end
  end.

(** [token] no longer names the active wait and never will again. *)
Definition ended (token : WaitToken) (w : WaitMetadata) : Prop :=
  (wt_sequence token <= next_sequence w)%Z ∧
  ∀ a, active w = Some a → aw_token a ≠ token.

Ltac wait_cases :=
  repeat match goal with
  | |- context [match active ?w with _ => _ end] => destruct (active w) as [[? [] []]|] eqn:?
  | H : context [match active ?w with _ => _ end] |- _ =>
      destruct (active w) as [[? [] []]|] eqn:?
  | _ => progress simpl in *
  | _ => case_decide
  | _ => progress simplify_eq
  end.

Lemma prepare_inv w t c k p w' :
  prepare_with_consumption w t c k = Done (p, w') →
  active w = None ∧
  p = mkPreparedWait (mkWaitToken t c (next_sequence w + 1)) k ∧
  w' = mkWaitMetadata (next_sequence w + 1) (Some (mkActiveWait (pw_token p) Prepared k)).
Proof.
  unfold prepare_with_consumption, u64_checked_add.
  destruct (active w); [done|].
  destruct (_ <=? _)%Z; intros ?; by simplify_eq/=.
Qed.

Lemma ended_step token w o w' : ended token w → apply_op w o = Done w' → ended token w'.
Proof.
  intros [Hle Hne] Hop. unfold ended.
  destruct o; simpl in Hop; unfold mret, outcome_ret in Hop.
  - destruct (prepare_with_consumption _ _ _ _) as [[p w1]|] eqn:H; simplify_eq/=.
    apply prepare_inv in H as (_ & -> & ->). simpl. split; [lia|].
    intros a [= <-]; simpl. intros <-. simpl in *. lia.
  - unfold commit in Hop. wait_cases; naive_solver.
  - unfold complete in Hop. wait_cases; naive_solver.
  - unfold cancel in Hop. wait_cases; naive_solver.
  - unfold finish in Hop. wait_cases; naive_solver.
  - case_match; simplify_eq/=. naive_solver.
Qed.

Lemma ended_steps token w w' : ended token w → rtc wait_step w w' → ended token w'.
Proof. intros He Hs. induction Hs as [|w1 w2 w3 [o Ho]]; eauto using ended_step. Qed.

Lemma issued_seq_le token w o w' :
  (wt_sequence token <= next_sequence w)%Z → apply_op w o = Done w' →
  (wt_sequence token <= next_sequence w')%Z.
Proof.
  intros Hle Hop. destruct o; simpl in Hop; unfold mret, outcome_ret in Hop.
  - destruct (prepare_with_consumption _ _ _ _) as [[p w1]|] eqn:H; simplify_eq/=.
    apply prepare_inv in H as (_ & -> & ->). simpl. lia.
  - unfold commit in Hop. by wait_cases.
  - unfold complete in Hop. by wait_cases.
  - unfold cancel in Hop. by wait_cases.
  - unfold finish in Hop. by wait_cases.
  - case_match; by simplify_eq/=.
Qed.

Lemma ended_inert token w cause p :
  ended token w → pw_token p = token →
  complete w token cause = (CompletionStale, w) ∧ commit w p = (CommitStale, w) ∧
  cancel w p = (CancelStale, w) ∧ finish w token = (inr FinishStale, w).
Proof.
  intros [_ Hne] Hp. unfold complete, commit, cancel, finish.
  destruct (active w) as [a|] eqn:Ha; [|done].
  specialize (Hne a eq_refl). subst token. rewrite !decide_True by done. done.
Qed.

(** Only completions are applied: the owner has not consumed the wait yet. *)
Definition complete_all (w : WaitMetadata) (cs : list (WaitToken * WaitCause)) : WaitMetadata :=
  foldl (λ w '(t, c), (complete w t c).2) w cs.

Lemma complete_all_completed w cs a c :
  active w = Some (set_phase a (Completed c)) → complete_all w cs = w.
Proof.
  intros Ha. revert w Ha. induction cs as [|[t c'] cs IH]; intros w Ha; [done|].
  simpl. replace (complete w t c').2 with w; [by apply IH|].
  unfold complete. rewrite Ha. simpl. by case_decide.
Qed.

(** Under [bound 1] the token is prepared or blocked and may still be
    completed, under [bound 0] its episode is over or decided. *)
Definition open_or_done (token : WaitToken) (w : WaitMetadata) (bound : nat) : Prop :=
  (wt_sequence token <= next_sequence w)%Z ∧
  match active w with
  | Some a => aw_token a = token → match aw_phase a with Completed _ => True | _ => bound = 1 end
  | None => True
  end.

Lemma open_or_done_step token w o w' n :
  open_or_done token w n → apply_op w o = Done w' →
  effective w token o ≤ n ∧ open_or_done token w' (n - effective w token o).
Proof.
  intros Hn Hop.
  destruct (decide (effective w token o = 0)) as [He|He].
  - rewrite He. split; [lia|]. rewrite Nat.sub_0_r.
    split; [by eapply issued_seq_le; [apply Hn|]|].
    destruct Hn as [Hle Hact].
    destruct o; simpl in Hop; unfold mret, outcome_ret in Hop.
    + destruct (prepare_with_consumption _ _ _ _) as [[p w1]|] eqn:H; simplify_eq/=.
      apply prepare_inv in H as (_ & -> & ->). simpl. intros <-. simpl in *. lia.
    + unfold commit in Hop. wait_cases; naive_solver.
    + unfold effective, complete in He. unfold complete in Hop. wait_cases; naive_solver.
    + unfold cancel in Hop. wait_cases; naive_solver.
    + unfold finish in Hop. wait_cases; naive_solver.
    + case_match; by simplify_eq/=.
  - destruct o; simpl in He; try done. simpl in Hop. case_decide as Ht; [subst token0|done].
    destruct Hn as [Hle Hact]. unfold effective. rewrite decide_True by done.
    unfold open_or_done, complete, mret, outcome_ret in *.
    wait_cases; naive_solver.
Qed.

Lemma effective_completions_le token ops w n :
  open_or_done token w n → effective_completions token w ops ≤ n.
Proof.
  revert w n. induction ops as [|o ops IH]; intros w n Hn; simpl; [lia|].
  destruct (apply_op w o) as [w'|] eqn:Ho; [|lia].
  destruct (open_or_done_step _ _ _ _ _ Hn Ho) as [Hle Hn'].
  specialize (IH _ _ Hn'). lia.
Qed.

(** ** Properties *)

(** The first exact completion of a wait wins.  Once a prepared wait, or a
    blocked wait with explicit consumption, was completed with [cause], no
    later completion by any owner, duplicate, timeout or stale, changes the
    metadata, and the owner's [finish] consumes exactly [cause]. *)
Theorem first_completion_wins w token cause w1 cs :
  complete w token cause = (CompletedPrepared, w1) ∨
  (complete w token cause = (WokeBlocked, w1) ∧ active w1 ≠ None) →
  complete_all w1 cs = w1 ∧
  finish (complete_all w1 cs) token = (inl cause, with_next_sequence (next_sequence w)).
Proof.
  intros Hc.
  assert (∃ a, active w1 = Some (set_phase a (Completed cause)) ∧ aw_token a = token ∧
               next_sequence w1 = next_sequence w) as (a & Ha & Ht & Hn).
  { unfold complete in Hc. destruct (active w) as [a|] eqn:Ha; [|naive_solver].
    exists a. destruct (decide (aw_token a ≠ token)) as [|Ht%dec_stable]; [naive_solver|].
    destruct (aw_phase a); destruct (aw_consumption a);
      destruct Hc as [?|[??]]; by simplify_eq/=. }
  rewrite (complete_all_completed _ _ _ _ Ha). split; [done|].
  unfold finish. rewrite Ha. simpl. rewrite decide_False by naive_solver.
  unfold set_active, with_next_sequence. by rewrite Hn.
Qed.

Lemma first_completion_wins_witness :
  let w := mkWaitMetadata 1 (Some (mkActiveWait (mkWaitToken (mkThreadId 1 7) 0 1) Prepared Explicit)) in
  let token := mkWaitToken (mkThreadId 1 7) 0 1 in
  finish (complete_all (complete w token Notified).2 [(token, Timeout)]) token
  = (inl Notified, with_next_sequence 1).
Proof.
  intros w token.
  apply (first_completion_wins w token Notified (complete w token Notified).2 [(token, Timeout)]).
  left. vm_compute. reflexivity.
Defined.

(** C31: each registration is completed effectively at most once: along every
    sequence of operations that follows a [prepare], slot reuse included, at
    most one completion of its token reports [CompletedPrepared] or
    [WokeBlocked] (so a blocked thread is made ready at most once per wait). *)
Theorem completed_at_most_once w thread cpu k p w1 ops :
  prepare_with_consumption w thread cpu k = Done (p, w1) →
  effective_completions (pw_token p) w1 ops ≤ 1.
Proof.
  intros (_ & -> & ->)%prepare_inv. apply effective_completions_le.
  split; simpl; [lia|done].
Qed.

Lemma completed_at_most_once_witness :
  effective_completions (mkWaitToken (mkThreadId 1 7) 0 1)
    (mkWaitMetadata 1 (Some (mkActiveWait (mkWaitToken (mkThreadId 1 7) 0 1) Prepared Automatic)))
    [OpCommit (mkPreparedWait (mkWaitToken (mkThreadId 1 7) 0 1) Automatic);
     OpComplete (mkWaitToken (mkThreadId 1 7) 0 1) Timeout; OpReuse;
     OpComplete (mkWaitToken (mkThreadId 1 7) 0 1) Notified] ≤ 1.
Proof.
  apply (completed_at_most_once (with_next_sequence 0) (mkThreadId 1 7) 0 Automatic
           (mkPreparedWait (mkWaitToken (mkThreadId 1 7) 0 1) Automatic)).
  vm_compute. reflexivity.
Defined.

(** A delayed completion cannot name a later wait.  Once the wait named by
    an issued token is over (committed early, cancelled, finished, or completed
    automatically), every operation with that token is refused as stale and
    leaves the metadata unchanged, whatever waits, completions and slot reuses
    happened in between. *)
Theorem stale_token_inert w thread cpu k p w1 w2 w3 cause :
  prepare_with_consumption w thread cpu k = Done (p, w1) →
  rtc wait_step w1 w2 →
  (∀ a, active w2 = Some a → aw_token a ≠ pw_token p) →
  rtc wait_step w2 w3 →
  complete w3 (pw_token p) cause = (CompletionStale, w3) ∧
  commit w3 p = (CommitStale, w3) ∧
  cancel w3 p = (CancelStale, w3) ∧
  finish w3 (pw_token p) = (inr FinishStale, w3).
Proof.
  intros Hp H12 Hne H23. apply ended_inert; [|done].
  eapply ended_steps; [|done]. split; [|done].
  apply prepare_inv in Hp as (_ & -> & ->). simpl.
  assert (next_sequence w + 1 <= next_sequence w2)%Z; [|done].
  clear -H12. set (t := mkWaitToken thread cpu (next_sequence w + 1)).
  assert (wt_sequence t <= next_sequence w2)%Z as Ht; [|done].
  remember (mkWaitMetadata _ _) as w1 eqn:Hw1.
  assert (wt_sequence t <= next_sequence w1)%Z as Hle by (subst; simpl; lia).
  clear Hw1. induction H12 as [|x y z [o Ho] _ IH]; [done|].
  apply IH. by eapply issued_seq_le.
Qed.

Lemma stale_token_inert_witness :
  let token := mkWaitToken (mkThreadId 1 7) 0 1 in
  let w3 := mkWaitMetadata 2 (Some (mkActiveWait (mkWaitToken (mkThreadId 1 8) 0 2) Prepared Explicit)) in
  complete w3 token Timeout = (CompletionStale, w3).
Proof.
  intros token w3.
  set (p := mkPreparedWait token Explicit).
  refine (proj1 (stale_token_inert (with_next_sequence 0) (mkThreadId 1 7) 0 Explicit p
            (mkWaitMetadata 1 (Some (mkActiveWait token Prepared Explicit)))
            (with_next_sequence 1) w3 Timeout _ _ _ _)).
  - vm_compute. reflexivity.
  - apply rtc_once. exists (OpCancel p). vm_compute. reflexivity.
  - intros a Ha. inversion Ha.
  - eapply rtc_l; [|apply rtc_once].
    + exists OpReuse. vm_compute. reflexivity.
    + exists (OpPrepare (mkThreadId 1 8) 0 Explicit). vm_compute. reflexivity.
Defined.
