(* ===== verification/Deadline.v ===== *)
(** * The deadline queue: a bounded binary heap of timed events

    Models [DeadlineQueue] of [kernel/src/time.rs]: the array heap, its sift
    loops, keyed update, removal and extraction.  Loops carry fuel and report
    running out of it as a panic, so a proof that an operation does not panic
    also proves that its loop ends.  The abstract specification is a finite map
    from events to deadlines ([DeadlineService]); [heap_service] shows that the
    heap implements it. *)

From stdpp Require Import gmap sorting.
From S2P Require Import Prelude Types.

Record DeadlineEntry := mkDeadlineEntry { de_deadline : Z; de_event : TimedEvent }.

#[global] Instance DeadlineEntry_eq_dec : EqDecision DeadlineEntry.
Proof. solve_decision. Defined.

Record DeadlineQueue := mkDeadlineQueue {
  dq_entries : list DeadlineEntry;
  dq_reserved : nat
}.

(** ** Operations *)

Definition sort_key (e : TimedEvent) : Z * Z * Z * Z :=
  match e with
  | WaitDeadline _ token =>
      (0, Z.of_nat (tid_index (wt_thread token)), tid_generation (wt_thread token),
       wt_sequence token)%Z
  | QuantumExpired _ thread => (1, Z.of_nat (tid_index thread), tid_generation thread, 0)%Z
  end.

(** Lexicographic [<] on the four key components. *)
Definition key_lt (a b : Z * Z * Z * Z) : bool :=
  let '(a1, a2, a3, a4) := a in
  let '(b1, b2, b3, b4) := b in
  (a1 <? b1)%Z || ((a1 =? b1)%Z && ((a2 <? b2)%Z || ((a2 =? b2)%Z &&
    ((a3 <? b3)%Z || ((a3 =? b3)%Z && (a4 <? b4)%Z))))).

Definition entry_less (l r : DeadlineEntry) : bool :=
  (de_deadline l <? de_deadline r)%Z ||
  ((de_deadline l =? de_deadline r)%Z && key_lt (sort_key (de_event l)) (sort_key (de_event r))).

Definition entry_at (es : list DeadlineEntry) (i : nat) : outcome DeadlineEntry :=
  expect_o (es !! i) "index out of bounds".

Definition less (es : list DeadlineEntry) (lhs rhs : nat) : outcome bool :=
  left ← entry_at es lhs; right ← entry_at es rhs; mret (entry_less left right).

Definition swap (es : list DeadlineEntry) (i j : nat) : outcome (list DeadlineEntry) :=
  a ← entry_at es i; b ← entry_at es j; mret (<[j:=a]> (<[i:=b]> es)).

Definition parent (index : nat) : nat := (index - 1) / 2.
Definition left_child (index : nat) : nat := index * 2 + 1.

Fixpoint sift_up (fuel : nat) (es : list DeadlineEntry) (index : nat)
    : outcome (list DeadlineEntry) :=
  match fuel with
  | 0 => Panic "sift_up: out of fuel"
  | S fuel =>
      if decide (0 < index) then
        b ← less es index (parent index);
        if (b : bool) then
          es' ← swap es index (parent index); sift_up fuel es' (parent index)
        else mret es
      else mret es
  end.

Fixpoint sift_down (fuel : nat) (es : list DeadlineEntry) (index : nat)
    : outcome (list DeadlineEntry) :=
  match fuel with
  | 0 => Panic "sift_down: out of fuel"
  | S fuel =>
      let left := left_child index in
      if decide (length es ≤ left) then mret es
      else
        let right := left + 1 in
        best ← (if decide (right < length es) then
                  b ← less es right left; mret (if (b : bool) then right else left)
                else mret left);
        b ← less es best index;
        if (b : bool) then es' ← swap es index best; sift_down fuel es' best
        else mret es
  end.

(** The sift loops run at most once per level; the length bounds both. *)
Definition heap_sift_up (es : list DeadlineEntry) (index : nat) := sift_up (S index) es index.
Definition heap_sift_down (es : list DeadlineEntry) (index : nat) := sift_down (S (length es)) es index.

Definition find_event_index (es : list DeadlineEntry) (event : TimedEvent) : option nat :=
  fst <$> list_find (λ e, de_event e = event) es.

Definition remove_at (es : list DeadlineEntry) (index : nat)
    : outcome (DeadlineEntry * list DeadlineEntry) :=
  match es with
  | [] => Panic "attempt to subtract with overflow"
  | _ =>
      let last_index := length es - 1 in
      es1 ← swap es index last_index;
      removed ← expect_o (last es1) "time: empty deadline queue";
      let es2 := take last_index es1 in
      es3 ← (if decide (index < length es2) then
               up ← (if decide (0 < index) then less es2 index (parent index) else mret false);
               if (up : bool) then heap_sift_up es2 index else heap_sift_down es2 index
             else mret es2);
      mret (removed, es3)
  end.

Definition set_entries (q : DeadlineQueue) (es : list DeadlineEntry) : DeadlineQueue :=
  mkDeadlineQueue es (dq_reserved q).

Definition schedule (q : DeadlineQueue) (deadline : Z) (event : TimedEvent) : outcome DeadlineQueue :=
  let es := dq_entries q in
  match find_event_index es event with
  | Some index =>
      old ← entry_at es index;
      let es1 := <[index := mkDeadlineEntry deadline (de_event old)]> es in
      es2 ← (if (deadline <? de_deadline old)%Z then heap_sift_up es1 index
             else if (de_deadline old <? deadline)%Z then heap_sift_down es1 index
             else mret es1);
      mret (set_entries q es2)
  | None =>
      if decide (length es = dq_reserved q) then Panic "time: deadline queue capacity exhausted"
      else
        let es1 := es ++ [mkDeadlineEntry deadline event] in
        es2 ← heap_sift_up es1 (length es1 - 1);
        mret (set_entries q es2)
  end.

Definition cancel_entry (q : DeadlineQueue) (event : TimedEvent) : outcome (bool * DeadlineQueue) :=
  match find_event_index (dq_entries q) event with
  | None => mret (false, q)
  | Some index =>
      '(_, es) ← remove_at (dq_entries q) index; mret (true, set_entries q es)
  end.

Definition queue_event_pending (q : DeadlineQueue) (event : TimedEvent) : bool :=
  match find_event_index (dq_entries q) event with Some _ => true | None => false end.

Definition pop_expired (q : DeadlineQueue) (now : Z) : outcome (option TimedEvent * DeadlineQueue) :=
  match head (dq_entries q) with
  | None => mret (None, q)
  | Some entry =>
      if (now <? de_deadline entry)%Z then mret (None, q)
      else
        '(removed, es) ← remove_at (dq_entries q) 0;
        mret (Some (de_event removed), set_entries q es)
  end.

Definition next_deadline (q : DeadlineQueue) : option Z :=
  de_deadline <$> head (dq_entries q).

Definition queue_with_capacity (capacity : nat) : DeadlineQueue := mkDeadlineQueue [] capacity.

(** ** The order *)

Definition entry_le (a b : DeadlineEntry) : Prop := entry_less b a = false.

Ltac entry_arith :=
  unfold entry_le, entry_less, key_lt, is_true in *;
  repeat match goal with
  | H : context [sort_key ?e] |- _ =>
      let k := fresh "k" in set (k := sort_key e) in *; clearbody k; destruct k as [[[??]?]?]
  | |- context [sort_key ?e] =>
      let k := fresh "k" in set (k := sort_key e) in *; clearbody k; destruct k as [[[??]?]?]
  end; lia.

Lemma entry_le_refl a : entry_le a a.
Proof. entry_arith. Qed.
Lemma entry_le_trans a b c : entry_le a b → entry_le b c → entry_le a c.
Proof. intros. entry_arith. Qed.
Lemma entry_less_le a b : entry_less a b = true → entry_le a b.
Proof. intros. entry_arith. Qed.
Lemma entry_le_deadline a b : entry_le a b → (de_deadline a <= de_deadline b)%Z.
Proof. intros. entry_arith. Qed.
Lemma entry_le_update_down a d :
  (d < de_deadline a)%Z → entry_le (mkDeadlineEntry d (de_event a)) a.
Proof. intros. unfold entry_le, entry_less; simpl. destruct (key_lt _ _); lia. Qed.
Lemma entry_le_update_up a d :
  (de_deadline a < d)%Z → entry_le a (mkDeadlineEntry d (de_event a)).
Proof. intros. unfold entry_le, entry_less; simpl. destruct (key_lt _ _); lia. Qed.

(** ** The heap property *)

Definition le_at (es : list DeadlineEntry) (i j : nat) : Prop :=
  ∀ a b, es !! i = Some a → es !! j = Some b → entry_le a b.

Definition heap (es : list DeadlineEntry) : Prop := ∀ j, 0 < j → le_at es (parent j) j.

(** The heap property everywhere but around [i]; [above] and [below] are the
    two missing parts, one of which each sift loop restores. *)
Definition hole (es : list DeadlineEntry) (i : nat) : Prop :=
  (∀ j, 0 < j → j ≠ i → parent j ≠ i → le_at es (parent j) j) ∧
  (∀ j, 0 < j → parent j = i → 0 < i → le_at es (parent i) j).
Definition below (es : list DeadlineEntry) (i : nat) : Prop :=
  ∀ j, 0 < j → parent j = i → le_at es i j.
Definition above (es : list DeadlineEntry) (i : nat) : Prop :=
  0 < i → le_at es (parent i) i.

Lemma heap_of_parts es i : hole es i → below es i → above es i → heap es.
Proof.
  intros [H1 _] Hb Ha j Hj.
  destruct (decide (j = i)) as [->|]; [by apply Ha|].
  destruct (decide (parent j = i)) as [<-|]; [by apply Hb|]. by apply H1.
Qed.

Lemma heap_hole es i : heap es → hole es i.
Proof.
  intros Hh. split; [intros; by apply Hh|].
  intros j Hj <- Hp a b Ha Hb.
  destruct (lookup_lt_is_Some_2 es (parent j)) as [c Hc].
  { apply lookup_lt_Some in Hb. unfold parent in *.
    pose proof (Nat.Div0.div_le_upper_bound (j - 1) 2 j). lia. }
  apply entry_le_trans with c; [by apply (Hh (parent j) Hp)|by apply (Hh j Hj)].
Qed.

Lemma parent_lt j : 0 < j → parent j < j.
Proof. intros. unfold parent. apply Nat.Div0.div_lt_upper_bound. lia. Qed.

Lemma parent_children j i : 0 < j → parent j = i → j = left_child i ∨ j = left_child i + 1.
Proof.
  unfold parent, left_child. intros Hj Hp.
  pose proof (Nat.div_mod_eq (j - 1) 2). pose proof (Nat.mod_upper_bound (j - 1) 2). lia.
Qed.

Lemma parent_left i : parent (left_child i) = i.
Proof.
  unfold parent, left_child. replace (i * 2 + 1 - 1) with (i * 2) by lia.
  apply Nat.div_mul. lia.
Qed.
Lemma parent_right i : parent (left_child i + 1) = i.
Proof.
  unfold parent, left_child. replace (i * 2 + 1 + 1 - 1) with (1 + i * 2) by lia.
  rewrite Nat.div_add by lia. done.
Qed.

Lemma less_done es i j a b :
  es !! i = Some a → es !! j = Some b → less es i j = Done (entry_less a b).
Proof. unfold less, entry_at, expect_o. by intros -> ->. Qed.

Lemma swap_done es i j a b :
  i ≠ j → es !! i = Some a → es !! j = Some b →
  ∃ es', swap es i j = Done es' ∧ es' ≡ₚ es ∧ length es' = length es ∧
         es' !! i = Some b ∧ es' !! j = Some a ∧
         (∀ k, k ≠ i → k ≠ j → es' !! k = es !! k).
Proof.
  intros Hij Ha Hb. unfold swap, entry_at, expect_o. rewrite Ha, Hb. simpl.
  eexists. split; [done|].
  pose proof (lookup_lt_Some _ _ _ Ha). pose proof (lookup_lt_Some _ _ _ Hb).
  split_and!.
  - by apply Permutation_insert_swap.
  - by rewrite !length_insert.
  - rewrite list_lookup_insert_ne by done. by apply list_lookup_insert_eq.
  - apply list_lookup_insert_eq. by rewrite length_insert.
  - intros k ??. by rewrite !list_lookup_insert_ne.
Qed.

Lemma swap_up_parts es es' i a b :
  0 < i → hole es i → below es i →
  es !! i = Some a → es !! parent i = Some b → entry_less a b = true →
  es' !! i = Some b → es' !! parent i = Some a →
  (∀ k, k ≠ i → k ≠ parent i → es' !! k = es !! k) →
  hole es' (parent i) ∧ below es' (parent i).
Proof.
  intros Hi [H1 H2] Hb Ha' Hb' Hlt Hes'i Hes'p Hk.
  pose proof (parent_lt i Hi) as Hpi. apply entry_less_le in Hlt as Hle.
  split; [split|].
  - intros j Hj Hjp Hpj. pose proof (parent_lt j Hj).
    assert (j ≠ i) by (intros ->; done).
    destruct (decide (parent j = i)) as [Hpji|Hpji]; intros x y Hx Hy.
    + rewrite Hpji, Hes'i in Hx. simplify_eq. rewrite Hk in Hy by done.
      by apply (H2 j Hj eq_refl Hi).
    + rewrite Hk in Hx, Hy by done. by apply (H1 j).
  - intros j Hj Hpj Hp x y Hx Hy. pose proof (parent_lt _ Hp). pose proof (parent_lt _ Hj).
    rewrite Hk in Hx by lia. destruct (decide (j = i)) as [->|].
    + simplify_eq. apply (H1 (parent i)); [done|lia|lia|done|done].
    + rewrite Hk in Hy by lia. apply entry_le_trans with b.
      * apply (H1 (parent i)); [done|lia|lia|done|done].
      * apply (H1 j); [done|done|lia|by rewrite Hpj|done].
  - intros j Hj Hpj x y Hx Hy. pose proof (parent_lt _ Hj). rewrite Hes'p in Hx. simplify_eq.
    destruct (decide (j = i)) as [->|]; [by simplify_eq|].
    rewrite Hk in Hy by lia. apply entry_le_trans with b; [done|].
    apply (H1 j); [done|done|lia|by rewrite Hpj|done].
Qed.

Lemma sift_up_spec fuel es i :
  i < fuel → i < length es → hole es i → below es i →
  ∃ es', sift_up fuel es i = Done es' ∧ heap es' ∧ es' ≡ₚ es.
Proof.
  revert es i. induction fuel as [|fuel IH]; intros es i Hf Hl Hh Hb; [lia|]. simpl.
  destruct (decide (0 < i)) as [Hi|Hi].
  2:{ exists es. split_and!; [done| |done]. apply (heap_of_parts es i); [done|done|]. intros ?. lia. }
  pose proof (parent_lt i Hi) as Hpi.
  destruct (lookup_lt_is_Some_2 es i Hl) as [a Ha].
  destruct (lookup_lt_is_Some_2 es (parent i)) as [b Hb']; [lia|].
  rewrite (less_done _ _ _ _ _ Ha Hb'). simpl.
  destruct (entry_less a b) eqn:Hlt.
  - destruct (swap_done es i (parent i) a b) as (es1 & Hs & Hperm & Hlen & ? & ? & ?); [lia|done|done|].
    rewrite Hs. simpl.
    destruct (swap_up_parts es es1 i a b) as [Hh1 Hb1]; try done.
    destruct (IH es1 (parent i)) as (es' & He & Hheap & Hp); [lia|lia|done|done|].
    exists es'. split_and!; [done|done|by rewrite Hp].
  - exists es. split_and!; [done| |done]. apply (heap_of_parts es i); [done|done|].
    intros _ x y Hx Hy. by simplify_eq.
Qed.

Lemma swap_down_parts es es' i best a b :
  parent best = i → 0 < best → hole es i → above es i →
  (∀ j, 0 < j → parent j = i → le_at es best j) →
  es !! i = Some a → es !! best = Some b → entry_less b a = true →
  es' !! i = Some b → es' !! best = Some a →
  (∀ k, k ≠ i → k ≠ best → es' !! k = es !! k) →
  hole es' best ∧ above es' best.
Proof.
  intros Hpb Hbest [H1 H2] Ha Hmin Hea Heb Hlt Hes'i Hes'b Hk.
  pose proof (parent_lt _ Hbest) as Hlb. apply entry_less_le in Hlt as Hle.
  split; [split|].
  - intros j Hj Hjb Hpj x y Hx Hy. pose proof (parent_lt _ Hj).
    destruct (decide (j = i)) as [->|].
    + rewrite Hk in Hx by lia. rewrite Hes'i in Hy. simplify_eq. by apply (H2 best).
    + rewrite (Hk j) in Hy by done. destruct (decide (parent j = i)) as [Hji|].
      * rewrite Hji, Hes'i in Hx. simplify_eq. by apply (Hmin j).
      * rewrite Hk in Hx by done. by apply (H1 j).
  - intros j Hj Hpj _ x y Hx Hy. pose proof (parent_lt _ Hj).
    rewrite Hpb, Hes'i in Hx. simplify_eq. rewrite Hk in Hy by lia.
    apply (H1 j); [done|lia|lia|done|done].
  - intros _ x y Hx Hy. rewrite Hpb in Hx. by simplify_eq.
Qed.

Lemma best_child es i :
  left_child i < length es →
  ∃ best, (if decide (left_child i + 1 < length es) then
             b ← less es (left_child i + 1) (left_child i);
             mret (if (b : bool) then left_child i + 1 else left_child i)
           else mret (left_child i)) = Done best ∧
    best < length es ∧ 0 < best ∧ parent best = i ∧
    ∀ j, 0 < j → parent j = i → le_at es best j.
Proof.
  intros Hl. assert (0 < left_child i) by (unfold left_child; lia).
  destruct (lookup_lt_is_Some_2 es _ Hl) as [l Hel].
  case_decide as Hr.
  - destruct (lookup_lt_is_Some_2 es _ Hr) as [r Her].
    rewrite (less_done _ _ _ _ _ Her Hel). simpl.
    exists (if entry_less r l then left_child i + 1 else left_child i). split; [done|].
    destruct (entry_less r l) eqn:Hrl; split_and!; try done; try lia;
      eauto using parent_left, parent_right.
    all: intros j Hj [->| ->]%parent_children; try done; intros x y Hx Hy; simplify_eq;
      eauto using entry_le_refl, entry_less_le.
  - exists (left_child i). split_and!; try done; eauto using parent_left.
    intros j Hj [->| ->]%parent_children; try done; intros x y Hx Hy.
    + simplify_eq. apply entry_le_refl.
    + apply lookup_lt_Some in Hy. lia.
Qed.

Lemma sift_down_spec fuel es i :
  length es - i < fuel → i < length es → hole es i → above es i →
  ∃ es', sift_down fuel es i = Done es' ∧ heap es' ∧ es' ≡ₚ es.
Proof.
  revert es i. induction fuel as [|fuel IH]; intros es i Hf Hl Hh Ha; [lia|]. cbn [sift_down].
  destruct (decide (length es ≤ left_child i)) as [Hge|Hlt].
  { exists es. split_and!; [done| |done]. apply (heap_of_parts es i); [done| |done].
    intros j Hj [->| ->]%parent_children x y Hx Hy; try done; apply lookup_lt_Some in Hy; lia. }
  destruct (best_child es i) as (best & Hbest & Hbl & Hb0 & Hpb & Hmin); [lia|].
  rewrite Hbest. simpl. pose proof (parent_lt _ Hb0).
  destruct (lookup_lt_is_Some_2 es i Hl) as [a Hea].
  destruct (lookup_lt_is_Some_2 es best Hbl) as [b Heb].
  rewrite (less_done _ _ _ _ _ Heb Hea). simpl.
  destruct (entry_less b a) eqn:Hba.
  - destruct (swap_done es i best a b) as (es1 & Hs & Hperm & Hlen & ? & ? & ?); [lia|done|done|].
    rewrite Hs. simpl.
    destruct (swap_down_parts es es1 i best a b) as [Hh1 Ha1]; try done.
    destruct (IH es1 best) as (es' & He & Hheap & Hp); [lia|lia|done|done|].
    exists es'. split_and!; [done|done|by rewrite Hp].
  - exists es. split_and!; [done| |done]. apply (heap_of_parts es i); [done| |done].
    intros j Hj Hpj x y Hx Hy. simplify_eq. apply entry_le_trans with b; [done|].
    by apply (Hmin j).
Qed.

Lemma hole_agree es es' i :
  hole es i → (∀ k x, k ≠ i → es' !! k = Some x → es !! k = Some x) → hole es' i.
Proof.
  intros [H1 H2] Hag. split.
  - intros j ??? x y ??. apply (H1 j); eauto.
  - intros j Hj Hpj Hi x y ??. pose proof (parent_lt _ Hi). pose proof (parent_lt _ Hj).
    apply (H2 j); eauto; apply Hag; auto with lia.
Qed.

(** Replacing the entry at [i] by [x] and letting it sift. *)
Lemma below_agree es es' i x a :
  heap es → es !! i = Some a → entry_le x a → es' !! i = Some x →
  (∀ k y, k ≠ i → es' !! k = Some y → es !! k = Some y) → below es' i.
Proof.
  intros Hh Ha Hle Hx Hag j Hj Hpj y z Hy Hz. pose proof (parent_lt _ Hj). simplify_eq.
  apply entry_le_trans with a; [done|]. apply (Hh j Hj); [done|]. apply Hag; [lia|done].
Qed.

Lemma above_agree es es' i x a :
  heap es → es !! i = Some a → entry_le a x → es' !! i = Some x →
  (∀ k y, k ≠ i → es' !! k = Some y → es !! k = Some y) → above es' i.
Proof.
  intros Hh Ha Hle Hx Hag Hi y z Hy Hz. pose proof (parent_lt _ Hi). simplify_eq.
  apply entry_le_trans with a; [|done]. apply (Hh i Hi); [|done]. apply Hag; [lia|done].
Qed.

Lemma heap_take es n : heap es → heap (take n es).
Proof.
  intros Hh j Hj a b Ha Hb. apply lookup_take_Some in Ha as [? _].
  apply lookup_take_Some in Hb as [? _]. by apply (Hh j).
Qed.

Lemma sift_replaced es es2 i a x :
  heap es → es !! i = Some a → es2 !! i = Some x →
  (∀ k y, k ≠ i → es2 !! k = Some y → es !! k = Some y) →
  ∃ es3, (up ← (if decide (0 < i) then less es2 i (parent i) else mret false);
          if (up : bool) then heap_sift_up es2 i else heap_sift_down es2 i) = Done es3 ∧
         heap es3 ∧ es3 ≡ₚ es2.
Proof.
  intros Hh Ha Hx Hag. pose proof (lookup_lt_Some _ _ _ Hx) as Hl.
  assert (hole es2 i) as Hhole by (eapply hole_agree; [by apply heap_hole|done]).
  destruct (decide (0 < i)) as [Hi|Hi]; simpl.
  - pose proof (parent_lt _ Hi).
    destruct (lookup_lt_is_Some_2 es2 (parent i)) as [p Hp]; [lia|].
    rewrite (less_done _ _ _ _ _ Hx Hp). simpl. destruct (entry_less x p) eqn:Hxp.
    + apply sift_up_spec; [lia|done|done|]. eapply below_agree; try done.
      apply entry_le_trans with p; [by apply entry_less_le|].
      apply (Hh i Hi); [|done]. apply Hag; [lia|done].
    + apply sift_down_spec; [lia|done|done|]. intros _ y z Hy Hz. by simplify_eq.
  - apply sift_down_spec; [lia|done|done|]. intros ?. lia.
Qed.

Lemma remove_at_spec es i e :
  heap es → es !! i = Some e →
  ∃ es', remove_at es i = Done (e, es') ∧ heap es' ∧ e :: es' ≡ₚ es.
Proof.
  intros Hh He. pose proof (lookup_lt_Some _ _ _ He) as Hi.
  unfold remove_at. destruct es as [|e0 es0] eqn:Hes; [simpl in Hi; lia|].
  rewrite <-Hes in *. clear Hes e0 es0. set (n := length es - 1).
  destruct (lookup_lt_is_Some_2 es n) as [b Hb]; [unfold n; lia|].
  unfold swap, entry_at, expect_o. rewrite He, Hb. simpl.
  set (es1 := <[n:=e]> (<[i:=b]> es)). set (es2 := take n es1).
  assert (es1 = es2 ++ [e]) as Hes1.
  { unfold es2. rewrite <-(take_S_r es1 n e), take_ge; [done| |].
    - unfold es1. rewrite !length_insert. lia.
    - apply list_lookup_insert_eq. rewrite length_insert. lia. }
  rewrite Hes1, last_snoc. simpl.
  assert (e :: es2 ≡ₚ es) as Hperm.
  { rewrite Permutation_cons_append, <-Hes1. by apply Permutation_insert_swap. }
  assert (length es2 = n) as Hlen.
  { apply Permutation_length in Hperm. simpl in Hperm. lia. }
  replace (take n (es2 ++ [e])) with es2 by (by rewrite <-Hlen, take_app_length).
  assert (∀ k y, k ≠ i → es2 !! k = Some y → es !! k = Some y) as Hag.
  { intros k y Hk Hy. pose proof (lookup_lt_Some _ _ _ Hy).
    unfold es2 in Hy. rewrite lookup_take_lt in Hy by lia. unfold es1 in Hy.
    by rewrite !list_lookup_insert_ne in Hy by lia. }
  destruct (decide (i < length es2)) as [Hlt|Hge].
  - assert (es2 !! i = Some b) as Hb2.
    { unfold es2, es1. rewrite lookup_take_lt by lia.
      rewrite list_lookup_insert_ne by lia. by apply list_lookup_insert_eq. }
    destruct (sift_replaced es es2 i e b) as (es3 & Hs & Hh3 & Hp3); try done.
    rewrite Hs. simpl. exists es3. split_and!; [done|done|by rewrite Hp3].
  - simpl. exists es2. split_and!; [done| |done].
    intros j Hj x y Hx Hy. pose proof (lookup_lt_Some _ _ _ Hy). pose proof (parent_lt _ Hj).
    apply (Hh j Hj); apply Hag; try done; lia.
Qed.

(** ** The abstract map *)

Definition entry_pair (e : DeadlineEntry) : TimedEvent * Z := (de_event e, de_deadline e).

Definition abs_entries (es : list DeadlineEntry) : gmap TimedEvent Z := list_to_map (entry_pair <$> es).

Definition queue_ok (q : DeadlineQueue) : Prop :=
  heap (dq_entries q) ∧ NoDup (de_event <$> dq_entries q) ∧ length (dq_entries q) ≤ dq_reserved q.

Lemma entry_pair_fst es : (entry_pair <$> es).*1 = de_event <$> es.
Proof. rewrite <-list_fmap_compose. by apply list_fmap_ext. Qed.

Lemma abs_lookup es ev d :
  NoDup (de_event <$> es) → abs_entries es !! ev = Some d ↔ mkDeadlineEntry d ev ∈ es.
Proof.
  intros Hnd. unfold abs_entries. rewrite <-elem_of_list_to_map by (by rewrite entry_pair_fst).
  rewrite list_elem_of_fmap. split.
  - intros ([d' ev'] & Heq & ?). unfold entry_pair in Heq. by simplify_eq/=.
  - intros ?. by exists (mkDeadlineEntry d ev).
Qed.

Lemma abs_lookup_None es ev : abs_entries es !! ev = None ↔ ev ∉ (de_event <$> es).
Proof.
  unfold abs_entries. rewrite <-entry_pair_fst. symmetry. apply not_elem_of_list_to_map.
Qed.

Lemma abs_perm es es' :
  NoDup (de_event <$> es) → es ≡ₚ es' → abs_entries es = abs_entries es'.
Proof.
  intros Hnd Hp. apply list_to_map_proper; [by rewrite entry_pair_fst|by f_equiv].
Qed.

Lemma abs_size es : NoDup (de_event <$> es) → size (abs_entries es) = length es.
Proof.
  intros Hnd. induction es as [|e es IH]; [done|]. simpl in *. apply NoDup_cons in Hnd as [Hn Hnd].
  change (abs_entries (e :: es)) with (<[de_event e := de_deadline e]> (abs_entries es)).
  rewrite map_size_insert_None; [by rewrite IH|]. by apply abs_lookup_None.
Qed.

Lemma find_event_index_Some es ev i :
  find_event_index es ev = Some i → ∃ d, es !! i = Some (mkDeadlineEntry d ev).
Proof.
  unfold find_event_index. destruct (list_find _ es) as [[j e]|] eqn:Hf; [|done].
  intros [= <-]. apply list_find_Some in Hf as (Hl & He & _). destruct e; simpl in *; subst. eauto.
Qed.

Lemma find_event_index_None es ev : find_event_index es ev = None → ev ∉ (de_event <$> es).
Proof.
  unfold find_event_index. destruct (list_find _ es) as [[j e]|] eqn:Hf; [done|]. intros _.
  apply list_find_None in Hf. rewrite list_elem_of_fmap. intros (e & -> & He).
  rewrite Forall_forall in Hf. by apply (Hf e).
Qed.

Lemma find_event_index_spec es ev :
  NoDup (de_event <$> es) →
  match find_event_index es ev with
  | Some i => ∃ d, es !! i = Some (mkDeadlineEntry d ev) ∧ abs_entries es !! ev = Some d
  | None => abs_entries es !! ev = None
  end.
Proof.
  intros Hnd. destruct (find_event_index es ev) eqn:Hf.
  - apply find_event_index_Some in Hf as [d Hd]. exists d. split; [done|].
    apply abs_lookup; [done|]. apply list_elem_of_lookup. eauto.
  - by apply abs_lookup_None, find_event_index_None.
Qed.

(** Updating the deadline stored at an index is a map insertion. *)
Lemma abs_insert_at es i d d' ev :
  NoDup (de_event <$> es) → es !! i = Some (mkDeadlineEntry d ev) →
  de_event <$> <[i := mkDeadlineEntry d' ev]> es = de_event <$> es ∧
  abs_entries (<[i := mkDeadlineEntry d' ev]> es) = <[ev := d']> (abs_entries es).
Proof.
  intros Hnd Hi.
  assert (de_event <$> <[i := mkDeadlineEntry d' ev]> es = de_event <$> es) as Hev.
  { rewrite list_fmap_insert. simpl. apply list_insert_id. by rewrite list_lookup_fmap, Hi. }
  split; [done|]. apply map_eq. intros ev'. apply option_eq. intros x.
  rewrite abs_lookup by (by rewrite Hev). rewrite lookup_insert.
  pose proof (lookup_lt_Some _ _ _ Hi) as Hlt.
  rewrite list_elem_of_lookup. case_decide as Hne.
  - subst ev'. split.
    + intros (k & Hk). destruct (decide (k = i)) as [->|].
      * rewrite list_lookup_insert_eq in Hk by done. by simplify_eq.
      * rewrite list_lookup_insert_ne in Hk by done. exfalso.
        assert (k = i); [|done].
        eapply (NoDup_lookup (de_event <$> es)); [done| |]; rewrite list_lookup_fmap;
          [by rewrite Hk|by rewrite Hi].
    + intros [= <-]. exists i. by apply list_lookup_insert_eq.
  - rewrite abs_lookup, list_elem_of_lookup by done. split; intros (k & Hk); exists k.
    + rewrite list_lookup_insert in Hk. case_decide; naive_solver.
    + rewrite list_lookup_insert_ne; [done|]. intros <-. naive_solver.
Qed.

Lemma remove_at_abs es i d ev :
  heap es → NoDup (de_event <$> es) → es !! i = Some (mkDeadlineEntry d ev) →
  ∃ es', remove_at es i = Done (mkDeadlineEntry d ev, es') ∧ heap es' ∧
         NoDup (de_event <$> es') ∧ S (length es') = length es ∧
         abs_entries es' = delete ev (abs_entries es).
Proof.
  intros Hh Hnd Hi. destruct (remove_at_spec es i _ Hh Hi) as (es' & Hr & Hh' & Hp).
  assert (NoDup (de_event <$> (mkDeadlineEntry d ev :: es'))) as Hnd' by (by rewrite Hp).
  exists es'. rewrite <-(abs_perm (mkDeadlineEntry d ev :: es') es) by done.
  simpl in Hnd'. apply NoDup_cons in Hnd' as [Hn Hnd'].
  split_and!; try done.
  - by apply Permutation_length in Hp.
  - change (abs_entries (mkDeadlineEntry d ev :: es')) with (<[ev := d]> (abs_entries es')).
    rewrite delete_insert_id; [done|]. by apply abs_lookup_None.
Qed.

Lemma head_min es e : heap es → head es = Some e → ∀ e', e' ∈ es → entry_le e e'.
Proof.
  intros Hh He e' (k & Hk)%list_elem_of_lookup. rewrite head_lookup in He.
  revert e' Hk. induction (lt_wf k) as [k _ IH]. intros e' Hk.
  destruct (decide (0 < k)) as [Hk0|]; [|replace k with 0 in Hk by lia; simplify_eq; apply entry_le_refl].
  pose proof (parent_lt _ Hk0). pose proof (lookup_lt_Some _ _ _ Hk).
  destruct (lookup_lt_is_Some_2 es (parent k)) as [p Hp]; [lia|].
  apply entry_le_trans with p; [by apply (IH (parent k))|by apply (Hh k)].
Qed.

(** ** What the deadline queue promises to its owner *)

Class DeadlineService (Q : Type) := {
  svc_ok : Q → Prop;
  svc_events : Q → gmap TimedEvent Z;
  svc_capacity : Q → nat;
  svc_empty : nat → Q;
  svc_schedule : Q → Z → TimedEvent → outcome Q;
  svc_cancel : Q → TimedEvent → outcome (bool * Q);
  svc_pending : Q → TimedEvent → bool;
  svc_pop_expired : Q → Z → outcome (option TimedEvent * Q);
  svc_next_deadline : Q → option Z;

  svc_empty_spec n : svc_ok (svc_empty n) ∧ svc_events (svc_empty n) = ∅ ∧
                     svc_capacity (svc_empty n) = n;
  svc_size q : svc_ok q → size (svc_events q) ≤ svc_capacity q;
  svc_schedule_spec q d ev :
    svc_ok q → is_Some (svc_events q !! ev) ∨ size (svc_events q) < svc_capacity q →
    ∃ q', svc_schedule q d ev = Done q' ∧ svc_ok q' ∧ svc_capacity q' = svc_capacity q ∧
          svc_events q' = <[ev := d]> (svc_events q);
  svc_schedule_full q d ev :
    svc_ok q → svc_events q !! ev = None → size (svc_events q) = svc_capacity q →
    ∃ why, svc_schedule q d ev = Panic why;
  svc_cancel_spec q ev :
    svc_ok q →
    ∃ q', svc_cancel q ev = Done (bool_decide (is_Some (svc_events q !! ev)), q') ∧ svc_ok q' ∧
          svc_capacity q' = svc_capacity q ∧ svc_events q' = delete ev (svc_events q);
  svc_pending_spec q ev :
    svc_ok q → svc_pending q ev = bool_decide (is_Some (svc_events q !! ev));
  svc_pop_spec q now :
    svc_ok q →
    ∃ r q', svc_pop_expired q now = Done (r, q') ∧ svc_ok q' ∧ svc_capacity q' = svc_capacity q ∧
      match r with
      | None => q' = q ∧ ∀ ev d, svc_events q !! ev = Some d → (now < d)%Z
      | Some ev => ∃ d, svc_events q !! ev = Some d ∧ (d <= now)%Z ∧
          (∀ ev' d', svc_events q !! ev' = Some d' →
             entry_le (mkDeadlineEntry d ev) (mkDeadlineEntry d' ev')) ∧
          svc_events q' = delete ev (svc_events q)
      end;
  svc_next_spec q :
    svc_ok q →
    match svc_next_deadline q with
    | None => svc_events q = ∅
    | Some d => (∃ ev, svc_events q !! ev = Some d) ∧
                ∀ ev d', svc_events q !! ev = Some d' → (d <= d')%Z
    end
}.

Definition abs (q : DeadlineQueue) : gmap TimedEvent Z := abs_entries (dq_entries q).

Lemma update_at_spec es i d0 d ev :
  heap es → es !! i = Some (mkDeadlineEntry d0 ev) →
  let es1 := <[i := mkDeadlineEntry d ev]> es in
  ∃ es2, (if (d <? d0)%Z then heap_sift_up es1 i
          else if (d0 <? d)%Z then heap_sift_down es1 i else mret es1) = Done es2 ∧
         heap es2 ∧ es2 ≡ₚ es1.
Proof.
  intros Hh Hi es1. pose proof (lookup_lt_Some _ _ _ Hi) as Hlt.
  assert (es1 !! i = Some (mkDeadlineEntry d ev)) as Hi1 by (by apply list_lookup_insert_eq).
  assert (∀ k y, k ≠ i → es1 !! k = Some y → es !! k = Some y) as Hag.
  { intros k y Hk. unfold es1. by rewrite list_lookup_insert_ne. }
  assert (length es1 = length es) as Hl1 by apply length_insert.
  assert (hole es1 i) as Hhole by (eapply hole_agree; [by apply heap_hole|done]).
  destruct (d <? d0)%Z eqn:Hd1; [|destruct (d0 <? d)%Z eqn:Hd2].
  - apply sift_up_spec; [lia|lia|done|]. eapply below_agree; try done.
    apply (entry_le_update_down (mkDeadlineEntry d0 ev)). simpl. lia.
  - apply sift_down_spec; [lia|lia|done|]. eapply above_agree; try done.
    apply (entry_le_update_up (mkDeadlineEntry d0 ev)). simpl. lia.
  - exists es1. assert (d = d0) as -> by lia. split_and!; [done| |done].
    unfold es1. by rewrite list_insert_id.
Qed.

Lemma schedule_spec q d ev :
  queue_ok q → is_Some (abs q !! ev) ∨ size (abs q) < dq_reserved q →
  ∃ q', schedule q d ev = Done q' ∧ queue_ok q' ∧ dq_reserved q' = dq_reserved q ∧
        abs q' = <[ev := d]> (abs q).
Proof.
  intros (Hh & Hnd & Hlen) Hroom. unfold schedule, abs in *.
  rewrite abs_size in Hroom by done. set (es := dq_entries q) in *.
  pose proof (find_event_index_spec es ev Hnd) as Hfind.
  destruct (find_event_index es ev) as [i|].
  - destruct Hfind as (d0 & Hi & Habs). unfold entry_at, expect_o. rewrite Hi. simpl.
    destruct (abs_insert_at es i d0 d ev Hnd Hi) as [Hev Hins].
    destruct (update_at_spec es i d0 d ev Hh Hi) as (es2 & Hs & Hh2 & Hp2).
    set (es1 := <[i := mkDeadlineEntry d ev]> es) in *.
    assert (length es1 = length es) as Hl1 by apply length_insert.
    rewrite Hs. simpl. eexists. split; [done|]. unfold queue_ok. simpl.
    split_and!; try done.
    + by rewrite Hp2, Hev.
    + by rewrite Hp2, Hl1.
    + by rewrite <-Hins, (abs_perm es2 es1) by (by rewrite ?Hp2, ?Hev).
  - destruct Hroom as [[? ?]|Hroom]; [congruence|].
    rewrite decide_False by lia. set (es1 := es ++ [mkDeadlineEntry d ev]).
    assert (length es1 - 1 = length es) as -> by (unfold es1; rewrite length_app; simpl; lia).
    assert (NoDup (de_event <$> es1)) as Hnd1.
    { unfold es1. rewrite fmap_app, NoDup_app. simpl. split_and!; [done| |apply NoDup_singleton].
      intros x Hx ->%list_elem_of_singleton. by apply abs_lookup_None in Hfind. }
    destruct (sift_up_spec (S (length es)) es1 (length es)) as (es2 & Hs & Hh2 & Hp2).
    + lia.
    + unfold es1. rewrite length_app. simpl. lia.
    + eapply (hole_agree es); [by apply heap_hole|]. intros k x Hk Hx.
      apply lookup_snoc_Some in Hx as [[??]|[-> ?]]; done.
    + intros j Hj Hpj x y Hx Hy. pose proof (parent_lt _ Hj).
      apply lookup_lt_Some in Hy. unfold es1 in Hy. rewrite length_app in Hy. simpl in Hy. lia.
    + unfold heap_sift_up. rewrite Hs. simpl. eexists. split; [done|]. unfold queue_ok. simpl.
      split_and!; try done.
      * by rewrite Hp2.
      * rewrite Hp2. unfold es1. rewrite length_app. simpl. lia.
      * rewrite (abs_perm es2 (mkDeadlineEntry d ev :: es)); [done|by rewrite Hp2|].
        rewrite Hp2. symmetry. apply Permutation_cons_append.
Qed.

Lemma schedule_full q d ev :
  queue_ok q → abs q !! ev = None → size (abs q) = dq_reserved q →
  schedule q d ev = Panic "time: deadline queue capacity exhausted".
Proof.
  intros (Hh & Hnd & Hlen) Hnone Hsz. unfold schedule, abs in *.
  rewrite abs_size in Hsz by done. pose proof (find_event_index_spec (dq_entries q) ev Hnd) as Hfind.
  destruct (find_event_index _ ev); [naive_solver|]. by rewrite decide_True.
Qed.

Lemma cancel_spec q ev :
  queue_ok q →
  ∃ q', cancel_entry q ev = Done (bool_decide (is_Some (abs q !! ev)), q') ∧ queue_ok q' ∧
        dq_reserved q' = dq_reserved q ∧ abs q' = delete ev (abs q).
Proof.
  intros (Hh & Hnd & Hlen). unfold cancel_entry, abs.
  pose proof (find_event_index_spec (dq_entries q) ev Hnd) as Hfind.
  destruct (find_event_index _ ev) as [i|].
  - destruct Hfind as (d & Hi & Habs). rewrite Habs.
    destruct (remove_at_abs _ _ _ _ Hh Hnd Hi) as (es' & Hr & ? & ? & ? & ?).
    rewrite Hr. simpl. eexists. split; [done|]. unfold queue_ok; simpl. split_and!; try done; lia.
  - rewrite Hfind. exists q. split_and!; try done. by rewrite delete_id.
Qed.

Lemma pending_spec q ev :
  queue_ok q → queue_event_pending q ev = bool_decide (is_Some (abs q !! ev)).
Proof.
  intros (Hh & Hnd & Hlen). unfold queue_event_pending, abs.
  pose proof (find_event_index_spec (dq_entries q) ev Hnd) as Hfind.
  destruct (find_event_index _ ev) as [i|]; [destruct Hfind as (d & _ & ->)|rewrite Hfind]; done.
Qed.

Lemma pop_spec q now :
  queue_ok q →
  ∃ r q', pop_expired q now = Done (r, q') ∧ queue_ok q' ∧ dq_reserved q' = dq_reserved q ∧
    match r with
    | None => q' = q ∧ ∀ ev d, abs q !! ev = Some d → (now < d)%Z
    | Some ev => ∃ d, abs q !! ev = Some d ∧ (d <= now)%Z ∧
        (∀ ev' d', abs q !! ev' = Some d' →
           entry_le (mkDeadlineEntry d ev) (mkDeadlineEntry d' ev')) ∧
        abs q' = delete ev (abs q)
    end.
Proof.
  intros Hok. pose proof Hok as (Hh & Hnd & Hlen). unfold pop_expired, abs.
  destruct (head (dq_entries q)) as [[d ev]|] eqn:Hhd.
  - pose proof (head_min _ _ Hh Hhd) as Hmin.
    destruct (now <? d)%Z eqn:Hd; simpl; rewrite Hd.
    + exists None, q. split_and!; try done. intros ev' d' Hev'%abs_lookup; [|done].
      apply Hmin, entry_le_deadline in Hev'. simpl in *. lia.
    + rewrite head_lookup in Hhd.
      destruct (remove_at_abs _ _ _ _ Hh Hnd Hhd) as (es' & Hr & ? & ? & ? & ?).
      rewrite Hr. simpl. eexists (Some ev), _. split; [done|]. unfold queue_ok; simpl.
      split_and!; try done; [lia|]. exists d. split_and!; try done.
      * apply abs_lookup; [done|]. apply list_elem_of_lookup. eauto.
      * lia.
      * intros ev' d' Hev'%abs_lookup; [by apply Hmin|done].
  - exists None, q. split_and!; try done. intros ev d Hev%abs_lookup; [|done].
    apply head_None in Hhd. rewrite Hhd in Hev. by apply not_elem_of_nil in Hev.
Qed.

Lemma next_spec q :
  queue_ok q →
  match next_deadline q with
  | None => abs q = ∅
  | Some d => (∃ ev, abs q !! ev = Some d) ∧ ∀ ev d', abs q !! ev = Some d' → (d <= d')%Z
  end.
Proof.
  intros (Hh & Hnd & Hlen). unfold next_deadline, abs.
  destruct (head (dq_entries q)) as [[d ev]|] eqn:Hhd; simpl.
  - split.
    + exists ev. apply abs_lookup; [done|]. rewrite head_lookup in Hhd.
      apply list_elem_of_lookup. eauto.
    + intros ev' d' Hev'%abs_lookup; [|done].
      apply (head_min _ _ Hh Hhd), entry_le_deadline in Hev'. done.
  - apply head_None in Hhd. by rewrite Hhd.
Qed.

#[global, refine] Instance heap_service : DeadlineService DeadlineQueue := {|
  svc_ok := queue_ok;
  svc_events := abs;
  svc_capacity := dq_reserved;
  svc_empty := queue_with_capacity;
  svc_schedule := schedule;
  svc_cancel := cancel_entry;
  svc_pending := queue_event_pending;
  svc_pop_expired := pop_expired;
  svc_next_deadline := next_deadline;
  svc_schedule_spec := schedule_spec;
  svc_cancel_spec := cancel_spec;
  svc_pending_spec := pending_spec;
  svc_pop_spec := pop_spec;
  svc_next_spec := next_spec
|}.
Proof.
  - intros n. split_and!; [|done|done]. split_and!; simpl; [|constructor|lia].
    intros j _ a b Ha. by rewrite lookup_nil in Ha.
  - intros q (_ & Hnd & Hl). unfold abs. by rewrite abs_size.
  - intros q d ev ???. eexists. by apply schedule_full.
Defined.

(** ** Refinement: every run of the heap is a run of the map *)

Inductive dq_op :=
| DSchedule (deadline : Z) (event : TimedEvent)
| DCancel (event : TimedEvent)
| DPending (event : TimedEvent)
| DPop (now : Z)
| DNext.

Inductive dq_obs :=
| ObsUnit
| ObsBool (b : bool)
| ObsEvent (e : option TimedEvent)
| ObsDeadline (d : option Z).

Definition dq_exec (q : DeadlineQueue) (o : dq_op) : outcome (dq_obs * DeadlineQueue) :=
  match o with
  | DSchedule d ev => q' ← schedule q d ev; mret (ObsUnit, q')
  | DCancel ev => '(b, q') ← cancel_entry q ev; mret (ObsBool b, q')
  | DPending ev => mret (ObsBool (queue_event_pending q ev), q)
  | DPop now => '(e, q') ← pop_expired q now; mret (ObsEvent e, q')
  | DNext => mret (ObsDeadline (next_deadline q), q)
  end.

Fixpoint dq_run (q : DeadlineQueue) (ops : list dq_op) : outcome (list dq_obs * DeadlineQueue) :=
  match ops with
  | [] => mret ([], q)
  | o :: ops' => '(b, q1) ← dq_exec q o; '(bs, q2) ← dq_run q1 ops'; mret (b :: bs, q2)
  end.

(** The specification: a map of at most [cap] events. *)
Inductive map_step (cap : nat) (m : gmap TimedEvent Z) : dq_op → dq_obs → gmap TimedEvent Z → Prop :=
| map_schedule d ev :
    is_Some (m !! ev) ∨ size m < cap → map_step cap m (DSchedule d ev) ObsUnit (<[ev := d]> m)
| map_cancel ev :
    map_step cap m (DCancel ev) (ObsBool (bool_decide (is_Some (m !! ev)))) (delete ev m)
| map_pending ev :
    map_step cap m (DPending ev) (ObsBool (bool_decide (is_Some (m !! ev)))) m
| map_pop_some now ev d :
    m !! ev = Some d → (d <= now)%Z →
    (∀ ev' d', m !! ev' = Some d' → entry_le (mkDeadlineEntry d ev) (mkDeadlineEntry d' ev')) →
    map_step cap m (DPop now) (ObsEvent (Some ev)) (delete ev m)
| map_pop_none now :
    (∀ ev d, m !! ev = Some d → (now < d)%Z) → map_step cap m (DPop now) (ObsEvent None) m
| map_next_some d :
    (∃ ev, m !! ev = Some d) → (∀ ev d', m !! ev = Some d' → (d <= d')%Z) →
    map_step cap m DNext (ObsDeadline (Some d)) m
| map_next_none : m = ∅ → map_step cap m DNext (ObsDeadline None) m.

Inductive map_run (cap : nat) : gmap TimedEvent Z → list dq_op → list dq_obs → gmap TimedEvent Z → Prop :=
| map_run_nil m : map_run cap m [] [] m
| map_run_cons m o b m1 ops bs m2 :
    map_step cap m o b m1 → map_run cap m1 ops bs m2 → map_run cap m (o :: ops) (b :: bs) m2.

Definition overflows (cap : nat) (m : gmap TimedEvent Z) (o : dq_op) : Prop :=
  ∃ d ev, o = DSchedule d ev ∧ m !! ev = None ∧ size m = cap.

Lemma dq_exec_refines q o :
  queue_ok q →
  match dq_exec q o with
  | Done (b, q') => queue_ok q' ∧ dq_reserved q' = dq_reserved q ∧
                    map_step (dq_reserved q) (abs q) o b (abs q')
  | Panic _ => overflows (dq_reserved q) (abs q) o
  end.
Proof.
  intros Hok. destruct o as [d ev|ev|ev|now|]; simpl.
  - destruct (decide (is_Some (abs q !! ev) ∨ size (abs q) < dq_reserved q)) as [Hr|Hr].
    + destruct (schedule_spec q d ev Hok Hr) as (q' & -> & ? & ? & Ha). simpl.
      rewrite Ha. eauto using map_schedule.
    + assert (abs q !! ev = None) by (apply eq_None_not_Some; tauto).
      assert (size (abs q) = dq_reserved q) by (pose proof (svc_size q Hok); simpl in *; lia).
      rewrite schedule_full by done. simpl. unfold overflows. eauto.
  - destruct (cancel_spec q ev Hok) as (q' & -> & ? & ? & Ha). simpl. rewrite Ha. eauto using map_cancel.
  - rewrite (pending_spec q ev Hok). eauto using map_pending.
  - destruct (pop_spec q now Hok) as (r & q' & -> & ? & ? & Hr). simpl. destruct r.
    + destruct Hr as (d & ? & ? & ? & ->). eauto using map_pop_some.
    + destruct Hr as [-> ?]. eauto using map_pop_none.
  - pose proof (next_spec q Hok) as Hn. destruct (next_deadline q).
    + destruct Hn. eauto using map_next_some.
    + eauto using map_next_none.
Qed.

Lemma dq_run_refines q ops :
  queue_ok q →
  match dq_run q ops with
  | Done (bs, q') => queue_ok q' ∧ map_run (dq_reserved q) (abs q) ops bs (abs q')
  | Panic _ => ∃ ops1 o ops2 bs1 m1, ops = ops1 ++ o :: ops2 ∧
                 map_run (dq_reserved q) (abs q) ops1 bs1 m1 ∧ overflows (dq_reserved q) m1 o
  end.
Proof.
  revert q. induction ops as [|o ops IH]; intros q Hok; simpl; [eauto using map_run|].
  pose proof (dq_exec_refines q o Hok) as Hstep.
  destruct (dq_exec q o) as [[b q1]|]; simpl.
  - destruct Hstep as (Hok1 & Hcap & Hs). specialize (IH q1 Hok1).
    destruct (dq_run q1 ops) as [[bs q2]|]; simpl; rewrite Hcap in IH.
    + destruct IH. eauto using map_run.
    + destruct IH as (ops1 & o' & ops2 & bs1 & m1 & -> & ? & ?).
      exists (o :: ops1), o', ops2, (b :: bs1), m1. eauto using map_run.
  - exists [], o, ops, [], (abs q). eauto using map_run.
Qed.

(** C32: the bounded heap implements a finite map with minimum extraction.
    Every run of [schedule], [cancel], [event_pending], [pop_expired] and
    [next_deadline] from an empty queue of capacity [cap] produces exactly the
    observations of a run of the map specification: schedule inserts or
    replaces, cancel removes and reports presence, pop returns an event whose
    deadline is reached and minimal (ties by the sort key) or reports that none
    is reached, next reports the minimal deadline.  The only panic is the
    scheduling of a new event when [cap] events are queued, so all sift loops
    terminate and stay in bounds. *)
Theorem deadline_queue_refines_map (cap : nat) (ops : list dq_op) :
  match dq_run (queue_with_capacity cap) ops with
  | Done (bs, q') => heap (dq_entries q') ∧ map_run cap ∅ ops bs (abs q')
  | Panic _ => ∃ ops1 o ops2 bs1 m1, ops = ops1 ++ o :: ops2 ∧
                 map_run cap ∅ ops1 bs1 m1 ∧ overflows cap m1 o
  end.
Proof.
  destruct (svc_empty_spec (DeadlineService := heap_service) cap) as (Hok & _ & _).
  pose proof (dq_run_refines _ ops Hok) as H. simpl in *.
  destruct (dq_run _ ops) as [[bs q']|]; [|done]. destruct H as [(? & _) ?]. done.
Qed.
