(* ===== verification/TimeConv.v ===== *)
(** * Counter and civil-time conversions

    Models the conversion functions of [kernel/src/time.rs]: between the
    architecture counter and normalized monotonic time, and from durations to
    counter ticks.  The counter frequency is an argument, as in the
    [*_at_frequency] functions; [u128] intermediates are exact integers, casts
    to narrower types truncate.

    The theorems show that the 64-bit fast path computes the exact rounded-up
    product, that the two directions form a Galois connection (a programmed
    deadline is the first counter value at or after the requested time), and
    that tick counts of durations round up and saturate. *)

From S2P Require Import Prelude.

Local Open Scope Z_scope.

Definition NANOS : Z := 1000000000.

Inductive TimeConversionError := InvalidFrequency | Overflow.

Record MonotonicTime := mkMonotonicTime { mt_seconds : Z; mt_nanoseconds : Z }.

(** [as u64] and [as u32]. *)
Definition as_u64 (z : Z) : Z := z mod (u64_max + 1).
Definition as_u32 (z : Z) : Z := z mod (u32_max + 1).

(** [core]'s unsigned [div_ceil]: quotient, plus one when a remainder is left. *)
Definition div_ceil (numerator denominator : Z) : Z :=
  if 0 <? numerator mod denominator then numerator / denominator + 1
  else numerator / denominator.

Definition counter_to_monotonic_time_at_frequency (counter frequency : Z)
    : MonotonicTime + TimeConversionError :=
  if frequency =? 0 then inr InvalidFrequency
  else
    let seconds := counter / frequency in
    let remainder := counter mod frequency in
    let nanoseconds := as_u32 (remainder * NANOS / frequency) in
    inl (mkMonotonicTime seconds nanoseconds).

(** The fractional part of a deadline: a 64-bit product when it fits, the
    128-bit division otherwise. *)
Definition fractional_counts (nanoseconds frequency : Z) : option Z :=
  match u64_checked_mul nanoseconds frequency with
  | Some product => Some (div_ceil product NANOS)
  | None =>
      let wide := div_ceil (nanoseconds * frequency) NANOS in
      if wide <=? u64_max then Some wide else None
  end.

Definition monotonic_time_to_counter_at_frequency (seconds nanoseconds frequency : Z)
    : Z + TimeConversionError :=
  if frequency =? 0 then inr InvalidFrequency
  else if NANOS <=? nanoseconds then inr Overflow
  else match u64_checked_mul seconds frequency with
       | None => inr Overflow
       | Some whole =>
           match fractional_counts nanoseconds frequency with
           | None => inr Overflow
           | Some fractional =>
               match u64_checked_add whole fractional with
               | Some c => inl c
               | None => inr Overflow
               end
           end
       end.

Definition monotonic_duration_to_counts := monotonic_time_to_counter_at_frequency.

Definition monotonic_resolution (frequency : Z) : MonotonicTime + TimeConversionError :=
  if frequency =? 0 then inr InvalidFrequency
  else
    let nanoseconds := Z.max (div_ceil NANOS frequency) 1 in
    inl (mkMonotonicTime (as_u64 (nanoseconds / NANOS)) (as_u32 (nanoseconds mod NANOS))).

Definition scale_to_counts (frequency units denom_per_second : Z) : Z :=
  if units =? 0 then 0
  else
    let freq := Z.max frequency 1 in
    let numerator := u128_saturating_mul units freq in
    let counts := div_ceil numerator denom_per_second in
    as_u64 (Z.min (Z.max counts 1) u64_max).

Definition ns_to_counts (frequency ns : Z) : Z := scale_to_counts frequency ns 1000000000.
Definition us_to_counts (frequency us : Z) : Z := scale_to_counts frequency us 1000000.
Definition ms_to_counts (frequency ms : Z) : Z := scale_to_counts frequency ms 1000.
Definition uptime_ms (frequency now : Z) : Z := now / ms_to_counts frequency 1.

(** The requested instant and a counter observation in nanoseconds. *)
Definition time_ns (t : MonotonicTime) : Z := mt_seconds t * NANOS + mt_nanoseconds t.

(** ** Rounding up *)

(** [div_ceil] is the least [c] with [n <= c * d]. *)
Lemma div_ceil_le n d c : 0 < d → div_ceil n d <= c ↔ n <= c * d.
Proof.
  intros Hd. unfold div_ceil.
  pose proof (Z.div_mod n d ltac:(lia)). pose proof (Z.mod_pos_bound n d Hd).
  destruct (0 <? n mod d) eqn:Hr; nia.
Qed.

Lemma div_ceil_nonneg n d : 0 <= n → 0 < d → 0 <= div_ceil n d.
Proof.
  intros Hn Hd. unfold div_ceil. pose proof (Z.div_pos n d Hn Hd).
  destruct (0 <? n mod d); lia.
Qed.

Lemma div_ceil_add_mul n d k : 0 < d → div_ceil (k * d + n) d = k + div_ceil n d.
Proof.
  intros Hd. unfold div_ceil.
  rewrite (Z.add_comm (k * d)), Z_mod_plus_full, Z_div_plus_full by lia.
  destruct (0 <? n mod d); lia.
Qed.

Lemma as_u64_small z : in_u64 z → as_u64 z = z.
Proof. unfold in_u64, as_u64. intros. apply Z.mod_small. lia. Qed.

Lemma as_u32_small z : in_u32 z → as_u32 z = z.
Proof. unfold in_u32, as_u32. intros. apply Z.mod_small. lia. Qed.

(** The observed time of a counter value is its exact value in nanoseconds,
    rounded down, and its fraction is normalized. *)
Lemma counter_time counter frequency :
  in_u64 counter → in_u64 frequency → frequency ≠ 0 →
  ∃ t, counter_to_monotonic_time_at_frequency counter frequency = inl t ∧
       in_u64 (mt_seconds t) ∧ 0 <= mt_nanoseconds t < NANOS ∧
       time_ns t = counter * NANOS / frequency.
Proof.
  unfold in_u64. intros Hc Hf Hf0. unfold counter_to_monotonic_time_at_frequency.
  rewrite (proj2 (Z.eqb_neq _ _) Hf0). eexists. split; [done|]. simpl.
  pose proof (Z.mod_pos_bound counter frequency ltac:(lia)) as Hm.
  assert (0 <= counter mod frequency * NANOS / frequency < NANOS) as Hn.
  { unfold NANOS. split; [apply Z.div_pos; lia|]. apply Z.div_lt_upper_bound; nia. }
  rewrite as_u32_small by (unfold in_u32, u32_max, NANOS in *; lia).
  split_and!; try lia.
  - apply Z.div_pos; lia.
  - apply Z.div_le_upper_bound; nia.
  - unfold time_ns. simpl. rewrite (Z.div_mod counter frequency Hf0) at 3.
    replace ((frequency * (counter / frequency) + counter mod frequency) * NANOS)
      with (counter mod frequency * NANOS + counter / frequency * NANOS * frequency) by ring.
    rewrite Z_div_plus_full by done. lia.
Qed.

Lemma fractional_counts_spec nanoseconds frequency :
  0 <= nanoseconds < NANOS → in_u64 frequency →
  fractional_counts nanoseconds frequency = Some (div_ceil (nanoseconds * frequency) NANOS) ∧
  0 <= div_ceil (nanoseconds * frequency) NANOS <= u64_max.
Proof.
  unfold in_u64. intros Hn Hf.
  assert (0 <= div_ceil (nanoseconds * frequency) NANOS <= u64_max).
  { split; [apply div_ceil_nonneg; [nia|done]|]. apply div_ceil_le; [done|]. nia. }
  split; [|done]. unfold fractional_counts, u64_checked_mul.
  destruct (_ <=? u64_max) eqn:?; [done|]. by rewrite (proj2 (Z.leb_le _ _)) by lia.
Qed.

Lemma to_counter_normalized seconds nanoseconds frequency :
  in_u64 seconds → 0 <= nanoseconds < NANOS → in_u64 frequency → frequency ≠ 0 →
  monotonic_time_to_counter_at_frequency seconds nanoseconds frequency =
    (let exact := div_ceil ((seconds * NANOS + nanoseconds) * frequency) NANOS in
     if exact <=? u64_max then inl exact else inr Overflow).
Proof.
  intros Hs Hn Hf Hf0. unfold monotonic_time_to_counter_at_frequency.
  rewrite (proj2 (Z.eqb_neq _ _) Hf0), (proj2 (Z.leb_gt _ _)) by lia. simpl.
  destruct (fractional_counts_spec nanoseconds frequency) as [-> Hb]; [done..|].
  replace ((seconds * NANOS + nanoseconds) * frequency)
    with (seconds * frequency * NANOS + nanoseconds * frequency) by ring.
  rewrite div_ceil_add_mul by done. unfold u64_checked_mul, u64_checked_add.
  destruct (seconds * frequency <=? u64_max) eqn:Hw.
  - by destruct (_ + _ <=? u64_max).
  - by rewrite (proj2 (Z.leb_gt _ _)) by lia.
Qed.

(** The deadline conversion, with its 64-bit fast path and its three
    overflow checks, computes the exact product
    [(seconds * 10^9 + nanoseconds) * frequency / 10^9] rounded up; it fails
    exactly for a zero frequency, an unnormalized fraction, or a result that
    is not a [u64]. *)
Theorem monotonic_time_to_counter_exact (seconds nanoseconds frequency : Z) :
  in_u64 seconds → in_u32 nanoseconds → in_u64 frequency →
  monotonic_time_to_counter_at_frequency seconds nanoseconds frequency =
    (let exact := div_ceil ((seconds * NANOS + nanoseconds) * frequency) NANOS in
     if frequency =? 0 then inr InvalidFrequency
     else if (nanoseconds <? NANOS) && (exact <=? u64_max) then inl exact else inr Overflow).
Proof.
  intros Hs [Hn _] Hf. destruct (frequency =? 0) eqn:Hf0.
  { unfold monotonic_time_to_counter_at_frequency. by rewrite Hf0. }
  destruct (nanoseconds <? NANOS) eqn:Hn0.
  - rewrite to_counter_normalized by (done || lia). done.
  - unfold monotonic_time_to_counter_at_frequency.
    by rewrite Hf0, (proj2 (Z.leb_le _ _)) by lia.
Qed.

Lemma monotonic_time_to_counter_exact_witness :
  monotonic_time_to_counter_at_frequency 3 500000001 62500000 = inl 218750001.
Proof.
  rewrite monotonic_time_to_counter_exact;
    [reflexivity|unfold in_u64, in_u32, u64_max, u32_max; lia..].
Defined.

(** C34: a deadline is never early and never later than necessary: a counter
    value reads at or after the requested time exactly when it is at or after
    the converted deadline. *)
Theorem deadline_is_first_counter_at_or_after (seconds nanoseconds frequency deadline counter : Z)
    (t : MonotonicTime) :
  in_u64 seconds → in_u32 nanoseconds → in_u64 frequency → in_u64 counter →
  monotonic_time_to_counter_at_frequency seconds nanoseconds frequency = inl deadline →
  counter_to_monotonic_time_at_frequency counter frequency = inl t →
  time_ns (mkMonotonicTime seconds nanoseconds) <= time_ns t ↔ deadline <= counter.
Proof.
  intros Hs [Hn _] Hf Hc Hd Ht.
  pose proof Hd as Hguards. unfold monotonic_time_to_counter_at_frequency in Hguards.
  destruct (frequency =? 0) eqn:Hf0; [done|]. destruct (NANOS <=? nanoseconds) eqn:Hn0; [done|].
  rewrite to_counter_normalized in Hd by (done || lia). simpl in Hd.
  destruct (_ <=? u64_max); simplify_eq. clear Hguards.
  destruct (counter_time counter frequency) as (t' & Ht' & _ & _ & Hns); [done..|lia|].
  assert (t' = t) as -> by congruence. rewrite Hns, div_ceil_le by done. unfold in_u64 in *.
  unfold time_ns. simpl. split.
  - intros Hle. pose proof (Z.mul_div_le (counter * NANOS) frequency ltac:(lia)). nia.
  - intros Hle. apply Z.div_le_lower_bound; nia.
Qed.

Lemma deadline_is_first_counter_at_or_after_witness :
  time_ns (mkMonotonicTime 1 7) <= time_ns (mkMonotonicTime 1 16) ↔ 62500001 <= 62500001.
Proof.
  apply (deadline_is_first_counter_at_or_after 1 7 62500000 62500001 62500001);
    [unfold in_u64, in_u32, u64_max, u32_max; lia..|reflexivity|reflexivity].
Defined.

(** Tick counts of durations: rounded up, at least one tick, saturated. *)
Lemma scale_to_counts_exact frequency units denom :
  in_u64 units → in_u64 frequency → 0 < denom → units ≠ 0 →
  scale_to_counts frequency units denom =
    Z.min (Z.max (div_ceil (units * Z.max frequency 1) denom) 1) u64_max.
Proof.
  unfold in_u64. intros Hu Hf Hd Hu0. unfold scale_to_counts, u128_saturating_mul.
  rewrite (proj2 (Z.eqb_neq _ _) Hu0), (Z.min_l (units * _)).
  - apply as_u64_small. unfold in_u64, u64_max in *. lia.
  - unfold u128_max, u64_max in *. nia.
Qed.

(** A duration in nanoseconds, microseconds or milliseconds never becomes
    a shorter tick count: unless the count saturates, the ticks cover the
    whole duration, one tick less would not, and a non-zero duration is at
    least one tick. *)
Theorem scale_to_counts_covers (frequency units denom : Z) :
  in_u64 units → in_u64 frequency → 0 < frequency → 0 < units →
  denom ∈ [1000; 1000000; 1000000000] →
  let ticks := scale_to_counts frequency units denom in
  1 <= ticks <= u64_max ∧
  (ticks < u64_max → units * frequency <= ticks * denom) ∧
  (ticks - 1) * denom < units * frequency.
Proof.
  intros Hu Hf Hf0 Hu0 Hden ticks.
  assert (0 < denom) as Hd by (apply list_elem_of_In in Hden; simpl in Hden; lia).
  subst ticks. rewrite scale_to_counts_exact by (done || lia).
  rewrite (Z.max_l frequency 1) by lia.
  assert (1 <= div_ceil (units * frequency) denom) as H1.
  { apply Z.nlt_ge. intros Hlt%Z.lt_le_pred. apply div_ceil_le in Hlt; nia. }
  pose proof (div_ceil_le (units * frequency) denom (div_ceil (units * frequency) denom) Hd) as [Hup _].
  pose proof (div_ceil_le (units * frequency) denom (div_ceil (units * frequency) denom - 1) Hd) as Hlo.
  unfold u64_max in *. split_and!; nia.
Qed.

Lemma scale_to_counts_covers_witness :
  let ticks := scale_to_counts 62500000 10 1000 in
  1 <= ticks <= u64_max ∧ (ticks < u64_max → 10 * 62500000 <= ticks * 1000) ∧
  (ticks - 1) * 1000 < 10 * 62500000.
Proof.
  apply (scale_to_counts_covers 62500000 10 1000); [unfold in_u64, u64_max; lia..|].
  apply list_elem_of_here.
Defined.
