(* ===== verification/Preempt.v ===== *)
(** * Preemption control

    Models [PreemptionState] of [kernel/src/sync/preempt.rs]: the nesting
    depth of disabled preemption and the coalesced reschedule request of one
    CPU.  The guard and the CPU-local access functions that need the
    executing CPU are in the scheduler's world (file [World]).

    The theorem shows that a request is never lost and never served twice: it
    stays pending until a checkpoint at depth zero of an online CPU
    acknowledges it. *)

From S2P Require Import Prelude.

Record PreemptionState := mkPreemptionState {
  disable_depth : Z;
  reschedule_pending : bool
}.

#[global] Instance PreemptionState_eq_dec : EqDecision PreemptionState.
Proof. solve_decision. Defined.

Definition preemption_new : PreemptionState := mkPreemptionState 0 false.

Definition preempt_enter (p : PreemptionState) : outcome PreemptionState :=
  depth ← expect_o (u64_checked_add (disable_depth p) 1) "preempt: disable nesting overflow";
  mret (mkPreemptionState depth (reschedule_pending p)).

(** The result tells whether the outermost guard left a request behind. *)
Definition preempt_leave (p : PreemptionState) : outcome (bool * PreemptionState) :=
  depth ← expect_o (u64_checked_sub (disable_depth p) 1) "preempt: disable nesting underflow";
  mret (bool_decide (depth = 0%Z) && reschedule_pending p,
        mkPreemptionState depth (reschedule_pending p)).

Definition preempt_request (p : PreemptionState) : PreemptionState :=
  mkPreemptionState (disable_depth p) true.

Definition preempt_is_disabled (p : PreemptionState) : bool :=
  negb (bool_decide (disable_depth p = 0%Z)).

Definition preempt_consume_checkpoint (p : PreemptionState) (online : bool) : bool * PreemptionState :=
  if negb online || preempt_is_disabled p || negb (reschedule_pending p) then (false, p)
  else (true, mkPreemptionState (disable_depth p) false).

Definition preempt_assert_enabled (p : PreemptionState) (operation : string) : outcome unit :=
  if preempt_is_disabled p then Panic ("preempt: " +:+ operation +:+ " while preemption disabled")
  else mret tt.

(** ** Histories of one CPU *)

Inductive preempt_op :=
| PEnter
| PLeave
| PRequest
| PConsume (online : bool).

(** One operation, with what its caller observes: the outermost leave and the
    checkpoint report a pending request. *)
Definition preempt_exec (p : PreemptionState) (o : preempt_op) : outcome (bool * PreemptionState) :=
  match o with
  | PEnter => p' ← preempt_enter p; mret (false, p')
  | PLeave => preempt_leave p
  | PRequest => mret (false, preempt_request p)
  | PConsume online => mret (preempt_consume_checkpoint p online)
  end.

Fixpoint preempt_run (p : PreemptionState) (ops : list preempt_op)
    : outcome (list bool * PreemptionState) :=
  match ops with
  | [] => mret ([], p)
  | o :: ops' =>
      '(b, p1) ← preempt_exec p o;
      '(bs, p2) ← preempt_run p1 ops';
      mret (b :: bs, p2)
  end.

(** The specification of a history: the depth is the number of unmatched
    enters, and the request is outstanding when it was made after the last
    checkpoint that could serve it. *)
Definition depth_after (d : Z) (o : preempt_op) : Z :=
  match o with PEnter => d + 1 | PLeave => d - 1 | _ => d end%Z.

Definition serves (d : Z) (outstanding : bool) (o : preempt_op) : bool :=
  match o with PConsume online => online && bool_decide (d = 0%Z) && outstanding | _ => false end.

Definition outstanding_after (d : Z) (outstanding : bool) (o : preempt_op) : bool :=
  match o with
  | PRequest => true
  | _ => outstanding && negb (serves d outstanding o)
  end.

Fixpoint history (d : Z) (outstanding : bool) (ops : list preempt_op) : Z * bool :=
  match ops with
  | [] => (d, outstanding)
  | o :: ops' => history (depth_after d o) (outstanding_after d outstanding o) ops'
  end.

(** What the callers of a history observe. *)
Fixpoint reports (d : Z) (outstanding : bool) (ops : list preempt_op) : list bool :=
  match ops with
  | [] => []
  | o :: ops' =>
      match o with
      | PLeave => bool_decide (d = 1%Z) && outstanding
      | _ => serves d outstanding o
      end :: reports (depth_after d o) (outstanding_after d outstanding o) ops'
  end.

(** A history respects the nesting when no leave is unmatched and the depth
    stays a [usize]. *)
Fixpoint nested (d : Z) (ops : list preempt_op) : bool :=
  match ops with
  | [] => true
  | o :: ops' =>
      match o with PEnter => (d <? u64_max)%Z | PLeave => (0 <? d)%Z | _ => true end
      && nested (depth_after d o) ops'
  end.

Lemma preempt_exec_spec d r o :
  (match o with PEnter => d <? u64_max | PLeave => 0 <? d | _ => true end)%Z = true →
  preempt_exec (mkPreemptionState d r) o =
    Done (match o with PLeave => bool_decide (d = 1%Z) && r | _ => serves d r o end,
          mkPreemptionState (depth_after d o) (outstanding_after d r o)).
Proof.
  intros Hok. destruct o as [| | |online]; simpl.
  - unfold preempt_enter, u64_checked_add. simpl.
    rewrite (proj2 (Z.leb_le _ _)) by lia. simpl. by rewrite andb_true_r.
  - unfold preempt_leave, u64_checked_sub. simpl.
    rewrite (proj2 (Z.leb_le _ _)) by lia. simpl. rewrite andb_true_r.
    rewrite (bool_decide_ext (d - 1 = 0)%Z (d = 1)%Z) by lia. done.
  - done.
  - unfold preempt_consume_checkpoint, preempt_is_disabled. simpl.
    destruct online, r, (bool_decide (d = 0%Z)) eqn:Hd; by simpl.
Qed.

(** Along every history in which guards nest, the state is exactly the
    number of open guards and the outstanding request, no operation panics,
    and the checkpoint fires exactly when an outstanding request meets depth
    zero on an online CPU: a request is neither lost nor served twice, and the
    outermost guard reports it. *)
Theorem preemption_requests_exact (ops : list preempt_op) :
  nested 0 ops = true →
  preempt_run preemption_new ops =
    (let '(d, r) := history 0 false ops in Done (reports 0 false ops, mkPreemptionState d r)).
Proof.
  unfold preemption_new. generalize 0%Z false.
  induction ops as [|o ops IH]; intros d r Hn; simpl in *; [done|].
  apply andb_true_iff in Hn as [Ho Hn]. rewrite preempt_exec_spec by done. simpl.
  rewrite IH by done. by destruct (history _ _ ops).
Qed.

Lemma preemption_requests_exact_witness :
  preempt_run preemption_new [PEnter; PEnter; PRequest; PConsume true; PLeave; PLeave; PConsume true]
  = Done ([false; false; false; false; false; true; true], mkPreemptionState 0 false).
Proof. apply preemption_requests_exact. reflexivity. Defined.
