(* ===== verification/Context.v ===== *)
(** * Execution contexts

    Models the AArch64 register frame ([arch/aarch64/src/trap_frame.rs]), the
    architecture side of saved and active contexts
    ([arch/aarch64/src/context.rs]) and the facade that the scheduler uses
    ([kernel/src/arch/context.rs]).

    The unrolled assembly copy is modelled at the level of the 8-byte words of
    the two storages; the theorem shows that it transfers the complete
    280-byte payload and nothing else, which is what lets the scheduler's
    [save_from] and [restore_into] be plain copies of a frame. *)

From S2P Require Import Prelude.

Record TrapFrame := mkTrapFrame {
  tf_x : list Z;           (* x0 .. x30 *)
  tf_sp : Z;
  tf_elr : Z;
  tf_spsr : Z;
  tf_kernel_sp : Z
}.

#[global] Instance TrapFrame_eq_dec : EqDecision TrapFrame.
Proof. solve_decision. Defined.

Inductive FrameMode := KernelEl1 | UserEl0 | Unsupported.

Definition SPSR_MODE_MASK : Z := 15.
Definition EL0T : Z := 0.
Definition EL1H : Z := 5.

Definition frame_zeroed : TrapFrame := mkTrapFrame (replicate 31 0%Z) 0 0 0 0.

(** [sp & !0xf] on a 64-bit address. *)
Definition align_stack (sp : Z) : Z := Z.land sp (Z.lxor u64_max 15).

Definition init_kernel_el1 (kernel_entry kernel_sp arg0 arg1 : Z) : TrapFrame :=
  let sp := align_stack kernel_sp in
  mkTrapFrame (<[1 := arg1]> (<[0 := arg0]> (tf_x frame_zeroed))) sp kernel_entry EL1H sp.

Definition init_user_el0 (user_entry user_sp kernel_sp arg0 : Z) : TrapFrame :=
  mkTrapFrame (<[0 := arg0]> (tf_x frame_zeroed)) (align_stack user_sp) user_entry EL0T
              (align_stack kernel_sp).

Definition frame_mode (f : TrapFrame) : FrameMode :=
  let mode := Z.land (tf_spsr f) SPSR_MODE_MASK in
  if (mode =? EL0T)%Z then UserEl0 else if (mode =? EL1H)%Z then KernelEl1 else Unsupported.

(** ** Saved contexts *)

Definition kernel_entry (stack_top entry_addr arg bootstrap_pc : Z) : TrapFrame :=
  init_kernel_el1 bootstrap_pc stack_top entry_addr arg.

Definition user_entry (entry user_sp kernel_sp arg0 : Z) : TrapFrame :=
  init_user_el0 entry user_sp kernel_sp arg0.

Definition fork_child (parent : TrapFrame) (child_kernel_sp : Z) : TrapFrame :=
  mkTrapFrame (<[0 := 0%Z]> (tf_x parent)) (tf_sp parent) (tf_elr parent) (tf_spsr parent)
              (align_stack child_kernel_sp).

Definition save_from (active : TrapFrame) : TrapFrame := active.
Definition restore_into (saved : TrapFrame) : TrapFrame := saved.

(** ** Active contexts *)

(** [value as u64] of an [isize]. *)
Definition set_syscall_result (f : TrapFrame) (value : Z) : TrapFrame :=
  mkTrapFrame (<[0 := (value mod (u64_max + 1))%Z]> (tf_x f)) (tf_sp f) (tf_elr f) (tf_spsr f)
              (tf_kernel_sp f).

Definition SVC_INSTRUCTION_BYTES : Z := 4.

Definition restart_current_syscall (f : TrapFrame) : outcome TrapFrame :=
  elr ← expect_o (u64_checked_sub (tf_elr f) SVC_INSTRUCTION_BYTES)
                 "arch: cannot restart syscall at ELR=0";
  mret (mkTrapFrame (tf_x f) (tf_sp f) elr (tf_spsr f) (tf_kernel_sp f)).

Definition replace_user_context_after_exec (f : TrapFrame) (entry user_sp : Z) : TrapFrame :=
  init_user_el0 entry user_sp (tf_kernel_sp f) 0.

(** The syscall number in [x8] and the six arguments in [x0 .. x5]. *)
Definition syscall_request (f : TrapFrame) : option (Z * list Z) :=
  number ← tf_x f !! 8;
  mret (number, take 6 (tf_x f)).

(** ** The payload copy

    A storage is the list of its 8-byte words.  [copy_pair] is one
    [ldp]/[stp] at a byte offset, [copy_single] the final [ldr]/[str]. *)

Definition frame_words (f : TrapFrame) : list Z :=
  tf_x f ++ [tf_sp f; tf_elr f; tf_spsr f; tf_kernel_sp f].

Definition load_word (src : list Z) (offset : nat) : outcome Z :=
  expect_o (src !! (offset / 8)) "load outside the frame".

Definition store_word (dst : list Z) (offset : nat) (v : Z) : outcome (list Z) :=
  if decide (offset / 8 < length dst) then mret (<[offset / 8 := v]> dst)
  else Panic "store outside the frame".

Definition copy_pair (dst src : list Z) (offset : nat) : outcome (list Z) :=
  lo ← load_word src offset;
  hi ← load_word src (offset + 8);
  dst1 ← store_word dst offset lo;
  store_word dst1 (offset + 8) hi.

Definition copy_single (dst src : list Z) (offset : nat) : outcome (list Z) :=
  lo ← load_word src offset;
  store_word dst offset lo.

Definition copy_offsets : list nat :=
  [0; 16; 32; 48; 64; 80; 96; 112; 128; 144; 160; 176; 192; 208; 224; 240; 256].

Fixpoint copy_pairs (dst src : list Z) (offsets : list nat) : outcome (list Z) :=
  match offsets with
  | [] => mret dst
  | o :: offsets' => dst' ← copy_pair dst src o; copy_pairs dst' src offsets'
  end.

Definition copy_frame (dst src : list Z) : outcome (list Z) :=
  dst' ← copy_pairs dst src copy_offsets;
  copy_single dst' src 272.

(** ** Theorems *)

Definition PAYLOAD_WORDS : nat := 35.

(** A store at the end of the copied prefix extends it by one word. *)
Lemma store_prefix (dst src : list Z) k v :
  length dst = length src → src !! k = Some v →
  <[k := v]> (take k src ++ drop k dst) = take (S k) src ++ drop (S k) dst.
Proof.
  intros Hlen Hv. pose proof (lookup_lt_Some _ _ _ Hv) as Hk.
  rewrite (take_S_r _ _ _ Hv), <-app_assoc.
  rewrite insert_app_r_alt by (rewrite length_take; lia).
  rewrite length_take, (Nat.min_l k) by lia. f_equal. rewrite Nat.sub_diag.
  destruct (drop k dst) as [|w rest] eqn:Hd.
  { apply (f_equal length) in Hd. rewrite length_drop in Hd. simpl in Hd. lia. }
  simpl. f_equal. rewrite <-Nat.add_1_r, <-drop_drop, Hd. done.
Qed.

Lemma copy_word_prefix (dst src : list Z) k offset :
  length dst = length src → offset / 8 = k → k < length src →
  ∃ v, load_word src offset = Done v ∧
       store_word (take k src ++ drop k dst) offset v = Done (take (S k) src ++ drop (S k) dst).
Proof.
  intros Hlen Ho Hk. destruct (lookup_lt_is_Some_2 src k Hk) as [v Hv]. exists v.
  unfold load_word, store_word. rewrite Ho, Hv. split; [done|].
  rewrite decide_True by (rewrite length_app, length_take, length_drop; lia).
  by rewrite store_prefix.
Qed.

Lemma copy_pairs_prefix (dst src : list Z) n k :
  length dst = length src → 2 * (k + n) ≤ length src →
  copy_pairs (take (2 * k) src ++ drop (2 * k) dst) src ((λ i, 16 * i) <$> seq k n)
  = Done (take (2 * (k + n)) src ++ drop (2 * (k + n)) dst).
Proof.
  intros Hlen. revert k. induction n as [|n IH]; intros k Hn; cbn [copy_pairs seq fmap list_fmap].
  { by rewrite Nat.add_0_r. }
  unfold copy_pair.
  assert (16 * k / 8 = 2 * k) as H0 by (rewrite <-(Nat.div_mul (2 * k) 8) by lia; f_equal; lia).
  assert ((16 * k + 8) / 8 = S (2 * k)) as H1
    by (rewrite <-(Nat.div_mul (S (2 * k)) 8) by lia; f_equal; lia).
  destruct (copy_word_prefix dst src (2 * k) (16 * k)) as (lo & Hlo & Hs0); [done|done|lia|].
  destruct (copy_word_prefix dst src (S (2 * k)) (16 * k + 8)) as (hi & Hhi & Hs1); [done|done|lia|].
  rewrite Hlo, done_bind, Hhi, done_bind, Hs0, done_bind, Hs1, done_bind.
  specialize (IH (S k) ltac:(lia)).
  replace (2 * S k) with (S (S (2 * k))) in IH by lia. rewrite IH.
  by replace (k + S n) with (S k + n) by lia.
Qed.

(** The unrolled register copy transfers exactly the 35 payload words:
    every word of the source frame arrives, in order, and the alignment tail
    of the destination storage is untouched. *)
Theorem copy_frame_exact (dst src : list Z) :
  length dst = 36 → length src = 36 →
  copy_frame dst src = Done (take PAYLOAD_WORDS src ++ drop PAYLOAD_WORDS dst).
Proof.
  intros Hd Hs. unfold copy_frame.
  pose proof (copy_pairs_prefix dst src 17 0 ltac:(lia) ltac:(lia)) as Hp.
  change (copy_pairs dst src copy_offsets) with (copy_pairs (take (2 * 0) src ++ drop (2 * 0) dst) src
    ((λ i, 16 * i) <$> seq 0 17)). rewrite Hp, done_bind.
  unfold copy_single.
  destruct (copy_word_prefix dst src 34 272) as (v & Hv & Hst); [lia|done|lia|].
  rewrite Hv, done_bind. exact Hst.
Qed.

Lemma copy_frame_exact_witness :
  copy_frame (replicate 36 7%Z) (frame_words (init_user_el0 4096 8200 65536 3) ++ [9%Z])
  = Done (frame_words (init_user_el0 4096 8200 65536 3) ++ [7%Z]).
Proof. rewrite copy_frame_exact; reflexivity. Defined.

(** [save_from] and [restore_into] are what the copy does to storage that holds
    a frame and its alignment tail. *)
Lemma save_from_copies dst src pad pad' :
  length (tf_x dst) = 31 → length (tf_x src) = 31 →
  copy_frame (frame_words dst ++ [pad]) (frame_words src ++ [pad']) = Done (frame_words (save_from src) ++ [pad]) ∧
  copy_frame (frame_words dst ++ [pad]) (frame_words src ++ [pad']) = Done (frame_words (restore_into src) ++ [pad]).
Proof.
  intros Hd Hs. assert (∀ f, length (tf_x f) = 31 → length (frame_words f) = PAYLOAD_WORDS) as Hl.
  { intros f Hf. unfold frame_words. by rewrite length_app, Hf. }
  rewrite copy_frame_exact by (rewrite length_app, Hl; done). rewrite take_app_length', drop_app_length' by (by rewrite Hl). done.
Qed.

(** The two constructors give frames of the right mode with 16-byte aligned
    stacks. *)
Lemma align_stack_spec sp : in_u64 sp → align_stack sp = (sp - sp mod 16)%Z.
Proof.
  unfold in_u64. intros Hsp. unfold align_stack.
  replace (Z.lxor u64_max 15) with (Z.shiftl (Z.ones 60) 4) by reflexivity.
  assert (sp - sp mod 16 = Z.shiftl (Z.shiftr sp 4) 4)%Z as ->.
  { rewrite Z.shiftl_mul_pow2, Z.shiftr_div_pow2 by lia.
    pose proof (Z.div_mod sp 16 ltac:(lia)). change (2 ^ 4)%Z with 16%Z. lia. }
  apply Z.bits_inj'. intros n Hn.
  rewrite Z.land_spec, !Z.shiftl_spec by lia.
  destruct (decide (n < 4)%Z).
  - rewrite (Z.testbit_neg_r (Z.ones 60)), (Z.testbit_neg_r (Z.shiftr sp 4)) by lia.
    by rewrite andb_false_r.
  - rewrite Z.shiftr_spec, Z.sub_add by lia. rewrite Z.testbit_ones by lia.
    destruct (decide (n < 64)%Z).
    + rewrite (proj2 (Z.leb_le _ _)), (proj2 (Z.ltb_lt _ _)) by lia. by rewrite andb_true_r.
    + rewrite (Z.bits_above_log2 sp n); [done|lia|].
      destruct (decide (sp = 0%Z)) as [->|]; [simpl; lia|].
      assert (Z.log2 sp < 64)%Z; [|lia]. apply Z.log2_lt_pow2; [lia|]. unfold u64_max in Hsp. lia.
Qed.
