(* ===== verification/Vm.v ===== *)
(** * User address-space ownership

    Models the CPU-local publication of user translation roots and the checked
    user mapping wrapper of [kernel/src/memory/vm.rs].  The table holds one
    record per logical CPU; the architecture's root installation, root
    destruction and page mapping are arguments that return the status code of
    the hook.

    The theorems show that a root is never installed on two CPUs, that usercopy
    is possible only in a root published for it, that an installed root is
    never destroyed, and that a range mapping maps exactly its pages. *)

From S2P Require Import Prelude Types.

Definition NO_ACTIVE_USER_ROOT : Z := u64_max.
Definition PAGE_SIZE : Z := 4096.

Record CpuUserAddressSpace := mkCpuUserAddressSpace { installed : Z; user_access : bool }.

Definition cpu_user_address_space_new : CpuUserAddressSpace :=
  mkCpuUserAddressSpace NO_ACTIVE_USER_ROOT false.

Record AddressSpaceId := mkAddressSpaceId { root_pa : Z; owner_cpu : CpuId }.

#[global] Instance AddressSpaceId_eq_dec : EqDecision AddressSpaceId.
Proof. solve_decision. Defined.

Inductive VmError :=
| NotInitialized | InvalidRange | NotAligned | NotKernelVa | AlreadyMapped
| MissingMapping | OutOfFrames | ActiveAddressSpace | WrongCpu | VmUnsupported.

Definition vm_error_from_code (code : Z) : VmError :=
  if (code =? 1)%Z then NotInitialized
  else if (code =? 2)%Z then InvalidRange
  else if (code =? 3)%Z then NotAligned
  else if (code =? 4)%Z then NotKernelVa
  else if (code =? 5)%Z then AlreadyMapped
  else if (code =? 6)%Z then MissingMapping
  else if (code =? 7)%Z then OutOfFrames
  else VmUnsupported.

Definition vm_result (code : Z) : unit + VmError :=
  if (code =? 0)%Z then inl tt else inr (vm_error_from_code code).

(** [CPU_USER_ADDRESS_SPACES], indexed by logical CPU. *)
Abbreviation vm_table := (list CpuUserAddressSpace).

Definition for_usercopy (s : CpuUserAddressSpace) (owner : CpuId) : option AddressSpaceId :=
  if user_access s then
    if (installed s =? NO_ACTIVE_USER_ROOT)%Z then None
    else Some (mkAddressSpaceId (installed s) owner)
  else None.

Definition vm_slot (t : vm_table) (cpu : CpuId) : outcome CpuUserAddressSpace :=
  expect_o (t !! cpu) "index out of bounds".

(** [current] is the result of [cpu::current_id]. *)
Definition current_user_address_space (t : vm_table) (current : option CpuId)
    : outcome (option AddressSpaceId) :=
  match current with
  | None => mret None
  | Some cpu => s ← vm_slot t cpu; mret (for_usercopy s cpu)
  end.

Definition retain_user_address_space_for_idle (t : vm_table) (current : option CpuId)
    : outcome ((unit + VmError) * vm_table) :=
  match current with
  | None => mret (inr WrongCpu, t)
  | Some cpu =>
      s ← vm_slot t cpu;
      mret (inl tt, <[cpu := mkCpuUserAddressSpace (installed s) false]> t)
  end.

Definition installed_elsewhere (t : vm_table) (cpu : CpuId) (root : Z) : bool :=
  existsb (λ p, negb (bool_decide (p.1 = cpu)) && (installed p.2 =? root)%Z)
          (zip (seq 0 (length t)) t).

Definition activate_user_address_space (arch_activate : Z → Z) (t : vm_table)
    (current : option CpuId) (aspace : AddressSpaceId) : outcome ((unit + VmError) * vm_table) :=
  match current with
  | None => mret (inr WrongCpu, t)
  | Some cpu =>
      if negb (bool_decide (cpu = owner_cpu aspace)) then mret (inr WrongCpu, t)
      else
        s ← vm_slot t cpu;
        if (installed s =? root_pa aspace)%Z then
          mret (inl tt, <[cpu := mkCpuUserAddressSpace (installed s) true]> t)
        else if installed_elsewhere t cpu (root_pa aspace) then mret (inr ActiveAddressSpace, t)
        else
          let t1 := <[cpu := mkCpuUserAddressSpace (installed s) false]> t in
          match vm_result (arch_activate (root_pa aspace)) with
          | inr e => mret (inr e, t1)
          | inl _ => mret (inl tt, <[cpu := mkCpuUserAddressSpace (root_pa aspace) true]> t1)
          end
  end.

Definition clear_user_address_space (arch_clear : Z) (t : vm_table) (current : option CpuId)
    : outcome ((unit + VmError) * vm_table) :=
  match current with
  | None => mret (inr WrongCpu, t)
  | Some cpu =>
      s ← vm_slot t cpu;
      let t1 := <[cpu := mkCpuUserAddressSpace (installed s) false]> t in
      if (installed s =? NO_ACTIVE_USER_ROOT)%Z then mret (inl tt, t1)
      else
        match vm_result arch_clear with
        | inr e => mret (inr e, t1)
        | inl _ => mret (inl tt, <[cpu := mkCpuUserAddressSpace NO_ACTIVE_USER_ROOT false]> t1)
        end
  end.

Definition destroy_user_address_space (arch_destroy : Z → Z) (t : vm_table) (aspace : AddressSpaceId)
    : unit + VmError :=
  if existsb (λ s, (installed s =? root_pa aspace)%Z) t then inr ActiveAddressSpace
  else vm_result (arch_destroy (root_pa aspace)).

(** ** Range mapping

    The translation tables are a state [T]; [arch_map] maps one page and
    returns the hook's status code. *)
Section mapping.
Context {T : Type} (arch_map : T → Z → Z → T * Z).

Definition map_user_page (tables : T) (va pa : Z) : T * (unit + VmError) :=
  let '(t', code) := arch_map tables va pa in (t', vm_result code).

Fixpoint map_pages (fuel : nat) (tables : T) (va pa offset size : Z) : outcome (T * (unit + VmError)) :=
  match fuel with
  | 0 => Panic "map_user_page_range: loop bound"
  | S fuel' =>
      if (offset <? size)%Z then
        let '(t', r) := map_user_page tables (va + offset) (pa + offset) in
        match r with
        | inr e => mret (t', inr e)
        | inl _ => map_pages fuel' t' va pa (offset + PAGE_SIZE) size
        end
      else mret (tables, inl tt)
  end.

Definition map_user_page_range (tables : T) (va pa size : Z) : outcome (T * (unit + VmError)) :=
  if (size =? 0)%Z then mret (tables, inl tt)
  else if negb (Z.land va (PAGE_SIZE - 1) =? 0)%Z || negb (Z.land pa (PAGE_SIZE - 1) =? 0)%Z
          || negb (Z.land size (PAGE_SIZE - 1) =? 0)%Z
  then mret (tables, inr NotAligned)
  else match u64_checked_add va size, u64_checked_add pa size with
       | Some _, Some _ => map_pages (S (Z.to_nat (size / PAGE_SIZE))) tables va pa 0 size
       | _, _ => mret (tables, inr InvalidRange)
       end.

(** Mapping a list of pages one after the other, up to the first failure. *)
Fixpoint map_each (tables : T) (pages : list (Z * Z)) : T * (unit + VmError) :=
  match pages with
  | [] => (tables, inl tt)
  | (va, pa) :: rest =>
      match map_user_page tables va pa with
      | (t', inl _) => map_each t' rest
      | (t', inr e) => (t', inr e)
      end
  end.

Definition range_pages (va pa : Z) (n : nat) : list (Z * Z) :=
  (λ i, (va + Z.of_nat i * PAGE_SIZE, pa + Z.of_nat i * PAGE_SIZE))%Z <$> seq 0 n.
End mapping.

(** ** Histories of the table *)

Inductive vm_op :=
| VmActivate (current : CpuId) (aspace : AddressSpaceId) (code : Z)
| VmRetain (current : CpuId)
| VmClear (current : CpuId) (code : Z).

Definition vm_exec (t : vm_table) (o : vm_op) : outcome ((unit + VmError) * vm_table) :=
  match o with
  | VmActivate c a code => activate_user_address_space (λ _, code) t (Some c) a
  | VmRetain c => retain_user_address_space_for_idle t (Some c)
  | VmClear c code => clear_user_address_space code t (Some c)
  end.

Fixpoint vm_run (t : vm_table) (ops : list vm_op) : outcome vm_table :=
  match ops with
  | [] => mret t
  | o :: ops' => '(_, t') ← vm_exec t o; vm_run t' ops'
  end.

Definition vm_boot : vm_table := replicate KERNEL_CPU_CAPACITY cpu_user_address_space_new.

(** No root is installed on two CPUs, and user access implies a root. *)
Definition vm_ok (t : vm_table) : Prop :=
  (∀ c1 c2 s1 s2, t !! c1 = Some s1 → t !! c2 = Some s2 →
     installed s1 = installed s2 → installed s1 ≠ NO_ACTIVE_USER_ROOT → c1 = c2) ∧
  length t = KERNEL_CPU_CAPACITY.

Lemma installed_elsewhere_spec t cpu root :
  installed_elsewhere t cpu root = true ↔
  ∃ c s, t !! c = Some s ∧ c ≠ cpu ∧ installed s = root.
Proof.
  unfold installed_elsewhere. rewrite existsb_exists. split.
  - intros ([c s] & Hin & Hb). apply list_elem_of_In, list_elem_of_lookup in Hin as [i Hi].
    apply lookup_zip_Some in Hi as [Hc Hs]. apply lookup_seq in Hc as [-> _].
    simpl in *. exists i, s. apply andb_true_iff in Hb as [Hne Heq].
    apply negb_true_iff, bool_decide_eq_false in Hne. split_and!; [done|done|lia].
  - intros (c & s & Hs & Hne & <-). exists (c, s). split.
    + apply list_elem_of_In, list_elem_of_lookup. exists c. apply lookup_zip_Some. split; [|done].
      apply lookup_seq. split; [lia|]. by apply lookup_lt_Some in Hs.
    + simpl. rewrite bool_decide_eq_false_2 by done. simpl. apply Z.eqb_refl.
Qed.

(** Replacing the record of one CPU by one with the same or no root, or with a
    root that no other CPU has, keeps the roots apart. *)
Lemma vm_ok_insert t cpu s :
  vm_ok t →
  (installed s ≠ NO_ACTIVE_USER_ROOT →
   ∀ c s', t !! c = Some s' → installed s' = installed s → c = cpu) →
  vm_ok (<[cpu := s]> t).
Proof.
  intros [Hex Hlen] Hs. split; [|by rewrite length_insert].
  intros c1 c2 s1 s2 H1 H2 Heq Hne.
  apply list_lookup_insert_Some in H1 as [(-> & <- & _)|[Hc1 H1]];
    apply list_lookup_insert_Some in H2 as [(-> & <- & _)|[Hc2 H2]]; try done.
  - symmetry. eapply Hs; [done|apply H2|done].
  - eapply Hs; [by rewrite <-Heq|apply H1|done].
  - by eapply Hex.
Qed.

Lemma vm_ok_same_root t cpu s b :
  vm_ok t → t !! cpu = Some s → vm_ok (<[cpu := mkCpuUserAddressSpace (installed s) b]> t).
Proof.
  intros Hok Hs. apply vm_ok_insert; [done|]. simpl. intros Hne c s' Hs' Heq.
  destruct Hok as [Hex _]. eapply Hex; [apply Hs'|apply Hs|done|congruence].
Qed.

Lemma vm_exec_ok t o r t' : vm_ok t → vm_exec t o = Done (r, t') → vm_ok t'.
Proof.
  intros Hok. destruct o as [c a code|c|c code]; simpl; unfold mret, outcome_ret.
  - unfold activate_user_address_space, vm_slot, mret, outcome_ret.
    destruct (bool_decide _); simpl; [|intros; by simplify_eq].
    destruct (t !! c) as [s|] eqn:Hs; simpl; [|done].
    destruct (installed s =? root_pa a)%Z; simpl;
      [intros; simplify_eq; by apply vm_ok_same_root|].
    destruct (installed_elsewhere t c (root_pa a)) eqn:He; simpl; [intros; by simplify_eq|].
    destruct (vm_result code); simpl; intros; simplify_eq; [|by apply vm_ok_same_root].
    rewrite list_insert_insert_eq. apply vm_ok_insert; [done|]. simpl. intros _ c' s' Hs' Heq.
    destruct (decide (c' = c)); [done|]. exfalso.
    apply not_true_iff_false in He. apply He, installed_elsewhere_spec. eauto.
  - unfold retain_user_address_space_for_idle, vm_slot, mret, outcome_ret.
    destruct (t !! c) as [s|] eqn:Hs; simpl; [|done].
    intros; simplify_eq. by apply vm_ok_same_root.
  - unfold clear_user_address_space, vm_slot, mret, outcome_ret.
    destruct (t !! c) as [s|] eqn:Hs; simpl; [|done].
    destruct (installed s =? NO_ACTIVE_USER_ROOT)%Z;
      [intros; simplify_eq/=; by apply vm_ok_same_root|].
    destruct (vm_result code); simpl; intros; simplify_eq; [|by apply vm_ok_same_root].
    rewrite list_insert_insert_eq. by apply vm_ok_insert.
Qed.

Definition vm_op_cpu (o : vm_op) : CpuId :=
  match o with VmActivate c _ _ | VmRetain c | VmClear c _ => c end.

Lemma vm_exec_returns t o :
  length t = KERNEL_CPU_CAPACITY → vm_op_cpu o < KERNEL_CPU_CAPACITY →
  ∃ r t', vm_exec t o = Done (r, t').
Proof.
  intros Hlen Hc. rewrite <-Hlen in Hc. apply lookup_lt_is_Some_2 in Hc as [s Hs].
  destruct o as [c a code|c|c code]; simpl in *;
    unfold activate_user_address_space, retain_user_address_space_for_idle,
      clear_user_address_space, vm_slot; rewrite Hs; simpl;
    repeat (case_match; simpl); eauto.
Qed.

Lemma vm_run_ok t ops :
  vm_ok t → Forall (λ o, vm_op_cpu o < KERNEL_CPU_CAPACITY) ops →
  ∃ t', vm_run t ops = Done t' ∧ vm_ok t'.
Proof.
  intros Hok Hops. revert t Hok. induction Hops as [|o ops Ho Hops IH]; intros t Hok; simpl; [eauto|].
  destruct (vm_exec_returns t o) as (r & t1 & Ht1); [apply Hok|done|].
  rewrite Ht1. simpl. apply IH. by eapply vm_exec_ok.
Qed.

(** After any sequence of activations, idle retentions and detachments on
    any CPUs, whatever status the architecture returns, a user address space
    visible to usercopy on a CPU is owned by that CPU, is visible on no other
    CPU, and cannot be destroyed. *)
Theorem usercopy_root_exclusive (ops : list vm_op) (arch_destroy : Z → Z) :
  Forall (λ o, vm_op_cpu o < KERNEL_CPU_CAPACITY) ops →
  ∃ t, vm_run vm_boot ops = Done t ∧
    ∀ c a, current_user_address_space t (Some c) = Done (Some a) →
      owner_cpu a = c ∧
      destroy_user_address_space arch_destroy t a = inr ActiveAddressSpace ∧
      ∀ c' a', current_user_address_space t (Some c') = Done (Some a') →
               root_pa a' = root_pa a → c' = c.
Proof.
  intros Hops. destruct (vm_run_ok vm_boot ops) as (t & Ht & Hex & _); [|done|].
  { split; [|done]. intros c1 c2 s1 s2 H1 _ _ Hne. exfalso. apply Hne.
    apply lookup_replicate in H1 as [-> _]. done. }
  exists t. split; [done|].
  assert (∀ c a, current_user_address_space t (Some c) = Done (Some a) →
    ∃ s, t !! c = Some s ∧ installed s = root_pa a ∧ owner_cpu a = c ∧
         root_pa a ≠ NO_ACTIVE_USER_ROOT) as Hinv.
  { intros c a. simpl. unfold vm_slot. destruct (t !! c) as [s|] eqn:Hs; simpl; [|done].
    unfold for_usercopy, mret, outcome_ret. destruct (user_access s); [|done].
    destruct (_ =? _)%Z eqn:Hr; [done|]. intros ?; simplify_eq/=. exists s. split_and!; [done..|lia]. }
  intros c a (s & Hs & Hr & Hown & Hne)%Hinv. split_and!; [done| |].
  - unfold destroy_user_address_space.
    replace (existsb _ t) with true; [done|]. symmetry. apply existsb_exists. exists s. split; [|lia].
    apply list_elem_of_In, list_elem_of_lookup. eauto.
  - intros c' a' (s' & Hs' & Hr' & _)%Hinv Heq. eapply Hex; [done|done| |]; congruence.
Qed.

Lemma usercopy_root_exclusive_witness :
  ∃ t, vm_run vm_boot [VmActivate 0 (mkAddressSpaceId 8192 0) 0; VmRetain 0;
                       VmActivate 1 (mkAddressSpaceId 12288 1) 0] = Done t ∧
    ∀ c a, current_user_address_space t (Some c) = Done (Some a) →
      owner_cpu a = c ∧
      destroy_user_address_space (λ _, 0%Z) t a = inr ActiveAddressSpace ∧
      ∀ c' a', current_user_address_space t (Some c') = Done (Some a') →
               root_pa a' = root_pa a → c' = c.
Proof. apply usercopy_root_exclusive. repeat constructor. Defined.

Section mapping_proofs.
Context {T : Type} (arch_map : T → Z → Z → T * Z).

Lemma map_pages_spec fuel (tables : T) va pa i n :
  n < fuel →
  map_pages arch_map fuel tables va pa (Z.of_nat i * PAGE_SIZE) (Z.of_nat (i + n) * PAGE_SIZE)
  = Done (map_each arch_map tables
            ((λ j, (va + Z.of_nat j * PAGE_SIZE, pa + Z.of_nat j * PAGE_SIZE)%Z) <$> seq i n)).
Proof.
  revert fuel tables i. induction n as [|n IH]; intros [|fuel] tables i Hf; [lia| |lia|];
    cbn [map_pages seq fmap list_fmap map_each].
  - by rewrite (proj2 (Z.ltb_ge _ _)) by lia.
  - rewrite (proj2 (Z.ltb_lt _ _)) by (unfold PAGE_SIZE; lia).
    destruct (map_user_page arch_map tables _ _) as [t' [|]]; [|done].
    specialize (IH fuel t' (S i) ltac:(lia)).
    replace (Z.of_nat i * PAGE_SIZE + PAGE_SIZE)%Z with (Z.of_nat (S i) * PAGE_SIZE)%Z by lia.
    replace (i + S n) with (S i + n) by lia. exact IH.
Qed.

(** Mapping a page-aligned range that does not wrap maps exactly the
    pages of the range, each virtual page to the physical page at the same
    offset, in order and up to the first failure; the loop terminates. *)
Theorem map_user_page_range_exact (tables : T) (va pa : Z) (n : nat) :
  (va mod PAGE_SIZE = 0)%Z → (pa mod PAGE_SIZE = 0)%Z →
  (va + Z.of_nat n * PAGE_SIZE <= u64_max)%Z → (pa + Z.of_nat n * PAGE_SIZE <= u64_max)%Z →
  map_user_page_range arch_map tables va pa (Z.of_nat n * PAGE_SIZE) =
    Done (map_each arch_map tables (range_pages va pa n)).
Proof.
  intros Hva Hpa Hv Hp. unfold map_user_page_range.
  assert (∀ z, Z.land z (PAGE_SIZE - 1) = (z mod PAGE_SIZE)%Z) as Hland.
  { intros z. change (PAGE_SIZE - 1)%Z with (Z.ones 12). by rewrite Z.land_ones. }
  rewrite !Hland, Hva, Hpa, Z_mod_mult. simpl.
  unfold u64_checked_add. rewrite !(proj2 (Z.leb_le _ _)) by done.
  rewrite Z_div_mult, Nat2Z.id by done. unfold range_pages.
  destruct (Z.of_nat n * PAGE_SIZE =? 0)%Z eqn:H0.
  { destruct n; [done|]. apply Z.eqb_eq in H0. unfold PAGE_SIZE in H0. lia. }
  apply (map_pages_spec (S n) tables va pa 0 n). lia.
Qed.
End mapping_proofs.
