(* ===== verification/Time.v ===== *)
(** * CPU-local time state

    Models [TimeState], [ExpiredEvents] and the timer programming of
    [kernel/src/time.rs] for one CPU, over any implementation of the
    [DeadlineService] interface.  The state of an operation is the time state
    together with the timer register of the executing CPU.

    The theorems show that the armed timer is never later than a pending
    deadline, and that a timer interrupt takes exactly the events whose
    deadline is reached, in deadline order, within the reserved buffer. *)

From stdpp Require Import gmap sorting.
From S2P Require Import Prelude Types Deadline.

(** ** The transfer buffer of expired events *)

Record ExpiredEvents := mkExpiredEvents {
  ee_entries : list (option TimedEvent);
  ee_len : nat
}.

Definition expired_new (capacity : nat) : ExpiredEvents :=
  mkExpiredEvents (replicate capacity None) 0.

Definition expired_push (e : ExpiredEvents) (event : TimedEvent) : outcome ExpiredEvents :=
  if decide (ee_len e < length (ee_entries e))
  then mret (mkExpiredEvents (<[ee_len e := Some event]> (ee_entries e)) (ee_len e + 1))
  else Panic "time: expired buffer capacity exhausted".

(** [entries[..len]] with every entry unwrapped. *)
Definition expired_iter (e : ExpiredEvents) : outcome (list TimedEvent) :=
  if decide (ee_len e ≤ length (ee_entries e))
  then expect_o (mapM id (take (ee_len e) (ee_entries e))) "time: empty expired slot"
  else Panic "range end index out of range".

Definition expired_single (e : ExpiredEvents) : outcome (option TimedEvent) :=
  if decide (ee_len e = 1) then
    match ee_entries e !! 0 with
    | Some (Some ev) => mret (Some ev)
    | _ => Panic "time: empty expired slot"
    end
  else mret None.

(** ** The time state of one CPU *)

Record TimeState (Q : Type) := mkTimeState {
  ts_queue : Q;
  ts_armed : option Z;
  ts_dispatching : bool;
  ts_expired : option ExpiredEvents
}.
Arguments mkTimeState {Q} _ _ _ _.
Arguments ts_queue {Q} _.
Arguments ts_armed {Q} _.
Arguments ts_dispatching {Q} _.
Arguments ts_expired {Q} _.

Record QuantumUpdate := mkQuantumUpdate {
  qu_obsolete : option TimedEvent;
  qu_ensure : option (Z * TimedEvent)
}.

Section time.
Context {Q : Type} `{DeadlineService Q}.

(** The time state and the timer register of the executing CPU. *)
Definition TM : Type → Type := M (TimeState Q * option Z).

Definition time_state_new (capacity : nat) : TimeState Q :=
  mkTimeState (svc_empty capacity) None false (Some (expired_new capacity)).

Definition set_queue (q : Q) (ts : TimeState Q) : TimeState Q :=
  mkTimeState q (ts_armed ts) (ts_dispatching ts) (ts_expired ts).

Definition on_queue {A} (f : Q → outcome (A * Q)) : TM A :=
  λ '(ts, hw), '(a, q) ← f (ts_queue ts); mret (a, (set_queue q ts, hw)).

Definition program_timer_deadline (deadline : option Z) : TM unit :=
  modify (λ '(ts, _), (ts, deadline)).

Definition rearm_timer : TM unit :=
  next ← gets (λ s, svc_next_deadline (ts_queue s.1));
  program_timer_deadline next;;
  modify (λ '(ts, hw), (mkTimeState (ts_queue ts) next (ts_dispatching ts) (ts_expired ts), hw)).

Definition ts_schedule_event (deadline : Z) (event : TimedEvent) : TM unit :=
  on_queue (λ q, q' ← svc_schedule q deadline event; mret (tt, q')).

Definition ts_cancel_event (event : TimedEvent) (rearm : bool) : TM bool :=
  canceled ← on_queue (λ q, svc_cancel q event);
  dispatching ← gets (λ s, ts_dispatching s.1);
  (if canceled && negb dispatching && rearm then rearm_timer else mret tt);;
  mret canceled.

Definition ts_publish_sleep (deadline : Z) (token : WaitToken) : TM unit :=
  ts_cancel_event (quantum_expired (wt_cpu token) (wt_thread token)) false;;
  ts_schedule_event deadline (wait_deadline token);;
  dispatching ← gets (λ s, ts_dispatching s.1);
  if dispatching : bool then mret tt else rearm_timer.

Definition ts_event_pending (event : TimedEvent) : TM bool :=
  gets (λ s, svc_pending (ts_queue s.1) event).

(** [while let Some(event) = self.queue.pop_expired(now)] *)
Fixpoint pop_all (fuel : nat) (cpu : CpuId) (now : Z) (expired : ExpiredEvents) : TM ExpiredEvents :=
  match fuel with
  | 0 => panic "time: expired loop bound"
  | S fuel' =>
      r ← on_queue (λ q, svc_pop_expired q now);
      match r with
      | None => mret expired
      | Some event =>
          assert_that (bool_decide (event_cpu event = cpu))
                      "time: expired event belongs to another CPU";;
          expired' ← reads (λ _, expired_push expired event);
          pop_all fuel' cpu now expired'
      end
  end.

Definition ts_take_expired (cpu : CpuId) (now : Z) : TM ExpiredEvents :=
  modify (λ '(ts, hw), (mkTimeState (ts_queue ts) (ts_armed ts) true (ts_expired ts), hw));;
  buffer ← gets (λ s, ts_expired s.1);
  expired ← expect buffer "time: reentrant timer dispatch";
  modify (λ '(ts, hw), (mkTimeState (ts_queue ts) (ts_armed ts) (ts_dispatching ts) None, hw));;
  fuel ← gets (λ s, S (svc_capacity (ts_queue s.1)));
  pop_all fuel cpu now expired.

(** The closing transaction of [on_timer_interrupt]: apply the scheduler's
    quantum update, return the buffer and rearm. *)
Definition ts_finish_interrupt (quantum : QuantumUpdate) (expired : ExpiredEvents) : TM unit :=
  match qu_obsolete quantum with
  | Some event => ts_cancel_event event false;; mret tt
  | None => mret tt
  end;;
  match qu_ensure quantum with
  | Some (deadline, event) =>
      pending ← ts_event_pending event;
      if pending : bool then mret tt else ts_schedule_event deadline event
  | None => mret tt
  end;;
  modify (λ '(ts, hw), (mkTimeState (ts_queue ts) (ts_armed ts) false
                          (Some (mkExpiredEvents (ee_entries expired) 0)), hw));;
  rearm_timer.

(** [schedule_event] of the module on the executing CPU's own state. *)
Definition ts_schedule_local (deadline : Z) (event : TimedEvent) : TM unit :=
  ts_schedule_event deadline event;;
  dispatching ← gets (λ s, ts_dispatching s.1);
  if dispatching : bool then mret tt else rearm_timer.
End time.
Arguments TM : clear implicits.

(** ** Invariant *)

Section time_proofs.
Context {Q : Type} `{DeadlineService Q}.
Implicit Types ts : TimeState Q.

Definition ts_events ts : gmap TimedEvent Z := svc_events (ts_queue ts).

(** The queue of a CPU: well formed, of the reserved capacity, holding only
    the events of that CPU. *)
Record queue_inv (cpu : CpuId) (cap : nat) (q : Q) : Prop := {
  qi_ok : svc_ok q;
  qi_capacity : svc_capacity q = cap;
  qi_cpu : ∀ ev d, svc_events q !! ev = Some d → event_cpu ev = cpu
}.

(** Outside of a timer interrupt the buffer is home and empty, and a timer is
    armed no later than any pending deadline. *)
Record time_ok (cpu : CpuId) (cap : nat) ts : Prop := {
  to_queue : queue_inv cpu cap (ts_queue ts);
  to_idle : ts_dispatching ts = false;
  to_buffer : ∃ es, ts_expired ts = Some (mkExpiredEvents es 0) ∧ length es = cap;
  to_armed : ∀ ev d, ts_events ts !! ev = Some d → ∃ a, ts_armed ts = Some a ∧ (a <= d)%Z
}.

(** Between the two transactions of a timer interrupt. *)
Record time_dispatching (cpu : CpuId) (cap : nat) ts : Prop := {
  td_queue : queue_inv cpu cap (ts_queue ts);
  td_dispatching : ts_dispatching ts = true;
  td_buffer : ts_expired ts = None
}.

Lemma queue_inv_insert cpu cap q d ev :
  queue_inv cpu cap q → event_cpu ev = cpu →
  is_Some (svc_events q !! ev) ∨ size (svc_events q) < cap →
  ∃ q', svc_schedule q d ev = Done q' ∧ queue_inv cpu cap q' ∧
        svc_events q' = <[ev := d]> (svc_events q).
Proof.
  intros [Hok Hcap Hcpu] Hev Hroom. rewrite <-Hcap in Hroom.
  destruct (svc_schedule_spec q d ev Hok Hroom) as (q' & Hq & Hok' & Hcap' & He).
  exists q'. split_and!; [done| |done]. split; [done|congruence|].
  rewrite He. intros ev' d' [[<- _]|[_ ?]]%lookup_insert_Some; eauto.
Qed.

Lemma queue_inv_delete cpu cap q ev :
  queue_inv cpu cap q →
  ∃ q', svc_cancel q ev = Done (bool_decide (is_Some (svc_events q !! ev)), q') ∧
        queue_inv cpu cap q' ∧ svc_events q' = delete ev (svc_events q).
Proof.
  intros [Hok Hcap Hcpu]. destruct (svc_cancel_spec q ev Hok) as (q' & Hq & Hok' & Hcap' & He).
  exists q'. split_and!; [done| |done]. split; [done|congruence|].
  rewrite He. intros ev' d' [_ ?]%lookup_delete_Some; eauto.
Qed.

Lemma wp_on_queue {A} (f : Q → outcome (A * Q)) (P : A → TimeState Q * option Z → Prop) ts hw a q :
  f (ts_queue ts) = Done (a, q) → P a (set_queue q ts, hw) → wp (on_queue f) P (ts, hw).
Proof. unfold wp, on_queue. by intros ->. Qed.

(** Rearming arms exactly the nearest deadline. *)
Lemma rearm_timer_spec cpu cap ts hw :
  queue_inv cpu cap (ts_queue ts) → ts_dispatching ts = false →
  (∃ es, ts_expired ts = Some (mkExpiredEvents es 0) ∧ length es = cap) →
  wp rearm_timer (λ _ s, time_ok cpu cap s.1 ∧ ts_queue s.1 = ts_queue ts ∧ s.2 = ts_armed s.1) (ts, hw).
Proof.
  intros Hq Hd Hb. unfold rearm_timer, program_timer_deadline. repeat wp_step. simpl.
  split_and!; [|done|done]. split; [done|done|done|]. unfold ts_events. simpl. intros ev d Hev.
  pose proof (svc_next_spec (ts_queue ts) (qi_ok _ _ _ Hq)) as Hn.
  destruct (svc_next_deadline _); [|by rewrite Hn, lookup_empty in Hev].
  destruct Hn as [_ Hmin]. eauto.
Qed.

Lemma ts_schedule_local_spec cpu cap ts hw d ev :
  time_ok cpu cap ts → event_cpu ev = cpu →
  is_Some (ts_events ts !! ev) ∨ size (ts_events ts) < cap →
  wp (ts_schedule_local d ev)
     (λ _ s, time_ok cpu cap s.1 ∧ ts_events s.1 = <[ev := d]> (ts_events ts) ∧ s.2 = ts_armed s.1)
     (ts, hw).
Proof.
  intros [Hq Hd Hb Ha] Hev Hroom. unfold ts_schedule_local, ts_schedule_event. wp_step.
  destruct (queue_inv_insert _ _ _ d ev Hq Hev Hroom) as (q' & Hs & Hq' & He).
  eapply wp_on_queue; [by rewrite Hs|]. repeat wp_step. simpl. rewrite Hd.
  eapply wp_mono; [by apply (rearm_timer_spec cpu cap)|].
  intros _ s (? & Hqs & ?). split_and!; [done| |done]. unfold ts_events. by rewrite Hqs.
Qed.

Lemma ts_cancel_event_spec cpu cap ts hw ev rearm :
  time_ok cpu cap ts →
  wp (ts_cancel_event ev rearm)
     (λ r s, time_ok cpu cap s.1 ∧ ts_events s.1 = delete ev (ts_events ts) ∧
             r = bool_decide (is_Some (ts_events ts !! ev)) ∧
             (rearm = true ∧ s.2 = ts_armed s.1 ∨ s.2 = hw ∧ ts_armed s.1 = ts_armed ts))
     (ts, hw).
Proof.
  intros [Hq Hd Hb Ha]. unfold ts_cancel_event. wp_step.
  destruct (queue_inv_delete _ _ _ ev Hq) as (q' & Hs & Hq' & He).
  eapply wp_on_queue; [by rewrite Hs|]. wp_step. wp_step. simpl. rewrite Hd.
  set (b := bool_decide _). wp_step.
  destruct (b && negb false && rearm) eqn:Hb3.
  - eapply wp_mono; [by apply (rearm_timer_spec cpu cap)|].
    intros _ s (? & Hqs & ?). wp_step. split_and!; [done| |done|].
    + unfold ts_events. by rewrite Hqs.
    + apply andb_true_iff in Hb3 as [_ ->]. auto.
  - repeat wp_step. split_and!; [|done|done|auto]. split; [done|done|done|].
    unfold ts_events. simpl. rewrite He. intros ev' d' [_ ?]%lookup_delete_Some. eauto.
Qed.

Lemma ts_publish_sleep_spec cpu cap ts hw d token :
  time_ok cpu cap ts → wt_cpu token = cpu →
  size (delete (quantum_expired cpu (wt_thread token)) (ts_events ts)) < cap →
  wp (ts_publish_sleep d token)
     (λ _ s, time_ok cpu cap s.1 ∧ s.2 = ts_armed s.1 ∧
             ts_events s.1 = <[wait_deadline token := d]>
                               (delete (quantum_expired cpu (wt_thread token)) (ts_events ts)))
     (ts, hw).
Proof.
  intros Hok Hc Hroom. unfold ts_publish_sleep. wp_step. rewrite Hc.
  eapply wp_mono; [by apply (ts_cancel_event_spec cpu cap)|].
  intros _ [ts1 hw1] (Hok1 & He1 & _). simpl in *.
  eapply wp_mono; [apply (ts_schedule_local_spec cpu cap ts1 hw1 d (wait_deadline token))|].
  - done.
  - done.
  - rewrite He1. auto.
  - intros _ s (? & Hs & ?). rewrite He1 in Hs. done.
Qed.

(** ** Taking the expired events *)

(** The initialized prefix of the buffer. *)
Definition buffer_holds (cap : nat) (e : ExpiredEvents) (evs : list TimedEvent) : Prop :=
  ee_len e = length evs ∧ length (ee_entries e) = cap ∧
  take (length evs) (ee_entries e) = Some <$> evs.

Lemma buffer_push cap e evs ev :
  buffer_holds cap e evs → length evs < cap →
  ∃ e', expired_push e ev = Done e' ∧ buffer_holds cap e' (evs ++ [ev]).
Proof.
  intros (Hl & Hc & Ht) Hlt. unfold expired_push. rewrite decide_True by lia.
  eexists. split; [done|]. unfold buffer_holds. simpl. rewrite length_app, length_insert. simpl.
  split_and!; [lia|done|]. rewrite fmap_app, Nat.add_1_r.
  rewrite (take_S_r _ _ (Some ev)).
  - rewrite take_insert_ge, Ht by lia. done.
  - rewrite Hl. apply list_lookup_insert_eq. lia.
Qed.

Lemma buffer_iter cap e evs : buffer_holds cap e evs → expired_iter e = Done evs.
Proof.
  intros (Hl & Hc & Ht). assert (length evs ≤ length (ee_entries e)) as Hle.
  { apply (f_equal length) in Ht. rewrite length_take, length_fmap in Ht. lia. }
  unfold expired_iter. rewrite Hl, decide_True, Ht by lia.
  replace (mapM id (Some <$> evs)) with (Some evs); [done|].
  symmetry. apply mapM_Some. clear. induction evs; constructor; auto.
Qed.

Lemma buffer_single cap e evs :
  buffer_holds cap e evs →
  expired_single e = Done (match evs with [ev] => Some ev | _ => None end).
Proof.
  intros (Hl & Hc & Ht). unfold expired_single. rewrite Hl.
  destruct evs as [|ev [|ev2 evs]]; simpl; [done| |done].
  destruct (ee_entries e) as [|x es]; simpl in *; [done|]. by simplify_eq.
Qed.

(** [es] lists, in order, exactly the entries of [m] due at [now]. *)
Definition due_entries (m : gmap TimedEvent Z) (now : Z) (es : list DeadlineEntry) : Prop :=
  StronglySorted entry_le es ∧ NoDup (de_event <$> es) ∧
  ∀ e, e ∈ es ↔ m !! de_event e = Some (de_deadline e) ∧ (de_deadline e <= now)%Z.

Definition not_due (now : Z) (m : gmap TimedEvent Z) : gmap TimedEvent Z :=
  filter (λ p, now < p.2)%Z m.

Lemma due_entries_cons m now ev d es :
  m !! ev = Some d → (d <= now)%Z →
  (∀ ev' d', m !! ev' = Some d' → entry_le (mkDeadlineEntry d ev) (mkDeadlineEntry d' ev')) →
  due_entries (delete ev m) now es → due_entries m now (mkDeadlineEntry d ev :: es).
Proof.
  intros Hev Hd Hmin (Hs & Hnd & Hes). split_and!.
  - constructor; [done|]. apply Forall_forall. intros [d' ev'] [Hin _]%Hes.
    apply lookup_delete_Some in Hin as [_ Hin]. eauto.
  - rewrite fmap_cons. apply NoDup_cons. split; [|done].
    intros ([d' ev'] & Heq & [Hin _]%Hes)%list_elem_of_fmap. simpl in Heq. subst ev'.
    by rewrite lookup_delete_eq in Hin.
  - intros [d' ev']. rewrite elem_of_cons, Hes. simpl. split.
    + intros [?|[Hin ?]]; [by simplify_eq|]. apply lookup_delete_Some in Hin as [_ ?]. done.
    + intros [Hin ?]. destruct (decide (ev' = ev)) as [->|]; [left; congruence|].
      right. split; [|done]. by apply lookup_delete_Some.
Qed.

Lemma pop_all_spec cpu cap now fuel ts hw e evs :
  queue_inv cpu cap (ts_queue ts) → buffer_holds cap e evs →
  size (ts_events ts) < fuel → length evs + size (ts_events ts) ≤ cap →
  wp (pop_all fuel cpu now e)
     (λ e' s, ∃ es q, s = (set_queue q ts, hw) ∧ queue_inv cpu cap q ∧
              buffer_holds cap e' (evs ++ (de_event <$> es)) ∧
              due_entries (ts_events ts) now es ∧ svc_events q = not_due now (ts_events ts))
     (ts, hw).
Proof.
  revert ts e evs. unfold ts_events. induction fuel as [|fuel IH]; intros ts e evs Hq He Hf Hlen; [lia|].
  destruct Hq as [Hok Hcap Hcpu]. simpl. wp_step.
  destruct (svc_pop_spec (ts_queue ts) now Hok) as (r & q1 & Hp & Hok1 & Hcap1 & Hr).
  eapply wp_on_queue; [done|]. destruct r as [ev|].
  - destruct Hr as (d & Hev & Hd & Hmin & Hdel).
    assert (queue_inv cpu cap q1) as Hq1.
    { split; [done|congruence|]. rewrite Hdel. intros ev' d' [_ ?]%lookup_delete_Some. eauto. }
    pose proof (map_size_delete_Some ev (svc_events (ts_queue ts)) ltac:(eauto)) as Hsz.
    rewrite <-Hdel in Hsz.
    assert (0 < size (svc_events (ts_queue ts))) as Hpos.
    { apply Nat.neq_0_lt_0. intros Hz. apply map_size_empty_iff in Hz. by rewrite Hz, lookup_empty in Hev. }
    wp_step. wp_step; [by apply bool_decide_eq_true; eauto|]. wp_step.
    destruct (buffer_push cap e evs ev He ltac:(lia)) as (e' & Hpush & He').
    eapply wp_reads; [done|].
    eapply wp_mono; [eapply IH; [done|done|simpl; lia|rewrite length_app; simpl; lia]|].
    intros e2 s (es & q & -> & Hq & Hb & Hdue & Hnd). simpl in *.
    exists (mkDeadlineEntry d ev :: es), q. split_and!; [done|done| | |].
    + by rewrite <-app_assoc in Hb.
    + apply due_entries_cons; [done..|]. by rewrite <-Hdel.
    + rewrite Hnd, Hdel. unfold not_due. rewrite map_filter_delete.
      apply delete_id. apply map_lookup_filter_None_2. right. intros x Hx. simplify_eq/=. lia.
  - destruct Hr as [-> Hlate]. wp_step. exists [], (ts_queue ts). split_and!.
    + by destruct ts.
    + done.
    + by rewrite app_nil_r.
    + split_and!; [constructor|constructor|]. intros e'. split; [by intros ?%elem_of_nil|].
      intros [Hin ?]. apply Hlate in Hin. lia.
    + unfold not_due. symmetry. apply map_filter_id. intros ev d Hev. simpl. eauto.
Qed.

Lemma ts_take_expired_spec cpu cap now ts hw :
  time_ok cpu cap ts →
  wp (ts_take_expired cpu now)
     (λ e s, ∃ es, time_dispatching cpu cap s.1 ∧ s.2 = hw ∧
             buffer_holds cap e (de_event <$> es) ∧ due_entries (ts_events ts) now es ∧
             ts_events s.1 = not_due now (ts_events ts))
     (ts, hw).
Proof.
  intros [Hq Hd (es0 & Hb & Hl) Ha]. unfold ts_take_expired. do 4 wp_step. simpl. wp_step.
  eapply wp_expect; [done|]. do 4 wp_step.
  pose proof (svc_size (ts_queue ts) (qi_ok _ _ _ Hq)) as Hsz.
  cbn [fst ts_queue]. rewrite (qi_capacity _ _ _ Hq) in *.
  eapply wp_mono; [apply (pop_all_spec cpu cap now (S cap) _ hw (mkExpiredEvents es0 0) [])|].
  - done.
  - split_and!; done.
  - unfold ts_events. simpl. lia.
  - unfold ts_events. simpl. lia.
  - intros e s (es & q & -> & Hqi & Hbh & Hdue & Hnd). simpl in *. exists es.
    split_and!; try done.
Qed.

(** ** Closing the interrupt *)

Definition ensure_events (ensure : option (Z * TimedEvent)) (m : gmap TimedEvent Z) :=
  match ensure with
  | Some (d, ev) => if decide (is_Some (m !! ev)) then m else <[ev := d]> m
  | None => m
  end.

Definition obsolete_events (obsolete : option TimedEvent) (m : gmap TimedEvent Z) :=
  match obsolete with Some ev => delete ev m | None => m end.

Lemma ts_cancel_dispatching cpu cap ts hw ev :
  time_dispatching cpu cap ts →
  wp (ts_cancel_event ev false)
     (λ _ s, time_dispatching cpu cap s.1 ∧ ts_events s.1 = delete ev (ts_events ts)) (ts, hw).
Proof.
  intros [Hq Hd Hb]. unfold ts_cancel_event. wp_step.
  destruct (queue_inv_delete _ _ _ ev Hq) as (q' & Hs & Hq' & He).
  eapply wp_on_queue; [by rewrite Hs|]. wp_step. wp_step. wp_step.
  rewrite andb_false_r. repeat wp_step. simpl. split; [by split|done].
Qed.

Lemma ts_finish_interrupt_spec cpu cap ts hw obsolete ensure e :
  time_dispatching cpu cap ts → length (ee_entries e) = cap →
  let m := obsolete_events obsolete (ts_events ts) in
  (∀ d ev, ensure = Some (d, ev) → event_cpu ev = cpu ∧ (m !! ev = None → size m < cap)) →
  wp (ts_finish_interrupt (mkQuantumUpdate obsolete ensure) e)
     (λ _ s, time_ok cpu cap s.1 ∧ s.2 = ts_armed s.1 ∧ ts_events s.1 = ensure_events ensure m)
     (ts, hw).
Proof.
  intros Hok Hlen m Hens. unfold ts_finish_interrupt. simpl. wp_step.
  apply (wp_mono _ (λ _ s, time_dispatching cpu cap s.1 ∧ ts_events s.1 = m)).
  { destruct obsolete as [ev|]; [|by wp_step]. wp_step.
    eapply wp_mono; [by apply (ts_cancel_dispatching cpu cap)|]. intros b s Hs. by wp_step. }
  intros _ [ts1 hw1] [Hok1 Hm1]. simpl in *. wp_step.
  apply (wp_mono _ (λ _ s, time_dispatching cpu cap s.1 ∧ ts_events s.1 = ensure_events ensure m)).
  { destruct ensure as [[d ev]|]; [|by wp_step]. destruct (Hens d ev eq_refl) as [Hc Hroom].
    unfold ts_event_pending. wp_step. wp_step. simpl.
    rewrite (svc_pending_spec _ _ (qi_ok _ _ _ (td_queue _ _ _ Hok1))).
    change (svc_events (ts_queue ts1)) with (ts_events ts1). rewrite Hm1.
    case_bool_decide as Hp; [wp_step; by rewrite decide_True|]. rewrite decide_False by done.
    destruct (queue_inv_insert cpu cap (ts_queue ts1) d ev) as (q' & Hs & Hq' & He).
    - apply Hok1.
    - done.
    - right. change (svc_events (ts_queue ts1)) with (ts_events ts1). rewrite Hm1.
      apply Hroom. by apply eq_None_not_Some.
    - eapply wp_on_queue; [by rewrite Hs|]. simpl. destruct Hok1. split; [by split|].
      unfold ts_events. simpl. rewrite He. by rewrite <-Hm1. }
  intros _ [ts2 hw2] [[Hq2 _ _] Hm2]. simpl in *. do 2 wp_step.
  eapply wp_mono; [apply (rearm_timer_spec cpu cap); simpl; eauto|].
  intros _ s (? & Hqs & ?). split_and!; [done|done|]. unfold ts_events in *. by rewrite Hqs.
Qed.
End time_proofs.

(** ** Histories of one CPU's time state *)

Inductive time_op :=
| TSchedule (deadline : Z) (event : TimedEvent)
| TSleep (deadline : Z) (token : WaitToken)
| TCancel (event : TimedEvent) (rearm : bool)
| TInterrupt (now : Z) (quantum : QuantumUpdate).

(** [TCancel _ false] is a cancellation by another CPU; [TInterrupt] is a whole
    timer interrupt with the quantum update the scheduler returned. *)
Definition time_exec {Q} `{DeadlineService Q} (cpu : CpuId) (o : time_op) : TM Q unit :=
  match o with
  | TSchedule d ev => ts_schedule_local d ev
  | TSleep d token => ts_publish_sleep d token
  | TCancel ev rearm => ts_cancel_event ev rearm;; mret tt
  | TInterrupt now q => expired ← ts_take_expired cpu now; ts_finish_interrupt q expired
  end.

Fixpoint time_run {Q} `{DeadlineService Q} (cpu : CpuId) (ops : list time_op) : TM Q unit :=
  match ops with
  | [] => mret tt
  | o :: ops' => time_exec cpu o;; time_run cpu ops'
  end.

(** Only the events of the CPU are scheduled on it. *)
Definition op_local (cpu : CpuId) (o : time_op) : bool :=
  match o with
  | TSchedule _ ev => bool_decide (event_cpu ev = cpu)
  | TSleep _ token => bool_decide (wt_cpu token = cpu)
  | TCancel _ _ => true
  | TInterrupt _ q =>
      match qu_ensure q with Some (_, ev) => bool_decide (event_cpu ev = cpu) | None => true end
  end.

Section time_histories.
Context {Q : Type} `{DeadlineService Q}.

(** Between operations the register holds the armed deadline. *)
Definition time_inv (cpu : CpuId) (cap : nat) (s : TimeState Q * option Z) : Prop :=
  time_ok cpu cap s.1 ∧ s.2 = ts_armed s.1.

Lemma size_insert_le (m : gmap TimedEvent Z) ev d : size (<[ev := d]> m) ≤ S (size m).
Proof. rewrite map_size_insert. case_match; simpl; lia. Qed.

Lemma size_delete_le (m : gmap TimedEvent Z) ev : size (delete ev m) ≤ size m.
Proof. rewrite map_size_delete. case_match; simpl; lia. Qed.

Lemma size_not_due_le now (m : gmap TimedEvent Z) : size (not_due now m) ≤ size m.
Proof. apply map_subseteq_size, map_filter_subseteq. Qed.

Lemma size_obsolete_le o (m : gmap TimedEvent Z) : size (obsolete_events o m) ≤ size m.
Proof. destruct o; simpl; [apply size_delete_le|done]. Qed.

Lemma size_ensure_le e (m : gmap TimedEvent Z) : size (ensure_events e m) ≤ S (size m).
Proof. destruct e as [[??]|]; simpl; [case_decide; [lia|apply size_insert_le]|lia]. Qed.

Lemma time_inv_new cpu cap : time_inv cpu cap (time_state_new cap, None).
Proof.
  destruct (svc_empty_spec cap) as (Hok & He & Hc). split; [|done]. split; [split| | |]; simpl.
  - done.
  - done.
  - rewrite He. intros ev d Hev. by rewrite lookup_empty in Hev.
  - done.
  - eexists. split; [done|]. apply length_replicate.
  - unfold ts_events. simpl. rewrite He. intros ev d Hev. by rewrite lookup_empty in Hev.
Qed.

Lemma time_new_events cap : ts_events (time_state_new cap) = ∅.
Proof. apply svc_empty_spec. Qed.

Lemma time_exec_spec cpu cap o s :
  time_inv cpu cap s → op_local cpu o = true → size (ts_events s.1) < cap →
  wp (time_exec cpu o)
     (λ _ s', time_inv cpu cap s' ∧ size (ts_events s'.1) ≤ S (size (ts_events s.1))) s.
Proof.
  destruct s as [ts hw]. intros [Hok Hhw] Hloc Hsz. unfold time_inv. simpl in *.
  destruct o as [d ev|d token|ev rearm|now [obs ens]]; simpl in *.
  - apply bool_decide_eq_true in Hloc.
    eapply wp_mono; [by apply (ts_schedule_local_spec cpu cap); auto|].
    intros _ s (? & -> & ?). split; [done|]. apply size_insert_le.
  - apply bool_decide_eq_true in Hloc.
    pose proof (size_delete_le (ts_events ts) (quantum_expired cpu (wt_thread token))).
    eapply wp_mono; [apply (ts_publish_sleep_spec cpu cap); [done|done|lia]|].
    intros _ s (? & ? & ->). split; [done|]. etrans; [apply size_insert_le|lia].
  - wp_step. eapply wp_mono; [by apply (ts_cancel_event_spec cpu cap)|].
    intros b s (? & He & _ & Hs). wp_step. rewrite He. split.
    + split; [done|]. destruct Hs as [[_ ?]|[? ?]]; congruence.
    + pose proof (size_delete_le (ts_events ts) ev). lia.
  - wp_step. eapply wp_mono; [by apply (ts_take_expired_spec cpu cap)|].
    intros e [ts1 hw1] (es & Hd & _ & (_ & Hlen & _) & _ & Hev). simpl in *.
    pose proof (size_not_due_le now (ts_events ts)). pose proof (size_obsolete_le obs (ts_events ts1)).
    rewrite <-Hev in *.
    eapply wp_mono; [apply (ts_finish_interrupt_spec cpu cap); [done|done|]|].
    + intros d ev ->. apply bool_decide_eq_true in Hloc. split; [done|lia].
    + intros _ s (? & ? & ->). split; [done|]. etrans; [apply size_ensure_le|lia].
Qed.

Lemma time_run_spec cpu cap ops s :
  time_inv cpu cap s → forallb (op_local cpu) ops = true →
  size (ts_events s.1) + length ops ≤ cap →
  wp (time_run cpu ops) (λ _ s', time_inv cpu cap s') s.
Proof.
  revert s. induction ops as [|o ops IH]; intros s Hs Hloc Hsz; simpl in *; [by wp_step|].
  apply andb_true_iff in Hloc as [Ho Hloc]. wp_step.
  eapply wp_mono; [apply time_exec_spec; [done|done|lia]|].
  intros _ s' [? ?]. apply IH; [done|done|]. lia.
Qed.
End time_histories.

(** C33: no deadline is ever missed by the one-shot timer.  After any history
    of scheduling, sleeping, local and remote cancellation and timer
    interrupts on a CPU (no longer than the reserved capacity), nothing has
    panicked and the timer register of the CPU is armed no later than every
    pending deadline. *)
Theorem timer_never_late (cpu : CpuId) (cap : nat) (ops : list time_op) :
  forallb (op_local cpu) ops = true → length ops ≤ cap →
  wp (time_run (Q := DeadlineQueue) cpu ops)
     (λ _ s, ∀ ev d, ts_events s.1 !! ev = Some d → ∃ a, s.2 = Some a ∧ (a <= d)%Z)
     (time_state_new cap, None).
Proof.
  intros Hloc Hlen.
  eapply wp_mono; [apply (time_run_spec cpu cap); [apply time_inv_new|done|]|].
  - cbn [fst]. by rewrite time_new_events, map_size_empty.
  - intros _ s [Hok ->]. apply (to_armed _ _ _ Hok).
Qed.

Lemma timer_never_late_witness :
  let t := mkThreadId 1 1 in let token := mkWaitToken t 0 1 in
  wp (time_run (Q := DeadlineQueue) 0
        [TSchedule 50 (quantum_expired 0 t); TSleep 40 token; TCancel (wait_deadline token) false;
         TSchedule 90 (quantum_expired 0 t); TInterrupt 60 (mkQuantumUpdate None None)])
     (λ _ s, ∀ ev d, ts_events s.1 !! ev = Some d → ∃ a, s.2 = Some a ∧ (a <= d)%Z)
     (time_state_new 36, None).
Proof. apply timer_never_late; [reflexivity|simpl; lia]. Defined.

(** A timer interrupt takes exactly the events that are due, once each, in
    deadline order (ties in the order of the sort key), into the reserved
    buffer, and leaves exactly the others pending. *)
Theorem timer_interrupt_takes_due_events (cpu : CpuId) (cap : nat) (ops : list time_op) (now : Z) :
  forallb (op_local cpu) ops = true → length ops ≤ cap →
  wp (time_run (Q := DeadlineQueue) cpu ops)
     (λ _ s, wp (ts_take_expired cpu now)
                (λ e s', ∃ es, expired_iter e = Done (de_event <$> es) ∧
                         due_entries (ts_events s.1) now es ∧
                         ts_events s'.1 = not_due now (ts_events s.1)) s)
     (time_state_new cap, None).
Proof.
  intros Hloc Hlen.
  eapply wp_mono; [apply (time_run_spec cpu cap); [apply time_inv_new|done|]|].
  - cbn [fst]. by rewrite time_new_events, map_size_empty.
  - intros _ [ts hw] [Hok _].
    eapply wp_mono; [by apply (ts_take_expired_spec cpu cap)|].
    intros e s' (es & _ & _ & Hb & Hdue & Hnd). exists es. split_and!; [|done|done].
    by eapply buffer_iter.
Qed.

Lemma timer_interrupt_takes_due_events_witness :
  let t := mkThreadId 1 1 in let token := mkWaitToken t 0 1 in
  wp (time_run (Q := DeadlineQueue) 0
        [TSleep 40 token; TSchedule 30 (quantum_expired 0 t)])
     (λ _ s, wp (ts_take_expired 0 35)
                (λ e s', ∃ es, expired_iter e = Done (de_event <$> es) ∧
                         due_entries (ts_events s.1) 35 es ∧
                         ts_events s'.1 = not_due 35 (ts_events s.1)) s)
     (time_state_new 36, None).
Proof. apply timer_interrupt_takes_due_events; [reflexivity|simpl; lia]. Defined.
