(* ===== verification/Sched.v ===== *)
(** * Scheduler state

    The data of [kernel/src/sched/mod.rs] and [kernel/src/sched/transition.rs]:
    threads, the generation-checked slot table, the per-CPU scheduler state
    and the shared scheduler, with their lookups and field updates, and the
    runtime validation of the lifecycle invariants ([validate_invariants]). *)

From S2P Require Import Prelude Types Wait Context Vm.

Inductive ThreadState := Ready | Running | Blocked | Exited.

#[global] Instance ThreadState_eq_dec : EqDecision ThreadState.
Proof. solve_decision. Defined.

(** The uniquely owned user stack: its physical frames and its mapping. *)
Record OwnedUserStack := mkOwnedUserStack {
  us_frames : Z * Z;
  us_base : Z;
  us_size : Z
}.

Record UserThreadResources := mkUserThreadResources {
  ur_address_space : AddressSpaceId;
  ur_stack : OwnedUserStack
}.

Inductive JoinError := InvalidThread | NotJoinable | SelfJoin | JoinInProgress.

Inductive SpawnError :=
| NoThreadSlots | NoStackSlots | SchedulerNotInitialized | InvalidCpuAffinity | CpuOffline | UserThreadMustBeJoinable.

Inductive SchedError := AlreadyBootstrapped | InvalidThreadId | ThreadCapacityTooSmall.

Inductive SwitchOutcome := ContinueCurrent | Switch (from to : ThreadId).

Inductive CommitResult := CommitBlocked (o : SwitchOutcome) | CommitEarly (cause : WaitCause) | CommitStaleResult.

(** A boxed kernel stack is its base address. *)
Abbreviation OwnedKernelStack := Z.
Definition stack_top_of (base : OwnedKernelStack) : Z := (base + THREAD_STACK_SIZE)%Z.

Record Thread := mkThread {
  t_home_cpu : CpuId;
  t_state : ThreadState;
  t_joinable : bool;
  t_exit_code : option Z;
  t_joiner : option WaitToken;
  t_last_join_result : option (Z + JoinError);
  t_reaped_user : option UserThreadResources;
  t_user : option UserThreadResources;
  t_wait : WaitMetadata;
  t_stack : OwnedKernelStack;
  t_context : TrapFrame
}.

Record ThreadSlot := mkThreadSlot {
  sl_generation : Z;
  sl_next_wait_sequence : Z;
  sl_stack : option OwnedKernelStack;
  sl_thread : option Thread
}.

(** [free_slots] is the stack of free indices with its top first. *)
Record ThreadTable := mkThreadTable {
  slots : list ThreadSlot;
  free_slots : list nat
}.

(** A [VecDeque] that never grows: its items and its reserved capacity. *)
Record ReadyQueue := mkReadyQueue {
  rq_items : list ThreadId;
  rq_capacity : nat
}.

Record CpuSchedulerState := mkCpuSchedulerState {
  cs_current : option ThreadId;
  cs_idle : option ThreadId;
  cs_retired : option ThreadId;
  cs_ready_queue : ReadyQueue;
  cs_initialized : bool;
  cs_online : bool
}.

Record Scheduler := mkScheduler {
  lifecycle : ThreadTable;
  cpus : list CpuSchedulerState;
  remote_ready : list ReadyQueue;
  scheduler_ipi_pending : list bool;
  rr_quantum_ms : Z
}.

(** ** Field updates *)

Definition set_t_state (v : ThreadState) (t : Thread) : Thread :=
  mkThread (t_home_cpu t) v (t_joinable t) (t_exit_code t) (t_joiner t) (t_last_join_result t)
    (t_reaped_user t) (t_user t) (t_wait t) (t_stack t) (t_context t).
Definition set_t_exit_code (v : option Z) (t : Thread) : Thread :=
  mkThread (t_home_cpu t) (t_state t) (t_joinable t) v (t_joiner t) (t_last_join_result t)
    (t_reaped_user t) (t_user t) (t_wait t) (t_stack t) (t_context t).
Definition set_t_joiner (v : option WaitToken) (t : Thread) : Thread :=
  mkThread (t_home_cpu t) (t_state t) (t_joinable t) (t_exit_code t) v (t_last_join_result t)
    (t_reaped_user t) (t_user t) (t_wait t) (t_stack t) (t_context t).
Definition set_t_last_join_result (v : option (Z + JoinError)) (t : Thread) : Thread :=
  mkThread (t_home_cpu t) (t_state t) (t_joinable t) (t_exit_code t) (t_joiner t) v
    (t_reaped_user t) (t_user t) (t_wait t) (t_stack t) (t_context t).
Definition set_t_reaped_user (v : option UserThreadResources) (t : Thread) : Thread :=
  mkThread (t_home_cpu t) (t_state t) (t_joinable t) (t_exit_code t) (t_joiner t)
    (t_last_join_result t) v (t_user t) (t_wait t) (t_stack t) (t_context t).
Definition set_t_user (v : option UserThreadResources) (t : Thread) : Thread :=
  mkThread (t_home_cpu t) (t_state t) (t_joinable t) (t_exit_code t) (t_joiner t)
    (t_last_join_result t) (t_reaped_user t) v (t_wait t) (t_stack t) (t_context t).
Definition set_t_wait (v : WaitMetadata) (t : Thread) : Thread :=
  mkThread (t_home_cpu t) (t_state t) (t_joinable t) (t_exit_code t) (t_joiner t)
    (t_last_join_result t) (t_reaped_user t) (t_user t) v (t_stack t) (t_context t).
Definition set_t_context (v : TrapFrame) (t : Thread) : Thread :=
  mkThread (t_home_cpu t) (t_state t) (t_joinable t) (t_exit_code t) (t_joiner t)
    (t_last_join_result t) (t_reaped_user t) (t_user t) (t_wait t) (t_stack t) v.

Definition set_sl_thread (v : option Thread) (s : ThreadSlot) : ThreadSlot :=
  mkThreadSlot (sl_generation s) (sl_next_wait_sequence s) (sl_stack s) v.

Definition set_cs_current (v : option ThreadId) (c : CpuSchedulerState) : CpuSchedulerState :=
  mkCpuSchedulerState v (cs_idle c) (cs_retired c) (cs_ready_queue c) (cs_initialized c) (cs_online c).
Definition set_cs_idle (v : option ThreadId) (c : CpuSchedulerState) : CpuSchedulerState :=
  mkCpuSchedulerState (cs_current c) v (cs_retired c) (cs_ready_queue c) (cs_initialized c) (cs_online c).
Definition set_cs_retired (v : option ThreadId) (c : CpuSchedulerState) : CpuSchedulerState :=
  mkCpuSchedulerState (cs_current c) (cs_idle c) v (cs_ready_queue c) (cs_initialized c) (cs_online c).
Definition set_cs_ready (v : list ThreadId) (c : CpuSchedulerState) : CpuSchedulerState :=
  mkCpuSchedulerState (cs_current c) (cs_idle c) (cs_retired c)
    (mkReadyQueue v (rq_capacity (cs_ready_queue c))) (cs_initialized c) (cs_online c).
Definition set_cs_initialized (v : bool) (c : CpuSchedulerState) : CpuSchedulerState :=
  mkCpuSchedulerState (cs_current c) (cs_idle c) (cs_retired c) (cs_ready_queue c) v (cs_online c).
Definition set_cs_online (v : bool) (c : CpuSchedulerState) : CpuSchedulerState :=
  mkCpuSchedulerState (cs_current c) (cs_idle c) (cs_retired c) (cs_ready_queue c) (cs_initialized c) v.

Definition set_rq_items (v : list ThreadId) (q : ReadyQueue) : ReadyQueue :=
  mkReadyQueue v (rq_capacity q).

Definition set_slots (v : list ThreadSlot) (s : Scheduler) : Scheduler :=
  mkScheduler (mkThreadTable v (free_slots (lifecycle s))) (cpus s) (remote_ready s)
    (scheduler_ipi_pending s) (rr_quantum_ms s).
Definition set_free_slots (v : list nat) (s : Scheduler) : Scheduler :=
  mkScheduler (mkThreadTable (slots (lifecycle s)) v) (cpus s) (remote_ready s)
    (scheduler_ipi_pending s) (rr_quantum_ms s).
Definition set_cpus (v : list CpuSchedulerState) (s : Scheduler) : Scheduler :=
  mkScheduler (lifecycle s) v (remote_ready s) (scheduler_ipi_pending s) (rr_quantum_ms s).
Definition set_remote_ready (v : list ReadyQueue) (s : Scheduler) : Scheduler :=
  mkScheduler (lifecycle s) (cpus s) v (scheduler_ipi_pending s) (rr_quantum_ms s).
Definition set_ipi_pending (v : list bool) (s : Scheduler) : Scheduler :=
  mkScheduler (lifecycle s) (cpus s) (remote_ready s) v (rr_quantum_ms s).

(** ** Lookups *)

Definition table_slots (s : Scheduler) : list ThreadSlot := slots (lifecycle s).

(** [ThreadTable::get]: a live thread by its generation-bearing id. *)
Definition table_get (s : Scheduler) (id : ThreadId) : option Thread :=
  match table_slots s !! tid_index id with
  | None => None
  | Some slot => if decide (sl_generation slot = tid_generation id) then sl_thread slot else None
  end.

Definition thread_matches (s : Scheduler) (id : ThreadId) : bool :=
  match table_get s id with Some _ => true | None => false end.

Definition slot_at (s : Scheduler) (id : nat) : outcome ThreadSlot :=
  expect_o (table_slots s !! id) "index out of bounds".

(** [Scheduler::thread]: the occupant of a slot index. *)
Definition thread_at (s : Scheduler) (id : nat) : outcome Thread :=
  slot ← slot_at s id;
  expect_o (sl_thread slot) "sched: free slot has no thread".

Definition thread_id (s : Scheduler) (id : nat) : outcome ThreadId :=
  slot ← slot_at s id;
  mret (mkThreadId id (sl_generation slot)).

Definition thread_home_cpu (s : Scheduler) (id : nat) : outcome CpuId :=
  t ← thread_at s id; mret (t_home_cpu t).

Definition thread_state (s : Scheduler) (id : nat) : outcome ThreadState :=
  t ← thread_at s id; mret (t_state t).

Definition thread_address_space (s : Scheduler) (id : nat) : outcome (option AddressSpaceId) :=
  t ← thread_at s id; mret (ur_address_space <$> t_user t).

Definition stack_top (s : Scheduler) (id : nat) : outcome Z :=
  slot ← slot_at s id;
  match sl_thread slot, sl_stack slot with
  | Some t, _ => mret (stack_top_of (t_stack t))
  | None, Some base => mret (stack_top_of base)
  | None, None => Panic "sched: slot has no kernel stack"
  end.

Definition cpu_state_for (s : Scheduler) (cpu : CpuId) : outcome CpuSchedulerState :=
  expect_o (cpus s !! cpu) "sched: invalid CPU state lookup".

Definition remote_ready_for (s : Scheduler) (cpu : CpuId) : outcome ReadyQueue :=
  expect_o (remote_ready s !! cpu) "index out of bounds".

Definition ipi_pending_for (s : Scheduler) (cpu : CpuId) : outcome bool :=
  expect_o (scheduler_ipi_pending s !! cpu) "index out of bounds".

(** ** Construction *)

Definition cpu_state_new (thread_capacity : nat) : CpuSchedulerState :=
  mkCpuSchedulerState None None None (mkReadyQueue [] (thread_capacity - 1)) false false.

Definition transition_new (thread_capacity : nat) (quantum_ms : Z) : outcome Scheduler :=
  if decide (KERNEL_THREAD_CAPACITY < thread_capacity)
  then Panic "sched: thread capacity exceeds fixed CPU-ready capacity"
  else mret (mkScheduler (mkThreadTable [] [])
               (replicate KERNEL_CPU_CAPACITY (cpu_state_new thread_capacity))
               (replicate KERNEL_CPU_CAPACITY (mkReadyQueue [] (thread_capacity - 1)))
               (replicate KERNEL_CPU_CAPACITY false)
               (Z.max quantum_ms 1)).

Definition slot_free (stack : OwnedKernelStack) : ThreadSlot := mkThreadSlot 0 0 (Some stack) None.

Definition next_generation (generation : Z) : Z :=
  let next := u32_wrapping_add generation 1 in
  if (next =? 0)%Z then 1%Z else next.

(** ** Runtime validation *)

Definition guard_o (b : bool) (why : string) : outcome unit := if b then mret tt else Panic why.

Fixpoint iter_o {A} (f : A → outcome unit) (l : list A) : outcome unit :=
  match l with
  | [] => mret tt
  | x :: l' => f x;; iter_o f l'
  end.

Definition indexed {A} (l : list A) : list (nat * A) := zip (seq 0 (length l)) l.

Definition queued_index (id : nat) (q : ReadyQueue) : bool :=
  existsb (λ t, bool_decide (tid_index t = id)) (rq_items q).

Definition count_tid (tid : ThreadId) (q : ReadyQueue) : nat :=
  length (filter (λ t, t = tid) (rq_items q)).

Definition validate_cpu (s : Scheduler) (p : nat * CpuSchedulerState) : outcome unit :=
  let '(cpu_index, state) := p in
  guard_o (bool_decide (length (rq_items (cs_ready_queue state)) ≤ rq_capacity (cs_ready_queue state)))
          "sched: ready queue exceeds capacity";;
  remote ← remote_ready_for s cpu_index;
  guard_o (bool_decide (length (rq_items remote) ≤ rq_capacity remote))
          "sched: remote-ready ingress exceeds capacity";;
  pending ← ipi_pending_for s cpu_index;
  guard_o (bool_decide (rq_items remote = []) || pending)
          "sched: remote-ready ingress lacks a scheduler IPI";;
  guard_o (negb (cs_online state) || cs_initialized state)
          "sched: online CPU context is not initialized";;
  match cs_retired state with
  | None => mret tt
  | Some retired =>
      owner ← expect_o (CpuId_from_index cpu_index) "sched: invalid retired CPU index";
      guard_o (thread_matches s retired) "sched: invalid CPU-local retired thread";;
      t ← thread_at s (tid_index retired);
      guard_o (bool_decide (t_home_cpu t = owner) && bool_decide (t_state t = Exited)
               && negb (bool_decide (cs_current state = Some retired)))
              "sched: invalid CPU-local retired thread"
  end.

Definition validate_thread (s : Scheduler) (tid : ThreadId) (slot : ThreadSlot) (t : Thread) : outcome unit :=
  state ← cpu_state_for s (t_home_cpu t);
  remote ← remote_ready_for s (t_home_cpu t);
  let queued := count_tid tid (cs_ready_queue state) + count_tid tid remote in
  guard_o (bool_decide (queued ≤ 1)) "sched: duplicate ready entry";;
  guard_o (bool_decide (sl_stack slot = None)) "sched: occupied thread does not own its kernel stack";;
  guard_o (match t_user t with
           | Some u => bool_decide (owner_cpu (ur_address_space u) = t_home_cpu t)
           | None => true
           end) "sched: user thread address-space/home CPU mismatch";;
  match t_state t with
  | Ready =>
      if decide (cs_idle state = Some tid)
      then guard_o (bool_decide (queued = 0)) "sched: idle queued while ready"
      else guard_o (bool_decide (queued = 1)) "sched: ready slot queue mismatch"
  | Running =>
      guard_o (bool_decide (cs_current state = Some tid) && bool_decide (queued = 0))
              "sched: running slot identity mismatch"
  | Blocked =>
      guard_o (bool_decide (queued = 0) && wait_is_blocked (t_wait t))
              "sched: blocked slot wait/queue/context mismatch"
  | Exited =>
      guard_o (bool_decide (queued = 0) && wait_is_none (t_wait t))
              "sched: exited thread wait/queue/context mismatch"
  end;;
  guard_o (negb (wait_is_prepared (t_wait t)) || bool_decide (t_state t = Running))
          "sched: prepared wait is not current running thread";;
  guard_o (negb (wait_is_completed (t_wait t))
           || bool_decide (t_state t = Ready) || bool_decide (t_state t = Running))
          "sched: completed wait has invalid thread state";;
  guard_o (negb (wait_is_blocked (t_wait t)) || bool_decide (t_state t = Blocked))
          "sched: blocked wait has invalid thread state".

Definition validate_slot (s : Scheduler) (p : nat * ThreadSlot) : outcome unit :=
  let '(index, slot) := p in
  match sl_thread slot with
  | None =>
      guard_o (match sl_stack slot with Some _ => true | None => false end)
              "sched: free slot retains lifecycle metadata";;
      guard_o (negb (existsb (λ c, queued_index index (cs_ready_queue c)) (cpus s)
                     || existsb (queued_index index) (remote_ready s)))
              "sched: free slot remains queued"
  | Some t => validate_thread s (mkThreadId index (sl_generation slot)) slot t
  end.

Definition validate_ready_queue (s : Scheduler) (p : nat * CpuSchedulerState) : outcome unit :=
  let '(cpu_index, state) := p in
  owner ← expect_o (CpuId_from_index cpu_index) "sched: invalid CPU context index";
  iter_o (λ queued,
            guard_o (thread_matches s queued) "sched: stale ready queue entry";;
            t ← thread_at s (tid_index queued);
            guard_o (bool_decide (t_state t = Ready) && bool_decide (t_home_cpu t = owner)
                     && negb (bool_decide (cs_idle state = Some queued)))
                    "sched: stale ready queue entry")
         (rq_items (cs_ready_queue state)).

Definition validate_context (s : Scheduler) (p : nat * CpuSchedulerState) : outcome unit :=
  let '(cpu_index, state) := p in
  cpu ← expect_o (CpuId_from_index cpu_index) "sched: invalid CPU context index";
  guard_o (negb (cs_online state) || cs_initialized state)
          "sched: online CPU context is not initialized";;
  if cs_initialized state then
    current ← expect_o (cs_current state) "sched: initialized CPU has no current thread";
    idle ← expect_o (cs_idle state) "sched: initialized CPU has no idle thread";
    tc ← thread_at s (tid_index current);
    ti ← thread_at s (tid_index idle);
    guard_o (bool_decide (t_home_cpu tc = cpu) && bool_decide (t_home_cpu ti = cpu)
             && bool_decide (t_state tc = Running))
            "sched: initialized CPU has invalid local current/idle state"
  else mret tt.

Definition slot_running (slot : ThreadSlot) : bool :=
  match sl_thread slot with Some t => bool_decide (t_state t = Running) | None => false end.

Definition validate_invariants (s : Scheduler) : outcome unit :=
  iter_o (validate_cpu s) (indexed (cpus s));;
  iter_o (validate_slot s) (indexed (table_slots s));;
  iter_o (validate_ready_queue s) (indexed (cpus s));;
  iter_o (validate_context s) (indexed (cpus s));;
  guard_o (bool_decide (length (filter slot_running (table_slots s))
                        = length (filter cs_initialized (cpus s))))
          "sched: expected one running thread per initialized CPU".
