(* ===== verification/World.v ===== *)
(** * The machine the scheduler runs on

    The state that scheduler operations share: the scheduler, the CPU-local
    preemption, time and address-space records, the live register frame of
    every CPU, its timer register and the scheduler notifications sent.  The
    environment of an operation is the executing CPU, the architecture hooks
    and the build configuration; the counter is read from a clock that may
    give a new value at every read.

    Besides the state this file models the CPU-local access functions of
    [kernel/src/sync/preempt.rs] and [kernel/src/time.rs] that the scheduler
    calls. *)

From S2P Require Import Prelude Types Wait Deadline Preempt Context Vm Time Sched.

(** The time state of a CPU, with the deadline heap as its queue. *)
Abbreviation CpuTime := (TimeState DeadlineQueue).

Record World := mkWorld {
  w_sched : Scheduler;
  w_preempt : list PreemptionState;      (* CPU_PREEMPTION *)
  w_time : list (option CpuTime);        (* CPU_TIME *)
  w_timer : list (option Z);             (* the timer register of each CPU *)
  w_vm : vm_table;                       (* CPU_USER_ADDRESS_SPACES *)
  w_active : list TrapFrame;             (* the live frame of each CPU *)
  w_ipis : list CpuId;                   (* scheduler notifications, latest first *)
  w_reads : nat                          (* counter reads so far *)
}.

Record Env := mkEnv {
  e_cpu : CpuId;                         (* the executing CPU *)
  e_registered : nat;                    (* REGISTERED_COUNT *)
  e_clock : nat → Z;                     (* successive counter values *)
  e_freq : Z;                            (* counter frequency *)
  e_debug : bool;                        (* debug_assertions or test build *)
  e_bootstrap_pc : Z;                    (* address of thread_entry_bootstrap *)
  e_arch_activate : Z → Z;               (* arch_activate_user_address_space *)
  e_arch_clear : Z;                      (* arch_clear_user_address_space *)
  e_arch_send_ipi : CpuId → bool         (* arch_send_scheduler_ipi *)
}.

Definition set_w_sched (v : Scheduler) (w : World) : World :=
  mkWorld v (w_preempt w) (w_time w) (w_timer w) (w_vm w) (w_active w) (w_ipis w) (w_reads w).
Definition set_w_preempt (v : list PreemptionState) (w : World) : World :=
  mkWorld (w_sched w) v (w_time w) (w_timer w) (w_vm w) (w_active w) (w_ipis w) (w_reads w).
Definition set_w_time (v : list (option CpuTime)) (w : World) : World :=
  mkWorld (w_sched w) (w_preempt w) v (w_timer w) (w_vm w) (w_active w) (w_ipis w) (w_reads w).
Definition set_w_timer (v : list (option Z)) (w : World) : World :=
  mkWorld (w_sched w) (w_preempt w) (w_time w) v (w_vm w) (w_active w) (w_ipis w) (w_reads w).
Definition set_w_vm (v : vm_table) (w : World) : World :=
  mkWorld (w_sched w) (w_preempt w) (w_time w) (w_timer w) v (w_active w) (w_ipis w) (w_reads w).
Definition set_w_active (v : list TrapFrame) (w : World) : World :=
  mkWorld (w_sched w) (w_preempt w) (w_time w) (w_timer w) (w_vm w) v (w_ipis w) (w_reads w).
Definition set_w_ipis (v : list CpuId) (w : World) : World :=
  mkWorld (w_sched w) (w_preempt w) (w_time w) (w_timer w) (w_vm w) (w_active w) v (w_reads w).
Definition set_w_reads (v : nat) (w : World) : World :=
  mkWorld (w_sched w) (w_preempt w) (w_time w) (w_timer w) (w_vm w) (w_active w) (w_ipis w) v.

Abbreviation W := (M World).

(** ** Scheduler access *)

Definition with_sched {A} (f : Scheduler → outcome A) : W A := reads (λ w, f (w_sched w)).
Definition sched_modify (f : Scheduler → Scheduler) : W unit :=
  modify (λ w, set_w_sched (f (w_sched w)) w).

(** [self.thread_mut(id).field = ..]: panics like [thread_at]. *)
Definition alter_thread (f : Thread → Thread) (id : nat) (s : Scheduler) : Scheduler :=
  set_slots (alter (λ slot, set_sl_thread (f <$> sl_thread slot) slot) id (table_slots s)) s.

Definition thread_mut (id : nat) (f : Thread → Thread) : W unit :=
  with_sched (λ s, thread_at s id);; sched_modify (alter_thread f id).

Definition alter_cpu (f : CpuSchedulerState → CpuSchedulerState) (cpu : CpuId) (s : Scheduler) : Scheduler :=
  set_cpus (alter f cpu (cpus s)) s.

Definition state_mut (cpu : CpuId) (f : CpuSchedulerState → CpuSchedulerState) : W unit :=
  with_sched (λ s, cpu_state_for s cpu);; sched_modify (alter_cpu f cpu).

Section hooks.
Context (E : Env).

(** ** The counter *)

Definition now_counter : W Z :=
  n ← gets w_reads;
  modify (λ w, set_w_reads (S n) w);;
  mret (e_clock E n).

(** ** CPU-local preemption state *)

Definition with_state {A} (cpu : CpuId) (f : PreemptionState → outcome (A * PreemptionState)) : W A :=
  assert_that (bool_decide (e_cpu E = cpu)) "preempt: remote CPU-local state access";;
  p ← reads (λ w, expect_o (w_preempt w !! cpu) "index out of bounds");
  '(a, p') ← reads (λ _, f p);
  modify (λ w, set_w_preempt (<[cpu := p']> (w_preempt w)) w);;
  mret a.

Definition preemption_is_disabled : W bool :=
  with_state (e_cpu E) (λ p, mret (preempt_is_disabled p, p)).

Definition request_reschedule : W unit :=
  with_state (e_cpu E) (λ p, mret (tt, preempt_request p)).

Definition request_reschedule_on (cpu : CpuId) : W unit :=
  if decide (e_cpu E = cpu) then with_state cpu (λ p, mret (tt, preempt_request p)) else mret tt.

Definition consume_checkpoint_on (cpu : CpuId) (online : bool) : W bool :=
  assert_that (bool_decide (e_cpu E = cpu)) "preempt: remote checkpoint consumption";;
  with_state cpu (λ p, mret (preempt_consume_checkpoint p online)).

Definition assert_preemption_enabled_on (cpu : CpuId) (operation : string) : W unit :=
  with_state cpu (λ p, preempt_assert_enabled p operation;; mret (tt, p)).

(** [PreemptGuard::enter]. *)
Definition preempt_guard_enter : W unit :=
  with_state (e_cpu E) (λ p, p' ← preempt_enter p; mret (tt, p')).

(** ** CPU-owned time queues

    [with_time_mut] runs on the owner's time state; programming the timer
    inside it reaches the executing CPU's register. *)

Definition with_time_mut {A} (cpu : CpuId) (f : TM DeadlineQueue A) : W A :=
  slot ← reads (λ w, expect_o (w_time w !! cpu) "time: invalid CPU queue");
  ts ← expect slot "time: CPU is not initialized";
  hw ← reads (λ w, expect_o (w_timer w !! e_cpu E) "time: no timer of the executing CPU");
  '(a, (ts', hw')) ← reads (λ _, f (ts, hw));
  modify (λ w, set_w_timer (<[e_cpu E := hw']> (w_timer w))
                 (set_w_time (<[cpu := Some ts']> (w_time w)) w));;
  mret a.

Definition schedule_event (deadline : Z) (event : TimedEvent) : W unit :=
  assert_that (bool_decide (event_cpu event = e_cpu E)) "time: remote schedule";;
  with_time_mut (e_cpu E) (ts_schedule_local deadline event).

Definition publish_sleep (deadline : Z) (token : WaitToken) : W unit :=
  assert_that (bool_decide (wt_cpu token = e_cpu E)) "time: remote sleep publication";;
  with_time_mut (wt_cpu token) (ts_publish_sleep deadline token).

Definition cancel_event (event : TimedEvent) : W unit :=
  with_time_mut (event_cpu event) (ts_cancel_event event (bool_decide (e_cpu E = event_cpu event)));;
  mret tt.

Definition event_pending (event : TimedEvent) : W bool :=
  with_time_mut (event_cpu event) (ts_event_pending event).

(** ** User address spaces *)

Definition vm_op (f : vm_table → outcome ((unit + VmError) * vm_table)) : W (unit + VmError) :=
  '(r, t) ← reads (λ w, f (w_vm w));
  modify (set_w_vm t);;
  mret r.

(** ** Scheduler notifications *)

Definition notify_scheduler (cpu : CpuId) : W unit :=
  assert_that (e_arch_send_ipi E cpu) "cpu: failed to send scheduler IPI";;
  modify (λ w, set_w_ipis (cpu :: w_ipis w) w).

(** ** The live context of the executing CPU *)

Definition active_context : W TrapFrame :=
  reads (λ w, expect_o (w_active w !! e_cpu E) "no live frame").

Definition set_active_context (f : TrapFrame) : W unit :=
  modify (λ w, set_w_active (<[e_cpu E := f]> (w_active w)) w).

End hooks.
