(* ===== verification/Transition.v ===== *)
(** * Scheduler lifecycle transitions

    Models [kernel/src/sched/transition.rs] and the quantum bookkeeping of
    [kernel/src/sched/preempt.rs] that its notifications call.  Every
    operation runs on the executing CPU's own scheduler view ([self.cpu()] is
    [e_cpu E]); the asserts and panics of the code are kept in their order. *)

From S2P Require Import Prelude Types Wait TimeConv Preempt Context Vm Time Sched World.

Section transition.
Context (E : Env).

Definition local_state : W CpuSchedulerState := with_sched (λ s, cpu_state_for s (e_cpu E)).

Definition validate_after_transition : W unit :=
  if e_debug E then with_sched validate_invariants else mret tt.

(** ** Round-robin quantum *)

Definition current_thread : W (option ThreadId) := st ← local_state; mret (cs_current st).

Definition transition_has_ready : W bool :=
  st ← local_state; mret (negb (bool_decide (rq_items (cs_ready_queue st) = []))).

Definition quantum_deadline (now quantum_ms : Z) : Z :=
  u64_wrapping_add now (ms_to_counts (e_freq E) quantum_ms).

Definition ensure_quantum_event : W unit :=
  running ← current_thread;
  match running with
  | None => mret tt
  | Some current =>
      let event := quantum_expired (e_cpu E) current in
      peer ← transition_has_ready;
      if negb peer then mret tt
      else
        pending ← event_pending E event;
        if pending : bool then mret tt
        else
          now ← now_counter E;
          rr ← gets (λ w, rr_quantum_ms (w_sched w));
          schedule_event E (quantum_deadline now rr) event
  end.

Definition note_runnable_peer_available : W unit :=
  running ← current_thread;
  peer ← transition_has_ready;
  match running with
  | Some _ => if peer : bool then request_reschedule_on E (e_cpu E);; ensure_quantum_event else mret tt
  | None => mret tt
  end.

(** ** Ready queue *)

Definition ready_push_back (id : ThreadId) : W unit :=
  st ← local_state;
  assert_that (negb (bool_decide (cs_idle st = Some id))) "sched: idle must not enter ready queue";;
  home ← with_sched (λ s, thread_home_cpu s (tid_index id));
  assert_that (bool_decide (home = e_cpu E)) "sched: thread queued on non-home CPU";;
  assert_that (negb (queued_index (tid_index id) (cs_ready_queue st)))
              "sched: duplicate or stale ready queue entry";;
  assert_that (negb (bool_decide (length (rq_items (cs_ready_queue st)) = rq_capacity (cs_ready_queue st))))
              "sched: ready queue capacity exhausted";;
  state_mut (e_cpu E) (λ c, set_cs_ready (rq_items (cs_ready_queue c) ++ [id]) c).

Definition ready_pop_front : W (option ThreadId) :=
  st ← local_state;
  match rq_items (cs_ready_queue st) with
  | [] => mret None
  | id :: rest =>
      state_mut (e_cpu E) (set_cs_ready rest);;
      matches ← gets (λ w, thread_matches (w_sched w) id);
      assert_that matches "sched: stale or invalid ready queue entry";;
      t ← with_sched (λ s, thread_at s (tid_index id));
      assert_that (bool_decide (t_state t = Ready)) "sched: stale or invalid ready queue entry";;
      assert_that (negb (bool_decide (cs_idle st = Some id))) "sched: stale or invalid ready queue entry";;
      assert_that (bool_decide (t_home_cpu t = e_cpu E)) "sched: stale or invalid ready queue entry";;
      mret (Some id)
  end.

Definition idle_thread : W ThreadId :=
  st ← local_state; expect (cs_idle st) "sched: CPU has no idle thread".

Definition pop_or_idle : W ThreadId :=
  next ← ready_pop_front;
  match next with Some id => mret id | None => idle_thread end.

Definition make_ready_and_queue (id : ThreadId) (notify_new_peer : bool) : W unit :=
  matches ← gets (λ w, thread_matches (w_sched w) id);
  assert_that matches "sched: ready transition requires a current-generation thread";;
  thread_mut (tid_index id) (set_t_state Ready);;
  st ← local_state;
  if decide (cs_idle st = Some id) then mret tt
  else
    let was_empty := bool_decide (rq_items (cs_ready_queue st) = []) in
    ready_push_back id;;
    if notify_new_peer && was_empty then note_runnable_peer_available else mret tt.

Definition make_running (id : ThreadId) : W unit :=
  matches ← gets (λ w, thread_matches (w_sched w) id);
  assert_that matches "sched: running transition requires a ready current-generation thread";;
  t ← with_sched (λ s, thread_at s (tid_index id));
  assert_that (bool_decide (t_state t = Ready))
              "sched: running transition requires a ready current-generation thread";;
  assert_that (bool_decide (t_home_cpu t = e_cpu E))
              "sched: running transition targets thread on a non-home CPU";;
  thread_mut (tid_index id) (set_t_state Running);;
  state_mut (e_cpu E) (set_cs_current (Some id)).

Definition assert_current_running (id : ThreadId) (operation : string) : W unit :=
  home ← with_sched (λ s, thread_home_cpu s (tid_index id));
  st ← with_sched (λ s, cpu_state_for s home);
  assert_that (bool_decide (cs_current st = Some id))
              ("sched: " +:+ operation +:+ " requires the current running thread");;
  matches ← gets (λ w, thread_matches (w_sched w) id);
  assert_that matches ("sched: " +:+ operation +:+ " requires the current running thread");;
  state ← with_sched (λ s, thread_state s (tid_index id));
  assert_that (bool_decide (state = Running))
              ("sched: " +:+ operation +:+ " requires the current running thread").

(** ** Cross-CPU ingress *)

Definition request_scheduler_ipi (cpu : CpuId) : W unit :=
  pending ← with_sched (λ s, expect_o (scheduler_ipi_pending s !! cpu) "sched: invalid scheduler IPI CPU");
  if pending : bool then mret tt
  else
    sched_modify (λ s, set_ipi_pending (<[cpu := true]> (scheduler_ipi_pending s)) s);;
    notify_scheduler E cpu.

Definition publish_remote_ready (id : ThreadId) (cpu : CpuId) : W unit :=
  queue ← with_sched (λ s, expect_o (remote_ready s !! cpu) "sched: invalid remote-ready CPU");
  assert_that (negb (bool_decide (id ∈ rq_items queue))) "sched: duplicate remote-ready publication";;
  assert_that (negb (bool_decide (length (rq_items queue) = rq_capacity queue)))
              "sched: remote-ready ingress capacity exhausted";;
  sched_modify (λ s, set_remote_ready
    (alter (λ q, set_rq_items (rq_items q ++ [id]) q) cpu (remote_ready s)) s);;
  request_scheduler_ipi cpu.

Fixpoint drain_remote_ready (fuel : nat) : W unit :=
  match fuel with
  | 0 => panic "sched: ingress drain bound"
  | S fuel' =>
      queue ← with_sched (λ s, remote_ready_for s (e_cpu E));
      match rq_items queue with
      | [] => mret tt
      | id :: rest =>
          sched_modify (λ s, set_remote_ready
            (alter (set_rq_items rest) (e_cpu E) (remote_ready s)) s);;
          matches ← gets (λ w, thread_matches (w_sched w) id);
          assert_that matches "sched: stale or invalid remote-ready entry";;
          t ← with_sched (λ s, thread_at s (tid_index id));
          assert_that (bool_decide (t_state t = Ready)) "sched: stale or invalid remote-ready entry";;
          assert_that (bool_decide (t_home_cpu t = e_cpu E)) "sched: stale or invalid remote-ready entry";;
          ready_push_back id;;
          drain_remote_ready fuel'
      end
  end.

(** The ingress holds at most its capacity, which bounds the drain loop. *)
Definition consume_scheduler_ipi : W unit :=
  was_pending ← with_sched (λ s, ipi_pending_for s (e_cpu E));
  sched_modify (λ s, set_ipi_pending (<[e_cpu E := false]> (scheduler_ipi_pending s)) s);;
  queue ← with_sched (λ s, remote_ready_for s (e_cpu E));
  assert_that (was_pending || bool_decide (rq_items queue = []))
              "sched: remote-ready ingress lost its scheduler notification";;
  drain_remote_ready (S (length (rq_items queue))).

(** ** Publication *)

Definition take_free_slot : W (option nat) :=
  free ← gets (λ w, free_slots (lifecycle (w_sched w)));
  match free with
  | [] => mret None
  | id :: rest => sched_modify (set_free_slots rest);; mret (Some id)
  end.

Definition publish (home_cpu : CpuId) (id : nat) (context : TrapFrame)
    (user : option UserThreadResources) (joinable : bool) (generation : Z) (bootstrap idle : bool)
    (on_pre_ready : ThreadId → CpuId → option AddressSpaceId → W unit) : W unit :=
  assert_that (negb (idle && negb (bool_decide (home_cpu = e_cpu E)))) "sched: remote idle publication";;
  slot ← with_sched (λ s, slot_at s id);
  assert_that (match sl_thread slot with None => true | Some _ => false end)
              "sched: publish into occupied slot";;
  stack ← expect (sl_stack slot) "sched: free slot has no kernel stack";
  sched_modify (λ s, set_slots
    (<[id := mkThreadSlot generation (sl_next_wait_sequence slot) None
               (Some (mkThread home_cpu Ready joinable None None None None user
                        (with_next_sequence (sl_next_wait_sequence slot)) stack context))]>
     (table_slots s)) s);;
  tid ← with_sched (λ s, thread_id s id);
  aspace ← with_sched (λ s, thread_address_space s id);
  assert_that (match aspace with
               | Some a => bool_decide (owner_cpu a = home_cpu)
               | None => true
               end) "sched: user address-space owner CPU differs from thread home CPU";;
  on_pre_ready tid home_cpu aspace;;
  (if idle then
     st ← local_state;
     state_mut (e_cpu E) (set_cs_idle (Some tid));;
     assert_that (match cs_idle st with None => true | Some _ => false end)
                 "sched: CPU already has an idle thread"
   else if decide (home_cpu = e_cpu E) then
     st ← local_state;
     let was_empty := bool_decide (rq_items (cs_ready_queue st) = []) in
     ready_push_back tid;;
     if negb bootstrap && was_empty then note_runnable_peer_available else mret tt
   else publish_remote_ready tid home_cpu);;
  validate_after_transition.

Definition no_pre_ready (_ : ThreadId) (_ : CpuId) (_ : option AddressSpaceId) : W unit := mret tt.

Definition transition_publish_bootstrap (id : nat) (entry arg : Z) (idle : bool) : W unit :=
  slot ← with_sched (λ s, slot_at s id);
  stack ← expect (sl_stack slot) "sched: bootstrap slot has no stack";
  publish (e_cpu E) id (kernel_entry (stack_top_of stack) entry arg (e_bootstrap_pc E))
          None false INITIAL_THREAD_GENERATION true idle no_pre_ready.

Definition transition_publish_runtime (home_cpu : CpuId) (id : nat) (context : TrapFrame)
    (user : option UserThreadResources) (joinable : bool) : W ThreadId :=
  slot ← with_sched (λ s, slot_at s id);
  publish home_cpu id context user joinable (next_generation (sl_generation slot)) false false no_pre_ready;;
  with_sched (λ s, thread_id s id).

Definition transition_publish_runtime_with_pre_ready (home_cpu : CpuId) (id : nat) (context : TrapFrame)
    (user : option UserThreadResources) (joinable : bool)
    (on_pre_ready : ThreadId → CpuId → AddressSpaceId → W unit) : W ThreadId :=
  slot ← with_sched (λ s, slot_at s id);
  publish home_cpu id context user joinable (next_generation (sl_generation slot)) false false
    (λ thread home aspace,
       a ← expect aspace "sched: pre-ready publication callback requires a user thread";
       on_pre_ready thread home a);;
  with_sched (λ s, thread_id s id).

Definition transition_append_bootstrap (stack : OwnedKernelStack) (entry arg : Z) (idle : bool) : W nat :=
  id ← gets (λ w, length (table_slots (w_sched w)));
  sched_modify (λ s, set_slots (table_slots s ++ [slot_free stack]) s);;
  transition_publish_bootstrap id entry arg idle;;
  mret id.

(** The boxed stacks of the new slots are given by the allocator. *)
Fixpoint transition_fill_free_slots (stacks : list OwnedKernelStack) (s : Scheduler) : Scheduler :=
  match stacks with
  | [] => s
  | stack :: stacks' =>
      let id := length (table_slots s) in
      transition_fill_free_slots stacks'
        (set_free_slots (id :: free_slots (lifecycle s))
           (set_slots (table_slots s ++ [slot_free stack]) s))
  end.

Definition transition_initial_dispatch : W (unit + SchedError) :=
  st ← local_state;
  match cs_current st with
  | Some _ => mret (inr InvalidThreadId)
  | None =>
      next ← pop_or_idle;
      make_running next;;
      state_mut (e_cpu E) (set_cs_initialized true);;
      validate_after_transition;;
      mret (inl tt)
  end.

Definition transition_initialize_idle_current (entry arg : Z) : W (unit + SchedError) :=
  st ← local_state;
  if cs_initialized st || bool_decide (is_Some (cs_current st)) || bool_decide (is_Some (cs_idle st))
  then mret (inr InvalidThreadId)
  else
    slot ← take_free_slot;
    match slot with
    | None => mret (inr ThreadCapacityTooSmall)
    | Some id => transition_publish_bootstrap id entry arg true;; transition_initial_dispatch
    end.

(** ** Selection *)

Definition transition_optional_switch : W SwitchOutcome :=
  st ← local_state;
  match cs_current st with
  | None => mret ContinueCurrent
  | Some from =>
      assert_current_running from "optional switch";;
      next ← ready_pop_front;
      match next with
      | None => validate_after_transition;; mret ContinueCurrent
      | Some to =>
          make_ready_and_queue from false;;
          make_running to;;
          validate_after_transition;;
          mret (Switch from to)
      end
  end.

(** ** Waits *)

(** Apply a wait operation to the metadata of the thread in a slot. *)
Definition on_wait {A} (id : nat) (f : WaitMetadata → outcome (A * WaitMetadata)) : W A :=
  t ← with_sched (λ s, thread_at s id);
  '(a, wm) ← reads (λ _, f (t_wait t));
  sched_modify (alter_thread (set_t_wait wm) id);;
  mret a.

Definition transition_timed_wake_from_idle (token : WaitToken) : W (option SwitchOutcome) :=
  st ← local_state;
  match cs_current st with
  | None => mret None
  | Some from =>
      remote ← with_sched (λ s, remote_ready_for s (e_cpu E));
      matches ← gets (λ w, thread_matches (w_sched w) (wt_thread token));
      if negb (bool_decide (cs_idle st = Some from))
         || negb (bool_decide (rq_items (cs_ready_queue st) = []))
         || negb (bool_decide (rq_items remote = []))
         || negb (bool_decide (wt_cpu token = e_cpu E))
         || negb matches
      then mret None
      else
        t ← with_sched (λ s, thread_at s (tid_index (wt_thread token)));
        if negb (bool_decide (t_home_cpu t = e_cpu E)) || negb (bool_decide (t_state t = Blocked))
        then mret None
        else
          assert_current_running from "idle timed wake";;
          let to := wt_thread token in
          r ← on_wait (tid_index to) (λ wm, mret (complete wm token Timeout));
          if negb (bool_decide (r = WokeBlocked)) then mret None
          else
            thread_mut (tid_index to) (set_t_state Ready);;
            make_ready_and_queue from false;;
            make_running to;;
            validate_after_transition;;
            mret (Some (Switch from to))
  end.

Definition transition_commit_wait (prepared : PreparedWait) : W (CommitState * option SwitchOutcome) :=
  assert_preemption_enabled_on E (e_cpu E) "scheduler blocking transition";;
  st ← local_state;
  from ← expect (cs_current st) "block requested without a running thread";
  assert_current_running from "blocking transition";;
  idle ← idle_thread;
  assert_that (negb (bool_decide (from = idle))) "sched: idle thread cannot block";;
  r ← on_wait (tid_index from) (λ wm, mret (commit wm prepared));
  match r with
  | Block _ =>
      to ← pop_or_idle;
      thread_mut (tid_index from) (set_t_state Blocked);;
      make_running to;;
      validate_after_transition;;
      mret (r, Some (Switch from to))
  | _ => validate_after_transition;; mret (r, None)
  end.

Definition transition_prepare_wait : W PreparedWait :=
  assert_preemption_enabled_on E (e_cpu E) "scheduler wait preparation";;
  st ← local_state;
  current ← expect (cs_current st) "sched: wait preparation without a running thread";
  assert_current_running current "wait preparation";;
  prepared ← on_wait (tid_index current) (λ wm, prepare wm current (e_cpu E));
  validate_after_transition;;
  mret prepared.

Definition transition_prepare_automatic_wait : W PreparedWait :=
  assert_preemption_enabled_on E (e_cpu E) "scheduler automatic wait preparation";;
  st ← local_state;
  current ← expect (cs_current st) "sched: automatic wait preparation without a running thread";
  assert_current_running current "automatic wait preparation";;
  prepared ← on_wait (tid_index current) (λ wm, prepare_automatic wm current (e_cpu E));
  validate_after_transition;;
  mret prepared.

Definition complete_wait_transition (token : WaitToken) (cause : WaitCause) (notify_ready : bool)
    : W CompletionResult :=
  matches ← gets (λ w, thread_matches (w_sched w) (wt_thread token));
  if negb matches then mret CompletionStale
  else
    let id := tid_index (wt_thread token) in
    result ← on_wait id (λ wm, mret (complete wm token cause));
    match result with
    | WokeBlocked =>
        state ← with_sched (λ s, thread_state s id);
        assert_that (bool_decide (state = Blocked))
                    "sched: blocked wait completion has non-blocked thread state";;
        cpu ← with_sched (λ s, thread_home_cpu s id);
        if decide (cpu = e_cpu E) then
          make_ready_and_queue (wt_thread token) notify_ready;;
          if notify_ready then mret tt else request_reschedule_on E cpu
        else
          thread_mut id (set_t_state Ready);;
          publish_remote_ready (wt_thread token) cpu
    | CompletedPrepared =>
        state ← with_sched (λ s, thread_state s id);
        assert_that (bool_decide (state = Running))
                    "sched: prepared wait completion has non-running thread state"
    | _ => mret tt
    end;;
    validate_after_transition;;
    mret result.

Definition transition_complete_wait (token : WaitToken) (cause : WaitCause) : W CompletionResult :=
  complete_wait_transition token cause true.
Definition transition_complete_wait_for_timer (token : WaitToken) : W CompletionResult :=
  complete_wait_transition token Timeout false.

(** [finish] and [cancel] run only for a thread that is current on its home. *)
Definition transition_finish_wait (token : WaitToken) : W (WaitCause + FinishError) :=
  matches ← gets (λ w, thread_matches (w_sched w) (wt_thread token));
  if negb matches then mret (inr FinishStale)
  else
    home ← with_sched (λ s, thread_home_cpu s (tid_index (wt_thread token)));
    st ← with_sched (λ s, cpu_state_for s home);
    if negb (bool_decide (cs_current st = Some (wt_thread token))) then mret (inr FinishStale)
    else
      assert_current_running (wt_thread token) "wait finish";;
      result ← on_wait (tid_index (wt_thread token)) (λ wm, mret (finish wm token));
      validate_after_transition;;
      mret result.

Definition transition_cancel_wait (prepared : PreparedWait) : W CancelResult :=
  let token := pw_token prepared in
  matches ← gets (λ w, thread_matches (w_sched w) (wt_thread token));
  if negb matches then mret CancelStale
  else
    home ← with_sched (λ s, thread_home_cpu s (tid_index (wt_thread token)));
    st ← with_sched (λ s, cpu_state_for s home);
    if negb (bool_decide (cs_current st = Some (wt_thread token))) then mret CancelStale
    else
      assert_current_running (wt_thread token) "wait cancellation";;
      result ← on_wait (tid_index (wt_thread token)) (λ wm, mret (cancel wm prepared));
      validate_after_transition;;
      mret result.

(** ** Exit, retirement and reclamation *)

(** [ThreadTable::release]: a stale id releases nothing. *)
Definition table_release (id : ThreadId) : W (option UserThreadResources) :=
  slot ← gets (λ w, table_slots (w_sched w) !! tid_index id);
  match slot with
  | None => mret None
  | Some slot =>
      if negb (bool_decide (sl_generation slot = tid_generation id)) then mret None
      else match sl_thread slot with
           | None => mret None
           | Some t =>
               assert_that (wait_is_none (t_wait t)) "sched: release with active wait metadata";;
               sched_modify (λ s,
                 set_free_slots (tid_index id :: free_slots (lifecycle s))
                   (set_slots (<[tid_index id :=
                       mkThreadSlot (sl_generation slot) (next_sequence (t_wait t))
                                    (Some (t_stack t)) None]> (table_slots s)) s));;
               mret (t_user t)
           end
  end.

Definition set_reaped_user (id : ThreadId) (user : option UserThreadResources) : W unit :=
  joiner ← gets (λ w, table_get (w_sched w) id);
  t ← expect joiner "sched: stale joiner while reaping";
  assert_that (match t_reaped_user t with None => true | Some _ => false end)
              "sched: joiner retains unreaped user resources";;
  sched_modify (alter_thread (set_t_reaped_user user) (tid_index id)).

Definition complete_joiner (joiner : WaitToken) (code : Z) (notify_ready : bool) : W unit :=
  r ← complete_wait_transition joiner Notified notify_ready;
  assert_that (bool_decide (r = WokeBlocked)) "thread: joiner has invalid state while target exited";;
  thread_mut (tid_index (wt_thread joiner)) (set_t_last_join_result (Some (inl code))).

Definition finalize_retired (notify_ready : bool) : W unit :=
  st ← local_state;
  match cs_retired st with
  | None => mret tt
  | Some exited =>
      state_mut (e_cpu E) (set_cs_retired None);;
      assert_that (negb (bool_decide (cs_current st = Some exited))) "thread: invalid CPU-local retired thread";;
      matches ← gets (λ w, thread_matches (w_sched w) exited);
      assert_that matches "thread: invalid CPU-local retired thread";;
      t ← with_sched (λ s, thread_at s (tid_index exited));
      assert_that (bool_decide (t_state t = Exited)) "thread: invalid CPU-local retired thread";;
      assert_that (bool_decide (t_home_cpu t = e_cpu E)) "thread: invalid CPU-local retired thread";;
      thread_mut (tid_index exited) (set_t_joiner None);;
      match t_joiner t with
      | Some joiner =>
          code ← expect (t_exit_code t) "thread: retired thread without exit code";
          complete_joiner joiner code notify_ready;;
          resources ← table_release exited;
          set_reaped_user (wt_thread joiner) resources
      | None =>
          if t_joinable t then mret tt
          else
            resources ← table_release exited;
            assert_that (match resources with None => true | Some _ => false end)
                        "thread: detached retired thread retained user resources"
      end;;
      validate_after_transition
  end.

Definition transition_finalize_retired : W unit := finalize_retired true.
Definition transition_finalize_retired_for_timer : W unit := finalize_retired false.

Definition transition_exit_current (code : Z) : W SwitchOutcome :=
  st ← local_state;
  from ← expect (cs_current st) "thread: exit without running thread";
  assert_current_running from "exit transition";;
  idle ← idle_thread;
  assert_that (negb (bool_decide (from = idle))) "thread: idle thread cannot exit";;
  assert_that (match cs_retired st with None => true | Some _ => false end)
              "thread: CPU-local retired slot was not finalized";;
  thread_mut (tid_index from) (set_t_exit_code (Some code));;
  thread_mut (tid_index from) (set_t_state Exited);;
  state_mut (e_cpu E) (set_cs_retired (Some from));;
  to ← pop_or_idle;
  make_running to;;
  request_scheduler_ipi (e_cpu E);;
  validate_after_transition;;
  mret (Switch from to).

Definition thread_is_retiring (s : Scheduler) (id : ThreadId) : outcome bool :=
  if thread_matches s id then
    home ← thread_home_cpu s (tid_index id);
    st ← cpu_state_for s home;
    mret (bool_decide (cs_retired st = Some id))
  else mret false.

Definition transition_reap_exited (id : ThreadId) : W (option UserThreadResources) :=
  n ← gets (λ w, length (table_slots (w_sched w)));
  assert_that (bool_decide (tid_index id < n)) "thread: reclaim requires a non-current exited thread";;
  matches ← gets (λ w, thread_matches (w_sched w) id);
  assert_that matches "thread: reclaim requires a non-current exited thread";;
  home ← with_sched (λ s, thread_home_cpu s (tid_index id));
  st ← with_sched (λ s, cpu_state_for s home);
  assert_that (negb (bool_decide (cs_idle st = Some id))) "thread: reclaim requires a non-current exited thread";;
  assert_that (negb (bool_decide (cs_current st = Some id))) "thread: reclaim requires a non-current exited thread";;
  retiring ← with_sched (λ s, thread_is_retiring s id);
  assert_that (negb retiring) "thread: reclaim requires a non-current exited thread";;
  state ← with_sched (λ s, thread_state s (tid_index id));
  assert_that (bool_decide (state = Exited)) "thread: reclaim requires a non-current exited thread";;
  assert_that (negb (queued_index (tid_index id) (cs_ready_queue st)))
              "thread: reclaim target still queued ready";;
  resources ← table_release id;
  validate_after_transition;;
  mret resources.

End transition.
