(* ===== verification/Handoff.v ===== *)
(** * Scheduler entry points and context handoff

    Models the parts of [kernel/src/sched/preempt.rs], [thread.rs],
    [sleep.rs], [wait.rs] and [call.rs] that combine a lifecycle transition
    with the save and restore of register frames, address-space activation and
    quantum upkeep, the timer interrupt of [kernel/src/time.rs] and the drop
    of a preemption guard.  The live frame that the code borrows as
    [ActiveContext] is the executing CPU's entry of [w_active]. *)

From S2P Require Import Prelude Types Wait TimeConv Preempt Context Vm Time Sched World Transition.

Inductive ThreadAffinity := AffinityCurrent | AffinityCpu (cpu : CpuId).
Record ThreadAttrs := mkThreadAttrs { at_joinable : bool; at_affinity : ThreadAffinity }.

(** The stack-owned output of a blocking scheduler call. *)
Record SchedCallWaitOutput := mkSchedCallWaitOutput {
  so_token : option WaitToken;
  so_early : option WaitCause
}.
Definition output_new : SchedCallWaitOutput := mkSchedCallWaitOutput None None.

Section handoff.
Context (E : Env).

(** ** Contexts and address spaces *)

Definition activate_thread_address_space (id : ThreadId) : W unit :=
  aspace ← with_sched (λ s, thread_address_space s (tid_index id));
  st ← local_state E;
  result ← match aspace with
           | None =>
               if decide (cs_idle st = Some id)
               then vm_op (λ t, retain_user_address_space_for_idle t (Some (e_cpu E)))
               else vm_op (λ t, clear_user_address_space (e_arch_clear E) t (Some (e_cpu E)))
           | Some a => vm_op (λ t, activate_user_address_space (e_arch_activate E) t (Some (e_cpu E)) a)
           end;
  assert_that (match result with inl _ => true | inr _ => false end)
              "sched: failed to activate address space for thread".

Definition save_current_into (id : ThreadId) : W unit :=
  live ← active_context E;
  thread_mut (tid_index id) (set_t_context (save_from live)).

Definition restore_from (id : ThreadId) : W unit :=
  t ← with_sched (λ s, thread_at s (tid_index id));
  set_active_context E (restore_into (t_context t)).

Definition handoff_selected (outcome : SwitchOutcome) : W unit :=
  match outcome with
  | ContinueCurrent => mret tt
  | Switch from to =>
      save_current_into from;;
      restore_from to;;
      activate_thread_address_space to
  end.

Definition handoff_optional : W unit :=
  outcome ← transition_optional_switch E;
  handoff_selected outcome.

(** ** Interrupt and checkpoint entry points *)

Definition replace_quantum_event (obsolete_thread : ThreadId) : W unit :=
  cancel_event E (quantum_expired (e_cpu E) obsolete_thread);;
  ensure_quantum_event E.

Definition finish_scheduler_ipi : W unit :=
  transition_finalize_retired E;;
  st ← local_state E;
  if negb (cs_online st) then mret tt
  else
    consume_scheduler_ipi E;;
    note_runnable_peer_available E;;
    st ← local_state E;
    checkpoint ← consume_checkpoint_on E (e_cpu E) (cs_online st);
    if negb checkpoint then mret tt
    else
      current ← current_thread E;
      match current with
      | None => mret tt
      | Some current => handoff_optional;; replace_quantum_event current
      end.

Definition note_quantum_expired (thread : ThreadId) : W unit :=
  current ← current_thread E;
  if decide (current = Some thread) then request_reschedule_on E (e_cpu E) else mret tt.

Definition dispatch_event (event : TimedEvent) : W unit :=
  match event with
  | WaitDeadline cpu token =>
      assert_that (bool_decide (cpu = e_cpu E) && bool_decide (wt_cpu token = e_cpu E))
                  "sched: foreign timed wait in local batch";;
      transition_complete_wait_for_timer E token;;
      mret tt
  | QuantumExpired cpu thread =>
      assert_that (bool_decide (cpu = e_cpu E)) "sched: foreign quantum in local batch";;
      note_quantum_expired thread
  end.

Fixpoint dispatch_events (events : list TimedEvent) : W unit :=
  match events with
  | [] => mret tt
  | event :: events' => dispatch_event event;; dispatch_events events'
  end.

Definition no_quantum_update : QuantumUpdate := mkQuantumUpdate None None.

(** The direct wake of a sole expired wait out of the idle thread. *)
Definition try_direct_wake (single : option TimedEvent) : W bool :=
  match single with
  | Some (WaitDeadline cpu token) =>
      assert_that (bool_decide (cpu = e_cpu E) && bool_decide (wt_cpu token = e_cpu E))
                  "sched: foreign timed wait in local batch";;
      disabled ← preemption_is_disabled E;
      if disabled : bool then mret false
      else
        outcome ← transition_timed_wake_from_idle E token;
        match outcome with
        | None => mret false
        | Some outcome =>
            consume_checkpoint_on E (e_cpu E) true;;
            handoff_selected outcome;;
            mret true
        end
  | _ => mret false
  end.

(** The batched path: every event, then one checkpoint and one quantum. *)
Definition finish_timer_batch (now : Z) (current : ThreadId) (events : list TimedEvent)
    : W QuantumUpdate :=
  dispatch_events events;;
  st ← local_state E;
  peer ← transition_has_ready E;
  (if bool_decide (cs_idle st = Some current) && peer
   then request_reschedule_on E (e_cpu E) else mret tt);;
  st ← local_state E;
  checkpoint ← consume_checkpoint_on E (e_cpu E) (cs_online st);
  (if checkpoint : bool then handoff_optional else mret tt);;
  peer ← transition_has_ready E;
  ensure ← (if peer : bool then
              running ← current_thread E;
              thread ← expect running "sched: lost timer resume target";
              rr ← gets (λ w, rr_quantum_ms (w_sched w));
              mret (Some (quantum_deadline E now rr, quantum_expired (e_cpu E) thread))
            else mret None) : W (option (Z * TimedEvent));
  mret (mkQuantumUpdate (if (checkpoint : bool) then Some (quantum_expired (e_cpu E) current) else None) ensure).

Definition finish_timer_interrupt (now : Z) (expired : ExpiredEvents) : W QuantumUpdate :=
  transition_finalize_retired_for_timer E;;
  st ← local_state E;
  if negb (cs_online st) then mret no_quantum_update
  else
    running ← current_thread E;
    match running with
    | None => mret no_quantum_update
    | Some current =>
        single ← reads (λ _, expired_single expired);
        direct ← try_direct_wake single;
        if direct : bool then mret no_quantum_update
        else
          events ← reads (λ _, expired_iter expired);
          finish_timer_batch now current events
    end.

(** [on_timer_interrupt]: take the expired events, let the scheduler finish
    the interrupt, apply its quantum update and rearm. *)
Definition on_timer_interrupt : W unit :=
  slot ← reads (λ w, expect_o (w_time w !! e_cpu E) "time: invalid CPU queue");
  match slot with
  | None => modify (λ w, set_w_timer (<[e_cpu E := None]> (w_timer w)) w)
  | Some _ =>
      now ← now_counter E;
      expired ← with_time_mut E (e_cpu E) (ts_take_expired (e_cpu E) now);
      quantum ← finish_timer_interrupt now expired;
      with_time_mut E (e_cpu E) (ts_finish_interrupt quantum expired)
  end.

Definition preempt_checkpoint : W unit :=
  transition_finalize_retired E;;
  st ← local_state E;
  checkpoint ← consume_checkpoint_on E (e_cpu E) (cs_online st);
  if negb checkpoint then mret tt
  else
    current ← current_thread E;
    match current with
    | None => mret tt
    | Some current => handoff_optional;; replace_quantum_event current
    end.

Definition yield_now : W unit := request_reschedule E;; preempt_checkpoint.

(** Dropping a [PreemptGuard]: [irq_allows] is the architecture's answer for
    the saved interrupt state. *)
Definition preempt_guard_drop (irq_allows : bool) : W unit :=
  pending ← with_state E (e_cpu E) preempt_leave;
  online ← gets (λ w, match cpus (w_sched w) !! e_cpu E with Some st => cs_online st | None => false end);
  if pending && online && irq_allows then preempt_checkpoint else mret tt.

Definition prepare_running_thread_entry : W TrapFrame :=
  running ← current_thread E;
  running ← expect running "scheduler has no running thread";
  st ← local_state E;
  assert_that (negb (cs_online st)) "sched: CPU entered twice";;
  ensure_quantum_event E;;
  current ← current_thread E;
  assert_that (bool_decide (current = Some running)) "debug assertion failed";;
  state ← with_sched (λ s, thread_state s (tid_index running));
  assert_that (bool_decide (state = Running)) "debug assertion failed";;
  activate_thread_address_space running;;
  state_mut (e_cpu E) (set_cs_online true);;
  t ← with_sched (λ s, thread_at s (tid_index running));
  mret (t_context t).

(** Entering the selected saved context makes it the live frame. *)
Definition enter_running_thread : W unit :=
  context ← prepare_running_thread_entry;
  set_active_context E context.

(** ** Blocking *)

Definition finish_block_after_quantum_cancel : W unit :=
  st ← local_state E;
  consume_checkpoint_on E (e_cpu E) (cs_online st);;
  ensure_quantum_event E.

Definition finish_block_current (current : ThreadId) : W unit :=
  cancel_event E (quantum_expired (e_cpu E) current);;
  finish_block_after_quantum_cancel.

Definition commit_wait_with (prepared : PreparedWait) (finish : ThreadId → W unit) : W CommitResult :=
  '(state, outcome) ← transition_commit_wait E prepared;
  match state, outcome with
  | Early cause, None => mret (CommitEarly cause)
  | CommitStale, None => mret CommitStaleResult
  | Block _, Some (Switch from to) =>
      save_current_into from;;
      restore_from to;;
      activate_thread_address_space to;;
      finish from;;
      mret (CommitBlocked (Switch from to))
  | _, _ => panic "sched: malformed wait commit transition outcome"
  end.

Definition commit_prepared_wait (prepared : PreparedWait) : W CommitResult :=
  commit_wait_with prepared finish_block_current.
Definition commit_prepared_sleep (prepared : PreparedWait) : W CommitResult :=
  commit_wait_with prepared (λ _, finish_block_after_quantum_cancel).

Definition record_commit (output : SchedCallWaitOutput) (r : CommitResult) (stale : string)
    : W SchedCallWaitOutput :=
  match r with
  | CommitBlocked _ => mret output
  | CommitEarly cause => mret (mkSchedCallWaitOutput (so_token output) (Some cause))
  | CommitStaleResult => panic stale
  end.

(** [take_completion] after the call returned to the thread. *)
Definition take_completion (output : SchedCallWaitOutput) : W (option (WaitToken * WaitCause)) :=
  match so_token output with
  | None => mret None
  | Some token =>
      cause ← match so_early output with
              | Some cause => mret cause
              | None =>
                  r ← transition_finish_wait E token;
                  match r with
                  | inl cause => mret cause
                  | inr _ => panic "sched-call: exact wait finish failed"
                  end
              end;
      mret (Some (token, cause))
  end.

(** ** Sleeping *)

Definition on_sleep_sync (deadline : Z) : W SchedCallWaitOutput :=
  prepared ← transition_prepare_wait E;
  let token := pw_token prepared in
  schedule_event E deadline (wait_deadline token);;
  r ← commit_prepared_wait prepared;
  record_commit (mkSchedCallWaitOutput (Some token) None) r
                "sched: sleep wait became stale before commit".

Definition sleep_user_until_counter (deadline : Z) : W bool :=
  prepared ← transition_prepare_automatic_wait E;
  let token := pw_token prepared in
  publish_sleep E deadline token;;
  r ← commit_prepared_sleep prepared;
  match r with
  | CommitBlocked _ => mret true
  | CommitEarly _ =>
      cancel_event E (wait_deadline token);;
      ensure_quantum_event E;;
      mret false
  | CommitStaleResult =>
      cancel_event E (wait_deadline token);;
      panic "sched: userspace sleep wait became stale before commit"
  end.

(** [sleep_until_counter]: [None] when the deadline has already passed. *)
Definition sleep_until_counter (deadline : Z) : W (option SchedCallWaitOutput) :=
  now ← now_counter E;
  if (deadline <=? now)%Z then mret None
  else output ← on_sleep_sync deadline; mret (Some output).

Definition usleep (us : Z) : W (option SchedCallWaitOutput) :=
  if (us =? 0)%Z then mret None
  else now ← now_counter E; sleep_until_counter (u64_wrapping_add now (us_to_counts (e_freq E) us)).

Definition msleep (ms : Z) : W (option SchedCallWaitOutput) :=
  if (ms =? 0)%Z then mret None
  else now ← now_counter E; sleep_until_counter (u64_wrapping_add now (ms_to_counts (e_freq E) ms)).

(** ** Threads *)

Definition resolve_affinity (affinity : ThreadAffinity) : W (CpuId + SpawnError) :=
  let target := match affinity with AffinityCurrent => e_cpu E | AffinityCpu cpu => cpu end in
  n ← gets (λ w, length (cpus (w_sched w)));
  if bool_decide (n ≤ target) || bool_decide (e_registered E ≤ target)
  then mret (inr InvalidCpuAffinity)
  else
    st ← with_sched (λ s, cpu_state_for s target);
    if cs_online st then mret (inl target) else mret (inr CpuOffline).

Definition spawn_thread (entry arg : Z) (attrs : ThreadAttrs) : W (ThreadId + SpawnError) :=
  transition_finalize_retired E;;
  target ← resolve_affinity (at_affinity attrs);
  match target with
  | inr e => mret (inr e)
  | inl target_cpu =>
      slot ← take_free_slot;
      match slot with
      | None => mret (inr NoThreadSlots)
      | Some id =>
          top ← with_sched (λ s, stack_top s id);
          tid ← transition_publish_runtime E target_cpu id
                  (kernel_entry top entry arg (e_bootstrap_pc E)) None (at_joinable attrs);
          mret (inl tid)
      end
  end.

(** The context of a user thread is built from the top of its kernel stack. *)
Definition spawn_user_with (mk : Z → W TrapFrame) (aspace : AddressSpaceId) (stack : OwnedUserStack)
    (attrs : ThreadAttrs) (on_pre_ready : ThreadId → CpuId → AddressSpaceId → W unit)
    : W (ThreadId + SpawnError * OwnedUserStack) :=
  target ← resolve_affinity (at_affinity attrs);
  match target with
  | inr e => mret (inr (e, stack))
  | inl target_cpu =>
      if negb (at_joinable attrs) then mret (inr (UserThreadMustBeJoinable, stack))
      else
        slot ← take_free_slot;
        match slot with
        | None => mret (inr (NoThreadSlots, stack))
        | Some id =>
            top ← with_sched (λ s, stack_top s id);
            context ← mk top;
            tid ← transition_publish_runtime_with_pre_ready E target_cpu id context
                    (Some (mkUserThreadResources aspace stack)) (at_joinable attrs) on_pre_ready;
            mret (inl tid)
        end
  end.

Definition spawn_user_thread (aspace : AddressSpaceId) (stack : OwnedUserStack)
    (entry user_sp arg0 : Z) (attrs : ThreadAttrs)
    (on_pre_ready : ThreadId → CpuId → AddressSpaceId → W unit) :=
  spawn_user_with (λ top, mret (user_entry entry user_sp top arg0)) aspace stack attrs on_pre_ready.

Definition spawn_user_thread_from_context (aspace : AddressSpaceId) (stack : OwnedUserStack)
    (attrs : ThreadAttrs) (on_pre_ready : ThreadId → CpuId → AddressSpaceId → W unit) :=
  spawn_user_with (λ top, parent ← active_context E; mret (fork_child parent top))
                  aspace stack attrs on_pre_ready.

Definition exit_current (code : Z) : W unit :=
  transition_finalize_retired E;;
  outcome ← transition_exit_current E code;
  match outcome with
  | ContinueCurrent => panic "thread: exit transition continued current thread"
  | Switch exited next =>
      aspace ← with_sched (λ s, thread_address_space s (tid_index exited));
      st ← local_state E;
      (if bool_decide (is_Some aspace) && bool_decide (cs_idle st = Some next) then
         r ← vm_op (λ t, clear_user_address_space (e_arch_clear E) t (Some (e_cpu E)));
         assert_that (match r with inl _ => true | inr _ => false end) "thread: exit TTBR0 detach failed"
       else mret tt);;
      restore_from next;;
      activate_thread_address_space next;;
      finish_block_current exited
  end.

Definition on_thread_exit_sync (code : Z) : W unit :=
  assert_preemption_enabled_on E (e_cpu E) "thread exit state change";;
  exit_current code.

Definition set_join_result (id : ThreadId) (r : Z + JoinError) : W unit :=
  thread_mut (tid_index id) (set_t_last_join_result (Some r)).

Definition join_thread (target : ThreadId) : W SchedCallWaitOutput :=
  transition_finalize_retired E;;
  running ← current_thread E;
  current ← expect running "thread: join without running thread";
  tc ← with_sched (λ s, thread_at s (tid_index current));
  assert_that (match t_last_join_result tc, t_reaped_user tc with None, None => true | _, _ => false end)
              "thread: join entered with an unconsumed prior join handoff";;
  st ← local_state E;
  if decide (cs_idle st = Some current) then set_join_result current (inr NotJoinable);; mret output_new
  else
    matches ← gets (λ w, thread_matches (w_sched w) target);
    if negb matches then set_join_result current (inr InvalidThread);; mret output_new
    else
      tt' ← with_sched (λ s, thread_at s (tid_index target));
      hst ← with_sched (λ s, cpu_state_for s (t_home_cpu tt'));
      if decide (cs_idle hst = Some target) then
        set_join_result current (inr NotJoinable);; mret output_new
      else if decide (tid_index target = tid_index current) then
        set_join_result current (inr SelfJoin);; mret output_new
      else if negb (t_joinable tt') then
        set_join_result current (inr NotJoinable);; mret output_new
      else match t_joiner tt' with
      | Some _ => set_join_result current (inr JoinInProgress);; mret output_new
      | None =>
          retiring ← with_sched (λ s, thread_is_retiring s target);
          if bool_decide (t_state tt' = Exited) && negb retiring then
            code ← expect (t_exit_code tt') "thread: exited thread without exit code";
            reaped ← transition_reap_exited E target;
            set_reaped_user current reaped;;
            set_join_result current (inl code);;
            mret output_new
          else
            assert_preemption_enabled_on E (e_cpu E) "thread joiner publication";;
            prepared ← transition_prepare_wait E;
            let token := pw_token prepared in
            thread_mut (tid_index target) (set_t_joiner (Some token));;
            r ← commit_prepared_wait prepared;
            record_commit (mkSchedCallWaitOutput (Some token) None) r
                          "thread: join wait became stale before commit"
      end.

Definition take_current_join_result : W ((Z + JoinError) * option UserThreadResources) :=
  running ← current_thread E;
  current ← expect running "thread: join result without running thread";
  t ← with_sched (λ s, thread_at s (tid_index current));
  match t_last_join_result t with
  | None => mret (inr InvalidThread, None)
  | Some result =>
      thread_mut (tid_index current) (set_t_last_join_result None);;
      thread_mut (tid_index current) (set_t_reaped_user None);;
      mret (result, t_reaped_user t)
  end.

Definition replace_current_user_resources (aspace : AddressSpaceId) (stack : OwnedUserStack)
    : W (UserThreadResources + OwnedUserStack) :=
  running ← current_thread E;
  match running with
  | None => mret (inr stack)
  | Some current =>
      t ← with_sched (λ s, thread_at s (tid_index current));
      match t_user t with
      | None => mret (inr stack)
      | Some old =>
          if negb (bool_decide (owner_cpu aspace = t_home_cpu t)) then mret (inr stack)
          else
            r ← vm_op (λ v, activate_user_address_space (e_arch_activate E) v (Some (e_cpu E)) aspace);
            match r with
            | inr _ => mret (inr stack)
            | inl _ =>
                thread_mut (tid_index current) (set_t_user (Some (mkUserThreadResources aspace stack)));;
                mret (inl old)
            end
      end
  end.

End handoff.
