(* ===== verification/CpuInv.v ===== *)
(** * Placement of threads on one CPU

    The invariant that ties the scheduling state of one CPU (current, idle,
    retired, ready queue, remote ingress, notification) to the lifecycle
    states of the threads that have this CPU as home, and the moves that the
    scheduler makes on it.  Threads appear here only as a function from
    handles to lifecycle states, so that every move is a short argument about
    one list: [places], everything that can run on the CPU. *)

From AAC_tactics Require Import AAC.
From S2P Require Import Prelude Types Sched.

(** Permutations of concatenations, by rewriting modulo associativity and
    commutativity of [++]. *)
Section permutation_instances.
Context {A : Type}.
#[global] Instance perm_app_assoc : Associative (≡ₚ@{A}) (++).
Proof. intros x y z. by rewrite app_assoc. Qed.
#[global] Instance perm_app_comm : Commutative (≡ₚ@{A}) (++).
Proof. intros x y. apply Permutation_app_comm. Qed.
#[global] Instance perm_app_nil : Unit (≡ₚ@{A}) (++) [].
Proof. split; intros; by rewrite ?app_nil_r. Qed.
#[global] Instance perm_lift : AAC_lift (≡ₚ@{A}) (≡ₚ@{A}).
Proof. constructor; apply _. Qed.
End permutation_instances.

Ltac perm_solve :=
  repeat match goal with
  | |- context [?x :: ?l] =>
      lazymatch l with [] => fail | _ => change (x :: l) with ([x] ++ l) end
  end;
  aac_reflexivity.

Implicit Types (st : CpuSchedulerState) (tid : ThreadId).

Abbreviation queue_of st := (rq_items (cs_ready_queue st)).

(** The idle thread waits outside of the queues while another thread runs. *)
Definition idle_rest st : list ThreadId :=
  if decide (cs_current st = cs_idle st) then [] else option_list (cs_idle st).

(** Everything that can run on the CPU, in one list. *)
Definition places st (rem : list ThreadId) : list ThreadId :=
  option_list (cs_current st) ++ queue_of st ++ rem ++ idle_rest st.

Definition runnable_state (x : option ThreadState) : Prop := x = Some Ready ∨ x = Some Running.

(** [hs] gives the state of every thread that lives on this CPU; [gapped] is
    true between the moment the current thread leaves and the next enters. *)
Record cpu_inv (gapped : bool) st (rem : list ThreadId) (ip : bool)
    (hs : ThreadId → option ThreadState) : Prop := {
  ci_nodup : NoDup (places st rem);
  ci_runnable : ∀ tid, tid ∈ places st rem ↔ runnable_state (hs tid);
  ci_current : ∀ tid, hs tid = Some Running ↔ cs_current st = Some tid;
  ci_idle : ∀ tid, cs_idle st = Some tid → runnable_state (hs tid);
  ci_retired : ∀ tid, cs_retired st = Some tid → hs tid = Some Exited;
  ci_home : ∀ tid, is_Some (hs tid) → is_Some (cs_idle st);
  ci_initialized : cs_initialized st = true ↔ is_Some (cs_current st) ∨ gapped = true;
  ci_online : cs_online st = true → cs_initialized st = true;
  ci_ingress : rem ≠ [] → ip = true;
  ci_retired_ipi : is_Some (cs_retired st) → ip = true
}.

Definition upd (hs : ThreadId → option ThreadState) tid (x : option ThreadState) :=
  λ tid', if decide (tid' = tid) then x else hs tid'.

Lemma cpu_inv_ext gapped st rem ip hs hs' :
  (∀ tid, hs' tid = hs tid) → cpu_inv gapped st rem ip hs → cpu_inv gapped st rem ip hs'.
Proof.
  intros Heq [H1 H2 H3 H4 H5 H6 H7 H8 H9 H10].
  split; try done; intros tid; rewrite ?Heq; [apply H2|apply H3|apply H4|apply H5|apply H6].
Qed.

Lemma cpu_inv_ipi gapped st rem ip hs :
  cpu_inv gapped st rem ip hs → cpu_inv gapped st rem true hs.
Proof. intros []. by split. Qed.

(** The queues hold exactly the ready threads other than idle. *)
Lemma queued_iff gapped st rem ip hs tid :
  cpu_inv gapped st rem ip hs →
  tid ∈ queue_of st ++ rem ↔ hs tid = Some Ready ∧ cs_idle st ≠ Some tid.
Proof.
  intros Hinv. pose proof (ci_nodup _ _ _ _ _ Hinv) as Hnd.
  pose proof (ci_runnable _ _ _ _ _ Hinv tid) as Hrun. pose proof (ci_current _ _ _ _ _ Hinv tid) as Hcur.
  unfold places in *. rewrite (app_assoc (queue_of st)), app_assoc in Hnd.
  rewrite !elem_of_app in Hrun. rewrite elem_of_app.
  apply NoDup_app in Hnd as (Hnd & Hidle & _). apply NoDup_app in Hnd as (_ & Hhd & _).
  specialize (Hidle tid). specialize (Hhd tid). rewrite elem_of_app in Hhd. rewrite elem_of_app, elem_of_app in Hidle.
  assert (tid ∈ option_list (cs_current st) ↔ cs_current st = Some tid) as Hc.
  { destruct (cs_current st); simpl; rewrite ?list_elem_of_singleton, ?elem_of_nil; naive_solver. }
  assert (tid ∈ idle_rest st ↔ cs_idle st = Some tid ∧ cs_current st ≠ Some tid) as Hi.
  { unfold idle_rest. destruct (decide _) as [He|He]; [rewrite elem_of_nil, He; naive_solver|].
    destruct (cs_idle st); simpl; rewrite ?list_elem_of_singleton, ?elem_of_nil; naive_solver. }
  unfold runnable_state in Hrun. split.
  - intros Hin. assert (cs_current st ≠ Some tid) by tauto. split; [|tauto].
    destruct (proj1 Hrun) as [?|?]; tauto.
  - intros [Hr Hne]. destruct (proj2 Hrun (or_introl Hr)) as [?|[?|[?|?]]]; [|by left|by right|tauto].
    assert (hs tid = Some Running) by tauto. congruence.
Qed.

Section moves.
Context {st : CpuSchedulerState} {rem : list ThreadId} {ip : bool}
        {hs : ThreadId → option ThreadState}.

(** ** Leaving the current thread *)

Lemma runnable_upd tid x tid' :
  runnable_state (upd hs tid x tid') ↔
  tid' = tid ∧ runnable_state x ∨ tid' ≠ tid ∧ runnable_state (hs tid').
Proof. unfold upd. destruct (decide (tid' = tid)); naive_solver. Qed.

(** The places of a CPU whose current thread has been taken out. *)
Lemma places_leave from :
  cs_current st = Some from →
  places st rem ≡ₚ from :: (if decide (cs_idle st = Some from) then [] else option_list (cs_idle st))
                          ++ queue_of st ++ rem.
Proof.
  intros Hc. unfold places, idle_rest. rewrite Hc. simpl. apply Permutation_cons; [done|].
  rewrite (app_assoc (queue_of st)), Permutation_app_comm. f_equiv.
  rewrite (decide_ext (Some from = cs_idle st) (cs_idle st = Some from)) by (split; congruence). done.
Qed.

Lemma leave_ready from :
  cpu_inv false st rem ip hs → cs_current st = Some from →
  cpu_inv true (set_cs_current None
                  (if decide (cs_idle st = Some from) then st
                   else set_cs_ready (queue_of st ++ [from]) st))
          rem ip (upd hs from (Some Ready)).
Proof.
  intros Hinv Hc. pose proof (places_leave from Hc) as Hp. set (st' := set_cs_current None _).
  assert (places st' rem ≡ₚ places st rem) as Hpp.
  { rewrite Hp. unfold st', places, idle_rest. destruct (decide _) as [Hi|Hi]; simpl.
    - rewrite Hi. simpl. perm_solve.
    - destruct (cs_idle st) as [i|]; simpl; perm_solve. }
  assert (cs_idle st' = cs_idle st ∧ cs_retired st' = cs_retired st ∧ cs_current st' = None ∧
          cs_initialized st' = cs_initialized st ∧ cs_online st' = cs_online st) as (Hi & Hr & Hn & Hin & Hon).
  { unfold st'. by destruct (decide _). }
  clearbody st'. clear Hp. destruct Hinv as [H1 H2 H3 H4 H5 H6 H7 H8 H9 H10].
  assert (hs from = Some Running) as Hfrom by (by apply H3).
  split; rewrite ?Hi, ?Hr, ?Hn, ?Hin, ?Hon; try done.
  - by rewrite Hpp.
  - intros tid. rewrite Hpp, H2, runnable_upd. unfold runnable_state. destruct (decide (tid = from)); naive_solver.
  - intros tid. unfold upd. case_decide; [by split|]. rewrite H3, Hc. naive_solver.
  - intros tid Hid. apply runnable_upd. destruct (decide (tid = from)); unfold runnable_state; naive_solver.
  - intros tid Hid. unfold upd. case_decide; [|by apply H5]. subst. apply H5 in Hid. congruence.
  - intros tid. unfold upd. case_decide; [|by apply H6]. intros _. apply (H6 from). eauto.
  - rewrite H7, Hc. naive_solver.
Qed.

(** The thread leaves for good or for a wait: it is in no queue any more. *)
Lemma leave_gone from x ret ip' :
  cpu_inv false st rem ip hs → cs_current st = Some from → cs_idle st ≠ Some from →
  x = Blocked ∨ x = Exited →
  (ret = cs_retired st ∨ ret = Some from ∧ x = Exited ∧ ip' = true) → (ip = true → ip' = true) →
  cpu_inv true (set_cs_current None (set_cs_retired ret st)) rem ip' (upd hs from (Some x)).
Proof.
  intros [H1 H2 H3 H4 H5 H6 H7 H8 H9 H10] Hc Hi Hx Hret Hip.
  assert (hs from = Some Running) as Hfrom by (by apply H3).
  set (st' := set_cs_current None (set_cs_retired ret st)).
  assert (places st rem ≡ₚ from :: places st' rem) as Hpp.
  { rewrite (places_leave from Hc), decide_False by done. unfold places, idle_rest. simpl.
    destruct (cs_idle st) as [i|]; simpl; perm_solve. }
  rewrite Hpp in H1. apply NoDup_cons in H1 as [Hnin Hnd].
  assert (∀ tid, tid ∈ from :: places st' rem ↔ runnable_state (hs tid)) as H2'
    by (intros tid; by rewrite <-Hpp).
  split; simpl; try done; try tauto.
  - intros tid. rewrite runnable_upd. specialize (H2' tid). rewrite elem_of_cons in H2'.
    destruct (decide (tid = from)) as [->|]; [|tauto]. split; [done|].
    intros [[_ Hr]|[? _]]; [|done]. unfold runnable_state in Hr. naive_solver.
  - intros tid. unfold upd. case_decide; [|rewrite H3, Hc; naive_solver]. naive_solver.
  - intros tid Hid. apply runnable_upd. right. split; [congruence|by apply H4].
  - intros tid Hr. unfold upd. case_decide as Heq.
    + destruct Hret as [->|(-> & -> & _)]; [|done]. apply H5 in Hr. congruence.
    + destruct Hret as [->|(-> & _)]; [by apply H5|congruence].
  - intros tid. unfold upd. case_decide; [|by apply H6]. intros _. apply (H6 from). eauto.
  - rewrite H7, Hc. naive_solver.
  - intros Hr. destruct Hret as [->|(_ & _ & ->)]; [by apply Hip, H10|done].
Qed.

(** ** Entering the next thread *)

Lemma enter_with to ready' :
  cpu_inv true st rem ip hs → cs_current st = None → hs to = Some Ready →
  places (set_cs_current (Some to) (set_cs_ready ready' st)) rem ≡ₚ places st rem →
  cpu_inv false (set_cs_current (Some to) (set_cs_ready ready' st)) rem ip (upd hs to (Some Running)).
Proof.
  intros [H1 H2 H3 H4 H5 H6 H7 H8 H9 H10] Hc Hto Hpp. split; simpl; try done.
  - by rewrite Hpp.
  - intros tid. rewrite Hpp, H2, runnable_upd. unfold runnable_state.
    destruct (decide (tid = to)); naive_solver.
  - intros tid. unfold upd. case_decide; [naive_solver|]. rewrite H3, Hc. naive_solver.
  - intros tid Hid. apply runnable_upd. destruct (decide (tid = to)); unfold runnable_state; naive_solver.
  - intros tid Hid. unfold upd. case_decide; [|by apply H5]. subst. apply H5 in Hid. congruence.
  - intros tid. unfold upd. case_decide; [|by apply H6]. intros _. apply (H6 to). eauto.
  - rewrite H7, Hc. naive_solver.
Qed.

Lemma enter_head to rest :
  cpu_inv true st rem ip hs → cs_current st = None → queue_of st = to :: rest →
  cpu_inv false (set_cs_current (Some to) (set_cs_ready rest st)) rem ip (upd hs to (Some Running)).
Proof.
  intros Hinv Hc Hq.
  destruct (proj1 (queued_iff _ _ _ _ _ to Hinv)) as [Hr Hi].
  { rewrite Hq. apply list_elem_of_here. }
  apply enter_with; [done..|]. unfold places, idle_rest. simpl. rewrite Hc, Hq.
  rewrite decide_False by congruence. destruct (cs_idle st) as [i|]; simpl; perm_solve.
Qed.

Lemma enter_idle to :
  cpu_inv true st rem ip hs → cs_current st = None → queue_of st = [] → cs_idle st = Some to →
  cpu_inv false (set_cs_current (Some to) (set_cs_ready [] st)) rem ip (upd hs to (Some Running)).
Proof.
  intros Hinv Hc Hq Hi. apply enter_with; [done..| |].
  - destruct (ci_idle _ _ _ _ _ Hinv to Hi) as [?|Hr]; [done|].
    apply (ci_current _ _ _ _ _ Hinv) in Hr. congruence.
  - unfold places, idle_rest. simpl. rewrite Hc, Hq, Hi. rewrite decide_True by done. simpl. perm_solve.
Qed.

(** ** Becoming ready *)

Lemma push_with g tid st' rem' ip' :
  cpu_inv g st rem ip hs → hs tid = Some Blocked ∨ hs tid = None →
  is_Some (cs_idle st) → (ip = true → ip' = true) → (rem' ≠ [] → ip' = true) →
  places st' rem' ≡ₚ tid :: places st rem →
  cs_current st' = cs_current st → cs_idle st' = cs_idle st → cs_retired st' = cs_retired st →
  cs_initialized st' = cs_initialized st → cs_online st' = cs_online st →
  cpu_inv g st' rem' ip' (upd hs tid (Some Ready)).
Proof.
  intros [H1 H2 H3 H4 H5 H6 H7 H8 H9 H10] Htid Hidle Hip Hrem Hpp Ec Ei Er En Eo.
  assert (¬ runnable_state (hs tid)) as Hnr by (unfold runnable_state; naive_solver).
  split; rewrite ?Ec, ?Ei, ?Er, ?En, ?Eo; try done; auto.
  - rewrite Hpp. apply NoDup_cons. split; [by rewrite H2|done].
  - intros tid'. rewrite Hpp, elem_of_cons, H2, runnable_upd.
    destruct (decide (tid' = tid)) as [->|]; unfold runnable_state; naive_solver.
  - intros tid'. unfold upd. case_decide; [|apply H3]. subst. rewrite <-H3. naive_solver.
  - intros tid' Hid. apply runnable_upd. destruct (decide (tid' = tid)); unfold runnable_state; naive_solver.
  - intros tid' Hr. unfold upd. case_decide; [|by apply H5]. subst. apply H5 in Hr. naive_solver.
Qed.

Lemma wake_local g tid :
  cpu_inv g st rem ip hs → hs tid = Some Blocked ∨ hs tid = None → is_Some (cs_idle st) →
  cpu_inv g (set_cs_ready (queue_of st ++ [tid]) st) rem ip (upd hs tid (Some Ready)).
Proof.
  intros Hinv Htid Hidle. eapply push_with; try done; [apply (ci_ingress _ _ _ _ _ Hinv)|].
  unfold places, idle_rest. simpl. perm_solve.
Qed.

Lemma wake_remote g tid :
  cpu_inv g st rem ip hs → hs tid = Some Blocked ∨ hs tid = None → is_Some (cs_idle st) →
  cpu_inv g st (rem ++ [tid]) true (upd hs tid (Some Ready)).
Proof.
  intros Hinv Htid Hidle. eapply push_with; try done. unfold places. perm_solve.
Qed.

(** The first thread of a CPU is its idle thread. *)
Lemma publish_idle tid :
  cpu_inv false st rem ip hs → cs_idle st = None → hs tid = None →
  cpu_inv false (set_cs_idle (Some tid) st) rem ip (upd hs tid (Some Ready)).
Proof.
  intros Hinv Hidle Htid.
  destruct Hinv as [H1 H2 H3 H4 H5 H6 H7 H8 H9 H10].
  assert (∀ t, hs t = None) as Hall.
  { intros t. destruct (hs t) eqn:Ht; [|done]. destruct (H6 t) as [? ?]; [eauto|congruence]. }
  assert (places st rem = []) as Hemp.
  { apply elem_of_nil_inv. intros t. rewrite H2, Hall. unfold runnable_state. naive_solver. }
  assert (cs_current st = None) as Hc.
  { destruct (cs_current st) eqn:Hc; [|done]. unfold places in Hemp. rewrite Hc in Hemp. done. }
  unfold places, idle_rest in Hemp. rewrite Hc, Hidle in Hemp. simpl in Hemp.
  apply app_eq_nil in Hemp as [Hq0 Hr0]. apply app_eq_nil in Hr0 as [Hr0 _].
  assert (places (set_cs_idle (Some tid) st) rem = [tid]) as Hp.
  { unfold places, idle_rest. simpl. by rewrite Hc, Hq0, Hr0. }
  split; simpl; try done.
  - rewrite Hp. apply NoDup_singleton.
  - intros t. rewrite Hp, list_elem_of_singleton. unfold upd, runnable_state. case_decide; [naive_solver|].
    rewrite Hall. naive_solver.
  - intros t. rewrite Hc. unfold upd. case_decide; [naive_solver|]. rewrite Hall. naive_solver.
  - intros t ?. simplify_eq. unfold upd, runnable_state. rewrite decide_True by done. auto.
  - intros t Hr. apply H5 in Hr. rewrite Hall in Hr. done.
Qed.

(** ** Ingress, retirement, reclamation, start *)

Lemma drain_ingress g :
  cpu_inv g st rem ip hs → cs_retired st = None →
  cpu_inv g (set_cs_ready (queue_of st ++ rem) st) [] false hs.
Proof.
  intros [H1 H2 H3 H4 H5 H6 H7 H8 H9 H10] Hr.
  assert (places (set_cs_ready (queue_of st ++ rem) st) [] = places st rem) as Hp.
  { unfold places, idle_rest. simpl. by rewrite <-!app_assoc. }
  split; simpl; rewrite ?Hp; try done. rewrite Hr. by intros [? ?].
Qed.

Lemma take_retired g :
  cpu_inv g st rem ip hs → cpu_inv g (set_cs_retired None st) rem ip hs.
Proof. intros []. split; try done. by intros [? ?]. Qed.

Lemma release_exited g tid :
  cpu_inv g st rem ip hs → hs tid = Some Exited → cs_retired st ≠ Some tid →
  cpu_inv g st rem ip (upd hs tid None).
Proof.
  intros [H1 H2 H3 H4 H5 H6 H7 H8 H9 H10] Htid Hr. split; try done.
  - intros t. rewrite H2, runnable_upd. unfold runnable_state. destruct (decide (t = tid)); naive_solver.
  - intros t. unfold upd. case_decide; [|apply H3]. subst. rewrite <-H3. naive_solver.
  - intros t Hi. apply runnable_upd. right. split; [|by apply H4]. intros ->.
    apply H4 in Hi. unfold runnable_state in Hi. naive_solver.
  - intros t Ht. unfold upd. case_decide; [congruence|by apply H5].
  - intros t. unfold upd. case_decide; [by intros [? ?]|apply H6].
Qed.

Lemma open_gap :
  cpu_inv false st rem ip hs → cs_current st = None → cpu_inv true (set_cs_initialized true st) rem ip hs.
Proof. intros []. split; simpl; try done. naive_solver. Qed.

Lemma go_online :
  cpu_inv false st rem ip hs → is_Some (cs_current st) → cpu_inv false (set_cs_online true st) rem ip hs.
Proof. intros []. split; simpl; try done. naive_solver. Qed.
End moves.
