(* ===== verification/SchedInv.v ===== *)
(** * The scheduler invariant

    What holds of the shared scheduler between operations: which threads are
    placed where, what their wait metadata says, who may join whom, and that
    every slot is either free with its stack parked or owned by a live thread.
    The file states the invariant over accessor functions, gives the update
    lemmas of the accessors and the bound on queue lengths, and shows that
    every state that satisfies the invariant passes the kernel's own runtime
    validation. *)

From S2P Require Import Prelude Types Wait Context Vm Sched World CpuInv.

(** ** Views of the scheduler *)

Definition no_cpu : CpuSchedulerState := cpu_state_new 0.

Definition cst (s : Scheduler) (c : CpuId) : CpuSchedulerState := default no_cpu (cpus s !! c).
Definition cur (s : Scheduler) (c : CpuId) : option ThreadId := cs_current (cst s c).
Definition idl (s : Scheduler) (c : CpuId) : option ThreadId := cs_idle (cst s c).
Definition ret (s : Scheduler) (c : CpuId) : option ThreadId := cs_retired (cst s c).
Definition ready (s : Scheduler) (c : CpuId) : list ThreadId := rq_items (cs_ready_queue (cst s c)).
Definition remote (s : Scheduler) (c : CpuId) : list ThreadId :=
  rq_items (default (mkReadyQueue [] 0) (remote_ready s !! c)).
Definition ipi (s : Scheduler) (c : CpuId) : bool := default false (scheduler_ipi_pending s !! c).

Definition live (s : Scheduler) (tid : ThreadId) (t : Thread) : Prop := table_get s tid = Some t.

(** The lifecycle state of a thread, seen from the CPU it lives on. *)
Definition state_on (s : Scheduler) (c : CpuId) (tid : ThreadId) : option ThreadState :=
  match table_get s tid with
  | Some t => if decide (t_home_cpu t = c) then Some (t_state t) else None
  | None => None
  end.

(** ** The invariant *)

(** The wait metadata of a thread agrees with its lifecycle state. *)
Record wait_ok (tid : ThreadId) (t : Thread) : Prop := {
  wk_blocked : wait_is_blocked (t_wait t) = true ↔ t_state t = Blocked;
  wk_prepared : wait_is_prepared (t_wait t) = true → t_state t = Running;
  wk_completed : wait_is_completed (t_wait t) = true → t_state t = Ready ∨ t_state t = Running;
  wk_token : ∀ a, active (t_wait t) = Some a →
    aw_token a = mkWaitToken tid (t_home_cpu t) (next_sequence (t_wait t));
  wk_seq : (0 <= next_sequence (t_wait t) <= u64_max)%Z
}.

(** Facts of one thread record. *)
Record thread_ok (tid : ThreadId) (t : Thread) : Prop := {
  tk_home : t_home_cpu t < KERNEL_CPU_CAPACITY;
  tk_wait : wait_ok tid t;
  tk_exit : t_state t = Exited → is_Some (t_exit_code t);
  tk_user : ∀ u, t_user t = Some u → owner_cpu (ur_address_space u) = t_home_cpu t ∧ t_joinable t = true;
  tk_gen : (1 <= tid_generation tid <= u32_max)%Z
}.

(** Facts of one slot of the table. *)
Record slot_ok (slot : ThreadSlot) : Prop := {
  sk_stack : sl_stack slot = None ↔ is_Some (sl_thread slot);
  sk_gen : (0 <= sl_generation slot <= u32_max)%Z;
  sk_seq : (0 <= sl_next_wait_sequence slot <= u64_max)%Z
}.

(** A joiner is a thread blocked in exactly the wait it registered, with no
    unconsumed join result; no two targets share it, and an exited target that
    still has one (or that nobody can join) is waiting to be finalized. *)
Record joiners_ok (s : Scheduler) : Prop := {
  jk_blocked : ∀ tid t tok, live s tid t → t_joiner t = Some tok →
    ∃ j, live s (wt_thread tok) j ∧
         active (t_wait j) = Some (mkActiveWait tok PhaseBlocked Explicit) ∧
         t_last_join_result j = None ∧ t_reaped_user j = None;
  jk_inj : ∀ tid1 t1 tid2 t2 tok, live s tid1 t1 → live s tid2 t2 →
    t_joiner t1 = Some tok → t_joiner t2 = Some tok → tid1 = tid2;
  jk_exited : ∀ tid t, live s tid t → t_state t = Exited →
    is_Some (t_joiner t) ∨ t_joinable t = false → ret s (t_home_cpu t) = Some tid;
  jk_joinable : ∀ tid t tok, live s tid t → t_joiner t = Some tok → t_joinable t = true
}.

(** The fixed storage: four CPUs, at most [N] slots, queues with room for all
    threads but idle, and every slot either free and listed once, or occupied. *)
Record shape_ok (N : nat) (s : Scheduler) : Prop := {
  sh_cpus : length (cpus s) = KERNEL_CPU_CAPACITY;
  sh_remote : length (remote_ready s) = KERNEL_CPU_CAPACITY;
  sh_ipi : length (scheduler_ipi_pending s) = KERNEL_CPU_CAPACITY;
  sh_capacity : length (table_slots s) ≤ N ≤ KERNEL_THREAD_CAPACITY;
  sh_ready_capacity : ∀ c st, cpus s !! c = Some st → rq_capacity (cs_ready_queue st) = N - 1;
  sh_remote_capacity : ∀ c q, remote_ready s !! c = Some q → rq_capacity q = N - 1;
  sh_slots : ∀ i slot, table_slots s !! i = Some slot → slot_ok slot;
  sh_free : ∀ i, i ∈ free_slots (lifecycle s) ↔
    ∃ slot, table_slots s !! i = Some slot ∧ sl_thread slot = None;
  sh_free_nodup : NoDup (free_slots (lifecycle s))
}.

(** [gap] is a CPU between two current threads. *)
Record sched_ok (N : nat) (gap : option CpuId) (s : Scheduler) : Prop := {
  so_shape : shape_ok N s;
  so_threads : ∀ tid t, live s tid t → thread_ok tid t;
  so_cpu : ∀ c, c < KERNEL_CPU_CAPACITY →
    cpu_inv (bool_decide (gap = Some c)) (cst s c) (remote s c) (ipi s c) (state_on s c);
  so_idle_user : ∀ c tid t, c < KERNEL_CPU_CAPACITY → idl s c = Some tid → live s tid t → t_user t = None;
  so_joiners : joiners_ok s
}.

(** ** Update lemmas of the views *)

Lemma table_get_alter f i s tid :
  table_get (alter_thread f i s) tid =
  if decide (tid_index tid = i) then f <$> table_get s tid else table_get s tid.
Proof.
  unfold table_get, alter_thread, table_slots. simpl.
  destruct (decide (tid_index tid = i)) as [<-|Hne].
  - rewrite list_lookup_alter_eq. destruct (slots (lifecycle s) !! tid_index tid) as [slot|]; simpl; [|done].
    by destruct (decide (sl_generation slot = _)).
  - by rewrite list_lookup_alter_ne by done.
Qed.

Lemma table_get_alter_cpu f c s tid : table_get (alter_cpu f c s) tid = table_get s tid.
Proof. done. Qed.

Lemma cst_alter_cpu f c s c' :
  c < length (cpus s) → cst (alter_cpu f c s) c' = if decide (c = c') then f (cst s c) else cst s c'.
Proof.
  intros Hc. unfold cst, alter_cpu. simpl. destruct (decide (c = c')) as [<-|].
  - rewrite list_lookup_alter_eq. by apply lookup_lt_is_Some_2 in Hc as [st ->].
  - by rewrite list_lookup_alter_ne.
Qed.

Lemma cst_alter_thread f i s c : cst (alter_thread f i s) c = cst s c.
Proof. done. Qed.

(** Two live handles of one slot are the same handle. *)
Lemma live_index_inj s tid1 t1 tid2 t2 :
  live s tid1 t1 → live s tid2 t2 → tid_index tid1 = tid_index tid2 → tid1 = tid2.
Proof.
  unfold live, table_get. destruct tid1 as [i1 g1], tid2 as [i2 g2]. simpl. intros H1 H2 ->.
  destruct (table_slots s !! i2) as [slot|]; [|done].
  destruct (decide (_ = g1)), (decide (_ = g2)); congruence.
Qed.

Lemma live_fun s tid t1 t2 : live s tid t1 → live s tid t2 → t1 = t2.
Proof. unfold live. congruence. Qed.

Lemma live_slot s tid t :
  live s tid t → ∃ slot, table_slots s !! tid_index tid = Some slot ∧
                         sl_generation slot = tid_generation tid ∧ sl_thread slot = Some t.
Proof.
  unfold live, table_get. destruct (table_slots s !! tid_index tid) as [slot|]; [|done].
  destruct (decide _); [|done]. eauto.
Qed.

Lemma slot_live s i slot t :
  table_slots s !! i = Some slot → sl_thread slot = Some t →
  live s (mkThreadId i (sl_generation slot)) t.
Proof. intros Hs Ht. unfold live, table_get. simpl. by rewrite Hs, decide_True. Qed.

Lemma live_index_lt s tid t : live s tid t → tid_index tid < length (table_slots s).
Proof. intros (slot & Hs & _)%live_slot. by apply lookup_lt_Some in Hs. Qed.

Lemma live_matches s tid t : live s tid t → thread_matches s tid = true.
Proof. unfold live, thread_matches. by intros ->. Qed.

Lemma live_thread_at s tid t : live s tid t → thread_at s (tid_index tid) = Done t.
Proof.
  intros (slot & Hs & _ & Ht)%live_slot. unfold thread_at, slot_at. by rewrite Hs; simpl; rewrite Ht.
Qed.

(** Distinct live threads occupy distinct slots, so there are at most as many
    as slots: the bound behind every reserved queue. *)
Lemma live_length s l :
  NoDup l → (∀ tid, tid ∈ l → ∃ t, live s tid t) → length l ≤ length (table_slots s).
Proof.
  intros Hnd Hl. rewrite <-(length_fmap tid_index l). apply NoDup_below_length.
  - apply NoDup_fmap_2_strong; [|done]. intros x y Hx Hy Heq.
    destruct (Hl x Hx), (Hl y Hy). eapply live_index_inj; eauto.
  - intros i (tid & -> & Htid)%list_elem_of_fmap. destruct (Hl tid Htid). by eapply live_index_lt.
Qed.

Lemma state_on_Some s c tid x :
  state_on s c tid = Some x ↔ ∃ t, live s tid t ∧ t_home_cpu t = c ∧ t_state t = x.
Proof.
  unfold state_on, live. split.
  - destruct (table_get s tid) as [t|]; [|done]. case_decide; [|done]. intros; simplify_eq. eauto.
  - intros (t & -> & <- & <-). by rewrite decide_True.
Qed.

Lemma state_on_live s tid t : live s tid t → state_on s (t_home_cpu t) tid = Some (t_state t).
Proof. intros. apply state_on_Some. eauto. Qed.

Lemma state_on_dead s c tid : table_get s tid = None → state_on s c tid = None.
Proof. unfold state_on. by intros ->. Qed.

(** ** Consequences *)

Section consequences.
Context {N : nat} {gap : option CpuId} {s : Scheduler}.
Hypothesis Hok : sched_ok N gap s.

Lemma cst_lookup c : c < KERNEL_CPU_CAPACITY → cpus s !! c = Some (cst s c).
Proof.
  intros Hc. rewrite <-(sh_cpus _ _ (so_shape _ _ _ Hok)) in Hc. unfold cst.
  by apply lookup_lt_is_Some_2 in Hc as [st ->].
Qed.

Lemma remote_lookup c :
  c < KERNEL_CPU_CAPACITY → remote_ready s !! c = Some (mkReadyQueue (remote s c) (N - 1)).
Proof.
  intros Hc. rewrite <-(sh_remote _ _ (so_shape _ _ _ Hok)) in Hc. unfold remote.
  apply lookup_lt_is_Some_2 in Hc as [q Hq]. rewrite Hq. simpl.
  rewrite <-(sh_remote_capacity _ _ (so_shape _ _ _ Hok) _ _ Hq). by destruct q.
Qed.

Lemma ipi_lookup c : c < KERNEL_CPU_CAPACITY → scheduler_ipi_pending s !! c = Some (ipi s c).
Proof.
  intros Hc. rewrite <-(sh_ipi _ _ (so_shape _ _ _ Hok)) in Hc. unfold ipi.
  by apply lookup_lt_is_Some_2 in Hc as [b ->].
Qed.

Lemma ready_capacity c :
  c < KERNEL_CPU_CAPACITY → rq_capacity (cs_ready_queue (cst s c)) = N - 1.
Proof. intros Hc. eapply sh_ready_capacity; [apply Hok|by apply cst_lookup]. Qed.

Lemma live_home_lt tid t : live s tid t → t_home_cpu t < KERNEL_CPU_CAPACITY.
Proof. intros Hl. eapply tk_home, so_threads; done. Qed.

Lemma current_live c tid :
  c < KERNEL_CPU_CAPACITY → cur s c = Some tid →
  ∃ t, live s tid t ∧ t_home_cpu t = c ∧ t_state t = Running.
Proof. intros Hc Hcur. by apply state_on_Some, (ci_current _ _ _ _ _ (so_cpu _ _ _ Hok c Hc)). Qed.

Lemma idle_live c tid :
  c < KERNEL_CPU_CAPACITY → idl s c = Some tid →
  ∃ t, live s tid t ∧ t_home_cpu t = c ∧ t_user t = None ∧ (t_state t = Ready ∨ t_state t = Running).
Proof.
  intros Hc Hi. pose proof (so_idle_user _ _ _ Hok c tid) as Hu.
  destruct (ci_idle _ _ _ _ _ (so_cpu _ _ _ Hok c Hc) tid Hi) as [H|H];
    apply state_on_Some in H as (t & ? & ? & ?); exists t; eauto 10.
Qed.

Lemma home_idle tid t : live s tid t → is_Some (idl s (t_home_cpu t)).
Proof.
  intros Hl. eapply (ci_home _ _ _ _ _ (so_cpu _ _ _ Hok _ (live_home_lt _ _ Hl))).
  rewrite (state_on_live _ _ _ Hl). eauto.
Qed.

(** The queues of a CPU hold exactly its ready threads other than idle. *)
Lemma queued_spec c tid :
  c < KERNEL_CPU_CAPACITY →
  tid ∈ ready s c ++ remote s c ↔
  ∃ t, live s tid t ∧ t_home_cpu t = c ∧ t_state t = Ready ∧ idl s c ≠ Some tid.
Proof.
  intros Hc. unfold ready. rewrite (queued_iff _ _ _ _ _ tid (so_cpu _ _ _ Hok c Hc)).
  rewrite state_on_Some. unfold idl. naive_solver.
Qed.

Lemma queue_nodup c : c < KERNEL_CPU_CAPACITY → NoDup (ready s c ++ remote s c).
Proof.
  intros Hc. pose proof (ci_nodup _ _ _ _ _ (so_cpu _ _ _ Hok c Hc)) as Hnd. unfold places in Hnd.
  rewrite (app_assoc (queue_of _)) in Hnd. apply NoDup_app in Hnd as (_ & _ & Hnd).
  by apply NoDup_app in Hnd as (? & _ & _).
Qed.

(** Distinct live threads outside of the queues of a CPU leave room in them. *)
Lemma queue_room c l :
  c < KERNEL_CPU_CAPACITY → NoDup l →
  (∀ tid, tid ∈ l → (∃ t, live s tid t) ∧ tid ∉ ready s c ++ remote s c) →
  length (ready s c) + length (remote s c) + length l ≤ N.
Proof.
  intros Hc Hnd Hl. rewrite <-length_app, <-length_app.
  etrans; [apply (live_length s)|apply (sh_capacity _ _ (so_shape _ _ _ Hok))].
  - apply NoDup_app. split_and!; [by apply queue_nodup| |done].
    intros tid Hq Hin. by destruct (Hl tid Hin).
  - intros tid [Hq|Hin]%elem_of_app; [|by apply Hl].
    apply queued_spec in Hq as (t & ? & _); eauto.
Qed.

Lemma idle_not_queued c i :
  c < KERNEL_CPU_CAPACITY → idl s c = Some i → i ∉ ready s c ++ remote s c.
Proof. intros Hc Hi (t & _ & _ & _ & Hne)%queued_spec; [done|done]. Qed.

(** The idle thread keeps one slot out of the queues. *)
Lemma queue_length c :
  c < KERNEL_CPU_CAPACITY → length (ready s c) + length (remote s c) ≤ N - 1.
Proof.
  intros Hc. destruct (ready s c ++ remote s c) as [|x l] eqn:Hq.
  { apply (f_equal length) in Hq. rewrite length_app in Hq. simpl in Hq. lia. }
  assert (x ∈ ready s c ++ remote s c) as Hx by (rewrite Hq; apply list_elem_of_here).
  apply queued_spec in Hx as (t & Hl & <- & _); [|done].
  destruct (home_idle _ _ Hl) as [i Hi].
  pose proof (queue_room (t_home_cpu t) [i] Hc (NoDup_singleton i)) as Hroom.
  simpl in Hroom. apply Nat.le_add_le_sub_r, Hroom. intros tid ->%list_elem_of_singleton. split.
  - destruct (idle_live _ _ Hc Hi) as (ti & ? & _). eauto.
  - by apply idle_not_queued.
Qed.
End consequences.

(** ** The runtime validation accepts every invariant state *)

Lemma iter_o_done {A} (f : A → outcome unit) l :
  (∀ x, x ∈ l → f x = Done tt) → iter_o f l = Done tt.
Proof.
  induction l as [|x l IH]; intros Hf; simpl; [done|].
  rewrite (Hf x) by apply list_elem_of_here. simpl. apply IH. intros y Hy. apply Hf. by right.
Qed.

Lemma elem_of_indexed {A} (l : list A) i x : (i, x) ∈ indexed l → l !! i = Some x.
Proof.
  unfold indexed. intros [k Hk]%list_elem_of_lookup. apply lookup_zip_Some in Hk as [Hi Hx].
  by apply lookup_seq in Hi as [-> _].
Qed.

Lemma guard_o_true b why : b = true → guard_o b why = Done tt.
Proof. by intros ->. Qed.

Lemma guard_seq {A} b why (k : outcome A) : b = true → (guard_o b why;; k) = k.
Proof. by intros ->. Qed.

Lemma count_tid_nodup tid (l1 l2 : list ThreadId) n1 n2 :
  NoDup (l1 ++ l2) →
  count_tid tid (mkReadyQueue l1 n1) + count_tid tid (mkReadyQueue l2 n2)
  = if decide (tid ∈ l1 ++ l2) then 1 else 0.
Proof.
  intros Hnd. unfold count_tid. simpl. rewrite <-length_app, <-filter_app.
  induction (l1 ++ l2) as [|x l IH]; simpl; [done|].
  apply NoDup_cons in Hnd as [Hx Hnd]. specialize (IH Hnd). rewrite filter_cons.
  destruct (decide (x = tid)) as [->|Hne].
  - rewrite decide_False in IH by done. simpl. rewrite IH, decide_True by apply list_elem_of_here. done.
  - rewrite IH. apply decide_ext. rewrite elem_of_cons. naive_solver.
Qed.

Section validation.
Context {N : nat} {s : Scheduler}.
Hypothesis Hok : sched_ok N None s.

Let Hcpu c (Hc : c < KERNEL_CPU_CAPACITY) := so_cpu _ _ _ Hok c Hc.

Lemma from_index_lt c : c < KERNEL_CPU_CAPACITY → CpuId_from_index c = Some c.
Proof. intros. unfold CpuId_from_index. by rewrite decide_True. Qed.

Lemma cpus_elem c st :
  (c, st) ∈ indexed (cpus s) → c < KERNEL_CPU_CAPACITY ∧ st = cst s c.
Proof.
  intros Hin%elem_of_indexed. pose proof (lookup_lt_Some _ _ _ Hin) as Hlt.
  rewrite (sh_cpus _ _ (so_shape _ _ _ Hok)) in Hlt. split; [done|]. rewrite (cst_lookup Hok) in Hin by done. congruence.
Qed.

Lemma validate_cpu_done p : p ∈ indexed (cpus s) → validate_cpu s p = Done tt.
Proof.
  destruct p as [c st]. intros [Hc ->]%cpus_elem. pose proof (Hcpu c Hc) as Hck.
  pose proof (queue_length Hok c Hc) as Hlen. unfold validate_cpu, remote_ready_for, ipi_pending_for.
  rewrite (remote_lookup Hok), (ipi_lookup Hok), (ready_capacity Hok) by done. simpl.
  rewrite !guard_o_true; simpl.
  - destruct (cs_retired (cst s c)) as [r|] eqn:Hr; [|done].
    destruct (proj1 (state_on_Some _ _ _ _) (ci_retired _ _ _ _ _ Hck r Hr)) as (t & Hl & Hh & Hst).
    rewrite from_index_lt by done. simpl. rewrite (live_matches _ _ _ Hl). simpl.
    rewrite (live_thread_at _ _ _ Hl). simpl. apply guard_o_true.
    rewrite (bool_decide_eq_true_2 (t_home_cpu t = c)), (bool_decide_eq_true_2 (t_state t = _)) by done.
    simpl. apply negb_true_iff, bool_decide_eq_false_2. intros Hcur.
    destruct (current_live Hok c r Hc Hcur) as (t' & Hl' & _ & Hst').
    rewrite (live_fun _ _ _ _ Hl' Hl) in Hst'. congruence.
  - apply bool_decide_eq_true. unfold ready in Hlen. lia.
  - apply bool_decide_eq_true. lia.
  - destruct (decide (remote s c = [])) as [->|Hne]; [done|].
    by rewrite (ci_ingress _ _ _ _ _ Hck Hne), orb_true_r.
  - pose proof (ci_online _ _ _ _ _ Hck). destruct (cs_online _); [|done]. simpl. auto.
Qed.

Lemma validate_thread_done tid slot t :
  table_slots s !! tid_index tid = Some slot → sl_generation slot = tid_generation tid →
  sl_thread slot = Some t → validate_thread s tid slot t = Done tt.
Proof.
  intros Hs Hg Ht.
  assert (live s tid t) as Hl by (unfold live, table_get; by rewrite Hs, decide_True).
  pose proof (so_threads _ _ _ Hok _ _ Hl) as [Hh [Hbl Hpr Hco _ _] _ Hu _].
  pose proof (sh_slots _ _ (so_shape _ _ _ Hok) _ _ Hs) as [Hstk _ _].
  pose proof (Hcpu _ Hh) as Hck. unfold validate_thread, cpu_state_for, remote_ready_for.
  rewrite (cst_lookup Hok), (remote_lookup Hok) by done. simpl.
  destruct (cs_ready_queue (cst s (t_home_cpu t))) as [items cap] eqn:Hrq.
  assert (items = ready s (t_home_cpu t)) as -> by (unfold ready; by rewrite Hrq).
  rewrite count_tid_nodup by (by apply (queue_nodup Hok)).
  assert (tid ∈ ready s (t_home_cpu t) ++ remote s (t_home_cpu t) ↔
          t_state t = Ready ∧ idl s (t_home_cpu t) ≠ Some tid) as Hq.
  { rewrite (queued_spec Hok) by done. split; [|intros []; by exists t].
    intros (t' & Hl' & _ & ? & ?). rewrite (live_fun _ _ _ _ Hl' Hl) in *. done. }
  pose proof (ci_current _ _ _ _ _ Hck tid) as Hcur. rewrite (state_on_live _ _ _ Hl) in Hcur.
  assert (t_state t = Running ↔ cur s (t_home_cpu t) = Some tid) as Hcur'.
  { unfold cur. rewrite <-Hcur. split; congruence. }
  clear Hcur. rename Hcur' into Hcur.
  rewrite guard_seq by (apply bool_decide_eq_true; destruct (decide (tid ∈ _)); lia).
  rewrite guard_seq by (apply bool_decide_eq_true; apply Hstk; eauto).
  rewrite guard_seq.
  2:{ destruct (t_user t) as [u|]; [|done]. apply bool_decide_eq_true. by apply Hu. }
  unfold idl, cur in *.
  assert (t_state t = Exited → wait_is_none (t_wait t) = true) as Hnone.
  { intros Hst. rewrite Hst in *. unfold wait_is_none, wait_is_prepared, wait_is_blocked, wait_is_completed in *.
    destruct (active (t_wait t)) as [[? [] ?]|]; [by specialize (Hpr eq_refl)| | |done].
    - by discriminate (proj1 Hbl eq_refl).
    - by destruct (Hco eq_refl). }
  assert (∀ n, n = (if decide (tid ∈ ready s (t_home_cpu t) ++ remote s (t_home_cpu t)) then 1 else 0) →
    t_state t ≠ Ready → n = 0) as Hzero.
  { intros n -> Hst. rewrite decide_False; [done|]. by intros [? _]%Hq. }
  match goal with |- (?m;; _) = _ => assert (m = Done tt) as -> end.
  - destruct (t_state t) eqn:Hst.
    + destruct (decide (cs_idle _ = Some tid)) as [Hi|Hi]; apply guard_o_true, bool_decide_eq_true.
      * apply decide_False. by intros [_ ?]%Hq.
      * by apply decide_True, Hq.
    + apply guard_o_true, andb_true_iff. split; apply bool_decide_eq_true; [by apply Hcur|by eapply Hzero].
    + apply guard_o_true, andb_true_iff. split; [apply bool_decide_eq_true; by eapply Hzero|by apply Hbl].
    + apply guard_o_true, andb_true_iff. split; [apply bool_decide_eq_true; by eapply Hzero|by apply Hnone].
  - rewrite done_bind, guard_seq, guard_seq, guard_o_true; [done|..].
    + destruct (wait_is_blocked _); simpl; [by apply bool_decide_eq_true, Hbl|done].
    + destruct (wait_is_completed _); simpl; [|done].
      destruct (Hco eq_refl) as [-> | ->]; by rewrite ?orb_true_r.
    + destruct (wait_is_prepared _); simpl; [by apply bool_decide_eq_true, Hpr|done].
Qed.

Lemma free_not_queued i slot tid :
  table_slots s !! i = Some slot → sl_thread slot = None → ∀ t, live s tid t → tid_index tid ≠ i.
Proof. intros Hs Ht t (slot' & Hs' & _ & Ht')%live_slot Heq. rewrite Heq in Hs'. congruence. Qed.

Lemma validate_slot_done p : p ∈ indexed (table_slots s) → validate_slot s p = Done tt.
Proof.
  destruct p as [i slot]. intros Hs%elem_of_indexed. unfold validate_slot.
  destruct (sl_thread slot) as [t|] eqn:Ht; [by apply validate_thread_done|].
  pose proof (sh_slots _ _ (so_shape _ _ _ Hok) _ _ Hs) as [Hstk _ _].
  assert (∀ c tid, c < KERNEL_CPU_CAPACITY → tid ∈ ready s c ++ remote s c → tid_index tid ≠ i) as Hno.
  { intros c tid Hc (t & Hl & _)%(queued_spec Hok); [|done]. by eapply free_not_queued. }
  rewrite guard_seq.
  2:{ destruct (sl_stack slot); [done|]. destruct (proj1 Hstk eq_refl). congruence. }
  apply guard_o_true, negb_true_iff, orb_false_iff. split; apply not_true_iff_false;
    intros (x & Hx & Hq)%existsb_exists; apply existsb_exists in Hq as (tid & Hin & Heq%bool_decide_eq_true);
    apply list_elem_of_In in Hx as Hx'; apply list_elem_of_In in Hin;
    apply list_elem_of_lookup in Hx' as [c Hc]; pose proof (lookup_lt_Some _ _ _ Hc) as Hlt.
  - rewrite (sh_cpus _ _ (so_shape _ _ _ Hok)) in Hlt. rewrite (cst_lookup Hok) in Hc by done. simplify_eq.
    by apply (Hno c tid Hlt); [apply elem_of_app; left|].
  - rewrite (sh_remote _ _ (so_shape _ _ _ Hok)) in Hlt. rewrite (remote_lookup Hok) in Hc by done. simplify_eq.
    by apply (Hno c tid Hlt); [apply elem_of_app; right|].
Qed.

Lemma validate_ready_queue_done p : p ∈ indexed (cpus s) → validate_ready_queue s p = Done tt.
Proof.
  destruct p as [c st]. intros [Hc ->]%cpus_elem. unfold validate_ready_queue.
  rewrite from_index_lt by done. simpl. apply iter_o_done. intros tid Hin.
  assert (tid ∈ ready s c ++ remote s c) as Hq by (apply elem_of_app; by left).
  apply (queued_spec Hok) in Hq as (t & Hl & Hh & Hst & Hid); [|done].
  rewrite (live_matches _ _ _ Hl). simpl. rewrite (live_thread_at _ _ _ Hl). simpl.
  apply guard_o_true.
  rewrite (bool_decide_eq_true_2 (t_state t = _)), (bool_decide_eq_true_2 (t_home_cpu t = c)) by done.
  by apply negb_true_iff, bool_decide_eq_false_2.
Qed.

Lemma validate_context_done p : p ∈ indexed (cpus s) → validate_context s p = Done tt.
Proof.
  destruct p as [c st]. intros [Hc ->]%cpus_elem. unfold validate_context.
  pose proof (Hcpu c Hc) as Hck. rewrite from_index_lt by done. simpl. rewrite guard_o_true; simpl.
  - destruct (cs_initialized (cst s c)) eqn:Hi; [|done].
    apply (ci_initialized _ _ _ _ _ Hck) in Hi as [[tid Hcur]|?]; [|done].
    destruct (current_live Hok c tid Hc Hcur) as (t & Hl & Hh & Hst).
    destruct (home_idle Hok _ _ Hl) as [i Hi]. rewrite Hh in Hi.
    destruct (idle_live Hok c i Hc Hi) as (ti & Hli & Hhi & _).
    unfold cur, idl in *. rewrite Hcur, Hi. simpl.
    rewrite (live_thread_at _ _ _ Hl), (live_thread_at _ _ _ Hli). simpl.
    apply guard_o_true. by rewrite !bool_decide_eq_true_2.
  - pose proof (ci_online _ _ _ _ _ Hck). destruct (cs_online _); [|done]. simpl. auto.
Qed.
End validation.

(** Counting the elements of a list that satisfy a test, by index. *)
Lemma length_filter_index {A} (f : A → bool) (l : list A) :
  length (filter f l) = length (filter (λ i, from_option f false (l !! i)) (seq 0 (length l))).
Proof.
  induction l as [|x l IH] using rev_ind; [done|].
  rewrite length_app, Nat.add_1_r, seq_S, !filter_app, !length_app. simpl. f_equal.
  - rewrite IH. f_equal. apply list_filter_ext_on. intros i Hi%elem_of_seq. by rewrite lookup_app_l by lia.
  - rewrite !filter_cons, !filter_nil. rewrite (list_lookup_middle l [] x (length l)) by done. simpl. by destruct (f x).
Qed.

Lemma running_count N s :
  sched_ok N None s →
  length (filter slot_running (table_slots s)) = length (filter cs_initialized (cpus s)).
Proof.
  intros Hok. rewrite (length_filter_index slot_running), (length_filter_index cs_initialized).
  set (L1 := filter _ (seq 0 (length (table_slots s)))).
  set (L2 := filter _ (seq 0 (length (cpus s)))).
  assert (∀ c, c ∈ L2 ↔ c < KERNEL_CPU_CAPACITY ∧ is_Some (cur s c)) as HL2.
  { intros c. unfold L2. rewrite list_elem_of_filter, elem_of_seq, (sh_cpus _ _ (so_shape _ _ _ Hok)).
    split; intros [H1 H2].
    - split; [lia|]. rewrite (cst_lookup Hok) in H1 by lia. simpl in H1. apply Is_true_true in H1.
      apply (ci_initialized _ _ _ _ _ (so_cpu _ _ _ Hok c ltac:(lia))) in H1 as [?|?]; done.
    - split; [|lia]. rewrite (cst_lookup Hok) by done. simpl. apply Is_true_true.
      apply (ci_initialized _ _ _ _ _ (so_cpu _ _ _ Hok c H1)). by left. }
  assert (∀ i, i ∈ L1 ↔ ∃ c tid, c < KERNEL_CPU_CAPACITY ∧ cur s c = Some tid ∧ tid_index tid = i) as HL1.
  { intros i. unfold L1. rewrite list_elem_of_filter, elem_of_seq. split.
    - intros [H1 _]. destruct (table_slots s !! i) as [slot|] eqn:Hs; simpl in H1; [|done].
      unfold slot_running in H1. destruct (sl_thread slot) as [t|] eqn:Ht; [|done].
      apply Is_true_true, bool_decide_eq_true in H1. pose proof (slot_live _ _ _ _ Hs Ht) as Hl.
      pose proof (live_home_lt Hok _ _ Hl) as Hh. exists (t_home_cpu t), (mkThreadId i (sl_generation slot)).
      split_and!; [done| |done].
      apply (ci_current _ _ _ _ _ (so_cpu _ _ _ Hok _ Hh)). by rewrite (state_on_live _ _ _ Hl), H1.
    - intros (c & tid & Hc & Hcur & <-). destruct (current_live Hok c tid Hc Hcur) as (t & Hl & _ & Hst).
      pose proof (live_index_lt _ _ _ Hl). split; [|lia].
      apply live_slot in Hl as (slot & Hs & _ & Ht). rewrite Hs. simpl. unfold slot_running. rewrite Ht.
      by apply Is_true_true, bool_decide_eq_true. }
  rewrite <-(length_fmap (λ c, default 0 (tid_index <$> cur s c)) L2).
  apply Permutation_length, NoDup_Permutation.
  - apply NoDup_filter, NoDup_seq.
  - apply NoDup_fmap_2_strong; [|apply NoDup_filter, NoDup_seq].
    intros c1 c2 [Hc1 [tid1 H1]]%HL2 [Hc2 [tid2 H2]]%HL2. rewrite H1, H2. simpl. intros Heq.
    destruct (current_live Hok c1 tid1 Hc1 H1) as (t1 & Hl1 & Hh1 & _).
    destruct (current_live Hok c2 tid2 Hc2 H2) as (t2 & Hl2 & Hh2 & _).
    rewrite (live_index_inj _ _ _ _ _ Hl1 Hl2 Heq) in Hl1. rewrite (live_fun _ _ _ _ Hl1 Hl2) in Hh1.
    congruence.
  - intros i. rewrite HL1, list_elem_of_fmap. split.
    + intros (c & tid & Hc & Hcur & <-). exists c. rewrite Hcur. split; [done|]. apply HL2. eauto.
    + intros (c & -> & [Hc [tid Hcur]]%HL2). exists c, tid. by rewrite Hcur.
Qed.

Lemma sched_ok_validates N s : sched_ok N None s → validate_invariants s = Done tt.
Proof.
  intros Hok. unfold validate_invariants.
  rewrite (iter_o_done _ _ (validate_cpu_done Hok)), done_bind.
  rewrite (iter_o_done _ _ (validate_slot_done Hok)), done_bind.
  rewrite (iter_o_done _ _ (validate_ready_queue_done Hok)), done_bind.
  rewrite (iter_o_done _ _ (validate_context_done Hok)), done_bind.
  apply guard_o_true, bool_decide_eq_true. by eapply running_count.
Qed.
