(* ===== verification/Switch.v ===== *)
(** * The scheduler moves as pure functions

    Every lifecycle transition changes one thread record, its home CPU and
    that CPU's ingress.  The lemmas of this file lift the moves of [CpuInv] to
    the shared scheduler: [sched_ok_thread] replaces the record in one slot of
    the table, be it a live thread, a free slot or a slot that becomes free.

    What each lifecycle transition does to the shared scheduler, written as
    one composition of a leave and an enter move (or of a single wake), and
    the proof that each move keeps the scheduler invariant.  A CPU that has
    lost its current thread and not yet selected the next one is the [gap] of
    the invariant; only the composition closes it. *)


From S2P Require Import Prelude Types Wait Context Vm Sched World CpuInv SchedInv.
(** ** Shape *)

Create HintDb shape.

Lemma shape_alter_thread N s f i : shape_ok N s → shape_ok N (alter_thread f i s).
Proof.
  intros [H1 H2 H3 H4 H5 H6 Hslots Hfree H9]. split; try done; unfold alter_thread, table_slots in *; simpl in *.
  - by rewrite length_alter.
  - intros j slot Hj. rewrite list_lookup_alter in Hj. destruct (decide (i = j)) as [->|]; [|eauto].
    apply fmap_Some in Hj as (slot0 & Hs0 & ->). destruct (Hslots _ _ Hs0).
    split; simpl; [|done|done]. by rewrite fmap_is_Some.
  - intros j. rewrite Hfree. rewrite list_lookup_alter. destruct (decide (i = j)) as [->|]; [|done].
    split.
    + intros (slot & Hs & Ht). rewrite Hs. simpl. eexists. split; [done|]. simpl. by rewrite Ht.
    + intros (slot & (slot0 & Hs0 & ->)%fmap_Some & Ht). simpl in Ht.
      exists slot0. split; [done|]. by apply fmap_None in Ht.
Qed.

Lemma shape_alter_cpu N s f c :
  shape_ok N s →
  (∀ st, rq_capacity (cs_ready_queue (f st)) = rq_capacity (cs_ready_queue st)) →
  shape_ok N (alter_cpu f c s).
Proof.
  intros [] Hf. split; try done; unfold alter_cpu; simpl.
  - by rewrite length_alter.
  - intros c' st Hc. rewrite list_lookup_alter in Hc. destruct (decide (c = c')) as [->|]; [|eauto].
    apply fmap_Some in Hc as (st0 & Hs0 & ->). rewrite Hf. eauto.
Qed.

Lemma shape_alter_remote N s f c :
  shape_ok N s → (∀ q, rq_capacity (f q) = rq_capacity q) →
  shape_ok N (set_remote_ready (alter f c (remote_ready s)) s).
Proof.
  intros [] Hf. split; try done; simpl.
  - by rewrite length_alter.
  - intros c' q Hc. rewrite list_lookup_alter in Hc. destruct (decide (c = c')) as [->|]; [|eauto].
    apply fmap_Some in Hc as (q0 & Hq0 & ->). rewrite Hf. eauto.
Qed.

Lemma shape_insert_ipi N s b c :
  shape_ok N s → shape_ok N (set_ipi_pending (<[c := b]> (scheduler_ipi_pending s)) s).
Proof. intros []. split; try done. simpl. by rewrite length_insert. Qed.

#[export] Hint Resolve shape_alter_thread shape_alter_cpu shape_alter_remote shape_insert_ipi : shape.

(** ** Views of a changed scheduler *)

Lemma remote_alter s f c c' :
  c < length (remote_ready s) →
  remote (set_remote_ready (alter (λ q, set_rq_items (f (rq_items q)) q) c (remote_ready s)) s) c'
  = if decide (c = c') then f (remote s c) else remote s c'.
Proof.
  intros Hc. unfold remote. simpl. rewrite list_lookup_alter.
  destruct (decide (c = c')) as [->|]; [|done].
  by apply lookup_lt_is_Some_2 in Hc as [q ->].
Qed.

Lemma ipi_insert s b c c' :
  c < length (scheduler_ipi_pending s) →
  ipi (set_ipi_pending (<[c := b]> (scheduler_ipi_pending s)) s) c'
  = if decide (c = c') then b else ipi s c'.
Proof.
  intros Hc. unfold ipi. simpl. rewrite list_lookup_insert.
  destruct (decide (c = c')) as [->|]; case_decide; naive_solver.
Qed.

(** [s'] has the threads of [s] except for what is now under [tid]. *)
Definition thread_changed (s s' : Scheduler) (tid : ThreadId) (ot : option Thread) : Prop :=
  ∀ x, table_get s' x = if decide (x = tid) then ot else table_get s x.

Lemma alter_thread_changed s f tid t :
  live s tid t → thread_changed s (alter_thread f (tid_index tid) s) tid (Some (f t)).
Proof.
  intros Hl x. rewrite table_get_alter. destruct (decide (x = tid)) as [->|Hne].
  - by rewrite decide_True, Hl.
  - destruct (decide _) as [Hi|]; [|done]. destruct (table_get s x) eqn:Hx; [|done].
    exfalso. apply Hne. by eapply live_index_inj.
Qed.

Lemma changed_live s s' tid ot x tx :
  thread_changed s s' tid ot → live s' x tx → x = tid ∧ ot = Some tx ∨ x ≠ tid ∧ live s x tx.
Proof. intros Hch. unfold live. rewrite Hch. destruct (decide (x = tid)); naive_solver. Qed.

Lemma changed_self s s' tid t' : thread_changed s s' tid (Some t') → live s' tid t'.
Proof. intros Hch. unfold live. by rewrite Hch, decide_True. Qed.

Lemma changed_other s s' tid ot x tx :
  thread_changed s s' tid ot → x ≠ tid → live s x tx → live s' x tx.
Proof. intros Hch Hne. unfold live. by rewrite Hch, decide_False. Qed.

(** The state of the changed thread, seen from the CPU [c]. *)
Definition seen_from (c : CpuId) (ot : option Thread) : option ThreadState :=
  match ot with Some t => if decide (t_home_cpu t = c) then Some (t_state t) else None | None => None end.

Lemma changed_state_on s s' tid ot c x :
  thread_changed s s' tid ot → state_on s' c x = upd (state_on s c) tid (seen_from c ot) x.
Proof. intros Hch. unfold state_on, upd, seen_from. rewrite Hch. by destruct (decide (x = tid)). Qed.

(** A token is held as a joiner of some live thread. *)
Definition joined (s : Scheduler) (tok : WaitToken) : Prop :=
  ∃ x tx, live s x tx ∧ t_joiner tx = Some tok.

Lemma joiners_ok_thread s s' tid t t' :
  joiners_ok s → live s tid t → thread_changed s s' tid (Some t') →
  t_home_cpu t' = t_home_cpu t → t_joiner t' = t_joiner t → t_joinable t' = t_joinable t →
  (∀ tok, joined s tok → wt_thread tok = tid →
     t_wait t' = t_wait t ∧ t_last_join_result t' = t_last_join_result t ∧
     t_reaped_user t' = t_reaped_user t) →
  (∀ x tx, x ≠ tid → live s x tx → t_state tx = Exited →
     is_Some (t_joiner tx) ∨ t_joinable tx = false → ret s' (t_home_cpu tx) = ret s (t_home_cpu tx)) →
  (t_state t' = Exited → is_Some (t_joiner t) ∨ t_joinable t = false → ret s' (t_home_cpu t) = Some tid) →
  joiners_ok s'.
Proof.
  intros [Hb Hi He Hjb] Hl Hch Hh Hj Hjn Hw Hret Hself.
  assert (∀ x tx', live s' x tx' → ∃ tx, live s x tx ∧ t_joiner tx' = t_joiner tx ∧
            t_joinable tx' = t_joinable tx) as Hback.
  { intros x tx' [[-> ?]|[Hne ?]]%(changed_live _ _ _ _ _ _ Hch); simplify_eq; eauto. }
  split.
  - intros x tx' tok Hx Htok. destruct (Hback _ _ Hx) as (tx & Hlx & Heq & _). rewrite Heq in Htok.
    destruct (Hb _ _ _ Hlx Htok) as (j & Hlj & Ha & Hr & Hu).
    destruct (decide (wt_thread tok = tid)) as [Htid|Hne].
    + destruct (Hw tok) as (Hw1 & Hw2 & Hw3); [by exists x, tx|done|].
      rewrite Htid in Hlj |- *. rewrite (live_fun _ _ _ _ Hlj Hl) in *.
      exists t'. split; [by eapply changed_self|]. by rewrite Hw1, Hw2, Hw3.
    + exists j. split; [by eapply changed_other|done].
  - intros x1 t1 x2 t2 tok H1 H2 E1 E2. destruct (Hback _ _ H1) as (u1 & L1 & F1 & _).
    destruct (Hback _ _ H2) as (u2 & L2 & F2 & _). apply (Hi x1 u1 x2 u2 tok); congruence.
  - intros x tx' [[-> ?]|[Hne Hx]]%(changed_live _ _ _ _ _ _ Hch) Hst Hor; simplify_eq.
    + rewrite Hh. apply Hself; [done|]. by rewrite <-Hj, <-Hjn.
    + rewrite (Hret x tx') by done. by apply He.
  - intros x tx' tok Hx Htok. destruct (Hback _ _ Hx) as (tx & Hlx & Heq & ->). rewrite Heq in Htok. eauto.
Qed.

(** CPUs other than [c] are as before. *)
Definition cpus_same_but (c : CpuId) (s s' : Scheduler) : Prop :=
  ∀ c', c' ≠ c → cst s' c' = cst s c' ∧ remote s' c' = remote s c' ∧ ipi s' c' = ipi s c'.

Lemma joiners_ok_new s s' tid t' :
  joiners_ok s → table_get s tid = None → thread_changed s s' tid (Some t') →
  t_joiner t' = None → t_state t' = Ready → (∀ c, ret s' c = ret s c) → joiners_ok s'.
Proof.
  intros [Hb Hi He Hjb] Hn Hch Hj Hst Hret.
  assert (∀ x tx tok, live s' x tx → t_joiner tx = Some tok → live s x tx) as Hback.
  { intros x tx tok [[-> ?]|[Hne ?]]%(changed_live _ _ _ _ _ _ Hch) ?; simplify_eq; done. }
  split.
  - intros x tx tok Hx Htok. destruct (Hb _ _ _ (Hback _ _ _ Hx Htok) Htok) as (j & Hlj & ?).
    exists j. split; [|done]. eapply changed_other; [done| |done]. intros Heq.
    unfold live in Hlj. rewrite Heq in Hlj. congruence.
  - intros x1 t1 x2 t2 tok H1 H2 E1 E2. eapply Hi; eauto.
  - intros x tx [[-> ?]|[Hne Hx]]%(changed_live _ _ _ _ _ _ Hch) Hx' Hor; simplify_eq; [congruence|].
    rewrite Hret. by apply He.
  - intros x tx tok Hx Htok. eapply Hjb; eauto.
Qed.

(** Reclaiming an exited thread that no one is registered to join. *)
Lemma joiners_ok_release s s' tid t :
  joiners_ok s → live s tid t → thread_changed s s' tid None →
  wait_is_blocked (t_wait t) = false →
  (∀ x c, x ≠ tid → ret s c = Some x → ret s' c = Some x) → joiners_ok s'.
Proof.
  intros [Hb Hi He Hjb] Hl Hch Hw Hret.
  assert (∀ x tx, live s' x tx → x ≠ tid ∧ live s x tx) as Hback.
  { intros x tx [[-> ?]|?]%(changed_live _ _ _ _ _ _ Hch); done. }
  split.
  - intros x tx tok [_ Hx]%Hback Htok. destruct (Hb _ _ _ Hx Htok) as (j & Hlj & Ha & ?).
    exists j. split; [|done]. eapply changed_other; [done| |done]. intros Heq. rewrite Heq in Hlj.
    rewrite (live_fun _ _ _ _ Hlj Hl) in Ha. unfold wait_is_blocked in Hw. by rewrite Ha in Hw.
  - intros x1 t1 x2 t2 tok [_ H1]%Hback [_ H2]%Hback E1 E2. by eapply Hi.
  - intros x tx [Hne Hx]%Hback Hst Hor. eapply Hret; [done|]. by apply He.
  - intros x tx tok [_ Hx]%Hback Htok. eauto.
Qed.

(** ** One thread changes

    [ot] is the new record of [tid], or [None] when it is reclaimed; [c] is
    its home. *)
Lemma sched_ok_thread N gap gap' s s' c tid ot :
  sched_ok N gap s → thread_changed s s' tid ot → shape_ok N s' →
  (∀ t, live s tid t → t_home_cpu t = c) →
  (∀ t', ot = Some t' → t_home_cpu t' = c ∧ thread_ok tid t') →
  cpus_same_but c s s' → (∀ c', c' ≠ c → gap' = Some c' ↔ gap = Some c') →
  cpu_inv (bool_decide (gap' = Some c)) (cst s' c) (remote s' c) (ipi s' c)
          (upd (state_on s c) tid (t_state <$> ot)) →
  (∀ x, idl s' c = Some x → x = tid ∨ idl s c = Some x) →
  (∀ t', idl s' c = Some tid → ot = Some t' → t_user t' = None) →
  joiners_ok s' →
  sched_ok N gap' s'.
Proof.
  intros Hok Hch Hshape Hhome Hnew Hsame Hgap Hcpu Hidl Huser Hj. split; [done| | | |done].
  - intros x tx [[-> ?]|[_ Hx]]%(changed_live _ _ _ _ _ _ Hch); [by apply Hnew|]. by eapply so_threads.
  - intros c' Hc'. destruct (decide (c' = c)) as [->|Hne].
    + eapply cpu_inv_ext; [|exact Hcpu]. intros x. rewrite (changed_state_on _ _ _ _ _ _ Hch).
      unfold upd. destruct (decide (x = tid)); [|done]. destruct ot as [t'|]; simpl; [|done].
      by rewrite decide_True by (by apply Hnew).
    + destruct (Hsame c' Hne) as (-> & -> & ->).
      rewrite (bool_decide_ext (gap' = Some c') (gap = Some c')) by auto.
      eapply cpu_inv_ext; [|by apply (so_cpu _ _ _ Hok)]. intros x.
      rewrite (changed_state_on _ _ _ _ _ _ Hch). unfold upd. destruct (decide (x = tid)) as [->|]; [|done].
      transitivity (@None ThreadState).
      * destruct ot as [t'|]; simpl; [|done]. rewrite decide_False; [done|].
        destruct (Hnew t' eq_refl). congruence.
      * unfold state_on. destruct (table_get s tid) eqn:Ht; [|done]. rewrite decide_False; [done|].
        rewrite (Hhome _ Ht). done.
  - intros c' x tx Hc' Hi Hx. destruct (decide (c' = c)) as [->|Hne].
    + apply (changed_live _ _ _ _ _ _ Hch) in Hx as [[-> ?]|[Hne Hx]]; [by eapply Huser|].
      destruct (Hidl x Hi); [done|]. by eapply so_idle_user.
    + unfold idl in Hi. rewrite (proj1 (Hsame c' Hne)) in Hi.
      destruct (idle_live Hok c' x Hc' Hi) as (t0 & Hl0 & Hh0 & Hu0 & _).
      apply (changed_live _ _ _ _ _ _ Hch) in Hx as [[-> ?]|[_ Hx]].
      * apply Hhome in Hl0. congruence.
      * by rewrite (live_fun _ _ _ _ Hx Hl0).
Qed.

(** Only CPU-local facts change: no thread record does. *)
Lemma sched_ok_cpu N gap gap' s s' c :
  sched_ok N gap s → (∀ x, table_get s' x = table_get s x) → shape_ok N s' →
  cpus_same_but c s s' → (∀ c', c' ≠ c → gap' = Some c' ↔ gap = Some c') →
  (c < KERNEL_CPU_CAPACITY →
   cpu_inv (bool_decide (gap' = Some c)) (cst s' c) (remote s' c) (ipi s' c) (state_on s c)) →
  idl s' c = idl s c →
  (∀ x tx, live s x tx → t_home_cpu tx = c → t_state tx = Exited →
     is_Some (t_joiner tx) ∨ t_joinable tx = false → ret s' c = Some x) →
  sched_ok N gap' s'.
Proof.
  intros Hok Hget Hshape Hsame Hgap Hcpu Hidl Hret.
  assert (∀ x tx, live s' x tx ↔ live s x tx) as Hlive by (intros; unfold live; by rewrite Hget).
  assert (∀ c' x, state_on s' c' x = state_on s c' x) as Hst by (intros; unfold state_on; by rewrite Hget).
  split; [done| | | |].
  - intros x tx Hx%Hlive. by eapply so_threads.
  - intros c' Hc'. eapply cpu_inv_ext; [by intros; apply Hst|].
    destruct (decide (c' = c)) as [->|Hne]; [by apply Hcpu|].
    destruct (Hsame c' Hne) as (-> & -> & ->).
    rewrite (bool_decide_ext (gap' = Some c') (gap = Some c')) by auto. by apply (so_cpu _ _ _ Hok).
  - intros c' x tx Hc' Hi Hx%Hlive. destruct (decide (c' = c)) as [->|Hne].
    + rewrite Hidl in Hi. by eapply so_idle_user.
    + unfold idl in Hi. rewrite (proj1 (Hsame c' Hne)) in Hi. by eapply so_idle_user.
  - destruct (so_joiners _ _ _ Hok) as [Hb Hi He Hjb]. split.
    + intros x tx tok Hx%Hlive Htok. destruct (Hb _ _ _ Hx Htok) as (j & Hj & ?). exists j. by rewrite Hlive.
    + intros x1 t1 x2 t2 tok H1%Hlive H2%Hlive. by eapply Hi.
    + intros x tx Hx%Hlive Hs Hor. destruct (decide (t_home_cpu tx = c)) as [<-|Hne]; [by eapply Hret|].
      unfold ret. rewrite (proj1 (Hsame _ Hne)). by apply He.
    + intros x tx tok Hx%Hlive. eauto.
Qed.

(** * The scheduler moves as pure functions *)

(** ** Moves *)

(** The current thread goes to the tail of its queue; idle never queues. *)
Definition leave_ready_s (from : ThreadId) (c : CpuId) (s : Scheduler) : Scheduler :=
  alter_cpu (λ st, set_cs_current None
               (if decide (cs_idle st = Some from) then st
                else set_cs_ready (queue_of st ++ [from]) st)) c
    (alter_thread (set_t_state Ready) (tid_index from) s).

(** The current thread blocks in the wait it has just committed. *)
Definition leave_blocked_s (from : ThreadId) (wm : WaitMetadata) (c : CpuId) (s : Scheduler) : Scheduler :=
  alter_cpu (set_cs_current None) c
    (alter_thread (λ t, set_t_state Blocked (set_t_wait wm t)) (tid_index from) s).

(** The current thread exits and becomes the CPU's retired thread; the CPU
    owes itself a notification to finalize it. *)
Definition leave_exited_s (from : ThreadId) (code : Z) (c : CpuId) (s : Scheduler) : Scheduler :=
  alter_cpu (λ st, set_cs_current None (set_cs_retired (Some from) st)) c
    (alter_thread (λ t, set_t_state Exited (set_t_exit_code (Some code) t)) (tid_index from)
       (set_ipi_pending (<[c := true]> (scheduler_ipi_pending s)) s)).

(** The selected thread becomes current; [rest] is what stays queued. *)
Definition enter_s (to : ThreadId) (rest : list ThreadId) (c : CpuId) (s : Scheduler) : Scheduler :=
  alter_cpu (λ st, set_cs_current (Some to) (set_cs_ready rest st)) c
    (alter_thread (set_t_state Running) (tid_index to) s).

(** Whom the selection takes: the head of the queue, or idle. *)
Definition selects (s : Scheduler) (c : CpuId) (to : ThreadId) (rest : list ThreadId) : Prop :=
  ready s c = to :: rest ∨ ready s c = [] ∧ rest = [] ∧ idl s c = Some to.

(** A blocked thread becomes ready on its own CPU, or in the ingress of
    another one. *)
Definition wake_local_s (tid : ThreadId) (wm : WaitMetadata) (c : CpuId) (s : Scheduler) : Scheduler :=
  alter_cpu (λ st, set_cs_ready (queue_of st ++ [tid]) st) c
    (alter_thread (λ t, set_t_state Ready (set_t_wait wm t)) (tid_index tid) s).

Definition wake_remote_s (tid : ThreadId) (wm : WaitMetadata) (c : CpuId) (s : Scheduler) : Scheduler :=
  set_ipi_pending (<[c := true]> (scheduler_ipi_pending s))
    (set_remote_ready (alter (λ q, set_rq_items (rq_items q ++ [tid]) q) c (remote_ready s))
       (alter_thread (λ t, set_t_state Ready (set_t_wait wm t)) (tid_index tid) s)).

(** ** Updating one thread and its CPU *)

Lemma joined_blocked N gap s tok t :
  sched_ok N gap s → joined s tok → live s (wt_thread tok) t →
  t_state t = Blocked ∧ active (t_wait t) = Some (mkActiveWait tok PhaseBlocked Explicit).
Proof.
  intros Hok (x & tx & Hx & Htok) Hl.
  destruct (jk_blocked _ (so_joiners _ _ _ Hok) _ _ _ Hx Htok) as (j & Hj & Ha & _).
  rewrite (live_fun _ _ _ _ Hj Hl) in *. split; [|done].
  apply (wk_blocked _ _ (tk_wait _ _ (so_threads _ _ _ Hok _ _ Hl))). unfold wait_is_blocked. by rewrite Ha.
Qed.

(** The fields that make a thread joinable by others stay as they are. *)
Record keeps_thread (f : Thread → Thread) (t : Thread) : Prop := {
  kt_home : t_home_cpu (f t) = t_home_cpu t;
  kt_joiner : t_joiner (f t) = t_joiner t;
  kt_joinable : t_joinable (f t) = t_joinable t;
  kt_user : t_user t = None → t_user (f t) = None
}.

(** What a joiner's target relies on in the joiner's record. *)
Definition joiner_view (t : Thread) := (t_wait t, t_last_join_result t, t_reaped_user t).

Record keeps_cpu (g : CpuSchedulerState → CpuSchedulerState) : Prop := {
  kc_idle : ∀ st, cs_idle (g st) = cs_idle st;
  kc_capacity : ∀ st, rq_capacity (cs_ready_queue (g st)) = rq_capacity (cs_ready_queue st)
}.

Section update.
Context {N : nat} {gap gap' : option CpuId} {s : Scheduler} {c : CpuId} {tid : ThreadId} {t : Thread}.
Context {f : Thread → Thread} {g : CpuSchedulerState → CpuSchedulerState}.
Hypothesis Hok : sched_ok N gap s.
Hypothesis Hl : live s tid t.
Hypothesis Hc : t_home_cpu t = c.
Hypothesis Hf : keeps_thread f t.
Hypothesis Hg : keeps_cpu g.
Hypothesis Hgap : ∀ c', c' ≠ c → gap' = Some c' ↔ gap = Some c'.

Lemma home_bound : c < KERNEL_CPU_CAPACITY.
Proof. rewrite <-Hc. by eapply live_home_lt. Qed.

Lemma cst_update c' :
  cst (alter_cpu g c (alter_thread f (tid_index tid) s)) c' = if decide (c = c') then g (cst s c) else cst s c'.
Proof.
  rewrite cst_alter_cpu; [done|]. simpl. rewrite (sh_cpus _ _ (so_shape _ _ _ Hok)). apply home_bound.
Qed.

Lemma sched_ok_update :
  thread_ok tid (f t) →
  (joiner_view (f t) = joiner_view t ∨ (∀ tok, joined s tok → wt_thread tok ≠ tid)) →
  (cs_retired (g (cst s c)) = ret s c ∨ ret s c = None ∧ cs_retired (g (cst s c)) = Some tid) →
  (t_state (f t) = Exited → is_Some (t_joiner t) ∨ t_joinable t = false →
     cs_retired (g (cst s c)) = Some tid) →
  cpu_inv (bool_decide (gap' = Some c)) (g (cst s c)) (remote s c) (ipi s c)
          (upd (state_on s c) tid (Some (t_state (f t)))) →
  sched_ok N gap' (alter_cpu g c (alter_thread f (tid_index tid) s)).
Proof.
  intros Hthread Hwait Hret Hexit Hcpu. pose proof cst_update as Hcst. pose proof home_bound as Hb.
  set (s' := alter_cpu g c (alter_thread f (tid_index tid) s)) in *.
  assert (thread_changed s s' tid (Some (f t))) as Hch by (by apply (alter_thread_changed s f tid t)).
  destruct Hf, Hg.
  apply (sched_ok_thread N gap gap' s s' c tid (Some (f t))); try done.
  - apply shape_alter_cpu; [by apply shape_alter_thread, Hok|done].
  - intros t0 Hl0. by rewrite (live_fun _ _ _ _ Hl0 Hl).
  - intros t' [= <-]. by rewrite kt_home0.
  - intros c' Hne. rewrite Hcst, decide_False by done. done.
  - by rewrite Hcst, decide_True by done.
  - intros x Hx. right. unfold idl in *. rewrite Hcst, decide_True in Hx by done. congruence.
  - intros t' Hi [= <-]. unfold idl in Hi. rewrite Hcst, decide_True in Hi by done.
    apply kt_user0. eapply (so_idle_user _ _ _ Hok); [exact Hb| |done]. unfold idl. congruence.
  - apply (joiners_ok_thread s s' tid t (f t)); try done; [by apply Hok| | |].
    + intros tok Hj Htok. destruct Hwait as [Hv|Hno]; [|by destruct (Hno tok)].
      unfold joiner_view in Hv. by simplify_eq.
    + intros x tx Hne Hx Hst Hor. unfold ret. rewrite Hcst. destruct (decide _) as [Heq|]; [|done].
      rewrite <-Heq. destruct Hret as [->|[Hnone _]]; [done|].
      pose proof (jk_exited _ (so_joiners _ _ _ Hok) x tx Hx Hst Hor) as Hr. congruence.
    + intros Hst Hor. unfold ret. rewrite Hcst, Hc, decide_True by done. auto.
Qed.
End update.

(** Only the thread record changes. *)
Lemma sched_ok_record N gap s tid t f :
  sched_ok N gap s → live s tid t → keeps_thread f t → thread_ok tid (f t) → t_state (f t) = t_state t →
  (joiner_view (f t) = joiner_view t ∨ (∀ tok, joined s tok → wt_thread tok ≠ tid)) →
  sched_ok N gap (alter_thread f (tid_index tid) s).
Proof.
  intros Hok Hl Hf Ht Hst Hw.
  assert (alter_thread f (tid_index tid) s = alter_cpu id (t_home_cpu t) (alter_thread f (tid_index tid) s)) as ->.
  { unfold alter_cpu, set_cpus, alter_thread, set_slots. simpl. f_equal. symmetry. apply list_alter_id. done. }
  eapply sched_ok_update; try done.
  - by left.
  - rewrite Hst. intros. by eapply (jk_exited _ (so_joiners _ _ _ Hok)).
  - rewrite Hst. eapply cpu_inv_ext; [|apply (so_cpu _ _ _ Hok), (live_home_lt Hok _ _ Hl)].
    intros x. unfold upd. destruct (decide (x = tid)) as [->|]; [|done]. symmetry. by apply state_on_live.
Qed.

Lemma sched_ok_ipi N gap s c :
  sched_ok N gap s → sched_ok N gap (set_ipi_pending (<[c := true]> (scheduler_ipi_pending s)) s).
Proof.
  intros Hok. pose proof (sh_ipi _ _ (so_shape _ _ _ Hok)) as Hlen.
  set (s' := set_ipi_pending _ s).
  eapply (sched_ok_cpu N gap gap s s' c); try done.
  - apply shape_insert_ipi, Hok.
  - intros c' Hne. split_and!; [done|done|]. unfold s'. destruct (decide (c < KERNEL_CPU_CAPACITY)).
    + by rewrite ipi_insert, decide_False by (rewrite ?Hlen; done).
    + unfold ipi. simpl. by rewrite list_lookup_insert_ne.
  - intros Hc. unfold s'. rewrite ipi_insert, decide_True by (rewrite ?Hlen; done).
    eapply cpu_inv_ipi. by apply (so_cpu _ _ _ Hok).
  - intros x tx Hx <- Hst Hor. by apply (jk_exited _ (so_joiners _ _ _ Hok)).
Qed.

(** ** Every move keeps the invariant *)

Section moves.
Context {N : nat} {s : Scheduler} {c : CpuId}.
Hypothesis Hc : c < KERNEL_CPU_CAPACITY.

Lemma gap_open c' : c' ≠ c → Some c = Some c' ↔ @None CpuId = Some c'.
Proof. naive_solver. Qed.
Lemma gap_close c' : c' ≠ c → @None CpuId = Some c' ↔ Some c = Some c'.
Proof. naive_solver. Qed.

Lemma set_state_ok tid t x :
  thread_ok tid t → t_state t ≠ Blocked → x ≠ Blocked → x ≠ Exited →
  (wait_is_prepared (t_wait t) = true → x = Running) →
  (wait_is_completed (t_wait t) = true → x = Ready ∨ x = Running) →
  thread_ok tid (set_t_state x t).
Proof.
  intros [? [Hb ? ? ? ?] ? ? ?] Hnb Hx Hx' Hp Hcm. split; try done. split; try done.
  simpl. rewrite Hb. done.
Qed.

Lemma running_not_joiner tid t :
  sched_ok N None s → live s tid t → t_state t ≠ Blocked → ∀ tok, joined s tok → wt_thread tok ≠ tid.
Proof. intros Hok Hl Hst tok Hj <-. by destruct (joined_blocked _ _ _ _ _ Hok Hj Hl). Qed.

Lemma sched_leave_ready from t :
  sched_ok N None s → cur s c = Some from → live s from t → wait_is_prepared (t_wait t) = false →
  sched_ok N (Some c) (leave_ready_s from c s).
Proof.
  intros Hok Hcur Hl Hp. destruct (current_live Hok c from Hc Hcur) as (t0 & Hl0 & Hh & Hst).
  rewrite (live_fun _ _ _ _ Hl0 Hl) in *.
  apply (sched_ok_update Hok Hl Hh).
  - by split.
  - split; intros st; by destruct (decide _).
  - by apply gap_open.
  - apply set_state_ok; [by eapply so_threads|congruence|done|done| |by left]. congruence.
  - by left.
  - left. by destruct (decide _).
  - done.
  - rewrite bool_decide_true by done. simpl.
    apply leave_ready; [|done]. exact (so_cpu _ _ _ Hok c Hc).
Qed.

Lemma sched_leave_blocked from t wm a :
  sched_ok N None s → cur s c = Some from → live s from t → idl s c ≠ Some from →
  next_sequence wm = next_sequence (t_wait t) → active (t_wait t) = Some a →
  active wm = Some (set_phase a PhaseBlocked) →
  sched_ok N (Some c) (leave_blocked_s from wm c s).
Proof.
  intros Hok Hcur Hl Hi Hseq Ha Hwm. destruct (current_live Hok c from Hc Hcur) as (t0 & Hl0 & Hh & Hst).
  rewrite (live_fun _ _ _ _ Hl0 Hl) in *. pose proof (so_threads _ _ _ Hok _ _ Hl) as [? [] ? ? ?].
  apply (sched_ok_update Hok Hl Hh).
  - by split.
  - by split.
  - by apply gap_open.
  - split; try done. split; simpl; unfold wait_is_blocked, wait_is_prepared, wait_is_completed;
      rewrite ?Hwm, ?Hseq; simpl; try done. intros a' ?. simplify_eq/=. eauto.
  - right. eapply running_not_joiner; [done..|congruence].
  - by left.
  - done.
  - rewrite bool_decide_true by done. simpl.
    apply (leave_gone (ip:=ipi s c) from Blocked (ret s c) (ipi s c)); auto. exact (so_cpu _ _ _ Hok c Hc).
Qed.

Lemma sched_leave_exited from t code :
  sched_ok N None s → cur s c = Some from → live s from t → idl s c ≠ Some from → ret s c = None →
  active (t_wait t) = None →
  sched_ok N (Some c) (leave_exited_s from code c s).
Proof.
  intros Hok Hcur Hl Hi Hret Ha. destruct (current_live Hok c from Hc Hcur) as (t0 & Hl0 & Hh & Hst).
  rewrite (live_fun _ _ _ _ Hl0 Hl) in *. pose proof (so_threads _ _ _ Hok _ _ Hl) as [? [] ? ? ?].
  pose proof (sched_ok_ipi _ _ _ c Hok) as Hok1.
  apply (sched_ok_update (s:=set_ipi_pending _ s) (gap:=None) Hok1 Hl Hh).
  - by split.
  - by split.
  - by apply gap_open.
  - split; simpl; try done. split; simpl; try done; unfold wait_is_blocked, wait_is_prepared, wait_is_completed;
      rewrite ?Ha; done.
  - by left.
  - right. done.
  - done.
  - rewrite bool_decide_true by done. rewrite ipi_insert, decide_True
      by (rewrite ?(sh_ipi _ _ (so_shape _ _ _ Hok)); done).
    apply (leave_gone (ip:=ipi s c) from Exited (Some from) true); auto.
    exact (so_cpu _ _ _ Hok c Hc).
Qed.

Lemma sched_enter to t rest :
  sched_ok N (Some c) s → cur s c = None → selects s c to rest → live s to t →
  sched_ok N None (enter_s to rest c s).
Proof.
  intros Hok Hcur Hsel Hl. pose proof (so_cpu _ _ _ Hok c Hc) as Hinv. rewrite bool_decide_true in Hinv by done.
  assert (cpu_inv false (set_cs_current (Some to) (set_cs_ready rest (cst s c))) (remote s c) (ipi s c)
            (upd (state_on s c) to (Some Running))) as Hinv'.
  { destruct Hsel as [Hq|(Hq & -> & Hi)]; [by apply enter_head|by apply enter_idle]. }
  assert (state_on s c to = Some Ready) as Hrdy.
  { destruct Hsel as [Hq|(Hq & -> & Hi)].
    - apply (queued_iff _ _ _ _ _ to Hinv). unfold ready in Hq. rewrite Hq. apply list_elem_of_here.
    - destruct (ci_idle _ _ _ _ _ Hinv to Hi) as [|Hr%(ci_current _ _ _ _ _ Hinv)]; [done|]. unfold cur in Hcur. congruence. }
  apply state_on_Some in Hrdy as (t0 & Hl0 & Hh & Hst). rewrite (live_fun _ _ _ _ Hl0 Hl) in *.
  pose proof (so_threads _ _ _ Hok _ _ Hl) as Ht.
  apply (sched_ok_update Hok Hl Hh).
  - by split.
  - by split.
  - by apply gap_close.
  - apply set_state_ok; [done|congruence|done|done|done|by right].
  - by left.
  - by left.
  - done.
  - done.
Qed.

(** A blocked thread, its wait completed, becomes ready. *)
Definition woken (wm wm' : WaitMetadata) : Prop :=
  next_sequence wm' = next_sequence wm ∧
  (active wm' = None ∨ ∃ a cause, active wm = Some a ∧ active wm' = Some (set_phase a (Completed cause))).

Lemma woken_ok tid t wm :
  thread_ok tid t → t_state t = Blocked → woken (t_wait t) wm → thread_ok tid (set_t_state Ready (set_t_wait wm t)).
Proof.
  intros [? [] ? ? ?] Hst (Hseq & Ha). split; try done.
  split; simpl; unfold wait_is_blocked, wait_is_prepared, wait_is_completed; rewrite ?Hseq; try done;
    destruct Ha as [->|(a & cause & Ha & ->)]; simpl; try done; auto.
  intros a' ?. simplify_eq/=. eauto.
Qed.

Lemma sched_wake_local tid t wm :
  sched_ok N None s → live s tid t → t_home_cpu t = c → t_state t = Blocked → woken (t_wait t) wm →
  (∀ tok, joined s tok → wt_thread tok ≠ tid) →
  sched_ok N None (wake_local_s tid wm c s).
Proof.
  intros Hok Hl Hh Hst Hw Hj. pose proof (so_threads _ _ _ Hok _ _ Hl) as Ht.
  apply (sched_ok_update Hok Hl Hh); try done.
  - by apply woken_ok.
  - by right.
  - by left.
  - simpl. apply wake_local; [exact (so_cpu _ _ _ Hok c Hc)| |].
    + left. rewrite <-Hst, <-Hh. by apply state_on_live.
    + rewrite <-Hh. by apply (home_idle Hok tid t).
Qed.

Lemma sched_wake_remote tid t wm :
  sched_ok N None s → live s tid t → t_home_cpu t = c → t_state t = Blocked → woken (t_wait t) wm →
  (∀ tok, joined s tok → wt_thread tok ≠ tid) →
  sched_ok N None (wake_remote_s tid wm c s).
Proof.
  intros Hok Hl Hh Hst Hw Hj. pose proof (so_threads _ _ _ Hok _ _ Hl) as Ht.
  set (f := λ t, set_t_state Ready (set_t_wait wm t)).
  assert (thread_changed s (wake_remote_s tid wm c s) tid (Some (f t))) as Hch
    by (by apply (alter_thread_changed s f tid t)).
  pose proof (sh_remote _ _ (so_shape _ _ _ Hok)) as Hrl. pose proof (sh_ipi _ _ (so_shape _ _ _ Hok)) as Hil.
  assert (∀ c', remote (wake_remote_s tid wm c s) c' = if decide (c = c') then remote s c ++ [tid] else remote s c') as Hrem.
  { intros c'. apply (remote_alter s (λ l, l ++ [tid]) c c'). by rewrite Hrl. }
  assert (∀ c', ipi (wake_remote_s tid wm c s) c' = if decide (c = c') then true else ipi s c') as Hipi.
  { intros c'. apply (ipi_insert s true c c'). by rewrite Hil. }
  apply (sched_ok_thread N None None s _ c tid (Some (f t)) Hok Hch); try done.
  - eapply (shape_insert_ipi N (set_remote_ready (alter _ c (remote_ready s)) (alter_thread f (tid_index tid) s))).
    apply (shape_alter_remote N (alter_thread f (tid_index tid) s)); [|done]. apply shape_alter_thread, Hok.
  - intros t0 Hl0. by rewrite (live_fun _ _ _ _ Hl0 Hl).
  - intros t' [= <-]. split; [done|]. by apply woken_ok.
  - intros c' Hne. rewrite Hrem, Hipi, !decide_False by done. done.
  - rewrite Hrem, Hipi, !decide_True by done. simpl. apply (wake_remote (ip:=ipi s c)).
    + exact (so_cpu _ _ _ Hok c Hc).
    + left. rewrite <-Hst, <-Hh. by apply state_on_live.
    + rewrite <-Hh. by apply (home_idle Hok tid t).
  - intros x Hx. by right.
  - intros t' Hi [= <-]. exact (so_idle_user _ _ _ Hok c tid t Hc Hi Hl).
  - apply (joiners_ok_thread s _ tid t (f t)); try done; [by apply Hok|].
    intros tok Hj1 Hj2. by destruct (Hj tok).
Qed.
End moves.
