(* ===== verification/Lifecycle.v ===== *)
(** * Publication, retirement and reclamation keep the invariant

    The moves that fill or empty a slot of the thread table, the moves of the
    retired slot and the joiner links, the ingress drain and the start of a
    CPU, each as a pure function on the shared scheduler with the proof that
    it keeps the scheduler invariant. *)

From S2P Require Import Prelude Types Wait Context Vm Sched World CpuInv SchedInv Switch.

(** ** Moves *)

(** Put a thread into a slot with a generation; the slot's stack moves in. *)
Definition fill_s (id : nat) (generation : Z) (t : Thread) (s : Scheduler) : Scheduler :=
  set_slots (alter (λ slot, mkThreadSlot generation (sl_next_wait_sequence slot) None (Some t)) id
               (table_slots s)) s.

(** The thread a publication creates. *)
Definition fresh_thread (home : CpuId) (joinable : bool) (user : option UserThreadResources)
    (seq : Z) (stack : OwnedKernelStack) (context : TrapFrame) : Thread :=
  mkThread home Ready joinable None None None None user (with_next_sequence seq) stack context.

Definition queue_local_s (tid : ThreadId) (c : CpuId) (s : Scheduler) : Scheduler :=
  alter_cpu (λ st, set_cs_ready (queue_of st ++ [tid]) st) c s.

Definition queue_remote_s (tid : ThreadId) (c : CpuId) (s : Scheduler) : Scheduler :=
  set_ipi_pending (<[c := true]> (scheduler_ipi_pending s))
    (set_remote_ready (alter (λ q, set_rq_items (rq_items q ++ [tid]) q) c (remote_ready s)) s).

(** Empty a slot: its stack is parked and its sequence kept. *)
Definition release_s (tid : ThreadId) (s : Scheduler) : Scheduler :=
  set_free_slots (tid_index tid :: free_slots (lifecycle s))
    (set_slots (alter (λ slot,
        match sl_thread slot with
        | Some t => mkThreadSlot (sl_generation slot) (next_sequence (t_wait t)) (Some (t_stack t)) None
        | None => slot
        end) (tid_index tid) (table_slots s)) s).

(** Forget the retired thread of a CPU and its joiner. *)
Definition unretire_s (tid : ThreadId) (c : CpuId) (s : Scheduler) : Scheduler :=
  alter_thread (set_t_joiner None) (tid_index tid) (alter_cpu (set_cs_retired None) c s).

(** The ingress of a CPU moves to the tail of its queue, the notification is
    acknowledged. *)
Definition drain_s (c : CpuId) (s : Scheduler) : Scheduler :=
  set_ipi_pending (<[c := false]> (scheduler_ipi_pending s))
    (set_remote_ready (alter (set_rq_items []) c (remote_ready s))
       (alter_cpu (λ st, set_cs_ready (queue_of st ++ remote s c) st) c s)).

(** ** Filling a slot *)

Lemma table_get_fill id gen t s slot tid :
  table_slots s !! id = Some slot → sl_thread slot = None →
  table_get (fill_s id gen t s) tid = if decide (tid = mkThreadId id gen) then Some t else table_get s tid.
Proof.
  intros Hs Hn. unfold table_get, fill_s, table_slots in *. simpl. destruct tid as [i g]. simpl.
  destruct (decide (id = i)) as [<-|Hne].
  - rewrite list_lookup_alter_eq, Hs. simpl. rewrite Hn.
    destruct (decide (gen = g)) as [<-|Hg]; [by rewrite decide_True|].
    rewrite (decide_False (P := mkThreadId id g = _)) by congruence. by destruct (decide _).
  - rewrite list_lookup_alter_ne by done. by rewrite decide_False by congruence.
Qed.

Lemma free_dead s id gen slot :
  table_slots s !! id = Some slot → sl_thread slot = None → table_get s (mkThreadId id gen) = None.
Proof. intros Hs Hn. unfold table_get. simpl. rewrite Hs. by destruct (decide _). Qed.

Lemma shape_fill N s id gen t slot rest :
  shape_ok N s → table_slots s !! id = Some slot → sl_thread slot = None →
  free_slots (lifecycle s) = id :: rest → (0 <= gen <= u32_max)%Z →
  shape_ok N (set_free_slots rest (fill_s id gen t s)).
Proof.
  intros [H1 H2 H3 H4 H5 H6 Hslots Hfree Hnd] Hs Hn Hf Hg.
  unfold fill_s, table_slots in *. rewrite Hf in Hnd. apply NoDup_cons in Hnd as [Hnin Hnd].
  split; try done; unfold table_slots in *; simpl in *.
  - by rewrite length_alter.
  - intros i slot' Hi. destruct (decide (id = i)) as [<-|Hne].
    + rewrite list_lookup_alter_eq, Hs in Hi. simplify_eq/=. destruct (Hslots _ _ Hs).
      split; simpl; [|done|done]. split; eauto.
    + rewrite list_lookup_alter_ne in Hi by done. eauto.
  - intros i. pose proof (Hfree i) as Hi. rewrite Hf, elem_of_cons in Hi.
    destruct (decide (id = i)) as [<-|Hne].
    + rewrite list_lookup_alter_eq, Hs. simpl. split; [done|]. intros (? & ? & ?). by simplify_eq/=.
    + rewrite list_lookup_alter_ne by done. rewrite <-Hi. naive_solver.
Qed.

Lemma fresh_thread_ok id gen home joinable user seq stack context :
  home < KERNEL_CPU_CAPACITY → (1 <= gen <= u32_max)%Z → (0 <= seq <= u64_max)%Z →
  (∀ u, user = Some u → owner_cpu (ur_address_space u) = home ∧ joinable = true) →
  thread_ok (mkThreadId id gen) (fresh_thread home joinable user seq stack context).
Proof. intros Hh Hg Hs Hu. split; try done. Qed.

(** Publication of a fresh thread on a CPU that has its idle thread. *)
Section publish.
Context {N : nat} {s s' : Scheduler} {tid : ThreadId} {t : Thread} {c : CpuId}.
Hypothesis Hok : sched_ok N None s.
Hypothesis Hch : thread_changed s s' tid (Some t).
Hypothesis Hshape : shape_ok N s'.
Hypothesis Hdead : table_get s tid = None.
Hypothesis Hhome : t_home_cpu t = c.
Hypothesis Ht : thread_ok tid t.
Hypothesis Hready : t_state t = Ready.
Hypothesis Hjoiner : t_joiner t = None.

Lemma publish_bound : c < KERNEL_CPU_CAPACITY.
Proof. rewrite <-Hhome. apply Ht. Qed.

Lemma sched_publish :
  cpus_same_but c s s' →
  cpu_inv false (cst s' c) (remote s' c) (ipi s' c) (upd (state_on s c) tid (Some Ready)) →
  (∀ x, idl s' c = Some x → x = tid ∧ t_user t = None ∨ idl s c = Some x) →
  (∀ c', ret s' c' = ret s c') →
  sched_ok N None s'.
Proof.
  intros Hsame Hcpu Hidl Hret.
  apply (sched_ok_thread N None None s s' c tid (Some t)); try done.
  - intros t0. unfold live. by rewrite Hdead.
  - intros t' [= <-]. done.
  - simpl. by rewrite Hready.
  - intros x Hx. destruct (Hidl x Hx) as [[? _]|]; auto.
  - intros t' Hx [= <-]. destruct (Hidl tid Hx) as [[_ ?]|Hi]; [done|].
    destruct (idle_live Hok c tid publish_bound Hi) as (t0 & Hl & _). unfold live in Hl. congruence.
  - eapply (joiners_ok_new s s' tid t); try done. apply Hok.
Qed.
End publish.

(** The three ways to place the thread of a filled slot. *)
Section place.
Context {N : nat} {s s1 : Scheduler} {tid : ThreadId} {t : Thread} {c : CpuId}.
Hypothesis Hok : sched_ok N None s.
Hypothesis Hch : thread_changed s s1 tid (Some t).
Hypothesis Hshape : shape_ok N s1.
Hypothesis Hcpus : cpus s1 = cpus s.
Hypothesis Hremote : remote_ready s1 = remote_ready s.
Hypothesis Hipi : scheduler_ipi_pending s1 = scheduler_ipi_pending s.
Hypothesis Hdead : table_get s tid = None.
Hypothesis Hhome : t_home_cpu t = c.
Hypothesis Ht : thread_ok tid t.
Hypothesis Hready : t_state t = Ready.
Hypothesis Hjoiner : t_joiner t = None.

Lemma place_bound : c < KERNEL_CPU_CAPACITY.
Proof. rewrite <-Hhome. apply Ht. Qed.

Lemma place_cst c' : cst s1 c' = cst s c'.
Proof. unfold cst. by rewrite Hcpus. Qed.

Lemma place_alter f c' : cst (alter_cpu f c s1) c' = if decide (c = c') then f (cst s c) else cst s c'.
Proof.
  rewrite cst_alter_cpu, !place_cst; [done|]. rewrite Hcpus, (sh_cpus _ _ (so_shape _ _ _ Hok)). apply place_bound.
Qed.

Lemma sched_publish_local : is_Some (idl s c) → sched_ok N None (queue_local_s tid c s1).
Proof.
  intros Hidle. pose proof place_alter as Hcst. pose proof place_bound as Hb.
  apply (sched_publish (s:=s) (tid:=tid) (t:=t) (c:=c)); try done.
  - apply shape_alter_cpu; [done|by intros []].
  - intros c' Hne. unfold queue_local_s. rewrite Hcst, decide_False by done. split; [done|].
    unfold remote, ipi. simpl. by rewrite Hremote, Hipi.
  - unfold queue_local_s. rewrite Hcst, decide_True by done.
    unfold remote, ipi. simpl. rewrite Hremote, Hipi. apply wake_local; [by apply (so_cpu _ _ _ Hok)| |done].
    right. by apply state_on_dead.
  - intros x. unfold idl, queue_local_s. rewrite Hcst, decide_True by done. auto.
  - intros c'. unfold ret, queue_local_s. rewrite Hcst. by destruct (decide (c = c')) as [<-|].
Qed.

Lemma sched_publish_idle :
  idl s c = None → t_user t = None → sched_ok N None (alter_cpu (set_cs_idle (Some tid)) c s1).
Proof.
  intros Hidle Hu. pose proof place_alter as Hcst. pose proof place_bound as Hb.
  apply (sched_publish (s:=s) (tid:=tid) (t:=t) (c:=c)); try done.
  - apply shape_alter_cpu; [done|by intros []].
  - intros c' Hne. rewrite Hcst, decide_False by done. split; [done|].
    unfold remote, ipi. simpl. by rewrite Hremote, Hipi.
  - rewrite Hcst, decide_True by done. unfold remote, ipi. simpl. rewrite Hremote, Hipi.
    apply publish_idle; [by apply (so_cpu _ _ _ Hok)|done|by apply state_on_dead].
  - intros x. unfold idl. rewrite Hcst, decide_True by done. simpl. naive_solver.
  - intros c'. unfold ret. rewrite Hcst. by destruct (decide (c = c')) as [<-|].
Qed.

Lemma sched_publish_remote : is_Some (idl s c) → sched_ok N None (queue_remote_s tid c s1).
Proof.
  intros Hidle. pose proof place_bound as Hb.
  pose proof (sh_remote _ _ (so_shape _ _ _ Hok)) as Hrl. pose proof (sh_ipi _ _ (so_shape _ _ _ Hok)) as Hil.
  assert (∀ c', remote (queue_remote_s tid c s1) c' = if decide (c = c') then remote s c ++ [tid] else remote s c') as Hrem.
  { intros c'. etrans; [apply (remote_alter s1 (λ l, l ++ [tid]) c c'); by rewrite Hremote, Hrl|].
    unfold remote. by rewrite Hremote. }
  assert (∀ c', ipi (queue_remote_s tid c s1) c' = if decide (c = c') then true else ipi s c') as Hip.
  { intros c'. etrans; [apply (ipi_insert s1 true c c'); by rewrite Hipi, Hil|].
    unfold ipi. by rewrite Hipi. }
  assert (∀ c', cst (queue_remote_s tid c s1) c' = cst s c') as Hcst by apply place_cst.
  apply (sched_publish (s:=s) (tid:=tid) (t:=t) (c:=c)); try done.
  - apply (shape_insert_ipi N (set_remote_ready _ s1)), shape_alter_remote; done.
  - intros c' Hne. by rewrite Hcst, Hrem, Hip, !decide_False by done.
  - rewrite Hcst, Hrem, Hip, !decide_True by done.
    apply (wake_remote (ip:=ipi s c)); [by apply (so_cpu _ _ _ Hok)| |done]. right. by apply state_on_dead.
  - intros x. unfold idl. rewrite Hcst. auto.
  - intros c'. unfold ret. by rewrite Hcst.
Qed.
End place.

(** ** Reclamation *)

Lemma exited_wait_none tid t : thread_ok tid t → t_state t = Exited → wait_is_none (t_wait t) = true.
Proof.
  intros [_ [Hb Hp Hcm _ _] _ _ _] Hst. unfold wait_is_none, wait_is_blocked, wait_is_prepared, wait_is_completed in *.
  destruct (active (t_wait t)) as [[tok [] k]|]; [| | |done].
  - by rewrite Hp in Hst.
  - destruct Hb as [Hb _]. by rewrite Hb in Hst.
  - destruct Hcm; congruence.
Qed.

Lemma release_changed s tid t :
  live s tid t → thread_changed s (release_s tid s) tid None.
Proof.
  intros Hl x. pose proof (live_slot _ _ _ Hl) as (slot & Hs & Hg & Ht).
  unfold table_get, release_s, table_slots in *. simpl. destruct (decide (tid_index tid = tid_index x)) as [He|Hne].
  - rewrite <-He, list_lookup_alter_eq, Hs. simpl. rewrite Ht. simpl.
    destruct (decide (x = tid)) as [->|Hx]; [by destruct (decide _)|].
    destruct (decide (_ = tid_generation x)) as [Hgx|]; [|done]. exfalso. apply Hx.
    destruct x, tid; simpl in *. congruence.
  - rewrite list_lookup_alter_ne by done. rewrite (decide_False (P := x = tid)) by congruence. done.
Qed.

Lemma shape_release N s tid t :
  shape_ok N s → live s tid t → thread_ok tid t → shape_ok N (release_s tid s).
Proof.
  intros [H1 H2 H3 H4 H5 H6 Hslots Hfree Hnd] Hl Htok.
  pose proof (live_slot _ _ _ Hl) as (slot & Hs & Hg & Ht).
  assert (tid_index tid ∉ free_slots (lifecycle s)) as Hnin.
  { intros (? & ? & ?)%Hfree. congruence. }
  split; try done; unfold release_s, table_slots in *; simpl in *.
  - by rewrite length_alter.
  - intros i slot' Hi. destruct (decide (tid_index tid = i)) as [<-|Hne].
    + rewrite list_lookup_alter_eq, Hs in Hi. simpl in Hi. rewrite Ht in Hi. simplify_eq/=. destruct (Hslots _ _ Hs).
      split; simpl; [|done|apply Htok]. split; [done|by intros [? ?]].
    + rewrite list_lookup_alter_ne in Hi by done. eauto.
  - intros i. rewrite elem_of_cons, Hfree. destruct (decide (tid_index tid = i)) as [<-|Hne].
    + rewrite list_lookup_alter_eq, Hs. simpl. rewrite Ht. split; [|auto]. intros _. by eexists.
    + rewrite list_lookup_alter_ne by done. naive_solver.
  - by apply NoDup_cons.
Qed.

(** An exited thread is reclaimed, either after it left the retired slot or
    together with leaving it. *)
Lemma sched_release N s tid t f :
  sched_ok N None s → live s tid t → t_state t = Exited →
  (f = id ∧ ret s (t_home_cpu t) ≠ Some tid ∨ f = set_cs_retired None ∧ ret s (t_home_cpu t) = Some tid) →
  sched_ok N None (release_s tid (alter_cpu f (t_home_cpu t) s)).
Proof.
  intros Hok Hl Hst Hf. set (c := t_home_cpu t) in *. set (s1 := alter_cpu f c s).
  pose proof (live_home_lt Hok _ _ Hl) as Hc. pose proof (so_threads _ _ _ Hok _ _ Hl) as Ht.
  assert (∀ c', cst s1 c' = if decide (c = c') then f (cst s c) else cst s c') as Hcst.
  { intros c'. apply cst_alter_cpu. by rewrite (sh_cpus _ _ (so_shape _ _ _ Hok)). }
  assert (shape_ok N s1) as Hs1.
  { apply shape_alter_cpu; [apply Hok|]. by destruct Hf as [[-> _]|[-> _]]. }
  pose proof (release_changed s1 tid t Hl) as Hch.
  apply (sched_ok_thread N None None s (release_s tid s1) c tid None); try done.
  - by eapply shape_release.
  - intros t0 Hl0. by rewrite (live_fun _ _ _ _ Hl0 Hl).
  - intros c' Hne. unfold release_s. split; [|done]. change (cst s1 c' = cst s c'). by rewrite Hcst, decide_False.
  - change (cst (release_s tid s1) c) with (cst s1 c). rewrite Hcst, decide_True by done. simpl.
    apply release_exited.
    + destruct Hf as [[-> _]|[-> _]]; [|apply take_retired]; by apply (so_cpu _ _ _ Hok).
    + rewrite <-Hst. by apply state_on_live.
    + by destruct Hf as [[-> Hr]|[-> _]].
  - intros x. change (idl (release_s tid s1) c) with (cs_idle (cst s1 c)). rewrite Hcst, decide_True by done.
    right. by destruct Hf as [[-> _]|[-> _]].
  - eapply (joiners_ok_release s _ tid t); try done; [apply Hok| |].
    + pose proof (wk_blocked _ _ (tk_wait _ _ Ht)) as Hb. destruct (wait_is_blocked _); [|done].
      destruct Hb as [Hb _]. by rewrite Hb in Hst.
    + intros x c' Hne Hr. change (cs_retired (cst s1 c') = Some x). rewrite Hcst.
      destruct (decide (c = c')) as [<-|]; [|done]. destruct Hf as [[-> _]|[-> Hr']]; [done|congruence].
Qed.

(** ** Joiner links *)

(** A target's joiner changes; everything else of its record stays. *)
Lemma joiners_ok_link s s' tid t v :
  joiners_ok s → live s tid t → thread_changed s s' tid (Some (set_t_joiner v t)) →
  (∀ tok, v = Some tok →
     t_joinable t = true ∧ (∀ x tx, live s x tx → t_joiner tx = Some tok → x = tid) ∧
     ∃ j, live s (wt_thread tok) j ∧ active (t_wait j) = Some (mkActiveWait tok PhaseBlocked Explicit) ∧
          t_last_join_result j = None ∧ t_reaped_user j = None) →
  (∀ x c, x ≠ tid → ret s c = Some x → ret s' c = Some x) →
  (t_state t = Exited → is_Some v ∨ t_joinable t = false → ret s' (t_home_cpu t) = Some tid) →
  joiners_ok s'.
Proof.
  intros [Hb Hi He Hjb] Hl Hch Hv Hret Hself.
  assert (∀ y j, live s y j → ∃ j', live s' y j' ∧ t_wait j' = t_wait j ∧
            t_last_join_result j' = t_last_join_result j ∧ t_reaped_user j' = t_reaped_user j) as Hfwd.
  { intros y j Hy. destruct (decide (y = tid)) as [->|Hne].
    - exists (set_t_joiner v t). rewrite (live_fun _ _ _ _ Hy Hl). split; [by eapply changed_self|done].
    - exists j. split; [by eapply changed_other|done]. }
  split.
  - intros x tx tok Hx Htok.
    assert (∃ j, live s (wt_thread tok) j ∧ active (t_wait j) = Some (mkActiveWait tok PhaseBlocked Explicit) ∧
          t_last_join_result j = None ∧ t_reaped_user j = None) as (j & Hj & Hja & Hjl & Hjr).
    { apply (changed_live _ _ _ _ _ _ Hch) in Hx as [[-> ?]|[_ Hx]]; simplify_eq/=; [by apply Hv|eauto]. }
    destruct (Hfwd _ _ Hj) as (j' & Hj' & E1 & E2 & E3). exists j'. by rewrite E1, E2, E3.
  - intros x1 t1 x2 t2 tok H1 H2 E1 E2.
    apply (changed_live _ _ _ _ _ _ Hch) in H1 as [[-> ?]|[Hn1 H1]];
      apply (changed_live _ _ _ _ _ _ Hch) in H2 as [[-> ?]|[Hn2 H2]]; simplify_eq/=; [done| | |by eapply Hi].
    + destruct (Hv tok eq_refl) as (_ & Hu & _). symmetry. by eapply Hu.
    + destruct (Hv tok eq_refl) as (_ & Hu & _). by eapply Hu.
  - intros x tx [[-> ?]|[Hne Hx]]%(changed_live _ _ _ _ _ _ Hch) Hst Hor; simplify_eq/=; [by apply Hself|].
    apply Hret; [done|]. by apply He.
  - intros x tx tok [[-> ?]|[Hne Hx]]%(changed_live _ _ _ _ _ _ Hch) Htok; simplify_eq/=; [|by eauto].
    by apply (Hv tok).
Qed.

Lemma set_joiner_ok tid t v : thread_ok tid t → thread_ok tid (set_t_joiner v t).
Proof. intros [? [] ? ? ?]. by split. Qed.

(** The retired slot of a joinable thread is cleared with its joiner link. *)
Lemma sched_unretire N s tid t :
  sched_ok N None s → live s tid t → ret s (t_home_cpu t) = Some tid → t_joinable t = true →
  sched_ok N None (unretire_s tid (t_home_cpu t) s).
Proof.
  intros Hok Hl Hr Hj. set (c := t_home_cpu t) in *. set (s' := unretire_s tid c s).
  pose proof (live_home_lt Hok _ _ Hl) as Hc. pose proof (so_threads _ _ _ Hok _ _ Hl) as Ht.
  assert (∀ c', cst s' c' = if decide (c = c') then set_cs_retired None (cst s c) else cst s c') as Hcst.
  { intros c'. apply (cst_alter_cpu (set_cs_retired None) c s). by rewrite (sh_cpus _ _ (so_shape _ _ _ Hok)). }
  assert (thread_changed s s' tid (Some (set_t_joiner None t))) as Hch.
  { apply (alter_thread_changed (alter_cpu (set_cs_retired None) c s) (set_t_joiner None) tid t Hl). }
  apply (sched_ok_thread N None None s s' c tid (Some (set_t_joiner None t))); try done.
  - apply shape_alter_thread, shape_alter_cpu; [apply Hok|done].
  - intros t0 Hl0. by rewrite (live_fun _ _ _ _ Hl0 Hl).
  - intros t' [= <-]. split; [done|by apply set_joiner_ok].
  - intros c' Hne. split; [|done]. by rewrite Hcst, decide_False.
  - rewrite Hcst, decide_True by done. simpl. apply take_retired.
    eapply cpu_inv_ext; [|by apply (so_cpu _ _ _ Hok)]. intros x. unfold upd.
    destruct (decide (x = tid)) as [->|]; [|done]. symmetry. by apply state_on_live.
  - intros x. unfold idl. rewrite Hcst, decide_True by done. auto.
  - intros t' Hi [= <-]. unfold idl in Hi. rewrite Hcst, decide_True in Hi by done.
    exact (so_idle_user _ _ _ Hok c tid t Hc Hi Hl).
  - eapply (joiners_ok_link s s' tid t None); try done; [apply Hok| |].
    + intros x c' Hne Hrx. unfold ret. rewrite Hcst. destruct (decide (c = c')) as [<-|]; [congruence|done].
    + intros _ [[? ?]|?]; congruence.
Qed.

Lemma sched_set_joiner N s tid t tok j :
  sched_ok N None s → live s tid t → t_joinable t = true → ¬ joined s tok →
  (t_state t = Exited → ret s (t_home_cpu t) = Some tid) →
  live s (wt_thread tok) j → active (t_wait j) = Some (mkActiveWait tok PhaseBlocked Explicit) →
  t_last_join_result j = None → t_reaped_user j = None →
  sched_ok N None (alter_thread (set_t_joiner (Some tok)) (tid_index tid) s).
Proof.
  intros Hok Hl Hj Hfresh Hex Hlj Ha Hlr Hru. set (s' := alter_thread _ _ s).
  pose proof (live_home_lt Hok _ _ Hl) as Hc. pose proof (so_threads _ _ _ Hok _ _ Hl) as Ht.
  pose proof (alter_thread_changed s (set_t_joiner (Some tok)) tid t Hl) as Hch.
  apply (sched_ok_thread N None None s s' (t_home_cpu t) tid (Some (set_t_joiner (Some tok) t))); try done.
  - apply shape_alter_thread, Hok.
  - intros t0 Hl0. by rewrite (live_fun _ _ _ _ Hl0 Hl).
  - intros t' [= <-]. split; [done|by apply set_joiner_ok].
  - eapply cpu_inv_ext; [|by apply (so_cpu _ _ _ Hok)]. intros x. unfold upd.
    destruct (decide (x = tid)) as [->|]; [|done]. symmetry. by apply state_on_live.
  - auto.
  - intros t' Hi [= <-]. exact (so_idle_user _ _ _ Hok _ tid t Hc Hi Hl).
  - eapply (joiners_ok_link s s' tid t (Some tok)); try done; [apply Hok| |by intros; apply Hex].
    intros tok' [= <-]. split; [done|]. split; [|by exists j].
    intros x tx Hx Htx. destruct Hfresh. by exists x, tx.
Qed.

(** ** Ingress *)

Lemma sched_drain N s c :
  sched_ok N None s → c < KERNEL_CPU_CAPACITY → ret s c = None → sched_ok N None (drain_s c s).
Proof.
  intros Hok Hc Hr.
  pose proof (sh_remote _ _ (so_shape _ _ _ Hok)) as Hrl. pose proof (sh_ipi _ _ (so_shape _ _ _ Hok)) as Hil.
  set (g := λ st, set_cs_ready (queue_of st ++ remote s c) st).
  assert (∀ c', cst (drain_s c s) c' = if decide (c = c') then g (cst s c) else cst s c') as Hcst.
  { intros c'. apply (cst_alter_cpu g c s). by rewrite (sh_cpus _ _ (so_shape _ _ _ Hok)). }
  assert (∀ c', remote (drain_s c s) c' = if decide (c = c') then [] else remote s c') as Hrem.
  { intros c'. apply (remote_alter s (λ _, []) c c'). by rewrite Hrl. }
  assert (∀ c', ipi (drain_s c s) c' = if decide (c = c') then false else ipi s c') as Hip.
  { intros c'. apply (ipi_insert s false c c'). by rewrite Hil. }
  apply (sched_ok_cpu N None None s (drain_s c s) c); try done.
  - apply (shape_insert_ipi N (set_remote_ready (alter (set_rq_items []) c (remote_ready s)) (alter_cpu g c s))).
    apply (shape_alter_remote N (alter_cpu g c s)); [|done]. apply shape_alter_cpu; [apply Hok|done].
  - intros c' Hne. by rewrite Hcst, Hrem, Hip, !decide_False.
  - intros _. rewrite Hcst, Hrem, Hip, !decide_True by done. eapply drain_ingress; [|done].
    by apply (so_cpu _ _ _ Hok).
  - unfold idl. by rewrite Hcst, decide_True.
  - intros x tx Hx <- Hst Hor. pose proof (jk_exited _ (so_joiners _ _ _ Hok) x tx Hx Hst Hor). congruence.
Qed.

(** ** Starting a CPU *)

Definition start_s (c : CpuId) (s : Scheduler) : Scheduler := alter_cpu (set_cs_initialized true) c s.
Definition online_s (c : CpuId) (s : Scheduler) : Scheduler := alter_cpu (set_cs_online true) c s.

Lemma sched_alter_cpu N gap gap' s c g :
  sched_ok N gap s → c < KERNEL_CPU_CAPACITY → keeps_cpu g → cs_retired (g (cst s c)) = ret s c →
  (∀ c', c' ≠ c → gap' = Some c' ↔ gap = Some c') →
  cpu_inv (bool_decide (gap' = Some c)) (g (cst s c)) (remote s c) (ipi s c) (state_on s c) →
  sched_ok N gap' (alter_cpu g c s).
Proof.
  intros Hok Hc [Hgi Hgc] Hr Hgap Hinv.
  assert (∀ c', cst (alter_cpu g c s) c' = if decide (c = c') then g (cst s c) else cst s c') as Hcst.
  { intros c'. apply (cst_alter_cpu g c s). by rewrite (sh_cpus _ _ (so_shape _ _ _ Hok)). }
  apply (sched_ok_cpu N gap gap' s _ c); try done.
  - apply shape_alter_cpu; [apply Hok|done].
  - intros c' Hne. by rewrite Hcst, decide_False.
  - intros _. by rewrite Hcst, decide_True.
  - unfold idl. by rewrite Hcst, decide_True.
  - intros x tx Hx <- Hst Hor. unfold ret. rewrite Hcst, decide_True, Hr by done.
    by apply (jk_exited _ (so_joiners _ _ _ Hok)).
Qed.

Lemma sched_start N s c :
  sched_ok N None s → c < KERNEL_CPU_CAPACITY → cur s c = None → sched_ok N (Some c) (start_s c s).
Proof.
  intros Hok Hc Hcur. eapply sched_alter_cpu; try done.
  - naive_solver.
  - rewrite bool_decide_true by done. apply open_gap; [by apply (so_cpu _ _ _ Hok)|done].
Qed.

Lemma sched_online N s c :
  sched_ok N None s → c < KERNEL_CPU_CAPACITY → is_Some (cur s c) → sched_ok N None (online_s c s).
Proof.
  intros Hok Hc Hcur. eapply sched_alter_cpu; try done.
  apply go_online; [by apply (so_cpu _ _ _ Hok)|done].
Qed.
