(* ===== verification/TransitionSpec.v ===== *)
(** * Execution of the lifecycle transitions

    One lemma per operation of [Transition]: from the facts the operation
    checks, it returns, and the shared scheduler is changed by the pure moves
    of [Switch].  The premises are the raw facts that the code tests; the
    scheduler invariant provides them (see [SwitchSpec]). *)

From S2P Require Import Prelude Types Wait TimeConv Preempt Context Vm Time Sched World Transition.
From S2P Require Import CpuInv SchedInv Switch.

Definition on_sched (f : Scheduler → Scheduler) (w : World) : World := set_w_sched (f (w_sched w)) w.

Lemma on_sched_compose f g w : on_sched g (on_sched f w) = on_sched (g ∘ f) w.
Proof. done. Qed.

Lemma on_sched_ext f g w : f (w_sched w) = g (w_sched w) → on_sched f w = on_sched g w.
Proof. unfold on_sched. by intros ->. Qed.

(** ** Raw views after an update *)

Lemma cpus_alter_cpu f c s st : cpus s !! c = Some st → cpus (alter_cpu f c s) !! c = Some (f st).
Proof. intros Hst. unfold alter_cpu. simpl. by rewrite list_lookup_alter_eq, Hst. Qed.

Lemma live_alter_same f tid s t : live s tid t → live (alter_thread f (tid_index tid) s) tid (f t).
Proof. unfold live. rewrite table_get_alter, decide_True by done. by intros ->. Qed.

Lemma live_alter_other f tid tid' s t :
  tid_index tid' ≠ tid_index tid → live s tid' t → live (alter_thread f (tid_index tid) s) tid' t.
Proof. unfold live. intros Hne. by rewrite table_get_alter, decide_False. Qed.

(** Equal schedulers, by composing the updates of one CPU or one thread. *)
Lemma alter_cpu_compose f g c s : alter_cpu g c (alter_cpu f c s) = alter_cpu (g ∘ f) c s.
Proof. unfold alter_cpu, set_cpus. simpl. f_equal. symmetry. apply list_alter_compose. Qed.

Lemma alter_cpu_ext f g c s st : cpus s !! c = Some st → f st = g st → alter_cpu f c s = alter_cpu g c s.
Proof.
  intros Hst Hfg. unfold alter_cpu, set_cpus. f_equal. apply list_alter_ext; [|done].
  intros x Hx. simplify_eq. done.
Qed.

Lemma alter_cpu_id f c s st : cpus s !! c = Some st → f st = st → alter_cpu f c s = s.
Proof.
  intros Hst Hf. rewrite (alter_cpu_ext f id c s st) by done. unfold alter_cpu, set_cpus.
  rewrite list_alter_id by done. by destruct s.
Qed.

Lemma alter_cpu_thread f g c i s : alter_thread g i (alter_cpu f c s) = alter_cpu f c (alter_thread g i s).
Proof. done. Qed.

Lemma alter_thread_compose f g i s : alter_thread g i (alter_thread f i s) = alter_thread (g ∘ f) i s.
Proof.
  unfold alter_thread, set_slots, table_slots. simpl. f_equal. f_equal. rewrite <-list_alter_compose.
  apply list_alter_ext; [|done]. intros [? ? ? []] ?; done.
Qed.

Lemma alter_thread_comm f g i j s :
  i ≠ j → alter_thread g j (alter_thread f i s) = alter_thread f i (alter_thread g j s).
Proof.
  intros Hne. unfold alter_thread, set_slots, table_slots. simpl. f_equal. f_equal. by apply list_alter_commute.
Qed.

Lemma alter_thread_id f tid s t : live s tid t → f t = t → alter_thread f (tid_index tid) s = s.
Proof.
  intros (slot & Hs & _ & Ht)%live_slot Hf. unfold alter_thread, set_slots.
  replace (alter _ (tid_index tid) (table_slots s)) with (table_slots s); [by destruct s as [[] ? ? ? ?]|].
  apply list_eq. intros i. destruct (decide (tid_index tid = i)) as [<-|Hne].
  - rewrite list_lookup_alter_eq, Hs. simpl. destruct slot; simpl in *. subst. simpl. by rewrite Hf.
  - by rewrite list_lookup_alter_ne.
Qed.

Lemma set_t_wait_id t : set_t_wait (t_wait t) t = t.
Proof. by destruct t. Qed.

Lemma set_w_sched_id w : set_w_sched (w_sched w) w = w.
Proof. by destruct w. Qed.

Lemma on_sched_id f w : f (w_sched w) = w_sched w → on_sched f w = w.
Proof. unfold on_sched. intros ->. by destruct w. Qed.

(** Close a goal on a final world with a fact on an equal one. *)
Ltac world_from HQ :=
  cbv beta;
  match goal with |- _ ?w2 =>
    match type of HQ with
    | _ ?w1 => replace w2 with w1; [exact HQ|]
    end
  end.
Ltac finish_with HQ :=
  world_from HQ;
  rewrite ?on_sched_compose; apply on_sched_ext; cbn [compose];
  rewrite ?alter_cpu_thread, ?alter_cpu_compose.

Section spec.
Context (E : Env).
Implicit Types (w : World) (Q : unit → World → Prop).

Lemma wp_with_sched {A} (f : Scheduler → outcome A) (Q : A → World → Prop) w a :
  f (w_sched w) = Done a → Q a w → wp (with_sched f) Q w.
Proof. intros. by eapply wp_reads. Qed.

Lemma wp_local_state (Q : CpuSchedulerState → World → Prop) w st :
  cpus (w_sched w) !! e_cpu E = Some st → Q st w → wp (local_state E) Q w.
Proof. intros Hst. apply wp_with_sched. unfold cpu_state_for. by rewrite Hst. Qed.

Lemma cpu_state_done s c st : cpus s !! c = Some st → cpu_state_for s c = Done st.
Proof. unfold cpu_state_for. by intros ->. Qed.

Lemma live_home_cpu s tid t : live s tid t → thread_home_cpu s (tid_index tid) = Done (t_home_cpu t).
Proof. intros Hl. unfold thread_home_cpu. by rewrite (live_thread_at _ _ _ Hl). Qed.

Lemma live_state s tid t : live s tid t → thread_state s (tid_index tid) = Done (t_state t).
Proof. intros Hl. unfold thread_state. by rewrite (live_thread_at _ _ _ Hl). Qed.

Lemma live_aspace s tid t :
  live s tid t → thread_address_space s (tid_index tid) = Done (ur_address_space <$> t_user t).
Proof. intros Hl. unfold thread_address_space. by rewrite (live_thread_at _ _ _ Hl). Qed.

Lemma wp_thread_mut w tid t f Q :
  live (w_sched w) tid t → Q tt (on_sched (alter_thread f (tid_index tid)) w) →
  wp (thread_mut (tid_index tid) f) Q w.
Proof. intros Hl HQ. apply wp_bind. eapply wp_with_sched; [by eapply live_thread_at|]. done. Qed.

Lemma wp_state_mut w c st f Q :
  cpus (w_sched w) !! c = Some st → Q tt (on_sched (alter_cpu f c) w) → wp (state_mut c f) Q w.
Proof. intros Hl HQ. apply wp_bind. eapply wp_with_sched; [by eapply cpu_state_done|]. done. Qed.

Lemma wp_assert_current_running w tid t st op Q :
  live (w_sched w) tid t → cpus (w_sched w) !! t_home_cpu t = Some st →
  cs_current st = Some tid → t_state t = Running → Q tt w → wp (assert_current_running tid op) Q w.
Proof.
  intros Hl Hst Hc Hr HQ. apply wp_bind. eapply wp_with_sched; [by eapply live_home_cpu|].
  apply wp_bind. eapply wp_with_sched; [by eapply cpu_state_done|].
  wp_step. wp_step; [by apply bool_decide_eq_true|]. wp_step. wp_step. wp_step.
  wp_step; [by eapply live_matches|]. wp_step. eapply wp_with_sched; [by eapply live_state|].
  wp_step; [by apply bool_decide_eq_true|]. done.
Qed.

(** What validation needs: it runs only in debug builds. *)
Definition validates (s : Scheduler) : Prop := e_debug E = true → validate_invariants s = Done tt.

Lemma sched_ok_valid N s : sched_ok N None s → validates s.
Proof. intros Hok _. by eapply sched_ok_validates. Qed.

Lemma wp_validate w Q : validates (w_sched w) → Q tt w → wp (validate_after_transition E) Q w.
Proof.
  unfold validate_after_transition, validates. intros Hv HQ. destruct (e_debug E); [|done].
  eapply wp_with_sched; [by apply Hv|done].
Qed.

(** ** Queues *)

(** A ready thread of this CPU that is not its idle thread. *)
Record queued_thread (s : Scheduler) (st : CpuSchedulerState) (tid : ThreadId) : Prop := {
  qt_idle : cs_idle st ≠ Some tid;
  qt_live : ∃ t, live s tid t ∧ t_state t = Ready ∧ t_home_cpu t = e_cpu E
}.

Lemma wp_pop_front_some w st to rest (Q : option ThreadId → World → Prop) :
  cpus (w_sched w) !! e_cpu E = Some st → queue_of st = to :: rest → queued_thread (w_sched w) st to →
  Q (Some to) (on_sched (alter_cpu (set_cs_ready rest) (e_cpu E)) w) → wp (ready_pop_front E) Q w.
Proof.
  intros Hst Hq [Hi (t & Hl & Hr & Hh)] HQ. apply wp_bind. eapply wp_local_state; [done|]. rewrite Hq.
  apply wp_bind. eapply wp_state_mut; [done|]. wp_step. wp_step. wp_step.
  wp_step; [by eapply live_matches|]. wp_step. eapply wp_with_sched; [by eapply (live_thread_at _ _ _ Hl)|].
  wp_step. wp_step; [by apply bool_decide_eq_true|]. wp_step. wp_step; [by rewrite bool_decide_false|].
  wp_step. wp_step; [by apply bool_decide_eq_true|]. by wp_step.
Qed.

Lemma wp_pop_front_none w st (Q : option ThreadId → World → Prop) :
  cpus (w_sched w) !! e_cpu E = Some st → queue_of st = [] → Q None w → wp (ready_pop_front E) Q w.
Proof. intros Hst Hq HQ. apply wp_bind. eapply wp_local_state; [done|]. by rewrite Hq. Qed.

Lemma wp_push_back w st tid t Q :
  cpus (w_sched w) !! e_cpu E = Some st → cs_idle st ≠ Some tid → live (w_sched w) tid t →
  t_home_cpu t = e_cpu E → queued_index (tid_index tid) (cs_ready_queue st) = false →
  length (queue_of st) < rq_capacity (cs_ready_queue st) →
  Q tt (on_sched (alter_cpu (λ st, set_cs_ready (queue_of st ++ [tid]) st) (e_cpu E)) w) →
  wp (ready_push_back E tid) Q w.
Proof.
  intros Hst Hi Hl Hh Hq Hlen HQ. apply wp_bind. eapply wp_local_state; [done|].
  wp_step. wp_step; [by rewrite bool_decide_false|]. wp_step. eapply wp_with_sched; [by eapply live_home_cpu|].
  wp_step. wp_step; [by apply bool_decide_eq_true|]. wp_step. wp_step; [by rewrite Hq|].
  wp_step. wp_step; [rewrite bool_decide_false; [done|lia]|]. by eapply wp_state_mut.
Qed.

(** Who is selected next, as the code reads it. *)
Definition next_of (s : Scheduler) (st : CpuSchedulerState) (to : ThreadId) (rest : list ThreadId) : Prop :=
  (queue_of st = to :: rest ∧ cs_idle st ≠ Some to ∨ queue_of st = [] ∧ rest = [] ∧ cs_idle st = Some to) ∧
  ∃ t, live s to t ∧ t_state t = Ready ∧ t_home_cpu t = e_cpu E.

Lemma wp_pop_or_idle w st to rest (Q : ThreadId → World → Prop) :
  cpus (w_sched w) !! e_cpu E = Some st → next_of (w_sched w) st to rest →
  Q to (on_sched (alter_cpu (set_cs_ready rest) (e_cpu E)) w) → wp (pop_or_idle E) Q w.
Proof.
  intros Hst [[[Hq Hi]|(Hq & -> & Hi)] Ht] HQ; apply wp_bind.
  - eapply wp_pop_front_some; [done|done|by split|done].
  - eapply wp_pop_front_none; [done..|]. apply wp_bind. eapply wp_local_state; [done|].
    eapply wp_expect; [done|]. rewrite on_sched_id in HQ; [done|].
    eapply alter_cpu_id; [done|]. unfold set_cs_ready. rewrite <-Hq. by destruct st as [? ? ? [] ? ?].
Qed.

(** ** Lifecycle changes *)

Lemma wp_make_running w st to t Q :
  cpus (w_sched w) !! e_cpu E = Some st → live (w_sched w) to t → t_state t = Ready → t_home_cpu t = e_cpu E →
  Q tt (on_sched (λ s, alter_cpu (set_cs_current (Some to)) (e_cpu E)
                         (alter_thread (set_t_state Running) (tid_index to) s)) w) →
  wp (make_running E to) Q w.
Proof.
  intros Hst Hl Hr Hh HQ. apply wp_bind. wp_step. wp_step. wp_step; [by eapply live_matches|].
  wp_step. eapply wp_with_sched; [by eapply live_thread_at|].
  wp_step. wp_step; [by apply bool_decide_eq_true|]. wp_step. wp_step; [by apply bool_decide_eq_true|].
  wp_step. eapply wp_thread_mut; [done|]. by eapply wp_state_mut.
Qed.

Definition requeue (from : ThreadId) (st : CpuSchedulerState) : CpuSchedulerState :=
  if decide (cs_idle st = Some from) then st else set_cs_ready (queue_of st ++ [from]) st.

(** Room for one more entry that is not in the queue yet. *)
Record pushable (st : CpuSchedulerState) (tid : ThreadId) : Prop := {
  pb_fresh : queued_index (tid_index tid) (cs_ready_queue st) = false;
  pb_room : length (queue_of st) < rq_capacity (cs_ready_queue st)
}.

Lemma wp_requeue w st from t Q :
  cpus (w_sched w) !! e_cpu E = Some st → live (w_sched w) from t → t_home_cpu t = e_cpu E →
  (cs_idle st ≠ Some from → pushable st from) →
  Q tt (on_sched (λ s, alter_cpu (requeue from) (e_cpu E) (alter_thread (set_t_state Ready) (tid_index from) s)) w) →
  wp (make_ready_and_queue E from false) Q w.
Proof.
  intros Hst Hl Hh Hp HQ. apply wp_bind. wp_step. wp_step. wp_step; [by eapply live_matches|].
  wp_step. eapply wp_thread_mut; [done|]. wp_step. eapply wp_local_state; [done|].
  destruct (decide _) as [Hi|Hi].
  - apply wp_ret. finish_with HQ. eapply alter_cpu_id; [done|]. unfold requeue. by rewrite decide_True.
  - destruct (Hp Hi). apply wp_bind. eapply (wp_push_back _ st from (set_t_state Ready t)); [done|done|by apply (live_alter_same (set_t_state Ready))|done|done|done|].
    apply wp_ret. finish_with HQ. eapply alter_cpu_ext; [done|]. unfold requeue. by rewrite decide_False.
Qed.

(** ** Selection *)

Lemma wp_optional_none w st from t (Q : SwitchOutcome → World → Prop) :
  cpus (w_sched w) !! e_cpu E = Some st → cs_current st = Some from → live (w_sched w) from t →
  t_state t = Running → t_home_cpu t = e_cpu E → queue_of st = [] → validates (w_sched w) →
  Q ContinueCurrent w → wp (transition_optional_switch E) Q w.
Proof.
  intros Hst Hc Hl Hr Hh Hq Hv HQ. apply wp_bind. eapply wp_local_state; [done|]. rewrite Hc.
  apply wp_bind. eapply wp_assert_current_running; [done|by rewrite Hh|done..|].
  apply wp_bind. eapply wp_pop_front_none; [done..|]. wp_step. eapply wp_validate; [done|]. by wp_step.
Qed.

Definition queue_after (st : CpuSchedulerState) (from : ThreadId) (rest : list ThreadId) : list ThreadId :=
  if decide (cs_idle st = Some from) then rest else rest ++ [from].

Lemma wp_optional_switch w st from t to rest (Q : SwitchOutcome → World → Prop) :
  cpus (w_sched w) !! e_cpu E = Some st → cs_current st = Some from → live (w_sched w) from t →
  t_state t = Running → t_home_cpu t = e_cpu E →
  queue_of st = to :: rest → queued_thread (w_sched w) st to →
  (cs_idle st ≠ Some from → pushable (set_cs_ready rest st) from) →
  let s' := enter_s to (queue_after st from rest) (e_cpu E) (leave_ready_s from (e_cpu E) (w_sched w)) in
  validates s' → Q (Switch from to) (set_w_sched s' w) →
  wp (transition_optional_switch E) Q w.
Proof.
  intros Hst Hc Hl Hr Hh Hq Hto Hp s' Hv HQ. apply wp_bind. eapply wp_local_state; [done|]. rewrite Hc.
  apply wp_bind. eapply wp_assert_current_running; [done|by rewrite Hh|done..|].
  apply wp_bind. eapply wp_pop_front_some; [done..|]. destruct Hto as [Hi (tt' & Hlt & Hrt & Hht)].
  pose proof (cpus_alter_cpu (set_cs_ready rest) _ _ _ Hst) as Hst1.
  assert (tid_index to ≠ tid_index from) as Hne.
  { intros Heq. pose proof (live_index_inj _ _ _ _ _ Hlt Hl Heq) as ->.
    rewrite (live_fun _ _ _ _ Hl Hlt) in Hr. congruence. }
  apply wp_bind. eapply (wp_requeue _ (set_cs_ready rest st) from t); [done|exact Hl|done|done|].
  apply wp_bind. eapply wp_make_running.
  { apply (cpus_alter_cpu (requeue from) _ _ _ Hst1). }
  { eapply (live_alter_other _ from to); [done|exact Hlt]. }
  { done. } { done. }
  match goal with |- wp _ _ ?w' => replace w' with (set_w_sched s' w); [|] end.
  { apply wp_bind. apply wp_validate; [done|]. by apply wp_ret. }
  rewrite !on_sched_compose. unfold on_sched. f_equal. unfold s', enter_s, leave_ready_s. cbn [compose].
  rewrite !alter_cpu_thread, !alter_cpu_compose.
  eapply alter_cpu_ext; [done|]. unfold requeue, queue_after. simpl.
  by destruct (decide (cs_idle st = Some from)).
Qed.
(** ** CPU-local preemption state *)

Lemma wp_with_state {A} w p (f : PreemptionState → outcome (A * PreemptionState)) a p' (Q : A → World → Prop) :
  w_preempt w !! e_cpu E = Some p → f p = Done (a, p') →
  Q a (set_w_preempt (<[e_cpu E := p']> (w_preempt w)) w) → wp (with_state E (e_cpu E) f) Q w.
Proof.
  intros Hp Hf HQ. apply wp_bind. wp_step; [by apply bool_decide_eq_true|]. wp_step.
  eapply wp_reads; [by rewrite Hp|]. wp_step. eapply wp_reads; [exact Hf|]. by repeat wp_step.
Qed.

Definition preemption_enabled w : Prop :=
  ∃ p, w_preempt w !! e_cpu E = Some p ∧ preempt_is_disabled p = false.

Lemma wp_assert_enabled w op Q :
  preemption_enabled w → Q tt w → wp (assert_preemption_enabled_on E (e_cpu E) op) Q w.
Proof.
  intros (p & Hp & Hd) HQ. eapply wp_with_state; [done| |].
  - unfold preempt_assert_enabled. by rewrite Hd.
  - rewrite list_insert_id by done. by destruct w.
Qed.

(** ** Waits of the current thread *)

Lemma wp_on_wait {A} w tid t (f : WaitMetadata → outcome (A * WaitMetadata)) a wm (Q : A → World → Prop) :
  live (w_sched w) tid t → f (t_wait t) = Done (a, wm) →
  Q a (on_sched (alter_thread (set_t_wait wm) (tid_index tid)) w) → wp (on_wait (tid_index tid) f) Q w.
Proof.
  intros Hl Hf HQ. apply wp_bind. eapply wp_with_sched; [by eapply live_thread_at|].
  wp_step. eapply wp_reads; [exact Hf|]. by repeat wp_step.
Qed.

(** The executing CPU runs [from]. *)
Record runs (s : Scheduler) (st : CpuSchedulerState) (from : ThreadId) (t : Thread) : Prop := {
  rn_state : cpus s !! e_cpu E = Some st;
  rn_current : cs_current st = Some from;
  rn_live : live s from t;
  rn_running : t_state t = Running;
  rn_home : t_home_cpu t = e_cpu E
}.

Lemma wp_running w st from t op Q : runs (w_sched w) st from t → Q tt w → wp (assert_current_running from op) Q w.
Proof. intros [Hst Hc Hl Hr Hh] HQ. eapply wp_assert_current_running; [done|by rewrite Hh|done..]. Qed.

Lemma wp_prepare_wait w st from t prepared wm (Q : PreparedWait → World → Prop) :
  preemption_enabled w → runs (w_sched w) st from t →
  prepare (t_wait t) from (e_cpu E) = Done (prepared, wm) →
  let s' := alter_thread (set_t_wait wm) (tid_index from) (w_sched w) in
  validates s' → Q prepared (set_w_sched s' w) → wp (transition_prepare_wait E) Q w.
Proof.
  intros Hp Hr Hpr s' Hv HQ. pose proof Hr as [Hst Hc Hl _ _].
  apply wp_bind, wp_assert_enabled; [done|]. wp_step. eapply wp_local_state; [done|].
  wp_step. eapply wp_expect; [done|]. wp_step. eapply wp_running; [done|].
  wp_step. eapply wp_on_wait; [done..|]. wp_step. by apply wp_validate.
Qed.

Lemma wp_prepare_automatic_wait w st from t prepared wm (Q : PreparedWait → World → Prop) :
  preemption_enabled w → runs (w_sched w) st from t →
  prepare_automatic (t_wait t) from (e_cpu E) = Done (prepared, wm) →
  let s' := alter_thread (set_t_wait wm) (tid_index from) (w_sched w) in
  validates s' → Q prepared (set_w_sched s' w) → wp (transition_prepare_automatic_wait E) Q w.
Proof.
  intros Hp Hr Hpr s' Hv HQ. pose proof Hr as [Hst Hc Hl _ _].
  apply wp_bind, wp_assert_enabled; [done|]. wp_step. eapply wp_local_state; [done|].
  wp_step. eapply wp_expect; [done|]. wp_step. eapply wp_running; [done|].
  wp_step. eapply wp_on_wait; [done..|]. wp_step. by apply wp_validate.
Qed.

(** [finish_wait] and [cancel_wait] when the owner is current. *)
Lemma wp_finish_wait w st tok t r wm (Q : WaitCause + FinishError → World → Prop) :
  runs (w_sched w) st (wt_thread tok) t → finish (t_wait t) tok = (r, wm) →
  let s' := alter_thread (set_t_wait wm) (tid_index (wt_thread tok)) (w_sched w) in
  validates s' → Q r (set_w_sched s' w) → wp (transition_finish_wait E tok) Q w.
Proof.
  intros Hr Hf s' Hv HQ. pose proof Hr as [Hst Hc Hl _ Hh].
  apply wp_bind. wp_step. rewrite (live_matches _ _ _ Hl). simpl.
  wp_step. eapply wp_with_sched; [by eapply live_home_cpu|].
  wp_step. eapply wp_with_sched; [by rewrite Hh; eapply cpu_state_done|].
  rewrite bool_decide_true by done. simpl. wp_step. eapply wp_running; [done|].
  wp_step. eapply wp_on_wait; [done|by rewrite Hf|]. wp_step. by apply wp_validate.
Qed.

Lemma wp_cancel_wait w st prepared t r wm (Q : CancelResult → World → Prop) :
  runs (w_sched w) st (wt_thread (pw_token prepared)) t → cancel (t_wait t) prepared = (r, wm) →
  let s' := alter_thread (set_t_wait wm) (tid_index (wt_thread (pw_token prepared))) (w_sched w) in
  validates s' → Q r (set_w_sched s' w) → wp (transition_cancel_wait E prepared) Q w.
Proof.
  intros Hr Hf s' Hv HQ. pose proof Hr as [Hst Hc Hl _ Hh].
  apply wp_bind. wp_step. rewrite (live_matches _ _ _ Hl). simpl.
  wp_step. eapply wp_with_sched; [by eapply live_home_cpu|].
  wp_step. eapply wp_with_sched; [by rewrite Hh; eapply cpu_state_done|].
  rewrite bool_decide_true by done. simpl. wp_step. eapply wp_running; [done|].
  wp_step. eapply wp_on_wait; [done|by rewrite Hf|]. wp_step. by apply wp_validate.
Qed.

(** A wait completed before its commit, or a stale permit: no switch. *)
Lemma wp_commit_stay w st from t i prepared r wm
    (Q : CommitState * option SwitchOutcome → World → Prop) :
  preemption_enabled w → runs (w_sched w) st from t → cs_idle st = Some i → from ≠ i →
  commit (t_wait t) prepared = (r, wm) → (∀ tok, r ≠ Block tok) →
  let s' := alter_thread (set_t_wait wm) (tid_index from) (w_sched w) in
  validates s' → Q (r, None) (set_w_sched s' w) →
  wp (transition_commit_wait E prepared) Q w.
Proof.
  intros Hp Hr Hi Hne Hcm Hnb s' Hv HQ. pose proof Hr as [Hst Hc Hl Hrun _].
  apply wp_bind, wp_assert_enabled; [done|]. wp_step. eapply wp_local_state; [done|].
  wp_step. eapply wp_expect; [done|]. wp_step. eapply wp_running; [done|].
  wp_step. apply wp_bind. eapply wp_local_state; [done|]. eapply wp_expect; [done|].
  wp_step. wp_step; [by rewrite bool_decide_false|].
  wp_step. eapply wp_on_wait; [done|by rewrite Hcm|].
  destruct r; [by edestruct Hnb| |]; wp_step; by apply wp_validate.
Qed.

Lemma wp_commit_block w st from t i prepared tok wm to rest
    (Q : CommitState * option SwitchOutcome → World → Prop) :
  preemption_enabled w → runs (w_sched w) st from t → cs_idle st = Some i → from ≠ i →
  commit (t_wait t) prepared = (Block tok, wm) → next_of (w_sched w) st to rest →
  let s' := enter_s to rest (e_cpu E) (leave_blocked_s from wm (e_cpu E) (w_sched w)) in
  validates s' → Q (Block tok, Some (Switch from to)) (set_w_sched s' w) →
  wp (transition_commit_wait E prepared) Q w.
Proof.
  intros Hp Hr Hi Hne Hcm Hnx s' Hv HQ. pose proof Hr as [Hst Hc Hl Hrun _].
  apply wp_bind, wp_assert_enabled; [done|]. wp_step. eapply wp_local_state; [done|].
  wp_step. eapply wp_expect; [done|]. wp_step. eapply wp_running; [done|].
  wp_step. apply wp_bind. eapply wp_local_state; [done|]. eapply wp_expect; [done|].
  wp_step. wp_step; [by rewrite bool_decide_false|].
  wp_step. eapply wp_on_wait; [done|by rewrite Hcm|]. destruct Hnx as [Hsel (tto & Hlt & Hrt & Hht)].
  assert (tid_index to ≠ tid_index from) as Hidx.
  { intros Heq. pose proof (live_index_inj _ _ _ _ _ Hlt Hl Heq) as ->.
    rewrite (live_fun _ _ _ _ Hl Hlt) in Hrun. congruence. }
  wp_step. eapply (wp_pop_or_idle _ st).
  { done. } { split; [exact Hsel|]. exists tto. split_and!; [by apply live_alter_other|done..]. }
  wp_step. eapply wp_thread_mut; [by apply (live_alter_same (set_t_wait wm))|].
  wp_step. eapply wp_make_running; [by apply cpus_alter_cpu| |done..|].
  { apply live_alter_other; [done|]. by apply live_alter_other. }
  match goal with |- wp _ _ ?w' => replace w' with (set_w_sched s' w); [|] end.
  { apply wp_bind. apply wp_validate; [done|]. by apply wp_ret. }
  rewrite !on_sched_compose. unfold on_sched. f_equal. unfold s', enter_s, leave_blocked_s. cbn [compose].
  rewrite !alter_cpu_thread, !alter_cpu_compose, !alter_thread_compose. done.
Qed.
(** A token that is not the active one changes nothing. *)
Lemma complete_other wm tok cause : (complete wm tok cause).1 = CompletionStale → (complete wm tok cause).2 = wm.
Proof.
  unfold complete. destruct (active wm) as [a|]; [|done]. destruct (decide _); [done|].
  by destruct (aw_phase a).
Qed.

Lemma wp_timed_wake w st from t tok tt' rem cap (Q : option SwitchOutcome → World → Prop) :
  runs (w_sched w) st from t → remote_ready (w_sched w) !! e_cpu E = Some (mkReadyQueue rem cap) →
  live (w_sched w) (wt_thread tok) tt' →
  (t_state tt' = Blocked → (complete (t_wait tt') tok Timeout).1 ∈ [WokeBlocked; CompletionStale]) →
  (∀ wm, cs_idle st = Some from → queue_of st = [] → rem = [] → wt_cpu tok = e_cpu E →
     t_home_cpu tt' = e_cpu E → t_state tt' = Blocked → complete (t_wait tt') tok Timeout = (WokeBlocked, wm) →
     let s' := enter_s (wt_thread tok) [] (e_cpu E)
                 (leave_ready_s from (e_cpu E) (wake_local_s (wt_thread tok) wm (e_cpu E) (w_sched w))) in
     validates s' ∧ Q (Some (Switch from (wt_thread tok))) (set_w_sched s' w)) →
  (¬ (cs_idle st = Some from ∧ queue_of st = [] ∧ rem = [] ∧ wt_cpu tok = e_cpu E ∧ t_home_cpu tt' = e_cpu E ∧
      t_state tt' = Blocked ∧ (complete (t_wait tt') tok Timeout).1 = WokeBlocked) → Q None w) →
  wp (transition_timed_wake_from_idle E tok) Q w.
Proof.
  intros Hr Hrem Hl Hcmp HS HN. pose proof Hr as [Hst Hc Hlf Hrun Hhf].
  apply wp_bind. eapply wp_local_state; [done|]. rewrite Hc.
  wp_step. eapply wp_with_sched; [unfold remote_ready_for; by rewrite Hrem|].
  wp_step. wp_step. rewrite (live_matches _ _ _ Hl). simpl rq_items. simpl negb at 5. rewrite orb_false_r.
  destruct (bool_decide_reflect (cs_idle st = Some from)) as [Hi|]; [|apply wp_ret, HN; naive_solver]; simpl.
  destruct (bool_decide_reflect (queue_of st = [])) as [Hq|]; [|apply wp_ret, HN; naive_solver]; simpl.
  destruct (bool_decide_reflect (rem = [])) as [Hre|]; [|apply wp_ret, HN; naive_solver]; simpl.
  destruct (bool_decide_reflect (wt_cpu tok = e_cpu E)) as [Hcpu|]; [|apply wp_ret, HN; naive_solver]; simpl.
  wp_step. eapply wp_with_sched; [by eapply live_thread_at|].
  destruct (bool_decide_reflect (t_home_cpu tt' = e_cpu E)) as [Hh|]; [|apply wp_ret, HN; naive_solver]; simpl.
  destruct (bool_decide_reflect (t_state tt' = Blocked)) as [Hb|]; [|apply wp_ret, HN; naive_solver]; simpl.
  wp_step. eapply wp_running; [done|]. wp_step.
  destruct (complete (t_wait tt') tok Timeout) as [r wm] eqn:Hcm.
  eapply wp_on_wait; [done|by rewrite Hcm|].
  specialize (Hcmp Hb). simpl in Hcmp. rewrite elem_of_cons, list_elem_of_singleton in Hcmp.
  destruct Hcmp as [->| ->].
  2:{ pose proof (complete_other (t_wait tt') tok Timeout) as Ho. rewrite Hcm in Ho. simpl in Ho.
      rewrite Ho by done. simpl. apply wp_ret. rewrite on_sched_id; [apply HN; naive_solver|].
      eapply alter_thread_id; [done|]. by destruct tt'. }
  simpl. destruct (HS wm) as [Hv HQ]; try done. clear HS HN.
  wp_step. eapply wp_thread_mut; [by apply (live_alter_same (set_t_wait wm))|].
  assert (tid_index from ≠ tid_index (wt_thread tok)) as Hidx.
  { intros Heq. pose proof (live_index_inj _ _ _ _ _ Hlf Hl Heq) as ->.
    rewrite (live_fun _ _ _ _ Hl Hlf) in Hb. congruence. }
  wp_step. eapply (wp_requeue _ st from t); [done| |done|done|].
  { do 2 (apply live_alter_other; [done|]). done. }
  wp_step. eapply (wp_make_running _ _ _ (set_t_state Ready (set_t_wait wm tt'))); [by apply cpus_alter_cpu| |done|done|].
  { apply live_alter_other; [done|]. apply live_alter_same. apply (live_alter_same (set_t_wait wm)). exact Hl. }
  match goal with |- wp _ _ ?w' => replace w' with (set_w_sched
    (enter_s (wt_thread tok) [] (e_cpu E)
       (leave_ready_s from (e_cpu E) (wake_local_s (wt_thread tok) wm (e_cpu E) (w_sched w)))) w); [|] end.
  { apply wp_bind. apply wp_validate; [done|]. by apply wp_ret. }
  rewrite !on_sched_compose. unfold on_sched. f_equal. unfold enter_s, leave_ready_s, wake_local_s. cbn [compose].
  rewrite !alter_cpu_thread, !alter_cpu_compose, !alter_thread_compose.
  eapply alter_cpu_ext; [done|]. unfold requeue. simpl. rewrite !decide_True by done. simpl.
  unfold set_cs_current, set_cs_ready. simpl. by rewrite <-Hq; destruct st as [? ? ? [] ? ?].
Qed.
(** ** Notifications *)

(** The world after a notification of [c] was requested. *)
Definition ipi_sent (c : CpuId) w : World :=
  if ipi (w_sched w) c then w else set_w_ipis (c :: w_ipis w) w.

Lemma ipi_sent_sched c w : w_sched (ipi_sent c w) = w_sched w.
Proof. unfold ipi_sent. by destruct (ipi _ _). Qed.

Lemma set_ipi_sent f s' c w :
  scheduler_ipi_pending (f (w_sched w)) = scheduler_ipi_pending (w_sched w) →
  set_w_sched s' (ipi_sent c (on_sched f w)) = set_w_sched s' (ipi_sent c w).
Proof.
  intros Hf. unfold ipi_sent, on_sched, ipi. simpl. rewrite Hf. by destruct (default _ _).
Qed.

Lemma wp_request_ipi w c b Q :
  scheduler_ipi_pending (w_sched w) !! c = Some b → e_arch_send_ipi E c = true →
  Q tt (set_w_sched (set_ipi_pending (<[c := true]> (scheduler_ipi_pending (w_sched w))) (w_sched w))
                    (ipi_sent c w)) →
  wp (request_scheduler_ipi E c) Q w.
Proof.
  intros Hb Hs HQ. apply wp_bind. eapply wp_with_sched; [by rewrite Hb|].
  assert (ipi (w_sched w) c = b) as Hi by (unfold ipi; by rewrite Hb).
  unfold ipi_sent in HQ. rewrite Hi in HQ. destruct b.
  - apply wp_ret. rewrite list_insert_id in HQ by done. world_from HQ. by destruct w as [[]].
  - apply wp_bind. apply wp_modify. apply wp_bind. wp_step; [done|]. by wp_step.
Qed.

Lemma wp_exit_current w st from t i code to rest b (Q : SwitchOutcome → World → Prop) :
  runs (w_sched w) st from t → cs_idle st = Some i → from ≠ i → cs_retired st = None →
  next_of (w_sched w) st to rest →
  scheduler_ipi_pending (w_sched w) !! e_cpu E = Some b → e_arch_send_ipi E (e_cpu E) = true →
  let s' := enter_s to rest (e_cpu E) (leave_exited_s from code (e_cpu E) (w_sched w)) in
  validates s' → Q (Switch from to) (set_w_sched s' (ipi_sent (e_cpu E) w)) →
  wp (transition_exit_current E code) Q w.
Proof.
  intros Hr Hi Hne Hret [Hsel (tto & Hlt & Hrt & Hht)] Hb Hs s' Hv HQ. pose proof Hr as [Hst Hc Hl Hrun _].
  apply wp_bind. eapply wp_local_state; [done|]. wp_step. eapply wp_expect; [done|].
  wp_step. eapply wp_running; [done|]. wp_step. apply wp_bind. eapply wp_local_state; [done|].
  eapply wp_expect; [done|]. wp_step. wp_step; [by rewrite bool_decide_false|].
  wp_step. wp_step; [by rewrite Hret|].
  assert (tid_index to ≠ tid_index from) as Hidx.
  { intros Heq. pose proof (live_index_inj _ _ _ _ _ Hlt Hl Heq) as ->.
    rewrite (live_fun _ _ _ _ Hl Hlt) in Hrun. congruence. }
  wp_step. eapply wp_thread_mut; [done|].
  wp_step. eapply wp_thread_mut; [by apply (live_alter_same (set_t_exit_code (Some code)))|].
  wp_step. eapply wp_state_mut; [done|]. wp_step. eapply (wp_pop_or_idle _ (set_cs_retired (Some from) st)).
  { by apply cpus_alter_cpu. }
  { split; [exact Hsel|]. exists tto. split_and!; [|done..]. do 2 (apply live_alter_other; [done|]). done. }
  wp_step. eapply (wp_make_running _ _ _ tto); [by apply cpus_alter_cpu, cpus_alter_cpu| |done..|].
  { do 2 (apply live_alter_other; [done|]). done. }
  wp_step. eapply wp_request_ipi; [done..|].
  match goal with |- wp _ _ ?w' => replace w' with (set_w_sched s' (ipi_sent (e_cpu E) w)); [|] end.
  { apply wp_bind. apply wp_validate; [done|]. by apply wp_ret. }
  rewrite !on_sched_compose, set_ipi_sent by done. f_equal. unfold on_sched. cbn [compose w_sched set_w_sched].
  rewrite !alter_cpu_thread, !alter_cpu_compose, !alter_thread_compose.
  unfold s', enter_s, leave_exited_s. rewrite !alter_cpu_thread, !alter_cpu_compose. done.
Qed.
(** ** Completion of a wait *)

Lemma wp_publish_remote w c rem cap b tid Q :
  remote_ready (w_sched w) !! c = Some (mkReadyQueue rem cap) → tid ∉ rem → length rem < cap →
  scheduler_ipi_pending (w_sched w) !! c = Some b → e_arch_send_ipi E c = true →
  Q tt (set_w_sched (set_ipi_pending (<[c := true]> (scheduler_ipi_pending (w_sched w)))
          (set_remote_ready (alter (λ q, set_rq_items (rq_items q ++ [tid]) q) c (remote_ready (w_sched w)))
             (w_sched w))) (ipi_sent c w)) →
  wp (publish_remote_ready E tid c) Q w.
Proof.
  intros Hr Hnin Hlen Hb Hs HQ. apply wp_bind. eapply wp_with_sched; [by rewrite Hr|]. simpl.
  wp_step. wp_step; [by rewrite bool_decide_false|]. wp_step. wp_step; [rewrite bool_decide_false; [done|lia]|].
  wp_step. apply wp_modify. eapply wp_request_ipi; [done..|].
  match goal with |- context [ipi_sent c (set_w_sched ?s1 w)] =>
    change (set_w_sched s1 w) with (on_sched (λ _, s1) w) end.
  by rewrite set_ipi_sent.
Qed.

Lemma wp_complete_stale w tok cause notify (Q : CompletionResult → World → Prop) :
  thread_matches (w_sched w) (wt_thread tok) = false → Q CompletionStale w →
  wp (complete_wait_transition E tok cause notify) Q w.
Proof. intros Hm HQ. apply wp_bind. wp_step. rewrite Hm. by apply wp_ret. Qed.

(** No effect on the wait: already completed, or not the active one. *)
Lemma wp_complete_inert w tok t cause notify r (Q : CompletionResult → World → Prop) :
  live (w_sched w) (wt_thread tok) t → complete (t_wait t) tok cause = (r, t_wait t) →
  r = AlreadyCompleted ∨ r = CompletionStale → validates (w_sched w) → Q r w →
  wp (complete_wait_transition E tok cause notify) Q w.
Proof.
  intros Hl Hcm Hr Hv HQ. apply wp_bind. wp_step. rewrite (live_matches _ _ _ Hl). simpl.
  wp_step. eapply wp_on_wait; [done|by rewrite Hcm|].
  rewrite on_sched_id by (eapply alter_thread_id; [done|by destruct t]).
  destruct Hr as [-> | ->]; wp_step; wp_step; wp_step; apply wp_validate; done.
Qed.

Lemma wp_complete_prepared w tok t wm cause notify (Q : CompletionResult → World → Prop) :
  live (w_sched w) (wt_thread tok) t → complete (t_wait t) tok cause = (CompletedPrepared, wm) →
  t_state t = Running →
  let s' := alter_thread (set_t_wait wm) (tid_index (wt_thread tok)) (w_sched w) in
  validates s' → Q CompletedPrepared (set_w_sched s' w) →
  wp (complete_wait_transition E tok cause notify) Q w.
Proof.
  intros Hl Hcm Hr s' Hv HQ. apply wp_bind. wp_step. rewrite (live_matches _ _ _ Hl). simpl.
  wp_step. eapply wp_on_wait; [done|by rewrite Hcm|]. wp_step.
  wp_step. eapply wp_with_sched; [by eapply live_state, (live_alter_same (set_t_wait wm))|].
  wp_step; [by apply bool_decide_eq_true|]. wp_step. by apply wp_validate.
Qed.

(** What follows a local wake: a new peer of the current thread is announced,
    or the timer path only records the request. *)
Definition wake_note (was_empty notify : bool) : W unit :=
  if notify then (if was_empty then note_runnable_peer_available E else mret tt)
  else request_reschedule_on E (e_cpu E).

Lemma wp_complete_local w st tok t wm cause notify (Q : CompletionResult → World → Prop) :
  cpus (w_sched w) !! e_cpu E = Some st →
  live (w_sched w) (wt_thread tok) t → complete (t_wait t) tok cause = (WokeBlocked, wm) →
  t_state t = Blocked → t_home_cpu t = e_cpu E →
  cs_idle st ≠ Some (wt_thread tok) → pushable st (wt_thread tok) →
  wp (wake_note (bool_decide (queue_of st = [])) notify)
     (λ _ w', validates (w_sched w') ∧ Q WokeBlocked w')
     (set_w_sched (wake_local_s (wt_thread tok) wm (e_cpu E) (w_sched w)) w) →
  wp (complete_wait_transition E tok cause notify) Q w.
Proof.
  intros Hst Hl Hcm Hb Hh Hi [Hfr Hroom] HQ. apply wp_bind. wp_step. rewrite (live_matches _ _ _ Hl). simpl.
  wp_step. eapply wp_on_wait; [done|by rewrite Hcm|]. wp_step.
  pose proof (live_alter_same (set_t_wait wm) _ _ _ Hl) as Hl1.
  wp_step. eapply wp_with_sched; [by eapply live_state|].
  wp_step. wp_step; [by apply bool_decide_eq_true|]. wp_step. eapply wp_with_sched; [by eapply live_home_cpu|].
  rewrite decide_True by done. wp_step. apply wp_bind. wp_step. wp_step.
  wp_step; [by eapply live_matches|]. wp_step. eapply wp_thread_mut; [done|].
  wp_step. eapply wp_local_state; [done|]. rewrite decide_False by done.
  pose proof (live_alter_same (set_t_state Ready) _ _ _ Hl1) as Hl2.
  cbv zeta. wp_step. eapply (wp_push_back _ st); [done|done|exact Hl2|done..|].
  match goal with |- wp _ _ ?w' => replace w' with
    (set_w_sched (wake_local_s (wt_thread tok) wm (e_cpu E) (w_sched w)) w); [|] end.
  2:{ rewrite !on_sched_compose. unfold on_sched. f_equal. unfold wake_local_s. cbn [compose].
      by rewrite !alter_thread_compose. }
  simpl t_home_cpu. rewrite Hh. unfold wake_note in HQ. destruct notify; simpl.
  - eapply wp_mono; [exact HQ|]. intros _ w' [Hv HQ']. wp_step. wp_step. by apply wp_validate.
  - wp_step. eapply wp_mono; [exact HQ|]. intros _ w' [Hv HQ']. wp_step. by apply wp_validate.
Qed.

Lemma wp_complete_remote w tok t wm rem cap b cause notify (Q : CompletionResult → World → Prop) :
  live (w_sched w) (wt_thread tok) t → complete (t_wait t) tok cause = (WokeBlocked, wm) →
  t_state t = Blocked → t_home_cpu t ≠ e_cpu E →
  remote_ready (w_sched w) !! t_home_cpu t = Some (mkReadyQueue rem cap) →
  wt_thread tok ∉ rem → length rem < cap →
  scheduler_ipi_pending (w_sched w) !! t_home_cpu t = Some b → e_arch_send_ipi E (t_home_cpu t) = true →
  let s' := wake_remote_s (wt_thread tok) wm (t_home_cpu t) (w_sched w) in
  validates s' → Q WokeBlocked (set_w_sched s' (ipi_sent (t_home_cpu t) w)) →
  wp (complete_wait_transition E tok cause notify) Q w.
Proof.
  intros Hl Hcm Hb Hh Hrem Hnin Hlen Hip Hs s' Hv HQ.
  apply wp_bind. wp_step. rewrite (live_matches _ _ _ Hl). simpl.
  wp_step. eapply wp_on_wait; [done|by rewrite Hcm|]. wp_step.
  pose proof (live_alter_same (set_t_wait wm) _ _ _ Hl) as Hl1.
  wp_step. eapply wp_with_sched; [by eapply live_state|].
  wp_step. wp_step; [by apply bool_decide_eq_true|]. wp_step. eapply wp_with_sched; [by eapply live_home_cpu|].
  rewrite decide_False by done. wp_step. eapply wp_thread_mut; [done|].
  eapply wp_publish_remote; [done..|].
  match goal with |- wp _ _ ?w' => replace w' with (set_w_sched s' (ipi_sent (t_home_cpu t) w)); [|] end.
  { apply wp_bind. apply wp_validate; [done|]. by apply wp_ret. }
  rewrite !on_sched_compose, set_ipi_sent by done. f_equal. unfold on_sched, s', wake_remote_s. cbn [compose w_sched set_w_sched].
  by rewrite !alter_thread_compose.
Qed.
End spec.
