(* ===== verification/LifecycleSpec.v ===== *)
(** * Execution of publication, retirement and reclamation

    The second half of the execution lemmas: filling and emptying slots,
    finalizing the retired thread of a CPU, draining its ingress and starting
    it, with the moves of [Lifecycle] as results. *)

From S2P Require Import Prelude Types Wait TimeConv Preempt Context Vm Time Sched World Transition.
From S2P Require Import CpuInv SchedInv Switch Lifecycle TransitionSpec.

Section spec.
Context (E : Env).
Implicit Types (w : World) (Q : unit → World → Prop).

(** ** Reclamation *)

Lemma wp_table_release w tid t (Q : option UserThreadResources → World → Prop) :
  live (w_sched w) tid t → wait_is_none (t_wait t) = true →
  Q (t_user t) (on_sched (release_s tid) w) → wp (table_release tid) Q w.
Proof.
  intros Hl Hw HQ. pose proof (live_slot _ _ _ Hl) as (slot & Hs & Hg & Ht).
  apply wp_bind. wp_step. rewrite Hs, bool_decide_true, Ht by done. simpl. wp_step. wp_step; [done|].
  wp_step. apply wp_modify, wp_ret. world_from HQ. unfold on_sched. f_equal.
  unfold release_s. f_equal. unfold set_slots. f_equal. f_equal.
  symmetry. rewrite <-(list_insert_as_alter _ _ _ _ Hs). by rewrite Ht.
Qed.

Lemma wp_reap w tid t st (Q : option UserThreadResources → World → Prop) :
  live (w_sched w) tid t → cpus (w_sched w) !! t_home_cpu t = Some st →
  cs_idle st ≠ Some tid → cs_current st ≠ Some tid → cs_retired st ≠ Some tid → t_state t = Exited →
  queued_index (tid_index tid) (cs_ready_queue st) = false → wait_is_none (t_wait t) = true →
  validates E (release_s tid (w_sched w)) → Q (t_user t) (on_sched (release_s tid) w) →
  wp (transition_reap_exited E tid) Q w.
Proof.
  intros Hl Hst Hi Hc Hr Hex Hq Hw Hv HQ. apply wp_bind. wp_step. wp_step.
  wp_step; [by apply bool_decide_eq_true; eapply live_index_lt|]. wp_step. wp_step. wp_step.
  wp_step; [by eapply live_matches|]. wp_step. eapply wp_with_sched; [by eapply live_home_cpu|].
  wp_step. eapply wp_with_sched; [by eapply cpu_state_done|].
  wp_step. wp_step; [by rewrite bool_decide_false|]. wp_step. wp_step; [by rewrite bool_decide_false|].
  wp_step. eapply (wp_with_sched _ _ _ false).
  { unfold thread_is_retiring. rewrite (live_matches _ _ _ Hl), (live_home_cpu _ _ _ Hl), done_bind.
    rewrite (cpu_state_done _ _ _ Hst), done_bind. by rewrite bool_decide_false. }
  wp_step. wp_step; [done|]. wp_step. eapply wp_with_sched; [by eapply live_state|].
  wp_step. wp_step; [by apply bool_decide_eq_true|]. wp_step. wp_step; [by rewrite Hq|].
  wp_step. eapply wp_table_release; [done..|]. wp_step. by apply wp_validate.
Qed.

(** ** Ingress *)

Lemma wp_drain w st rem cap fuel Q :
  cpus (w_sched w) !! e_cpu E = Some st →
  remote_ready (w_sched w) !! e_cpu E = Some (mkReadyQueue rem cap) →
  length rem < fuel →
  (∀ tid, tid ∈ rem → queued_thread E (w_sched w) st tid) →
  NoDup (tid_index <$> queue_of st ++ rem) →
  length (queue_of st) + length rem ≤ rq_capacity (cs_ready_queue st) →
  Q tt (on_sched (λ s, set_remote_ready (alter (set_rq_items []) (e_cpu E) (remote_ready s))
                         (alter_cpu (λ st, set_cs_ready (queue_of st ++ rem) st) (e_cpu E) s)) w) →
  wp (drain_remote_ready E fuel) Q w.
Proof.
  revert w st rem. induction fuel as [|fuel IH]; intros w st rem Hst Hrem Hf Hq Hnd Hlen HQ; [lia|].
  apply wp_bind. eapply wp_with_sched; [unfold remote_ready_for; by rewrite Hrem|]. simpl.
  destruct rem as [|tid rem].
  { apply wp_ret. rewrite on_sched_id in HQ; [done|].
    erewrite alter_cpu_id; [|done|rewrite app_nil_r; by destruct st as [? ? ? [] ? ?]].
    unfold set_remote_ready. erewrite <-(list_insert_as_alter (set_rq_items [])) by done.
    simpl. rewrite list_insert_id by done. by destruct (w_sched w). }
  destruct (Hq tid) as [Hi (t & Hl & Hr & Hh)]; [by left|].
  wp_step. apply wp_modify. wp_step. wp_step. wp_step. wp_step; [by eapply live_matches|].
  wp_step. eapply wp_with_sched; [by eapply (live_thread_at _ _ _ Hl)|].
  wp_step. wp_step; [by apply bool_decide_eq_true|]. wp_step. wp_step; [by apply bool_decide_eq_true|].
  wp_step. rewrite fmap_app, fmap_cons in Hnd. simpl in Hlen.
  eapply (wp_push_back E _ st tid t); [done|done|done|done| |lia|].
  { apply NoDup_app in Hnd as (_ & Hd & _). unfold queued_index. apply not_true_iff_false.
    intros (x & Hx & Heq%bool_decide_eq_true)%existsb_exists. apply list_elem_of_In in Hx.
    apply (Hd (tid_index tid)); [|by left]. rewrite <-Heq. by apply list_elem_of_fmap_2. }
  eapply (IH _ (set_cs_ready (queue_of st ++ [tid]) st) rem).
  - exact (cpus_alter_cpu (λ st, set_cs_ready (queue_of st ++ [tid]) st) _ _ _ Hst).
  - simpl. by rewrite list_lookup_alter_eq, Hrem.
  - simpl in Hf. lia.
  - intros x Hx. destruct (Hq x) as [? ?]; [by right|]. by split.
  - simpl queue_of. rewrite <-app_assoc, fmap_app. exact Hnd.
  - simpl. rewrite length_app. simpl. lia.
  - world_from HQ. unfold on_sched, set_w_sched. cbn [w_sched w_preempt w_time w_timer w_vm w_active w_ipis w_reads]. f_equal.
    unfold set_remote_ready, alter_cpu, set_cpus. simpl. f_equal.
    + rewrite <-list_alter_compose. apply list_alter_ext; [|done]. intros x Hx. unfold set_cs_ready. simpl.
      by rewrite <-app_assoc.
    + rewrite <-list_alter_compose. apply list_alter_ext; [|done]. by intros [].
Qed.

Lemma wp_consume_ipi w st rem cap b Q :
  cpus (w_sched w) !! e_cpu E = Some st →
  remote_ready (w_sched w) !! e_cpu E = Some (mkReadyQueue rem cap) →
  scheduler_ipi_pending (w_sched w) !! e_cpu E = Some b → (rem ≠ [] → b = true) →
  (∀ tid, tid ∈ rem → queued_thread E (w_sched w) st tid) →
  NoDup (tid_index <$> queue_of st ++ rem) →
  length (queue_of st) + length rem ≤ rq_capacity (cs_ready_queue st) →
  Q tt (on_sched (drain_s (e_cpu E)) w) →
  wp (consume_scheduler_ipi E) Q w.
Proof.
  intros Hst Hrem Hb Himp Hq Hnd Hlen HQ. apply wp_bind.
  eapply wp_with_sched; [unfold ipi_pending_for; by rewrite Hb|]. wp_step. apply wp_modify.
  wp_step. eapply wp_with_sched; [unfold remote_ready_for; simpl; by rewrite Hrem|].
  wp_step. wp_step.
  { simpl. destruct rem; [by rewrite orb_true_r|]. by rewrite Himp. }
  eapply (wp_drain _ st rem cap); [exact Hst|exact Hrem|simpl; lia|intros x Hx; destruct (Hq x Hx); by split|exact Hnd|exact Hlen|].
  world_from HQ. unfold on_sched. simpl.
  unfold drain_s, set_w_sched. f_equal. unfold remote. by rewrite Hrem.
Qed.
(** ** Publication *)

Section publish.
Context {w : World} {id : nat} {slot : ThreadSlot} {stack : OwnedKernelStack}.
Context {home : CpuId} {context : TrapFrame} {user : option UserThreadResources} {joinable : bool} {gen : Z}.
Context {pre : ThreadId → CpuId → option AddressSpaceId → W unit}.
Let tid := mkThreadId id gen.
Let t := fresh_thread home joinable user (sl_next_wait_sequence slot) stack context.
Let s1 := fill_s id gen t (w_sched w).
Hypothesis Hslot : table_slots (w_sched w) !! id = Some slot.
Hypothesis Hfree : sl_thread slot = None.
Hypothesis Hstack : sl_stack slot = Some stack.
Hypothesis Howner : ∀ u, user = Some u → owner_cpu (ur_address_space u) = home.
Hypothesis Hpre : wp (pre tid home (ur_address_space <$> user)) (λ _ w', w' = set_w_sched s1 w) (set_w_sched s1 w).

Lemma fill_live : live s1 tid t.
Proof. unfold live, s1. by rewrite (table_get_fill _ _ _ _ slot), decide_True. Qed.

Lemma fill_slot_eq : s1 = set_slots (<[id := mkThreadSlot gen (sl_next_wait_sequence slot) None (Some t)]>
                                      (table_slots (w_sched w))) (w_sched w).
Proof. unfold s1, fill_s. f_equal. by rewrite <-(list_insert_as_alter _ _ _ _ Hslot). Qed.

Lemma wp_publish_fill bootstrap idle Q :
  (idle = true → home = e_cpu E) →
  wp ((if idle then
         st ← local_state E;
         state_mut (e_cpu E) (set_cs_idle (Some tid));;
         assert_that (match cs_idle st with None => true | Some _ => false end)
                     "sched: CPU already has an idle thread"
       else if decide (home = e_cpu E) then
         st ← local_state E;
         let was_empty := bool_decide (rq_items (cs_ready_queue st) = []) in
         ready_push_back E tid;;
         if negb bootstrap && was_empty then note_runnable_peer_available E else mret tt
       else publish_remote_ready E tid home);;
      validate_after_transition E) Q (set_w_sched s1 w) →
  wp (publish E home id context user joinable gen bootstrap idle pre) Q w.
Proof.
  intros Hidle HQ. apply wp_bind. wp_step.
  { destruct idle; [|done]. by rewrite Hidle, bool_decide_true. }
  wp_step. eapply wp_with_sched; [unfold slot_at; by rewrite Hslot|].
  wp_step. wp_step; [by rewrite Hfree|]. wp_step. eapply wp_expect; [done|].
  wp_step. apply wp_modify. pose proof fill_slot_eq as Heq.
  unfold t, fresh_thread in Heq. rewrite <-Heq. pose proof fill_live as Hl.
  wp_step. eapply (wp_with_sched _ _ _ tid).
  { unfold thread_id, slot_at. cbn [w_sched set_w_sched]. rewrite Heq. unfold table_slots. simpl.
    rewrite list_lookup_insert_eq by (by apply lookup_lt_Some in Hslot). done. }
  wp_step. eapply wp_with_sched; [apply (live_aspace _ _ _ Hl)|].
  wp_step. wp_step.
  { simpl. destruct user as [u|]; simpl; [|done]. apply bool_decide_eq_true. auto. }
  wp_step. eapply wp_mono; [exact Hpre|]. intros _ w' ->. exact HQ.
Qed.

Lemma wp_publish_local st bootstrap Q :
  home = e_cpu E → cpus (w_sched w) !! e_cpu E = Some st → cs_idle st ≠ Some tid → pushable st tid →
  wp (if negb bootstrap && bool_decide (queue_of st = []) then note_runnable_peer_available E else mret tt)
     (λ _ w', validates E (w_sched w') ∧ Q tt w')
     (set_w_sched (queue_local_s tid (e_cpu E) s1) w) →
  wp (publish E home id context user joinable gen bootstrap false pre) Q w.
Proof.
  intros Hh Hst Hi [Hfr Hroom] HQ. apply wp_publish_fill; [done|]. rewrite decide_True by done.
  wp_step. wp_step. eapply wp_local_state; [exact Hst|]. cbv zeta. wp_step.
  eapply (wp_push_back E _ st tid t); [done|done|exact fill_live|done..|].
  eapply wp_mono; [exact HQ|]. intros _ w' [Hv HQ']. by apply wp_validate.
Qed.

Lemma wp_publish_idle st bootstrap Q :
  home = e_cpu E → cpus (w_sched w) !! e_cpu E = Some st → cs_idle st = None →
  let s' := alter_cpu (set_cs_idle (Some tid)) (e_cpu E) s1 in
  validates E s' → Q tt (set_w_sched s' w) →
  wp (publish E home id context user joinable gen bootstrap true pre) Q w.
Proof.
  intros Hh Hst Hi s' Hv HQ. apply wp_publish_fill; [done|].
  wp_step. wp_step. eapply wp_local_state; [exact Hst|]. wp_step. eapply wp_state_mut; [exact Hst|].
  wp_step; [by rewrite Hi|]. by apply wp_validate.
Qed.

Lemma wp_publish_away rem cap b bootstrap Q :
  home ≠ e_cpu E → remote_ready (w_sched w) !! home = Some (mkReadyQueue rem cap) →
  tid ∉ rem → length rem < cap →
  scheduler_ipi_pending (w_sched w) !! home = Some b → e_arch_send_ipi E home = true →
  let s' := queue_remote_s tid home s1 in
  validates E s' → Q tt (set_w_sched s' (ipi_sent home w)) →
  wp (publish E home id context user joinable gen bootstrap false pre) Q w.
Proof.
  intros Hh Hrem Hnin Hlen Hb Hs s' Hv HQ. apply wp_publish_fill; [done|]. rewrite decide_False by done.
  wp_step. eapply wp_publish_remote; [exact Hrem|done|done|exact Hb|done|].
  change (set_w_sched s1 w) with (on_sched (λ _, s1) w). rewrite set_ipi_sent by done. by apply wp_validate.
Qed.
End publish.

(** ** Starting a CPU *)

Lemma wp_initial_dispatch w st to rest (Q : unit + SchedError → World → Prop) :
  cpus (w_sched w) !! e_cpu E = Some st → cs_current st = None → next_of E (w_sched w) st to rest →
  let s' := enter_s to rest (e_cpu E) (start_s (e_cpu E) (w_sched w)) in
  validates E s' → Q (inl tt) (set_w_sched s' w) →
  wp (transition_initial_dispatch E) Q w.
Proof.
  intros Hst Hc Hnx s' Hv HQ. pose proof Hnx as [_ (tto & Hlt & Hrt & Hht)].
  apply wp_bind. eapply wp_local_state; [done|]. rewrite Hc.
  wp_step. eapply wp_pop_or_idle; [done..|]. wp_step.
  eapply (wp_make_running E _ _ to tto); [by apply cpus_alter_cpu|exact Hlt|done..|].
  wp_step. eapply wp_state_mut; [by apply cpus_alter_cpu, cpus_alter_cpu|].
  match goal with |- wp _ _ ?w' => replace w' with (set_w_sched s' w); [|] end.
  { apply wp_bind. apply wp_validate; [done|]. by apply wp_ret. }
  rewrite !on_sched_compose. unfold on_sched. f_equal. unfold s', enter_s, start_s. cbn [compose].
  by rewrite !alter_cpu_thread, !alter_cpu_compose.
Qed.
End spec.
