(* ===== verification/WorldInv.v ===== *)
(** * The machine invariant

    What ties the shared scheduler to the CPU-local records: every pending
    timer event names a wait that is still open or the running thread, a CPU
    with a runnable peer has its quantum pending, the timer register is no
    later than any pending deadline, and no user translation root is used on
    two CPUs.  A CPU in the middle of an operation is [Busy]: its quantum may
    still be that of the thread it has just left, and inside of a timer
    interrupt its time state is dispatching. *)

From stdpp Require Import gmap.
From S2P Require Import Prelude Types Wait TimeConv Deadline Preempt Context Vm Time Sched World.
From S2P Require Import CpuInv SchedInv Switch.

Inductive Mode := Stable | Busy (cpu : CpuId) (dispatching : bool) (left : option ThreadId).

Definition busy (m : Mode) (c : CpuId) : Prop :=
  match m with Stable => False | Busy c' _ _ => c' = c end.
Definition dispatching_on (m : Mode) (c : CpuId) : Prop :=
  match m with Busy c' true _ => c' = c | _ => False end.
(** The thread that has just left the CPU may keep a stale quantum. *)
Definition exempt (m : Mode) (c : CpuId) (t : ThreadId) : Prop :=
  match m with Busy c' _ (Some t') => c' = c ∧ t' = t | _ => False end.

#[global] Instance busy_dec m c : Decision (busy m c).
Proof. destruct m; simpl; apply _. Defined.
#[global] Instance dispatching_on_dec m c : Decision (dispatching_on m c).
Proof. destruct m as [|? []]; simpl; apply _. Defined.

(** ** Pending events *)

(** The reserved capacity of every CPU's event queue. *)
Definition EVENT_CAPACITY : nat := KERNEL_THREAD_CAPACITY * TIMED_EVENT_CAPACITY_PER_THREAD.

Definition time_at (w : World) (c : CpuId) : option CpuTime := mjoin (w_time w !! c).
Definition events (w : World) (c : CpuId) : gmap TimedEvent Z :=
  match time_at w c with Some ts => ts_events ts | None => ∅ end.
Definition pending (w : World) (c : CpuId) (ev : TimedEvent) : Prop := is_Some (events w c !! ev).

(** The token is the open wait of a live thread of the CPU. *)
Definition token_waiting (s : Scheduler) (c : CpuId) (tok : WaitToken) : Prop :=
  ∃ t a, live s (wt_thread tok) t ∧ t_home_cpu t = c ∧ active (t_wait t) = Some a ∧ aw_token a = tok ∧
         wait_is_completed (t_wait t) = false.

(** ** Translation roots *)

Definition thread_root (t : Thread) : option Z := root_pa ∘ ur_address_space <$> t_user t.

Record roots_ok (s : Scheduler) (vm : vm_table) : Prop := {
  ro_apart : vm_ok vm;
  ro_installed : ∀ tid t r c u, live s tid t → thread_root t = Some r →
    vm !! c = Some u → installed u = r → c = t_home_cpu t;
  ro_shared : ∀ tid1 t1 tid2 t2 r, live s tid1 t1 → live s tid2 t2 →
    thread_root t1 = Some r → thread_root t2 = Some r → t_home_cpu t1 = t_home_cpu t2;
  ro_valid : ∀ tid t r, live s tid t → thread_root t = Some r → r ≠ NO_ACTIVE_USER_ROOT
}.

(** ** The invariant *)

Record links (m : Mode) (s : Scheduler) (w : World) : Prop := {
  lk_wait : ∀ c c' tok, pending w c (WaitDeadline c' tok) → c' = c ∧ wt_cpu tok = c ∧ token_waiting s c tok;
  lk_quantum : ∀ c c' t, pending w c (QuantumExpired c' t) → c' = c ∧ (cur s c = Some t ∨ exempt m c t);
  lk_joiner : ∀ tok c, joined s tok → ¬ pending w c (wait_deadline tok);
  lk_armed : ∀ c t, ¬ busy m c → cs_online (cst s c) = true → cur s c = Some t → ready s c ≠ [] →
    pending w c (quantum_expired c t);
  lk_time : ∀ c, cs_online (cst s c) = true → is_Some (time_at w c);
  lk_roots : roots_ok s (w_vm w);
  lk_peer : ∀ c t, pending w c (quantum_expired c t) → cur s c = Some t → ready s c ≠ []
}.

Record hw_ok (m : Mode) (w : World) : Prop := {
  hw_preempt : length (w_preempt w) = KERNEL_CPU_CAPACITY;
  hw_time : length (w_time w) = KERNEL_CPU_CAPACITY;
  hw_timer : length (w_timer w) = KERNEL_CPU_CAPACITY;
  hw_active : length (w_active w) = KERNEL_CPU_CAPACITY;
  hw_clock : ∀ c ts, time_at w c = Some ts →
    (¬ dispatching_on m c → time_ok c EVENT_CAPACITY ts ∧ w_timer w !! c = Some (ts_armed ts)) ∧
    (dispatching_on m c → time_dispatching c EVENT_CAPACITY ts)
}.

Record world_ok (N : nat) (m : Mode) (w : World) : Prop := {
  wo_sched : sched_ok N None (w_sched w);
  wo_hw : hw_ok m w;
  wo_links : links m (w_sched w) w
}.

(** ** Transfer of the links along scheduler updates *)

Section links.
Context {m : Mode} {s : Scheduler} {w : World}.

(** Links only look at threads, at the current thread, the queue and the
    status of every CPU, and at the rest of the world. *)
Lemma links_ext s' :
  links m s w → (∀ x, table_get s' x = table_get s x) →
  (∀ c, cur s' c = cur s c ∧ ready s' c = ready s c ∧ cs_online (cst s' c) = cs_online (cst s c)) →
  links m s' w.
Proof.
  intros [H1 H2 H3 H4 H5 [H6 H7 H8 H9] HP] Hg Hc.
  assert (∀ x t, live s' x t ↔ live s x t) as Hl by (intros; unfold live; by rewrite Hg).
  split.
  - intros c c' tok Hp. destruct (H1 c c' tok Hp) as (? & ? & t & a & ? & ?). do 2 (split; [done|]).
    exists t, a. by rewrite Hl.
  - intros c c' t. destruct (Hc c) as (-> & _). apply H2.
  - intros tok c (x & tx & Hx%Hl & Hj). apply H3. by exists x, tx.
  - intros c t. destruct (Hc c) as (-> & -> & ->). apply H4.
  - intros c. destruct (Hc c) as (_ & _ & ->). apply H5.
  - split; [done|..].
    + intros tid t r c u Ht%Hl. eauto.
    + intros tid1 t1 tid2 t2 r Ha%Hl Hb%Hl. eauto.
    + intros tid t r Ht%Hl. eauto.
  - intros c t. destruct (Hc c) as (-> & -> & _). apply HP.
Qed.

(** A thread record changes: its home stays, its joiner is kept or has no
    deadline, its root is kept, and a wait that closes has no deadline
    pending. *)
Record link_change (tid : ThreadId) (t t' : Thread) : Prop := {
  lc_home : t_home_cpu t' = t_home_cpu t;
  lc_joiner : t_joiner t' = t_joiner t ∨ ∀ tok c, t_joiner t' = Some tok → ¬ pending w c (wait_deadline tok);
  lc_root : thread_root t' = thread_root t;
  lc_wait : ∀ a, active (t_wait t) = Some a → wait_is_completed (t_wait t) = false →
    pending w (t_home_cpu t) (wait_deadline (aw_token a)) → wt_thread (aw_token a) = tid →
    ∃ a', active (t_wait t') = Some a' ∧ aw_token a' = aw_token a ∧ wait_is_completed (t_wait t') = false
}.

(** The same with a new address-space table that agrees with the threads. *)
Lemma links_thread_roots f tid t vm' :
  links m s w → live s tid t → t_home_cpu (f t) = t_home_cpu t →
  (t_joiner (f t) = t_joiner t ∨ ∀ tok c, t_joiner (f t) = Some tok → ¬ pending w c (wait_deadline tok)) →
  (∀ a, active (t_wait t) = Some a → wait_is_completed (t_wait t) = false →
     pending w (t_home_cpu t) (wait_deadline (aw_token a)) → wt_thread (aw_token a) = tid →
     ∃ a', active (t_wait (f t)) = Some a' ∧ aw_token a' = aw_token a ∧ wait_is_completed (t_wait (f t)) = false) →
  roots_ok (alter_thread f (tid_index tid) s) vm' →
  links m (alter_thread f (tid_index tid) s) (set_w_vm vm' w).
Proof.
  intros [H1 H2 H3 H4 H5 _ HP] Hl Lh Lj Lw Hroots.
  pose proof (alter_thread_changed s f tid t Hl) as Hch. set (s' := alter_thread f (tid_index tid) s) in *.
  split; try done.
  - intros c c' tok Hp. destruct (H1 c c' tok Hp) as (-> & Hc & tx & a & Hx & Hh & Ha & Htok & Hcm).
    do 2 (split; [done|]). destruct (decide (wt_thread tok = tid)) as [Heq|Hne].
    + rewrite Heq in Hx. rewrite (live_fun _ _ _ _ Hx Hl) in *.
      destruct (Lw a) as (a' & Ha' & Htok' & Hcm'); [done|done| |congruence|].
      { rewrite Htok. unfold wait_deadline. by rewrite Hc, Hh. }
      exists (f t), a'. rewrite Heq. split_and!; [by eapply changed_self|congruence..].
    + exists tx, a. split_and!; [by eapply changed_other|done..].
  - intros tok c (x & tx' & [[-> Hx']|[Hne Hx']]%(changed_live _ _ _ _ _ _ Hch) & Hj).
    + injection Hx' as <-. destruct Lj as [Lj|Lj]; [|by apply Lj]. apply H3. exists tid, t. split; [done|congruence].
    + apply H3. by exists x, tx'.
Qed.

Lemma links_thread f tid t :
  links m s w → live s tid t → link_change tid t (f t) → links m (alter_thread f (tid_index tid) s) w.
Proof.
  intros Hlk Hl [Lh Lj Lr Lw]. pose proof (lk_roots _ _ _ Hlk) as [H6 H7 H8 H9].
  replace w with (set_w_vm (w_vm w) w) by (by destruct w). apply (links_thread_roots f tid t (w_vm w)); try done.
  pose proof (alter_thread_changed s f tid t Hl) as Hch. set (s' := alter_thread f (tid_index tid) s) in *.
  assert (∀ x tx', live s' x tx' → ∃ tx, live s x tx ∧ t_home_cpu tx' = t_home_cpu tx ∧
            thread_root tx' = thread_root tx) as Hback.
  { intros x tx' [[-> ?]|[Hne ?]]%(changed_live _ _ _ _ _ _ Hch); simplify_eq; eauto 10. }
  split; [done|..].
  - intros x tx' r c u Hx' Hr. destruct (Hback _ _ Hx') as (tx & Hx & -> & Hr'). rewrite Hr' in Hr. eauto.
  - intros x1 t1 x2 t2 r Hx1 Hx2 Hr1 Hr2. destruct (Hback _ _ Hx1) as (u1 & ? & -> & E1).
    destruct (Hback _ _ Hx2) as (u2 & ? & -> & E2). rewrite E1 in Hr1. rewrite E2 in Hr2. eauto.
  - intros x tx' r Hx' Hr. destruct (Hback _ _ Hx') as (tx & Hx & _ & Hr'). rewrite Hr' in Hr. eauto.
Qed.

(** The record of one CPU changes while that CPU is busy. *)
Lemma links_cpu c d ex ex' g :
  links (Busy c d ex) s w → c < length (cpus s) → cs_online (g (cst s c)) = cs_online (cst s c) →
  (∀ t, cur s c = Some t ∨ ex = Some t → cs_current (g (cst s c)) = Some t ∨ ex' = Some t) →
  (∀ t, cs_current (g (cst s c)) = Some t → pending w c (quantum_expired c t) → queue_of (g (cst s c)) ≠ []) →
  links (Busy c d ex') (alter_cpu g c s) w.
Proof.
  intros [H1 H2 H3 H4 H5 [H6 H7 H8 H9] HP] Hc Hon Hcur Hpeer.
  assert (∀ c', cst (alter_cpu g c s) c' = if decide (c = c') then g (cst s c) else cst s c') as Hcst.
  { intros c'. by apply cst_alter_cpu. }
  split; try done.
  - intros c1 c2 t Hp. destruct (H2 c1 c2 t Hp) as [-> Ht]. split; [done|]. unfold cur. rewrite Hcst.
    destruct (decide (c = c1)) as [<-|Hne].
    + destruct (Hcur t) as [|Hx]; [|by left|by right; rewrite Hx].
      destruct Ht as [|Ht]; [by left|]. simpl in Ht. destruct ex; naive_solver.
    + destruct Ht as [|Ht]; [by left|]. simpl in Ht. destruct ex; naive_solver.
  - intros c1 t Hb. unfold cur, ready. rewrite Hcst. destruct (decide (c = c1)); [done|]. by apply H4.
  - intros c1. rewrite Hcst. destruct (decide (c = c1)) as [<-|]; [rewrite Hon|]; apply H5.
  - intros c1 t. unfold cur, ready. rewrite Hcst. destruct (decide (c = c1)) as [<-|]; [|by apply HP].
    intros Hp Hct. by eapply Hpeer.
Qed.

Lemma links_busy c d : links Stable s w → links (Busy c d None) s w.
Proof. intros [H1 H2 H3 H4 H5 H6 HP]. split; try done. intros c' t _. apply H4. by intros []. Qed.

(** The bookkeeping of a busy CPU is complete. *)
Lemma links_stable c d ex :
  links (Busy c d ex) s w →
  (∀ t, pending w c (quantum_expired c t) → cur s c = Some t) →
  (∀ t, cs_online (cst s c) = true → cur s c = Some t → ready s c ≠ [] → pending w c (quantum_expired c t)) →
  links Stable s w.
Proof.
  intros [H1 H2 H3 H4 H5 H6 HP] Hq Ha. split; try done.
  - intros c1 c2 t Hp. destruct (H2 c1 c2 t Hp) as [-> Ht]. split; [done|]. left.
    destruct Ht as [|Ht]; [done|]. simpl in Ht. destruct ex; [|done]. destruct Ht as [-> ->]. by apply Hq.
  - intros c1 t _. destruct (decide (c1 = c)) as [->|Hne]; [by apply Ha|]. apply H4. simpl. congruence.
Qed.

(** A fresh thread brings no link, if its root is used nowhere else. *)
Lemma links_new s' tid t :
  links m s w → thread_changed s s' tid (Some t) → table_get s tid = None → (∀ c, cst s' c = cst s c) →
  t_joiner t = None →
  (∀ r, thread_root t = Some r → r ≠ NO_ACTIVE_USER_ROOT ∧
     (∀ c u, w_vm w !! c = Some u → installed u = r → c = t_home_cpu t) ∧
     (∀ x tx, live s x tx → thread_root tx = Some r → t_home_cpu tx = t_home_cpu t)) →
  links m s' w.
Proof.
  intros [H1 H2 H3 H4 H5 [H6 H7 H8 H9] HP] Hch Hd Hc Hj Hr.
  split; try done.
  - intros c c' tok Hp. destruct (H1 c c' tok Hp) as (-> & Hc' & tx & a & Hx & ?). do 2 (split; [done|]).
    exists tx, a. split; [|done]. eapply changed_other; [done| |done]. intros Heq. unfold live in Hx. rewrite Heq in Hx. congruence.
  - intros c c' x. unfold cur. rewrite Hc. apply H2.
  - intros tok c (x & tx & Hx & Htok). apply (changed_live _ _ _ _ _ _ Hch) in Hx as [[-> ?]|[_ Hx]]; [simplify_eq|].
    apply H3. by exists x, tx.
  - intros c x. unfold cur, ready. rewrite Hc. apply H4.
  - intros c. rewrite Hc. apply H5.
  - split; [done|..].
    + intros x tx r c u [[-> ?]|[_ Hx]]%(changed_live _ _ _ _ _ _ Hch) Hrx; [simplify_eq|by eauto].
      destruct (Hr r Hrx) as (_ & ? & _). eauto.
    + intros x1 t1 x2 t2 r [[-> ?]|[_ Hx1]]%(changed_live _ _ _ _ _ _ Hch)
        [[-> ?]|[_ Hx2]]%(changed_live _ _ _ _ _ _ Hch) R1 R2; simplify_eq; [done| | |by eauto].
      * symmetry. destruct (Hr r R1) as (_ & _ & ?). eauto.
      * destruct (Hr r R2) as (_ & _ & ?). eauto.
    + intros x tx r [[-> ?]|[_ Hx]]%(changed_live _ _ _ _ _ _ Hch) Hrx; [simplify_eq; by apply Hr|by eauto].
  - intros c x. unfold cur, ready. rewrite Hc. apply HP.
Qed.

(** A reclaimed thread had no wait open. *)
Lemma links_gone s' tid t :
  links m s w → live s tid t → thread_changed s s' tid None → (∀ c, cst s' c = cst s c) →
  active (t_wait t) = None → links m s' w.
Proof.
  intros [H1 H2 H3 H4 H5 [H6 H7 H8 H9] HP] Hl Hch Hc Hw.
  assert (∀ x tx, live s' x tx → x ≠ tid ∧ live s x tx) as Hback.
  { intros x tx [[-> ?]|?]%(changed_live _ _ _ _ _ _ Hch); done. }
  split; try done.
  - intros c c' tok Hp. destruct (H1 c c' tok Hp) as (-> & Hc' & tx & a & Hx & ? & Ha & ?). do 2 (split; [done|]).
    exists tx, a. split; [|done]. eapply changed_other; [done| |done]. intros Heq. rewrite Heq in Hx.
    rewrite (live_fun _ _ _ _ Hx Hl) in Ha. congruence.
  - intros c c' x. unfold cur. rewrite Hc. apply H2.
  - intros tok c (x & tx & [_ Hx]%Hback & Htok). apply H3. by exists x, tx.
  - intros c x. unfold cur, ready. rewrite Hc. apply H4.
  - intros c. rewrite Hc. apply H5.
  - split; [done|..].
    + intros x tx r c u [_ Hx]%Hback. eauto.
    + intros x1 t1 x2 t2 r [_ ?]%Hback [_ ?]%Hback. eauto.
    + intros x tx r [_ Hx]%Hback. eauto.
  - intros c x. unfold cur, ready. rewrite Hc. apply HP.
Qed.
End links.

(** ** Changes of the time state *)

Record retimed (c : CpuId) (evs : gmap TimedEvent Z) (w w' : World) : Prop := {
  rt_sched : w_sched w' = w_sched w;
  rt_preempt : w_preempt w' = w_preempt w;
  rt_vm : w_vm w' = w_vm w;
  rt_active : w_active w' = w_active w;
  rt_events : ∀ c', events w' c' = if decide (c' = c) then evs else events w c';
  rt_some : ∀ c', is_Some (time_at w' c') ↔ is_Some (time_at w c')
}.

Lemma links_retimed m m' c evs s w w' :
  links m s w → retimed c evs w w' →
  (∀ c', c' ≠ c → busy m c' → busy m' c') →
  (∀ c' t, c' ≠ c → exempt m c' t → exempt m' c' t) →
  (∀ c' tok, is_Some (evs !! WaitDeadline c' tok) →
     c' = c ∧ wt_cpu tok = c ∧ token_waiting s c tok ∧ ¬ joined s tok) →
  (∀ c' t, is_Some (evs !! QuantumExpired c' t) → c' = c ∧ (cur s c = Some t ∨ exempt m' c t)) →
  (∀ t, ¬ busy m' c → cs_online (cst s c) = true → cur s c = Some t → ready s c ≠ [] →
     is_Some (evs !! quantum_expired c t)) →
  (∀ t, is_Some (evs !! quantum_expired c t) → cur s c = Some t → ready s c ≠ []) →
  links m' s w'.
Proof.
  intros [H1 H2 H3 H4 H5 [H6 H7 H8 H9] HP] Hrt Hb Hex Hw Hq Ha Hpeer.
  pose proof (rt_events _ _ _ _ Hrt) as Hev. pose proof (rt_some _ _ _ _ Hrt) as Hs.
  split.
  - intros c1 c2 tok. unfold pending. rewrite Hev. destruct (decide (c1 = c)) as [->|]; [|by apply H1].
    intros (? & ? & ? & _)%Hw. done.
  - intros c1 c2 t. unfold pending. rewrite Hev. destruct (decide (c1 = c)) as [->|Hne]; [by apply Hq|].
    intros Hp. destruct (H2 c1 c2 t Hp) as [-> [|]]; eauto.
  - intros tok c1 Hj. unfold pending. rewrite Hev. destruct (decide (c1 = c)) as [->|Hne]; [|by apply H3].
    by intros (_ & _ & _ & Hnj)%Hw.
  - intros c1 t Hnb Hon Hcur Hr. unfold pending. rewrite Hev. destruct (decide (c1 = c)) as [->|Hne]; [by apply Ha|].
    apply H4; [|done..]. eauto.
  - intros c1 Hon. apply Hs. by apply H5.
  - rewrite (rt_vm _ _ _ _ Hrt). by split.
  - intros c1 t. unfold pending. rewrite Hev. destruct (decide (c1 = c)) as [->|]; [apply Hpeer|apply HP].
Qed.
