(* ===== verification/TimeSpec.v ===== *)
(** * Timer bookkeeping of the scheduler

    The CPU-local time, counter and preemption operations on the machine: what
    they change, that they never exceed the reserved event capacity, and that
    [ensure_quantum_event] restores the invariant of a CPU whose current
    thread or ready queue has changed. *)

From stdpp Require Import gmap.
From S2P Require Import Prelude Types Wait TimeConv Deadline Preempt Context Vm Time Sched World Transition.
From S2P Require Import CpuInv SchedInv Switch Lifecycle TransitionSpec WorldInv.

(** ** The event capacity is never exceeded *)

Definition event_thread (ev : TimedEvent) : ThreadId :=
  match ev with WaitDeadline _ tok => wt_thread tok | QuantumExpired _ t => t end.
Definition is_wait_event (ev : TimedEvent) : bool :=
  match ev with WaitDeadline _ _ => true | QuantumExpired _ _ => false end.

Section bound.
Context {N : nat} {m : Mode} {w : World} {c : CpuId}.
Hypothesis Hok : sched_ok N None (w_sched w).
Hypothesis Hlinks : links m (w_sched w) w.

Lemma pending_elem ev : ev ∈ elements (dom (events w c)) ↔ pending w c ev.
Proof. rewrite elem_of_elements, elem_of_dom. done. Qed.

(** At most one open wait per thread. *)
Lemma wait_events_bound : length (filter is_wait_event (elements (dom (events w c)))) ≤ N.
Proof.
  rewrite <-(length_fmap event_thread).
  etrans; [apply (live_length (w_sched w))|apply (sh_capacity _ _ (so_shape _ _ _ Hok))].
  - apply NoDup_fmap_2_strong; [|apply NoDup_filter, NoDup_elements].
    intros e1 e2 [Hw1 H1%pending_elem]%list_elem_of_filter [Hw2 H2%pending_elem]%list_elem_of_filter Heq.
    destruct e1 as [c1 tok1|], e2 as [c2 tok2|]; try done. simpl in Heq.
    destruct (lk_wait _ _ _ Hlinks _ _ _ H1) as (-> & _ & t1 & a1 & L1 & _ & A1 & T1 & _).
    destruct (lk_wait _ _ _ Hlinks _ _ _ H2) as (-> & _ & t2 & a2 & L2 & _ & A2 & T2 & _).
    rewrite Heq in L1. rewrite (live_fun _ _ _ _ L1 L2) in A1. congruence.
  - intros tid ([c1 tok1|] & -> & [Hw H%pending_elem]%list_elem_of_filter)%list_elem_of_fmap; [|done].
    destruct (lk_wait _ _ _ Hlinks _ _ _ H) as (_ & _ & t1 & a1 & L1 & _). eauto.
Qed.

Definition quantum_threads : list ThreadId :=
  option_list (cur (w_sched w) c) ++ match m with Busy _ _ (Some t) => [t] | _ => [] end.

(** At most the quanta of the current thread and of the one just left. *)
Lemma quantum_events_bound : length (filter (λ ev, negb (is_wait_event ev)) (elements (dom (events w c)))) ≤ 2.
Proof.
  rewrite <-(length_fmap event_thread). transitivity (length quantum_threads).
  - apply submseteq_length, NoDup_submseteq.
    + apply NoDup_fmap_2_strong; [|apply NoDup_filter, NoDup_elements].
      intros e1 e2 [Hw1 H1%pending_elem]%list_elem_of_filter [Hw2 H2%pending_elem]%list_elem_of_filter Heq.
      destruct e1 as [|c1 t1], e2 as [|c2 t2]; try done. simpl in Heq.
      destruct (lk_quantum _ _ _ Hlinks _ _ _ H1) as [-> _], (lk_quantum _ _ _ Hlinks _ _ _ H2) as [-> _]. congruence.
    + intros tid ([|c1 t1] & -> & [Hw H%pending_elem]%list_elem_of_filter)%list_elem_of_fmap; [done|].
      destruct (lk_quantum _ _ _ Hlinks _ _ _ H) as [_ Ht]. unfold quantum_threads. apply elem_of_app. simpl.
      destruct Ht as [->|Ht]; [left; by left|right]. destruct m as [|? ? [x|]]; try done.
      destruct Ht as [_ ->]. by left.
  - unfold quantum_threads. rewrite length_app. destruct (cur _ _), m as [|? ? []]; simpl; lia.
Qed.

Lemma events_bound : size (events w c) < EVENT_CAPACITY.
Proof.
  rewrite <-size_dom. unfold size, set_size. simpl.
  pose proof wait_events_bound as H1. pose proof quantum_events_bound as H2.
  pose proof (sh_capacity _ _ (so_shape _ _ _ Hok)) as [_ HN].
  assert (∀ l, length l = length (filter is_wait_event l) + length (filter (λ ev, negb (is_wait_event ev)) l)) as Hl.
  { induction l as [|e l IH]; [done|]. rewrite !filter_cons. destruct e; simpl; rewrite IH; lia. }
  rewrite Hl. unfold EVENT_CAPACITY, KERNEL_THREAD_CAPACITY, TIMED_EVENT_CAPACITY_PER_THREAD in *. lia.
Qed.
End bound.

(** Each queue is well formed and below its own reservation. *)
Lemma event_room {N w c ts} :
  world_ok N Stable w → time_at w c = Some ts → queue_ok (ts_queue ts) ∧ size (abs (ts_queue ts)) < dq_reserved (ts_queue ts).
Proof.
  intros [Hs Hhw Hlk] Hts. destruct (hw_clock _ _ Hhw c ts Hts) as [Ht _]. destruct Ht as [Hok _]; [by intros []|].
  destruct (to_queue _ _ _ Hok) as [Hq Hcap _]. split; [done|].
  pose proof (events_bound (m:=Stable) (w:=w) (c:=c) Hs Hlk) as Hb. unfold events in Hb. rewrite Hts in Hb. cbn in Hcap. by rewrite Hcap.
Qed.

(** ** Operations on the time state *)

Section time_spec.
Context (E : Env).
Implicit Types w : World.

(** The world after CPU [c]'s time state and the executing CPU's timer register
    were written. *)
Definition time_upd (c : CpuId) (ts : CpuTime) (hw : option Z) w : World :=
  set_w_timer (<[e_cpu E := hw]> (w_timer w)) (set_w_time (<[c := Some ts]> (w_time w)) w).

Lemma time_at_upd c ts hw w c' ts0 :
  time_at w c = Some ts0 → time_at (time_upd c ts hw w) c' = if decide (c' = c) then Some ts else time_at w c'.
Proof.
  unfold time_at. intros Hts. simpl. destruct (w_time w !! c) as [o|] eqn:Hw; [|done].
  destruct (decide (c' = c)) as [->|Hne].
  - rewrite list_lookup_insert_eq; [done|]. by apply lookup_lt_Some in Hw.
  - by rewrite list_lookup_insert_ne.
Qed.

Lemma retimed_upd c ts hw w ts0 : time_at w c = Some ts0 → retimed c (ts_events ts) w (time_upd c ts hw w).
Proof.
  intros Hts. split; try done.
  - intros c'. unfold events. rewrite (time_at_upd c ts hw w c' ts0 Hts). by destruct (decide (c' = c)).
  - intros c'. rewrite (time_at_upd c ts hw w c' ts0 Hts). destruct (decide (c' = c)) as [->|]; [|done].
    rewrite Hts. by split; eauto.
Qed.

Lemma wp_with_time {A} w c (f : TM DeadlineQueue A) ts hw P (Q : A → World → Prop) :
  time_at w c = Some ts → w_timer w !! e_cpu E = Some hw → wp f P (ts, hw) →
  (∀ a ts' hw', P a (ts', hw') → Q a (time_upd c ts' hw' w)) → wp (with_time_mut E c f) Q w.
Proof.
  intros Hts Hhw Hf HQ. unfold time_at in Hts. destruct (w_time w !! c) as [o|] eqn:Hw; [|done]. simpl in Hts. subst o.
  apply wp_bind. eapply wp_reads; [by rewrite Hw|]. wp_step. eapply wp_expect; [done|].
  wp_step. eapply wp_reads; [by rewrite Hhw|]. apply wp_done in Hf as (a & [ts' hw'] & Hf & HP).
  wp_step. eapply wp_reads; [exact Hf|]. apply wp_bind, wp_modify, wp_ret. by apply HQ.
Qed.

Lemma hw_timer_some m w : hw_ok m w → e_cpu E < KERNEL_CPU_CAPACITY → is_Some (w_timer w !! e_cpu E).
Proof. intros Hhw Hc. apply lookup_lt_is_Some_2. by rewrite (hw_timer _ _ Hhw). Qed.

(** Writing a good time state of the executing CPU and its register. *)
Lemma hw_ok_upd m w c ts hw :
  hw_ok m w → time_ok c EVENT_CAPACITY ts → is_Some (time_at w c) → ¬ dispatching_on m c →
  (c = e_cpu E ∧ hw = ts_armed ts ∨ w_timer w !! e_cpu E = Some hw ∧ w_timer w !! c = Some (ts_armed ts)) →
  hw_ok m (time_upd c ts hw w).
Proof.
  intros [H1 H2 H3 H4 H5] Hts [ts0 Hs] Hnd Hhw. split; try done.
  - unfold time_upd. simpl. by rewrite length_insert.
  - unfold time_upd. simpl. by rewrite length_insert.
  - intros c' ts'. rewrite (time_at_upd c ts hw w c' ts0 Hs). simpl.
    assert (is_Some (w_timer w !! c)) as Hlt by (destruct (H5 c ts0 Hs) as [Hx _]; rewrite (proj2 (Hx Hnd)); eauto).
    destruct (decide (c' = c)) as [->|Hne].
    + intros [= <-]. split; [|done]. intros _. split; [done|]. destruct Hhw as [[-> ->]|[He Hc]].
      * apply list_lookup_insert_eq. by apply lookup_lt_is_Some_1 in Hlt.
      * by rewrite list_insert_id.
    + intros Hts'. destruct (H5 c' ts' Hts') as [Ha Hb]. split; [|done]. intros Hn.
      destruct (Ha Hn) as [Ht Hr]. split; [done|]. destruct Hhw as [[-> ->]|[He Hc]].
      * by rewrite list_lookup_insert_ne.
      * by rewrite list_insert_id.
Qed.
Section ops.
Context {m : Mode} {w : World}.
Hypothesis Hhw : hw_ok m w.
Hypothesis Hcpu : e_cpu E < KERNEL_CPU_CAPACITY.

Lemma events_at c ts : time_at w c = Some ts → events w c = ts_events ts.
Proof. unfold events. by intros ->. Qed.

Lemma schedule_event_spec d ev :
  event_cpu ev = e_cpu E → ¬ dispatching_on m (e_cpu E) → is_Some (time_at w (e_cpu E)) →
  size (events w (e_cpu E)) < EVENT_CAPACITY →
  wp (schedule_event E d ev)
     (λ _ w', hw_ok m w' ∧ retimed (e_cpu E) (<[ev := d]> (events w (e_cpu E))) w w') w.
Proof.
  intros Hev Hnd [ts Hts] Hsz. apply wp_bind. wp_step; [by apply bool_decide_eq_true|].
  destruct (hw_timer_some m w Hhw Hcpu) as [hw Hhw0].
  destruct (hw_clock _ _ Hhw _ _ Hts) as [Hok _]. destruct (Hok Hnd) as [Hok1 Harm].
  rewrite (events_at _ _ Hts) in *.
  eapply (wp_with_time _ _ _ ts hw); [done..| |].
  { apply (ts_schedule_local_spec (e_cpu E) EVENT_CAPACITY ts hw d ev); auto. }
  intros _ ts' hw' (Hok' & He & Hh). simpl in *. split.
  - apply hw_ok_upd; eauto.
  - rewrite <-He. by eapply retimed_upd.
Qed.

Lemma publish_sleep_spec d tok :
  wt_cpu tok = e_cpu E → ¬ dispatching_on m (e_cpu E) → is_Some (time_at w (e_cpu E)) →
  size (events w (e_cpu E)) < EVENT_CAPACITY →
  wp (publish_sleep E d tok)
     (λ _ w', hw_ok m w' ∧
        retimed (e_cpu E) (<[wait_deadline tok := d]>
          (delete (quantum_expired (e_cpu E) (wt_thread tok)) (events w (e_cpu E)))) w w') w.
Proof.
  intros Hev Hnd [ts Hts] Hsz. apply wp_bind. wp_step; [by apply bool_decide_eq_true|]. rewrite Hev.
  destruct (hw_timer_some m w Hhw Hcpu) as [hw Hhw0].
  destruct (hw_clock _ _ Hhw _ _ Hts) as [Hok _]. destruct (Hok Hnd) as [Hok1 Harm].
  rewrite (events_at _ _ Hts) in *.
  eapply (wp_with_time _ _ _ ts hw); [done..| |].
  { apply (ts_publish_sleep_spec (e_cpu E) EVENT_CAPACITY ts hw d tok); [done|done|].
    eapply Nat.le_lt_trans; [apply size_delete_le|done]. }
  intros _ ts' hw' (Hok' & Hh & He). simpl in *. split.
  - apply hw_ok_upd; eauto.
  - rewrite <-He. by eapply retimed_upd.
Qed.

Lemma cancel_event_spec ev :
  ¬ dispatching_on m (event_cpu ev) → is_Some (time_at w (event_cpu ev)) →
  wp (cancel_event E ev)
     (λ _ w', hw_ok m w' ∧ retimed (event_cpu ev) (delete ev (events w (event_cpu ev))) w w') w.
Proof.
  intros Hnd [ts Hts]. destruct (hw_timer_some m w Hhw Hcpu) as [hw Hhw0].
  destruct (hw_clock _ _ Hhw _ _ Hts) as [Hok _]. destruct (Hok Hnd) as [Hok1 Harm].
  rewrite (events_at _ _ Hts) in *. apply wp_bind. eapply (wp_with_time _ _ _ ts hw); [done..| |].
  { apply (ts_cancel_event_spec (event_cpu ev) EVENT_CAPACITY ts hw ev _ Hok1). }
  intros r ts' hw' (Hok' & He & _ & Hh). simpl in *. apply wp_ret. split.
  - apply hw_ok_upd; eauto. destruct Hh as [[Hb%bool_decide_eq_true Hh]|[-> Ha]]; [by left|].
    right. by rewrite Ha.
  - rewrite <-He. by eapply retimed_upd.
Qed.

Lemma event_pending_spec ev :
  is_Some (time_at w (event_cpu ev)) →
  wp (event_pending E ev) (λ b w', w' = w ∧ b = bool_decide (pending w (event_cpu ev) ev)) w.
Proof.
  intros [ts Hts]. destruct (hw_timer_some m w Hhw Hcpu) as [hw Hhw0].
  assert (svc_ok (ts_queue ts)) as Hq.
  { destruct (hw_clock _ _ Hhw _ _ Hts) as [H1 H2]. destruct (decide (dispatching_on m (event_cpu ev))) as [Hd|Hd].
    - apply (qi_ok _ _ _ (td_queue _ _ _ (H2 Hd))).
    - apply (qi_ok _ _ _ (to_queue _ _ _ (proj1 (H1 Hd)))). }
  eapply (wp_with_time _ _ _ ts hw (λ b s, s = (ts, hw) ∧ b = svc_pending (ts_queue ts) ev)); [done..| |].
  { apply wp_gets. done. }
  intros b ts' hw' [[= -> ->] ->]. split.
  - unfold time_upd. rewrite (list_insert_id (w_timer w)) by done.
    unfold time_at in Hts. destruct (w_time w !! event_cpu ev) as [o|] eqn:Hw; [|done]. simpl in Hts. subst o.
    rewrite list_insert_id by done. by destruct w.
  - rewrite (svc_pending_spec _ _ Hq). unfold pending. by rewrite (events_at _ _ Hts).
Qed.
End ops.
(** ** Upkeep of the quantum *)

Definition depth_of w (c : CpuId) : option Z := disable_depth <$> w_preempt w !! c.

(** What lies beside the scheduler is as before, up to quantum events and
    reschedule requests. *)
Record aside w w' : Prop := {
  as_vm : w_vm w' = w_vm w;
  as_active : w_active w' = w_active w;
  as_depth : ∀ c, depth_of w' c = depth_of w c;
  as_time : ∀ c, is_Some (time_at w' c) ↔ is_Some (time_at w c);
  as_waits : ∀ c c' tok, events w' c !! WaitDeadline c' tok = events w c !! WaitDeadline c' tok
}.

(** The same without frames and address spaces. *)
Record beside w w' : Prop := {
  bs_depth : ∀ c, depth_of w' c = depth_of w c;
  bs_time : ∀ c, is_Some (time_at w' c) ↔ is_Some (time_at w c);
  bs_waits : ∀ c c' tok, events w' c !! WaitDeadline c' tok = events w c !! WaitDeadline c' tok
}.

#[global] Instance beside_preorder : PreOrder beside.
Proof.
  split; [done|]. intros w1 w2 w3 [D1 T1 W1] [D2 T2 W2].
  split; intros c; [by rewrite D2, D1|by rewrite T2, T1|intros c' tok; by rewrite W2, W1].
Qed.

Lemma aside_beside w w' : aside w w' → beside w w'.
Proof. intros []. by split. Qed.

Lemma beside_same w w' : w_preempt w' = w_preempt w → w_time w' = w_time w → beside w w'.
Proof. intros Hp Ht. split; intros c; unfold depth_of, events, time_at; by rewrite ?Hp, ?Ht. Qed.

(** Nothing but timer and preemption bookkeeping has changed. *)
Record quiet w w' : Prop := {
  qt_sched : w_sched w' = w_sched w;
  qt_aside : aside w w'
}.

Lemma aside_refl w : aside w w.
Proof. done. Qed.
Lemma aside_trans w1 w2 w3 : aside w1 w2 → aside w2 w3 → aside w1 w3.
Proof.
  intros [? ? D1 T1 W1] [? ? D2 T2 W2]. split; [congruence..| | |]; intros c;
    [by rewrite D2, D1|by rewrite T2, T1|intros c' tok; by rewrite W2, W1].
Qed.
Lemma quiet_refl w : quiet w w.
Proof. done. Qed.
Lemma quiet_trans w1 w2 w3 : quiet w1 w2 → quiet w2 w3 → quiet w1 w3.
Proof. intros [] []. split; [congruence|]. by eapply aside_trans. Qed.

Lemma retimed_quiet c evs w w' :
  retimed c evs w w' → (∀ c' tok, evs !! WaitDeadline c' tok = events w c !! WaitDeadline c' tok) → quiet w w'.
Proof.
  intros [H1 H2 H3 H4 H5 H6] Hw. split; [done|]. split; try done.
  - intros c'. unfold depth_of. congruence.
  - intros c1 c2 tok. rewrite H5. by destruct (decide (c1 = c)) as [->|].
Qed.

Lemma wp_current_thread w st (Q : option ThreadId → World → Prop) :
  cpus (w_sched w) !! e_cpu E = Some st → Q (cs_current st) w → wp (current_thread E) Q w.
Proof. intros Hst HQ. apply wp_bind. eapply wp_local_state; [done|]. done. Qed.

Lemma wp_has_ready w st (Q : bool → World → Prop) :
  cpus (w_sched w) !! e_cpu E = Some st → Q (negb (bool_decide (queue_of st = []))) w →
  wp (transition_has_ready E) Q w.
Proof. intros Hst HQ. apply wp_bind. eapply wp_local_state; [done|]. done. Qed.

Lemma hw_ok_mode m m' w :
  hw_ok m w → (∀ c, dispatching_on m' c ↔ dispatching_on m c) → hw_ok m' w.
Proof.
  intros [H1 H2 H3 H4 H5] Hm. split; try done. intros c ts Hts. rewrite Hm. by apply H5.
Qed.

Section upkeep.
Context {N : nat}.
Hypothesis Hcpu : e_cpu E < KERNEL_CPU_CAPACITY.
Implicit Types m : Mode.

Lemma now_counter_exact w (Q : Z → World → Prop) :
  Q (e_clock E (w_reads w)) (set_w_reads (S (w_reads w)) w) → wp (now_counter E) Q w.
Proof. intros HQ. apply wp_bind. wp_step. by apply wp_bind, wp_modify, wp_ret. Qed.

Lemma now_counter_spec w (Q : Z → World → Prop) :
  (∀ z n, Q z (set_w_reads n w)) → wp (now_counter E) Q w.
Proof. intros HQ. apply now_counter_exact, HQ. Qed.

(** A CPU whose only open question is its quantum becomes stable. *)
Lemma ensure_quantum_armed w :
  world_ok N (Busy (e_cpu E) false None) w → is_Some (time_at w (e_cpu E)) →
  wp (ensure_quantum_event E)
     (λ _ w', (world_ok N Stable w' ∧ quiet w w') ∧
        ∀ t, cur (w_sched w) (e_cpu E) = Some t → ready (w_sched w) (e_cpu E) ≠ [] →
             pending w' (e_cpu E) (quantum_expired (e_cpu E) t)) w.
Proof.
  intros [Hs Hhw Hl] Hts. pose proof (cst_lookup Hs _ Hcpu) as Hst.
  assert (hw_ok Stable w) as Hhw' by (by eapply hw_ok_mode).
  assert (∀ t, pending w (e_cpu E) (quantum_expired (e_cpu E) t) → cur (w_sched w) (e_cpu E) = Some t) as Hq.
  { intros t Hp. by destruct (lk_quantum _ _ _ Hl _ _ _ Hp) as [_ [|]]. }
  assert ((∀ t, cur (w_sched w) (e_cpu E) = Some t → ready (w_sched w) (e_cpu E) ≠ [] →
             pending w (e_cpu E) (quantum_expired (e_cpu E) t)) → world_ok N Stable w ∧ quiet w w) as Hdone.
  { intros Ha. split; [|done]. split; [done|done|]. eapply links_stable; eauto. }
  apply wp_bind. eapply wp_current_thread; [done|]. fold (cur (w_sched w) (e_cpu E)).
  destruct (cur (w_sched w) (e_cpu E)) as [t|] eqn:Hcur; [|apply wp_ret; split; [apply Hdone|]; by intros].
  cbv zeta. wp_step. eapply wp_has_ready; [done|]. fold (ready (w_sched w) (e_cpu E)).
  destruct (bool_decide_reflect (ready (w_sched w) (e_cpu E) = [])) as [Hr|Hr]; simpl;
    [apply wp_ret; split; [apply Hdone|]; by intros|].
  wp_step. eapply wp_mono; [by apply (event_pending_spec Hhw' Hcpu)|]. simpl. intros b w' [-> ->].
  case_bool_decide as Hp; [apply wp_ret; split; [apply Hdone|]; intros x [= <-] _; done|].
  wp_step. apply now_counter_spec. intros z n. wp_step. wp_step.
  assert (hw_ok Stable (set_w_reads n w)) as Hhw2 by (destruct Hhw'; by split).
  eapply wp_mono.
  { apply (schedule_event_spec Hhw2 Hcpu _ (quantum_expired (e_cpu E) t)); [done|by intros []|done|].
    by apply (events_bound (m:=Busy (e_cpu E) false None) (w:=w) Hs). }
  intros _ w' [Hhw3 Hrt]. split.
  2:{ intros x [= <-] _. unfold pending. rewrite (rt_events _ _ _ _ Hrt), decide_True, lookup_insert_eq by done. eauto. }
  split; [|destruct (retimed_quiet _ _ _ _ Hrt) as [? []]; [|split; [done|by split]]].
  2:{ intros c' tok. by rewrite lookup_insert_ne. }
  assert (w_sched w' = w_sched w) as Hsw by apply Hrt.
  split; [by rewrite Hsw|done|]. rewrite Hsw.
  eapply (links_retimed (Busy (e_cpu E) false None) Stable _ _ _ (set_w_reads n w) w'); [|exact Hrt|..].
  - destruct Hl. by split.
  - simpl. congruence.
  - done.
  - intros c' tok Hsome. rewrite lookup_insert_ne in Hsome by done.
    destruct (lk_wait _ _ _ Hl (e_cpu E) c' tok Hsome) as (-> & Htc & ?). do 3 (split; [done|]).
    intros Hj. apply (lk_joiner _ _ _ Hl tok (e_cpu E) Hj). unfold wait_deadline. rewrite Htc. exact Hsome.
  - intros c' x [d [[Heq _]|[_ Hx]]%lookup_insert_Some]; [unfold quantum_expired in Heq; simplify_eq; auto|].
    by destruct (lk_quantum _ _ _ Hl (e_cpu E) c' x ltac:(eexists; exact Hx)) as [-> [|]]; auto.
  - intros x _ _ Hx _. rewrite Hcur in Hx. simplify_eq. rewrite lookup_insert_eq. eauto.
  - by intros x _ _.
Qed.

Lemma ensure_quantum_spec w :
  world_ok N (Busy (e_cpu E) false None) w → is_Some (time_at w (e_cpu E)) →
  wp (ensure_quantum_event E) (λ _ w', world_ok N Stable w' ∧ quiet w w') w.
Proof. intros Hok Hts. eapply wp_mono; [by apply ensure_quantum_armed|]. by intros _ w' [? _]. Qed.

(** ** Reschedule requests *)

Lemma world_ok_preempt m w l :
  world_ok N m w → length l = KERNEL_CPU_CAPACITY → world_ok N m (set_w_preempt l w).
Proof. intros [Hs [] []] Hl. split; [done|by split|by split]. Qed.

(** Any update of the CPU's own preemption record that keeps the depth. *)
Lemma with_state_spec {A} m w (f : PreemptionState → A * PreemptionState) (Q : A → World → Prop) :
  world_ok N m w → (∀ p, disable_depth (f p).2 = disable_depth p) →
  (∀ p w', w_preempt w !! e_cpu E = Some p → world_ok N m w' → quiet w w' → Q (f p).1 w') →
  wp (with_state E (e_cpu E) (λ p, mret (f p))) Q w.
Proof.
  intros Hok Hf HQ. pose proof (hw_preempt _ _ (wo_hw _ _ _ Hok)) as Hlen.
  destruct (lookup_lt_is_Some_2 (w_preempt w) (e_cpu E)) as [p Hp]; [by rewrite Hlen|].
  eapply (wp_with_state E _ p _ (f p).1 (f p).2); [done|by destruct (f p)|].
  apply (HQ p); [done| |].
  - apply world_ok_preempt; [done|]. by rewrite length_insert.
  - split; [done|]. split; try done. intros c. unfold depth_of. simpl. destruct (decide (e_cpu E = c)) as [<-|Hne].
    + rewrite Hp, list_lookup_insert_eq by (by rewrite Hlen). simpl. by rewrite Hf.
    + by rewrite list_lookup_insert_ne.
Qed.

Lemma request_reschedule_spec m w (Q : unit → World → Prop) :
  world_ok N m w → (∀ w', world_ok N m w' → quiet w w' → Q tt w') →
  wp (request_reschedule_on E (e_cpu E)) Q w.
Proof.
  intros Hok HQ. unfold request_reschedule_on. rewrite decide_True by done.
  eapply (with_state_spec m w (λ p, (tt, preempt_request p))); [done|done|]. eauto.
Qed.

Lemma request_self_spec m w (Q : unit → World → Prop) :
  world_ok N m w → (∀ w', world_ok N m w' → quiet w w' → Q tt w') → wp (request_reschedule E) Q w.
Proof.
  intros Hok HQ. eapply (with_state_spec m w (λ p, (tt, preempt_request p))); [done|done|]. eauto.
Qed.

Lemma consume_checkpoint_spec m w online (Q : bool → World → Prop) :
  world_ok N m w →
  (∀ b w', world_ok N m w' → quiet w w' →
     (b = true → online = true ∧ depth_of w (e_cpu E) = Some 0%Z) → Q b w') →
  wp (consume_checkpoint_on E (e_cpu E) online) Q w.
Proof.
  intros Hok HQ. apply wp_bind. wp_step; [by apply bool_decide_eq_true|].
  eapply (with_state_spec m w (λ p, preempt_consume_checkpoint p online)); [done| |].
  - intros p. unfold preempt_consume_checkpoint. by destruct (_ || _).
  - intros p w' Hp Hok' Hq'. apply HQ; [done|done|]. unfold preempt_consume_checkpoint, depth_of. rewrite Hp. simpl.
    destruct online; simpl; [|done]. unfold preempt_is_disabled.
    destruct (bool_decide_reflect (disable_depth p = 0%Z)) as [->|]; simpl; [|done]. done.
Qed.

(** A CPU that may have got a new runnable peer becomes stable. *)
Lemma note_peer_spec w :
  world_ok N (Busy (e_cpu E) false None) w → is_Some (time_at w (e_cpu E)) →
  wp (note_runnable_peer_available E) (λ _ w', world_ok N Stable w' ∧ quiet w w') w.
Proof.
  intros Hok Hts. pose proof Hok as [Hs Hhw Hl]. pose proof (cst_lookup Hs _ Hcpu) as Hst.
  assert ((∀ t, cs_online (cst (w_sched w) (e_cpu E)) = true → cur (w_sched w) (e_cpu E) = Some t →
             ready (w_sched w) (e_cpu E) = []) →
          world_ok N Stable w ∧ quiet w w) as Hdone.
  { intros Ha. split; [|done]. split; [done|by eapply hw_ok_mode|]. eapply links_stable; [done| |].
    - intros t Hp. by destruct (lk_quantum _ _ _ Hl _ _ _ Hp) as [_ [|]].
    - intros t Hon Hc Hr. by destruct Hr, (Ha t). }
  apply wp_bind. eapply wp_current_thread; [done|]. fold (cur (w_sched w) (e_cpu E)).
  wp_step. eapply wp_has_ready; [done|]. fold (ready (w_sched w) (e_cpu E)).
  destruct (cur (w_sched w) (e_cpu E)) as [t|] eqn:Hcur; [|apply wp_ret, Hdone; by intros].
  destruct (bool_decide_reflect (ready (w_sched w) (e_cpu E) = [])) as [Hr|Hr]; simpl; [by apply wp_ret, Hdone|].
  wp_step. apply (request_reschedule_spec (Busy (e_cpu E) false None) w); [done|]. intros w' Hok' Hq'.
  eapply wp_mono; [apply ensure_quantum_spec; [done|]|].
  - by apply (as_time _ _ (qt_aside _ _ Hq')).
  - intros _ w2 [Hok2 Hq2]. split; [done|]. by eapply quiet_trans.
Qed.
End upkeep.
End time_spec.
