(* ===== verification/SwitchSpec.v ===== *)
(** * Context switches on the machine

    From the machine invariant: the facts that the transitions test, the
    optional switch of a checkpoint, and the handoff that moves register
    frames and the translation root.

    Saving the live frame into the thread that leaves, restoring the frame of
    the thread that enters, and activating its address space: each keeps the
    machine invariant, and afterwards the translation root installed on the
    CPU with user access is that of the running thread. *)

From stdpp Require Import gmap.
From S2P Require Import Prelude Types Wait Deadline TimeConv Preempt Context Vm Time Sched World Transition Handoff CpuInv SchedInv Switch.
From S2P Require Import Lifecycle TransitionSpec LifecycleSpec WorldInv TimeSpec.
(** ** What the invariant says about the executing CPU *)

Section facts.
Context (E : Env) {N : nat} {s : Scheduler}.
Hypothesis Hcpu : e_cpu E < KERNEL_CPU_CAPACITY.
Abbreviation c := (e_cpu E).

Lemma current_runs from :
  sched_ok N None s → cur s c = Some from → ∃ t, runs E s (cst s c) from t.
Proof.
  intros Hok Hc. destruct (current_live Hok c from Hcpu Hc) as (t & ? & ? & ?).
  exists t. split; try done. by apply (cst_lookup Hok).
Qed.

Lemma queue_head_queued gap to rest :
  sched_ok N gap s → ready s c = to :: rest → queued_thread E s (cst s c) to.
Proof.
  intros Hok Hr. assert (to ∈ ready s c ++ remote s c) as Hin by (rewrite Hr; by left).
  apply (queued_spec Hok c to Hcpu) in Hin as (t & ? & ? & ? & ?). split; [done|]. eauto.
Qed.

(** Somebody can always run instead of a thread that is not idle. *)
Lemma next_exists from :
  sched_ok N None s → cur s c = Some from → idl s c ≠ Some from →
  ∃ to rest, next_of E s (cst s c) to rest ∧ selects s c to rest ∧ to ≠ from.
Proof.
  intros Hok Hc Hi. destruct (current_live Hok c from Hcpu Hc) as (t & Hl & Hh & Hst).
  destruct (ready s c) as [|to rest] eqn:Hr.
  - destruct (home_idle Hok _ _ Hl) as [i Hidl]. rewrite Hh in Hidl.
    destruct (idle_live Hok c i Hcpu Hidl) as (ti & Hli & Hhi & _ & Hsi).
    assert (i ≠ from) as Hne by congruence.
    exists i, []. split_and!; [|by right|done]. split; [by right|]. exists ti. split_and!; try done.
    destruct Hsi as [|Hrun]; [done|]. exfalso. apply Hne.
    assert (state_on s c i = Some Running) as Ho by (apply state_on_Some; eauto).
    apply (ci_current _ _ _ _ _ (so_cpu _ _ _ Hok c Hcpu)) in Ho. unfold cur in Hc. congruence.
  - destruct (queue_head_queued None to rest Hok Hr) as [Hni (tto & Hlt & Hst' & Hht)].
    exists to, rest. split_and!; [|by left|].
    + split; [by left|]. eauto.
    + intros ->. rewrite (live_fun _ _ _ _ Hlt Hl) in *. congruence.
Qed.

(** Distinct handles in the queues have distinct slots. *)
Lemma queue_index_nodup gap : sched_ok N gap s → NoDup (tid_index <$> ready s c ++ remote s c).
Proof.
  intros Hok. apply NoDup_fmap_2_strong; [|by apply (queue_nodup Hok)].
  intros x y Hx Hy Heq. apply (queued_spec Hok _ _ Hcpu) in Hx as (tx & ? & _).
  apply (queued_spec Hok _ _ Hcpu) in Hy as (ty & ? & _). by eapply live_index_inj.
Qed.

(** What a push checks follows from the state it leads to. *)
Lemma pushable_from gap tid st :
  sched_ok N gap s → ready s c = queue_of st ++ [tid] → rq_capacity (cs_ready_queue st) = N - 1 →
  pushable st tid ∧ idl s c ≠ Some tid.
Proof.
  intros Hok Hr Hcap. split.
  - pose proof (queue_index_nodup gap Hok) as Hnd. rewrite fmap_app in Hnd. apply NoDup_app in Hnd as (Hnd & _).
    rewrite Hr, fmap_app in Hnd. apply NoDup_app in Hnd as (_ & Hd & _). split.
    + unfold queued_index. apply not_true_iff_false.
      intros (x & Hx & Heq%bool_decide_eq_true)%existsb_exists. apply list_elem_of_In in Hx.
      apply (Hd (tid_index tid)); [|by left]. rewrite <-Heq. by apply list_elem_of_fmap_2.
    + pose proof (queue_length Hok c Hcpu) as Hlen. rewrite Hr, length_app in Hlen. simpl in Hlen. lia.
  - intros Hi. apply (idle_not_queued Hok c tid Hcpu Hi). rewrite Hr. set_solver.
Qed.

Lemma remote_pushable_from gap tid c' rem :
  sched_ok N gap s → c' < KERNEL_CPU_CAPACITY → (remote s c' = rem ++ [tid]) → (tid ∉ rem) ∧ (length rem < N - 1).
Proof.
  intros Hok Hc' Hr. pose proof (queue_nodup Hok c' Hc') as Hnd. apply NoDup_app in Hnd as (_ & _ & Hnd).
  rewrite Hr in Hnd. apply NoDup_app in Hnd as (_ & Hd & _). split.
  - intros Hin. apply (Hd tid Hin). by left.
  - pose proof (queue_length Hok c' Hc') as Hlen. rewrite Hr, length_app in Hlen. simpl in Hlen. lia.
Qed.

Lemma ready_enter to rest s0 : c < length (cpus s0) → ready (enter_s to rest c s0) c = rest.
Proof. intros Hc. unfold ready, enter_s. rewrite cst_alter_cpu by done. by rewrite decide_True. Qed.
End facts.

(** ** The links along a switch *)

Lemma links_set_sched m s s' w : links m s w → links m s (set_w_sched s' w).
Proof. intros []. by split. Qed.
Lemma hw_set_sched m s' w : hw_ok m w → hw_ok m (set_w_sched s' w).
Proof. intros []. by split. Qed.

Lemma world_ok_set_sched N m m' w s' :
  hw_ok m w → (∀ c, dispatching_on m' c ↔ dispatching_on m c) →
  sched_ok N None s' → links m' s' w → world_ok N m' (set_w_sched s' w).
Proof.
  intros Hhw Hm Hs Hl. split; [done| |by apply links_set_sched].
  apply hw_set_sched. by eapply hw_ok_mode.
Qed.

Section link_moves.
Context {s : Scheduler} {w : World} {c : CpuId} {d : bool}.
Hypothesis Hc : c < length (cpus s).

Lemma link_state x tid t : @link_change w tid t (set_t_state x t).
Proof. split; try done; [by left|]. intros a Ha ? ? ?. exists a. done. Qed.

Lemma links_leave_ready from t ex :
  links (Busy c d ex) s w → live s from t → cur s c = Some from → (ex = None ∨ ex = Some from) →
  links (Busy c d (Some from)) (leave_ready_s from c s) w.
Proof.
  intros Hl Hlive Hcur Hex. unfold leave_ready_s.
  eapply (links_cpu c d ex (Some from)); [|done| | |].
  - eapply links_thread; [done..|]. apply link_state.
  - rewrite cst_alter_thread. by destruct (decide _).
  - intros t' [Ht|Ht]; right; [change (cur s c = Some t') in Ht; congruence|]. destruct Hex; congruence.
  - done.
Qed.

Lemma links_enter to t rest from :
  links (Busy c d (Some from)) s w → live s to t → cur s c = None → from ≠ to →
  links (Busy c d (Some from)) (enter_s to rest c s) w.
Proof.
  intros Hl Hlive Hcur Hne. unfold enter_s. eapply (links_cpu c d (Some from) (Some from)); [|done|done| |].
  - eapply links_thread; [done..|]. apply link_state.
  - intros t' [Ht|Ht]; [|by right]. change (cur s c = Some t') in Ht. congruence.
  - intros t' [= <-] Hp. destruct (lk_quantum _ _ _ Hl _ _ _ Hp) as [_ [Hq|[_ Hq]]]; congruence.
Qed.
End link_moves.

(** ** The optional switch *)

Definition switched (c : CpuId) (from to : ThreadId) (rest : list ThreadId) (s : Scheduler) : Scheduler :=
  enter_s to (queue_after (cst s c) from rest) c (leave_ready_s from c s).

Section switch.
Context (E : Env) {N : nat}.
Hypothesis Hcpu : e_cpu E < KERNEL_CPU_CAPACITY.
Abbreviation c := (e_cpu E).

Lemma cst_leave_ready from s :
  c < length (cpus s) → cst (leave_ready_s from c s) c = set_cs_current None (requeue from (cst s c)).
Proof. intros Hc. unfold leave_ready_s. rewrite cst_alter_cpu by done. by rewrite decide_True. Qed.

Lemma live_leave_other from to s t :
  tid_index to ≠ tid_index from → live s to t → live (leave_ready_s from c s) to t.
Proof. intros Hne Hl. by apply (live_alter_other (set_t_state Ready) from to s t). Qed.

Lemma sched_switched s from t to rest :
  sched_ok N None s → cur s c = Some from → live s from t → wait_is_prepared (t_wait t) = false →
  ready s c = to :: rest → sched_ok N None (switched c from to rest s).
Proof.
  intros Hok Hcur Hl Hp Hr. pose proof (sched_leave_ready Hcpu from t Hok Hcur Hl Hp) as Hok1.
  assert (c < length (cpus s)) as Hlen by (by rewrite (sh_cpus _ _ (so_shape _ _ _ Hok))).
  pose proof (cst_leave_ready from s Hlen) as Hcst.
  destruct (queue_head_queued E Hcpu None to rest Hok Hr) as [Hni (tto & Hlt & Hst & Hht)].
  destruct (current_live Hok c from Hcpu Hcur) as (t0 & Hl0 & _ & Hrun).
  eapply (sched_enter Hcpu to tto); [done| | |].
  - unfold cur. by rewrite Hcst.
  - left. unfold ready. rewrite Hcst. simpl. unfold requeue, queue_after.
    fold (idl s c). unfold ready in Hr. destruct (decide (idl s c = Some from)) as [Hi|Hi].
    + done.
    + simpl. by rewrite Hr.
  - apply live_leave_other; [|done]. intros Heq. pose proof (live_index_inj _ _ _ _ _ Hlt Hl0 Heq) as ->.
    rewrite (live_fun _ _ _ _ Hlt Hl0) in Hst. congruence.
Qed.

Lemma switched_world d w from t to rest :
  world_ok N (Busy c d None) w → cur (w_sched w) c = Some from → live (w_sched w) from t →
  wait_is_prepared (t_wait t) = false → ready (w_sched w) c = to :: rest →
  world_ok N (Busy c d (Some from)) (set_w_sched (switched c from to rest (w_sched w)) w).
Proof.
  intros [Hs Hhw Hl] Hcur Hlive Hp Hr. set (s := w_sched w) in *.
  destruct (current_live Hs c from Hcpu Hcur) as (t0 & Hl0 & _ & Hrun). rewrite (live_fun _ _ _ _ Hl0 Hlive) in *.
  assert (c < length (cpus s)) as Hlen by (by rewrite (sh_cpus _ _ (so_shape _ _ _ Hs))).
  destruct (queue_head_queued E Hcpu None to rest Hs Hr) as [Hni (tto & Hlt & Hstt & Hht)].
  apply (world_ok_set_sched N (Busy c d None)); [done|done|by apply (sched_switched s from t to rest)|].
  eapply (links_enter (s:=leave_ready_s from c s) ltac:(simpl; by rewrite length_alter) to tto).
  - by eapply (links_leave_ready Hlen from t None); auto.
  - apply live_leave_other; [|done]. intros Heq. pose proof (live_index_inj _ _ _ _ _ Hlt Hlive Heq) as ->.
    rewrite (live_fun _ _ _ _ Hlt Hlive) in Hstt. congruence.
  - unfold cur. by rewrite cst_leave_ready.
  - intros ->. rewrite (live_fun _ _ _ _ Hlt Hlive) in Hstt. congruence.
Qed.

Lemma optional_switch_spec d w from t :
  world_ok N (Busy c d None) w → cur (w_sched w) c = Some from → live (w_sched w) from t →
  wait_is_prepared (t_wait t) = false →
  wp (transition_optional_switch E)
     (λ o w', (o = ContinueCurrent ∧ w' = w ∧ ready (w_sched w) c = []) ∨
        ∃ to rest, ready (w_sched w) c = to :: rest ∧ o = Switch from to ∧
          w' = set_w_sched (switched c from to rest (w_sched w)) w ∧ world_ok N (Busy c d (Some from)) w') w.
Proof.
  intros [Hs Hhw Hl] Hcur Hlive Hp. set (s := w_sched w) in *.
  destruct (current_runs E Hcpu from Hs Hcur) as (t0 & [Hst Hc0 Hl0 Hrun Hh]).
  rewrite (live_fun _ _ _ _ Hl0 Hlive) in *.
  destruct (ready s c) as [|to rest] eqn:Hr.
  - eapply (wp_optional_none E w (cst s c) from t); [done|done|done|done|done|exact Hr|by eapply sched_ok_valid|].
    auto.
  - pose proof (sched_switched s from t to rest Hs Hcur Hlive Hp Hr) as Hs'.
    assert (c < length (cpus s)) as Hlen by (by rewrite (sh_cpus _ _ (so_shape _ _ _ Hs))).
    pose proof (queue_head_queued E Hcpu None to rest Hs Hr) as Hq.
    eapply (wp_optional_switch E w (cst s c) from t to rest); [done|done|done|done|done|exact Hr|done| | |].
    + intros Hi. eapply (pushable_from E Hcpu (s:=switched c from to rest s)); [done| |].
      * unfold switched. rewrite ready_enter by (simpl; by rewrite length_alter).
        unfold queue_after. by rewrite decide_False.
      * simpl. by apply (ready_capacity Hs).
    + by eapply sched_ok_valid.
    + right. exists to, rest. split_and!; [done|done|done|]. by apply (switched_world d w from t).
Qed.
End switch.

(** * Handoff of frames and translation roots *)

(** The architecture hooks succeed: the kernel panics when one of them does
    not.  The AArch64 hook accepts every root but 0 once the runtime tables are
    active; a root is a frame of the allocator, and those are never 0
    ([FrameRuns.run_first]). *)
Record arch_ok (E : Env) : Prop := {
  ar_activate : ∀ r, e_arch_activate E r = 0%Z;
  ar_clear : e_arch_clear E = 0%Z;
  ar_ipi : ∀ c, c < KERNEL_CPU_CAPACITY → e_arch_send_ipi E c = true
}.

(** The record of a CPU that runs [t]: its own root with user access, or no
    user access at all. *)
Definition space_of (t : Thread) (u : option CpuUserAddressSpace) : Prop :=
  match thread_root t with
  | Some r => u = Some (mkCpuUserAddressSpace r true)
  | None => ∃ x, u = Some x ∧ user_access x = false
  end.

(** Every online CPU has the address space of its current thread. *)
Definition space_ok (s : Scheduler) (vm : vm_table) (c : CpuId) : Prop :=
  ∀ tid t, cs_online (cst s c) = true → cur s c = Some tid → live s tid t → space_of t (vm !! c).

Lemma roots_insert s vm c u :
  roots_ok s vm → c < KERNEL_CPU_CAPACITY →
  (installed u = NO_ACTIVE_USER_ROOT ∨ (∃ u0, vm !! c = Some u0 ∧ installed u = installed u0) ∨
   ∃ tid t, live s tid t ∧ thread_root t = Some (installed u) ∧ t_home_cpu t = c) →
  roots_ok s (<[c := u]> vm).
Proof.
  intros [H1 H2 H3 H4] Hc Hu. pose proof H1 as [Hap Hlen]. split; [| |done|done].
  - apply vm_ok_insert; [done|]. intros Hne c' u' Hu' Heq.
    destruct Hu as [|[(u0 & Hu0 & He)|(tid & t & Hl & Hr & Hh)]]; [done| |].
    + apply (Hap c' c u' u0); congruence.
    + rewrite <-Hh. eapply H2; done.
  - intros tid t r c' u' Hl Hr Hu' Hin. destruct (decide (c = c')) as [<-|Hne].
    + rewrite list_lookup_insert_eq in Hu' by (by rewrite Hlen). simplify_eq.
      destruct Hu as [Hs|[(u0 & Hu0 & He)|(tid' & t' & Hl' & Hr' & Hh)]].
      * by destruct (H4 tid t (installed u') Hl).
      * eapply H2; [done..|]. congruence.
      * rewrite <-Hh. by eapply H3.
    + rewrite list_lookup_insert_ne in Hu' by done. eauto.
Qed.

Definition saved_s (from : ThreadId) (frame : TrapFrame) : Scheduler → Scheduler :=
  alter_thread (set_t_context (save_from frame)) (tid_index from).

(** The world after [to] was given the CPU: the live frame is parked in
    [from], the frame of [to] is live, [vm'] is the new address-space table. *)
Definition handed (c : CpuId) (from : ThreadId) (frame : TrapFrame) (tto : Thread) (vm' : vm_table) (w : World) : World :=
  set_w_vm vm' (set_w_active (<[c := restore_into (t_context tto)]> (w_active w)) (on_sched (saved_s from frame) w)).

Section handoff_spec.
Context (E : Env) {N : nat}.
Hypothesis Hcpu : e_cpu E < KERNEL_CPU_CAPACITY.
Hypothesis Harch : arch_ok E.
Abbreviation c := (e_cpu E).

(** The three address-space operations on a good table. *)
Lemma activate_op_spec s vm tid t u :
  roots_ok s vm → live s tid t → t_home_cpu t = c → t_user t = Some u →
  owner_cpu (ur_address_space u) = c →
  ∃ vm', activate_user_address_space (e_arch_activate E) vm (Some c) (ur_address_space u) = Done (inl tt, vm') ∧
         roots_ok s vm' ∧ vm' !! c = Some (mkCpuUserAddressSpace (root_pa (ur_address_space u)) true) ∧
         (∀ c', c' ≠ c → vm' !! c' = vm !! c').
Proof.
  intros Hr Hl Hh Hu Ho. pose proof (ro_apart _ _ Hr) as [_ Hlen].
  destruct (lookup_lt_is_Some_2 vm c) as [x Hx]; [by rewrite Hlen|].
  assert (thread_root t = Some (root_pa (ur_address_space u))) as Hroot by (unfold thread_root; by rewrite Hu).
  unfold activate_user_address_space, vm_slot. rewrite Ho, bool_decide_true by done. simpl. rewrite Hx. simpl.
  destruct (Z.eqb_spec (installed x) (root_pa (ur_address_space u))) as [He|Hne].
  - eexists. split; [done|]. rewrite He. split_and!.
    + apply roots_insert; [done|done|]. right; left. exists x. done.
    + apply list_lookup_insert_eq. by rewrite Hlen.
    + intros c' Hne. by rewrite list_lookup_insert_ne.
  - destruct (installed_elsewhere vm c (root_pa (ur_address_space u))) eqn:Hel.
    { apply installed_elsewhere_spec in Hel as (c' & u' & Hu' & Hc' & Hin).
      destruct Hc'. rewrite <-Hh. by eapply (ro_installed _ _ Hr). }
    rewrite (ar_activate _ Harch). simpl. eexists. split; [done|]. rewrite list_insert_insert_eq. split_and!.
    + apply roots_insert; [done|done|]. right; right. exists tid, t. done.
    + apply list_lookup_insert_eq. by rewrite Hlen.
    + intros c' Hne'. by rewrite list_lookup_insert_ne.
Qed.

Lemma clear_op_spec s vm :
  roots_ok s vm →
  ∃ vm' x, clear_user_address_space (e_arch_clear E) vm (Some c) = Done (inl tt, vm') ∧
         roots_ok s vm' ∧ vm' !! c = Some x ∧ user_access x = false ∧ (∀ c', c' ≠ c → vm' !! c' = vm !! c').
Proof.
  intros Hr. pose proof (ro_apart _ _ Hr) as [_ Hlen].
  destruct (lookup_lt_is_Some_2 vm c) as [x Hx]; [by rewrite Hlen|].
  unfold clear_user_address_space, vm_slot. rewrite Hx. simpl.
  assert (∀ y, (<[c := y]> vm) !! c = Some y) as Hat by (intros y; apply list_lookup_insert_eq; by rewrite Hlen).
  assert (∀ y c', c' ≠ c → (<[c := y]> vm) !! c' = vm !! c') as Hot.
  { intros y c' Hne. by rewrite list_lookup_insert_ne. }
  destruct (Z.eqb_spec (installed x) NO_ACTIVE_USER_ROOT) as [He|Hne].
  - do 2 eexists. split; [done|]. split_and!; [|by apply Hat|done|by apply Hot].
    apply roots_insert; [done|done|]. by left.
  - rewrite (ar_clear _ Harch). simpl. do 2 eexists. split; [done|]. rewrite list_insert_insert_eq.
    split_and!; [|by apply Hat|done|by apply Hot]. apply roots_insert; [done|done|]. by left.
Qed.

Lemma retain_op_spec s vm :
  roots_ok s vm →
  ∃ vm' x, retain_user_address_space_for_idle vm (Some c) = Done (inl tt, vm') ∧
         roots_ok s vm' ∧ vm' !! c = Some x ∧ user_access x = false ∧ (∀ c', c' ≠ c → vm' !! c' = vm !! c').
Proof.
  intros Hr. pose proof (ro_apart _ _ Hr) as [_ Hlen].
  destruct (lookup_lt_is_Some_2 vm c) as [x Hx]; [by rewrite Hlen|].
  unfold retain_user_address_space_for_idle, vm_slot. rewrite Hx. simpl. do 2 eexists. split; [done|]. split_and!.
  - apply roots_insert; [done|done|]. right; left. by exists x.
  - apply list_lookup_insert_eq. by rewrite Hlen.
  - done.
  - intros c' Hne. by rewrite list_lookup_insert_ne.
Qed.

Lemma wp_vm_op w f r vm' (Q : unit + VmError → World → Prop) :
  f (w_vm w) = Done (r, vm') → Q r (set_w_vm vm' w) → wp (vm_op f) Q w.
Proof. intros Hf HQ. apply wp_bind. eapply wp_reads; [exact Hf|]. by apply wp_bind, wp_modify, wp_ret. Qed.

(** A new address-space table that agrees with the threads. *)
Lemma world_ok_vm m w vm' :
  world_ok N m w → roots_ok (w_sched w) vm' → world_ok N m (set_w_vm vm' w).
Proof. intros [Hs [] []] Hr. split; [done|by split|by split]. Qed.

Lemma activate_thread_spec m w tid t :
  world_ok N m w → live (w_sched w) tid t → t_home_cpu t = c →
  wp (activate_thread_address_space E tid)
     (λ _ w', ∃ vm', w' = set_w_vm vm' w ∧ world_ok N m w' ∧ space_of t (vm' !! c) ∧
                     ∀ c', c' ≠ c → vm' !! c' = w_vm w !! c') w.
Proof.
  intros Hok Hl Hh. pose proof Hok as [Hs _ Hlk]. pose proof (lk_roots _ _ _ Hlk) as Hr.
  apply wp_bind. eapply wp_with_sched; [by eapply live_aspace|].
  wp_step. eapply wp_local_state; [by apply (cst_lookup Hs)|].
  assert (∀ vm', roots_ok (w_sched w) vm' → space_of t (vm' !! c) → (∀ c', c' ≠ c → vm' !! c' = w_vm w !! c') →
    wp (assert_that true "sched: failed to activate address space for thread")
       (λ _ w', ∃ vm', w' = set_w_vm vm' w ∧ world_ok N m w' ∧ space_of t (vm' !! c) ∧
                     ∀ c', c' ≠ c → vm' !! c' = w_vm w !! c') (set_w_vm vm' w)) as Hend.
  { intros vm' Hvm Hsp Hot. wp_step; [done|]. exists vm'. split_and!; [done|by apply world_ok_vm|done|done]. }
  wp_step. destruct (t_user t) as [u|] eqn:Hu; simpl.
  - destruct (tk_user _ _ (so_threads _ _ _ Hs _ _ Hl) u Hu) as [Ho _]. rewrite Hh in Ho.
    destruct (activate_op_spec _ _ _ _ _ Hr Hl Hh Hu Ho) as (vm' & Hop & Hvm & Hat & Hot).
    eapply wp_vm_op; [exact Hop|]. apply Hend; [done| |done]. unfold space_of, thread_root. by rewrite Hu.
  - assert (∀ (vm' : vm_table) x, vm' !! c = Some x → user_access x = false → space_of t (vm' !! c)) as Hsp.
    { intros vm' x Hx Ha. unfold space_of, thread_root. rewrite Hu. simpl. eauto. }
    destruct (decide _).
    + destruct (retain_op_spec _ _ Hr) as (vm' & x & Hop & Hvm & Hat & Hacc & Hot).
      eapply wp_vm_op; [exact Hop|]. eauto.
    + destruct (clear_op_spec _ _ Hr) as (vm' & x & Hop & Hvm & Hat & Hacc & Hot).
      eapply wp_vm_op; [exact Hop|]. eauto.
Qed.
(** ** Frames *)

Lemma link_context x tid t w : @link_change w tid t (set_t_context x t).
Proof. split; try done; [by left|]. intros a Ha ? ? ?. exists a. done. Qed.

Lemma world_ok_saved m w from t frame :
  world_ok N m w → live (w_sched w) from t → world_ok N m (on_sched (saved_s from frame) w).
Proof.
  intros [Hs Hhw Hlk] Hl. apply (world_ok_set_sched N m m w); [done|done| |].
  - eapply sched_ok_record; [done|done|done| |done|by left].
    destruct (so_threads _ _ _ Hs _ _ Hl) as [? [] ? ? ?]. by split.
  - eapply links_thread; [done|done|]. apply link_context.
Qed.

Lemma world_ok_active m w l :
  world_ok N m w → length l = KERNEL_CPU_CAPACITY → world_ok N m (set_w_active l w).
Proof. intros [Hs [] []] Hl. split; [done|by split|by split]. Qed.

Lemma restore_spec m w to tto :
  world_ok N m w → live (w_sched w) to tto → t_home_cpu tto = c →
  wp (restore_from E to;; activate_thread_address_space E to)
     (λ _ w', ∃ vm', w' = set_w_vm vm' (set_w_active (<[c := restore_into (t_context tto)]> (w_active w)) w) ∧
        world_ok N m w' ∧ space_of tto (vm' !! c) ∧ ∀ c', c' ≠ c → vm' !! c' = w_vm w !! c') w.
Proof.
  intros Hok Ht Hh. wp_step. apply wp_bind. eapply wp_with_sched; [by eapply live_thread_at|]. apply wp_modify.
  set (w2 := set_w_active _ _).
  assert (world_ok N m w2) as Hok2.
  { apply world_ok_active; [exact Hok|]. rewrite length_insert. apply (hw_active _ _ (wo_hw _ _ _ Hok)). }
  by apply (activate_thread_spec m w2 to tto).
Qed.

Lemma handoff_spec m w from tf to tto :
  world_ok N m w → live (w_sched w) from tf → live (w_sched w) to tto → from ≠ to → t_home_cpu tto = c →
  wp (handoff_selected E (Switch from to))
     (λ _ w', ∃ frame vm', w_active w !! c = Some frame ∧ w' = handed c from frame tto vm' w ∧
        world_ok N m w' ∧ space_of tto (vm' !! c) ∧ ∀ c', c' ≠ c → vm' !! c' = w_vm w !! c') w.
Proof.
  intros Hok Hf Ht Hne Hh. pose proof (hw_active _ _ (wo_hw _ _ _ Hok)) as Hlen.
  destruct (lookup_lt_is_Some_2 (w_active w) c) as [frame Hfr]; [by rewrite Hlen|].
  assert (tid_index to ≠ tid_index from) as Hidx.
  { intros Heq. apply Hne. symmetry. by eapply live_index_inj. }
  apply wp_bind. apply wp_bind. eapply wp_reads; [by rewrite Hfr|]. eapply wp_thread_mut; [done|].
  pose proof (world_ok_saved m w from tf frame Hok Hf) as Hok1.
  pose proof (live_alter_other (set_t_context (save_from frame)) from to _ _ Hidx Ht) as Ht1.
  eapply wp_mono; [by apply (restore_spec m (on_sched (saved_s from frame) w) to tto)|].
  intros _ w' (vm' & -> & Hok' & Hsp & Hot). exists frame, vm'. done.
Qed.
End handoff_spec.
