(* ===== verification/WakeSpec.v ===== *)
(** * Completion of waits on the machine

    [complete_wait_transition] as a pure function on the scheduler, and the
    proof that the code computes it from every invariant state: exactly the
    owner of an open wait is woken, on its own CPU through the ready queue and
    on another one through the ingress with a notification.

    The thread that exited last on a CPU is finalized at the CPU's next
    scheduler entry: its joiner, if there is one, gets the exit code and the
    user resources and is woken, and the slot of a joined or detached thread
    is reclaimed.  [finalize_s] is that as a pure function; the code computes
    it from every invariant state. *)

From stdpp Require Import gmap.
From S2P Require Import Prelude Types Wait Deadline TimeConv Preempt Context Vm Time Sched World Transition Handoff CpuInv SchedInv Switch.
From S2P Require Import Lifecycle TransitionSpec LifecycleSpec WorldInv TimeSpec SwitchSpec.
Definition wake_s (here : CpuId) (tid : ThreadId) (t : Thread) (wm : WaitMetadata) (s : Scheduler) : Scheduler :=
  if decide (t_home_cpu t = here) then wake_local_s tid wm here s else wake_remote_s tid wm (t_home_cpu t) s.

Definition complete_s (here : CpuId) (tok : WaitToken) (cause : WaitCause) (s : Scheduler)
    : CompletionResult * Scheduler :=
  match table_get s (wt_thread tok) with
  | None => (CompletionStale, s)
  | Some t =>
      match complete (t_wait t) tok cause with
      | (WokeBlocked, wm) => (WokeBlocked, wake_s here (wt_thread tok) t wm s)
      | (CompletedPrepared, wm) =>
          (CompletedPrepared, alter_thread (set_t_wait wm) (tid_index (wt_thread tok)) s)
      | (r, _) => (r, s)
      end
  end.

(** What [complete] does to the metadata of the token's thread. *)
Lemma complete_cases wm tok cause :
  complete wm tok cause = (CompletionStale, wm) ∨
  complete wm tok cause = (AlreadyCompleted, wm) ∨
  (∃ a, active wm = Some a ∧ aw_token a = tok ∧
     ((aw_phase a = Prepared ∧
       complete wm tok cause = (CompletedPrepared, set_active wm (Some (set_phase a (Completed cause))))) ∨
      (aw_phase a = PhaseBlocked ∧ ∃ wm', complete wm tok cause = (WokeBlocked, wm') ∧ woken wm wm'))).
Proof.
  unfold complete. destruct (active wm) as [a|] eqn:Ha; [|by left].
  destruct (decide _) as [|Htok]; [by left|]. apply dec_stable in Htok.
  destruct (aw_phase a) eqn:Hph; [| |by right; left]; right; right; exists a; (split; [done|]; split; [done|]).
  - left. done.
  - right. split; [done|]. eexists. split; [done|]. split; [by destruct (aw_consumption a)|].
    destruct (aw_consumption a); [right; eauto|by left].
Qed.

Section wake_spec.
Context (E : Env) {N : nat}.
Hypothesis Hcpu : e_cpu E < KERNEL_CPU_CAPACITY.
Hypothesis Harch : arch_ok E.
Abbreviation c := (e_cpu E).

(** Closing the wait of [tok] breaks no link when its deadline is gone. *)
Lemma link_close w tid t tok a f :
  active (t_wait t) = Some a → aw_token a = tok → t_home_cpu t = wt_cpu tok →
  ¬ pending w (wt_cpu tok) (wait_deadline tok) →
  t_home_cpu (f t) = t_home_cpu t → t_joiner (f t) = t_joiner t → t_user (f t) = t_user t →
  @link_change w tid t (f t).
Proof.
  intros Ha Htok Hh Hnp H1 H2 H3. split; [done|by left|by unfold thread_root; rewrite H3|].
  intros a' Ha' _ Hp _. simplify_eq. rewrite Hh in Hp. done.
Qed.

Lemma ipi_sent_world m w s' c' :
  world_ok N m (set_w_sched s' w) → world_ok N m (set_w_sched s' (ipi_sent c' w)) ∧ aside w (set_w_sched s' (ipi_sent c' w)).
Proof.
  intros [Hs Hh Hl]. unfold ipi_sent. destruct (ipi _ _); [split; [by split|done]|]. split; [|by split].
  split; [done|destruct Hh; by split|destruct Hl; by split].
Qed.

Section blocked.
Context {m : Mode} {w : World} {tok : WaitToken} {t : Thread} {a : ActiveWait} {wm : WaitMetadata}.
Hypothesis Hok : world_ok N m w.
Hypothesis Hl : live (w_sched w) (wt_thread tok) t.
Hypothesis Ha : active (t_wait t) = Some a.
Hypothesis Htok : aw_token a = tok.
Hypothesis Hph : aw_phase a = PhaseBlocked.
Hypothesis Hwk : woken (t_wait t) wm.
Hypothesis Hnj : ¬ joined (w_sched w) tok.
Hypothesis Hnp : ¬ pending w (wt_cpu tok) (wait_deadline tok).

Lemma blocked_state : t_state t = Blocked.
Proof.
  apply (wk_blocked _ _ (tk_wait _ _ (so_threads _ _ _ (wo_sched _ _ _ Hok) _ _ Hl))).
  unfold wait_is_blocked. rewrite Ha. destruct a. simpl in *. by rewrite Hph.
Qed.

Lemma blocked_token : tok = mkWaitToken (wt_thread tok) (t_home_cpu t) (next_sequence (t_wait t)).
Proof.
  rewrite <-Htok at 1. rewrite (wk_token _ _ (tk_wait _ _ (so_threads _ _ _ (wo_sched _ _ _ Hok) _ _ Hl)) a Ha). done.
Qed.

Lemma blocked_home : t_home_cpu t = wt_cpu tok.
Proof. by rewrite blocked_token. Qed.

Lemma blocked_unjoined tok' : joined (w_sched w) tok' → wt_thread tok' ≠ wt_thread tok.
Proof.
  intros Hj Heq. destruct Hj as (x & tx & Hx & Htx). pose proof Hl as Hl'. rewrite <-Heq in Hl'.
  destruct (joined_blocked N None (w_sched w) tok' t (wo_sched _ _ _ Hok)) as [_ Ha'];
    [by exists x, tx|done|].
  apply Hnj. exists x, tx. split; [done|]. rewrite Htx. rewrite Ha' in Ha. by simplify_eq/=.
Qed.

Lemma links_wake_thread m' :
  links m' (w_sched w) w →
  links m' (alter_thread (λ t, set_t_state Ready (set_t_wait wm t)) (tid_index (wt_thread tok)) (w_sched w)) w.
Proof.
  intros Hlk. eapply links_thread; [done|done|]. eapply (link_close _ _ _ _ _ (λ t, set_t_state Ready (set_t_wait wm t)));
    [done|done|apply blocked_home|done..].
Qed.
End blocked.

(** A wake on the executing CPU while it is busy. *)
Lemma links_wake_local w tok t a wm d :
  world_ok N (Busy c d None) w → live (w_sched w) (wt_thread tok) t → active (t_wait t) = Some a →
  aw_token a = tok → aw_phase a = PhaseBlocked → ¬ pending w (wt_cpu tok) (wait_deadline tok) →
  links (Busy c d None) (wake_local_s (wt_thread tok) wm c (w_sched w)) w.
Proof.
  intros Hok Hl Ha Htok Hph Hnp. pose proof Hok as [Hs _ Hlk].
  apply (links_cpu c d None None).
  - eapply (links_wake_thread Hok Hl Ha Htok Hnp). done.
  - simpl. by rewrite (sh_cpus _ _ (so_shape _ _ _ Hs)).
  - done.
  - intros x [Hx|Hx]; [by left|done].
  - intros x _ _ [_ ?]%app_nil. done.
Qed.
Lemma world_ok_busy w d : d = false → world_ok N Stable w → world_ok N (Busy c d None) w.
Proof.
  intros -> [Hs Hh Hl]. split; [done| |by apply links_busy]. by eapply hw_ok_mode.
Qed.

(** The two callers: a notifying completion from a stable machine, and the
    timer interrupt, which settles its quantum at the end. *)
Definition completion_mode (m : Mode) (notify : bool) (w : World) : Prop :=
  m = Stable ∧ notify = true ∧ is_Some (time_at w c) ∨ (∃ d, m = Busy c d None) ∧ notify = false.

Lemma wake_local_views s tid wm :
  c < length (cpus s) →
  cst (wake_local_s tid wm c s) c = set_cs_ready (ready s c ++ [tid]) (cst s c).
Proof. intros Hc. unfold wake_local_s. rewrite cst_alter_cpu by done. by rewrite decide_True. Qed.

Lemma wake_note_spec m notify w s' x :
  completion_mode m notify w → world_ok N m w →
  links (match m with Stable => Busy c false None | _ => m end) s' w → sched_ok N None s' →
  cst s' c = set_cs_ready (ready (w_sched w) c ++ [x]) (cst (w_sched w) c) →
  wp (wake_note E (bool_decide (ready (w_sched w) c = [])) notify)
     (λ _ w', world_ok N m w' ∧ quiet (set_w_sched s' w) w') (set_w_sched s' w).
Proof.
  intros Hm Hok Hlk Hs' Hcst. pose proof Hok as [Hs Hhw Hl0].
  destruct Hm as [(-> & -> & Hts)|([d ->] & ->)]; simpl in *.
  - assert (world_ok N (Busy c false None) (set_w_sched s' w)) as Hok1.
    { by apply (world_ok_set_sched N Stable). }
    case_bool_decide as Hr.
    + by apply (note_peer_spec E Hcpu).
    + apply wp_ret. split; [|done]. apply (world_ok_set_sched N Stable); [done|done|done|].
      eapply (links_stable c false None); [done| |].
      * intros t Hp. by destruct (lk_quantum _ _ _ Hlk _ _ _ Hp) as [_ [|]].
      * unfold cur. rewrite Hcst. simpl. intros t Hon Hc _. by apply (lk_armed _ _ _ Hl0); [intros []|..].
  - apply (request_reschedule_spec E Hcpu (N:=N) (Busy c d None)); [|auto].
    by apply (world_ok_set_sched N (Busy c d None)).
Qed.

Lemma complete_prepared_world m w tok t a cause notify :
  world_ok N m w → live (w_sched w) (wt_thread tok) t → active (t_wait t) = Some a → aw_token a = tok →
  aw_phase a = Prepared → ¬ pending w (wt_cpu tok) (wait_deadline tok) →
  let wm := set_active (t_wait t) (Some (set_phase a (Completed cause))) in
  complete (t_wait t) tok cause = (CompletedPrepared, wm) →
  wp (complete_wait_transition E tok cause notify)
     (λ r w', world_ok N m w' ∧ aside w w' ∧
        (r, w_sched w') = (CompletedPrepared, alter_thread (set_t_wait wm) (tid_index (wt_thread tok)) (w_sched w))) w.
Proof.
  intros Hok Hl Ha Htok Hph Hnp wm Hc. pose proof Hok as [Hs Hhw Hlk].
  pose proof (so_threads _ _ _ Hs _ _ Hl) as Ht. pose proof (tk_wait _ _ Ht) as Hw.
  assert (t_state t = Running) as Hrun.
  { apply Hw. unfold wait_is_prepared. rewrite Ha. destruct a. simpl in *. by rewrite Hph. }
  assert (sched_ok N None (alter_thread (set_t_wait wm) (tid_index (wt_thread tok)) (w_sched w))) as Hs'.
  { eapply sched_ok_record; [done|done|done| |done|].
    - destruct Ht as [? [] ? ? ?]. split; try done.
      split; simpl; unfold wait_is_blocked, wait_is_prepared, wait_is_completed; simpl; try done.
      + by rewrite Hrun.
      + by right.
      + intros a' [= <-]. simpl. eauto.
    - right. eapply running_not_joiner; [done|done|congruence]. }
  eapply wp_complete_prepared; [done|done|done|by eapply sched_ok_valid|].
  split; [|done]. apply (world_ok_set_sched N m); [done|done|done|].
  eapply links_thread; [done|done|]. eapply (link_close _ _ _ tok a); try done.
  rewrite (wk_token _ _ Hw a Ha) in Htok. by rewrite <-Htok.
Qed.

Lemma wake_local_world m notify w tok t a wm cause :
  completion_mode m notify w → world_ok N m w → live (w_sched w) (wt_thread tok) t →
  active (t_wait t) = Some a → aw_token a = tok → aw_phase a = PhaseBlocked →
  complete (t_wait t) tok cause = (WokeBlocked, wm) → woken (t_wait t) wm →
  ¬ joined (w_sched w) tok → ¬ pending w (wt_cpu tok) (wait_deadline tok) → t_home_cpu t = c →
  wp (complete_wait_transition E tok cause notify)
     (λ r w', world_ok N m w' ∧ aside w w' ∧
        (r, w_sched w') = (WokeBlocked, wake_local_s (wt_thread tok) wm c (w_sched w))) w.
Proof.
  intros Hm Hok Hl Ha Htok Hph Hcm Hwk Hnj Hnp Hh. pose proof Hok as [Hs Hhw Hlk].
  pose proof (blocked_state Hok Hl Ha Htok Hph) as Hb.
  pose proof (blocked_unjoined Hok Hl Ha Htok Hph Hnj Hnp) as Hun.
  assert (c < length (cpus (w_sched w))) as Hlen by (by rewrite (sh_cpus _ _ (so_shape _ _ _ Hs))).
  assert (sched_ok N None (wake_local_s (wt_thread tok) wm c (w_sched w))) as Hs' by (by eapply sched_wake_local).
  pose proof (wake_local_views (w_sched w) (wt_thread tok) wm Hlen) as Hcst.
  destruct (pushable_from E Hcpu None (wt_thread tok) (cst (w_sched w) c) Hs') as [Hpb Hi].
  { unfold ready. by rewrite Hcst. } { by apply (ready_capacity Hs). }
  eapply wp_complete_local; [by apply (cst_lookup Hs)|done|done|done|done| |done|].
  { intros Hid. apply Hi. unfold idl. by rewrite Hcst. }
  eapply wp_mono; [eapply (wake_note_spec m notify w _ (wt_thread tok)); [done|done| |done|done]|].
  - destruct Hm as [(-> & _)|([d ->] & _)]; simpl.
    + eapply links_wake_local; [by apply world_ok_busy|done..].
    + by eapply links_wake_local.
  - intros _ w' [Hok' [Hsw Has]]. split_and!; [by eapply sched_ok_valid, Hok'|done| |by rewrite Hsw].
    destruct Has. by split.
Qed.

Lemma wake_remote_world m notify w tok t a wm cause :
  world_ok N m w → live (w_sched w) (wt_thread tok) t →
  active (t_wait t) = Some a → aw_token a = tok → aw_phase a = PhaseBlocked →
  complete (t_wait t) tok cause = (WokeBlocked, wm) → woken (t_wait t) wm →
  ¬ joined (w_sched w) tok → ¬ pending w (wt_cpu tok) (wait_deadline tok) → t_home_cpu t ≠ c →
  wp (complete_wait_transition E tok cause notify)
     (λ r w', world_ok N m w' ∧ aside w w' ∧
        (r, w_sched w') = (WokeBlocked, wake_remote_s (wt_thread tok) wm (t_home_cpu t) (w_sched w))) w.
Proof.
  intros Hok Hl Ha Htok Hph Hcm Hwk Hnj Hnp Hh. pose proof Hok as [Hs Hhw Hlk].
  pose proof (blocked_state Hok Hl Ha Htok Hph) as Hb.
  pose proof (blocked_unjoined Hok Hl Ha Htok Hph Hnj Hnp) as Hun.
  pose proof (live_home_lt Hs _ _ Hl) as Hhc. set (h := t_home_cpu t) in *.
  set (s' := wake_remote_s (wt_thread tok) wm h (w_sched w)).
  assert (sched_ok N None s') as Hs' by (by eapply sched_wake_remote).
  assert (remote s' h = remote (w_sched w) h ++ [wt_thread tok]) as Hrem.
  { unfold s'. etrans; [apply (remote_alter (w_sched w) (λ l, l ++ [wt_thread tok]) h h)|by rewrite decide_True].
    by rewrite (sh_remote _ _ (so_shape _ _ _ Hs)). }
  destruct (remote_pushable_from E Hcpu None _ h _ Hs' Hhc Hrem) as [Hnin Hroom].
  eapply wp_complete_remote; [done|done|done|done|by apply (remote_lookup Hs)|done|done| | | |].
  - by apply (ipi_lookup Hs).
  - by apply Harch.
  - by eapply sched_ok_valid.
  - destruct (ipi_sent_world m w s' h) as [Hok' Has]; [|by split].
    apply (world_ok_set_sched N m); [done|done|done|].
    eapply links_ext; [eapply (links_wake_thread Hok Hl Ha Htok Hnp); done|done|done].
Qed.

Theorem complete_spec m notify w tok cause :
  completion_mode m notify w → world_ok N m w →
  ¬ joined (w_sched w) tok → ¬ pending w (wt_cpu tok) (wait_deadline tok) →
  wp (complete_wait_transition E tok cause notify)
     (λ r w', world_ok N m w' ∧ aside w w' ∧ (r, w_sched w') = complete_s c tok cause (w_sched w)) w.
Proof.
  intros Hm Hok Hnj Hnp. pose proof Hok as [Hs Hhw Hlk]. unfold complete_s.
  destruct (table_get (w_sched w) (wt_thread tok)) as [t|] eqn:Hl.
  2:{ apply wp_complete_stale; [|done]. unfold thread_matches. by rewrite Hl. }
  destruct (complete_cases (t_wait t) tok cause) as [Hc|[Hc|(a & Ha & Htok & [[Hph Hc]|(Hph & wm & Hc & Hwk)])]].
  - rewrite Hc. eapply wp_complete_inert; [done|done|by right|by eapply sched_ok_valid|done].
  - rewrite Hc. eapply wp_complete_inert; [done|done|by left|by eapply sched_ok_valid|done].
  - rewrite Hc. apply (complete_prepared_world m w tok t a); done.
  - rewrite Hc. unfold wake_s. destruct (decide (t_home_cpu t = c)) as [Hh|Hh].
    + by eapply (wake_local_world m notify w tok t a).
    + by eapply (wake_remote_world m notify w tok t a).
Qed.
End wake_spec.

(** * Finalization of retired threads on the machine *)

(** Hand an exited thread [x] over to the joiner waiting with [tok]. *)
Definition deliver_s (here : CpuId) (x : ThreadId) (t : Thread) (tok : WaitToken) (code : Z) (s : Scheduler)
    : Scheduler :=
  let j := tid_index (wt_thread tok) in
  alter_thread (set_t_reaped_user (t_user t)) j
    (release_s x (alter_thread (set_t_last_join_result (Some (inl code))) j
                    (complete_s here tok Notified (unretire_s x here s)).2)).

Definition finalize_s (here : CpuId) (s : Scheduler) : Scheduler :=
  match ret s here with
  | None => s
  | Some x =>
      match table_get s x with
      | None => s
      | Some t =>
          match t_joiner t, t_exit_code t with
          | Some tok, Some code => deliver_s here x t tok code s
          | _, _ =>
              if t_joinable t then unretire_s x here s
              else release_s x (alter_cpu (set_cs_retired None) here s)
          end
      end
  end.

(** ** Views of a woken scheduler *)

Lemma wake_s_self here tid t wm s :
  live s tid t → live (wake_s here tid t wm s) tid (set_t_state Ready (set_t_wait wm t)).
Proof.
  intros Hl. unfold wake_s. by destruct (decide _); apply (live_alter_same (λ t, set_t_state Ready (set_t_wait wm t))).
Qed.

Lemma wake_s_other here tid t wm s x tx :
  tid_index x ≠ tid_index tid → live s x tx → live (wake_s here tid t wm s) x tx.
Proof.
  intros Hne Hl. unfold wake_s.
  by destruct (decide _); apply (live_alter_other (λ t, set_t_state Ready (set_t_wait wm t))).
Qed.

Lemma wake_s_ret here tid t wm s c' : here < length (cpus s) → ret (wake_s here tid t wm s) c' = ret s c'.
Proof.
  intros Hc. unfold wake_s. destruct (decide _); [|done]. unfold ret, wake_local_s.
  rewrite cst_alter_cpu by done. by destruct (decide (here = c')) as [<-|].
Qed.

Section retire_spec.
Context (E : Env) {N : nat}.
Hypothesis Hcpu : e_cpu E < KERNEL_CPU_CAPACITY.
Hypothesis Harch : arch_ok E.
Abbreviation c := (e_cpu E).

Lemma cst_retire s c' :
  c < length (cpus s) →
  cst (alter_cpu (set_cs_retired None) c s) c' = if decide (c = c') then set_cs_retired None (cst s c) else cst s c'.
Proof. apply cst_alter_cpu. Qed.

(** Dropping the joiner and the retired slot breaks no link. *)
Lemma links_unretire m s w x t :
  c < length (cpus s) → links m s w → live s x t → links m (unretire_s x c s) w.
Proof.
  intros Hlen Hlk Hl. unfold unretire_s.
  apply (links_thread (set_t_joiner None) x t); [|done|].
  - eapply links_ext; [done|done|]. intros c'. unfold cur, ready. rewrite cst_retire by done.
    by destruct (decide (c = c')) as [<-|].
  - split; try done; [by right|]. intros a Ha ? ? ?. exists a. done.
Qed.

(** The slot of an exited thread is reclaimed. *)
Lemma release_world m w x t :
  world_ok N m w → live (w_sched w) x t → t_state t = Exited → ret (w_sched w) (t_home_cpu t) ≠ Some x →
  world_ok N m (on_sched (release_s x) w).
Proof.
  intros [Hs Hhw Hlk] Hl Hex Hr. apply (world_ok_set_sched N m); [done|done| |].
  - rewrite <-(alter_cpu_id id (t_home_cpu t) (w_sched w) (cst (w_sched w) (t_home_cpu t))); [|by apply (cst_lookup Hs), (live_home_lt Hs _ _ Hl)|done].
    apply sched_release; auto.
  - eapply (links_gone (s:=w_sched w) (release_s x (w_sched w)) x t); [done|done|by eapply release_changed|done|].
    pose proof (exited_wait_none _ _ (so_threads _ _ _ Hs _ _ Hl) Hex) as Hw.
    unfold wait_is_none in Hw. by destruct (active _).
Qed.

(** A detached thread leaves the retired slot and the table together. *)
Lemma release_retired_world m w x t :
  world_ok N m w → live (w_sched w) x t → t_state t = Exited → t_home_cpu t = c →
  ret (w_sched w) c = Some x →
  world_ok N m (on_sched (λ s, release_s x (alter_cpu (set_cs_retired None) c s)) w).
Proof.
  intros [Hs Hhw Hlk] Hl Hex Hh Hr. apply (world_ok_set_sched N m); [done|done| |].
  - rewrite <-Hh. apply sched_release; auto. right. split; [done|]. by rewrite Hh.
  - assert (c < length (cpus (w_sched w))) as Hlen by (by rewrite (sh_cpus _ _ (so_shape _ _ _ Hs))).
    eapply (links_gone (s:=alter_cpu (set_cs_retired None) c (w_sched w))); [|exact Hl|by eapply release_changed|done|].
    + eapply links_ext; [done|done|]. intros c'. unfold cur, ready. rewrite cst_retire by done.
      by destruct (decide (c = c')) as [<-|].
    + pose proof (exited_wait_none _ _ (so_threads _ _ _ Hs _ _ Hl) Hex) as Hw.
      unfold wait_is_none in Hw. by destruct (active _).
Qed.

(** Fields that only the owner of the record reads. *)
Lemma record_world m w tid t f :
  world_ok N m w → live (w_sched w) tid t → t_state t ≠ Blocked →
  keeps_thread f t → t_state (f t) = t_state t → t_wait (f t) = t_wait t → t_user (f t) = t_user t →
  t_exit_code (f t) = t_exit_code t →
  world_ok N m (on_sched (alter_thread f (tid_index tid)) w).
Proof.
  intros [Hs Hhw Hlk] Hl Hb Hk Hst Hw Hu Hx. pose proof Hk as [Kh Kj Kn Ku].
  apply (world_ok_set_sched N m); [done|done| |].
  - eapply sched_ok_record; [done|done|done| |done|].
    + destruct (so_threads _ _ _ Hs _ _ Hl) as [? [] ? ? ?].
      split; rewrite ?Kh, ?Hst, ?Hw, ?Hu, ?Hx, ?Kn; try done. split; rewrite ?Kh, ?Hst, ?Hw; done.
    + right. by eapply running_not_joiner.
  - eapply links_thread; [done|done|]. split; [done|by left|by unfold thread_root; rewrite Hu|].
    intros a Ha ? ? ?. exists a. by rewrite Hw.
Qed.
(** The joiner's wait, completed. *)
Definition joined_wait (j : Thread) (tok : WaitToken) : WaitMetadata :=
  set_active (t_wait j) (Some (mkActiveWait tok (Completed Notified) Explicit)).

Lemma complete_joined here tok s j :
  live s (wt_thread tok) j → active (t_wait j) = Some (mkActiveWait tok PhaseBlocked Explicit) →
  complete_s here tok Notified s = (WokeBlocked, wake_s here (wt_thread tok) j (joined_wait j tok) s).
Proof.
  intros Hl Ha. unfold complete_s. rewrite Hl. unfold complete. rewrite Ha. simpl.
  by rewrite decide_False by (intros Hn; by apply Hn).
Qed.

(** Wake the joiner, reclaim the target and hand its resources over. *)
Lemma deliver_spec m notify w x t tok code j :
  completion_mode E m notify w → world_ok N m w →
  live (w_sched w) x t → t_state t = Exited → t_home_cpu t = c → ret (w_sched w) c = None →
  ¬ joined (w_sched w) tok → ¬ pending w (wt_cpu tok) (wait_deadline tok) →
  live (w_sched w) (wt_thread tok) j → active (t_wait j) = Some (mkActiveWait tok PhaseBlocked Explicit) →
  t_reaped_user j = None →
  wp (complete_joiner E tok code notify;; r ← table_release x; set_reaped_user (wt_thread tok) r)
     (λ _ w', world_ok N m w' ∧ aside w w' ∧
        w_sched w' = alter_thread (set_t_reaped_user (t_user t)) (tid_index (wt_thread tok))
          (release_s x (alter_thread (set_t_last_join_result (Some (inl code))) (tid_index (wt_thread tok))
             (complete_s c tok Notified (w_sched w)).2))) w.
Proof.
  intros Hm Hok Hx Hex Hh Hret Hnj Hnp Hj Ha Hru. pose proof Hok as [Hs _ _].
  assert (tid_index x ≠ tid_index (wt_thread tok)) as Hidx.
  { intros Heq. pose proof (live_index_inj _ _ _ _ _ Hx Hj Heq) as ->. rewrite (live_fun _ _ _ _ Hx Hj) in *.
    pose proof (exited_wait_none _ _ (so_threads _ _ _ Hs _ _ Hj) Hex) as Hw. unfold wait_is_none in Hw. by rewrite Ha in Hw. }
  set (j1 := set_t_state Ready (set_t_wait (joined_wait j tok) j)).
  set (j2 := set_t_last_join_result (Some (inl code)) j1).
  apply wp_bind. apply wp_bind. eapply wp_mono; [by eapply (complete_spec E Hcpu Harch m notify w tok Notified)|].
  rewrite (complete_joined c tok (w_sched w) j Hj Ha). simpl snd. intros r w1 (Hok1 & Has1 & [= -> Hw1]).
  pose proof (wake_s_self c (wt_thread tok) j (joined_wait j tok) (w_sched w) Hj) as Hj1.
  pose proof (wake_s_other c (wt_thread tok) j (joined_wait j tok) (w_sched w) x t Hidx Hx) as Hx1.
  fold j1 in Hj1. rewrite <-Hw1 in Hj1, Hx1 |- *.
  wp_step. wp_step; [done|]. eapply wp_thread_mut; [exact Hj1|].
  pose proof (record_world m w1 (wt_thread tok) j1 (set_t_last_join_result (Some (inl code))) Hok1 Hj1
                ltac:(done) ltac:(done) eq_refl eq_refl eq_refl eq_refl) as Hok2.
  set (w2 := on_sched _ w1) in *.
  assert (live (w_sched w2) x t) as Hx2 by (by apply live_alter_other).
  assert (live (w_sched w2) (wt_thread tok) j2) as Hj2
    by (by apply (live_alter_same (set_t_last_join_result (Some (inl code))))).
  wp_step. eapply wp_table_release; [exact Hx2|by eapply exited_wait_none, Hex; eapply (so_threads _ _ _ Hs)|].
  assert (world_ok N m (on_sched (release_s x) w2)) as Hok3.
  { eapply release_world; [done|done|done|]. change (ret (w_sched w1) (t_home_cpu t) ≠ Some x).
    rewrite Hw1, wake_s_ret by (by rewrite (sh_cpus _ _ (so_shape _ _ _ Hs))). by rewrite Hh, Hret. }
  set (w3 := on_sched (release_s x) w2) in *.
  assert (live (w_sched w3) (wt_thread tok) j2) as Hj3.
  { eapply (changed_other (w_sched w2)); [by eapply release_changed| |done]. intros Heq. by rewrite Heq in Hidx. }
  apply wp_bind. wp_step. rewrite Hj3. wp_step. eapply wp_expect; [done|].
  wp_step. wp_step; [simpl; by rewrite Hru|]. apply wp_modify. split_and!; [|destruct Has1; by split|done].
  apply (record_world m w3 (wt_thread tok) j2 (set_t_reaped_user (t_user t)) Hok3 Hj3); done.
Qed.

Lemma unretire_unjoined s x t tok :
  joiners_ok s → live s x t → t_joiner t = Some tok → ¬ joined (unretire_s x c s) tok.
Proof.
  intros Hj Hx Hjn (y & ty & Hy & Hty).
  apply (changed_live (alter_cpu (set_cs_retired None) c s) _ x (Some (set_t_joiner None t))) in Hy as [[-> ?]|[Hne Hy]].
  - simplify_eq.
  - apply Hne. by eapply (jk_inj _ Hj).
  - by apply (alter_thread_changed (alter_cpu (set_cs_retired None) c s) (set_t_joiner None) x t).
Qed.

Theorem finalize_spec m notify w :
  completion_mode E m notify w → world_ok N m w →
  wp (finalize_retired E notify)
     (λ _ w', world_ok N m w' ∧ aside w w' ∧ w_sched w' = finalize_s c (w_sched w)) w.
Proof.
  intros Hm Hok. pose proof Hok as [Hs Hhw Hlk]. pose proof (cst_lookup Hs _ Hcpu) as Hst.
  assert (c < length (cpus (w_sched w))) as Hlen by (by rewrite (sh_cpus _ _ (so_shape _ _ _ Hs))).
  apply wp_bind. eapply wp_local_state; [done|]. unfold finalize_s. fold (ret (w_sched w) c).
  destruct (ret (w_sched w) c) as [x|] eqn:Hret; [|by apply wp_ret].
  pose proof (ci_retired _ _ _ _ _ (so_cpu _ _ _ Hs c Hcpu) x Hret) as Hx.
  apply state_on_Some in Hx as (t & Hx & Hh & Hex). rewrite Hx.
  wp_step. eapply wp_state_mut; [done|]. wp_step. wp_step.
  { fold (cur (w_sched w) c). rewrite bool_decide_false; [done|]. intros Hcx.
    destruct (current_live Hs c x Hcpu Hcx) as (t' & Hl' & _ & Hst'). rewrite (live_fun _ _ _ _ Hl' Hx) in Hst'. congruence. }
  wp_step. wp_step. wp_step. wp_step; [by eapply (live_matches _ _ _ Hx)|].
  wp_step. eapply wp_with_sched; [by eapply (live_thread_at _ _ _ Hx)|].
  wp_step. wp_step; [by apply bool_decide_eq_true|]. wp_step. wp_step; [by apply bool_decide_eq_true|].
  wp_step. eapply wp_thread_mut; [exact Hx|].
  destruct (tk_exit _ _ (so_threads _ _ _ Hs _ _ Hx) Hex) as [code Hcode].
  rewrite on_sched_compose. fold (unretire_s x c). change (_ ∘ _) with (unretire_s x c).
  assert (t_joinable t = true → world_ok N m (on_sched (unretire_s x c) w)) as Hok1.
  { intros Hjn. apply (world_ok_set_sched N m); [done|done| |by eapply links_unretire].
    rewrite <-Hh. apply sched_unretire; [done|done|by rewrite Hh|done]. }
  destruct (t_joiner t) as [tok|] eqn:Hjn.
  - destruct (jk_blocked _ (so_joiners _ _ _ Hs) _ _ _ Hx Hjn) as (j & Hj & Ha & Hlr & Hru).
    assert (joined (w_sched w) tok) as Hjoined by (by exists x, t).
    rewrite Hcode. wp_step. wp_step. eapply wp_expect; [done|].
    eapply wp_mono; [eapply (deliver_spec m notify _ x (set_t_joiner None t) tok code j)|].
    + exact Hm.
    + by apply Hok1, (jk_joinable _ (so_joiners _ _ _ Hs) _ _ _ Hx Hjn).
    + by apply (live_alter_same (set_t_joiner None)).
    + done.
    + done.
    + unfold ret. change (cs_retired (cst (alter_cpu (set_cs_retired None) c (w_sched w)) c) = None).
      by rewrite cst_retire, decide_True.
    + exact (unretire_unjoined (w_sched w) x t tok (so_joiners _ _ _ Hs) Hx Hjn).
    + apply (lk_joiner _ _ _ Hlk tok _ Hjoined).
    + apply (live_alter_other (set_t_joiner None) x); [|exact Hj]. intros Heq.
      pose proof (live_index_inj _ _ _ _ _ Hj Hx Heq) as Hjx. rewrite Hjx in Hj.
      rewrite (live_fun _ _ _ _ Hj Hx) in Ha.
      pose proof (exited_wait_none _ _ (so_threads _ _ _ Hs _ _ Hx) Hex) as Hw. unfold wait_is_none in Hw. by rewrite Ha in Hw.
    + done.
    + done.
    + intros _ w' (Hok' & Has & Hsw). apply wp_validate; [by eapply sched_ok_valid, Hok'|].
      split_and!; [done| |done]. destruct Has. by split.
  - destruct (t_joinable t) eqn:Hjb.
    + wp_step. wp_step. apply wp_validate; [by eapply sched_ok_valid, Hok1|]. split_and!; [by apply Hok1|done|done].
    + wp_step. wp_step. pose proof (live_alter_same (set_t_joiner None) _ _ _ Hx) as Hx1.
      eapply wp_table_release; [exact Hx1|exact (exited_wait_none x t (so_threads _ _ _ Hs _ _ Hx) Hex)|].
      wp_step.
      { simpl. destruct (t_user t) as [u|] eqn:Hu; [|done].
        destruct (tk_user _ _ (so_threads _ _ _ Hs _ _ Hx) u Hu). congruence. }
      assert (on_sched (release_s x) (on_sched (unretire_s x c) w)
              = on_sched (λ s, release_s x (alter_cpu (set_cs_retired None) c s)) w) as ->.
      { rewrite on_sched_compose. apply on_sched_ext. cbn [compose]. unfold unretire_s.
        by rewrite (alter_thread_id (set_t_joiner None) x _ t) by (done || by destruct t; simpl in *; subst). }
      pose proof (release_retired_world m w x t Hok Hx Hex Hh Hret) as Hok2.
      apply wp_validate; [by eapply sched_ok_valid, Hok2|]. split_and!; [done|done|done].
Qed.
End retire_spec.
