(* ===== verification/Frames.v ===== *)
(** * Register frames and address spaces of threads

    Where the register state of a thread is: in the live frame of its CPU
    while it runs there, in its own record otherwise.  The file shows which
    scheduler moves leave every frame and every address space in place, and
    that a handoff moves the two frames involved without loss. *)

From stdpp Require Import gmap.
From S2P Require Import Prelude Types Wait TimeConv Deadline Preempt Context Vm Time Sched World Transition Handoff.
From S2P Require Import CpuInv SchedInv Switch Lifecycle TransitionSpec LifecycleSpec WorldInv TimeSpec.
From S2P Require Import SwitchSpec WakeSpec.

(** ** Moves that keep the identity of threads *)

(** No thread appears, and those that stay keep home, resources, stack and
    saved frame. *)
Definition keeps (s s' : Scheduler) : Prop :=
  ∀ tid t', live s' tid t' → ∃ t, live s tid t ∧ t_context t' = t_context t ∧ t_user t' = t_user t ∧
    t_home_cpu t' = t_home_cpu t ∧ t_stack t' = t_stack t ∧ (t_state t = Exited → t_state t' = Exited).

(** The same threads run on the same CPUs. *)
Definition same_cur (s s' : Scheduler) : Prop :=
  ∀ c, cur s' c = cur s c ∧ idl s' c = idl s c ∧ cs_online (cst s' c) = cs_online (cst s c).

#[global] Instance keeps_preorder : PreOrder keeps.
Proof.
  split.
  - intros s tid t Hl. by exists t.
  - intros s1 s2 s3 H12 H23 tid t3 Hl3. destruct (H23 tid t3 Hl3) as (t2 & Hl2 & -> & -> & -> & -> & E2).
    destruct (H12 tid t2 Hl2) as (t1 & ? & -> & -> & -> & -> & E1). exists t1. split_and!; auto.
Qed.

#[global] Instance same_cur_equiv : Equivalence same_cur.
Proof.
  split.
  - by intros s c.
  - intros s1 s2 H c. destruct (H c) as (-> & -> & ->). done.
  - intros s1 s2 s3 H12 H23 c. destruct (H23 c) as (-> & -> & ->). apply H12.
Qed.

Lemma keeps_alter_thread s f i :
  (∀ t, t_context (f t) = t_context t ∧ t_user (f t) = t_user t ∧ t_home_cpu (f t) = t_home_cpu t ∧
        t_stack (f t) = t_stack t) →
  (∀ slot t, table_slots s !! i = Some slot → sl_thread slot = Some t → t_state t = Exited → t_state (f t) = Exited) →
  keeps s (alter_thread f i s).
Proof.
  intros Hf Hst tid t'. unfold live. rewrite table_get_alter. destruct (decide _) as [<-|]; [|by eauto 10].
  intros (t & Ht & ->)%fmap_Some. exists t. destruct (Hf t) as (-> & -> & -> & ->). split_and!; try done.
  destruct (live_slot _ _ _ Ht) as (slot & ? & _ & ?). eauto.
Qed.

(** Moves that leave all records alone. *)
Lemma keeps_ext s s' : (∀ x, table_get s' x = table_get s x) → keeps s s'.
Proof. intros H tid t'. unfold live. rewrite H. eauto 10. Qed.

Lemma keeps_release s tid : keeps s (release_s tid s).
Proof.
  intros x tx Hx. exists tx. split_and!; try done. revert Hx. unfold live, table_get, release_s, table_slots. simpl.
  destruct (decide (tid_index tid = tid_index x)) as [He|Hne].
  - rewrite <-He, list_lookup_alter_eq. destruct (slots (lifecycle s) !! tid_index tid) as [slot|]; [|done]. simpl.
    destruct (sl_thread slot) eqn:Ht; simpl; [by destruct (decide _)|]. by rewrite Ht.
  - by rewrite list_lookup_alter_ne.
Qed.

Lemma same_cur_cst s s' : (∀ c, cst s' c = cst s c) → same_cur s s'.
Proof. intros H c. unfold cur, idl. by rewrite H. Qed.

Lemma same_cur_alter_cpu s f c :
  c < length (cpus s) →
  (∀ st, cs_current (f st) = cs_current st ∧ cs_idle (f st) = cs_idle st ∧ cs_online (f st) = cs_online st) →
  same_cur s (alter_cpu f c s).
Proof.
  intros Hc Hf c'. unfold cur, idl. rewrite cst_alter_cpu by done.
  destruct (decide (c = c')) as [<-|]; [|done]. destruct (Hf (cst s c)) as (-> & -> & ->). done.
Qed.

Section pure.
Context {N : nat} {here : CpuId} {s : Scheduler}.
Hypothesis Hok : sched_ok N None s.
Hypothesis Hhere : here < KERNEL_CPU_CAPACITY.

Lemma here_length : here < length (cpus s).
Proof. by rewrite (sh_cpus _ _ (so_shape _ _ _ Hok)). Qed.

Lemma wake_keeps tid t wm :
  live s tid t → t_state t = Blocked → keeps s (wake_s here tid t wm s) ∧ same_cur s (wake_s here tid t wm s).
Proof.
  intros Hl Hb. set (f := λ t, set_t_state Ready (set_t_wait wm t)).
  assert (keeps s (alter_thread f (tid_index tid) s)) as Hk.
  { apply keeps_alter_thread; [done|]. intros slot t0 Hs Ht He.
    destruct (live_slot _ _ _ Hl) as (slot' & Hs' & _ & Ht'). simplify_eq. congruence. }
  unfold wake_s. destruct (decide _); split.
  - etrans; [exact Hk|]. by apply keeps_ext.
  - apply (same_cur_alter_cpu (alter_thread f (tid_index tid) s)); [apply here_length|done].
  - etrans; [exact Hk|]. by apply keeps_ext.
  - by apply same_cur_cst.
Qed.

Lemma complete_keeps tok cause :
  keeps s (complete_s here tok cause s).2 ∧ same_cur s (complete_s here tok cause s).2.
Proof.
  unfold complete_s. destruct (table_get s (wt_thread tok)) as [t|] eqn:Hl; [|done].
  destruct (complete_cases (t_wait t) tok cause) as [->|[->|(a & Ha & Htok & [[Hph ->]|(Hph & wm & -> & Hwk)])]];
    simpl; [done|done| |].
  - split; [|done]. by apply keeps_alter_thread.
  - apply wake_keeps; [done|]. apply (wk_blocked _ _ (tk_wait _ _ (so_threads _ _ _ Hok _ _ Hl))).
    unfold wait_is_blocked. rewrite Ha. destruct a. simpl in *. by rewrite Hph.
Qed.

Lemma unretire_keeps x : keeps s (unretire_s x here s) ∧ same_cur s (unretire_s x here s).
Proof.
  split.
  - etrans; [by apply (keeps_ext s (alter_cpu (set_cs_retired None) here s))|]. by apply keeps_alter_thread.
  - by apply (same_cur_alter_cpu s (set_cs_retired None)); [apply here_length|].
Qed.
End pure.

Lemma same_cur_rec s f i : same_cur s (alter_thread f i s).
Proof. done. Qed.
Lemma same_cur_release s x : same_cur s (release_s x s).
Proof. done. Qed.

(** Finalization takes nothing from a thread that is still there. *)
Lemma finalize_keeps N here s :
  sched_ok N None s → here < KERNEL_CPU_CAPACITY →
  keeps s (finalize_s here s) ∧ same_cur s (finalize_s here s).
Proof.
  intros Hok Hh. unfold finalize_s. destruct (ret s here) as [x|] eqn:Hret; [|done].
  pose proof (ci_retired _ _ _ _ _ (so_cpu _ _ _ Hok here Hh) x Hret) as Hx.
  apply state_on_Some in Hx as (t & Hx & Hhx & Hex). rewrite Hx.
  destruct (unretire_keeps Hok Hh x) as [K1 C1].
  destruct (t_joiner t) as [tok|] eqn:Hj, (t_exit_code t) as [code|] eqn:Hcd;
    try (destruct (t_joinable t); [done|]; split;
         [etrans; [by apply (keeps_ext s (alter_cpu (set_cs_retired None) here s))|apply keeps_release]
         |by apply (same_cur_alter_cpu s (set_cs_retired None)); [eapply here_length|]]).
  assert (sched_ok N None (unretire_s x here s)) as Hok1.
  { rewrite <-Hhx. apply sched_unretire; [done|done|by rewrite Hhx|].
    by eapply (jk_joinable _ (so_joiners _ _ _ Hok)). }
  destruct (complete_keeps Hok1 Hh tok Notified) as [K2 C2]. unfold deliver_s. split.
  - do 2 (etrans; [eassumption|]). etrans; [|by apply keeps_alter_thread].
    etrans; [|apply keeps_release]. by apply keeps_alter_thread.
  - etrans; [exact C1|exact C2].
Qed.

(** ** Where a thread's frame is *)

Definition on_cpu (s : Scheduler) (c : CpuId) (tid : ThreadId) : bool :=
  cs_online (cst s c) && bool_decide (cur s c = Some tid).

Definition frame_of (w : World) (tid : ThreadId) : option TrapFrame :=
  match table_get (w_sched w) tid with
  | Some t => if on_cpu (w_sched w) (t_home_cpu t) tid then w_active w !! t_home_cpu t else Some (t_context t)
  | None => None
  end.

(** No thread appears, exited threads stay so, and the register state of every
    other thread is unchanged. *)
Definition frames_kept (w w' : World) : Prop :=
  ∀ tid t', live (w_sched w') tid t' → ∃ t, live (w_sched w) tid t ∧ (t_state t = Exited → t_state t' = Exited) ∧
    (t_state t' ≠ Exited → frame_of w' tid = frame_of w tid).

#[global] Instance frames_kept_preorder : PreOrder frames_kept.
Proof.
  split.
  - intros w tid t Hl. by exists t.
  - intros w1 w2 w3 H12 H23 tid t3 Hl3. destruct (H23 tid t3 Hl3) as (t2 & Hl2 & E2 & F2).
    destruct (H12 tid t2 Hl2) as (t1 & Hl1 & E1 & F1). exists t1. split_and!; [done|auto|].
    intros Hst. rewrite F2, F1; auto.
Qed.

Lemma frames_keeps w w' :
  keeps (w_sched w) (w_sched w') → same_cur (w_sched w) (w_sched w') → w_active w' = w_active w → frames_kept w w'.
Proof.
  intros Hk Hc Ha tid t' Hl'. destruct (Hk tid t' Hl') as (t & Hl & Hcx & _ & Hh & _ & Hex).
  exists t. split_and!; [done|done|]. intros _. unfold frame_of. rewrite Hl, Hl', Ha, Hcx, Hh.
  unfold on_cpu. by destruct (Hc (t_home_cpu t)) as (-> & _ & ->).
Qed.

(** ** Address spaces *)

(** The machine invariant, and on every online CPU the address space of its
    current thread. *)
Record kernel_at (N : nat) (m : Mode) (w : World) : Prop := {
  ko_world : world_ok N m w;
  ko_space : ∀ c, space_ok (w_sched w) (w_vm w) c
}.

(** Between entry points. *)
Abbreviation kernel_ok N w := (kernel_at N Stable w).

Lemma space_keeps s s' vm vm' c :
  keeps s s' → cur s' c = cur s c → cs_online (cst s' c) = cs_online (cst s c) → vm' !! c = vm !! c →
  space_ok s vm c → space_ok s' vm' c.
Proof.
  intros Hk Hc Ho Hv Hs tid t'. rewrite Hc, Ho, Hv. intros Hon Hcur Hl'.
  destruct (Hk tid t' Hl') as (t & Hl & _ & Hu & _). specialize (Hs tid t Hon Hcur Hl).
  unfold space_of, thread_root in *. by rewrite Hu.
Qed.

(** ** The handoff *)

(** The scheduler moved CPU [c] from one thread to another. *)
Record moved (c : CpuId) (from to : ThreadId) (s s' : Scheduler) : Prop := {
  mv_keeps : keeps s s';
  mv_from : cur s c = Some from;
  mv_to : cur s' c = Some to;
  mv_other : ∀ c', c' ≠ c → cur s' c' = cur s c';
  mv_online : ∀ c', cs_online (cst s' c') = cs_online (cst s c')
}.

Section handoff_frames.
Context {w : World} {c : CpuId} {from to : ThreadId} {s' : Scheduler} {frame : TrapFrame} {tf tto : Thread}.
Context {vm' : vm_table}.
Hypothesis Hmv : moved c from to (w_sched w) s'.
Hypothesis Hne : from ≠ to.
Hypothesis Hon : cs_online (cst (w_sched w) c) = true.
Hypothesis Hfrom : live (w_sched w) from tf.
Hypothesis Hhf : t_home_cpu tf = c.
Hypothesis Hto : live s' to tto.
Hypothesis Hht : t_home_cpu tto = c.
Hypothesis Hfr : w_active w !! c = Some frame.
Hypothesis Hspace : space_of tto (vm' !! c).
Hypothesis Hvm : ∀ c', c' ≠ c → vm' !! c' = w_vm w !! c'.

(** A thread other than [from] has its frame where it belongs after [to]'s
    frame became the live one. *)
Lemma entered_frame (act : list TrapFrame) tid t t' :
  act !! c = Some (restore_into (t_context tto)) → (∀ c', c' ≠ c → act !! c' = w_active w !! c') →
  live (w_sched w) tid t → live s' tid t' → tid ≠ from →
  (if on_cpu s' (t_home_cpu t') tid then act !! t_home_cpu t' else Some (t_context t')) = frame_of w tid.
Proof.
  intros Hac Hao Hl Hl' Hnf. unfold frame_of. rewrite Hl.
  destruct (mv_keeps _ _ _ _ _ Hmv tid t' Hl') as (t0 & Hl0 & -> & _ & Hh & _).
  rewrite (live_fun _ _ _ _ Hl0 Hl) in *. unfold on_cpu. rewrite Hh, (mv_online _ _ _ _ _ Hmv).
  destruct (decide (t_home_cpu t = c)) as [Hc|Hc].
  - rewrite Hc, (mv_to _ _ _ _ _ Hmv), (mv_from _ _ _ _ _ Hmv).
    rewrite (bool_decide_false (Some from = Some tid)) by congruence. rewrite Hon. simpl.
    case_bool_decide as Heq; [|done]. injection Heq as Heq. rewrite Hac. rewrite <-Heq in Hl.
    destruct (mv_keeps _ _ _ _ _ Hmv to tto Hto) as (t1 & Hl1 & Hcx & _). unfold restore_into. by rewrite Hcx, (live_fun _ _ _ _ Hl1 Hl).
  - rewrite (mv_other _ _ _ _ _ Hmv) by done. by rewrite Hao.
Qed.

Lemma handed_live tid t' :
  live (saved_s from frame s') tid t' →
  ∃ t0, live s' tid t0 ∧ t_home_cpu t' = t_home_cpu t0 ∧ t_user t' = t_user t0 ∧ t_state t' = t_state t0 ∧
        t_context t' = if decide (tid = from) then save_from frame else t_context t0.
Proof.
  unfold live, saved_s. rewrite table_get_alter. destruct (decide (tid_index tid = tid_index from)) as [Hi|Hi].
  - intros (t0 & Ht0 & ->)%fmap_Some. exists t0. split_and!; try done. simpl.
    destruct (mv_keeps _ _ _ _ _ Hmv tid t0 Ht0) as (t1 & Hl1 & _).
    by rewrite decide_True by (by eapply live_index_inj).
  - intros Ht'. exists t'. split_and!; try done. by rewrite decide_False by (intros ->; done).
Qed.

(** The live frame is parked in [from], the frame of [to] is live, nobody
    else is touched. *)
Lemma handed_frames : frames_kept w (handed c from frame tto vm' (set_w_sched s' w)).
Proof.
  intros tid t' Hl'. destruct (handed_live tid t' Hl') as (t0 & Hl0 & Hh & _ & Hst0 & Hcx).
  destruct (mv_keeps _ _ _ _ _ Hmv tid t0 Hl0) as (t & Hl & _ & _ & Hh1 & _ & Hex).
  exists t. split_and!; [done|by rewrite Hst0|]. intros Hst. unfold frame_of at 1. rewrite Hl', Hcx.
  change (w_sched (handed _ _ _ _ _ _)) with (saved_s from frame s') in *.
  change (w_active (handed _ _ _ _ _ _)) with (<[c := restore_into (t_context tto)]> (w_active w)).
  change (on_cpu (saved_s from frame s')) with (on_cpu s'). rewrite Hh. destruct (decide (tid = from)) as [->|Hnf].
  - rewrite (live_fun _ _ _ _ Hl Hfrom) in *. unfold frame_of, on_cpu. rewrite Hfrom, Hh1, Hhf, (mv_to _ _ _ _ _ Hmv), (mv_from _ _ _ _ _ Hmv).
    rewrite bool_decide_false by congruence. rewrite bool_decide_true by done. rewrite Hon, andb_false_r. by rewrite Hfr.
  - eapply entered_frame; [| |done|done|done].
    + apply list_lookup_insert_eq. by apply lookup_lt_Some in Hfr.
    + intros c' Hne'. by rewrite list_lookup_insert_ne.
Qed.

Lemma entered_space c' : (∀ c', space_ok (w_sched w) (w_vm w) c') → space_ok s' vm' c'.
Proof using Hmv Hto Hspace Hvm.
  clear Hfrom Hhf Hht Hfr Hne Hon. intros Hsp tid t0 Hon' Hcur Hl0. destruct (decide (c' = c)) as [->|Hnc].
  - rewrite (mv_to _ _ _ _ _ Hmv) in Hcur. simplify_eq. by rewrite (live_fun _ _ _ _ Hl0 Hto).
  - rewrite (mv_other _ _ _ _ _ Hmv) in Hcur by done. rewrite (mv_online _ _ _ _ _ Hmv) in Hon'.
    destruct (mv_keeps _ _ _ _ _ Hmv tid t0 Hl0) as (t1 & Hl1 & _ & Hu1 & _).
    specialize (Hsp c' tid t1 Hon' Hcur Hl1). rewrite Hvm by done. unfold space_of, thread_root in *. by rewrite Hu1.
Qed.

Lemma handed_space c' :
  (∀ c', space_ok (w_sched w) (w_vm w) c') → space_ok (saved_s from frame s') vm' c'.
Proof using Hmv Hto Hspace Hvm Hfrom.
  intros Hsp tid t' Hon' Hcur Hl'. destruct (handed_live tid t' Hl') as (t0 & Hl0 & Hh & Hu & _ & _).
  pose proof (entered_space c' Hsp tid t0 Hon' Hcur Hl0) as H. unfold space_of, thread_root in *. by rewrite Hu.
Qed.
End handoff_frames.
