(* ===== verification/EntrySpec.v ===== *)
(** * Scheduler entry points: checkpoints and notifications

    The entry points that may replace the running thread without its consent:
    preemption checkpoints, voluntary yields and scheduler notifications.
    From every state that satisfies the kernel invariant they return to one,
    and every thread keeps its register state. *)

From stdpp Require Import gmap.
From S2P Require Import Prelude Types Wait TimeConv Deadline Preempt Context Vm Time Sched World Transition Handoff.
From S2P Require Import CpuInv SchedInv Switch Lifecycle TransitionSpec LifecycleSpec WorldInv TimeSpec.
From S2P Require Import SwitchSpec WakeSpec Frames.

(** ** What finalization leaves alone *)

Lemma finalize_other N here s tid t :
  sched_ok N None s → here < KERNEL_CPU_CAPACITY → live s tid t → t_state t ≠ Exited →
  (∀ tok, joined s tok → wt_thread tok ≠ tid) → live (finalize_s here s) tid t.
Proof.
  intros Hok Hh Hl Hrun Hnj. unfold finalize_s. destruct (ret s here) as [x|] eqn:Hret; [|done].
  pose proof (ci_retired _ _ _ _ _ (so_cpu _ _ _ Hok here Hh) x Hret) as Hx.
  apply state_on_Some in Hx as (tx & Hx & Hhx & Hex). rewrite Hx.
  assert (tid ≠ x) as Hne by (intros ->; rewrite (live_fun _ _ _ _ Hl Hx) in Hrun; congruence).
  assert (tid_index tid ≠ tid_index x) as Hi by (intros Heq; apply Hne; by eapply live_index_inj).
  assert (live (unretire_s x here s) tid t) as Hl1 by (by apply (live_alter_other (set_t_joiner None))).
  assert (∀ s0, live s0 tid t → live (release_s x s0) tid t) as Hrel.
  { intros s0. unfold live, table_get, release_s, table_slots. simpl. by rewrite list_lookup_alter_ne. }
  destruct (t_joiner tx) as [tok|] eqn:Hj, (t_exit_code tx) as [code|];
    try (destruct (t_joinable tx); [done|by apply Hrel]).
  destruct (jk_blocked _ (so_joiners _ _ _ Hok) _ _ _ Hx Hj) as (j & Hlj & Ha & _).
  destruct (joined_blocked _ _ _ tok j Hok) as [Hbl _]; [by exists x, tx|done|].
  assert (tid_index tid ≠ tid_index (wt_thread tok)) as Hij.
  { intros Heq. symmetry in Heq. apply (Hnj tok); [by exists x, tx|by eapply live_index_inj]. }
  assert (tid_index (wt_thread tok) ≠ tid_index x) as Hijx.
  { intros Heq. pose proof (live_index_inj _ _ _ _ _ Hlj Hx Heq) as Hjx. rewrite Hjx in Hlj.
    rewrite (live_fun _ _ _ _ Hlj Hx) in Hbl. congruence. }
  unfold deliver_s. rewrite (complete_joined here tok (unretire_s x here s) j);
    [|by apply (live_alter_other (set_t_joiner None) x)|done].
  simpl. apply live_alter_other; [done|]. apply Hrel. apply live_alter_other; [done|]. by apply wake_s_other.
Qed.

Lemma finalize_running N here s tid t :
  sched_ok N None s → here < KERNEL_CPU_CAPACITY → live s tid t → t_state t = Running →
  live (finalize_s here s) tid t.
Proof.
  intros Hok Hh Hl Hrun. apply (finalize_other N); [done..|congruence|]. intros tok Hj <-.
  destruct (joined_blocked _ _ _ tok t Hok Hj Hl) as [Hbl _]. congruence.
Qed.

Lemma finalize_ret N here s :
  sched_ok N None s → here < KERNEL_CPU_CAPACITY → ret (finalize_s here s) here = None.
Proof.
  intros Hok Hh. pose proof (here_length Hok Hh) as Hlen. unfold finalize_s.
  destruct (ret s here) as [x|] eqn:Hret; [|done].
  pose proof (ci_retired _ _ _ _ _ (so_cpu _ _ _ Hok here Hh) x Hret) as Hx.
  apply state_on_Some in Hx as (tx & Hx & Hhx & Hex). rewrite Hx.
  assert (ret (alter_cpu (set_cs_retired None) here s) here = None) as Hnone.
  { unfold ret. rewrite cst_alter_cpu by done. by rewrite decide_True. }
  destruct (t_joiner tx) as [tok|] eqn:Hj, (t_exit_code tx) as [code|];
    try (by destruct (t_joinable tx)).
  destruct (jk_blocked _ (so_joiners _ _ _ Hok) _ _ _ Hx Hj) as (j & Hlj & Ha & _).
  destruct (joined_blocked _ _ _ tok j Hok) as [Hbl _]; [by exists x, tx|done|].
  unfold deliver_s. rewrite (complete_joined here tok (unretire_s x here s) j).
  - change (ret (wake_s here (wt_thread tok) j (joined_wait j tok) (unretire_s x here s)) here = None).
    rewrite wake_s_ret; [done|]. simpl. by rewrite length_alter.
  - apply (live_alter_other (set_t_joiner None) x); [|exact Hlj]. intros Heq.
    pose proof (live_index_inj _ _ _ _ _ Hlj Hx Heq) as Hjx. rewrite Hjx in Hlj.
    rewrite (live_fun _ _ _ _ Hlj Hx) in Hbl. congruence.
  - done.
Qed.

Section entry.
Context (E : Env) {N : nat}.
Hypothesis Hcpu : e_cpu E < KERNEL_CPU_CAPACITY.
Hypothesis Harch : arch_ok E.
Abbreviation c := (e_cpu E).

(** The executing CPU is online and runs [from], which is in no prepared
    wait: the conditions under which it can be preempted. *)
Record preemptible (s : Scheduler) (from : ThreadId) (t : Thread) : Prop := {
  pr_online : cs_online (cst s c) = true;
  pr_cur : cur s c = Some from;
  pr_live : live s from t;
  pr_wait : wait_is_prepared (t_wait t) = false
}.

(** ** Quantum bookkeeping *)

Lemma cancel_quantum_spec w ex from :
  world_ok N (Busy c false ex) w → is_Some (time_at w c) → ex = None ∨ ex = Some from →
  wp (cancel_event E (quantum_expired c from))
     (λ _ w', world_ok N (Busy c false None) w' ∧ quiet w w') w.
Proof.
  intros [Hs Hhw Hl] Hts Hex.
  eapply wp_mono; [by apply (cancel_event_spec E Hhw Hcpu (quantum_expired c from)); [intros []|]|].
  simpl. intros _ w' [Hhw' Hrt]. split.
  2:{ eapply retimed_quiet; [done|]. intros c' tok. by rewrite lookup_delete_ne. }
  assert (w_sched w' = w_sched w) as Hsw by apply Hrt.
  split; [by rewrite Hsw|by eapply hw_ok_mode|]. rewrite Hsw.
  eapply (links_retimed _ _ _ _ _ _ _ Hl Hrt).
  - simpl. congruence.
  - intros c' t Hne. simpl. destruct ex; [|done]. naive_solver.
  - intros c' tok Hp. rewrite lookup_delete_ne in Hp by done.
    destruct (lk_wait _ _ _ Hl c c' tok Hp) as (-> & Htc & Hw). do 3 (split; [done|]).
    intros Hj. apply (lk_joiner _ _ _ Hl tok c Hj). unfold wait_deadline. by rewrite Htc.
  - intros c' t [d [Hne Hp]%lookup_delete_Some].
    destruct (lk_quantum _ _ _ Hl c c' t) as [-> Ht]; [by exists d|]. split; [done|].
    destruct Ht as [|Ht]; [by left|]. simpl in Ht. destruct Hex as [->| ->]; [done|].
    destruct Ht as [_ ->]. by destruct Hne.
  - simpl. by intros t [].
  - intros t [d [_ Hp]%lookup_delete_Some]. apply (lk_peer _ _ _ Hl). by exists d.
Qed.

Lemma replace_quantum_spec w ex from :
  world_ok N (Busy c false ex) w → is_Some (time_at w c) → ex = None ∨ ex = Some from →
  wp (replace_quantum_event E from) (λ _ w', world_ok N Stable w' ∧ quiet w w') w.
Proof.
  intros Hok Hts Hex. apply wp_bind. eapply wp_mono; [by apply (cancel_quantum_spec w ex from)|].
  intros _ w1 [Hok1 Hq1]. eapply wp_mono; [apply (ensure_quantum_spec E (N:=N) Hcpu); [done|by apply (as_time _ _ (qt_aside _ _ Hq1))]|].
  intros _ w2 [Hok2 Hq2]. split; [done|by eapply quiet_trans].
Qed.

(** ** The switch of a checkpoint *)

(** What a checkpoint that is taken does to the scheduler. *)
Definition round_robin (frame : TrapFrame) (s s' : Scheduler) : Prop :=
  match cur s c, ready s c with
  | Some from, to :: rest => s' = saved_s from frame (switched c from to rest s)
  | _, _ => s' = s
  end.

Lemma cur_switched from to rest s c' :
  c < length (cpus s) → cur (switched c from to rest s) c' = if decide (c = c') then Some to else cur s c'.
Proof.
  intros Hc. unfold switched, enter_s, leave_ready_s, cur. rewrite cst_alter_cpu by (simpl; by rewrite length_alter).
  destruct (decide (c = c')) as [<-|Hne]; [done|]. rewrite cst_alter_thread, cst_alter_cpu by done.
  by rewrite decide_False.
Qed.

Lemma online_switched from to rest s c' :
  c < length (cpus s) → cs_online (cst (switched c from to rest s) c') = cs_online (cst s c').
Proof.
  intros Hc. unfold switched, enter_s, leave_ready_s. rewrite cst_alter_cpu by (simpl; by rewrite length_alter).
  destruct (decide (c = c')) as [<-|Hne]; rewrite cst_alter_thread, cst_alter_cpu by done.
  - rewrite decide_True by done. simpl. by destruct (decide _).
  - by rewrite decide_False.
Qed.

Lemma switched_keeps from tf to rest s tto :
  live s from tf → t_state tf = Running → live s to tto → t_state tto = Ready → keeps s (switched c from to rest s).
Proof.
  intros Hf Hfr Ht Htr. unfold switched, enter_s, leave_ready_s.
  assert (tid_index to ≠ tid_index from) as Hne.
  { intros Heq. pose proof (live_index_inj _ _ _ _ _ Ht Hf Heq) as ->.
    rewrite (live_fun _ _ _ _ Ht Hf) in Htr. congruence. }
  transitivity (alter_thread (set_t_state Ready) (tid_index from) s).
  { apply keeps_alter_thread; [done|]. intros slot t Hs Hst He.
    destruct (live_slot _ _ _ Hf) as (slot' & Hs' & _ & Ht'). simplify_eq. congruence. }
  transitivity (alter_thread (set_t_state Running) (tid_index to) (alter_thread (set_t_state Ready) (tid_index from) s)).
  2:{ by apply keeps_ext. }
  apply keeps_alter_thread; [done|]. intros slot t Hs Hst He.
  pose proof (live_alter_other (set_t_state Ready) from to s tto Hne Ht) as Ht1.
  destruct (live_slot _ _ _ Ht1) as (slot' & Hs' & _ & Ht'). simplify_eq. congruence.
Qed.

(** Handing the CPU over after any move of its current thread. *)
Lemma handoff_world_spec m w s1 d ex from tf tf1 to tto :
  kernel_at N m w → cs_online (cst (w_sched w) c) = true →
  moved c from to (w_sched w) s1 → from ≠ to →
  live (w_sched w) from tf → t_home_cpu tf = c → live s1 from tf1 → live s1 to tto → t_home_cpu tto = c →
  world_ok N (Busy c d ex) (set_w_sched s1 w) →
  wp (handoff_selected E (Switch from to))
     (λ _ w', world_ok N (Busy c d ex) w' ∧ frames_kept w w' ∧ (∀ c', space_ok (w_sched w') (w_vm w') c') ∧
        w_preempt w' = w_preempt w ∧ w_time w' = w_time w ∧
        ∃ frame, w_active w !! c = Some frame ∧ w_sched w' = saved_s from frame s1) (set_w_sched s1 w).
Proof.
  intros [Hok Hsp] Hon Hmv Hne Hf Hhf Hf1 Ht Hht Hok1.
  destruct (lookup_lt_is_Some_2 (w_active w) c) as [frame Hfr]; [by rewrite (hw_active _ _ (wo_hw _ _ _ Hok))|].
  eapply wp_mono; [by apply (handoff_spec E Hcpu Harch _ _ from _ to _ Hok1 Hf1 Ht Hne)|].
  intros _ w2 (frame' & vm' & Hfr' & -> & Hok2 & Hspc & Hvm). simpl in Hfr'. simplify_eq. split_and!; try done.
  - exact (handed_frames (vm':=vm') Hmv Hne Hon Hf Hhf Ht Hfr).
  - intros c'. by apply (handed_space (w:=w) Hmv Hf Ht Hspc Hvm).
  - by exists frame.
Qed.

Lemma switched_moved from tf to rest s tto :
  c < length (cpus s) → cur s c = Some from → live s from tf → t_state tf = Running →
  live s to tto → t_state tto = Ready →
  moved c from to s (switched c from to rest s).
Proof.
  intros Hlen Hcur Hf Hfr Ht Htr.
  split; [by eapply switched_keeps|done|by rewrite cur_switched, decide_True
         |by intros c' ?; rewrite cur_switched, decide_False|].
  intros c'. by apply online_switched.
Qed.

Lemma handoff_optional_spec d w from t :
  kernel_at N (Busy c d None) w → preemptible (w_sched w) from t →
  wp (handoff_optional E)
     (λ _ w', ∃ ex frame, kernel_at N (Busy c d ex) w' ∧ (ex = None ∨ ex = Some from) ∧ frames_kept w w' ∧
        w_preempt w' = w_preempt w ∧ w_time w' = w_time w ∧ w_active w !! c = Some frame ∧
        round_robin frame (w_sched w) (w_sched w')) w.
Proof.
  intros Hk [Hon Hcur Hl Hp]. pose proof Hk as [Hok Hsp]. pose proof Hok as [Hs Hhw Hlk].
  unfold round_robin. rewrite Hcur.
  apply wp_bind. eapply wp_mono; [by apply (optional_switch_spec E (N:=N) Hcpu d w from t)|].
  intros o w1 [(-> & -> & Hr)|(to & rest & Hr & -> & -> & Hok1)].
  - destruct (lookup_lt_is_Some_2 (w_active w) c) as [frame Hfr]; [by rewrite (hw_active _ _ Hhw)|].
    apply wp_ret. exists None, frame. rewrite Hr. split_and!; try done. by left.
  - destruct (queue_head_queued E Hcpu None to rest Hs Hr) as [Hni (tto & Hlt & Hst & Hht)].
    destruct (current_live Hs c from Hcpu Hcur) as (tf & Hlf & Hhf & Hrun). clear Hl.
    assert (from ≠ to) as Hne by (intros ->; rewrite (live_fun _ _ _ _ Hlf Hlt) in Hrun; congruence).
    assert (tid_index to ≠ tid_index from) as Hidx by (intros Heq; apply Hne; symmetry; by eapply live_index_inj).
    pose proof (switched_moved from tf to rest (w_sched w) tto (here_length Hs Hcpu) Hcur Hlf Hrun Hlt Hst) as Hmv.
    eapply wp_mono.
    { apply (handoff_world_spec (Busy c d None) w _ d (Some from) from tf (set_t_state Ready tf) to (set_t_state Running tto));
        try done.
      - apply (live_alter_other (set_t_state Running) to); [congruence|]. by apply (live_alter_same (set_t_state Ready)).
      - apply (live_alter_same (set_t_state Running)). by apply (live_alter_other (set_t_state Ready) from). }
    intros _ w2 (Hok2 & Hf2 & Hsp2 & Hpe & Hti & frame & Hfr & Hsw2).
    exists (Some from), frame. rewrite Hr. split_and!; try done. by right.
Qed.

Lemma checkpoint_switch_spec w from t :
  kernel_ok N w → preemptible (w_sched w) from t →
  wp (handoff_optional E;; replace_quantum_event E from)
     (λ _ w', kernel_ok N w' ∧ frames_kept w w' ∧ beside w w' ∧
              ∃ frame, w_active w !! c = Some frame ∧ round_robin frame (w_sched w) (w_sched w')) w.
Proof.
  intros Hk Hp. pose proof Hk as [Hok Hsp].
  pose proof (lk_time _ _ _ (wo_links _ _ _ Hok) c (pr_online _ _ _ Hp)) as Hts.
  pose proof (world_ok_busy E w false eq_refl Hok) as Hokb.
  apply wp_bind. eapply wp_mono; [by apply (handoff_optional_spec false w from t)|].
  intros _ w2 (ex & frame & [Hok2 Hsp2] & Hex & Hf2 & Hpe & Hti & Hfr & Hrr).
  eapply wp_mono; [apply (replace_quantum_spec w2 ex from); [exact Hok2|unfold time_at; by rewrite Hti|done]|].
  intros _ w' [Hok' [Hsw Has]]. split_and!.
  - split; [done|]. intros c'. rewrite Hsw, (as_vm _ _ Has). apply Hsp2.
  - etrans; [exact Hf2|]. apply frames_keeps; [by rewrite Hsw|by rewrite Hsw|apply Has].
  - etrans; [by apply (beside_same w w2)|by apply aside_beside].
  - exists frame. by rewrite Hsw.
Qed.

(** ** Finalization at an entry *)

Lemma finalize_kernel_spec w :
  kernel_ok N w → cs_online (cst (w_sched w) c) = true →
  wp (transition_finalize_retired E)
     (λ _ w', kernel_ok N w' ∧ frames_kept w w' ∧ aside w w' ∧ w_sched w' = finalize_s c (w_sched w)) w.
Proof.
  intros [Hok Hsp] Hon. pose proof (wo_sched _ _ _ Hok) as Hs.
  eapply wp_mono; [apply (finalize_spec E (N:=N) Hcpu Harch Stable true w); [|done]|].
  { left. split_and!; [done|done|]. by apply (lk_time _ _ _ (wo_links _ _ _ Hok)). }
  intros _ w' (Hok' & Has & Hsw). destruct (finalize_keeps N c (w_sched w) Hs Hcpu) as [Hk Hc].
  split_and!; [|by apply frames_keeps; rewrite ?Hsw; [..|apply Has]|done|done].
  split; [done|]. intros c'. rewrite Hsw. destruct (Hc c') as (Hc1 & _ & Hc2).
  eapply space_keeps; [exact Hk|done|done| |apply Hsp]. by rewrite (as_vm _ _ Has).
Qed.

(** A preemptible thread stays so. *)
Lemma finalize_preemptible s from t :
  sched_ok N None s → preemptible s from t → preemptible (finalize_s c s) from t.
Proof.
  intros Hs [Hon Hcur Hl Hp]. destruct (finalize_keeps N c s Hs Hcpu) as [_ Hc]. destruct (Hc c) as (Hc1 & _ & Hc2).
  destruct (current_live Hs c from Hcpu Hcur) as (t' & Hl' & _ & Hrun). rewrite (live_fun _ _ _ _ Hl Hl') in *.
  split; [congruence|congruence| |done]. by eapply finalize_running.
Qed.

(** Bookkeeping does not touch what preemption looks at. *)
Lemma kernel_quiet w w' : kernel_ok N w → world_ok N Stable w' → quiet w w' → kernel_ok N w' ∧ frames_kept w w'.
Proof.
  intros [_ Hsp] Hok' [Hsw Has]. split.
  - split; [done|]. intros c'. rewrite Hsw, (as_vm _ _ Has). apply Hsp.
  - by apply frames_keeps; rewrite ?Hsw; [..|apply Has].
Qed.

(** ** Entry points *)

(** The outcome of a checkpoint at preemption depth [d]: nothing, or, with
    preemption enabled, one round-robin step. *)
Definition checkpointed (d : option Z) (s s' : Scheduler) : Prop :=
  s' = s ∨ d = Some 0%Z ∧ ∃ frame, round_robin frame s s'.

Lemma checkpoint_tail_spec w from t :
  kernel_ok N w → preemptible (w_sched w) from t →
  wp (st ← local_state E;
      checkpoint ← consume_checkpoint_on E c (cs_online st);
      if negb checkpoint then mret tt
      else
        current ← current_thread E;
        match current with
        | None => mret tt
        | Some current => handoff_optional E;; replace_quantum_event E current
        end)
     (λ _ w', kernel_ok N w' ∧ frames_kept w w' ∧ beside w w' ∧
              checkpointed (depth_of w c) (w_sched w) (w_sched w')) w.
Proof.
  intros Hk Hp. pose proof Hk as [Hok _]. pose proof (wo_sched _ _ _ Hok) as Hs.
  apply wp_bind. eapply wp_local_state; [by apply (cst_lookup Hs)|].
  wp_step. apply (consume_checkpoint_spec E (N:=N) Hcpu Stable w); [done|]. intros b w1 Hok1 Hq1 Hb1.
  destruct (kernel_quiet w w1 Hk Hok1 Hq1) as [Hk1 Hf1]. destruct Hq1 as [Hsw1 Has1].
  destruct b; simpl.
  - rewrite <-Hsw1 in Hp. pose proof (wo_sched _ _ _ Hok1) as Hs1.
    wp_step. eapply wp_current_thread; [by apply (cst_lookup Hs1)|].
    pose proof (pr_cur _ _ _ Hp) as Hcur. unfold cur in Hcur. rewrite Hcur.
    eapply wp_mono; [by apply (checkpoint_switch_spec w1 from t)|].
    intros _ w2 (Hk2 & Hf2 & Hd2 & frame & _ & Hrr). rewrite Hsw1 in Hrr. split_and!; [done|by etrans| |].
    + etrans; [by apply aside_beside|done].
    + right. split; [by apply Hb1|by exists frame].
  - apply wp_ret. split_and!; [done|done|by apply aside_beside|by left].
Qed.

(** Kernel checkpoint. *)
Theorem preempt_checkpoint_spec w from t :
  kernel_ok N w → preemptible (w_sched w) from t →
  wp (preempt_checkpoint E)
     (λ _ w', kernel_ok N w' ∧ frames_kept w w' ∧ beside w w' ∧
              checkpointed (depth_of w c) (finalize_s c (w_sched w)) (w_sched w')) w.
Proof.
  intros Hk Hp. apply wp_bind.
  eapply wp_mono; [apply (finalize_kernel_spec w Hk (pr_online _ _ _ Hp))|].
  intros _ w1 (Hk1 & Hf1 & Has1 & Hsw1).
  eapply wp_mono; [apply (checkpoint_tail_spec w1 from t Hk1)|].
  { rewrite Hsw1. apply finalize_preemptible; [apply Hk|done]. }
  intros _ w2 (Hk2 & Hf2 & Hd2 & Hcp). split_and!; [done|by etrans| |by rewrite <-Hsw1, <-(as_depth _ _ Has1)].
  etrans; [by apply aside_beside|done].
Qed.

Theorem yield_now_spec w from t :
  kernel_ok N w → preemptible (w_sched w) from t →
  wp (yield_now E)
     (λ _ w', kernel_ok N w' ∧ frames_kept w w' ∧ beside w w' ∧
              checkpointed (depth_of w c) (finalize_s c (w_sched w)) (w_sched w')) w.
Proof.
  intros Hk Hp. apply wp_bind. apply (request_self_spec E (N:=N) Hcpu Stable w); [apply Hk|].
  intros w1 Hok1 Hq1. destruct (kernel_quiet w w1 Hk Hok1 Hq1) as [Hk1 Hf1]. destruct Hq1 as [Hsw1 Has1].
  eapply wp_mono; [apply (preempt_checkpoint_spec w1 from t Hk1); by rewrite Hsw1|].
  intros _ w2 (Hk2 & Hf2 & Hd2 & Hcp). split_and!; [done|by etrans| |by rewrite <-Hsw1, <-(as_depth _ _ Has1)].
  etrans; [by apply aside_beside|done].
Qed.
(** ** Scheduler notifications *)

Lemma drain_keeps s : keeps s (drain_s c s) ∧ (c < length (cpus s) → same_cur s (drain_s c s)).
Proof.
  split; [by apply keeps_ext|]. intros Hc.
  apply (same_cur_alter_cpu s (λ st, set_cs_ready (queue_of st ++ remote s c) st) c Hc). done.
Qed.

Lemma consume_ipi_spec w :
  world_ok N Stable w → ret (w_sched w) c = None →
  wp (consume_scheduler_ipi E)
     (λ _ w', w' = on_sched (drain_s c) w ∧ world_ok N (Busy c false None) w') w.
Proof.
  intros [Hs Hhw Hlk] Hret. pose proof (so_cpu _ _ _ Hs c Hcpu) as Hinv.
  assert (c < length (cpus (w_sched w))) as Hlen by (by apply (here_length Hs)).
  eapply wp_consume_ipi; [by apply (cst_lookup Hs)|by apply (remote_lookup Hs)|by apply (ipi_lookup Hs)| | | | |].
  - apply Hinv.
  - intros tid Hin. assert (tid ∈ ready (w_sched w) c ++ remote (w_sched w) c) as Hq by (apply elem_of_app; by right).
    apply (queued_spec Hs c tid Hcpu) in Hq as (t & ? & ? & ? & ?). split; [done|]. eauto.
  - exact (queue_index_nodup E Hcpu None Hs).
  - rewrite (ready_capacity Hs c Hcpu). by apply (queue_length Hs).
  - split; [done|]. apply (world_ok_set_sched N Stable); [done|done|by apply sched_drain|].
    eapply (links_ext (s:=alter_cpu (λ st, set_cs_ready (queue_of st ++ remote (w_sched w) c) st) c (w_sched w)));
      [|done|done].
    apply (links_cpu c false None None); [by apply links_busy|done|done| |].
    { intros t [Ht|]; [by left|done]. }
    intros t Ht Hp [Hq _]%app_nil. by apply (lk_peer _ _ _ Hlk c t).
Qed.

Theorem finish_scheduler_ipi_spec w from t :
  kernel_ok N w → preemptible (w_sched w) from t →
  wp (finish_scheduler_ipi E)
     (λ _ w', kernel_ok N w' ∧ frames_kept w w' ∧ beside w w' ∧
              checkpointed (depth_of w c) (drain_s c (finalize_s c (w_sched w))) (w_sched w')) w.
Proof.
  intros Hk Hp. pose proof (wo_sched _ _ _ (ko_world _ _ _ Hk)) as Hs0. apply wp_bind.
  eapply wp_mono; [apply (finalize_kernel_spec w Hk (pr_online _ _ _ Hp))|].
  intros _ w1 (Hk1 & Hf1 & Has1 & Hsw1). pose proof Hk1 as [Hok1 Hsp1]. pose proof (wo_sched _ _ _ Hok1) as Hs1.
  assert (preemptible (w_sched w1) from t) as Hp1 by (rewrite Hsw1; by apply finalize_preemptible).
  apply wp_bind. eapply wp_local_state; [by apply (cst_lookup Hs1)|]. rewrite (pr_online _ _ _ Hp1). simpl.
  wp_step. eapply wp_mono; [apply (consume_ipi_spec w1 Hok1); rewrite Hsw1; by eapply finalize_ret|].
  intros _ w2 [-> Hok2]. wp_step.
  destruct (drain_keeps (w_sched w1)) as [Hkd Hcd]. specialize (Hcd (here_length Hs1 Hcpu)).
  eapply wp_mono; [apply (note_peer_spec E Hcpu _ Hok2)|].
  { apply (lk_time _ _ _ (wo_links _ _ _ Hok1) c (pr_online _ _ _ Hp1)). }
  intros _ w3 [Hok3 [Hsw3 Has3]].
  change (w_sched (on_sched (drain_s c) w1)) with (drain_s c (w_sched w1)) in Hsw3.
  assert (kernel_ok N w3) as Hk3.
  { split; [done|]. intros c'. rewrite Hsw3. destruct (Hcd c') as (E1 & _ & E2).
    eapply space_keeps; [exact Hkd|done|done| |apply (Hsp1 c')]. by rewrite (as_vm _ _ Has3). }
  assert (preemptible (w_sched w3) from t) as Hp3.
  { rewrite Hsw3. destruct (Hcd c) as (E1 & _ & E2). destruct Hp1. split; [congruence|congruence|done|done]. }
  eapply wp_mono; [apply (checkpoint_tail_spec w3 from t Hk3 Hp3)|].
  intros _ w4 (Hk4 & Hf4 & Hd4 & Hcp). split_and!; [done| | |].
  - etrans; [exact Hf1|]. etrans; [|exact Hf4].
    apply frames_keeps; [by rewrite Hsw3|by rewrite Hsw3|by rewrite (as_active _ _ Has3)].
  - etrans; [by apply aside_beside|]. etrans; [|exact Hd4].
    etrans; [|by apply aside_beside]. by apply beside_same.
  - rewrite Hsw3, (as_depth _ _ Has3) in Hcp. simpl in Hcp.
    change (depth_of (on_sched (drain_s c) w1) c) with (depth_of w1 c) in Hcp. by rewrite Hsw1, (as_depth _ _ Has1) in Hcp.
Qed.

(** ** Preemption guards *)

Theorem guard_enter_spec w p :
  kernel_ok N w → w_preempt w !! c = Some p → (0 <= disable_depth p < u64_max)%Z →
  wp (preempt_guard_enter E)
     (λ _ w', kernel_ok N w' ∧ frames_kept w w' ∧ w_sched w' = w_sched w ∧
              depth_of w' c = Some (disable_depth p + 1)%Z) w.
Proof.
  intros [Hok Hsp] Hp Hd. eapply (wp_with_state E _ p _ tt (mkPreemptionState (disable_depth p + 1) (reschedule_pending p))).
  - done.
  - unfold preempt_enter, u64_checked_add. rewrite (proj2 (Z.leb_le _ _)) by lia. done.
  - split_and!; [|by apply frames_keeps|done|].
    + split; [|done]. apply world_ok_preempt; [done|]. rewrite length_insert. apply Hok.
    + unfold depth_of. simpl. rewrite list_lookup_insert_eq; [done|]. by apply lookup_lt_Some in Hp.
Qed.

(** Dropping the guard restores the depth and, when it was the outermost one
    and interrupts allow it, serves the request that came in meanwhile. *)
Theorem guard_drop_spec w p from t irq_allows :
  kernel_ok N w → w_preempt w !! c = Some p → (1 <= disable_depth p)%Z → preemptible (w_sched w) from t →
  wp (preempt_guard_drop E irq_allows)
     (λ _ w', kernel_ok N w' ∧ frames_kept w w' ∧ depth_of w' c = Some (disable_depth p - 1)%Z ∧
              (w_sched w' = w_sched w ∨ checkpointed (Some (disable_depth p - 1)%Z) (finalize_s c (w_sched w)) (w_sched w'))) w.
Proof.
  intros Hk Hp Hd Hpre. set (p' := mkPreemptionState (disable_depth p - 1) (reschedule_pending p)).
  set (w1 := set_w_preempt (<[c := p']> (w_preempt w)) w).
  assert (kernel_ok N w1) as Hk1.
  { destruct Hk as [Hok Hsp]. split; [|done]. apply world_ok_preempt; [done|]. rewrite length_insert. apply Hok. }
  assert (depth_of w1 c = Some (disable_depth p - 1)%Z) as Hd1.
  { unfold depth_of. simpl. rewrite list_lookup_insert_eq; [done|]. by apply lookup_lt_Some in Hp. }
  apply wp_bind. eapply (wp_with_state E _ p _ (bool_decide (disable_depth p - 1 = 0)%Z && reschedule_pending p) p').
  - done.
  - unfold preempt_leave, u64_checked_sub. rewrite (proj2 (Z.leb_le _ _)) by lia. done.
  - fold w1. wp_step. wp_step. destruct (_ && _ && irq_allows).
    + eapply wp_mono; [by apply (preempt_checkpoint_spec w1 from t)|].
      intros _ w2 (Hk2 & Hf2 & Hd2 & Hcp). split_and!; [done| |by rewrite (bs_depth _ _ Hd2)|right; by rewrite <-Hd1].
      etrans; [by apply (frames_keeps w w1)|done].
    + apply wp_ret. split_and!; [done|by apply frames_keeps|done|by left].
Qed.
End entry.
