(* ===== verification/BlockSpec.v ===== *)
(** * Blocking entry points

    Prepared waits, their commit, sleeping and exit: the entry points by
    which the running thread gives its CPU up.  From every state that
    satisfies the kernel invariant they return to one; the CPU always finds a
    thread to run, and every thread keeps its register state. *)

From stdpp Require Import gmap.
From S2P Require Import Prelude Types Wait TimeConv Deadline Preempt Context Vm Time Sched World Transition Handoff.
From S2P Require Import CpuInv SchedInv Switch Lifecycle TransitionSpec LifecycleSpec WorldInv TimeSpec.
From S2P Require Import SwitchSpec WakeSpec Frames EntrySpec.

(** A block of two or three steps, continued. *)
Lemma wp_seq3 {S A} (a b d : M S unit) (k : M S A) (Q : A → S → Prop) s :
  wp (a;; b;; d) (λ _ s', wp k Q s') s → wp (a;; b;; d;; k) Q s.
Proof.
  unfold wp, mbind, M_bind. destruct (a s) as [[[] s1]|]; [|done]. destruct (b s1) as [[[] s2]|]; [|done].
  by destruct (d s2) as [[[] s3]|].
Qed.

Lemma wp_seq2 {S A} (a b : M S unit) (k : M S A) (Q : A → S → Prop) s :
  wp (a;; b) (λ _ s', wp k Q s') s → wp (a;; b;; k) Q s.
Proof. unfold wp, mbind, M_bind. destruct (a s) as [[[] s1]|]; [|done]. by destruct (b s1) as [[[] s2]|]. Qed.

(** The three outcomes of a commit. *)
Lemma commit_cases wm prepared :
  commit wm prepared = (CommitStale, wm) ∨
  (∃ a cause, active wm = Some a ∧ aw_token a = pw_token prepared ∧ aw_phase a = Completed cause ∧
     commit wm prepared = (Early cause, set_active wm None)) ∨
  (∃ a, active wm = Some a ∧ aw_token a = pw_token prepared ∧ aw_phase a = Prepared ∧
     commit wm prepared = (Block (aw_token a), set_active wm (Some (set_phase a PhaseBlocked)))).
Proof.
  unfold commit. destruct (active wm) as [a|]; [|by left]. destruct (decide _) as [|Ht]; [by left|].
  apply dec_stable in Ht. destruct (aw_phase a) eqn:Hph; [|by left|].
  - destruct (decide _); [|by left]. right; right. by exists a.
  - right; left. by exists a, cause.
Qed.

(** The blocked scheduler: [from] leaves, [to] enters. *)
Definition blocked_s (c : CpuId) (from : ThreadId) (wm : WaitMetadata) (to : ThreadId) (rest : list ThreadId)
    (s : Scheduler) : Scheduler := enter_s to rest c (leave_blocked_s from wm c s).

Section block.
Context (E : Env) {N : nat}.
Hypothesis Hcpu : e_cpu E < KERNEL_CPU_CAPACITY.
Hypothesis Harch : arch_ok E.
Abbreviation c := (e_cpu E).

(** ** Leaving for a wait *)

Section leave.
Context {s : Scheduler} {from to : ThreadId} {tf tto : Thread} {rest : list ThreadId}.
Hypothesis Hs : sched_ok N None s.
Hypothesis Hcur : cur s c = Some from.
Hypothesis Hf : live s from tf.
Hypothesis Hrun : t_state tf = Running.
Hypothesis Hsel : selects s c to rest.
Hypothesis Ht : live s to tto.
Hypothesis Hready : t_state tto = Ready.

Lemma leave_index : tid_index to ≠ tid_index from.
Proof.
  intros Heq. pose proof (live_index_inj _ _ _ _ _ Ht Hf Heq) as ->.
  rewrite (live_fun _ _ _ _ Ht Hf) in Hready. congruence.
Qed.

(** Any change of the leaving thread's record, and of its CPU, that keeps
    what a switch has to keep. *)
Context {f : Thread → Thread} {g : CpuSchedulerState → CpuSchedulerState}.
Hypothesis Hkf : ∀ t, t_context (f t) = t_context t ∧ t_user (f t) = t_user t ∧ t_home_cpu (f t) = t_home_cpu t ∧
                      t_stack (f t) = t_stack t.
Hypothesis Hg : ∀ st, cs_current (g st) = None ∧ cs_idle (g st) = cs_idle st ∧ queue_of (g st) = queue_of st ∧
                      cs_online (g st) = cs_online st.
Let s1 := alter_cpu g c (alter_thread f (tid_index from) s).

Lemma leave_cst c' : cst s1 c' = if decide (c = c') then g (cst s c) else cst s c'.
Proof. unfold s1. rewrite cst_alter_cpu; [done|]. by apply (here_length Hs). Qed.

Lemma leave_to : live s1 to tto.
Proof. apply (live_alter_other f from to); [apply leave_index|done]. Qed.

Lemma leave_selects : selects s1 c to rest.
Proof.
  unfold selects, ready, idl. rewrite leave_cst, decide_True by done.
  destruct (Hg (cst s c)) as (_ & -> & -> & _). exact Hsel.
Qed.

Lemma leave_cur : cur s1 c = None.
Proof. unfold cur. rewrite leave_cst, decide_True by done. apply Hg. Qed.

Lemma entered_sched : sched_ok N (Some c) s1 → sched_ok N None (enter_s to rest c s1).
Proof. intros Hs1. eapply (sched_enter Hcpu to tto); [done|apply leave_cur|apply leave_selects|apply leave_to]. Qed.

Lemma entered_moved : moved c from to s (enter_s to rest c s1).
Proof.
  assert (c < length (cpus s1)) as Hlen by (unfold s1; simpl; rewrite length_alter; by apply (here_length Hs)).
  assert (∀ c', cst (enter_s to rest c s1) c' =
     if decide (c = c') then set_cs_current (Some to) (set_cs_ready rest (g (cst s c))) else cst s c') as Hcst.
  { intros c'. unfold enter_s. rewrite cst_alter_cpu by done. destruct (decide (c = c')) as [<-|Hne];
      rewrite cst_alter_thread, leave_cst; [by rewrite decide_True|by rewrite decide_False]. }
  split; [|done|..].
  - transitivity s1.
    + transitivity (alter_thread f (tid_index from) s); [|by apply keeps_ext].
      apply keeps_alter_thread; [done|]. intros slot t Hsl Hst He.
      destruct (live_slot _ _ _ Hf) as (slot' & ? & _ & ?). simplify_eq. congruence.
    + transitivity (alter_thread (set_t_state Running) (tid_index to) s1); [|by apply keeps_ext].
      apply keeps_alter_thread; [done|]. intros slot t Hsl Hst He.
      destruct (live_slot _ _ _ leave_to) as (slot' & ? & _ & ?). simplify_eq. congruence.
  - unfold cur. by rewrite Hcst, decide_True.
  - intros c' Hne. unfold cur. by rewrite Hcst, decide_False.
  - intros c'. rewrite Hcst. destruct (decide (c = c')) as [<-|]; [|done]. simpl. apply Hg.
Qed.

Lemma entered_links w d :
  links (Busy c d None) s w → @link_change w from tf (f tf) →
  links (Busy c d (Some from)) (enter_s to rest c s1) w.
Proof.
  intros Hlk Hlc. assert (c < length (cpus s)) as Hlen by (by apply (here_length Hs)).
  eapply (links_enter (s:=s1) ltac:(unfold s1; simpl; by rewrite length_alter) to tto); [|apply leave_to|apply leave_cur|intros Heq; apply leave_index; by rewrite Heq].
  apply (links_cpu c d None (Some from)); [by eapply links_thread|done| | |].
  - rewrite cst_alter_thread. apply Hg.
  - intros t' [Ht'|]; [|done]. right. change (cur s c = Some t') in Ht'. congruence.
  - intros t' Ht'. rewrite (proj1 (Hg _)) in Ht'. done.
Qed.

Lemma entered_live : live (enter_s to rest c s1) from (f tf) ∧ live (enter_s to rest c s1) to (set_t_state Running tto).
Proof.
  split.
  - apply (live_alter_other (set_t_state Running) to); [apply not_eq_sym, leave_index|]. by apply (live_alter_same f).
  - apply (live_alter_same (set_t_state Running)), leave_to.
Qed.
End leave.
(** ** Committing a wait *)

(** The running thread may give its CPU up: it is not idle, its CPU is online
    and preemption is enabled. *)
Record can_block (w : World) (from : ThreadId) (t : Thread) : Prop := {
  cb_online : cs_online (cst (w_sched w) c) = true;
  cb_cur : cur (w_sched w) c = Some from;
  cb_live : live (w_sched w) from t;
  cb_idle : idl (w_sched w) c ≠ Some from;
  cb_enabled : preemption_enabled E w
}.

(** What a commit does, by the state of the wait. *)
Definition committed (prepared : PreparedWait) (from : ThreadId) (t : Thread) (s : Scheduler)
    (r : CommitResult) (s' : Scheduler) : Prop :=
  match commit (t_wait t) prepared with
  | (Block _, wm) => ∃ to rest frame, selects s c to rest ∧ tid_index to ≠ tid_index from ∧ r = CommitBlocked (Switch from to) ∧
                       s' = saved_s from frame (blocked_s c from wm to rest s)
  | (Early cause, wm) => r = CommitEarly cause ∧ s' = alter_thread (set_t_wait wm) (tid_index from) s
  | (CommitStale, _) => r = CommitStaleResult ∧ s' = s
  end.

(** Closing a completed wait of the running thread. *)
Lemma close_completed m w from t a cause :
  world_ok N m w → live (w_sched w) from t → t_state t = Running →
  active (t_wait t) = Some a → aw_phase a = Completed cause →
  world_ok N m (on_sched (alter_thread (set_t_wait (set_active (t_wait t) None)) (tid_index from)) w).
Proof.
  intros [Hs Hhw Hlk] Hl Hrun Ha Hph. apply (world_ok_set_sched N m); [done|done| |].
  - eapply sched_ok_record; [done|done|done| |done|].
    + destruct (so_threads _ _ _ Hs _ _ Hl) as [? [] ? ? ?]. split; try done. split; simpl; try done. by rewrite Hrun.
    + right. eapply running_not_joiner; [done|done|congruence].
  - eapply links_thread; [done|done|]. split; [done|by left|done|].
    intros a' Ha' Hc. unfold wait_is_completed in Hc. rewrite Ha in Hc. destruct a. simpl in *. by rewrite Hph in Hc.
Qed.

(** A commit runs on a stable machine, or with its quantum already cancelled. *)
Definition settling (m : Mode) : Prop := m = Stable ∨ m = Busy c false None.

Lemma settling_links m s w : settling m → links m s w → links (Busy c false None) s w.
Proof. intros [-> | ->]; [apply links_busy|done]. Qed.

(** The blocking case, up to the machine before the handoff. *)
Lemma block_world m w from t a to rest tto :
  settling m → world_ok N m w → cur (w_sched w) c = Some from → live (w_sched w) from t → t_state t = Running →
  idl (w_sched w) c ≠ Some from → active (t_wait t) = Some a → aw_phase a = Prepared →
  selects (w_sched w) c to rest → live (w_sched w) to tto → t_state tto = Ready →
  let s1 := blocked_s c from (set_active (t_wait t) (Some (set_phase a PhaseBlocked))) to rest (w_sched w) in
  world_ok N (Busy c false (Some from)) (set_w_sched s1 w) ∧ moved c from to (w_sched w) s1 ∧
  live s1 from (set_t_state Blocked (set_t_wait (set_active (t_wait t) (Some (set_phase a PhaseBlocked))) t)) ∧
  live s1 to (set_t_state Running tto).
Proof.
  intros Hm [Hs Hhw Hlk] Hcur Hl Hrun Hi Ha Hph Hsel Ht Hrdy s1.
  set (wm := set_active (t_wait t) (Some (set_phase a PhaseBlocked))) in *.
  set (f := λ t, set_t_state Blocked (set_t_wait wm t)).
  pose proof (entered_live Hl Hrun Hsel Ht Hrdy (f:=f) (g:=set_cs_current None)) as [Lf Lt].
  split_and!; [| |done|done].
  - apply (world_ok_set_sched N m); [done|by destruct Hm as [->| ->]| |].
    + apply (entered_sched Hs Hl Hrun Hsel Ht Hrdy (f:=f) (g:=set_cs_current None)); [done|].
      by apply (sched_leave_blocked Hcpu from t wm a).
    + apply (entered_links Hs Hcur Hl Hrun Hsel Ht Hrdy (f:=f) (g:=set_cs_current None)); [done|by apply (settling_links m)|].
      split; [done|by left|done|]. intros a' Ha' Hnc _ _. exists (set_phase a PhaseBlocked). rewrite Ha in Ha'. by injection Ha' as <-.
  - apply (entered_moved Hs Hcur Hl Hrun Hsel Ht Hrdy (f:=f) (g:=set_cs_current None)); done.
Qed.

(** From the selection on: the frames change hands, then [fin] settles the
    quantum. *)
Lemma block_tail_spec {A} m w s1 from t tf1 to tto (fin : ThreadId → W unit) (r : A) :
  kernel_at N m w → cs_online (cst (w_sched w) c) = true → moved c from to (w_sched w) s1 → from ≠ to →
  live (w_sched w) from t → t_home_cpu t = c → live s1 from tf1 → live s1 to tto → t_home_cpu tto = c →
  world_ok N (Busy c false (Some from)) (set_w_sched s1 w) →
  (∀ w2, world_ok N (Busy c false (Some from)) w2 → w_time w2 = w_time w →
         cs_online (cst (w_sched w2) c) = true →
         wp (fin from) (λ _ w', world_ok N Stable w' ∧ quiet w2 w') w2) →
  wp (save_current_into E from;; restore_from E to;; activate_thread_address_space E to;; fin from;; mret r)
     (λ r' w', kernel_ok N w' ∧ frames_kept w w' ∧ beside w w' ∧ r' = r ∧
               ∃ frame, w_sched w' = saved_s from frame s1) (set_w_sched s1 w).
Proof.
  intros Hk Hon Hmv Hne Hl Hh Lf Lt Hht Hok1 Hfin. apply wp_seq3. eapply wp_mono.
  { by apply (handoff_world_spec E (N:=N) Hcpu Harch m w _ false (Some from) from t tf1 to tto). }
  intros _ w2 (Hok2 & Hf2 & Hsp2 & Hpe & Hti & frame & Hfr & Hsw2). apply wp_bind.
  eapply wp_mono; [apply Hfin; [done|done|]|].
  { rewrite Hsw2. etrans; [|exact Hon]. apply (mv_online _ _ _ _ _ Hmv). }
  intros _ w' [Hok' [Hsw Has]]. apply wp_ret. split_and!; [| | |done|].
  - split; [done|]. intros c'. rewrite Hsw, (as_vm _ _ Has). apply Hsp2.
  - etrans; [exact Hf2|]. apply frames_keeps; [by rewrite Hsw|by rewrite Hsw|apply Has].
  - etrans; [by apply (beside_same w w2)|by apply aside_beside].
  - exists frame. by rewrite Hsw.
Qed.

Lemma commit_block_spec m w prepared from t a (fin : ThreadId → W unit) :
  settling m → kernel_at N m w → can_block w from t →
  (∀ w2, world_ok N (Busy c false (Some from)) w2 → w_time w2 = w_time w →
         cs_online (cst (w_sched w2) c) = true →
         wp (fin from) (λ _ w', world_ok N Stable w' ∧ quiet w2 w') w2) →
  active (t_wait t) = Some a → aw_phase a = Prepared →
  commit (t_wait t) prepared = (Block (aw_token a), set_active (t_wait t) (Some (set_phase a PhaseBlocked))) →
  wp (commit_wait_with E prepared fin)
     (λ r w', kernel_ok N w' ∧ frames_kept w w' ∧ beside w w' ∧
              ∃ to rest frame, selects (w_sched w) c to rest ∧ tid_index to ≠ tid_index from ∧
                r = CommitBlocked (Switch from to) ∧
                w_sched w' = saved_s from frame (blocked_s c from
                   (set_active (t_wait t) (Some (set_phase a PhaseBlocked))) to rest (w_sched w))) w.
Proof.
  intros Hm Hk [Hon Hcur Hl Hi Hen] Hfin Ha Hph Hc. pose proof Hk as [Hok Hsp]. pose proof Hok as [Hs Hhw Hlk].
  destruct (current_runs E Hcpu from Hs Hcur) as (t0 & Hruns). pose proof Hruns as [Hst Hc0 Hl0 Hrun Hh].
  rewrite (live_fun _ _ _ _ Hl0 Hl) in *.
  destruct (home_idle Hs _ _ Hl) as [i Hidl]. rewrite Hh in Hidl. assert (from ≠ i) as Hfi by congruence.
  destruct (next_exists E Hcpu from Hs Hcur Hi) as (to & rest & Hnx & Hsel & Hne).
  pose proof Hnx as [_ (tto & Ht & Hrdy & Hht)].
  destruct (block_world m w from t a to rest tto Hm Hok Hcur Hl Hrun Hi Ha Hph Hsel Ht Hrdy) as (Hok1 & Hmv & Lf & Lt).
  apply wp_bind. eapply (wp_commit_block E w _ from t i prepared); [done|done|done|done|exact Hc|done|by eapply sched_ok_valid, Hok1|].
  eapply wp_mono; [by eapply (block_tail_spec m w _ from t _ to (set_t_state Running tto) fin _ Hk Hon Hmv)|].
  intros r w' (Hk' & Hf' & Hb' & -> & frame & Hsw). split_and!; [done..|].
  exists to, rest, frame. split_and!; [done|by apply (leave_index Hl Hrun Hsel Ht Hrdy)|done|done].
Qed.

Lemma commit_with_spec m w prepared from t (fin : ThreadId → W unit) :
  settling m → kernel_at N m w → can_block w from t →
  (∀ w2, world_ok N (Busy c false (Some from)) w2 → w_time w2 = w_time w →
         cs_online (cst (w_sched w2) c) = true →
         wp (fin from) (λ _ w', world_ok N Stable w' ∧ quiet w2 w') w2) →
  wp (commit_wait_with E prepared fin)
     (λ r w', kernel_at N (match r with CommitBlocked _ => Stable | _ => m end) w' ∧
              frames_kept w w' ∧ beside w w' ∧
              committed prepared from t (w_sched w) r (w_sched w')) w.
Proof.
  intros Hm Hk [Hon Hcur Hl Hi Hen] Hfin. pose proof Hk as [Hok Hsp]. pose proof Hok as [Hs Hhw Hlk].
  destruct (current_runs E Hcpu from Hs Hcur) as (t0 & Hruns). pose proof Hruns as [Hst Hc0 Hl0 Hrun Hh].
  rewrite (live_fun _ _ _ _ Hl0 Hl) in *.
  destruct (home_idle Hs _ _ Hl) as [i Hidl]. rewrite Hh in Hidl. assert (from ≠ i) as Hfi by congruence.
  unfold committed.
  destruct (commit_cases (t_wait t) prepared) as [Hc|[(a & cause & Ha & Htok & Hph & Hc)|(a & Ha & Htok & Hph & Hc)]];
    rewrite Hc.
  - apply wp_bind. eapply (wp_commit_stay E w _ from t i); [done|done|done|done|exact Hc|done| |].
    { rewrite (alter_thread_id _ _ _ _ Hl (set_t_wait_id t)). by eapply sched_ok_valid. }
    rewrite (alter_thread_id _ _ _ _ Hl (set_t_wait_id t)). rewrite set_w_sched_id. by apply wp_ret.
  - pose proof (close_completed m w from t a cause Hok Hl Hrun Ha Hph) as Hok1.
    apply wp_bind. eapply (wp_commit_stay E w _ from t i); [done|done|done|done|exact Hc|done|by eapply sched_ok_valid, Hok1|].
    apply wp_ret. assert (keeps (w_sched w) (alter_thread (set_t_wait (set_active (t_wait t) None)) (tid_index from) (w_sched w))) as Hkp
      by (by apply keeps_alter_thread).
    split_and!; [|by apply frames_keeps|done|done|done]. split; [done|]. intros c'. by eapply space_keeps.
  - eapply wp_mono; [by apply (commit_block_spec m w prepared from t a fin)|].
    intros r w' (? & ? & ? & to & rest & frame & ? & ? & -> & ?). split_and!; try done. by exists to, rest, frame.
Qed.
(** ** After the switch *)

Lemma finish_after_cancel_spec w :
  world_ok N (Busy c false None) w → is_Some (time_at w c) →
  wp (finish_block_after_quantum_cancel E) (λ _ w', world_ok N Stable w' ∧ quiet w w') w.
Proof.
  intros Hok Hts. apply wp_bind. eapply wp_local_state; [by apply (cst_lookup (wo_sched _ _ _ Hok))|].
  wp_step. apply (consume_checkpoint_spec E (N:=N) Hcpu (Busy c false None)); [done|]. intros b w1 Hok1 Hq1 _.
  eapply wp_mono; [apply (ensure_quantum_spec E (N:=N) Hcpu); [done|by apply (as_time _ _ (qt_aside _ _ Hq1))]|].
  intros _ w2 [Hok2 Hq2]. split; [done|by eapply quiet_trans].
Qed.

Lemma finish_block_spec w from :
  world_ok N (Busy c false (Some from)) w → is_Some (time_at w c) →
  wp (finish_block_current E from) (λ _ w', world_ok N Stable w' ∧ quiet w w') w.
Proof.
  intros Hok Hts. apply wp_bind. eapply wp_mono; [by apply (cancel_quantum_spec E (N:=N) Hcpu w (Some from) from); auto|].
  intros _ w1 [Hok1 Hq1].
  eapply wp_mono; [apply finish_after_cancel_spec; [done|by apply (as_time _ _ (qt_aside _ _ Hq1))]|].
  intros _ w2 [Hok2 Hq2]. split; [done|by eapply quiet_trans].
Qed.

(** The thread that left has no quantum pending any more. *)
Lemma forget_left w from :
  world_ok N (Busy c false (Some from)) w → ¬ pending w c (quantum_expired c from) →
  world_ok N (Busy c false None) w.
Proof.
  intros [Hs Hhw [H1 H2 H3 H4 H5 H6 HP]] Hnp. split; [done|by eapply hw_ok_mode|]. split; try done.
  intros c1 c2 t Hp. destruct (H2 c1 c2 t Hp) as [-> Ht]. split; [done|]. destruct Ht as [|[<- <-]]; [by left|done].
Qed.

Theorem commit_prepared_wait_spec w prepared from t :
  kernel_ok N w → can_block w from t →
  wp (commit_prepared_wait E prepared)
     (λ r w', kernel_ok N w' ∧ frames_kept w w' ∧ beside w w' ∧
              committed prepared from t (w_sched w) r (w_sched w')) w.
Proof.
  intros Hk Hcb. pose proof (lk_time _ _ _ (wo_links _ _ _ (ko_world _ _ _ Hk)) c (cb_online _ _ _ Hcb)) as Hts.
  eapply wp_mono; [apply (commit_with_spec Stable w prepared from t); [by left|done|done|]|].
  - intros w2 Hok2 Hti Hon2. apply finish_block_spec; [done|]. unfold time_at in *. by rewrite Hti.
  - intros r w' (Hk' & Hf & Hd & Hc). split_and!; [by destruct r|done|done|done].
Qed.

(** ** Preparing a wait *)

Definition wait_token (from : ThreadId) (t : Thread) : WaitToken :=
  mkWaitToken from c (next_sequence (t_wait t) + 1).
Definition prepared_wait (k : WaitConsumption) (from : ThreadId) (t : Thread) : WaitMetadata :=
  mkWaitMetadata (next_sequence (t_wait t) + 1) (Some (mkActiveWait (wait_token from t) Prepared k)).
Definition prepared_s (k : WaitConsumption) (from : ThreadId) (t : Thread) : Scheduler → Scheduler :=
  alter_thread (set_t_wait (prepared_wait k from t)) (tid_index from).

Lemma prepare_done k from t :
  active (t_wait t) = None → (next_sequence (t_wait t) < u64_max)%Z →
  prepare_with_consumption (t_wait t) from c k
  = Done (mkPreparedWait (wait_token from t) k, prepared_wait k from t).
Proof.
  intros Ha Hq. unfold prepare_with_consumption, u64_checked_add. rewrite Ha, (proj2 (Z.leb_le _ _)) by lia. done.
Qed.

Lemma prepare_world m w k from t :
  kernel_at N m w → live (w_sched w) from t → t_state t = Running → t_home_cpu t = c →
  active (t_wait t) = None → (next_sequence (t_wait t) < u64_max)%Z →
  kernel_at N m (on_sched (prepared_s k from t) w) ∧ frames_kept w (on_sched (prepared_s k from t) w).
Proof.
  intros [[Hs Hhw Hlk] Hsp] Hl Hrun Hh Ha Hq.
  assert (keeps (w_sched w) (prepared_s k from t (w_sched w))) as Hkp by (by apply keeps_alter_thread).
  split; [|by apply frames_keeps]. split; [|intros c'; by eapply space_keeps].
  apply (world_ok_set_sched N m); [done|done| |].
  - eapply sched_ok_record; [done|done|done| |done|].
    + destruct (so_threads _ _ _ Hs _ _ Hl) as [? [] ? ? ?]. split; try done. split; simpl; try done; try lia.
      * by rewrite Hrun.
      * intros a [= <-]. simpl. unfold wait_token. by rewrite Hh.
    + right. eapply running_not_joiner; [done|done|congruence].
  - eapply links_thread; [done|done|]. split; [done|by left|done|]. intros a Ha'. congruence.
Qed.

Theorem prepare_wait_spec m w from t :
  kernel_at N m w → cur (w_sched w) c = Some from → live (w_sched w) from t → preemption_enabled E w →
  active (t_wait t) = None → (next_sequence (t_wait t) < u64_max)%Z →
  wp (transition_prepare_wait E)
     (λ p w', p = mkPreparedWait (wait_token from t) Explicit ∧ w' = on_sched (prepared_s Explicit from t) w ∧
              kernel_at N m w' ∧ frames_kept w w') w.
Proof.
  intros Hk Hcur Hl Hen Ha Hq. pose proof (wo_sched _ _ _ (ko_world _ _ _ Hk)) as Hs.
  destruct (current_runs E Hcpu from Hs Hcur) as (t0 & Hr). pose proof Hr as [_ _ Hl0 Hrun Hh].
  rewrite (live_fun _ _ _ _ Hl0 Hl) in *. destruct (prepare_world m w Explicit from t) as [Hk' Hf]; try done.
  eapply wp_prepare_wait; [done|done|by apply prepare_done|by eapply sched_ok_valid, Hk'|]. done.
Qed.

Theorem prepare_automatic_spec m w from t :
  kernel_at N m w → cur (w_sched w) c = Some from → live (w_sched w) from t → preemption_enabled E w →
  active (t_wait t) = None → (next_sequence (t_wait t) < u64_max)%Z →
  wp (transition_prepare_automatic_wait E)
     (λ p w', p = mkPreparedWait (wait_token from t) Automatic ∧ w' = on_sched (prepared_s Automatic from t) w ∧
              kernel_at N m w' ∧ frames_kept w w') w.
Proof.
  intros Hk Hcur Hl Hen Ha Hq. pose proof (wo_sched _ _ _ (ko_world _ _ _ Hk)) as Hs.
  destruct (current_runs E Hcpu from Hs Hcur) as (t0 & Hr). pose proof Hr as [_ _ Hl0 Hrun Hh].
  rewrite (live_fun _ _ _ _ Hl0 Hl) in *. destruct (prepare_world m w Automatic from t) as [Hk' Hf]; try done.
  eapply wp_prepare_automatic_wait; [done|done|by apply prepare_done|by eapply sched_ok_valid, Hk'|]. done.
Qed.
(** ** Sleeping *)

Lemma schedule_wait_spec w tok d :
  world_ok N Stable w → cs_online (cst (w_sched w) c) = true →
  wt_cpu tok = c → token_waiting (w_sched w) c tok → ¬ joined (w_sched w) tok →
  wp (schedule_event E d (wait_deadline tok))
     (λ _ w', world_ok N Stable w' ∧ retimed c (<[wait_deadline tok := d]> (events w c)) w w') w.
Proof.
  intros [Hs Hhw Hlk] Hon Hc Hw Hnj.
  eapply wp_mono.
  { apply (schedule_event_spec E Hhw Hcpu); [done|by intros []|by apply (lk_time _ _ _ Hlk)|].
    by apply (events_bound (m:=Stable) Hs). }
  intros _ w' [Hhw' Hrt]. split; [|done]. assert (w_sched w' = w_sched w) as Hsw by apply Hrt.
  split; [by rewrite Hsw|done|]. rewrite Hsw. eapply (links_retimed _ _ _ _ _ _ _ Hlk Hrt); try done.
  - intros c' tok' [d' [[Heq _]|[_ Hp]]%lookup_insert_Some].
    + unfold wait_deadline in Heq. simplify_eq. done.
    + destruct (lk_wait _ _ _ Hlk c c' tok') as (-> & Htc & Hw'); [by exists d'|]. do 3 (split; [done|]).
      intros Hj. apply (lk_joiner _ _ _ Hlk tok' c Hj). unfold wait_deadline. rewrite Htc. by exists d'.
  - intros c' x [d' [[Heq _]|[_ Hp]]%lookup_insert_Some]; [done|]. apply (lk_quantum _ _ _ Hlk c c' x). by exists d'.
  - intros x _ Ho Hx Hr. rewrite lookup_insert_ne by done. by apply (lk_armed _ _ _ Hlk c x); [intros []|..].
  - intros x Hp. rewrite lookup_insert_ne in Hp by done. by apply (lk_peer _ _ _ Hlk).
Qed.

(** A thread that blocked is in the table with its wait. *)
Lemma blocked_from s from t wm to rest frame :
  live s from t → tid_index to ≠ tid_index from →
  live (saved_s from frame (blocked_s c from wm to rest s)) from
       (set_t_context (save_from frame) (set_t_state Blocked (set_t_wait wm t))).
Proof.
  intros Hl Hne. apply (live_alter_same (set_t_context (save_from frame))).
  apply (live_alter_other (set_t_state Running) to); [congruence|].
  by apply (live_alter_same (λ t, set_t_state Blocked (set_t_wait wm t))).
Qed.

(** A prepared wait of the running thread. *)
Lemma prepared_waiting k s from t :
  live s from t → t_home_cpu t = c → token_waiting (prepared_s k from t s) c (wait_token from t).
Proof.
  intros Hl Hh. exists (set_t_wait (prepared_wait k from t) t), (mkActiveWait (wait_token from t) Prepared k).
  split_and!; try done. by apply (live_alter_same (set_t_wait (prepared_wait k from t))).
Qed.

Lemma can_block_prepared k w from t w' :
  can_block w from t → w_sched w' = prepared_s k from t (w_sched w) → (∀ c', depth_of w' c' = depth_of w c') →
  can_block w' from (set_t_wait (prepared_wait k from t) t).
Proof.
  intros [H1 H2 H3 H4 (p & Hp & Hd)] Hsw Hdep. split; rewrite ?Hsw; try done.
  - by apply (live_alter_same (set_t_wait (prepared_wait k from t))).
  - specialize (Hdep c). unfold depth_of in Hdep. rewrite Hp in Hdep. simpl in Hdep.
    destruct (w_preempt w' !! c) as [p'|] eqn:Hp'; [|done]. exists p'. split; [done|]. simpl in Hdep.
    injection Hdep as Hdd. unfold preempt_is_disabled in *. by rewrite Hdd.
Qed.

(** The commit of a wait that was prepared just before blocks. *)
Lemma commit_fresh k from t :
  commit (prepared_wait k from t) (mkPreparedWait (wait_token from t) k)
  = (Block (wait_token from t),
     mkWaitMetadata (next_sequence (t_wait t) + 1) (Some (mkActiveWait (wait_token from t) PhaseBlocked k))).
Proof. unfold commit. simpl. rewrite decide_False by (intros Hn; by apply Hn). by rewrite decide_True. Qed.

Lemma committed_prepared k s from t r s' :
  committed (mkPreparedWait (wait_token from t) k) from (set_t_wait (prepared_wait k from t) t) s r s' →
  ∃ to rest frame, selects s c to rest ∧ tid_index to ≠ tid_index from ∧ r = CommitBlocked (Switch from to) ∧
    s' = saved_s from frame (blocked_s c from
           (mkWaitMetadata (next_sequence (t_wait t) + 1)
              (Some (mkActiveWait (wait_token from t) PhaseBlocked k))) to rest s).
Proof.
  unfold committed. simpl t_wait. by rewrite commit_fresh.
Qed.

(** Publishing the optional deadline of a prepared wait. *)
Definition publish_deadline (tok : WaitToken) (dl : option Z) : W unit :=
  match dl with Some d => schedule_event E d (wait_deadline tok) | None => mret tt end.

Lemma publish_deadline_spec w from t dl :
  kernel_ok N w → can_block w from t → t_home_cpu t = c → t_state t = Running →
  let w1 := on_sched (prepared_s Explicit from t) w in
  kernel_ok N w1 →
  wp (publish_deadline (wait_token from t) dl)
     (λ _ w', kernel_ok N w' ∧ frames_kept w1 w' ∧ w_sched w' = w_sched w1 ∧ (∀ c', depth_of w' c' = depth_of w c') ∧
        ∀ d, dl = Some d → events w' c !! wait_deadline (wait_token from t) = Some d) w1.
Proof.
  intros Hk Hcb Hh Hrun w1 Hk1. pose proof Hcb as [Hon Hcur Hl Hi Hen]. pose proof Hk1 as [Hok1 Hsp1].
  destruct dl as [d|]; [|by apply wp_ret; split_and!].
  assert (live (w_sched w1) from (set_t_wait (prepared_wait Explicit from t) t)) as Hl1
    by (by apply (live_alter_same (set_t_wait (prepared_wait Explicit from t)))).
  eapply wp_mono; [apply (schedule_wait_spec _ (wait_token from t) d Hok1 Hon eq_refl)|].
  { by apply prepared_waiting. }
  { intros Hj. eapply (running_not_joiner (s:=w_sched w1)); [apply Hok1|exact Hl1| |exact Hj|done]. simpl. congruence. }
  intros _ w2 [Hok2 Hrt]. assert (w_sched w2 = w_sched w1) as Hsw2 by apply Hrt. split_and!; [|..|done| |].
  - split; [done|]. intros c'. rewrite Hsw2, (rt_vm _ _ _ _ Hrt). apply Hsp1.
  - apply frames_keeps; [by rewrite Hsw2|by rewrite Hsw2|apply Hrt].
  - intros c'. unfold depth_of. by rewrite (rt_preempt _ _ _ _ Hrt).
  - intros d' [= <-]. by rewrite (rt_events _ _ _ _ Hrt), decide_True, lookup_insert_eq.
Qed.

(** A freshly prepared wait, its deadline published, blocks the thread. *)
Lemma publish_commit_spec w from t dl :
  kernel_ok N w → can_block w from t → active (t_wait t) = None → (next_sequence (t_wait t) < u64_max)%Z →
  let w1 := on_sched (prepared_s Explicit from t) w in
  kernel_ok N w1 → frames_kept w w1 →
  wp (publish_deadline (wait_token from t) dl;;
      commit_prepared_wait E (mkPreparedWait (wait_token from t) Explicit))
     (λ r w', kernel_ok N w' ∧ frames_kept w w' ∧ (∀ c', depth_of w' c' = depth_of w c') ∧
        (∃ to, r = CommitBlocked (Switch from to)) ∧
        (∀ d, dl = Some d → events w' c !! wait_deadline (wait_token from t) = Some d) ∧
        ∃ t', live (w_sched w') from t' ∧ t_state t' = Blocked ∧
              active (t_wait t') = Some (mkActiveWait (wait_token from t) PhaseBlocked Explicit)) w1.
Proof.
  intros Hk Hcb Ha Hq w1 Hk1 Hf1. pose proof Hcb as [Hon Hcur Hl Hi Hen]. pose proof (wo_sched _ _ _ (ko_world _ _ _ Hk)) as Hs.
  destruct (current_live Hs c from Hcpu Hcur) as (t0 & Hl0 & Hh & Hrun). rewrite (live_fun _ _ _ _ Hl0 Hl) in *.
  wp_step. eapply wp_mono; [by apply (publish_deadline_spec w from t dl)|].
  intros _ w2 (Hk2 & Hf2 & Hsw2 & Hd2 & He2). pose proof (can_block_prepared Explicit w from t w2 Hcb Hsw2 Hd2) as Hcb2.
  eapply wp_mono; [by apply (commit_prepared_wait_spec w2 _ from _ Hk2 Hcb2)|].
  intros r w3 (Hk3 & Hf3 & Hb3 & Hc3). apply committed_prepared in Hc3 as (to & rest & frame & Hsel & Hidx & -> & Hsw3).
  split_and!; [done| | |by exists to| |].
  - etrans; [exact Hf1|]. by etrans.
  - intros c'. by rewrite (bs_depth _ _ Hb3).
  - intros d Hd. unfold wait_deadline. rewrite (bs_waits _ _ Hb3). by apply He2.
  - rewrite Hsw3. eexists. split; [apply blocked_from; [by rewrite Hsw2; apply (live_alter_same (set_t_wait (prepared_wait Explicit from t)))|done]|done].
Qed.

Theorem on_sleep_sync_spec w from t d :
  kernel_ok N w → can_block w from t → active (t_wait t) = None → (next_sequence (t_wait t) < u64_max)%Z →
  wp (on_sleep_sync E d)
     (λ out w', kernel_ok N w' ∧ frames_kept w w' ∧ (∀ c', depth_of w' c' = depth_of w c') ∧
        out = mkSchedCallWaitOutput (Some (wait_token from t)) None ∧
        events w' c !! wait_deadline (wait_token from t) = Some d ∧
        ∃ t', live (w_sched w') from t' ∧ t_state t' = Blocked ∧
              active (t_wait t') = Some (mkActiveWait (wait_token from t) PhaseBlocked Explicit)) w.
Proof.
  intros Hk Hcb Ha Hq. apply wp_bind. eapply wp_mono; [apply (prepare_wait_spec Stable w from t); try done; apply Hcb|].
  intros p w1 (-> & -> & Hk1 & Hf1). cbv zeta. simpl pw_token. wp_step.
  pose proof (publish_commit_spec w from t (Some d) Hk Hcb Ha Hq Hk1 Hf1) as Hpc. apply wp_bind_inv in Hpc.
  eapply wp_mono; [exact Hpc|]. intros u w2 Hc. wp_step. eapply wp_mono; [exact Hc|].
  intros r w3 (Hk3 & Hf3 & Hd3 & (to & ->) & He3 & Hb3). apply wp_ret. split_and!; auto.
Qed.

(** The user sleep cancels the quantum and publishes the deadline at once. *)
Lemma publish_sleep_world w tok d :
  kernel_ok N w → cs_online (cst (w_sched w) c) = true →
  wt_cpu tok = c → token_waiting (w_sched w) c tok → ¬ joined (w_sched w) tok →
  wp (publish_sleep E d tok)
     (λ _ w', kernel_at N (Busy c false None) w' ∧ ¬ pending w' c (quantum_expired c (wt_thread tok)) ∧
        events w' c !! wait_deadline tok = Some d ∧ w_sched w' = w_sched w ∧ w_preempt w' = w_preempt w ∧
        w_active w' = w_active w) w.
Proof.
  intros [[Hs Hhw Hlk] Hsp] Hon Hc Hw Hnj. eapply wp_mono.
  { apply (publish_sleep_spec E Hhw Hcpu); [done|by intros []|by apply (lk_time _ _ _ Hlk)|].
    by apply (events_bound (m:=Stable) Hs). }
  intros _ w' [Hhw' Hrt]. assert (w_sched w' = w_sched w) as Hsw by apply Hrt.
  pose proof (rt_events _ _ _ _ Hrt c) as Hev. rewrite decide_True in Hev by done.
  split_and!; [| | |done|apply Hrt|apply Hrt].
  - split; [|intros c'; rewrite Hsw, (rt_vm _ _ _ _ Hrt); apply Hsp].
    split; [by rewrite Hsw|by eapply hw_ok_mode|]. rewrite Hsw.
    eapply (links_retimed _ _ _ _ _ _ _ Hlk Hrt); try done.
    + intros c' tok' [d' [[Heq _]|[_ [_ Hp]%lookup_delete_Some]]%lookup_insert_Some].
      * unfold wait_deadline in Heq. simplify_eq. done.
      * destruct (lk_wait _ _ _ Hlk c c' tok') as (-> & Htc & Hw'); [by exists d'|]. do 3 (split; [done|]).
        intros Hj. apply (lk_joiner _ _ _ Hlk tok' c Hj). unfold wait_deadline. rewrite Htc. by exists d'.
    + intros c' x [d' [[Heq _]|[_ [_ Hp]%lookup_delete_Some]]%lookup_insert_Some]; [done|].
      destruct (lk_quantum _ _ _ Hlk c c' x) as [-> [|[]]]; [by exists d'|]. by split; [|left].
    + intros x [d' [[Heq _]|[_ [_ Hp]%lookup_delete_Some]]%lookup_insert_Some]; [done|].
      apply (lk_peer _ _ _ Hlk). by exists d'.
  - unfold pending. rewrite Hev, lookup_insert_ne, lookup_delete_eq by done. by intros [? ?].
  - by rewrite Hev, lookup_insert_eq.
Qed.

Theorem sleep_user_spec w from t d :
  kernel_ok N w → can_block w from t → active (t_wait t) = None → (next_sequence (t_wait t) < u64_max)%Z →
  wp (sleep_user_until_counter E d)
     (λ r w', kernel_ok N w' ∧ frames_kept w w' ∧ (∀ c', depth_of w' c' = depth_of w c') ∧ r = true ∧
        events w' c !! wait_deadline (wait_token from t) = Some d ∧
        ∃ t', live (w_sched w') from t' ∧ t_state t' = Blocked ∧
              active (t_wait t') = Some (mkActiveWait (wait_token from t) PhaseBlocked Automatic)) w.
Proof.
  intros Hk Hcb Ha Hq. pose proof Hcb as [Hon Hcur Hl Hi Hen]. pose proof (wo_sched _ _ _ (ko_world _ _ _ Hk)) as Hs.
  destruct (current_live Hs c from Hcpu Hcur) as (t0 & Hl0 & Hh & Hrun). rewrite (live_fun _ _ _ _ Hl0 Hl) in *.
  apply wp_bind. eapply wp_mono; [by apply (prepare_automatic_spec Stable w from t)|].
  intros p w1 (-> & -> & Hk1 & Hf1). cbv zeta. simpl pw_token. set (tok := wait_token from t).
  assert (live (prepared_s Automatic from t (w_sched w)) from (set_t_wait (prepared_wait Automatic from t) t)) as Hl1
    by (by apply (live_alter_same (set_t_wait (prepared_wait Automatic from t)))).
  wp_step. eapply wp_mono; [apply (publish_sleep_world _ tok d Hk1 Hon eq_refl)|].
  { by apply prepared_waiting. }
  { intros Hj. eapply (running_not_joiner (s:=prepared_s Automatic from t (w_sched w))); [apply Hk1|exact Hl1| |exact Hj|done].
    simpl. congruence. }
  intros _ w2 (Hk2 & Hnp & Hev & Hsw2 & Hpe2 & Hac2).
  assert (∀ c', depth_of w2 c' = depth_of w c') as Hd2 by (intros c'; unfold depth_of; by rewrite Hpe2).
  pose proof (can_block_prepared Automatic w from t w2 Hcb Hsw2 Hd2) as Hcb2.
  wp_step. eapply wp_mono; [apply (commit_with_spec (Busy c false None) w2 _ from _ _ ltac:(by right) Hk2 Hcb2)|].
  { intros w3 Hok3 Hti Hon3. apply finish_after_cancel_spec; [apply (forget_left w3 from Hok3)|].
    - unfold pending, events, time_at in *. by rewrite Hti.
    - by apply (lk_time _ _ _ (wo_links _ _ _ Hok3)). }
  intros r w3 (Hk3 & Hf3 & Hb3 & Hc3). apply committed_prepared in Hc3 as (to & rest & frame & Hsel & Hidx & -> & Hsw3).
  apply wp_ret. split_and!; [done| | |done| |].
  - etrans; [exact Hf1|]. etrans; [|exact Hf3]. apply frames_keeps; [by rewrite Hsw2|by rewrite Hsw2|done].
  - intros c'. by rewrite (bs_depth _ _ Hb3).
  - unfold wait_deadline in *. by rewrite (bs_waits _ _ Hb3).
  - rewrite Hsw3. eexists. split; [apply blocked_from; [by rewrite Hsw2|done]|done].
Qed.
End block.
