(* ===== verification/JoinSpec.v ===== *)
(** * Joining a thread

    The running thread records its exit code, becomes its CPU's retired
    thread and hands the CPU over without saving its frame; the next thread
    runs in its own address space.

    [join_thread] rejects, reaps an exited target at once, or links the caller
    to the target and blocks.  Which of the three it does is a function of the
    scheduler, and in every case the kernel invariant and all register states
    survive. *)

From stdpp Require Import gmap.
From S2P Require Import Prelude Types Wait Deadline TimeConv Preempt Context Vm Time Sched World Transition Handoff CpuInv SchedInv Switch.
From S2P Require Import Lifecycle TransitionSpec LifecycleSpec WorldInv TimeSpec SwitchSpec WakeSpec Frames EntrySpec BlockSpec.
Definition exited_s (c : CpuId) (from : ThreadId) (code : Z) (to : ThreadId) (rest : list ThreadId)
    (s : Scheduler) : Scheduler := enter_s to rest c (leave_exited_s from code c s).

Section exit.
Context (E : Env) {N : nat}.
Hypothesis Hcpu : e_cpu E < KERNEL_CPU_CAPACITY.
Hypothesis Harch : arch_ok E.
Abbreviation c := (e_cpu E).

Lemma exit_world w from t code to rest tto :
  world_ok N Stable w → cur (w_sched w) c = Some from → live (w_sched w) from t → t_state t = Running →
  idl (w_sched w) c ≠ Some from → ret (w_sched w) c = None → active (t_wait t) = None →
  selects (w_sched w) c to rest → live (w_sched w) to tto → t_state tto = Ready →
  let s1 := exited_s c from code to rest (w_sched w) in
  world_ok N (Busy c false (Some from)) (set_w_sched s1 w) ∧ moved c from to (w_sched w) s1 ∧
  live s1 from (set_t_state Exited (set_t_exit_code (Some code) t)) ∧ live s1 to (set_t_state Running tto).
Proof.
  intros [Hs Hhw Hlk] Hcur Hl Hrun Hi Hret Ha Hsel Ht Hrdy s1.
  set (s0 := set_ipi_pending (<[c := true]> (scheduler_ipi_pending (w_sched w))) (w_sched w)).
  assert (sched_ok N None s0) as Hs0 by (by apply sched_ok_ipi).
  set (f := λ t, set_t_state Exited (set_t_exit_code (Some code) t)).
  set (g := λ st, set_cs_current None (set_cs_retired (Some from) st)).
  pose proof (entered_live (s:=s0) E Hl Hrun Hsel Ht Hrdy (f:=f) (g:=g)) as [Lf Lt].
  split_and!; [| |done|done].
  - apply (world_ok_set_sched N Stable); [done|done| |].
    + apply (entered_sched (s:=s0) E Hcpu Hs0 Hl Hrun Hsel Ht Hrdy (f:=f) (g:=g)); [done|].
      by apply (sched_leave_exited Hcpu from t code).
    + apply (entered_links (s:=s0) E Hcpu Hs0 Hcur Hl Hrun Hsel Ht Hrdy (f:=f) (g:=g)); [done| |].
      * apply links_busy. by eapply links_ext.
      * split; [done|by left|done|]. intros a' Ha'. congruence.
  - destruct (entered_moved (s:=s0) E Hcpu Hs0 Hcur Hl Hrun Hsel Ht Hrdy (f:=f) (g:=g)); [done..|]. by split.
Qed.

(** The frames after the CPU went to [to] and [from]'s frame was dropped. *)
Lemma exit_frames w w' from to tf1 tto s1 :
  moved c from to (w_sched w) s1 → cs_online (cst (w_sched w) c) = true →
  length (w_active w) = KERNEL_CPU_CAPACITY →
  live s1 from tf1 → t_state tf1 = Exited → live s1 to tto →
  w_sched w' = s1 → w_active w' = <[c := restore_into (t_context tto)]> (w_active w) →
  frames_kept w w'.
Proof.
  intros Hmv Hon Hlen Hf Hex Ht Hsw Hac tid t'. rewrite Hsw. intros Hl'.
  destruct (mv_keeps _ _ _ _ _ Hmv tid t' Hl') as (t & Hl & _ & _ & _ & _ & Hx).
  exists t. split_and!; [done|done|]. intros Hst.
  assert (tid ≠ from) as Hne by (intros ->; rewrite (live_fun _ _ _ _ Hl' Hf) in Hst; done).
  unfold frame_of at 1. rewrite Hsw, Hl', Hac.
  eapply (entered_frame Hmv Hon Ht); [by rewrite list_lookup_insert_eq by (by rewrite Hlen)| |done|done|done].
  intros c' Hc'. by rewrite list_lookup_insert_ne.
Qed.

(** The optional detach of an exiting user thread's address space. *)
Lemma detach_spec m w (b : bool) :
  world_ok N m w →
  wp (if b then
         r ← vm_op (λ t, clear_user_address_space (e_arch_clear E) t (Some c));
         assert_that (match r with inl _ => true | inr _ => false end) "thread: exit TTBR0 detach failed"
       else mret tt)
     (λ _ w', ∃ vm', w' = set_w_vm vm' w ∧ world_ok N m w' ∧ ∀ c', c' ≠ c → vm' !! c' = w_vm w !! c') w.
Proof.
  intros Hok. destruct b.
  - destruct (clear_op_spec E Hcpu Harch _ _ (lk_roots _ _ _ (wo_links _ _ _ Hok))) as (vm' & x & Hop & Hvm & _ & _ & Hot).
    apply wp_bind. eapply wp_vm_op; [exact Hop|]. wp_step; [done|]. exists vm'. split_and!; [done|by apply world_ok_vm|done].
  - apply wp_ret. exists (w_vm w). assert (set_w_vm (w_vm w) w = w) as Hw by (by destruct w). by rewrite Hw.
Qed.

Lemma enabled_depth w w' :
  (∀ c', depth_of w' c' = depth_of w c') → preemption_enabled E w → preemption_enabled E w'.
Proof.
  intros Hdep (p & Hp & Hd). specialize (Hdep c). unfold depth_of in Hdep. rewrite Hp in Hdep. simpl in Hdep.
  destruct (w_preempt w' !! c) as [p'|] eqn:Hp'; [|done]. exists p'. split; [done|]. simpl in Hdep.
  injection Hdep as Hdd. unfold preempt_is_disabled in *. by rewrite Hdd.
Qed.

(** Finalization, then the running thread is still free to leave. *)
Lemma finalize_block_spec w from t :
  kernel_ok N w → can_block E w from t →
  wp (transition_finalize_retired E)
     (λ _ w', kernel_ok N w' ∧ frames_kept w w' ∧ aside w w' ∧ w_sched w' = finalize_s c (w_sched w) ∧
              can_block E w' from t ∧ ret (w_sched w') c = None) w.
Proof.
  intros Hk [Hon Hcur Hl Hi Hen]. pose proof (wo_sched _ _ _ (ko_world _ _ _ Hk)) as Hs.
  destruct (current_live Hs c from Hcpu Hcur) as (t0 & Hl0 & _ & Hrun). rewrite (live_fun _ _ _ _ Hl0 Hl) in *.
  eapply wp_mono; [by apply (finalize_kernel_spec E (N:=N) Hcpu Harch w)|].
  intros _ w1 (Hk1 & Hf1 & Has1 & Hsw1). destruct (finalize_keeps N c (w_sched w) Hs Hcpu) as [_ Hsc].
  destruct (Hsc c) as (Hc1 & Hc2 & Hc3). split_and!; [done..| |rewrite Hsw1; by eapply finalize_ret].
  split; rewrite ?Hsw1; [congruence|congruence|by apply (finalize_running N)|congruence|].
  eapply enabled_depth; [|done]. apply Has1.
Qed.

Definition exit_tail (exited next : ThreadId) : W unit :=
  aspace ← with_sched (λ s, thread_address_space s (tid_index exited));
  st ← local_state E;
  (if bool_decide (is_Some aspace) && bool_decide (cs_idle st = Some next) then
     r ← vm_op (λ t, clear_user_address_space (e_arch_clear E) t (Some (e_cpu E)));
     assert_that (match r with inl _ => true | inr _ => false end) "thread: exit TTBR0 detach failed"
   else mret tt);;
  restore_from E next;;
  activate_thread_address_space E next;;
  finish_block_current E exited.

Lemma exit_tail_spec w w3 from to tf1 tto :
  kernel_ok N w → cs_online (cst (w_sched w) c) = true → moved c from to (w_sched w) (w_sched w3) →
  aside w w3 → world_ok N (Busy c false (Some from)) w3 →
  live (w_sched w3) from tf1 → t_state tf1 = Exited → live (w_sched w3) to tto → t_home_cpu tto = c →
  wp (exit_tail from to)
     (λ _ w', kernel_ok N w' ∧ frames_kept w w' ∧ beside w w' ∧ w_sched w' = w_sched w3) w3.
Proof.
  intros [Hok Hsp] Hon Hmv Has Hok3 Lf Hex Lt Hht. pose proof (wo_sched _ _ _ Hok3) as Hs3.
  apply wp_bind. eapply wp_with_sched; [by eapply live_aspace|]. wp_step. eapply wp_local_state; [by apply (cst_lookup Hs3)|].
  wp_step. eapply wp_mono; [by apply detach_spec|]. intros _ w4 (vm4 & -> & Hok4 & Hvm4).
  apply wp_seq2. eapply wp_mono; [by apply (restore_spec E (N:=N) Hcpu Harch (Busy c false (Some from)) (set_w_vm vm4 w3) to tto)|].
  intros _ w5 (vm5 & -> & Hok5 & Hspc & Hvm5). simpl in *.
  pose proof (lk_time _ _ _ (wo_links _ _ _ Hok) c Hon) as Hts.
  eapply wp_mono; [apply (finish_block_spec E (N:=N) Hcpu _ from Hok5); by apply (as_time _ _ Has)|].
  intros _ w' [Hok' [Hsw Hq]]. simpl in Hsw. split_and!; [| | |done].
  - split; [done|]. intros c'. rewrite Hsw, (as_vm _ _ Hq). simpl.
    apply (entered_space (w:=w) Hmv (tto:=tto)); [done|done| |done]. intros c1 Hc1. by rewrite Hvm5, Hvm4, (as_vm _ _ Has).
  - eapply (exit_frames w w' from to tf1 tto _ Hmv Hon); [|done|done|done|done|].
    + apply (hw_active _ _ (wo_hw _ _ _ Hok)).
    + rewrite (as_active _ _ Hq). simpl. by rewrite (as_active _ _ Has).
  - etrans; [by apply aside_beside|]. etrans; [|by apply aside_beside]. by apply beside_same.
Qed.

(** The running thread can exit: it may give the CPU up and waits for
    nothing. *)
Theorem exit_current_spec w from t code :
  kernel_ok N w → can_block E w from t → active (t_wait t) = None →
  wp (exit_current E code)
     (λ _ w', kernel_ok N w' ∧ frames_kept w w' ∧ beside w w' ∧
        ∃ to rest tto, selects (finalize_s c (w_sched w)) c to rest ∧
          live (finalize_s c (w_sched w)) to tto ∧ t_state tto = Ready ∧ sched_ok N None (finalize_s c (w_sched w)) ∧
          w_sched w' = exited_s c from code to rest (finalize_s c (w_sched w))) w.
Proof.
  intros Hk Hcb Ha. apply wp_bind. eapply wp_mono; [by apply (finalize_block_spec w from t)|].
  intros _ w1 (Hk1 & Hf1 & Has1 & Hsw1 & [Hon Hcur Hl1 Hi _] & Hret). rewrite <-Hsw1.
  pose proof Hk1 as [Hok1 Hsp1]. pose proof (wo_sched _ _ _ Hok1) as Hs.
  destruct (current_runs E Hcpu from Hs Hcur) as (t0 & Hruns). pose proof Hruns as [_ _ Hl0 Hrun Hh].
  rewrite (live_fun _ _ _ _ Hl0 Hl1) in *.
  destruct (home_idle Hs _ _ Hl1) as [i Hidl]. rewrite Hh in Hidl. assert (from ≠ i) as Hfi by congruence.
  destruct (next_exists E Hcpu from Hs Hcur Hi) as (to & rest & Hnx & Hsel & Hne).
  pose proof Hnx as [_ (tto & Ht & Hrdy & Hht)].
  destruct (exit_world w1 from t code to rest tto Hok1 Hcur Hl1 Hrun Hi Hret Ha Hsel Ht Hrdy) as (Hok2 & Hmv & Lf & Lt).
  destruct (ipi_sent_world _ w1 _ c Hok2) as [Hok3 Has3].
  wp_step. eapply (wp_exit_current E w1 _ from t i code to rest); [done|done|done|done|done|by apply (ipi_lookup Hs)|by apply Harch|by eapply sched_ok_valid, Hok2|].
  eapply wp_mono; [by apply (exit_tail_spec w1 (set_w_sched (exited_s c from code to rest (w_sched w1)) (ipi_sent c w1)) from to _ (set_t_state Running tto) Hk1 Hon Hmv Has3 Hok3 Lf)|].
  intros _ w' (Hk' & Hf' & Hb' & Hsw'). split_and!; [done|by etrans| |by exists to, rest, tto].
  etrans; [by apply aside_beside|done].
Qed.

(** The synchronous entry point adds the check that preemption is enabled. *)
Theorem on_thread_exit_sync_spec w from t code :
  kernel_ok N w → can_block E w from t → active (t_wait t) = None →
  wp (on_thread_exit_sync E code)
     (λ _ w', kernel_ok N w' ∧ frames_kept w w' ∧ beside w w' ∧
        ∃ to rest tto, selects (finalize_s c (w_sched w)) c to rest ∧
          live (finalize_s c (w_sched w)) to tto ∧ t_state tto = Ready ∧ sched_ok N None (finalize_s c (w_sched w)) ∧
          w_sched w' = exited_s c from code to rest (finalize_s c (w_sched w))) w.
Proof.
  intros Hk Hcb Ha. apply wp_bind. apply wp_assert_enabled; [apply Hcb|]. by apply (exit_current_spec w from t).
Qed.
End exit.

(** * Joining a thread *)

(** ** What a join does *)

Inductive JoinPlan := JoinReject (e : JoinError) | JoinReap (t : Thread) (code : Z) | JoinWait.

(** The decision for a non-idle caller. *)
Definition join_plan (s : Scheduler) (from target : ThreadId) : JoinPlan :=
  match table_get s target with
  | None => JoinReject InvalidThread
  | Some t =>
      if decide (idl s (t_home_cpu t) = Some target) then JoinReject NotJoinable
      else if decide (tid_index target = tid_index from) then JoinReject SelfJoin
      else if negb (t_joinable t) then JoinReject NotJoinable
      else match t_joiner t with
           | Some _ => JoinReject JoinInProgress
           | None =>
               if bool_decide (t_state t = Exited) && negb (bool_decide (ret s (t_home_cpu t) = Some target))
               then match t_exit_code t with Some code => JoinReap t code | None => JoinWait end
               else JoinWait
           end
  end.

Definition result_s (from : ThreadId) (r : Z + JoinError) : Scheduler → Scheduler :=
  alter_thread (set_t_last_join_result (Some r)) (tid_index from).

(** The caller takes the exit code and the user resources, and the slot of
    the target is free again. *)
Definition reap_s (from target : ThreadId) (t : Thread) (code : Z) (s : Scheduler) : Scheduler :=
  result_s from (inl code)
    (alter_thread (set_t_reaped_user (t_user t)) (tid_index from) (release_s target s)).

Definition linked_s (target : ThreadId) (tok : WaitToken) : Scheduler → Scheduler :=
  alter_thread (set_t_joiner (Some tok)) (tid_index target).

(** Linking the target commutes with the caller leaving the CPU. *)
Lemma linked_blocked c from wm to rest target tok s :
  tid_index target ≠ tid_index from →
  blocked_s c from wm to rest (linked_s target tok s) = linked_s target tok (blocked_s c from wm to rest s).
Proof.
  intros Hne. unfold blocked_s, enter_s, leave_blocked_s, linked_s.
  rewrite (alter_thread_comm (set_t_joiner (Some tok))) by done.
  rewrite !alter_cpu_thread. do 2 f_equal.
  destruct (decide (tid_index target = tid_index to)) as [->|Hto].
  - by rewrite !alter_thread_compose.
  - by rewrite (alter_thread_comm (set_t_joiner (Some tok))).
Qed.

Lemma joined_alter f i s tok :
  (∀ t, t_joiner (f t) = t_joiner t) → joined (alter_thread f i s) tok → joined s tok.
Proof.
  intros Hf (x & tx & Hx & Hj). revert Hx. unfold live. rewrite table_get_alter. destruct (decide _).
  - intros (t0 & Ht0 & ->)%fmap_Some. exists x, t0. by rewrite <-(Hf t0).
  - intros Hx. by exists x, tx.
Qed.

Lemma blocked_prepared E c k from tf wm to rest s :
  blocked_s c from wm to rest (prepared_s E k from tf s) = blocked_s c from wm to rest s.
Proof. unfold blocked_s, leave_blocked_s, prepared_s. by rewrite alter_thread_compose. Qed.

Section join.
Context (E : Env) {N : nat}.
Hypothesis Hcpu : e_cpu E < KERNEL_CPU_CAPACITY.
Hypothesis Harch : arch_ok E.
Abbreviation c := (e_cpu E).

(** A record field that only its owner reads. *)
Lemma own_record w from t f :
  kernel_ok N w → live (w_sched w) from t → t_state t = Running →
  (∀ t, keeps_thread f t ∧ t_state (f t) = t_state t ∧ t_wait (f t) = t_wait t ∧ t_user (f t) = t_user t ∧
        t_exit_code (f t) = t_exit_code t ∧ t_context (f t) = t_context t ∧ t_stack (f t) = t_stack t) →
  kernel_ok N (on_sched (alter_thread f (tid_index from)) w) ∧
  frames_kept w (on_sched (alter_thread f (tid_index from)) w).
Proof.
  intros [Hok Hsp] Hl Hrun Hf. destruct (Hf t) as (Hk & Hst & Hw & Hu & Hx & Hcx & _).
  assert (keeps (w_sched w) (alter_thread f (tid_index from) (w_sched w))) as Hkp.
  { apply keeps_alter_thread.
    - intros t1. destruct (Hf t1) as ([] & ? & ? & ? & ? & ? & ?). done.
    - intros slot t1 _ _. destruct (Hf t1) as (_ & -> & _). done. }
  split; [|by apply frames_keeps]. split; [|intros c'; by eapply space_keeps].
  eapply record_world; try done. congruence.
Qed.

Lemma join_reject_spec w from t e :
  kernel_ok N w → live (w_sched w) from t → t_state t = Running →
  wp (set_join_result from (inr e);; mret output_new)
     (λ out w', kernel_ok N w' ∧ frames_kept w w' ∧ beside w w' ∧ out = output_new ∧
                w_sched w' = result_s from (inr e) (w_sched w)) w.
Proof.
  intros Hk Hl Hrun. apply wp_bind. eapply wp_thread_mut; [done|]. apply wp_ret.
  destruct (own_record w from t (set_t_last_join_result (Some (inr e))) Hk Hl Hrun) as [Hk' Hf']; [done|].
  by split_and!.
Qed.
(** ** Reaping *)

Lemma reap_spec w target t :
  kernel_ok N w → live (w_sched w) target t → t_state t = Exited →
  idl (w_sched w) (t_home_cpu t) ≠ Some target → ret (w_sched w) (t_home_cpu t) ≠ Some target →
  wp (transition_reap_exited E target)
     (λ u w', u = t_user t ∧ w' = on_sched (release_s target) w ∧ kernel_ok N w' ∧ frames_kept w w') w.
Proof.
  intros [Hok Hsp] Hl Hex Hi Hr. pose proof (wo_sched _ _ _ Hok) as Hs. pose proof (live_home_lt Hs _ _ Hl) as Hh.
  pose proof (release_world (N:=N) Stable w target t Hok Hl Hex Hr) as Hok'.
  eapply (wp_reap E w target t); [done|by apply (cst_lookup Hs)|done| |done|done| | |by eapply sched_ok_valid, Hok'|].
  - intros Hc. destruct (current_live Hs _ target Hh Hc) as (t' & Hl' & _ & Hst). rewrite (live_fun _ _ _ _ Hl' Hl) in Hst. congruence.
  - unfold queued_index. apply not_true_iff_false.
    intros (x & Hx & Heq%bool_decide_eq_true)%existsb_exists. apply list_elem_of_In in Hx.
    assert (x ∈ ready (w_sched w) (t_home_cpu t) ++ remote (w_sched w) (t_home_cpu t)) as Hq by (apply elem_of_app; by left).
    apply (queued_spec Hs _ _ Hh) in Hq as (tx & Hlx & _ & Hst & _).
    pose proof (live_index_inj _ _ _ _ _ Hlx Hl Heq) as ->. rewrite (live_fun _ _ _ _ Hlx Hl) in Hst. congruence.
  - exact (exited_wait_none _ _ (so_threads _ _ _ Hs _ _ Hl) Hex).
  - split_and!; [done|done| |by apply frames_keeps; [apply keeps_release|..]].
    split; [done|]. intros c'. eapply space_keeps; [apply keeps_release|done..|apply Hsp].
Qed.

Lemma join_reap_spec w from tf target t code :
  kernel_ok N w → live (w_sched w) from tf → t_state tf = Running → t_reaped_user tf = None →
  live (w_sched w) target t → t_state t = Exited → tid_index target ≠ tid_index from →
  idl (w_sched w) (t_home_cpu t) ≠ Some target → ret (w_sched w) (t_home_cpu t) ≠ Some target →
  wp (reaped ← transition_reap_exited E target;
      set_reaped_user from reaped;;
      set_join_result from (inl code);;
      mret output_new)
     (λ out w', kernel_ok N w' ∧ frames_kept w w' ∧ beside w w' ∧ out = output_new ∧
                w_sched w' = reap_s from target t code (w_sched w)) w.
Proof.
  intros Hk Hf Hrun Hru Hl Hex Hne Hi Hr. apply wp_bind. eapply wp_mono; [by apply (reap_spec w target t)|].
  intros u w1 (-> & -> & Hk1 & Hf1). set (w1 := on_sched (release_s target) w) in *.
  assert (live (w_sched w1) from tf) as Hl1.
  { unfold w1, live, table_get, release_s, table_slots. simpl. by rewrite list_lookup_alter_ne. }
  destruct (own_record w1 from tf (set_t_reaped_user (t_user t)) Hk1 Hl1 Hrun) as [Hk2 Hf2]; [done|].
  pose proof (live_alter_same (set_t_reaped_user (t_user t)) _ _ _ Hl1) as Hl2.
  destruct (own_record (on_sched (alter_thread (set_t_reaped_user (t_user t)) (tid_index from)) w1) from _
              (set_t_last_join_result (Some (inl code))) Hk2 Hl2 Hrun) as [Hk3 Hf3]; [done|].
  wp_step. apply wp_bind. wp_step. wp_step. eapply wp_expect; [exact Hl1|].
  wp_step. wp_step; [by rewrite Hru|]. apply wp_modify. wp_step. eapply wp_thread_mut; [exact Hl2|]. apply wp_ret.
  split_and!; [done|by do 2 (etrans; [eassumption|])|done|done|done].
Qed.

(** ** Waiting for the target *)

Lemma link_world m w target t tok j :
  world_ok N m w → live (w_sched w) target t → t_joinable t = true → ¬ joined (w_sched w) tok →
  (t_state t = Exited → ret (w_sched w) (t_home_cpu t) = Some target) →
  live (w_sched w) (wt_thread tok) j → active (t_wait j) = Some (mkActiveWait tok PhaseBlocked Explicit) →
  t_last_join_result j = None → t_reaped_user j = None → (∀ c', ¬ pending w c' (wait_deadline tok)) →
  world_ok N m (on_sched (linked_s target tok) w).
Proof.
  intros [Hs Hhw Hlk] Hl Hj Hnj Hex Hlj Ha Hlr Hru Hnp. apply (world_ok_set_sched N m); [done|done| |].
  - by apply (sched_set_joiner N _ target t tok j).
  - eapply links_thread; [done|done|]. split; [done| |done|].
    + right. simpl. intros tok' c' [= <-]. apply Hnp.
    + intros a Ha' ? ? ?. by exists a.
Qed.

(** A thread other than the caller, after the caller left. *)
Lemma blocked_other s from wm to rest target t :
  live s target t → tid_index target ≠ tid_index from →
  ∃ t', live (blocked_s c from wm to rest s) target t' ∧ t_joinable t' = t_joinable t ∧ t_home_cpu t' = t_home_cpu t ∧
        (t_state t' = Exited → t_state t = Exited).
Proof.
  intros Hl Hne.
  assert (live (leave_blocked_s from wm c s) target t) as Hl1
    by (by apply (live_alter_other (λ t, set_t_state Blocked (set_t_wait wm t)) from)).
  destruct (decide (tid_index target = tid_index to)) as [Heq|Hto].
  - exists (set_t_state Running t). split_and!; try done. unfold blocked_s, enter_s. rewrite <-Heq.
    by apply (live_alter_same (set_t_state Running)).
  - exists t. split_and!; try done. by apply (live_alter_other (set_t_state Running) to).
Qed.

Lemma blocked_ret s from wm to rest c' :
  c < length (cpus s) → ret (blocked_s c from wm to rest s) c' = ret s c'.
Proof.
  intros Hc. unfold ret, blocked_s, enter_s, leave_blocked_s.
  rewrite cst_alter_cpu by (simpl; by rewrite length_alter).
  destruct (decide (c = c')) as [<-|Hne]; rewrite cst_alter_thread, cst_alter_cpu by exact Hc;
    rewrite ?decide_True, ?decide_False by done; by rewrite cst_alter_thread.
Qed.

Lemma join_world w from tf target t to rest tto :
  kernel_ok N w → can_block E w from tf → t_state tf = Running → t_home_cpu tf = c →
  active (t_wait tf) = None → (next_sequence (t_wait tf) < u64_max)%Z →
  t_last_join_result tf = None → t_reaped_user tf = None →
  live (w_sched w) target t → tid_index target ≠ tid_index from → t_joinable t = true →
  (t_state t = Exited → ret (w_sched w) (t_home_cpu t) = Some target) →
  selects (w_sched w) c to rest → live (w_sched w) to tto → t_state tto = Ready → tid_index to ≠ tid_index from →
  let tok := wait_token E from tf in
  let wm := mkWaitMetadata (next_sequence (t_wait tf) + 1) (Some (mkActiveWait tok PhaseBlocked Explicit)) in
  let s0 := prepared_s E Explicit from tf (w_sched w) in
  let s1 := linked_s target tok (blocked_s c from wm to rest s0) in
  world_ok N (Busy c false (Some from)) (set_w_sched s1 w) ∧ moved c from to s0 s1 ∧
  (∃ tf1, live s1 from tf1) ∧ ∃ tto1, live s1 to tto1 ∧ t_home_cpu tto1 = t_home_cpu tto.
Proof.
  intros Hk Hcb Hrun Hh Ha Hq Hlr Hru Hl Hne Hj Hex Hsel Ht Hrdy Hto tok wm s0 s1.
  pose proof Hcb as [Hon Hcur Hlf Hi Hen]. pose proof Hk as [[Hs Hhw Hlk] _].
  destruct (prepare_world E Hcpu Stable w Explicit from tf Hk Hlf Hrun Hh Ha Hq) as [Hk1 _].
  set (w1 := on_sched (prepared_s E Explicit from tf) w) in *.
  assert (∀ x tx, tid_index x ≠ tid_index from → live (w_sched w) x tx → live s0 x tx) as Hoth.
  { intros x tx Hx Hlx. by apply (live_alter_other (set_t_wait (prepared_wait E Explicit from tf)) from). }
  pose proof (live_alter_same (set_t_wait (prepared_wait E Explicit from tf)) _ _ _ Hlf) as Hlf1.
  destruct (block_world E Hcpu Stable w1 from _ _ to rest tto ltac:(by left) (ko_world _ _ _ Hk1) Hcur Hlf1 Hrun Hi eq_refl eq_refl
              Hsel (Hoth _ _ Hto Ht) Hrdy) as (Hok2 & Hmv & Lf & Lt).
  destruct (blocked_other s0 from wm to rest target t) as (t' & Hl' & Hj' & Hh' & Hex'); [by apply Hoth|done|].
  assert (∀ c', ¬ pending w c' (wait_deadline tok)) as Hnp.
  { intros c' (_ & _ & t1 & a & Hl1 & _ & Ha1 & _)%(lk_wait _ _ _ Hlk). rewrite (live_fun _ _ _ _ Hl1 Hlf) in Ha1. congruence. }
  assert (∀ s f i, keeps s (alter_thread (set_t_joiner f) i s)) as Hkp by (intros; by apply keeps_alter_thread).
  split_and!.
  - eapply (link_world _ (set_w_sched (blocked_s c from wm to rest s0) w) target t' tok); [exact Hok2|done|congruence| | |exact Lf|done..].
    + intros Hjd. apply (joined_alter (set_t_state Running) (tid_index to) (leave_blocked_s from wm c s0)) in Hjd; [|done].
      apply (joined_alter (λ t, set_t_state Blocked (set_t_wait wm t)) (tid_index from) s0) in Hjd; [|done].
      apply joined_alter in Hjd; [|done].
      by apply (running_not_joiner from tf Hs Hlf ltac:(congruence) tok Hjd).
    + intros Hx. simpl. rewrite Hh', blocked_ret; [by apply Hex, Hex'|]. by apply (here_length Hs).
  - destruct Hmv as [M1 M2 M3 M4 M5]. split; [|done..]. by etrans; [exact M1|apply Hkp].
  - eexists. by apply (live_alter_other (set_t_joiner (Some tok)) target).
  - destruct (decide (tid_index to = tid_index target)) as [Heq|Hx].
    + eexists. split; [unfold s1, linked_s; rewrite <-Heq; by apply (live_alter_same (set_t_joiner (Some tok)))|done].
    + eexists. split; [by apply (live_alter_other (set_t_joiner (Some tok)) target)|done].
Qed.
Lemma next_alter f i s st to rest :
  (∀ t, t_state (f t) = t_state t ∧ t_home_cpu (f t) = t_home_cpu t) →
  next_of E s st to rest → next_of E (alter_thread f i s) st to rest.
Proof.
  intros Hf [Hsel (t & Hl & Hst & Hh)]. split; [done|]. unfold live. rewrite table_get_alter, Hl.
  destruct (decide _); [|by exists t]. exists (f t). destruct (Hf t). split_and!; [done|congruence..].
Qed.

Definition blocked_wait (tf : Thread) (tok : WaitToken) : WaitMetadata :=
  mkWaitMetadata (next_sequence (t_wait tf) + 1) (Some (mkActiveWait tok PhaseBlocked Explicit)).
Definition join_waits (from target : ThreadId) (tf : Thread) (s s' : Scheduler) : Prop :=
  let tok := wait_token E from tf in
  ∃ to rest frame, selects s c to rest ∧
    s' = saved_s from frame (linked_s target tok (blocked_s c from (blocked_wait tf tok) to rest s)).

Lemma join_wait_spec w from tf target t :
  kernel_ok N w → can_block E w from tf →
  active (t_wait tf) = None → (next_sequence (t_wait tf) < u64_max)%Z →
  t_last_join_result tf = None → t_reaped_user tf = None →
  live (w_sched w) target t → tid_index target ≠ tid_index from → t_joinable t = true →
  (t_state t = Exited → ret (w_sched w) (t_home_cpu t) = Some target) →
  wp (prepared ← transition_prepare_wait E;
      thread_mut (tid_index target) (set_t_joiner (Some (pw_token prepared)));;
      r ← commit_prepared_wait E prepared;
      record_commit (mkSchedCallWaitOutput (Some (pw_token prepared)) None) r
                    "thread: join wait became stale before commit")
     (λ out w', kernel_ok N w' ∧ frames_kept w w' ∧ beside w w' ∧
                out = mkSchedCallWaitOutput (Some (wait_token E from tf)) None ∧
                join_waits from target tf (w_sched w) (w_sched w')) w.
Proof.
  intros Hk Hcb Ha Hq Hlr Hru Hl Hne Hj Hex. pose proof Hcb as [Hon Hcur Hlf Hi Hen].
  pose proof (wo_sched _ _ _ (ko_world _ _ _ Hk)) as Hs.
  destruct (current_live Hs c from Hcpu Hcur) as (t0 & Hl0 & Hh & Hrun). rewrite (live_fun _ _ _ _ Hl0 Hlf) in *.
  destruct (home_idle Hs _ _ Hlf) as [i Hidl]. rewrite Hh in Hidl. assert (from ≠ i) as Hfi by congruence.
  destruct (next_exists E Hcpu from Hs Hcur Hi) as (to & rest & Hnx & Hsel & Hnf).
  pose proof Hnx as [_ (tto & Ht & Hrdy & Hht)].
  assert (tid_index to ≠ tid_index from) as Hto.
  { intros Heq. apply Hnf. by eapply live_index_inj. }
  destruct (join_world w from tf target t to rest tto Hk Hcb Hrun Hh Ha Hq Hlr Hru Hl Hne Hj Hex Hsel Ht Hrdy Hto)
    as (Hok2 & Hmv & (tf1 & Lf) & tto1 & Lt & Hht1).
  pose proof (lk_time _ _ _ (wo_links _ _ _ (ko_world _ _ _ Hk)) c Hon) as Hts.
  apply wp_bind. eapply wp_mono; [by apply (prepare_wait_spec E (N:=N) Hcpu Stable w from tf)|].
  intros p w1 (-> & -> & Hk1 & Hf1). simpl pw_token. set (tok := wait_token E from tf) in *.
  wp_step. eapply wp_thread_mut; [by apply (live_alter_other (set_t_wait (prepared_wait E Explicit from tf)) from)|].
  wp_step. apply wp_bind.
  eapply (wp_commit_block E _ (cst (w_sched w) c) from (set_t_wait (prepared_wait E Explicit from tf) tf) i _ tok _ to rest);
    [done| |done|done|by apply commit_fresh| | |].
  - split; [by apply (cst_lookup Hs)|done| |done|done].
    apply (live_alter_other (set_t_joiner (Some tok)) target from); [congruence|].
    by apply (live_alter_same (set_t_wait (prepared_wait E Explicit from tf))).
  - by do 2 (apply next_alter; [done|]).
  - change (validates E (blocked_s c from (blocked_wait tf tok) to rest (linked_s target tok (prepared_s E Explicit from tf (w_sched w))))).
    rewrite linked_blocked by done. by eapply sched_ok_valid, Hok2.
  - match goal with |- wp ?p ?Q _ => change (wp p Q (set_w_sched (blocked_s c from (blocked_wait tf tok) to rest
      (linked_s target tok (prepared_s E Explicit from tf (w_sched w)))) (on_sched (prepared_s E Explicit from tf) w))) end.
    rewrite linked_blocked by done.
    eapply wp_mono; [eapply (block_tail_spec E (N:=N) Hcpu Harch Stable (on_sched (prepared_s E Explicit from tf) w) _ from
       (set_t_wait (prepared_wait E Explicit from tf) tf) tf1 to tto1 (finish_block_current E)); try done|].
    + by apply (live_alter_same (set_t_wait (prepared_wait E Explicit from tf))).
    + congruence.
    + intros w2 Hw2 Hti Hon2. apply (finish_block_spec E (N:=N) Hcpu w2 from Hw2). unfold time_at in *. by rewrite Hti.
    + intros r w' (Hk' & Hf' & Hb' & -> & frame & Hsw). apply wp_ret.
      split_and!; [done|by etrans|by etrans; [apply (beside_same w (on_sched (prepared_s E Explicit from tf) w))|]|done|].
      exists to, rest, frame. split; [done|]. by rewrite Hsw, blocked_prepared.
Qed.

(** ** The entry point *)

Definition join_outcome (from target : ThreadId) (tf : Thread) (s : Scheduler)
    (out : SchedCallWaitOutput) (s' : Scheduler) : Prop :=
  match join_plan s from target with
  | JoinReject e => out = output_new ∧ s' = result_s from (inr e) s
  | JoinReap t code => out = output_new ∧ s' = reap_s from target t code s
  | JoinWait => out = mkSchedCallWaitOutput (Some (wait_token E from tf)) None ∧ join_waits from target tf s s'
  end.

Lemma wp_retiring w target t (Q : bool → World → Prop) :
  sched_ok N None (w_sched w) → live (w_sched w) target t →
  Q (bool_decide (ret (w_sched w) (t_home_cpu t) = Some target)) w →
  wp (with_sched (λ s, thread_is_retiring s target)) Q w.
Proof.
  intros Hs Hl HQ. eapply wp_with_sched; [|exact HQ]. unfold thread_is_retiring.
  rewrite (live_matches _ _ _ Hl), (live_home_cpu _ _ _ Hl), done_bind.
  by rewrite (cpu_state_done _ _ _ (cst_lookup Hs _ (live_home_lt Hs _ _ Hl))), done_bind.
Qed.

Theorem join_thread_spec w from tf target :
  kernel_ok N w → can_block E w from tf →
  active (t_wait tf) = None → (next_sequence (t_wait tf) < u64_max)%Z →
  t_last_join_result tf = None → t_reaped_user tf = None →
  wp (join_thread E target)
     (λ out w', kernel_ok N w' ∧ frames_kept w w' ∧ beside w w' ∧
                join_outcome from target tf (finalize_s c (w_sched w)) out (w_sched w')) w.
Proof.
  intros Hk0 Hcb0 Ha Hq Hlr Hru. apply wp_bind.
  eapply wp_mono; [by apply (finalize_block_spec E (N:=N) Hcpu Harch w from tf)|].
  intros _ w1 (Hk & Hf1 & Has1 & Hsw1 & Hcb & Hret). rewrite <-Hsw1. pose proof Hcb as [Hon Hcur Hlf Hi Hen].
  pose proof (wo_sched _ _ _ (ko_world _ _ _ Hk)) as Hs.
  destruct (current_live Hs c from Hcpu Hcur) as (t0 & Hl0 & Hh & Hrun). rewrite (live_fun _ _ _ _ Hl0 Hlf) in *.
  wp_step. eapply wp_current_thread; [by apply (cst_lookup Hs)|]. wp_step. eapply wp_expect; [exact Hcur|].
  wp_step. eapply wp_with_sched; [exact (live_thread_at _ _ _ Hlf)|]. wp_step. wp_step; [by rewrite Hlr, Hru|].
  wp_step. eapply wp_local_state; [by apply (cst_lookup Hs)|]. rewrite decide_False by done.
  eapply (wp_mono _ (λ out w', kernel_ok N w' ∧ frames_kept w1 w' ∧ beside w1 w' ∧
                join_outcome from target tf (w_sched w1) out (w_sched w'))); last first.
  { intros out w' (? & ? & ? & ?). split_and!; [done|by etrans|etrans; [by apply aside_beside|done]|done]. }
  wp_step. wp_step. unfold join_outcome, join_plan, thread_matches. destruct (table_get (w_sched w1) target) as [t|] eqn:Hl; simpl.
  2: { by apply (join_reject_spec w1 from tf). }
  wp_step. eapply wp_with_sched; [exact (live_thread_at _ _ _ Hl)|].
  wp_step. eapply wp_with_sched; [by apply cpu_state_done, (cst_lookup Hs), (live_home_lt Hs _ _ Hl)|].
  fold (idl (w_sched w1) (t_home_cpu t)). destruct (decide _) as [|Hni]; [by apply (join_reject_spec w1 from tf)|].
  destruct (decide _) as [|Hne]; [by apply (join_reject_spec w1 from tf)|].
  destruct (t_joinable t) eqn:Hj; simpl; [|by apply (join_reject_spec w1 from tf)].
  destruct (t_joiner t) eqn:Hjt; [by apply (join_reject_spec w1 from tf)|].
  wp_step. eapply wp_retiring; [done|done|]. destruct (decide (t_state t = Exited)) as [Hex|Hnx].
  - destruct (tk_exit _ _ (so_threads _ _ _ Hs _ _ Hl) Hex) as [code Hcode]. rewrite (bool_decide_true _ Hex), Hcode.
    case_bool_decide as Hr; simpl.
    + wp_step. apply wp_assert_enabled; [done|]. cbv zeta. by apply (join_wait_spec w1 from tf target t).
    + wp_step. apply wp_ret. by apply (join_reap_spec w1 from tf target t code).
  - rewrite (bool_decide_false _ Hnx). simpl. wp_step. apply wp_assert_enabled; [done|]. cbv zeta.
    by apply (join_wait_spec w1 from tf target t).
Qed.
End join.
