(* ===== verification/ThreadSpec.v ===== *)
(** * Completing, finishing and cancelling waits; join results; exec

    The remaining entry points that act on the running thread or complete
    another one's wait.  Replacing the user resources of the running thread
    (the kernel half of exec) switches the installed translation root and the
    thread's record together. *)

From stdpp Require Import gmap.
From S2P Require Import Prelude Types Wait TimeConv Deadline Preempt Context Vm Time Sched World Transition Handoff.
From S2P Require Import CpuInv SchedInv Switch Lifecycle TransitionSpec LifecycleSpec WorldInv TimeSpec.
From S2P Require Import SwitchSpec WakeSpec Frames EntrySpec BlockSpec JoinSpec.

(** A root that at most CPU [h] uses. *)
Record root_free (s : Scheduler) (vm : vm_table) (h : CpuId) (r : Z) : Prop := {
  rf_valid : r ≠ NO_ACTIVE_USER_ROOT;
  rf_threads : ∀ tid t, live s tid t → thread_root t = Some r → t_home_cpu t = h;
  rf_installed : ∀ c u, vm !! c = Some u → installed u = r → c = h
}.

Section thread.
Context (E : Env) {N : nat}.
Hypothesis Hcpu : e_cpu E < KERNEL_CPU_CAPACITY.
Hypothesis Harch : arch_ok E.
Abbreviation c := (e_cpu E).

(** ** Waits *)

(** Completing a wait from any CPU: a peer is made ready, noticed or ignored. *)
Theorem complete_wait_spec w tok cause :
  kernel_ok N w → cs_online (cst (w_sched w) c) = true →
  ¬ joined (w_sched w) tok → ¬ pending w (wt_cpu tok) (wait_deadline tok) →
  wp (transition_complete_wait E tok cause)
     (λ r w', kernel_ok N w' ∧ frames_kept w w' ∧ aside w w' ∧ (r, w_sched w') = complete_s c tok cause (w_sched w)) w.
Proof.
  intros [Hok Hsp] Hon Hnj Hnp. pose proof (wo_sched _ _ _ Hok) as Hs.
  eapply wp_mono; [apply (complete_spec E (N:=N) Hcpu Harch Stable true w tok cause); [|done..]|].
  { left. split_and!; [done|done|]. by apply (lk_time _ _ _ (wo_links _ _ _ Hok)). }
  intros r w' (Hok' & Has & Hsw). destruct (complete_keeps Hs Hcpu tok cause) as [Hk Hc].
  rewrite <-Hsw in *. simpl in *. split_and!; [|by apply frames_keeps; [..|apply Has]|done|done].
  split; [done|]. intros c'. destruct (Hc c') as (Hc1 & _ & Hc2).
  eapply space_keeps; [exact Hk|done|done| |apply Hsp]. by rewrite (as_vm _ _ Has).
Qed.

(** Closing the wait of the running thread. *)
Lemma close_wait_world w from t :
  kernel_ok N w → live (w_sched w) from t → t_state t = Running →
  (∀ a, active (t_wait t) = Some a → wait_is_completed (t_wait t) = false →
        ¬ pending w (t_home_cpu t) (wait_deadline (aw_token a))) →
  let f := alter_thread (set_t_wait (set_active (t_wait t) None)) (tid_index from) in
  kernel_ok N (on_sched f w) ∧ frames_kept w (on_sched f w).
Proof.
  intros [[Hs Hhw Hlk] Hsp] Hl Hrun Hnp f.
  assert (keeps (w_sched w) (f (w_sched w))) as Hkp by (by apply keeps_alter_thread).
  split; [|by apply frames_keeps]. split; [|intros c'; by eapply space_keeps].
  apply (world_ok_set_sched N Stable); [done|done| |].
  - eapply sched_ok_record; [done|done|done| |done|].
    + destruct (so_threads _ _ _ Hs _ _ Hl) as [? [] ? ? ?]. split; try done. split; simpl; try done. by rewrite Hrun.
    + right. eapply running_not_joiner; [done|done|congruence].
  - eapply links_thread; [done|done|]. split; [done|by left|done|]. intros a Ha Hc Hp. by destruct (Hnp a Ha Hc).
Qed.

Lemma unchanged_wait w from t :
  live (w_sched w) from t → set_w_sched (alter_thread (set_t_wait (t_wait t)) (tid_index from) (w_sched w)) w = w.
Proof. intros Hl. rewrite (alter_thread_id _ _ _ _ Hl (set_t_wait_id t)). apply set_w_sched_id. Qed.

Theorem finish_wait_spec w tok t :
  kernel_ok N w → cur (w_sched w) c = Some (wt_thread tok) → live (w_sched w) (wt_thread tok) t →
  wp (transition_finish_wait E tok)
     (λ r w', kernel_ok N w' ∧ frames_kept w w' ∧ r = (finish (t_wait t) tok).1 ∧
        w' = on_sched (alter_thread (set_t_wait (finish (t_wait t) tok).2) (tid_index (wt_thread tok))) w) w.
Proof.
  intros Hk Hcur Hl. pose proof (wo_sched _ _ _ (ko_world _ _ _ Hk)) as Hs.
  destruct (current_runs E Hcpu _ Hs Hcur) as (t0 & Hr). pose proof Hr as [_ _ Hl0 Hrun Hh].
  rewrite (live_fun _ _ _ _ Hl0 Hl) in *.
  assert (kernel_ok N (on_sched (alter_thread (set_t_wait (finish (t_wait t) tok).2) (tid_index (wt_thread tok))) w) ∧
          frames_kept w (on_sched (alter_thread (set_t_wait (finish (t_wait t) tok).2) (tid_index (wt_thread tok))) w)) as [Hk' Hf'].
  { unfold finish, on_sched. destruct (active (t_wait t)) as [a|] eqn:Ha; [|by cbn [snd]; rewrite unchanged_wait].
    destruct (decide _); [by cbn [snd]; rewrite unchanged_wait|].
    destruct (aw_phase a) eqn:Hph; [by cbn [snd]; rewrite unchanged_wait|by cbn [snd]; rewrite unchanged_wait|].
    apply (close_wait_world w (wt_thread tok) t); try done. intros a' Ha' Hc. exfalso.
    unfold wait_is_completed in Hc. rewrite Ha in Hc. destruct a. simpl in *. by rewrite Hph in Hc. }
  eapply wp_finish_wait; [done|by apply surjective_pairing|by eapply sched_ok_valid, Hk'|]. done.
Qed.

(** The caller of a blocking entry point collects its completion. *)
Theorem take_completion_spec w tok t cause k :
  kernel_ok N w → cur (w_sched w) c = Some (wt_thread tok) → live (w_sched w) (wt_thread tok) t →
  active (t_wait t) = Some (mkActiveWait tok (Completed cause) k) →
  wp (take_completion E (mkSchedCallWaitOutput (Some tok) None))
     (λ r w', kernel_ok N w' ∧ frames_kept w w' ∧ r = Some (tok, cause) ∧
        w' = on_sched (alter_thread (set_t_wait (set_active (t_wait t) None)) (tid_index (wt_thread tok))) w) w.
Proof.
  intros Hk Hcur Hl Ha. apply wp_bind. apply wp_bind.
  eapply wp_mono; [by apply (finish_wait_spec w tok t)|]. unfold finish. rewrite Ha. simpl.
  rewrite decide_False by (intros Hn; by apply Hn). intros r w' (Hk' & Hf' & -> & ->). do 2 apply wp_ret. done.
Qed.

Theorem cancel_wait_spec w prepared t :
  kernel_ok N w → cur (w_sched w) c = Some (wt_thread (pw_token prepared)) →
  live (w_sched w) (wt_thread (pw_token prepared)) t → ¬ pending w c (wait_deadline (pw_token prepared)) →
  wp (transition_cancel_wait E prepared)
     (λ r w', kernel_ok N w' ∧ frames_kept w w' ∧ r = (cancel (t_wait t) prepared).1 ∧
        w' = on_sched (alter_thread (set_t_wait (cancel (t_wait t) prepared).2) (tid_index (wt_thread (pw_token prepared)))) w) w.
Proof.
  intros Hk Hcur Hl Hnp. pose proof (wo_sched _ _ _ (ko_world _ _ _ Hk)) as Hs. set (from := wt_thread (pw_token prepared)) in *.
  destruct (current_runs E Hcpu _ Hs Hcur) as (t0 & Hr). pose proof Hr as [_ _ Hl0 Hrun Hh].
  rewrite (live_fun _ _ _ _ Hl0 Hl) in *.
  assert (kernel_ok N (on_sched (alter_thread (set_t_wait (cancel (t_wait t) prepared).2) (tid_index from)) w) ∧
          frames_kept w (on_sched (alter_thread (set_t_wait (cancel (t_wait t) prepared).2) (tid_index from)) w)) as [Hk' Hf'].
  { unfold cancel, on_sched. destruct (active (t_wait t)) as [a|] eqn:Ha; [|by cbn [snd]; rewrite unchanged_wait].
    destruct (decide _) as [|Htok]; [by cbn [snd]; rewrite unchanged_wait|]. apply dec_stable in Htok.
    assert (∀ a', Some a = Some a' → wait_is_completed (t_wait t) = false →
              ¬ pending w (t_home_cpu t) (wait_deadline (aw_token a'))) as Hnp'.
    { intros a' [= <-] _. by rewrite Htok, Hh. }
    rewrite <-Ha in Hnp'.
    destruct (aw_phase a); [by apply close_wait_world|by cbn [snd]; rewrite unchanged_wait|by apply close_wait_world]. }
  eapply wp_cancel_wait; [done|by apply surjective_pairing|by eapply sched_ok_valid, Hk'|]. done.
Qed.

(** ** Join results *)

Theorem take_join_result_spec w from t r :
  kernel_ok N w → cur (w_sched w) c = Some from → live (w_sched w) from t → t_last_join_result t = Some r →
  wp (take_current_join_result E)
     (λ res w', kernel_ok N w' ∧ frames_kept w w' ∧ res = (r, t_reaped_user t) ∧
        w' = on_sched (alter_thread (λ t, set_t_reaped_user None (set_t_last_join_result None t)) (tid_index from)) w) w.
Proof.
  intros Hk Hcur Hl Hr. pose proof (wo_sched _ _ _ (ko_world _ _ _ Hk)) as Hs.
  destruct (current_runs E Hcpu _ Hs Hcur) as (t0 & Hrn). pose proof Hrn as [_ _ Hl0 Hrun Hh].
  rewrite (live_fun _ _ _ _ Hl0 Hl) in *.
  apply wp_bind. eapply wp_current_thread; [by apply (cst_lookup Hs)|]. wp_step. eapply wp_expect; [exact Hcur|].
  wp_step. eapply wp_with_sched; [exact (live_thread_at _ _ _ Hl)|]. rewrite Hr.
  wp_step. eapply wp_thread_mut; [exact Hl|]. wp_step.
  eapply wp_thread_mut; [exact (live_alter_same (set_t_last_join_result None) _ _ _ Hl)|]. apply wp_ret.
  assert (∀ f g, on_sched (alter_thread f (tid_index from)) (on_sched (alter_thread g (tid_index from)) w)
                 = on_sched (alter_thread (f ∘ g) (tid_index from)) w) as Hcomp.
  { intros f g. rewrite on_sched_compose. apply on_sched_ext. cbn [compose]. apply alter_thread_compose. }
  rewrite Hcomp. destruct (own_record w from t (set_t_reaped_user None ∘ set_t_last_join_result None) Hk Hl Hrun) as [Hk' Hf']; [done|].
  by split_and!.
Qed.
(** ** Replacing the user resources *)

Lemma current_home s c' tid t :
  sched_ok N None s → cur s c' = Some tid → live s tid t → t_home_cpu t = c'.
Proof.
  intros Hs Hc Hl. destruct (decide (c' < KERNEL_CPU_CAPACITY)) as [Hlt|Hge].
  - destruct (current_live Hs c' tid Hlt Hc) as (t' & Hl' & Hh & _). by rewrite (live_fun _ _ _ _ Hl Hl').
  - unfold cur, cst in Hc. rewrite lookup_ge_None_2 in Hc; [done|]. rewrite (sh_cpus _ _ (so_shape _ _ _ Hs)). lia.
Qed.

(** The thread and its CPU take a root that nobody else uses. *)
Lemma roots_replace s vm from t f r :
  roots_ok s vm → live s from t → t_home_cpu t = c → root_free s vm c r →
  t_home_cpu (f t) = t_home_cpu t → thread_root (f t) = Some r →
  roots_ok (alter_thread f (tid_index from) s) (<[c := mkCpuUserAddressSpace r true]> vm).
Proof.
  intros [[Hap Hlen] H2 H3 H4] Hl Hh [Hv Hth Hin] Hfh Hfr.
  pose proof (alter_thread_changed s f from t Hl) as Hch.
  assert (∀ x tx r', live (alter_thread f (tid_index from) s) x tx → thread_root tx = Some r' →
            (r' = r ∧ t_home_cpu tx = c) ∨ (r' ≠ r ∧ live s x tx)) as Hback.
  { intros x tx r' [[-> Hx]|[Hne Hx]]%(changed_live _ _ _ _ _ _ Hch) Hr.
    - injection Hx as <-. left. split; congruence.
    - destruct (decide (r' = r)) as [->|]; [left; split; [done|by eapply Hth]|by right]. }
  split.
  - apply vm_ok_insert; [done|]. intros _ c' u Hu Heq. by eapply Hin.
  - intros x tx r' c' u Hx Hr Hu Heq. destruct (Hback _ _ _ Hx Hr) as [[-> Hhx]|[Hne Hx']].
    + rewrite Hhx. apply list_lookup_insert_Some in Hu as [(<- & _)|[_ Hu]]; [done|by eapply Hin].
    + apply list_lookup_insert_Some in Hu as [(<- & <- & _)|[_ Hu]]; [simpl in Heq; congruence|by eapply H2].
  - intros x1 t1 x2 t2 r' Hx1 Hx2 Hr1 Hr2.
    destruct (Hback _ _ _ Hx1 Hr1) as [[-> ->]|[Hn1 L1]], (Hback _ _ _ Hx2 Hr2) as [[? ?]|[Hn2 L2]]; [congruence..|].
    by eapply H3.
  - intros x tx r' Hx Hr. destruct (Hback _ _ _ Hx Hr) as [[-> _]|[_ Hx']]; [done|by eapply H4].
Qed.

Lemma activate_free s vm a :
  roots_ok s vm → owner_cpu a = c → root_free s vm c (root_pa a) →
  activate_user_address_space (e_arch_activate E) vm (Some c) a
  = Done (inl tt, <[c := mkCpuUserAddressSpace (root_pa a) true]> vm).
Proof.
  intros [[_ Hlen] _ _ _] Ho [_ _ Hin]. destruct (lookup_lt_is_Some_2 vm c) as [x Hx]; [by rewrite Hlen|].
  unfold activate_user_address_space, vm_slot. rewrite Ho, bool_decide_true by done. simpl. rewrite Hx. simpl.
  destruct (Z.eqb_spec (installed x) (root_pa a)) as [->|Hne]; [done|].
  destruct (installed_elsewhere vm c (root_pa a)) eqn:Hel.
  { apply installed_elsewhere_spec in Hel as (c' & u' & Hu' & Hc' & Hi). by destruct Hc'; eapply Hin. }
  rewrite (ar_activate _ Harch). simpl. by rewrite list_insert_insert_eq.
Qed.

Theorem replace_user_spec w from t u a stack :
  kernel_ok N w → cur (w_sched w) c = Some from → live (w_sched w) from t → t_user t = Some u →
  owner_cpu a = c → root_free (w_sched w) (w_vm w) c (root_pa a) →
  wp (replace_current_user_resources E a stack)
     (λ r w', kernel_ok N w' ∧ frames_kept w w' ∧ r = inl u ∧
        w_sched w' = alter_thread (set_t_user (Some (mkUserThreadResources a stack))) (tid_index from) (w_sched w) ∧
        w_vm w' = <[c := mkCpuUserAddressSpace (root_pa a) true]> (w_vm w) ∧ w_active w' = w_active w) w.
Proof.
  intros [[Hs Hhw Hlk] Hsp] Hcur Hl Hu Ho Hrf.
  destruct (current_runs E Hcpu _ Hs Hcur) as (t0 & Hrn). pose proof Hrn as [_ _ Hl0 Hrun Hh].
  rewrite (live_fun _ _ _ _ Hl0 Hl) in *. pose proof (lk_roots _ _ _ Hlk) as Hroots.
  apply wp_bind. eapply wp_current_thread; [by apply (cst_lookup Hs)|]. fold (cur (w_sched w) c). rewrite Hcur.
  wp_step. eapply wp_with_sched; [exact (live_thread_at _ _ _ Hl)|]. rewrite Hu, bool_decide_true by congruence. simpl.
  wp_step. eapply wp_vm_op; [by apply (activate_free _ _ a Hroots)|]. apply wp_bind. eapply wp_thread_mut; [exact Hl|]. apply wp_ret.
  set (f := set_t_user (Some (mkUserThreadResources a stack))). set (vm' := <[c := _]> (w_vm w)).
  split_and!; [| |done|done|done|done].
  - split.
    + change (world_ok N Stable (set_w_sched (alter_thread f (tid_index from) (w_sched w)) (set_w_vm vm' w))).
      split; [|by destruct Hhw; split|].
      * eapply sched_ok_record; [done|exact Hl|split; try done; congruence| |done|by left].
        destruct (so_threads _ _ _ Hs _ _ Hl) as [? [] ? Htu ?]. split; try done. intros u' [= <-]. split; [simpl; congruence|]. by eapply Htu.
      * simpl w_sched. apply links_set_sched. apply links_thread_roots with (t:=t); try done; [by left|intros a' Ha' ? ? ?; by exists a'|].
        by apply (roots_replace _ _ from t).
    + intros c' tid t' Hon Hc Hl'. apply (changed_live _ _ _ _ _ _ (alter_thread_changed _ f from t Hl)) in Hl' as [[-> Ht']|[Hne Hl']].
      * injection Ht' as <-. pose proof (current_home _ _ _ _ Hs Hc Hl) as Hhc. rewrite <-Hhc, Hh.
        unfold space_of. simpl. apply list_lookup_insert_eq. by rewrite (proj2 (ro_apart _ _ Hroots)).
      * pose proof (Hsp c' tid t' Hon Hc Hl') as Hx. unfold vm'. simpl. rewrite list_lookup_insert_ne; [done|].
        intros <-. change (cur (w_sched w) c = Some tid) in Hc. congruence.
  - intros tid t' Hl'. unfold frame_of at 1. rewrite Hl'.
    apply (changed_live _ _ _ _ _ _ (alter_thread_changed _ f from t Hl)) in Hl' as [[-> Ht']|[Hne Hl']].
    + injection Ht' as <-. exists t. split_and!; [done|done|]. intros _. unfold frame_of. by rewrite Hl.
    + exists t'. split_and!; [done|done|]. intros _. unfold frame_of. by rewrite Hl'.
Qed.
End thread.
