(* ===== verification/SpawnSpec.v ===== *)
(** * Creating threads

    A spawn takes a free slot and publishes a ready thread on its home CPU,
    in the local queue or through the home's ingress.  The kernel invariant
    holds afterwards, the new thread starts from the context it was given, and
    no other thread is affected. *)

From stdpp Require Import gmap.
From S2P Require Import Prelude Types Wait TimeConv Deadline Preempt Context Vm Time Sched World Transition Handoff.
From S2P Require Import CpuInv SchedInv Switch Lifecycle TransitionSpec LifecycleSpec WorldInv TimeSpec.
From S2P Require Import SwitchSpec WakeSpec Frames EntrySpec BlockSpec JoinSpec ThreadSpec.

(** The scheduler with the new thread placed on its home CPU. *)
Definition placed_s (here : CpuId) (tid : ThreadId) (t : Thread) (rest : list nat) (s : Scheduler) : Scheduler :=
  let s1 := fill_s (tid_index tid) (tid_generation tid) t (set_free_slots rest s) in
  if decide (t_home_cpu t = here) then queue_local_s tid here s1 else queue_remote_s tid (t_home_cpu t) s1.

(** One thread more, with its initial frame; every other thread keeps its
    register state. *)
Definition frames_added (tid : ThreadId) (context : TrapFrame) (w w' : World) : Prop :=
  frame_of w tid = None ∧ frame_of w' tid = Some context ∧
  ∀ x t', x ≠ tid → live (w_sched w') x t' → ∃ t, live (w_sched w) x t ∧ (t_state t = Exited → t_state t' = Exited) ∧
    (t_state t' ≠ Exited → frame_of w' x = frame_of w x).

Lemma next_generation_range g : (0 <= g <= u32_max)%Z → (1 <= next_generation g <= u32_max)%Z.
Proof.
  intros Hg. unfold next_generation, u32_wrapping_add, u32_max in *.
  pose proof (Z.mod_pos_bound (g + 1) (2 ^ 32 - 1 + 1) ltac:(lia)) as Hb. destruct (Z.eqb_spec ((g + 1) `mod` (2 ^ 32 - 1 + 1)) 0); lia.
Qed.

Section spawn.
Context (E : Env) {N : nat}.
Hypothesis Hcpu : e_cpu E < KERNEL_CPU_CAPACITY.
Hypothesis Harch : arch_ok E.
Abbreviation c := (e_cpu E).

Section place.
Context {w : World} {id : nat} {rest : list nat} {slot : ThreadSlot} {stack : OwnedKernelStack}.
Context {home : CpuId} {context : TrapFrame} {user : option UserThreadResources} {joinable : bool}.
Hypothesis Hk : kernel_ok N w.
Hypothesis Hon : cs_online (cst (w_sched w) c) = true.
Hypothesis Hhome : home < KERNEL_CPU_CAPACITY.
Hypothesis Hhon : cs_online (cst (w_sched w) home) = true.
Hypothesis Hfree : free_slots (lifecycle (w_sched w)) = id :: rest.
Hypothesis Hslot : table_slots (w_sched w) !! id = Some slot.
Hypothesis Hnone : sl_thread slot = None.
Hypothesis Hstack : sl_stack slot = Some stack.
Hypothesis Huser : ∀ u, user = Some u →
  owner_cpu (ur_address_space u) = home ∧ joinable = true ∧
  root_free (w_sched w) (w_vm w) home (root_pa (ur_address_space u)).
Let gen := next_generation (sl_generation slot).
Let tid := mkThreadId id gen.
Let t := fresh_thread home joinable user (sl_next_wait_sequence slot) stack context.
Let s1 := fill_s id gen t (set_free_slots rest (w_sched w)).
Let s' := placed_s c tid t rest (w_sched w).

Lemma place_slot_ok : slot_ok slot.
Proof. eapply (sh_slots _ _ (so_shape _ _ _ (wo_sched _ _ _ (ko_world _ _ _ Hk)))), Hslot. Qed.

Lemma place_dead : table_get (w_sched w) tid = None.
Proof. by eapply free_dead. Qed.

Lemma place_fresh : thread_ok tid t.
Proof.
  pose proof place_slot_ok as [_ Hg Hq]. apply fresh_thread_ok; [done|by apply next_generation_range|done|].
  intros u Hu. by destruct (Huser u Hu) as (? & ? & _).
Qed.

Lemma place_changed : thread_changed (w_sched w) s1 tid (Some t).
Proof. intros x. unfold s1. by rewrite (table_get_fill _ _ _ _ slot). Qed.

Lemma place_shape : shape_ok N s1.
Proof.
  pose proof place_slot_ok as [_ Hg _]. pose proof (next_generation_range _ Hg).
  apply (shape_fill N (w_sched w) id gen t slot rest); [apply Hk|done..|]. unfold gen. lia.
Qed.

Lemma place_idle : is_Some (idl (w_sched w) home).
Proof.
  pose proof (so_cpu _ _ _ (wo_sched _ _ _ (ko_world _ _ _ Hk)) home Hhome) as Hinv.
  pose proof (ci_online _ _ _ _ _ Hinv Hhon) as Hin. apply (ci_initialized _ _ _ _ _ Hinv) in Hin as [[x Hx]|]; [|done].
  apply (ci_current _ _ _ _ _ Hinv) in Hx. apply (ci_home _ _ _ _ _ Hinv x). by rewrite Hx.
Qed.

Lemma place_sched : sched_ok N None s'.
Proof.
  unfold s', placed_s. cbv zeta. fold s1. simpl tid_index. simpl tid_generation. change (t_home_cpu t) with home.
  destruct (decide (home = c)) as [Hh|Hh].
  - rewrite <-Hh. apply (sched_publish_local (s:=w_sched w) (t:=t)); try done;
      [apply Hk|apply place_changed|apply place_shape|apply place_dead|apply place_fresh|apply place_idle].
  - apply (sched_publish_remote (s:=w_sched w) (t:=t)); try done;
      [apply Hk|apply place_changed|apply place_shape|apply place_dead|apply place_fresh|apply place_idle].
Qed.

Lemma place_links : links Stable s1 w.
Proof.
  eapply links_new; [apply Hk|apply place_changed|apply place_dead|done|done|].
  intros r. unfold thread_root. simpl. destruct user as [u|] eqn:Hu; [|done]. intros [= <-].
  destruct (Huser u eq_refl) as (_ & _ & [? ? ?]). split_and!; [done|done|done].
Qed.

Context {pre : ThreadId → CpuId → option AddressSpaceId → W unit}.
Hypothesis Hpre : ∀ tid' w', wp (pre tid' home (ur_address_space <$> user)) (λ _ w'', w'' = w') w'.

Lemma place_cst_local : home = c → cst s' c = set_cs_ready (ready (w_sched w) c ++ [tid]) (cst (w_sched w) c).
Proof.
  intros Hh. unfold s', placed_s. cbv zeta. change (t_home_cpu t) with home. rewrite decide_True by done.
  unfold queue_local_s. rewrite cst_alter_cpu; [by rewrite decide_True|].
  apply (here_length (wo_sched _ _ _ (ko_world _ _ _ Hk))). done.
Qed.

Lemma publish_local_spec :
  home = c →
  wp (publish E home id context user joinable gen false false pre)
     (λ _ w', world_ok N Stable w' ∧ aside w w' ∧ w_sched w' = s') (on_sched (set_free_slots rest) w).
Proof.
  intros Hh. pose proof Hk as [Hok _]. pose proof Hok as [Hs Hhw Hlk]. pose proof place_sched as Hs'.
  pose proof (place_cst_local Hh) as Hcst. assert (s' = queue_local_s tid c s1) as Heq.
  { unfold s', placed_s. cbv zeta. change (t_home_cpu t) with home. by rewrite decide_True. }
  destruct (pushable_from E Hcpu None tid (cst (w_sched w) c) Hs') as [Hpb Hi].
  { unfold ready at 1. by rewrite Hcst. } { by apply (ready_capacity Hs). }
  eapply (wp_publish_local E (w:=on_sched (set_free_slots rest) w) Hslot Hnone Hstack); [|apply Hpre|done|by apply (cst_lookup Hs)| |done|].
  { intros u Hu. by apply Huser. } { intros Hid. apply Hi. unfold idl. by rewrite Hcst. }
  assert (is_Some (time_at w c)) as Hts by (by apply (lk_time _ _ _ Hlk)).
  assert (links (Busy c false None) s' w) as Hlb.
  { rewrite Heq. apply (links_cpu c false None None); [apply links_busy, place_links| |done|auto|by intros x _ _ [_ ?]%app_nil].
    by apply (here_length Hs). }
  match goal with |- wp _ ?Q _ =>
    change (wp (wake_note E (bool_decide (ready (w_sched w) c = [])) true) Q (set_w_sched (queue_local_s tid c s1) w)) end.
  rewrite <-Heq.
  eapply wp_mono; [apply (wake_note_spec E (N:=N) Hcpu Stable true w s' tid); [by left|done|exact Hlb|done|done]|].
  intros _ w' [Hok' [Hsw Has]]. split_and!; [by eapply sched_ok_valid, Hok'|done| |by rewrite Hsw].
  destruct Has. by split.
Qed.

Lemma publish_away_spec :
  home ≠ c →
  wp (publish E home id context user joinable gen false false pre)
     (λ _ w', world_ok N Stable w' ∧ aside w w' ∧ w_sched w' = s') (on_sched (set_free_slots rest) w).
Proof.
  intros Hh. pose proof Hk as [Hok _]. pose proof Hok as [Hs Hhw Hlk]. pose proof place_sched as Hs'.
  assert (s' = queue_remote_s tid home s1) as Heq.
  { unfold s', placed_s. cbv zeta. change (t_home_cpu t) with home. by rewrite decide_False. }
  destruct (remote_pushable_from E Hcpu None tid home (remote (w_sched w) home) Hs' Hhome) as [Hnin Hlen].
  { rewrite Heq. etrans; [apply (remote_alter s1 (λ l, l ++ [tid]) home home)|by rewrite decide_True].
    by rewrite <-(sh_remote _ _ (so_shape _ _ _ Hs)) in Hhome. }
  assert (world_ok N Stable (set_w_sched s' w)) as Hok'.
  { apply (world_ok_set_sched N Stable); [done|done|done|]. rewrite Heq. by eapply links_ext; [apply place_links|..]. }
  destruct (ipi_sent_world Stable w s' home Hok') as [Hok2 Has2].
  eapply (wp_publish_away E (w:=on_sched (set_free_slots rest) w) Hslot Hnone Hstack); [|apply Hpre|done|by apply (remote_lookup Hs)|done|done| | | |].
  - intros u Hu. by apply Huser.
  - by apply (ipi_lookup Hs).
  - by apply Harch.
  - change (validates E (queue_remote_s tid home s1)). rewrite <-Heq. by eapply sched_ok_valid.
  - change (w_sched (on_sched (set_free_slots rest) w)) with (set_free_slots rest (w_sched w)). fold t gen tid.
    change (fill_s id gen t (set_free_slots rest (w_sched w))) with s1. rewrite <-Heq, set_ipi_sent by done.
    by split_and!.
Qed.

Lemma publish_spec :
  wp (publish E home id context user joinable gen false false pre)
     (λ _ w', world_ok N Stable w' ∧ aside w w' ∧ w_sched w' = s') (on_sched (set_free_slots rest) w).
Proof. destruct (decide (home = c)); [by apply publish_local_spec|by apply publish_away_spec]. Qed.

(** What the placement leaves alone, and what the new thread is. *)
Lemma place_views x tx :
  live s' x tx → x = tid ∧ tx = t ∨ x ≠ tid ∧ live (w_sched w) x tx.
Proof.
  assert (table_get s' x = table_get s1 x) as Heq by (unfold s', placed_s; cbv zeta; by destruct (decide _)).
  unfold live. rewrite Heq. intros [[-> Ht]|?]%(changed_live _ _ _ _ _ _ place_changed); [left|by right].
  by injection Ht as <-.
Qed.

Lemma place_cur c' : cur s' c' = cur (w_sched w) c' ∧ cs_online (cst s' c') = cs_online (cst (w_sched w) c').
Proof.
  unfold s', placed_s. cbv zeta. destruct (decide _); [|done]. unfold cur, queue_local_s.
  rewrite cst_alter_cpu by (by apply (here_length (wo_sched _ _ _ (ko_world _ _ _ Hk)))).
  by destruct (decide (c = c')) as [<-|].
Qed.

Lemma place_live : live s' tid t.
Proof.
  pose proof (changed_self _ _ _ _ place_changed) as Hl.
  unfold s', placed_s. cbv zeta. by destruct (decide _).
Qed.

Lemma place_kernel w' :
  world_ok N Stable w' → aside w w' → w_sched w' = s' → kernel_ok N w' ∧ frames_added tid context w w'.
Proof.
  intros Hok' Has Hsw. pose proof Hk as [[Hs _ _] Hsp]. pose proof place_sched as Hs'.
  assert (∀ c', cur (w_sched w) c' ≠ Some tid) as Hnc.
  { intros c' Hc. rewrite <-(proj1 (place_cur c')) in Hc. pose proof (current_home E Hcpu s' c' tid t Hs' Hc place_live) as Hh.
    destruct (current_live Hs' c' tid) as (t2 & Hl2 & _ & Hst); [|done|]. { rewrite <-Hh. done. }
    by rewrite (live_fun _ _ _ _ Hl2 place_live) in Hst. }
  split.
  - split; [done|]. intros c' x tx. rewrite Hsw. destruct (place_cur c') as [-> ->]. intros Hon' Hc Hl.
    destruct (place_views x tx Hl) as [[-> _]|[_ Hl0]]; [by destruct (Hnc c')|]. rewrite (as_vm _ _ Has). by eapply Hsp.
  - split_and!.
    + unfold frame_of. by rewrite place_dead.
    + unfold frame_of. rewrite Hsw, place_live. unfold on_cpu. destruct (place_cur (t_home_cpu t)) as [-> ->].
      rewrite bool_decide_false by apply Hnc. by rewrite andb_false_r.
    + intros x tx Hne. rewrite Hsw. intros Hl. destruct (place_views x tx Hl) as [[-> _]|[_ Hl0]]; [done|].
      exists tx. split_and!; [done|done|]. intros _. unfold frame_of. rewrite Hsw, Hl, Hl0, (as_active _ _ Has).
      unfold on_cpu. by destruct (place_cur (t_home_cpu tx)) as [-> ->].
Qed.

(** The publication as the two runtime transitions perform it. *)
Lemma publish_runtime_spec :
  wp (slot ← with_sched (λ s, slot_at s id);
      publish E home id context user joinable (next_generation (sl_generation slot)) false false pre;;
      with_sched (λ s, thread_id s id))
     (λ r w', r = tid ∧ kernel_ok N w' ∧ frames_added tid context w w' ∧ aside w w' ∧ w_sched w' = s')
     (on_sched (set_free_slots rest) w).
Proof.
  apply wp_bind. eapply (wp_with_sched _ _ _ slot).
  { unfold slot_at. change (table_slots (w_sched (on_sched (set_free_slots rest) w))) with (table_slots (w_sched w)). by rewrite Hslot. }
  wp_step. eapply wp_mono; [apply publish_spec|]. intros _ w' (Hok' & Has & Hsw).
  destruct (place_kernel w' Hok' Has Hsw) as [Hk' Hf'].
  eapply wp_with_sched; [|by split_and!].
  destruct (live_slot _ _ _ place_live) as (slot' & Hsl & Hg & _). rewrite Hsw. unfold thread_id, slot_at.
  change (tid_index tid) with id in Hsl. rewrite Hsl. simpl. by rewrite Hg.
Qed.
End place.

(** ** The entry points *)

(** The CPU a request resolves to: registered and online. *)
Definition resolve_s (s : Scheduler) (affinity : ThreadAffinity) : CpuId + SpawnError :=
  let target := match affinity with AffinityCurrent => c | AffinityCpu cpu => cpu end in
  if bool_decide (length (cpus s) ≤ target) || bool_decide (e_registered E ≤ target) then inr InvalidCpuAffinity
  else if cs_online (cst s target) then inl target else inr CpuOffline.

Lemma resolve_spec w affinity (Q : CpuId + SpawnError → World → Prop) :
  Q (resolve_s (w_sched w) affinity) w → wp (resolve_affinity E affinity) Q w.
Proof.
  intros HQ. unfold resolve_s in HQ. unfold resolve_affinity. cbv zeta in *.
  set (target := match affinity with AffinityCurrent => c | AffinityCpu cpu => cpu end) in *.
  wp_step. wp_step. destruct (bool_decide (length (cpus (w_sched w)) ≤ target)) eqn:Hb; simpl in *; [by apply wp_ret|].
  destruct (bool_decide (e_registered E ≤ target)); [by apply wp_ret|].
  apply bool_decide_eq_false in Hb. destruct (lookup_lt_is_Some_2 (cpus (w_sched w)) target) as [st Hst]; [lia|].
  wp_step. eapply wp_with_sched; [by apply cpu_state_done|]. unfold cst in HQ. rewrite Hst in HQ. simpl in HQ.
  destruct (cs_online st); by apply wp_ret.
Qed.

Lemma resolve_home s affinity home :
  sched_ok N None s → resolve_s s affinity = inl home →
  home < KERNEL_CPU_CAPACITY ∧ cs_online (cst s home) = true.
Proof.
  intros Hs. unfold resolve_s. cbv zeta. set (target := match affinity with AffinityCurrent => c | AffinityCpu cpu => cpu end).
  rewrite (sh_cpus _ _ (so_shape _ _ _ Hs)). case_bool_decide as Hb; [done|]. simpl. destruct (bool_decide _); [done|].
  destruct (cs_online (cst s target)) eqn:Ho; [|done]. intros [= <-]. split; [lia|done].
Qed.

Lemma free_slot w id rest :
  kernel_ok N w → free_slots (lifecycle (w_sched w)) = id :: rest →
  ∃ slot stack, table_slots (w_sched w) !! id = Some slot ∧ sl_thread slot = None ∧ sl_stack slot = Some stack.
Proof.
  intros Hk Hf. pose proof (so_shape _ _ _ (wo_sched _ _ _ (ko_world _ _ _ Hk))) as Hsh.
  destruct (proj1 (sh_free _ _ Hsh id)) as (slot & Hsl & Hn); [rewrite Hf; by left|].
  destruct (sl_stack slot) as [stack|] eqn:Hst; [by exists slot, stack|].
  apply (sk_stack _ (sh_slots _ _ Hsh _ _ Hsl)) in Hst as [? ?]. congruence.
Qed.

(** What a spawn does to a scheduler. *)
Definition spawned (context : Z → TrapFrame) (user : option UserThreadResources) (attrs : ThreadAttrs)
    (home : CpuId) (w : World) (r : option ThreadId) (w' : World) : Prop :=
  match free_slots (lifecycle (w_sched w)) with
  | [] => r = None ∧ w' = w
  | id :: rest => ∃ slot stack,
      table_slots (w_sched w) !! id = Some slot ∧ sl_stack slot = Some stack ∧
      let tid := mkThreadId id (next_generation (sl_generation slot)) in
      let frame := context (stack_top_of stack) in
      let t := fresh_thread home (at_joinable attrs) user (sl_next_wait_sequence slot) stack frame in
      r = Some tid ∧ frames_added tid frame w w' ∧ w_sched w' = placed_s c tid t rest (w_sched w)
  end.

(** From the resolved CPU on. *)
Definition spawn_from {A} (home : CpuId) (mk : Z → W TrapFrame) (user : option UserThreadResources) (attrs : ThreadAttrs)
    (pre : ThreadId → CpuId → option AddressSpaceId → W unit) (fail : A) (ok : ThreadId → A) : W A :=
  slot ← take_free_slot;
  match slot with
  | None => mret fail
  | Some id =>
      top ← with_sched (λ s, stack_top s id);
      frame ← mk top;
      tid ← (slot ← with_sched (λ s, slot_at s id);
             publish E home id frame user (at_joinable attrs) (next_generation (sl_generation slot)) false false pre;;
             with_sched (λ s, thread_id s id));
      mret (ok tid)
  end.

Lemma spawn_tail_spec {A} w home context (mk : Z → W TrapFrame) user attrs pre (fail : A) (ok : ThreadId → A) :
  kernel_ok N w → cs_online (cst (w_sched w) c) = true → home < KERNEL_CPU_CAPACITY →
  cs_online (cst (w_sched w) home) = true →
  (∀ top w', w_active w' = w_active w → wp (mk top) (λ f w'', f = context top ∧ w'' = w') w') →
  (∀ tid' w', wp (pre tid' home (ur_address_space <$> user)) (λ _ w'', w'' = w') w') →
  (∀ u, user = Some u → owner_cpu (ur_address_space u) = home ∧ at_joinable attrs = true ∧
      root_free (w_sched w) (w_vm w) home (root_pa (ur_address_space u))) →
  wp (spawn_from home mk user attrs pre fail ok)
     (λ r w', kernel_ok N w' ∧ aside w w' ∧
        ∃ o, r = (match o with None => fail | Some tid => ok tid end) ∧ spawned context user attrs home w o w') w.
Proof.
  intros Hk Hon Hh Hhon Hmk Hpre Hu. unfold spawned, spawn_from. wp_step. apply wp_bind. wp_step.
  destruct (free_slots (lifecycle (w_sched w))) as [|id rest] eqn:Hfree.
  { apply wp_ret. apply wp_ret. split_and!; [done|done|]. by exists None. }
  destruct (free_slot w id rest Hk Hfree) as (slot & stack & Hsl & Hn & Hst).
  assert (stack_top (set_free_slots rest (w_sched w)) id = Done (stack_top_of stack)) as Htop.
  { unfold stack_top, slot_at. change (table_slots (set_free_slots rest (w_sched w))) with (table_slots (w_sched w)).
    rewrite Hsl. simpl. by rewrite Hn, Hst. }
  wp_step. apply wp_modify. apply wp_ret. wp_step. eapply (wp_with_sched _ _ _ (stack_top_of stack)); [exact Htop|].
  wp_step. eapply wp_mono; [by apply Hmk|]. intros frame w1 [-> ->]. wp_step.
  eapply wp_mono; [by apply (publish_runtime_spec Hk Hon Hh Hhon Hfree Hsl Hn Hst Hu Hpre)|].
  intros tid w' (-> & Hk' & Hf' & Has & Hsw). apply wp_ret. split_and!; [done|done|].
  eexists (Some _). split; [done|]. exists slot, stack. by split_and!.
Qed.
(** A kernel thread: retired threads are finalized first. *)
Theorem spawn_thread_spec w from t entry arg attrs :
  kernel_ok N w → preemptible E (w_sched w) from t →
  wp (spawn_thread E entry arg attrs)
     (λ r w', kernel_ok N w' ∧ beside w w' ∧ ∃ w1, frames_kept w w1 ∧ w_sched w1 = finalize_s c (w_sched w) ∧
        match resolve_s (w_sched w1) (at_affinity attrs) with
        | inr e => r = inr e ∧ w' = w1
        | inl home => ∃ o, r = (match o with None => inr NoThreadSlots | Some tid => inl tid end) ∧
            spawned (λ top, kernel_entry top entry arg (e_bootstrap_pc E)) None attrs home w1 o w'
        end) w.
Proof.
  intros Hk Hp. pose proof (wo_sched _ _ _ (ko_world _ _ _ Hk)) as Hs0.
  apply wp_bind. eapply wp_mono; [apply (finalize_kernel_spec E (N:=N) Hcpu Harch w Hk (pr_online _ _ _ _ Hp))|].
  intros _ w1 (Hk1 & Hf1 & Has1 & Hsw1). pose proof (wo_sched _ _ _ (ko_world _ _ _ Hk1)) as Hs1.
  assert (preemptible E (w_sched w1) from t) as Hp1 by (rewrite Hsw1; by apply (finalize_preemptible E (N:=N))).
  wp_step. apply resolve_spec. destruct (resolve_s (w_sched w1) (at_affinity attrs)) as [home|e] eqn:Hr.
  - destruct (resolve_home _ _ _ Hs1 Hr) as [Hh Hhon].
    match goal with |- wp _ ?Q _ => change (wp (spawn_from home (λ top, mret (kernel_entry top entry arg (e_bootstrap_pc E)))
      None attrs no_pre_ready (inr NoThreadSlots) inl) Q w1) end.
    eapply wp_mono; [apply (spawn_tail_spec w1 home (λ top, kernel_entry top entry arg (e_bootstrap_pc E))
      (λ top, mret (kernel_entry top entry arg (e_bootstrap_pc E))) None attrs no_pre_ready (inr NoThreadSlots) inl Hk1 (pr_online _ _ _ _ Hp1) Hh Hhon); try done|].
    intros r w' (Hk' & Has' & o & -> & Hsp). split_and!; [done|etrans; by apply aside_beside|].
    exists w1. rewrite Hr. split_and!; [done|done|]. by exists o.
  - apply wp_ret. split_and!; [done|by apply aside_beside|]. exists w1. by rewrite Hr.
Qed.

(** The outcome of a user spawn. *)
Definition user_spawned (context : Z → TrapFrame) (a : AddressSpaceId) (stack : OwnedUserStack) (attrs : ThreadAttrs)
    (w : World) (r : ThreadId + SpawnError * OwnedUserStack) (w' : World) : Prop :=
  match resolve_s (w_sched w) (at_affinity attrs) with
  | inr e => r = inr (e, stack) ∧ w' = w
  | inl home =>
      if at_joinable attrs
      then ∃ o, r = (match o with None => inr (NoThreadSlots, stack) | Some tid => inl tid end) ∧
                spawned context (Some (mkUserThreadResources a stack)) attrs home w o w'
      else r = inr (UserThreadMustBeJoinable, stack) ∧ w' = w
  end.

(** A user thread, built from its entry point or from the caller's frame. *)
Lemma spawn_user_with_spec w (mk : Z → W TrapFrame) context a stack attrs pre :
  kernel_ok N w → cs_online (cst (w_sched w) c) = true →
  (∀ top w', w_active w' = w_active w → wp (mk top) (λ f w'', f = context top ∧ w'' = w') w') →
  (∀ tid' home a w', wp (pre tid' home a) (λ _ w'', w'' = w') w') →
  (∀ home, resolve_s (w_sched w) (at_affinity attrs) = inl home →
     owner_cpu a = home ∧ root_free (w_sched w) (w_vm w) home (root_pa a)) →
  wp (spawn_user_with E mk a stack attrs pre)
     (λ r w', kernel_ok N w' ∧ aside w w' ∧
        user_spawned context a stack attrs w r w') w.
Proof.
  intros Hk Hon Hmk Hpre Ha. unfold user_spawned. pose proof (wo_sched _ _ _ (ko_world _ _ _ Hk)) as Hs.
  apply wp_bind, resolve_spec. destruct (resolve_s (w_sched w) (at_affinity attrs)) as [home|e] eqn:Hr; [|by apply wp_ret].
  destruct (resolve_home _ _ _ Hs Hr) as [Hh Hhon]. destruct (Ha home eq_refl) as [Ho Hrf].
  destruct (at_joinable attrs) eqn:Hj; simpl; [|by apply wp_ret].
  eapply wp_mono; [rewrite <-Hj; apply (spawn_tail_spec w home context mk (Some (mkUserThreadResources a stack)) attrs
     (λ thread home aspace, a ← expect aspace "sched: pre-ready publication callback requires a user thread"; pre thread home a)
     (inr (NoThreadSlots, stack)) inl Hk Hon Hh Hhon); try done|].
  - intros tid' w'. apply wp_bind, wp_ret, Hpre.
  - intros u [= <-]. by split_and!.
  - intros r w' (Hk' & Has' & o & -> & Hsp). split_and!; [done|done|]. by exists o.
Qed.
Theorem spawn_user_thread_spec w a stack entry user_sp arg0 attrs pre :
  kernel_ok N w → cs_online (cst (w_sched w) c) = true →
  (∀ tid' home a w', wp (pre tid' home a) (λ _ w'', w'' = w') w') →
  (∀ home, resolve_s (w_sched w) (at_affinity attrs) = inl home →
     owner_cpu a = home ∧ root_free (w_sched w) (w_vm w) home (root_pa a)) →
  wp (spawn_user_thread E a stack entry user_sp arg0 attrs pre)
     (λ r w', kernel_ok N w' ∧ aside w w' ∧
        user_spawned (λ top, user_entry entry user_sp top arg0) a stack attrs w r w') w.
Proof. intros Hk Hon Hpre Ha. apply spawn_user_with_spec; try done. Qed.

(** The child of a fork runs on a copy of the parent's live frame. *)
Theorem spawn_user_from_context_spec w parent a stack attrs pre :
  kernel_ok N w → cs_online (cst (w_sched w) c) = true → w_active w !! c = Some parent →
  (∀ tid' home a w', wp (pre tid' home a) (λ _ w'', w'' = w') w') →
  (∀ home, resolve_s (w_sched w) (at_affinity attrs) = inl home →
     owner_cpu a = home ∧ root_free (w_sched w) (w_vm w) home (root_pa a)) →
  wp (spawn_user_thread_from_context E a stack attrs pre)
     (λ r w', kernel_ok N w' ∧ aside w w' ∧ user_spawned (fork_child parent) a stack attrs w r w') w.
Proof.
  intros Hk Hon Hpar Hpre Ha. apply spawn_user_with_spec; try done. intros top w' Hac.
  apply wp_bind. eapply wp_reads; [by rewrite Hac, Hpar|]. by apply wp_ret.
Qed.
End spawn.
