(* ===== verification/TimerSpec.v ===== *)
(** * The timer interrupt

    The interrupt takes the due events of its CPU, lets the scheduler
    dispatch them and settles the quantum.  Every due wait is completed, a
    running thread whose quantum expired gives way, and the direct wake out of
    the idle thread has exactly the effect of the queued path. *)

From stdpp Require Import gmap.
From S2P Require Import Prelude Types Wait TimeConv Deadline Preempt Context Vm Time Sched World Transition Handoff.
From S2P Require Import CpuInv SchedInv Switch Lifecycle TransitionSpec LifecycleSpec WorldInv TimeSpec.
From S2P Require Import SwitchSpec WakeSpec Frames EntrySpec JoinSpec.

(** ** The scheduler effect of a batch *)

Definition dispatch_s (here : CpuId) (evs : list TimedEvent) (s : Scheduler) : Scheduler :=
  foldl (λ s ev, match ev with
                 | WaitDeadline _ tok => (complete_s here tok Timeout s).2
                 | QuantumExpired _ _ => s
                 end) s evs.

(** ** Joiners along completions *)

Lemma complete_joined_back here tok cause s tok' :
  joined (complete_s here tok cause s).2 tok' → joined s tok'.
Proof.
  unfold complete_s. destruct (table_get s (wt_thread tok)) as [t|]; [|done].
  destruct (complete (t_wait t) tok cause) as [[] wm]; simpl; try done.
  - by apply joined_alter.
  - unfold wake_s. destruct (decide _); by apply joined_alter.
Qed.

Lemma released_joined x s tok : joined (release_s x s) tok → joined s tok.
Proof.
  intros (y & ty & Hy & Hj). exists y, ty. split; [|done]. revert Hy.
  unfold live, table_get, release_s, table_slots. simpl. destruct (decide (tid_index x = tid_index y)) as [<-|Hne].
  - rewrite list_lookup_alter_eq. destruct (slots (lifecycle s) !! tid_index x) as [slot|]; [|done]. simpl.
    destruct (sl_thread slot) eqn:Ht; simpl; [by destruct (decide _)|]. by rewrite Ht.
  - by rewrite list_lookup_alter_ne.
Qed.

Lemma unretired_joined x c s tok : joined (unretire_s x c s) tok → joined s tok.
Proof.
  intros (y & ty & Hy & Hj). revert Hy. unfold live, unretire_s. rewrite table_get_alter.
  destruct (decide _); [|intros Hy; by exists y, ty]. intros (t0 & _ & ->)%fmap_Some. done.
Qed.

Lemma finalize_joined here s tok : joined (finalize_s here s) tok → joined s tok.
Proof.
  unfold finalize_s. destruct (ret s here) as [x|]; [|done]. destruct (table_get s x) as [t|]; [|done].
  assert (joined (if t_joinable t then unretire_s x here s else release_s x (alter_cpu (set_cs_retired None) here s)) tok
          → joined s tok) as Hplain.
  { destruct (t_joinable t); [apply unretired_joined|]. by intros Hj%released_joined. }
  destruct (t_joiner t) as [jt|], (t_exit_code t) as [code|]; try done.
  unfold deliver_s. intros Hj. apply joined_alter, released_joined, joined_alter in Hj; [|done..].
  by eapply unretired_joined, complete_joined_back.
Qed.

Section timer.
Context (E : Env) {N : nat}.
Hypothesis Hcpu : e_cpu E < KERNEL_CPU_CAPACITY.
Hypothesis Harch : arch_ok E.
Abbreviation c := (e_cpu E).
Abbreviation busy_mode ex := (Busy c true ex).

(** ** Taking the due events *)

Lemma hw_ok_dispatch w ts0 ts hw :
  hw_ok Stable w → time_at w c = Some ts0 → time_dispatching c EVENT_CAPACITY ts →
  hw_ok (busy_mode None) (time_upd E c ts hw w).
Proof.
  intros [H1 H2 H3 H4 H5] Hs Hts. split; try done.
  - unfold time_upd. simpl. by rewrite length_insert.
  - unfold time_upd. simpl. by rewrite length_insert.
  - intros c' ts'. rewrite (time_at_upd E c ts hw w c' ts0 Hs). simpl. destruct (decide (c' = c)) as [->|Hne].
    + intros [= <-]. split; [|done]. by intros [].
    + intros Hts'. destruct (H5 c' ts' Hts') as [Ha _]. split; [|simpl; congruence]. intros _.
      rewrite list_lookup_insert_ne by done. apply Ha. by intros [].
Qed.

(** The events of a batch: local, no longer pending, and not of a join. *)
Definition taken (w : World) (evs : list TimedEvent) : Prop :=
  ∀ ev, ev ∈ evs → match ev with
                   | WaitDeadline c' tok => c' = c ∧ wt_cpu tok = c ∧ ¬ joined (w_sched w) tok ∧
                                            ¬ pending w (wt_cpu tok) (wait_deadline tok)
                   | QuantumExpired c' _ => c' = c
                   end.

Lemma taken_mono w w' evs :
  taken w evs → (∀ tok, joined (w_sched w') tok → joined (w_sched w) tok) →
  (∀ c' tok, events w' c !! WaitDeadline c' tok = events w c !! WaitDeadline c' tok) → taken w' evs.
Proof.
  intros Ht Hj He ev Hev. specialize (Ht ev Hev). destruct ev as [c' tok|]; [|done].
  destruct Ht as (? & Htc & Hnj & Hnp). split_and!; [done|done|by intros ?%Hj|].
  rewrite Htc in *. unfold pending, wait_deadline in *. by rewrite He.
Qed.

Lemma take_expired_world w ts now :
  kernel_ok N w → time_at w c = Some ts →
  wp (with_time_mut E c (ts_take_expired c now))
     (λ e w', ∃ es, kernel_at N (busy_mode None) w' ∧ buffer_holds EVENT_CAPACITY e (de_event <$> es) ∧
        due_entries (events w c) now es ∧ taken w' (de_event <$> es) ∧
        retimed c (not_due now (events w c)) w w') w.
Proof.
  intros [[Hs Hhw Hlk] Hsp] Hts. destruct (hw_timer_some E Stable w Hhw Hcpu) as [hw Hhw0].
  destruct (hw_clock _ _ Hhw _ _ Hts) as [Hok _]. destruct (Hok ltac:(by intros [])) as [Hok1 Harm].
  eapply (wp_with_time E _ _ _ ts hw); [done..|by apply (ts_take_expired_spec c EVENT_CAPACITY now ts hw)|].
  intros e ts' hw' (es & Hd & Hh & Hb & Hdue & Hev). cbn [fst snd] in *. subst hw'. exists es. rewrite (events_at c ts Hts).
  assert (retimed c (not_due now (ts_events ts)) w (time_upd E c ts' hw w)) as Hrt.
  { rewrite <-Hev. by eapply retimed_upd. }
  assert (∀ ev, is_Some (not_due now (ts_events ts) !! ev) → pending w c ev) as Hsub.
  { intros ev [d [Hl _]%map_lookup_filter_Some]. exists d. by rewrite (events_at c ts Hts). }
  split_and!; [|done|done| |done].
  - split; [|apply Hsp]. split; [apply Hs|by eapply hw_ok_dispatch|].
    eapply (links_retimed _ _ _ _ _ _ _ Hlk Hrt); [done|done| | |done|].
    + intros c' tok Hp%Hsub. destruct (lk_wait _ _ _ Hlk c c' tok Hp) as (-> & Htc & Hw). do 3 (split; [done|]).
      intros Hj. apply (lk_joiner _ _ _ Hlk tok c Hj). unfold wait_deadline. by rewrite Htc.
    + intros c' x Hp%Hsub. destruct (lk_quantum _ _ _ Hlk c c' x Hp) as [-> [|[]]]. by split; [|left].
    + intros x Hp%Hsub. by apply (lk_peer _ _ _ Hlk).
  - intros ev ([d ev'] & -> & He)%list_elem_of_fmap. apply Hdue in He as [Hin Hle]. cbn [de_event de_deadline] in *.
    assert (pending w c ev') as Hp by (exists d; by rewrite (events_at c ts Hts)). destruct ev' as [c' tok|c' x].
    + destruct (lk_wait _ _ _ Hlk c c' tok Hp) as (-> & Htc & Hw). split_and!; [done|done| |].
      * intros Hj. apply (lk_joiner _ _ _ Hlk tok c Hj). unfold wait_deadline. by rewrite Htc.
      * unfold pending, wait_deadline. rewrite Htc, (rt_events _ _ _ _ Hrt), decide_True by done.
        intros [d' [Hl Hlt]%map_lookup_filter_Some]. simpl in Hlt. rewrite Hin in Hl. injection Hl as <-. lia.
    + by destruct (lk_quantum _ _ _ Hlk c c' x Hp) as [-> _].
Qed.
(** ** Closing the interrupt *)

(** The quantum update is right for the machine it closes: the thread that
    left loses its quantum, and the running thread has one if it has a peer. *)
Record update_ok (w : World) (ex : option ThreadId) (q : QuantumUpdate) : Prop := {
  uo_left : ∀ x, ex = Some x → pending w c (quantum_expired c x) → cur (w_sched w) c ≠ Some x →
    qu_obsolete q = Some (quantum_expired c x);
  uo_obsolete : ∀ ev, qu_obsolete q = Some ev → ∃ x, ev = quantum_expired c x;
  uo_ensure : match qu_ensure q with
              | Some (_, ev) => ∃ t, cur (w_sched w) c = Some t ∧ ev = quantum_expired c t ∧ ready (w_sched w) c ≠ []
              | None => cs_online (cst (w_sched w) c) = true → ready (w_sched w) c = []
              end
}.

Lemma obsolete_lookup o m ev :
  obsolete_events o m !! ev = if decide (o = Some ev) then None else m !! ev.
Proof.
  destruct o as [ev'|]; simpl; [|done]. destruct (decide (Some ev' = Some ev)) as [[= ->]|Hne].
  - by rewrite lookup_delete_eq.
  - by rewrite lookup_delete_ne by congruence.
Qed.

Lemma ensure_lookup ens m ev :
  is_Some (ensure_events ens m !! ev) ↔ is_Some (m !! ev) ∨ ∃ d, ens = Some (d, ev).
Proof.
  destruct ens as [[d ev']|]; simpl; [|naive_solver]. destruct (decide (is_Some (m !! ev'))) as [Hs|Hn].
  - split; [by left|]. intros [?|[? [= _ ->]]]; done.
  - rewrite lookup_insert_is_Some'. naive_solver.
Qed.

Lemma hw_ok_finish w ex ts0 ts :
  hw_ok (busy_mode ex) w → time_at w c = Some ts0 → time_ok c EVENT_CAPACITY ts →
  hw_ok Stable (time_upd E c ts (ts_armed ts) w).
Proof.
  intros [H1 H2 H3 H4 H5] Hs Hts. split; try done.
  - unfold time_upd. simpl. by rewrite length_insert.
  - unfold time_upd. simpl. by rewrite length_insert.
  - intros c' ts'. rewrite (time_at_upd E c ts _ w c' ts0 Hs). simpl. destruct (decide (c' = c)) as [->|Hne].
    + intros [= <-]. split; [|done]. intros _. split; [done|]. apply list_lookup_insert_eq. by rewrite H3.
    + intros Hts'. destruct (H5 c' ts' Hts') as [Ha _]. split; [|done]. intros _.
      rewrite list_lookup_insert_ne by done. apply Ha. simpl. congruence.
Qed.

Lemma finish_interrupt_world w ex q e ts :
  kernel_at N (busy_mode ex) w → time_at w c = Some ts → length (ee_entries e) = EVENT_CAPACITY → update_ok w ex q →
  wp (with_time_mut E c (ts_finish_interrupt q e)) (λ _ w', kernel_ok N w' ∧ quiet w w') w.
Proof.
  intros [[Hs Hhw Hlk] Hsp] Hts Hlen [Hleft Hobs Hens]. destruct q as [obs ens]. cbn [qu_obsolete qu_ensure] in *.
  destruct (hw_timer_some E _ w Hhw Hcpu) as [hw Hhw0].
  destruct (hw_clock _ _ Hhw _ _ Hts) as [_ Hd]. specialize (Hd eq_refl).
  eapply (wp_with_time E _ _ _ ts hw); [done..| |].
  { apply (ts_finish_interrupt_spec c EVENT_CAPACITY ts hw obs ens e Hd Hlen).
    intros d ev ->. destruct Hens as (t & _ & -> & _). split; [done|]. intros _.
    pose proof (events_bound (c:=c) Hs Hlk) as Hb. rewrite (events_at c ts Hts) in Hb.
    eapply Nat.le_lt_trans; [apply size_obsolete_le|exact Hb]. }
  intros _ ts' hw' (Hok' & Hh & Hev). cbn [fst snd] in *. subst hw'.
  set (evs := ensure_events ens (obsolete_events obs (ts_events ts))) in *.
  assert (retimed c evs w (time_upd E c ts' (ts_armed ts') w)) as Hrt by (rewrite <-Hev; by eapply retimed_upd).
  assert (∀ ev, is_Some (evs !! ev) ↔ (obs ≠ Some ev ∧ pending w c ev) ∨ ∃ d, ens = Some (d, ev)) as Hl.
  { intros ev. unfold evs. rewrite ensure_lookup, obsolete_lookup. unfold pending. rewrite (events_at c ts Hts).
    destruct (decide (obs = Some ev)); naive_solver. }
  assert (∀ c' tok, evs !! WaitDeadline c' tok = events w c !! WaitDeadline c' tok) as Hwaits.
  { intros c' tok. unfold evs. rewrite (events_at c ts Hts). destruct ens as [[d ev]|]; simpl.
    - destruct Hens as (t & _ & -> & _). destruct (decide _); rewrite ?lookup_insert_ne by done; rewrite obsolete_lookup;
        rewrite decide_False; [done| |done|]; intros Ho; by destruct (Hobs _ Ho).
    - rewrite obsolete_lookup. rewrite decide_False; [done|]. intros Ho; by destruct (Hobs _ Ho). }
  split; [|by apply (retimed_quiet _ _ _ _ Hrt)]. split; [|apply Hsp].
  split; [apply Hs|by eapply hw_ok_finish|].
  eapply (links_retimed _ _ _ _ _ _ _ Hlk Hrt).
  - simpl. congruence.
  - intros c' t Hne. simpl. destruct ex; naive_solver.
  - intros c' tok. rewrite Hwaits. intros Hp.
    destruct (lk_wait _ _ _ Hlk c c' tok Hp) as (-> & Htc & Hw). do 3 (split; [done|]).
    intros Hj. apply (lk_joiner _ _ _ Hlk tok c Hj). unfold wait_deadline. by rewrite Htc.
  - intros c' x [[Ho Hp]|[d ->]]%Hl.
    + destruct (lk_quantum _ _ _ Hlk c c' x Hp) as [-> Hx]. split; [done|]. left. destruct Hx as [|Hx]; [done|].
      simpl in Hx. destruct ex as [y|]; [|done]. destruct Hx as [_ ->].
      destruct (decide (cur (w_sched w) c = Some x)) as [|Hnx]; [done|]. destruct Ho. by apply Hleft.
    + destruct Hens as (t & Hc & Heq & _). unfold quantum_expired in Heq. simplify_eq. auto.
  - intros t _ Hon Hc Hr. apply Hl. destruct ens as [[d ev]|]; [|by destruct Hr, Hens]. right. exists d.
    destruct Hens as (t' & Hc' & -> & _). congruence.
  - intros t [[Ho Hp]|[d ->]]%Hl Hc; [by apply (lk_peer _ _ _ Hlk c t)|]. by destruct Hens as (? & _ & _ & ?).
Qed.
(** ** Dispatching a batch *)

(** A completion leaves the running thread preemptible. *)
Lemma complete_preemptible s from t tok cause :
  sched_ok N None s → preemptible E s from t → preemptible E (complete_s c tok cause s).2 from t.
Proof.
  intros Hs [Hon Hcur Hl Hp]. destruct (complete_keeps Hs Hcpu tok cause) as [_ Hc]. destruct (Hc c) as (Hc1 & _ & Hc3).
  destruct (current_live Hs c from Hcpu Hcur) as (t0 & Hl0 & _ & Hrun). rewrite (live_fun _ _ _ _ Hl0 Hl) in *.
  split; [congruence|congruence| |done]. unfold complete_s.
  destruct (table_get s (wt_thread tok)) as [tx|] eqn:Hx; [|done].
  destruct (complete_cases (t_wait tx) tok cause) as [->|[->|(a & Ha & Htok & [[Hph ->]|(Hph & wm & -> & Hwk)])]]; try done.
  - simpl. apply (live_alter_other (set_t_wait _) (wt_thread tok)); [|done]. intros Heq.
    pose proof (live_index_inj _ _ _ _ _ Hl Hx Heq) as ->. rewrite (live_fun _ _ _ _ Hl Hx) in Hp.
    unfold wait_is_prepared in Hp. rewrite Ha in Hp. destruct a. simpl in *. by rewrite Hph in Hp.
  - simpl. apply wake_s_other; [|done]. intros Heq. pose proof (live_index_inj _ _ _ _ _ Hl Hx Heq) as ->.
    rewrite (live_fun _ _ _ _ Hl Hx) in *.
    assert (t_state tx = Blocked); [|congruence]. apply (tk_wait _ _ (so_threads _ _ _ Hs _ _ Hx)).
    unfold wait_is_blocked. rewrite Ha. destruct a. simpl in *. by rewrite Hph.
Qed.

Lemma dispatch_event_spec w ev :
  kernel_at N (busy_mode None) w → taken w [ev] →
  wp (dispatch_event E ev)
     (λ _ w', kernel_at N (busy_mode None) w' ∧ frames_kept w w' ∧ aside w w' ∧
              w_sched w' = dispatch_s c [ev] (w_sched w)) w.
Proof.
  intros Hk Ht. pose proof Hk as [Hok Hsp]. pose proof (wo_sched _ _ _ Hok) as Hs. specialize (Ht ev ltac:(by left)).
  destruct ev as [c' tok|c' x]; simpl.
  - destruct Ht as (-> & Htc & Hnj & Hnp). apply wp_bind. wp_step; [by rewrite !bool_decide_true|].
    wp_step. eapply wp_mono; [apply (complete_spec E (N:=N) Hcpu Harch (busy_mode None) false w tok Timeout); [by right; eauto|done..]|].
    intros r w' (Hok' & Has & Hsw). apply wp_ret. destruct (complete_keeps Hs Hcpu tok Timeout) as [Hkp Hc].
    rewrite <-Hsw in *. simpl in *. split_and!; [|by apply frames_keeps; [..|apply Has]|done|done].
    split; [done|]. intros c1. destruct (Hc c1) as (Hc1 & _ & Hc2).
    eapply space_keeps; [exact Hkp|done|done| |apply Hsp]. by rewrite (as_vm _ _ Has).
  - subst c'. apply wp_bind. wp_step; [by rewrite bool_decide_true|].
    apply wp_bind. eapply wp_current_thread; [by apply (cst_lookup Hs)|]. destruct (decide _).
    + apply (request_reschedule_spec E (N:=N) Hcpu (busy_mode None) w); [done|]. intros w' Hok' [Hsw Has].
      split_and!; [|by apply frames_keeps; rewrite ?Hsw; [..|apply Has]|done|done].
      split; [done|]. intros c1. rewrite Hsw, (as_vm _ _ Has). apply Hsp.
    + by apply wp_ret.
Qed.

Lemma dispatch_events_spec w evs from t :
  kernel_at N (busy_mode None) w → taken w evs → preemptible E (w_sched w) from t →
  wp (dispatch_events E evs)
     (λ _ w', kernel_at N (busy_mode None) w' ∧ frames_kept w w' ∧ aside w w' ∧
              w_sched w' = dispatch_s c evs (w_sched w) ∧ preemptible E (w_sched w') from t) w.
Proof.
  revert w. induction evs as [|ev evs IH]; intros w Hk Ht Hp; [by apply wp_ret|].
  apply wp_bind. eapply wp_mono; [apply (dispatch_event_spec w ev Hk); intros x Hx%list_elem_of_singleton; subst; apply Ht; by left|].
  intros _ w1 (Hk1 & Hf1 & Has1 & Hsw1). eapply wp_mono; [apply (IH w1 Hk1)|].
  - apply (taken_mono w); [intros x Hx; apply Ht; by right| |intros; apply Has1].
    intros tok. rewrite Hsw1. destruct ev; simpl; [apply complete_joined_back|done].
  - rewrite Hsw1. destruct ev; simpl; [|done]. apply complete_preemptible; [apply Hk|done].
  - intros _ w2 (Hk2 & Hf2 & Has2 & Hsw2 & Hp2). split_and!; [done|by etrans|by eapply aside_trans| |done].
    rewrite Hsw2, Hsw1. done.
Qed.
(** ** The batched path *)

Lemma kernel_at_quiet m w w' :
  kernel_at N m w → world_ok N m w' → quiet w w' → kernel_at N m w' ∧ frames_kept w w'.
Proof.
  intros [_ Hsp] Hok' [Hsw Has]. split.
  - split; [done|]. intros c'. rewrite Hsw, (as_vm _ _ Has). apply Hsp.
  - by apply frames_keeps; rewrite ?Hsw; [..|apply Has].
Qed.

Lemma online_current s : sched_ok N None s → cs_online (cst s c) = true → ∃ x, cur s c = Some x.
Proof.
  intros Hs Hon. pose proof (so_cpu _ _ _ Hs c Hcpu) as Hinv.
  pose proof (ci_online _ _ _ _ _ Hinv Hon) as Hin. by apply (ci_initialized _ _ _ _ _ Hinv) in Hin as [[x Hx]|]; [exists x|].
Qed.

Lemma round_robin_online frame s s' :
  sched_ok N None s → round_robin E frame s s' → cs_online (cst s' c) = cs_online (cst s c).
Proof.
  intros Hs. unfold round_robin. destruct (cur s c) as [from|]; [|by intros ->]. destruct (ready s c); [by intros ->|].
  intros ->. apply online_switched. by apply (here_length Hs).
Qed.

(** The checkpoint at the end of a batch, continued. *)
Lemma batch_checkpoint_spec {A} w from t (k : bool → W A) Q :
  kernel_at N (busy_mode None) w → preemptible E (w_sched w) from t →
  (∀ b ex w', kernel_at N (busy_mode ex) w' → (ex = None ∨ b = true ∧ ex = Some from) → frames_kept w w' → beside w w' →
     cs_online (cst (w_sched w') c) = true → checkpointed E (depth_of w c) (w_sched w) (w_sched w') → wp (k b) Q w') →
  wp (st ← local_state E;
      checkpoint ← consume_checkpoint_on E c (cs_online st);
      (if checkpoint : bool then handoff_optional E else mret tt);;
      k checkpoint) Q w.
Proof.
  intros Hk Hp HQ. pose proof Hk as [Hok Hsp]. pose proof (wo_sched _ _ _ Hok) as Hs.
  apply wp_bind. eapply wp_local_state; [by apply (cst_lookup Hs)|]. wp_step.
  apply (consume_checkpoint_spec E (N:=N) Hcpu (busy_mode None) w); [done|]. intros b w1 Hok1 Hq1 Hb1.
  destruct (kernel_at_quiet _ _ _ Hk Hok1 Hq1) as [Hk1 Hf1]. destruct Hq1 as [Hsw1 Has1]. destruct b.
  - wp_step. eapply wp_mono; [apply (handoff_optional_spec E (N:=N) Hcpu Harch true w1 from t Hk1); by rewrite Hsw1|].
    intros _ w2 (ex & frame & Hk2 & Hex & Hf2 & Hpe & Hti & _ & Hrr). rewrite Hsw1 in Hrr.
    apply (HQ true ex w2); [done|naive_solver|by etrans| | |].
    + etrans; [by apply aside_beside|]. by apply beside_same.
    + rewrite (round_robin_online _ _ _ Hs Hrr). apply Hp.
    + right. split; [by apply Hb1|by exists frame].
  - wp_step. apply wp_ret. apply (HQ false None w1); [done|by left|done|by apply aside_beside| |by left].
    rewrite Hsw1. apply Hp.
Qed.

Lemma timer_batch_spec w now from t evs :
  kernel_at N (busy_mode None) w → taken w evs → preemptible E (w_sched w) from t →
  wp (finish_timer_batch E now from evs)
     (λ q w', ∃ ex, kernel_at N (busy_mode ex) w' ∧ update_ok w' ex q ∧ frames_kept w w' ∧ beside w w' ∧
        checkpointed E (depth_of w c) (dispatch_s c evs (w_sched w)) (w_sched w')) w.
Proof.
  intros Hk Ht Hp. apply wp_bind. eapply wp_mono; [by apply (dispatch_events_spec w evs from t)|].
  intros _ w1 (Hk1 & Hf1 & Has1 & Hsw1 & Hp1). rewrite <-Hsw1. pose proof Hk1 as [Hok1 _]. pose proof (wo_sched _ _ _ Hok1) as Hs1.
  wp_step. eapply wp_local_state; [by apply (cst_lookup Hs1)|]. wp_step. eapply wp_has_ready; [by apply (cst_lookup Hs1)|].
  wp_step. eapply (wp_mono _ (λ _ w', world_ok N (busy_mode None) w' ∧ quiet w1 w')).
  { destruct (_ && _); [|by apply wp_ret]. by apply (request_reschedule_spec E (N:=N) Hcpu (busy_mode None) w1). }
  intros _ w2 [Hok2 Hq2]. destruct (kernel_at_quiet _ _ _ Hk1 Hok2 Hq2) as [Hk2 Hf2]. destruct Hq2 as [Hsw2 Has2].
  apply (batch_checkpoint_spec w2 from t); [done|by rewrite Hsw2|].
  intros b ex w3 Hk3 Hex Hf3 Hb3 Hon3 Hcp. rewrite Hsw2, (as_depth _ _ Has2), (as_depth _ _ Has1) in Hcp. pose proof (wo_sched _ _ _ (ko_world _ _ _ Hk3)) as Hs3.
  assert (frames_kept w w3 ∧ beside w w3) as [Hfr Hbs].
  { split; [by do 2 (etrans; [eassumption|])|]. do 2 (etrans; [by apply aside_beside|]). done. }
  wp_step. eapply wp_has_ready; [by apply (cst_lookup Hs3)|]. fold (ready (w_sched w3) c).
  assert (∀ ens, (match ens with Some (_, ev) => ∃ t, cur (w_sched w3) c = Some t ∧ ev = quantum_expired c t ∧ ready (w_sched w3) c ≠ []
      | None => cs_online (cst (w_sched w3) c) = true → ready (w_sched w3) c = [] end : Prop) →
      update_ok w3 ex (mkQuantumUpdate (if b then Some (quantum_expired c from) else None) ens)) as Hup.
  { intros ens Hens. split; simpl; [|by destruct b; naive_solver|done]. intros x -> _ _. by destruct Hex as [|[-> [= ->]]]. }
  destruct (bool_decide_reflect (ready (w_sched w3) c = [])) as [Hr|Hr]; simpl.
  - wp_step. apply wp_ret. apply wp_ret. exists ex. split_and!; [done|by apply Hup|done..].
  - wp_step. wp_step. eapply wp_current_thread; [by apply (cst_lookup Hs3)|].
    destruct (online_current _ Hs3 Hon3) as [x Hx]. wp_step. eapply wp_expect; [exact Hx|].
    wp_step. wp_step. apply wp_ret. apply wp_ret. exists ex. split_and!; [done|apply Hup; eauto|done..].
Qed.
(** ** The direct wake *)

Lemma wp_timed_wake_stale w st from t tok rem cap (Q : option SwitchOutcome → World → Prop) :
  runs E (w_sched w) st from t → remote_ready (w_sched w) !! c = Some (mkReadyQueue rem cap) →
  thread_matches (w_sched w) (wt_thread tok) = false → Q None w → wp (transition_timed_wake_from_idle E tok) Q w.
Proof.
  intros [Hst Hc _ _ _] Hrem Hm HQ. apply wp_bind. eapply wp_local_state; [done|]. rewrite Hc.
  wp_step. eapply wp_with_sched; [unfold remote_ready_for; by rewrite Hrem|]. wp_step. wp_step. rewrite Hm. simpl.
  rewrite orb_true_r. by apply wp_ret.
Qed.

(** The CPU idles with an empty queue and the token's thread is blocked here. *)
Record direct (s : Scheduler) (from : ThreadId) (tok : WaitToken) (tx : Thread) (wm : WaitMetadata) : Prop := {
  dr_idle : idl s c = Some from;
  dr_queue : ready s c = [];
  dr_live : live s (wt_thread tok) tx;
  dr_home : t_home_cpu tx = c;
  dr_state : t_state tx = Blocked;
  dr_complete : complete (t_wait tx) tok Timeout = (WokeBlocked, wm)
}.

Lemma direct_effect s from tok tx wm :
  direct s from tok tx wm → (complete_s c tok Timeout s).2 = wake_local_s (wt_thread tok) wm c s.
Proof. intros [_ _ Hl Hh _ Hc]. unfold complete_s. rewrite Hl, Hc. simpl. unfold wake_s. by rewrite decide_True. Qed.

(** Waking the thread and switching to it at once is waking it into the queue
    and then taking the checkpoint. *)
Lemma direct_switch s from tok tx wm :
  c < length (cpus s) → direct s from tok tx wm →
  enter_s (wt_thread tok) [] c (leave_ready_s from c (wake_local_s (wt_thread tok) wm c s))
  = switched c from (wt_thread tok) [] (complete_s c tok Timeout s).2.
Proof.
  intros Hc Hd. rewrite (direct_effect _ _ _ _ _ Hd). unfold switched, queue_after. rewrite wake_local_views by done.
  simpl. pose proof (dr_idle _ _ _ _ _ Hd) as Hi. unfold idl in Hi. by rewrite decide_True.
Qed.
Lemma moved_after s s0 s' from to :
  keeps s s0 → same_cur s s0 → moved c from to s0 s' → moved c from to s s'.
Proof.
  intros Hk Hc [M1 M2 M3 M4 M5]. split; [by etrans| |done| |].
  - by rewrite <-(proj1 (Hc c)).
  - intros c' Hne. rewrite M4 by done. apply Hc.
  - intros c'. rewrite M5. apply Hc.
Qed.

Lemma direct_world d w from t tok tx wm :
  world_ok N (Busy c d None) w → preemptible E (w_sched w) from t → direct (w_sched w) from tok tx wm →
  ¬ joined (w_sched w) tok → ¬ pending w (wt_cpu tok) (wait_deadline tok) →
  let s0 := (complete_s c tok Timeout (w_sched w)).2 in
  let s1 := switched c from (wt_thread tok) [] s0 in
  world_ok N (Busy c d (Some from)) (set_w_sched s1 w) ∧ moved c from (wt_thread tok) (w_sched w) s1 ∧ from ≠ wt_thread tok ∧
  ready s0 c = [wt_thread tok] ∧ cur s0 c = Some from ∧ ready s1 c = [] ∧
  (∃ tf1, live s1 from tf1) ∧ ∃ tto, live s1 (wt_thread tok) tto ∧ t_home_cpu tto = c.
Proof.
  intros Hok Hp Hd Hnj Hnp s0 s1. pose proof Hok as [Hs Hhw Hlk]. pose proof (here_length Hs Hcpu) as Hlen.
  pose proof (direct_effect _ _ _ _ _ Hd) as Heff. fold s0 in Heff. pose proof Hd as [Hi Hq Hl Hh Hb Hcm].
  destruct (complete_cases (t_wait tx) tok Timeout) as [Hc|[Hc|(a & Ha & Htok & [[Hph Hc]|(Hph & wm' & Hc & Hwk)])]];
    rewrite Hcm in Hc; try done. injection Hc as <-.
  assert (world_ok N (Busy c d None) (set_w_sched s0 w)) as Hok0.
  { rewrite Heff. apply (world_ok_set_sched N (Busy c d None)); [done|done| |].
    - eapply sched_wake_local; try done. by apply (blocked_unjoined Hok Hl Ha Htok Hph Hnj Hnp).
    - by eapply (links_wake_local E Hcpu w tok tx a). }
  pose proof (complete_preemptible _ from t tok Timeout Hs Hp) as [Hon0 Hcur0 Hl0 Hp0]. fold s0 in Hon0, Hcur0, Hl0.
  assert (ready s0 c = [wt_thread tok]) as Hr0.
  { rewrite Heff. unfold ready. rewrite wake_local_views by done. simpl. fold (ready (w_sched w) c). by rewrite Hq. }
  destruct (queue_head_queued E Hcpu None (wt_thread tok) [] (wo_sched _ _ _ Hok0) Hr0) as [Hni (tto & Hlt & Hst & Hht)].
  destruct (current_live (wo_sched _ _ _ Hok0) c from Hcpu Hcur0) as (tf & Hlf & Hhf & Hrun).
  assert (from ≠ wt_thread tok) as Hne by (intros Heq; rewrite <-Heq in Hlt; rewrite (live_fun _ _ _ _ Hlf Hlt) in Hrun; congruence).
  assert (tid_index (wt_thread tok) ≠ tid_index from) as Hidx by (intros Heq; apply Hne; symmetry; by eapply live_index_inj).
  pose proof (here_length (wo_sched _ _ _ Hok0) Hcpu) as Hlen0.
  destruct (complete_keeps Hs Hcpu tok Timeout) as [Hkp Hsc]. split_and!; [| |done|done|done| | |].
  - exact (switched_world E (N:=N) Hcpu d (set_w_sched s0 w) from t (wt_thread tok) [] Hok0 Hcur0 Hl0 Hp0 Hr0).
  - eapply (moved_after _ s0); [done|done|]. by eapply (switched_moved E from tf).
  - unfold s1, switched. rewrite ready_enter by (simpl; by rewrite length_alter). unfold queue_after.
    destruct (Hsc c) as (_ & Hi0 & _). fold s0 in Hi0. unfold idl in Hi0, Hi. by rewrite decide_True by congruence.
  - exists (set_t_state Ready tf). apply (live_alter_other (set_t_state Running) (wt_thread tok)); [congruence|].
    by apply (live_alter_same (set_t_state Ready)).
  - exists (set_t_state Running tto). split; [|done]. apply (live_alter_same (set_t_state Running)).
    by apply (live_alter_other (set_t_state Ready) from).
Qed.
(** The frames follow the direct wake. *)
Lemma direct_handoff_spec w from t tok tx wm :
  kernel_at N (busy_mode None) w → preemptible E (w_sched w) from t → direct (w_sched w) from tok tx wm →
  ¬ joined (w_sched w) tok → ¬ pending w (wt_cpu tok) (wait_deadline tok) → depth_of w c = Some 0%Z →
  let s0 := (complete_s c tok Timeout (w_sched w)).2 in
  let s1 := switched c from (wt_thread tok) [] s0 in
  wp (consume_checkpoint_on E c true;; handoff_selected E (Switch from (wt_thread tok));; mret true)
     (λ b w', b = true ∧ kernel_at N (busy_mode (Some from)) w' ∧ update_ok w' (Some from) no_quantum_update ∧
        frames_kept w w' ∧ beside w w' ∧ checkpointed E (depth_of w c) s0 (w_sched w')) (set_w_sched s1 w).
Proof.
  intros Hk Hp Hd Hnj Hnp Hdz s0 s1. pose proof Hk as [Hok Hsp]. pose proof Hok as [Hs Hhw Hlk].
  destruct (direct_world true w from t tok tx wm Hok Hp Hd Hnj Hnp) as (Hok1 & Hmv & Hne & Hr0 & Hc0 & Hr1 & (tf1 & Lf) & tto & Lt & Hht).
  destruct (lookup_lt_is_Some_2 (w_preempt w) c) as [p Hpp]; [by rewrite (hw_preempt _ _ Hhw)|].
  apply wp_bind, wp_bind. wp_step; [by apply bool_decide_eq_true|].
  eapply (wp_with_state E _ p _ (preempt_consume_checkpoint p true).1 (preempt_consume_checkpoint p true).2); [done|by destruct (preempt_consume_checkpoint p true)|].
  set (l := <[c := (preempt_consume_checkpoint p true).2]> (w_preempt w)). assert (length l = KERNEL_CPU_CAPACITY) as Hl by (unfold l; rewrite length_insert; apply Hhw).
  assert (∀ c', depth_of (set_w_preempt l w) c' = depth_of w c') as Hdep.
  { intros c'. unfold depth_of, l. simpl. destruct (decide (c = c')) as [<-|Hn]; [|by rewrite list_lookup_insert_ne].
    rewrite Hpp, list_lookup_insert_eq by (by rewrite (hw_preempt _ _ Hhw)). simpl. unfold preempt_consume_checkpoint. by destruct (_ || _). }
  assert (frames_kept w (set_w_preempt l w)) as Hf0 by (by apply frames_keeps).
  wp_step. pose proof (pr_live _ _ _ _ Hp) as Hlf.
  destruct (current_live Hs c from Hcpu (pr_cur _ _ _ _ Hp)) as (t0 & Hl0 & Hh & _). rewrite (live_fun _ _ _ _ Hl0 Hlf) in *.
  eapply wp_mono.
  { apply (handoff_world_spec E (N:=N) Hcpu Harch (busy_mode None) (set_w_preempt l w) s1 true (Some from) from t tf1 (wt_thread tok) tto);
      [|apply Hp|done..|].
    - split; [by apply world_ok_preempt|apply Hsp].
    - by apply (world_ok_preempt (busy_mode (Some from)) (set_w_sched s1 w) l Hok1). }
  intros _ w2 (Hok2 & Hf2 & Hsp2 & Hpe & Hti & frame & Hfr & Hsw2). apply wp_ret. split_and!; [done|done| |by etrans| |].
  - split; simpl; [|done|].
    + intros x [= <-] Hpd _. destruct (lk_peer _ _ _ Hlk c from); [|apply Hp|apply Hd].
      unfold pending, events, time_at in *. by rewrite Hti in Hpd.
    + intros _. rewrite Hsw2. exact Hr1.
  - etrans; [|by apply (beside_same (set_w_preempt l w) w2)]. by split.
  - right. split; [done|]. exists frame. unfold round_robin, s0. by rewrite Hc0, Hr0.
Qed.

Lemma direct_wake_spec w single from t :
  kernel_at N (busy_mode None) w → preemptible E (w_sched w) from t →
  (∀ ev, single = Some ev → taken w [ev]) →
  wp (try_direct_wake E single)
     (λ b w', if b then ∃ ev, single = Some ev ∧ kernel_at N (busy_mode (Some from)) w' ∧
                 update_ok w' (Some from) no_quantum_update ∧ frames_kept w w' ∧ beside w w' ∧
                 checkpointed E (depth_of w c) (dispatch_s c [ev] (w_sched w)) (w_sched w')
               else w' = w) w.
Proof.
  intros Hk Hp Ht. pose proof Hk as [Hok Hsp]. pose proof Hok as [Hs Hhw Hlk].
  destruct single as [[c' tok|]|]; [|by apply wp_ret..].
  specialize (Ht _ eq_refl (WaitDeadline c' tok) ltac:(by left)). destruct Ht as (-> & Htc & Hnj & Hnp).
  unfold try_direct_wake. wp_step. wp_step; [by rewrite !bool_decide_true|].
  destruct (lookup_lt_is_Some_2 (w_preempt w) c) as [p Hpp]; [by rewrite (hw_preempt _ _ Hhw)|].
  wp_step. eapply (wp_with_state E w p _ (preempt_is_disabled p) p); [done|done|].
  assert (set_w_preempt (<[c := p]> (w_preempt w)) w = w) as -> by (rewrite list_insert_id by done; by destruct w).
  destruct (preempt_is_disabled p) eqn:Hdis; [by apply wp_ret|].
  assert (depth_of w c = Some 0%Z) as Hdz.
  { unfold depth_of. rewrite Hpp. unfold preempt_is_disabled in Hdis. simpl. f_equal.
    by destruct (bool_decide_reflect (disable_depth p = 0%Z)). }
  destruct (current_runs E Hcpu from Hs (pr_cur _ _ _ _ Hp)) as (tf & Hr).
  wp_step. destruct (table_get (w_sched w) (wt_thread tok)) as [tx|] eqn:Hl.
  2:{ eapply wp_timed_wake_stale; [done|by apply (remote_lookup Hs)| |by apply wp_ret]. unfold thread_matches. by rewrite Hl. }
  eapply (wp_timed_wake E w _ from tf tok tx); [done|by apply (remote_lookup Hs)|done| | |intros _; by apply wp_ret].
  - intros Hb. pose proof (tk_wait _ _ (so_threads _ _ _ Hs _ _ Hl)) as Hw. apply (wk_blocked _ _ Hw) in Hb.
    unfold wait_is_blocked in Hb. destruct (active (t_wait tx)) as [[tk [] k]|] eqn:Ha; try done.
    destruct (complete_cases (t_wait tx) tok Timeout) as [->|[Hc|(a & Ha' & _ & [[Hph _]|(_ & wm & -> & _)])]].
    + right. by left.
    + unfold complete in Hc. rewrite Ha in Hc. simpl in Hc. destruct (decide _); [done|]. by destruct k.
    + rewrite Ha in Ha'. injection Ha' as <-. done.
    + by left.
  - intros wm Hi Hq _ _ Hh Hst Hcm.
    assert (direct (w_sched w) from tok tx wm) as Hd by (by split).
    rewrite (direct_switch _ _ _ _ _ (here_length Hs Hcpu) Hd).
    destruct (direct_world true w from t tok tx wm Hok Hp Hd Hnj Hnp) as (Hok1 & _).
    split; [by eapply sched_ok_valid, Hok1|].
    eapply wp_mono; [by apply (direct_handoff_spec w from t tok tx wm)|].
    intros b w' (-> & Hrest). by eexists.
Qed.
(** ** The interrupt *)

(** An online CPU runs a thread that may be preempted. *)
Definition interruptible (s : Scheduler) : Prop :=
  cs_online (cst s c) = true → ∃ from t, preemptible E s from t.

(** What the interrupt does to the scheduler, given the due events. *)
Definition ticked (d : option Z) (evs : list TimedEvent) (s s' : Scheduler) : Prop :=
  if cs_online (cst s c) then checkpointed E d (dispatch_s c evs (finalize_s c s)) s' else s' = finalize_s c s.

Lemma finalize_timer_spec w evs :
  kernel_at N (busy_mode None) w → taken w evs →
  wp (transition_finalize_retired_for_timer E)
     (λ _ w', kernel_at N (busy_mode None) w' ∧ taken w' evs ∧ frames_kept w w' ∧ aside w w' ∧
              w_sched w' = finalize_s c (w_sched w)) w.
Proof.
  intros [Hok Hsp] Ht. pose proof (wo_sched _ _ _ Hok) as Hs.
  eapply wp_mono; [apply (finalize_spec E (N:=N) Hcpu Harch (busy_mode None) false w); [by right; eauto|done]|].
  intros _ w' (Hok' & Has & Hsw). destruct (finalize_keeps N c (w_sched w) Hs Hcpu) as [Hk Hc].
  split_and!; [| |by apply frames_keeps; rewrite ?Hsw; [..|apply Has]|done|done].
  - split; [done|]. intros c'. rewrite Hsw. destruct (Hc c') as (Hc1 & _ & Hc2).
    eapply space_keeps; [exact Hk|done|done| |apply Hsp]. by rewrite (as_vm _ _ Has).
  - apply (taken_mono w); [done| |intros; apply Has]. intros tok. rewrite Hsw. apply finalize_joined.
Qed.

Lemma finish_timer_spec w now e evs :
  kernel_at N (busy_mode None) w → taken w evs → interruptible (w_sched w) → buffer_holds EVENT_CAPACITY e evs →
  wp (finish_timer_interrupt E now e)
     (λ q w', ∃ ex, kernel_at N (busy_mode ex) w' ∧ update_ok w' ex q ∧ frames_kept w w' ∧ beside w w' ∧
        ticked (depth_of w c) evs (w_sched w) (w_sched w')) w.
Proof.
  intros Hk Ht Hint Hb. pose proof (wo_sched _ _ _ (ko_world _ _ _ Hk)) as Hs0. unfold ticked.
  apply wp_bind. eapply wp_mono; [by apply (finalize_timer_spec w evs)|]. intros _ w1 (Hk1 & Ht1 & Hf1 & Has1 & Hsw1).
  destruct (finalize_keeps N c (w_sched w) Hs0 Hcpu) as [_ Hsc]. destruct (Hsc c) as (_ & _ & Hon1). rewrite <-Hsw1 in *.
  pose proof (wo_sched _ _ _ (ko_world _ _ _ Hk1)) as Hs1.
  wp_step. eapply wp_local_state; [by apply (cst_lookup Hs1)|]. rewrite Hon1.
  destruct (cs_online (cst (w_sched w) c)) eqn:Hon; simpl.
  2:{ apply wp_ret. exists None. split_and!; [done| |done|by apply aside_beside|done].
      split; [done|done|]. simpl. congruence. }
  destruct (Hint Hon) as (from & t & Hp). pose proof (finalize_preemptible E (N:=N) Hcpu _ from t Hs0 Hp) as Hp1. rewrite <-Hsw1 in Hp1.
  wp_step. eapply wp_current_thread; [by apply (cst_lookup Hs1)|].
  pose proof (pr_cur _ _ _ _ Hp1) as Hcur. unfold cur in Hcur. rewrite Hcur.
  wp_step. eapply wp_reads; [by eapply buffer_single|]. wp_step.
  eapply wp_mono; [apply (direct_wake_spec w1 _ from t Hk1 Hp1)|].
  { intros ev Hev x Hx%list_elem_of_singleton. subst x. apply Ht1. destruct evs as [|? []]; simplify_eq. by left. }
  intros [] w2 Hw2.
  - destruct Hw2 as (ev & Hev & Hk2 & Hup & Hf2 & Hb2 & Hcp). destruct evs as [|? []]; simplify_eq.
    apply wp_ret. exists (Some from). split_and!; [done|done|by etrans|by etrans; [apply aside_beside|]|by rewrite <-(as_depth _ _ Has1)].
  - subst w2. wp_step. eapply wp_reads; [by eapply buffer_iter|].
    eapply wp_mono; [by apply (timer_batch_spec w1 now from t evs)|].
    intros q w' (ex & Hk' & Hup & Hf' & Hb' & Hcp). exists ex. split_and!; [done|done|by etrans|by etrans; [apply aside_beside|]|by rewrite <-(as_depth _ _ Has1)].
Qed.

(** The due events leave the queue, the others stay, and the interrupt ends
    on a stable machine. *)
Theorem on_timer_interrupt_spec w :
  kernel_ok N w → interruptible (w_sched w) →
  wp (on_timer_interrupt E)
     (λ _ w', kernel_ok N w' ∧ frames_kept w w' ∧ (∀ c', depth_of w' c' = depth_of w c') ∧
        if decide (is_Some (time_at w c)) then
          let now := e_clock E (w_reads w) in
          ∃ es, due_entries (events w c) now es ∧ ticked (depth_of w c) (de_event <$> es) (w_sched w) (w_sched w') ∧
            ∀ c' tok, events w' c !! WaitDeadline c' tok = not_due now (events w c) !! WaitDeadline c' tok
        else w' = set_w_timer (<[c := None]> (w_timer w)) w) w.
Proof.
  intros Hk Hint. pose proof Hk as [[Hs Hhw Hlk] Hsp].
  destruct (lookup_lt_is_Some_2 (w_time w) c) as [slot Hslot]; [by rewrite (hw_time _ _ Hhw)|].
  assert (time_at w c = slot) as Hta by (unfold time_at; by rewrite Hslot).
  apply wp_bind. eapply wp_reads; [by rewrite Hslot|]. rewrite Hta. destruct slot as [ts|]; simpl.
  2:{ apply wp_modify. split_and!; [|by apply frames_keeps|done|done].
      split; [|apply Hsp]. split; [apply Hs| |by destruct Hlk; split].
      destruct Hhw as [H1 H2 H3 H4 H5]. split; try done; simpl; [by rewrite length_insert|].
      intros c' ts Hts. change (time_at w c' = Some ts) in Hts. destruct (H5 c' ts Hts) as [Ha Hb]. split; [|done].
      intros Hn. rewrite list_lookup_insert_ne; [by apply Ha|]. congruence. }
  wp_step. apply now_counter_exact. set (now := e_clock E (w_reads w)). set (w0 := set_w_reads (S (w_reads w)) w).
  assert (kernel_ok N w0) as Hk0. { split; [|apply Hsp]. split; [apply Hs|by destruct Hhw; split|by destruct Hlk; split]. }
  wp_step. eapply wp_mono; [by apply (take_expired_world w0 ts now Hk0)|].
  intros e w1 (es & Hk1 & Hb & Hdue & Htk & Hrt). assert (w_sched w1 = w_sched w) as Hsw1 by apply Hrt.
  assert (frames_kept w w1) as Hf1 by (apply frames_keeps; [by rewrite Hsw1|by rewrite Hsw1|apply Hrt]).
  wp_step. eapply wp_mono; [apply (finish_timer_spec w1 now e (de_event <$> es) Hk1 Htk); [by rewrite Hsw1|done]|].
  intros q w2 (ex & Hk2 & Hup & Hf2 & Hb2 & Htick). rewrite Hsw1 in Htick.
  assert (depth_of w1 c = depth_of w c) as Hd1 by (unfold depth_of; by rewrite (rt_preempt _ _ _ _ Hrt)). rewrite Hd1 in Htick.
  assert (is_Some (time_at w2 c)) as [ts2 Hts2].
  { apply (bs_time _ _ Hb2), (rt_some _ _ _ _ Hrt). change (is_Some (time_at w c)). rewrite Hta. eauto. }
  eapply wp_mono; [apply (finish_interrupt_world w2 ex q e ts2 Hk2 Hts2); [by apply Hb|done]|].
  intros _ w' [Hk' [Hsw' Has']]. split_and!; [done| | |].
  - do 2 (etrans; [eassumption|]). apply frames_keeps; [by rewrite Hsw'|by rewrite Hsw'|apply Has'].
  - intros c'. rewrite (as_depth _ _ Has'), (bs_depth _ _ Hb2). unfold depth_of. by rewrite (rt_preempt _ _ _ _ Hrt).
  - exists es. split_and!; [done|by rewrite Hsw'|].
    intros c' tok. rewrite (as_waits _ _ Has'), (bs_waits _ _ Hb2), (rt_events _ _ _ _ Hrt). by rewrite decide_True.
Qed.
End timer.
