(* ===== verification/Boot.v ===== *)
(** * Bringing up the scheduler

    Models [kernel/src/sched/bootstrap.rs], [init_cpu_states] of
    [kernel/src/time.rs] and the quiescence check of
    [kernel/src/sync/preempt.rs]: CPU0 builds the scheduler with the idle and
    the static threads and publishes it, the event queues of all CPUs are
    reserved, and every secondary CPU claims one free slot for its idle
    thread. *)

From S2P Require Import Prelude Types Wait Deadline Preempt Context Vm Time Sched World Transition.

Record StaticThread := mkStaticThread { st_entry : Z; st_arg : Z }.

Inductive TimeInitError := InvalidCpuCount | AlreadyInitialized | CapacityOverflow | OutOfMemory.

Section boot.
Context (E : Env).

Definition required_bootstrap_slots (static_thread_count expected_cpu_count : Z) : Z + SchedError :=
  match u64_checked_add static_thread_count expected_cpu_count with
  | Some n => inl n
  | None => inr ThreadCapacityTooSmall
  end.

(** [stack_of i] is the boxed stack the allocator gives to slot [i]. *)
Fixpoint append_static_threads (stack_of : nat → OwnedKernelStack) (threads : list StaticThread) : W unit :=
  match threads with
  | [] => mret tt
  | thread :: threads' =>
      id ← gets (λ w, length (table_slots (w_sched w)));
      transition_append_bootstrap E (stack_of id) (st_entry thread) (st_arg thread) false;;
      append_static_threads stack_of threads'
  end.

(** The scheduler under construction is the scheduler of the world; [expected]
    is [cpu::expected_count()]. *)
Definition bootstrap_new (expected : nat) (stack_of : nat → OwnedKernelStack) (idle_entry idle_arg : Z)
    (threads : list StaticThread) (quantum_ms : Z) (thread_capacity : nat) : W (unit + SchedError) :=
  match required_bootstrap_slots (Z.of_nat (length threads)) (Z.of_nat expected) with
  | inr e => mret (inr e)
  | inl count =>
      if (Z.of_nat thread_capacity <? count)%Z then mret (inr ThreadCapacityTooSmall)
      else
        scheduler ← reads (λ _, transition_new thread_capacity quantum_ms);
        modify (set_w_sched scheduler);;
        transition_append_bootstrap E (stack_of 0) idle_entry idle_arg true;;
        append_static_threads stack_of threads;;
        len ← gets (λ w, length (table_slots (w_sched w)));
        sched_modify (transition_fill_free_slots (stack_of <$> seq len (thread_capacity - len)));;
        transition_initial_dispatch E
  end.

Definition assert_pre_scheduler_state_quiescent (cpu : CpuId) : W unit :=
  state ← reads (λ w, expect_o (w_preempt w !! cpu) "index out of bounds");
  assert_that (bool_decide (disable_depth state = 0%Z) && negb (reschedule_pending state))
              "preempt: non-quiescent state at scheduler publication".

(** [published] tells whether [SCHEDULER] holds a scheduler already; a
    scheduler that cannot be built is dropped. *)
Definition bootstrap (published : bool) (expected : nat) (stack_of : nat → OwnedKernelStack)
    (idle_entry idle_arg : Z) (threads : list StaticThread) (quantum_ms : Z) (thread_capacity : nat)
    : W (unit + SchedError) :=
  if published then mret (inr AlreadyBootstrapped)
  else
    old ← gets w_sched;
    built ← bootstrap_new expected stack_of idle_entry idle_arg threads quantum_ms thread_capacity;
    match built with
    | inr e => modify (set_w_sched old);; mret (inr e)
    | inl _ => assert_pre_scheduler_state_quiescent (e_cpu E);; mret (inl tt)
    end.

Definition initialize_current_cpu (published : bool) (idle_entry idle_arg : Z) : W bool :=
  if bool_decide (e_cpu E = 0) || negb (bool_decide (e_cpu E < e_registered E)) then mret false
  else
    assert_pre_scheduler_state_quiescent (e_cpu E);;
    if negb published then mret false
    else
      r ← transition_initialize_idle_current E idle_entry idle_arg;
      mret (match r with inl _ => true | inr _ => false end).
End boot.

(** [reserve] is the allocator's answer for the storage of each CPU. *)
Definition init_cpu_states (reserve : CpuId → bool) (cpu_count : nat) : W (unit + TimeInitError) :=
  if bool_decide (cpu_count = 0) || bool_decide (KERNEL_CPU_CAPACITY < cpu_count) then mret (inr InvalidCpuCount)
  else
    let product := (Z.of_nat KERNEL_THREAD_CAPACITY * Z.of_nat TIMED_EVENT_CAPACITY_PER_THREAD)%Z in
    if (u64_max <? product)%Z then mret (inr CapacityOverflow)
    else
      slots ← gets (λ w, take cpu_count (w_time w));
      if existsb (λ slot : option CpuTime, match slot with Some _ => true | None => false end) slots
      then mret (inr AlreadyInitialized)
      else if negb (forallb reserve (seq 0 cpu_count)) then mret (inr OutOfMemory)
      else
        modify (λ w, set_w_time (replicate cpu_count (Some (time_state_new (Z.to_nat product)))
                                 ++ drop cpu_count (w_time w)) w);;
        mret (inl tt).
