(* ===== verification/StartSpec.v ===== *)
(** * From power-on to the first thread

    The bootstrap builds a scheduler with the idle thread in slot 0 and the
    static threads after it, all other slots free; the first static thread is
    selected and the others wait in their order.  It satisfies the kernel
    invariant, as do the machine after the event queues were reserved, after a
    secondary CPU has claimed its idle thread, and after a CPU has entered its
    first thread.

    The machine before [sched::bootstrap] has no event queue, no user
    translation root and idle preemption records.  The bootstrap turns it into
    one that satisfies the kernel invariant, the reservation of the event
    queues keeps it, a secondary CPU publishes its idle thread into it, and
    entering the selected thread of a CPU puts that CPU online with the
    thread's own frame and address space. *)

From stdpp Require Import gmap.
From S2P Require Import Prelude Types Wait Deadline TimeConv Preempt Context Vm Time Sched World Transition Handoff CpuInv SchedInv Switch.
From S2P Require Import Lifecycle TransitionSpec LifecycleSpec WorldInv TimeSpec SwitchSpec WakeSpec Frames EntrySpec BlockSpec JoinSpec.
From S2P Require Import ThreadSpec SpawnSpec Boot.
(** ** New slots *)

Definition grow_s (stack : OwnedKernelStack) (s : Scheduler) : Scheduler :=
  set_free_slots (length (table_slots s) :: free_slots (lifecycle s))
    (set_slots (table_slots s ++ [slot_free stack]) s).

Lemma table_get_grow stack s x : table_get (grow_s stack s) x = table_get s x.
Proof.
  unfold table_get, grow_s, table_slots. simpl. destruct (decide (tid_index x < length (slots (lifecycle s)))) as [Hlt|Hge].
  - by rewrite lookup_app_l.
  - rewrite lookup_app_r by lia. rewrite (lookup_ge_None_2 (slots (lifecycle s))) by lia.
    destruct (tid_index x - length (slots (lifecycle s))) as [|n]; simpl; [by destruct (decide _)|done].
Qed.

Lemma shape_grow N stack s : shape_ok N s → length (table_slots s) < N → shape_ok N (grow_s stack s).
Proof.
  intros [H1 H2 H3 H4 H5 H6 Hslots Hfree Hnd] Hlt. split; try done; unfold grow_s; simpl.
  - unfold table_slots in *. simpl. rewrite length_app. simpl. lia.
  - intros i slot. unfold table_slots in *. simpl. intros [Hi|[_ Hi]]%lookup_app_Some; [by eapply Hslots|].
    apply list_lookup_singleton_Some in Hi as [_ <-]. by split; [split; [|intros [? ?]]|..].
  - intros i. unfold table_slots in *. simpl. rewrite elem_of_cons, Hfree. split.
    + intros [->|(slot & Hs & Hn)].
      * exists (slot_free stack). by rewrite lookup_app_r, Nat.sub_diag.
      * exists slot. by rewrite (lookup_app_l_Some _ _ _ _ Hs).
    + intros (slot & [Hs|[Hge Hs]]%lookup_app_Some & Hn); [right; by exists slot|].
      apply list_lookup_singleton_Some in Hs as [Hs _]. left. lia.
  - apply NoDup_cons. split; [|done]. intros (slot & Hs & _)%Hfree. apply lookup_lt_Some in Hs. unfold table_slots in *. lia.
Qed.

Lemma sched_grow N stack s : sched_ok N None s → length (table_slots s) < N → sched_ok N None (grow_s stack s).
Proof.
  intros [Hsh Ht Hc Hi [J1 J2 J3 J4]] Hlt. pose proof (table_get_grow stack s) as Hg.
  assert (∀ x t, live (grow_s stack s) x t ↔ live s x t) as Hl by (intros; unfold live; by rewrite Hg).
  split.
  - by apply shape_grow.
  - intros x t Hx%Hl. by apply Ht.
  - intros c Hlt'. eapply cpu_inv_ext; [|by apply Hc]. intros x. unfold state_on. by rewrite Hg.
  - intros c x t Hlt' Hx Hlx%Hl. by eapply Hi.
  - split.
    + intros x t tok Hx%Hl Hj. destruct (J1 x t tok Hx Hj) as (j & ? & ?). exists j. by rewrite Hl.
    + intros x1 t1 x2 t2 tok H1%Hl H2%Hl. by apply J2.
    + intros x t Hx%Hl. by apply J3.
    + intros x t tok Hx%Hl. by eapply J4.
Qed.

Lemma fill_free_grow stacks s N :
  sched_ok N None s → length (table_slots s) + length stacks ≤ N → sched_ok N None (transition_fill_free_slots stacks s).
Proof.
  revert s. induction stacks as [|stack stacks IH]; simpl; intros s Hok Hlen; [done|].
  apply IH; [apply sched_grow; [done|lia]|]. unfold table_slots. simpl. rewrite length_app. simpl. unfold table_slots in Hlen. lia.
Qed.

Lemma fill_length id g t s : length (table_slots (fill_s id g t s)) = length (table_slots s).
Proof. apply length_alter. Qed.

(** Only the table and the free list grow. *)
Lemma fill_free_views stacks s :
  let s' := transition_fill_free_slots stacks s in
  (∀ x, table_get s' x = table_get s x) ∧ cpus s' = cpus s ∧ remote_ready s' = remote_ready s ∧
  scheduler_ipi_pending s' = scheduler_ipi_pending s ∧
  length (table_slots s') = length (table_slots s) + length stacks ∧
  free_slots (lifecycle s') = reverse (seq (length (table_slots s)) (length stacks)) ++ free_slots (lifecycle s).
Proof.
  revert s. induction stacks as [|stack stacks IH]; intros s; simpl; [by split_and!|].
  destruct (IH (grow_s stack s)) as (Hg & Hc & Hr & Hi & Hl & Hf). fold (grow_s stack s).
  assert (length (table_slots (grow_s stack s)) = S (length (table_slots s))) as Hlen.
  { etrans; [apply length_app|]. simpl. lia. }
  split_and!; [|done|done|done|rewrite Hl, Hlen; lia|].
  - intros x. by rewrite Hg, table_get_grow.
  - rewrite Hf, Hlen, reverse_cons, <-app_assoc. done.
Qed.

(** ** Publication into an appended slot *)

Section boot_spec.
Context (E : Env) {N : nat}.
Hypothesis Hcpu : e_cpu E < KERNEL_CPU_CAPACITY.
Abbreviation c := (e_cpu E).

(** A bootstrap thread that has not run yet. *)
Definition boot_thread (stack : OwnedKernelStack) (entry arg : Z) : Thread :=
  fresh_thread c false None 0 stack (kernel_entry (stack_top_of stack) entry arg (e_bootstrap_pc E)).

Section append.
Context {w : World} {stack : OwnedKernelStack} {entry arg : Z}.
Let s := w_sched w.
Let n := length (table_slots s).
Let tid := mkThreadId n INITIAL_THREAD_GENERATION.
Let t := boot_thread stack entry arg.
Let s0 := set_slots (table_slots s ++ [slot_free stack]) s.
Let s1 := fill_s n INITIAL_THREAD_GENERATION t s0.
Hypothesis Hok : sched_ok N None s.
Hypothesis Hroom : n < N.

Lemma append_slot : table_slots s0 !! n = Some (slot_free stack).
Proof. unfold s0, table_slots at 1. simpl. by rewrite lookup_app_r, Nat.sub_diag. Qed.

Lemma append_slot_at : slot_at (w_sched (set_w_sched s0 w)) n = Done (slot_free stack).
Proof. unfold slot_at. change (w_sched (set_w_sched s0 w)) with s0. by rewrite append_slot. Qed.

Lemma append_dead : table_get s tid = None.
Proof. unfold table_get. by rewrite lookup_ge_None_2. Qed.

Lemma append_get x : table_get s1 x = if decide (x = tid) then Some t else table_get s x.
Proof. unfold s1. rewrite (table_get_fill _ _ _ _ (slot_free stack) _ append_slot eq_refl). by rewrite <-(table_get_grow stack s). Qed.

Lemma append_shape : shape_ok N s1.
Proof.
  apply (shape_fill N (grow_s stack s) n INITIAL_THREAD_GENERATION t (slot_free stack) (free_slots (lifecycle s)));
  [by apply shape_grow; [apply Hok|]|apply append_slot|done|done|]. unfold INITIAL_THREAD_GENERATION, u32_max. lia.
Qed.

Lemma append_thread : thread_ok tid t.
Proof. apply fresh_thread_ok; [done| |unfold u64_max; lia|done]. simpl. unfold INITIAL_THREAD_GENERATION, u32_max. lia. Qed.

Let idle_s := alter_cpu (set_cs_idle (Some tid)) c s1.
Let queued_s := queue_local_s tid c s1.

Lemma append_idle_ok : idl s c = None → sched_ok N None idle_s.
Proof.
  intros Hi. apply (sched_publish_idle (s:=s) (s1:=s1) (t:=t)); first [done|intros x; apply append_get|apply append_shape|apply append_dead|apply append_thread].
Qed.

Lemma append_queued_ok : is_Some (idl s c) → sched_ok N None queued_s.
Proof.
  intros Hi. apply (sched_publish_local (s:=s) (s1:=s1) (t:=t)); first [done|intros x; apply append_get|apply append_shape|apply append_dead|apply append_thread].
Qed.

Lemma append_idle_spec :
  idl s c = None →
  wp (transition_append_bootstrap E stack entry arg true) (λ id w', id = n ∧ w' = set_w_sched idle_s w) w.
Proof.
  intros Hi. pose proof (append_idle_ok Hi) as Hok'. apply wp_bind. wp_step. wp_step. apply wp_modify. wp_step.
  apply wp_bind. eapply (wp_with_sched _ _ _ (slot_free stack)); [by apply append_slot_at|].
  apply wp_bind, wp_ret. eapply (wp_publish_idle E (w:=set_w_sched s0 w) append_slot eq_refl eq_refl);
  [done|by apply wp_ret|done|by apply (cst_lookup Hok)|done|by eapply sched_ok_valid|]. by apply wp_ret.
Qed.

Lemma append_queued_spec :
  is_Some (idl s c) →
  wp (transition_append_bootstrap E stack entry arg false) (λ id w', id = n ∧ w' = set_w_sched queued_s w) w.
Proof.
  intros Hi. pose proof (append_queued_ok Hi) as Hok'. apply wp_bind. wp_step. wp_step. apply wp_modify. wp_step.
  apply wp_bind. eapply (wp_with_sched _ _ _ (slot_free stack)); [by apply append_slot_at|].
  apply wp_bind, wp_ret.
  assert (cst queued_s c = set_cs_ready (ready s c ++ [tid]) (cst s c)) as Hcst.
  { unfold queued_s, queue_local_s. rewrite cst_alter_cpu; [by rewrite decide_True|]. by apply (here_length Hok). }
  destruct (pushable_from E Hcpu None tid (cst s c) Hok') as [Hpb Hne].
  { unfold ready at 1. by rewrite Hcst. } { by apply (ready_capacity Hok). }
  eapply (wp_publish_local E (w:=set_w_sched s0 w) append_slot eq_refl eq_refl);
  [done|by apply wp_ret|done|by apply (cst_lookup Hok)| |done|].
  { intros Hid. apply Hne. unfold idl. by rewrite Hcst. }
  apply wp_ret. split; [by eapply sched_ok_valid|]. by apply wp_ret.
Qed.
End append.

(** ** The scheduler under construction *)

(** The handles of the first [n] static threads, in slot order. *)
Definition static_ids (n : nat) : list ThreadId :=
  (λ i, mkThreadId i INITIAL_THREAD_GENERATION) <$> seq 1 n.

(** The threads of a scheduler that was given idle and [placed]. *)
Definition boot_get (stack_of : nat → OwnedKernelStack) (placed : list StaticThread) (x : ThreadId) : option Thread :=
  if decide (tid_generation x = INITIAL_THREAD_GENERATION)
  then (λ th, boot_thread (stack_of (tid_index x)) (st_entry th) (st_arg th)) <$> placed !! tid_index x
  else None.

Record booting (stack_of : nat → OwnedKernelStack) (idle : StaticThread) (placed : list StaticThread)
    (s : Scheduler) : Prop := {
  bt_ok : sched_ok N None s;
  bt_len : length (table_slots s) = S (length placed);
  bt_free : free_slots (lifecycle s) = [];
  bt_get : ∀ x, table_get s x = boot_get stack_of (idle :: placed) x;
  bt_here : cst s c = set_cs_ready (static_ids (length placed))
                        (set_cs_idle (Some (mkThreadId 0 INITIAL_THREAD_GENERATION)) (cpu_state_new N));
  bt_others : ∀ c', c' < KERNEL_CPU_CAPACITY → c' ≠ c → cst s c' = cpu_state_new N;
  bt_ingress : ∀ c', remote s c' = [] ∧ ipi s c' = false
}.

Lemma boot_get_snoc stack_of placed th x :
  boot_get stack_of (placed ++ [th]) x =
  if decide (x = mkThreadId (length placed) INITIAL_THREAD_GENERATION)
  then Some (boot_thread (stack_of (length placed)) (st_entry th) (st_arg th)) else boot_get stack_of placed x.
Proof.
  unfold boot_get. destruct x as [i g]. simpl. destruct (decide (g = _)) as [->|Hg].
  - destruct (decide (i = length placed)) as [->|Hi].
    + by rewrite decide_True, lookup_app_r, Nat.sub_diag.
    + rewrite decide_False by congruence. destruct (decide (i < length placed)); [by rewrite lookup_app_l|].
      rewrite lookup_app_r by lia. rewrite (lookup_ge_None_2 placed) by lia.
      by rewrite lookup_ge_None_2 by (simpl; lia).
  - by rewrite decide_False by congruence.
Qed.

Lemma static_ids_snoc n : static_ids (S n) = static_ids n ++ [mkThreadId (S n) INITIAL_THREAD_GENERATION].
Proof. unfold static_ids. by rewrite seq_S, fmap_app. Qed.

Lemma new_sched_ok (quantum : Z) : 1 ≤ N ≤ KERNEL_THREAD_CAPACITY → ∃ s, transition_new N quantum = Done s ∧
  sched_ok N None s ∧ table_slots s = [] ∧ free_slots (lifecycle s) = [] ∧ (∀ c', c' < KERNEL_CPU_CAPACITY → cst s c' = cpu_state_new N) ∧
  ∀ c', remote s c' = [] ∧ ipi s c' = false.
Proof.
  intros HN. unfold transition_new. rewrite decide_False by lia. eexists. split; [done|].
  set (s := mkScheduler _ _ _ _ _).
  assert (∀ c', c' < KERNEL_CPU_CAPACITY → cst s c' = cpu_state_new N) as Hcst.
  { intros c' Hc'. unfold cst, s. cbn [cpus]. by rewrite lookup_replicate_2. }
  assert (∀ c', remote s c' = [] ∧ ipi s c' = false) as Hq.
  { intros c'. unfold remote, ipi, s. cbn [remote_ready scheduler_ipi_pending]. destruct (decide (c' < KERNEL_CPU_CAPACITY)).
    - by rewrite !lookup_replicate_2.
    - by rewrite !lookup_ge_None_2 by (rewrite length_replicate; lia). }
  assert (∀ x t, ¬ live s x t) as Hl by (by intros [] t).
  split_and!; try done. split.
  - split; try done; [simpl; lia| | | |].
    + intros c' st [-> _]%lookup_replicate. done.
    + intros c' q [-> _]%lookup_replicate. done.
    + intros i. split; [by intros ?%elem_of_nil|]. intros (slot & ? & _). done.
    + apply NoDup_nil_2.
  - by intros x t ?%Hl.
  - intros c' Hc'. rewrite (Hcst c' Hc'). destruct (Hq c') as [-> ->]. rewrite bool_decide_false by done.
    assert (∀ x, state_on s c' x = None) as Hst.
    { intros x. unfold state_on. destruct (table_get s x) eqn:Hx; [by apply Hl in Hx|done]. }
    split; try done; intros; rewrite ?Hst in *; try done.
    + unfold places. simpl. apply NoDup_nil_2.
    + unfold places, runnable_state. simpl. rewrite elem_of_nil. naive_solver.
    + simpl. split; [done|]. by intros [[? ?]|].
    + by match goal with H : is_Some _ |- _ => destruct H end.
  - by intros c' x t _ _ ?%Hl.
  - split; intros; exfalso; by eapply Hl.
Qed.

Lemma booting_idle w stack_of idle quantum s :
  1 ≤ N ≤ KERNEL_THREAD_CAPACITY → transition_new N quantum = Done s →
  wp (transition_append_bootstrap E (stack_of 0) (st_entry idle) (st_arg idle) true)
     (λ _ w', ∃ s', w' = set_w_sched s' w ∧ booting stack_of idle [] s') (set_w_sched s w).
Proof.
  intros HN Hs. destruct (new_sched_ok quantum HN) as (s0 & Hs0 & Hok & Hsl & Hf & Hcst & Hq).
  rewrite Hs in Hs0. injection Hs0 as <-.
  assert (c < length (cpus s)) as Hlen by (by apply (here_length Hok)).
  assert (idl s c = None) as Hi by (unfold idl; by rewrite Hcst).
  eapply wp_mono; [apply (append_idle_spec (w:=set_w_sched s w) Hok); [simpl; rewrite Hsl; simpl; lia|done]|].
  intros id w' [_ ->]. simpl. rewrite Hsl. simpl. eexists. split; [done|].
  pose proof (append_idle_ok (w:=set_w_sched s w) (stack:=stack_of 0) (entry:=st_entry idle) (arg:=st_arg idle) Hok) as Hok'.
  pose proof (append_get (w:=set_w_sched s w) (stack:=stack_of 0) (entry:=st_entry idle) (arg:=st_arg idle)) as Hget.
  simpl in Hok', Hget. rewrite Hsl in Hok', Hget. simpl in Hok', Hget.
  split; [apply Hok'; [lia|done]|done|done| | | |].
  - intros x. etrans; [apply Hget|]. rewrite (boot_get_snoc stack_of [] idle x : boot_get stack_of [idle] x = _). simpl.
    destruct (decide _); [done|]. unfold boot_get, table_get. rewrite Hsl. simpl. by destruct (decide _).
  - rewrite cst_alter_cpu by done. rewrite decide_True by done. change (cst (fill_s _ _ _ _) c) with (cst s c). by rewrite Hcst.
  - intros c' Hc' Hne. rewrite cst_alter_cpu by done. rewrite decide_False by done. apply (Hcst c' Hc').
  - intros c'. apply Hq.
Qed.

Lemma booting_step w stack_of idle placed th :
  booting stack_of idle placed (w_sched w) → S (length placed) < N →
  wp (transition_append_bootstrap E (stack_of (S (length placed))) (st_entry th) (st_arg th) false)
     (λ _ w', ∃ s', w' = set_w_sched s' w ∧ booting stack_of idle (placed ++ [th]) s') w.
Proof.
  intros [Hok Hlen Hf Hget Hh Ho Hq] Hlt. assert (c < length (cpus (w_sched w))) as Hcl by (by apply (here_length Hok)).
  assert (is_Some (idl (w_sched w) c)) as Hi by (unfold idl; by rewrite Hh).
  eapply wp_mono; [apply (append_queued_spec Hok); [by rewrite Hlen|done]|].
  intros id w' [_ ->]. eexists. split; [done|]. split.
  - apply append_queued_ok; [done|by rewrite Hlen|done].
  - etrans; [apply fill_length|]. etrans; [apply length_app|]. rewrite length_app, Hlen. simpl. lia.
  - done.
  - intros x. etrans; [apply append_get|]. change (idle :: placed ++ [th]) with ((idle :: placed) ++ [th]).
    rewrite boot_get_snoc, Hget, Hlen. done.
  - unfold queue_local_s. rewrite cst_alter_cpu by done. rewrite decide_True by done.
    change (cst (fill_s _ _ _ _) c) with (cst (w_sched w) c). rewrite Hh, Hlen, length_app, Nat.add_1_r, static_ids_snoc. done.
  - intros c' Hc' Hne. unfold queue_local_s. rewrite cst_alter_cpu by done. rewrite decide_False by done. apply (Ho c' Hc' Hne).
  - intros c'. apply Hq.
Qed.

Lemma append_static_spec w stack_of idle placed threads :
  booting stack_of idle placed (w_sched w) → S (length placed + length threads) ≤ N →
  wp (append_static_threads E stack_of threads)
     (λ _ w', ∃ s', w' = set_w_sched s' w ∧ booting stack_of idle (placed ++ threads) s') w.
Proof.
  revert w placed. induction threads as [|th threads IH]; intros w placed Hb Hle; simpl in *.
  - apply wp_ret. exists (w_sched w). rewrite app_nil_r. split; [by destruct w|done].
  - wp_step. wp_step. rewrite (bt_len _ _ _ _ Hb). wp_step. eapply wp_mono; [apply booting_step; [done|lia]|].
    intros _ w1 (s1 & -> & Hb1). eapply wp_mono; [apply (IH (set_w_sched s1 w)); [exact Hb1|rewrite length_app; simpl; lia]|].
    intros _ w2 (s2 & -> & Hb2). exists s2. rewrite <-app_assoc in Hb2. done.
Qed.

(** ** The first selection *)

(** The scheduler that [bootstrap] publishes: every slot exists, the first
    static thread (or idle, without any) is selected, the other static threads
    are queued in their order and no CPU is online. *)
Record booted (stack_of : nat → OwnedKernelStack) (idle : StaticThread) (threads : list StaticThread)
    (s : Scheduler) : Prop := {
  bd_ok : sched_ok N None s;
  bd_len : length (table_slots s) = N;
  bd_free : free_slots (lifecycle s) = reverse (seq (S (length threads)) (N - S (length threads)));
  bd_cur : cur s c = Some (mkThreadId (match threads with [] => 0 | _ => 1 end) INITIAL_THREAD_GENERATION);
  bd_ready : ready s c = tail (static_ids (length threads));
  bd_idle : idl s c = Some (mkThreadId 0 INITIAL_THREAD_GENERATION);
  bd_online : ∀ c', cs_online (cst s c') = false;
  bd_others : ∀ c', c' < KERNEL_CPU_CAPACITY → c' ≠ c → cst s c' = cpu_state_new N;
  bd_get : ∀ x, table_get s x =
    (if decide (cur s c = Some x) then set_t_state Running else id) <$> boot_get stack_of (idle :: threads) x
}.

Lemma boot_get_live stack_of l i th :
  l !! i = Some th →
  boot_get stack_of l (mkThreadId i INITIAL_THREAD_GENERATION) = Some (boot_thread (stack_of i) (st_entry th) (st_arg th)).
Proof. intros Hi. unfold boot_get. simpl. by rewrite Hi. Qed.

Lemma first_selected s stack_of idle threads :
  booting stack_of idle threads s →
  let to := mkThreadId (match threads with [] => 0 | _ => 1 end) INITIAL_THREAD_GENERATION in
  let rest := tail (static_ids (length threads)) in
  selects s c to rest ∧ next_of E s (cst s c) to rest.
Proof.
  intros Hb to rest. pose proof (bt_here _ _ _ _ Hb) as Hh. pose proof (bt_get _ _ _ _ Hb) as Hg.
  assert (∃ t, live s to t ∧ t_state t = Ready ∧ t_home_cpu t = c) as Hl.
  { unfold to, live. rewrite Hg. destruct threads as [|th threads].
    - rewrite (boot_get_live _ _ _ idle) by done. by eexists.
    - rewrite (boot_get_live _ _ _ th) by done. by eexists. }
  unfold selects, next_of, ready, idl. rewrite Hh. unfold to, rest. destruct threads as [|th threads]; simpl.
  - split; [by right|]. split; [by right|done].
  - split; [by left|]. split; [by left|done].
Qed.

Lemma bootstrap_finish w stack_of idle threads stacks :
  booting stack_of idle threads (w_sched w) → S (length threads) ≤ N → length stacks = N - S (length threads) →
  wp (transition_initial_dispatch E)
     (λ r w', r = inl tt ∧ ∃ s', w' = set_w_sched s' w ∧ booted stack_of idle threads s')
     (on_sched (transition_fill_free_slots stacks) w).
Proof.
  intros Hb Hle Hst. pose proof Hb as [Hok Hlen Hf Hget Hh Ho Hq]. set (s1 := w_sched w) in *.
  pose proof (fill_free_grow stacks s1 N Hok) as Hok2.
  destruct (fill_free_views stacks s1) as (Hg2 & Hc2 & _ & _ & Hl2 & Hf2).
  set (s2 := transition_fill_free_slots stacks s1) in *. specialize (Hok2 ltac:(lia)).
  assert (∀ c', cst s2 c' = cst s1 c') as Hcst by (intros c'; unfold cst; by rewrite Hc2).
  destruct (first_selected s1 stack_of idle threads Hb) as [Hsel Hnx]. cbv zeta in Hsel, Hnx.
  set (to := mkThreadId (match threads with [] => 0 | _ => 1 end) INITIAL_THREAD_GENERATION) in *.
  set (rest := tail (static_ids (length threads))) in *.
  destruct Hnx as [Hnx (tto & Hlt & Hrt & Hht)].
  assert (live s2 to tto) as Hlt2 by (unfold live; rewrite Hg2; exact Hlt).
  assert (cur s2 c = None) as Hcur by (unfold cur; by rewrite Hcst, Hh).
  pose proof (sched_start N s2 c Hok2 Hcpu Hcur) as Hok3.
  assert (∀ c', cst (start_s c s2) c' = if decide (c = c') then set_cs_initialized true (cst s2 c) else cst s2 c') as Hcst3.
  { intros c'. apply cst_alter_cpu. by apply (here_length Hok2). }
  assert (sched_ok N None (enter_s to rest c (start_s c s2))) as Hok4.
  { apply (sched_enter Hcpu to tto rest Hok3); [|unfold selects, ready, idl; by rewrite Hcst3, decide_True, Hcst|done].
    unfold cur. by rewrite Hcst3, decide_True. }
  eapply wp_initial_dispatch; [by apply (cst_lookup Hok2)|done| | |].
  { split; [|by exists tto]. rewrite Hcst. exact Hnx. }
  { by eapply sched_ok_valid. }
  split; [done|]. eexists. split; [done|]. change (w_sched (on_sched (transition_fill_free_slots stacks) w)) with s2.
  assert (∀ c', cst (enter_s to rest c (start_s c s2)) c' = if decide (c = c')
            then set_cs_current (Some to) (set_cs_ready rest (set_cs_initialized true (cst s1 c))) else cst s1 c') as Hcst4.
  { intros c'. unfold enter_s. rewrite cst_alter_cpu by (change (c < length (cpus (start_s c s2))); by rewrite (sh_cpus _ _ (so_shape _ _ _ Hok3))).
    rewrite !cst_alter_thread, !Hcst3, (decide_True (P:=c = c)), !Hcst by done. by destruct (decide (c = c')). }
  split; [done|etrans; [apply length_alter|]; etrans; [exact Hl2|]; lia| | | | | | |].
  - etrans; [exact Hf2|]. by rewrite Hf, app_nil_r, Hlen, Hst.
  - unfold cur. by rewrite Hcst4, decide_True.
  - unfold ready. by rewrite Hcst4, decide_True.
  - unfold idl. by rewrite Hcst4, decide_True, Hh.
  - intros c'. rewrite Hcst4. destruct (decide (c = c')); [by rewrite Hh|].
    destruct (decide (c' < KERNEL_CPU_CAPACITY)); [by rewrite Ho|]. unfold cst. by rewrite lookup_ge_None_2 by (rewrite (sh_cpus _ _ (so_shape _ _ _ Hok)); lia).
  - intros c' Hc' Hne. by rewrite Hcst4, decide_False, Ho.
  - intros x. replace (cur (enter_s to rest c (start_s c s2)) c) with (Some to) by (unfold cur; by rewrite Hcst4, decide_True).
    unfold enter_s. rewrite table_get_alter_cpu, table_get_alter.
    change (table_get (start_s c s2) x) with (table_get s2 x). rewrite Hg2, Hget. destruct (decide (Some to = Some x)) as [[= <-]|Hne]; [by rewrite decide_True|].
    rewrite option_fmap_id. destruct (decide (tid_index x = tid_index to)) as [Hi|]; [|done].
    destruct (boot_get stack_of (idle :: threads) x) as [tx|] eqn:Hx; [|done]. destruct Hne. f_equal.
    eapply (live_index_inj s1); [exact Hlt|unfold live; by rewrite Hget|done].
Qed.
End boot_spec.

(** * From power-on to the first thread *)

(** Power-on state of everything beside the scheduler. *)
Record machine_reset (w : World) : Prop := {
  mr_preempt : w_preempt w = replicate KERNEL_CPU_CAPACITY preemption_new;
  mr_time : w_time w = replicate KERNEL_CPU_CAPACITY None;
  mr_timer : w_timer w = replicate KERNEL_CPU_CAPACITY None;
  mr_active : length (w_active w) = KERNEL_CPU_CAPACITY;
  mr_vm : w_vm w = vm_boot
}.

Lemma vm_boot_ok : vm_ok vm_boot.
Proof.
  split; [|done]. intros c1 c2 s1 s2 [-> _]%lookup_replicate [-> _]%lookup_replicate _ H. by destruct H.
Qed.

(** A machine whose CPUs are all offline, without pending events or user
    threads, satisfies the invariant. *)
Lemma offline_kernel N w :
  sched_ok N None (w_sched w) → hw_ok Stable w → vm_ok (w_vm w) →
  (∀ c, cs_online (cst (w_sched w) c) = false) → (∀ c, events w c = ∅) →
  (∀ tid t, live (w_sched w) tid t → t_user t = None) → kernel_ok N w.
Proof.
  intros Hs Hhw Hvm Hoff Hev Hu.
  assert (∀ c ev, ¬ pending w c ev) as Hp.
  { intros c ev. unfold pending. rewrite Hev, lookup_empty. by intros [? ?]. }
  split; [|intros c tid t; by rewrite Hoff]. split; [done|done|]. split.
  - by intros c c' tok ?%Hp.
  - by intros c c' t ?%Hp.
  - by intros tok c _ ?%Hp.
  - intros c t _. by rewrite Hoff.
  - intros c. by rewrite Hoff.
  - assert (∀ tid t r, live (w_sched w) tid t → thread_root t ≠ Some r) as Hr.
    { intros tid t r Hl. unfold thread_root. by rewrite (Hu tid t Hl). }
    split; [done|..].
    + intros tid t r c u Hl Hx. by destruct (Hr tid t r Hl).
    + intros tid1 t1 tid2 t2 r Hl _ Hx. by destruct (Hr tid1 t1 r Hl).
    + intros tid t r Hl Hx. by destruct (Hr tid t r Hl).
  - by intros c t ?%Hp.
Qed.

Lemma reset_times w c : machine_reset w → time_at w c = None.
Proof.
  intros Hr. unfold time_at. rewrite (mr_time _ Hr). destruct (decide (c < KERNEL_CPU_CAPACITY)).
  - by rewrite lookup_replicate_2.
  - by rewrite lookup_ge_None_2 by (rewrite length_replicate; lia).
Qed.

Lemma reset_hw w : machine_reset w → hw_ok Stable w.
Proof.
  intros Hr. split.
  - rewrite (mr_preempt _ Hr). apply length_replicate.
  - rewrite (mr_time _ Hr). apply length_replicate.
  - rewrite (mr_timer _ Hr). apply length_replicate.
  - apply (mr_active _ Hr).
  - intros c ts. by rewrite reset_times.
Qed.

Section start.
Context (E : Env) {N : nat}.
Hypothesis Hcpu : e_cpu E < KERNEL_CPU_CAPACITY.
Abbreviation c := (e_cpu E).

Lemma quiescent_spec w p :
  w_preempt w !! c = Some p → disable_depth p = 0%Z → reschedule_pending p = false →
  wp (assert_pre_scheduler_state_quiescent c) (λ _ w', w' = w) w.
Proof.
  intros Hp Hd Hr. apply wp_bind. eapply wp_reads; [by rewrite Hp|]. wp_step; [|done]. by rewrite Hd, Hr.
Qed.

(** ** The boot CPU *)

Lemma required_slots_exact n m :
  (0 <= n)%Z → (0 <= m)%Z →
  required_bootstrap_slots n m = if (n + m <=? u64_max)%Z then inl (n + m)%Z else inr ThreadCapacityTooSmall.
Proof. intros Hn Hm. unfold required_bootstrap_slots, u64_checked_add. by destruct (_ <=? _)%Z. Qed.

(** With one slot for idle and one for each static thread the bootstrap
  publishes the scheduler of [booted], and nothing else has changed. *)
Theorem bootstrap_spec w expected stack_of idle threads quantum :
  machine_reset w → N ≤ KERNEL_THREAD_CAPACITY → 1 ≤ expected → length threads + expected ≤ N →
  wp (bootstrap E false expected stack_of (st_entry idle) (st_arg idle) threads quantum N)
   (λ r w', r = inl tt ∧ kernel_ok N w' ∧ ∃ s', w' = set_w_sched s' w ∧ booted E (N:=N) stack_of idle threads s') w.
Proof.
  intros Hr HN He Hlen. unfold bootstrap. wp_step. wp_step. wp_step. unfold bootstrap_new.
  rewrite required_slots_exact by lia.
  replace (_ <=? u64_max)%Z with true by (symmetry; apply Z.leb_le; unfold u64_max, KERNEL_THREAD_CAPACITY in *; lia).
  replace (_ <? _)%Z with false by (symmetry; apply Z.ltb_ge; lia).
  destruct (new_sched_ok E Hcpu (N:=N) quantum) as (s0 & Hs0 & _); [lia|].
  wp_step. eapply wp_reads; [exact Hs0|]. wp_step. apply wp_modify. wp_step.
  eapply wp_mono; [apply (booting_idle E (N:=N) Hcpu w stack_of idle quantum s0); [lia|done]|].
  intros _ w1 (s1 & -> & Hb1). wp_step.
  eapply wp_mono; [apply (append_static_spec E (N:=N) Hcpu (set_w_sched s1 w) stack_of idle [] threads Hb1); simpl; lia|].
  intros _ w2 (s2 & -> & Hb2). simpl in Hb2. wp_step. wp_step. wp_step. apply wp_modify.
  eapply wp_mono; [apply (bootstrap_finish E (N:=N) Hcpu (set_w_sched s2 w) stack_of idle threads); [exact Hb2|lia|]|].
  { rewrite length_fmap, length_seq. simpl. by rewrite (bt_len _ _ _ _ _ Hb2). }
  intros r w3 (-> & s3 & -> & Hb3). wp_step. eapply wp_mono; [apply (quiescent_spec (set_w_sched s3 w) preemption_new); try done|].
  { simpl. by rewrite (mr_preempt _ Hr), lookup_replicate_2. }
  intros _ w4 ->. apply wp_ret. split; [done|]. split; [|by exists s3]. apply offline_kernel.
  - apply (bd_ok _ _ _ _ _ Hb3).
  - apply reset_hw. destruct Hr; by split.
  - simpl. rewrite (mr_vm _ Hr). apply vm_boot_ok.
  - apply (bd_online _ _ _ _ _ Hb3).
  - intros c'. unfold events. by rewrite (reset_times (set_w_sched s3 w)) by (destruct Hr; by split).
  - intros x t. unfold live. simpl. rewrite (bd_get _ _ _ _ _ Hb3). intros (t0 & Ht0 & ->)%fmap_Some.
  unfold boot_get in Ht0. destruct (decide (tid_generation x = _)); [|done].
  apply fmap_Some in Ht0 as (th & _ & ->). by destruct (decide _).
Qed.

(** ** Event queues *)

Lemma links_events m s w w' :
  links m s w → (∀ c, events w' c = events w c) → (∀ c, is_Some (time_at w c) → is_Some (time_at w' c)) →
  w_vm w' = w_vm w → links m s w'.
Proof.
  intros [H1 H2 H3 H4 H5 H6 HP] Hev Ht Hvm. split; unfold pending in *; intros; rewrite ?Hev, ?Hvm in *; eauto.
Qed.

Definition init_times (count : nat) (w : World) : World :=
  set_w_time (replicate count (Some (time_state_new EVENT_CAPACITY)) ++ drop count (w_time w)) w.

Lemma init_times_at count w c' :
  count ≤ KERNEL_CPU_CAPACITY → w_time w = replicate KERNEL_CPU_CAPACITY None →
  time_at (init_times count w) c' = if decide (c' < count) then Some (time_state_new EVENT_CAPACITY) else None.
Proof.
  intros Hc Hw. unfold time_at, init_times. simpl. rewrite Hw, drop_replicate. destruct (decide (c' < count)).
  - rewrite lookup_app_l by (by rewrite length_replicate). by rewrite lookup_replicate_2.
  - rewrite lookup_app_r by (rewrite length_replicate; lia). rewrite length_replicate.
  destruct (replicate _ _ !! _) eqn:Hx; [|done]. apply lookup_replicate in Hx as [-> _]. done.
Qed.

Lemma init_cpu_states_spec w reserve count :
  kernel_ok N w → w_time w = replicate KERNEL_CPU_CAPACITY None → w_timer w = replicate KERNEL_CPU_CAPACITY None →
  1 ≤ count ≤ KERNEL_CPU_CAPACITY → (∀ c', c' < count → reserve c' = true) →
  wp (init_cpu_states reserve count)
   (λ r w', r = inl tt ∧ w' = init_times count w ∧ kernel_ok N w' ∧
      ∀ c', is_Some (time_at w' c') ↔ c' < count) w.
Proof.
  intros [[Hs Hhw Hlk] Hsp] Hw Hti Hc Hres. unfold init_cpu_states.
  rewrite !bool_decide_false by lia. simpl orb. cbv iota zeta.
  replace (u64_max <? _)%Z with false by done. wp_step. wp_step.
  replace (existsb _ _) with false.
  2:{ rewrite Hw, take_replicate. symmetry. apply not_true_iff_false. intros (x & Hx & Hb)%existsb_exists.
    apply list_elem_of_In, elem_of_replicate in Hx as [-> _]. done. }
  replace (forallb reserve (seq 0 count)) with true.
  2:{ symmetry. apply forallb_forall. intros x Hx%in_seq. apply Hres. lia. }
  simpl negb. cbv iota. wp_step. apply wp_modify. apply wp_ret. change (Z.to_nat _) with EVENT_CAPACITY. fold (init_times count w).
  pose proof (init_times_at count w) as Hat.
  split_and!; [done|done| |].
  - split; [|exact Hsp]. split; [done| |].
  + destruct Hhw as [H1 H2 H3 H4 H5]. split; try done.
    * simpl. rewrite length_app, length_replicate, length_drop, H2. lia.
    * intros c' ts. rewrite Hat by (done || lia). destruct (decide (c' < count)); [|done]. intros [= <-].
      split; [|by intros []]. intros _. split; [apply (time_inv_new c' EVENT_CAPACITY)|].
      simpl. rewrite Hti. by rewrite lookup_replicate_2 by lia.
  + apply (links_events _ _ w); [done| |intros c' [ts Hts]; unfold time_at in Hts; rewrite Hw in Hts|done].
    * intros c'. unfold events. rewrite Hat by (done || lia).
      assert (time_at w c' = None) as ->.
      { unfold time_at. rewrite Hw. destruct (replicate _ _ !! c') eqn:Hx; [|done]. by apply lookup_replicate in Hx as [-> _]. }
      destruct (decide _); [|done]. apply (time_new_events (Q:=DeadlineQueue)).
    * destruct (replicate _ _ !! c') eqn:Hx; [|done]. by apply lookup_replicate in Hx as [-> _].
  - intros c'. rewrite Hat by (done || lia). destruct (decide (c' < count)); split; done.
Qed.

(** ** A secondary CPU *)

(** The CPU has not been given to the scheduler yet. *)
Record unclaimed (s : Scheduler) : Prop := {
  un_initialized : cs_initialized (cst s c) = false;
  un_current : cur s c = None;
  un_idle : idl s c = None
}.

Section claim.
Context {w : World} {id : nat} {rest : list nat} {slot : ThreadSlot} {stack : OwnedKernelStack} {entry arg : Z}.
Hypothesis Hk : kernel_ok N w.
Hypothesis Hun : unclaimed (w_sched w).
Hypothesis Hfree : free_slots (lifecycle (w_sched w)) = id :: rest.
Hypothesis Hslot : table_slots (w_sched w) !! id = Some slot.
Hypothesis Hnone : sl_thread slot = None.
Hypothesis Hstack : sl_stack slot = Some stack.
Let tid := mkThreadId id INITIAL_THREAD_GENERATION.
Let frame := kernel_entry (stack_top_of stack) entry arg (e_bootstrap_pc E).
Let t := fresh_thread c false None (sl_next_wait_sequence slot) stack frame.
Let s0 := set_free_slots rest (w_sched w).
Let s1 := fill_s id INITIAL_THREAD_GENERATION t s0.
Let s2 := alter_cpu (set_cs_idle (Some tid)) c s1.
Let s3 := enter_s tid [] c (start_s c s2).

Lemma claim_offline : cs_online (cst (w_sched w) c) = false.
Proof.
  pose proof (so_cpu _ _ _ (wo_sched _ _ _ (ko_world _ _ _ Hk)) c Hcpu) as Hinv.
  destruct (cs_online _) eqn:Ho; [|done]. apply (ci_online _ _ _ _ _ Hinv) in Ho. by rewrite (un_initialized _ Hun) in Ho.
Qed.

Lemma claim_empty : ready (w_sched w) c = [].
Proof.
  pose proof (wo_sched _ _ _ (ko_world _ _ _ Hk)) as Hs. destruct (ready (w_sched w) c) as [|x l] eqn:Hr; [done|].
  assert (x ∈ ready (w_sched w) c ++ remote (w_sched w) c) as Hx by (rewrite Hr; by left).
  apply (queued_spec Hs c x Hcpu) in Hx as (tx & Hl & Hh & _). pose proof (home_idle Hs x tx Hl) as [y Hy].
  rewrite Hh in Hy. by rewrite (un_idle _ Hun) in Hy.
Qed.

Lemma claim_dead : table_get (w_sched w) tid = None.
Proof. by eapply free_dead. Qed.

Lemma claim_changed : thread_changed (w_sched w) s1 tid (Some t).
Proof. intros x. unfold s1. by rewrite (table_get_fill _ _ _ _ slot). Qed.

Lemma claim_thread : thread_ok tid t.
Proof.
  destruct (sh_slots _ _ (so_shape _ _ _ (wo_sched _ _ _ (ko_world _ _ _ Hk))) _ _ Hslot) as [_ _ Hq].
  apply fresh_thread_ok; [done| |done|done]. unfold INITIAL_THREAD_GENERATION, u32_max. lia.
Qed.

Lemma claim_idle_ok : sched_ok N None s2.
Proof.
  apply (sched_publish_idle (s:=w_sched w) (s1:=s1) (t:=t)); first [done|apply claim_thread|apply claim_changed|apply claim_dead|apply Hun|apply (wo_sched _ _ _ (ko_world _ _ _ Hk))|idtac].
  apply (shape_fill N (w_sched w) id INITIAL_THREAD_GENERATION t slot rest); [apply Hk|done..|].
  unfold INITIAL_THREAD_GENERATION, u32_max. lia.
Qed.

Lemma claim_live : live s2 tid t.
Proof. apply (changed_self _ _ _ _ claim_changed). Qed.

Lemma claim_cst2 c' : cst s2 c' = if decide (c = c') then set_cs_idle (Some tid) (cst (w_sched w) c) else cst (w_sched w) c'.
Proof. unfold s2. by rewrite cst_alter_cpu by (by apply (here_length (wo_sched _ _ _ (ko_world _ _ _ Hk)))). Qed.

Lemma claim_cst3 c' : cst s3 c' = if decide (c = c')
  then set_cs_current (Some tid) (set_cs_ready [] (set_cs_initialized true (set_cs_idle (Some tid) (cst (w_sched w) c))))
  else cst (w_sched w) c'.
Proof.
  assert (c < length (cpus s2)) as Hl by (by apply (here_length claim_idle_ok)).
  unfold s3, enter_s, start_s. rewrite cst_alter_cpu by (simpl; by rewrite length_alter).
  rewrite !cst_alter_thread, !cst_alter_cpu, !claim_cst2 by done. rewrite !(decide_True (P:=c = c)) by done.
  by destruct (decide (c = c')).
Qed.

Lemma claim_ok : sched_ok N None s3.
Proof.
  apply (sched_enter Hcpu tid t []); [|unfold cur|right; unfold ready, idl|exact claim_live].
  - apply sched_start; [apply claim_idle_ok|done|]. unfold cur. rewrite claim_cst2, decide_True by done. apply Hun.
  - unfold start_s. rewrite cst_alter_cpu by (by apply (here_length claim_idle_ok)).
  rewrite decide_True, claim_cst2, decide_True by done. apply Hun.
  - unfold start_s. rewrite cst_alter_cpu by (by apply (here_length claim_idle_ok)).
  rewrite decide_True, claim_cst2, decide_True by done. split_and!; [apply claim_empty|done|done].
Qed.

Lemma claim_links : links Stable s3 w.
Proof.
  pose proof (wo_links _ _ _ (ko_world _ _ _ Hk)) as Hlk.
  assert (links Stable s1 w) as L1.
  { eapply links_new; [exact Hlk|apply claim_changed|apply claim_dead|done|done|done]. }
  assert (links Stable (start_s c s2) w) as L2.
  { eapply links_ext; [exact L1|done|]. intros c'. unfold cur, ready, start_s.
  rewrite cst_alter_cpu, claim_cst2 by (by apply (here_length claim_idle_ok)).
  change (cst s1 c') with (cst (w_sched w) c'). rewrite claim_cst2, (decide_True (P:=c = c)) by done. by destruct (decide (c = c')) as [<-|]. }
  assert (∀ x, ¬ pending w c (quantum_expired c x)) as Hnq.
  { intros x Hp. destruct (lk_quantum _ _ _ Hlk _ _ _ Hp) as [_ [Hc|[]]]. by rewrite (un_current _ Hun) in Hc. }
  assert (links (Busy c false None) s3 w) as L3.
  { apply (links_cpu c false None None); [|simpl; rewrite length_alter; by apply (here_length claim_idle_ok)|done| |].
  - eapply links_thread; [apply links_busy, L2|exact claim_live|]. apply link_state.
  - intros x [Hx|]; [|done]. unfold cur in Hx. rewrite cst_alter_thread in Hx. unfold start_s in Hx.
    rewrite cst_alter_cpu in Hx by (by apply (here_length claim_idle_ok)). rewrite decide_True, claim_cst2, decide_True in Hx by done.
    pose proof (un_current _ Hun). unfold cur in *. simpl in Hx. congruence.
  - intros x _ Hp. by destruct (Hnq x). }
  eapply links_stable; [exact L3| |].
  - intros x Hp. by destruct (Hnq x).
  - intros x. rewrite claim_cst3, decide_True by done. simpl. by rewrite claim_offline.
Qed.
Lemma claim_views x tx : live s3 x tx → x = tid ∧ tx = set_t_state Running t ∨ x ≠ tid ∧ live (w_sched w) x tx.
Proof.
  pose proof (alter_thread_changed (start_s c s2) (set_t_state Running) tid t claim_live) as Hch.
  intros [[-> Hx]|[Hne Hx]]%(changed_live _ _ _ _ x tx Hch); [left; by simplify_eq|right; split; [done|]].
  apply (changed_live _ _ _ _ _ _ claim_changed) in Hx as [[? _]|[_ ?]]; done.
Qed.

Lemma claim_kernel : kernel_ok N (set_w_sched s3 w) ∧ frames_added tid frame w (set_w_sched s3 w).
Proof.
  pose proof Hk as [[Hs Hhw _] Hsp]. pose proof claim_cst3 as Hcst.
  assert (live s3 tid (set_t_state Running t)) as Hl3.
  { apply (live_alter_same (set_t_state Running) tid (start_s c s2)), claim_live. }
  split.
  - split; [apply (world_ok_set_sched N Stable); [done|done|apply claim_ok|apply claim_links]|].
    intros c' x tx. unfold cur. simpl. rewrite Hcst. destruct (decide (c = c')) as [<-|Hne]; [simpl; by rewrite claim_offline|].
    intros Ho Hc Hx. destruct (claim_views x tx Hx) as [[-> _]|[_ Hl]]; [|by eapply Hsp].
    destruct (decide (c' < KERNEL_CPU_CAPACITY)) as [Hlt|Hge].
    + destruct (current_live Hs c' tid Hlt Hc) as (t0 & Hl0 & _). pose proof claim_dead. unfold live in Hl0. congruence.
    + unfold cst in Hc. rewrite lookup_ge_None_2 in Hc by (rewrite (sh_cpus _ _ (so_shape _ _ _ Hs)); lia). done.
  - split_and!.
    + unfold frame_of. by rewrite claim_dead.
    + unfold frame_of, on_cpu. simpl. rewrite Hl3. simpl. rewrite Hcst, decide_True by done. simpl. by rewrite claim_offline.
    + intros x tx Hne Hx. destruct (claim_views x tx Hx) as [[? _]|[_ Hl]]; [done|].
      exists tx. split_and!; [done|done|]. intros _. unfold frame_of, on_cpu, cur. simpl. rewrite Hx, Hl, Hcst.
      destruct (decide (c = t_home_cpu tx)) as [Hc|]; [|done]. simpl. by rewrite <-Hc, claim_offline.
Qed.

Lemma claim_spec :
  wp (transition_initialize_idle_current E entry arg)
     (λ r w', r = inl tt ∧ w' = set_w_sched s3 w) w.
Proof.
  pose proof (wo_sched _ _ _ (ko_world _ _ _ Hk)) as Hs. pose proof Hun as [U1 U2 U3]. unfold cur, idl in U2, U3.
  apply wp_bind. eapply wp_local_state; [by apply (cst_lookup Hs)|]. rewrite U1, U2, U3. simpl orb. cbv iota.
  wp_step. apply wp_bind. wp_step. rewrite Hfree. wp_step. apply wp_modify. apply wp_ret. wp_step. apply wp_bind.
  assert (slot_at s0 id = Done slot) as Hat.
  { unfold slot_at. change (table_slots s0) with (table_slots (w_sched w)). by rewrite Hslot. }
  eapply (wp_with_sched _ _ _ slot); [exact Hat|]. wp_step. eapply wp_expect; [done|].
  eapply (wp_publish_idle E (w:=set_w_sched s0 w) Hslot Hnone Hstack);
    [done|by apply wp_ret|done|by apply (cst_lookup Hs)|done|eapply sched_ok_valid, claim_idle_ok|].
  eapply (wp_initial_dispatch E _ (cst s2 c) tid []); [by apply (cst_lookup claim_idle_ok)| | |eapply sched_ok_valid, claim_ok|done].
  - rewrite claim_cst2, decide_True by done. done.
  - split; [right|by exists t; split; [apply claim_live|]]. rewrite claim_cst2, decide_True by done.
    split_and!; [apply claim_empty|done|done].
Qed.
End claim.

Theorem initialize_current_cpu_spec w entry arg p :
  kernel_ok N w → c ≠ 0 → c < e_registered E → unclaimed (w_sched w) →
  w_preempt w !! c = Some p → disable_depth p = 0%Z → reschedule_pending p = false →
  wp (initialize_current_cpu E true entry arg)
     (λ r w', kernel_ok N w' ∧
        match free_slots (lifecycle (w_sched w)) with
        | [] => r = false ∧ w' = w
        | id :: _ => r = true ∧ ∃ stack,
            frames_added (mkThreadId id INITIAL_THREAD_GENERATION)
              (kernel_entry (stack_top_of stack) entry arg (e_bootstrap_pc E)) w w' ∧
            cur (w_sched w') c = Some (mkThreadId id INITIAL_THREAD_GENERATION) ∧
            idl (w_sched w') c = Some (mkThreadId id INITIAL_THREAD_GENERATION) ∧
            cs_online (cst (w_sched w') c) = false ∧ ∃ s', w' = set_w_sched s' w
        end) w.
Proof.
  intros Hk Hc0 Hreg Hun Hp Hd Hr. unfold initialize_current_cpu.
  rewrite bool_decide_false, bool_decide_true by done. simpl orb. cbv iota. wp_step.
  eapply wp_mono; [by apply (quiescent_spec w p)|]. intros _ w0 ->. simpl negb. cbv iota. wp_step.
  destruct (free_slots (lifecycle (w_sched w))) as [|id rest] eqn:Hf.
  - pose proof (wo_sched _ _ _ (ko_world _ _ _ Hk)) as Hs. pose proof Hun as [U1 U2 U3]. unfold cur, idl in U2, U3.
    apply wp_bind. eapply wp_local_state; [by apply (cst_lookup Hs)|]. rewrite U1, U2, U3. simpl orb. cbv iota.
    wp_step. apply wp_bind. wp_step. rewrite Hf. by do 3 apply wp_ret.
  - destruct (free_slot (N:=N) w id rest Hk Hf) as (slot & stack & Hsl & Hn & Hst).
    eapply wp_mono; [by apply (claim_spec Hk Hun Hf Hsl Hn Hst)|]. intros r w' [-> ->]. apply wp_ret.
    destruct (claim_kernel (stack:=stack) (entry:=entry) (arg:=arg) Hk Hun Hf Hsl Hn) as [Hk' Hfr].
    split; [done|]. split; [done|]. exists stack. split; [done|].
    unfold cur, idl. simpl. rewrite (claim_cst3 Hk Hun Hf Hsl Hn), decide_True by done. simpl.
    split_and!; [done|done|by apply (claim_offline Hk)|by eexists].
Qed.

(** ** Entering the selected thread *)

Lemma links_online s w :
  links Stable s w → c < length (cpus s) → is_Some (time_at w c) →
  (∀ t, cur s c = Some t → ready s c ≠ [] → pending w c (quantum_expired c t)) → links Stable (online_s c s) w.
Proof.
  intros [H1 H2 H3 H4 H5 H6 HP] Hc Hts Ha.
  assert (∀ c', cst (online_s c s) c' = if decide (c = c') then set_cs_online true (cst s c) else cst s c') as Hcst.
  { intros c'. by apply cst_alter_cpu. }
  assert (∀ c', cur (online_s c s) c' = cur s c' ∧ ready (online_s c s) c' = ready s c') as Hv.
  { intros c'. unfold cur, ready. rewrite Hcst. by destruct (decide (c = c')) as [<-|]. }
  split; try done.
  - intros c1 c2 t. destruct (Hv c1) as [-> _]. apply H2.
  - intros c1 t Hb. destruct (Hv c1) as [-> ->]. rewrite Hcst. destruct (decide (c = c1)) as [<-|]; [|by apply H4].
    intros _. apply Ha.
  - intros c1. rewrite Hcst. destruct (decide (c = c1)) as [<-|]; [done|apply H5].
  - destruct H6. by split.
  - intros c1 t. destruct (Hv c1) as [-> ->]. apply HP.
Qed.

Hypothesis Harch : arch_ok E.

Section enter.
Context {w : World} {tid : ThreadId} {t : Thread}.
Hypothesis Hk : kernel_ok N w.
Hypothesis Hcur : cur (w_sched w) c = Some tid.
Hypothesis Hoff : cs_online (cst (w_sched w) c) = false.
Hypothesis Hlive : live (w_sched w) tid t.
Let s' := online_s c (w_sched w).

Lemma enter_cst c' : cst s' c' = if decide (c = c') then set_cs_online true (cst (w_sched w) c) else cst (w_sched w) c'.
Proof. apply cst_alter_cpu. by apply (here_length (wo_sched _ _ _ (ko_world _ _ _ Hk))). Qed.

Lemma enter_cur c' : cur s' c' = cur (w_sched w) c'.
Proof. unfold cur. rewrite enter_cst. by destruct (decide (c = c')) as [<-|]. Qed.

(** The selected thread's frame moves from its record to the CPU. *)
Lemma enter_frames w' :
  w_sched w' = s' → t_home_cpu t = c → w_active w' !! c = Some (t_context t) →
  (∀ c', c' ≠ c → w_active w' !! c' = w_active w !! c') → frames_kept w w'.
Proof.
  intros Hs' Hh Hact Hao x tx Hx. rewrite Hs' in Hx. exists tx. split_and!; [done|done|].
  intros _. assert (live (w_sched w) x tx) as Hl by done. unfold frame_of, on_cpu. rewrite Hs', Hx, Hl, enter_cur, enter_cst.
  destruct (decide (c = t_home_cpu tx)) as [Heq|Hne]; [|by rewrite Hao].
  rewrite <-Heq, Hcur, Hoff. simpl. case_bool_decide as Hb; [|done]. injection Hb as <-.
  rewrite (live_fun _ _ _ _ Hl Hlive). by rewrite Hact.
Qed.

Lemma enter_space vm' c' :
  space_of t (vm' !! c) → (∀ c', c' ≠ c → vm' !! c' = w_vm w !! c') → space_ok s' vm' c'.
Proof.
  intros Hsp Hvm x tx. rewrite enter_cur, enter_cst. destruct (decide (c = c')) as [<-|Hne].
  - intros _ Hc Hx. rewrite Hcur in Hc. injection Hc as <-. by rewrite (live_fun _ _ _ _ (Hx : live (w_sched w) tid tx) Hlive).
  - rewrite Hvm by done. apply (ko_space _ _ _ Hk c').
Qed.

Lemma enter_world w1 :
  world_ok N Stable w1 → w_sched w1 = w_sched w → is_Some (time_at w1 c) →
  (∀ x, cur (w_sched w) c = Some x → ready (w_sched w) c ≠ [] → pending w1 c (quantum_expired c x)) →
  world_ok N Stable (set_w_sched s' w1).
Proof.
  intros [Hs1 Hhw1 Hlk1] Hsw Hts Ha. rewrite Hsw in Hs1, Hlk1. apply (world_ok_set_sched N Stable); [done|done| |].
  - apply sched_online; [done|done|by rewrite Hcur].
  - apply links_online; [done|by apply (here_length Hs1)|done|done].
Qed.
End enter.

Theorem enter_running_thread_spec w tid t :
  kernel_ok N w → cur (w_sched w) c = Some tid → cs_online (cst (w_sched w) c) = false →
  live (w_sched w) tid t → is_Some (time_at w c) →
  wp (enter_running_thread E)
     (λ _ w', kernel_ok N w' ∧ frames_kept w w' ∧ beside w w' ∧ w_sched w' = online_s c (w_sched w) ∧
        w_active w' !! c = Some (t_context t)) w.
Proof.
  intros Hk Hcur Hoff Hl Hts. pose proof (ko_world _ _ _ Hk) as Hok. pose proof (wo_sched _ _ _ Hok) as Hs.
  pose proof (current_home E Hcpu (w_sched w) c tid t Hs Hcur Hl) as Hh. pose proof (cst_lookup Hs c Hcpu) as Hst.
  apply wp_bind. apply wp_bind. eapply wp_current_thread; [done|]. fold (cur (w_sched w) c).
  wp_step. eapply wp_expect; [done|]. wp_step. eapply wp_local_state; [done|]. wp_step. wp_step; [by rewrite Hoff|].
  wp_step. eapply wp_mono; [apply (ensure_quantum_armed E (N:=N) Hcpu w); [by apply world_ok_busy|done]|].
  intros _ w1 [[Hok1 [Hsw1 Has1]] Harm]. destruct (current_runs E Hcpu tid Hs Hcur) as (t0 & [_ _ Hl0 Hrun _]).
  rewrite (live_fun _ _ _ _ Hl0 Hl) in Hrun.
  wp_step. eapply wp_current_thread; [by rewrite Hsw1|]. wp_step. wp_step; [by apply bool_decide_eq_true|].
  wp_step. eapply (wp_with_sched _ _ _ Running).
  { unfold thread_state. rewrite (live_thread_at _ tid t) by by rewrite Hsw1. cbn. by rewrite Hrun. }
  wp_step. wp_step; [done|]. wp_step.
  eapply wp_mono; [apply (activate_thread_spec E (N:=N) Hcpu Harch Stable w1 tid t); [done|by rewrite Hsw1|done]|].
  intros _ w2 (vm' & -> & Hok2 & Hsp & Hvm). wp_step. eapply wp_state_mut; [by rewrite <-Hst, <-Hsw1|].
  wp_step. eapply (wp_with_sched _ _ _ t).
  { apply live_thread_at. change (live (w_sched w1) tid t). by rewrite Hsw1. }
  apply wp_ret. apply wp_modify. set (w3 := set_w_active _ _).
  assert (w_sched w3 = online_s c (w_sched w)) as Hsw3 by (unfold w3; simpl; by rewrite Hsw1).
  assert (w_active w1 = w_active w) as Hact by apply Has1.
  assert (length (w_active w) = KERNEL_CPU_CAPACITY) as Hlen by apply (hw_active _ _ (wo_hw _ _ _ Hok)).
  assert (w_active w3 !! c = Some (t_context t)) as Hac3.
  { apply list_lookup_insert_eq. simpl. by rewrite Hact, Hlen. }
  split_and!; [split| | |done|done].
  - apply world_ok_active; [|by rewrite length_insert; simpl; rewrite Hact].
    change (world_ok N Stable (set_w_sched (online_s c (w_sched w1)) (set_w_vm vm' w1))). rewrite Hsw1.
    apply (enter_world Hcur (set_w_vm vm' w1)); [done|done|by apply (as_time _ _ Has1)|exact Harm].
  - intros c'. rewrite Hsw3. apply (enter_space Hk Hcur Hl); [done|]. intros c2 Hne. by rewrite Hvm, (as_vm _ _ Has1).
  - apply (enter_frames Hk Hcur Hoff Hl); [done|done|done|]. intros c' Hne. simpl. by rewrite list_lookup_insert_ne, Hact.
  - apply aside_beside in Has1. destruct Has1. by split.
Qed.
End start.
