(* ===== verification/Mailbox.v ===== *)
(** * Bounded mailboxes

    Models [kernel/src/ipc.rs]: a ring of messages with queues of waiting
    senders and receivers, on top of the scheduler's exact wait tokens.  The
    mailbox is threaded explicitly through its operations, which run in the
    world of the scheduler.  A blocking call is split where the thread gives up
    its CPU: [on_mailbox_wait_sync] is the exception handler that registers and
    blocks it, [wait_return] what the resumed thread does. *)

From S2P Require Import Prelude Types Wait TimeConv Preempt Context Vm Time Sched World Transition Handoff.

Definition MAILBOX_WAIT_SEND : Z := 1.
Definition MAILBOX_WAIT_RECV : Z := 2.

Inductive MailboxWaitKind := WaitSend | WaitRecv.

Definition kind_from_raw (raw : Z) : option MailboxWaitKind :=
  if (raw =? MAILBOX_WAIT_SEND)%Z then Some WaitSend
  else if (raw =? MAILBOX_WAIT_RECV)%Z then Some WaitRecv
  else None.

Definition kind_raw (kind : MailboxWaitKind) : Z :=
  match kind with WaitSend => MAILBOX_WAIT_SEND | WaitRecv => MAILBOX_WAIT_RECV end.

(** A [VecDeque] of tokens with its reserved capacity. *)
Record WaiterQueue := mkWaiterQueue { wq_items : list WaitToken; wq_capacity : nat }.

Record MailboxControl := mkMailboxControl {
  mc_capacity : nat;
  mc_head : nat;
  mc_tail : nat;
  mc_len : nat;
  mc_recv_waiters : WaiterQueue;
  mc_send_waiters : WaiterQueue
}.

Definition control_with_capacity (capacity waiter_capacity : nat) : MailboxControl :=
  mkMailboxControl capacity 0 0 0 (mkWaiterQueue [] waiter_capacity) (mkWaiterQueue [] waiter_capacity).

Definition control_is_empty (m : MailboxControl) : bool := bool_decide (mc_len m = 0).
Definition control_is_full (m : MailboxControl) : bool := bool_decide (mc_len m = mc_capacity m).

Definition should_wait (m : MailboxControl) (kind : MailboxWaitKind) : bool :=
  match kind with WaitSend => control_is_full m | WaitRecv => control_is_empty m end.

Definition waiters (m : MailboxControl) (kind : MailboxWaitKind) : WaiterQueue :=
  match kind with WaitSend => mc_send_waiters m | WaitRecv => mc_recv_waiters m end.

Definition set_waiters (kind : MailboxWaitKind) (l : list WaitToken) (m : MailboxControl) : MailboxControl :=
  let set q := mkWaiterQueue l (wq_capacity q) in
  match kind with
  | WaitSend => mkMailboxControl (mc_capacity m) (mc_head m) (mc_tail m) (mc_len m) (mc_recv_waiters m)
                  (set (mc_send_waiters m))
  | WaitRecv => mkMailboxControl (mc_capacity m) (mc_head m) (mc_tail m) (mc_len m) (set (mc_recv_waiters m))
                  (mc_send_waiters m)
  end.

Definition enqueue_waiter (m : MailboxControl) (kind : MailboxWaitKind) (token : WaitToken)
    : outcome MailboxControl :=
  let queue := waiters m kind in
  if existsb (λ queued, bool_decide (queued = token)) (wq_items queue)
  then Panic "ipc: wait token already queued"
  else if bool_decide (length (wq_items queue) = wq_capacity queue)
  then Panic "ipc: mailbox waiter queue capacity exhausted"
  else mret (set_waiters kind (wq_items queue ++ [token]) m).

Definition claim_waiter (m : MailboxControl) (kind : MailboxWaitKind) : option WaitToken * MailboxControl :=
  match wq_items (waiters m kind) with
  | [] => (None, m)
  | token :: rest => (Some token, set_waiters kind rest m)
  end.

Fixpoint remove_first (token : WaitToken) (l : list WaitToken) : option (list WaitToken) :=
  match l with
  | [] => None
  | queued :: rest => if decide (queued = token) then Some rest else cons queued <$> remove_first token rest
  end.

Definition remove_waiter (m : MailboxControl) (kind : MailboxWaitKind) (token : WaitToken)
    : bool * MailboxControl :=
  match remove_first token (wq_items (waiters m kind)) with
  | None => (false, m)
  | Some rest => (true, set_waiters kind rest m)
  end.

Section mailbox.
Context {T : Type}.

Record Mailbox := mkMailbox { mb_control : MailboxControl; mb_buffer : list (option T) }.

Inductive SendResult := SendOk | SendFull (msg : T).

Definition set_control (m : MailboxControl) (b : Mailbox) : Mailbox := mkMailbox m (mb_buffer b).

Definition mailbox_with_capacity (capacity waiter_capacity : nat) : outcome Mailbox :=
  if decide (capacity = 0) then Panic "ipc: mailbox capacity must be non-zero"
  else mret (mkMailbox (control_with_capacity capacity waiter_capacity) (replicate capacity None)).

(** The buffer half of [try_send]: write at the tail. *)
Definition buffer_push (b : Mailbox) (msg : T) : outcome Mailbox :=
  let m := mb_control b in
  if decide (mc_tail m < length (mb_buffer b))
  then mret (mkMailbox
         (mkMailboxControl (mc_capacity m) (mc_head m) ((mc_tail m + 1) mod mc_capacity m) (mc_len m + 1)
            (mc_recv_waiters m) (mc_send_waiters m))
         (<[mc_tail m := Some msg]> (mb_buffer b)))
  else Panic "index out of bounds".

(** The buffer half of [try_recv]: take from the head. *)
Definition buffer_pop (b : Mailbox) : outcome (T * Mailbox) :=
  let m := mb_control b in
  slot ← expect_o (mb_buffer b !! mc_head m) "index out of bounds";
  msg ← expect_o slot "ipc: mailbox slot empty while len > 0";
  mret (msg, mkMailbox
         (mkMailboxControl (mc_capacity m) ((mc_head m + 1) mod mc_capacity m) (mc_tail m) (mc_len m - 1)
            (mc_recv_waiters m) (mc_send_waiters m))
         (<[mc_head m := None]> (mb_buffer b))).

Section operations.
Context (E : Env).

(** Complete the claimed waiter, or the next one that still waits.  Every
    round takes one waiter off the queue. *)
Fixpoint complete_claimed_waiters (fuel : nat) (kind : MailboxWaitKind) (token : option WaitToken)
    (b : Mailbox) : W Mailbox :=
  match token with
  | None => mret b
  | Some wait =>
      match fuel with
      | 0 => panic "complete_claimed_waiters: loop bound"
      | S fuel' =>
          cancel_event E (wait_deadline wait);;
          r ← transition_complete_wait E wait Notified;
          match r with
          | WokeBlocked | CompletedPrepared => mret b
          | AlreadyCompleted | CompletionStale =>
              let '(token', m') := claim_waiter (mb_control b) kind in
              complete_claimed_waiters fuel' kind token' (set_control m' b)
          end
      end
  end.

Definition notify_waiter (kind : MailboxWaitKind) (b : Mailbox) : W Mailbox :=
  let '(token, m) := claim_waiter (mb_control b) kind in
  complete_claimed_waiters (S (length (wq_items (waiters m kind)))) kind token (set_control m b).

Definition try_send (b : Mailbox) (msg : T) : W (SendResult * Mailbox) :=
  if control_is_full (mb_control b) then mret (SendFull msg, b)
  else
    b ← reads (λ _, buffer_push b msg);
    b ← notify_waiter WaitRecv b;
    mret (SendOk, b).

Definition try_recv (b : Mailbox) : W (option T * Mailbox) :=
  if control_is_empty (mb_control b) then mret (None, b)
  else
    '(msg, b) ← reads (λ _, buffer_pop b);
    b ← notify_waiter WaitSend b;
    mret (Some msg, b).

(** The sched-call handler.  Local interrupts stay masked from the condition
    check to the commit. *)
Definition on_mailbox_wait_sync (b : Mailbox) (raw_wait_kind : Z) (timeout_deadline : option Z)
    : W (Mailbox * SchedCallWaitOutput) :=
  kind ← expect (kind_from_raw raw_wait_kind) "ipc: invalid mailbox wait kind";
  if negb (should_wait (mb_control b) kind) then mret (b, output_new)
  else
    expired ← match timeout_deadline with
              | Some deadline => now ← now_counter E; mret (deadline <=? now)%Z
              | None => mret false
              end;
    if (expired : bool) then mret (b, output_new)
    else
      assert_preemption_enabled_on E (e_cpu E) "mailbox waiter publication";;
      prepared ← transition_prepare_wait E;
      let token := pw_token prepared in
      m ← reads (λ _, enqueue_waiter (mb_control b) kind token);
      match timeout_deadline with
      | Some deadline => schedule_event E deadline (wait_deadline token)
      | None => mret tt
      end;;
      r ← commit_prepared_wait E prepared;
      output ← record_commit (mkSchedCallWaitOutput (Some token) None) r
                 "ipc: mailbox wait became stale before commit";
      mret (set_control m b, output).

(** [Mailbox::wait] and [wait_until_counter] after the sched call returned. *)
Definition wait_return (b : Mailbox) (kind : MailboxWaitKind) (output : SchedCallWaitOutput)
    : W (Mailbox * option WaitCause) :=
  completion ← take_completion E output;
  match completion with
  | None => mret (b, None)
  | Some (token, cause) => mret (set_control (remove_waiter (mb_control b) kind token).2 b, Some cause)
  end.

(** ** Blocking calls, one round of their loops at a time

    A round either finishes the call or blocks the thread with the output of
    its wait; the resumed thread collects it and, unless it timed out, starts
    the next round. *)
Inductive SendRound := SendDone | SendTimeout (msg : T) | SendWaiting (msg : T) (output : SchedCallWaitOutput).
Inductive RecvRound := RecvDone (msg : T) | RecvTimeout | RecvWaiting (output : SchedCallWaitOutput).

Definition deadline_passed (deadline : option Z) : W bool :=
  match deadline with
  | Some deadline => now ← now_counter E; mret (deadline <=? now)%Z
  | None => mret false
  end.

(** [send] without a deadline, [send_until_counter] with one. *)
Definition send_round (b : Mailbox) (msg : T) (deadline : option Z) : W (SendRound * Mailbox) :=
  '(r, b) ← try_send b msg;
  match r with
  | SendOk => mret (SendDone, b)
  | SendFull msg =>
      passed ← deadline_passed deadline;
      if (passed : bool) then mret (SendTimeout msg, b)
      else '(b, output) ← on_mailbox_wait_sync b (kind_raw WaitSend) deadline;
           mret (SendWaiting msg output, b)
  end.

Definition send_resume (b : Mailbox) (msg : T) (deadline : option Z) (output : SchedCallWaitOutput)
    : W (SendRound * Mailbox) :=
  '(b, cause) ← wait_return b WaitSend output;
  if decide (is_Some deadline ∧ cause = Some Timeout) then mret (SendTimeout msg, b)
  else send_round b msg deadline.

Definition recv_round (b : Mailbox) (deadline : option Z) : W (RecvRound * Mailbox) :=
  '(r, b) ← try_recv b;
  match r with
  | Some msg => mret (RecvDone msg, b)
  | None =>
      passed ← deadline_passed deadline;
      if (passed : bool) then mret (RecvTimeout, b)
      else '(b, output) ← on_mailbox_wait_sync b (kind_raw WaitRecv) deadline;
           mret (RecvWaiting output, b)
  end.

Definition recv_resume (b : Mailbox) (deadline : option Z) (output : SchedCallWaitOutput)
    : W (RecvRound * Mailbox) :=
  '(b, cause) ← wait_return b WaitRecv output;
  if decide (is_Some deadline ∧ cause = Some Timeout) then mret (RecvTimeout, b)
  else recv_round b deadline.

(** The relative timeouts: [send_timeout_ticks], [recv_timeout_ticks]. *)
Definition send_timeout_ticks (b : Mailbox) (msg : T) (timeout_ticks : Z) : W (SendRound * Mailbox) :=
  now ← now_counter E; send_round b msg (Some (u64_wrapping_add now timeout_ticks)).

Definition recv_timeout_ticks (b : Mailbox) (timeout_ticks : Z) : W (RecvRound * Mailbox) :=
  now ← now_counter E; recv_round b (Some (u64_wrapping_add now timeout_ticks)).
End operations.
End mailbox.
Arguments Mailbox : clear implicits.
Arguments SendResult : clear implicits.
