(* ===== verification/MailboxSpec.v ===== *)
(** * Mailboxes are bounded FIFO queues and lose no wake-up

    The ring buffer refines a bounded queue of messages.  A send or receive
    completes the wait of the first registered peer that still waits, skipping
    those whose wait was already over; registering as a waiter blocks the
    thread with its token in the mailbox.  All of it keeps the kernel
    invariant. *)

From stdpp Require Import gmap.
From S2P Require Import Prelude Types Wait TimeConv Deadline Preempt Context Vm Time Sched World Transition Handoff.
From S2P Require Import CpuInv SchedInv Switch Lifecycle TransitionSpec LifecycleSpec WorldInv TimeSpec.
From S2P Require Import SwitchSpec WakeSpec Frames EntrySpec BlockSpec JoinSpec ThreadSpec.
From S2P Require Import Mailbox.

(** ** The ring *)

Section ring.
Context {T : Type}.
Implicit Types b : Mailbox T.

(** The slot of the [i]-th message from the head. *)
Definition ring_index (m : MailboxControl) (i : nat) : nat := (mc_head m + i) mod mc_capacity m.

(** The mailbox holds the messages [l], oldest first. *)
Record holds b (l : list T) : Prop := {
  ho_capacity : 0 < mc_capacity (mb_control b);
  ho_buffer : length (mb_buffer b) = mc_capacity (mb_control b);
  ho_len : mc_len (mb_control b) = length l;
  ho_room : length l ≤ mc_capacity (mb_control b);
  ho_head : mc_head (mb_control b) < mc_capacity (mb_control b);
  ho_tail : mc_tail (mb_control b) = ring_index (mb_control b) (length l);
  ho_slot : ∀ i x, l !! i = Some x → mb_buffer b !! ring_index (mb_control b) i = Some (Some x)
}.

Lemma ring_index_lt m i : 0 < mc_capacity m → ring_index m i < mc_capacity m.
Proof. intros. apply Nat.mod_upper_bound. lia. Qed.

(** Different messages have different slots. *)
Lemma ring_index_inj m i j :
  0 < mc_capacity m → i < j → j < i + mc_capacity m → ring_index m i ≠ ring_index m j.
Proof.
  apply ring_slot_inj.
Qed.

Lemma holds_new cap waiters b : mailbox_with_capacity (T:=T) cap waiters = Done b → holds b [].
Proof.
  unfold mailbox_with_capacity. destruct (decide (cap = 0)); [done|]. intros [= <-].
  split; simpl; try done; try lia.
  - apply length_replicate.
  - unfold ring_index. simpl. rewrite Nat.Div0.mod_0_l. done.
Qed.

Lemma holds_push b l msg :
  holds b l → length l ≠ mc_capacity (mb_control b) →
  ∃ b', buffer_push b msg = Done b' ∧ holds b' (l ++ [msg]) ∧
        mc_recv_waiters (mb_control b') = mc_recv_waiters (mb_control b) ∧
        mc_send_waiters (mb_control b') = mc_send_waiters (mb_control b) ∧
        mc_capacity (mb_control b') = mc_capacity (mb_control b).
Proof.
  intros [Hc Hb Hl Hr Hh Ht Hs] Hne. pose proof (ring_index_lt (mb_control b) (length l) Hc) as Hlt.
  unfold buffer_push. rewrite decide_True by (rewrite Ht, Hb; done). eexists. split; [done|]. split; [|done].
  split; simpl; try done.
  - by rewrite length_insert.
  - rewrite length_app, Hl. simpl. lia.
  - rewrite length_app. simpl. lia.
  - rewrite length_app, Ht. unfold ring_index. simpl. rewrite Nat.Div0.add_mod_idemp_l. f_equal. lia.
  - intros i x Hi. change (ring_index (mkMailboxControl _ _ _ _ _ _) i) with (ring_index (mb_control b) i).
    apply lookup_app_Some in Hi as [Hi|[Hge Hi]].
    + rewrite Ht, list_lookup_insert_ne; [by apply Hs|]. apply lookup_lt_Some in Hi.
      apply not_eq_sym, ring_index_inj; lia.
    + apply list_lookup_singleton_Some in Hi as [Hi <-]. replace i with (length l) by lia.
      rewrite Ht. apply list_lookup_insert_eq. by rewrite Hb.
Qed.

Lemma holds_pop b msg l :
  holds b (msg :: l) →
  ∃ b', buffer_pop b = Done (msg, b') ∧ holds b' l ∧
        mc_recv_waiters (mb_control b') = mc_recv_waiters (mb_control b) ∧
        mc_send_waiters (mb_control b') = mc_send_waiters (mb_control b) ∧
        mc_capacity (mb_control b') = mc_capacity (mb_control b).
Proof.
  intros [Hc Hb Hl Hr Hh Ht Hs]. simpl in *.
  assert (ring_index (mb_control b) 0 = mc_head (mb_control b)) as H0.
  { unfold ring_index. rewrite Nat.add_0_r. by apply Nat.mod_small. }
  pose proof (Hs 0 msg eq_refl) as Hm. rewrite H0 in Hm.
  unfold buffer_pop. rewrite Hm. simpl. eexists. split; [done|]. split; [|done].
  assert (∀ i, ring_index (mkMailboxControl (mc_capacity (mb_control b)) ((mc_head (mb_control b) + 1) mod mc_capacity (mb_control b))
                (mc_tail (mb_control b)) (mc_len (mb_control b) - 1) (mc_recv_waiters (mb_control b)) (mc_send_waiters (mb_control b))) i
               = ring_index (mb_control b) (S i)) as Hidx.
  { intros i. unfold ring_index. simpl. rewrite Nat.Div0.add_mod_idemp_l. f_equal. lia. }
  split; simpl; try done; try lia.
  - by rewrite length_insert.
  - apply Nat.mod_upper_bound. lia.
  - by rewrite Hidx.
  - intros i x Hi. rewrite Hidx, list_lookup_insert_ne; [by apply Hs|]. rewrite <-H0.
    apply lookup_lt_Some in Hi. apply ring_index_inj; lia.
Qed.

Lemma holds_control b l m :
  holds b l → mc_capacity m = mc_capacity (mb_control b) → mc_head m = mc_head (mb_control b) →
  mc_tail m = mc_tail (mb_control b) → mc_len m = mc_len (mb_control b) → holds (set_control m b) l.
Proof.
  intros [H1 H2 H3 H4 H5 H6 H7] Ec Eh Et El.
  assert (∀ i, ring_index m i = ring_index (mb_control b) i) as Hi by (intros i; unfold ring_index; by rewrite Eh, Ec).
  split; simpl; rewrite ?Hi, ?Ec, ?Eh, ?Et, ?El; try done. intros i x. rewrite Hi. apply H7.
Qed.
End ring.

(** ** Waking the first peer that still waits *)

(** The waiters that stay and the scheduler after the first open wait of the
    list was completed. *)
Fixpoint notify_s (here : CpuId) (toks : list WaitToken) (s : Scheduler) : list WaitToken * Scheduler :=
  match toks with
  | [] => ([], s)
  | tok :: rest =>
      match complete_s here tok Notified s with
      | (WokeBlocked, s') | (CompletedPrepared, s') => (rest, s')
      | (AlreadyCompleted, _) | (CompletionStale, _) => notify_s here rest s
      end
  end.

Lemma complete_s_over here tok s r s' :
  complete_s here tok Notified s = (r, s') → r = AlreadyCompleted ∨ r = CompletionStale → s' = s.
Proof.
  unfold complete_s. destruct (table_get s (wt_thread tok)) as [t|]; [|congruence].
  destruct (complete (t_wait t) tok Notified) as [[] wm]; intros [= <- <-] [|]; done.
Qed.

Section notify.
Context (E : Env) {N : nat} {T : Type}.
Hypothesis Hcpu : e_cpu E < KERNEL_CPU_CAPACITY.
Hypothesis Harch : arch_ok E.
Abbreviation c := (e_cpu E).
Implicit Types b : Mailbox T.

Lemma cancel_deadline_spec w tok :
  kernel_ok N w → is_Some (time_at w (wt_cpu tok)) →
  wp (cancel_event E (wait_deadline tok))
     (λ _ w', kernel_ok N w' ∧ frames_kept w w' ∧ w_sched w' = w_sched w ∧
        ¬ pending w' (wt_cpu tok) (wait_deadline tok) ∧ (∀ c', is_Some (time_at w' c') ↔ is_Some (time_at w c')) ∧
        ∀ c', depth_of w' c' = depth_of w c') w.
Proof.
  intros [[Hs Hhw Hlk] Hsp] Hts.
  eapply wp_mono; [apply (cancel_event_spec E Hhw Hcpu (wait_deadline tok)); [by intros []|done]|].
  intros _ w' [Hhw' Hrt]. change (event_cpu (wait_deadline tok)) with (wt_cpu tok) in Hrt.
  assert (w_sched w' = w_sched w) as Hsw by apply Hrt. set (h := wt_cpu tok) in *.
  split_and!.
  - split; [|intros c'; rewrite Hsw, (rt_vm _ _ _ _ Hrt); apply Hsp]. split; [by rewrite Hsw|done|]. rewrite Hsw.
    eapply (links_retimed _ _ _ _ _ _ _ Hlk Hrt); try done.
    + intros c' tok' [d [_ Hp]%lookup_delete_Some].
      destruct (lk_wait _ _ _ Hlk h c' tok') as (-> & Htc & Hw'); [by exists d|]. do 3 (split; [done|]).
      intros Hj. apply (lk_joiner _ _ _ Hlk tok' h Hj). unfold wait_deadline. rewrite Htc. by exists d.
    + intros c' x [d [_ Hp]%lookup_delete_Some]. apply (lk_quantum _ _ _ Hlk h c' x). by exists d.
    + intros x Hb Ho Hx Hr. rewrite lookup_delete_ne by done. by apply (lk_armed _ _ _ Hlk h x).
    + intros x [d [_ Hp]%lookup_delete_Some]. apply (lk_peer _ _ _ Hlk). by exists d.
  - apply frames_keeps; [by rewrite Hsw|by rewrite Hsw|apply Hrt].
  - done.
  - unfold pending. rewrite (rt_events _ _ _ _ Hrt), decide_True, lookup_delete_eq by done. by intros [? ?].
  - apply Hrt.
  - intros c'. unfold depth_of. by rewrite (rt_preempt _ _ _ _ Hrt).
Qed.

Lemma set_waiters_id b kind : set_waiters kind (wq_items (waiters (mb_control b) kind)) (mb_control b) = mb_control b.
Proof. destruct b as [[? ? ? ? [] []] ?]. by destruct kind. Qed.

Lemma set_control_id b : set_control (mb_control b) b = b.
Proof. by destruct b. Qed.

(** A token a mailbox may complete: no join waits on it and its CPU keeps
    time. *)
Definition claimable (w : World) (tok : WaitToken) : Prop :=
  ¬ joined (w_sched w) tok ∧ is_Some (time_at w (wt_cpu tok)).

Lemma complete_claimed_spec kind b tok w fuel :
  kernel_ok N w → cs_online (cst (w_sched w) c) = true →
  length (wq_items (waiters (mb_control b) kind)) < fuel →
  (∀ x, x ∈ tok :: wq_items (waiters (mb_control b) kind) → claimable w x) →
  wp (complete_claimed_waiters E fuel kind (Some tok) b)
     (λ b' w', kernel_ok N w' ∧ frames_kept w w' ∧ (∀ c', depth_of w' c' = depth_of w c') ∧
        let '(rest, s') := notify_s c (tok :: wq_items (waiters (mb_control b) kind)) (w_sched w) in
        b' = set_control (set_waiters kind rest (mb_control b)) b ∧ w_sched w' = s') w.
Proof.
  revert b tok w. induction fuel as [|fuel IH]; intros b tok w Hk Hon Hlt Hcl; [lia|].
  destruct (Hcl tok) as [Hnj Hts]; [by left|].
  cbn [complete_claimed_waiters]. wp_step. eapply wp_mono; [by apply cancel_deadline_spec|].
  intros _ w1 (Hk1 & Hf1 & Hsw1 & Hnp & Ht1 & Hd1). wp_step.
  eapply wp_mono; [apply (complete_wait_spec E Hcpu Harch w1 tok Notified Hk1); [by rewrite Hsw1|by rewrite Hsw1|done]|].
  intros r w2 (Hk2 & Hf2 & Has2 & Hsw2). rewrite Hsw1 in Hsw2. cbn [notify_s]. rewrite <-Hsw2.
  assert (∀ c', depth_of w2 c' = depth_of w c') as Hd2 by (intros c'; by rewrite (as_depth _ _ Has2)).
  assert (frames_kept w w2) as Hf by (by etrans).
  assert (∀ r', r = r' → r' = AlreadyCompleted ∨ r' = CompletionStale →
    wp (let '(token', m') := claim_waiter (mb_control b) kind in
        complete_claimed_waiters E fuel kind token' (set_control m' b))
     (λ b' w', kernel_ok N w' ∧ frames_kept w w' ∧ (∀ c', depth_of w' c' = depth_of w c') ∧
        let '(rest, s') := notify_s c (wq_items (waiters (mb_control b) kind)) (w_sched w) in
        b' = set_control (set_waiters kind rest (mb_control b)) b ∧ w_sched w' = s') w2) as Hnext.
  { intros r' -> Hover. pose proof (complete_s_over _ _ _ _ _ (eq_sym Hsw2) Hover) as Hsw. unfold claim_waiter.
    pose proof (set_waiters_id b kind) as Hid.
    destruct (wq_items (waiters (mb_control b) kind)) as [|x rest] eqn:Hq; cbn [notify_s].
    { destruct fuel; apply wp_ret; rewrite Hid, set_control_id; by split_and!. }
    set (b1 := set_control _ b). assert (wq_items (waiters (mb_control b1) kind) = rest) as Hq1 by (by destruct kind).
    eapply wp_mono; [apply (IH b1 x w2 Hk2); [by rewrite Hsw|rewrite Hq1; simpl in Hlt; lia|]|].
    - rewrite Hq1. intros y Hy. destruct (Hcl y) as [Hny Hty]; [by right|]. split; [by rewrite Hsw|].
      by rewrite (as_time _ _ Has2), Ht1.
    - rewrite Hq1, Hsw. intros b' w' (Hk' & Hf' & Hd' & Hres). cbn [notify_s] in Hres.
      split_and!; [done|by etrans|intros c'; by rewrite Hd'|]. by destruct (complete_s c x Notified (w_sched w)) as [[] ?]; [..|destruct (notify_s c rest _)|destruct (notify_s c rest _)]; destruct kind. }
  destruct r; try (by eapply Hnext; [done|auto]); apply wp_ret; rewrite set_waiters_id, set_control_id; by split_and!.
Qed.

Lemma notify_waiter_spec kind b w :
  kernel_ok N w → cs_online (cst (w_sched w) c) = true →
  (∀ x, x ∈ wq_items (waiters (mb_control b) kind) → claimable w x) →
  wp (notify_waiter E kind b)
     (λ b' w', kernel_ok N w' ∧ frames_kept w w' ∧ (∀ c', depth_of w' c' = depth_of w c') ∧
        let '(rest, s') := notify_s c (wq_items (waiters (mb_control b) kind)) (w_sched w) in
        b' = set_control (set_waiters kind rest (mb_control b)) b ∧ w_sched w' = s') w.
Proof.
  intros Hk Hon Hcl. unfold notify_waiter, claim_waiter. pose proof (set_waiters_id b kind) as Hid.
  destruct (wq_items (waiters (mb_control b) kind)) as [|tok rest] eqn:Hq.
  { apply wp_ret. cbn [notify_s]. rewrite Hid, set_control_id. by split_and!. }
  set (m1 := set_waiters kind rest (mb_control b)). set (b1 := set_control m1 b).
  assert (wq_items (waiters m1 kind) = rest) as Hq1 by (by destruct kind).
  eapply wp_mono; [apply (complete_claimed_spec kind b1 tok w _ Hk Hon); [simpl; lia|change (mb_control b1) with m1; by rewrite Hq1]|].
  clear Hcl.
  change (mb_control b1) with m1. rewrite Hq1. intros b' w' (Hk' & Hf' & Hd' & Hres). split_and!; [done|done|done|].
  destruct (notify_s c (tok :: rest) (w_sched w)) as [rest' s']. destruct Hres as [-> ->]. by destruct kind.
Qed.

(** What the two halves of a mailbox keep. *)
Definition same_ring (m m' : MailboxControl) : Prop :=
  mc_capacity m' = mc_capacity m ∧ mc_head m' = mc_head m ∧ mc_tail m' = mc_tail m ∧ mc_len m' = mc_len m.

Lemma set_waiters_ring kind l m : same_ring m (set_waiters kind l m).
Proof. by destruct kind. Qed.

Theorem try_send_spec b l msg w :
  kernel_ok N w → cs_online (cst (w_sched w) c) = true → holds b l →
  (∀ x, x ∈ wq_items (mc_recv_waiters (mb_control b)) → claimable w x) →
  wp (try_send E b msg)
     (λ '(r, b') w', kernel_ok N w' ∧ frames_kept w w' ∧ (∀ c', depth_of w' c' = depth_of w c') ∧
        if decide (length l = mc_capacity (mb_control b)) then r = SendFull msg ∧ b' = b ∧ w' = w
        else r = SendOk ∧ holds b' (l ++ [msg]) ∧
             (wq_items (mc_recv_waiters (mb_control b')), w_sched w')
             = notify_s c (wq_items (mc_recv_waiters (mb_control b))) (w_sched w) ∧
             mc_send_waiters (mb_control b') = mc_send_waiters (mb_control b) ∧
             mc_capacity (mb_control b') = mc_capacity (mb_control b)) w.
Proof.
  intros Hk Hon Hh Hcl. unfold try_send, control_is_full. rewrite (ho_len _ _ Hh).
  destruct (decide (length l = mc_capacity (mb_control b))) as [Hf|Hf].
  { rewrite bool_decide_true by done. apply wp_ret. by split_and!. }
  rewrite bool_decide_false by done. destruct (holds_push b l msg Hh Hf) as (b1 & Hpush & Hh1 & Hrw & Hsw & Hcap).
  wp_step. eapply wp_reads; [exact Hpush|]. wp_step.
  eapply wp_mono; [apply (notify_waiter_spec WaitRecv b1 w Hk Hon); simpl; by rewrite Hrw|].
  intros b2 w' (Hk' & Hf' & Hd' & Hres). simpl waiters in Hres. rewrite Hrw in Hres.
  destruct (notify_s c _ (w_sched w)) as [rest s']. destruct Hres as [-> Hs']. apply wp_ret.
  split_and!; [done|done|done|done| |by rewrite Hs'|done|done].
  by apply holds_control.
Qed.

Theorem try_recv_spec b l w :
  kernel_ok N w → cs_online (cst (w_sched w) c) = true → holds b l →
  (∀ x, x ∈ wq_items (mc_send_waiters (mb_control b)) → claimable w x) →
  wp (try_recv E b)
     (λ '(r, b') w', kernel_ok N w' ∧ frames_kept w w' ∧ (∀ c', depth_of w' c' = depth_of w c') ∧
        match l with
        | [] => r = None ∧ b' = b ∧ w' = w
        | msg :: l' => r = Some msg ∧ holds b' l' ∧
             (wq_items (mc_send_waiters (mb_control b')), w_sched w')
             = notify_s c (wq_items (mc_send_waiters (mb_control b))) (w_sched w) ∧
             mc_recv_waiters (mb_control b') = mc_recv_waiters (mb_control b) ∧
             mc_capacity (mb_control b') = mc_capacity (mb_control b)
        end) w.
Proof.
  intros Hk Hon Hh Hcl. unfold try_recv, control_is_empty. rewrite (ho_len _ _ Hh).
  destruct l as [|msg l]; simpl length.
  { rewrite bool_decide_true by done. apply wp_ret. by split_and!. }
  rewrite bool_decide_false by done. destruct (holds_pop b msg l Hh) as (b1 & Hpop & Hh1 & Hrw & Hsw & Hcap).
  wp_step. eapply wp_reads; [exact Hpop|]. cbv beta iota. wp_step.
  eapply wp_mono; [apply (notify_waiter_spec WaitSend b1 w Hk Hon); simpl; by rewrite Hsw|].
  intros b2 w' (Hk' & Hf' & Hd' & Hres). simpl waiters in Hres. rewrite Hsw in Hres.
  destruct (notify_s c _ (w_sched w)) as [rest s']. destruct Hres as [-> Hs']. apply wp_ret.
  split_and!; [done|done|done|done| |by rewrite Hs'|done|done].
  by apply holds_control.
Qed.

(** ** Registering as a waiter *)

(** The waiter's part of the handler: prepare, enqueue, publish, commit. *)
Definition register_and_block (b : Mailbox T) (kind : MailboxWaitKind) (dl : option Z) : W (Mailbox T * SchedCallWaitOutput) :=
  assert_preemption_enabled_on E c "mailbox waiter publication";;
  prepared ← transition_prepare_wait E;
  let token := pw_token prepared in
  m ← reads (λ _, enqueue_waiter (mb_control b) kind token);
  match dl with Some deadline => schedule_event E deadline (wait_deadline token) | None => mret tt end;;
  r ← commit_prepared_wait E prepared;
  output ← record_commit (mkSchedCallWaitOutput (Some token) None) r "ipc: mailbox wait became stale before commit";
  mret (set_control m b, output).

Section wait.
Context {b : Mailbox T} {l : list T} {kind : MailboxWaitKind} {dl : option Z} {from : ThreadId} {t : Thread}.
Abbreviation tok := (wait_token E from t).
Hypothesis Ha : active (t_wait t) = None.
Hypothesis Hq : (next_sequence (t_wait t) < u64_max)%Z.
Hypothesis Hh : holds b l.
Hypothesis Hroom : length (wq_items (waiters (mb_control b) kind)) < wq_capacity (waiters (mb_control b) kind).
Hypothesis Hnin : tok ∉ wq_items (waiters (mb_control b) kind).

(** The thread is registered at the tail of the queue and blocked. *)
Definition registered (w : World) (b' : Mailbox T) (out : SchedCallWaitOutput) (w' : World) : Prop :=
  out = mkSchedCallWaitOutput (Some tok) None ∧
  wq_items (waiters (mb_control b') kind) = wq_items (waiters (mb_control b) kind) ++ [tok] ∧
  (∀ d, dl = Some d → events w' c !! wait_deadline tok = Some d) ∧
  ∃ t', live (w_sched w') from t' ∧ t_state t' = Blocked ∧
        active (t_wait t') = Some (mkActiveWait tok PhaseBlocked Explicit).

Lemma enqueue_done :
  enqueue_waiter (mb_control b) kind tok
  = Done (set_waiters kind (wq_items (waiters (mb_control b) kind) ++ [tok]) (mb_control b)).
Proof.
  unfold enqueue_waiter. destruct (existsb _ _) eqn:Hex.
  { apply existsb_exists in Hex as (x & Hx%list_elem_of_In & Heq%bool_decide_eq_true). by subst x. }
  by rewrite bool_decide_false by lia.
Qed.

Lemma register_spec w :
  kernel_ok N w → can_block E w from t →
  wp (register_and_block b kind dl)
     (λ '(b', out) w', kernel_ok N w' ∧ frames_kept w w' ∧ (∀ c', depth_of w' c' = depth_of w c') ∧ holds b' l ∧
        registered w b' out w') w.
Proof.
  intros Hk Hcb. unfold register_and_block. wp_step. apply wp_assert_enabled; [apply Hcb|].
  wp_step. eapply wp_mono; [apply (prepare_wait_spec E (N:=N) Hcpu Stable w from t); try done; apply Hcb|].
  intros p w1 (-> & -> & Hk1 & Hf1). cbv zeta. simpl pw_token. wp_step. eapply wp_reads; [apply enqueue_done|].
  pose proof (publish_commit_spec E (N:=N) Hcpu Harch w from t dl Hk Hcb Ha Hq Hk1 Hf1) as Hpc. apply wp_bind_inv in Hpc.
  wp_step. eapply wp_mono; [exact Hpc|]. intros u w2 Hc. wp_step. eapply wp_mono; [exact Hc|].
  intros r w3 (Hk3 & Hf3 & Hd3 & (to & ->) & He3 & Hb3). wp_step. do 2 apply wp_ret. split_and!; try done.
  - by apply holds_control; [done|apply set_waiters_ring..].
  - split_and!; [done|by destruct kind|done|done].
Qed.

(** The call returns at once, or the thread is blocked with its token at the
    tail of the mailbox's queue and its deadline pending: the condition check,
    the registration and the commit leave no gap for a wake-up. *)
Theorem mailbox_wait_spec w :
  kernel_ok N w → can_block E w from t →
  wp (on_mailbox_wait_sync E b (kind_raw kind) dl)
     (λ '(b', out) w', kernel_ok N w' ∧ frames_kept w w' ∧ (∀ c', depth_of w' c' = depth_of w c') ∧ holds b' l ∧
        (out = output_new ∧ b' = b ∧ w_sched w' = w_sched w ∧
           (should_wait (mb_control b) kind = false ∨ is_Some dl) ∨
         should_wait (mb_control b) kind = true ∧ registered w b' out w')) w.
Proof.
  intros Hk Hcb. unfold on_mailbox_wait_sync. wp_step. eapply wp_expect; [by destruct kind|].
  destruct (should_wait (mb_control b) kind) eqn:Hsh; simpl negb; cbv iota.
  2:{ apply wp_ret. split_and!; try done. left. split_and!; auto. }
  wp_step. eapply (wp_mono _ (λ e w1, (∃ n, w1 = set_w_reads n w) ∧ (e = true → is_Some dl))).
  { destruct dl as [d|]; [|by apply wp_ret; split; [exists (w_reads w); destruct w|]].
    wp_step. apply now_counter_spec. intros z n. apply wp_ret. eauto. }
  intros e w1 [[n ->] He]. assert (kernel_ok N (set_w_reads n w)) as Hk1.
  { destruct Hk as [[Hs [] []] Hsp]. split; [|done]. split; [done|by split|by split]. }
  assert (can_block E (set_w_reads n w) from t) as Hcb1 by (destruct Hcb; by split).
  destruct e; [apply wp_ret; split_and!; [done|change (frames_kept w w); reflexivity|done|done|left; split_and!; auto]|].
  eapply wp_mono; [apply (register_spec (set_w_reads n w) Hk1 Hcb1)|].
  intros [b' out] w' (Hk' & Hf' & Hd' & Hh' & Hr). split_and!; auto.
Qed.
End wait.
End notify.

(** ** Histories of a mailbox *)

Inductive mb_op (T : Type) := MbSend (msg : T) | MbRecv.
Arguments MbSend {T} msg.
Arguments MbRecv {T}.

(** What the caller sees: a message received, a message given back, or
    nothing. *)
Inductive mb_result (T : Type) := MbSent | MbFull (msg : T) | MbGot (msg : T) | MbEmpty.
Arguments MbSent {T}.
Arguments MbFull {T} msg.
Arguments MbGot {T} msg.
Arguments MbEmpty {T}.

Definition mb_exec {T} (E : Env) (b : Mailbox T) (o : mb_op T) : W (mb_result T * Mailbox T) :=
  match o with
  | MbSend msg => '(r, b) ← try_send E b msg;
                  mret (match r with SendOk => MbSent | SendFull msg => MbFull msg end, b)
  | MbRecv => '(r, b) ← try_recv E b;
              mret (match r with Some msg => MbGot msg | None => MbEmpty end, b)
  end.

Fixpoint mb_run {T} (E : Env) (b : Mailbox T) (ops : list (mb_op T)) : W (list (mb_result T) * Mailbox T) :=
  match ops with
  | [] => mret ([], b)
  | o :: ops' =>
      '(r, b) ← mb_exec E b o;
      '(rs, b) ← mb_run E b ops';
      mret (r :: rs, b)
  end.

(** The specification: a bounded queue. *)
Fixpoint fifo_run {T} (capacity : nat) (q : list T) (ops : list (mb_op T)) : list (mb_result T) * list T :=
  match ops with
  | [] => ([], q)
  | MbSend msg :: ops' =>
      if decide (length q = capacity) then let '(rs, q') := fifo_run capacity q ops' in (MbFull msg :: rs, q')
      else let '(rs, q') := fifo_run capacity (q ++ [msg]) ops' in (MbSent :: rs, q')
  | MbRecv :: ops' =>
      match q with
      | [] => let '(rs, q') := fifo_run capacity [] ops' in (MbEmpty :: rs, q')
      | msg :: q1 => let '(rs, q') := fifo_run capacity q1 ops' in (MbGot msg :: rs, q')
      end
  end.

Section history.
Context (E : Env) {N : nat} {T : Type}.
Hypothesis Hcpu : e_cpu E < KERNEL_CPU_CAPACITY.
Hypothesis Harch : arch_ok E.

(** A mailbox nobody waits on. *)
Definition unwaited (b : Mailbox T) : Prop :=
  wq_items (mc_recv_waiters (mb_control b)) = [] ∧ wq_items (mc_send_waiters (mb_control b)) = [].

Lemma mb_exec_spec b q o w cap :
  kernel_ok N w → cs_online (cst (w_sched w) (e_cpu E)) = true → holds b q → unwaited b →
  mc_capacity (mb_control b) = cap →
  wp (mb_exec E b o)
     (λ '(r, b') w', w_sched w' = w_sched w ∧ kernel_ok N w' ∧ unwaited b' ∧ mc_capacity (mb_control b') = cap ∧
        ∃ q', holds b' q' ∧ ∀ ops, fifo_run cap q (o :: ops) = (r :: (fifo_run cap q' ops).1, (fifo_run cap q' ops).2)) w.
Proof.
  intros Hk Hon Hh [U1 U2] Hc. destruct o as [msg|]; apply wp_bind.
  - eapply wp_mono; [apply (try_send_spec E Hcpu Harch b q msg w Hk Hon Hh); rewrite U1; by intros x ?%elem_of_nil|].
    intros [r b'] w' (Hk' & _ & _ & Hres). rewrite Hc in Hres. cbn [fifo_run].
    destruct (decide (length q = cap)).
    + destruct Hres as (-> & -> & ->). apply wp_ret. split_and!; try done. exists q. split; [done|].
      intros ops. by destruct (fifo_run cap q ops).
    + destruct Hres as (-> & Hh' & Hn & Hs' & Hc'). rewrite U1 in Hn. injection Hn as Hn1 Hn2. apply wp_ret.
      split_and!; [done|done|by split; [|rewrite Hs']|congruence|].
      exists (q ++ [msg]). split; [done|]. intros ops. by destruct (fifo_run cap (q ++ [msg]) ops).
  - eapply wp_mono; [apply (try_recv_spec E Hcpu Harch b q w Hk Hon Hh); rewrite U2; by intros x ?%elem_of_nil|].
    intros [r b'] w' (Hk' & _ & _ & Hres). destruct q as [|msg q]; cbn [fifo_run].
    + destruct Hres as (-> & -> & ->). apply wp_ret. split_and!; try done. exists []. split; [done|].
      intros ops. by destruct (fifo_run cap [] ops).
    + destruct Hres as (-> & Hh' & Hn & Hs' & Hc'). rewrite U2 in Hn. injection Hn as Hn1 Hn2. apply wp_ret.
      split_and!; [done|done|by split; [rewrite Hs'|]|congruence|].
      exists q. split; [done|]. intros ops. by destruct (fifo_run cap q ops).
Qed.

Lemma mb_run_spec b q ops w cap :
  kernel_ok N w → cs_online (cst (w_sched w) (e_cpu E)) = true → holds b q → unwaited b →
  mc_capacity (mb_control b) = cap →
  wp (mb_run E b ops)
     (λ '(rs, b') w', kernel_ok N w' ∧ w_sched w' = w_sched w ∧
        rs = (fifo_run cap q ops).1 ∧ holds b' (fifo_run cap q ops).2) w.
Proof.
  revert b q w. induction ops as [|o ops IH]; intros b q w Hk Hon Hh Hu Hc; [by apply wp_ret|].
  cbn [mb_run]. wp_step. eapply wp_mono; [by apply (mb_exec_spec b q o w cap)|].
  intros [r b1] w1 (Hsw & Hk1 & Hu1 & Hc1 & q1 & Hh1 & Hf). cbv beta iota. wp_step.
  eapply wp_mono; [apply (IH b1 q1 w1); [done|by rewrite Hsw|done..]|].
  intros [rs b2] w2 (Hk2 & Hsw2 & -> & Hh2). apply wp_ret. rewrite Hf. split_and!; [done|congruence|done|done].
Qed.
End history.
