(* ===== verification/Console.v ===== *)
(** * The console

    Models [kernel/src/console.rs]: the receive ring with its one blocked
    reader, and the transmit ring that any CPU fills and one of them drains.

    The ring and its three indices are the same in both; [cap] is the capacity
    constant of the ring.  The draining loop runs on several CPUs at once, and
    may be interrupted by code that prints: it is a step function, one step per
    access to shared state, and [console_step] lets any number of callers take
    steps in any order.  A fully sequential call iterates it.  The UART is the
    list of the bytes sent to it. *)

From S2P Require Import Prelude Types Wait Context Vm Sched World Transition Handoff.
#[local] Open Scope Z_scope.

Definition STDIN_RX_CAPACITY : nat := 256.
Definition CONSOLE_TX_CAPACITY : nat := 32 * 1024.
Definition CONSOLE_TX_DRAIN_CHUNK : nat := 64.

(** ** Rings *)

Record Ring := mkRing { rg_ring : list Z; rg_head : nat; rg_tail : nat; rg_len : nat }.

Definition ring_new (cap : nat) : Ring := mkRing (replicate cap 0) 0 0 0.

(** [ring[tail] = byte; tail = (tail + 1) % cap] *)
Definition ring_put (cap : nat) (byte : Z) (r : Ring) : outcome Ring :=
  if decide (rg_tail r < length (rg_ring r))%nat
  then mret (mkRing (<[rg_tail r := byte]> (rg_ring r)) (rg_head r) ((rg_tail r + 1) mod cap) (rg_len r))
  else Panic "index out of bounds".

(** [ring[head]; head = (head + 1) % cap] *)
Definition ring_get (cap : nat) (r : Ring) : outcome (Z * Ring) :=
  byte ← expect_o (rg_ring r !! rg_head r) "index out of bounds";
  mret (byte, mkRing (rg_ring r) ((rg_head r + 1) mod cap) (rg_tail r) (rg_len r)).

Definition set_rg_len (n : nat) (r : Ring) : Ring := mkRing (rg_ring r) (rg_head r) (rg_tail r) n.

Fixpoint ring_put_all (cap : nat) (bytes : list Z) (r : Ring) : outcome Ring :=
  match bytes with
  | [] => mret r
  | byte :: rest => r ← ring_put cap byte r; ring_put_all cap rest r
  end.

Fixpoint ring_get_all (cap count : nat) (r : Ring) : outcome (list Z * Ring) :=
  match count with
  | O => mret ([], r)
  | S count' =>
      '(byte, r) ← ring_get cap r;
      '(rest, r) ← ring_get_all cap count' r;
      mret (byte :: rest, r)
  end.

(** ** Transmission *)

Definition tx_push (bytes : list Z) (tx : Ring) : outcome (bool * Ring) :=
  if decide (CONSOLE_TX_CAPACITY - rg_len tx < length bytes)%nat then mret (false, tx)
  else
    tx ← ring_put_all CONSOLE_TX_CAPACITY bytes tx;
    mret (true, set_rg_len (rg_len tx + length bytes) tx).

Definition tx_pop_chunk (tx : Ring) : outcome (list Z * Ring) :=
  let count := Nat.min (rg_len tx) CONSOLE_TX_DRAIN_CHUNK in
  '(bytes, tx) ← ring_get_all CONSOLE_TX_CAPACITY count tx;
  mret (bytes, set_rg_len (rg_len tx - count) tx).

Definition tx_is_empty (tx : Ring) : bool := bool_decide (rg_len tx = 0%nat).

(** What reaches the UART for one byte: a newline is preceded by a carriage
    return. *)
Definition putc_raw (c : Z) : list Z := if c =? 10 then [13; c] else [c].

Record Console := mkConsole { co_tx : Ring; co_draining : bool; co_uart : list Z }.

Definition console_new : Console := mkConsole (ring_new CONSOLE_TX_CAPACITY) false [].

(** Where a caller of [drain_console] is. *)
Inductive DrainPc :=
| DrainEnter                    (* the first compare-exchange *)
| DrainPop                      (* taking a chunk under the lock *)
| DrainWrite (bytes : list Z)   (* sending what is left of the chunk *)
| DrainRelease                  (* clearing the flag *)
| DrainCheck                    (* looking at the queue again *)
| DrainRetry                    (* the second compare-exchange *)
| DrainLeft.                    (* returned *)
#[global] Instance DrainPc_eq_dec : EqDecision DrainPc.
Proof. solve_decision. Defined.

Definition drain_step (pc : DrainPc) (c : Console) : outcome (DrainPc * Console) :=
  match pc with
  | DrainEnter | DrainRetry =>
      if co_draining c then mret (DrainLeft, c) else mret (DrainPop, mkConsole (co_tx c) true (co_uart c))
  | DrainPop =>
      '(bytes, tx) ← tx_pop_chunk (co_tx c);
      mret (match bytes with [] => DrainRelease | _ => DrainWrite bytes end, mkConsole tx (co_draining c) (co_uart c))
  | DrainWrite [] => mret (DrainPop, c)
  | DrainWrite (byte :: rest) => mret (DrainWrite rest, mkConsole (co_tx c) (co_draining c) (co_uart c ++ putc_raw byte))
  | DrainRelease => mret (DrainCheck, mkConsole (co_tx c) false (co_uart c))
  | DrainCheck => mret (if tx_is_empty (co_tx c) then DrainLeft else DrainRetry, c)
  | DrainLeft => mret (DrainLeft, c)
  end.

(** The enqueueing half of [write_bytes]: the caller drains when its message
    was accepted. *)
Definition write_enqueue (bytes : list Z) (c : Console) : outcome (DrainPc * Console) :=
  '(accepted, tx) ← tx_push bytes (co_tx c);
  mret (if accepted : bool then DrainEnter else DrainLeft, mkConsole tx (co_draining c) (co_uart c)).

(** A call that no other caller interleaves with. *)
Fixpoint drain_console (fuel : nat) (pc : DrainPc) (c : Console) : outcome Console :=
  match pc with
  | DrainLeft => mret c
  | _ => match fuel with
         | O => Panic "console drain bound"
         | S fuel' => '(pc, c) ← drain_step pc c; drain_console fuel' pc c
         end
  end.

Definition write_bytes (bytes : list Z) (c : Console) : outcome Console :=
  '(pc, c) ← write_enqueue bytes c;
  drain_console (4 + 3 * rg_len (co_tx c)) pc c.

(** Formatted output arrives piece by piece, in one hold of the queue's lock;
    when a piece does not fit, the pieces before it are taken back. *)
Fixpoint queue_write_all (pieces : list (list Z)) (tx : Ring) : outcome (bool * Ring) :=
  match pieces with
  | [] => mret (true, tx)
  | piece :: rest =>
      '(accepted, tx) ← tx_push piece tx;
      if accepted : bool then queue_write_all rest tx else mret (false, tx)
  end.

Definition fmt_enqueue (pieces : list (list Z)) (c : Console) : outcome (DrainPc * Console) :=
  let original := co_tx c in
  '(accepted, tx) ← queue_write_all pieces original;
  let tx := if accepted : bool then tx else mkRing (rg_ring tx) (rg_head tx) (rg_tail original) (rg_len original) in
  mret (if accepted : bool then DrainEnter else DrainLeft, mkConsole tx (co_draining c) (co_uart c)).

(** ** Any number of callers *)

(** The callers inside [write_bytes], the console, and the messages accepted so
    far. *)
Record Printing := mkPrinting { pn_callers : list DrainPc; pn_console : Console; pn_accepted : list (list Z) }.

Inductive console_step : Printing → Printing → Prop :=
| step_write callers c acc bytes pc c' :
    write_enqueue bytes c = Done (pc, c') →
    console_step (mkPrinting callers c acc)
      (mkPrinting (callers ++ [pc]) c' (match pc with DrainEnter => acc ++ [bytes] | _ => acc end))
| step_fmt callers c acc pieces pc c' :
    fmt_enqueue pieces c = Done (pc, c') →
    console_step (mkPrinting callers c acc)
      (mkPrinting (callers ++ [pc]) c' (match pc with DrainEnter => acc ++ [concat pieces] | _ => acc end))
| step_drain callers c acc i pc pc' c' :
    callers !! i = Some pc → pc ≠ DrainLeft → drain_step pc c = Done (pc', c') →
    console_step (mkPrinting callers c acc) (mkPrinting (<[i := pc']> callers) c' acc).

(** Steps of the callers that are there: nobody prints anything new. *)
Inductive draining_step : Printing → Printing → Prop :=
| draining_step_intro callers c acc i pc pc' c' :
    callers !! i = Some pc → pc ≠ DrainLeft → drain_step pc c = Done (pc', c') →
    draining_step (mkPrinting callers c acc) (mkPrinting (<[i := pc']> callers) c' acc).

Definition printing_start : Printing := mkPrinting [] console_new [].

(** ** Reception *)

Record StdinRx := mkStdinRx {
  sr_ring : Ring;
  sr_overflow_count : Z;
  sr_waiter : option WaitToken;
  sr_completed : option WaitToken
}.

Definition stdin_new : StdinRx := mkStdinRx (ring_new STDIN_RX_CAPACITY) 0 None None.

Definition set_sr_waiter (v : option WaitToken) (s : StdinRx) : StdinRx :=
  mkStdinRx (sr_ring s) (sr_overflow_count s) v (sr_completed s).
Definition set_sr_completed (v : option WaitToken) (s : StdinRx) : StdinRx :=
  mkStdinRx (sr_ring s) (sr_overflow_count s) (sr_waiter s) v.
Definition set_sr_ring (v : Ring) (s : StdinRx) : StdinRx :=
  mkStdinRx v (sr_overflow_count s) (sr_waiter s) (sr_completed s).

(** A full ring drops the new byte. *)
Definition stdin_push (byte : Z) (s : StdinRx) : outcome (option WaitToken * StdinRx) :=
  if decide (rg_len (sr_ring s) = STDIN_RX_CAPACITY)
  then mret (None, mkStdinRx (sr_ring s) (u64_saturating_add (sr_overflow_count s) 1) (sr_waiter s) (sr_completed s))
  else
    r ← ring_put STDIN_RX_CAPACITY byte (sr_ring s);
    let r := set_rg_len (rg_len r + 1) r in
    mret (sr_waiter s,
          mkStdinRx r (sr_overflow_count s) None
            (match sr_waiter s with Some token => Some token | None => sr_completed s end)).

(** [while copied < out.len() && self.len != 0 { .. }] *)
Fixpoint stdin_pop_into (out_len : nat) (s : StdinRx) : outcome (list Z * StdinRx) :=
  match out_len with
  | O => mret ([], s)
  | S out_len' =>
      if decide (rg_len (sr_ring s) = 0%nat) then mret ([], s)
      else
        '(byte, r) ← ring_get STDIN_RX_CAPACITY (sr_ring s);
        '(rest, s) ← stdin_pop_into out_len' (set_sr_ring (set_rg_len (rg_len r - 1) r) s);
        mret (byte :: rest, s)
  end.

Definition stdin_is_empty (s : StdinRx) : bool := bool_decide (rg_len (sr_ring s) = 0%nat).

Definition stdin_register_waiter (waiter : WaitToken) (s : StdinRx) : bool * StdinRx :=
  match sr_completed s with
  | Some _ => (false, s)
  | None =>
      match sr_waiter s with
      | Some existing => (bool_decide (existing = waiter), s)
      | None => (true, set_sr_waiter (Some waiter) s)
      end
  end.

Definition stdin_take_completed (current : ThreadId) (s : StdinRx) : option WaitToken * StdinRx :=
  match sr_completed s with
  | Some token => if decide (wt_thread token = current) then (Some token, set_sr_completed None s) else (None, s)
  | None => (None, s)
  end.

Section stdin.
Context (E : Env).

(** The receive interrupt. *)
Definition on_stdin_byte (byte : Z) (s : StdinRx) : W StdinRx :=
  '(waiter, s) ← reads (λ _, stdin_push byte s);
  match waiter with
  | Some waiter => _ ← transition_complete_wait E waiter Notified; mret s
  | None => mret s
  end.

Definition read_stdin (len : nat) (s : StdinRx) : W (list Z * StdinRx) :=
  if decide (len = 0%nat) then mret ([], s)
  else
    current ← current_thread E;
    '(bytes, s) ← reads (λ _, stdin_pop_into len s);
    let '(completed, s) := match current with Some thread => stdin_take_completed thread s | None => (None, s) end in
    match completed with
    | None => mret tt
    | Some token =>
        r ← transition_finish_wait E token;
        match r with inr NotCompleted => panic "stdin: consumed before wait completion" | _ => mret tt end
    end;;
    mret (bytes, s).

(** [inl true]: blocked; [inl false]: there is input now; [inr tt]: somebody
    else waits. *)
Definition block_current_stdin_read_if_empty (s : StdinRx) : W ((bool + unit) * StdinRx) :=
  if negb (stdin_is_empty s) then mret (inl false, s)
  else
    assert_preemption_enabled_on E (e_cpu E) "stdin waiter registration";;
    prepared ← transition_prepare_wait E;
    let '(registered, s) := stdin_register_waiter (pw_token prepared) s in
    if negb registered then _ ← transition_cancel_wait E prepared; mret (inr tt, s)
    else
      f ← active_context E; f' ← reads (λ _, restart_current_syscall f); set_active_context E f';;
      r ← commit_prepared_wait E prepared;
      match r with
      | CommitStaleResult => panic "stdin: wait became stale before commit"
      | _ => mret (inl true, s)
      end.
End stdin.
