(* ===== verification/ConsoleSpec.v ===== *)
(** * The console loses and reorders nothing

    Rings as bounded queues of bytes; the transmit side, where any number of
    callers enqueue messages and hand the draining over to each other; and the
    receive side, whose one blocked reader is woken by the next byte. *)

From S2P Require Import Prelude Types Wait TimeConv Deadline Preempt Context Vm Time Sched World Transition Handoff.
From S2P Require Import CpuInv SchedInv Switch Lifecycle TransitionSpec LifecycleSpec WorldInv TimeSpec.
From S2P Require Import SwitchSpec WakeSpec Frames EntrySpec BlockSpec JoinSpec ThreadSpec Console.

(** ** Rings *)

(** The bytes from the head to the tail, oldest first. *)
Record ring_has (cap : nat) (r : Ring) (l : list Z) : Prop := {
  rh_cap : 0 < cap;
  rh_ring : length (rg_ring r) = cap;
  rh_room : length l ≤ cap;
  rh_head : rg_head r < cap;
  rh_tail : rg_tail r = (rg_head r + length l) mod cap;
  rh_slot : ∀ i x, l !! i = Some x → rg_ring r !! ((rg_head r + i) mod cap) = Some x
}.

Definition ring_holds (cap : nat) (r : Ring) (l : list Z) : Prop := ring_has cap r l ∧ rg_len r = length l.

Lemma ring_new_holds cap : 0 < cap → ring_holds cap (ring_new cap) [].
Proof.
  intros Hc. split; [|done]. split; simpl; [done|apply length_replicate|lia|done| |by intros i x].
  by rewrite Nat.Div0.mod_0_l.
Qed.

Lemma ring_put_spec cap r l b :
  ring_has cap r l → length l < cap →
  ∃ r', ring_put cap b r = Done r' ∧ ring_has cap r' (l ++ [b]) ∧ rg_len r' = rg_len r ∧ rg_head r' = rg_head r.
Proof.
  intros [Hc Hb Hr Hh Ht Hs] Hl. pose proof (Nat.mod_upper_bound (rg_head r + length l) cap ltac:(lia)) as Hlt.
  unfold ring_put. rewrite decide_True by (rewrite Ht, Hb; done). eexists. split; [done|]. split; [|done].
  split; simpl; [done|by rewrite length_insert|rewrite length_app; simpl; lia|done| |].
  - rewrite length_app, Ht, Nat.Div0.add_mod_idemp_l. f_equal. simpl. lia.
  - intros i x [Hi|[Hge Hi]]%lookup_app_Some.
    + rewrite Ht, list_lookup_insert_ne; [by apply Hs|]. apply lookup_lt_Some in Hi. apply not_eq_sym, ring_slot_inj; lia.
    + apply list_lookup_singleton_Some in Hi as [Hi <-]. replace i with (length l) by lia.
      rewrite Ht. apply list_lookup_insert_eq. by rewrite Hb.
Qed.

Lemma ring_get_spec cap r b l :
  ring_has cap r (b :: l) → ∃ r', ring_get cap r = Done (b, r') ∧ ring_has cap r' l ∧ rg_len r' = rg_len r.
Proof.
  intros [Hc Hb Hr Hh Ht Hs]. simpl in *. pose proof (Hs 0 b eq_refl) as H0. rewrite Nat.add_0_r, Nat.mod_small in H0 by done.
  unfold ring_get. rewrite H0. cbn [expect_o]. rewrite done_bind. eexists. split; [done|]. split; [|done].
  split; simpl; [done|done|lia|apply Nat.mod_upper_bound; lia| |].
  - rewrite Ht, Nat.Div0.add_mod_idemp_l. f_equal. lia.
  - intros i x Hi. rewrite Nat.Div0.add_mod_idemp_l. replace (rg_head r + 1 + i) with (rg_head r + S i) by lia. by apply Hs.
Qed.

(** Forgetting the newest bytes. *)
Lemma ring_has_prefix cap r l l' n :
  ring_has cap r (l ++ l') → ring_has cap (mkRing (rg_ring r) (rg_head r) ((rg_head r + length l) mod cap) n) l.
Proof.
  intros [Hc Hb Hr Hh Ht Hs]. rewrite length_app in Hr. split; simpl; [done|done|lia|done|done|].
  intros i x Hi. apply Hs. by apply lookup_app_l_Some.
Qed.

Lemma ring_has_len cap r l n : ring_has cap r l → ring_has cap (set_rg_len n r) l.
Proof. by intros []. Qed.

Lemma ring_put_all_spec cap bytes r l :
  ring_has cap r l → length l + length bytes ≤ cap →
  ∃ r', ring_put_all cap bytes r = Done r' ∧ ring_has cap r' (l ++ bytes) ∧ rg_len r' = rg_len r ∧ rg_head r' = rg_head r.
Proof.
  revert r l. induction bytes as [|b bytes IH]; intros r l Hr Hl; simpl in *; [exists r; by rewrite app_nil_r|].
  destruct (ring_put_spec cap r l b Hr) as (r1 & -> & Hr1 & Hn1 & Hh1); [lia|]. rewrite done_bind.
  destruct (IH r1 (l ++ [b]) Hr1) as (r2 & Hp & Hr2 & Hn2 & Hh2); [rewrite length_app; simpl; lia|].
  exists r2. rewrite <-app_assoc in Hr2. split_and!; [done|done|congruence|congruence].
Qed.

Lemma ring_get_all_spec cap l1 l2 r :
  ring_has cap r (l1 ++ l2) → ∃ r', ring_get_all cap (length l1) r = Done (l1, r') ∧ ring_has cap r' l2 ∧ rg_len r' = rg_len r.
Proof.
  revert r. induction l1 as [|b l1 IH]; intros r Hr; simpl in *; [by exists r|].
  destruct (ring_get_spec cap r b (l1 ++ l2) Hr) as (r1 & -> & Hr1 & Hn1). rewrite done_bind.
  destruct (IH r1 Hr1) as (r2 & Hg & Hr2 & Hn2). rewrite Hg, done_bind. exists r2. split_and!; [done|done|congruence].
Qed.

(** ** The transmit queue *)

Abbreviation tx_holds := (ring_holds CONSOLE_TX_CAPACITY).

(** A message is accepted whole when there is room for it, and not at all
    otherwise. *)
Lemma tx_push_spec tx q bytes :
  tx_holds tx q →
  ∃ ok tx', tx_push bytes tx = Done (ok, tx') ∧ rg_head tx' = rg_head tx ∧
    tx_holds tx' (if ok then q ++ bytes else q) ∧ (ok = true ↔ length q + length bytes ≤ CONSOLE_TX_CAPACITY) ∧ (ok = false → tx' = tx).
Proof.
  intros [Hr Hl]. unfold tx_push. rewrite Hl. pose proof (rh_room _ _ _ Hr) as Hroom. destruct (decide _) as [Hlt|Hge].
  { exists false, tx. split_and!; [done|done|done| |done]. split; [done|lia]. }
  destruct (ring_put_all_spec _ bytes tx q Hr) as (tx1 & -> & Hr1 & Hn1 & Hh1); [lia|]. rewrite done_bind.
  eexists true, _. split_and!; [done|done| |split; [lia|done]|done]. split; [by apply ring_has_len|]. simpl. rewrite length_app. congruence.
Qed.

Lemma tx_pop_spec tx q :
  tx_holds tx q → ∃ tx', tx_pop_chunk tx = Done (take CONSOLE_TX_DRAIN_CHUNK q, tx') ∧ tx_holds tx' (drop CONSOLE_TX_DRAIN_CHUNK q).
Proof.
  intros [Hr Hl]. unfold tx_pop_chunk. set (n := CONSOLE_TX_DRAIN_CHUNK) in *. rewrite Hl.
  rewrite <-(take_drop n q) in Hr. replace (Nat.min (length q) n) with (length (take n q)) by (rewrite length_take; lia).
  destruct (ring_get_all_spec _ _ _ _ Hr) as (tx1 & -> & Hr1 & Hn1). rewrite done_bind. eexists. split; [done|]. split; [by apply ring_has_len|].
  simpl. rewrite Hn1, Hl, length_take, length_drop. lia.
Qed.

(** Formatted output is one message. *)
Lemma queue_write_all_spec pieces tx q :
  tx_holds tx q →
  ∃ ok tx', queue_write_all pieces tx = Done (ok, tx') ∧ rg_head tx' = rg_head tx ∧
    (ok = true ↔ length q + length (concat pieces) ≤ CONSOLE_TX_CAPACITY) ∧
    ∃ more, tx_holds tx' (q ++ more) ∧ (ok = true → more = concat pieces).
Proof.
  revert tx q. induction pieces as [|piece pieces IH]; intros tx q Htx; cbn [queue_write_all concat].
  { exists true, tx. pose proof (rh_room _ _ _ (proj1 Htx)) as Hroom. split_and!; [done|done|split; [intros _; simpl; lia|done]|]. exists []. by rewrite app_nil_r. }
  destruct (tx_push_spec tx q piece Htx) as (ok & tx1 & -> & Hh1 & Htx1 & Hok & _). rewrite done_bind. rewrite length_app. destruct ok.
  - destruct (IH tx1 (q ++ piece) Htx1) as (ok' & tx2 & Hq & Hh2 & Hok' & more & Htx2 & Hm). rewrite length_app in Hok'.
    exists ok', tx2. split_and!; [done|congruence|rewrite Hok'; by rewrite Nat.add_assoc|]. exists (piece ++ more). rewrite app_assoc. split; [done|].
    intros H. by rewrite Hm.
  - exists false, tx1. split_and!; [done|done|split; [done|intros; exfalso; assert (false = true) by (apply Hok; lia); done]|].
    exists []. by rewrite app_nil_r.
Qed.

(** Both ways to print, alike: the message is enqueued whole or not at all. *)
Definition enqueued (c : Console) (q bytes : list Z) (pc : DrainPc) (c' : Console) : Prop :=
  co_draining c' = co_draining c ∧ co_uart c' = co_uart c ∧
  if decide (length q + length bytes ≤ CONSOLE_TX_CAPACITY) then pc = DrainEnter ∧ tx_holds (co_tx c') (q ++ bytes)
  else pc = DrainLeft ∧ tx_holds (co_tx c') q.

Lemma write_enqueue_spec c q bytes : tx_holds (co_tx c) q → ∃ pc c', write_enqueue bytes c = Done (pc, c') ∧ enqueued c q bytes pc c'.
Proof.
  intros Hq. unfold write_enqueue. destruct (tx_push_spec (co_tx c) q bytes Hq) as (ok & tx & -> & _ & Htx & Hok & _). rewrite done_bind.
  eexists _, _. split; [done|]. split_and!; [done..|]. destruct ok; case_decide; try done; [destruct (proj1 Hok eq_refl); lia|].
  exfalso. assert (false = true) by (by apply Hok). done.
Qed.

Lemma fmt_enqueue_spec c q pieces : tx_holds (co_tx c) q → ∃ pc c', fmt_enqueue pieces c = Done (pc, c') ∧ enqueued c q (concat pieces) pc c'.
Proof.
  intros Hq. unfold fmt_enqueue. destruct (queue_write_all_spec pieces (co_tx c) q Hq) as (ok & tx & -> & Hh & Hok & more & Htx & Hm).
  rewrite done_bind. eexists _, _. split; [done|]. split_and!; [done..|]. destruct ok.
  - rewrite decide_True by (by apply Hok). split; [done|]. by rewrite Hm in Htx.
  - rewrite decide_False by (intros ?; assert (false = true) by (by apply Hok); done). split; [done|]. simpl. destruct Hq as [Hr Hl].
    split; [|done]. rewrite (rh_tail _ _ _ Hr), <-Hh. eapply ring_has_prefix. apply Htx.
Qed.

(** ** The hand-over of draining *)

(** What the UART gets for the bytes. *)
Definition crlf (bytes : list Z) : list Z := bytes ≫= putc_raw.

Definition holding (pc : DrainPc) : bool := match pc with DrainPop | DrainWrite _ | DrainRelease => true | _ => false end.
Definition looking (pc : DrainPc) : bool := match pc with DrainEnter | DrainCheck | DrainRetry => true | _ => false end.
Definition in_flight (pc : DrainPc) : list Z := match pc with DrainWrite bytes => bytes | _ => [] end.

(** The flag is the lock of the one caller [o] that drains; the bytes it has
    taken are [chunk], those in the queue [q]; and whenever there are bytes in
    the queue, somebody drains or is about to look. *)
Record printing_ok (s : Printing) (q chunk : list Z) (o : option nat) : Prop := {
  po_ring : tx_holds (co_tx (pn_console s)) q;
  po_holder : ∀ j pc, pn_callers s !! j = Some pc → holding pc = bool_decide (o = Some j);
  po_flag : co_draining (pn_console s) = bool_decide (is_Some o);
  po_chunk : match o with Some i => in_flight <$> pn_callers s !! i = Some chunk | None => chunk = [] end;
  po_looked : q ≠ [] → is_Some o ∨ ∃ i pc, pn_callers s !! i = Some pc ∧ looking pc = true;
  po_bytes : co_uart (pn_console s) ++ crlf chunk ++ crlf q = crlf (concat (pn_accepted s))
}.

Lemma printing_start_ok : printing_ok printing_start [] [] None.
Proof. split; simpl; try done. apply ring_new_holds. unfold CONSOLE_TX_CAPACITY. lia. Qed.

Lemma crlf_app l1 l2 : crlf (l1 ++ l2) = crlf l1 ++ crlf l2.
Proof. apply bind_app. Qed.

(** Enqueueing keeps the invariant. *)
Lemma enqueued_ok callers c acc q chunk o bytes pc c' :
  printing_ok (mkPrinting callers c acc) q chunk o → enqueued c q bytes pc c' →
  ∃ q', printing_ok (mkPrinting (callers ++ [pc]) c' (match pc with DrainEnter => acc ++ [bytes] | _ => acc end)) q' chunk o.
Proof.
  intros [P1 P2 P3 P4 P5 P6] (Hf & Hu & Hq). simpl in *.
  assert (match o with Some i => in_flight <$> (callers ++ [pc]) !! i = Some chunk | None => chunk = [] end) as P4'.
  { destruct o as [i|]; [|done]. apply fmap_Some in P4 as (x & Hx & ->). by rewrite (lookup_app_l_Some _ _ _ _ Hx). }
  assert (∀ j pc', (callers ++ [pc]) !! j = Some pc' → holding pc = false → holding pc' = bool_decide (o = Some j)) as P2'.
  { intros j pc' [Hj|[Hge Hj]]%lookup_app_Some Hp; [by apply P2|]. apply list_lookup_singleton_Some in Hj as [Hj <-]. rewrite Hp.
    rewrite bool_decide_false; [done|]. intros ->. apply fmap_Some in P4 as (x & Hx & _). apply lookup_lt_Some in Hx. lia. }
  assert ((is_Some o ∨ ∃ i x, callers !! i = Some x ∧ looking x = true) →
    is_Some o ∨ ∃ i x, (callers ++ [pc]) !! i = Some x ∧ looking x = true) as P5'.
  { intros [?|(i & x & Hx & Hl)]; [by left|right]. exists i, x. by rewrite (lookup_app_l_Some _ _ _ _ Hx). }
  case_decide; destruct Hq as [-> Hq].
  - exists (q ++ bytes). split; simpl; [done|intros j pc' Hj; by apply P2'|by rewrite Hf|done| |].
    + intros _. right. exists (length callers), DrainEnter. by rewrite lookup_app_r, Nat.sub_diag.
    + rewrite Hu, concat_app, !crlf_app, <-P6, !app_assoc. simpl. by rewrite app_nil_r.
  - exists q. split; simpl; [done|intros j pc' Hj; by apply P2'|by rewrite Hf|done|auto|by rewrite Hu].
Qed.

(** The caller that holds the flag after one caller has moved. *)
Definition next_holder (i : nat) (pc' : DrainPc) (o : option nat) : option nat :=
  if holding pc' then Some i else if decide (o = Some i) then None else o.

Lemma holder_moved (callers : list DrainPc) i pc pc' o :
  (∀ j x, callers !! j = Some x → holding x = bool_decide (o = Some j)) → callers !! i = Some pc →
  (holding pc' = true → o = None ∨ o = Some i) →
  ∀ j x, <[i := pc']> callers !! j = Some x → holding x = bool_decide (next_holder i pc' o = Some j).
Proof.
  intros Hh Hi Hp j x Hj. unfold next_holder. destruct (decide (i = j)) as [<-|Hne].
  - rewrite list_lookup_insert_eq in Hj by (by eapply lookup_lt_Some). injection Hj as <-. destruct (holding pc'); [by rewrite bool_decide_true|].
    rewrite bool_decide_false; [done|]. case_decide; [done|]. by intros ->.
  - rewrite list_lookup_insert_ne in Hj by done. rewrite (Hh j x Hj). destruct (holding pc').
    + destruct (Hp eq_refl) as [->| ->]; rewrite !bool_decide_false; congruence.
    + case_decide as Ho; [|done]. subst o. rewrite !bool_decide_false; congruence.
Qed.

Lemma looking_moved (callers : list DrainPc) i pc pc' :
  callers !! i = Some pc → looking pc = false ∨ looking pc' = true →
  (∃ j x, callers !! j = Some x ∧ looking x = true) → ∃ j x, <[i := pc']> callers !! j = Some x ∧ looking x = true.
Proof.
  intros Hi Hp (j & x & Hx & Hl). assert (i < length callers) as Hlt by (by eapply lookup_lt_Some). destruct (decide (i = j)) as [<-|Hne].
  - destruct Hp as [Hp|Hp]; [congruence|]. exists i, pc'. by rewrite list_lookup_insert_eq.
  - exists j, x. by rewrite list_lookup_insert_ne.
Qed.

(** The bytes a step moves: from the queue to the chunk, from the chunk to the
    UART. *)
Definition moved (pc : DrainPc) (q chunk : list Z) : list Z * list Z * list Z :=
  match pc with
  | DrainPop => (drop CONSOLE_TX_DRAIN_CHUNK q, take CONSOLE_TX_DRAIN_CHUNK q, [])
  | DrainWrite (b :: rest) => (q, rest, putc_raw b)
  | _ => (q, chunk, [])
  end.

(** What one step does, whoever takes it. *)
Lemma drain_step_spec pc c q :
  tx_holds (co_tx c) q →
  ∃ pc' c', drain_step pc c = Done (pc', c') ∧
    let '(q', chunk', sent) := moved pc q (in_flight pc) in
    tx_holds (co_tx c') q' ∧ co_uart c' = co_uart c ++ sent ∧ in_flight pc' = chunk' ∧
    match pc with
    | DrainEnter | DrainRetry => if co_draining c then pc' = DrainLeft ∧ co_draining c' = true else pc' = DrainPop ∧ co_draining c' = true
    | DrainPop => pc' = (if decide (q = []) then DrainRelease else DrainWrite chunk') ∧ co_draining c' = co_draining c
    | DrainWrite bytes => pc' = (match bytes with [] => DrainPop | _ => DrainWrite chunk' end) ∧ co_draining c' = co_draining c
    | DrainRelease => pc' = DrainCheck ∧ co_draining c' = false
    | DrainCheck => pc' = (if decide (q = []) then DrainLeft else DrainRetry) ∧ co_draining c' = co_draining c
    | DrainLeft => pc' = DrainLeft ∧ co_draining c' = co_draining c
    end.
Proof.
  intros Hq. destruct pc as [| |[|b bytes]| | | |]; cbn [drain_step moved in_flight].
  - destruct (co_draining c) eqn:Hd; eexists _, _; (split; [done|]); simpl; by rewrite ?app_nil_r.
  - destruct (tx_pop_spec _ _ Hq) as (tx & -> & Htx). rewrite done_bind. eexists _, _. split; [done|]. simpl. rewrite app_nil_r.
    destruct q as [|b q]; simpl; by split_and!.
  - eexists _, _. split; [done|]. simpl. by rewrite app_nil_r.
  - eexists _, _. by split.
  - eexists _, _. split; [done|]. simpl. by rewrite app_nil_r.
  - unfold tx_is_empty. rewrite (proj2 Hq). eexists _, _. split; [done|]. rewrite app_nil_r.
    destruct q as [|b q]; [by rewrite bool_decide_true|by rewrite bool_decide_false].
  - destruct (co_draining c) eqn:Hd; eexists _, _; (split; [done|]); simpl; by rewrite ?app_nil_r.
  - eexists _, _. split; [done|]. simpl. by rewrite app_nil_r.
Qed.

Lemma moved_bytes pc q : let '(q', chunk', sent) := moved pc q (in_flight pc) in
  sent ++ crlf chunk' ++ crlf q' = crlf (in_flight pc) ++ crlf q.
Proof.
  destruct pc as [| |[|b bytes]| | | |]; simpl; try done.
  - by rewrite <-crlf_app, take_drop.
  - unfold crlf. simpl. by rewrite <-!app_assoc.
Qed.

Lemma moved_still pc q : holding pc = false → moved pc q (in_flight pc) = (q, [], []).
Proof. by destruct pc. Qed.

(** A step of the caller that drains. *)
Lemma holder_step_ok callers c acc q chunk i pc pc' c' :
  printing_ok (mkPrinting callers c acc) q chunk (Some i) → callers !! i = Some pc → holding pc = true → drain_step pc c = Done (pc', c') →
  ∃ q' chunk' o', printing_ok (mkPrinting (<[i := pc']> callers) c' acc) q' chunk' o'.
Proof.
  intros [P1 P2 P3 P4 P5 P6] Hi Eh Hstep. simpl in *. destruct (drain_step_spec pc c q P1) as (? & ? & Hstep' & Hm).
  rewrite Hstep in Hstep'. injection Hstep' as <- <-. assert (i < length callers) as Hlt by (by eapply lookup_lt_Some).
  rewrite Hi in P4. injection P4 as <-. pose proof (moved_bytes pc q) as Hb.
  destruct (moved pc q (in_flight pc)) as [[q' chunk'] sent] eqn:Em. destruct Hm as (H1 & H2 & H3 & Hpc').
  assert (if holding pc' then co_draining c' = true else co_draining c' = false ∧ looking pc' = true) as Hnext.
  { destruct pc as [| |[|b bytes]| | | |]; try done; destruct Hpc' as [-> ->]; rewrite ?P3; try done. by case_decide. }
  exists q', chunk', (next_holder i pc' (Some i)). split; simpl; [done|eapply holder_moved; [done|exact Hi|auto]| | | |].
  - unfold next_holder. rewrite decide_True by done. destruct (holding pc'); [done|by apply Hnext].
  - unfold next_holder. rewrite decide_True by done. destruct (holding pc') eqn:Eh'; [by rewrite list_lookup_insert_eq, <-H3|].
    rewrite <-H3. by destruct pc'.
  - intros Hq. unfold next_holder. destruct (holding pc'); [by left; eexists|right]. exists i, pc'. rewrite list_lookup_insert_eq by done.
    by destruct Hnext.
  - by rewrite H2, <-P6, <-app_assoc, Hb.
Qed.

(** A step of any other caller. *)
Lemma other_step_ok callers c acc q chunk o i pc pc' c' :
  printing_ok (mkPrinting callers c acc) q chunk o → callers !! i = Some pc → holding pc = false → drain_step pc c = Done (pc', c') →
  ∃ o', printing_ok (mkPrinting (<[i := pc']> callers) c' acc) q chunk o'.
Proof.
  intros [P1 P2 P3 P4 P5 P6] Hi Eh Hstep. simpl in *. destruct (drain_step_spec pc c q P1) as (? & ? & Hstep' & Hm).
  rewrite Hstep in Hstep'. injection Hstep' as <- <-. assert (i < length callers) as Hlt by (by eapply lookup_lt_Some).
  pose proof (P2 i pc Hi) as Ho. rewrite Eh in Ho. symmetry in Ho. apply bool_decide_eq_false in Ho.
  rewrite (moved_still pc q Eh) in Hm. destruct Hm as (H1 & H2 & H3 & Hpc'). rewrite app_nil_r in H2.
  assert (if holding pc' then o = None ∧ pc' = DrainPop ∧ co_draining c' = true
          else co_draining c' = co_draining c ∧ (o = None → q ≠ [] → looking pc = false ∨ looking pc' = true)) as Hnext.
  { destruct pc; try done; try (destruct Hpc' as [-> ->]; repeat case_decide; simpl; auto; done).
    all: destruct o as [j|]; [rewrite bool_decide_true in P3 by eauto|rewrite bool_decide_false in P3 by (by intros [? ?])]; rewrite P3 in Hpc' |- *.
    all: destruct Hpc' as [-> ->]; by simpl. }
  exists (next_holder i pc' o). split; simpl; [done|eapply holder_moved; [done|exact Hi|intros Hp; left; rewrite Hp in Hnext; by apply Hnext]| | | |by rewrite H2].
  - unfold next_holder. rewrite decide_False by done. destruct (holding pc'); [by destruct Hnext as (_ & _ & ->)|]. by destruct Hnext as [-> _].
  - unfold next_holder. rewrite decide_False by done. destruct (holding pc').
    + destruct Hnext as (-> & -> & _). rewrite list_lookup_insert_eq by done. by rewrite P4.
    + destruct o as [j|]; [|done]. rewrite list_lookup_insert_ne; [done|congruence].
  - intros Hq. unfold next_holder. rewrite decide_False by done. destruct (holding pc'); [by left; eexists|].
    destruct o as [j|]; [by left; eexists|right]. destruct (P5 Hq) as [[? ?]|Hlook]; [done|]. eapply looking_moved; [exact Hi|by apply Hnext|done].
Qed.

(** One step of a caller keeps the invariant. *)
Lemma drain_ok callers c acc q chunk o i pc pc' c' :
  printing_ok (mkPrinting callers c acc) q chunk o → callers !! i = Some pc → drain_step pc c = Done (pc', c') →
  ∃ q' chunk' o', printing_ok (mkPrinting (<[i := pc']> callers) c' acc) q' chunk' o'.
Proof.
  intros Hp Hi Hstep. pose proof (po_holder _ _ _ _ Hp i pc Hi) as Hh. destruct (holding pc) eqn:Eh.
  - symmetry in Hh. apply bool_decide_eq_true in Hh as ->. by eapply holder_step_ok.
  - exists q, chunk. by eapply other_step_ok.
Qed.

Lemma console_step_ok s s' q chunk o : console_step s s' → printing_ok s q chunk o → ∃ q' chunk' o', printing_ok s' q' chunk' o'.
Proof.
  intros [callers c acc bytes pc c' Hw|callers c acc pieces pc c' Hw|callers c acc i pc pc' c' Hi Hpc Hs] Hp; [| |by eapply drain_ok].
  - destruct (write_enqueue_spec c q bytes (po_ring _ _ _ _ Hp)) as (? & ? & Hw' & He). rewrite Hw in Hw'. injection Hw' as <- <-.
    destruct (enqueued_ok _ _ _ _ _ _ _ _ _ Hp He). eauto.
  - destruct (fmt_enqueue_spec c q pieces (po_ring _ _ _ _ Hp)) as (? & ? & Hw' & He). rewrite Hw in Hw'. injection Hw' as <- <-.
    destruct (enqueued_ok _ _ _ _ _ _ _ _ _ Hp He). eauto.
Qed.

Lemma printing_reachable_ok s : rtc console_step printing_start s → ∃ q chunk o, printing_ok s q chunk o.
Proof.
  intros H. remember printing_start as s0. assert (∃ q chunk o, printing_ok s0 q chunk o) as H0 by (subst; eauto using printing_start_ok).
  clear Heqs0. induction H as [|s1 s2 s3 H12 _ IH]; [done|]. destruct H0 as (q & chunk & o & H0). apply IH. by eapply console_step_ok.
Qed.

(** ** Draining ends *)

(** How many more steps a caller can take at most, for itself. *)
Definition drain_weight (empty : bool) (pc : DrainPc) : nat :=
  match pc with
  | DrainLeft => 0
  | DrainCheck => if empty then 1 else 5
  | DrainRelease => if empty then 2 else 6
  | DrainPop => 3
  | DrainRetry | DrainEnter => 4
  | DrainWrite bytes => 4 + length bytes
  end.

Definition drain_bound (s : Printing) : nat :=
  let tx := co_tx (pn_console s) in
  3 * rg_len tx + sum_list_with (drain_weight (tx_is_empty tx)) (pn_callers s).

Lemma tx_is_empty_spec tx q : tx_holds tx q → tx_is_empty tx = bool_decide (q = []).
Proof. intros [_ Hl]. unfold tx_is_empty. rewrite Hl. apply bool_decide_ext. split; [apply nil_length_inv|by intros ->]. Qed.

Lemma sum_list_with_le {A} (f g : A → nat) (l : list A) : (∀ z, g z ≤ f z) → sum_list_with g l ≤ sum_list_with f l.
Proof. intros Hfg. induction l as [|z l IH]; simpl; [done|]. pose proof (Hfg z). lia. Qed.

Lemma sum_list_with_insert_le {A} (f g : A → nat) (l : list A) i x y :
  l !! i = Some x → (∀ z, g z ≤ f z) → sum_list_with g (<[i := y]> l) + f x ≤ sum_list_with f l + g y.
Proof.
  intros Hi Hfg. revert i Hi. induction l as [|z l IH]; intros [|i] Hi; simplify_eq/=.
  - pose proof (sum_list_with_le f g l Hfg). lia.
  - specialize (IH i Hi). pose proof (Hfg z). lia.
Qed.

(** One step pays for itself. *)
Lemma drain_step_pays pc pc' c c' q :
  tx_holds (co_tx c) q → pc ≠ DrainLeft → drain_step pc c = Done (pc', c') →
  3 * rg_len (co_tx c') + drain_weight (tx_is_empty (co_tx c')) pc' < 3 * rg_len (co_tx c) + drain_weight (tx_is_empty (co_tx c)) pc ∧
  rg_len (co_tx c') ≤ rg_len (co_tx c).
Proof.
  intros Hq Hpc Hs. destruct (drain_step_spec pc c q Hq) as (? & ? & Hs' & Hm). rewrite Hs in Hs'. injection Hs' as <- <-.
  destruct (moved pc q (in_flight pc)) as [[q' chunk'] sent] eqn:Em. destruct Hm as (Hq' & _ & _ & Hpc').
  rewrite (tx_is_empty_spec _ _ Hq), (tx_is_empty_spec _ _ Hq'), (proj2 Hq), (proj2 Hq').
  destruct pc as [| |[|b bytes]| | | |]; try done; cbn [moved in_flight] in Em; injection Em as <- <- <-.
  all: try (destruct Hpc' as [-> _]; cbn [drain_weight]; repeat case_bool_decide; simpl; split; lia).
  - destruct (co_draining c); destruct Hpc' as [-> _]; cbn [drain_weight]; lia.
  - destruct Hpc' as [-> _]. rewrite length_drop. destruct q as [|x q]; [rewrite decide_True, bool_decide_true by done; simpl; lia|]. rewrite decide_False by done.
    cbn [drain_weight]. rewrite length_take. unfold CONSOLE_TX_DRAIN_CHUNK. simpl length. lia.
  - destruct Hpc' as [-> _]. destruct q; [rewrite decide_True, bool_decide_true by done|rewrite decide_False, bool_decide_false by done];
      cbn [drain_weight]; simpl; lia.
  - destruct (co_draining c); destruct Hpc' as [-> _]; cbn [drain_weight]; lia.
Qed.

Lemma drain_weight_le e e' pc : (e = true → e' = true) → drain_weight e' pc ≤ drain_weight e pc.
Proof. intros He. destruct e; [by rewrite He|]. destruct pc, e'; simpl; lia. Qed.

Lemma draining_decreases s s' q chunk o : draining_step s s' → printing_ok s q chunk o → drain_bound s' < drain_bound s.
Proof.
  intros [callers c acc i pc pc' c' Hi Hpc Hs] Hp. pose proof (po_ring _ _ _ _ Hp) as Hq. simpl in Hq.
  destruct (drain_step_pays pc pc' c c' q Hq Hpc Hs) as [Hlt Hle]. unfold drain_bound. simpl.
  assert (tx_is_empty (co_tx c) = true → tx_is_empty (co_tx c') = true) as He.
  { unfold tx_is_empty. rewrite !bool_decide_eq_true. lia. }
  pose proof (sum_list_with_insert_le _ _ callers i pc pc' Hi (λ z, drain_weight_le _ _ z He)). lia.
Qed.

Lemma draining_is_step s s' : draining_step s s' → console_step s s'.
Proof. intros []. by eapply step_drain. Qed.

Lemma draining_bounded n s s' q chunk o : nsteps draining_step n s s' → printing_ok s q chunk o → n + drain_bound s' ≤ drain_bound s.
Proof.
  intros Hn. revert q chunk o. induction Hn as [|n s1 s2 s3 H12 _ IH]; intros q chunk o Hp; [done|].
  pose proof (draining_decreases _ _ _ _ _ H12 Hp). destruct (console_step_ok _ _ _ _ _ (draining_is_step _ _ H12) Hp) as (q' & chunk' & o' & Hp').
  specialize (IH _ _ _ Hp'). lia.
Qed.

(** A caller that has not returned can go on. *)
Lemma draining_live s q chunk o i pc : printing_ok s q chunk o → pn_callers s !! i = Some pc → pc ≠ DrainLeft → ∃ s', draining_step s s'.
Proof.
  intros Hp Hi Hpc. destruct s as [callers c acc]. destruct (drain_step_spec pc c q (po_ring _ _ _ _ Hp)) as (pc' & c' & Hs & _).
  eexists. by eapply draining_step_intro.
Qed.

(** When all callers have returned, everything is out. *)
Lemma drained_output s q chunk o : printing_ok s q chunk o → (∀ i pc, pn_callers s !! i = Some pc → pc = DrainLeft) →
  co_uart (pn_console s) = crlf (concat (pn_accepted s)).
Proof.
  intros [P1 P2 P3 P4 P5 P6] Hleft. destruct o as [i|].
  { apply fmap_Some in P4 as (pc & Hi & _). pose proof (P2 i pc Hi) as Hh. rewrite (Hleft i pc Hi), bool_decide_true in Hh; done. }
  subst chunk. destruct q as [|b q]; [by rewrite <-P6, !app_nil_r|]. destruct P5 as [[? ?]|(i & pc & Hi & Hl)]; [done|done|].
  by rewrite (Hleft i pc Hi) in Hl.
Qed.

(** C14: the console prints every accepted message once, whole and in the
    order of acceptance, whatever the interleaving of the CPUs and interrupt
    handlers that print.  At any time the UART has received a prefix of those
    messages, each newline preceded by a carriage return; a message, plain or
    formatted from pieces, is accepted exactly when the queue has room for all
    of it.  Once nobody prints anything new, the callers can take only a bounded
    number of steps, and when none of them can take another one, all have
    returned and the UART has received everything. *)
Theorem console_output_exact s :
  rtc console_step printing_start s →
  (∃ rest, co_uart (pn_console s) ++ rest = crlf (concat (pn_accepted s))) ∧
  (∀ bytes, ∃ pc c', write_enqueue bytes (pn_console s) = Done (pc, c') ∧
     (pc = DrainEnter ↔ rg_len (co_tx (pn_console s)) + length bytes ≤ CONSOLE_TX_CAPACITY)) ∧
  (∀ pieces, ∃ pc c', fmt_enqueue pieces (pn_console s) = Done (pc, c') ∧
     (pc = DrainEnter ↔ rg_len (co_tx (pn_console s)) + length (concat pieces) ≤ CONSOLE_TX_CAPACITY)) ∧
  (∀ n s', nsteps draining_step n s s' → n ≤ drain_bound s) ∧
  (∀ s', rtc draining_step s s' → (∀ s'', ¬ draining_step s' s'') →
     (∀ i pc, pn_callers s' !! i = Some pc → pc = DrainLeft) ∧ co_uart (pn_console s') = crlf (concat (pn_accepted s))).
Proof.
  intros Hr. destruct (printing_reachable_ok s Hr) as (q & chunk & o & Hp). split_and!.
  - eexists. apply (po_bytes _ _ _ _ Hp).
  - intros bytes. pose proof (po_ring _ _ _ _ Hp) as Hq. destruct (write_enqueue_spec _ q bytes Hq) as (pc & c' & Hw & _ & _ & He).
    exists pc, c'. split; [done|]. rewrite (proj2 Hq). case_decide; destruct He as [-> _]; done.
  - intros pieces. pose proof (po_ring _ _ _ _ Hp) as Hq. destruct (fmt_enqueue_spec _ q pieces Hq) as (pc & c' & Hw & _ & _ & He).
    exists pc, c'. split; [done|]. rewrite (proj2 Hq). case_decide; destruct He as [-> _]; done.
  - intros n s' Hn. pose proof (draining_bounded _ _ _ _ _ _ Hn Hp). lia.
  - intros s' Hd Hstuck. assert (pn_accepted s' = pn_accepted s) as Hacc.
    { clear -Hd. induction Hd as [|s1 s2 s3 [] _ IH]; [done|exact IH]. }
    assert (rtc console_step printing_start s') as Hr' by (etrans; [exact Hr|]; eapply rtc_subrel; [|exact Hd]; apply draining_is_step).
    destruct (printing_reachable_ok s' Hr') as (q' & chunk' & o' & Hp'). rewrite <-Hacc.
    assert (∀ i pc, pn_callers s' !! i = Some pc → pc = DrainLeft) as Hleft.
    { intros i pc Hi. destruct (decide (pc = DrainLeft)) as [|Hne]; [done|]. destruct (draining_live _ _ _ _ _ _ Hp' Hi Hne) as [s'' Hs]. by destruct (Hstuck s''). }
    split; [done|]. by eapply drained_output.
Qed.

(** Two callers: the second enqueues while the first is sending, and leaves the
    draining to it. *)
Inductive printing_op := PrintBytes (bytes : list Z) | StepCaller (i : nat).

Definition printing_run (op : printing_op) (s : Printing) : option Printing :=
  match op with
  | PrintBytes bytes =>
      match write_enqueue bytes (pn_console s) with
      | Done (pc, c') => Some (mkPrinting (pn_callers s ++ [pc]) c' (match pc with DrainEnter => pn_accepted s ++ [bytes] | _ => pn_accepted s end))
      | Panic _ => None
      end
  | StepCaller i =>
      pc ← pn_callers s !! i;
      if decide (pc = DrainLeft) then None
      else match drain_step pc (pn_console s) with
           | Done (pc', c') => Some (mkPrinting (<[i := pc']> (pn_callers s)) c' (pn_accepted s))
           | Panic _ => None
           end
  end.

Fixpoint printing_runs (ops : list printing_op) (s : Printing) : option Printing :=
  match ops with [] => Some s | op :: ops' => s' ← printing_run op s; printing_runs ops' s' end.

Lemma printing_runs_reach ops s s' : printing_runs ops s = Some s' → rtc console_step s s'.
Proof.
  revert s. induction ops as [|op ops IH]; intros s; simpl; [by intros [= <-]|]. destruct (printing_run op s) as [s1|] eqn:E; [|done].
  intros H. eapply rtc_l; [|by apply IH]. destruct s as [callers c acc], op as [bytes|i]; simpl in E.
  - destruct (write_enqueue bytes c) as [[pc c']|] eqn:Ew; [|done]. injection E as <-. by apply step_write.
  - destruct (callers !! i) as [pc|] eqn:Ei; [|done]. simpl in E. destruct (decide (pc = DrainLeft)); [done|].
    destruct (drain_step pc c) as [[pc' c']|] eqn:Es; [|done]. injection E as <-. by eapply step_drain.
Qed.

Definition demo_printing : option Printing :=
  printing_runs [PrintBytes [97; 10]; StepCaller 0; StepCaller 0; StepCaller 0; PrintBytes [98]; StepCaller 1]%Z printing_start.

Lemma demo_printing_is :
  pn_callers <$> demo_printing = Some [DrainWrite [10]; DrainLeft]%Z ∧ (λ s, co_uart (pn_console s)) <$> demo_printing = Some [97]%Z ∧
  (λ s, crlf (concat (pn_accepted s))) <$> demo_printing = Some [97; 13; 10; 98]%Z.
Proof. vm_compute. repeat split. Qed.

Lemma console_output_exact_witness :
  ∃ s, demo_printing = Some s ∧ pn_callers s = [DrainWrite [10]; DrainLeft]%Z ∧ co_uart (pn_console s) = [97]%Z ∧
    (∀ s', rtc draining_step s s' → (∀ s'', ¬ draining_step s' s'') → co_uart (pn_console s') = [97; 13; 10; 98]%Z).
Proof.
  destruct demo_printing_is as (H1 & H2 & H3). destruct demo_printing as [s|] eqn:E; [|discriminate H1]. exists s. split; [reflexivity|].
  injection H1 as H1. injection H2 as H2. injection H3 as H3. split; [exact H1|]. split; [exact H2|].
  intros s' Hd Hstuck. rewrite <-H3. exact (proj2 (proj2 (proj2 (proj2 (proj2 (console_output_exact s (printing_runs_reach _ _ _ E))))) s' Hd Hstuck)).
Defined.

(** ** Reception *)

Definition stdin_holds (s : StdinRx) (l : list Z) : Prop := ring_holds STDIN_RX_CAPACITY (sr_ring s) l.

Lemma stdin_empty s l : stdin_holds s l → stdin_is_empty s = bool_decide (l = []).
Proof. intros [_ Hl]. unfold stdin_is_empty. rewrite Hl. apply bool_decide_ext. split; [apply nil_length_inv|by intros ->]. Qed.

(** The receive queue drops what does not fit. *)
Lemma stdin_push_spec s l b :
  stdin_holds s l →
  ∃ s', stdin_push b s = Done (if decide (length l = STDIN_RX_CAPACITY) then None else sr_waiter s, s') ∧
    if decide (length l = STDIN_RX_CAPACITY) then stdin_holds s' l ∧ sr_waiter s' = sr_waiter s ∧ sr_completed s' = sr_completed s
    else stdin_holds s' (l ++ [b]) ∧ sr_waiter s' = None ∧
         sr_completed s' = match sr_waiter s with Some token => Some token | None => sr_completed s end.
Proof.
  intros [Hr Hl]. unfold stdin_push. rewrite Hl. destruct (decide (length l = STDIN_RX_CAPACITY)) as [|Hne]; [by eexists|].
  destruct (ring_put_spec _ _ l b Hr) as (r & -> & Hr' & Hn & _); [pose proof (rh_room _ _ _ Hr); lia|]. rewrite done_bind.
  eexists. split; [done|]. split_and!; [|done|done]. split; [by apply ring_has_len|]. cbn [sr_ring set_rg_len rg_len]. rewrite Hn, Hl, length_app. simpl. lia.
Qed.

Lemma stdin_pop_spec n s l :
  stdin_holds s l → ∃ s', stdin_pop_into n s = Done (take n l, s') ∧ stdin_holds s' (drop n l) ∧ sr_waiter s' = sr_waiter s ∧ sr_completed s' = sr_completed s.
Proof.
  revert s l. induction n as [|n IH]; intros s l Hs; cbn [stdin_pop_into]; [by exists s|]. destruct Hs as [Hr Hl]. rewrite Hl.
  destruct l as [|b l]; [rewrite decide_True by done; by exists s|]. rewrite decide_False by done.
  destruct (ring_get_spec _ _ b l Hr) as (r & -> & Hr' & Hn). rewrite done_bind.
  destruct (IH (set_sr_ring (set_rg_len (rg_len r - 1) r) s) l) as (s' & -> & Hs' & Hw & Hc).
  { split; [by apply ring_has_len|]. cbn [sr_ring set_sr_ring set_rg_len rg_len]. rewrite Hn, Hl. simpl. lia. }
  rewrite done_bind. exists s'. by split_and!.
Qed.

Section stdin.
Context (E : Env) {N : nat}.
Hypothesis Hcpu : e_cpu E < KERNEL_CPU_CAPACITY.
Hypothesis Harch : arch_ok E.
Abbreviation c := (e_cpu E).

(** A byte that fits completes the wait of the registered reader. *)
Lemma stdin_byte_spec w s l b tok :
  kernel_ok N w → cs_online (cst (w_sched w) c) = true → stdin_holds s l → length l < STDIN_RX_CAPACITY →
  sr_waiter s = Some tok → ¬ joined (w_sched w) tok → ¬ pending w (wt_cpu tok) (wait_deadline tok) →
  wp (on_stdin_byte E b s)
     (λ s' w', kernel_ok N w' ∧ frames_kept w w' ∧ stdin_holds s' (l ++ [b]) ∧ sr_waiter s' = None ∧ sr_completed s' = Some tok ∧
        w_sched w' = (complete_s c tok Notified (w_sched w)).2) w.
Proof.
  intros Hk Hon Hs Hlt Hw Hnj Hnp. destruct (stdin_push_spec s l b Hs) as (s' & Hp & Hs'). rewrite decide_False in Hp by lia. rewrite decide_False in Hs' by lia.
  rewrite Hw in Hp, Hs'. destruct Hs' as (Hs' & Hw' & Hc'). unfold on_stdin_byte. wp_step. eapply wp_reads; [exact Hp|]. cbv iota. wp_step.
  eapply wp_mono; [by apply (complete_wait_spec E (N:=N) Hcpu Harch w tok Notified)|]. intros r w' (Hk' & Hf' & _ & Hsw). apply wp_ret.
  split_and!; try done. by rewrite <-Hsw.
Qed.

(** Setting the live frame of the CPU. *)
Lemma active_frame_ok w f : kernel_ok N w → kernel_ok N (set_w_active (<[c := f]> (w_active w)) w).
Proof. intros [Hw Hsp]. split; [|done]. apply world_ok_active; [done|]. rewrite length_insert. apply (hw_active _ _ (wo_hw _ _ _ Hw)). Qed.

(** A reader that finds nothing blocks, registered, with its system call to be
    executed again. *)
Lemma stdin_block_spec w s from t frame frame' :
  kernel_ok N w → can_block E w from t → active (t_wait t) = None → (next_sequence (t_wait t) < u64_max)%Z →
  w_active w !! c = Some frame → restart_current_syscall frame = Done frame' →
  stdin_holds s [] → sr_waiter s = None → sr_completed s = None →
  wp (block_current_stdin_read_if_empty E s)
     (λ '(r, s') w', kernel_ok N w' ∧ r = inl true ∧ s' = set_sr_waiter (Some (wait_token E from t)) s ∧
        frames_kept (set_w_active (<[c := frame']> (w_active w)) w) w' ∧
        ∃ t', live (w_sched w') from t' ∧ t_state t' = Blocked ∧
              active (t_wait t') = Some (mkActiveWait (wait_token E from t) PhaseBlocked Explicit)) w.
Proof.
  intros Hk Hcb Ha Hq Hfr Hre Hs Hw Hc. unfold block_current_stdin_read_if_empty. rewrite (stdin_empty _ _ Hs), bool_decide_true by done.
  cbn [negb]. wp_step. apply wp_assert_enabled; [apply Hcb|].
  wp_step. eapply wp_mono; [apply (prepare_wait_spec E (N:=N) Hcpu Stable w from t); try done; apply Hcb|].
  intros p w1 (-> & -> & _ & _). unfold stdin_register_waiter. rewrite Hc, Hw. cbv iota zeta. cbn [negb pw_token].
  wp_step. eapply wp_reads; [unfold on_sched; simpl; by rewrite Hfr|]. wp_step. eapply wp_reads; [exact Hre|]. wp_step. apply wp_modify. cbv beta.
  set (w0 := set_w_active (<[c := frame']> (w_active w)) w).
  change (set_w_active _ (on_sched _ w)) with (on_sched (prepared_s E Explicit from t) w0).
  assert (kernel_ok N w0) as Hk0 by (by apply active_frame_ok). assert (can_block E w0 from t) as Hcb0 by (destruct Hcb; by split).
  pose proof (prepare_wait_spec E (N:=N) Hcpu Stable w0 from t Hk0 (cb_cur _ _ _ _ Hcb0) (cb_live _ _ _ _ Hcb0) (cb_enabled _ _ _ _ Hcb0) Ha Hq) as Hprep.
  apply wp_run in Hprep as (p & w1 & _ & _ & -> & Hk1 & Hf1).
  pose proof (publish_commit_spec E (N:=N) Hcpu Harch w0 from t None Hk0 Hcb0 Ha Hq Hk1 Hf1) as Hpc.
  apply wp_bind_inv in Hpc. cbn [publish_deadline] in Hpc. wp_step. eapply wp_mono; [exact Hpc|].
  intros r w' (Hk' & Hf' & _ & (to & ->) & _ & Hb'). apply wp_ret. by split_and!.
Qed.

(** The completion recorded for the reader. *)
Definition own_completion (from : ThreadId) (s : StdinRx) : option WaitToken :=
  tok ← sr_completed s; if decide (wt_thread tok = from) then Some tok else None.

(** Reading takes the oldest bytes and closes the reader's own wait. *)
Lemma read_stdin_spec w s l from t n :
  kernel_ok N w → cur (w_sched w) c = Some from → live (w_sched w) from t → 0 < n → stdin_holds s l →
  (∀ tok, own_completion from s = Some tok → (finish (t_wait t) tok).1 ≠ inr NotCompleted) →
  wp (read_stdin E n s)
     (λ '(bytes, s') w', kernel_ok N w' ∧ frames_kept w w' ∧ bytes = take n l ∧ stdin_holds s' (drop n l) ∧ sr_waiter s' = sr_waiter s ∧
        sr_completed s' = (if own_completion from s then None else sr_completed s) ∧ (own_completion from s = None → w' = w)) w.
Proof.
  intros Hk Hcur Hl Hn Hs Hfin. pose proof (wo_sched _ _ _ (ko_world _ _ _ Hk)) as Hsc. unfold read_stdin. rewrite decide_False by lia.
  wp_step. eapply wp_current_thread; [by apply (cst_lookup Hsc)|]. change (cs_current _) with (cur (w_sched w) c). rewrite Hcur.
  destruct (stdin_pop_spec n s l Hs) as (s1 & Hp & Hs1 & Hw1 & Hc1). wp_step. eapply wp_reads; [exact Hp|]. cbv iota.
  assert (stdin_take_completed from s1 = (own_completion from s, if own_completion from s then set_sr_completed None s1 else s1)) as ->.
  { unfold stdin_take_completed, own_completion. rewrite Hc1. destruct (sr_completed s) as [tok|]; [|done]. simpl. by case_decide. }
  destruct (own_completion from s) as [tok|] eqn:Eo; cbv iota zeta; [|by repeat wp_step].
  assert (wt_thread tok = from) as <-.
  { unfold own_completion in Eo. destruct (sr_completed s); [|done]. simpl in Eo. case_decide; [|done]. by injection Eo as <-. }
  wp_step. wp_step. eapply wp_mono; [by apply (finish_wait_spec E (N:=N) Hcpu w tok t)|]. intros r w' (Hk' & Hf' & -> & _). specialize (Hfin tok eq_refl).
  destruct (finish (t_wait t) tok).1 as [cause|[]]; try done; repeat wp_step; by split_and!.
Qed.
End stdin.
