(* ===== verification/Liveness.v ===== *)
(** * Progress of the scheduler

    What the safety specifications leave open: that a request to reschedule
    is not lost on the way to the checkpoint, that yielding therefore takes
    the threads of the queue in turn, and that a timed wait ends with the
    first timer interrupt at or after its deadline.

    A thread that exits while another one waits in [join] on it is retired by
    its CPU; the notification the CPU owes itself finalizes it.  After that
    the joiner runs again with exactly the exit code and the user resources
    of the target, and the slot of the target is free. *)

From stdpp Require Import gmap.
From S2P Require Import Prelude Types Wait Deadline TimeConv Preempt Context Vm Time Sched World Transition Handoff CpuInv SchedInv Switch.
From S2P Require Import Lifecycle TransitionSpec LifecycleSpec WorldInv TimeSpec SwitchSpec WakeSpec Frames EntrySpec BlockSpec JoinSpec.
From S2P Require Import TimerSpec.
(** ** State predicates no step can break *)

(** Whenever the program returns, [P] still holds. *)
Definition preserves {S A} (P : S → Prop) (m : M S A) : Prop :=
  ∀ s a s', m s = Done (a, s') → P s → P s'.

Section preserves.
Context {S : Type} (P : S → Prop).

Lemma preserves_ret {A} (a : A) : preserves P (mret a : M S A).
Proof. by intros s a' s' [= _ <-]. Qed.
Lemma preserves_bind {A B} (m : M S A) (f : A → M S B) :
  preserves P m → (∀ a, preserves P (f a)) → preserves P (m ≫= f).
Proof.
  intros Hm Hf s b s'. unfold mbind, M_bind. destruct (m s) as [[a s1]|] eqn:Hs; [|done].
  intros Hb HP. eapply Hf; [exact Hb|]. by eapply Hm.
Qed.
Lemma preserves_gets {A} (f : S → A) : preserves P (gets f).
Proof. by intros s a s' [= _ <-]. Qed.
Lemma preserves_reads {A} (f : S → outcome A) : preserves P (reads f).
Proof. intros s a s'. unfold reads. destruct (f s); [|done]. by intros [= _ <-]. Qed.
Lemma preserves_modify (f : S → S) : (∀ s, P s → P (f s)) → preserves P (modify f).
Proof. intros Hf s a s' [= _ <-]. apply Hf. Qed.
Lemma preserves_panic {A} why : preserves P (panic why : M S A).
Proof. done. Qed.
Lemma preserves_assert b why : preserves P (assert_that b why).
Proof. destruct b; [apply preserves_ret|apply preserves_panic]. Qed.
Lemma preserves_expect {A} (o : option A) why : preserves P (expect o why).
Proof. destruct o; [apply preserves_ret|apply preserves_panic]. Qed.
End preserves.

Create HintDb preserves.
#[export] Hint Resolve preserves_ret preserves_gets preserves_reads preserves_panic preserves_assert
  preserves_expect : preserves.

(** Walk through a program, one primitive at a time. *)
Ltac preserve :=
  repeat (first
    [ solve [eauto 1 with preserves]
    | apply preserves_bind; [|intros ?]
    | apply preserves_modify; by intros ? ?
    | match goal with |- preserves _ (match ?x with _ => _ end) => destruct x end
    | match goal with |- preserves _ (if ?x then _ else _) => destruct x end ]).

Section progress.
Context (E : Env) {N : nat}.
Hypothesis Hcpu : e_cpu E < KERNEL_CPU_CAPACITY.
Hypothesis Harch : arch_ok E.
Abbreviation c := (e_cpu E).

(** ** A request stays until the checkpoint *)

Definition requested (w : World) : Prop := reschedule_pending <$> w_preempt w !! c = Some true.

Lemma request_sets w w' : with_state E c (λ p, mret (tt, preempt_request p)) w = Done (tt, w') → requested w'.
Proof.
  unfold with_state, mbind, M_bind, assert_that. rewrite bool_decide_true by done. simpl. unfold reads, expect_o.
  destruct (w_preempt w !! c) as [p|] eqn:Hp; [|done]. intros [= <-]. unfold requested. simpl.
  by rewrite list_lookup_insert_eq by (by eapply lookup_lt_Some).
Qed.

Lemma preserves_request cpu : preserves requested (request_reschedule_on E cpu).
Proof.
  unfold request_reschedule_on. destruct (decide (c = cpu)) as [<-|]; [|by preserve].
  intros w [] w' Hw _. by eapply request_sets.
Qed.

Lemma preserves_sched f : preserves requested (sched_modify f).
Proof. apply preserves_modify. by intros w Hw. Qed.

Lemma preserves_time {A} cpu (f : TM DeadlineQueue A) : preserves requested (with_time_mut E cpu f).
Proof. unfold with_time_mut. preserve. Qed.

Hint Resolve preserves_request preserves_sched preserves_time : preserves.

Lemma preserves_peer : preserves requested (note_runnable_peer_available E).
Proof.
  unfold note_runnable_peer_available, ensure_quantum_event, current_thread, transition_has_ready, event_pending,
    now_counter, schedule_event, local_state, with_sched. preserve.
Qed.

Lemma preserves_push id : preserves requested (ready_push_back E id).
Proof. unfold ready_push_back, local_state, with_sched, state_mut. preserve. Qed.

Hint Resolve preserves_peer preserves_push : preserves.

Lemma preserves_complete tok cause notify : preserves requested (complete_wait_transition E tok cause notify).
Proof.
  unfold complete_wait_transition, on_wait, make_ready_and_queue, publish_remote_ready, request_scheduler_ipi,
    notify_scheduler, validate_after_transition, local_state, with_sched, thread_mut. preserve.
Qed.

Hint Resolve preserves_complete : preserves.

Lemma preserves_finalize notify : preserves requested (finalize_retired E notify).
Proof.
  unfold finalize_retired, complete_joiner, table_release, set_reaped_user, validate_after_transition, local_state,
    with_sched, state_mut, thread_mut. preserve.
Qed.

(** ** Yielding is one round-robin step *)

Lemma consume_requested m w :
  world_ok N m w → requested w → depth_of w c = Some 0%Z →
  wp (consume_checkpoint_on E c true) (λ b w', b = true ∧ world_ok N m w' ∧ quiet w w') w.
Proof.
  intros Hok Hr Hd. apply wp_bind. wp_step; [by apply bool_decide_eq_true|].
  eapply (with_state_spec E (N:=N) Hcpu m w (λ p, preempt_consume_checkpoint p true)); [done| |].
  - intros p. unfold preempt_consume_checkpoint. by destruct (_ || _).
  - intros p w' Hp Hok' Hq'. split; [|done]. unfold requested, depth_of in *. rewrite Hp in Hr, Hd.
    injection Hr as Hr. injection Hd as Hd. unfold preempt_consume_checkpoint, preempt_is_disabled. by rewrite Hr, Hd.
Qed.

Lemma request_requested m w :
  world_ok N m w → wp (request_reschedule E) (λ _ w', (world_ok N m w' ∧ quiet w w') ∧ requested w') w.
Proof.
  intros Hok. apply wp_conj; [apply (request_self_spec E (N:=N) Hcpu m w _ Hok); auto|].
  assert (wp (request_reschedule E) (λ _ _, True) w) as Ht by (by apply (request_self_spec E (N:=N) Hcpu m w _ Hok)).
  unfold wp in *. destruct (request_reschedule E w) as [[[] w']|] eqn:Hw; [|done]. by eapply request_sets.
Qed.

Lemma wp_preserves {A} P (m : W A) Q w : preserves P m → P w → wp m Q w → wp m (λ a w', Q a w' ∧ P w') w.
Proof. unfold wp. intros Hp HP. destruct (m w) as [[a w']|] eqn:Hw; [|done]. intros HQ. split; [done|by eapply Hp]. Qed.

Lemma yield_now_exact w from t :
  kernel_ok N w → preemptible E (w_sched w) from t → depth_of w c = Some 0%Z →
  wp (yield_now E)
     (λ _ w', kernel_ok N w' ∧ frames_kept w w' ∧ beside w w' ∧ sched_ok N None (finalize_s c (w_sched w)) ∧
              ∃ frame, round_robin E frame (finalize_s c (w_sched w)) (w_sched w')) w.
Proof.
  intros Hk Hp Hd. apply wp_bind. eapply wp_mono; [by apply (request_requested Stable), Hk|].
  intros _ w1 [[Hok1 Hq1] Hr1]. destruct (kernel_quiet (N:=N) w w1 Hk Hok1 Hq1) as [Hk1 Hf1]. destruct Hq1 as [Hsw1 Has1].
  apply wp_bind. eapply wp_mono.
  { apply wp_preserves; [apply preserves_finalize|done|].
    apply (finalize_kernel_spec E (N:=N) Hcpu Harch w1 Hk1). rewrite Hsw1. apply Hp. }
  intros _ w2 ((Hk2 & Hf2 & Has2 & Hsw2) & Hr2). rewrite Hsw1 in Hsw2. rewrite <-Hsw2.
  assert (preemptible E (w_sched w2) from t) as Hp2.
  { rewrite Hsw2. apply (finalize_preemptible E (N:=N) Hcpu); [apply Hk|done]. }
  pose proof (wo_sched _ _ _ (ko_world _ _ _ Hk2)) as Hs2.
  apply wp_bind. eapply wp_local_state; [by apply (cst_lookup Hs2)|]. rewrite (pr_online _ _ _ _ Hp2).
  apply wp_bind. eapply wp_mono; [apply (consume_requested Stable w2); [apply Hk2|done|]|].
  { by rewrite (as_depth _ _ Has2), (as_depth _ _ Has1). }
  intros b w3 (-> & Hok3 & Hq3). destruct (kernel_quiet (N:=N) w2 w3 Hk2 Hok3 Hq3) as [Hk3 Hf3].
  destruct Hq3 as [Hsw3 Has3]. rewrite <-Hsw3 in Hp2 |- *. pose proof (wo_sched _ _ _ Hok3) as Hs3. simpl.
  wp_step. eapply wp_current_thread; [by apply (cst_lookup Hs3)|].
  pose proof (pr_cur _ _ _ _ Hp2) as Hcur. unfold cur in Hcur. rewrite Hcur.
  eapply wp_mono; [by apply (checkpoint_switch_spec E (N:=N) Hcpu Harch w3 from t)|].
  intros _ w4 (Hk4 & Hf4 & Hd4 & frame & _ & Hrr). split_and!; [done|by do 3 (etrans; [eassumption|])| |done|by exists frame].
  do 3 (etrans; [by apply aside_beside|]). done.
Qed.

(** ** What a step of the queue does to one thread *)

(** Only the lifecycle state and the saved registers change. *)
Definition rescheduled (t t' : Thread) : Prop :=
  ∃ st f, t' = set_t_state st (set_t_context f t) ∧ (st = t_state t ∨ st = Ready ∨ st = Running).

Lemma rescheduled_refl t : rescheduled t t.
Proof. exists (t_state t), (t_context t). split; [by destruct t|auto]. Qed.
Lemma rescheduled_state st t t' : st = Ready ∨ st = Running → rescheduled t t' → rescheduled t (set_t_state st t').
Proof. intros Hst (st0 & f & -> & _). exists st, f. split; [by destruct t|auto]. Qed.
Lemma rescheduled_context f t t' : rescheduled t t' → rescheduled t (set_t_context f t').
Proof. intros (st0 & f0 & -> & ?). exists st0, f. split; [by destruct t|auto]. Qed.

Lemma round_robin_view frame s s' tid t :
  round_robin E frame s s' → live s tid t → ∃ t', live s' tid t' ∧ rescheduled t t'.
Proof.
  unfold round_robin. pose proof (rescheduled_refl t) as Hrefl.
  intros Hrr Hl. destruct (cur s c) as [from|]; [|by subst; eauto].
  destruct (ready s c) as [|to rest]; subst s'; [by eauto|].
  unfold live, saved_s, switched, enter_s, leave_ready_s. rewrite !table_get_alter, table_get_alter_cpu, table_get_alter,
    table_get_alter_cpu, table_get_alter, Hl.
  repeat (destruct (decide _); simpl); (eexists; split; [done|]).
  all: repeat (apply rescheduled_context || (apply rescheduled_state; [auto|])); exact Hrefl.
Qed.

Lemma checkpointed_view d s s' tid t :
  checkpointed E d s s' → live s tid t → ∃ t', live s' tid t' ∧ rescheduled t t'.
Proof. intros [->|[_ [frame Hrr]]] Hl; [|by eapply round_robin_view]. exists t. split; [done|apply rescheduled_refl]. Qed.

(** The head of the queue runs, the thread that ran queues up behind. *)
Lemma round_robin_queue frame s s' from to rest :
  c < length (cpus s) → cur s c = Some from → ready s c = to :: rest → round_robin E frame s s' →
  cur s' c = Some to ∧ cs_online (cst s' c) = cs_online (cst s c) ∧
  ready s' c = rest ++ (if decide (idl s c = Some from) then [] else [from]).
Proof.
  unfold round_robin. intros Hc -> -> ->. split_and!.
  - change (cur (switched c from to rest s) c = Some to). rewrite cur_switched by done. by rewrite decide_True.
  - change (cs_online (cst (switched c from to rest s) c) = cs_online (cst s c)). by rewrite online_switched.
  - unfold ready, saved_s, switched, enter_s, idl, queue_after. rewrite cst_alter_thread, cst_alter_cpu.
    + rewrite decide_True by done. simpl. destruct (decide _); [by rewrite app_nil_r|done].
    + simpl. by rewrite length_alter.
Qed.

(** Finalizing a retired thread may only add its joiner to the queue. *)
Lemma finalize_ready s : c < length (cpus s) → ∃ more, ready (finalize_s c s) c = ready s c ++ more.
Proof.
  intros Hc. unfold finalize_s. destruct (ret s c) as [x|]; [|exists []; by rewrite app_nil_r].
  assert (ready (unretire_s x c s) c = ready s c) as Hu.
  { unfold unretire_s, ready. rewrite cst_alter_thread, cst_alter_cpu by done. by rewrite decide_True. }
  assert (ready (release_s x (alter_cpu (set_cs_retired None) c s)) c = ready s c) as Hr.
  { change (ready (alter_cpu (set_cs_retired None) c s) c = ready s c).
    unfold ready. rewrite cst_alter_cpu by done. by rewrite decide_True. }
  destruct (table_get s x) as [t|]; [|exists []; by rewrite app_nil_r].
  destruct (t_joiner t) as [tok|], (t_exit_code t) as [code|];
    try (exists []; rewrite app_nil_r; by destruct (t_joinable t)).
  change (∃ more, ready (complete_s c tok Notified (unretire_s x c s)).2 c = ready s c ++ more). rewrite <-Hu.
  unfold complete_s. destruct (table_get _ _) as [j|]; [|exists []; by rewrite app_nil_r].
  destruct (complete (t_wait j) tok Notified) as [[] wm]; simpl; try (exists []; by rewrite app_nil_r).
  unfold wake_s. destruct (decide _); [|exists []; by rewrite app_nil_r].
  exists [wt_thread tok]. unfold wake_local_s, ready. rewrite cst_alter_cpu, decide_True by (simpl; by rewrite ?length_alter).
  done.
Qed.

(** ** Turns of the queue *)

Fixpoint yields (n : nat) : W unit :=
  match n with
  | 0 => mret tt
  | S n' => yield_now E;; yields n'
  end.

(** After a yield the head of the queue runs and the others moved up. *)
Lemma yield_moves w from t to rest :
  kernel_ok N w → preemptible E (w_sched w) from t → depth_of w c = Some 0%Z → ready (w_sched w) c = to :: rest →
  wp (yield_now E)
     (λ _ w', kernel_ok N w' ∧ frames_kept w w' ∧ depth_of w' c = Some 0%Z ∧
        (∃ t', preemptible E (w_sched w') to t') ∧ ∃ more, ready (w_sched w') c = rest ++ more) w.
Proof.
  intros Hk Hp Hd Hr. pose proof (wo_sched _ _ _ (ko_world _ _ _ Hk)) as Hs.
  eapply wp_mono; [by apply (yield_now_exact w from t)|]. intros _ w' (Hk' & Hf & Hb & Hfo & frame & Hrr).
  assert (preemptible E (finalize_s c (w_sched w)) from t) as Hpf by (by apply (finalize_preemptible E (N:=N) Hcpu)).
  destruct (finalize_ready (w_sched w) (here_length Hs Hcpu)) as [more Hmore]. rewrite Hr in Hmore. simpl in Hmore.
  destruct (round_robin_queue _ _ _ _ _ _ (here_length Hfo Hcpu) (pr_cur _ _ _ _ Hpf) Hmore Hrr) as (Hcur & Hon & Hq).
  rewrite (pr_online _ _ _ _ Hpf) in Hon.
  split_and!; [done|done|by rewrite (bs_depth _ _ Hb)| |eexists; by rewrite Hq, <-app_assoc].
  assert (to ∈ ready (finalize_s c (w_sched w)) c ++ remote (finalize_s c (w_sched w)) c) as Hin.
  { rewrite Hmore. by left. }
  apply (queued_spec Hfo c to Hcpu) in Hin as (tto & Hl & _ & Hst & _).
  destruct (round_robin_view _ _ _ _ _ Hrr Hl) as (t' & Hl' & st & f & -> & _). eexists. split; [done..|].
  simpl. pose proof (wk_prepared _ _ (tk_wait _ _ (so_threads _ _ _ Hfo _ _ Hl))) as Hpr.
  destruct (wait_is_prepared (t_wait tto)); [|done]. by rewrite Hpr in Hst.
Qed.

Lemma yields_turn k w from t x :
  kernel_ok N w → preemptible E (w_sched w) from t → depth_of w c = Some 0%Z → ready (w_sched w) c !! k = Some x →
  wp (yields (S k)) (λ _ w', kernel_ok N w' ∧ frames_kept w w' ∧ cur (w_sched w') c = Some x) w.
Proof.
  revert w from t. induction k as [|k IH]; intros w from t Hk Hp Hd Hx.
  all: destruct (ready (w_sched w) c) as [|to rest] eqn:Hr; [done|].
  all: apply wp_bind; (eapply wp_mono; [by apply (yield_moves w from t to rest)|]).
  all: intros _ w' (Hk' & Hf & Hd' & (t' & Hp') & more & Hr').
  - apply wp_ret. split_and!; [done|done|]. simpl in Hx. injection Hx as <-. apply Hp'.
  - eapply wp_mono; [apply (IH w' to t'); [done..|]|].
    { rewrite Hr'. by apply lookup_app_l_Some. }
    intros _ w2 (Hk2 & Hf2 & Hc2). split_and!; [done|by etrans|done].
Qed.

(** ** Timed waits end on time *)

(** The thread after its wait was completed by a timeout. *)
Definition timed_out (tok : WaitToken) (t : Thread) : Thread :=
  set_t_state Ready (set_t_wait (complete (t_wait t) tok Timeout).2 t).

Definition settled (t : Thread) (tok : WaitToken) : Prop :=
  (complete (t_wait t) tok Timeout).1 = CompletionStale ∨ (complete (t_wait t) tok Timeout).1 = AlreadyCompleted.

Lemma complete_spares s tid t tok :
  live s tid t → (wt_thread tok = tid → settled t tok) → live (complete_s c tok Timeout s).2 tid t.
Proof.
  intros Hl Hset. unfold complete_s. destruct (table_get s (wt_thread tok)) as [t0|] eqn:Ht; [|done].
  destruct (decide (wt_thread tok = tid)) as [Heq|Hne].
  - rewrite Heq in Ht. rewrite (live_fun _ _ _ _ Hl Ht) in *. specialize (Hset Heq). unfold settled in Hset.
    destruct (complete (t_wait t0) tok Timeout) as [[] wm]; simpl in *; naive_solver.
  - assert (tid_index tid ≠ tid_index (wt_thread tok)) as Hi.
    { intros Heq. apply Hne. symmetry. by eapply live_index_inj. }
    destruct (complete (t_wait t0) tok Timeout) as [[] wm]; simpl; try done.
    + by apply (live_alter_other (set_t_wait wm)).
    + by apply wake_s_other.
Qed.

Lemma dispatch_keeps s tid t evs :
  live s tid t → (∀ c' tok, WaitDeadline c' tok ∈ evs → wt_thread tok = tid → settled t tok) →
  live (dispatch_s c evs s) tid t.
Proof.
  revert s. induction evs as [|[c' tok|] evs IH]; intros s Hl Hset; [done|..]; simpl.
  - apply IH; [|intros; eapply Hset; [by right|done]]. apply complete_spares; [done|]. apply (Hset c'). by left.
  - apply IH; [done|]. intros. eapply Hset; [by right|done].
Qed.

Lemma other_settled t tok tok' k :
  active (t_wait t) = Some (mkActiveWait tok PhaseBlocked k) → tok' ≠ tok → settled t tok'.
Proof. intros Ha Hne. left. unfold complete. by rewrite Ha, decide_True. Qed.

Lemma timed_out_settled t tok tok' k :
  active (t_wait t) = Some (mkActiveWait tok PhaseBlocked k) → settled (timed_out tok t) tok'.
Proof.
  intros Ha. unfold settled, timed_out, complete. simpl. rewrite Ha. simpl. rewrite decide_False by (intros Hn; by apply Hn).
  destruct k; simpl; [destruct (decide _)|]; auto.
Qed.

Lemma complete_wakes s t tok k :
  live s (wt_thread tok) t → active (t_wait t) = Some (mkActiveWait tok PhaseBlocked k) →
  live (complete_s c tok Timeout s).2 (wt_thread tok) (timed_out tok t).
Proof.
  intros Hl Ha. unfold complete_s, timed_out. rewrite Hl. unfold complete. rewrite Ha. simpl.
  rewrite decide_False by (intros Hn; by apply Hn). simpl. unfold wake_s.
  by destruct (decide _); apply (live_alter_same (λ t, set_t_state Ready (set_t_wait _ t))).
Qed.

Lemma dispatch_wakes s t tok k evs c' :
  live s (wt_thread tok) t → active (t_wait t) = Some (mkActiveWait tok PhaseBlocked k) → WaitDeadline c' tok ∈ evs →
  live (dispatch_s c evs s) (wt_thread tok) (timed_out tok t).
Proof.
  intros Hl Ha. revert s Hl. induction evs as [|[c0 tok0|] evs IH]; intros s Hl Hin; [by apply elem_of_nil in Hin|..]; simpl.
  - destruct (decide (tok0 = tok)) as [->|Hne].
    + apply dispatch_keeps; [by eapply complete_wakes|]. intros. by eapply timed_out_settled.
    + apply IH; [|by apply elem_of_cons in Hin as [[= _ ->]|]].
      apply complete_spares; [done|]. intros _. by eapply other_settled.
  - apply IH; [done|]. by apply elem_of_cons in Hin as [|].
Qed.

Lemma due_member m now es ev d :
  due_entries m now es → m !! ev = Some d → ev ∈ de_event <$> es ↔ (d <= now)%Z.
Proof.
  intros (_ & _ & Hes) Hev. split.
  - intros ([d' ev'] & Heq & [Hin Hle]%Hes)%list_elem_of_fmap. simpl in *. subst ev'. rewrite Hev in Hin. by injection Hin as <-.
  - intros Hle. apply list_elem_of_fmap. exists (mkDeadlineEntry d ev). split; [done|]. by apply Hes.
Qed.

(** A thread in a timed wait is nobody's joiner, so finalization leaves it. *)
Lemma finalize_sleeper w tok t k :
  kernel_ok N w → live (w_sched w) (wt_thread tok) t → active (t_wait t) = Some (mkActiveWait tok PhaseBlocked k) →
  pending w c (WaitDeadline c tok) → t_state t = Blocked ∧ live (finalize_s c (w_sched w)) (wt_thread tok) t.
Proof.
  intros [[Hs Hhw Hlk] _] Hl Ha Hp. assert (t_state t = Blocked) as Hst.
  { apply (wk_blocked _ _ (tk_wait _ _ (so_threads _ _ _ Hs _ _ Hl))). unfold wait_is_blocked. by rewrite Ha. }
  split; [done|]. apply (finalize_other N); [done..|congruence|]. intros tok' Hj Heq. rewrite <-Heq in Hl.
  destruct (joined_blocked _ _ _ tok' t Hs Hj Hl) as [_ Ha']. rewrite Ha in Ha'. injection Ha' as <- _.
  destruct (lk_wait _ _ _ Hlk c c tok Hp) as (_ & Htc & _).
  apply (lk_joiner _ _ _ Hlk tok c Hj). unfold wait_deadline. by rewrite Htc.
Qed.

(** The interrupt reads the counter once; a wait of this CPU whose deadline
    it has reached is over afterwards, any other wait goes on. *)
Definition wait_served (tok : WaitToken) (t : Thread) (d : Z) (w w' : World) : Prop :=
  ∃ t', live (w_sched w') (wt_thread tok) t' ∧
    if decide (d <= e_clock E (w_reads w))%Z
    then (t_state t' = Ready ∨ t_state t' = Running) ∧ t_wait t' = (complete (t_wait t) tok Timeout).2 ∧
         events w' c !! WaitDeadline c tok = None
    else t_state t' = Blocked ∧ t_wait t' = t_wait t ∧ events w' c !! WaitDeadline c tok = Some d.

Lemma timer_ends_waits w tok t k d :
  kernel_ok N w → interruptible E (w_sched w) → cs_online (cst (w_sched w) c) = true →
  live (w_sched w) (wt_thread tok) t → active (t_wait t) = Some (mkActiveWait tok PhaseBlocked k) →
  events w c !! WaitDeadline c tok = Some d →
  wp (on_timer_interrupt E) (λ _ w', kernel_ok N w' ∧ wait_served tok t d w w') w.
Proof.
  intros Hk Hint Hon Hl Ha Hev. destruct (finalize_sleeper w tok t k Hk Hl Ha) as [Hst Hlf]; [by exists d|].
  eapply wp_mono; [by apply (on_timer_interrupt_spec E (N:=N) Hcpu Harch w)|]. intros _ w' (Hk' & _ & _ & Hres).
  rewrite decide_True in Hres by (by apply (lk_time _ _ _ (wo_links _ _ _ (ko_world _ _ _ Hk)))).
  destruct Hres as (es & Hdue & Htick & Hevs). unfold ticked in Htick. rewrite Hon in Htick. split; [done|].
  pose proof (due_member _ _ _ _ _ Hdue Hev) as Hmem. specialize (Hevs c tok). unfold wait_served.
  destruct (decide _) as [Hle|Hgt].
  - apply Hmem in Hle as Hin. pose proof (dispatch_wakes _ _ _ _ _ _ Hlf Ha Hin) as Hld.
    destruct (checkpointed_view _ _ _ _ _ Htick Hld) as (t' & Hl' & st & f & -> & Hst'). eexists. split; [done|].
    split_and!; [by destruct Hst' as [->|[->| ->]]; auto|done|]. rewrite Hevs. unfold not_due.
    apply map_lookup_filter_None. right. intros x Hx. rewrite Hev in Hx. injection Hx as <-. simpl. lia.
  - assert (live (dispatch_s c (de_event <$> es) (finalize_s c (w_sched w))) (wt_thread tok) t) as Hld.
    { apply dispatch_keeps; [done|]. intros c' tok' Hin _. eapply other_settled; [done|]. intros ->.
      destruct Hdue as (Hd1 & Hd2 & Hes). apply list_elem_of_fmap in Hin as ([d' ev] & Heq & [Hin Hle]%Hes). simpl in *. subst ev.
      destruct (lk_wait _ _ _ (wo_links _ _ _ (ko_world _ _ _ Hk)) c c' tok) as (-> & _); [by exists d'|].
      rewrite Hev in Hin. by injection Hin as <-. }
    destruct (checkpointed_view _ _ _ _ _ Htick Hld) as (t' & Hl' & st & f & -> & _). eexists. split; [done|]. split_and!; [|done|].
    + apply (wk_blocked _ _ (tk_wait _ _ (so_threads _ _ _ (wo_sched _ _ _ (ko_world _ _ _ Hk')) _ _ Hl'))).
      unfold wait_is_blocked. simpl. by rewrite Ha.
    + rewrite Hevs. unfold not_due. apply map_lookup_filter_Some. split; [done|]. simpl. lia.
Qed.

(** ** The direct wake out of idle *)

(** The shortcut of the timer path selects the same thread and leaves the same
    scheduler state as completing the wait and taking a checkpoint. *)
Lemma direct_is_queued w from t tok tx wm :
  kernel_ok N w → preemptible E (w_sched w) from t → direct E (w_sched w) from tok tx wm →
  remote (w_sched w) c = [] → wt_cpu tok = c → ¬ joined (w_sched w) tok → ¬ pending w (wt_cpu tok) (wait_deadline tok) →
  let s' := switched c from (wt_thread tok) [] (complete_s c tok Timeout (w_sched w)).2 in
  wp (transition_timed_wake_from_idle E tok)
     (λ o w', o = Some (Switch from (wt_thread tok)) ∧ w_sched w' = s') w ∧
  wp (transition_complete_wait_for_timer E tok;; transition_optional_switch E)
     (λ o w', o = Switch from (wt_thread tok) ∧ w_sched w' = s') w.
Proof.
  intros Hk Hp Hd Hrem Htc Hnj Hnp s'. pose proof Hk as [Hok _]. pose proof (wo_sched _ _ _ Hok) as Hs.
  pose proof (world_ok_busy E w false eq_refl Hok) as Hokb.
  destruct (direct_world E (N:=N) Hcpu false w from t tok tx wm Hokb Hp Hd Hnj Hnp) as (Hok1 & _ & _ & Hr0 & Hc0 & _).
  destruct (current_runs E Hcpu from Hs (pr_cur _ _ _ _ Hp)) as (tf & Hr). split.
  - pose proof Hd as [Hi Hq Hl Hh Hb Hcm].
    eapply (wp_timed_wake E w _ from tf tok tx); [done|by apply (remote_lookup Hs)|done|rewrite Hcm; by left| |].
    + intros wm' _ _ _ _ _ _ Hcm'. rewrite Hcm in Hcm'. injection Hcm' as <-.
      rewrite (direct_switch E _ _ _ _ _ (here_length Hs Hcpu) Hd). split; [by eapply sched_ok_valid, Hok1|done].
    + intros Hn. exfalso. apply Hn. rewrite Hcm. unfold remote in Hrem. by split_and!.
  - apply wp_bind. eapply wp_mono.
    { apply (complete_spec E (N:=N) Hcpu Harch (Busy c false None) false w tok Timeout); [right; eauto|done..]. }
    intros r w1 (Hokc & _ & Heq). apply (f_equal snd) in Heq. simpl in Heq.
    pose proof (complete_preemptible E (N:=N) Hcpu _ from t tok Timeout Hs Hp) as [_ Hcur1 Hl1 Hp1]. rewrite <-Heq in *.
    eapply wp_mono; [by apply (optional_switch_spec E (N:=N) Hcpu false w1 from t)|].
    intros o w2 [(_ & _ & Hn)|(to & rest & Hr1 & -> & -> & _)]; rewrite Hr0 in *; [done|].
    injection Hr1 as <- <-. split; [done|]. unfold s'. simpl. congruence.
Qed.

(** ** Completions leave the current thread alone *)

Lemma cur_complete tok cause s :
  length (cpus (complete_s c tok cause s).2) = length (cpus s) ∧
  (c < length (cpus s) → cur (complete_s c tok cause s).2 c = cur s c).
Proof.
  unfold complete_s. destruct (table_get s (wt_thread tok)) as [t|]; [|done].
  destruct (complete (t_wait t) tok cause) as [[] wm]; simpl; try done. unfold wake_s.
  destruct (decide _); [|done]. unfold wake_local_s. simpl. rewrite length_alter. split; [done|]. intros Hc.
  unfold cur. rewrite cst_alter_cpu by done. by rewrite decide_True.
Qed.

Lemma cur_dispatch evs s : c < length (cpus s) → cur (dispatch_s c evs s) c = cur s c.
Proof.
  revert s. induction evs as [|[c' tok|] evs IH]; intros s Hc; [done|..]; simpl; [|by apply IH].
  destruct (cur_complete tok Timeout s) as [Hl Hcu]. rewrite IH by (by rewrite Hl). by apply Hcu.
Qed.

Lemma length_finalize s : length (cpus (finalize_s c s)) = length (cpus s).
Proof.
  unfold finalize_s. destruct (ret s c) as [x|]; [|done]. destruct (table_get s x) as [t|]; [|done].
  assert (length (cpus (unretire_s x c s)) = length (cpus s)) as Hu by (simpl; by rewrite length_alter).
  destruct (t_joiner t) as [tok|], (t_exit_code t) as [code|];
    try (destruct (t_joinable t); [exact Hu|simpl; by rewrite length_alter]).
  unfold deliver_s. simpl. by rewrite (proj1 (cur_complete tok Notified _)).
Qed.

(** With preemption disabled no interrupt and no checkpoint switches. *)
Lemma checkpointed_disabled d s s' : d ≠ Some 0%Z → checkpointed E d s s' → s' = s.
Proof. by intros Hd [|[? _]]. Qed.
End progress.

(** * Exit codes reach their joiner *)

Lemma table_get_release x s y :
  tid_index y ≠ tid_index x → table_get (release_s x s) y = table_get s y.
Proof. intros Hne. unfold table_get, release_s, table_slots. simpl. by rewrite list_lookup_alter_ne. Qed.

Lemma table_get_released x s t : live s x t → table_get (release_s x s) x = None.
Proof.
  intros (slot & Hs & Hg & Ht)%live_slot. unfold table_get, release_s, table_slots in *. simpl.
  rewrite list_lookup_alter_eq, Hs. simpl. rewrite Ht. simpl. by destruct (decide _).
Qed.

(** What the joiner has afterwards. *)
Record delivered (tok : WaitToken) (code : Z) (user : option UserThreadResources) (x : ThreadId) (s' : Scheduler)
    (j : Thread) : Prop := {
  dv_gone : table_get s' x = None;
  dv_live : live s' (wt_thread tok) j;
  dv_state : t_state j = Ready ∨ t_state j = Running;
  dv_result : t_last_join_result j = Some (inl code);
  dv_user : t_reaped_user j = user;
  dv_wait : active (t_wait j) = Some (mkActiveWait tok (Completed Notified) Explicit)
}.

Lemma finalize_delivers N here s x t tok code :
  sched_ok N None s → here < KERNEL_CPU_CAPACITY → ret s here = Some x → live s x t →
  t_joiner t = Some tok → t_exit_code t = Some code →
  ∃ j, delivered tok code (t_user t) x (finalize_s here s) j ∧ tid_index x ∈ free_slots (lifecycle (finalize_s here s)).
Proof.
  intros Hok Hh Hret Hx Hj Hc. unfold finalize_s. rewrite Hret, Hx, Hj, Hc.
  pose proof (ci_retired _ _ _ _ _ (so_cpu _ _ _ Hok here Hh) x Hret) as Hr.
  apply state_on_Some in Hr as (t0 & Hx0 & _ & Hex). rewrite (live_fun _ _ _ _ Hx0 Hx) in *. clear t0 Hx0.
  destruct (jk_blocked _ (so_joiners _ _ _ Hok) _ _ _ Hx Hj) as (j & Hlj & Ha & _).
  destruct (joined_blocked _ _ _ tok j Hok) as [Hbl _]; [by exists x, t|done|].
  assert (tid_index (wt_thread tok) ≠ tid_index x) as Hne.
  { intros Heq. pose proof (live_index_inj _ _ _ _ _ Hlj Hx Heq) as Hjx. rewrite Hjx in Hlj.
    rewrite (live_fun _ _ _ _ Hlj Hx) in Hbl. congruence. }
  assert (live (unretire_s x here s) (wt_thread tok) j) as Hlj1 by (by apply (live_alter_other (set_t_joiner None) x)).
  assert (live (unretire_s x here s) x (set_t_joiner None t)) as Hx1 by (by apply (live_alter_same (set_t_joiner None))).
  unfold deliver_s. rewrite (complete_joined here tok (unretire_s x here s) j Hlj1 Ha). cbn [snd].
  set (s1 := wake_s here (wt_thread tok) j (joined_wait j tok) (unretire_s x here s)).
  set (s2 := alter_thread (set_t_last_join_result (Some (inl code))) (tid_index (wt_thread tok)) s1).
  assert (live s1 (wt_thread tok) (set_t_state Ready (set_t_wait (joined_wait j tok) j))) as Hw1.
  { unfold s1, wake_s. by destruct (decide _);
      apply (live_alter_same (λ t, set_t_state Ready (set_t_wait (joined_wait j tok) t))). }
  assert (live s2 x (set_t_joiner None t)) as Hx2 by (apply live_alter_other, wake_s_other; done).
  eexists. split; [split|by left].
  - rewrite table_get_alter, decide_False, (table_get_released _ _ _ Hx2) by done. done.
  - unfold live. rewrite table_get_alter, decide_True, table_get_release by done.
    rewrite (live_alter_same (set_t_last_join_result (Some (inl code))) _ _ _ Hw1 : table_get s2 _ = _). done.
  - by left.
  - done.
  - done.
  - done.
Qed.

Lemma delivered_rescheduled tok code user x s s' j j' :
  delivered tok code user x s j → live s' (wt_thread tok) j' → rescheduled j j' → table_get s' x = None →
  delivered tok code user x s' j'.
Proof.
  intros [H1 H2 H3 H4 H5 H6] Hl (st & f & -> & Hst) Hx. split; try done. simpl.
  destruct Hst as [->|[->| ->]]; auto.
Qed.

Section exit.
Context (E : Env) {N : nat}.
Hypothesis Hcpu : e_cpu E < KERNEL_CPU_CAPACITY.
Hypothesis Harch : arch_ok E.
Abbreviation c := (e_cpu E).

Lemma checkpointed_none d s s' x : checkpointed E d s s' → table_get s x = None → table_get s' x = None.
Proof.
  intros [->|[_ [frame Hrr]]] Hx; [done|]. revert Hrr. unfold round_robin.
  destruct (cur s c) as [from|]; [|by intros ->]. destruct (ready s c) as [|to rest]; [by intros ->|]. intros ->.
  unfold saved_s, switched, enter_s, leave_ready_s. rewrite !table_get_alter, table_get_alter_cpu, table_get_alter,
    table_get_alter_cpu, table_get_alter, Hx. by repeat destruct (decide _).
Qed.

(** The state between the exit and the notification. *)
Lemma exited_state w from t code :
  kernel_ok N w → can_block E w from t → active (t_wait t) = None →
  wp (on_thread_exit_sync E code)
     (λ _ w', kernel_ok N w' ∧ frames_kept w w' ∧ ret (w_sched w') c = Some from ∧
        live (w_sched w') from (set_t_state Exited (set_t_exit_code (Some code) t)) ∧
        ∃ to tto, preemptible E (w_sched w') to tto) w.
Proof.
  intros Hk Hcb Ha. pose proof (wo_sched _ _ _ (ko_world _ _ _ Hk)) as Hs. pose proof Hcb as [Hon Hcur Hl Hi Hen].
  eapply wp_mono; [by apply (on_thread_exit_sync_spec E (N:=N) Hcpu Harch w from t code)|].
  intros _ w' (Hk' & Hf' & _ & to & rest & tto & Hsel & Hlt & Hrt & Hfo & Hsw).
  destruct (finalize_preemptible E (N:=N) Hcpu (w_sched w) from t Hs) as [Hon1 Hcur1 Hl1 _].
  { split; [done..|]. unfold wait_is_prepared. by rewrite Ha. }
  destruct (current_live Hfo c from Hcpu Hcur1) as (t0 & Hl0 & _ & Hrun). rewrite (live_fun _ _ _ _ Hl0 Hl1) in *.
  assert (tid_index to ≠ tid_index from) as Hne.
  { intros Heq. pose proof (live_index_inj _ _ _ _ _ Hlt Hl1 Heq) as ->. rewrite (live_fun _ _ _ _ Hlt Hl1) in *. congruence. }
  set (f := λ t, set_t_state Exited (set_t_exit_code (Some code) t)). unfold exited_s, leave_exited_s in Hsw. fold f in Hsw.
  set (sf := set_ipi_pending _ _) in Hsw. assert (c < length (cpus (alter_thread f (tid_index from) sf))) as Hlen by apply (here_length Hfo Hcpu).
  assert (cst (w_sched w') c = set_cs_current (Some to) (set_cs_ready rest (set_cs_current None (set_cs_retired (Some from)
            (cst (finalize_s c (w_sched w)) c))))) as Hcst.
  { rewrite Hsw. unfold enter_s. rewrite cst_alter_cpu, decide_True by (simpl; by rewrite ?length_alter).
    rewrite cst_alter_thread, cst_alter_cpu, decide_True by done. done. }
  split_and!; [done|done|unfold ret; by rewrite Hcst| |].
  - rewrite Hsw. apply (live_alter_other (set_t_state Running) to); [congruence|]. by apply (live_alter_same f).
  - exists to, (set_t_state Running tto). split; [by rewrite Hcst|by unfold cur; rewrite Hcst| |].
    + rewrite Hsw. apply (live_alter_same (set_t_state Running)). by apply (live_alter_other f).
    + simpl. pose proof (wk_prepared _ _ (tk_wait _ _ (so_threads _ _ _ Hfo _ _ Hlt))) as Hpr.
      destruct (wait_is_prepared (t_wait tto)); [|done]. by rewrite Hpr in Hrt.
Qed.

Lemma exit_delivers w from t tok code :
  kernel_ok N w → can_block E w from t → active (t_wait t) = None → t_joiner t = Some tok →
  wp (on_thread_exit_sync E code;; finish_scheduler_ipi E)
     (λ _ w', kernel_ok N w' ∧ ∃ j, delivered tok code (t_user t) from (w_sched w') j) w.
Proof.
  intros Hk Hcb Ha Hj. apply wp_bind. eapply wp_mono; [by apply (exited_state w from t code)|].
  intros _ w1 (Hk1 & _ & Hret & Hl1 & to & tto & Hp). pose proof (wo_sched _ _ _ (ko_world _ _ _ Hk1)) as Hs1.
  destruct (finalize_delivers N c (w_sched w1) from _ tok code Hs1 Hcpu Hret Hl1 Hj eq_refl) as (j & Hd & _).
  eapply wp_mono; [by apply (finish_scheduler_ipi_spec E (N:=N) Hcpu Harch w1 to tto)|].
  intros _ w' (Hk' & _ & _ & Hcp). split; [done|]. pose proof Hd as [Hgone Hlj _ _ _ _].
  destruct (checkpointed_view E _ _ _ (wt_thread tok) j Hcp Hlj) as (j' & Hlj' & Hrs).
  exists j'. eapply delivered_rescheduled; [exact Hd|done|done|]. by eapply checkpointed_none.
Qed.
End exit.
