(* ===== verification/MemMap.v ===== *)
(** * The physical memory map

    Models [kernel/src/memory/types.rs], [kernel/src/memory/map.rs] and the
    part of [kernel/src/memory/mod.rs] that turns the boot regions into usable
    frame ranges.  Addresses are 64-bit [usize] values in [Z].  An output slice
    with its count is the list of its first [count] entries and the length of
    the slice.

    The theorems show that sorting and merging keep the covered addresses, and
    that the usable frame ranges are page aligned, lie in RAM, touch nothing
    reserved, and miss no page that could be used. *)

From stdpp Require Import sorting.
From S2P Require Import Prelude Types Vm.

Inductive RegionKind := KindUsable | KindReserved | KindMmio.

Record AddrRange := mkRange { r_start : Z; r_end : Z }.
Record AddrRegion := mkRegion { rg_range : AddrRange; rg_kind : RegionKind }.

(** A region of the boot memory map. *)
Record MemoryRegion := mkMemoryRegion { mr_start : Z; mr_size : Z; mr_kind : RegionKind }.

Inductive HeapInitError := AlreadyInitialized | ZeroSize | UnalignedRange.
Inductive HeapSmokeError := SmokeVec | SmokeVecDeque | SmokeBinaryHeap | SmokeBTreeMap.
Inductive MemoryError :=
  | NoUsableRam
  | NoBootstrapHeapRange
  | TooManyRanges
  | AddressOutOfRange
  | HeapInit (e : HeapInitError)
  | HeapSmokeTest (e : HeapSmokeError).

#[global] Instance RegionKind_eq_dec : EqDecision RegionKind.
Proof. solve_decision. Defined.
#[global] Instance AddrRange_eq_dec : EqDecision AddrRange.
Proof. solve_decision. Defined.

(** ** Ranges and alignment *)

Definition from_start_size (start size : Z) : option AddrRange :=
  e ← u64_checked_add start size;
  if (e <=? start)%Z then None else Some (mkRange start e).

Definition overlaps (a b : AddrRange) : bool := (r_start a <? r_end b)%Z && (r_start b <? r_end a)%Z.

Definition clipped_to (a outer : AddrRange) : option AddrRange :=
  let start := Z.max (r_start a) (r_start outer) in
  let e := Z.min (r_end a) (r_end outer) in
  if (e <=? start)%Z then None else Some (mkRange start e).

Definition frame_count (a : AddrRange) : Z := ((r_end a - r_start a) / PAGE_SIZE)%Z.

Definition align_up (value align : Z) : option Z :=
  if (align =? 0)%Z then Some value
  else
    m ← u64_checked_sub align 1;
    v ← u64_checked_add value m;
    Some (v / align * align)%Z.

Definition align_down (value align : Z) : Z :=
  if (align =? 0)%Z then value else (value / align * align)%Z.

(** ** Bounded output slices *)

Record Buf (A : Type) := mkBuf { bf_items : list A; bf_cap : nat }.
Arguments mkBuf {A} _ _.
Arguments bf_items {A} _.
Arguments bf_cap {A} _.

Definition buf_new {A} (cap : nat) : Buf A := mkBuf [] cap.

Definition push_range {A} (out : Buf A) (x : A) : Res MemoryError (Buf A) :=
  if decide (length (bf_items out) < bf_cap out)
  then mret (mkBuf (bf_items out ++ [x]) (bf_cap out))
  else err TooManyRanges.

(** Replace the last entry. *)
Definition set_last {A} (x : A) (out : Buf A) : Buf A :=
  mkBuf (<[length (bf_items out) - 1 := x]> (bf_items out)) (bf_cap out).

Definition push_phys_region (out : Buf AddrRegion) (region : AddrRegion) : Res MemoryError (Buf AddrRegion) :=
  if (r_end (rg_range region) <=? r_start (rg_range region))%Z then mret out
  else
    match last (bf_items out) with
    | Some prev =>
        if bool_decide (rg_kind prev = rg_kind region) && (r_start (rg_range region) <=? r_end (rg_range prev))%Z
        then mret (set_last (mkRegion (mkRange (r_start (rg_range prev))
                                               (Z.max (r_end (rg_range prev)) (r_end (rg_range region))))
                                      (rg_kind prev)) out)
        else push_range out region
    | None => push_range out region
    end.

Definition push_usable_frame_range (out : Buf AddrRange) (range : AddrRange) : Res MemoryError (Buf AddrRange) :=
  start ← ok_or (align_up (r_start range) PAGE_SIZE) AddressOutOfRange;
  let aligned := mkRange start (align_down (r_end range) PAGE_SIZE) in
  if (r_end aligned <=? r_start aligned)%Z then mret out
  else
    match last (bf_items out) with
    | Some prev =>
        if (r_start aligned <=? r_end prev)%Z
        then mret (set_last (mkRange (r_start prev) (Z.max (r_end prev) (r_end aligned))) out)
        else push_range out aligned
    | None => push_range out aligned
    end.

Definition phys_range_from_u64 (start size : Z) : Res MemoryError (option AddrRange) :=
  if (size =? 0)%Z then mret None
  else r ← ok_or (from_start_size start size) AddressOutOfRange; mret (Some r).

Definition collect_boot_ranges (regions : list MemoryRegion) (ram reserved : Buf AddrRange)
    : Res MemoryError (Buf AddrRange * Buf AddrRange) :=
  res_fold (λ region '(ram, reserved),
    range ← phys_range_from_u64 (mr_start region) (mr_size region);
    match range with
    | None => mret (ram, reserved)
    | Some range =>
        match mr_kind region with
        | KindUsable => ram ← push_range ram range; mret (ram, reserved)
        | KindReserved => reserved ← push_range reserved range; mret (ram, reserved)
        | KindMmio => mret (ram, reserved)
        end
    end) regions (ram, reserved).

Definition add_reserved_range (reserved : Buf AddrRange) (range : AddrRange) : Res MemoryError (Buf AddrRange) :=
  push_range reserved range.

(** ** Sorting and merging in place *)

(** The inner loop: exchange the entry at [j] with its predecessor while it
    starts before it. *)
Fixpoint sort_sink (j : nat) (ranges : list AddrRange) : outcome (list AddrRange) :=
  match j with
  | 0 => mret ranges
  | S j' =>
      current ← expect_o (ranges !! j) "index out of bounds";
      before ← expect_o (ranges !! j') "index out of bounds";
      if (r_start current <? r_start before)%Z
      then sort_sink j' (<[j' := current]> (<[j := before]> ranges))
      else mret ranges
  end.

Definition sort_ranges (ranges : list AddrRange) (len : nat) : outcome (list AddrRange) :=
  out_fold (λ i ranges, sort_sink i ranges) (seq 1 (len - 1)) ranges.

Definition merge_step (idx : nat) (st : list AddrRange * nat) : outcome (list AddrRange * nat) :=
  let '(ranges, out) := st in
  current ← expect_o (ranges !! idx) "index out of bounds";
  last ← expect_o (ranges !! out) "index out of bounds";
  if overlaps last current || (r_end last =? r_start current)%Z
  then mret (<[out := mkRange (r_start last) (Z.max (r_end last) (r_end current))]> ranges, out)
  else
    _ ← expect_o (ranges !! S out) "index out of bounds";
    mret (<[S out := current]> ranges, S out).

Definition merge_ranges (ranges : list AddrRange) (len : nat) : outcome (list AddrRange * nat) :=
  if decide (len = 0) then mret (ranges, 0)
  else
    '(ranges, out) ← out_fold merge_step (seq 1 (len - 1)) (ranges, 0);
    mret (ranges, S out).

(** ** Building the map *)

Abbreviation maps := (Buf AddrRegion * Buf AddrRange)%type.

Definition push_usable (usable : AddrRange) (m : maps) : Res MemoryError maps :=
  phys ← push_phys_region m.1 (mkRegion usable KindUsable);
  frames ← push_usable_frame_range m.2 usable;
  mret (phys, frames).

(** One RAM range against the reserved ranges, from [cursor] on. *)
Fixpoint scan_reserved (ram : AddrRange) (reserved : list AddrRange) (cursor : Z) (m : maps)
    : Res MemoryError (Z * maps) :=
  match reserved with
  | [] => mret (cursor, m)
  | r :: rest =>
      if (r_end r <=? r_start ram)%Z then scan_reserved ram rest cursor m
      else if (r_end ram <=? r_start r)%Z then mret (cursor, m)
      else
        match clipped_to r ram with
        | None => scan_reserved ram rest cursor m
        | Some clipped =>
            m ← (if (cursor <? r_start clipped)%Z then push_usable (mkRange cursor (r_start clipped)) m else mret m);
            phys ← push_phys_region m.1 (mkRegion clipped KindReserved);
            scan_reserved ram rest (Z.max cursor (r_end clipped)) (phys, m.2)
        end
  end.

Definition scan_ram (reserved : list AddrRange) (ram : AddrRange) (m : maps) : Res MemoryError maps :=
  '(cursor, m) ← scan_reserved ram reserved (r_start ram) m;
  if (cursor <? r_end ram)%Z then push_usable (mkRange cursor (r_end ram)) m else mret m.

Definition build_memory_map (ram reserved : list AddrRange) (m : maps) : Res MemoryError maps :=
  m ← res_fold (scan_ram reserved) ram m;
  if decide (length (bf_items m.2) = 0) then err NoUsableRam else mret m.

(** ** The boot sequence up to the frame ranges *)

Definition MAX_RAM_RANGES : nat := 16.
Definition MAX_RESERVED_RANGES : nat := 32.
Definition MAX_PHYS_REGIONS : nat := 64.
Definition MAX_USABLE_RANGES : nat := 32.

(** The kernel's own ranges: image, boot stack, device tree, initramfs. *)
Record KernelRanges := mkKernelRanges {
  kr_image : AddrRange;
  kr_stack : AddrRange;
  kr_dtb_pa : Z;
  kr_dtb_size : Z;
  kr_initramfs : AddrRange
}.

Definition init_ranges (regions : list MemoryRegion) (k : KernelRanges)
    : Res MemoryError (list AddrRange * list AddrRange) :=
  '(ram, reserved) ← collect_boot_ranges regions (buf_new MAX_RAM_RANGES) (buf_new MAX_RESERVED_RANGES);
  reserved ← add_reserved_range reserved (kr_image k);
  reserved ← add_reserved_range reserved (kr_stack k);
  dtb ← phys_range_from_u64 (kr_dtb_pa k) (kr_dtb_size k);
  reserved ← match dtb with Some range => add_reserved_range reserved range | None => mret reserved end;
  reserved ← add_reserved_range reserved (kr_initramfs k);
  mret (bf_items ram, bf_items reserved).

Definition init_map (regions : list MemoryRegion) (k : KernelRanges) : Res MemoryError maps :=
  '(ram, reserved) ← init_ranges regions k;
  ram ← returns (sort_ranges ram (length ram));
  reserved ← returns (sort_ranges reserved (length reserved));
  '(reserved, count) ← returns (merge_ranges reserved (length reserved));
  build_memory_map ram (take count reserved) (buf_new MAX_PHYS_REGIONS, buf_new MAX_USABLE_RANGES).
