(* ===== verification/MemMapSpec.v ===== *)
(** * Correctness of the physical memory map

    Sorting permutes, merging keeps the covered addresses, and the scan of the
    RAM ranges against the sorted reserved ranges yields exactly the usable
    pages. *)

From stdpp Require Import sorting.
From S2P Require Import Prelude Types Vm MemMap.

Definition in_range (a : Z) (r : AddrRange) : Prop := (r_start r <= a < r_end r)%Z.
Definition covers (l : list AddrRange) (a : Z) : Prop := ∃ r, r ∈ l ∧ in_range a r.
Definition starts_before (a b : AddrRange) : Prop := (r_start a <= r_start b)%Z.
Abbreviation by_start := (StronglySorted starts_before).

Lemma covers_nil a : covers [] a ↔ False.
Proof. split; [|done]. by intros (r & Hr%elem_of_nil & _). Qed.
Lemma covers_app l1 l2 a : covers (l1 ++ l2) a ↔ covers l1 a ∨ covers l2 a.
Proof. unfold covers. setoid_rewrite elem_of_app. naive_solver. Qed.
Lemma covers_cons r l a : covers (r :: l) a ↔ in_range a r ∨ covers l a.
Proof. unfold covers. setoid_rewrite elem_of_cons. naive_solver. Qed.
Lemma covers_one r a : covers [r] a ↔ in_range a r.
Proof. rewrite covers_cons, covers_nil. naive_solver. Qed.
Lemma covers_perm l1 l2 a : l1 ≡ₚ l2 → covers l1 a ↔ covers l2 a.
Proof. intros Hp. unfold covers. by setoid_rewrite Hp. Qed.

(** ** Sorting *)

(** The entry behind [pre] sinks to its place in it. *)
Lemma sort_sink_spec pre x suf :
  ∃ p q, pre = p ++ q ∧ sort_sink (length pre) (pre ++ x :: suf) = Done (p ++ x :: q ++ suf) ∧
    Forall (λ b, (r_start x < r_start b)%Z) q ∧ ∀ b, last p = Some b → starts_before b x.
Proof.
  revert suf. induction pre as [|b pre IH] using rev_ind; intros suf.
  { by exists [], []. }
  rewrite length_app, Nat.add_1_r. cbn [sort_sink].
  rewrite <-app_assoc. cbn [app].
  assert ((pre ++ b :: x :: suf) !! S (length pre) = Some x) as Hx.
  { rewrite lookup_app_r by lia. replace (S (length pre) - length pre) with 1 by lia. done. }
  assert ((pre ++ b :: x :: suf) !! length pre = Some b) as Hb by (by apply list_lookup_middle).
  rewrite Hx, Hb. simpl. destruct (Z.ltb_spec (r_start x) (r_start b)) as [Hlt|Hge].
  - assert (<[length pre := x]> (<[S (length pre) := b]> (pre ++ b :: x :: suf)) = pre ++ x :: b :: suf) as ->.
    { rewrite (insert_app_r_alt _ _ (S (length pre))) by lia. replace (S (length pre) - length pre) with 1 by lia.
      rewrite (insert_app_r_alt _ _ (length pre)) by lia. by rewrite Nat.sub_diag. }
    destruct (IH (b :: suf)) as (p & q & -> & Hs & Hq & Hp). exists p, (q ++ [b]). split_and!.
    + by rewrite app_assoc.
    + rewrite Hs. do 2 f_equal. by rewrite <-app_assoc.
    + apply Forall_app. by split; [|constructor].
    + done.
  - exists (pre ++ [b]), []. split_and!; [by rewrite app_nil_r|by rewrite <-app_assoc|done|].
    intros b' Hb'. rewrite last_snoc in Hb'. injection Hb' as <-. unfold starts_before. lia.
Qed.

Lemma by_start_last p b x : by_start p → last p = Some b → x ∈ p → starts_before x b.
Proof.
  intros Hs [p' ->]%last_Some Hx. apply elem_of_app in Hx as [Hx| ->%list_elem_of_singleton]; [|unfold starts_before; lia].
  apply StronglySorted_app in Hs as (Hs & _ & _). apply (Hs x b); [done|by left].
Qed.

Lemma sunk_sorted p x q :
  by_start (p ++ q) → Forall (λ b, (r_start x < r_start b)%Z) q → (∀ b, last p = Some b → starts_before b x) →
  by_start (p ++ x :: q).
Proof.
  intros Hs Hq Hp. apply StronglySorted_app in Hs as (H2 & H1 & H3).
  assert (∀ y, y ∈ p → starts_before y x) as Hpx.
  { intros y Hy. destruct (last p) as [b|] eqn:Hl; [|by apply last_None in Hl as ->; apply elem_of_nil in Hy].
    pose proof (by_start_last p b y H1 Hl Hy). specialize (Hp b eq_refl). unfold starts_before in *. lia. }
  apply StronglySorted_app. split_and!; [|done|].
  - intros y z Hy Hz. apply elem_of_cons in Hz as [->|Hz]; [by apply Hpx|by apply H2].
  - constructor; [done|]. eapply Forall_impl; [exact Hq|]. unfold starts_before. simpl. lia.
Qed.

Lemma sort_loop k i l :
  i + k = length l → by_start (take i l) →
  ∃ l', out_fold (λ i ranges, sort_sink i ranges) (seq i k) l = Done l' ∧ l' ≡ₚ l ∧ by_start l'.
Proof.
  revert i l. induction k as [|k IH]; intros i l Hlen Hs.
  { exists l. rewrite take_ge in Hs by lia. done. }
  destruct (lookup_lt_is_Some_2 l i) as [x Hx]; [lia|].
  pose proof (take_drop_middle l i x Hx) as Hl. cbn [seq out_fold].
  destruct (sort_sink_spec (take i l) x (drop (S i) l)) as (p & q & Hpq & Hsink & Hq & Hp).
  rewrite length_take_le in Hsink by lia. rewrite Hl in Hsink. rewrite Hsink, done_bind. rewrite Hpq in Hs, Hl.
  assert (length (p ++ q) = i) as Hpl by (rewrite <-Hpq, length_take_le by lia; done). rewrite length_app in Hpl.
  assert (p ++ x :: q ++ drop (S i) l ≡ₚ l) as Hperm.
  { rewrite <-Hl at 2. rewrite <-app_assoc. apply Permutation_app_head. by rewrite Permutation_middle. }
  destruct (IH (S i) (p ++ x :: q ++ drop (S i) l)) as (l' & -> & Hl' & Hs').
  - rewrite Hperm. lia.
  - rewrite app_comm_cons, app_assoc, take_app_length'; [by apply sunk_sorted|]. rewrite length_app. simpl. lia.
  - exists l'. split_and!; [done|by rewrite Hl'|done].
Qed.

Lemma sort_ranges_spec l : ∃ l', sort_ranges l (length l) = Done l' ∧ l' ≡ₚ l ∧ by_start l'.
Proof.
  unfold sort_ranges. destruct l as [|x l]; [exists []; by repeat constructor|].
  apply sort_loop; [simpl; lia|]. simpl. by repeat constructor.
Qed.

(** ** Merging *)

(** The list the in-place loop builds at the front. *)
Definition merge_push (acc : list AddrRange) (x : AddrRange) : list AddrRange :=
  match last acc with
  | Some l => if overlaps l x || (r_end l =? r_start x)%Z
              then <[length acc - 1 := mkRange (r_start l) (Z.max (r_end l) (r_end x))]> acc
              else acc ++ [x]
  | None => acc ++ [x]
  end.

Lemma merge_step_done idx out l x la :
  l !! idx = Some x → l !! out = Some la → S out < length l →
  merge_step idx (l, out) =
    Done (if overlaps la x || (r_end la =? r_start x)%Z
          then (<[out := mkRange (r_start la) (Z.max (r_end la) (r_end x))]> l, out)
          else (<[S out := x]> l, S out)).
Proof.
  intros Hx Hla Hlt. unfold merge_step. rewrite Hx, Hla. simpl. destruct (_ || _); [done|].
  destruct (lookup_lt_is_Some_2 l (S out) Hlt) as [z Hz]. rewrite Hz. done.
Qed.

Lemma merge_loop k idx out l :
  idx + k = length l → out < idx →
  ∃ l' out', out_fold merge_step (seq idx k) (l, out) = Done (l', out') ∧ out' < length l ∧
    take (S out') l' = foldl merge_push (take (S out) l) (drop idx l).
Proof.
  revert idx out l. induction k as [|k IH]; intros idx out l Hlen Hout.
  { exists l, out. rewrite drop_ge by lia. split_and!; [done|lia|done]. }
  destruct (lookup_lt_is_Some_2 l idx) as [x Hx]; [lia|]. destruct (lookup_lt_is_Some_2 l out) as [la Hla]; [lia|].
  cbn [seq out_fold]. rewrite (merge_step_done idx out l x la), done_bind by (done || lia).
  rewrite (drop_S l x idx) by done. cbn [foldl].
  assert (last (take (S out) l) = Some la) as Hlast.
  { rewrite (take_S_r l out la) by done. apply last_snoc. }
  assert (length (take (S out) l) - 1 = out) as Hpos by (rewrite length_take_le by lia; lia).
  unfold merge_push at 2. rewrite Hlast, Hpos. destruct (overlaps la x || _).
  - set (y := mkRange _ _).
    destruct (IH (S idx) out (<[out := y]> l)) as (l' & out' & -> & Hlt & Ht); [by rewrite length_insert; lia|lia|].
    rewrite length_insert in Hlt. exists l', out'. split_and!; [done|done|].
    rewrite Ht, drop_insert_lt by lia. by rewrite take_insert_lt by lia.
  - destruct (IH (S idx) (S out) (<[S out := x]> l)) as (l' & out' & -> & Hlt & Ht); [by rewrite length_insert; lia|lia|].
    rewrite length_insert in Hlt. exists l', out'. split_and!; [done|done|].
    rewrite Ht, drop_insert_lt by lia. f_equal.
    rewrite (take_S_r (<[S out := x]> l) (S out) x) by (by rewrite list_lookup_insert_eq by lia).
    by rewrite take_insert_ge by lia.
Qed.

Lemma merge_push_snoc acc l x :
  merge_push (acc ++ [l]) x =
    acc ++ (if overlaps l x || (r_end l =? r_start x)%Z then [mkRange (r_start l) (Z.max (r_end l) (r_end x))] else [l; x]).
Proof.
  unfold merge_push. rewrite last_snoc, length_app. simpl. destruct (_ || _).
  - rewrite insert_app_r_alt by lia. by replace (length acc + 1 - 1 - length acc) with 0 by lia.
  - by rewrite <-app_assoc.
Qed.

(** Two ranges that touch become one that covers the same addresses. *)
Lemma merged_range l x a :
  starts_before l x → overlaps l x || (r_end l =? r_start x)%Z = true →
  in_range a (mkRange (r_start l) (Z.max (r_end l) (r_end x))) ↔ in_range a l ∨ in_range a x.
Proof.
  unfold starts_before, overlaps, in_range. simpl. intros Hs Ho. apply orb_true_iff in Ho.
  rewrite andb_true_iff, !Z.ltb_lt, Z.eqb_eq in Ho. lia.
Qed.

Lemma merge_push_keeps acc l x rest :
  by_start ((acc ++ [l]) ++ x :: rest) →
  ∃ acc' l', merge_push (acc ++ [l]) x = acc' ++ [l'] ∧ by_start ((acc' ++ [l']) ++ rest) ∧
    ∀ a, covers ((acc' ++ [l']) ++ rest) a ↔ covers ((acc ++ [l]) ++ x :: rest) a.
Proof.
  intros Hs. rewrite merge_push_snoc.
  assert (starts_before l x) as Hlx.
  { apply StronglySorted_app in Hs as (Hs & _). apply Hs; [apply elem_of_app; right; by left|by left]. }
  destruct (overlaps l x || _) eqn:Ho.
  - eexists acc, _. split; [done|]. split.
    + rewrite <-app_assoc in *. simpl in *. apply StronglySorted_app in Hs as (Hs1 & Hs2 & Hs3).
      apply StronglySorted_app. split_and!; [|done|].
      * intros y z Hy Hz. apply elem_of_cons in Hz as [->|Hz]; [apply (Hs1 y l Hy); by left|].
        apply Hs1; [done|]. by do 2 right.
      * apply StronglySorted_inv in Hs3 as [Hs3 Hf]. apply StronglySorted_inv in Hs3 as [Hs3 _].
        inversion Hf; subst. by constructor.
    + intros a. rewrite !covers_app, !covers_cons, !covers_nil. rewrite (merged_range l x a Hlx Ho). tauto.
  - exists (acc ++ [l]), x. split; [by rewrite <-app_assoc|]. rewrite <-!app_assoc in *. simpl in *. done.
Qed.

Lemma merge_fold_keeps rest acc l :
  by_start ((acc ++ [l]) ++ rest) →
  by_start (foldl merge_push (acc ++ [l]) rest) ∧
  ∀ a, covers (foldl merge_push (acc ++ [l]) rest) a ↔ covers ((acc ++ [l]) ++ rest) a.
Proof.
  revert acc l. induction rest as [|x rest IH]; intros acc l Hs; simpl.
  { by rewrite app_nil_r in *. }
  destruct (merge_push_keeps acc l x rest Hs) as (acc' & l' & -> & Hs' & Hc').
  destruct (IH acc' l' Hs') as [H1 H2]. split; [done|]. intros a. by rewrite H2.
Qed.

Lemma merge_ranges_spec l :
  by_start l →
  ∃ l' n, merge_ranges l (length l) = Done (l', n) ∧ by_start (take n l') ∧ ∀ a, covers (take n l') a ↔ covers l a.
Proof.
  intros Hs. unfold merge_ranges. destruct l as [|x l]; [by exists [], 0|]. rewrite decide_False by done.
  destruct (merge_loop (length l) 1 0 (x :: l)) as (l' & out' & Hf & _ & Ht); [simpl; lia|lia|].
  simpl length in *. replace (S (length l) - 1) with (length l) by lia. rewrite Hf. simpl.
  exists l', (S out'). split; [done|]. simpl in Ht. rewrite take_0, drop_0 in Ht. rewrite Ht.
  apply (merge_fold_keeps l [] x). done.
Qed.

(** ** Pushing frame ranges *)

Definition page_aligned (a : Z) : Prop := (a mod PAGE_SIZE = 0)%Z.
Definition frame_range (r : AddrRange) : Prop :=
  page_aligned (r_start r) ∧ page_aligned (r_end r) ∧ (r_start r < r_end r)%Z.
Definition ends_before (a b : AddrRange) : Prop := (r_end a <= r_start b)%Z.
(** Frame ranges in ascending order with a gap between neighbours. *)
Definition apart (a b : AddrRange) : Prop := (r_end a < r_start b)%Z.
Definition frame_list (l : list AddrRange) : Prop := Forall frame_range l ∧ StronglySorted apart l.
(** [a] lies in the page at [p]. *)
Definition on_page (p a : Z) : Prop := (p <= a < p + PAGE_SIZE)%Z.

Lemma align_up_spec v v' :
  align_up v PAGE_SIZE = Some v' → page_aligned v' ∧ (v <= v' < v + PAGE_SIZE)%Z.
Proof.
  unfold align_up, u64_checked_sub, u64_checked_add, page_aligned, PAGE_SIZE. simpl.
  change (4096 - 1)%Z with 4095%Z. destruct (_ <=? _)%Z; [|done]. intros [= <-]. rewrite Z.mod_mul by done.
  pose proof (Z.div_mod (v + 4095) 4096 ltac:(done)). pose proof (Z.mod_pos_bound (v + 4095) 4096 ltac:(done)). lia.
Qed.

Lemma align_down_spec v : page_aligned (align_down v PAGE_SIZE) ∧ (align_down v PAGE_SIZE <= v < align_down v PAGE_SIZE + PAGE_SIZE)%Z.
Proof.
  unfold align_down, page_aligned, PAGE_SIZE. simpl. rewrite Z.mod_mul by done.
  pose proof (Z.div_mod v 4096 ltac:(done)). pose proof (Z.mod_pos_bound v 4096 ltac:(done)). lia.
Qed.

(** An aligned page inside a range lies inside the aligned part of it. *)
Lemma page_inside v v' p e :
  align_up v PAGE_SIZE = Some v' → page_aligned p → (v <= p)%Z → (p + PAGE_SIZE <= e)%Z →
  (v' <= p)%Z ∧ (p + PAGE_SIZE <= align_down e PAGE_SIZE)%Z.
Proof.
  intros [Hv Hvb]%align_up_spec Hp H1 H2. destruct (align_down_spec e) as [He Heb].
  unfold page_aligned, PAGE_SIZE in *.
  apply Z.mod_divide in Hv as [kv ->]; [|done]. apply Z.mod_divide in Hp as [kp ->]; [|done].
  apply Z.mod_divide in He as [ke He]; [|done]. rewrite He in *. lia.
Qed.

(** A range at the end of the list keeps it in order when it starts behind the
    last one. *)
Lemma frame_list_snoc l x :
  frame_list l → frame_range x → (∀ y, last l = Some y → apart y x) → frame_list (l ++ [x]).
Proof.
  intros [Hf Hs] Hx Hl. split; [apply Forall_app; auto using Forall_cons_2, Forall_nil_2|].
  apply StronglySorted_app. split_and!; [|done|by repeat constructor].
  intros y z Hy ->%list_elem_of_singleton. destruct l as [|b l _] using rev_ind; [by apply elem_of_nil in Hy|].
  rewrite last_snoc in Hl. specialize (Hl b eq_refl). apply elem_of_app in Hy as [Hy| ->%list_elem_of_singleton]; [|done].
  apply StronglySorted_app in Hs as (Hs & _). specialize (Hs y b Hy (list_elem_of_here _ _)).
  apply Forall_app in Hf as [_ (_ & _ & Hb)%Forall_singleton]. unfold apart in *. lia.
Qed.

(** What a push adds. *)
Record pushed (range : AddrRange) (out out' : list AddrRange) : Prop := {
  pu_frames : frame_list out → frame_list out';
  pu_sound : ∀ a, covers out' a → covers out a ∨ in_range a range;
  pu_kept : ∀ a, covers out a → covers out' a;
  pu_below : ∀ b, (∀ r, r ∈ out → (r_end r <= b)%Z) → (r_end range <= b)%Z → ∀ r, r ∈ out' → (r_end r <= b)%Z;
  pu_complete : (∀ r, r ∈ out → (r_start r < r_end r)%Z ∧ (r_end r <= r_start range)%Z) → ∀ p,
    page_aligned p → (r_start range <= p)%Z → (p + PAGE_SIZE <= r_end range)%Z → ∀ a, on_page p a → covers out' a
}.

Lemma pushed_nothing range out s :
  align_up (r_start range) PAGE_SIZE = Some s → (align_down (r_end range) PAGE_SIZE <= s)%Z → pushed range out out.
Proof.
  intros Hs He. split; [done|auto|done|done|]. intros _ p Hp H1 H2 a _. exfalso.
  destruct (page_inside _ _ p _ Hs Hp H1 H2). unfold PAGE_SIZE in *. lia.
Qed.

Lemma pushed_new range out s :
  align_up (r_start range) PAGE_SIZE = Some s → (s < align_down (r_end range) PAGE_SIZE)%Z →
  (∀ l, last out = Some l → (r_end l < s)%Z) →
  pushed range out (out ++ [mkRange s (align_down (r_end range) PAGE_SIZE)]).
Proof.
  intros Hs He Hlast. destruct (align_up_spec _ _ Hs) as [Ha Hb], (align_down_spec (r_end range)) as [Hd Hdb]. split.
  - intros Hf. by apply frame_list_snoc.
  - intros a. rewrite covers_app, covers_one. intros [|[??]]; [by left|right]. simpl in *. unfold in_range. lia.
  - intros a. rewrite covers_app. by left.
  - intros b Ho Hr r [Hin| ->%list_elem_of_singleton]%elem_of_app; [by apply Ho|]. simpl. lia.
  - intros _ p Hp H1 H2 a Hon. rewrite covers_app, covers_one. right.
    destruct (page_inside _ _ p _ Hs Hp H1 H2). unfold on_page, in_range in *. simpl. lia.
Qed.

Lemma pushed_merged range out l s :
  align_up (r_start range) PAGE_SIZE = Some s → (s < align_down (r_end range) PAGE_SIZE)%Z → (s <= r_end l)%Z →
  pushed range (out ++ [l]) (out ++ [mkRange (r_start l) (Z.max (r_end l) (align_down (r_end range) PAGE_SIZE))]).
Proof.
  intros Hs He Hl. destruct (align_up_spec _ _ Hs) as [Ha Hb], (align_down_spec (r_end range)) as [Hd Hdb]. split.
  - intros [[Hf1 Hf2]%Forall_app (Ho & Hs1 & _)%StronglySorted_app]. apply Forall_singleton in Hf2 as (F1 & F2 & F3).
    apply frame_list_snoc; [done| |intros y [l' ->]%last_Some; apply (Ho y l); [apply elem_of_app; right|]; by left].
    split_and!; simpl; [done| |lia]. destruct (Z.max_spec (r_end l) (align_down (r_end range) PAGE_SIZE)) as [[_ ->]|[_ ->]]; done.
  - intros a. rewrite !covers_app, !covers_one. unfold in_range. simpl. intros [|]; [by do 2 left|].
    destruct (decide (a < r_end l)%Z); [left; right; lia|right; lia].
  - intros a. rewrite !covers_app, !covers_one. unfold in_range. simpl. intros [|]; [by left|right; lia].
  - intros b Ho Hr r [Hin| ->%list_elem_of_singleton]%elem_of_app; [apply Ho, elem_of_app; by left|].
    assert (r_end l <= b)%Z by (apply Ho, elem_of_app; right; by left). simpl. lia.
  - intros Ho p Hp H1 H2 a Hon. rewrite covers_app, covers_one. right.
    destruct (page_inside _ _ p _ Hs Hp H1 H2). assert (r_start l < r_end l ∧ r_end l <= r_start range)%Z as [??].
    { apply Ho, elem_of_app. right. by left. }
    unfold on_page, in_range in *. simpl. lia.
Qed.

Lemma push_usable_frame_spec out range out' :
  push_usable_frame_range out range = Done (inl out') → pushed range (bf_items out) (bf_items out').
Proof.
  unfold push_usable_frame_range. intros (s & Hs%ok_or_inl & H)%res_bind_inl. simpl in H.
  destruct (Z.leb_spec (align_down (r_end range) PAGE_SIZE) s) as [Hle|Hlt].
  { injection H as <-. by eapply pushed_nothing. }
  assert (∀ o, push_range out (mkRange s (align_down (r_end range) PAGE_SIZE)) = Done (inl o) →
               (∀ l, last (bf_items out) = Some l → (r_end l < s)%Z) →
               pushed range (bf_items out) (bf_items o)) as Hnew.
  { intros o. unfold push_range. destruct (decide _); [|done]. intros [= <-]. by apply pushed_new. }
  destruct (last (bf_items out)) as [l|] eqn:Hlast; [|by apply Hnew].
  destruct (Z.leb_spec s (r_end l)) as [Hsl|Hsl]; [|apply Hnew; [done|intros ? [= <-]; lia]].
  injection H as <-. apply last_Some in Hlast as [pre Hpre]. unfold set_last. simpl. rewrite Hpre, length_app. simpl.
  rewrite insert_app_r_alt by lia. replace (length pre + 1 - 1 - length pre) with 0 by lia. simpl.
  by eapply pushed_merged.
Qed.

(** ** Scanning one RAM range *)

Section scan.
Context (ram : AddrRange) (all : list AddrRange) (frames0 : list AddrRange).

(** A page of the RAM range that touches nothing reserved. *)
Definition free_page (p : Z) : Prop :=
  page_aligned p ∧ (r_start ram <= p)%Z ∧ (p + PAGE_SIZE <= r_end ram)%Z ∧ ∀ a, on_page p a → ¬ covers all a.

Record scanned (proc : list AddrRange) (cursor : Z) (frames : list AddrRange) : Prop := {
  sc_cursor : (r_start ram <= cursor <= Z.max (r_start ram) (r_end ram))%Z;
  sc_proc : ∀ r a, r ∈ proc → in_range a r → in_range a ram → (a < cursor)%Z;
  sc_frames : frame_list frames;
  sc_sound : ∀ a, covers frames a → covers frames0 a ∨ (in_range a ram ∧ ¬ covers all a);
  sc_kept : ∀ a, covers frames0 a → covers frames a;
  sc_below : (∀ r, r ∈ frames0 → (r_end r <= r_start ram)%Z) → ∀ r, r ∈ frames → (r_end r <= cursor)%Z;
  sc_complete : (∀ r, r ∈ frames0 → (r_end r <= r_start ram)%Z) →
    ∀ p, free_page p → (p < cursor)%Z → ∀ a, on_page p a → covers frames a
}.

(** Skipping a reserved range without addresses in this RAM range. *)
Lemma scanned_skip proc r cursor frames :
  scanned proc cursor frames → (∀ a, in_range a r → in_range a ram → False) → scanned (proc ++ [r]) cursor frames.
Proof.
  intros [H1 H2 H3 H4 H5 H6 H7] Hr. split; try done.
  intros r' a [Hin| ->%list_elem_of_singleton]%elem_of_app Ha Hra; [by eapply H2|by destruct (Hr a)].
Qed.

(** Pushing the free addresses from the cursor up to [b]. *)
Lemma scanned_gap proc cursor frames b frames' :
  scanned proc cursor frames → (cursor < b <= r_end ram)%Z →
  (∀ a, covers all a → in_range a ram → (a < cursor)%Z ∨ (b <= a)%Z) → b = r_end ram ∨ covers all b →
  pushed (mkRange cursor b) frames frames' → scanned proc b frames'.
Proof.
  intros [H1 H2 H3 H4 H5 H6 H7] Hb Hfree Hend [P1 P2 P3 P4 P5]. split.
  - lia.
  - intros r a Hr Ha Hra. specialize (H2 r a Hr Ha Hra). lia.
  - by apply P1.
  - intros a [Ha|[Ha1 Ha2]]%P2; [by apply H4|]. simpl in *. assert (in_range a ram) as Hra by (unfold in_range; lia).
    right. split; [done|]. intros Hc. destruct (Hfree a Hc Hra); lia.
  - intros a Ha. by apply P3, H5.
  - intros H0. apply P4; [|simpl; lia]. intros r Hr. specialize (H6 H0 r Hr). lia.
  - intros H0 p Hp Hlt a Hon. destruct (decide (p < cursor)%Z) as [Hpc|Hpc]; [by apply P3, (H7 H0 p)|].
    destruct Hp as (Hpa & Hp1 & Hp2 & Hpf).
    assert (p + PAGE_SIZE <= b)%Z as Hpb.
    { destruct (decide (p + PAGE_SIZE <= b)%Z) as [|Hgt]; [done|]. destruct Hend as [->|Hcb]; [lia|].
      by destruct (Hpf b); [unfold on_page; lia|]. }
    apply (P5 ltac:(intros r Hr; split; [by apply (Forall_forall frame_range frames) in Hr as (_ & _ & ?); [|apply H3]|by apply H6]) p);
      [done|simpl; lia|simpl; lia|done].
Qed.

(** Passing a reserved range that starts at or before the cursor. *)
Lemma scanned_advance proc r cursor frames e :
  scanned proc cursor frames → r ∈ all → (e <= r_end ram)%Z → (∀ a, (cursor <= a < e)%Z → in_range a r) →
  (∀ a, in_range a r → in_range a ram → (a < Z.max cursor e)%Z) → scanned (proc ++ [r]) (Z.max cursor e) frames.
Proof.
  intros [H1 H2 H3 H4 H5 H6 H7] Hr He Hin Hend. split; try done.
  - lia.
  - intros r' a [Hr'| ->%list_elem_of_singleton]%elem_of_app Ha Hra; [|by apply Hend].
    specialize (H2 r' a Hr' Ha Hra). lia.
  - intros H0 r' Hr'. specialize (H6 H0 r' Hr'). lia.
  - intros H0 p Hp Hlt. destruct (decide (p < cursor)%Z) as [Hpc|Hpc]; [by apply H7|].
    destruct Hp as (_ & _ & _ & Hpf). exfalso. apply (Hpf p); [unfold on_page, PAGE_SIZE; lia|].
    exists r. split; [done|]. apply Hin. lia.
Qed.

Lemma clipped_spec r c :
  clipped_to r ram = Some c →
  r_start c = Z.max (r_start r) (r_start ram) ∧ r_end c = Z.min (r_end r) (r_end ram) ∧ (r_start c < r_end c)%Z.
Proof. unfold clipped_to. destruct (Z.leb_spec (Z.min (r_end r) (r_end ram)) (Z.max (r_start r) (r_start ram))); [done|]. intros [= <-]. done. Qed.

Lemma clipped_none r : clipped_to r ram = None → ∀ a, in_range a r → in_range a ram → False.
Proof.
  unfold clipped_to. destruct (Z.leb_spec (Z.min (r_end r) (r_end ram)) (Z.max (r_start r) (r_start ram))); [|done].
  unfold in_range. intros _ a. lia.
Qed.

Lemma push_usable_frames usable m m' : push_usable usable m = Done (inl m') → pushed usable (bf_items m.2) (bf_items m'.2).
Proof.
  unfold push_usable. intros (phys & _ & H)%res_bind_inl. apply res_bind_inl in H as (frames & Hf & H). injection H as <-.
  by apply push_usable_frame_spec.
Qed.

(** The reserved addresses from the next reserved range on. *)
Lemma rest_bound proc r rest cursor frames a :
  all = proc ++ r :: rest → by_start (r :: rest) → scanned proc cursor frames →
  covers all a → in_range a ram → (a < cursor)%Z ∨ (r_start r <= a)%Z.
Proof.
  intros Hall [_ Hs]%StronglySorted_inv Hsc (r' & Hin & Ha) Hra. rewrite Hall in Hin.
  apply elem_of_app in Hin as [Hin|[->|Hin]%elem_of_cons].
  - left. by eapply (sc_proc _ _ _ Hsc).
  - right. apply Ha.
  - right. rewrite Forall_forall in Hs. specialize (Hs r' Hin). unfold starts_before, in_range in *. lia.
Qed.

Lemma scan_reserved_spec rest proc cursor m cursor' m' :
  all = proc ++ rest → by_start rest → scanned proc cursor (bf_items m.2) →
  scan_reserved ram rest cursor m = Done (inl (cursor', m')) → scanned all cursor' (bf_items m'.2).
Proof.
  revert proc cursor m. induction rest as [|r rest IH]; intros proc cursor m Hall Hs Hsc; cbn [scan_reserved].
  { intros [= <- <-]. rewrite app_nil_r in Hall. by rewrite Hall. }
  assert (all = (proc ++ [r]) ++ rest) as Hall' by (by rewrite <-app_assoc).
  assert (by_start rest) as Hs' by (by apply StronglySorted_inv in Hs as [? _]).
  destruct (Z.leb_spec (r_end r) (r_start ram)) as [Hle|Hgt].
  { apply (IH (proc ++ [r])); [done|done|]. apply scanned_skip; [done|]. unfold in_range. lia. }
  destruct (Z.leb_spec (r_end ram) (r_start r)) as [Hle|Hlt].
  { intros [= <- <-]. split; try apply Hsc. intros r' a Hin Ha Hra.
    destruct (rest_bound proc r rest cursor (bf_items m.2) a Hall Hs Hsc) as [|]; [by exists r'|done|done|].
    unfold in_range in *. lia. }
  destruct (clipped_to r ram) as [cl|] eqn:Hcl.
  2:{ apply (IH (proc ++ [r])); [done|done|]. apply scanned_skip; [done|]. by apply clipped_none. }
  destruct (clipped_spec _ _ Hcl) as (C1 & C2 & C3). intros (m1 & Hm1 & H)%res_bind_inl.
  apply res_bind_inl in H as (phys & _ & H). revert H. apply (IH (proc ++ [r])); [done|done|]. cbn [snd].
  assert (r ∈ all) as Hr by (rewrite Hall; apply elem_of_app; right; by left).
  destruct (Z.ltb_spec cursor (r_start cl)) as [Hc|Hc].
  - apply push_usable_frames in Hm1. pose proof (sc_cursor _ _ _ Hsc).
    assert (scanned proc (r_start cl) (bf_items m1.2)) as Hsc1.
    { eapply scanned_gap; [done|lia| | |done].
      - intros a Ha Hra. destruct (rest_bound proc r rest cursor _ a Hall Hs Hsc Ha Hra); lia.
      - right. exists r. split; [done|]. unfold in_range. lia. }
    replace (Z.max cursor (r_end cl)) with (Z.max (r_start cl) (r_end cl)) by lia.
    apply scanned_advance; [done|done|lia|unfold in_range; lia..].
  - injection Hm1 as <-. pose proof (sc_cursor _ _ _ Hsc). apply scanned_advance; [done|done|lia|unfold in_range; lia..].
Qed.
End scan.

(** ** All RAM ranges *)

Lemma scanned_start ram all frames :
  frame_list frames → scanned ram all frames [] (r_start ram) frames.
Proof.
  intros Hf. split; try done.
  - lia.
  - by intros r a Hr%elem_of_nil.
  - auto.
  - intros _ p (_ & Hp & _) Hlt. lia.
Qed.

Lemma scan_ram_spec reserved ram m m' :
  by_start reserved → (r_start ram <= r_end ram)%Z → frame_list (bf_items m.2) →
  scan_ram reserved ram m = Done (inl m') → scanned ram reserved (bf_items m.2) reserved (r_end ram) (bf_items m'.2).
Proof.
  intros Hs Hram Hf. unfold scan_ram. intros ([cursor m1] & Hsc & H)%res_bind_inl.
  eapply (scan_reserved_spec ram reserved (bf_items m.2) reserved []) in Hsc; [|done|done|by apply scanned_start].
  pose proof (sc_cursor _ _ _ _ _ _ Hsc) as Hc. destruct (Z.ltb_spec cursor (r_end ram)) as [Hlt|Hge].
  - apply push_usable_frames in H. eapply scanned_gap; [done|lia| |by left|done].
    intros a (r & Hr & Ha) Hra. left. by eapply (sc_proc _ _ _ _ _ _ Hsc).
  - injection H as <-. by replace (r_end ram) with cursor by lia.
Qed.

Lemma scan_all_spec reserved rams m m' :
  by_start reserved → Forall (λ r, r_start r <= r_end r)%Z rams → frame_list (bf_items m.2) →
  res_fold (scan_ram reserved) rams m = Done (inl m') →
  frame_list (bf_items m'.2) ∧
  (∀ a, covers (bf_items m'.2) a → covers (bf_items m.2) a ∨ (covers rams a ∧ ¬ covers reserved a)) ∧
  (∀ a, covers (bf_items m.2) a → covers (bf_items m'.2) a) ∧
  (StronglySorted ends_before rams → (∀ f r, f ∈ bf_items m.2 → r ∈ rams → (r_end f <= r_start r)%Z) →
   ∀ r p, r ∈ rams → free_page r reserved p → ∀ a, on_page p a → covers (bf_items m'.2) a).
Proof.
  intros Hs Hrams. revert m. induction rams as [|ram rams IH]; intros m Hf; simpl.
  { intros [= <-]. split_and!; [done|auto|done|]. by intros _ _ r p Hr%elem_of_nil. }
  apply Forall_cons in Hrams as [Hram Hrams]. intros (m1 & Hm1 & H)%res_bind_inl.
  apply scan_ram_spec in Hm1 as [H1 H2 H3 H4 H5 H6 H7]; [|done..].
  destruct (IH Hrams m1 H3 H) as (I1 & I2 & I3 & I4). split_and!.
  - done.
  - intros a [Ha|[Ha1 Ha2]]%I2; [destruct (H4 a Ha) as [|[??]]; [by left|right]|right]; rewrite covers_cons; auto.
  - intros a Ha. by apply I3, H5.
  - intros [Hord Hfst]%StronglySorted_inv Hbelow r p [->|Hr]%elem_of_cons Hp a Hon.
    + apply I3, (H7 ltac:(intros f Hfi; apply (Hbelow f ram Hfi); by left) p); [done| |done].
      destruct Hp as (_ & _ & Hp & _). unfold PAGE_SIZE in Hp. lia.
    + apply (I4 Hord) with r p; [|done..]. intros f r' Hfi Hr'. rewrite Forall_forall in Hfst.
      transitivity (r_end ram); [|by apply Hfst]. apply H6; [|done].
      intros f' Hf'. apply (Hbelow f' ram Hf'). by left.
Qed.

Lemma build_memory_map_spec rams reserved m' :
  by_start reserved → Forall (λ r, r_start r <= r_end r)%Z rams →
  build_memory_map rams reserved (buf_new MAX_PHYS_REGIONS, buf_new MAX_USABLE_RANGES) = Done (inl m') →
  frame_list (bf_items m'.2) ∧
  (∀ a, covers (bf_items m'.2) a → covers rams a ∧ ¬ covers reserved a) ∧
  (StronglySorted ends_before rams → ∀ r p, r ∈ rams → free_page r reserved p →
   ∀ a, on_page p a → covers (bf_items m'.2) a).
Proof.
  intros Hs Hr (m1 & Hm1 & H)%res_bind_inl. destruct (decide _); [done|]. injection H as <-.
  destruct (scan_all_spec reserved rams (buf_new MAX_PHYS_REGIONS, buf_new MAX_USABLE_RANGES) m1 Hs Hr) as (H1 & H2 & _ & H4);
    [by repeat constructor|done|]. split_and!; [done| |].
  - intros a [Ha|]%H2; [by apply covers_nil in Ha|done].
  - intros Hord r p Hr' Hp a Hon. eapply H4; [done| |done|done|done]. by intros f r0 Hf%elem_of_nil.
Qed.

(** ** The boot regions *)

Definition region_range (kind : RegionKind) (region : MemoryRegion) : option AddrRange :=
  if decide (mr_kind region = kind ∧ mr_size region ≠ 0%Z)
  then Some (mkRange (mr_start region) (mr_start region + mr_size region)) else None.

Definition regions_of (kind : RegionKind) (regions : list MemoryRegion) : list AddrRange :=
  omap (region_range kind) regions.

(** The reserved addresses: reserved regions and the kernel's own ranges. *)
Definition reserved_by (regions : list MemoryRegion) (k : KernelRanges) (a : Z) : Prop :=
  covers (regions_of KindReserved regions) a ∨ in_range a (kr_image k) ∨ in_range a (kr_stack k) ∨
  (kr_dtb_pa k <= a < kr_dtb_pa k + kr_dtb_size k)%Z ∨ in_range a (kr_initramfs k).

Lemma push_range_items {A} (out out' : Buf A) x :
  push_range out x = Done (inl out') → bf_items out' = bf_items out ++ [x].
Proof. unfold push_range. destruct (decide _); [|done]. by intros [= <-]. Qed.

Lemma phys_range_spec start size r :
  phys_range_from_u64 start size = Done (inl r) →
  r = (if decide (size = 0%Z) then None else Some (mkRange start (start + size))) ∧ (size = 0 ∨ 0 < size ∧ start + size <= u64_max)%Z.
Proof.
  unfold phys_range_from_u64. destruct (Z.eqb_spec size 0) as [->|Hne]; [intros [= <-]; auto|].
  intros (x & Hx%ok_or_inl & H)%res_bind_inl. injection H as <-. rewrite decide_False by done.
  unfold from_start_size, u64_checked_add in Hx. destruct (Z.leb_spec (start + size) u64_max); simpl in Hx; [|done].
  destruct (Z.leb_spec (start + size) start) as [|Hlt]; [done|]. injection Hx as <-. split; [done|lia].
Qed.

Lemma collect_spec regions ram reserved ram' reserved' :
  collect_boot_ranges regions ram reserved = Done (inl (ram', reserved')) →
  bf_items ram' = bf_items ram ++ regions_of KindUsable regions ∧
  bf_items reserved' = bf_items reserved ++ regions_of KindReserved regions ∧
  Forall (λ r, r_start r < r_end r <= u64_max)%Z (regions_of KindUsable regions).
Proof.
  unfold collect_boot_ranges. revert ram reserved. induction regions as [|g regions IH]; intros ram reserved; simpl.
  { intros [= -> ->]. by rewrite !app_nil_r. }
  intros ([ram1 res1] & H & Hrest)%res_bind_inl. specialize (IH _ _ Hrest) as (I1 & I2 & I3). clear Hrest.
  apply res_bind_inl in H as (r & [-> Hsz]%phys_range_spec & H). unfold region_range.
  destruct (decide (mr_size g = 0%Z)) as [Hz|Hnz]; simpl in H.
  { injection H as <- <-. rewrite !decide_False by naive_solver. done. }
  destruct (mr_kind g) eqn:Hk; simpl in H.
  - apply res_bind_inl in H as (ram2 & Hp%push_range_items & H). injection H as <- <-. rewrite decide_True, decide_False by naive_solver.
    rewrite I1, Hp, <-app_assoc. split_and!; [done|done|]. constructor; [simpl; lia|done].
  - apply res_bind_inl in H as (res2 & Hp%push_range_items & H). injection H as <- <-. rewrite decide_False, decide_True by naive_solver.
    rewrite I2, Hp, <-app_assoc. done.
  - injection H as <- <-. rewrite !decide_False by naive_solver. done.
Qed.

Lemma init_ranges_spec regions k ram reserved :
  init_ranges regions k = Done (inl (ram, reserved)) →
  ram = regions_of KindUsable regions ∧ Forall (λ r, r_start r < r_end r <= u64_max)%Z ram ∧
  ∀ a, covers reserved a ↔ reserved_by regions k a.
Proof.
  unfold init_ranges. intros ([b1 b2] & H1 & H)%res_bind_inl. apply collect_spec in H1 as (E1 & E2 & Hf).
  apply res_bind_inl in H as (b3 & H3%push_range_items & H). apply res_bind_inl in H as (b4 & H4%push_range_items & H).
  apply res_bind_inl in H as (dtb & [-> Hsz]%phys_range_spec & H). apply res_bind_inl in H as (b5 & H5 & H).
  apply res_bind_inl in H as (b6 & H6%push_range_items & H). injection H as <- <-. simpl in *.
  split_and!; [done|by rewrite E1|]. intros a. unfold reserved_by. rewrite H6, covers_app, covers_one.
  destruct (decide (kr_dtb_size k = 0%Z)) as [Hz|Hnz].
  - injection H5 as <-. rewrite H4, H3, E2, !covers_app, !covers_one. rewrite Hz. split; [naive_solver|].
    intros [|[|[|[|]]]]; auto. lia.
  - apply push_range_items in H5. rewrite H5, H4, H3, E2, !covers_app, !covers_one. unfold in_range at 3. simpl. naive_solver.
Qed.

(** ** RAM regions that do not overlap *)

Definition disjoint_ranges (l : list AddrRange) : Prop :=
  ∀ i j r s a, l !! i = Some r → l !! j = Some s → in_range a r → in_range a s → i = j.

Lemma disjoint_perm l1 l2 : l1 ≡ₚ l2 → disjoint_ranges l2 → disjoint_ranges l1.
Proof.
  intros (_ & f & Hf & Hl)%Permutation_inj Hd i j r s a Hi Hj Hr Hs. rewrite Hl in Hi, Hj.
  apply (inj f). by eapply Hd.
Qed.

Lemma disjoint_ordered l :
  by_start l → Forall (λ r, r_start r < r_end r)%Z l → disjoint_ranges l → StronglySorted ends_before l.
Proof.
  induction l as [|x l IH]; intros Hs Hf Hd; [constructor|].
  apply StronglySorted_inv in Hs as [Hs Hx]. apply Forall_cons in Hf as [Hfx Hf]. constructor.
  - apply IH; [done|done|]. intros i j r s a Hi Hj Hr Hs'. apply Nat.succ_inj. by apply (Hd (S i) (S j) r s a).
  - apply Forall_forall. intros y Hy. destruct (list_elem_of_lookup_1 _ _ Hy) as [i Hi].
    rewrite Forall_forall in Hx, Hf. specialize (Hx y Hy). specialize (Hf y Hy).
    unfold starts_before, ends_before in *. destruct (Z.le_gt_cases (r_end x) (r_start y)) as [|Hgt]; [done|].
    specialize (Hd 0 (S i) x y (r_start y) eq_refl Hi). unfold in_range in Hd. discriminate Hd; lia.
Qed.

(** ** Boot never panics here *)

Definition no_panic {E A} (m : Res E A) : Prop := ∃ r, m = Done r.

Lemma no_panic_bind {E A B} (m : Res E A) (f : A → Res E B) :
  no_panic m → (∀ a, m = Done (inl a) → no_panic (f a)) → no_panic (m ≫= f).
Proof. intros [[a|e] ->] Hf; [by apply Hf|by eexists]. Qed.

Lemma no_panic_fold {E A S} (f : A → S → Res E S) l s : (∀ x s, no_panic (f x s)) → no_panic (res_fold f l s).
Proof.
  intros Hf. revert s. induction l as [|x l IH]; intros s; simpl; [by eexists|].
  apply no_panic_bind; [apply Hf|]. intros s' _. apply IH.
Qed.

(** Walk through code built from returns, errors and checks. *)
Ltac no_panic :=
  repeat first
    [ apply no_panic_bind; [|intros ? _] | by eexists
    | match goal with |- no_panic (match ?x with _ => _ end) => destruct x end
    | match goal with |- no_panic (ok_or ?x _) => destruct x end ].

Lemma push_usable_runs usable m : no_panic (push_usable usable m).
Proof. unfold push_usable, push_phys_region, push_usable_frame_range, push_range. no_panic. Qed.

Lemma scan_reserved_runs ram l cursor m : no_panic (scan_reserved ram l cursor m).
Proof.
  revert cursor m. induction l as [|r l IH]; intros cursor m; cbn [scan_reserved]; [by eexists|].
  destruct (_ <=? _)%Z; [apply IH|]. destruct (_ <=? _)%Z; [by eexists|]. destruct (clipped_to r ram); [|apply IH].
  apply no_panic_bind; [destruct (_ <? _)%Z; [apply push_usable_runs|by eexists]|intros ? _].
  apply no_panic_bind; [unfold push_phys_region, push_range; no_panic|intros ? _]. apply IH.
Qed.

Lemma init_ranges_runs regions k : no_panic (init_ranges regions k).
Proof.
  unfold init_ranges, add_reserved_range, push_range, phys_range_from_u64. apply no_panic_bind; [|intros [] _; no_panic].
  apply no_panic_fold. intros g []. unfold phys_range_from_u64, push_range. no_panic.
Qed.

Lemma build_runs rams reserved m : no_panic (build_memory_map rams reserved m).
Proof.
  unfold build_memory_map. apply no_panic_bind; [apply no_panic_fold; intros ram m'|intros; no_panic].
  unfold scan_ram. apply no_panic_bind; [apply scan_reserved_runs|]. intros [c m1] _.
  destruct (_ <? _)%Z; [apply push_usable_runs|by eexists].
Qed.

(** Booting never panics on a memory map.  The frame ranges it hands to the
    allocator are non-empty, page aligned, in ascending order without overlap,
    every address of them in a usable region and in nothing reserved; and, when
    the usable regions do not overlap, every page that lies in a usable region
    and touches nothing reserved is among them. *)
Theorem init_map_spec regions k :
  ∃ r, init_map regions k = Done r ∧ ∀ phys frames, r = inl (phys, frames) →
    frame_list (bf_items frames) ∧
    (∀ r, r ∈ regions_of KindUsable regions → (r_end r <= u64_max)%Z) ∧
    (∀ a, covers (bf_items frames) a → covers (regions_of KindUsable regions) a ∧ ¬ reserved_by regions k a) ∧
    (disjoint_ranges (regions_of KindUsable regions) → ∀ ram p, ram ∈ regions_of KindUsable regions →
       page_aligned p → (r_start ram <= p)%Z → (p + PAGE_SIZE <= r_end ram)%Z →
       (∀ a, on_page p a → ¬ reserved_by regions k a) → ∀ a, on_page p a → covers (bf_items frames) a).
Proof.
  unfold init_map. destruct (init_ranges_runs regions k) as [[[ram reserved]|e] Hi]; rewrite Hi.
  2:{ eexists. split; [reflexivity|done]. }
  apply init_ranges_spec in Hi as (Hram & Hne & Hres). subst ram.
  destruct (sort_ranges_spec (regions_of KindUsable regions)) as (ram & Hr1 & Hp1 & Hs1).
  destruct (sort_ranges_spec reserved) as (res & Hr2 & Hp2 & Hs2).
  destruct (merge_ranges_spec res Hs2) as (res' & n & Hr3 & Hs3 & Hc3).
  cbn [mbind Res_bind]. rewrite Hr1. cbn. rewrite Hr2. cbn. rewrite Hr3. cbn.
  destruct (build_runs ram (take n res') (buf_new MAX_PHYS_REGIONS, buf_new MAX_USABLE_RANGES)) as [r Hb].
  exists r. split; [exact Hb|]. intros phys frames ->.
  assert (Forall (λ r, r_start r < r_end r)%Z ram) as Hne'.
  { rewrite Hp1. eapply Forall_impl; [exact Hne|simpl; lia]. }
  apply build_memory_map_spec in Hb as (B1 & B2 & B3); [|done|eapply Forall_impl; [exact Hne'|simpl; lia]]. cbn [snd] in *.
  assert (∀ a, covers (take n res') a ↔ reserved_by regions k a) as Hcov.
  { intros a. by rewrite Hc3, (covers_perm _ _ a Hp2). }
  split_and!; [done| | |].
  - intros r Hr. rewrite Forall_forall in Hne. by apply Hne.
  - intros a [Ha1 Ha2]%B2. rewrite Hcov in Ha2. by rewrite (covers_perm _ _ a Hp1) in Ha1.
  - intros Hd r p Hin Hpa H1 H2 Hfree a Hon. eapply B3; [|by rewrite Hp1| |done].
    + apply disjoint_ordered; [done|done|by eapply disjoint_perm].
    + split_and!; [done..|]. intros a' Ha'. rewrite Hcov. by apply Hfree.
Qed.
