(* ===== verification/FrameAlloc.v ===== *)
(** * The physical frame allocator

    Models [kernel/src/memory/frame_alloc.rs], the runtime wrapper and the boot
    sequence of [kernel/src/memory/mod.rs] and [init_heap] of
    [kernel/src/memory/heap.rs].  The free list is threaded through the free
    frames themselves: the first word of a free frame holds the address of the
    next one, or [usize::MAX].  [store] is that part of physical memory; a word
    that was never written reads as an arbitrary value (0 here, and no proof
    depends on it).

    The list is walked by loops without a bound of their own; the model bounds
    them by the number of free frames (and the walks down a block by its number
    of pages), and running out is a panic the specifications exclude. *)

From stdpp Require Import gmap.
From S2P Require Import Prelude Types Vm MemMap.

Definition FREE_LIST_END : Z := u64_max.

Record FrameAllocator := mkFrameAllocator {
  fa_head : option Z;
  fa_page_size : Z;
  fa_total : Z;
  fa_free : Z
}.

Definition allocator_new : FrameAllocator := mkFrameAllocator None 0 0 0.

Record FrameState := mkFrameState { fs_alloc : FrameAllocator; fs_store : gmap Z Z }.

Definition set_alloc (f : FrameAllocator → FrameAllocator) (s : FrameState) : FrameState :=
  mkFrameState (f (fs_alloc s)) (fs_store s).
Definition set_head (h : option Z) (a : FrameAllocator) : FrameAllocator :=
  mkFrameAllocator h (fa_page_size a) (fa_total a) (fa_free a).
Definition set_free (n : Z) (a : FrameAllocator) : FrameAllocator :=
  mkFrameAllocator (fa_head a) (fa_page_size a) (fa_total a) n.

Abbreviation F := (M FrameState).

Definition read_next_free_frame (frame : Z) : F Z := gets (λ s, default 0%Z (fs_store s !! frame)).
Definition write_next_free_frame (frame next : Z) : F unit :=
  modify (λ s, mkFrameState (fs_alloc s) (<[frame := next]> (fs_store s))).

(** The word as a link: [(next != S::free_list_end()).then_some(next)]. *)
Definition as_link (next : Z) : option Z := if (next =? FREE_LIST_END)%Z then None else Some next.

Definition is_power_of_two (n : Z) : bool := (0 <? n)%Z && (n =? 2 ^ Z.log2 n)%Z.

(** The bound of the list walks. *)
Definition walk_fuel : F nat := gets (λ s, S (Z.to_nat (fa_free (fs_alloc s)))).

(** ** Allocation *)

Definition alloc_frame : F (option Z) :=
  head ← gets (λ s, fa_head (fs_alloc s));
  match head with
  | None => mret None
  | Some frame =>
      next ← read_next_free_frame frame;
      modify (set_alloc (λ a, set_free (u64_saturating_sub (fa_free a) 1) (set_head (as_link next) a)));;
      mret (Some frame)
  end.

(** The search state: the frame before the current one, and the current run
    with the frame before it. *)
Record RunSearch := mkRunSearch {
  rs_prev : option Z;
  rs_candidate_prev : option Z;
  rs_start : option Z;
  rs_end : option Z;
  rs_len : nat
}.

(** One frame of the search: continue or restart the run. *)
Definition search_frame (contiguous : bool) (align frame : Z) (rs : RunSearch) : RunSearch :=
  let rs := if contiguous then rs else mkRunSearch (rs_prev rs) None None None 0 in
  match rs_start rs with
  | None => if (Z.land frame (align - 1) =? 0)%Z
            then mkRunSearch (rs_prev rs) (rs_prev rs) (Some frame) (Some frame) 1 else rs
  | Some _ => mkRunSearch (rs_prev rs) (rs_candidate_prev rs) (rs_start rs) (Some frame) (S (rs_len rs))
  end.

Fixpoint search_run (fuel : nat) (frames : nat) (page_size align : Z) (current : option Z) (rs : RunSearch)
    : F (option AddrRange) :=
  match fuel with
  | 0 => panic "memory: free list bound"
  | S fuel' =>
      match current with
      | None => mret None
      | Some frame =>
          next_raw ← read_next_free_frame frame;
          let next := as_link next_raw in
          contiguous ← match rs_prev rs with
                       | Some last => e ← expect (u64_checked_add last page_size) "attempt to add with overflow";
                                      mret (frame =? e)%Z
                       | None => mret false
                       end;
          let rs := search_frame contiguous align frame rs in
          if decide (rs_len rs = frames) then
            match rs_candidate_prev rs with
            | Some before_run => write_next_free_frame before_run (default FREE_LIST_END next)
            | None => modify (set_alloc (set_head next))
            end;;
            modify (set_alloc (λ a, set_free (u64_saturating_sub (fa_free a) (Z.of_nat frames)) a));;
            start ← expect (rs_start rs) "contiguous run start must be set";
            last ← expect (rs_end rs) "contiguous run end must be set";
            e ← expect (u64_checked_add last page_size) "frame range end overflow";
            mret (Some (mkRange start e))
          else
            search_run fuel' frames page_size align next
              (mkRunSearch (Some frame) (rs_candidate_prev rs) (rs_start rs) (rs_end rs) (rs_len rs))
      end
  end.

Definition alloc_contiguous_aligned (frames : nat) (page_size align : Z) : F (option AddrRange) :=
  if decide (frames = 0) then mret None
  else if (align <? page_size)%Z || negb (is_power_of_two align) then mret None
  else
    head ← gets (λ s, fa_head (fs_alloc s));
    fuel ← walk_fuel;
    search_run fuel frames page_size align head (mkRunSearch None None None None 0).

Definition alloc_contiguous (frames : nat) (page_size : Z) : F (option AddrRange) :=
  alloc_contiguous_aligned frames page_size page_size.

(** ** Freeing *)

(** Walk to the first frame at or above [start]. *)
Fixpoint find_place (fuel : nat) (start : Z) (prev current : option Z) : F (option Z * option Z) :=
  match fuel with
  | 0 => panic "memory: free list bound"
  | S fuel' =>
      match current with
      | None => mret (prev, None)
      | Some frame =>
          if (start <=? frame)%Z then mret (prev, current)
          else next_raw ← read_next_free_frame frame; find_place fuel' start (Some frame) (as_link next_raw)
      end
  end.

(** The number of steps of a walk down from [e] to [start]. *)
Definition down_fuel (start e page_size : Z) : nat := S (S (Z.to_nat ((e - start) / page_size))).

(** Link the frames of the block from the last one down. *)
Fixpoint link_block (fuel : nat) (start page_size frame next : Z) : F unit :=
  match fuel with
  | 0 => panic "memory: block bound"
  | S fuel' =>
      if (start <? frame)%Z then
        frame ← expect (u64_checked_sub frame page_size) "attempt to subtract with overflow";
        write_next_free_frame frame next;;
        link_block fuel' start page_size frame frame
      else mret tt
  end.

Definition free_contiguous (range : AddrRange) (page_size : Z) : F unit :=
  let start := r_start range in
  let e := r_end range in
  if (e <=? start)%Z then mret tt
  else
    assert_that (start mod page_size =? 0)%Z "assertion failed: start % page_size == 0";;
    assert_that (e mod page_size =? 0)%Z "assertion failed: end % page_size == 0";;
    let frame_count := ((e - start) / page_size)%Z in
    assert_that (0 <? frame_count)%Z "assertion failed: frame_count > 0";;
    head ← gets (λ s, fa_head (fs_alloc s));
    fuel ← walk_fuel;
    '(prev, current) ← find_place fuel start None head;
    assert_that (match prev with Some frame => (frame <? start)%Z | None => true end) "assertion failed: prev";;
    assert_that (match current with Some frame => (e <=? frame)%Z | None => true end) "assertion failed: current";;
    link_block (down_fuel start e page_size) start page_size e (default FREE_LIST_END current);;
    match prev with
    | Some before_range => write_next_free_frame before_range start
    | None => modify (set_alloc (set_head (Some start)))
    end;;
    modify (set_alloc (λ a, set_free (fa_free a + frame_count) a)).

Definition free_frame (frame : Z) : F unit :=
  page_size ← gets (λ s, fa_page_size (fs_alloc s));
  assert_that (negb (page_size =? 0)%Z) "assertion failed: self.page_size != 0";;
  e ← expect (u64_checked_add frame page_size) "single-frame free end overflow";
  free_contiguous (mkRange frame e) page_size.

(** ** Initialization *)

Fixpoint insert_after (fuel : nat) (frame prev : Z) : F unit :=
  match fuel with
  | 0 => panic "memory: free list bound"
  | S fuel' =>
      next_raw ← read_next_free_frame prev;
      let next := as_link next_raw in
      if match next with Some candidate => (frame <? candidate)%Z | None => true end then
        write_next_free_frame frame (default FREE_LIST_END next);;
        write_next_free_frame prev frame;;
        modify (set_alloc (λ a, set_free (fa_free a + 1) a))
      else
        next ← expect next "next free frame must exist while traversing list";
        insert_after fuel' frame next
  end.

Definition insert_frame_sorted (frame : Z) : F unit :=
  head ← gets (λ s, fa_head (fs_alloc s));
  match head with
  | None =>
      write_next_free_frame frame FREE_LIST_END;;
      modify (set_alloc (λ a, set_free (fa_free a + 1) (set_head (Some frame) a)))
  | Some head =>
      if (frame <? head)%Z then
        write_next_free_frame frame head;;
        modify (set_alloc (λ a, set_free (fa_free a + 1) (set_head (Some frame) a)))
      else
        fuel ← walk_fuel;
        insert_after fuel frame head
  end.

(** The frames of one range, from the last one down. *)
Fixpoint insert_block (fuel : nat) (start page_size frame : Z) : F unit :=
  match fuel with
  | 0 => panic "memory: block bound"
  | S fuel' =>
      if (start <? frame)%Z then
        frame ← expect (u64_checked_sub frame page_size) "attempt to subtract with overflow";
        insert_frame_sorted frame;;
        insert_block fuel' start page_size frame
      else mret tt
  end.

Fixpoint insert_ranges (ranges : list AddrRange) (page_size : Z) : F unit :=
  match ranges with
  | [] => mret tt
  | range :: rest =>
      insert_block (down_fuel (r_start range) (r_end range) page_size) (r_start range) page_size (r_end range);;
      insert_ranges rest page_size
  end.

Definition init_from_ranges (ranges : list AddrRange) (page_size : Z) : F unit :=
  modify (set_alloc (λ _, mkFrameAllocator None page_size 0 0));;
  insert_ranges (reverse ranges) page_size;;
  modify (set_alloc (λ a, mkFrameAllocator (fa_head a) (fa_page_size a) (fa_free a) (fa_free a))).

(** [run_allocator_self_check]. *)
Definition run_allocator_self_check : F (unit + MemoryError) :=
  first ← alloc_frame;
  match first with
  | None => mret (inr NoUsableRam)
  | Some first =>
      second ← alloc_frame;
      match second with
      | None => mret (inr NoUsableRam)
      | Some second =>
          third ← alloc_frame;
          match third with
          | None => mret (inr NoUsableRam)
          | Some third => free_frame third;; free_frame second;; free_frame first;; mret (inl tt)
          end
      end
  end.

(** ** The runtime allocator and the boot sequence *)

Record MemoryMetadata := mkMetadata {
  md_phys_regions : list AddrRegion;
  md_usable_ranges : list AddrRange;
  md_heap_range : option AddrRange
}.

(** [FRAME_ALLOCATOR], [KERNEL_HEAP] (its start and size once initialized) and
    [MEMORY_METADATA]. *)
Record Runtime := mkRuntime {
  rt_initialized : bool;
  rt_frames : FrameState;
  rt_heap : option (Z * Z);
  rt_metadata : option MemoryMetadata
}.

Definition set_rt_frames (s : FrameState) (rt : Runtime) : Runtime :=
  mkRuntime (rt_initialized rt) s (rt_heap rt) (rt_metadata rt).
Definition set_rt_initialized (b : bool) (rt : Runtime) : Runtime :=
  mkRuntime b (rt_frames rt) (rt_heap rt) (rt_metadata rt).
Definition set_rt_heap (h : option (Z * Z)) (rt : Runtime) : Runtime :=
  mkRuntime (rt_initialized rt) (rt_frames rt) h (rt_metadata rt).
Definition set_rt_metadata (m : option MemoryMetadata) (rt : Runtime) : Runtime :=
  mkRuntime (rt_initialized rt) (rt_frames rt) (rt_heap rt) m.

(** [self.allocator.op()] under the allocator's lock. *)
Definition on_frames {A} (op : F A) : M Runtime A :=
  λ rt, match op (rt_frames rt) with
        | Done (a, s) => Done (a, set_rt_frames s rt)
        | Panic msg => Panic msg
        end.

Definition runtime_reset : M Runtime unit :=
  modify (set_rt_initialized false);; on_frames (modify (set_alloc (λ _, allocator_new))).

Definition usable_ranges : M Runtime (list AddrRange) :=
  gets (λ rt, match rt_metadata rt with Some md => md_usable_ranges md | None => [] end).

Definition runtime_alloc_frame : M Runtime (option Z) :=
  initialized ← gets rt_initialized;
  if negb initialized then mret None else on_frames alloc_frame.

Definition alloc_contiguous_frames_aligned (frames : nat) (align : Z) : M Runtime (option AddrRange) :=
  initialized ← gets rt_initialized;
  if negb initialized then mret None else on_frames (alloc_contiguous_aligned frames PAGE_SIZE align).

Definition alloc_contiguous_frames (frames : nat) : M Runtime (option AddrRange) :=
  alloc_contiguous_frames_aligned frames PAGE_SIZE.

Definition is_valid_usable_frame (usable_ranges : list AddrRange) (frame_pa : Z) : bool :=
  if negb (Z.land frame_pa (PAGE_SIZE - 1) =? 0)%Z then false
  else existsb (λ range, (r_start range <=? frame_pa)%Z && (frame_pa <? r_end range)%Z) usable_ranges.

Definition is_valid_usable_frame_range (usable_ranges : list AddrRange) (range : AddrRange) : bool :=
  if (r_end range <=? r_start range)%Z then false
  else if negb (Z.land (r_start range) (PAGE_SIZE - 1) =? 0)%Z || negb (Z.land (r_end range) (PAGE_SIZE - 1) =? 0)%Z
  then false
  else existsb (λ usable, (r_start usable <=? r_start range)%Z && (r_end range <=? r_end usable)%Z) usable_ranges.

Definition runtime_free_frame (frame_pa : Z) : M Runtime unit :=
  initialized ← gets rt_initialized;
  assert_that initialized "memory: free_frame before init";;
  usable ← usable_ranges;
  assert_that (is_valid_usable_frame usable frame_pa) "memory: attempted to free invalid frame";;
  on_frames (free_frame frame_pa).

Definition free_contiguous_frames (range : AddrRange) : M Runtime unit :=
  initialized ← gets rt_initialized;
  assert_that initialized "memory: free_contiguous_frames before init";;
  usable ← usable_ranges;
  assert_that (is_valid_usable_frame_range usable range) "memory: attempted to free invalid frame range";;
  on_frames (free_contiguous range PAGE_SIZE).

Definition free_frame_count : M Runtime (option Z) :=
  gets (λ rt, if rt_initialized rt then Some (fa_free (fs_alloc (rt_frames rt))) else None).

(** [heap::init_heap].  The allocator inside the heap is a library; the kernel
    hands it a start and a size once. *)
Definition init_heap (heap_start heap_size : Z) : M Runtime (unit + HeapInitError) :=
  if (heap_size =? 0)%Z then mret (inr ZeroSize)
  else if negb (Z.land heap_start (PAGE_SIZE - 1) =? 0)%Z || negb (Z.land heap_size (PAGE_SIZE - 1) =? 0)%Z
  then mret (inr UnalignedRange)
  else
    heap ← gets rt_heap;
    match heap with
    | Some _ => mret (inr AlreadyInitialized)
    | None => modify (set_rt_heap (Some (heap_start, heap_size)));; mret (inl tt)
    end.

(** The heap's smoke tests: the collections of the language's library, with a
    [VecDeque] as a list, a [BinaryHeap] of reversed keys as a bag that yields
    its least element, and a [BTreeMap] as a finite map.  These collections
    always find memory, so the tests pass; the allocator below them is an
    external crate. *)
Definition pop_front (q : list Z) : option Z * list Z := (head q, tail q).

Definition heap_least (h : list Z) : option Z :=
  match h with [] => None | x :: h' => Some (foldr Z.min x h') end.
Fixpoint heap_remove (x : Z) (h : list Z) : list Z :=
  match h with [] => [] | y :: h' => if (x =? y)%Z then h' else y :: heap_remove x h' end.
Definition heap_pop (h : list Z) : option Z * list Z :=
  (heap_least h, match heap_least h with Some x => heap_remove x h | None => h end).

Definition run_vec_smoke_test : unit + HeapSmokeError :=
  let values := ([] ++ [3] ++ [5] ++ [8] ++ [13])%Z in
  if decide (values = [3; 5; 8; 13]%Z) then inl tt else inr SmokeVec.

Definition run_vecdeque_smoke_test : unit + HeapSmokeError :=
  let queue := ([] ++ [10] ++ [20] ++ [30])%Z in
  let '(a, queue) := pop_front queue in
  if decide (a ≠ Some 10%Z) then inr SmokeVecDeque else
  let '(b, queue) := pop_front queue in
  if decide (b ≠ Some 20%Z) then inr SmokeVecDeque else
  let '(c, queue) := pop_front queue in
  if decide (c ≠ Some 30%Z) then inr SmokeVecDeque else
  if decide (queue ≠ []) then inr SmokeVecDeque else inl tt.

Definition run_binary_heap_smoke_test : unit + HeapSmokeError :=
  let heap := ([] ++ [7] ++ [2] ++ [11] ++ [5])%Z in
  let '(a, heap) := heap_pop heap in
  if decide (a ≠ Some 2%Z) then inr SmokeBinaryHeap else
  let '(b, heap) := heap_pop heap in
  if decide (b ≠ Some 5%Z) then inr SmokeBinaryHeap else
  let '(c, heap) := heap_pop heap in
  if decide (c ≠ Some 7%Z) then inr SmokeBinaryHeap else
  let '(d, heap) := heap_pop heap in
  if decide (d ≠ Some 11%Z) then inr SmokeBinaryHeap else
  if decide (heap ≠ []) then inr SmokeBinaryHeap else inl tt.

Definition run_btree_map_smoke_test : unit + HeapSmokeError :=
  let map : gmap Z Z := <[3%Z := 300%Z]> (<[2%Z := 200%Z]> (<[1%Z := 100%Z]> ∅)) in
  if decide (map !! 2%Z ≠ Some 200%Z) then inr SmokeBTreeMap else
  let removed := map !! 2%Z in
  let map := delete 2%Z map in
  if decide (removed ≠ Some 200%Z) then inr SmokeBTreeMap else
  if decide (is_Some (map !! 2%Z)) then inr SmokeBTreeMap else inl tt.

Definition run_heap_smoke_tests : unit + HeapSmokeError :=
  match run_vec_smoke_test with inr e => inr e | inl _ =>
  match run_vecdeque_smoke_test with inr e => inr e | inl _ =>
  match run_binary_heap_smoke_test with inr e => inr e | inl _ => run_btree_map_smoke_test end end end.

(** The direct map: [phys_to_hva] of the architecture. *)
Definition KERNEL_HVA_OFFSET : Z := 0xffff000000000000.
Definition phys_to_hva (pa : Z) : Z := u64_wrapping_add pa KERNEL_HVA_OFFSET.

Definition KERNEL_HEAP_BOOTSTRAP_SIZE : Z := 16 * 1024 * 1024.
Definition heap_frames : nat := Z.to_nat (KERNEL_HEAP_BOOTSTRAP_SIZE / PAGE_SIZE).

(** The allocator part of [memory::init], under the allocator's lock. *)
Definition init_frames (usable : list AddrRange) : M Runtime (AddrRange + MemoryError) :=
  runtime_reset;;
  on_frames (init_from_ranges usable PAGE_SIZE);;
  heap ← on_frames (alloc_contiguous heap_frames PAGE_SIZE);
  match heap with
  | None => mret (inr NoBootstrapHeapRange)
  | Some range =>
      _ ←? on_frames run_allocator_self_check;
      modify (set_rt_initialized true);; mret (inl range)
  end.

(** [memory::init]. *)
Definition memory_init (regions : list MemoryRegion) (k : KernelRanges) : M Runtime (unit + MemoryError) :=
  maps ← reads (λ _, init_map regions k);
  match maps with
  | inr e => mret (inr e)
  | inl (phys, usable) =>
      if decide (bf_items usable = []) then mret (inr NoUsableRam)
      else
        heap ←? init_frames (bf_items usable);
        r ← init_heap (phys_to_hva (r_start heap)) (r_end heap - r_start heap);
        match r, run_heap_smoke_tests with
        | inr e, _ => mret (inr (HeapInit e))
        | _, inr e => mret (inr (HeapSmokeTest e))
        | _, _ =>
            published ← gets rt_metadata;
            assert_that (match published with None => true | Some _ => false end) "memory: metadata published twice";;
            modify (set_rt_metadata (Some (mkMetadata (bf_items phys) (bf_items usable) (Some heap))));;
            mret (inl tt)
        end
  end.
