(* ===== verification/FrameSpec.v ===== *)
(** * Correctness of the frame allocator

    The linked list in physical memory represents a strictly ascending list of
    page-aligned frames.  Allocation takes the lowest frame or the lowest
    aligned run, and fails only when there is none; freeing puts the frames
    back in order.  Seen as a set of free frames, the allocator is exact. *)

From stdpp Require Import gmap sorting.
From S2P Require Import Prelude Types Vm MemMap MemMapSpec FrameAlloc.

(** ** Lists in memory *)

(** Each frame of [l] links to the next one, the last one to [e]. *)
Fixpoint linked (st : gmap Z Z) (l : list Z) (e : Z) : Prop :=
  match l with
  | [] => True
  | x :: l' => st !! x = Some (hd e l') ∧ linked st l' e
  end.

Lemma linked_app st l1 l2 e : linked st (l1 ++ l2) e ↔ linked st l1 (hd e l2) ∧ linked st l2 e.
Proof.
  induction l1 as [|x l1 IH]; simpl; [tauto|]. rewrite IH.
  destruct l1; simpl; tauto.
Qed.

Lemma linked_other st x v l e : x ∉ l → linked (<[x := v]> st) l e ↔ linked st l e.
Proof.
  induction l as [|y l IH]; simpl; [done|]. rewrite not_elem_of_cons. intros [Hne Hni].
  rewrite lookup_insert_ne by congruence. by rewrite IH.
Qed.

Lemma linked_retarget st l x e e' : x ∉ l → linked st (l ++ [x]) e → linked (<[x := e']> st) (l ++ [x]) e'.
Proof.
  intros Hx [H1 [H2 _]]%linked_app. apply linked_app. simpl in *. split; [by apply linked_other|].
  by rewrite lookup_insert_eq.
Qed.

(** The pages of a block. *)
Definition pages (ps start : Z) (n : nat) : list Z := (λ i, start + Z.of_nat i * ps)%Z <$> seq 0 n.
Arguments pages : simpl never.

Lemma pages_length ps start n : length (pages ps start n) = n.
Proof. unfold pages. by rewrite length_fmap, length_seq. Qed.
Lemma pages_S ps start n : pages ps start (S n) = pages ps start n ++ [(start + Z.of_nat n * ps)%Z].
Proof. unfold pages. by rewrite seq_S, fmap_app. Qed.
Lemma elem_of_pages ps start n x : x ∈ pages ps start n ↔ ∃ i, i < n ∧ x = (start + Z.of_nat i * ps)%Z.
Proof.
  unfold pages. rewrite list_elem_of_fmap. setoid_rewrite elem_of_seq. split; intros (i & H1 & H2); exists i; split; auto; lia.
Qed.
Lemma hd_pages ps start n e : 0 < n → hd e (pages ps start n) = start.
Proof. destruct n; [lia|]. intros _. unfold pages. simpl. lia. Qed.
Lemma last_pages ps start n : last (pages ps start (S n)) = Some (start + Z.of_nat n * ps)%Z.
Proof. rewrite pages_S. apply last_snoc. Qed.
Lemma pages_sorted ps start n : (0 < ps)%Z → StronglySorted Z.lt (pages ps start n).
Proof.
  intros Hps. induction n as [|n IH]; [constructor|]. rewrite pages_S. apply StronglySorted_app. split_and!; [|done|by repeat constructor].
  intros x y (i & Hi & ->)%elem_of_pages ->%list_elem_of_singleton. nia.
Qed.

(** ** The invariant *)

Section spec.
Context (ps : Z).
Hypothesis Hps : (0 < ps)%Z.

Definition frame_ok (f : Z) : Prop := (0 <= f)%Z ∧ (f mod ps = 0)%Z ∧ (f + ps <= u64_max)%Z.

Record fa_ok (s : FrameState) (l : list Z) : Prop := {
  ok_page_size : fa_page_size (fs_alloc s) = ps;
  ok_head : fa_head (fs_alloc s) = head l;
  ok_linked : linked (fs_store s) l FREE_LIST_END;
  ok_sorted : StronglySorted Z.lt l;
  ok_frames : Forall frame_ok l;
  ok_free : fa_free (fs_alloc s) = Z.of_nat (length l)
}.

Lemma frame_not_end f : frame_ok f → f ≠ FREE_LIST_END.
Proof. unfold frame_ok, FREE_LIST_END. lia. Qed.

Lemma as_link_hd l : Forall frame_ok l → as_link (hd FREE_LIST_END l) = head l.
Proof.
  unfold as_link. intros Hf. destruct l as [|x l]; [done|]. cbn [hd head].
  apply Forall_cons in Hf as [Hx _]. apply frame_not_end in Hx. by destruct (Z.eqb_spec x FREE_LIST_END).
Qed.

Lemma hd_default l : default FREE_LIST_END (head l) = hd FREE_LIST_END l.
Proof. by destruct l. Qed.

Lemma sorted_nodup l : StronglySorted Z.lt l → NoDup l.
Proof.
  induction 1 as [|x l _ IH Hx]; [constructor|]. constructor; [|done]. intros Hin.
  rewrite Forall_forall in Hx. specialize (Hx x Hin). lia.
Qed.

Lemma wp_read s x v (Q : Z → FrameState → Prop) :
  fs_store s !! x = Some v → Q v s → wp (read_next_free_frame x) Q s.
Proof. intros Hx HQ. apply wp_gets. by rewrite Hx. Qed.

(** ** One frame *)

Lemma alloc_frame_spec s l :
  fa_ok s l →
  wp alloc_frame (λ r s', match l with
                          | [] => r = None ∧ s' = s
                          | x :: l' => r = Some x ∧ fa_ok s' l' ∧ fs_store s' = fs_store s
                          end) s.
Proof.
  intros [H1 H2 H3 H4 H5 H6]. unfold alloc_frame. apply wp_bind, wp_gets. rewrite H2. destruct l as [|x l]; simpl.
  { by apply wp_ret. }
  destruct H3 as [Hx H3]. apply StronglySorted_inv in H4 as [H4 _]. apply Forall_cons in H5 as [_ H5].
  apply wp_bind. eapply wp_read; [done|]. apply wp_bind, wp_modify, wp_ret. split_and!; [done| |done]. split; simpl; try done.
  - by apply as_link_hd.
  - rewrite H6. unfold u64_saturating_sub. simpl. lia.
Qed.

(** ** Runs of frames *)

(** [t] starts a contiguous run of [m] free frames aligned to [align]. *)
Definition aligned_run (align t : Z) (m : nat) (l : list Z) : Prop :=
  (t mod align = 0)%Z ∧ ∃ l1 l2, l = l1 ++ pages ps t m ++ l2.

(** The search state after the frames [p], with every run in [p] shorter than
    [frames]. *)
Record searching (frames : nat) (align : Z) (p : list Z) (rs : RunSearch) : Prop := {
  se_prev : rs_prev rs = last p;
  se_len : rs_len rs < frames;
  se_start : match rs_start rs with
             | None => rs_len rs = 0 ∧ rs_candidate_prev rs = None
             | Some t => (t mod align = 0)%Z ∧ ∃ p1 n, p = p1 ++ pages ps t (S n) ∧ rs_len rs = S n ∧
                 rs_candidate_prev rs = last p1 ∧ rs_end rs = Some (t + Z.of_nat n * ps)%Z
             end;
  se_longest : ∀ p1 t m, p = p1 ++ pages ps t (S m) → (t mod align = 0)%Z → S m ≤ rs_len rs;
  se_none : ∀ t, ¬ aligned_run align t frames p
}.

Lemma land_aligned align f :
  is_power_of_two align = true → (0 <= f)%Z → (Z.land f (align - 1) =? 0)%Z = bool_decide (f mod align = 0)%Z.
Proof.
  unfold is_power_of_two. rewrite andb_true_iff, Z.ltb_lt, Z.eqb_eq. intros [Hpos Ha] Hf.
  rewrite Ha. replace (2 ^ Z.log2 align - 1)%Z with (Z.ones (Z.log2 align)) by (rewrite Z.ones_equiv; lia).
  rewrite Z.land_ones by apply Z.log2_nonneg.
  destruct (Z.eqb_spec (f mod 2 ^ Z.log2 align) 0) as [->|]; [done|]. by rewrite bool_decide_false.
Qed.

(** The result of one step of the search: the state after [x], up to the
    length test. *)
Record stepped_run (align : Z) (p : list Z) (x : Z) (rs : RunSearch) : Prop := {
  sr_start : match rs_start rs with
             | None => rs_len rs = 0 ∧ rs_candidate_prev rs = None
             | Some t => (t mod align = 0)%Z ∧ ∃ p1 n, p ++ [x] = p1 ++ pages ps t (S n) ∧ rs_len rs = S n ∧
                 rs_candidate_prev rs = last p1 ∧ rs_end rs = Some (t + Z.of_nat n * ps)%Z
             end;
  sr_longest : ∀ p1 t m, p ++ [x] = p1 ++ pages ps t (S m) → (t mod align = 0)%Z → S m ≤ rs_len rs
}.

(** A run that ends the extended list is one frame, or extends a run that
    ended the list before. *)
Lemma run_extends p x p1 t m :
  p ++ [x] = p1 ++ pages ps t (S m) →
  x = (t + Z.of_nat m * ps)%Z ∧ p = p1 ++ pages ps t m ∧ (m = 0 ∨ ∃ m', m = S m' ∧ last p = Some (x - ps)%Z).
Proof.
  rewrite pages_S, app_assoc. intros [Hp ->]%app_inj_tail. split_and!; [done|done|].
  destruct m as [|m]; [by left|right]. exists m. split; [done|]. rewrite Hp, last_app, last_pages.
  f_equal. lia.
Qed.

Lemma search_frame_spec frames align p x rs :
  is_power_of_two align = true → (0 <= x)%Z → searching frames align p rs →
  stepped_run align p x (search_frame (bool_decide (last p = Some (x - ps)%Z)) align x rs).
Proof.
  intros Hal Hx [S1 S2 S3 S4 S5]. unfold search_frame.
  assert (∀ p1 t m, p ++ [x] = p1 ++ pages ps t (S m) → (t mod align = 0)%Z →
            m = 0 ∧ t = x ∨ 0 < m ∧ last p = Some (x - ps)%Z ∧ m ≤ rs_len rs) as Hrun.
  { intros p1 t m (E1 & E2 & [->|(m' & -> & E3)])%run_extends Ht; [left; lia|].
    right. split_and!; [lia|done|]. exact (S4 _ _ _ E2 Ht). }
  (* starting over at [x] *)
  assert (∀ rs0, rs_start rs0 = None → rs_len rs0 = 0 → rs_candidate_prev rs0 = None → rs_prev rs0 = last p →
            (last p = Some (x - ps)%Z → rs_len rs = 0) →
            stepped_run align p x (if (Z.land x (align - 1) =? 0)%Z
                                   then mkRunSearch (rs_prev rs0) (rs_prev rs0) (Some x) (Some x) 1 else rs0)) as Hfresh.
  { intros rs0 R1 R2 R3 R4 Hlen. rewrite land_aligned by done. case_bool_decide as Hxa; split; simpl.
    - split; [done|]. exists p, 0. split_and!; [unfold pages; simpl; do 2 f_equal; lia|done|done|f_equal; lia].
    - intros p1 t m E Ht. destruct (Hrun p1 t m E Ht) as [[-> _]|(? & Hl & ?)]; [lia|]. specialize (Hlen Hl). lia.
    - by rewrite R1.
    - intros p1 t m E Ht. destruct (Hrun p1 t m E Ht) as [[_ ->]|(? & Hl & ?)]; [done|]. specialize (Hlen Hl). lia. }
  case_bool_decide as Hc.
  2:{ apply (Hfresh (mkRunSearch (rs_prev rs) None None None 0)); done. }
  destruct (rs_start rs) as [t0|] eqn:Hst.
  - destruct S3 as (Ht0 & p1 & n & Hp & Hn & Hcp & He). split; simpl.
    + split; [done|]. exists p1, (S n).
      assert (x = t0 + Z.of_nat (S n) * ps)%Z as Hxe by (rewrite Hp, last_app, last_pages in Hc; injection Hc as Hc; lia).
      split_and!; [|by rewrite Hn|done|by rewrite Hxe].
      by rewrite (pages_S _ _ (S n)), <-Hxe, app_assoc, <-Hp.
    + intros p2 t m E Ht. destruct (Hrun p2 t m E Ht) as [[-> _]|(? & _ & ?)]; lia.
  - destruct S3 as [S3 S3']. apply (Hfresh rs); done.
Qed.

(** No run of the wanted length is in the list before: the search goes on. *)
Lemma search_continues frames align p x rs rs' :
  0 < frames → searching frames align p rs → stepped_run align p x rs' → rs_len rs' ≤ S (rs_len rs) ∨ rs_len rs' ≤ 1 →
  rs_len rs' ≠ frames →
  searching frames align (p ++ [x])
    (mkRunSearch (Some x) (rs_candidate_prev rs') (rs_start rs') (rs_end rs') (rs_len rs')).
Proof.
  intros Hf [S1 S2 S3 S4 S5] [R1 R2] Hlen Hne. split; simpl; [by rewrite last_snoc|lia|done|done|].
  intros t (Ht & l1 & l2 & E). destruct l2 as [|y l2 _] using rev_ind.
  - rewrite app_nil_r in E. destruct frames as [|m]; [lia|]. specialize (R2 l1 t m E Ht). lia.
  - rewrite !app_assoc in E. apply app_inj_tail in E as [E _]. apply (S5 t). split; [done|]. exists l1, l2. by rewrite app_assoc.
Qed.

Lemma search_frame_len c align x rs : rs_len (search_frame c align x rs) ≤ S (rs_len rs) ∨ rs_len (search_frame c align x rs) ≤ 1.
Proof. unfold search_frame. destruct c; [destruct (rs_start rs)|]; simpl; try (destruct (_ =? _)%Z; simpl); lia. Qed.

(** ** Taking a run out of the list *)

Definition unlink_state (before : option Z) (next : option Z) (frames : nat) (s : FrameState) : FrameState :=
  set_alloc (λ a, set_free (u64_saturating_sub (fa_free a) (Z.of_nat frames)) a)
    (match before with
     | Some b => mkFrameState (fs_alloc s) (<[b := default FREE_LIST_END next]> (fs_store s))
     | None => set_alloc (set_head next) s
     end).

Lemma sorted_middle l1 l2 l3 : StronglySorted Z.lt (l1 ++ l2 ++ l3) → StronglySorted Z.lt (l1 ++ l3).
Proof.
  rewrite !StronglySorted_app. setoid_rewrite elem_of_app. naive_solver.
Qed.

Lemma unlink_ok s l1 run l2 :
  fa_ok s (l1 ++ run ++ l2) → fa_ok (unlink_state (last l1) (head l2) (length run) s) (l1 ++ l2).
Proof.
  intros [H1 H2 H3 H4 H5 H6]. pose proof H3 as [L1 [_ L2]%linked_app]%linked_app.
  assert (StronglySorted Z.lt (l1 ++ l2)) as Hs by (by eapply sorted_middle).
  assert (Forall frame_ok (l1 ++ l2)) as Hf by (apply Forall_app in H5 as [? [_ ?]%Forall_app]; by apply Forall_app).
  assert (u64_saturating_sub (fa_free (fs_alloc s)) (Z.of_nat (length run)) = Z.of_nat (length (l1 ++ l2))) as Hfree.
  { rewrite H6, !length_app. unfold u64_saturating_sub. lia. }
  unfold unlink_state. destruct (last l1) as [b|] eqn:Hl.
  - apply last_Some in Hl as [l ->]. split; simpl; [done| |rewrite hd_default|done|done|by rewrite Hfree].
    + rewrite H2. by destruct l.
    + apply sorted_nodup in Hs. rewrite <-app_assoc in Hs. apply NoDup_app in Hs as (_ & Hd & [Hb _]%NoDup_cons).
      apply linked_app. split; [|by apply linked_other].
      eapply linked_retarget; [|done]. intros Hb'. apply (Hd b Hb'). by left.
  - apply last_None in Hl as ->. by split.
Qed.

(** Runs before the frame at which the search stands. *)
Lemma run_before p x q align t frames :
  StronglySorted Z.lt (p ++ x :: q) → 0 < frames → aligned_run align t frames (p ++ x :: q) →
  (t + (Z.of_nat frames - 1) * ps < x)%Z → aligned_run align t frames p.
Proof.
  intros Hs Hf (Ht & l1 & l2 & E) Hlt. split; [done|]. exists l1, (drop (length l1 + frames) p).
  assert (length l1 + frames ≤ length p) as Hlen.
  { destruct (decide (length l1 + frames ≤ length p)) as [|Hgt]; [done|]. exfalso.
    assert ((p ++ x :: q) !! (length l1 + (frames - 1)) = Some (t + (Z.of_nat frames - 1) * ps)%Z) as H1.
    { rewrite E, lookup_app_r by lia. replace (length l1 + (frames - 1) - length l1) with (frames - 1) by lia.
      rewrite lookup_app_l by (rewrite pages_length; lia). unfold pages. rewrite list_lookup_fmap, lookup_seq_lt by lia.
      simpl. by rewrite Nat2Z.inj_sub by lia. }
    rewrite lookup_app_r in H1 by lia. apply StronglySorted_app in Hs as (_ & _ & [_ Hs]%StronglySorted_inv).
    destruct (length l1 + (frames - 1) - length p) as [|i]; simpl in H1.
    - injection H1 as H1. lia.
    - apply list_elem_of_lookup_2 in H1. rewrite Forall_forall in Hs. specialize (Hs _ H1). lia. }
  rewrite <-(take_drop (length l1 + frames) p) at 1. rewrite app_assoc. f_equal.
  transitivity (take (length l1 + frames) (p ++ x :: q)); [by rewrite take_app_le|].
  rewrite E, app_assoc. apply take_app_length'. by rewrite length_app, pages_length.
Qed.

(** ** The search *)

Definition found (align : Z) (frames : nat) (l : list Z) (r : option AddrRange) (s s' : FrameState) : Prop :=
  match r with
  | None => s' = s ∧ ∀ t, ¬ aligned_run align t frames l
  | Some rng => ∃ t l1 l2, l = l1 ++ pages ps t frames ++ l2 ∧ (t mod align = 0)%Z ∧
      rng = mkRange t (t + Z.of_nat frames * ps) ∧ fa_ok s' (l1 ++ l2) ∧ (∀ x, x ∉ l → fs_store s' !! x = fs_store s !! x) ∧
      ∀ t', aligned_run align t' frames l → (t <= t')%Z
  end.

(** The run is complete: it leaves the list. *)
Lemma search_returns align n p x q rs s :
  fa_ok s (p ++ x :: q) → stepped_run align p x rs → (∀ t, ¬ aligned_run align t (S n) p) → rs_len rs = S n →
  wp (match rs_candidate_prev rs with
      | Some before_run => write_next_free_frame before_run (default FREE_LIST_END (head q))
      | None => modify (set_alloc (set_head (head q)))
      end;;
      modify (set_alloc (λ a, set_free (u64_saturating_sub (fa_free a) (Z.of_nat (S n))) a));;
      start ← expect (rs_start rs) "contiguous run start must be set";
      last ← expect (rs_end rs) "contiguous run end must be set";
      e ← expect (u64_checked_add last ps) "frame range end overflow";
      mret (Some (mkRange start e)))
     (λ r s', found align (S n) (p ++ x :: q) r s s') s.
Proof.
  intros Hok [R1 R2] Hnone Hlen. destruct (rs_start rs) as [t|]; [|lia].
  destruct R1 as (Ht & p1 & m & E & Hm & Hcp & He). rewrite Hlen in Hm. injection Hm as ->.
  assert (p ++ x :: q = p1 ++ pages ps t (S m) ++ q) as El by (by rewrite cons_middle, app_assoc, E, <-app_assoc).
  assert (x = t + Z.of_nat m * ps)%Z as Hx by (by apply run_extends in E as (? & _)).
  pose proof (ok_frames _ _ Hok) as Hf. pose proof (ok_sorted _ _ Hok) as Hs. rewrite El in Hok.
  apply unlink_ok in Hok. rewrite pages_length in Hok. unfold unlink_state in Hok. rewrite <-Hcp in Hok.
  assert ((t + Z.of_nat m * ps) + ps <= u64_max)%Z as Hmax.
  { rewrite <-Hx. apply Forall_app in Hf as [_ [(_ & _ & ?) _]%Forall_cons]. done. }
  assert (∀ t', aligned_run align t' (S m) (p ++ x :: q) → (t <= t')%Z) as Hlow.
  { intros t' Hr. destruct (Z.le_gt_cases t t') as [|Hlt]; [done|]. exfalso. apply (Hnone t').
    eapply run_before; [done|lia|done|]. rewrite Hx. nia. }
  assert (∀ b y, last p1 = Some b → y ∉ p ++ x :: q → b ≠ y) as Hkeep.
  { intros b y [p2 ->]%last_Some Hy ->. apply Hy. rewrite El, !elem_of_app. left. right. by left. }
  rewrite Hcp in Hok. rewrite Hcp. apply wp_bind. destruct (last p1) as [b|]; apply wp_modify; apply wp_bind, wp_modify, wp_bind;
    (eapply wp_expect; [done|]); apply wp_bind; (eapply wp_expect; [done|]); apply wp_bind;
    (eapply wp_expect; [unfold u64_checked_add; by rewrite (proj2 (Z.leb_le _ _))|]); apply wp_ret;
    exists t, p1, q; (split_and!; [done|done|f_equal; lia|done| |done]); [|done].
  intros y Hy. apply lookup_insert_ne. by apply Hkeep.
Qed.

Lemma search_run_spec align frames q p rs fuel s :
  is_power_of_two align = true → 0 < frames → fa_ok s (p ++ q) → searching frames align p rs → length q < fuel →
  wp (search_run fuel frames ps align (head q) rs) (λ r s', found align frames (p ++ q) r s s') s.
Proof.
  intros Hal Hf. revert p rs fuel. induction q as [|x q IH]; intros p rs [|fuel] Hok Hse Hfuel; [lia| |lia|]; cbn [search_run head].
  { apply wp_ret. rewrite app_nil_r. split; [done|apply Hse]. }
  pose proof (ok_linked _ _ Hok) as [_ [Hx Hq]]%linked_app. pose proof (ok_frames _ _ Hok) as [Hfp [Hfx Hfq]%Forall_cons]%Forall_app.
  apply wp_bind. eapply wp_read; [done|]. cbv zeta. rewrite as_link_hd by done.
  apply wp_bind. eapply (wp_mono _ (λ b s', b = bool_decide (last p = Some (x - ps)%Z) ∧ s' = s)).
  { rewrite (se_prev _ _ _ _ Hse). destruct (last p) as [y|] eqn:Hy; [|by apply wp_ret].
    apply last_Some in Hy as [p' ->]. apply Forall_app in Hfp as [_ (_ & _ & Hy)%Forall_singleton].
    apply wp_bind. eapply wp_expect; [unfold u64_checked_add; by rewrite (proj2 (Z.leb_le _ _))|]. apply wp_ret. split; [|done].
    destruct (Z.eqb_spec x (y + ps)) as [->|]; [rewrite bool_decide_true; [done|f_equal; lia]|].
    rewrite bool_decide_false; [done|]. intros [= ?]. lia. }
  intros b s' [-> ->]. set (rs' := search_frame _ align x rs).
  assert (stepped_run align p x rs') as Hst by (apply (search_frame_spec frames); [done|apply Hfx|done]).
  destruct (decide (rs_len rs' = frames)) as [Hlen|Hlen].
  - destruct frames as [|n]; [lia|]. apply search_returns; [done|done|apply Hse|done].
  - rewrite cons_middle, app_assoc in Hok |- *. apply IH; [done| |simpl in Hfuel; lia].
    eapply search_continues; [done|done|done|apply search_frame_len|done].
Qed.

Theorem alloc_contiguous_spec align frames s l :
  fa_ok s l → 0 < frames → (ps <= align)%Z → is_power_of_two align = true →
  wp (alloc_contiguous_aligned frames ps align) (λ r s', found align frames l r s s') s.
Proof.
  intros Hok Hf Ha Hal. unfold alloc_contiguous_aligned. rewrite decide_False by lia.
  rewrite (proj2 (Z.ltb_ge _ _)) by done. rewrite Hal. simpl. apply wp_bind, wp_gets. apply wp_bind, wp_gets.
  rewrite (ok_head _ _ Hok), (ok_free _ _ Hok), Nat2Z.id. apply (search_run_spec align frames l []); [done|done|done| |lia].
  split; simpl; try done.
  - intros p1 t m E. apply (f_equal length) in E. rewrite length_app, pages_length in E. simpl in E. lia.
  - intros t (_ & l1 & l2 & E). apply (f_equal length) in E. rewrite !length_app, pages_length in E. simpl in E. lia.
Qed.

(** ** Freeing *)

Lemma find_place_spec start q p fuel s prev :
  linked (fs_store s) q FREE_LIST_END → Forall frame_ok q → length q < fuel → prev = last p →
  wp (find_place fuel start prev (head q))
     (λ '(pr, cur) s', s' = s ∧ ∃ a b, q = a ++ b ∧ Forall (λ x, (x < start)%Z) a ∧
        (∀ x, head b = Some x → (start <= x)%Z) ∧ cur = head b ∧ pr = last (p ++ a)) s.
Proof.
  revert p fuel prev. induction q as [|x q IH]; intros p [|fuel] prev Hl Hf Hfuel ->; [lia| |lia|]; cbn [find_place head].
  { apply wp_ret. split; [done|]. exists [], []. split_and!; [done|constructor|done|done|by rewrite app_nil_r]. }
  destruct Hl as [Hx Hl]. apply Forall_cons in Hf as [_ Hf]. destruct (Z.leb_spec start x) as [Hle|Hlt].
  { apply wp_ret. split; [done|]. exists [], (x :: q).
    split_and!; [done|constructor|by intros y [= <-]|done|by rewrite app_nil_r]. }
  apply wp_bind. eapply wp_read; [done|]. rewrite as_link_hd by done.
  eapply wp_mono; [apply (IH (p ++ [x])); [done|done|simpl in Hfuel; lia|by rewrite last_snoc]|].
  intros [pr cur] s' (-> & a & b & -> & Ha & Hb & -> & ->). split; [done|]. exists (x :: a), b.
  rewrite <-app_assoc. split_and!; [done|by constructor|done|done|done].
Qed.

(** Linking a block changes only the block. *)
Lemma link_block_spec start n next fuel s :
  n < fuel → (0 <= start)%Z →
  wp (link_block fuel start ps (start + Z.of_nat n * ps) next)
     (λ _ s', fs_alloc s' = fs_alloc s ∧ linked (fs_store s') (pages ps start n) next ∧
        ∀ x, x ∉ pages ps start n → fs_store s' !! x = fs_store s !! x) s.
Proof.
  revert fuel next s. induction n as [|n IH]; intros [|fuel] next s Hfuel Hst; [lia| |lia|]; cbn [link_block].
  { rewrite (proj2 (Z.ltb_ge _ _)) by lia. by apply wp_ret. }
  rewrite (proj2 (Z.ltb_lt _ _)) by nia. apply wp_bind.
  eapply (wp_expect _ _ _ _ (start + Z.of_nat n * ps)%Z).
  { unfold u64_checked_sub. rewrite (proj2 (Z.leb_le _ _)) by nia. f_equal. lia. }
  apply wp_bind, wp_modify. set (y := (start + Z.of_nat n * ps)%Z).
  eapply wp_mono; [apply IH; [lia|done]|]. cbn [fs_alloc fs_store]. intros _ s' (Ha & Hl & Ho).
  assert (y ∉ pages ps start n) as Hy.
  { intros (i & Hi & E)%elem_of_pages. unfold y in E. nia. }
  rewrite pages_S. split; [done|]. split.
  - apply linked_app. split; [done|]. split; [|done]. change (fs_store s' !! y = Some next). rewrite (Ho y Hy). by rewrite lookup_insert_eq.
  - intros x Hx. rewrite not_elem_of_app, not_elem_of_cons in Hx.
    destruct Hx as (Hx1 & Hx2 & _). rewrite Ho by done. apply lookup_insert_ne. unfold y. congruence.
Qed.

Lemma linked_ext st st' l e : (∀ x, x ∈ l → st' !! x = st !! x) → linked st l e → linked st' l e.
Proof.
  induction l as [|x l IH]; simpl; [done|]. intros He [Hx Hl]. split; [rewrite He; [done|by left]|].
  apply IH; [|done]. intros y Hy. apply He. by right.
Qed.

(** A block spliced in between [a] and [b]. *)
Lemma splice_ok s s' a b block :
  fa_ok s (a ++ b) → fs_alloc s' = fs_alloc s → block ≠ [] → Forall frame_ok block → StronglySorted Z.lt block →
  (∀ x y, x ∈ a → y ∈ block → (x < y)%Z) → (∀ x y, x ∈ block → y ∈ b → (x < y)%Z) →
  linked (fs_store s') block (hd FREE_LIST_END b) → (∀ x, x ∉ block → fs_store s' !! x = fs_store s !! x) →
  fa_ok (set_alloc (λ al, set_free (fa_free al + Z.of_nat (length block)) al)
           (match last a with
            | Some x => mkFrameState (fs_alloc s') (<[x := hd FREE_LIST_END block]> (fs_store s'))
            | None => set_alloc (set_head (head block)) s'
            end)) (a ++ block ++ b).
Proof.
  intros [H1 H2 H3 H4 H5 H6] Hal Hne Hf Hs Hab Hbb Hl Ho.
  assert (∀ x, x ∈ a → x ∉ block) as Ha by (intros x Hx Hb; specialize (Hab x x Hx Hb); lia).
  assert (∀ x, x ∈ b → x ∉ block) as Hb by (intros x Hx Hbk; specialize (Hbb x x Hbk Hx); lia).
  apply StronglySorted_app in H4 as (Hord & Hsa & Hsb). apply Forall_app in H5 as [Hfa Hfb].
  pose proof H3 as [La Lb]%linked_app.
  assert (StronglySorted Z.lt (a ++ block ++ b)) as Hsort.
  { apply StronglySorted_app. split_and!; [|done|by apply StronglySorted_app].
    intros x y Hx [Hy|Hy]%elem_of_app; [by apply Hab|by apply Hord]. }
  assert (Forall frame_ok (a ++ block ++ b)) as Hfr by (by rewrite !Forall_app).
  assert (fa_free (fs_alloc s') + Z.of_nat (length block) = Z.of_nat (length (a ++ block ++ b)))%Z as Hlen.
  { rewrite Hal, H6, !length_app. lia. }
  assert (hd FREE_LIST_END (block ++ b) = hd FREE_LIST_END block) as Hhd by (by destruct block).
  destruct (last a) as [x|] eqn:Hla.
  - apply last_Some in Hla as [a' ->]. split; simpl; [by rewrite Hal| |  |done|done|done].
    + rewrite Hal, H2. by destruct a'.
    + pose proof (sorted_nodup _ Hsa) as Hnd. apply NoDup_app in Hnd as (_ & Hnd & _).
      assert (x ∈ a' ++ [x]) as Hxa by (apply elem_of_app; right; by left).
      apply linked_app. rewrite Hhd. split; [|apply linked_app; split].
      * eapply linked_retarget; [intros Hx'; apply (Hnd x Hx'); by left|].
        eapply linked_ext; [|exact La]. intros y Hy. by apply Ho, Ha.
      * apply linked_other; [by apply Ha|done].
      * apply linked_other; [intros Hx'; specialize (Hord x x Hxa Hx'); lia|].
        eapply linked_ext; [|exact Lb]. intros y Hy. by apply Ho, Hb.
  - apply last_None in Hla as ->. split; simpl; [by rewrite Hal| | |done|done|done].
    + by destruct block.
    + apply linked_app. split; [done|]. eapply linked_ext; [|exact Lb]. intros y Hy. by apply Ho, Hb.
Qed.

(** The addresses a block of pages spans. *)
Lemma page_in_block start n x : x ∈ pages ps start n → (start <= x)%Z ∧ (x + ps <= start + Z.of_nat n * ps)%Z.
Proof. intros (i & Hi & ->)%elem_of_pages. nia. Qed.

Lemma pages_ok start n :
  (0 <= start)%Z → (start mod ps = 0)%Z → (start + Z.of_nat n * ps <= u64_max)%Z → Forall frame_ok (pages ps start n).
Proof.
  intros H0 Hm Hb. apply Forall_forall. intros x Hx. pose proof (page_in_block _ _ _ Hx).
  apply elem_of_pages in Hx as (i & _ & ->). split_and!; [nia| |lia]. by rewrite Z.mod_add by lia.
Qed.

(** A block that may be freed: aligned, inside the address space, and none of
    its pages free. *)
Record freeable (start : Z) (n : nat) (l : list Z) : Prop := {
  fr_some : 0 < n;
  fr_start : (0 <= start)%Z;
  fr_aligned : (start mod ps = 0)%Z;
  fr_end : (start + Z.of_nat n * ps <= u64_max)%Z;
  fr_taken : ∀ f, f ∈ l → f ∉ pages ps start n
}.

(** A free frame lies below or above a block of aligned frames it is not in. *)
Lemma outside_block start n l f :
  freeable start n l → Forall frame_ok l → f ∈ l → (f < start)%Z ∨ (start + Z.of_nat n * ps <= f)%Z.
Proof.
  intros [H1 H2 H3 H4 H5] Hf Hin. rewrite Forall_forall in Hf. destruct (Hf f Hin) as (F1 & F2 & _).
  destruct (Z.lt_ge_cases f start) as [|Hge]; [by left|right].
  destruct (Z.lt_ge_cases f (start + Z.of_nat n * ps)) as [Hlt|]; [|done]. exfalso. apply (H5 f Hin).
  apply Z.mod_divide in F2 as [a ->]; [|lia]. apply Z.mod_divide in H3 as [b ->]; [|lia].
  apply elem_of_pages. exists (Z.to_nat (a - b)). assert (b <= a)%Z by nia. assert (a - b < Z.of_nat n)%Z by nia.
  split; [lia|]. rewrite Z2Nat.id by lia. lia.
Qed.

Theorem free_contiguous_spec start n s l :
  fa_ok s l → freeable start n l →
  wp (free_contiguous (mkRange start (start + Z.of_nat n * ps)) ps)
     (λ _ s', (∃ a b, l = a ++ b ∧ fa_ok s' (a ++ pages ps start n ++ b)) ∧
        ∀ x, x ∉ l → x ∉ pages ps start n → fs_store s' !! x = fs_store s !! x) s.
Proof.
  intros Hok Hfr. pose proof (λ f, outside_block start n l f Hfr (ok_frames _ _ Hok)) as Hout.
  destruct Hfr as [H1 H2 H3 H4 H5].
  unfold free_contiguous. cbn [r_start r_end]. rewrite (proj2 (Z.leb_gt _ _)) by nia.
  assert ((start + Z.of_nat n * ps - start) / ps = Z.of_nat n)%Z as Hcount.
  { replace (start + Z.of_nat n * ps - start)%Z with (Z.of_nat n * ps)%Z by lia. apply Z.div_mul. lia. }
  rewrite Hcount. apply wp_bind, wp_assert; [by rewrite H3|].
  apply wp_bind, wp_assert; [by rewrite Z.mod_add, H3 by lia|]. apply wp_bind, wp_assert; [apply Z.ltb_lt; lia|].
  apply wp_bind, wp_gets. apply wp_bind, wp_gets. rewrite (ok_head _ _ Hok), (ok_free _ _ Hok), Nat2Z.id.
  apply wp_bind. eapply wp_mono; [apply (find_place_spec start l []); [apply Hok|apply Hok|lia|done]|].
  intros [prev cur] s' (-> & a & b & -> & Ha & Hb & -> & ->). cbn [app].
  assert (∀ y, y ∈ b → (start + Z.of_nat n * ps <= y)%Z) as Hb'.
  { intros y Hy. destruct (Hout y) as [Hlt|]; [apply elem_of_app; by right| |done]. exfalso.
    destruct b as [|b0 b]; [by apply elem_of_nil in Hy|]. specialize (Hb b0 eq_refl).
    apply ok_sorted, StronglySorted_app in Hok as (_ & _ & [_ Hs]%StronglySorted_inv). rewrite Forall_forall in Hs.
    apply elem_of_cons in Hy as [->|Hy]; [lia|]. specialize (Hs y Hy). lia. }
  apply wp_bind, wp_assert.
  { destruct (last a) as [x|] eqn:Hx; [|done]. apply last_Some in Hx as [a' ->].
    apply Forall_app in Ha as [_ [Ha _]%Forall_cons]. by apply Z.ltb_lt. }
  apply wp_bind, wp_assert.
  { destruct b as [|b0 b]; [done|]. apply Z.leb_le, Hb'. by left. }
  apply wp_bind. eapply wp_mono; [apply link_block_spec; [|done]|].
  { unfold down_fuel. rewrite Hcount. lia. }
  intros _ s1 (Hal & Hl & Ho). rewrite hd_default in Hl.
  assert (pages ps start n ≠ []) as Hne by (intros E; apply (f_equal length) in E; rewrite pages_length in E; simpl in E; lia).
  assert (∀ x y, x ∈ a → y ∈ pages ps start n → (x < y)%Z) as O1.
  { intros x y Hx Hy%page_in_block. rewrite Forall_forall in Ha. specialize (Ha x Hx). simpl in Ha. lia. }
  assert (∀ x y, x ∈ pages ps start n → y ∈ b → (x < y)%Z) as O2 by (intros x y Hx%page_in_block Hy%Hb'; lia).
  pose proof (splice_ok s s1 a b (pages ps start n) Hok Hal Hne (pages_ok _ _ H2 H3 H4) (pages_sorted _ _ _ Hps)
                O1 O2 Hl Ho) as Hres.
  rewrite pages_length, hd_pages in Hres by lia.
  assert (head (pages ps start n) = Some start) as Hh by (destruct n; [lia|unfold pages; simpl; f_equal; lia]).
  rewrite Hh in Hres. apply wp_bind. destruct (last a) as [y|] eqn:Hy; apply wp_modify, wp_modify; (split; [by exists a, b|]).
  - apply last_Some in Hy as [a' ->]. intros x Hx Hxp. rewrite <-(Ho x Hxp). apply lookup_insert_ne. intros ->.
    apply Hx. rewrite !elem_of_app. left. right. by left.
  - intros x _. apply Ho.
Qed.

Theorem free_frame_spec f s l :
  fa_ok s l → frame_ok f → f ∉ l → 
  wp (free_frame f) (λ _ s', (∃ a b, l = a ++ b ∧ fa_ok s' (a ++ f :: b)) ∧
    ∀ x, x ∉ f :: l → fs_store s' !! x = fs_store s !! x) s.
Proof.
  intros Hok (F1 & F2 & F3) Hni. unfold free_frame. apply wp_bind, wp_gets. rewrite (ok_page_size _ _ Hok).
  apply wp_bind, wp_assert; [by destruct (Z.eqb_spec ps 0); [lia|]|].
  apply wp_bind. eapply wp_expect; [unfold u64_checked_add; by rewrite (proj2 (Z.leb_le _ _))|].
  assert (pages ps f 1 = [f]) as Hp by (unfold pages; simpl; f_equal; lia).
  replace (f + ps)%Z with (f + Z.of_nat 1 * ps)%Z by lia.
  eapply wp_mono; [apply free_contiguous_spec; [done|]|].
  - split; [lia|done|done|lia|]. rewrite Hp. intros g Hg Hgf%list_elem_of_singleton. by subst g.
  - intros u s' [(a & b & -> & H) Ho]. rewrite Hp in H, Ho. split; [by exists a, b|].
    intros x [Hx1 Hx2]%not_elem_of_cons. apply Ho; [done|]. by intros ?%list_elem_of_singleton.
Qed.

(** ** Building the list at boot *)

(** The frame goes in between [a] and [b]. *)
Lemma insert_between frame s a b :
  fa_ok s (a ++ b) → frame_ok frame → (∀ x, x ∈ a → (x < frame)%Z) → (∀ x, x ∈ b → (frame < x)%Z) →
  fa_ok (set_alloc (λ al, set_free (fa_free al + 1) al)
           (let st := <[frame := hd FREE_LIST_END b]> (fs_store s) in
            match last a with
            | Some x => mkFrameState (fs_alloc s) (<[x := frame]> st)
            | None => set_alloc (set_head (Some frame)) (mkFrameState (fs_alloc s) st)
            end)) (a ++ frame :: b).
Proof.
  intros Hok Hf Ha Hb.
  refine (splice_ok s (mkFrameState (fs_alloc s) (<[frame := hd FREE_LIST_END b]> (fs_store s))) a b [frame]
            Hok eq_refl _ _ _ _ _ _ _); cbn [fs_store].
  - done.
  - by constructor.
  - by repeat constructor.
  - intros x y Hx ->%list_elem_of_singleton. by apply Ha.
  - intros x y ->%list_elem_of_singleton Hy. by apply Hb.
  - split; [|done]. by rewrite lookup_insert_eq.
  - intros x Hx. apply lookup_insert_ne. intros ->. apply Hx. by left.
Qed.

(** What insertion does to the list. *)
Definition inserted (frame : Z) (l l' : list Z) : Prop := ∃ a b, l = a ++ b ∧ l' = a ++ frame :: b.

Lemma inserted_elem frame l l' x : inserted frame l l' → x ∈ l' ↔ x ∈ l ∨ x = frame.
Proof. intros (a & b & -> & ->). rewrite !elem_of_app, elem_of_cons. tauto. Qed.

Lemma above_head x l : StronglySorted Z.lt (x :: l) → ∀ y, y ∈ x :: l → (x <= y)%Z.
Proof.
  intros [_ Hs]%StronglySorted_inv y [->|Hy]%elem_of_cons; [done|]. rewrite Forall_forall in Hs.
  specialize (Hs y Hy). lia.
Qed.

Lemma insert_after_spec frame q p prev fuel s :
  fa_ok s (p ++ prev :: q) → frame_ok frame → frame ∉ q → (∀ x, x ∈ p ++ [prev] → (x < frame)%Z) → length q < fuel →
  wp (insert_after fuel frame prev) (λ _ s', ∃ l', inserted frame (p ++ prev :: q) l' ∧ fa_ok s' l') s.
Proof.
  revert p prev fuel. induction q as [|x q IH]; intros p prev [|fuel] Hok Hf Hni Hlt Hfuel; [lia| |lia|]; cbn [insert_after];
    pose proof (ok_linked _ _ Hok) as [_ [Hx _]]%linked_app; pose proof (ok_frames _ _ Hok) as [_ [_ Hfq]%Forall_cons]%Forall_app;
    pose proof (ok_sorted _ _ Hok) as (_ & _ & [Hs _]%StronglySorted_inv)%StronglySorted_app;
    rewrite cons_middle, app_assoc in Hok |- *;
    (apply wp_bind; eapply wp_read; [exact Hx|]); cbv zeta; rewrite as_link_hd by done; cbn [head].
  { apply wp_bind, wp_modify, wp_bind, wp_modify, wp_modify. exists ((p ++ [prev]) ++ [frame]).
    split; [by exists (p ++ [prev]), []|]. pose proof (insert_between frame s (p ++ [prev]) [] Hok Hf Hlt) as H.
    rewrite last_snoc in H. apply H. by intros y ?%elem_of_nil. }
  apply not_elem_of_cons in Hni as [Hne Hni]. destruct (Z.ltb_spec frame x) as [Hfx|Hfx].
  { apply wp_bind, wp_modify, wp_bind, wp_modify, wp_modify. exists ((p ++ [prev]) ++ frame :: x :: q).
    split; [by exists (p ++ [prev]), (x :: q)|]. pose proof (insert_between frame s (p ++ [prev]) (x :: q) Hok Hf Hlt) as H.
    rewrite last_snoc in H. apply H. intros y Hy%(above_head _ _ Hs). lia. }
  apply wp_bind. eapply wp_expect; [done|]. apply (IH (p ++ [prev]) x); [done|done|done| |simpl in Hfuel; lia].
  intros y [Hy| ->%list_elem_of_singleton]%elem_of_app; [by apply Hlt|lia].
Qed.

Lemma insert_frame_spec frame s l :
  fa_ok s l → frame_ok frame → frame ∉ l →
  wp (insert_frame_sorted frame) (λ _ s', ∃ l', inserted frame l l' ∧ fa_ok s' l') s.
Proof.
  intros Hok Hf Hni. unfold insert_frame_sorted. apply wp_bind, wp_gets. rewrite (ok_head _ _ Hok).
  destruct l as [|x l]; cbn [head].
  { apply wp_bind, wp_modify, wp_modify. exists [frame]. split; [by exists [], []|].
    apply (insert_between frame s [] [] Hok Hf); by intros y ?%elem_of_nil. }
  apply not_elem_of_cons in Hni as [Hne Hni]. destruct (Z.ltb_spec frame x) as [Hfx|Hfx].
  { apply wp_bind, wp_modify, wp_modify. exists (frame :: x :: l). split; [by exists [], (x :: l)|].
    apply (insert_between frame s [] (x :: l) Hok Hf); [by intros y ?%elem_of_nil|].
    intros y Hy%(above_head _ _ (ok_sorted _ _ Hok)). lia. }
  apply wp_bind, wp_gets. rewrite (ok_free _ _ Hok), Nat2Z.id.
  apply (insert_after_spec frame l []); [done|done|done| |simpl; lia].
  intros y ->%list_elem_of_singleton. lia.
Qed.

Lemma insert_block_spec start n fuel s l :
  n < fuel → freeable start n l ∨ n = 0 → fa_ok s l →
  wp (insert_block fuel start ps (start + Z.of_nat n * ps))
     (λ _ s', ∃ l', fa_ok s' l' ∧ ∀ x, x ∈ l' ↔ x ∈ l ∨ x ∈ pages ps start n) s.
Proof.
  revert fuel s l. induction n as [|n IH]; intros [|fuel] s l Hfuel Hfr Hok; [lia| |lia|]; cbn [insert_block].
  { rewrite (proj2 (Z.ltb_ge _ _)) by lia. apply wp_ret. exists l. split; [done|]. intros x. unfold pages. simpl.
    rewrite elem_of_nil. tauto. }
  destruct Hfr as [[F1 F2 F3 F4 F5]|]; [|done]. rewrite (proj2 (Z.ltb_lt _ _)) by nia. apply wp_bind.
  eapply (wp_expect _ _ _ _ (start + Z.of_nat n * ps)%Z).
  { unfold u64_checked_sub. rewrite (proj2 (Z.leb_le _ _)) by nia. f_equal. lia. }
  pose proof (pages_ok _ _ F2 F3 F4) as Hpo. rewrite pages_S in Hpo. apply Forall_app in Hpo as [_ [Hy _]%Forall_cons].
  apply wp_bind. eapply wp_mono; [apply insert_frame_spec; [done|done|]|].
  { intros Hin. apply (F5 _ Hin). rewrite pages_S. apply elem_of_app. right. by left. }
  intros _ s1 (l1 & Hins & Hok1). pose proof (λ x, inserted_elem _ _ _ x Hins) as He.
  eapply wp_mono; [apply (IH fuel s1 l1); [lia| |done]|].
  - destruct n; [by right|left]. split; [lia|done|done|lia|]. intros f [Hf|Hf]%He Hp.
    + apply (F5 f Hf). rewrite pages_S. apply elem_of_app. by left.
    + apply page_in_block in Hp. subst f. lia.
  - intros _ s2 (l2 & Hok2 & Hl2). exists l2. split; [done|]. intros x.
    rewrite Hl2, He, pages_S, elem_of_app, list_elem_of_singleton. tauto.
Qed.
End spec.
