(* ===== verification/MemInit.v ===== *)
(** * Memory from boot to run time

    The free list stands for the set of its frames.  Here the operations are
    related to operations on that set, boot is shown to build exactly the set
    of usable frames, and allocation is undone by freeing.

    The boot sequence of [memory::init] put together: the memory map, the free
    list, the bootstrap heap and the self-check.  The claims of the memory
    subsystem are here: what boot leaves behind, the allocator as a set of
    frames, and freeing as the inverse of allocation. *)

From stdpp Require Import gmap sorting.
From S2P Require Import Prelude Types Vm MemMap MemMapSpec FrameAlloc FrameSpec.
(** Strictly ascending lists with the same elements are equal. *)
Lemma sorted_same l1 l2 :
  StronglySorted Z.lt l1 → StronglySorted Z.lt l2 → (∀ x, x ∈ l1 ↔ x ∈ l2) → l1 = l2.
Proof.
  intros H1 H2 He. apply (StronglySorted_unique_strong Z.lt); [|done|done|].
  - intros x y _ _ ??. lia.
  - apply NoDup_Permutation; [by apply sorted_nodup..|done].
Qed.

Section frames.
Context (ps : Z).
Hypothesis Hps : (0 < ps)%Z.

(** The allocator's free frames. *)
Definition represents (s : FrameState) (X : gset Z) : Prop := ∃ l, fa_ok ps s l ∧ ∀ x, x ∈ X ↔ x ∈ l.

Definition page_set (start : Z) (n : nat) : gset Z := list_to_set (pages ps start n).

Lemma elem_of_page_set start n x : x ∈ page_set start n ↔ x ∈ pages ps start n.
Proof. apply elem_of_list_to_set. Qed.

Lemma same_frames s l l' : fa_ok ps s l' → StronglySorted Z.lt l → (∀ x, x ∈ l' ↔ x ∈ l) → fa_ok ps s l.
Proof. intros Hok Hs He. by rewrite <-(sorted_same l' l (ok_sorted _ _ _ Hok) Hs He). Qed.

(** ** Runs *)

(** Frames are a page apart. *)
Lemma next_frame l l2 x y :
  StronglySorted Z.lt l → Forall (frame_ok ps) l → (∃ l1, l = l1 ++ x :: l2) → (x + ps)%Z ∈ l → hd y l2 = (x + ps)%Z ∧ l2 ≠ [].
Proof.
  intros Hs Hf [l1 ->] Hin. apply StronglySorted_app in Hs as (Ho & _ & [Hs2 Hx]%StronglySorted_inv).
  apply elem_of_app in Hin as [Hin|[Hin|Hin]%elem_of_cons].
  - specialize (Ho _ x Hin (list_elem_of_here _ _)). lia.
  - lia.
  - destruct l2 as [|z l2]; [by apply elem_of_nil in Hin|]. split; [|done]. simpl.
    apply Forall_app in Hf as [_ [(_ & Fx & _) [(_ & Fz & _) _]%Forall_cons]%Forall_cons].
    apply Forall_cons in Hx as [Hx _]. pose proof (above_head _ _ Hs2 _ Hin) as Hz.
    apply Z.mod_divide in Fx as [a ->]; [|lia]. apply Z.mod_divide in Fz as [b ->]; [|lia].
    assert (a < b)%Z by nia. assert (b < a + 2)%Z by nia. replace b with (a + 1)%Z by lia. lia.
Qed.

(** The pages of a block are a segment of the list when they are all in it. *)
Lemma pages_segment l t n :
  StronglySorted Z.lt l → Forall (frame_ok ps) l → (∀ x, x ∈ pages ps t n → x ∈ l) → 0 < n →
  ∃ l1 l2, l = l1 ++ pages ps t n ++ l2.
Proof.
  intros Hs Hf. induction n as [|n IH]; intros Hin Hn; [lia|].
  assert (∀ x, x ∈ pages ps t n → x ∈ l) as Hin'.
  { intros x Hx. apply Hin. rewrite pages_S. apply elem_of_app. by left. }
  assert ((t + Z.of_nat n * ps)%Z ∈ l) as Hlast.
  { apply Hin. rewrite pages_S. apply elem_of_app. right. by left. }
  destruct n as [|n].
  - apply list_elem_of_split in Hlast as (l1 & l2 & ->). by exists l1, l2.
  - destruct (IH Hin' ltac:(lia)) as (l1 & l2 & E). exists l1, (tail l2). rewrite E.
    destruct (next_frame l l2 (t + Z.of_nat n * ps) 0 Hs Hf) as [Hh Hne].
    + exists (l1 ++ pages ps t n). by rewrite E, pages_S, <-!app_assoc.
    + replace (t + Z.of_nat n * ps + ps)%Z with (t + Z.of_nat (S n) * ps)%Z by lia. done.
    + destruct l2 as [|z l2]; [done|]. simpl in Hh. rewrite (pages_S _ _ (S n)), <-app_assoc. do 2 f_equal. simpl.
      f_equal. lia.
Qed.

Lemma aligned_run_set align t n s l X :
  fa_ok ps s l → (∀ x, x ∈ X ↔ x ∈ l) → 0 < n →
  aligned_run ps align t n l ↔ (t mod align = 0)%Z ∧ page_set t n ⊆ X.
Proof.
  intros Hok HX Hn. unfold aligned_run. split; intros [Ht H]; (split; [done|]).
  - destruct H as (l1 & l2 & ->). intros x Hx%elem_of_page_set. rewrite HX, !elem_of_app. auto.
  - apply pages_segment; [apply Hok|apply Hok| |done]. intros x Hx. by apply HX, H, elem_of_page_set.
Qed.

(** ** Operations on the set *)

Lemma alloc_frame_set s X :
  represents s X →
  wp alloc_frame (λ r s', match r with
    | None => X = ∅ ∧ s' = s
    | Some f => f ∈ X ∧ (∀ g, g ∈ X → (f <= g)%Z) ∧ represents s' (X ∖ {[f]})
    end) s.
Proof.
  intros (l & Hok & HX). eapply wp_mono; [by apply alloc_frame_spec|]. intros r s' H. destruct l as [|f l].
  - destruct H as [-> ->]. split; [|done]. apply set_eq. intros x. rewrite HX. set_solver.
  - destruct H as (-> & H & _). pose proof (ok_sorted _ _ _ Hok) as Hs. split_and!.
    + apply HX. by left.
    + intros g Hg%HX. by eapply above_head.
    + exists l. split; [done|]. intros x. apply sorted_nodup, NoDup_cons in Hs as [Hni _].
      rewrite elem_of_difference, HX, elem_of_cons, elem_of_singleton. split; [tauto|]. intros Hx. split; [by right|].
      by intros ->.
Qed.

Lemma alloc_run_set s X frames align :
  represents s X → 0 < frames → (ps <= align)%Z → is_power_of_two align = true →
  wp (alloc_contiguous_aligned frames ps align) (λ r s', match r with
    | None => s' = s ∧ ∀ t, (t mod align = 0)%Z → ¬ page_set t frames ⊆ X
    | Some rng => rng = mkRange (r_start rng) (r_start rng + Z.of_nat frames * ps) ∧ (r_start rng mod align = 0)%Z ∧
        page_set (r_start rng) frames ⊆ X ∧ represents s' (X ∖ page_set (r_start rng) frames) ∧
        ∀ t, (t mod align = 0)%Z → page_set t frames ⊆ X → (r_start rng <= t)%Z
    end) s.
Proof.
  intros (l & Hok & HX) Hf Ha Hal. pose proof (λ t, aligned_run_set align t frames s l X Hok HX Hf) as Hrun.
  eapply wp_mono; [by apply (alloc_contiguous_spec ps Hps align frames s l)|]. intros [rng|] s' H.
  - destruct H as (t & l1 & l2 & -> & Ht & -> & Hok' & _ & Hlow). cbn [r_start].
    assert (aligned_run ps align t frames (l1 ++ pages ps t frames ++ l2)) as Ht' by (split; [done|by exists l1, l2]).
    split_and!; [done|done|by apply Hrun| |].
    + exists (l1 ++ l2). split; [done|]. intros x. rewrite elem_of_difference, HX, elem_of_page_set, !elem_of_app.
      apply ok_sorted, sorted_nodup in Hok. apply NoDup_app in Hok as (_ & Hd1 & (_ & Hd2 & _)%NoDup_app).
      setoid_rewrite elem_of_app in Hd1. naive_solver.
    + intros t' Ht1 Ht2. apply Hlow, Hrun. done.
  - destruct H as [-> H]. split; [done|]. intros t Ht Hsub. by apply (H t), Hrun.
Qed.

Lemma freeable_set s X start n l :
  fa_ok ps s l → (∀ x, x ∈ X ↔ x ∈ l) → 0 < n → (0 <= start)%Z → (start mod ps = 0)%Z →
  (start + Z.of_nat n * ps <= u64_max)%Z → page_set start n ## X → freeable ps start n l.
Proof.
  intros _ HX H1 H2 H3 H4 Hd. split; [done..|]. intros f Hf%HX Hp%elem_of_page_set. by apply (Hd f).
Qed.

Lemma free_run_set s X start n :
  represents s X → 0 < n → (0 <= start)%Z → (start mod ps = 0)%Z → (start + Z.of_nat n * ps <= u64_max)%Z →
  page_set start n ## X →
  wp (free_contiguous (mkRange start (start + Z.of_nat n * ps)) ps)
     (λ _ s', represents s' (X ∪ page_set start n)) s.
Proof.
  intros (l & Hok & HX) H1 H2 H3 H4 Hd. eapply wp_mono.
  { apply (free_contiguous_spec ps Hps start n s l); [done|]. by apply (freeable_set s X). }
  intros _ s' [(a & b & -> & Hok') _]. exists (a ++ pages ps start n ++ b). split; [done|]. intros x.
  rewrite elem_of_union, HX, elem_of_page_set, !elem_of_app. tauto.
Qed.

(** Freeing the frame that was lowest restores the list. *)
Lemma free_lowest s f l :
  fa_ok ps s l → StronglySorted Z.lt (f :: l) → frame_ok ps f →
  wp (free_frame f) (λ _ s', fa_ok ps s' (f :: l)) s.
Proof.
  intros Hok Hs Hf. eapply wp_mono.
  { apply (free_frame_spec ps Hps f s l); [done|done|]. by apply sorted_nodup, NoDup_cons in Hs as [? _]. }
  intros _ s' [(a & b & -> & Hok') _]. eapply same_frames; [done|done|].
  intros x. rewrite !elem_of_cons, !elem_of_app, elem_of_cons. tauto.
Qed.

(** The self-check leaves the allocator as it was, or runs out of frames. *)
Lemma self_check_spec s l :
  fa_ok ps s l →
  wp run_allocator_self_check (λ r s', if decide (3 ≤ length l) then r = inl tt ∧ fa_ok ps s' l else r = inr NoUsableRam) s.
Proof.
  intros Hok. unfold run_allocator_self_check. pose proof (ok_sorted _ _ _ Hok) as Hs. pose proof (ok_frames _ _ _ Hok) as Hf.
  apply wp_bind. eapply wp_mono; [by apply alloc_frame_spec|]. intros r s1 H1. destruct l as [|x l].
  { destruct H1 as [-> _]. by apply wp_ret. }
  destruct H1 as (-> & H1 & _). apply wp_bind. eapply wp_mono; [by apply alloc_frame_spec|]. intros r s2 H2. destruct l as [|y l].
  { destruct H2 as [-> _]. by apply wp_ret. }
  destruct H2 as (-> & H2 & _). apply wp_bind. eapply wp_mono; [by apply alloc_frame_spec|]. intros r s3 H3. destruct l as [|z l].
  { destruct H3 as [-> _]. by apply wp_ret. }
  destruct H3 as (-> & H3 & _). apply Forall_cons in Hf as [Fx [Fy [Fz _]%Forall_cons]%Forall_cons].
  pose proof Hs as [Hs1 _]%StronglySorted_inv. pose proof Hs1 as [Hs2 _]%StronglySorted_inv.
  apply wp_bind. eapply wp_mono; [by apply free_lowest|]. intros [] s4 H4.
  apply wp_bind. eapply wp_mono; [by apply free_lowest|]. intros [] s5 H5.
  apply wp_bind. eapply wp_mono; [by apply free_lowest|]. intros [] s6 H6.
  apply wp_ret. rewrite decide_True by (simpl; lia). done.
Qed.

(** ** Boot *)

(** The ranges boot hands over. *)
Definition range_ok (r : AddrRange) : Prop :=
  (0 <= r_start r < r_end r)%Z ∧ (r_start r mod ps = 0)%Z ∧ (r_end r mod ps = 0)%Z ∧ (r_end r <= u64_max)%Z.

Definition frame_in (x : Z) (r : AddrRange) : Prop := in_range x r ∧ (x mod ps = 0)%Z.

Lemma range_ok_pages r :
  range_ok r → ∃ n, 0 < n ∧ r_end r = (r_start r + Z.of_nat n * ps)%Z ∧ ∀ x, x ∈ pages ps (r_start r) n ↔ frame_in x r.
Proof.
  intros ([H0 H1] & H2 & H3 & _). unfold frame_in, in_range. setoid_rewrite elem_of_pages.
  apply Z.mod_divide in H2 as [a Ha]; [|lia]. apply Z.mod_divide in H3 as [b Hb]; [|lia]. rewrite Ha, Hb in *.
  assert (a < b)%Z by nia. exists (Z.to_nat (b - a)). rewrite Z2Nat.id by lia. split_and!; [lia|lia|]. intros x. split.
  - intros (i & Hi & ->). rewrite <-Z.mul_add_distr_r, Z.mod_mul by lia. split; [nia|done].
  - intros [Hx Hm]. apply Z.mod_divide in Hm as [c ->]; [|lia]. exists (Z.to_nat (c - a)).
    assert (a <= c < b)%Z by nia. rewrite Z2Nat.id by lia. split; [lia|lia].
Qed.

Lemma sorted_reverse {A} (R : relation A) l : StronglySorted R l → StronglySorted (flip R) (reverse l).
Proof.
  induction 1 as [|x l _ IH Hx]; [constructor|]. rewrite reverse_cons. apply StronglySorted_app.
  split_and!; [|done|by repeat constructor]. intros y z Hy ->%list_elem_of_singleton.
  rewrite elem_of_reverse in Hy. rewrite Forall_forall in Hx. unfold flip. by apply Hx.
Qed.

Lemma insert_ranges_spec rs s l :
  fa_ok ps s l → Forall range_ok rs → StronglySorted (flip ends_before) rs →
  (∀ r f, r ∈ rs → f ∈ l → (r_end r <= f)%Z) →
  wp (insert_ranges rs ps) (λ _ s', ∃ l', fa_ok ps s' l' ∧ ∀ x, x ∈ l' ↔ x ∈ l ∨ ∃ r, r ∈ rs ∧ frame_in x r) s.
Proof.
  revert s l. induction rs as [|r rs IH]; intros s l Hok Hr Hs Hl; cbn [insert_ranges].
  { apply wp_ret. exists l. split; [done|]. intros x. set_solver. }
  apply Forall_cons in Hr as [Hr Hrs]. apply StronglySorted_inv in Hs as [Hs Hlow]. rewrite Forall_forall in Hlow.
  destruct (range_ok_pages r Hr) as (n & Hn & He & Hp). apply wp_bind. rewrite He at 2.
  eapply wp_mono; [apply (insert_block_spec ps Hps (r_start r) n _ s l); [| |done]|].
  - unfold down_fuel. rewrite He. replace (r_start r + Z.of_nat n * ps - r_start r)%Z with (Z.of_nat n * ps)%Z by lia.
    rewrite Z.div_mul by lia. lia.
  - left. destruct Hr as (? & ? & ? & ?). split; [done|lia|done|lia|]. intros f Hf [[??] _]%Hp.
    specialize (Hl r f (list_elem_of_here _ _) Hf). lia.
  - intros _ s1 (l1 & Hok1 & Hl1). eapply wp_mono; [apply (IH s1 l1); [done|done|done|]|].
    + intros r' f Hr' [Hf|[[Hf _] _]%Hp]%Hl1; [apply Hl; [by right|done]|].
      specialize (Hlow r' Hr'). unfold flip, ends_before in Hlow. lia.
    + intros _ s2 (l2 & Hok2 & Hl2). exists l2. split; [done|]. intros x. rewrite Hl2, Hl1, Hp.
      setoid_rewrite elem_of_cons. naive_solver.
Qed.

Theorem init_from_ranges_spec rs s :
  Forall range_ok rs → StronglySorted ends_before rs →
  wp (init_from_ranges rs ps) (λ _ s', ∃ l, fa_ok ps s' l ∧ ∀ x, x ∈ l ↔ covers rs x ∧ (x mod ps = 0)%Z) s.
Proof.
  intros Hr Hs. unfold init_from_ranges. apply wp_bind, wp_modify, wp_bind.
  eapply wp_mono; [apply (insert_ranges_spec _ _ []); [|by apply Forall_reverse|by apply sorted_reverse|]|].
  - split; simpl; [done|done|done|constructor|constructor|done].
  - by intros r f _ Hf%elem_of_nil.
  - intros _ s1 (l & [H1 H2 H3 H4 H5 H6] & Hl). apply wp_modify. exists l. split; [by split|]. intros x.
    rewrite Hl, elem_of_nil. setoid_rewrite elem_of_reverse. unfold covers, frame_in. naive_solver.
Qed.
End frames.

(** * Memory from boot to run time *)

Lemma page_size_pos : (0 < PAGE_SIZE)%Z.
Proof. done. Qed.

Lemma wp_on_frames {A} (op : F A) (Q : A → Runtime → Prop) rt :
  wp op (λ a s, Q a (set_rt_frames s rt)) (rt_frames rt) → wp (on_frames op) Q rt.
Proof. unfold wp, on_frames. by destruct (op (rt_frames rt)) as [[a s]|]. Qed.

(** A usable memory map as the allocator takes it. *)
Definition usable_map (usable : list AddrRange) : Prop :=
  Forall (range_ok PAGE_SIZE) usable ∧ StronglySorted apart usable.

Lemma usable_map_order usable : usable_map usable → StronglySorted ends_before usable.
Proof.
  intros [_ Hs]. induction Hs as [|r l _ IH Hr]; constructor; [done|]. eapply Forall_impl; [exact Hr|].
  unfold apart, ends_before. intros. lia.
Qed.

(** The allocator after boot: the usable frames without the heap's. *)
Record booted_memory (usable : list AddrRange) (heap : AddrRange) (rt : Runtime) : Prop := {
  bm_initialized : rt_initialized rt = true;
  bm_heap : ∃ t, heap = mkRange t (t + KERNEL_HEAP_BOOTSTRAP_SIZE) ∧ page_aligned t ∧ ∀ a, in_range a heap → covers usable a;
  bm_free : ∃ l, fa_ok PAGE_SIZE (rt_frames rt) l ∧
      ∀ x, x ∈ l ↔ covers usable x ∧ page_aligned x ∧ ¬ in_range x heap
}.

Lemma heap_size : (Z.of_nat heap_frames * PAGE_SIZE = KERNEL_HEAP_BOOTSTRAP_SIZE)%Z.
Proof. reflexivity. Qed.

(** Every address of a run of free frames is usable. *)
Lemma run_usable usable t n (l : list Z) a :
  usable_map usable → (∀ x, x ∈ l → covers usable x ∧ page_aligned x) → (∀ x, x ∈ pages PAGE_SIZE t n → x ∈ l) →
  (t <= a < t + Z.of_nat n * PAGE_SIZE)%Z → covers usable a.
Proof.
  intros [Hr _] Hl Hp Ha. set (i := ((a - t) / PAGE_SIZE)%Z).
  assert (PAGE_SIZE * i <= a - t < PAGE_SIZE * i + PAGE_SIZE)%Z as Hi.
  { pose proof (Z.div_mod (a - t) PAGE_SIZE ltac:(done)). pose proof (Z.mod_pos_bound (a - t) PAGE_SIZE page_size_pos).
    unfold i. lia. }
  assert ((t + i * PAGE_SIZE)%Z ∈ l) as Hin.
  { apply Hp, elem_of_pages. exists (Z.to_nat i). assert (0 <= i < Z.of_nat n)%Z by (unfold PAGE_SIZE in *; lia).
    rewrite Z2Nat.id by lia. split; [lia|done]. }
  apply Hl in Hin as [(r & Hr' & Hin) Hpa]. exists r. split; [done|].
  rewrite Forall_forall in Hr. destruct (Hr r Hr') as (_ & _ & He & _).
  unfold in_range, page_aligned, PAGE_SIZE in *. apply Z.mod_divide in He as [e He]; [|done].
  apply Z.mod_divide in Hpa as [b Hb]; [|done]. lia.
Qed.

Lemma init_frames_spec usable rt :
  usable_map usable →
  wp (init_frames usable)
     (λ r rt', rt_metadata rt' = rt_metadata rt ∧ rt_heap rt' = rt_heap rt ∧
        match r with
        | inl heap => booted_memory usable heap rt'
        | inr e => e = NoBootstrapHeapRange ∨ e = NoUsableRam
        end) rt.
Proof.
  intros Hu. unfold init_frames. apply wp_bind. unfold runtime_reset. apply wp_bind, wp_modify, wp_on_frames, wp_modify.
  apply wp_bind, wp_on_frames. cbn [rt_frames set_rt_frames].
  eapply wp_mono; [apply (init_from_ranges_spec _ page_size_pos); [apply Hu|by apply usable_map_order]|].
  intros _ s1 (l & Hok & Hl). apply wp_bind, wp_on_frames. cbn [rt_frames set_rt_frames]. unfold alloc_contiguous.
  eapply wp_mono; [apply (alloc_contiguous_spec PAGE_SIZE page_size_pos PAGE_SIZE heap_frames _ l); [done| |done|done]|].
  { pose proof heap_size as Hsz. unfold KERNEL_HEAP_BOOTSTRAP_SIZE, PAGE_SIZE in Hsz. lia. }
  intros [heap|] s2 H2; [|apply wp_ret; by auto].
  destruct H2 as (t & l1 & l2 & -> & Ht & -> & Hok2 & _). rewrite heap_size.
  apply wp_try, wp_on_frames. cbn [rt_frames set_rt_frames].
  eapply wp_mono; [by apply (self_check_spec PAGE_SIZE page_size_pos)|]. intros r s3 H3.
  destruct (decide _); [destruct H3 as [-> H3]|subst r; apply wp_ret; by auto].
  apply wp_bind, wp_modify, wp_ret. split_and!; [done|done|]. split; [done| |].
  - exists t. split_and!; [done|done|]. intros a Ha. eapply (run_usable usable t heap_frames); [done|by intros x ?%Hl| |].
    + intros x Hx. rewrite !elem_of_app. auto.
    + rewrite heap_size. done.
  - exists (l1 ++ l2). split; [done|]. intros x.
    pose proof (sorted_nodup _ (ok_sorted _ _ _ Hok)) as Hnd. specialize (Hl x). rewrite !elem_of_app in Hl.
    assert (page_aligned x → in_range x (mkRange t (t + KERNEL_HEAP_BOOTSTRAP_SIZE)) ↔ x ∈ pages PAGE_SIZE t heap_frames) as Hin.
    { intros Hx. rewrite <-heap_size, elem_of_pages. unfold in_range, page_aligned, PAGE_SIZE in *. simpl.
      apply Z.mod_divide in Hx as [c ->]; [|done]. apply Z.mod_divide in Ht as [b ->]; [|done]. split.
      - intros ?. exists (Z.to_nat (c - b)). lia.
      - intros (i & Hi & E). lia. }
    apply NoDup_app in Hnd as (_ & Hd1 & (_ & Hd2 & _)%NoDup_app). specialize (Hd1 x). specialize (Hd2 x).
    rewrite elem_of_app in *. unfold page_aligned in *. tauto.
Qed.

(** ** The whole boot sequence *)

Lemma smoke_tests_pass : run_heap_smoke_tests = inl tt.
Proof. vm_compute. reflexivity. Qed.

Lemma land_page a : (0 <= a)%Z → Z.land a (PAGE_SIZE - 1) = (a mod PAGE_SIZE)%Z.
Proof. intros Ha. change (PAGE_SIZE - 1)%Z with (Z.ones 12). by rewrite Z.land_ones. Qed.

Lemma hva_aligned t : page_aligned t → Z.land (phys_to_hva t) (PAGE_SIZE - 1) = 0%Z.
Proof.
  intros Ht. unfold phys_to_hva, u64_wrapping_add. rewrite land_page by (apply Z.mod_pos_bound; done).
  change (u64_max + 1)%Z with (PAGE_SIZE * 2 ^ 52)%Z. rewrite Z.rem_mul_r by done.
  rewrite Z.mul_comm, Z.mod_add by done. rewrite Z.mod_mod by done.
  change KERNEL_HVA_OFFSET with (KERNEL_HVA_OFFSET / PAGE_SIZE * PAGE_SIZE)%Z. by rewrite Z.mod_add by done.
Qed.

(** The heap range passes the checks of [init_heap]. *)
Lemma init_heap_ok t rt :
  page_aligned t → rt_heap rt = None →
  init_heap (phys_to_hva t) KERNEL_HEAP_BOOTSTRAP_SIZE rt
  = Done (inl tt, set_rt_heap (Some (phys_to_hva t, KERNEL_HEAP_BOOTSTRAP_SIZE)) rt).
Proof.
  intros Ht Hh. unfold init_heap. rewrite hva_aligned by done.
  change (Z.land KERNEL_HEAP_BOOTSTRAP_SIZE (PAGE_SIZE - 1)) with 0%Z. simpl. unfold mbind, M_bind, gets. by rewrite Hh.
Qed.

(** The frames boot found are as the allocator wants them. *)
Lemma frames_usable_map regions frames :
  Forall (λ g, 0 <= mr_start g)%Z regions → frame_list frames →
  (∀ r, r ∈ regions_of KindUsable regions → (r_end r <= u64_max)%Z) →
  (∀ a, covers frames a → covers (regions_of KindUsable regions) a) → usable_map frames.
Proof.
  intros Hpos [Hf Hs] Hend Hc. split; [|done]. rewrite Forall_forall in Hf |- *. intros r Hr.
  destruct (Hf r Hr) as (F1 & F2 & F3).
  assert (∀ a, in_range a r → (0 <= a < u64_max)%Z) as Hin.
  { intros a Ha. destruct (Hc a ltac:(by exists r)) as (g & Hg & Hga). specialize (Hend g Hg).
    apply list_elem_of_omap in Hg as (x & Hx & E). unfold region_range in E. destruct (decide _); [|done].
    injection E as <-. rewrite Forall_forall in Hpos. specialize (Hpos x Hx). unfold in_range in Hga. simpl in *. lia. }
  pose proof (Hin (r_start r) ltac:(unfold in_range; lia)). pose proof (Hin (r_end r - 1)%Z ltac:(unfold in_range; lia)).
  unfold range_ok. split_and!; [lia|lia|done|done|lia].
Qed.

(** The memory a successful boot leaves, in terms of the firmware's map. *)
Record memory_ready (regions : list MemoryRegion) (k : KernelRanges) (rt : Runtime) (md : MemoryMetadata)
    (heap : AddrRange) (l : list Z) : Prop := {
  ry_initialized : rt_initialized rt = true;
  ry_heap_range : md_heap_range md = Some heap ∧ rt_heap rt = Some (phys_to_hva (r_start heap), KERNEL_HEAP_BOOTSTRAP_SIZE);
  ry_heap_size : page_aligned (r_start heap) ∧ r_end heap = (r_start heap + KERNEL_HEAP_BOOTSTRAP_SIZE)%Z;
  ry_heap_usable : ∀ a, in_range a heap → covers (regions_of KindUsable regions) a ∧ ¬ reserved_by regions k a;
  ry_free : fa_ok PAGE_SIZE (rt_frames rt) l;
  ry_ranges : usable_map (md_usable_ranges md) ∧ ∀ f, f ∈ l → covers (md_usable_ranges md) f;
  ry_sound : ∀ f a, f ∈ l → on_page f a →
    covers (regions_of KindUsable regions) a ∧ ¬ reserved_by regions k a ∧ ¬ in_range f heap;
  ry_complete : disjoint_ranges (regions_of KindUsable regions) → ∀ ram f, ram ∈ regions_of KindUsable regions →
    page_aligned f → (r_start ram <= f)%Z → (f + PAGE_SIZE <= r_end ram)%Z →
    (∀ a, on_page f a → ¬ reserved_by regions k a) → ¬ in_range f heap → f ∈ l
}.

Lemma memory_ready_of_boot regions k frames phys heap rt :
  usable_map frames →
  (∀ a, covers frames a → covers (regions_of KindUsable regions) a ∧ ¬ reserved_by regions k a) →
  (disjoint_ranges (regions_of KindUsable regions) → ∀ ram p, ram ∈ regions_of KindUsable regions →
       page_aligned p → (r_start ram <= p)%Z → (p + PAGE_SIZE <= r_end ram)%Z →
       (∀ a, on_page p a → ¬ reserved_by regions k a) → ∀ a, on_page p a → covers frames a) →
  booted_memory frames heap rt → rt_heap rt = Some (phys_to_hva (r_start heap), KERNEL_HEAP_BOOTSTRAP_SIZE) →
  ∃ l, memory_ready regions k rt (mkMetadata phys frames (Some heap)) heap l.
Proof.
  intros Hu Hsound Hcompl [B1 (t & -> & Ht & Hh) (l & Hok & Hl)] Hrh. exists l. split; try done.
  - intros a Ha. by apply Hsound, Hh.
  - split; [done|]. by intros f (? & _)%Hl.
  - intros f a Hf Hon. assert (covers frames a) as Ha.
    { eapply (run_usable frames f 1 l); [done|intros x (?&?&?)%Hl; done| |unfold on_page in Hon; lia].
      unfold pages. simpl. rewrite Z.add_0_r. by intros x ->%list_elem_of_singleton. }
    destruct (Hsound a Ha). apply Hl in Hf as (_ & _ & ?). done.
  - intros Hd ram f H1 H2 H3 H4 H5 H6. apply Hl. split_and!; [|done|done].
    apply (Hcompl Hd ram f H1 H2 H3 H4 H5). unfold on_page, PAGE_SIZE. lia.
Qed.

(** C6: booting the memory subsystem never panics.  When it succeeds, the
    heap is 16 MiB of page-aligned usable memory; the free frames are exactly
    the frames of usable memory outside it: every address of a free frame lies
    in a usable region of the firmware's map and in nothing reserved (firmware
    regions, kernel image, boot stack, device tree, initramfs), no free frame
    is part of the heap, and, when the usable regions do not overlap, every
    page of usable memory that touches nothing reserved and is not part of the
    heap is free.  The published usable ranges are page aligned with gaps
    between them.  When it fails, no metadata is published. *)
Theorem memory_init_exact regions k rt :
  Forall (λ g, 0 <= mr_start g)%Z regions → rt_heap rt = None → rt_metadata rt = None →
  ∃ r rt', memory_init regions k rt = Done (r, rt') ∧
    match r with
    | inl _ => ∃ md heap l, rt_metadata rt' = Some md ∧ memory_ready regions k rt' md heap l
    | inr _ => rt_metadata rt' = None
    end.
Proof.
  intros Hpos Hheap Hmd. apply wp_run. unfold memory_init.
  destruct (init_map_spec regions k) as (m & Hm & Hspec). apply wp_bind. eapply wp_reads; [exact Hm|].
  destruct m as [[phys frames]|e]; [|by apply wp_ret].
  destruct (Hspec phys frames eq_refl) as (S1 & S2 & S3 & S4).
  destruct (decide _) as [|Hne]; [by apply wp_ret|].
  assert (usable_map (bf_items frames)) as Hu by (eapply frames_usable_map; [done..|by intros a [? _]%S3]).
  apply wp_try. eapply wp_mono; [by apply init_frames_spec|].
  intros r rt1 (M1 & M2 & Hr). rewrite Hmd in M1. rewrite Hheap in M2. destruct r as [heap|e]; [|by apply wp_ret].
  pose proof (bm_heap _ _ _ Hr) as (t & E & Ht & _). rewrite E at 1 2 3. cbn [r_start r_end].
  replace (t + KERNEL_HEAP_BOOTSTRAP_SIZE - t)%Z with KERNEL_HEAP_BOOTSTRAP_SIZE by lia.
  apply wp_bind. apply wp_done. eexists _, _. split; [by apply init_heap_ok|]. rewrite smoke_tests_pass.
  apply wp_bind, wp_gets. cbn [rt_metadata set_rt_heap]. rewrite M1. apply wp_bind, wp_assert; [done|].
  apply wp_bind, wp_modify, wp_ret.
  set (rt2 := set_rt_metadata _ _).
  destruct (memory_ready_of_boot regions k (bf_items frames) (bf_items phys) heap rt2) as [l Hl]; [done|done|done| | |].
  - destruct Hr as [R1 R2 R3]. split; [done|exact R2|exact R3].
  - unfold rt2. rewrite E. done.
  - exists (mkMetadata (bf_items phys) (bf_items frames) (Some heap)), heap, l. split; [done|exact Hl].
Qed.

(** A 32 MiB board: kernel, stack, device tree and initramfs at its start. *)
Definition board_regions : list MemoryRegion :=
  [mkMemoryRegion 0x40000000 0x2000000 KindUsable; mkMemoryRegion 0x41f00000 0x1000 KindReserved].
Definition board_ranges : KernelRanges :=
  mkKernelRanges (mkRange 0x40080000 0x40100000) (mkRange 0x40100000 0x40110800) 0x40200000 0x2345
                 (mkRange 0x40300000 0x40400000).
Definition runtime_new : Runtime := mkRuntime false (mkFrameState allocator_new ∅) None None.

(** Boot succeeds and leaves [n] free frames. *)
Definition boots_with (n : Z) (o : outcome ((unit + MemoryError) * Runtime)) : bool :=
  match o with
  | Done (inl _, rt) => (fa_free (fs_alloc (rt_frames rt)) =? n)%Z
  | _ => false
  end.

Lemma memory_init_exact_witness :
  (∃ r rt', memory_init board_regions board_ranges runtime_new = Done (r, rt') ∧
    match r with
    | inl _ => ∃ md heap l, rt_metadata rt' = Some md ∧ memory_ready board_regions board_ranges rt' md heap l
    | inr _ => rt_metadata rt' = None
    end) ∧
  boots_with 3691 (memory_init board_regions board_ranges runtime_new) = true.
Proof.
  split.
  - apply memory_init_exact; [|reflexivity|reflexivity]. repeat constructor; vm_compute; discriminate.
  - vm_compute. reflexivity.
Defined.

(** ** The allocator's contract *)

(** C20: the free list refines a set of free frames.  Allocating a frame
    returns the lowest free one and removes it, and fails only when there is
    none; allocating a run returns the lowest aligned run of free frames and
    removes it, and fails only when no such run exists; freeing a run of frames
    that are not free adds exactly its frames.  None of them panics. *)
Theorem frame_allocator_refines_set ps s X :
  (0 < ps)%Z → represents ps s X →
  (∃ r s', alloc_frame s = Done (r, s') ∧
     match r with
     | None => X = ∅ ∧ s' = s
     | Some f => f ∈ X ∧ (∀ g, g ∈ X → (f <= g)%Z) ∧ represents ps s' (X ∖ {[f]})
     end) ∧
  (∀ frames align, 0 < frames → (ps <= align)%Z → is_power_of_two align = true →
     ∃ r s', alloc_contiguous_aligned frames ps align s = Done (r, s') ∧
       match r with
       | None => s' = s ∧ ∀ t, (t mod align = 0)%Z → ¬ page_set ps t frames ⊆ X
       | Some rng => rng = mkRange (r_start rng) (r_start rng + Z.of_nat frames * ps) ∧ (r_start rng mod align = 0)%Z ∧
           page_set ps (r_start rng) frames ⊆ X ∧ represents ps s' (X ∖ page_set ps (r_start rng) frames) ∧
           ∀ t, (t mod align = 0)%Z → page_set ps t frames ⊆ X → (r_start rng <= t)%Z
       end) ∧
  (∀ start n, 0 < n → (0 <= start)%Z → (start mod ps = 0)%Z → (start + Z.of_nat n * ps <= u64_max)%Z →
     page_set ps start n ## X →
     ∃ s', free_contiguous (mkRange start (start + Z.of_nat n * ps)) ps s = Done (tt, s') ∧
           represents ps s' (X ∪ page_set ps start n)).
Proof.
  intros Hps Hrep. split_and!.
  - by apply wp_run, alloc_frame_set.
  - intros frames align H1 H2 H3. by apply wp_run, alloc_run_set.
  - intros start n H1 H2 H3 H4 H5. destruct (wp_run _ _ _ (free_run_set ps Hps s X start n Hrep H1 H2 H3 H4 H5)) as ([] & s' & H).
    by exists s'.
Qed.

(** Three free frames, the first two adjacent. *)
Definition three_frames : FrameState :=
  mkFrameState (mkFrameAllocator (Some 4096%Z) PAGE_SIZE 3 3)
    (<[4096%Z := 8192%Z]> (<[8192%Z := 16384%Z]> (<[16384%Z := FREE_LIST_END]> ∅))).

Lemma three_frames_ok : fa_ok PAGE_SIZE three_frames [4096; 8192; 16384]%Z.
Proof. split; [done|done|vm_compute; auto|repeat constructor|repeat constructor; vm_compute; congruence|done]. Qed.

Lemma frame_allocator_refines_set_witness :
  ∃ s', free_contiguous (mkRange 12288 16384) PAGE_SIZE three_frames = Done (tt, s') ∧
        represents PAGE_SIZE s' ({[4096; 8192; 16384]}%Z ∪ page_set PAGE_SIZE 12288 1).
Proof.
  apply (frame_allocator_refines_set PAGE_SIZE three_frames {[4096; 8192; 16384]}%Z page_size_pos) with (n := 1);
    [|lia|lia|reflexivity|vm_compute; discriminate|].
  - exists [4096; 8192; 16384]%Z. split; [apply three_frames_ok|]. set_solver.
  - intros x (i & Hi & ->)%elem_of_page_set%elem_of_pages. rewrite !elem_of_union, !elem_of_singleton. unfold PAGE_SIZE. lia.
Defined.

(** Freeing undoes allocation: after a successful allocation of a run,
    freeing the returned range does not panic and restores the free list to
    exactly what it was, with the same frame count. *)
Theorem alloc_free_roundtrip ps s l frames align rng s1 :
  (0 < ps)%Z → fa_ok ps s l → 0 < frames → (ps <= align)%Z → is_power_of_two align = true →
  alloc_contiguous_aligned frames ps align s = Done (Some rng, s1) →
  ∃ s2, free_contiguous rng ps s1 = Done (tt, s2) ∧ fa_ok ps s2 l.
Proof.
  intros Hps Hok Hf Ha Hal Hrun. pose proof (alloc_contiguous_spec ps Hps align frames s l Hok Hf Ha Hal) as H.
  unfold wp in H. rewrite Hrun in H. destruct H as (t & l1 & l2 & -> & Ht & -> & Hok1 & _).
  pose proof (ok_sorted _ _ _ Hok) as Hs. pose proof (ok_frames _ _ _ Hok) as (_ & [Hfr _]%Forall_app)%Forall_app.
  assert (freeable ps t frames (l1 ++ l2)) as Hfree.
  { destruct frames as [|n]; [lia|]. rewrite Forall_forall in Hfr.
    destruct (Hfr t) as (T1 & T2 & _); [apply elem_of_pages; exists 0; split; lia|].
    destruct (Hfr (t + Z.of_nat n * ps)%Z) as (_ & _ & T3); [apply elem_of_pages; exists n; split; lia|].
    split; [lia|done|done|lia|]. apply sorted_nodup, NoDup_app in Hs as (_ & Hd1 & (_ & Hd2 & _)%NoDup_app).
    intros f [Hx|Hx]%elem_of_app Hp; [apply (Hd1 f Hx), elem_of_app; by left|by apply (Hd2 f Hp)]. }
  destruct (wp_run _ _ _ (free_contiguous_spec ps Hps t frames s1 _ Hok1 Hfree)) as ([] & s2 & H2 & (a & b & E & Hok2) & _).
  exists s2. split; [done|]. eapply same_frames; [done|done|]. intros x.
  assert (x ∈ l1 ∨ x ∈ l2 ↔ x ∈ a ∨ x ∈ b) as E' by (by rewrite <-!elem_of_app, E). rewrite !elem_of_app. tauto.
Qed.

Lemma alloc_free_roundtrip_witness :
  ∃ s1 s2, alloc_contiguous_aligned 2 PAGE_SIZE PAGE_SIZE three_frames = Done (Some (mkRange 4096 12288), s1) ∧
    free_contiguous (mkRange 4096 12288) PAGE_SIZE s1 = Done (tt, s2) ∧ fa_ok PAGE_SIZE s2 [4096; 8192; 16384]%Z.
Proof.
  eexists. destruct (alloc_free_roundtrip PAGE_SIZE three_frames [4096; 8192; 16384]%Z 2 PAGE_SIZE (mkRange 4096 12288)
    (mkFrameState (mkFrameAllocator (Some 16384%Z) PAGE_SIZE 3 1) (fs_store three_frames))
    page_size_pos three_frames_ok) as (s2 & H2 & H3).
  - lia.
  - reflexivity.
  - reflexivity.
  - vm_compute. reflexivity.
  - exists s2. split; [vm_compute; reflexivity|]. split; [exact H2|exact H3].
Defined.
