(* ===== verification/PageTable.v ===== *)
(** * User page tables

    Models the TTBR0 side of [arch/aarch64/src/mmu/hva.rs]: four levels of 512
    descriptors, built in frames of the physical frame allocator, and the part
    of [abi.rs] that hands them to the kernel.  A table lives in the physical
    memory [fs_store] that also holds the allocator's free list; descriptor [i]
    of the table at [pa] is the word at [pa + 8 * i].  A word that was never
    written reads as 0; no proof depends on it.

    Barriers, TLB maintenance and cache maintenance have no effect on this
    memory and are left out. *)

From stdpp Require Import gmap.
From S2P Require Import Prelude Types Vm MemMap FrameAlloc.

Definition TABLE_ENTRIES : nat := 512.
Definition LOWER_VA_LIMIT : Z := Z.shiftl 1 48.

Definition DESC_VALID : Z := Z.shiftl 1 0.
Definition DESC_TABLE : Z := Z.shiftl 1 1.
Definition DESC_AF : Z := Z.shiftl 1 10.
Definition DESC_NG : Z := Z.shiftl 1 11.
Definition DESC_PXN : Z := Z.shiftl 1 53.
Definition DESC_UXN : Z := Z.shiftl 1 54.
Definition DESC_AP_USER : Z := Z.shiftl 1 6.
Definition DESC_AP_RO : Z := Z.shiftl 1 7.
Definition DESC_SH_INNER : Z := Z.shiftl 3 8.
Definition DESC_ADDR_MASK : Z := 0x0000fffffffff000.
Definition ATTR_NORMAL_WB : Z := 1.

(** [UserMapFlags] *)
Definition USER_WRITE : Z := Z.shiftl 1 1.
Definition USER_EXECUTE : Z := Z.shiftl 1 2.
Definition flags_contain (flags rhs : Z) : bool := (Z.land flags rhs =? rhs)%Z.

Record UserMappingInfo := mkUserMappingInfo {
  um_pa : Z;
  um_user : bool;
  um_readable : bool;
  um_writable : bool;
  um_executable : bool
}.

Inductive ArchVmError :=
| ArchNotInitialized | ArchInvalidRange | ArchNotAligned | ArchNotKernelVa | ArchAlreadyMapped
| ArchMissingMapping | ArchOutOfFrames | ArchUnsupported.

Definition vm_error_code (e : ArchVmError) : Z :=
  match e with
  | ArchNotInitialized => 1
  | ArchInvalidRange => 2
  | ArchNotAligned => 3
  | ArchNotKernelVa => 4
  | ArchAlreadyMapped => 5
  | ArchMissingMapping => 6
  | ArchOutOfFrames => 7
  | ArchUnsupported => 8
  end.

(** ** Descriptors *)

Definition table_desc (pa : Z) : Z := Z.lor (Z.lor (Z.land pa DESC_ADDR_MASK) DESC_VALID) DESC_TABLE.

Definition user_page_desc (pa flags : Z) : Z :=
  let desc := Z.lor (Z.land pa DESC_ADDR_MASK)
    (Z.lor DESC_VALID (Z.lor DESC_TABLE (Z.lor DESC_AF (Z.lor DESC_SH_INNER
      (Z.lor DESC_AP_USER (Z.lor DESC_NG (Z.shiftl ATTR_NORMAL_WB 2))))))) in
  let desc := if negb (flags_contain flags USER_WRITE) then Z.lor desc DESC_AP_RO else desc in
  if flags_contain flags USER_EXECUTE then Z.lor desc DESC_PXN else Z.lor desc (Z.lor DESC_PXN DESC_UXN).

Definition l0_index (va : Z) : nat := Z.to_nat (Z.land (Z.shiftr va 39) 0x1ff).
Definition l1_index (va : Z) : nat := Z.to_nat (Z.land (Z.shiftr va 30) 0x1ff).
Definition l2_index (va : Z) : nat := Z.to_nat (Z.land (Z.shiftr va 21) 0x1ff).
Definition l3_index (va : Z) : nat := Z.to_nat (Z.land (Z.shiftr va 12) 0x1ff).

Definition is_table_desc (desc : Z) : bool :=
  (Z.land desc (Z.lor DESC_VALID DESC_TABLE) =? Z.lor DESC_VALID DESC_TABLE)%Z.
Definition is_page_desc (desc : Z) : bool :=
  (Z.land desc (Z.lor DESC_VALID DESC_TABLE) =? Z.lor DESC_VALID DESC_TABLE)%Z.
Definition desc_pa (desc : Z) : Z := Z.land desc DESC_ADDR_MASK.

Definition is_user_va (va : Z) : bool := (va <? LOWER_VA_LIMIT)%Z.

Definition validate_user_page (va pa : Z) : unit + ArchVmError :=
  if negb (is_user_va va) then inr ArchInvalidRange
  else if negb (Z.land va (PAGE_SIZE - 1) =? 0)%Z || negb (Z.land pa (PAGE_SIZE - 1) =? 0)%Z then inr ArchNotAligned
  else inl tt.

Definition user_mapping_info_from_desc (desc va : Z) : UserMappingInfo :=
  let user := negb (Z.land desc DESC_AP_USER =? 0)%Z in
  let access_flag := negb (Z.land desc DESC_AF =? 0)%Z in
  let writable := user && access_flag && (Z.land desc DESC_AP_RO =? 0)%Z in
  mkUserMappingInfo (desc_pa desc + Z.land va (PAGE_SIZE - 1)) user (user && access_flag) writable
    (user && (Z.land desc DESC_UXN =? 0)%Z).

(** ** The machine *)

Record Mmu := mkMmu {
  mm_rt : Runtime;
  mm_runtime_tables_active : bool;
  mm_ttbr0 : Z
}.

Definition set_mm_rt (rt : Runtime) (m : Mmu) : Mmu := mkMmu rt (mm_runtime_tables_active m) (mm_ttbr0 m).
Definition set_mm_ttbr0 (root : Z) (m : Mmu) : Mmu := mkMmu (mm_rt m) (mm_runtime_tables_active m) root.

Abbreviation K := (M Mmu).

Definition on_runtime {A} (op : M Runtime A) : K A :=
  λ m, match op (mm_rt m) with
       | Done (a, rt) => Done (a, set_mm_rt rt m)
       | Panic why => Panic why
       end.

(** [MappedPageTable] *)
Definition entry_addr (pa : Z) (index : nat) : Z := (pa + 8 * Z.of_nat index)%Z.
Definition entry (st : gmap Z Z) (pa : Z) (index : nat) : Z := default 0%Z (st !! entry_addr pa index).
Definition memory (m : Mmu) : gmap Z Z := fs_store (rt_frames (mm_rt m)).
Definition set_memory (f : gmap Z Z → gmap Z Z) (m : Mmu) : Mmu :=
  set_mm_rt (set_rt_frames (mkFrameState (fs_alloc (rt_frames (mm_rt m))) (f (memory m))) (mm_rt m)) m.

Definition table_read (pa : Z) (index : nat) : K Z := gets (λ m, entry (memory m) pa index).
Definition table_write (pa : Z) (index : nat) (value : Z) : K unit :=
  modify (set_memory (<[entry_addr pa index := value]>)).

Fixpoint for_each {S A} (f : A → M S unit) (l : list A) : M S unit :=
  match l with
  | [] => mret tt
  | x :: l' => f x;; for_each f l'
  end.

Definition table_clear (pa : Z) : K unit := for_each (λ index, table_write pa index 0) (seq 0 TABLE_ENTRIES).
Definition install_table (pa : Z) (index : nat) (child_pa : Z) : K unit := table_write pa index (table_desc child_pa).

Definition require_runtime_tables : K (unit + ArchVmError) :=
  gets (λ m, if mm_runtime_tables_active m then inl tt else inr ArchNotInitialized).

Definition ttbr0_l0_pa : K Z := gets (λ m, Z.land (mm_ttbr0 m) DESC_ADDR_MASK).

Definition alloc_table_frame : K (Z + ArchVmError) :=
  r ← on_runtime runtime_alloc_frame;
  mret match r with Some pa => inl pa | None => inr ArchOutOfFrames end.

(** ** Address spaces *)

Definition create_user_address_space : K (Z + ArchVmError) :=
  _ ←? require_runtime_tables;
  root ←? alloc_table_frame;
  table_clear root;; mret (inl root).

(** One level of the walk: the table below, created if it is missing. *)
Definition ensure_table (table : Z) (index : nat) : K (Z + ArchVmError) :=
  e ← table_read table index;
  if is_table_desc e then mret (inl (desc_pa e))
  else if (Z.land e DESC_VALID =? 0)%Z then
    pa ←? alloc_table_frame;
    table_clear pa;; install_table table index pa;; mret (inl pa)
  else mret (inr ArchUnsupported).

Definition ensure_user_l3_table (root_pa va : Z) : K (Z + ArchVmError) :=
  if (root_pa =? 0)%Z then mret (inr ArchNotInitialized)
  else
    l1 ←? ensure_table root_pa (l0_index va);
    l2 ←? ensure_table l1 (l1_index va);
    ensure_table l2 (l2_index va).

Definition map_user_page (root_pa va pa flags : Z) : K (unit + ArchVmError) :=
  _ ←? require_runtime_tables;
  match validate_user_page va pa with
  | inr e => mret (inr e)
  | inl _ =>
      l3 ←? ensure_user_l3_table root_pa va;
      let index := l3_index va in
      e ← table_read l3 index;
      if negb (Z.land e DESC_VALID =? 0)%Z then mret (inr ArchAlreadyMapped)
      else table_write l3 index (user_page_desc pa flags);; mret (inl tt)
  end.

Definition lookup_user_page_desc (st : gmap Z Z) (root_pa va : Z) : option Z :=
  if (root_pa =? 0)%Z || negb (is_user_va va) then None
  else
    let l0e := entry st root_pa (l0_index va) in
    if negb (is_table_desc l0e) then None
    else
      let l1e := entry st (desc_pa l0e) (l1_index va) in
      if negb (is_table_desc l1e) then None
      else
        let l2e := entry st (desc_pa l1e) (l2_index va) in
        if negb (is_table_desc l2e) then None
        else
          let l3e := entry st (desc_pa l2e) (l3_index va) in
          if is_page_desc l3e then Some l3e else None.

Definition query_user_mapping (st : gmap Z Z) (root_pa va : Z) : option UserMappingInfo :=
  desc ← lookup_user_page_desc st root_pa va; Some (user_mapping_info_from_desc desc va).

Definition translate_user_va (st : gmap Z Z) (root_pa va : Z) : option Z :=
  um_pa <$> query_user_mapping st root_pa va.

(** [destroy_user_address_space]: level by level, then the root. *)
Definition free_table (pa : Z) : K unit := on_runtime (runtime_free_frame pa).

Definition destroy_l2 (l2_pa : Z) : K unit :=
  for_each (λ l2i, l2e ← table_read l2_pa l2i;
                   if is_table_desc l2e then free_table (desc_pa l2e) else mret tt) (seq 0 TABLE_ENTRIES);;
  free_table l2_pa.

Definition destroy_l1 (l1_pa : Z) : K unit :=
  for_each (λ l1i, l1e ← table_read l1_pa l1i;
                   if is_table_desc l1e then destroy_l2 (desc_pa l1e) else mret tt) (seq 0 TABLE_ENTRIES);;
  free_table l1_pa.

Definition destroy_user_address_space (root_pa : Z) : K (unit + ArchVmError) :=
  _ ←? require_runtime_tables;
  if (root_pa =? 0)%Z then mret (inr ArchInvalidRange)
  else
    current ← ttbr0_l0_pa;
    if (current =? root_pa)%Z then mret (inr ArchInvalidRange)
    else
      for_each (λ l0i, l0e ← table_read root_pa l0i;
                       if is_table_desc l0e then destroy_l1 (desc_pa l0e) else mret tt) (seq 0 TABLE_ENTRIES);;
      free_table root_pa;; mret (inl tt).

Definition activate_user_address_space (root_pa : Z) : K (unit + ArchVmError) :=
  _ ←? require_runtime_tables;
  if (root_pa =? 0)%Z then mret (inr ArchInvalidRange)
  else
    current ← ttbr0_l0_pa;
    if (current =? root_pa)%Z then mret (inl tt)
    else modify (set_mm_ttbr0 root_pa);; mret (inl tt).

Definition clear_user_address_space : K (unit + ArchVmError) :=
  _ ←? require_runtime_tables;
  current ← ttbr0_l0_pa;
  if (current =? 0)%Z then mret (inl tt) else modify (set_mm_ttbr0 0%Z);; mret (inl tt).

(** ** The C interface *)

Definition status {A} (m : K (A + ArchVmError)) : K Z :=
  r ← m; mret match r with inl _ => 0%Z | inr e => vm_error_code e end.

Definition arch_map_user_page (root_pa va pa flags : Z) : K Z := status (map_user_page root_pa va pa flags).
Definition arch_destroy_user_address_space (root_pa : Z) : K Z := status (destroy_user_address_space root_pa).
Definition arch_activate_user_address_space (root_pa : Z) : K Z := status (activate_user_address_space root_pa).
Definition arch_clear_user_address_space : K Z := status clear_user_address_space.
