(* ===== verification/PageTableSpec.v ===== *)
(** * Correctness of the user page tables

    All address spaces live in one physical memory, together with the free
    list of the frame allocator.  A map from paths to tables describes them;
    with it, every operation is shown to change exactly the translation it is
    asked to change, in its own address space only, and to take its frames from
    and return them to the allocator. *)

From stdpp Require Import gmap sorting.
From S2P Require Import Prelude Types Vm MemMap MemMapSpec FrameAlloc FrameSpec MemInit PageTable.

Open Scope Z_scope.

(** ** Descriptors *)

(** A frame that can hold a table. *)
Definition table_frame (pa : Z) : Prop := 0 < pa < 2 ^ 48 ∧ pa mod PAGE_SIZE = 0.
(** A frame that can be mapped. *)
Definition page_frame (pa : Z) : Prop := 0 <= pa < 2 ^ 48 ∧ pa mod PAGE_SIZE = 0.

Lemma land_addr_mask pa : page_frame pa → Z.land pa DESC_ADDR_MASK = pa.
Proof.
  intros [Hb Hm]. change DESC_ADDR_MASK with (Z.shiftl (Z.ones 36) 12).
  apply Z.mod_divide in Hm as [k ->]; [|done]. change PAGE_SIZE with (2 ^ 12) in *.
  rewrite <-Z.shiftl_mul_pow2 by done. rewrite <-Z.shiftl_land, Z.land_ones by done.
  rewrite Z.mod_small; [done|]. change (2 ^ 48) with (2 ^ 36 * 2 ^ 12) in Hb. lia.
Qed.

(** The attribute bits of a descriptor do not depend on its address. *)
Lemma desc_attr pa c k :
  Z.land DESC_ADDR_MASK k = 0 → Z.land (Z.lor (Z.land pa DESC_ADDR_MASK) c) k = Z.land c k.
Proof. intros Hk. by rewrite Z.land_lor_distr_l, <-Z.land_assoc, Hk, Z.land_0_r, Z.lor_0_l. Qed.

Lemma desc_addr pa c :
  page_frame pa → Z.land c DESC_ADDR_MASK = 0 → desc_pa (Z.lor (Z.land pa DESC_ADDR_MASK) c) = pa.
Proof.
  intros Hpa Hc. unfold desc_pa. rewrite Z.land_lor_distr_l, Hc, Z.lor_0_r, <-Z.land_assoc.
  rewrite (Z.land_diag DESC_ADDR_MASK). by apply land_addr_mask.
Qed.

Lemma table_desc_lor pa : table_desc pa = Z.lor (Z.land pa DESC_ADDR_MASK) 3.
Proof. unfold table_desc. by rewrite <-Z.lor_assoc. Qed.

Lemma table_desc_table pa : is_table_desc (table_desc pa) = true.
Proof. unfold is_table_desc. by rewrite table_desc_lor, desc_attr. Qed.

Lemma table_desc_pa pa : page_frame pa → desc_pa (table_desc pa) = pa.
Proof. intros Hpa. rewrite table_desc_lor. by apply desc_addr. Qed.

Definition user_attrs (w x : bool) : Z :=
  Z.lor (Z.lor 0xf47 (if w then 0 else DESC_AP_RO)) (if x then DESC_PXN else Z.lor DESC_PXN DESC_UXN).

Lemma user_page_desc_lor pa flags :
  user_page_desc pa flags
  = Z.lor (Z.land pa DESC_ADDR_MASK) (user_attrs (flags_contain flags USER_WRITE) (flags_contain flags USER_EXECUTE)).
Proof.
  unfold user_page_desc, user_attrs. destruct (flags_contain flags USER_WRITE), (flags_contain flags USER_EXECUTE); cbn [negb];
    by rewrite <-?Z.lor_assoc.
Qed.

Lemma user_page_desc_page pa flags :
  is_page_desc (user_page_desc pa flags) = true ∧ Z.land (user_page_desc pa flags) DESC_VALID ≠ 0.
Proof.
  unfold is_page_desc. rewrite user_page_desc_lor, !desc_attr by done.
  by destruct (flags_contain flags USER_WRITE), (flags_contain flags USER_EXECUTE).
Qed.

(** What a page descriptor says. *)
Lemma user_page_desc_info pa flags va :
  page_frame pa →
  user_mapping_info_from_desc (user_page_desc pa flags) va
  = mkUserMappingInfo (pa + Z.land va (PAGE_SIZE - 1)) true true (flags_contain flags USER_WRITE) (flags_contain flags USER_EXECUTE).
Proof.
  intros Hpa. unfold user_mapping_info_from_desc. rewrite user_page_desc_lor, desc_addr, !desc_attr;
    by destruct (flags_contain flags USER_WRITE), (flags_contain flags USER_EXECUTE).
Qed.

(** ** Addresses *)

Lemma index_mod a : 0 <= a → Z.land a 0x1ff = a mod 512.
Proof. intros Ha. change 0x1ff with (Z.ones 9). by rewrite Z.land_ones. Qed.

(** A user page is its four indices. *)
Lemma page_of_indices va :
  0 <= va < LOWER_VA_LIMIT →
  va / PAGE_SIZE = ((Z.of_nat (l0_index va) * 512 + Z.of_nat (l1_index va)) * 512 + Z.of_nat (l2_index va)) * 512
                   + Z.of_nat (l3_index va).
Proof.
  intros [H0 H1]. unfold l0_index, l1_index, l2_index, l3_index. rewrite !Z.shiftr_div_pow2 by done.
  rewrite !index_mod by (apply Z.div_pos; lia). rewrite !Z2Nat.id by (apply Z.mod_pos_bound; lia).
  change (2 ^ 39) with (2 ^ 30 * 512). change (2 ^ 30) with (2 ^ 21 * 512). change (2 ^ 21) with (2 ^ 12 * 512).
  change (2 ^ 12) with PAGE_SIZE. rewrite <-!Z.div_div by done.
  assert (va / PAGE_SIZE < 512 * 512 * 512 * 512) as Hb by (apply Z.div_lt_upper_bound; [done|]; exact H1).
  set (a := va / PAGE_SIZE) in *. rewrite (Z.mod_small (a / 512 / 512 / 512)).
  - pose proof (Z.div_mod a 512). pose proof (Z.div_mod (a / 512) 512). pose proof (Z.div_mod (a / 512 / 512) 512). lia.
  - assert (0 <= a) by (apply Z.div_pos; [done|reflexivity]).
    rewrite !Z.div_div by done. split; [by apply Z.div_pos|]. apply Z.div_lt_upper_bound; [done|]. lia.
Qed.

Lemma index_bound va : (l0_index va < 512 ∧ l1_index va < 512 ∧ l2_index va < 512 ∧ l3_index va < 512)%nat.
Proof.
  assert (∀ a, (Z.to_nat (Z.land a 0x1ff) < 512)%nat) as H.
  { intros a. change 0x1ff with (Z.ones 9). rewrite Z.land_ones by done.
    pose proof (Z.mod_pos_bound a (2 ^ 9) ltac:(done)). lia. }
  unfold l0_index, l1_index, l2_index, l3_index. auto.
Qed.

Lemma entry_addr_inj pa i pa' i' :
  pa mod PAGE_SIZE = 0 → pa' mod PAGE_SIZE = 0 → (i < 512)%nat → (i' < 512)%nat →
  entry_addr pa i = entry_addr pa' i' → pa = pa' ∧ i = i'.
Proof.
  unfold entry_addr, PAGE_SIZE. intros H1 H2 Hi Hi' E.
  apply Z.mod_divide in H1 as [a ->]; [|done]. apply Z.mod_divide in H2 as [b ->]; [|done]. lia.
Qed.

Lemma entry_addr_frame pa i f :
  pa mod PAGE_SIZE = 0 → f mod PAGE_SIZE = 0 → (i < 512)%nat → entry_addr pa i = f → pa = f.
Proof.
  intros H1 H2 Hi E. destruct (entry_addr_inj pa i f 0 H1 H2 Hi) as [? _]; [lia| |done].
  rewrite E. unfold entry_addr. lia.
Qed.

(** ** Trees of tables *)

(** The tables by root and path: [T !! (r, p)] is the table reached from the
    root [r] by the indices [p]. *)
Abbreviation tables := (gmap (Z * list nat) Z).

Definition leaf_path (va : Z) : list nat := [l0_index va; l1_index va; l2_index va].

Record tree_ok (st : gmap Z Z) (T : tables) : Prop := {
  tr_root : ∀ r p pa, T !! (r, p) = Some pa → T !! (r, []) = Some r;
  tr_frame : ∀ k pa, T !! k = Some pa → table_frame pa;
  tr_inj : ∀ k1 k2 pa, T !! k1 = Some pa → T !! k2 = Some pa → k1 = k2;
  tr_closed : ∀ r p i c, T !! (r, p ++ [i]) = Some c → is_Some (T !! (r, p)) ∧ (i < 512)%nat ∧ (length p < 3)%nat;
  tr_inner : ∀ r p pa i, T !! (r, p) = Some pa → (length p < 3)%nat → (i < 512)%nat →
    entry st pa i = match T !! (r, p ++ [i]) with Some c => table_desc c | None => 0 end;
  tr_leaf : ∀ r p pa i, T !! (r, p) = Some pa → length p = 3%nat → (i < 512)%nat →
    entry st pa i = 0 ∨ ∃ frame flags, page_frame frame ∧ entry st pa i = user_page_desc frame flags
}.

(** The descriptor that translates [va] in the address space [r]. *)
Definition leaf (st : gmap Z Z) (T : tables) (r va : Z) : option Z :=
  if is_user_va va then
    c ← T !! (r, leaf_path va);
    let e := entry st c (l3_index va) in if is_page_desc e then Some e else None
  else None.

Lemma table_page_frame pa : table_frame pa → page_frame pa.
Proof. intros [? ?]. split; [lia|done]. Qed.
#[local] Hint Resolve table_page_frame : core.

(** One step of the walk. *)
Lemma tree_step st T r p pa i :
  tree_ok st T → T !! (r, p) = Some pa → (length p < 3)%nat → (i < 512)%nat →
  match T !! (r, p ++ [i]) with
  | Some c => is_table_desc (entry st pa i) = true ∧ desc_pa (entry st pa i) = c
  | None => entry st pa i = 0
  end.
Proof.
  intros Ht Hp Hl Hi. rewrite (tr_inner _ _ Ht r p pa i Hp Hl Hi). destruct (T !! (r, p ++ [i])) as [c|] eqn:Hc; [|done].
  split; [apply table_desc_table|]. apply table_desc_pa. by eapply table_page_frame, tr_frame.
Qed.

Lemma missing_below st T r p i q : tree_ok st T → T !! (r, p ++ [i]) = None → T !! (r, p ++ i :: q) = None.
Proof.
  intros Ht Hn. induction q as [|j q IH] using rev_ind; [done|].
  destruct (T !! (r, p ++ i :: q ++ [j])) as [c|] eqn:Hc; [|done]. exfalso.
  assert (T !! (r, (p ++ i :: q) ++ [j]) = Some c) as Hc' by (by rewrite <-app_assoc).
  apply (tr_closed _ _ Ht) in Hc' as ([x Hx] & _). congruence.
Qed.

(** The walk of the code finds the leaf. *)
Lemma lookup_leaf st T r va :
  tree_ok st T → T !! (r, []) = Some r → lookup_user_page_desc st r va = leaf st T r va.
Proof.
  intros Ht Hr. unfold lookup_user_page_desc, leaf, leaf_path. destruct (index_bound va) as (B0 & B1 & B2 & B3).
  assert ((r =? 0) = false) as -> by (apply Z.eqb_neq; apply (tr_frame _ _ Ht) in Hr as [? _]; lia).
  cbn [orb]. destruct (is_user_va va); [|done]. cbn [negb].
  pose proof (tree_step _ _ r [] r (l0_index va) Ht Hr ltac:(simpl; lia) B0) as H0. simpl in H0.
  destruct (T !! (r, [l0_index va])) as [c0|] eqn:E0.
  2:{ rewrite H0. pose proof (missing_below st T r [] (l0_index va) [l1_index va; l2_index va] Ht E0) as Hm. simpl in Hm. by rewrite Hm. }
  destruct H0 as [-> ->]. cbn [negb].
  pose proof (tree_step _ _ r [l0_index va] c0 (l1_index va) Ht E0 ltac:(simpl; lia) B1) as H1. simpl in H1.
  destruct (T !! (r, [l0_index va; l1_index va])) as [c1|] eqn:E1.
  2:{ rewrite H1. pose proof (missing_below st T r [l0_index va] (l1_index va) [l2_index va] Ht E1) as Hm. simpl in Hm. by rewrite Hm. }
  destruct H1 as [-> ->]. cbn [negb].
  pose proof (tree_step _ _ r [l0_index va; l1_index va] c1 (l2_index va) Ht E1 ltac:(simpl; lia) B2) as H2. simpl in H2.
  destruct (T !! (r, [l0_index va; l1_index va; l2_index va])) as [c2|] eqn:E2; [|by rewrite H2].
  destruct H2 as [-> ->]. done.
Qed.

(** ** Memory updates *)

Lemma entry_insert_eq st pa i v : entry (<[entry_addr pa i := v]> st) pa i = v.
Proof. unfold entry. by rewrite lookup_insert_eq. Qed.

Lemma entry_insert_ne st pa i v pa' i' :
  pa mod PAGE_SIZE = 0 → pa' mod PAGE_SIZE = 0 → (i < 512)%nat → (i' < 512)%nat → pa ≠ pa' ∨ i ≠ i' →
  entry (<[entry_addr pa i := v]> st) pa' i' = entry st pa' i'.
Proof.
  intros H1 H2 H3 H4 Hne. unfold entry. rewrite lookup_insert_ne; [done|].
  intros E. apply entry_addr_inj in E as [-> ->]; [|done..]. naive_solver.
Qed.

(** The memory after a table was cleared. *)
Definition zeroed (x : Z) (st : gmap Z Z) : gmap Z Z := foldl (λ st i, <[entry_addr x i := 0]> st) st (seq 0 512).

Lemma zeroed_from x (st : gmap Z Z) l y :
  foldl (λ st i, <[entry_addr x i := 0]> st) st l !! y
  = if decide (y ∈ entry_addr x <$> l) then Some 0 else st !! y.
Proof.
  revert st. induction l as [|i l IH]; intros st; [done|]. cbn [foldl]. rewrite IH, fmap_cons. destruct (decide (y ∈ entry_addr x <$> l)) as [Hj|Hn].
  { rewrite decide_True; [done|]. by right. }
  destruct (decide (y = entry_addr x i)) as [->|Hne].
  - rewrite lookup_insert_eq, decide_True; [done|]. by left.
  - rewrite lookup_insert_ne by done. rewrite decide_False; [done|]. by intros [?|?]%elem_of_cons.
Qed.

Lemma entry_zeroed x st i : (i < 512)%nat → entry (zeroed x st) x i = 0.
Proof.
  intros Hi. unfold entry, zeroed. rewrite zeroed_from, decide_True; [done|]. apply list_elem_of_fmap.
  exists i. split; [done|apply elem_of_seq; lia].
Qed.

Lemma zeroed_other x st y : (∀ i, (i < 512)%nat → y ≠ entry_addr x i) → zeroed x st !! y = st !! y.
Proof.
  intros Hy. unfold zeroed. rewrite zeroed_from, decide_False; [done|].
  intros (i & E & Hi%elem_of_seq)%list_elem_of_fmap. apply (Hy i); [lia|done].
Qed.

Lemma entry_zeroed_ne x st pa i :
  x mod PAGE_SIZE = 0 → pa mod PAGE_SIZE = 0 → (i < 512)%nat → x ≠ pa → entry (zeroed x st) pa i = entry st pa i.
Proof.
  intros H1 H2 Hi Hne. unfold entry. rewrite zeroed_other; [done|]. intros j Hj E. symmetry in E.
  apply entry_addr_inj in E as [? _]; done.
Qed.

#[global] Opaque zeroed.

(** ** Tree updates *)

(** Only the entries of the tables matter. *)
Lemma tree_ext st st' T :
  (∀ k pa i, T !! k = Some pa → (i < 512)%nat → entry st' pa i = entry st pa i) → tree_ok st T →
  tree_ok st' T ∧ ∀ r va, leaf st' T r va = leaf st T r va.
Proof.
  intros He [H1 H2 H3 H4 H5 H6]. split.
  - split; [done..| |].
    + intros r p pa i Hp Hl Hi. rewrite (He _ _ i Hp Hi). by apply H5.
    + intros r p pa i Hp Hl Hi. rewrite (He _ _ i Hp Hi). by eapply H6.
  - intros r va. unfold leaf. destruct (is_user_va va); [|done].
    destruct (T !! (r, leaf_path va)) as [c|] eqn:Hc; [|done]. simpl. by rewrite (He _ _ _ Hc) by apply index_bound.
Qed.

Lemma snoc_inj_key (r r' : Z) (p p' : list nat) i i' : (r, p ++ [i]) = (r', p' ++ [i']) → (r, p) = (r', p') ∧ i = i'.
Proof. intros E. injection E as -> E. apply app_inj_tail in E as [-> ->]. done. Qed.

Section install.
Context (st : gmap Z Z) (T : tables) (r : Z) (p : list nat) (pa : Z) (i : nat) (x : Z).
Hypothesis (Ht : tree_ok st T) (Hp : T !! (r, p) = Some pa) (Hl : (length p < 3)%nat) (Hi : (i < 512)%nat).
Hypothesis (Hnew : T !! (r, p ++ [i]) = None) (Hx : table_frame x) (Hfresh : ∀ k, T !! k ≠ Some x).

Definition installed_st : gmap Z Z := <[entry_addr pa i := table_desc x]> (zeroed x st).
Definition installed_tables : tables := <[(r, p ++ [i]) := x]> T.

Lemma pa_frame k c : T !! k = Some c → c mod PAGE_SIZE = 0 ∧ c ≠ x.
Proof. intros Hk. split; [by apply (tr_frame _ _ Ht) in Hk as [_ ?]|]. intros ->. by apply (Hfresh k). Qed.

Lemma installed_entry k c j :
  T !! k = Some c → (j < 512)%nat →
  entry installed_st c j = if decide (k = (r, p) ∧ j = i) then table_desc x else entry st c j.
Proof.
  intros Hk Hj. destruct (pa_frame _ _ Hk) as [Hc Hcx], (pa_frame _ _ Hp) as [Hpa Hpx]. destruct Hx as [_ Hxm].
  unfold installed_st. destruct (decide (k = (r, p) ∧ j = i)) as [[-> ->]|Hne].
  - rewrite Hp in Hk. injection Hk as <-. apply entry_insert_eq.
  - rewrite entry_insert_ne, entry_zeroed_ne; [done..|].
    destruct (decide (pa = c)) as [->|]; [|by left]. right. intros ->. apply Hne. split; [|done].
    by eapply (tr_inj _ _ Ht).
Qed.

Lemma installed_new j : (j < 512)%nat → entry installed_st x j = 0.
Proof.
  intros Hj. destruct (pa_frame _ _ Hp) as [Hpa Hpx]. destruct Hx as [_ Hxm]. unfold installed_st.
  rewrite entry_insert_ne; [by apply entry_zeroed|done..|by left].
Qed.

Lemma installed_key k : k ≠ (r, p ++ [i]) → installed_tables !! k = T !! k.
Proof. intros Hk. unfold installed_tables. by rewrite lookup_insert_ne. Qed.

Lemma installed_lookup k c :
  installed_tables !! k = Some c → k = (r, p ++ [i]) ∧ c = x ∨ k ≠ (r, p ++ [i]) ∧ T !! k = Some c.
Proof. unfold installed_tables. intros [(<- & <-)|(? & ?)]%lookup_insert_Some; naive_solver. Qed.

Lemma installed_tree : tree_ok installed_st installed_tables.
Proof.
  assert ((r, []) ≠ (r, p ++ [i])) as Hroot by (intros [= E]; by destruct p).
  assert (∀ r0, T !! (r0, []) = Some r0 → installed_tables !! (r0, []) = Some r0) as Hr.
  { intros r0 Hr0. rewrite installed_key; [done|]. intros [= -> E]. by destruct p. }
  split.
  - intros r0 p0 c [[[= -> ->] ->]|[_ Hk]]%installed_lookup; apply Hr; by eapply (tr_root _ _ Ht).
  - intros k c [[-> ->]|[_ Hk]]%installed_lookup; [done|]. by eapply (tr_frame _ _ Ht).
  - intros k1 k2 c [[-> ->]|[_ H1]]%installed_lookup [[-> E]|[_ H2]]%installed_lookup; [done|by destruct (Hfresh k2)| |].
    + subst c. by destruct (Hfresh k1).
    + by eapply (tr_inj _ _ Ht).
  - intros r0 p0 j c [[[[= -> ->] ->]%snoc_inj_key ->]|[_ Hk]]%installed_lookup.
    + split_and!; [|done|done]. rewrite installed_key; [by exists pa|]. intros [= E]. by apply (f_equal length) in E; rewrite length_app in E; simpl in E; lia.
    + apply (tr_closed _ _ Ht) in Hk as ([y Hy] & ? & ?). split_and!; [|done|done].
      destruct (decide ((r0, p0) = (r, p ++ [i]))) as [->|]; [|rewrite installed_key by done; by exists y].
      unfold installed_tables. rewrite lookup_insert_eq. by eexists.
  - intros r0 p0 c j [[[= -> ->] ->]|[Hne Hk]]%installed_lookup Hl0 Hj.
    + rewrite installed_new by done. rewrite installed_key; [|intros [= E]; apply (f_equal length) in E; rewrite !length_app in E; simpl in E; lia].
      pose proof (missing_below st T r p i [j] Ht Hnew) as Hm. rewrite <-app_assoc. simpl. by rewrite Hm.
    + rewrite (installed_entry _ _ j Hk Hj). destruct (decide _) as [[[= -> ->] ->]|Hd].
      { unfold installed_tables. by rewrite lookup_insert_eq. }
      rewrite installed_key; [by apply (tr_inner _ _ Ht)|]. intros [[= -> ->] ->]%snoc_inj_key. by apply Hd.
  - intros r0 p0 c j [[[= -> ->] ->]|[Hne Hk]]%installed_lookup Hl0 Hj; [left; by apply installed_new|].
    rewrite (installed_entry _ _ j Hk Hj), decide_False by (intros [[= -> ->] _]; lia). by eapply (tr_leaf _ _ Ht).
Qed.

Lemma installed_leaf r0 va : leaf installed_st installed_tables r0 va = leaf st T r0 va.
Proof.
  unfold leaf. destruct (is_user_va va); [|done].
  destruct (decide ((r0, leaf_path va) = (r, p ++ [i]))) as [E|Hne].
  - rewrite E, Hnew. unfold installed_tables. rewrite lookup_insert_eq. cbn [mbind option_bind]. cbv zeta. by rewrite installed_new by apply index_bound.
  - rewrite installed_key by done. destruct (T !! (r0, leaf_path va)) as [c|] eqn:Hc; [|done]. cbn [mbind option_bind]. cbv zeta.
    rewrite (installed_entry _ _ _ Hc) by apply index_bound. rewrite decide_False; [done|].
    intros [[= _ <-] _]. simpl in Hl. lia.
Qed.
End install.

(** Writing a page descriptor. *)
Section mapping.
Context (st : gmap Z Z) (T : tables) (r : Z) (va : Z) (l3 : Z) (frame flags : Z).
Hypothesis (Ht : tree_ok st T) (Hl3 : T !! (r, leaf_path va) = Some l3) (Hf : page_frame frame).

Definition mapped_st : gmap Z Z := <[entry_addr l3 (l3_index va) := user_page_desc frame flags]> st.

Lemma mapped_entry k c j :
  T !! k = Some c → (j < 512)%nat →
  entry mapped_st c j = if decide (k = (r, leaf_path va) ∧ j = l3_index va) then user_page_desc frame flags else entry st c j.
Proof.
  intros Hk Hj. unfold mapped_st. destruct (decide _) as [[-> ->]|Hne].
  - rewrite Hl3 in Hk. injection Hk as <-. apply entry_insert_eq.
  - pose proof (tr_frame _ _ Ht _ _ Hk) as [_ ?]. pose proof (tr_frame _ _ Ht _ _ Hl3) as [_ ?].
    rewrite entry_insert_ne; [done..|apply index_bound|done|].
    destruct (decide (l3 = c)) as [<-|]; [|by left]. right. intros <-. apply Hne. split; [|done].
    by eapply (tr_inj _ _ Ht).
Qed.

Lemma mapped_tree : tree_ok mapped_st T.
Proof.
  destruct Ht as [H1 H2 H3 H4 H5 H6]. split; [done..| |].
  - intros r0 p c j Hk Hl Hj. rewrite (mapped_entry _ _ j Hk Hj), decide_False; [by apply H5|].
    intros [[= _ ->] _]. simpl in Hl. lia.
  - intros r0 p c j Hk Hl Hj. rewrite (mapped_entry _ _ j Hk Hj). destruct (decide _); [right; eauto|by eapply H6].
Qed.

Lemma mapped_leaf r0 va0 :
  is_user_va va = true → 0 <= va → 0 <= va0 →
  leaf mapped_st T r0 va0
  = if decide (r0 = r ∧ va0 / PAGE_SIZE = va / PAGE_SIZE) then Some (user_page_desc frame flags) else leaf st T r0 va0.
Proof.
  unfold is_user_va. intros Hu H0 H1. apply Z.ltb_lt in Hu. unfold leaf, is_user_va.
  destruct (decide (r0 = r ∧ va0 / PAGE_SIZE = va / PAGE_SIZE)) as [[-> Hpg]|Hne].
  - assert (va0 < LOWER_VA_LIMIT) as Hu0.
    { change LOWER_VA_LIMIT with (2 ^ 36 * PAGE_SIZE) in *.
      assert (va / PAGE_SIZE < 2 ^ 36) by (by apply Z.div_lt_upper_bound; lia).
      pose proof (Z.div_mod va0 PAGE_SIZE ltac:(done)). pose proof (Z.mod_pos_bound va0 PAGE_SIZE page_size_pos).
      rewrite Hpg in *. unfold PAGE_SIZE in *. lia. }
    rewrite (proj2 (Z.ltb_lt _ _)) by done. rewrite (page_of_indices va0), (page_of_indices va) in Hpg by lia.
    destruct (index_bound va) as (?&?&?&?), (index_bound va0) as (?&?&?&?).
    assert (l0_index va0 = l0_index va ∧ l1_index va0 = l1_index va ∧ l2_index va0 = l2_index va ∧ l3_index va0 = l3_index va)
      as (E0 & E1 & E2 & E3) by lia.
    unfold leaf_path. rewrite E0, E1, E2, E3. change [_; _; _] with (leaf_path va). rewrite Hl3. cbn [mbind option_bind]. cbv zeta.
    rewrite (mapped_entry _ _ _ Hl3) by done. rewrite decide_True by done. by rewrite (proj1 (user_page_desc_page _ _)).
  - destruct (Z.ltb_spec va0 LOWER_VA_LIMIT) as [Hu0|]; [|done].
    destruct (T !! (r0, leaf_path va0)) as [c|] eqn:Hc; [|done]. cbn [mbind option_bind]. cbv zeta.
    rewrite (mapped_entry _ _ _ Hc) by apply index_bound. rewrite decide_False; [done|].
    intros [[= -> E0 E1 E2] E3]. apply Hne. split; [done|]. rewrite !page_of_indices by lia. by rewrite E0, E1, E2, E3.
Qed.
End mapping.

(** ** The state of the machine *)

Definition usable_frame (m : Mmu) (f : Z) : Prop :=
  is_valid_usable_frame (match rt_metadata (mm_rt m) with Some md => md_usable_ranges md | None => [] end) f = true.

(** The live tables [T], the free frames [l], and the frames [pool] they share. *)
Record mmu_ok (m : Mmu) (T : tables) (l : list Z) (pool : gset Z) : Prop := {
  mk_active : mm_runtime_tables_active m = true;
  mk_init : rt_initialized (mm_rt m) = true;
  mk_tree : tree_ok (memory m) T;
  mk_free : fa_ok PAGE_SIZE (rt_frames (mm_rt m)) l;
  mk_apart : ∀ f k, f ∈ l → T !! k ≠ Some f;
  mk_pool : ∀ f, f ∈ pool ↔ f ∈ l ∨ ∃ k, T !! k = Some f;
  mk_frames : ∀ f, f ∈ pool → table_frame f ∧ usable_frame m f
}.

(** What the operations leave alone. *)
Definition settings (m : Mmu) :=
  (mm_runtime_tables_active m, mm_ttbr0 m, rt_initialized (mm_rt m), rt_metadata (mm_rt m), rt_heap (mm_rt m)).
Definition kept (m m' : Mmu) : Prop := settings m' = settings m.

Lemma kept_trans m1 m2 m3 : kept m1 m2 → kept m2 m3 → kept m1 m3.
Proof. unfold kept. congruence. Qed.

Lemma kept_memory f m : kept m (set_memory f m).
Proof. done. Qed.

Lemma kept_usable m m' f : kept m m' → usable_frame m f → usable_frame m' f.
Proof. unfold kept, settings, usable_frame. by intros [= _ _ _ -> _]. Qed.

Lemma set_memory_twice f g m : set_memory f (set_memory g m) = set_memory (λ st, f (g st)) m.
Proof. done. Qed.

Lemma table_clear_spec x m : table_clear x m = Done (tt, set_memory (zeroed x) m).
Proof.
  assert (∀ idx (m : Mmu), for_each (λ i, table_write x i 0) idx m
    = Done (tt, set_memory (λ st, foldl (λ st i, <[entry_addr x i := 0]> st) st idx) m)) as H.
  { intros idx. induction idx as [|i idx IH]; intros m0; [by destruct m0 as [[? [??] ??] ??]|]. cbn [for_each].
    unfold mbind, M_bind, table_write, modify at 1. rewrite IH. by rewrite set_memory_twice. }
  apply H.
Qed.

(** The free list does not depend on memory outside the free frames. *)
Lemma fa_ok_store s l st :
  fa_ok PAGE_SIZE s l → (∀ f, f ∈ l → st !! f = fs_store s !! f) → fa_ok PAGE_SIZE (mkFrameState (fs_alloc s) st) l.
Proof. intros [H1 H2 H3 H4 H5 H6] Hst. split; [done..| |done|done|done]. by eapply linked_ext. Qed.

Lemma pool_free m T l pool f : mmu_ok m T l pool → f ∈ l → table_frame f.
Proof. intros Hm Hf. apply (mk_frames _ _ _ _ Hm), (mk_pool _ _ _ _ Hm). by left. Qed.

(** Writing to the entries of a table that is not free. *)
Lemma free_kept_by_entry (l : list Z) x i v (st : gmap Z Z) :
  (∀ f, f ∈ l → table_frame f) → table_frame x → x ∉ l → (i < 512)%nat → ∀ f, f ∈ l → <[entry_addr x i := v]> st !! f = st !! f.
Proof.
  intros Hl [_ Hx] Hni Hi f Hf. apply lookup_insert_ne. intros E. destruct (Hl f Hf) as [_ Hfm].
  apply entry_addr_frame in E as ->; done.
Qed.

Lemma free_kept_by_zero (l : list Z) x (st : gmap Z Z) :
  (∀ f, f ∈ l → table_frame f) → table_frame x → x ∉ l → ∀ f, f ∈ l → zeroed x st !! f = st !! f.
Proof.
  intros Hl [_ Hx] Hni f Hf. apply zeroed_other. intros i Hi ->. destruct (Hl _ Hf) as [_ Hfm].
  apply Hni. by rewrite (entry_addr_frame x i (entry_addr x i)).
Qed.
