(* ===== verification/AddressSpace.v ===== *)
(** * Address-space operations

    Creating, mapping and destroying user address spaces on the machine that
    [PageTable] models: each operation against the tree of tables and the pool
    of frames. *)

From stdpp Require Import gmap sorting.
From S2P Require Import Prelude Types Vm MemMap MemMapSpec FrameAlloc FrameSpec MemInit PageTable PageTableSpec.

Open Scope Z_scope.

Lemma wp_on_runtime {A} (op : M Runtime A) (Q : A → Mmu → Prop) m :
  wp op (λ a rt, Q a (set_mm_rt rt m)) (mm_rt m) → wp (on_runtime op) Q m.
Proof. unfold wp, on_runtime. by destruct (op (mm_rt m)) as [[a rt]|]. Qed.

(** ** Frames for tables *)

Lemma alloc_table_spec m T l pool :
  mmu_ok m T l pool →
  wp alloc_table_frame (λ res m', kept m m' ∧ memory m' = memory m ∧
    match l with
    | [] => res = inr ArchOutOfFrames ∧ m' = m
    | x :: l' => res = inl x ∧ fa_ok PAGE_SIZE (rt_frames (mm_rt m')) l'
    end) m.
Proof.
  intros [H1 H2 H3 H4 H5 H6 H7]. unfold alloc_table_frame. apply wp_bind, wp_on_runtime. unfold runtime_alloc_frame.
  apply wp_bind, wp_gets. rewrite H2. cbn [negb]. apply wp_on_frames.
  eapply wp_mono; [exact (alloc_frame_spec PAGE_SIZE page_size_pos _ l H4)|]. intros res s H. apply wp_ret. destruct l as [|x l].
  - destruct H as [-> ->]. split_and!; [done|done|done|]. by destruct m as [[] ? ?].
  - destruct H as (-> & Hok & Hst). by split_and!.
Qed.

(** A frame taken from the list and cleared becomes part of a tree. *)
Lemma pool_move (T T' : tables) (l : list Z) (pool : gset Z) x k :
  T' = <[k := x]> T → T !! k = None → (∀ f, f ∈ pool ↔ f ∈ x :: l ∨ ∃ k, T !! k = Some f) →
  ∀ f, f ∈ pool ↔ f ∈ l ∨ ∃ k, T' !! k = Some f.
Proof.
  intros -> Hk Hp f. rewrite Hp, elem_of_cons. split.
  - intros [[->|Hf]|(k' & Hk')]; [right; exists k; by rewrite lookup_insert_eq|by left|right; exists k'].
    rewrite lookup_insert_ne; [done|congruence].
  - intros [Hf|(k' & [[<- <-]|[_ Hk']]%lookup_insert_Some)]; [left; by right|left; by left|right; eauto].
Qed.

(** Memory is as it was outside the frames [P]. *)
Definition untouched (P : Z → Prop) (m m' : Mmu) : Prop :=
  ∀ y, (∀ f, P f → ¬ on_page f y) → memory m' !! y = memory m !! y.

Lemma untouched_refl P m : untouched P m m.
Proof. done. Qed.

Lemma untouched_trans (P P' : Z → Prop) m1 m2 m3 : (∀ f, P f → P' f) → untouched P m1 m2 → untouched P' m2 m3 → untouched P' m1 m3.
Proof. intros HP H1 H2 y Hy. rewrite (H2 y Hy). apply H1. intros f Hf. by apply Hy, HP. Qed.

Lemma untouched_mono (P P' : Z → Prop) m m' : (∀ f, P f → P' f) → untouched P m m' → untouched P' m m'.
Proof. intros HP H y Hy. apply H. intros f Hf. by apply Hy, HP. Qed.

Lemma entry_on_page pa i : (i < 512)%nat → on_page pa (entry_addr pa i).
Proof. unfold on_page, entry_addr, PAGE_SIZE. lia. Qed.

Lemma zeroed_outside x st y : ¬ on_page x y → zeroed x st !! y = st !! y.
Proof. intros Hy. apply zeroed_other. intros i Hi ->. by apply Hy, entry_on_page. Qed.

(** What an operation does to the trees that only adds empty tables below [r]. *)
Record extends (r : Z) (m m' : Mmu) (T T' : tables) : Prop := {
  ex_kept : kept m m';
  ex_tables : T ⊆ T';
  ex_roots : ∀ r0, T' !! (r0, []) = T !! (r0, []);
  ex_other : ∀ r0 p, r0 ≠ r → T' !! (r0, p) = T !! (r0, p);
  ex_leaf : ∀ r0 va, leaf (memory m') T' r0 va = leaf (memory m) T r0 va;
  ex_outside : untouched (λ f, ∃ k, T' !! k = Some f) m m'
}.

Lemma extends_refl r m T : extends r m m T T.
Proof. by split. Qed.

Lemma extends_trans r m1 m2 m3 T1 T2 T3 : extends r m1 m2 T1 T2 → extends r m2 m3 T2 T3 → extends r m1 m3 T1 T3.
Proof.
  intros [A1 A2 A3 A4 A5 A6] [B1 B2 B3 B4 B5 B6]. split; [by eapply kept_trans|by etrans|congruence| |congruence|].
  - intros r0 p Hne. by rewrite B4, A4.
  - eapply untouched_trans; [|exact A6|exact B6]. intros f [k Hk]. exists k. by eapply lookup_weaken.
Qed.

Lemma ensure_table_spec m T l pool r p pa i :
  mmu_ok m T l pool → T !! (r, p) = Some pa → (length p < 3)%nat → (i < 512)%nat →
  wp (ensure_table pa i) (λ res m', ∃ T' l', mmu_ok m' T' l' pool ∧ extends r m m' T T' ∧
    match res with
    | inl c => T' !! (r, p ++ [i]) = Some c
    | inr e => e = ArchOutOfFrames ∧ l = []
    end) m.
Proof.
  intros Hm Hp Hl Hi. pose proof (tree_step _ _ r p pa i (mk_tree _ _ _ _ Hm) Hp Hl Hi) as Hs.
  unfold ensure_table. apply wp_bind, wp_gets. destruct (T !! (r, p ++ [i])) as [c|] eqn:Hc.
  { destruct Hs as [-> ->]. apply wp_ret. exists T, l. split_and!; [done|apply extends_refl|done]. }
  rewrite Hs. cbn [is_table_desc Z.land]. apply wp_try. eapply wp_mono; [exact (alloc_table_spec _ _ _ _ Hm)|].
  intros res m1 (Hk1 & Hmem & H1). destruct l as [|x l].
  { destruct H1 as [-> ->]. exists T, []. split_and!; [done|apply extends_refl|done|done]. }
  destruct H1 as [-> Hfa]. destruct Hm as [M1 M2 M3 M4 M5 M6 M7].
  assert (∀ f, f ∈ x :: l → table_frame f) as Hfr by (intros f Hf; apply M7, M6; by left).
  assert (table_frame x) as Hx by (apply Hfr; by left).
  assert (x ∉ l) as Hxl by (apply ok_sorted, sorted_nodup, NoDup_cons in M4 as [? _]; done).
  assert (∀ k, T !! k ≠ Some x) as Hfresh by (intros k; apply M5; by left).
  assert (pa ∉ l) as Hpl by (intros Hin; apply (M5 pa (r, p)); [by right|done]).
  apply wp_bind, wp_done. exists tt, (set_memory (zeroed x) m1). split; [apply table_clear_spec|].
  apply wp_bind, wp_modify, wp_ret. rewrite set_memory_twice.
  set (m' := set_memory _ m1). exists (<[(r, p ++ [i]) := x]> T), l.
  assert (memory m' = installed_st (memory m) pa i x) as Hst by (unfold installed_st; by rewrite <-Hmem).
  split_and!; [|split|by rewrite lookup_insert_eq].
  - assert (kept m m') as Hk by exact Hk1. unfold kept, settings in Hk. injection Hk as E1 E2 E3 E4 E5. split.
    + exact (eq_trans E1 M1).
    + exact (eq_trans E3 M2).
    + rewrite Hst. by apply installed_tree.
    + apply (fa_ok_store (rt_frames (mm_rt m1))); [done|]. intros f Hf.
      assert (∀ f, f ∈ l → table_frame f) as Hfr' by (intros g Hg; apply Hfr; by right).
      rewrite (free_kept_by_entry l pa i _ (zeroed x (memory m1)) Hfr' (tr_frame _ _ M3 _ _ Hp) Hpl Hi f Hf).
      by apply (free_kept_by_zero l).
    + intros f k Hf [[<- <-]|[_ Hk]]%lookup_insert_Some; [done|]. by apply (M5 f k); [right|].
    + by eapply pool_move.
    + intros f Hf. destruct (M7 f Hf). split; [done|]. by eapply (kept_usable m).
  - exact Hk1.
  - by apply insert_subseteq.
  - intros r0. apply lookup_insert_ne. intros [= _ E]. by destruct p.
  - intros r0 q Hne. apply lookup_insert_ne. congruence.
  - intros r0 va. rewrite Hst. by apply installed_leaf.
  - intros y Hy. rewrite Hst. unfold installed_st. rewrite lookup_insert_ne, zeroed_outside; [done| |].
    + apply Hy. exists (r, p ++ [i]). by rewrite lookup_insert_eq.
    + intros <-. apply (Hy pa); [|by apply entry_on_page]. exists (r, p). rewrite lookup_insert_ne; [done|]. intros [= E].
      apply (f_equal length) in E. rewrite length_app in E. simpl in E. lia.
Qed.

(** ** Mapping a page *)

Lemma live_root m T l pool r : mmu_ok m T l pool → T !! (r, []) = Some r → (r =? 0) = false.
Proof. intros Hm Hr. apply Z.eqb_neq. apply (tr_frame _ _ (mk_tree _ _ _ _ Hm)) in Hr as [? _]. lia. Qed.

Lemma ensure_l3_spec m T l pool r va :
  mmu_ok m T l pool → T !! (r, []) = Some r →
  wp (ensure_user_l3_table r va) (λ res m', ∃ T' l', mmu_ok m' T' l' pool ∧ extends r m m' T T' ∧
    match res with
    | inl c => T' !! (r, leaf_path va) = Some c
    | inr e => e = ArchOutOfFrames
    end) m.
Proof.
  intros Hm Hr. unfold ensure_user_l3_table. rewrite (live_root _ _ _ _ _ Hm Hr). destruct (index_bound va) as (B0 & B1 & B2 & _).
  apply wp_try. eapply wp_mono; [apply (ensure_table_spec m T l pool r [] r); [done|done|simpl; lia|done]|].
  intros res m1 (T1 & l1 & Hm1 & Hx1 & H1). destruct res as [c1|e]; [|exists T1, l1; by destruct H1].
  apply wp_try. eapply wp_mono; [apply (ensure_table_spec m1 T1 l1 pool r [l0_index va] c1); [done|done|simpl; lia|done]|].
  intros res m2 (T2 & l2 & Hm2 & Hx2 & H2). pose proof (extends_trans _ _ _ _ _ _ _ Hx1 Hx2) as Hx.
  destruct res as [c2|e]; [|exists T2, l2; by destruct H2].
  eapply wp_mono; [apply (ensure_table_spec m2 T2 l2 pool r [l0_index va; l1_index va] c2); [done|done|simpl; lia|done]|].
  intros res m3 (T3 & l3 & Hm3 & Hx3 & H3). exists T3, l3. split_and!; [done|by eapply extends_trans|].
  destruct res as [c3|e]; [exact H3|by destruct H3].
Qed.

(** Valid descriptors of a leaf table are page descriptors. *)
Lemma leaf_valid st T r va c :
  tree_ok st T → T !! (r, leaf_path va) = Some c → is_user_va va = true →
  (Z.land (entry st c (l3_index va)) DESC_VALID =? 0) = bool_decide (leaf st T r va = None).
Proof.
  intros Ht Hc Hu. unfold leaf. rewrite Hu, Hc. cbn [mbind option_bind]. cbv zeta.
  destruct (tr_leaf _ _ Ht _ _ _ (l3_index va) Hc) as [->|(frame & flags & _ & ->)]; [done|apply index_bound|done|].
  destruct (user_page_desc_page frame flags) as [-> Hv]. rewrite bool_decide_false by done. by apply Z.eqb_neq.
Qed.

Lemma page_offset a : 0 <= a → Z.land a (PAGE_SIZE - 1) = a mod PAGE_SIZE.
Proof. apply land_page. Qed.

(** What mapping a page does. *)
Definition map_page_post (m : Mmu) (T : tables) (r va pa flags : Z) (res : unit + ArchVmError) (m' : Mmu) (T' : tables) : Prop :=
  match res with
  | inl _ => is_user_va va = true ∧ va mod PAGE_SIZE = 0 ∧ leaf (memory m) T r va = None ∧
      ∀ r0 va0, 0 <= va0 → leaf (memory m') T' r0 va0
        = if decide (r0 = r ∧ va0 / PAGE_SIZE = va / PAGE_SIZE) then Some (user_page_desc pa flags) else leaf (memory m) T r0 va0
  | inr e => (∀ r0 va0, leaf (memory m') T' r0 va0 = leaf (memory m) T r0 va0) ∧
      match e with
      | ArchInvalidRange => is_user_va va = false
      | ArchNotAligned => va mod PAGE_SIZE ≠ 0
      | ArchAlreadyMapped => leaf (memory m) T r va ≠ None
      | e => e = ArchOutOfFrames
      end
  end.

Lemma map_user_page_spec m T l pool r va pa flags :
  mmu_ok m T l pool → T !! (r, []) = Some r → 0 <= va → page_frame pa →
  wp (map_user_page r va pa flags) (λ res m', ∃ T' l', mmu_ok m' T' l' pool ∧ kept m m' ∧
    (∀ r0, T' !! (r0, []) = T !! (r0, [])) ∧ (∀ r0 p, r0 ≠ r → T' !! (r0, p) = T !! (r0, p)) ∧
    untouched (λ f, f ∈ pool) m m' ∧ map_page_post m T r va pa flags res m' T') m.
Proof.
  intros Hm Hr Hva Hpa. unfold map_user_page. apply wp_try, wp_gets. rewrite (mk_active _ _ _ _ Hm).
  unfold validate_user_page. destruct (is_user_va va) eqn:Hu; cbn [negb].
  2:{ apply wp_ret. exists T, l. by split_and!. }
  rewrite (page_offset va), (page_offset pa) by (done || apply Hpa). destruct Hpa as [Hpb Hpm]. rewrite Hpm. cbn [Z.eqb negb].
  rewrite orb_false_r. destruct (Z.eqb_spec (va mod PAGE_SIZE) 0) as [Hal|Hal]; cbn [negb].
  2:{ apply wp_ret. exists T, l. by split_and!. }
  apply wp_try. eapply wp_mono; [exact (ensure_l3_spec m T l pool r va Hm Hr)|].
  intros res m1 (T1 & l1 & Hm1 & [X1 X2 X3 X5 X4 X6] & H1).
  assert (untouched (λ f, f ∈ pool) m m1) as Hout.
  { eapply untouched_mono; [|exact X6]. intros f [k Hk]. apply (mk_pool _ _ _ _ Hm1). eauto. }
  destruct res as [l3|e].
  2:{ subst e. exists T1, l1. by split_and!. }
  apply wp_bind, wp_gets. rewrite (leaf_valid _ T1 r va l3 (mk_tree _ _ _ _ Hm1) H1 Hu), X4.
  case_bool_decide as Hnone; cbn [negb].
  2:{ apply wp_ret. exists T1, l1. by split_and!. }
  apply wp_bind, wp_modify, wp_ret. set (m' := set_memory _ m1). exists T1, l1.
  destruct Hm1 as [M1 M2 M3 M4 M5 M6 M7].
  assert (memory m' = mapped_st (memory m1) va l3 pa flags) as Hst by done.
  split_and!; [|exact X1|done|done| |split_and!; [done|done|done|]].
  - split; [done|done| | |done|done|].
    + rewrite Hst. by eapply mapped_tree.
    + apply (fa_ok_store (rt_frames (mm_rt m1))); [done|]. apply free_kept_by_entry.
      * intros f Hf. apply M7, M6. by left.
      * by eapply (tr_frame _ _ M3).
      * intros Hin. by apply (M5 l3 _ Hin H1).
      * apply index_bound.
    + intros f Hf. by destruct (M7 f Hf).
  - eapply untouched_trans; [|exact Hout|]; [done|]. intros y Hy. rewrite Hst. apply lookup_insert_ne. intros <-.
    apply (Hy l3); [apply M6; right; eauto|]. apply entry_on_page, index_bound.
  - intros r0 va0 Hva0. rewrite Hst. rewrite (mapped_leaf _ T1 r); [|done..]. by rewrite X4.
Qed.

(** ** Creating an address space *)

(** A cleared root is an empty address space. *)
Lemma new_root st T x :
  tree_ok st T → table_frame x → (∀ k, T !! k ≠ Some x) →
  tree_ok (zeroed x st) (<[(x, []) := x]> T) ∧
  ∀ r va, leaf (zeroed x st) (<[(x, []) := x]> T) r va = leaf st T r va.
Proof.
  intros Ht Hx Hfresh.
  assert (∀ p, T !! (x, p) = None) as Hnone.
  { intros p. destruct (T !! (x, p)) as [c|] eqn:Hc; [|done]. by destruct (Hfresh (x, [])); eapply (tr_root _ _ Ht). }
  destruct (tree_ext st (zeroed x st) T) as [[H1 H2 H3 H4 H5 H6] Hleaf]; [|done|].
  { intros k pa i Hk Hi. destruct Hx as [_ Hxm]. pose proof (tr_frame _ _ Ht _ _ Hk) as [_ ?]. apply entry_zeroed_ne; [done..|].
    intros <-. by apply (Hfresh k). }
  assert (∀ k, T !! k ≠ None → <[(x, []) := x]> T !! k = T !! k) as Hold.
  { intros k Hk. apply lookup_insert_ne. intros <-. by rewrite Hnone in Hk. }
  split; [split|].
  - intros r p pa [[[= -> <-] <-]|[_ Hk]]%lookup_insert_Some; [by rewrite lookup_insert_eq|].
    apply H1 in Hk. rewrite Hold; [done|congruence].
  - intros k pa [[<- <-]|[_ Hk]]%lookup_insert_Some; [done|by eapply H2].
  - intros k1 k2 pa [[<- <-]|[_ E1]]%lookup_insert_Some [[<- E2]|[_ E2]]%lookup_insert_Some; [done| | |by eapply H3].
    + by destruct (Hfresh k2).
    + subst pa. by destruct (Hfresh k1).
  - intros r p i c [[[= _ E] _]|[_ Hk]]%lookup_insert_Some; [by destruct p|].
    apply H4 in Hk as ([y Hy] & ? & ?). split_and!; [|done|done]. rewrite Hold; [by exists y|congruence].
  - intros r p pa i [[[= <- <-] <-]|[_ Hk]]%lookup_insert_Some Hl Hi.
    + rewrite entry_zeroed by done. rewrite lookup_insert_ne by done. by rewrite Hnone.
    + rewrite (H5 r p pa i) by done. rewrite lookup_insert_ne; [done|]. intros [= _ E]. by destruct p.
  - intros r p pa i [[[= <- <-] <-]|[_ Hk]]%lookup_insert_Some Hl Hi; [done|]. by eapply H6.
  - intros r va. rewrite <-Hleaf. unfold leaf. rewrite lookup_insert_ne by done. done.
Qed.

Lemma create_spec m T l pool :
  mmu_ok m T l pool →
  wp create_user_address_space (λ res m', ∃ T' l', mmu_ok m' T' l' pool ∧ kept m m' ∧ untouched (λ f, f ∈ pool) m m' ∧
    (∀ r va, leaf (memory m') T' r va = leaf (memory m) T r va) ∧
    match res with
    | inl r => T !! (r, []) = None ∧ T' = <[(r, []) := r]> T ∧ l = r :: l'
    | inr e => e = ArchOutOfFrames ∧ l = [] ∧ T' = T ∧ m' = m
    end) m.
Proof.
  intros Hm. unfold create_user_address_space. apply wp_try, wp_gets. rewrite (mk_active _ _ _ _ Hm).
  apply wp_try. eapply wp_mono; [exact (alloc_table_spec _ _ _ _ Hm)|]. intros res m1 (Hk & Hmem & H1).
  destruct l as [|x l]. { destruct H1 as [-> ->]. exists T, []. by split_and!. }
  destruct H1 as [-> Hfa]. destruct Hm as [M1 M2 M3 M4 M5 M6 M7].
  assert (∀ f, f ∈ x :: l → table_frame f) as Hfr by (intros f Hf; apply M7, M6; by left).
  assert (table_frame x) as Hx by (apply Hfr; by left).
  assert (x ∉ l) as Hxl by (apply ok_sorted, sorted_nodup, NoDup_cons in M4 as [? _]; done).
  assert (∀ k, T !! k ≠ Some x) as Hfresh by (intros k; apply M5; by left).
  assert (T !! (x, []) = None) as Hnone.
  { destruct (T !! (x, [])) as [c|] eqn:Hc; [|done]. destruct (Hfresh (x, [])). by eapply (tr_root _ _ M3). }
  destruct (new_root (memory m) T x M3 Hx Hfresh) as [Htree Hleaf].
  apply wp_bind, wp_done. exists tt, (set_memory (zeroed x) m1). split; [apply table_clear_spec|]. apply wp_ret.
  exists (<[(x, []) := x]> T), l. unfold kept, settings in Hk. injection Hk as E1 E2 E3 E4 E5.
  change (memory (set_memory (zeroed x) m1)) with (zeroed x (memory m1)). rewrite Hmem.
  split_and!; [split|unfold kept, settings; simpl; congruence| |done|done|done|done].
  - exact (eq_trans E1 M1).
  - exact (eq_trans E3 M2).
  - change (memory (set_memory (zeroed x) m1)) with (zeroed x (memory m1)). by rewrite Hmem.
  - apply (fa_ok_store (rt_frames (mm_rt m1))); [done|]. apply free_kept_by_zero; [|done|done].
    intros f Hf. apply Hfr. by right.
  - intros f k Hf [[<- <-]|[_ Hk]]%lookup_insert_Some; [done|]. by apply (M5 f k); [right|].
  - by eapply pool_move.
  - intros f Hf. destruct (M7 f Hf). split; [done|]. unfold usable_frame in *. simpl. by rewrite E4.
  - intros y Hy. change (memory (set_memory (zeroed x) m1)) with (zeroed x (memory m1)). rewrite Hmem. apply zeroed_outside, Hy.
    apply M6. left. by left.
Qed.

(** ** Destroying an address space *)

Section destroy.
Context (T : tables) (st0 : gmap Z Z) (l0 : list Z) (pool : gset Z) (r : Z) (m0 : Mmu).
Hypothesis Hm0 : mmu_ok m0 T l0 pool.
Hypothesis Hst0 : st0 = memory m0.

(** The frames below a path. *)
Definition under (p : list nat) (f : Z) : Prop := ∃ q, T !! (r, p ++ q) = Some f.

(** Half-way: the frames [P] are freed, all other tables are untouched. *)
Record destroying (P : Z → Prop) (m : Mmu) : Prop := {
  de_kept : kept m0 m;
  de_free : ∃ l, fa_ok PAGE_SIZE (rt_frames (mm_rt m)) l ∧ ∀ f, f ∈ l ↔ f ∈ l0 ∨ P f;
  de_entry : ∀ k c i, T !! k = Some c → ¬ P c → (i < 512)%nat → entry (memory m) c i = entry st0 c i;
  de_outside : untouched (λ f, f ∈ pool) m0 m
}.

Lemma destroying_iff P P' m : (∀ f, P f ↔ P' f) → destroying P m → destroying P' m.
Proof.
  intros HP [H1 (l & H2 & H3) H4 H5]. split; [done| | |done].
  - exists l. split; [done|]. intros f. by rewrite H3, HP.
  - intros k c i Hk Hn. apply (H4 k); [done|]. by rewrite HP.
Qed.

Lemma free_table_spec P m k pa :
  destroying P m → T !! k = Some pa → ¬ P pa → (∀ f, P f → ∃ k, T !! k = Some f) →
  wp (free_table pa) (λ _ m', destroying (λ f, P f ∨ f = pa) m') m.
Proof.
  intros [D1 (l & D2 & D3) D4 D5] Hk Hn HP. destruct Hm0 as [M1 M2 M3 M4 M5 M6 M7].
  assert (pa ∈ pool) as Hpool by (apply M6; right; eauto). destruct (M7 pa Hpool) as [Hpf Hpu].
  pose proof D1 as D1'. unfold kept, settings in D1'. injection D1' as E1 E2 E3 E4 E5.
  assert (∀ f, f ∈ l → table_frame f) as Hfr.
  { intros f [Hf|Hf]%D3; [apply M7, M6; by left|]. apply HP in Hf as (k' & Hk'). by eapply (tr_frame _ _ M3). }
  unfold free_table. apply wp_on_runtime. unfold runtime_free_frame. apply wp_bind, wp_gets. rewrite E3, M2.
  apply wp_bind, wp_assert; [done|]. apply wp_bind, wp_gets. rewrite E4. apply wp_bind, wp_assert; [done|].
  apply wp_on_frames. eapply wp_mono; [apply (free_frame_spec PAGE_SIZE page_size_pos pa _ l D2)|].
  - destruct Hpf as [[? Hb] ?]. split_and!; [lia|done|]. unfold u64_max, PAGE_SIZE. change (2 ^ 48) with 281474976710656 in Hb. lia.
  - intros [Hin|Hin]%D3; [by apply (M5 pa k)|done].
  - intros [] s [(a & b & E & Hok) Ho]. split; [done| | |].
    + exists (a ++ pa :: b). split; [done|]. intros f. rewrite elem_of_app, elem_of_cons. specialize (D3 f). rewrite E, elem_of_app in D3. tauto.
    + intros k' c i Hk' Hc Hi. rewrite <-(D4 k' c i) by tauto. unfold entry. f_equal. apply Ho.
      intros Hin. pose proof (tr_frame _ _ M3 _ _ Hk') as [_ Hcm].
      assert (c ∈ pa :: l) as Hcl.
      { replace c with (entry_addr c i); [done|]. symmetry. eapply entry_addr_frame; [done| |done|done].
        apply elem_of_cons in Hin as [->|Hin]; [by destruct Hpf|by apply Hfr in Hin as [_ ?]]. }
      apply elem_of_cons in Hcl as [->|[Hc'|Hc']%D3]; [tauto|by apply (M5 c k')|tauto].
    + eapply untouched_trans; [|exact D5|]; [done|]. intros y Hy. apply Ho. intros Hin.
      apply (Hy y); [|unfold on_page, PAGE_SIZE; lia]. apply elem_of_cons in Hin as [->|[Hin|Hin]%D3]; [done|apply M6; by left|].
      apply M6. right. by apply HP.
Qed.

(** [D] frees the subtree at [p]. *)
Definition frees (D : Z → K unit) (p : list nat) : Prop :=
  ∀ P m pa, destroying P m → T !! (r, p) = Some pa → (∀ f, under p f → ¬ P f) → (∀ f, P f → ∃ k, T !! k = Some f) →
    wp (D pa) (λ _ m', destroying (λ f, P f ∨ under p f) m') m.

Lemma under_child p i f : under (p ++ [i]) f → under p f.
Proof. intros [q Hq]. exists (i :: q). by rewrite <-app_assoc in Hq. Qed.

Lemma under_live p f : under p f → ∃ k, T !! k = Some f.
Proof. intros [q Hq]. eauto. Qed.

Lemma child_present p i q f : T !! (r, p ++ i :: q) = Some f → is_Some (T !! (r, p ++ [i])).
Proof.
  intros Hf. destruct (T !! (r, p ++ [i])) eqn:Hi; [by eexists|].
  by rewrite (missing_below (memory m0) T r p i q (mk_tree _ _ _ _ Hm0) Hi) in Hf.
Qed.

Lemma under_split p pa f :
  T !! (r, p) = Some pa → under p f ↔ f = pa ∨ ∃ i, (i < 512)%nat ∧ under (p ++ [i]) f.
Proof.
  intros Hp. split.
  - intros [[|i q] Hq]; [left; rewrite app_nil_r in Hq; congruence|right]. exists i. split.
    + destruct (child_present _ _ _ _ Hq) as [c Hc]. by apply (tr_closed _ _ (mk_tree _ _ _ _ Hm0)) in Hc as (_ & ? & _).
    + exists q. by rewrite <-app_assoc.
  - intros [->|(i & _ & Hi)]; [exists []; by rewrite app_nil_r|by eapply under_child].
Qed.

Lemma under_apart p i j f : under (p ++ [i]) f → under (p ++ [j]) f → i = j.
Proof.
  intros [q1 H1] [q2 H2]. pose proof (tr_inj _ _ (mk_tree _ _ _ _ Hm0) _ _ _ H1 H2) as E.
  injection E as E. rewrite <-!app_assoc in E. by apply app_inv_head in E as [= ->].
Qed.

Lemma under_not_root p i pa : T !! (r, p) = Some pa → ¬ under (p ++ [i]) pa.
Proof.
  intros Hp [q Hq]. pose proof (tr_inj _ _ (mk_tree _ _ _ _ Hm0) _ _ _ Hp Hq) as E. injection E as E.
  apply (f_equal length) in E. rewrite !length_app in E. simpl in E. lia.
Qed.

Lemma frees_leaf p : length p = 3%nat → frees free_table p.
Proof.
  intros Hl P m pa HD Hp Hu HP. eapply wp_mono; [apply (free_table_spec P m (r, p)); [done|done| |done]|].
  - apply Hu. by apply (under_split p pa pa Hp); left.
  - intros ? m'. apply destroying_iff. intros f. rewrite (under_split p pa f Hp). split; [tauto|].
    intros [?|[?|(i & _ & [q Hq])]]; [by left|by right|]. exfalso. rewrite <-app_assoc in Hq.
    destruct (child_present _ _ _ _ Hq) as [c Hc]. apply (tr_closed _ _ (mk_tree _ _ _ _ Hm0)) in Hc as (_ & _ & ?). lia.
Qed.

Definition destroy_entry (D : Z → K unit) (pa : Z) (i : nat) : K unit :=
  e ← table_read pa i; if is_table_desc e then D (desc_pa e) else mret tt.

Lemma destroy_entry_spec D p pa i P m :
  frees D (p ++ [i]) → (length p < 3)%nat → (i < 512)%nat → T !! (r, p) = Some pa → destroying P m → ¬ P pa →
  (∀ f, under (p ++ [i]) f → ¬ P f) → (∀ f, P f → ∃ k, T !! k = Some f) →
  wp (destroy_entry D pa i) (λ _ m', destroying (λ f, P f ∨ under (p ++ [i]) f) m') m.
Proof.
  intros HD Hl Hi Hp Hdes Hn Hu HP. unfold destroy_entry. apply wp_bind, wp_gets.
  rewrite (de_entry _ _ Hdes (r, p) pa i Hp Hn Hi), Hst0.
  pose proof (tree_step _ _ r p pa i (mk_tree _ _ _ _ Hm0) Hp Hl Hi) as Hs.
  destruct (T !! (r, p ++ [i])) as [c|] eqn:Hc.
  - destruct Hs as [-> ->]. by apply HD.
  - rewrite Hs. apply wp_ret. eapply destroying_iff; [|done]. intros f. split; [by left|]. intros [?|[q Hq]]; [done|].
    rewrite <-app_assoc in Hq. destruct (child_present _ _ _ _ Hq). congruence.
Qed.

Lemma frees_level D p :
  (length p < 3)%nat → (∀ i, (i < 512)%nat → frees D (p ++ [i])) →
  frees (λ pa, for_each (destroy_entry D pa) (seq 0 TABLE_ENTRIES);; free_table pa) p.
Proof.
  intros Hl HD P m pa Hdes Hp Hu HP. pose proof (Hu pa ltac:(by apply (under_split p pa pa Hp); left)) as Hnp.
  set (Q n f := P f ∨ ∃ i, (i < n)%nat ∧ under (p ++ [i]) f).
  assert (∀ k n m, (n + k = 512)%nat → destroying (Q n) m →
            wp (for_each (destroy_entry D pa) (seq n k)) (λ _ m', destroying (Q 512%nat) m') m) as Hloop.
  { induction k as [|k IH]; intros n m1 Hn Hd; cbn [for_each seq].
    { apply wp_ret. by replace 512%nat with n by lia. }
    apply wp_bind. eapply wp_mono; [apply (destroy_entry_spec D p pa n (Q n) m1); try done; [by apply HD; lia|lia| | |]|].
    - intros [?|(i & _ & Hi)]; [done|by eapply under_not_root].
    - intros f Hf [Hb|(i & Hi & Hi')]; [by eapply Hu; [eapply under_child|]|]. pose proof (under_apart _ _ _ _ Hf Hi'). lia.
    - intros f [?|(i & _ & Hi)]; [by apply HP|by eapply under_live].
    - intros ? m2 Hd2. apply IH; [lia|]. eapply destroying_iff; [|exact Hd2]. intros f. unfold Q. split.
      + intros [[?|(i & ? & ?)]|?]; [by left|right; exists i; split; [lia|done]|right; exists n; split; [lia|done]].
      + intros [?|(i & Hi & ?)]; [by do 2 left|]. destruct (decide (i = n)) as [->|]; [by right|].
        left. right. exists i. split; [lia|done]. }
  apply wp_bind. eapply wp_mono; [apply (Hloop 512%nat 0%nat); [done|]|].
  { eapply destroying_iff; [|exact Hdes]. intros f. split; [by left|]. intros [?|(i & ? & _)]; [done|lia]. }
  intros ? m1 Hd1. eapply wp_mono; [apply (free_table_spec (Q 512%nat) m1 (r, p)); [done|done| |]|].
  - intros [?|(i & _ & Hi)]; [done|by eapply under_not_root].
  - intros f [?|(i & _ & Hi)]; [by apply HP|by eapply under_live].
  - intros ? m2. apply destroying_iff. intros f. rewrite (under_split p pa f Hp). unfold Q. tauto.
Qed.
End destroy.

(** The other address spaces. *)
Definition without (r : Z) (T : tables) : tables := filter (λ kv, kv.1.1 ≠ r) T.

Lemma without_lookup r T r0 p c : without r T !! (r0, p) = Some c ↔ T !! (r0, p) = Some c ∧ r0 ≠ r.
Proof. unfold without. by rewrite map_lookup_filter_Some. Qed.

Lemma without_eq r T r0 p : r0 ≠ r → without r T !! (r0, p) = T !! (r0, p).
Proof.
  intros Hne. apply option_eq. intros c. rewrite without_lookup. tauto.
Qed.

Lemma without_tree st T r : tree_ok st T → tree_ok st (without r T).
Proof.
  intros [H1 H2 H3 H4 H5 H6]. split.
  - intros r0 p pa [Hk Hne]%without_lookup. rewrite without_eq by done. by eapply H1.
  - intros [r0 p] pa [Hk _]%without_lookup. by eapply H2.
  - intros [r1 p1] [r2 p2] pa [Hk1 _]%without_lookup [Hk2 _]%without_lookup. by eapply H3.
  - intros r0 p i c [Hk Hne]%without_lookup. rewrite without_eq by done. by eapply H4.
  - intros r0 p pa i [Hk Hne]%without_lookup. rewrite without_eq by done. by apply H5.
  - intros r0 p pa i [Hk _]%without_lookup. by eapply H6.
Qed.

Lemma destroy_spec m T l pool r :
  mmu_ok m T l pool → T !! (r, []) = Some r → Z.land (mm_ttbr0 m) DESC_ADDR_MASK ≠ r →
  wp (destroy_user_address_space r) (λ res m', res = inl tt ∧ kept m m' ∧ untouched (λ f, f ∈ pool) m m' ∧
    (∃ l', mmu_ok m' (without r T) l' pool) ∧
    ∀ r0 va, r0 ≠ r → leaf (memory m') (without r T) r0 va = leaf (memory m) T r0 va) m.
Proof.
  intros Hm Hr Hcur. unfold destroy_user_address_space. apply wp_try, wp_gets. rewrite (mk_active _ _ _ _ Hm).
  rewrite (live_root _ _ _ _ _ Hm Hr). apply wp_bind, wp_gets. rewrite (proj2 (Z.eqb_neq _ _) Hcur).
  assert (∀ p, length p = 2%nat → frees T (memory m) l pool r m destroy_l2 p) as F2.
  { intros p Hp. eapply frees_level; [done|done|lia|]. intros i Hi. eapply frees_leaf; [done|]. rewrite length_app. simpl. lia. }
  assert (∀ p, length p = 1%nat → frees T (memory m) l pool r m destroy_l1 p) as F1.
  { intros p Hp. eapply frees_level; [done|done|lia|]. intros i Hi. apply F2. rewrite length_app. simpl. lia. }
  assert (destroying T (memory m) l pool m (λ _, False) m) as Hstart.
  { split; [done| |done|done]. exists l. split; [apply Hm|]. intros f. tauto. }
  pose proof (frees_level T (memory m) l pool r m Hm eq_refl destroy_l1 [] ltac:(simpl; lia) ltac:(intros i _; by apply F1)
                (λ _, False) m r Hstart Hr ltac:(intros ? ? []) ltac:(intros ? [])) as H.
  apply wp_bind_inv in H. apply wp_bind. eapply wp_mono; [exact H|]. intros [] m1 H1.
  apply wp_bind. eapply wp_mono; [exact H1|]. intros [] m2 [D1 (l2 & D2 & D3) D4 D5]. apply wp_ret.
  destruct Hm as [M1 M2 M3 M4 M5 M6 M7]. pose proof D1 as D1'. unfold kept, settings in D1'. injection D1' as E1 E2 E3 E4 E5.
  assert (∀ f, under T r [] f ↔ ∃ p, T !! (r, p) = Some f) as Hu by done.
  destruct (tree_ext (memory m) (memory m2) (without r T)) as [Htree Hleaf].
  { intros [r0 p] pa i [Hk Hne]%without_lookup Hi. apply (D4 (r0, p)); [done| |done]. intros [[]|[q Hq]].
    apply Hne. pose proof (tr_inj _ _ M3 _ _ _ Hk Hq) as E. congruence. }
  { by apply without_tree. }
  split_and!; [done|done|done|exists l2; split|].
  - congruence.
  - congruence.
  - done.
  - done.
  - intros f [r0 p] Hf [Hk Hne]%without_lookup. apply D3 in Hf as [Hf|[[]|[q Hq]]]; [by apply (M5 f (r0, p))|].
    apply Hne. pose proof (tr_inj _ _ M3 _ _ _ Hk Hq) as E. congruence.
  - intros f. rewrite M6, D3. split.
    + intros [?|([r0 p] & Hk)]; [by do 2 left|]. destruct (decide (r0 = r)) as [->|Hne]; [left; do 2 right; by exists p|].
      right. exists (r0, p). by apply without_lookup.
    + intros [[?|[[]|[q Hq]]]|([r0 p] & [Hk _]%without_lookup)]; [by left|right; eauto|right; eauto].
  - intros f Hf. destruct (M7 f Hf). split; [done|]. by eapply kept_usable.
  - intros r0 va Hne. rewrite Hleaf. unfold leaf. by rewrite without_eq.
Qed.

(** ** What holds for every machine *)

(** [live] are the roots of the address spaces, [pool] the frames of the
    allocator and of the tables. *)
Definition machine_ok (m : Mmu) (live pool : gset Z) : Prop :=
  ∃ T l, mmu_ok m T l pool ∧ ∀ r, r ∈ live ↔ T !! (r, []) = Some r.

Lemma query_leaf m T l pool r va :
  mmu_ok m T l pool → T !! (r, []) = Some r →
  query_user_mapping (memory m) r va = (λ d, user_mapping_info_from_desc d va) <$> leaf (memory m) T r va.
Proof.
  intros Hm Hr. unfold query_user_mapping. rewrite (lookup_leaf _ T) by (done || apply Hm). by destruct (leaf _ _ _ _).
Qed.

(** The mapping a page descriptor stands for. *)
Definition page_info (pa flags va : Z) : UserMappingInfo :=
  mkUserMappingInfo (pa + va mod PAGE_SIZE) true true (flags_contain flags USER_WRITE) (flags_contain flags USER_EXECUTE).

Lemma page_desc_info pa flags va : page_frame pa → 0 <= va → user_mapping_info_from_desc (user_page_desc pa flags) va = page_info pa flags va.
Proof. intros Hpa Hva. rewrite user_page_desc_info by done. by rewrite page_offset. Qed.

(** The queries after a page was mapped, or not. *)
Definition map_queries (m : Mmu) (live : gset Z) (r va pa flags : Z) (res : unit + ArchVmError) (m' : Mmu) : Prop :=
  match res with
  | inl _ => is_user_va va = true ∧ va mod PAGE_SIZE = 0 ∧ query_user_mapping (memory m) r va = None ∧
      ∀ r0 va0, r0 ∈ live → 0 <= va0 → query_user_mapping (memory m') r0 va0
        = if decide (r0 = r ∧ va0 / PAGE_SIZE = va / PAGE_SIZE) then Some (page_info pa flags va0)
          else query_user_mapping (memory m) r0 va0
  | inr e => (∀ r0 va0, r0 ∈ live → query_user_mapping (memory m') r0 va0 = query_user_mapping (memory m) r0 va0) ∧
      match e with
      | ArchInvalidRange => is_user_va va = false
      | ArchNotAligned => va mod PAGE_SIZE ≠ 0
      | ArchAlreadyMapped => query_user_mapping (memory m) r va ≠ None
      | e => e = ArchOutOfFrames
      end
  end.

Lemma map_page_machine m live pool r va pa flags :
  machine_ok m live pool → r ∈ live → 0 <= va → page_frame pa →
  wp (map_user_page r va pa flags) (λ res m', machine_ok m' live pool ∧ kept m m' ∧
    untouched (λ f, f ∈ pool) m m' ∧ map_queries m live r va pa flags res m') m.
Proof.
  intros (T & l & Hm & Hlive) Hr Hva Hpa. eapply wp_mono; [apply (map_user_page_spec m T l pool); [done|by apply Hlive|done|done]|].
  intros res m' (T' & l' & Hm' & Hk & Hroots & _ & Hout & Hpost).
  assert (∀ r0 va0, r0 ∈ live → query_user_mapping (memory m) r0 va0
            = (λ d, user_mapping_info_from_desc d va0) <$> leaf (memory m) T r0 va0) as Hq.
  { intros r0 va0 H0%Hlive. by eapply query_leaf. }
  assert (∀ r0 va0, r0 ∈ live → query_user_mapping (memory m') r0 va0
            = (λ d, user_mapping_info_from_desc d va0) <$> leaf (memory m') T' r0 va0) as Hq'.
  { intros r0 va0 H0%Hlive. eapply query_leaf; [done|]. by rewrite Hroots. }
  split_and!; [exists T', l'; split; [done|]; intros r0; by rewrite Hlive, Hroots|done|done|].
  unfold map_page_post in Hpost. unfold map_queries. rewrite (Hq r va Hr). destruct res as [[]|e].
  - destruct Hpost as (P1 & P2 & P3 & P4). rewrite P3. split_and!; [done|done|done|]. intros r0 va0 Hr0 Hva0.
    rewrite Hq', Hq, P4 by done. destruct (decide _); [|done]. simpl. by rewrite page_desc_info.
  - destruct Hpost as [P1 P2]. split; [intros r0 va0 Hr0; by rewrite Hq', Hq, P1|].
    destruct e; try done. by destruct (leaf (memory m) T r va).
Qed.

(** ** The kernel's range mapping on these tables *)

(** The architecture's hook as the kernel calls it for one address space. *)
Definition arch_hook (r flags : Z) (m : Mmu) (va pa : Z) : Mmu * Z :=
  match arch_map_user_page r va pa flags m with
  | Done (code, m') => (m', code)
  | Panic _ => (m, vm_error_code ArchUnsupported)
  end.

Lemma arch_hook_spec m live pool r va pa flags :
  machine_ok m live pool → r ∈ live → 0 <= va → page_frame pa →
  ∃ res m', arch_hook r flags m va pa = (m', match res with inl _ => 0 | inr e => vm_error_code e end) ∧
    machine_ok m' live pool ∧ kept m m' ∧ untouched (λ f, f ∈ pool) m m' ∧ map_queries m live r va pa flags res m'.
Proof.
  intros Hm Hr Hva Hpa. destruct (wp_run _ _ _ (map_page_machine m live pool r va pa flags Hm Hr Hva Hpa)) as (res & m' & H & Hpost).
  exists res, m'. split; [|done]. unfold arch_hook, arch_map_user_page, status, mbind, M_bind. rewrite H. by destruct res.
Qed.

Lemma status_code e : vm_result (vm_error_code e) = inr (vm_error_from_code (vm_error_code e)).
Proof. by destruct e. Qed.

(** The queries after a range was mapped. *)
Definition range_queries (m : Mmu) (live : gset Z) (r va pa flags : Z) (n : nat) (res : unit + VmError) (m' : Mmu) : Prop :=
  ∀ r0 va0, r0 ∈ live → 0 <= va0 →
    if decide (r0 = r ∧ va <= va0 < va + Z.of_nat n * PAGE_SIZE)
    then res = inl tt → query_user_mapping (memory m') r0 va0 = Some (page_info (pa + (va0 - va) / PAGE_SIZE * PAGE_SIZE) flags va0)
    else query_user_mapping (memory m') r0 va0 = query_user_mapping (memory m) r0 va0.

Lemma page_index va va0 : va mod PAGE_SIZE = 0 → va0 / PAGE_SIZE = va / PAGE_SIZE ↔ va <= va0 < va + PAGE_SIZE.
Proof.
  unfold PAGE_SIZE. intros Hv. apply Z.mod_divide in Hv as [k ->]; [|done]. rewrite Z.div_mul by done.
  pose proof (Z.div_mod va0 4096 ltac:(done)). pose proof (Z.mod_pos_bound va0 4096 ltac:(done)). lia.
Qed.

Lemma next_aligned a : a mod PAGE_SIZE = 0 → (a + PAGE_SIZE) mod PAGE_SIZE = 0.
Proof. intros Ha. replace (a + PAGE_SIZE) with (a + 1 * PAGE_SIZE) by lia. by rewrite Z.mod_add. Qed.

Lemma map_each_spec n m live pool r va pa flags :
  machine_ok m live pool → r ∈ live → 0 <= va → va mod PAGE_SIZE = 0 → 0 <= pa → pa mod PAGE_SIZE = 0 →
  pa + Z.of_nat n * PAGE_SIZE <= 2 ^ 48 →
  ∃ m' res, map_each (arch_hook r flags) m (range_pages va pa n) = (m', res) ∧
    machine_ok m' live pool ∧ kept m m' ∧ untouched (λ f, f ∈ pool) m m' ∧ range_queries m live r va pa flags n res m'.
Proof.
  intros Hm Hr Hva Hva' Hpa Hpa'. revert m va pa Hm Hva Hva' Hpa Hpa'. induction n as [|n IH]; intros m va pa Hm Hva Hva' Hpa Hpa' Hb.
  { exists m, (inl tt). split_and!; [done|done|done|done|]. intros r0 va0 _ _. rewrite decide_False; [done|lia]. }
  assert (range_pages va pa (S n) = (va, pa) :: range_pages (va + PAGE_SIZE) (pa + PAGE_SIZE) n) as Hpages.
  { unfold range_pages. cbn [seq fmap list_fmap]. f_equal; [f_equal; lia|]. rewrite <-seq_shift, <-list_fmap_compose.
    apply list_fmap_ext. intros j i _. unfold compose. f_equal; lia. }
  rewrite Hpages. cbn [map_each]. unfold Vm.map_user_page.
  destruct (arch_hook_spec m live pool r va pa flags Hm Hr Hva) as (res & m1 & H1 & Hm1 & Hk1 & Ho1 & Hq1); [by split; [unfold PAGE_SIZE in *; lia|]|].
  rewrite H1. destruct res as [[]|e].
  - destruct Hq1 as (_ & _ & _ & Hq1). change (vm_result 0) with (@inl unit VmError tt).
    destruct (IH m1 (va + PAGE_SIZE) (pa + PAGE_SIZE)) as (m2 & res2 & H2 & Hm2 & Hk2 & Ho2 & Hq2);
      [done|unfold PAGE_SIZE; lia|by apply next_aligned|unfold PAGE_SIZE; lia|by apply next_aligned|lia|].
    exists m2, res2. split_and!; [exact H2|done|by eapply kept_trans|(eapply untouched_trans; [|exact Ho1|exact Ho2]; done)|]. intros r0 va0 Hr0 Hva0.
    specialize (Hq1 r0 va0 Hr0 Hva0). specialize (Hq2 r0 va0 Hr0 Hva0).
    destruct (decide (r0 = r ∧ va <= va0 < va + PAGE_SIZE)) as [[-> Hin]|Hout].
    + rewrite decide_True in Hq1 by (split; [done|by apply page_index]).
      rewrite decide_True by (split; [done|unfold PAGE_SIZE in *; lia]). rewrite decide_False in Hq2 by lia. intros _.
      rewrite Hq2, Hq1. rewrite (Z.div_small (va0 - va)) by lia. by rewrite Z.add_0_r.
    + rewrite decide_False in Hq1 by (intros [-> ?%page_index]; [by apply Hout|done]).
      destruct (decide (r0 = r ∧ va <= va0 < va + Z.of_nat (S n) * PAGE_SIZE)) as [[-> Hin]|Hout'].
      * rewrite decide_True in Hq2 by (split; [done|lia]). intros Hres. rewrite (Hq2 Hres). do 2 f_equal.
        replace (va0 - va) with (va0 - (va + PAGE_SIZE) + 1 * PAGE_SIZE) by lia. rewrite Z.div_add by done. lia.
      * rewrite decide_False in Hq2; [congruence|]. intros [-> ?]. apply Hout'. split; [done|unfold PAGE_SIZE in *; lia].
  - rewrite status_code. exists m1, (inr (vm_error_from_code (vm_error_code e))). destruct Hq1 as [Hq1 _].
    split_and!; [done|done|done|done|]. intros r0 va0 Hr0 Hva0. destruct (decide _); [done|]. by apply Hq1.
Qed.
