(* ===== verification/SpaceSafety.v ===== *)
(** * The address-space claims

    What the kernel relies on when it builds and tears down user address
    spaces: a mapping appears exactly where it was asked for and nowhere else,
    in this and in every other address space, and the frames an address space
    took all return to the allocator. *)

From stdpp Require Import gmap sorting.
From S2P Require Import Prelude Types Vm MemMap MemMapSpec FrameAlloc FrameSpec MemInit PageTable PageTableSpec AddressSpace.

Open Scope Z_scope.

(** ** A machine to start from *)

(** Thirty-two free frames, no address space. *)
Definition space_frames : list Z := pages PAGE_SIZE 0x40000000 32.
Definition space_runtime : Runtime :=
  mkRuntime true
    (mkFrameState (mkFrameAllocator (Some 0x40000000) PAGE_SIZE 32 32)
       (list_to_map (zip space_frames (tail space_frames ++ [FREE_LIST_END]))))
    None (Some (mkMetadata [] [mkRange 0x40000000 0x40020000] None)).
Definition space_machine : Mmu := mkMmu space_runtime true 0.

Lemma space_frames_ok : fa_ok PAGE_SIZE (rt_frames space_runtime) space_frames.
Proof.
  split; [done|done| | | |done].
  - vm_compute. repeat split.
  - by apply pages_sorted.
  - apply (pages_ok PAGE_SIZE page_size_pos); [done|done|]. vm_compute. discriminate.
Qed.

Lemma space_machine_ok : mmu_ok space_machine ∅ space_frames (list_to_set space_frames).
Proof.
  assert (Forall (λ f, (table_frame f ∧ usable_frame space_machine f)) space_frames) as Hf.
  { repeat (constructor; [vm_compute; repeat split; congruence|]). constructor. }
  split; [done|done|by split; intros *; rewrite ?lookup_empty|apply space_frames_ok|by intros *; rewrite lookup_empty| |].
  - intros f. rewrite elem_of_list_to_set. split; [by left|]. intros [?|(k & Hk)]; [done|]. by rewrite lookup_empty in Hk.
  - intros f Hin%elem_of_list_to_set. rewrite Forall_forall in Hf. by apply Hf.
Qed.

Definition first_root : Z := 0x40000000.
(** The machine with one empty address space. *)
Definition state_after {A} (o : outcome (A * Mmu)) (m : Mmu) : Mmu := match o with Done (_, m') => m' | Panic _ => m end.
Definition value_of {A} (o : outcome (A * Mmu)) : option A := match o with Done (a, _) => Some a | Panic _ => None end.

Lemma value_state {A} (o : outcome (A * Mmu)) a m : value_of o = Some a → o = Done (a, state_after o m).
Proof. destruct o as [[a' m']|]; [|done]. by intros [= ->]. Qed.

Definition one_space : Mmu := state_after (create_user_address_space space_machine) space_machine.

Lemma one_space_created : create_user_address_space space_machine = Done (inl first_root, one_space).
Proof. apply value_state. vm_compute. reflexivity. Qed.

(** The result of a run that is known. *)
Lemma wp_result {S A} (c : M S A) (Q : A → S → Prop) s a s' : wp c Q s → c s = Done (a, s') → Q a s'.
Proof. unfold wp. intros H E. by rewrite E in H. Qed.

#[local] Opaque space_machine one_space.

Lemma one_space_ok : machine_ok one_space {[first_root]} (list_to_set space_frames).
Proof.
  pose proof (wp_result _ _ _ _ _ (create_spec _ _ _ _ space_machine_ok) one_space_created)
    as (T & l & Hm & _ & _ & _ & _ & HT & _).
  exists T, l. split; [exact Hm|]. intros r. rewrite elem_of_singleton, HT. split.
  - intros ->. apply lookup_insert_eq.
  - intros [[E _]|[_ Hk]]%lookup_insert_Some; [congruence|]. by rewrite lookup_empty in Hk.
Qed.

(** One page mapped in it. *)
Definition mapped_space : Mmu := state_after (map_user_page first_root 0x400000 0x48000000 USER_WRITE one_space) one_space.

Lemma mapped_space_mapped : map_user_page first_root 0x400000 0x48000000 USER_WRITE one_space = Done (inl tt, mapped_space).
Proof. apply value_state. vm_compute. reflexivity. Qed.

#[local] Opaque mapped_space.

(** ** Mapping *)

(** C5: mapping a page changes exactly one translation.  On success the page
    was unmapped before, and afterwards every address of it translates to the
    same offset of the physical page, readable by the user, writable and
    executable as the flags say; every other address of this and of every
    other address space translates as before.  On error no translation changes,
    and the error tells which precondition failed.  Mapping never panics. *)
Theorem map_user_page_isolated m live pool r va pa flags :
  machine_ok m live pool → r ∈ live → 0 <= va → page_frame pa →
  ∃ res m', map_user_page r va pa flags m = Done (res, m') ∧ machine_ok m' live pool ∧
    match res with
    | inl _ => is_user_va va = true ∧ va mod PAGE_SIZE = 0 ∧ query_user_mapping (memory m) r va = None ∧
        ∀ r0 va0, r0 ∈ live → 0 <= va0 → query_user_mapping (memory m') r0 va0
          = if decide (r0 = r ∧ va0 / PAGE_SIZE = va / PAGE_SIZE) then Some (page_info pa flags va0)
            else query_user_mapping (memory m) r0 va0
    | inr e => (∀ r0 va0, r0 ∈ live → query_user_mapping (memory m') r0 va0 = query_user_mapping (memory m) r0 va0) ∧
        match e with
        | ArchInvalidRange => is_user_va va = false
        | ArchNotAligned => va mod PAGE_SIZE ≠ 0
        | ArchAlreadyMapped => query_user_mapping (memory m) r va ≠ None
        | e => e = ArchOutOfFrames
        end
    end.
Proof.
  intros Hm Hr Hva Hpa. destruct (wp_run _ _ _ (map_page_machine m live pool r va pa flags Hm Hr Hva Hpa)) as (res & m' & H & Hm' & _ & _ & Hq).
  by exists res, m'.
Qed.

Lemma map_user_page_isolated_witness :
  machine_ok mapped_space {[first_root]} (list_to_set space_frames) ∧
  query_user_mapping (memory mapped_space) first_root 0x400123 = Some (mkUserMappingInfo 0x48000123 true true true false).
Proof.
  destruct (map_user_page_isolated one_space {[first_root]} (list_to_set space_frames) first_root 0x400000 0x48000000 USER_WRITE
              one_space_ok) as (res & m' & H & Hm' & Hq).
  - by apply elem_of_singleton.
  - discriminate.
  - split; [split; [discriminate|reflexivity]|reflexivity].
  - pose proof (eq_trans (eq_sym H) mapped_space_mapped) as E. assert (res = inl tt ∧ m' = mapped_space) as [-> ->] by (split; congruence).
    split; [exact Hm'|]. destruct Hq as (_ & _ & _ & Hq).
    rewrite (Hq first_root 0x400123); [reflexivity|by apply elem_of_singleton|discriminate].
Defined.

(** The kernel's range mapping, run on these page tables through the
    architecture's C interface, maps exactly its range: it never panics and
    ends; when it succeeds, every address of the range translates to the same
    offset of the physical range with the permissions asked for; success or
    not, every address outside the range, and every other address space,
    translates as before. *)
Theorem map_range_on_tables m live pool r va pa flags n :
  machine_ok m live pool → r ∈ live → 0 <= va → va mod PAGE_SIZE = 0 → va + Z.of_nat n * PAGE_SIZE <= u64_max →
  0 <= pa → pa mod PAGE_SIZE = 0 → pa + Z.of_nat n * PAGE_SIZE <= 2 ^ 48 →
  ∃ m' res, map_user_page_range (arch_hook r flags) m va pa (Z.of_nat n * PAGE_SIZE) = Done (m', res) ∧
    machine_ok m' live pool ∧
    ∀ r0 va0, r0 ∈ live → 0 <= va0 →
      if decide (r0 = r ∧ va <= va0 < va + Z.of_nat n * PAGE_SIZE)
      then res = inl tt → query_user_mapping (memory m') r0 va0 = Some (page_info (pa + (va0 - va) / PAGE_SIZE * PAGE_SIZE) flags va0)
      else query_user_mapping (memory m') r0 va0 = query_user_mapping (memory m) r0 va0.
Proof.
  intros Hm Hr H1 H2 H3 H4 H5 H6.
  destruct (map_each_spec n m live pool r va pa flags Hm Hr H1 H2 H4 H5 H6) as (m' & res & He & Hm' & _ & _ & Hq).
  exists m', res. split; [|split; [exact Hm'|exact Hq]].
  rewrite map_user_page_range_exact; [by rewrite He|done|done|done|]. unfold u64_max. change (2 ^ 48) with 281474976710656 in H6. lia.
Qed.

(** The kernel's view of a mapped range. *)
Definition range_result (o : outcome (Mmu * (unit + VmError))) : option (unit + VmError) :=
  match o with Done (_, r) => Some r | Panic _ => None end.

Lemma map_range_on_tables_witness :
  ∃ m' res, map_user_page_range (arch_hook first_root USER_EXECUTE) one_space 0x400000 0x48000000 (Z.of_nat 3 * PAGE_SIZE) = Done (m', res) ∧
    res = inl tt ∧
    query_user_mapping (memory m') first_root 0x402004 = Some (mkUserMappingInfo 0x48002004 true true false true) ∧
    query_user_mapping (memory m') first_root 0x403000 = None.
Proof.
  assert (range_result (map_user_page_range (arch_hook first_root USER_EXECUTE) one_space 0x400000 0x48000000 (Z.of_nat 3 * PAGE_SIZE))
          = Some (inl tt)) as Hres by (vm_compute; reflexivity).
  destruct (map_range_on_tables one_space {[first_root]} (list_to_set space_frames) first_root 0x400000 0x48000000 USER_EXECUTE 3 one_space_ok)
    as (m' & res & H & Hm' & Hq); [by apply elem_of_singleton|discriminate|reflexivity|vm_compute; discriminate|discriminate|reflexivity|vm_compute; discriminate|].
  rewrite H in Hres. injection Hres as ->. exists m', (inl tt). split; [exact H|]. split; [reflexivity|].
  pose proof (Hq first_root 0x402004 ltac:(by apply elem_of_singleton) ltac:(discriminate)) as Q1.
  pose proof (Hq first_root 0x403000 ltac:(by apply elem_of_singleton) ltac:(discriminate)) as Q2.
  rewrite decide_True in Q1 by (split; [reflexivity|split; [discriminate|reflexivity]]).
  rewrite decide_False in Q2 by (intros [_ [_ Hlt]]; vm_compute in Hlt; discriminate).
  split; [rewrite (Q1 eq_refl); reflexivity|]. rewrite Q2. vm_compute. reflexivity.
Defined.

(** ** Taking down an address space *)

(** Map a list of pages, whatever the outcome of each. *)
Definition map_requests (r : Z) (reqs : list (Z * Z * Z)) : K unit :=
  for_each (λ '(va, pa, flags), map_user_page r va pa flags;; mret tt) reqs.

Lemma map_requests_spec r reqs m T l pool :
  mmu_ok m T l pool → T !! (r, []) = Some r → Forall (λ '(va, pa, _), 0 <= va ∧ page_frame pa) reqs →
  wp (map_requests r reqs) (λ _ m', ∃ T' l', mmu_ok m' T' l' pool ∧ kept m m' ∧ T' !! (r, []) = Some r ∧
    ∀ r0, r0 ≠ r → (∀ p, T' !! (r0, p) = T !! (r0, p)) ∧
      ∀ va, 0 <= va → leaf (memory m') T' r0 va = leaf (memory m) T r0 va) m.
Proof.
  revert m T l. induction reqs as [|[[va pa] flags] reqs IH]; intros m T l Hm Hr Hreqs; unfold map_requests; cbn [for_each].
  { apply wp_ret. exists T, l. by split_and!. }
  apply Forall_cons in Hreqs as [[Hva Hpa] Hreqs]. apply wp_bind, wp_bind.
  eapply wp_mono; [apply (map_user_page_spec m T l pool r va pa flags); done|]. intros res m1 (T1 & l1 & Hm1 & Hk1 & Hroots & Ho1 & _ & Hpost).
  apply wp_ret. eapply wp_mono; [apply (IH m1 T1 l1); [done|by rewrite Hroots|done]|].
  intros u m2 (T2 & l2 & Hm2 & Hk2 & Hr2 & Ho2). exists T2, l2. split_and!; [done|by eapply kept_trans|done|].
  intros r0 Hne. destruct (Ho2 r0 Hne) as [O1 O2]. split; [intros p; by rewrite O1, Ho1|]. intros va0 Hva0. rewrite O2 by done.
  unfold map_page_post in Hpost. destruct res as [[]|e]; [|apply Hpost].
  destruct Hpost as (_ & _ & _ & Hq). rewrite Hq by done. rewrite decide_False by (intros [? _]; done). done.
Qed.

Lemma linked_unique st l l' :
  linked st l FREE_LIST_END → linked st l' FREE_LIST_END → head l = head l' → length l = length l' → l = l'.
Proof.
  revert l'. induction l as [|x l IH]; intros [|x' l'] H1 H2 Hh Hlen; try done.
  injection Hh as <-. destruct H1 as [E1 H1], H2 as [E2 H2]. rewrite E1 in E2. injection E2 as E2. f_equal.
  apply IH; [done|done| |simpl in Hlen; lia].
  destruct l, l'; simpl in *; try done. by subst.
Qed.

Lemma fa_ok_unique ps s l l' : fa_ok ps s l → fa_ok ps s l' → l = l'.
Proof.
  intros [_ A1 A2 _ _ A3] [_ B1 B2 _ _ B3]. apply (linked_unique (fs_store s)); [done|done|congruence|]. rewrite A3 in B3. lia.
Qed.

(** C19: tearing down an address space undoes building it: after creating an
    address space and mapping any list of pages in it, successfully or not,
    destroying it does not panic, returns every frame it took, so that the
    allocator's free list is exactly what it was before, and leaves every
    translation of every other address space as it was. *)
Theorem address_space_roundtrip m live pool l reqs r m1 :
  machine_ok m live pool → fa_ok PAGE_SIZE (rt_frames (mm_rt m)) l →
  Forall (λ '(va, pa, _), 0 <= va ∧ page_frame pa) reqs →
  create_user_address_space m = Done (inl r, m1) → Z.land (mm_ttbr0 m) DESC_ADDR_MASK ≠ r →
  ∃ m2 m3, map_requests r reqs m1 = Done (tt, m2) ∧ destroy_user_address_space r m2 = Done (inl tt, m3) ∧
    fa_ok PAGE_SIZE (rt_frames (mm_rt m3)) l ∧
    ∀ r0 va, r0 ∈ live → 0 <= va → query_user_mapping (memory m3) r0 va = query_user_mapping (memory m) r0 va.
Proof.
  intros (T & l0 & Hm & Hlive) Hl Hreqs Hc Hcur. rewrite (fa_ok_unique _ _ _ _ Hl (mk_free _ _ _ _ Hm)) in *. clear Hl l.
  pose proof (create_spec m T l0 pool Hm) as H1. unfold wp in H1. rewrite Hc in H1.
  destruct H1 as (T1 & l1 & Hm1 & Hk1 & _ & Hleaf1 & Hnone & -> & El).
  destruct (wp_run _ _ _ (map_requests_spec r reqs m1 _ l1 pool Hm1 ltac:(by rewrite lookup_insert_eq) Hreqs))
    as ([] & m2 & H2 & T2 & l2 & Hm2 & Hk2 & Hr2 & Ho2).
  assert (Z.land (mm_ttbr0 m2) DESC_ADDR_MASK ≠ r) as Hcur2.
  { pose proof (kept_trans _ _ _ Hk1 Hk2) as Hk. unfold kept, settings in Hk. by injection Hk as _ -> _ _ _. }
  destruct (wp_run _ _ _ (destroy_spec m2 T2 l2 pool r Hm2 Hr2 Hcur2)) as (res & m3 & H3 & -> & Hk3 & _ & (l3 & Hm3) & Hleaf3).
  assert (∀ r0 p, without r T2 !! (r0, p) = T !! (r0, p)) as HT.
  { intros r0 p. destruct (decide (r0 = r)) as [->|Hne].
    - transitivity (@None Z).
      + destruct (without r T2 !! (r, p)) as [c|] eqn:Hx; [|done]. by apply without_lookup in Hx as [_ ?].
      + destruct (T !! (r, p)) as [c|] eqn:Hx; [|done]. apply (tr_root _ _ (mk_tree _ _ _ _ Hm)) in Hx. congruence.
    - rewrite without_eq by done. destruct (Ho2 r0 Hne) as [-> _]. apply lookup_insert_ne. congruence. }
  exists m2, m3. split_and!; [done|done| |].
  - eapply same_frames; [apply Hm3|apply Hm|]. intros f.
    pose proof (mk_pool _ _ _ _ Hm f) as P1. pose proof (mk_pool _ _ _ _ Hm3 f) as P3.
    pose proof (mk_apart _ _ _ _ Hm f) as A1. pose proof (mk_apart _ _ _ _ Hm3 f) as A3.
    assert ((∃ k, without r T2 !! k = Some f) ↔ ∃ k, T !! k = Some f) as E by (split; intros [[r0 p] Hk]; exists (r0, p); by rewrite HT in *).
    split; intros Hf.
    + destruct (proj1 P1 (proj2 P3 (or_introl Hf))) as [?|Hk]; [done|]. destruct (proj2 E Hk) as [k Hk']. by destruct (A3 k Hf).
    + destruct (proj1 P3 (proj2 P1 (or_introl Hf))) as [?|Hk]; [done|]. destruct (proj1 E Hk) as [k Hk']. by destruct (A1 k Hf).
  - intros r0 va Hr0 Hva. apply Hlive in Hr0. assert (r0 ≠ r) as Hne by (intros ->; congruence).
    rewrite (query_leaf m3 (without r T2) l3 pool) by (done || by rewrite HT). rewrite (query_leaf m T l0 pool) by done.
    f_equal. rewrite Hleaf3 by done. rewrite (proj2 (Ho2 r0 Hne) va Hva). apply Hleaf1.
Qed.

Lemma address_space_roundtrip_witness :
  ∃ m2 m3, map_requests first_root [(0x400000, 0x48000000, USER_WRITE); (0x400000, 0x48001000, 0); (0x7fff0000, 0x48002000, 0)] one_space
           = Done (tt, m2) ∧
    destroy_user_address_space first_root m2 = Done (inl tt, m3) ∧ fa_ok PAGE_SIZE (rt_frames (mm_rt m3)) space_frames.
Proof.
  assert (machine_ok space_machine ∅ (list_to_set space_frames)) as Hm.
  { exists ∅, space_frames. split; [exact space_machine_ok|]. intros r. rewrite lookup_empty. set_solver. }
  destruct (address_space_roundtrip space_machine ∅ (list_to_set space_frames) space_frames
              [(0x400000, 0x48000000, USER_WRITE); (0x400000, 0x48001000, 0); (0x7fff0000, 0x48002000, 0)] first_root one_space
              Hm (mk_free _ _ _ _ space_machine_ok)) as (m2 & m3 & H2 & H3 & H4 & _).
  - repeat (constructor; [vm_compute; repeat split; congruence|]). constructor.
  - exact one_space_created.
  - vm_compute. discriminate.
  - exists m2, m3. exact (conj H2 (conj H3 H4)).
Defined.
