(* ===== verification/Ramfs.v ===== *)
(** * The read-only file system

    [kernel/src/fs/ramfs.rs] and [kernel/src/fs/initramfs.rs]: the index the
    kernel builds at boot over the files of the initial archive, and its
    lookups.  Paths are byte strings; files and directories live in two sorted
    vectors, and a file or directory is named by its index there.

    The archive reader is the external crate [cpio_reader]: what it returns
    for an image is a parameter [iter_files]. *)

From stdpp Require Import sorting.
From S2P Require Import Prelude.

(** ** Byte strings *)

Abbreviation bytes := (list Z) (only parsing).

(** A byte string literal. *)
Definition lit (s : string) : bytes := (λ a, Z.of_nat (Ascii.nat_of_ascii a)) <$> String.list_ascii_of_string s.

Definition SLASH : Z := 47.

(** [slice.split(|byte| *byte == sep)] *)
Fixpoint split_on (sep : Z) (l : bytes) : list bytes :=
  match l with
  | [] => [[]]
  | x :: l' =>
      match split_on sep l' with
      | [] => [[]]
      | w :: ws => if (x =? sep)%Z then [] :: w :: ws else (x :: w) :: ws
      end
  end.

(** [slice.iter().rposition(|byte| *byte == x)] *)
Definition rposition (x : Z) (l : bytes) : option nat :=
  match list_find (x =.) (reverse l) with
  | Some (i, _) => Some (length l - 1 - i)
  | None => None
  end.

(** [&l[from..to]] *)
Definition slice {S} (l : bytes) (from to : nat) : M S bytes :=
  if decide (from ≤ to ≤ length l) then mret (take (to - from) (drop from l)) else panic "slice index out of range".

(** [haystack.windows(n).any(|w| w == needle)] *)
Fixpoint contains_subslice (haystack needle : bytes) : bool :=
  bool_decide (take (length needle) haystack = needle) ||
  match haystack with [] => false | _ :: rest => contains_subslice rest needle end.

(** The lexicographic order of [Ord for Vec<u8>]. *)
Fixpoint bytes_leb (x y : bytes) : bool :=
  match x, y with
  | [], _ => true
  | _ :: _, [] => false
  | a :: x', c :: y' => (a <? c)%Z || ((a =? c)%Z && bytes_leb x' y')
  end.

Definition bytes_le (x y : bytes) : Prop := bytes_leb x y = true.
#[global] Instance bytes_le_dec x y : Decision (bytes_le x y).
Proof. unfold bytes_le. apply _. Defined.

(** [v.sort_by(|l, r| key(l).cmp(key(r)))] *)
Definition sort_by {A} (key : A → bytes) (l : list A) : list A :=
  merge_sort (λ x y, bytes_le (key x) (key y)) l.

(** [v.dedup()] *)
Fixpoint dedup (l : list bytes) : list bytes :=
  match l with
  | [] => []
  | x :: l' => match l' with
               | [] => [x]
               | y :: _ => if decide (x = y) then dedup l' else x :: dedup l'
               end
  end.

(** [v.windows(2).any(|pair| pair[0] == pair[1])] *)
Fixpoint adjacent_equal (l : list bytes) : bool :=
  match l with
  | x :: (y :: _) as l' => bool_decide (x = y) || adjacent_equal l'
  | _ => false
  end.

(** ** The file system and the heap

    [heap] holds the allocator's answers to the coming [try_reserve] requests
    ([true]: granted); a request after the last answer is granted. *)

Record RamFile := mkRamFile { rf_path : bytes; rf_data : bytes }.

Inductive DirEntryKind := KindFile | KindDirectory.
#[global] Instance DirEntryKind_eq_dec : EqDecision DirEntryKind.
Proof. solve_decision. Defined.

Record RamDirEntry := mkRamDirEntry { rde_name : bytes; rde_kind : DirEntryKind; rde_ino : Z }.
Record RamDir := mkRamDir { rd_path : bytes; rd_entries : list RamDirEntry }.
Record MountedRamfs := mkMountedRamfs { fs_files : list RamFile; fs_dirs : list RamDir }.

Inductive MountError := MountAlreadyMounted | MountDuplicatePath | MountInvalidPath | MountOutOfMemory.
#[global] Instance MountError_eq_dec : EqDecision MountError.
Proof. solve_decision. Defined.

Record FsState := mkFsState { heap : list bool; RAMFS : option MountedRamfs }.

Abbreviation FS := (M FsState) (only parsing).

Definition try_reserve {E} (e : E) : FS (unit + E) :=
  λ s, match heap s with
       | [] => Done (inl tt, s)
       | granted :: rest => Done (if granted : bool then inl tt else inr e, mkFsState rest (RAMFS s))
       end.

(** [for x in l { acc = f(x, acc)?; }] *)
Fixpoint try_fold {S E A B} (f : A → B → M S (B + E)) (l : list A) (acc : B) : M S (B + E) :=
  match l with
  | [] => mret (inl acc)
  | x :: l' => acc' ←? f x acc; try_fold f l' acc'
  end.

(** ** Paths of the index *)

Definition validate_absolute_path (path : bytes) : unit + MountError :=
  match path with
  | [] => inr MountInvalidPath
  | x :: _ =>
      if negb (x =? SLASH)%Z || ((1 <? Z.of_nat (length path))%Z && bool_decide (last path = Some SLASH))
      then inr MountInvalidPath
      else inl tt
  end.

Definition parent_path (path : bytes) : bytes + MountError :=
  match validate_absolute_path path with
  | inr e => inr e
  | inl _ =>
      match rposition SLASH path with
      | None => inr MountInvalidPath
      | Some 0 => inl [SLASH]
      | Some pos => inl (take pos path)
      end
  end.

Definition basename (path : bytes) : bytes + MountError :=
  match validate_absolute_path path with
  | inr e => inr e
  | inl _ =>
      match rposition SLASH path with
      | None => inr MountInvalidPath
      | Some pos => match drop (pos + 1) path with [] => inr MountInvalidPath | name => inl name end
      end
  end.

Definition try_copy_bytes (l : bytes) : FS (bytes + MountError) :=
  _ ←? try_reserve MountOutOfMemory; mret (inl l).

Definition push_dir_path (path : bytes) (dirs : list bytes) : FS (list bytes + MountError) :=
  _ ←? try_reserve MountOutOfMemory;
  copy ←? try_copy_bytes path;
  mret (inl (dirs ++ [copy])).

Definition push_parent_dirs (path : bytes) (dirs : list bytes) : FS (list bytes + MountError) :=
  _ ←? mret (validate_absolute_path path);
  dirs ←? push_dir_path [SLASH] dirs;
  try_fold (λ cursor dirs,
              x ← expect (path !! cursor) "index out of bounds";
              if (x =? SLASH)%Z then push_dir_path (take cursor path) dirs else mret (inl dirs))
           (seq 1 (length path - 1)) dirs.

Definition push_dir_with_parents (path : bytes) (dirs : list bytes) : FS (list bytes + MountError) :=
  _ ←? mret (validate_absolute_path path);
  dirs ←? push_parent_dirs path dirs;
  push_dir_path path dirs.

Definition reject_duplicate_files (files : list RamFile) : unit + MountError :=
  if adjacent_equal (rf_path <$> files) then inr MountDuplicatePath else inl tt.

Definition reject_duplicate_paths (paths : list bytes) : unit + MountError :=
  if adjacent_equal paths then inr MountDuplicatePath else inl tt.

Definition reject_duplicate_dir_entries (entries : list RamDirEntry) : unit + MountError :=
  if adjacent_equal (rde_name <$> entries) then inr MountDuplicatePath else inl tt.

Definition reject_file_dir_conflicts (files : list RamFile) (dirs : list bytes) : unit + MountError :=
  if existsb (λ file, existsb (λ dir, bool_decide (dir = rf_path file)) dirs) files
  then inr MountDuplicatePath else inl tt.

Definition file_ino (index : nat) : Z := (1 + Z.of_nat index)%Z.
Definition dir_ino (index : nat) : Z := (0x80000000 + Z.of_nat index)%Z.

(** ** Building the index *)

Definition fs_lookup_file (fs : MountedRamfs) (path : bytes) : option nat :=
  fst <$> list_find (λ file, rf_path file = path) (fs_files fs).

Definition fs_lookup_dir (fs : MountedRamfs) (path : bytes) : option nat :=
  fst <$> list_find (λ dir, rd_path dir = path) (fs_dirs fs).

Definition append_dir_entry (parent_index : nat) (name : bytes) (kind : DirEntryKind) (ino : Z)
    (fs : MountedRamfs) : FS (MountedRamfs + MountError) :=
  _ ← expect (fs_dirs fs !! parent_index) "index out of bounds";
  _ ←? try_reserve MountOutOfMemory;
  mret (inl (mkMountedRamfs (fs_files fs)
               (alter (λ d, mkRamDir (rd_path d) (rd_entries d ++ [mkRamDirEntry name kind ino])) parent_index
                      (fs_dirs fs)))).

(** The directory that holds [path], and the name of [path] in it. *)
Definition place_in_parent (fs : MountedRamfs) (path : bytes) : FS ((nat * bytes) + MountError) :=
  parent ←? mret (parent_path path);
  parent_index ←? mret (match fs_lookup_dir fs parent with Some i => inl i | None => inr MountInvalidPath end);
  name ←? mret (basename path);
  copy ←? try_copy_bytes name;
  mret (inl (parent_index, copy)).

Definition populate_file (file_index : nat) (fs : MountedRamfs) : FS (MountedRamfs + MountError) :=
  file ← expect (fs_files fs !! file_index) "index out of bounds";
  place ←? place_in_parent fs (rf_path file);
  append_dir_entry place.1 place.2 KindFile (file_ino file_index) fs.

Definition populate_dir (dir_index : nat) (fs : MountedRamfs) : FS (MountedRamfs + MountError) :=
  dir ← expect (fs_dirs fs !! dir_index) "index out of bounds";
  if decide (rd_path dir = [SLASH]) then mret (inl fs)
  else
    place ←? place_in_parent fs (rd_path dir);
    append_dir_entry place.1 place.2 KindDirectory (dir_ino dir_index) fs.

(** [for dir in &mut self.dirs { sort; reject_duplicates?; }] *)
Fixpoint sort_dir_entries (dirs : list RamDir) : list RamDir + MountError :=
  match dirs with
  | [] => inl []
  | dir :: dirs' =>
      let entries := sort_by rde_name (rd_entries dir) in
      match reject_duplicate_dir_entries entries with
      | inr e => inr e
      | inl _ => match sort_dir_entries dirs' with
                 | inr e => inr e
                 | inl rest => inl (mkRamDir (rd_path dir) entries :: rest)
                 end
      end
  end.

Definition populate_dir_entries (fs : MountedRamfs) : FS (MountedRamfs + MountError) :=
  fs ←? try_fold populate_file (seq 0 (length (fs_files fs))) fs;
  fs ←? try_fold populate_dir (seq 0 (length (fs_dirs fs))) fs;
  dirs ←? mret (sort_dir_entries (fs_dirs fs));
  mret (inl (mkMountedRamfs (fs_files fs) dirs)).

(** The directories to index: the root, the explicit ones and the parents of
    every member. *)
Definition collect_dir_paths (files : list RamFile) (explicit_dirs : list bytes) : FS (list bytes + MountError) :=
  dir_paths ←? push_dir_path [SLASH] [];
  dir_paths ←? try_fold push_dir_with_parents explicit_dirs dir_paths;
  try_fold (λ file, push_parent_dirs (rf_path file)) files dir_paths.

Definition ramfs_new (files : list RamFile) (explicit_dirs : list bytes) : FS (MountedRamfs + MountError) :=
  let files := sort_by rf_path files in
  _ ←? mret (reject_duplicate_files files);
  _ ←? try_fold (λ dir _, mret (validate_absolute_path dir)) explicit_dirs tt;
  let explicit_dirs := sort_by id explicit_dirs in
  _ ←? mret (reject_duplicate_paths explicit_dirs);
  dir_paths ←? collect_dir_paths files explicit_dirs;
  let dir_paths := dedup (sort_by id dir_paths) in
  _ ←? mret (reject_file_dir_conflicts files dir_paths);
  _ ←? try_reserve MountOutOfMemory;
  populate_dir_entries (mkMountedRamfs files ((λ path, mkRamDir path []) <$> dir_paths)).

Definition mount (fs : MountedRamfs) : FS (unit + MountError) :=
  λ s, match RAMFS s with
       | Some _ => Done (inr MountAlreadyMounted, s)
       | None => Done (inl tt, mkFsState (heap s) (Some fs))
       end.

(** ** Lookups in the mounted index *)

Definition lookup_file (s : FsState) (path : bytes) : option nat :=
  fs ← RAMFS s; fs_lookup_file fs path.

Definition lookup_dir (s : FsState) (path : bytes) : option nat :=
  fs ← RAMFS s; fs_lookup_dir fs path.

Definition root_dir_index (s : FsState) : option nat := lookup_dir s [SLASH].

Definition dir_path (s : FsState) (dir_index : nat) : option bytes :=
  fs ← RAMFS s; rd_path <$> fs_dirs fs !! dir_index.

Definition file_data (s : FsState) (index : nat) : option bytes :=
  fs ← RAMFS s; rf_data <$> fs_files fs !! index.

Definition data_by_path (s : FsState) (path : bytes) : option bytes :=
  index ← lookup_file s path; file_data s index.

Definition dir_entry_count (s : FsState) (dir_index : nat) : option nat :=
  fs ← RAMFS s; (λ dir, length (rd_entries dir)) <$> fs_dirs fs !! dir_index.

Definition dir_entry_at (s : FsState) (dir_index offset : nat) : option RamDirEntry :=
  fs ← RAMFS s; dir ← fs_dirs fs !! dir_index; rd_entries dir !! offset.

(** ** Mounting the initial archive *)

Inductive InitramfsError :=
| InitParse | InitUnsupportedFormat | InitInvalidPath | InitDuplicatePath
| InitUnsupportedFileType | InitMissingInit | InitOutOfMemory | InitAlreadyMounted.
#[global] Instance InitramfsError_eq_dec : EqDecision InitramfsError.
Proof. solve_decision. Defined.

(** What [cpio_reader] reports of one archive member. *)
Record CpioEntry := mkCpioEntry { ce_name : bytes; ce_mode : Z; ce_nlink : Z; ce_file : bytes }.

Definition NEWC_MAGIC : bytes := lit "070701".
Definition TRAILER_NAME : bytes := lit "TRAILER!!!".
Definition MODE_TYPE_MASK : Z := 0xF000.
Definition MODE_DIRECTORY : Z := 0x4000.
Definition MODE_REGULAR_FILE : Z := 0x8000.

Definition file_type (mode : Z) : Z := Z.land mode MODE_TYPE_MASK.

Definition mount_index_error (e : MountError) : InitramfsError :=
  match e with
  | MountAlreadyMounted => InitAlreadyMounted
  | MountDuplicatePath => InitDuplicatePath
  | MountInvalidPath => InitInvalidPath
  | MountOutOfMemory => InitOutOfMemory
  end.

Definition validate_newc_image (image : bytes) : unit + InitramfsError :=
  if negb (bool_decide (take (length NEWC_MAGIC) image = NEWC_MAGIC)) then inr InitUnsupportedFormat
  else if negb (contains_subslice image TRAILER_NAME) then inr InitParse
  else inl tt.

(** One turn of the scan at [cursor]: at a separator or at the end the
    component that began at [component_start] is checked and copied. *)
Definition archive_path_step (name : bytes) (cursor : nat) (acc : bytes * nat) : FS ((bytes * nat) + InitramfsError) :=
  let '(out, component_start) := acc in
  if decide (cursor = length name ∨ name !! cursor = Some SLASH) then
    component ← slice name component_start cursor;
    if decide (component = [] ∨ component = lit "." ∨ component = lit "..") then mret (inr InitInvalidPath)
    else
      let out := out ++ component in
      mret (inl (if decide (cursor = length name) then out else out ++ [SLASH], S cursor))
  else mret (inl acc).

Definition canonical_archive_path (name : bytes) : FS (bytes + InitramfsError) :=
  match name with
  | [] => mret (inr InitInvalidPath)
  | x :: _ =>
      if (x =? SLASH)%Z then mret (inr InitInvalidPath)
      else
        _ ←? try_reserve InitOutOfMemory;
        acc ←? try_fold (archive_path_step name) (seq 0 (S (length name))) ([SLASH], 0);
        mret (inl acc.1)
  end.

Definition path_exists (files : list RamFile) (dirs : list bytes) (path : bytes) : bool :=
  existsb (λ file, bool_decide (rf_path file = path)) files || existsb (λ dir, bool_decide (dir = path)) dirs.

Definition scan_entry (entry : CpioEntry) (acc : list RamFile * list bytes)
    : FS ((list RamFile * list bytes) + InitramfsError) :=
  let '(files, dirs) := acc in
  if (1 <? ce_nlink entry)%Z then mret (inr InitUnsupportedFileType)
  else
    path ←? canonical_archive_path (ce_name entry);
    if path_exists files dirs path then mret (inr InitDuplicatePath)
    else if (file_type (ce_mode entry) =? MODE_REGULAR_FILE)%Z then
      _ ←? try_reserve InitOutOfMemory;
      mret (inl (files ++ [mkRamFile path (ce_file entry)], dirs))
    else if (file_type (ce_mode entry) =? MODE_DIRECTORY)%Z then
      _ ←? try_reserve InitOutOfMemory;
      mret (inl (files, dirs ++ [path]))
    else mret (inr InitUnsupportedFileType).

(** [.map_err(f)] *)
Definition map_err {S A E E'} (f : E → E') (m : M S (A + E)) : M S (A + E') :=
  r ← m; mret (match r with inl a => inl a | inr e => inr (f e) end).

(** The part of [mount_from_cpio_newc] up to the finished index. *)
Definition index_archive (iter_files : bytes → list CpioEntry) (image : bytes) : FS (MountedRamfs + InitramfsError) :=
  _ ←? mret (validate_newc_image image);
  found ←? try_fold scan_entry (iter_files image) ([], []);
  if decide (length (iter_files image) = 0) then mret (inr InitParse)
  else if negb (existsb (λ file, bool_decide (rf_path file = lit "/init")) found.1) then mret (inr InitMissingInit)
  else map_err mount_index_error (ramfs_new found.1 found.2).

Definition mount_from_cpio_newc (iter_files : bytes → list CpioEntry) (image : bytes) : FS (unit + InitramfsError) :=
  fs ←? index_archive iter_files image;
  map_err mount_index_error (mount fs).

Definition init_file (s : FsState) : bytes + InitramfsError :=
  match data_by_path s (lit "/init") with Some data => inl data | None => inr InitMissingInit end.
