(* ===== verification/RamfsSpec.v ===== *)
(** * The file system index is the archive's tree

    Paths as lists of components and their byte strings, the lexicographic
    sort, and the specification of every step that builds the index. *)

From stdpp Require Import sorting.
From S2P Require Import Prelude Ramfs.

(** ** Paths as component lists *)

Definition comp_ok (c : list Z) : Prop := c ≠ [] ∧ SLASH ∉ c.
Definition path_ok (p : list (list Z)) : Prop := Forall comp_ok p.

(** Every component behind a separator; the canonical absolute path. *)
Definition rel (p : list (list Z)) : list Z := mjoin (cons SLASH <$> p).
Definition render (p : list (list Z)) : list Z := if decide (p = []) then [SLASH] else rel p.

Lemma split_on_app c l :
  SLASH ∉ c → split_on SLASH (c ++ l) = match split_on SLASH l with w :: ws => (c ++ w) :: ws | [] => [[]] end.
Proof.
  induction c as [|x c IH]; intros Hn.
  - simpl. destruct l as [|y l]; [done|]. simpl. destruct (split_on SLASH l); [done|]. by destruct (y =? SLASH)%Z.
  - apply not_elem_of_cons in Hn as [Hx Hc]. simpl. rewrite (IH Hc).
    destruct (split_on SLASH l) as [|w ws] eqn:Hs; rewrite (proj2 (Z.eqb_neq x SLASH)) by congruence; [|done].
    exfalso. destruct l; simpl in Hs; [done|]. destruct (split_on SLASH l); [done|]. by destruct (_ =? _)%Z.
Qed.

Lemma split_on_slash l : split_on SLASH (SLASH :: l) = [] :: split_on SLASH l.
Proof. simpl. destruct (split_on SLASH l) eqn:H; [|done]. destruct l; simpl in H; [done|]. destruct (split_on SLASH l); [done|by destruct (_ =? _)%Z]. Qed.

Lemma rel_cons c p : rel (c :: p) = SLASH :: c ++ rel p.
Proof. done. Qed.

Lemma rel_app p q : rel (p ++ q) = rel p ++ rel q.
Proof. unfold rel. by rewrite fmap_app, join_app. Qed.

Lemma rel_snoc p c : rel (p ++ [c]) = rel p ++ SLASH :: c.
Proof. rewrite rel_app. unfold rel at 2. simpl. by rewrite app_nil_r. Qed.

Lemma split_rel p : path_ok p → split_on SLASH (rel p) = [] :: p.
Proof.
  induction 1 as [|c p [Hc Hn] _ IH]; [done|].
  rewrite rel_cons, split_on_slash, split_on_app, IH by done. by rewrite app_nil_r.
Qed.

Lemma rel_inj p q : path_ok p → path_ok q → rel p = rel q → p = q.
Proof. intros Hp Hq H. apply (f_equal (split_on SLASH)) in H. rewrite !split_rel in H by done. by injection H. Qed.

Lemma rel_nil_inv p : rel p = [] → p = [].
Proof. by destruct p. Qed.

Lemma rel_slash_inv p : path_ok p → rel p ≠ [SLASH].
Proof.
  destruct p as [|c p]; [done|]. intros [[Hc _] _]%Forall_cons. rewrite rel_cons.
  intros [= H]. apply app_eq_nil in H as [-> _]. done.
Qed.

Lemma render_inj p q : path_ok p → path_ok q → render p = render q → p = q.
Proof.
  unfold render. intros Hp Hq. destruct (decide (p = [])) as [->|], (decide (q = [])) as [->|]; intros H; try done.
  - by apply rel_slash_inv in Hq.
  - by apply rel_slash_inv in Hp.
  - by apply rel_inj.
Qed.

Lemma render_ne p : p ≠ [] → render p = rel p.
Proof. intros. unfold render. by rewrite decide_False. Qed.

Lemma render_snoc p c : render (p ++ [c]) = rel p ++ SLASH :: c.
Proof. rewrite render_ne by (by destruct p). apply rel_snoc. Qed.

Lemma path_ok_snoc p c : path_ok (p ++ [c]) ↔ path_ok p ∧ comp_ok c.
Proof. unfold path_ok. rewrite Forall_app, Forall_singleton. done. Qed.

Lemma path_ok_prefix p q : path_ok q → p `prefix_of` q → path_ok p.
Proof. intros H [k ->]. by apply Forall_app in H as [? _]. Qed.

(** The separators of a path are where its prefixes end. *)
Lemma slash_at p n :
  path_ok p → rel p !! n = Some SLASH ↔ ∃ q, q `prefix_of` p ∧ q ≠ p ∧ n = length (rel q).
Proof.
  induction p as [|c p IH] in n |- *.
  - intros _. split; [done|]. by intros (q & [k Hk] & Hne & _); destruct q.
  - intros [[Hc Hn] Hp]%Forall_cons. rewrite rel_cons. destruct n as [|n].
    + split; [|done]. intros _. exists []. split; [apply prefix_nil|done].
    + simpl. destruct (decide (n < length c)) as [Hlt|Hge].
      * rewrite lookup_app_l by done. split.
        { intros Hl. by apply list_elem_of_lookup_2 in Hl. }
        intros (q & Hq & Hne & Hlen). exfalso. destruct q as [|c' q]; [done|].
        apply prefix_cons_inv_1 in Hq as ->. rewrite rel_cons in Hlen. simpl in Hlen. rewrite length_app in Hlen. lia.
      * rewrite lookup_app_r by lia. rewrite (IH _ Hp). split.
        { intros (q & Hq & Hne & Hlen). exists (c :: q). split; [by apply prefix_cons|].
          split; [congruence|]. rewrite rel_cons. simpl. rewrite length_app. lia. }
        intros (q & Hq & Hne & Hlen). destruct q as [|c' q]; [done|].
        pose proof (prefix_cons_inv_1 _ _ _ _ Hq) as ->. apply prefix_cons_inv_2 in Hq.
        exists q. split; [done|]. split; [congruence|]. rewrite rel_cons in Hlen. simpl in Hlen. rewrite length_app in Hlen. lia.
Qed.

Lemma take_rel_prefix q p : q `prefix_of` p → take (length (rel q)) (rel p) = rel q.
Proof. intros [k ->]. rewrite rel_app. apply take_app_length. Qed.

Lemma rposition_last x l c : x ∉ c → rposition x (l ++ x :: c) = Some (length l).
Proof.
  intros Hn. unfold rposition. rewrite reverse_app, reverse_cons, <-app_assoc. simpl.
  rewrite list_find_app_r.
  - simpl. rewrite decide_True by done. simpl. rewrite length_reverse, length_app. simpl. f_equal. lia.
  - apply list_find_None, Forall_forall. intros y Hy ->. apply Hn. by rewrite elem_of_reverse in Hy.
Qed.

Lemma last_comp l c : comp_ok c → last (l ++ SLASH :: c) ≠ Some SLASH.
Proof.
  intros [Hne Hn]. destruct c as [|x c]; [done|]. rewrite (app_assoc l [SLASH] (x :: c) : l ++ SLASH :: x :: c = _).
  rewrite last_app_cons. intros H. by apply last_Some_elem_of in H.
Qed.

Lemma validate_render p : path_ok p → validate_absolute_path (render p) = inl tt.
Proof.
  intros Hp. destruct p as [|c p _] using rev_ind; [done|]. apply path_ok_snoc in Hp as [Hp Hc].
  rewrite render_snoc. unfold validate_absolute_path.
  pose proof (last_comp (rel p) c Hc) as Hl. destruct p as [|c0 p]; simpl in *; by rewrite (bool_decide_false _ Hl), andb_false_r.
Qed.

Lemma parent_path_render p c : path_ok (p ++ [c]) → parent_path (render (p ++ [c])) = inl (render p).
Proof.
  intros Hp. unfold parent_path. rewrite validate_render by done. apply path_ok_snoc in Hp as [Hp [_ Hc]].
  rewrite render_snoc, rposition_last by done. unfold render. destruct (decide (p = [])) as [->|Hne]; [done|].
  destruct (length (rel p)) eqn:Hl; [by apply length_zero_iff_nil, rel_nil_inv in Hl|]. by rewrite <-Hl, take_app_length.
Qed.

Lemma basename_render p c : path_ok (p ++ [c]) → basename (render (p ++ [c])) = inl c.
Proof.
  intros Hp. unfold basename. rewrite validate_render by done. apply path_ok_snoc in Hp as [Hp [Hne Hc]].
  rewrite render_snoc, rposition_last by done.
  rewrite (app_assoc (rel p) [SLASH] c : rel p ++ SLASH :: c = _), drop_app_length' by (rewrite length_app; simpl; lia).
  by destruct c.
Qed.

(** ** The byte order *)

Lemma bytes_leb_refl x : bytes_leb x x = true.
Proof. induction x as [|a x IH]; [done|]. simpl. by rewrite Z.eqb_refl, IH, orb_true_r. Qed.

#[global] Instance bytes_le_trans : Transitive bytes_le.
Proof.
  unfold bytes_le. intros x. induction x as [|a x IH]; [done|]. intros [|c y] [|d z]; simpl; try done.
  rewrite !orb_true_iff, !andb_true_iff, !Z.ltb_lt, !Z.eqb_eq. intros [|[-> H1]] [|[-> H2]]; eauto with lia.
Qed.

#[global] Instance bytes_le_total : Total bytes_le.
Proof.
  unfold Total, bytes_le. intros x. induction x as [|a x IH]; [by left|]. intros [|c y]; [by right|]. simpl.
  rewrite !orb_true_iff, !andb_true_iff, !Z.ltb_lt, !Z.eqb_eq. destruct (IH y); destruct (Z.lt_trichotomy a c) as [|[->|]]; eauto.
Qed.

#[global] Instance bytes_le_antisymm : AntiSymm (=) bytes_le.
Proof.
  unfold AntiSymm, bytes_le. intros x. induction x as [|a x IH]; intros [|c y]; simpl; try done.
  rewrite !orb_true_iff, !andb_true_iff, !Z.ltb_lt, !Z.eqb_eq. intros [|[-> H1]] [|[? H2]]; try lia. f_equal. by apply IH.
Qed.

Section sort_by.
Context {A : Type} (key : A → list Z).
Implicit Types l : list A.

Lemma sort_by_perm l : sort_by key l ≡ₚ l.
Proof. apply merge_sort_Permutation. Qed.

Lemma sort_by_sorted l : StronglySorted bytes_le (key <$> sort_by key l).
Proof.
  unfold sort_by. assert (StronglySorted (λ x y, bytes_le (key x) (key y))
    (merge_sort (λ x y, bytes_le (key x) (key y)) l)) as H.
  { apply StronglySorted_merge_sort.
    - intros x y z. apply (bytes_le_trans (key x) (key y) (key z)).
    - intros x y. apply (bytes_le_total (key x) (key y)). }
  induction H as [|x l' Hs IH Hx]; [constructor|]. simpl. constructor; [done|]. by apply Forall_fmap.
Qed.
End sort_by.

Lemma sort_by_id_sorted l : StronglySorted bytes_le (sort_by id l).
Proof. pose proof (sort_by_sorted id l) as H. by rewrite list_fmap_id in H. Qed.

(** In a sorted list duplicates are adjacent. *)
Lemma adjacent_equal_sorted l : StronglySorted bytes_le l → adjacent_equal l = false ↔ NoDup l.
Proof.
  induction 1 as [|x l Hs IH Hx]; [split; [constructor|done]|].
  destruct l as [|y l]; [split; [intros _; apply NoDup_singleton|done]|].
  change (adjacent_equal (x :: y :: l)) with (bool_decide (x = y) || adjacent_equal (y :: l)).
  rewrite orb_false_iff, bool_decide_eq_false, NoDup_cons, IH. split; intros [H1 H2]; (split; [|done]).
  - intros [?|Hin]%elem_of_cons; [done|]. apply H1. apply (anti_symm bytes_le).
    + rewrite Forall_forall in Hx. apply Hx. by left.
    + apply StronglySorted_inv in Hs as [_ Hy]. rewrite Forall_forall in Hy. by apply Hy.
  - intros ->. apply H1. by left.
Qed.

Lemma dedup_elem x l : x ∈ dedup l ↔ x ∈ l.
Proof.
  induction l as [|y l IH]; [done|]. destruct l as [|z l]; [done|].
  change (dedup (y :: z :: l)) with (if decide (y = z) then dedup (z :: l) else y :: dedup (z :: l)).
  destruct (decide (y = z)) as [<-|]; [|by rewrite !elem_of_cons, IH, elem_of_cons].
  rewrite IH, !elem_of_cons. tauto.
Qed.

Lemma dedup_sorted l : StronglySorted bytes_le l → StronglySorted bytes_le (dedup l) ∧ NoDup (dedup l).
Proof.
  induction 1 as [|x l Hs [IH1 IH2] Hx]; [split; constructor|]. destruct l as [|y l]; [split; [repeat constructor|apply NoDup_singleton]|].
  change (dedup (x :: y :: l)) with (if decide (x = y) then dedup (y :: l) else x :: dedup (y :: l)).
  destruct (decide (x = y)) as [|Hne]; [done|]. split.
  - constructor; [done|]. apply Forall_forall. intros z Hz. rewrite dedup_elem in Hz. rewrite Forall_forall in Hx. by apply Hx.
  - constructor; [|done]. rewrite dedup_elem. intros [?|Hin]%elem_of_cons; [done|]. apply Hne. apply (anti_symm bytes_le).
    + rewrite Forall_forall in Hx. apply Hx. by left.
    + apply StronglySorted_inv in Hs as [_ Hy]. rewrite Forall_forall in Hy. by apply Hy.
Qed.

(** ** Computations that allocate

    [allocs R oom m Q]: run on a state whose mounted index is [R], [m] does
    not panic, leaves the index alone and ends with a result in [Q], or with
    the error [oom] when some request may be refused. *)
Definition allocs {A E} (R : option MountedRamfs) (oom : E) (m : M FsState (A + E)) (Q : A + E → Prop) : Prop :=
  ∀ s, RAMFS s = R →
    wp m (λ r s', RAMFS s' = R ∧ ((Q r ∧ (heap s = [] → heap s' = [])) ∨ (r = inr oom ∧ heap s ≠ []))) s.

Section allocs.
Context {R : option MountedRamfs} {E : Type} {oom : E}.

Lemma allocs_ret {A} (r : A + E) (Q : A + E → Prop) : Q r → allocs R oom (mret r) Q.
Proof. intros HQ s Hs. apply wp_ret. auto. Qed.

Lemma allocs_reserve (Q : unit + E → Prop) : Q (inl tt) → allocs R oom (try_reserve oom) Q.
Proof.
  intros HQ s Hs. unfold wp, try_reserve. destruct (heap s) as [|[] rest] eqn:Hh; simpl; (split; [done|]); [left|left|right]; done.
Qed.

Lemma allocs_try {A B} (m : M FsState (A + E)) (k : A → M FsState (B + E)) (P : A + E → Prop) (Q : B + E → Prop) :
  allocs R oom m P → (∀ a, P (inl a) → allocs R oom (k a) Q) → (∀ e, P (inr e) → Q (inr e)) →
  allocs R oom (try_bind m k) Q.
Proof.
  intros Hm Hk He s Hs. apply wp_try. eapply wp_mono; [by apply Hm|].
  intros [a|e] s1 (Hr1 & [[HP Hh]|[Heq Hne]]).
  - eapply wp_mono; [by apply Hk|]. intros r s2 (Hr2 & [[HQ Hh2]|[-> Hne2]]).
    + split; [done|]. left. auto.
    + split; [done|]. right. auto.
  - done.
  - split; [done|]. left. auto.
  - injection Heq as ->. split; [done|]. right. auto.
Qed.

Lemma allocs_reserved {B} (k : M FsState (B + E)) (Q : B + E → Prop) :
  allocs R oom k Q → allocs R oom (_ ←? try_reserve oom; k) Q.
Proof. intros Hk. eapply (allocs_try _ _ (eq (inl tt))); [by apply allocs_reserve|done|done]. Qed.

(** A pure test. *)
Lemma allocs_test {A B} (r : A + E) (k : A → M FsState (B + E)) (Q : B + E → Prop) :
  match r with inl a => allocs R oom (k a) Q | inr e => Q (inr e) end → allocs R oom (x ←? mret r; k x) Q.
Proof.
  intros H. eapply (allocs_try _ _ (eq r)); [by apply allocs_ret| |]; [intros a|intros e]; intros ->; done.
Qed.

Lemma allocs_mono {A} (m : M FsState (A + E)) (P Q : A + E → Prop) :
  allocs R oom m P → (∀ r, P r → Q r) → allocs R oom m Q.
Proof. intros Hm HPQ s Hs. eapply wp_mono; [by apply Hm|]. naive_solver. Qed.

Lemma allocs_expect {A B} (o : option A) a why (k : A → M FsState (B + E)) (Q : B + E → Prop) :
  o = Some a → allocs R oom (k a) Q → allocs R oom (x ← expect o why; k x) Q.
Proof. intros -> Hk s Hs. apply wp_bind. by apply Hk. Qed.

(** A loop with an invariant: [I l acc] holds after the elements [l]; an
    error satisfies [Q]. *)
Lemma allocs_fold {A B} (f : A → B → M FsState (B + E)) (I : list A → B → Prop) (Q : E → Prop) l acc :
  I [] acc →
  (∀ done x rest acc, l = done ++ x :: rest → I done acc →
     allocs R oom (f x acc) (λ r, match r with inl acc' => I (done ++ [x]) acc' | inr e => Q e end)) →
  allocs R oom (try_fold f l acc) (λ r, match r with inl acc' => I l acc' | inr e => Q e end).
Proof.
  intros HI Hf. cut (∀ rest done acc, l = done ++ rest → I done acc →
    allocs R oom (try_fold f rest acc) (λ r, match r with inl acc' => I l acc' | inr e => Q e end)).
  { intros H. by apply (H l []). }
  clear HI acc. induction rest as [|x rest IH]; intros done acc Hl HI.
  - apply allocs_ret. by rewrite Hl, app_nil_r.
  - simpl. eapply allocs_try; [by apply (Hf done x rest)| |done]. intros acc' HI'.
    apply (IH (done ++ [x])); [by rewrite <-app_assoc|done].
Qed.
End allocs.

(** An error that is mapped. *)
Lemma allocs_map_err {A E E'} (f : E → E') R oom (m : M FsState (A + E)) (P : A + E → Prop) (Q : A + E' → Prop) :
  allocs R oom m P → (∀ a, P (inl a) → Q (inl a)) → (∀ e, P (inr e) → Q (inr (f e))) →
  allocs R (f oom) (map_err f m) Q.
Proof.
  intros Hm Ha He s Hs. apply wp_bind. eapply wp_mono; [by apply Hm|].
  intros r s' (Hr & [[HP Hh]|[-> Hne]]); apply wp_ret; (split; [done|]); [left|by right].
  destruct r; auto.
Qed.

(** ** Archive member names *)

Definition name_ok (c : list Z) : Prop := ¬ (c = [] ∨ c = lit "." ∨ c = lit "..").
#[global] Instance name_ok_dec c : Decision (name_ok c).
Proof. unfold name_ok. apply _. Defined.

Lemma split_on_ne l : split_on SLASH l ≠ [].
Proof. destruct l as [|x l]; [done|]. simpl. destruct (split_on SLASH l); [done|]. by destruct (_ =? _)%Z. Qed.

Lemma split_on_no_slash l : Forall (λ c, SLASH ∉ c) (split_on SLASH l).
Proof.
  induction l as [|x l IH]; [repeat constructor; apply not_elem_of_nil|]. simpl.
  destruct (split_on SLASH l) as [|w ws]; [repeat constructor; apply not_elem_of_nil|].
  destruct (Z.eqb_spec x SLASH) as [|Hne]; [by constructor; [apply not_elem_of_nil|]|].
  apply Forall_cons in IH as [Hw Hws]. constructor; [|done]. apply not_elem_of_cons. by split.
Qed.

Lemma split_on_path_ok l : Forall name_ok (split_on SLASH l) → path_ok (split_on SLASH l).
Proof.
  intros H. apply Forall_forall. intros c Hc. pose proof (split_on_no_slash l) as Hn.
  rewrite Forall_forall in H, Hn. split; [|by apply Hn]. intros ->. by destruct (H _ Hc); left.
Qed.

Lemma rel_drop cs : cs ≠ [] → rel cs = SLASH :: drop 1 (rel cs).
Proof. by destruct cs. Qed.

Section archive_path.
Context {R : option MountedRamfs} (name : list Z).

(** At the end of a component that began at [start]. *)
Lemma archive_step_end cursor start out :
  start ≤ cursor ≤ length name → (cursor = length name ∨ name !! cursor = Some SLASH) →
  let cur := take (cursor - start) (drop start name) in
  allocs R InitOutOfMemory (archive_path_step name cursor (out, start))
    (λ r, if decide (name_ok cur)
          then r = inl (if decide (cursor = length name) then out ++ cur else (out ++ cur) ++ [SLASH], S cursor)
          else r = inr InitInvalidPath).
Proof.
  intros Hs Hend cur s Hst. unfold archive_path_step, slice. rewrite (decide_True _ _ Hend), (decide_True _ _ Hs).
  apply wp_bind, wp_ret. fold cur. destruct (decide (cur = [] ∨ _)) as [Hbad|Hok].
  - apply wp_ret. split; [done|]. left. split; [|done]. by rewrite decide_False by (intros H; by apply H).
  - apply wp_ret. split; [done|]. left. split; [|done]. by rewrite (decide_True (P := name_ok cur)).
Qed.

(** What remains of the path from [start] on, in components. *)
Lemma archive_split cursor start :
  start ≤ cursor ≤ length name → SLASH ∉ take (cursor - start) (drop start name) →
  (cursor = length name ∨ name !! cursor = Some SLASH) →
  split_on SLASH (drop start name) =
  take (cursor - start) (drop start name) ::
    if decide (cursor = length name) then [] else split_on SLASH (drop (S cursor) name).
Proof.
  intros Hs Hcur Hend. pose proof (take_drop (cursor - start) (drop start name)) as Hsplit. rewrite drop_drop in Hsplit.
  replace (start + (cursor - start)) with cursor in Hsplit by lia. rewrite <-Hsplit at 1.
  rewrite split_on_app by done. destruct (decide (cursor = length name)) as [->|Hne].
  - rewrite drop_all. simpl. by rewrite app_nil_r.
  - destruct Hend as [|Hl]; [done|]. rewrite (drop_S name SLASH cursor Hl), split_on_slash. by rewrite app_nil_r.
Qed.

(** The scan from [cursor], the component that began at [start] still open. *)
Lemma archive_scan n cursor start out :
  cursor + n = length name → start ≤ cursor → SLASH ∉ take (cursor - start) (drop start name) →
  allocs R InitOutOfMemory (try_fold (archive_path_step name) (seq cursor (S n)) (out, start))
    (λ r, let cs := split_on SLASH (drop start name) in
          if decide (Forall name_ok cs) then r = inl (out ++ drop 1 (rel cs), S (length name))
          else r = inr InitInvalidPath).
Proof.
  induction n as [|n IH] in cursor, start, out |- *; intros Hn Hs Hcur; cbn [seq try_fold]; cbn zeta.
  - rewrite (archive_split cursor start) by (first [done|lia|left; lia]). rewrite (decide_True (P := cursor = length name)) by lia.
    eapply allocs_try; [apply archive_step_end; [lia|left; lia]| |]; cbn beta zeta.
    + intros acc. destruct (decide (name_ok _)) as [Hok|]; [|done]. intros [= ->]. apply allocs_ret.
      rewrite (decide_True (P := Forall _ _)) by (by repeat constructor). rewrite decide_True by lia. simpl.
      rewrite app_nil_r. do 2 f_equal. lia.
    + intros e. destruct (decide (name_ok _)) as [Hok|]; [done|]. intros [= ->].
      by rewrite decide_False by (by intros [? _]%Forall_cons).
  - destruct (decide (name !! cursor = Some SLASH)) as [Hx|Hx].
    + rewrite (archive_split cursor start) by (first [done|lia|by right]). rewrite (decide_False (P := cursor = length name)) by lia.
      eapply allocs_try; [apply archive_step_end; [lia|by right]| |]; cbn beta zeta.
      * intros acc. destruct (decide (name_ok _)) as [Hok|]; [|done]. intros [= ->].
        rewrite (decide_False (P := cursor = length name)) by lia. eapply allocs_mono; [apply IH; [lia|lia|]|].
        { rewrite Nat.sub_diag. apply not_elem_of_nil. }
        cbn zeta. intros r. destruct (decide (Forall name_ok (split_on SLASH (drop (S cursor) name)))) as [Hf|Hf]; intros ->.
        -- rewrite decide_True by (by constructor). do 2 f_equal. rewrite <-!app_assoc. f_equal. simpl. rewrite drop_0.
           f_equal. symmetry. apply rel_drop, split_on_ne.
        -- by rewrite decide_False by (by intros [_ ?]%Forall_cons).
      * intros e. destruct (decide (name_ok _)) as [Hok|]; [done|]. intros [= ->].
        by rewrite decide_False by (by intros [? _]%Forall_cons).
    + destruct (lookup_lt_is_Some_2 name cursor) as [x Hl]; [lia|].
      eapply allocs_try with (P := eq (inl (out, start))); [| |done].
      { unfold archive_path_step. rewrite decide_False by (intros [|]; [lia|done]). by apply allocs_ret. }
      intros acc [= <-]. apply IH; [lia|lia|]. replace (S cursor - start) with (S (cursor - start)) by lia.
      rewrite (take_S_r _ _ x) by (rewrite lookup_drop; by replace (start + (cursor - start)) with cursor by lia).
      rewrite not_elem_of_app, list_elem_of_singleton. split; [done|]. intros <-. done.
Qed.

Lemma canonical_archive_path_spec :
  allocs R InitOutOfMemory (canonical_archive_path name)
    (λ r, if decide (Forall name_ok (split_on SLASH name)) then r = inl (render (split_on SLASH name))
          else r = inr InitInvalidPath).
Proof.
  unfold canonical_archive_path. destruct name as [|x l] eqn:Hname.
  - apply allocs_ret. rewrite decide_False; [done|]. intros [H _]%Forall_cons. apply H. by left.
  - destruct (Z.eqb_spec x SLASH) as [->|Hx].
    + apply allocs_ret. rewrite split_on_slash, decide_False; [done|]. intros [H _]%Forall_cons. apply H. by left.
    + rewrite <-Hname. apply allocs_reserved.
      eapply allocs_try; [apply archive_scan; [done|lia|apply not_elem_of_nil]| |]; cbn zeta; rewrite drop_0.
      * intros acc. destruct (decide (Forall _ _)) as [Hf|Hf]; [|done]. intros [= ->]. apply allocs_ret.
        f_equal. simpl. rewrite render_ne by apply split_on_ne. symmetry. apply rel_drop, split_on_ne.
      * intros e. destruct (decide (Forall _ _)); [done|]. by intros [= ->].
Qed.
End archive_path.
