(* ===== verification/RamfsIndex.v ===== *)
(** * Building the index

    The specification of [MountedRamfs::new]: for files and directories given
    by canonical paths, the index holds exactly the tree they span, each
    directory lists its children once and in order, and the only failures are
    a repeated path and a file that is also a directory. *)

From stdpp Require Import sorting.
From S2P Require Import Prelude Ramfs RamfsSpec.

(** ** Pushing directories *)

Section push.
Context {R : option MountedRamfs}.

Lemma push_dir_path_spec path dirs :
  allocs R MountOutOfMemory (push_dir_path path dirs) (eq (inl (dirs ++ [path]))).
Proof.
  apply allocs_reserved. eapply (allocs_try _ _ (eq (inl path))); [by apply allocs_reserved, allocs_ret| |done].
  intros ? [= <-]. by apply allocs_ret.
Qed.

Lemma push_parent_dirs_spec p dirs :
  path_ok p →
  allocs R MountOutOfMemory (push_parent_dirs (render p) dirs)
    (λ r, ∃ new, r = inl (dirs ++ new) ∧
       ∀ x, x ∈ new ↔ ∃ q, (q = [] ∨ q `prefix_of` p ∧ q ≠ p) ∧ x = render q).
Proof.
  intros Hp. unfold push_parent_dirs. apply allocs_test. rewrite validate_render by done.
  eapply (allocs_try _ _ _ _ (push_dir_path_spec _ _)); [|done]. intros ? [= <-].
  eapply allocs_mono; [eapply (allocs_fold _ (λ cursors acc, ∃ new, acc = (dirs ++ [[SLASH]]) ++ new ∧
    ∀ x, x ∈ new ↔ ∃ n, n ∈ cursors ∧ render p !! n = Some SLASH ∧ x = take n (render p)) (λ _, False))|].
  - exists []. split; [by rewrite app_nil_r|]. intros x. split; [by intros ?%elem_of_nil|by intros (? & ?%elem_of_nil & _)].
  - intros cs cursor rest acc Hseq (new & -> & Hnew).
    assert (cursor < length (render p)) as Hlt.
    { assert (cursor ∈ seq 1 (length (render p) - 1)) as H%elem_of_seq; [|lia]. rewrite Hseq. set_solver. }
    destruct (lookup_lt_is_Some_2 _ _ Hlt) as [y Hy]. apply (allocs_expect _ y); [done|]. destruct (Z.eqb_spec y SLASH) as [->|Hne].
    + eapply allocs_mono; [apply push_dir_path_spec|]. intros r <-. exists (new ++ [take cursor (render p)]).
      split; [by rewrite <-!app_assoc|]. intros x. rewrite elem_of_app, list_elem_of_singleton, Hnew. set_solver.
    + apply allocs_ret. exists new. split; [done|]. intros x. rewrite Hnew. split; [set_solver|].
      intros (n & [Hn|Hn%list_elem_of_singleton]%elem_of_app & Hs & ->); [by exists n|]. congruence.
  - intros [acc|]; [|done]. intros (new & -> & Hnew). exists ([SLASH] :: new). split; [by rewrite <-app_assoc|].
    intros x. rewrite elem_of_cons, Hnew. split.
    + intros [->|(n & Hn & Hs & ->)]; [by exists []; auto|]. apply elem_of_seq in Hn.
      destruct p as [|c p]; [simpl in Hn; lia|]. rewrite render_ne in * by done. rewrite (slash_at _ _ Hp) in Hs.
      destruct Hs as (q & Hq & Hne & ->). exists q. split; [by right|]. rewrite take_rel_prefix by done.
      symmetry. apply render_ne. intros ->. simpl in Hn. lia.
    + intros (q & Hq & ->). destruct q as [|c q]; [by left|]. right. destruct Hq as [|[Hq Hne]]; [done|].
      assert (p ≠ []) as Hp0 by (intros ->; by apply prefix_nil_inv in Hq).
      exists (length (rel (c :: q))). rewrite !render_ne, take_rel_prefix by done.
      assert (rel p !! length (rel (c :: q)) = Some SLASH) as Hs by (rewrite (slash_at _ _ Hp); eauto).
      split; [|done]. apply elem_of_seq. apply lookup_lt_Some in Hs. simpl in *. lia.
Qed.

Lemma push_dir_with_parents_spec p dirs :
  path_ok p →
  allocs R MountOutOfMemory (push_dir_with_parents (render p) dirs)
    (λ r, ∃ new, r = inl (dirs ++ new) ∧ ∀ x, x ∈ new ↔ ∃ q, q `prefix_of` p ∧ x = render q).
Proof.
  intros Hp. unfold push_dir_with_parents. apply allocs_test. rewrite validate_render by done.
  eapply (allocs_try _ _ _ _ (push_parent_dirs_spec p dirs Hp)); [|by intros ? (? & ? & _)].
  intros ? (new & [= ->] & Hnew). eapply allocs_mono; [apply push_dir_path_spec|]. intros ? <-.
  exists (new ++ [render p]). split; [by rewrite app_assoc|]. intros x. rewrite elem_of_app, list_elem_of_singleton, Hnew.
  split.
  - intros [(q & [->|[Hq _]] & ->)| -> ]; [exists []|exists q|exists p]; split; try done. apply prefix_nil.
  - intros (q & Hq & ->). destruct (decide (q = p)) as [->|]; [by right|]. left. exists q. split; [by right|done].
Qed.

(** A loop of pushes: what each element contributes. *)
Lemma push_loop_spec {A} (f : A → list (list Z) → M FsState (list (list Z) + MountError)) (P : A → list Z → Prop) l dirs :
  (∀ x acc, x ∈ l → allocs R MountOutOfMemory (f x acc) (λ r, ∃ new, r = inl (acc ++ new) ∧ ∀ y, y ∈ new ↔ P x y)) →
  allocs R MountOutOfMemory (try_fold f l dirs)
    (λ r, ∃ new, r = inl (dirs ++ new) ∧ ∀ y, y ∈ new ↔ ∃ x, x ∈ l ∧ P x y).
Proof.
  intros Hf. eapply allocs_mono; [eapply (allocs_fold _ (λ xs acc, ∃ new, acc = dirs ++ new ∧
    ∀ y, y ∈ new ↔ ∃ x, x ∈ xs ∧ P x y) (λ _, False))|].
  - exists []. split; [by rewrite app_nil_r|]. intros y. split; [by intros ?%elem_of_nil|by intros (? & ?%elem_of_nil & _)].
  - intros xs x rest acc -> (new & -> & Hnew). eapply allocs_mono; [apply Hf, elem_of_app; right; left|].
    intros r (new' & -> & Hnew'). exists (new ++ new'). split; [by rewrite app_assoc|].
    intros y. rewrite elem_of_app, Hnew, Hnew'. split.
    + intros [(x' & Hx' & HP)|HP]; [exists x'|exists x]; (split; [apply elem_of_app|done]); [by left|by right; left].
    + intros (x' & [Hx'|Hx'%list_elem_of_singleton]%elem_of_app & HP); [eauto|]. subst. by right.
  - intros [acc|]; [|done]. intros (new & -> & Hnew). by exists new.
Qed.
End push.

(** ** Directory entries *)

(** The entry that the [i]-th path contributes to the directory [path]. *)
Definition child_entry (kind : DirEntryKind) (ino_of : nat → Z) (paths : list (list Z)) (path : list Z) (i : nat)
    : option RamDirEntry :=
  full ← paths !! i;
  match parent_path full, basename full with
  | inl q, inl n => if decide (q = path) then Some (mkRamDirEntry n kind (ino_of i)) else None
  | _, _ => None
  end.

Lemma child_entry_Some kind ino_of paths p i e :
  path_ok p → Forall (λ x, ∃ q, path_ok q ∧ x = render q) paths →
  child_entry kind ino_of paths (render p) i = Some e ↔
  paths !! i = Some (render (p ++ [rde_name e])) ∧ comp_ok (rde_name e) ∧ rde_kind e = kind ∧ rde_ino e = ino_of i.
Proof.
  intros Hp Hall. unfold child_entry. destruct (paths !! i) as [full|] eqn:Hi; simpl; [|split; [done|by intros (? & _)]].
  rewrite Forall_forall in Hall. destruct (Hall full) as (q & Hq & ->); [by eapply list_elem_of_lookup_2|].
  destruct q as [|c q _] using rev_ind.
  { simpl. split; [done|]. intros ([= H] & Hc & _). symmetry in H.
    assert (p ++ [rde_name e] = []) as Hnil by (apply render_inj; [by apply path_ok_snoc|constructor|done]).
    by apply app_eq_nil in Hnil as [_ ?]. }
  rewrite parent_path_render, basename_render by done. apply path_ok_snoc in Hq as [Hq Hc]. destruct (decide (render q = render p)) as [He|Hne].
  - apply render_inj in He as ->; [|done..]. split.
    + intros [= <-]. simpl. auto.
    + destruct e as [n k ino]; simpl. intros ([= He] & Hn & -> & ->). do 2 f_equal.
      apply render_inj in He; [|by apply path_ok_snoc..]. by apply app_inj_2 in He as [_ [= ->]].
  - split; [done|]. intros ([= He] & Hn & _). destruct Hne. apply render_inj in He; [|by apply path_ok_snoc..].
    apply app_inj_2 in He as [-> _]; done.
Qed.

(** All entries of a directory, before sorting. *)
Definition children_of (fpaths dpaths : list (list Z)) (path : list Z) (fi di : list nat) : list RamDirEntry :=
  omap (child_entry KindFile file_ino fpaths path) fi ++ omap (child_entry KindDirectory dir_ino dpaths path) di.

Lemma NoDup_omap_names (f : nat → option RamDirEntry) l :
  NoDup l → (∀ i j e e', f i = Some e → f j = Some e' → rde_name e = rde_name e' → i = j) →
  NoDup (rde_name <$> omap f l).
Proof.
  intros Hl Hinj. induction Hl as [|i l Hi Hl IH]; [constructor|]. simpl. destruct (f i) as [e|] eqn:He; [|done].
  simpl. constructor; [|done]. rewrite list_elem_of_fmap. intros (e' & Hn & (j & Hj & He')%list_elem_of_omap).
  by rewrite (Hinj _ _ _ _ He He' Hn) in Hi.
Qed.

Section populate.
Context {R : option MountedRamfs} (files : list RamFile) (dpaths : list (list Z)).
Abbreviation fpaths := (rf_path <$> files).
Hypothesis Hf_ok : Forall (λ x, ∃ q, path_ok q ∧ x = render q) fpaths.
Hypothesis Hd_ok : Forall (λ x, ∃ q, path_ok q ∧ x = render q) dpaths.
Hypothesis Hf_nd : NoDup fpaths.
Hypothesis Hd_nd : NoDup dpaths.
Hypothesis Hroot : ∀ q, path_ok q → render q ∈ fpaths → q ≠ [].
Hypothesis Hparents : ∀ p c, path_ok (p ++ [c]) → render (p ++ [c]) ∈ fpaths ++ dpaths → render p ∈ dpaths.
Hypothesis Hdisj : ∀ x, x ∈ fpaths → x ∉ dpaths.

(** The index while the entries of the files [fi] and directories [di] are in. *)
Definition index_with (fi di : list nat) : MountedRamfs :=
  mkMountedRamfs files ((λ path, mkRamDir path (children_of fpaths dpaths path fi di)) <$> dpaths).

Lemma find_dir fi di p :
  render p ∈ dpaths → ∃ i, fs_lookup_dir (index_with fi di) (render p) = Some i ∧ dpaths !! i = Some (render p).
Proof.
  intros (i & Hi)%list_elem_of_lookup. exists i. split; [|done]. unfold fs_lookup_dir.
  rewrite fmap_Some. exists (i, mkRamDir (render p) (children_of fpaths dpaths (render p) fi di)). split; [|done].
  apply list_find_Some. simpl. rewrite list_lookup_fmap, Hi. split; [done|]. split; [done|].
  intros j d Hj Hlt. rewrite list_lookup_fmap_Some in Hj. destruct Hj as (x & -> & Hx). simpl. intros ->.
  pose proof (NoDup_lookup _ _ _ _ Hd_nd Hi Hx). lia.
Qed.

(** One entry goes into its parent's list. *)
Lemma place_and_append fi di fi2 di2 p c kind ino :
  path_ok (p ++ [c]) → render p ∈ dpaths →
  (∀ path, children_of fpaths dpaths path fi2 di2 =
           children_of fpaths dpaths path fi di ++ if decide (path = render p) then [mkRamDirEntry c kind ino] else []) →
  allocs R MountOutOfMemory
    (place ←? place_in_parent (index_with fi di) (render (p ++ [c]));
     append_dir_entry place.1 place.2 kind ino (index_with fi di))
    (eq (inl (index_with fi2 di2))).
Proof.
  intros Hp Hin Hnew. destruct (find_dir fi di p Hin) as (i & Hlk & Hi).
  eapply (allocs_try _ _ (eq (inl (i, c)))).
  { unfold place_in_parent. rewrite parent_path_render, basename_render by done. apply allocs_test, allocs_test.
    rewrite Hlk. apply allocs_test.
    eapply (allocs_try _ _ (eq (inl c))); [by apply allocs_reserved, allocs_ret| |done]. intros ? [= <-]. by apply allocs_ret. }
  2: done.
  intros ? [= <-]. unfold append_dir_entry. simpl. eapply allocs_expect; [by rewrite list_lookup_fmap, Hi|].
  apply allocs_reserved, allocs_ret. unfold index_with. do 2 f_equal. apply list_eq. intros j.
  rewrite list_lookup_alter, !list_lookup_fmap. destruct (decide (i = j)) as [<-|Hne].
  - rewrite Hi. simpl. by rewrite Hnew, decide_True.
  - destruct (dpaths !! j) as [x|] eqn:Hj; [|done]. simpl. rewrite Hnew, decide_False; [by rewrite app_nil_r|].
    intros ->. by pose proof (NoDup_lookup _ _ _ _ Hd_nd Hi Hj).
Qed.

Lemma render_child x : x ∈ fpaths ++ dpaths → x ≠ [SLASH] → ∃ p c, path_ok (p ++ [c]) ∧ x = render (p ++ [c]) ∧ render p ∈ dpaths.
Proof.
  intros Hx Hne. assert (∃ q, path_ok q ∧ x = render q) as (q & Hq & ->).
  { rewrite Forall_forall in Hf_ok, Hd_ok. apply elem_of_app in Hx as [|]; auto. }
  destruct q as [|c p _] using rev_ind; [done|]. exists p, c. split; [done|]. split; [done|]. by eapply Hparents.
Qed.

Lemma child_here kind ino_of paths p c i path :
  path_ok (p ++ [c]) → paths !! i = Some (render (p ++ [c])) →
  omap (child_entry kind ino_of paths path) [i] = if decide (path = render p) then [mkRamDirEntry c kind (ino_of i)] else [].
Proof.
  intros Hp Hi. simpl. unfold child_entry. rewrite Hi. simpl. rewrite parent_path_render, basename_render by done.
  destruct (decide (render p = path)) as [<-|]; [by rewrite decide_True|by rewrite decide_False].
Qed.
Lemma children_of_elem p fi di e :
  path_ok p →
  e ∈ children_of fpaths dpaths (render p) fi di ↔
  comp_ok (rde_name e) ∧
  ((∃ i, i ∈ fi ∧ fpaths !! i = Some (render (p ++ [rde_name e])) ∧ rde_kind e = KindFile ∧ rde_ino e = file_ino i) ∨
   (∃ i, i ∈ di ∧ dpaths !! i = Some (render (p ++ [rde_name e])) ∧ rde_kind e = KindDirectory ∧ rde_ino e = dir_ino i)).
Proof.
  intros Hp. unfold children_of. rewrite elem_of_app, !list_elem_of_omap. split.
  - intros [(i & Hi & He)|(i & Hi & He)]; apply child_entry_Some in He as (H1 & H2 & H3 & H4); try done;
      (split; [done|]); [left|right]; by exists i.
  - intros (Hc & [(i & Hi & H1 & H2 & H3)|(i & Hi & H1 & H2 & H3)]); [left|right]; exists i; (split; [done|]);
      by apply child_entry_Some.
Qed.

Lemma children_nodup p fi di :
  path_ok p → NoDup fi → NoDup di → NoDup (rde_name <$> children_of fpaths dpaths (render p) fi di).
Proof.
  intros Hp Hfi Hdi. unfold children_of. rewrite fmap_app. apply NoDup_app. split_and!.
  - apply NoDup_omap_names; [done|]. intros i j e e' (H1 & _)%child_entry_Some (H2 & _)%child_entry_Some Hn; try done.
    rewrite Hn in H1. by eapply (NoDup_lookup _ _ _ _ Hf_nd).
  - intros n (e & -> & (i & _ & He)%list_elem_of_omap)%list_elem_of_fmap (e' & Hn & (j & _ & He')%list_elem_of_omap)%list_elem_of_fmap.
    apply child_entry_Some in He as (H1 & _); try done. apply child_entry_Some in He' as (H2 & _); try done.
    apply (Hdisj (render (p ++ [rde_name e]))); [by eapply list_elem_of_lookup_2|]. rewrite Hn. by eapply list_elem_of_lookup_2.
  - apply NoDup_omap_names; [done|]. intros i j e e' (H1 & _)%child_entry_Some (H2 & _)%child_entry_Some Hn; try done.
    rewrite Hn in H1. by eapply (NoDup_lookup _ _ _ _ Hd_nd).
Qed.

Lemma populate_files :
  allocs R MountOutOfMemory (try_fold populate_file (seq 0 (length files)) (index_with [] []))
    (eq (inl (index_with (seq 0 (length files)) []))).
Proof.
  eapply allocs_mono; [eapply (allocs_fold _ (λ is' fs, fs = index_with is' []) (λ _, False)); [done|]|].
  2: { intros [fs|]; [by intros ->|done]. }
  intros fi i rest fs Hseq ->. assert (i ∈ seq 0 (length files)) as Hin by (rewrite Hseq, elem_of_app; right; left).
  apply elem_of_seq in Hin. destruct (lookup_lt_is_Some_2 files i) as [f Hf]; [lia|]. apply (allocs_expect _ f); [done|].
  assert (fpaths !! i = Some (rf_path f)) as Hi by (by rewrite list_lookup_fmap, Hf).
  assert (rf_path f ∈ fpaths) as Hfin by (by eapply list_elem_of_lookup_2).
  destruct (render_child (rf_path f)) as (p & c & Hp & Hpath & Hdir).
  { apply elem_of_app. by left. }
  { intros Hs. apply (Hroot []); [apply Forall_nil_2|by rewrite Hs in Hfin|done]. }
  rewrite Hpath in *. eapply allocs_mono; [apply (place_and_append _ _ (fi ++ [i]) []); [done..|]|by intros ? <-].
  intros path. unfold children_of. rewrite omap_app, !app_nil_r. f_equal. by apply child_here.
Qed.

Lemma populate_dirs :
  allocs R MountOutOfMemory (try_fold populate_dir (seq 0 (length dpaths)) (index_with (seq 0 (length files)) []))
    (eq (inl (index_with (seq 0 (length files)) (seq 0 (length dpaths))))).
Proof.
  eapply allocs_mono; [eapply (allocs_fold _ (λ js' fs, fs = index_with (seq 0 (length files)) js') (λ _, False)); [done|]|].
  2: { intros [fs|]; [by intros ->|done]. }
  intros di i rest fs Hseq ->. assert (i ∈ seq 0 (length dpaths)) as Hin by (rewrite Hseq, elem_of_app; right; left).
  apply elem_of_seq in Hin. destruct (lookup_lt_is_Some_2 dpaths i) as [x Hi]; [lia|].
  eapply allocs_expect; [simpl; by rewrite list_lookup_fmap, Hi|]. cbn [rd_path].
  destruct (decide (x = [SLASH])) as [->|Hne].
  - apply allocs_ret. assert (∀ path, omap (child_entry KindDirectory dir_ino dpaths path) [i] = []) as Hnone.
    { intros path. simpl. unfold child_entry. by rewrite Hi. }
    unfold index_with, children_of. f_equal. apply list_fmap_ext. intros k path _. by rewrite omap_app, Hnone, app_nil_r.
  - assert (x ∈ dpaths) as Hx by (by eapply list_elem_of_lookup_2).
    destruct (render_child x) as (p & c & Hp & -> & Hdir); [apply elem_of_app; by right|done|].
    eapply allocs_mono; [apply (place_and_append _ _ (seq 0 (length files)) (di ++ [i])); [done..|]|by intros ? <-].
    intros path. unfold children_of. rewrite omap_app, app_assoc. f_equal. by apply child_here.
Qed.

Lemma sort_dir_entries_ok dirs :
  Forall (λ d, NoDup (rde_name <$> rd_entries d)) dirs →
  sort_dir_entries dirs = inl ((λ d, mkRamDir (rd_path d) (sort_by rde_name (rd_entries d))) <$> dirs).
Proof.
  induction 1 as [|d dirs Hd _ IH]; [done|]. simpl. unfold reject_duplicate_dir_entries.
  assert (adjacent_equal (rde_name <$> sort_by rde_name (rd_entries d)) = false) as ->.
  { apply adjacent_equal_sorted; [apply sort_by_sorted|]. by rewrite sort_by_perm. }
  by rewrite IH.
Qed.

Definition index_done : MountedRamfs :=
  mkMountedRamfs files ((λ path, mkRamDir path (sort_by rde_name
    (children_of fpaths dpaths path (seq 0 (length files)) (seq 0 (length dpaths))))) <$> dpaths).

Lemma populate_dir_entries_spec :
  allocs R MountOutOfMemory (populate_dir_entries (index_with [] [])) (eq (inl index_done)).
Proof.
  unfold populate_dir_entries. eapply (allocs_try _ _ _ _ populate_files); [|done]. intros ? [= <-].
  unfold index_with at 1. cbn [fs_dirs]. rewrite length_fmap.
  eapply (allocs_try _ _ _ _ populate_dirs); [|done]. intros ? [= <-]. unfold index_with at 1. cbn [fs_dirs fs_files].
  apply allocs_test. rewrite sort_dir_entries_ok.
  - apply allocs_ret. unfold index_done. by rewrite <-list_fmap_compose.
  - apply Forall_fmap, Forall_forall. intros x Hx. simpl.
    destruct (proj1 (Forall_forall _ _) Hd_ok x Hx) as (q & Hq & ->). apply children_nodup; [done|apply NoDup_seq..].
Qed.
End populate.

(** ** The tree of an archive *)

Section tree.
(** Files with their contents, and explicit directories, by component list. *)
Context (Fs : list (list (list Z) * list Z)) (Ds : list (list (list Z))).

(** The directories: the root, the explicit ones and all that lead to a member. *)
Definition dir_at (p : list (list Z)) : Prop :=
  p = [] ∨ (∃ q, q ∈ Ds ∧ p `prefix_of` q) ∨ (∃ q, q ∈ Fs.*1 ∧ p `prefix_of` q ∧ p ≠ q).

Record tree_index (fs : MountedRamfs) : Prop := {
  ti_files : ∀ x, x ∈ fs_files fs ↔ ∃ p d, (p, d) ∈ Fs ∧ x = mkRamFile (render p) d;
  ti_files_nd : NoDup (rf_path <$> fs_files fs);
  ti_dirs : ∀ x, x ∈ rd_path <$> fs_dirs fs ↔ ∃ p, dir_at p ∧ x = render p;
  ti_dirs_nd : NoDup (rd_path <$> fs_dirs fs);
  ti_disj : ∀ p, p ∈ Fs.*1 → ¬ dir_at p;
  ti_entries : ∀ dir p, dir ∈ fs_dirs fs → path_ok p → rd_path dir = render p →
    StronglySorted bytes_le (rde_name <$> rd_entries dir) ∧ NoDup (rde_name <$> rd_entries dir) ∧
    ∀ e, e ∈ rd_entries dir ↔ comp_ok (rde_name e) ∧
      ((∃ i, (rf_path <$> fs_files fs) !! i = Some (render (p ++ [rde_name e])) ∧ rde_kind e = KindFile ∧ rde_ino e = file_ino i) ∨
       (∃ i, (rd_path <$> fs_dirs fs) !! i = Some (render (p ++ [rde_name e])) ∧ rde_kind e = KindDirectory ∧ rde_ino e = dir_ino i))
}.

Context {R : option MountedRamfs}.
Hypothesis HFs : Forall path_ok Fs.*1.
Hypothesis HFs_ne : [] ∉ Fs.*1.
Hypothesis HDs : Forall path_ok Ds.
Hypothesis HFs_nd : NoDup Fs.*1.
Hypothesis HDs_nd : NoDup Ds.

Abbreviation files := (sort_by rf_path ((λ '(p, d), mkRamFile (render p) d) <$> Fs)).

Lemma file_in x : x ∈ files ↔ ∃ p d, (p, d) ∈ Fs ∧ x = mkRamFile (render p) d.
Proof.
  rewrite sort_by_perm, list_elem_of_fmap. split; [intros ([p d] & -> & H)|intros (p & d & H & ->)]; [by exists p, d|by exists (p, d)].
Qed.

Lemma fpath_in x : x ∈ rf_path <$> files ↔ ∃ p, p ∈ Fs.*1 ∧ x = render p.
Proof.
  rewrite list_elem_of_fmap. split.
  - intros (f & -> & (p & d & Hin & ->)%file_in). exists p. split; [|done]. apply list_elem_of_fmap. by exists (p, d).
  - intros (p & ([p' d] & -> & Hin)%list_elem_of_fmap & ->). exists (mkRamFile (render p') d). split; [done|]. apply file_in. by exists p', d.
Qed.

Lemma path_ok_file p : p ∈ Fs.*1 → path_ok p.
Proof. intros. by apply (proj1 (Forall_forall _ _) HFs). Qed.

Lemma path_ok_dir p : p ∈ Ds → path_ok p.
Proof. intros. by apply (proj1 (Forall_forall _ _) HDs). Qed.

Lemma dir_at_ok p : dir_at p → path_ok p.
Proof.
  intros [->|[(q & Hq & Hp)|(q & Hq & Hp & _)]]; [apply Forall_nil_2|..]; eapply path_ok_prefix; eauto using path_ok_file, path_ok_dir.
Qed.

Lemma dir_at_parent p c : dir_at (p ++ [c]) → dir_at p.
Proof.
  intros [H|[(q & Hq & Hp)|(q & Hq & Hp & _)]]; [by destruct p|..].
  - right. left. exists q. split; [done|]. etrans; [|done]. by apply prefix_app_r.
  - right. right. exists q. split; [done|]. split; [etrans; [|done]; by apply prefix_app_r|].
    intros ->. by apply prefix_snoc_not in Hp.
Qed.

Lemma NoDup_render (l : list (list (list Z))) : Forall path_ok l → NoDup l → NoDup (render <$> l).
Proof.
  intros Hl. induction 1 as [|p l Hp _ IH]; [constructor|]. apply Forall_cons in Hl as [Hp_ok Hl]. simpl. constructor; [|auto].
  rewrite list_elem_of_fmap. intros (q & Hr & Hq). apply Hp. rewrite (render_inj p q); try done.
  by apply (proj1 (Forall_forall _ _) Hl).
Qed.

Lemma fpaths_nd : NoDup (rf_path <$> files).
Proof.
  rewrite sort_by_perm, <-list_fmap_compose.
  rewrite (list_fmap_ext _ (render ∘ fst) Fs) by (by intros ? []). rewrite list_fmap_compose. by apply NoDup_render.
Qed.

(** The directory paths the index collects. *)
Lemma collect_dirs_spec :
  allocs R MountOutOfMemory
    (collect_dir_paths files (sort_by id (render <$> Ds)))
    (λ r, ∃ dirs, r = inl dirs ∧ ∀ x, x ∈ dirs ↔ ∃ p, dir_at p ∧ x = render p).
Proof.
  eapply (allocs_try _ _ _ _ (push_dir_path_spec _ _)); [|done]. intros ? [= <-]. eapply allocs_try.
  { apply (push_loop_spec _ (λ x y, ∃ p q, p ∈ Ds ∧ x = render p ∧ q `prefix_of` p ∧ y = render q)). intros x acc Hx.
    rewrite sort_by_perm in Hx. apply list_elem_of_fmap in Hx as (p & -> & Hp).
    eapply allocs_mono; [apply push_dir_with_parents_spec; by apply path_ok_dir|]. intros r (new & -> & Hnew).
    exists new. split; [done|]. intros y. rewrite Hnew. split; [intros (q & Hq & ->); by exists p, q|].
    intros (p' & q & Hp' & He & Hq & ->). apply render_inj in He as ->; [|by apply path_ok_dir..]. by exists q. }
  2: { by intros ? (? & ? & _). }
  intros ? (new & [= ->] & Hnew). eapply allocs_mono.
  { apply (push_loop_spec _ (λ x y, ∃ p q, p ∈ Fs.*1 ∧ rf_path x = render p ∧ (q = [] ∨ q `prefix_of` p ∧ q ≠ p) ∧ y = render q)).
    intros x acc (p & d & Hp & ->)%file_in. cbn [rf_path].
    assert (p ∈ Fs.*1) as Hp' by (apply list_elem_of_fmap; by exists (p, d)).
    eapply allocs_mono; [apply push_parent_dirs_spec; by apply path_ok_file|]. intros r (new' & -> & Hnew').
    exists new'. split; [done|]. intros y. rewrite Hnew'. split; [intros (q & Hq & ->); by exists p, q|].
    intros (p2 & q & Hp2 & He & Hq & ->). apply render_inj in He as ->; [|by apply path_ok_file..]. by exists q. }
  intros r (new' & -> & Hnew'). eexists. split; [done|]. intros x. rewrite elem_of_app, elem_of_cons, Hnew, Hnew'. split.
  - intros [[->|(? & _ & p & q & Hp & _ & Hq & ->)]|(? & _ & p & q & Hp & _ & Hq & ->)].
    + exists []. split; [by left|done].
    + exists q. split; [right; left; eauto|done].
    + destruct Hq as [->|[Hq Hne]]; [exists []; split; [by left|done]|]. exists q. split; [right; right; eauto|done].
  - intros (p & [->|[(q & Hq & Hp)|(q & Hq & Hp & Hne)]] & ->); [by left; left|left; right|right].
    + exists (render q). split; [rewrite sort_by_perm; by apply list_elem_of_fmap_2|]. by exists q, p.
    + apply list_elem_of_fmap in Hq as ([q' d] & -> & Hq). exists (mkRamFile (render q') d).
      split; [apply file_in; by exists q', d|]. exists q', p. split; [apply list_elem_of_fmap; by exists (q', d)|]. auto.
Qed.
Lemma conflicts_spec dirs :
  (∀ x, x ∈ dirs ↔ ∃ p, dir_at p ∧ x = render p) →
  match reject_file_dir_conflicts files dirs with
  | inl _ => ∀ p, p ∈ Fs.*1 → ¬ dir_at p
  | inr e => e = MountDuplicatePath ∧ ∃ p, p ∈ Fs.*1 ∧ dir_at p
  end.
Proof.
  intros Hd. unfold reject_file_dir_conflicts. destruct (existsb _ files) eqn:He.
  - split; [done|]. apply existsb_exists in He as (f & Hf%list_elem_of_In & (x & Hx%list_elem_of_In & ->%bool_decide_eq_true)%existsb_exists).
    apply file_in in Hf as (p & d & Hp & ->). apply Hd in Hx as (q & Hq & Hr). assert (p ∈ Fs.*1) as Hpf by (apply list_elem_of_fmap; by exists (p, d)).
    apply render_inj in Hr as ->; [|by apply path_ok_file|by apply dir_at_ok]. by exists q.
  - intros p Hp Hdir. apply list_elem_of_fmap in Hp as ([p' d] & -> & Hp). apply not_true_iff_false in He. apply He.
    apply existsb_exists. exists (mkRamFile (render p') d). split; [apply list_elem_of_In, file_in; by exists p', d|].
    apply existsb_exists. exists (render p'). split; [apply list_elem_of_In, Hd; by exists p'|]. by apply bool_decide_eq_true.
Qed.

Section indexed.
Context (dpaths : list (list Z)).
Hypothesis Hdp : ∀ x, x ∈ dpaths ↔ ∃ p, dir_at p ∧ x = render p.
Hypothesis Hnd : NoDup dpaths.
Hypothesis Hc : ∀ p, p ∈ Fs.*1 → ¬ dir_at p.

Lemma fpaths_ok : Forall (λ x, ∃ q, path_ok q ∧ x = render q) (rf_path <$> files).
Proof. apply Forall_forall. intros x (p & Hp & ->)%fpath_in. exists p. eauto using path_ok_file. Qed.

Lemma dpaths_ok : Forall (λ x, ∃ q, path_ok q ∧ x = render q) dpaths.
Proof. apply Forall_forall. intros x (p & Hp & ->)%Hdp. exists p. eauto using dir_at_ok. Qed.

Lemma fdpaths_disjoint x : x ∈ rf_path <$> files → x ∉ dpaths.
Proof.
  intros (p & Hp & ->)%fpath_in (q & Hq & Hr)%Hdp. apply render_inj in Hr as ->; [|by apply path_ok_file|by apply dir_at_ok].
  by apply (Hc q).
Qed.

Lemma populated :
  allocs R MountOutOfMemory (populate_dir_entries (index_with files dpaths [] [])) (eq (inl (index_done files dpaths))).
Proof.
  apply populate_dir_entries_spec; [apply fpaths_ok|apply dpaths_ok|apply fpaths_nd|done|..|apply fdpaths_disjoint].
  - intros q Hq (p & Hp & Hr)%fpath_in ->. apply render_inj in Hr as <-; [done|apply Forall_nil_2|by apply path_ok_file].
  - intros p c Hok Hin. apply Hdp. exists p. split; [|done]. apply elem_of_app in Hin as [(q & Hq & Hr)%fpath_in|(q & Hq & Hr)%Hdp].
    + apply render_inj in Hr as <-; [|done|by apply path_ok_file]. right. right. exists (p ++ [c]).
      split; [done|]. split; [by apply prefix_app_r|]. intros H. apply (f_equal length) in H. rewrite length_app in H. simpl in H. lia.
    + apply render_inj in Hr as <-; [|done|by apply dir_at_ok]. by eapply dir_at_parent.
Qed.

Lemma index_done_tree : tree_index (index_done files dpaths).
Proof.
  assert (rd_path <$> fs_dirs (index_done files dpaths) = dpaths) as Hpaths.
  { simpl. rewrite <-list_fmap_compose. by apply list_fmap_id. }
  split; rewrite ?Hpaths; [exact file_in|exact fpaths_nd|done|done|done|].
  intros dir p (x & -> & Hx)%list_elem_of_fmap Hp. cbn [rd_path rd_entries]. intros ->.
  split; [apply sort_by_sorted|]. rewrite sort_by_perm. split.
  - apply children_nodup; [apply fpaths_ok|apply dpaths_ok|apply fpaths_nd|done|apply fdpaths_disjoint|done|apply NoDup_seq..].
  - intros e. rewrite sort_by_perm. rewrite children_of_elem; [|apply fpaths_ok|apply dpaths_ok|done].
    assert (∀ (l : list (list Z)) n i y, n = length l → l !! i = Some y → i ∈ seq 0 n) as Hseq.
    { intros l n i y -> H%lookup_lt_Some. apply elem_of_seq. lia. }
    split; intros [Hok [(i & H)|(i & H)]]; (split; [done|]); [left|right|left|right]; exists i; try tauto;
      (split; [|done]); eapply Hseq; [|by apply H|done|by apply H]. by rewrite length_fmap.
Qed.
End indexed.

(** [MountedRamfs::new] indexes the tree; the one failure besides memory is a
    file that is also a directory. *)
Lemma ramfs_new_spec :
  allocs R MountOutOfMemory (ramfs_new ((λ '(p, d), mkRamFile (render p) d) <$> Fs) (render <$> Ds))
    (λ r, match r with
          | inl fs => tree_index fs
          | inr e => e = MountDuplicatePath ∧ ∃ p, p ∈ Fs.*1 ∧ dir_at p
          end).
Proof.
  unfold ramfs_new. apply allocs_test. unfold reject_duplicate_files.
  rewrite (proj2 (adjacent_equal_sorted _ (sort_by_sorted _ _)) fpaths_nd).
  eapply (allocs_try _ _ (λ r, r = inl tt)).
  { eapply allocs_mono; [apply (allocs_fold _ (λ _ _, True) (λ _, False)); [done|]|by intros [[]|]].
    intros done x rest acc Hl _. assert (x ∈ render <$> Ds) as Hx by (rewrite Hl, elem_of_app; right; left).
    apply list_elem_of_fmap in Hx as (p & -> & Hp). apply allocs_ret. by rewrite validate_render by (by apply path_ok_dir). }
  2: done.
  intros _ _. cbv zeta. apply allocs_test. unfold reject_duplicate_paths.
  rewrite (proj2 (adjacent_equal_sorted (sort_by id (render <$> Ds)) (sort_by_id_sorted _))); cycle 1.
  { rewrite sort_by_perm. by apply NoDup_render. }
  eapply (allocs_try _ _ _ _ collect_dirs_spec); [|by intros ? (? & ? & _)]. intros dirs (? & [= <-] & Hdirs). cbv zeta.
  set (dpaths := dedup (sort_by id dirs)).
  assert (∀ x, x ∈ dpaths ↔ ∃ p, dir_at p ∧ x = render p) as Hdp.
  { intros x. unfold dpaths. by rewrite dedup_elem, sort_by_perm. }
  apply allocs_test. pose proof (conflicts_spec dpaths Hdp) as Hc. destruct (reject_file_dir_conflicts files dpaths) as [_|e]; [|done].
  apply allocs_reserved. change (mkMountedRamfs files ((λ path, mkRamDir path []) <$> dpaths)) with (index_with files dpaths [] []).
  assert (NoDup dpaths) as Hnd by apply (dedup_sorted _ (sort_by_id_sorted _)).
  eapply allocs_mono; [by apply populated|]. intros r <-. by apply index_done_tree.
Qed.
End tree.
