(* ===== verification/Mount.v ===== *)
(** * Mounting the initial archive

    What the kernel serves after boot is exactly the tree of the archive:
    which errors a mount reports and why, and what every lookup and directory
    listing returns afterwards. *)

From stdpp Require Import sorting.
From S2P Require Import Prelude Ramfs RamfsSpec RamfsIndex.

(** ** The archive as a tree *)

Definition entry_path (e : CpioEntry) : list (list Z) := split_on SLASH (ce_name e).
Definition is_file (e : CpioEntry) : Prop := file_type (ce_mode e) = MODE_REGULAR_FILE.
Definition is_directory (e : CpioEntry) : Prop := file_type (ce_mode e) = MODE_DIRECTORY.
#[global] Instance is_file_dec e : Decision (is_file e).
Proof. unfold is_file. apply _. Defined.
#[global] Instance is_directory_dec e : Decision (is_directory e).
Proof. unfold is_directory. apply _. Defined.

Definition files_of (es : list CpioEntry) : list (list (list Z) * list Z) :=
  (λ e, (entry_path e, ce_file e)) <$> filter is_file es.
Definition dirs_of (es : list CpioEntry) : list (list (list Z)) := entry_path <$> filter is_directory es.

Definition archive_dir (es : list CpioEntry) (p : list (list Z)) : Prop := dir_at (files_of es) (dirs_of es) p.

(** The reason behind each error of a mount attempted in state [s]. *)
Definition archive_fault (es : list CpioEntry) (image : list Z) (s : FsState) (e : InitramfsError) : Prop :=
  match e with
  | InitUnsupportedFormat => take (length NEWC_MAGIC) image ≠ NEWC_MAGIC
  | InitParse => contains_subslice image TRAILER_NAME = false ∨ es = []
  | InitUnsupportedFileType => ∃ x, x ∈ es ∧ ((1 < ce_nlink x)%Z ∨ (¬ is_file x ∧ ¬ is_directory x))
  | InitInvalidPath => ∃ x, x ∈ es ∧ ¬ Forall name_ok (entry_path x)
  | InitDuplicatePath => ¬ NoDup (entry_path <$> es) ∨ ∃ p, p ∈ (files_of es).*1 ∧ archive_dir es p
  | InitMissingInit => [lit "init"] ∉ (files_of es).*1
  | InitAlreadyMounted => RAMFS s ≠ None
  | InitOutOfMemory => heap s ≠ []
  end.

Definition member_ok (e : CpioEntry) : Prop :=
  (ce_nlink e <= 1)%Z ∧ Forall name_ok (entry_path e) ∧ (is_file e ∨ is_directory e).

(** ** Scanning the members *)

Section scan.
Context {R : option MountedRamfs}.

Definition scanned (es : list CpioEntry) : list RamFile * list (list Z) :=
  ((λ '(p, d), mkRamFile (render p) d) <$> files_of es, render <$> dirs_of es).

Lemma scanned_snoc es e :
  scanned (es ++ [e]) =
  (if decide (is_file e) then (scanned es).1 ++ [mkRamFile (render (entry_path e)) (ce_file e)] else (scanned es).1,
   if decide (is_directory e) then (scanned es).2 ++ [render (entry_path e)] else (scanned es).2).
Proof.
  unfold scanned, files_of, dirs_of. rewrite !filter_app, !fmap_app. cbn [fst snd]. rewrite !filter_cons, !filter_nil.
  destruct (decide (is_file e)), (decide (is_directory e)); simpl; by rewrite ?app_nil_r.
Qed.

Lemma files_of_elem es p d : (p, d) ∈ files_of es ↔ ∃ x, x ∈ es ∧ is_file x ∧ p = entry_path x ∧ d = ce_file x.
Proof.
  unfold files_of. rewrite list_elem_of_fmap. split.
  - intros (x & [= -> ->] & [Hf Hx]%list_elem_of_filter). by exists x.
  - intros (x & Hx & Hf & -> & ->). exists x. split; [done|]. by apply list_elem_of_filter.
Qed.

Lemma file_paths_elem es p : p ∈ (files_of es).*1 ↔ ∃ x, x ∈ es ∧ is_file x ∧ p = entry_path x.
Proof.
  rewrite list_elem_of_fmap. split.
  - intros ([q d] & -> & (x & Hx & Hf & -> & _)%files_of_elem). by exists x.
  - intros (x & Hx & Hf & ->). exists (entry_path x, ce_file x). split; [done|]. apply files_of_elem. by exists x.
Qed.

Lemma dirs_of_elem es p : p ∈ dirs_of es ↔ ∃ x, x ∈ es ∧ is_directory x ∧ p = entry_path x.
Proof.
  unfold dirs_of. rewrite list_elem_of_fmap. split.
  - intros (x & -> & [Hf Hx]%list_elem_of_filter). by exists x.
  - intros (x & Hx & Hf & ->). exists x. split; [done|]. by apply list_elem_of_filter.
Qed.

Lemma path_exists_spec es e :
  Forall member_ok es → Forall name_ok (entry_path e) →
  path_exists (scanned es).1 (scanned es).2 (render (entry_path e)) = true ↔ entry_path e ∈ entry_path <$> es.
Proof.
  intros Hes He. unfold path_exists. rewrite orb_true_iff, !existsb_exists. rewrite Forall_forall in Hes.
  assert (∀ x, x ∈ es → render (entry_path x) = render (entry_path e) → entry_path e ∈ entry_path <$> es) as Hinj.
  { intros x Hx Hr. apply list_elem_of_fmap. exists x. split; [|done]. symmetry.
    apply render_inj; [apply split_on_path_ok; by apply Hes|by apply split_on_path_ok|done]. }
  split.
  - intros [(f & Hf%list_elem_of_In & He'%bool_decide_eq_true)|(d & Hd%list_elem_of_In & He'%bool_decide_eq_true)].
    + apply list_elem_of_fmap in Hf as ([p d] & -> & (x & Hx & _ & -> & _)%files_of_elem). by apply (Hinj x).
    + apply list_elem_of_fmap in Hd as (p & -> & (x & Hx & _ & ->)%dirs_of_elem). by apply (Hinj x).
  - intros (x & Hp & Hx)%list_elem_of_fmap. destruct (Hes x Hx) as (_ & _ & [Hf|Hd]); [left|right].
    + exists (mkRamFile (render (entry_path x)) (ce_file x)). split; [|by rewrite Hp; apply bool_decide_eq_true].
      apply list_elem_of_In, list_elem_of_fmap. exists (entry_path x, ce_file x). split; [done|]. apply files_of_elem. by exists x.
    + exists (render (entry_path x)). split; [|by rewrite Hp; apply bool_decide_eq_true].
      apply list_elem_of_In, list_elem_of_fmap_2, dirs_of_elem. by exists x.
Qed.

(** One member more: accepted, or refused for one of the three reasons. *)
Lemma scan_entry_spec es e :
  Forall member_ok es →
  allocs R InitOutOfMemory (scan_entry e (scanned es))
    (λ r, match r with
          | inl acc => acc = scanned (es ++ [e]) ∧ member_ok e ∧ entry_path e ∉ entry_path <$> es
          | inr InitUnsupportedFileType => (1 < ce_nlink e)%Z ∨ (¬ is_file e ∧ ¬ is_directory e)
          | inr InitInvalidPath => ¬ Forall name_ok (entry_path e)
          | inr InitDuplicatePath => entry_path e ∈ entry_path <$> es
          | inr _ => False
          end).
Proof.
  intros Hes. unfold scan_entry. destruct (scanned es) as [files dirs] eqn:Hsc.
  destruct (Z.ltb_spec 1 (ce_nlink e)) as [Hl|Hl]; [apply allocs_ret; by left|].
  eapply (allocs_try _ _ _ _ (canonical_archive_path_spec (ce_name e))); cbv beta; fold (entry_path e).
  2: { intros err. destruct (decide (Forall name_ok (entry_path e))); [done|]. by intros [= ->]. }
  intros path. destruct (decide (Forall name_ok (entry_path e))) as [Hn|]; [|done]. intros [= ->].
  pose proof (path_exists_spec es e Hes Hn) as Hpe. rewrite Hsc in Hpe. cbn [fst snd] in Hpe.
  destruct (path_exists files dirs _); [apply allocs_ret; by apply Hpe|].
  assert (entry_path e ∉ entry_path <$> es) as Hnew by (intros Hin; by apply Hpe in Hin).
  assert (¬ (is_file e ∧ is_directory e)) as Hboth by (intros [Hf Hd]; unfold is_file, is_directory in *; rewrite Hf in Hd; done).
  rewrite scanned_snoc, Hsc. cbn [fst snd]. destruct (Z.eqb_spec (file_type (ce_mode e)) MODE_REGULAR_FILE) as [Hf|Hf].
  - apply allocs_reserved, allocs_ret. split; [|split; [|done]].
    + rewrite (decide_True (P := is_file e)) by done. by rewrite decide_False by tauto.
    + split; [done|]. split; [done|by left].
  - destruct (Z.eqb_spec (file_type (ce_mode e)) MODE_DIRECTORY) as [Hd|Hd].
    + apply allocs_reserved, allocs_ret. split; [|split; [|done]].
      * rewrite (decide_False (P := is_file e)) by done. by rewrite decide_True.
      * split; [done|]. split; [done|by right].
    + apply allocs_ret. by right.
Qed.

Lemma scan_spec es :
  allocs R InitOutOfMemory (try_fold scan_entry es ([], []))
    (λ r, match r with
          | inl acc => acc = scanned es ∧ Forall member_ok es ∧ NoDup (entry_path <$> es)
          | inr e => e ≠ InitOutOfMemory ∧ e ≠ InitAlreadyMounted ∧ e ≠ InitMissingInit ∧ e ≠ InitParse ∧ e ≠ InitUnsupportedFormat ∧
                     ∀ image s, archive_fault es image s e
          end).
Proof.
  eapply allocs_mono; [eapply (allocs_fold _ (λ xs acc, acc = scanned xs ∧ Forall member_ok xs ∧ NoDup (entry_path <$> xs))
    (λ e, e ≠ InitOutOfMemory ∧ e ≠ InitAlreadyMounted ∧ e ≠ InitMissingInit ∧ e ≠ InitParse ∧ e ≠ InitUnsupportedFormat ∧
          ∀ image s, archive_fault es image s e))|done].
  - split_and!; [done|constructor|constructor].
  - intros xs e rest acc Hes (-> & Hok & Hnd). eapply allocs_mono; [by apply scan_entry_spec|].
    assert (e ∈ es) as Hin by (rewrite Hes, elem_of_app; right; left).
    intros [acc|err].
    + intros (-> & He & Hnew). split; [done|]. split; [by apply Forall_app; split; [|apply Forall_singleton]|].
      rewrite fmap_app. apply NoDup_app. split; [done|]. split; [|apply NoDup_singleton].
      intros p Hp Hq%list_elem_of_singleton. by subst.
    + destruct err; try done; intros H; (split_and!; [done..|]); intros image s; simpl; eauto.
      left. rewrite Hes, fmap_app, fmap_cons. intros (_ & Hd & _)%NoDup_app. by apply (Hd (entry_path e)); [|left].
Qed.
End scan.

(** ** What the mounted index serves *)

Definition serves (es : list CpioEntry) (s : FsState) : Prop :=
  (∀ p d, path_ok p → data_by_path s (render p) = Some d ↔ (p, d) ∈ files_of es) ∧
  (∀ p, path_ok p → is_Some (lookup_dir s (render p)) ↔ archive_dir es p) ∧
  (∀ p i, path_ok p → lookup_dir s (render p) = Some i →
     dir_path s i = Some (render p) ∧
     ∃ entries, dir_entry_count s i = Some (length entries) ∧ (∀ k, dir_entry_at s i k = entries !! k) ∧
       StronglySorted bytes_le (rde_name <$> entries) ∧ NoDup (rde_name <$> entries) ∧
       ∀ name kind, (∃ e, e ∈ entries ∧ rde_name e = name ∧ rde_kind e = kind) ↔
         (kind = KindFile ∧ p ++ [name] ∈ (files_of es).*1) ∨ (kind = KindDirectory ∧ archive_dir es (p ++ [name]))).

(** The first element with a key, in a list without repeated keys. *)
Lemma find_key {A} (key : A → list Z) (l : list A) k i :
  NoDup (key <$> l) → fst <$> list_find (λ x, key x = k) l = Some i ↔ (key <$> l) !! i = Some k.
Proof.
  intros Hnd. rewrite list_lookup_fmap, !fmap_Some. split.
  - intros ([j x] & (Hx & Hk & _)%list_find_Some & ->). by exists x.
  - intros (x & Hx & ->). exists (i, x). split; [|done]. apply list_find_Some. split; [done|]. split; [done|].
    intros j y Hy Hlt He. assert (i = j); [|lia]. eapply (NoDup_lookup _ _ _ (key x)); [exact Hnd|..]; rewrite list_lookup_fmap, ?Hx, ?Hy; simpl; by f_equal.
Qed.

Section served.
Context (es : list CpioEntry) (fs : MountedRamfs) (s : FsState).
Hypothesis Hes : Forall member_ok es.
Hypothesis Hfs : tree_index (files_of es) (dirs_of es) fs.
Hypothesis Hs : RAMFS s = Some fs.

Lemma archive_file_ok p : p ∈ (files_of es).*1 → path_ok p.
Proof. intros (x & Hx & _ & ->)%file_paths_elem. rewrite Forall_forall in Hes. by apply split_on_path_ok, Hes. Qed.

Lemma archive_dir_ok p : archive_dir es p → path_ok p.
Proof.
  apply dir_at_ok; apply Forall_forall; [apply archive_file_ok|].
  intros q (x & Hx & _ & ->)%dirs_of_elem. rewrite Forall_forall in Hes. by apply split_on_path_ok, Hes.
Qed.

Lemma served_lookup_dir p i : lookup_dir s (render p) = Some i ↔ (rd_path <$> fs_dirs fs) !! i = Some (render p).
Proof. unfold lookup_dir. rewrite Hs. apply find_key, (ti_dirs_nd _ _ _ Hfs). Qed.

Lemma served_lookup_file p i : lookup_file s (render p) = Some i ↔ (rf_path <$> fs_files fs) !! i = Some (render p).
Proof. unfold lookup_file. rewrite Hs. apply find_key, (ti_files_nd _ _ _ Hfs). Qed.

Lemma indexed_file p : path_ok p → render p ∈ rf_path <$> fs_files fs ↔ p ∈ (files_of es).*1.
Proof.
  intros Hp. rewrite list_elem_of_fmap. split.
  - intros (f & Hr & (q & d & Hq & ->)%(ti_files _ _ _ Hfs)). simpl in Hr.
    assert (q ∈ (files_of es).*1) as Hq' by (apply list_elem_of_fmap; by exists (q, d)).
    apply render_inj in Hr as ->; [done|done|by apply archive_file_ok].
  - intros ([q d] & -> & Hq)%list_elem_of_fmap. exists (mkRamFile (render q) d). split; [done|]. apply (ti_files _ _ _ Hfs). by exists q, d.
Qed.

Lemma indexed_dir p : path_ok p → render p ∈ rd_path <$> fs_dirs fs ↔ archive_dir es p.
Proof.
  intros Hp. rewrite (ti_dirs _ _ _ Hfs). split; [|intros; by exists p].
  intros (q & Hq & Hr). apply render_inj in Hr as ->; [done|done|by apply archive_dir_ok].
Qed.

Lemma served_data p d : path_ok p → data_by_path s (render p) = Some d ↔ (p, d) ∈ files_of es.
Proof.
  intros Hp. unfold data_by_path, file_data. rewrite Hs. split.
  - intros (i & Hi & Hd)%bind_Some. apply served_lookup_file in Hi. simpl in Hd. rewrite list_lookup_fmap in Hi.
    destruct (fs_files fs !! i) as [f|] eqn:Hf; [|done]. simpl in *. injection Hi as Hr. injection Hd as <-.
    apply list_elem_of_lookup_2, (ti_files _ _ _ Hfs) in Hf as (q & d & Hq & ->). simpl in *.
    apply render_inj in Hr as ->; [done| |done]. apply archive_file_ok, list_elem_of_fmap. by exists (q, d).
  - intros Hin. assert (mkRamFile (render p) d ∈ fs_files fs) as (i & Hi)%list_elem_of_lookup by (apply (ti_files _ _ _ Hfs); by exists p, d).
    apply bind_Some. exists i. split; [apply served_lookup_file; by rewrite list_lookup_fmap, Hi|]. simpl. by rewrite Hi.
Qed.

Lemma served_listing p i :
  path_ok p → lookup_dir s (render p) = Some i →
  dir_path s i = Some (render p) ∧
  ∃ entries, dir_entry_count s i = Some (length entries) ∧ (∀ k, dir_entry_at s i k = entries !! k) ∧
    StronglySorted bytes_le (rde_name <$> entries) ∧ NoDup (rde_name <$> entries) ∧
    ∀ name kind, (∃ e, e ∈ entries ∧ rde_name e = name ∧ rde_kind e = kind) ↔
      (kind = KindFile ∧ p ++ [name] ∈ (files_of es).*1) ∨ (kind = KindDirectory ∧ archive_dir es (p ++ [name])).
Proof.
  intros Hp Hi%served_lookup_dir. unfold dir_path, dir_entry_count, dir_entry_at. rewrite Hs. simpl.
  rewrite list_lookup_fmap in Hi. destruct (fs_dirs fs !! i) as [dir|] eqn:Hd; [|done]. simpl in *. injection Hi as Hr.
  split; [by f_equal|]. exists (rd_entries dir). split; [done|]. split; [done|].
  destruct (ti_entries _ _ _ Hfs dir p) as (Hsort & Hnd & Hel); [by eapply list_elem_of_lookup_2|done|done|].
  split; [done|]. split; [done|]. intros name kind. split.
  - intros (e & He & <- & <-). apply Hel in He as (Hc & [(j & Hj & -> & _)|(j & Hj & -> & _)]); [left|right]; (split; [done|]);
      apply list_elem_of_lookup_2 in Hj; [apply indexed_file in Hj|apply indexed_dir in Hj]; try done; by apply path_ok_snoc.
  - intros [[-> Hin]|[-> Hin]].
    + pose proof (archive_file_ok _ Hin) as Hok. apply indexed_file in Hin as (j & Hj)%list_elem_of_lookup; [|done].
      exists (mkRamDirEntry name KindFile (file_ino j)). split; [|done]. apply Hel. apply path_ok_snoc in Hok as [_ Hc].
      split; [done|]. left. by exists j.
    + pose proof (archive_dir_ok _ Hin) as Hok. apply indexed_dir in Hin as (j & Hj)%list_elem_of_lookup; [|done].
      exists (mkRamDirEntry name KindDirectory (dir_ino j)). split; [|done]. apply Hel. apply path_ok_snoc in Hok as [_ Hc].
      split; [done|]. right. by exists j.
Qed.

Lemma index_serves : serves es s.
Proof.
  split; [exact served_data|]. split; [|exact served_listing]. intros p Hp. rewrite <-indexed_dir by done.
  rewrite list_elem_of_lookup. split; intros [i Hi]; exists i; by apply served_lookup_dir.
Qed.
End served.

(** ** Mounting *)

Lemma NoDup_fmap_filter {A B} (f : A → B) (P : A → Prop) `{∀ x, Decision (P x)} (l : list A) :
  NoDup (f <$> l) → NoDup (f <$> filter P l).
Proof.
  induction l as [|x l IH]; [done|]. rewrite fmap_cons, filter_cons, NoDup_cons. intros [Hx Hl].
  destruct (decide (P x)); [|auto]. rewrite fmap_cons, NoDup_cons. split; [|auto].
  intros (y & He & [_ Hy]%list_elem_of_filter)%list_elem_of_fmap. apply Hx. rewrite He. by apply list_elem_of_fmap_2.
Qed.

Lemma init_file_found es :
  Forall member_ok es →
  existsb (λ file, bool_decide (rf_path file = lit "/init")) (scanned es).1 = true ↔ [lit "init"] ∈ (files_of es).*1.
Proof.
  intros Hes. assert (lit "/init" = render [lit "init"]) as Hinit by (by vm_compute).
  assert (path_ok [lit "init"]) as Hok.
  { apply Forall_singleton. split; [done|]. intros H. apply list_elem_of_lookup in H as [i Hi]. by do 4 (destruct i as [|i]; [done|]). }
  rewrite existsb_exists. split.
  - intros (f & ([p d] & -> & Hf)%list_elem_of_In%list_elem_of_fmap & Hp%bool_decide_eq_true). simpl in Hp. rewrite Hinit in Hp.
    assert (p ∈ (files_of es).*1) as Hin by (apply list_elem_of_fmap; by exists (p, d)).
    apply render_inj in Hp as <-; [done|by apply (archive_file_ok es)|done].
  - intros ([p d] & Hp & Hf)%list_elem_of_fmap. simpl in Hp. subst p. exists (mkRamFile (render [lit "init"]) d).
    split; [|by apply bool_decide_eq_true]. apply list_elem_of_In, list_elem_of_fmap. by exists ([lit "init"], d).
Qed.

Lemma index_archive_spec iter_files image s :
  let es := iter_files image in
  allocs (RAMFS s) InitOutOfMemory (index_archive iter_files image)
    (λ r, match r with
          | inl fs => Forall member_ok es ∧ tree_index (files_of es) (dirs_of es) fs ∧
                      ∀ e, e ≠ InitOutOfMemory → e ≠ InitAlreadyMounted → ¬ archive_fault es image s e
          | inr e => e ≠ InitOutOfMemory ∧ archive_fault es image s e
          end).
Proof.
  intros es. unfold index_archive. fold es. apply allocs_test. unfold validate_newc_image.
  destruct (bool_decide (take _ image = NEWC_MAGIC)) eqn:Hm; [apply bool_decide_eq_true in Hm|by apply bool_decide_eq_false in Hm].
  destruct (contains_subslice image TRAILER_NAME) eqn:Ht; [|by split; [|left]].
  eapply (allocs_try _ _ _ _ (scan_spec es)); [|by intros e (H & _ & _ & _ & _ & Hf); split]. intros found (-> & Hok & Hnd).
  destruct (decide (length es = 0)) as [Hn|Hn]; [apply allocs_ret; split; [done|right; by apply length_zero_iff_nil]|].
  pose proof (init_file_found es Hok) as Hi. destruct (existsb _ _); [|apply allocs_ret; split; [done|]; by intros H%Hi].
  destruct Hi as [Hi _]. specialize (Hi eq_refl). change InitOutOfMemory with (mount_index_error MountOutOfMemory).
  eapply allocs_map_err.
  - apply ramfs_new_spec.
    + apply Forall_forall. by apply archive_file_ok.
    + intros (x & Hx & _ & Hp)%file_paths_elem. by apply (split_on_ne (ce_name x)).
    + apply Forall_forall. intros q (x & Hx & _ & ->)%dirs_of_elem. rewrite Forall_forall in Hok. by apply split_on_path_ok, Hok.
    + unfold files_of. rewrite <-list_fmap_compose. by apply NoDup_fmap_filter.
    + by apply NoDup_fmap_filter.
  - intros fs Hfs. split; [done|]. split; [done|]. rewrite Forall_forall in Hok.
    intros e Hne1 Hne2 Hf. destruct e; simpl in Hf; try done.
    + destruct Hf as [|Hf]; [congruence|]. by rewrite Hf in Hn.
    + destruct Hf as (x & Hx & Hb). by apply Hb, Hok.
    + destruct Hf as [|(p & Hp & Hd)]; [done|]. by apply (ti_disj _ _ _ Hfs p).
    + destruct Hf as (x & Hx & Hb). destruct (Hok x Hx) as (H1 & _ & H3). destruct Hb as [|[]]; [lia|tauto].
  - intros e (-> & p & Hp & Hd). split; [done|]. right. by exists p.
Qed.

(** What a successful mount leaves. *)
Lemma mounted_serves iter_files image s s' :
  mount_from_cpio_newc iter_files image s = Done (inl tt, s') →
  Forall member_ok (iter_files image) ∧ serves (iter_files image) s'.
Proof.
  unfold mount_from_cpio_newc, try_bind, mbind, M_bind. pose proof (index_archive_spec iter_files image s s eq_refl) as H.
  unfold wp in H. destruct (index_archive iter_files image s) as [[[fs|e] s1]|]; try done. destruct H as (_ & [[(Hok & Hfs & _) _]|[? _]]); [|done].
  unfold map_err, mbind, M_bind, mount. destruct (RAMFS s1); [done|]. intros [= <-]. split; [done|]. by apply (index_serves _ fs).
Qed.

(** C35: mounting never panics and the mounted file system is the archive.
    When it succeeds, every member is a regular file or directory with a valid
    name, no path occurs twice, no file lies under another file, and there is
    an [/init]; from then on reading a path gives exactly the contents of the
    member of that path, a path is a directory exactly when it is the root, an
    explicit directory or leads to a member, and the listing of a directory
    has each of its children once, in byte order, with its kind.  When it
    fails, nothing is mounted and the error names a defect that is there. *)
Theorem mount_serves_archive (iter_files : list Z → list CpioEntry) (image : list Z) (s : FsState) :
  wp (mount_from_cpio_newc iter_files image)
     (λ r s', let es := iter_files image in
        match r with
        | inl _ => serves es s' ∧ ∀ e, e ≠ InitOutOfMemory → ¬ archive_fault es image s e
        | inr e => RAMFS s' = RAMFS s ∧ archive_fault es image s e
        end) s.
Proof.
  cbv zeta. apply wp_try. eapply wp_mono; [by apply (index_archive_spec iter_files image s)|].
  intros [fs|e] s1 (Hr1 & [[HQ Hh]|[He Hne]]); try done.
  - destruct HQ as (Hok & Hfs & Hno). unfold map_err. apply wp_bind. unfold wp, mount. rewrite Hr1.
    destruct (RAMFS s) as [fs0|] eqn:Hs.
    + simpl. rewrite Hr1. split; [done|]. by rewrite Hs.
    + simpl. split; [by eapply index_serves|]. intros e Hne Hf. destruct (decide (e = InitAlreadyMounted)) as [->|]; [by apply Hf|].
      by apply (Hno e).
  - split; [done|]. apply HQ.
  - injection He as ->. done.
Qed.
