(* ===== verification/PathRes.v ===== *)
(** * Pathname resolution

    [kernel/src/fs/path.rs]: the traversal of an absolute or relative
    pathname over the mounted index, and its specification as a walk in the
    directory tree.  The capacity the code computes before its first
    reservation only sizes the buffer; the reservation itself may fail. *)

From S2P Require Import Prelude Types Ramfs RamfsSpec RamfsIndex Mount.

(** ** The code *)

Inductive ResolvedNode := NodeFile (file_index : nat) | NodeDirectory (dir_index : nat).
#[global] Instance ResolvedNode_eq_dec : EqDecision ResolvedNode.
Proof. solve_decision. Defined.

Record ResolvedPath := mkResolvedPath { rp_absolute : list Z; rp_node : ResolvedNode; rp_requires_directory : bool }.

Inductive PathError :=
| PathEmpty | PathNotFound | PathNotDirectory | PathNameTooLong | PathInvalidBase | PathNoMemory.
#[global] Instance PathError_eq_dec : EqDecision PathError.
Proof. solve_decision. Defined.

(** [.ok_or(e)?] on a lookup in the mounted index. *)
Definition ok_or_of {A E} (f : FsState → option A) (e : E) : FS (A + E) :=
  o ← gets f; mret (match o with Some a => inl a | None => inr e end).

Definition is_directory_node (node : ResolvedNode) : bool := match node with NodeDirectory _ => true | NodeFile _ => false end.

Definition parent_dir (current_dir root_dir : nat) : FS (nat + PathError) :=
  if decide (current_dir = root_dir) then mret (inl root_dir)
  else
    current_path ←? ok_or_of (λ s, dir_path s current_dir) PathInvalidBase;
    separator ←? mret (match rposition SLASH current_path with Some i => inl i | None => inr PathInvalidBase end);
    let parent_path := if decide (separator = 0) then [SLASH] else take separator current_path in
    ok_or_of (λ s, lookup_dir s parent_path) PathInvalidBase.

Definition replace_with_dir_path (dir_index : nat) : FS (list Z + PathError) :=
  directory ←? ok_or_of (λ s, dir_path s dir_index) PathInvalidBase;
  _ ←? try_reserve PathNoMemory;
  mret (inl directory).

Definition append_component (path component : list Z) : FS (list Z + PathError) :=
  let separator := if decide (path = [SLASH]) then 0 else 1 in
  let next_len := length path + separator + length component in
  if decide (GENRT_PATH_MAX < next_len) then mret (inr PathNameTooLong)
  else
    _ ←? try_reserve PathNoMemory;
    mret (inl ((if decide (separator = 0) then path else path ++ [SLASH]) ++ component)).

(** One turn of the loop over the components, on the variables [absolute],
    [current_dir] and [node]. *)
Definition resolve_component (root_dir : nat) (component : list Z) (acc : list Z * nat * ResolvedNode)
    : FS ((list Z * nat * ResolvedNode) + PathError) :=
  let '(absolute, current_dir, node) := acc in
  if decide (component = []) then mret (inl acc)
  else if negb (is_directory_node node) then mret (inr PathNotDirectory)
  else if decide (component = lit ".") then mret (inl acc)
  else if decide (component = lit "..") then
    current_dir ←? parent_dir current_dir root_dir;
    absolute ←? replace_with_dir_path current_dir;
    mret (inl (absolute, current_dir, NodeDirectory current_dir))
  else
    absolute ←? append_component absolute component;
    as_dir ← gets (λ s, lookup_dir s absolute);
    match as_dir with
    | Some dir_index => mret (inl (absolute, dir_index, NodeDirectory dir_index))
    | None =>
        as_file ← gets (λ s, lookup_file s absolute);
        match as_file with
        | Some file_index => mret (inl (absolute, current_dir, NodeFile file_index))
        | None => mret (inr PathNotFound)
        end
    end.

Definition starts_with_slash (input : list Z) : bool := bool_decide (head input = Some SLASH).

(** Whether the end of the input asks for a directory. *)
Definition requires_directory (input : list Z) : bool :=
  bool_decide (last input = Some SLASH) ||
  match list_find (λ c, c ≠ []) (reverse (split_on SLASH input)) with
  | Some (_, c) => bool_decide (c = lit "." ∨ c = lit "..")
  | None => false
  end.

Definition resolve_existing_path (cwd_dir : nat) (input : list Z) : FS (ResolvedPath + PathError) :=
  if decide (input = []) then mret (inr PathEmpty)
  else
    root_dir ←? ok_or_of root_dir_index PathInvalidBase;
    current_dir ←? (if starts_with_slash input then mret (inl root_dir)
                    else _ ←? ok_or_of (λ s, dir_path s cwd_dir) PathInvalidBase; mret (inl cwd_dir));
    cwd ←? ok_or_of (λ s, dir_path s current_dir) PathInvalidBase;
    if decide (GENRT_PATH_MAX < length cwd) then mret (inr PathNameTooLong)
    else
      _ ←? try_reserve PathNoMemory;
      let requires := requires_directory input in
      acc ←? try_fold (resolve_component root_dir) (split_on SLASH input) (cwd, current_dir, NodeDirectory current_dir);
      let '(absolute, _, node) := acc in
      if requires && negb (is_directory_node node) then mret (inr PathNotDirectory)
      else mret (inl (mkResolvedPath absolute node requires)).

(** ** The walk in the tree *)

Section walk.
Context (s : FsState).

Definition node_at (p : list (list Z)) : option ResolvedNode :=
  match lookup_dir s (render p) with
  | Some d => Some (NodeDirectory d)
  | None => NodeFile <$> lookup_file s (render p)
  end.

Definition at_directory (p : list (list Z)) : bool := bool_decide (is_Some (lookup_dir s (render p))).

Fixpoint walk (p cs : list (list Z)) : list (list Z) + PathError :=
  match cs with
  | [] => inl p
  | c :: cs' =>
      if decide (c = []) then walk p cs'
      else if negb (at_directory p) then inr PathNotDirectory
      else if decide (c = lit ".") then walk p cs'
      else if decide (c = lit "..") then walk (removelast p) cs'
      else if decide (GENRT_PATH_MAX < length (render (p ++ [c]))) then inr PathNameTooLong
      else if decide (node_at (p ++ [c]) = None) then inr PathNotFound
      else walk (p ++ [c]) cs'
  end.

(** The final component is empty (a trailing slash), [.] or [..]. *)
Definition asks_directory (input : list Z) : bool :=
  match last (split_on SLASH input) with
  | Some c => bool_decide (c = [] ∨ c = lit "." ∨ c = lit "..")
  | None => false
  end.

(** What resolving [input] from the directory [cwd] comes to. *)
Definition resolved (cwd : list (list Z)) (input : list Z) : ResolvedPath + PathError :=
  if decide (input = []) then inr PathEmpty
  else
    let start := if starts_with_slash input then [] else cwd in
    if decide (GENRT_PATH_MAX < length (render start)) then inr PathNameTooLong
    else match walk start (split_on SLASH input) with
         | inr e => inr e
         | inl p =>
             match node_at p with
             | None => inr PathNotFound
             | Some node =>
                 if asks_directory input && negb (is_directory_node node) then inr PathNotDirectory
                 else inl (mkResolvedPath (render p) node (asks_directory input))
             end
         end.
End walk.

(** ** The code is the walk *)

Lemma split_trailing l : l ≠ [] → last l = Some SLASH ↔ last (split_on SLASH l) = Some [].
Proof.
  induction l as [|x l IH]; [done|]. intros _. destruct (decide (l = [])) as [->|Hl].
  { simpl. destruct (Z.eqb_spec x SLASH) as [->|Hx]; [done|]. split; [|done]. intros [= ->]. done. }
  assert (last (x :: l) = last l) as -> by (destruct l; done). rewrite (IH Hl). simpl.
  destruct (split_on SLASH l) as [|w ws] eqn:Hs; [by destruct (split_on_ne l)|]. destruct (x =? SLASH)%Z; [done|].
  destruct ws as [|v ws]; [|done]. simpl. split; [|done]. intros [= ->]. destruct l as [|y l]; [done|]. simpl in Hs.
  destruct (split_on SLASH l) eqn:E; [by destruct (split_on_ne l)|]. by destruct (y =? SLASH)%Z.
Qed.

(** Scanning the components backwards for a non-empty one, after looking at the
    last byte, looks at the final component. *)
Lemma requires_asks input : input ≠ [] → requires_directory input = asks_directory input.
Proof.
  intros Hi. unfold requires_directory, asks_directory. pose proof (split_trailing input Hi) as Ht.
  destruct (split_on SLASH input) as [|c l _] eqn:Hs using rev_ind; [by destruct (split_on_ne input)|].
  rewrite last_snoc in Ht |- *. rewrite reverse_snoc. cbn [list_find]. destruct (decide (c = [])) as [->|Hc].
  - rewrite bool_decide_eq_true_2 by by apply Ht. symmetry. apply bool_decide_eq_true_2. by left.
  - rewrite bool_decide_eq_false_2 by (intros H; apply Ht in H; congruence). rewrite decide_True by done. simpl.
    apply bool_decide_ext. tauto.
Qed.

Definition mounted_archive (es : list CpioEntry) (s : FsState) : Prop := Forall member_ok es ∧ serves es s.

Section gets.
Context {R : option MountedRamfs} {E : Type} {oom : E}.

Lemma allocs_gets {A B} (f : FsState → A) a (k : A → M FsState (B + E)) (Q : B + E → Prop) :
  (∀ s1, RAMFS s1 = R → f s1 = a) → allocs R oom (k a) Q → allocs R oom (x ← gets f; k x) Q.
Proof. intros Hf Hk s Hs. apply wp_bind, wp_gets. rewrite (Hf s Hs). by apply Hk. Qed.

Lemma allocs_ok_or {A B} (f : FsState → option A) (e : E) a (k : A → M FsState (B + E)) (Q : B + E → Prop) :
  (∀ s1, RAMFS s1 = R → f s1 = Some a) → allocs R oom (k a) Q → allocs R oom (x ←? ok_or_of f e; k x) Q.
Proof.
  intros Hf Hk. eapply (allocs_try _ _ (eq (inl a))); [|by intros ? [= <-]|done].
  by apply (allocs_gets _ (Some a)); [|apply allocs_ret].
Qed.
End gets.

Section resolve.
Context (es : list CpioEntry) (s : FsState).
Hypothesis Hmt : mounted_archive es s.
Abbreviation R := (RAMFS s).

Lemma lookup_dir_same s1 x : RAMFS s1 = R → lookup_dir s1 x = lookup_dir s x.
Proof. unfold lookup_dir. by intros ->. Qed.
Lemma lookup_file_same s1 x : RAMFS s1 = R → lookup_file s1 x = lookup_file s x.
Proof. unfold lookup_file. by intros ->. Qed.
Lemma dir_path_same s1 x : RAMFS s1 = R → dir_path s1 x = dir_path s x.
Proof. unfold dir_path. by intros ->. Qed.

Lemma dir_path_of p i : path_ok p → lookup_dir s (render p) = Some i → dir_path s i = Some (render p).
Proof. destruct Hmt as [_ (_ & _ & H)]. intros Hp Hi. by apply H. Qed.

Lemma lookup_dir_iff p : path_ok p → is_Some (lookup_dir s (render p)) ↔ archive_dir es p.
Proof. apply Hmt. Qed.

Lemma lookup_file_iff p : path_ok p → is_Some (lookup_file s (render p)) ↔ p ∈ (files_of es).*1.
Proof.
  intros Hp. destruct Hmt as [_ (Hdata & _)]. rewrite list_elem_of_fmap. split.
  - intros [i Hi]. assert (is_Some (file_data s i)) as [d Hd].
    { unfold lookup_file, file_data in *. destruct (RAMFS s) as [fs|]; [|done]. simpl in *.
      unfold fs_lookup_file in Hi. apply fmap_Some in Hi as ([j f] & (Hf & _)%list_find_Some & ->). simpl. by rewrite Hf. }
    exists (p, d). split; [done|]. apply Hdata; [done|]. unfold data_by_path. by rewrite Hi.
  - intros ([q d] & -> & Hin). simpl in *. apply Hdata in Hin; [|done]. unfold data_by_path in Hin. destruct (lookup_file s (render q)); [by eexists|done].
Qed.

Lemma root_found : ∃ root, lookup_dir s [SLASH] = Some root.
Proof. apply (lookup_dir_iff []); [apply Forall_nil_2|by left]. Qed.

Lemma lookup_parent p c i :
  path_ok (p ++ [c]) → lookup_dir s (render (p ++ [c])) = Some i → ∃ j, lookup_dir s (render p) = Some j.
Proof.
  intros Hp Hi. apply lookup_dir_iff; [by apply path_ok_snoc in Hp as [? _]|]. eapply dir_at_parent.
  apply lookup_dir_iff; eauto.
Qed.

Lemma parent_dir_spec p cur root :
  path_ok p → lookup_dir s [SLASH] = Some root → lookup_dir s (render p) = Some cur →
  allocs R PathNoMemory (parent_dir cur root) (λ r, ∃ i, r = inl i ∧ lookup_dir s (render (removelast p)) = Some i).
Proof.
  intros Hp Hroot Hcur. unfold parent_dir. destruct p as [|c p _] using rev_ind.
  - change (render []) with [SLASH] in Hcur. rewrite Hroot in Hcur. injection Hcur as <-.
    rewrite decide_True by done. apply allocs_ret. by exists root.
  - rewrite decide_False.
    + eapply allocs_ok_or; [intros s1 H1; rewrite dir_path_same by done; by apply dir_path_of|].
      apply allocs_test. rewrite render_snoc, rposition_last by (by apply path_ok_snoc in Hp as [_ []]).
      destruct (lookup_parent p c cur Hp Hcur) as [j Hj]. rewrite removelast_last.
      apply (allocs_gets _ (Some j)); [|by apply allocs_ret; exists j].
      intros s1 H1. rewrite lookup_dir_same by done. rewrite <-Hj. f_equal. destruct p as [|c0 p]; [done|].
      rewrite decide_False by done. by rewrite take_app_length, render_ne.
    + intros ->. pose proof (dir_path_of _ _ Hp Hcur) as H1. pose proof (dir_path_of [] _ (Forall_nil_2 _) Hroot) as H2.
      rewrite H1 in H2. injection H2 as H2. apply (render_inj _ []) in H2; [by destruct p|done|apply Forall_nil_2].
Qed.

Lemma append_component_spec p c :
  path_ok p → comp_ok c →
  allocs R PathNoMemory (append_component (render p) c)
    (eq (if decide (GENRT_PATH_MAX < length (render (p ++ [c]))) then inr PathNameTooLong else inl (render (p ++ [c])))).
Proof.
  intros Hp Hc. unfold append_component. rewrite render_snoc.
  assert (render p = [SLASH] ↔ p = []) as Hroot.
  { split; [|by intros ->]. intros H. apply (render_inj p []); [done|apply Forall_nil_2|done]. }
  destruct (decide (render p = [SLASH])) as [Heq|Hne]; cbn [decide].
  - apply Hroot in Heq as ->. simpl. destruct (decide (GENRT_PATH_MAX < _)); [by apply allocs_ret|by apply allocs_reserved, allocs_ret].
  - rewrite render_ne by tauto. rewrite length_app. simpl. replace (length (rel p) + S (length c)) with (length (rel p) + 1 + length c) by lia.
    destruct (decide (GENRT_PATH_MAX < _)); [by apply allocs_ret|]. apply allocs_reserved, allocs_ret. by rewrite <-app_assoc.
Qed.
Lemma at_directory_node p node : node_at s p = Some node → at_directory s p = is_directory_node node.
Proof.
  unfold node_at, at_directory. destruct (lookup_dir s (render p)) as [d|].
  - intros [= <-]. by apply bool_decide_eq_true_2.
  - intros (i & _ & ->)%fmap_Some. apply bool_decide_eq_false_2. by intros [].
Qed.

(** The loop follows the walk; an error of one is the error of the other. *)
Lemma resolve_walk root cs p cur node :
  lookup_dir s [SLASH] = Some root → Forall (λ c, SLASH ∉ c) cs → path_ok p → node_at s p = Some node →
  (is_directory_node node = true → lookup_dir s (render p) = Some cur) →
  allocs R PathNoMemory (try_fold (resolve_component root) cs (render p, cur, node))
    (λ r, match walk s p cs with
          | inl q => ∃ cur' node', r = inl (render q, cur', node') ∧ node_at s q = Some node'
          | inr e => r = inr e
          end).
Proof.
  intros Hroot. induction cs as [|c cs IH] in p, cur, node |- *; intros Hcs Hp Hnode Hcur.
  { apply allocs_ret. by exists cur, node. }
  apply Forall_cons in Hcs as [Hc Hcs]. cbn [try_fold walk]. rewrite (at_directory_node p node Hnode).
  unfold resolve_component at 1. destruct (decide (c = [])) as [|Hne]; [by apply allocs_test, IH|].
  destruct (is_directory_node node) eqn:Hdir; cbn [negb]; [|by apply allocs_test].
  destruct (decide (c = lit ".")) as [|Hd1]; [apply allocs_test, IH; auto|].
  destruct (decide (c = lit "..")) as [|Hd2].
  - assert (path_ok (removelast p)) as Hp'.
    { destruct p as [|x p _] using rev_ind; [done|]. rewrite removelast_last. by apply path_ok_snoc in Hp as [? _]. }
    eapply (allocs_try _ _ (λ r, ∃ i, r = inl (render (removelast p), i, NodeDirectory i) ∧ lookup_dir s (render (removelast p)) = Some i));
      [|intros acc (i & [= ->] & Hi)|by intros ? (? & ? & _)].
    + eapply (allocs_try _ _ _ _ (parent_dir_spec p cur root Hp Hroot (Hcur eq_refl))); [|by intros ? (? & ? & _)].
      intros i (? & [= <-] & Hi). unfold replace_with_dir_path.
      eapply (allocs_try _ _ (eq (inl (render (removelast p))))); [|by intros ? [= <-]; apply allocs_ret; exists i|done].
      eapply allocs_ok_or; [intros s1 H1; rewrite dir_path_same by done; by apply dir_path_of|]. by apply allocs_reserved, allocs_ret.
    + apply IH; [done|done| |done]. unfold node_at. by rewrite Hi.
  - assert (comp_ok c) as Hok by done. assert (path_ok (p ++ [c])) as Hp' by (by apply path_ok_snoc).
    set (found := match node_at s (p ++ [c]) with
      | Some (NodeDirectory d) => inl (render (p ++ [c]), d, NodeDirectory d)
      | Some (NodeFile f) => inl (render (p ++ [c]), cur, NodeFile f) | None => inr PathNotFound end : (list Z * nat * ResolvedNode) + PathError).
    eapply (allocs_try _ _ (eq (if decide (GENRT_PATH_MAX < length (render (p ++ [c]))) then inr PathNameTooLong else found))).
    + eapply (allocs_try _ _ _ _ (append_component_spec p c Hp Hok)); [|by intros e; destruct (decide (GENRT_PATH_MAX < _)); [intros [= <-]|]].
      intros absolute. destruct (decide (GENRT_PATH_MAX < _)); [done|]. intros [= <-]. unfold found, node_at.
      apply (allocs_gets _ (lookup_dir s (render (p ++ [c])))); [by intros; apply lookup_dir_same|].
      destruct (lookup_dir s (render (p ++ [c]))) as [d|]; [by apply allocs_ret|].
      apply (allocs_gets _ (lookup_file s (render (p ++ [c])))); [by intros; apply lookup_file_same|].
      destruct (lookup_file s (render (p ++ [c]))) as [f|]; by apply allocs_ret.
    + intros acc. destruct (decide (GENRT_PATH_MAX < _)); [done|]. unfold found. destruct (node_at s (p ++ [c])) as [nd|] eqn:Hn; [|done].
      rewrite decide_False by done. destruct nd as [f|d]; intros [= <-]; apply IH; try done. intros _. revert Hn. unfold node_at.
      destruct (lookup_dir s (render (p ++ [c]))); [by intros [= <-]|by intros (? & _ & ?)%fmap_Some].
    + intros e. destruct (decide (GENRT_PATH_MAX < _)); [by intros [= <-]|]. unfold found.
      destruct (node_at s (p ++ [c])) as [[]|] eqn:Hn; [done..|]. intros [= <-]. by rewrite decide_True.
Qed.
(** Where a node is, all directories above it are. *)
Definition in_tree (p : list (list Z)) : Prop := p ∈ (files_of es).*1 ∨ archive_dir es p.

Lemma node_in_tree p : path_ok p → node_at s p ≠ None ↔ in_tree p.
Proof.
  intros Hp. unfold node_at, in_tree. rewrite <-lookup_file_iff, <-lookup_dir_iff by done.
  destruct (lookup_dir s (render p)), (lookup_file s (render p)); simpl; split; intros H; eauto; try done.
  by destruct H as [[? ?]|[? ?]].
Qed.

Lemma in_tree_above p c q : in_tree (p ++ c :: q) → archive_dir es p.
Proof.
  assert (p `prefix_of` p ++ c :: q ∧ p ≠ p ++ c :: q) as [Hpre Hne].
  { split; [by apply prefix_app_r|]. intros H. apply (f_equal length) in H. rewrite length_app in H. simpl in H. lia. }
  intros [Hf|[H|[(r & Hr & Hp)|(r & Hr & Hp & Hne')]]]; [by right; right; eexists|by destruct p|..].
  - right. left. exists r. split; [done|]. by etrans.
  - right. right. exists r. split; [done|]. split; [by etrans|]. intros ->. apply Hne. by apply (anti_symm prefix).
Qed.

Lemma in_tree_names p : in_tree p → Forall name_ok p.
Proof.
  destruct Hmt as [Hok _]. rewrite Forall_forall in Hok.
  assert (∀ q, q ∈ (files_of es).*1 ∨ q ∈ dirs_of es → Forall name_ok q) as H.
  { intros q [(x & Hx & _ & ->)%file_paths_elem|(x & Hx & _ & ->)%dirs_of_elem]; by apply Hok. }
  intros [Hp|[->|[(q & Hq & [k ->])|(q & Hq & [k ->] & _)]]]; [auto|apply Forall_nil_2|..].
  all: assert (Forall name_ok (p ++ k)) as [? _]%Forall_app by (apply H; auto); done.
Qed.

Lemma walk_canonical p q r :
  p = q ++ r → path_ok p → in_tree p → length (render p) ≤ GENRT_PATH_MAX → walk s q r = inl p.
Proof.
  intros Hp Hok Ht Hlen. pose proof (in_tree_names p Ht) as Hn. induction r as [|c r IH] in q, Hp |- *.
  { by rewrite app_nil_r in Hp; subst. }
  assert (path_ok (q ++ [c])) as Hqc by (eapply path_ok_prefix; [exact Hok|]; exists r; by rewrite Hp, <-app_assoc).
  assert (Forall name_ok (c :: r)) as Hc by (rewrite Hp in Hn; by apply Forall_app in Hn as [_ ?]).
  apply Forall_cons in Hc as [Hc _]. unfold name_ok in Hc. cbn [walk].
  rewrite decide_False by tauto. replace (at_directory s q) with true; cycle 1.
  { symmetry. apply bool_decide_eq_true_2, lookup_dir_iff; [by apply path_ok_snoc in Hqc as [? _]|].
    apply (in_tree_above q c r). by rewrite <-Hp. }
  cbn [negb]. rewrite !decide_False by tauto. rewrite decide_False; cycle 1.
  { enough (length (render (q ++ [c])) ≤ length (render p)) by lia. rewrite render_snoc, Hp, render_ne by (by destruct q).
    rewrite rel_app, rel_cons, !length_app. simpl. rewrite length_app. lia. }
  rewrite decide_False; [|].
  - apply IH. by rewrite Hp, <-app_assoc.
  - apply node_in_tree; [done|]. destruct r as [|c' r]; [by rewrite <-Hp|]. right. apply (in_tree_above _ c' r).
    rewrite <-app_assoc. simpl. by rewrite <-Hp.
Qed.

(** A walk within the bound stays in it. *)
Lemma walk_in_tree p cs q :
  Forall (λ c, SLASH ∉ c) cs → path_ok p → in_tree p → length (render p) ≤ GENRT_PATH_MAX →
  walk s p cs = inl q → path_ok q ∧ in_tree q ∧ length (render q) ≤ GENRT_PATH_MAX.
Proof.
  induction cs as [|c cs IH] in p |- *; intros Hcs Hp Ht Hlen; cbn [walk]; [by intros [= <-]|].
  apply Forall_cons in Hcs as [Hc Hcs]. destruct (decide (c = [])); [by apply IH|]. destruct (negb _); [done|].
  destruct (decide (c = lit ".")); [by apply IH|]. destruct (decide (c = lit "..")).
  - destruct p as [|x p _] using rev_ind; [by apply IH|]. rewrite removelast_last. pose proof Hp as [Hp' _]%path_ok_snoc.
    apply IH; [done|done|right; by apply (in_tree_above p x [])|]. rewrite render_snoc, length_app in Hlen. simpl in Hlen.
    destruct p as [|y p]; [simpl; lia|]. rewrite render_ne by done. lia.
  - destruct (decide (GENRT_PATH_MAX < _)); [done|]. destruct (decide (node_at s (p ++ [c]) = None)); [done|].
    assert (path_ok (p ++ [c])) by (by apply path_ok_snoc). apply IH; [done|done|by apply node_in_tree|lia].
Qed.

Lemma split_render p : path_ok p → split_on SLASH (render p) = [] :: (if decide (p = []) then [[]] else p).
Proof.
  intros Hp. unfold render. destruct (decide (p = [])); [done|]. by apply split_rel.
Qed.

(** The canonical path of a result leads back to the result. *)
Lemma resolved_again cwd input rp cwd' :
  path_ok cwd → in_tree cwd → resolved s cwd input = inl rp →
  ∃ b, resolved s cwd' (rp_absolute rp) = inl (mkResolvedPath (rp_absolute rp) (rp_node rp) b).
Proof.
  intros Hcwd Hct. unfold resolved at 1. destruct (decide (input = [])); [done|]. cbv zeta.
  set (start := if starts_with_slash input then [] else cwd). destruct (decide (GENRT_PATH_MAX < _)); [done|].
  assert (path_ok start ∧ in_tree start) as [Hs Ht].
  { unfold start. destruct (starts_with_slash input); [|done]. split; [apply Forall_nil_2|right; by left]. }
  destruct (walk s start _) as [p|] eqn:Hw; [|done]. destruct (node_at s p) as [node|] eqn:Hnode; [|done].
  destruct (_ && _); [done|]. intros [= <-]. cbn [rp_absolute rp_node].
  apply walk_in_tree in Hw as (Hp & Hpt & Hlen); [|apply split_on_no_slash|done..|lia].
  exists (asks_directory (render p)). unfold resolved.
  assert (head (render p) = Some SLASH) as Hhead by (by destruct p).
  rewrite decide_False by (by intros H; rewrite H in Hhead). unfold starts_with_slash. rewrite bool_decide_eq_true_2 by done. cbv zeta.
  rewrite decide_False by (simpl; unfold GENRT_PATH_MAX; lia). rewrite split_render by done. cbn [walk]. rewrite decide_True by done.
  destruct (decide (p = [])) as [->|Hne].
  - cbn [walk]. rewrite decide_True by done. rewrite Hnode. replace (is_directory_node node) with true; [by rewrite andb_false_r|].
    rewrite <-(at_directory_node [] node Hnode). symmetry. apply bool_decide_eq_true_2. destruct root_found as [r Hr]. by exists r.
  - rewrite (walk_canonical p [] p) by done. rewrite Hnode. replace (asks_directory (render p)) with false; [done|].
    symmetry. unfold asks_directory. rewrite split_render, decide_False by done.
    destruct p as [|c p _] using rev_ind; [done|]. apply path_ok_snoc in Hp as [_ Hc].
    rewrite app_comm_cons, last_snoc. apply bool_decide_eq_false_2. apply in_tree_names, Forall_app in Hpt as [_ [Hn _]%Forall_cons].
    unfold name_ok in Hn. tauto.
Qed.
Lemma resolve_path_spec cwd cwd_dir input :
  path_ok cwd → lookup_dir s (render cwd) = Some cwd_dir →
  allocs R PathNoMemory (resolve_existing_path cwd_dir input) (eq (resolved s cwd input)).
Proof.
  intros Hcwd Hdir. unfold resolve_existing_path, resolved. destruct (decide (input = [])); [by apply allocs_ret|].
  destruct root_found as [root Hroot]. cbv zeta.
  eapply allocs_ok_or; [intros s1 H1; unfold root_dir_index; by rewrite lookup_dir_same by done|].
  set (start := if starts_with_slash input then [] else cwd).
  assert (∃ cur, (∀ B (k : nat → M FsState (B + PathError)) Q, allocs R PathNoMemory (k cur) Q →
      allocs R PathNoMemory (x ←? (if starts_with_slash input then mret (inl root)
        else _ ←? ok_or_of (λ s, dir_path s cwd_dir) PathInvalidBase; mret (inl cwd_dir)); k x) Q) ∧
    lookup_dir s (render start) = Some cur ∧ path_ok start) as (cur & Hstep & Hcur & Hok).
  { unfold start. destruct (starts_with_slash input).
    - exists root. split; [intros; by apply allocs_test|]. split; [done|apply Forall_nil_2].
    - exists cwd_dir. split; [|done]. intros B k Q Hk. eapply (allocs_try _ _ (eq (inl cwd_dir))); [|by intros ? [= <-]|done].
      eapply allocs_ok_or; [intros s1 H1; rewrite dir_path_same by done; by apply (dir_path_of cwd)|]. by apply allocs_ret. }
  apply Hstep. eapply allocs_ok_or; [intros s1 H1; rewrite dir_path_same by done; by apply (dir_path_of start)|].
  destruct (decide (GENRT_PATH_MAX < _)); [by apply allocs_ret|]. apply allocs_reserved.
  eapply (allocs_try _ _ _ _ (resolve_walk root _ start cur (NodeDirectory cur) Hroot (split_on_no_slash input) Hok _ (λ _, Hcur))).
  - intros acc. destruct (walk s start _) as [p|]; [|done]. intros (cur' & node & [= ->] & ->).
    rewrite requires_asks by done. destruct (_ && _); by apply allocs_ret.
  - intros e. destruct (walk s start _) as [p|]; [by intros (? & ? & ? & _)|]. by intros [= ->].
  Unshelve. unfold node_at. by rewrite Hcur.
Qed.
End resolve.

(** C36: resolving a pathname is walking the directory tree.  From a directory
    of the mounted archive, absolute input starts at the root and relative
    input at that directory; empty components and [.] stay, [..] goes to the
    parent and stays at the root, any other component must exist and be
    reached through a directory, no intermediate path may exceed the path
    bound, and a pathname whose final component is empty, [.] or [..] must name
    a directory.  The result is the canonical path with its node, or the first error
    of the walk; the code never panics, changes nothing, and differs only when
    memory is refused.  A canonical path resolves, from anywhere, to itself
    and to the same node. *)
Theorem path_resolution_exact es s cwd cwd_dir input :
  mounted_archive es s → path_ok cwd → lookup_dir s (render cwd) = Some cwd_dir →
  wp (resolve_existing_path cwd_dir input)
     (λ r s', RAMFS s' = RAMFS s ∧ (r = resolved s cwd input ∨ (r = inr PathNoMemory ∧ heap s ≠ []))) s ∧
  (∀ rp cwd', resolved s cwd input = inl rp →
     ∃ b, resolved s cwd' (rp_absolute rp) = inl (mkResolvedPath (rp_absolute rp) (rp_node rp) b)).
Proof.
  intros Hmt Hcwd Hdir. split.
  - eapply wp_mono; [by apply (resolve_path_spec es s Hmt cwd cwd_dir input Hcwd Hdir)|]. naive_solver.
  - intros rp cwd'. eapply resolved_again; [done..|]. right. apply (proj1 (lookup_dir_iff es s Hmt cwd Hcwd)). by eexists.
Qed.

(** A small archive. *)
Definition demo_archive (_ : list Z) : list CpioEntry :=
  [mkCpioEntry (lit "init") 0x81ED 1 [7; 8]%Z; mkCpioEntry (lit "bin/ls") 0x81ED 1 [9]%Z; mkCpioEntry (lit "etc") 0x41ED 1 []].
Definition demo_image : list Z := NEWC_MAGIC ++ TRAILER_NAME.
Definition fs_after {A} (o : outcome (A * FsState)) : FsState := match o with Done (_, s) => s | Panic _ => mkFsState [] None end.
Definition demo_fs : FsState := Eval vm_compute in fs_after (mount_from_cpio_newc demo_archive demo_image (mkFsState [] None)).

Lemma demo_mounted : mounted_archive (demo_archive demo_image) demo_fs.
Proof. apply (mounted_serves demo_archive demo_image (mkFsState [] None)). vm_compute. reflexivity. Qed.

Lemma path_resolution_exact_witness :
  wp (resolve_existing_path 1 (lit "../etc/./..//bin/ls"))
     (λ r _, r = inl (mkResolvedPath (lit "/bin/ls") (NodeFile 0) false)) demo_fs.
Proof.
  eapply wp_mono; [apply (path_resolution_exact (demo_archive demo_image) demo_fs [lit "bin"] 1 (lit "../etc/./..//bin/ls"))|].
  - exact demo_mounted.
  - apply Forall_singleton. split; [done|]. intros H. apply list_elem_of_lookup in H as [i Hi]. by do 3 (destruct i as [|i]; [done|]).
  - vm_compute. reflexivity.
  - intros r s' [_ [->|[_ Hne]]]; [vm_compute; reflexivity|]. exfalso. apply Hne. vm_compute. reflexivity.
Defined.
