(* ===== verification/FdTable.v ===== *)
(** * File descriptors

    [kernel/src/fs/fd.rs] and the process-local wrapper
    [kernel/src/process/files.rs]: the bounded descriptor table over the
    mounted file system.  Against it stands a specification in which a
    descriptor is what remains to be read of an open file or directory. *)

From stdpp Require Import gmap.
From S2P Require Import Prelude Ramfs RamfsSpec RamfsIndex Mount PathRes.

(** ** The code *)

Definition MAX_FDS : nat := 32.
Definition STDIN : nat := 0.
Definition STDOUT : nat := 1.
Definition STDERR : nat := 2.
Definition FIRST_USER_FD : nat := 3.

Inductive FdError := FdBadFd | FdIsDirectory | FdNotDirectory | FdTooManyOpenFiles | FdUnsupported.
#[global] Instance FdError_eq_dec : EqDecision FdError.
Proof. solve_decision. Defined.

Inductive FileHandle :=
| HandleRamFile (file_index offset : nat) (readable : bool)
| HandleRamDir (dir_index offset : nat).
#[global] Instance FileHandle_eq_dec : EqDecision FileHandle.
Proof. solve_decision. Defined.

Record FdDirEntry := mkFdDirEntry { fde_offset : nat; fde_entry : RamDirEntry }.

Abbreviation FdTable := (list (option FileHandle)) (only parsing).

Definition fdtable_new : FdTable := replicate MAX_FDS None.
Definition close_all (t : FdTable) : FdTable := (λ _, None) <$> t.

(** [offset.saturating_add(amount).min(limit)] on [usize]; the amount comes
    from user space and may be any 64-bit value. *)
Definition advance_clamped (offset : nat) (amount : Z) (limit : nat) : nat :=
  Z.to_nat (Z.min (u64_saturating_add (Z.of_nat offset) amount) (Z.of_nat limit)).

Definition lowest_free_fd (t : FdTable) : option nat :=
  (λ p, p.1 + FIRST_USER_FD) <$> list_find (λ e, e = None) (drop FIRST_USER_FD t).

Definition open_handle (handle : FileHandle) (t : FdTable) : (nat + FdError) * FdTable :=
  match lowest_free_fd t with
  | None => (inr FdTooManyOpenFiles, t)
  | Some fd => (inl fd, <[fd := Some handle]> t)
  end.

Definition open_ram_file (file_index : nat) (t : FdTable) : (nat + FdError) * FdTable :=
  open_handle (HandleRamFile file_index 0 true) t.

Definition open_ram_dir (dir_index : nat) (t : FdTable) : (nat + FdError) * FdTable :=
  open_handle (HandleRamDir dir_index 0) t.

Definition fd_user_entry (t : FdTable) (fd : nat) : option (option FileHandle) :=
  if decide (FIRST_USER_FD ≤ fd) then t !! fd else None.

Definition close_fd (fd : nat) (t : FdTable) : (unit + FdError) * FdTable :=
  match fd_user_entry t fd with
  | Some (Some _) => (inl tt, <[fd := None]> t)
  | _ => (inr FdBadFd, t)
  end.

Definition is_open (t : FdTable) (fd : nat) : bool :=
  match fd_user_entry t fd with Some (Some _) => true | _ => false end.

Definition read_slice (s : FsState) (t : FdTable) (fd : nat) (max_len : Z) : list Z + FdError :=
  match fd_user_entry t fd with
  | Some (Some (HandleRamFile file_index offset true)) =>
      match file_data s file_index with
      | None => inr FdBadFd
      | Some data =>
          let start := Nat.min offset (length data) in
          let fin := advance_clamped start max_len (length data) in
          inl (take (fin - start) (drop start data))
      end
  | Some (Some (HandleRamFile _ _ false)) => inr FdBadFd
  | Some (Some (HandleRamDir _ _)) => inr FdIsDirectory
  | Some None | None => inr FdBadFd
  end.

Definition advance_read (s : FsState) (fd : nat) (amount : Z) (t : FdTable) : (unit + FdError) * FdTable :=
  match fd_user_entry t fd with
  | Some (Some (HandleRamFile file_index offset true)) =>
      match file_data s file_index with
      | None => (inr FdBadFd, t)
      | Some data => (inl tt, <[fd := Some (HandleRamFile file_index (advance_clamped offset amount (length data)) true)]> t)
      end
  | Some (Some (HandleRamFile _ _ false)) => (inr FdBadFd, t)
  | Some (Some (HandleRamDir _ _)) => (inr FdIsDirectory, t)
  | Some None | None => (inr FdBadFd, t)
  end.

(** The entry offset of a directory read cannot saturate: a table that long
    does not fit in memory. *)
Definition fd_dir_entry_at (s : FsState) (t : FdTable) (fd relative_offset : nat) : option FdDirEntry + FdError :=
  match fd_user_entry t fd with
  | Some (Some (HandleRamDir dir_index offset)) =>
      let entry_offset := offset + relative_offset in
      inl (mkFdDirEntry entry_offset <$> dir_entry_at s dir_index entry_offset)
  | Some (Some (HandleRamFile _ _ _)) => inr FdNotDirectory
  | Some None | None => inr FdBadFd
  end.

Definition advance_dir_read (s : FsState) (fd : nat) (amount : Z) (t : FdTable) : (unit + FdError) * FdTable :=
  match fd_user_entry t fd with
  | Some (Some (HandleRamDir dir_index offset)) =>
      match dir_entry_count s dir_index with
      | None => (inr FdBadFd, t)
      | Some count => (inl tt, <[fd := Some (HandleRamDir dir_index (advance_clamped offset amount count))]> t)
      end
  | Some (Some (HandleRamFile _ _ _)) => (inr FdNotDirectory, t)
  | Some None | None => (inr FdBadFd, t)
  end.

(** ** Process-local file state *)

Record ProcessFileState := mkProcessFileState { pf_fds : FdTable; pf_cwd_dir : option nat }.

Definition file_state_free : ProcessFileState := mkProcessFileState fdtable_new None.
Definition file_state_new (fds : FdTable) (cwd_dir : nat) : ProcessFileState := mkProcessFileState fds (Some cwd_dir).
Definition file_state_set_cwd (cwd_dir : nat) (f : ProcessFileState) : ProcessFileState := mkProcessFileState (pf_fds f) (Some cwd_dir).
Definition file_state_close_all (f : ProcessFileState) : ProcessFileState := mkProcessFileState (close_all (pf_fds f)) None.

(** ** Descriptors as streams *)

Inductive stream :=
| FileStream (rest : list Z)
| DirStream (pos : nat) (rest : list RamDirEntry).

Inductive fd_op :=
| OpOpenFile (file_index : nat) | OpOpenDir (dir_index : nat) | OpClose (fd : nat) | OpCloseAll | OpIsOpen (fd : nat)
| OpReadSlice (fd : nat) (max_len : Z) | OpAdvance (fd : nat) (amount : Z)
| OpEntryAt (fd rel : nat) | OpAdvanceDir (fd : nat) (amount : Z).

Inductive fd_result :=
| ResFd (r : nat + FdError) | ResUnit (r : unit + FdError) | ResBool (r : bool)
| ResBytes (r : list Z + FdError) | ResEntry (r : option FdDirEntry + FdError).

Definition fd_exec (s : FsState) (op : fd_op) (t : FdTable) : fd_result * FdTable :=
  match op with
  | OpOpenFile i => let '(r, t') := open_ram_file i t in (ResFd r, t')
  | OpOpenDir i => let '(r, t') := open_ram_dir i t in (ResFd r, t')
  | OpClose fd => let '(r, t') := close_fd fd t in (ResUnit r, t')
  | OpCloseAll => (ResUnit (inl tt), close_all t)
  | OpIsOpen fd => (ResBool (is_open t fd), t)
  | OpReadSlice fd n => (ResBytes (read_slice s t fd n), t)
  | OpAdvance fd n => let '(r, t') := advance_read s fd n t in (ResUnit r, t')
  | OpEntryAt fd rel => (ResEntry (fd_dir_entry_at s t fd rel), t)
  | OpAdvanceDir fd n => let '(r, t') := advance_dir_read s fd n t in (ResUnit r, t')
  end.

(** The specification works on a finite map from open descriptors to what is
    left to read; a new descriptor is the smallest unused one in [3, 32). *)
Definition smallest_unused (m : gmap nat stream) : option nat :=
  snd <$> list_find (λ fd, m !! fd = None) (seq FIRST_USER_FD (MAX_FDS - FIRST_USER_FD)).

Definition spec_open (x : stream) (m : gmap nat stream) : fd_result * gmap nat stream :=
  match smallest_unused m with
  | None => (ResFd (inr FdTooManyOpenFiles), m)
  | Some fd => (ResFd (inl fd), <[fd := x]> m)
  end.

Definition dir_entries (s : FsState) (i : nat) : list RamDirEntry :=
  match RAMFS s ≫= (λ fs, fs_dirs fs !! i) with Some d => rd_entries d | None => [] end.

Definition fd_spec (s : FsState) (op : fd_op) (m : gmap nat stream) : fd_result * gmap nat stream :=
  match op with
  | OpOpenFile i => spec_open (FileStream (default [] (file_data s i))) m
  | OpOpenDir i => spec_open (DirStream 0 (dir_entries s i)) m
  | OpClose fd => match m !! fd with Some _ => (ResUnit (inl tt), delete fd m) | None => (ResUnit (inr FdBadFd), m) end
  | OpCloseAll => (ResUnit (inl tt), ∅)
  | OpIsOpen fd => (ResBool (bool_decide (is_Some (m !! fd))), m)
  | OpReadSlice fd n =>
      (ResBytes (match m !! fd with
                 | Some (FileStream rest) => inl (take (Z.to_nat n) rest)
                 | Some (DirStream _ _) => inr FdIsDirectory
                 | None => inr FdBadFd
                 end), m)
  | OpAdvance fd n =>
      match m !! fd with
      | Some (FileStream rest) => (ResUnit (inl tt), <[fd := FileStream (drop (Z.to_nat n) rest)]> m)
      | Some (DirStream _ _) => (ResUnit (inr FdIsDirectory), m)
      | None => (ResUnit (inr FdBadFd), m)
      end
  | OpEntryAt fd rel =>
      (ResEntry (match m !! fd with
                 | Some (DirStream pos rest) => inl (mkFdDirEntry (pos + rel) <$> rest !! rel)
                 | Some (FileStream _) => inr FdNotDirectory
                 | None => inr FdBadFd
                 end), m)
  | OpAdvanceDir fd n =>
      match m !! fd with
      | Some (DirStream pos rest) =>
          let k := Z.to_nat (Z.min n (Z.of_nat (length rest))) in
          (ResUnit (inl tt), <[fd := DirStream (pos + k) (drop k rest)]> m)
      | Some (FileStream _) => (ResUnit (inr FdNotDirectory), m)
      | None => (ResUnit (inr FdBadFd), m)
      end
  end.

Fixpoint fd_run {T} (step : fd_op → T → fd_result * T) (ops : list fd_op) (t : T) : list fd_result * T :=
  match ops with
  | [] => ([], t)
  | op :: ops' => let '(r, t1) := step op t in let '(rs, t2) := fd_run step ops' t1 in (r :: rs, t2)
  end.

(** ** The table implements the streams *)

(** Lengths are machine integers. *)
Definition fits (s : FsState) : Prop :=
  (∀ i data, file_data s i = Some data → (Z.of_nat (length data) <= u64_max)%Z) ∧
  (∀ i n, dir_entry_count s i = Some n → (Z.of_nat n <= u64_max)%Z).

(** Descriptors are opened for nodes that exist, and amounts are [usize]. *)
Definition op_ok (s : FsState) (op : fd_op) : Prop :=
  match op with
  | OpOpenFile i => is_Some (file_data s i)
  | OpOpenDir i => is_Some (dir_entry_count s i)
  | OpReadSlice _ n | OpAdvance _ n | OpAdvanceDir _ n => in_u64 n
  | _ => True
  end.

Section refine.
Context (s : FsState).
Hypothesis Hfits : fits s.

(** A handle and the stream it stands for. *)
Inductive stands_for : FileHandle → stream → Prop :=
| sf_file i off data :
    file_data s i = Some data → off ≤ length data → stands_for (HandleRamFile i off true) (FileStream (drop off data))
| sf_dir i off :
    dir_entry_count s i = Some (length (dir_entries s i)) → off ≤ length (dir_entries s i) →
    stands_for (HandleRamDir i off) (DirStream off (drop off (dir_entries s i))).

Definition abstracts (t : FdTable) (m : gmap nat stream) : Prop :=
  length t = MAX_FDS ∧
  ∀ fd, match fd_user_entry t fd, m !! fd with
        | Some (Some h), Some x => stands_for h x
        | Some (Some _), None | Some None, Some _ | None, Some _ => False
        | _, None => True
        end.

Lemma advance_clamped_eq off (n : Z) limit :
  (0 <= n)%Z → (Z.of_nat limit <= u64_max)%Z →
  advance_clamped off n limit = Nat.min (off + Z.to_nat n) limit.
Proof. intros Hn Hl. unfold advance_clamped, u64_saturating_add. lia. Qed.

Lemma entry_at_dir i k : dir_entry_count s i = Some (length (dir_entries s i)) → dir_entry_at s i k = dir_entries s i !! k.
Proof.
  unfold dir_entry_count, dir_entry_at, dir_entries. destruct (RAMFS s) as [fs|]; [|done]. simpl. by destruct (fs_dirs fs !! i).
Qed.

Lemma entry_count_some i : is_Some (dir_entry_count s i) → dir_entry_count s i = Some (length (dir_entries s i)).
Proof. unfold dir_entry_count, dir_entries. destruct (RAMFS s) as [fs|]; simpl; [destruct (fs_dirs fs !! i)|]; try done; by intros []. Qed.

Lemma fd_user_entry_insert t fd fd' x :
  length t = MAX_FDS → FIRST_USER_FD ≤ fd < MAX_FDS →
  fd_user_entry (<[fd := x]> t) fd' = if decide (fd' = fd) then Some x else fd_user_entry t fd'.
Proof.
  intros Hl Hfd. unfold fd_user_entry. destruct (decide (fd' = fd)) as [->|Hne].
  - rewrite decide_True by lia. apply list_lookup_insert_eq. lia.
  - by rewrite list_lookup_insert_ne.
Qed.

Lemma fd_user_entry_range t fd h : length t = MAX_FDS → fd_user_entry t fd = Some h → FIRST_USER_FD ≤ fd < MAX_FDS.
Proof. unfold fd_user_entry. intros Hl. destruct (decide _); [|done]. intros H%lookup_lt_Some. lia. Qed.

Lemma abstracts_insert t m fd h x :
  abstracts t m → FIRST_USER_FD ≤ fd < MAX_FDS → stands_for h x → abstracts (<[fd := Some h]> t) (<[fd := x]> m).
Proof.
  intros [Hl Ha] Hfd Hx. split; [by rewrite length_insert|]. intros fd'. rewrite fd_user_entry_insert by done.
  destruct (decide (fd' = fd)) as [->|Hne]; [by rewrite lookup_insert_eq|]. rewrite lookup_insert_ne by done. apply Ha.
Qed.

Lemma lookup_abstract t m fd :
  abstracts t m →
  match m !! fd with
  | Some x => ∃ h, fd_user_entry t fd = Some (Some h) ∧ stands_for h x ∧ FIRST_USER_FD ≤ fd < MAX_FDS
  | None => fd_user_entry t fd = Some None ∨ fd_user_entry t fd = None
  end.
Proof.
  intros [Hl Ha]. specialize (Ha fd). destruct (fd_user_entry t fd) as [[h|]|] eqn:Hu, (m !! fd) as [x|]; try done; auto.
  exists h. split; [done|]. split; [done|]. by eapply fd_user_entry_range.
Qed.

Lemma find_unused t m k n :
  abstracts t m → FIRST_USER_FD ≤ k → k + n = MAX_FDS →
  (λ p, p.1 + k) <$> list_find (λ e, e = None) (drop k t) = snd <$> list_find (λ fd, m !! fd = None) (seq k n).
Proof.
  intros Ha. induction n as [|n IH] in k |- *; intros Hk Hn.
  { rewrite drop_ge by (destruct Ha; lia). done. }
  destruct (lookup_lt_is_Some_2 t k) as [e He]; [destruct Ha; lia|]. rewrite (drop_S t e k He). cbn [seq list_find].
  pose proof (lookup_abstract t m k Ha) as Hk'. unfold fd_user_entry in Hk'. rewrite decide_True, He in Hk' by done.
  destruct (decide (e = None)) as [->|Hne], (decide (m !! k = None)) as [Hm|Hm]; simpl.
  - done.
  - destruct (m !! k); [by destruct Hk' as (? & ? & _)|done].
  - rewrite Hm in Hk'. destruct Hk' as [[= ->]|]; done.
  - rewrite <-!option_fmap_compose. specialize (IH (S k)). rewrite <-(option_fmap_ext (λ p : nat * option FileHandle, p.1 + S k)) by (intros []; simpl; lia).
    rewrite IH by lia. apply option_fmap_ext. by intros [].
Qed.

Lemma open_refines t m h x :
  abstracts t m → stands_for h x →
  ResFd (open_handle h t).1 = (spec_open x m).1 ∧ abstracts (open_handle h t).2 (spec_open x m).2.
Proof.
  intros Ha Hx. unfold open_handle, spec_open, lowest_free_fd, smallest_unused.
  rewrite (find_unused t m FIRST_USER_FD (MAX_FDS - FIRST_USER_FD) Ha) by (unfold MAX_FDS, FIRST_USER_FD; lia).
  destruct (list_find _ _) as [[i fd]|] eqn:Hf; [|done]. simpl. split; [done|].
  apply list_find_Some in Hf as (Hseq & _). apply abstracts_insert; [done| |done].
  apply list_elem_of_lookup_2, elem_of_seq in Hseq. unfold MAX_FDS, FIRST_USER_FD in *. lia.
Qed.
Lemma close_refines t m fd :
  abstracts t m → abstracts (<[fd := None]> t) (delete fd m) ∨ ¬ FIRST_USER_FD ≤ fd < MAX_FDS.
Proof.
  intros [Hl Ha]. destruct (decide (FIRST_USER_FD ≤ fd < MAX_FDS)) as [Hr|]; [left|by right].
  split; [by rewrite length_insert|]. intros fd'. rewrite fd_user_entry_insert by done.
  destruct (decide (fd' = fd)) as [->|Hne]; [by rewrite lookup_delete_eq|]. rewrite lookup_delete_ne by done. apply Ha.
Qed.

Lemma close_all_refines t m : abstracts t m → abstracts (close_all t) ∅.
Proof.
  intros [Hl _]. split; [unfold close_all; by rewrite length_fmap|]. intros fd. rewrite lookup_empty.
  unfold fd_user_entry, close_all. destruct (decide _); [|done]. rewrite list_lookup_fmap. by destruct (t !! fd).
Qed.

(** Reading a file stream. *)
Lemma read_stands h rest t fd n :
  stands_for h (FileStream rest) → fd_user_entry t fd = Some (Some h) → (0 <= n)%Z →
  read_slice s t fd n = inl (take (Z.to_nat n) rest).
Proof.
  inversion 1 as [i off data Hd Hoff|]; subst. intros Hu Hn. unfold read_slice. rewrite Hu, Hd.
  pose proof (proj1 Hfits _ _ Hd). rewrite advance_clamped_eq by lia. rewrite (Nat.min_l off) by lia. f_equal.
  destruct (decide (off + Z.to_nat n ≤ length data)).
  - f_equal. lia.
  - rewrite !take_ge; [done|rewrite length_drop; lia..].
Qed.

Lemma advance_stands h rest t m fd n :
  abstracts t m → stands_for h (FileStream rest) → fd_user_entry t fd = Some (Some h) → (0 <= n)%Z → FIRST_USER_FD ≤ fd < MAX_FDS →
  (advance_read s fd n t).1 = inl tt ∧
  abstracts (advance_read s fd n t).2 (<[fd := FileStream (drop (Z.to_nat n) rest)]> m).
Proof.
  inversion 2 as [i off data Hd Hoff|]; subst. intros Hu Hn Hfd. unfold advance_read. rewrite Hu, Hd. split; [done|].
  pose proof (proj1 Hfits _ _ Hd). apply abstracts_insert; [done..|]. rewrite drop_drop, advance_clamped_eq by lia.
  destruct (decide (off + Z.to_nat n ≤ length data)).
  - rewrite Nat.min_l by lia. by constructor.
  - rewrite Nat.min_r, (drop_ge _ (off + _)) by lia. rewrite <-(drop_ge data (length data)) by done. by constructor.
Qed.

Lemma advance_dir_stands h pos rest t m fd n :
  abstracts t m → stands_for h (DirStream pos rest) → fd_user_entry t fd = Some (Some h) → (0 <= n)%Z → FIRST_USER_FD ≤ fd < MAX_FDS →
  let k := Z.to_nat (Z.min n (Z.of_nat (length rest))) in
  (advance_dir_read s fd n t).1 = inl tt ∧
  abstracts (advance_dir_read s fd n t).2 (<[fd := DirStream (pos + k) (drop k rest)]> m).
Proof.
  inversion 2 as [|i off Hc Hoff]; subst. intros Hu Hn Hfd k. unfold advance_dir_read. rewrite Hu, Hc. split; [done|].
  pose proof (proj2 Hfits _ _ Hc). apply abstracts_insert; [done..|]. rewrite drop_drop, advance_clamped_eq by lia.
  unfold k. rewrite length_drop. replace (Nat.min _ _) with (pos + Z.to_nat (Z.min n (Z.of_nat (length (dir_entries s i) - pos)))) by lia.
  constructor; [done|lia].
Qed.

Lemma fd_step_refines op t m :
  op_ok s op → abstracts t m → (fd_exec s op t).1 = (fd_spec s op m).1 ∧ abstracts (fd_exec s op t).2 (fd_spec s op m).2.
Proof.
  intros Hop Ha. destruct op as [i|i|fd| |fd|fd n|fd n|fd r|fd n]; cbn [fd_exec fd_spec op_ok] in *.
  - destruct Hop as [data Hd]. rewrite Hd. pose proof (open_refines t m _ _ Ha (sf_file i 0 data Hd (Nat.le_0_l _))) as H.
    rewrite drop_0 in H. unfold open_ram_file. destruct (open_handle _ t). done.
  - apply entry_count_some in Hop. pose proof (open_refines t m _ _ Ha (sf_dir i 0 Hop (Nat.le_0_l _))) as H.
    rewrite drop_0 in H. unfold open_ram_dir. destruct (open_handle _ t). done.
  - pose proof (lookup_abstract t m fd Ha) as Hl. unfold close_fd. destruct (m !! fd) as [x|].
    + destruct Hl as (h & -> & _ & Hr). split; [done|]. by destruct (close_refines t m fd Ha).
    + destruct Hl as [->| ->]; done.
  - split; [done|by eapply close_all_refines].
  - split; [|done]. pose proof (lookup_abstract t m fd Ha) as Hl. unfold is_open. cbn [fst]. f_equal. destruct (m !! fd) as [x|].
    + destruct Hl as (h & -> & _). symmetry. by apply bool_decide_eq_true_2.
    + destruct Hl as [->| ->]; symmetry; by apply bool_decide_eq_false_2; intros [].
  - split; [|done]. pose proof (lookup_abstract t m fd Ha) as Hl. cbn [fst]. f_equal. destruct Hop. destruct (m !! fd) as [[rest|pos rest]|].
    + destruct Hl as (h & Hu & Hs & _). by eapply read_stands.
    + destruct Hl as (h & Hu & Hs & _). inversion Hs; subst. unfold read_slice. by rewrite Hu.
    + unfold read_slice. destruct Hl as [->| ->]; done.
  - pose proof (lookup_abstract t m fd Ha) as Hl. destruct Hop. destruct (m !! fd) as [[rest|pos rest]|].
    + destruct Hl as (h & Hu & Hs & Hr). destruct (advance_stands h rest t m fd n) as [H1 H2]; try done.
      destruct (advance_read s fd n t). simpl in *. by subst.
    + destruct Hl as (h & Hu & Hs & _). inversion Hs; subst. unfold advance_read. by rewrite Hu.
    + unfold advance_read. destruct Hl as [->| ->]; done.
  - split; [|done]. pose proof (lookup_abstract t m fd Ha) as Hl. cbn [fst]. f_equal. unfold fd_dir_entry_at. destruct (m !! fd) as [[rest|pos rest]|].
    + destruct Hl as (h & -> & Hs & _). by inversion Hs.
    + destruct Hl as (h & -> & Hs & _). inversion Hs; subst. by rewrite entry_at_dir, lookup_drop by done.
    + destruct Hl as [->| ->]; done.
  - pose proof (lookup_abstract t m fd Ha) as Hl. destruct Hop. destruct (m !! fd) as [[rest|pos rest]|].
    + destruct Hl as (h & Hu & Hs & _). inversion Hs; subst. unfold advance_dir_read. by rewrite Hu.
    + destruct Hl as (h & Hu & Hs & Hr). destruct (advance_dir_stands h pos rest t m fd n) as [H1 H2]; try done.
      destruct (advance_dir_read s fd n t). simpl in *. by subst.
    + unfold advance_dir_read. destruct Hl as [->| ->]; done.
Qed.

Lemma fd_run_refines ops t m :
  Forall (op_ok s) ops → abstracts t m → (fd_run (fd_exec s) ops t).1 = (fd_run (fd_spec s) ops m).1.
Proof.
  induction ops as [|op ops IH] in t, m |- *; [done|]. intros [Hop Hops]%Forall_cons Ha. cbn [fd_run].
  destruct (fd_step_refines op t m Hop Ha) as [H1 H2]. destruct (fd_exec s op t) as [r t1], (fd_spec s op m) as [r' m1]. simpl in *.
  specialize (IH t1 m1 Hops H2). destruct (fd_run (fd_exec s) ops t1), (fd_run (fd_spec s) ops m1). simpl in *. congruence.
Qed.

Lemma abstracts_new : abstracts fdtable_new ∅.
Proof.
  split; [done|]. intros fd. rewrite lookup_empty. unfold fd_user_entry, fdtable_new. destruct (decide _); [|done].
  destruct (replicate MAX_FDS None !! fd) as [e|] eqn:He; [|done]. by apply lookup_replicate in He as [-> _].
Qed.
End refine.

(** C37: a descriptor is what is left to read.  Any sequence of opens, closes,
    reads and directory reads on a fresh table gives exactly the results of a
    map from descriptors to streams: opening takes the smallest unused
    descriptor from 3 on and fails only when all 29 are in use, reading shows
    the next bytes or entries without consuming them, advancing drops exactly
    that many (and stops at the end), descriptors do not influence each other,
    and a closed, reserved or wrong kind of descriptor is refused with its
    error. *)
Theorem fd_table_refines_streams s ops :
  fits s → Forall (op_ok s) ops →
  (fd_run (fd_exec s) ops fdtable_new).1 = (fd_run (fd_spec s) ops ∅).1.
Proof. intros Hf Ho. apply fd_run_refines; [done..|]. apply abstracts_new. Qed.

Lemma fd_table_refines_streams_witness :
  (fd_run (fd_exec demo_fs) [OpOpenFile 1; OpReadSlice 3 1; OpAdvance 3 1; OpReadSlice 3 10; OpOpenDir 0; OpClose 3; OpOpenFile 0; OpReadSlice 2 1]
     fdtable_new).1 =
  [ResFd (inl 3); ResBytes (inl [7%Z]); ResUnit (inl tt); ResBytes (inl [8%Z]); ResFd (inl 4); ResUnit (inl tt); ResFd (inl 3); ResBytes (inr FdBadFd)].
Proof.
  rewrite fd_table_refines_streams.
  - vm_compute. reflexivity.
  - split.
    + intros i data. do 2 (destruct i as [|i]; [intros [= <-]; vm_compute; congruence|]). intros H. discriminate H.
    + intros i n. do 3 (destruct i as [|i]; [intros [= <-]; vm_compute; congruence|]). intros H. discriminate H.
  - repeat (apply Forall_cons; split; [first [exact I|split; vm_compute; congruence|eexists; reflexivity]|]). apply Forall_nil_2.
Defined.
