(* ===== verification/PhysMem.v ===== *)
(** * Bytes of physical memory

    Physical memory is a store of 64-bit words at 8-aligned addresses, shared
    with the free list and the page tables.  This file gives it byte access
    (little-endian, as the kernel and user code see it) and the bulk helpers of
    [kernel/src/memory/mod.rs] that go through the direct map. *)

From stdpp Require Import gmap.
From S2P Require Import Prelude.
#[local] Open Scope Z_scope.

Definition WORD_BYTES : Z := 8.

(** The bytes of a word, lowest first, and the word of eight bytes. *)
Definition word_bytes (w : Z) : list Z := (λ k, (w / 256 ^ Z.of_nat k) mod 256) <$> seq 0 8.
Definition of_bytes (l : list Z) : Z := foldr (λ x acc, x + 256 * acc) 0 l.

Definition load_word (st : gmap Z Z) (pa : Z) : Z := default 0 (st !! pa).
Definition store_word (st : gmap Z Z) (pa w : Z) : gmap Z Z := <[pa := w]> st.

(** The word that holds a byte, and the byte's place in it. *)
Definition word_addr (pa : Z) : Z := pa - pa mod 8.
Definition byte_lane (pa : Z) : nat := Z.to_nat (pa mod 8).

Definition load_byte (st : gmap Z Z) (pa : Z) : Z :=
  default 0 (word_bytes (load_word st (word_addr pa)) !! byte_lane pa).
Definition store_byte (st : gmap Z Z) (pa x : Z) : gmap Z Z :=
  store_word st (word_addr pa) (of_bytes (<[byte_lane pa := x]> (word_bytes (load_word st (word_addr pa))))).

Definition is_byte (x : Z) : Prop := 0 <= x < 256.

(** [copy_nonoverlapping] and [write_bytes] to physical memory. *)
Fixpoint store_bytes (st : gmap Z Z) (pa : Z) (l : list Z) : gmap Z Z :=
  match l with
  | [] => st
  | x :: l' => store_bytes (store_byte st pa x) (pa + 1) l'
  end.
Definition load_bytes (st : gmap Z Z) (pa : Z) (n : nat) : list Z := (λ k, load_byte st (pa + Z.of_nat k)) <$> seq 0 n.

(** ** Words and bytes *)

Lemma word_bytes_length w : length (word_bytes w) = 8%nat.
Proof. done. Qed.

Lemma word_bytes_range w : Forall is_byte (word_bytes w).
Proof. apply Forall_fmap, Forall_forall. intros k _. apply Z.mod_pos_bound. lia. Qed.

Lemma of_bytes_range l : Forall is_byte l → 0 <= of_bytes l < 256 ^ Z.of_nat (length l).
Proof.
  induction 1 as [|x l Hx _ IH]; [done|]. unfold is_byte in Hx. cbn [of_bytes foldr length]. fold (of_bytes l).
  rewrite Nat2Z.inj_succ, Z.pow_succ_r by lia. lia.
Qed.

Lemma of_bytes_nth l k x :
  Forall is_byte l → l !! k = Some x → (of_bytes l / 256 ^ Z.of_nat k) mod 256 = x.
Proof.
  intros Hl. revert k. induction Hl as [|y l Hy Hl IH]; intros k Hk; [done|]. unfold is_byte in Hy.
  cbn [of_bytes foldr]. fold (of_bytes l). destruct k as [|k].
  - injection Hk as ->. change (256 ^ Z.of_nat 0) with 1. rewrite Z.div_1_r, (Z.mul_comm 256), Z_mod_plus_full.
    by apply Z.mod_small.
  - rewrite Nat2Z.inj_succ, Z.pow_succ_r by lia. rewrite <-Z.div_div by lia.
    replace ((y + 256 * of_bytes l) / 256) with (of_bytes l); [by apply IH|].
    rewrite (Z.mul_comm 256), Z.div_add by lia. rewrite Z.div_small by lia. lia.
Qed.

Lemma word_bytes_of_bytes l : length l = 8%nat → Forall is_byte l → word_bytes (of_bytes l) = l.
Proof.
  intros Hlen Hl. apply list_eq. intros k. unfold word_bytes. rewrite list_lookup_fmap.
  destruct (decide (k < 8)%nat) as [Hk|Hk].
  - rewrite lookup_seq_lt by lia. destruct (lookup_lt_is_Some_2 l k) as [x Hx]; [lia|]. rewrite Hx. simpl. f_equal. by apply of_bytes_nth.
  - rewrite lookup_seq_ge by lia. symmetry. apply lookup_ge_None. lia.
Qed.

(** ** Bytes in memory *)

Lemma byte_lane_lt pa : (byte_lane pa < 8)%nat.
Proof. unfold byte_lane. pose proof (Z.mod_pos_bound pa 8). lia. Qed.

Lemma byte_addr_eq pa pa' : word_addr pa = word_addr pa' → byte_lane pa = byte_lane pa' → pa = pa'.
Proof. unfold word_addr, byte_lane. pose proof (Z.mod_pos_bound pa 8). pose proof (Z.mod_pos_bound pa' 8). lia. Qed.

Lemma load_byte_range st pa : is_byte (load_byte st pa).
Proof.
  unfold load_byte. pose proof (word_bytes_range (load_word st (word_addr pa))) as H. rewrite Forall_lookup in H.
  destruct (word_bytes _ !! byte_lane pa) as [x|] eqn:Hx; [by eapply H|]. done.
Qed.

Lemma load_store_word st pa w pa' : load_word (store_word st pa w) pa' = if decide (pa = pa') then w else load_word st pa'.
Proof.
  unfold load_word, store_word. destruct (decide (pa = pa')) as [->|]; [by rewrite lookup_insert_eq|by rewrite lookup_insert_ne].
Qed.

Lemma load_store_byte st pa x pa' :
  is_byte x → load_byte (store_byte st pa x) pa' = if decide (pa = pa') then x else load_byte st pa'.
Proof.
  intros Hx. unfold load_byte, store_byte. rewrite load_store_word. destruct (decide (word_addr pa = word_addr pa')) as [Hw|Hw].
  - rewrite word_bytes_of_bytes; [|by rewrite length_insert|apply Forall_insert; [apply word_bytes_range|done]].
    destruct (decide (pa = pa')) as [->|Hne].
    + rewrite list_lookup_insert_eq; [done|]. apply byte_lane_lt.
    + rewrite list_lookup_insert_ne; [by rewrite Hw|]. intros Hl. apply Hne. by apply byte_addr_eq.
  - rewrite decide_False by (by intros ->). done.
Qed.

Lemma store_bytes_app st pa l l' : store_bytes st pa (l ++ l') = store_bytes (store_bytes st pa l) (pa + Z.of_nat (length l)) l'.
Proof.
  revert st pa. induction l as [|x l IH]; intros st pa; simpl; [by rewrite Z.add_0_r|]. rewrite IH. f_equal. lia.
Qed.

Lemma load_store_bytes st pa l pa' :
  Forall is_byte l →
  load_byte (store_bytes st pa l) pa' =
  if decide (pa <= pa' < pa + Z.of_nat (length l)) then default 0 (l !! Z.to_nat (pa' - pa)) else load_byte st pa'.
Proof.
  intros Hl. revert st pa. induction Hl as [|x l Hx Hl IH]; intros st pa; simpl.
  { rewrite decide_False by lia. done. }
  rewrite IH, load_store_byte by done. destruct (decide (pa + 1 <= pa' < _)) as [H1|H1].
  - rewrite decide_True by lia. replace (Z.to_nat (pa' - pa)) with (S (Z.to_nat (pa' - (pa + 1)))) by lia. done.
  - destruct (decide (pa = pa')) as [->|Hne].
    + rewrite decide_True by lia. by rewrite Z.sub_diag.
    + rewrite decide_False by lia. done.
Qed.

Lemma load_bytes_length st pa n : length (load_bytes st pa n) = n.
Proof. unfold load_bytes. by rewrite length_fmap, length_seq. Qed.

Lemma load_bytes_range st pa n : Forall is_byte (load_bytes st pa n).
Proof. apply Forall_fmap, Forall_forall. intros k _. apply load_byte_range. Qed.

Lemma load_bytes_app st pa n k : load_bytes st pa (n + k) = load_bytes st pa n ++ load_bytes st (pa + Z.of_nat n) k.
Proof.
  unfold load_bytes. rewrite seq_app, fmap_app. f_equal.
  rewrite Nat.add_comm, <-(fmap_add_seq n 0 k), <-list_fmap_compose.
  apply list_fmap_ext. intros i x _. simpl. f_equal. lia.
Qed.

Lemma load_bytes_stored st pa l : Forall is_byte l → load_bytes (store_bytes st pa l) pa (length l) = l.
Proof.
  intros Hl. apply list_eq. intros i. unfold load_bytes. rewrite list_lookup_fmap. destruct (decide (i < length l)%nat) as [Hi|Hi].
  - rewrite lookup_seq_lt by done. simpl. rewrite load_store_bytes by done. rewrite decide_True by lia.
    replace (Z.to_nat (pa + Z.of_nat i - pa)) with i by lia. destruct (lookup_lt_is_Some_2 l i Hi) as [x ->]. done.
  - rewrite lookup_seq_ge by lia. symmetry. apply lookup_ge_None. lia.
Qed.

(** ** A word is its eight bytes *)

Section word_access.
Context (pa : Z).
Hypothesis Hal : pa mod 8 = 0.

Lemma aligned_byte k : (k < 8)%nat → word_addr (pa + Z.of_nat k) = pa ∧ byte_lane (pa + Z.of_nat k) = k.
Proof.
  intros Hk. assert ((pa + Z.of_nat k) mod 8 = Z.of_nat k) as Hm.
  { rewrite Zplus_mod, Hal, Z.add_0_l, Zmod_mod. apply Z.mod_small. lia. }
  unfold word_addr, byte_lane. rewrite Hm. lia.
Qed.

Lemma load_word_bytes st : load_bytes st pa 8 = word_bytes (load_word st pa).
Proof.
  apply list_eq. intros k. unfold load_bytes. rewrite list_lookup_fmap. destruct (decide (k < 8)%nat) as [Hk|Hk].
  - rewrite lookup_seq_lt by done. simpl. unfold load_byte. destruct (aligned_byte k Hk) as [-> ->].
    destruct (lookup_lt_is_Some_2 (word_bytes (load_word st pa)) k Hk) as [x ->]. done.
  - rewrite lookup_seq_ge by lia. symmetry. apply lookup_ge_None. rewrite word_bytes_length. lia.
Qed.

(** Storing the bytes one after the other from lane [k] on. *)
Lemma store_lanes st pre l :
  length (pre ++ l) = 8%nat → Forall is_byte (pre ++ l) → l ≠ [] → take (length pre) (word_bytes (load_word st pa)) = pre →
  store_bytes st (pa + Z.of_nat (length pre)) l = store_word st pa (of_bytes (pre ++ l)).
Proof.
  revert st pre. induction l as [|x l IH]; intros st pre Hlen Hb Hne Hdone; [done|]. cbn [store_bytes].
  rewrite length_app in Hlen. simpl in Hlen. destruct (aligned_byte (length pre)) as [Hw Hl]; [lia|].
  unfold store_byte. rewrite Hw, Hl. assert (length (word_bytes (load_word st pa)) = 8%nat) as Hwl by done.
  set (w := word_bytes (load_word st pa)) in *.
  assert (<[length pre := x]> w = pre ++ x :: drop (S (length pre)) w) as Hins.
  { rewrite insert_take_drop by lia. by rewrite Hdone. }
  rewrite Hins. destruct l as [|y l].
  - cbn [store_bytes]. simpl in Hlen. rewrite drop_ge by lia. done.
  - set (w1 := of_bytes _). transitivity (store_word (store_word st pa w1) pa (of_bytes ((pre ++ [x]) ++ y :: l))).
    + replace (pa + Z.of_nat (length pre) + 1) with (pa + Z.of_nat (length (pre ++ [x]))) by (rewrite length_app; simpl; lia).
      apply IH; [rewrite !length_app; simpl in *; lia|by rewrite <-app_assoc|done|].
      rewrite load_store_word, decide_True by done. unfold w1. rewrite word_bytes_of_bytes.
      * rewrite (app_assoc pre [x] (drop (S (length pre)) w) : pre ++ x :: drop (S (length pre)) w = _). apply take_app_length.
      * by rewrite <-Hins, length_insert.
      * rewrite <-Hins. apply Forall_insert; [apply word_bytes_range|]. by apply Forall_app in Hb as [_ [Hx _]%Forall_cons].
    + unfold store_word. by rewrite insert_insert_eq, <-app_assoc.
Qed.

Lemma store_word_bytes st l :
  length l = 8%nat → Forall is_byte l → store_bytes st pa l = store_word st pa (of_bytes l).
Proof.
  intros Hlen Hb. pose proof (store_lanes st [] l Hlen Hb) as H. simpl in H. rewrite Z.add_0_r in H.
  apply H; [by destruct l|done].
Qed.
End word_access.
