(* ===== verification/UserCopy.v ===== *)
(** * Copies between the kernel and user memory

    [kernel/src/memory/user.rs]: validation of user ranges against the page
    tables and the copy loops, which move aligned words with byte edges.

    The memory management unit is hardware: [hw_translate] is the address an
    access through the current translation root reaches, [at_s1e0r] the answer
    of the address-translation instruction for a user read.  What the code
    relies on is that both follow the page tables in memory; the copy loops
    further rely on mappings being stable while they run, so they translate
    with the tables as they are when the copy starts.  [current] is the result
    of [vm::current_user_address_space]. *)

From stdpp Require Import gmap.
From S2P Require Import Prelude Types Vm MemMap FrameAlloc PageTable PhysMem.
#[local] Open Scope Z_scope.

Definition USER_TEXT_BASE : Z := 0x4000000000.
Definition USER_STACK_TOP : Z := 0x8000000000.
Definition MAX_USER_COPY : Z := 1024.
Definition COPY_WORD_BYTES : Z := 8.

Inductive UserCopyError :=
| CopyEmpty | CopyTooLarge | CopyNameTooLong | CopyAddressOverflow | CopyNotUserRange | CopyNotMapped
| CopyNotReadable | CopyNotWritable | CopyNoCurrentAddressSpace | CopyOutOfMemory.
#[global] Instance UserCopyError_eq_dec : EqDecision UserCopyError.
Proof. solve_decision. Defined.

Inductive AccessKind := AccessRead | AccessWrite.
#[global] Instance AccessKind_eq_dec : EqDecision AccessKind.
Proof. solve_decision. Defined.

(** ** The copy loops

    [tr] translates user addresses; an access without translation faults, and
    there is no recovery. *)

Definition user_pa (tr : Z → option Z) (va : Z) : outcome Z := expect_o (tr va) "data abort".

Fixpoint read_byte_loop (tr : Z → option Z) (st : gmap Z Z) (src : Z) (offset n : nat) : outcome (list Z) :=
  match n with
  | O => mret []
  | S n' =>
      pa ← user_pa tr (src + Z.of_nat offset);
      rest ← read_byte_loop tr st src (S offset) n';
      mret (load_byte st pa :: rest)
  end.

(** [n] words; a word of the kernel buffer is its eight bytes, aligned or not. *)
Fixpoint read_word_loop (tr : Z → option Z) (st : gmap Z Z) (src : Z) (offset n : nat) : outcome (list Z) :=
  match n with
  | O => mret []
  | S n' =>
      pa ← user_pa tr (src + Z.of_nat offset);
      rest ← read_word_loop tr st src (offset + 8) n';
      mret (word_bytes (load_word st pa) ++ rest)
  end.

(** [(addr.wrapping_neg() & (COPY_WORD_BYTES - 1)).min(len)] *)
Definition copy_prefix (addr : Z) (len : nat) : nat := Nat.min (Z.to_nat (Z.land (- addr) (COPY_WORD_BYTES - 1))) len.
Definition copy_word_end (prefix len : nat) : nat := (len - (len - prefix) mod 8)%nat.

Definition read_validated_user_bytes (tr : Z → option Z) (st : gmap Z Z) (len : nat) (user_src : Z) : outcome (list Z) :=
  let prefix := copy_prefix user_src len in
  let word_end := copy_word_end prefix len in
  head ← read_byte_loop tr st user_src 0 prefix;
  words ← read_word_loop tr st user_src prefix ((word_end - prefix) / 8);
  tail ← read_byte_loop tr st user_src word_end (len - word_end);
  mret (head ++ words ++ tail).

Fixpoint write_byte_loop (tr : Z → option Z) (dst : Z) (src : list Z) (offset n : nat) (st : gmap Z Z) : outcome (gmap Z Z) :=
  match n with
  | O => mret st
  | S n' =>
      pa ← user_pa tr (dst + Z.of_nat offset);
      x ← expect_o (src !! offset) "index out of bounds";
      write_byte_loop tr dst src (S offset) n' (store_byte st pa x)
  end.

Fixpoint write_word_loop (tr : Z → option Z) (dst : Z) (src : list Z) (offset n : nat) (st : gmap Z Z) : outcome (gmap Z Z) :=
  match n with
  | O => mret st
  | S n' =>
      pa ← user_pa tr (dst + Z.of_nat offset);
      let word := of_bytes (take 8 (drop offset src)) in
      write_word_loop tr dst src (offset + 8) n' (store_word st pa word)
  end.

Definition write_validated_user_bytes (tr : Z → option Z) (user_dst : Z) (src : list Z) (st : gmap Z Z) : outcome (gmap Z Z) :=
  let len := length src in
  let prefix := copy_prefix user_dst len in
  let word_end := copy_word_end prefix len in
  st ← write_byte_loop tr user_dst src 0 prefix st;
  st ← write_word_loop tr user_dst src prefix ((word_end - prefix) / 8) st;
  write_byte_loop tr user_dst src word_end (len - word_end) st.

(** ** Validation *)

Definition check_mapping (mapping : UserMappingInfo) (access : AccessKind) : unit + UserCopyError :=
  if negb (um_user mapping) then inr CopyNotUserRange
  else match access with
       | AccessRead => if um_readable mapping then inl tt else inr CopyNotReadable
       | AccessWrite => if um_writable mapping then inl tt else inr CopyNotWritable
       end.

(** [while cursor < end { .. }], with the number of pages as bound. *)
Fixpoint check_pages (fuel : nat) (st : gmap Z Z) (root cursor fin : Z) (access : AccessKind) : outcome (unit + UserCopyError) :=
  if fin <=? cursor then mret (inl tt)
  else match fuel with
       | O => Panic "user range bound"
       | S fuel' =>
           match query_user_mapping st root cursor with
           | None => mret (inr CopyNotMapped)
           | Some mapping =>
               match check_mapping mapping access with
               | inr e => mret (inr e)
               | inl _ => match u64_checked_add cursor PAGE_SIZE with
                          | None => mret (inr CopyAddressOverflow)
                          | Some next => check_pages fuel' st root next fin access
                          end
               end
           end
       end.

Section user.
Context (hw_translate : gmap Z Z → Z → Z → option Z).
Context (at_s1e0r : gmap Z Z → Z → Z → bool).
Context (current : option AddressSpaceId).

(** The translation root in use. *)
Definition ttbr0_root (m : Mmu) : Z := Z.land (mm_ttbr0 m) DESC_ADDR_MASK.

Definition current_user_page_readable (m : Mmu) (va : Z) : bool :=
  bool_decide (is_Some current) && at_s1e0r (memory m) (ttbr0_root m) va.

Definition validate_user_range_unbounded (m : Mmu) (ptr len : Z) (access : AccessKind) : outcome (unit + UserCopyError) :=
  if len =? 0 then mret (inr CopyEmpty)
  else match u64_checked_add ptr len with
       | None => mret (inr CopyAddressOverflow)
       | Some fin =>
           if (ptr <? USER_TEXT_BASE) || (USER_STACK_TOP <? fin) || (fin <=? ptr) then mret (inr CopyNotUserRange)
           else if bool_decide (access = AccessRead) && (align_down ptr PAGE_SIZE =? align_down (fin - 1) PAGE_SIZE) then
             mret (if current_user_page_readable m ptr then inl tt else inr CopyNotReadable)
           else match current with
                | None => mret (inr CopyNoCurrentAddressSpace)
                | Some address_space =>
                    let cursor := align_down ptr PAGE_SIZE in
                    check_pages (S (Z.to_nat ((fin - cursor) / PAGE_SIZE))) (memory m) (root_pa address_space) cursor fin access
                end
       end.

Definition validate_user_range (m : Mmu) (ptr len : Z) (access : AccessKind) : outcome (unit + UserCopyError) :=
  if len =? 0 then mret (inr CopyEmpty)
  else if MAX_USER_COPY <? len then mret (inr CopyTooLarge)
  else validate_user_range_unbounded m ptr len access.

Definition validate_user_read_range (m : Mmu) (ptr len : Z) := validate_user_range m ptr len AccessRead.
Definition validate_user_write_range (m : Mmu) (ptr len : Z) := validate_user_range m ptr len AccessWrite.

(** The translation the hardware uses from now on. *)
Definition user_tr (m : Mmu) : Z → option Z := hw_translate (memory m) (ttbr0_root m).

(** ** Copies *)

Definition copy_from_user (len : nat) (user_src : Z) : K (list Z + UserCopyError) :=
  if decide (len = 0%nat) then mret (inl [])
  else
    _ ←? reads (λ m, validate_user_read_range m user_src (Z.of_nat len));
    bytes ← reads (λ m, read_validated_user_bytes (user_tr m) (memory m) len user_src);
    mret (inl bytes).

(** Run a change of physical memory. *)
Definition on_memory (f : Mmu → outcome (gmap Z Z)) : K unit :=
  λ m, match f m with Done st => Done (tt, set_memory (λ _, st) m) | Panic why => Panic why end.

Definition copy_to_user (user_dst : Z) (src : list Z) : K (unit + UserCopyError) :=
  if decide (src = []) then mret (inl tt)
  else if MAX_USER_COPY <? Z.of_nat (length src) then mret (inr CopyTooLarge)
  else
    _ ←? reads (λ m, validate_user_range_unbounded m user_dst (Z.of_nat (length src)) AccessWrite);
    on_memory (λ m, write_validated_user_bytes (user_tr m) user_dst src (memory m));;
    mret (inl tt).

Definition copy_cstr_to_user (user_dst : Z) (value : list Z) (max_len : Z) : K (Z + UserCopyError) :=
  let required := Z.of_nat (length value) + 1 in
  if max_len <? required then mret (inr CopyTooLarge)
  else
    _ ←? reads (λ m, validate_user_range_unbounded m user_dst required AccessWrite);
    tr ← gets user_tr;
    on_memory (λ m, write_validated_user_bytes tr user_dst value (memory m));;
    match u64_checked_add user_dst (Z.of_nat (length value)) with
    | None => mret (inr CopyAddressOverflow)
    | Some nul_dst =>
        on_memory (λ m, pa ← user_pa tr nul_dst; mret (store_byte (memory m) pa 0));;
        mret (inl required)
    end.

(** [granted n]: whether the heap grows a vector of [n] elements when asked. *)
Context (granted : nat → bool).

(** The scan of one validated chunk: stops at a NUL with the string, or goes
    on with what it has; a vector of capacity [cap] grows by at most 64. *)
Fixpoint scan_chunk (tr : Z → option Z) (st : gmap Z Z) (max_len : nat) (va : Z) (n : nat) (path : list Z) (cap : nat)
    : outcome ((list Z * nat + list Z) + UserCopyError) :=
  match n with
  | O => mret (inl (inl (path, cap)))
  | S n' =>
      pa ← user_pa tr va;
      let byte := load_byte st pa in
      if byte =? 0 then mret (inl (inr path))
      else if decide (length path = max_len) then mret (inr CopyNameTooLong)
      else if bool_decide (length path = cap) && negb (granted (length path)) then mret (inr CopyOutOfMemory)
      else
        let cap := if decide (length path = cap) then (cap + Nat.min (max_len - length path) 64)%nat else cap in
        scan_chunk tr st max_len (va + 1) n' (path ++ [byte]) cap
  end.

Fixpoint scan_pages (fuel : nat) (m : Mmu) (max_len : nat) (cursor : Z) (scanned : nat) (path : list Z) (cap : nat)
    : outcome (list Z + UserCopyError) :=
  if decide (max_len < scanned)%nat then mret (inr CopyNameTooLong)
  else match fuel with
       | O => Panic "string scan bound"
       | S fuel' =>
           match u64_checked_add (align_down cursor PAGE_SIZE) PAGE_SIZE with
           | None => mret (inr CopyAddressOverflow)
           | Some page_end =>
               let remaining_scan := (max_len + 1 - scanned)%nat in
               let chunk_len := Nat.min (Z.to_nat (u64_saturating_sub page_end cursor)) remaining_scan in
               v ← validate_user_range_unbounded m cursor (Z.of_nat chunk_len) AccessRead;
               match v with
               | inr e => mret (inr e)
               | inl _ =>
                   r ← scan_chunk (user_tr m) (memory m) max_len cursor chunk_len path cap;
                   match r with
                   | inr e => mret (inr e)
                   | inl (inr found) => mret (inl found)
                   | inl (inl (path, cap)) =>
                       match u64_checked_add cursor (Z.of_nat chunk_len) with
                       | None => mret (inr CopyAddressOverflow)
                       | Some next => scan_pages fuel' m max_len next (scanned + chunk_len) path cap
                       end
                   end
               end
           end
       end.

Definition copy_cstr_from_user (ptr : Z) (max_len : nat) : K (list Z + UserCopyError) :=
  reads (λ m, scan_pages (S (S max_len)) m max_len ptr 0 [] 0).

Definition copy_path_cstr_from_user (path_ptr : Z) : K (list Z + UserCopyError) :=
  path ←? copy_cstr_from_user path_ptr GENRT_PATH_MAX;
  mret (if decide (path = []) then inr CopyEmpty else inl path).
End user.
