(* ===== verification/UserAccess.v ===== *)
(** * Copies between the kernel and user memory are exact

    Page-wise translation, the equivalence of the word loops with a copy byte
    by byte, and the exactness of range validation.

    Validation accepts exactly the ranges whose bytes the user may access, the
    copies move exactly those bytes, and the scan for a C string always ends
    with the bytes before the first NUL or an error that says why not. *)

From stdpp Require Import gmap.
From S2P Require Import Prelude Types Vm MemMap MemMapSpec FrameAlloc PageTable PageTableSpec AddressSpace SpaceSafety PhysMem UserCopy.
#[local] Open Scope Z_scope.

(** ** Translation is page by page *)

Lemma index_same_page va va' :
  va / PAGE_SIZE = va' / PAGE_SIZE →
  l0_index va = l0_index va' ∧ l1_index va = l1_index va' ∧ l2_index va = l2_index va' ∧ l3_index va = l3_index va'.
Proof.
  intros H. assert (∀ n, 12 <= n → Z.shiftr va n = Z.shiftr va' n) as Hs.
  { intros n Hn. rewrite !Z.shiftr_div_pow2 by lia. replace (2 ^ n) with (PAGE_SIZE * 2 ^ (n - 12)).
    - rewrite <-!Z.div_div by (unfold PAGE_SIZE; lia). by rewrite H.
    - change PAGE_SIZE with (2 ^ 12). rewrite <-Z.pow_add_r by lia. f_equal. lia. }
  unfold l0_index, l1_index, l2_index, l3_index. by rewrite !Hs.
Qed.

Lemma is_user_same_page va va' : va / PAGE_SIZE = va' / PAGE_SIZE → is_user_va va = is_user_va va'.
Proof.
  intros H. unfold is_user_va. apply eq_true_iff_eq. rewrite !Z.ltb_lt. change LOWER_VA_LIMIT with (2 ^ 36 * PAGE_SIZE).
  unfold PAGE_SIZE in *. rewrite (Z.div_mod va 4096), (Z.div_mod va' 4096) by done.
  pose proof (Z.mod_pos_bound va 4096). pose proof (Z.mod_pos_bound va' 4096). lia.
Qed.

Lemma lookup_same_page st root va va' :
  va / PAGE_SIZE = va' / PAGE_SIZE → lookup_user_page_desc st root va = lookup_user_page_desc st root va'.
Proof.
  intros H. unfold lookup_user_page_desc. destruct (index_same_page va va' H) as (-> & -> & -> & ->). by rewrite (is_user_same_page va va' H).
Qed.

Lemma page_off va : Z.land va (PAGE_SIZE - 1) = va mod PAGE_SIZE.
Proof. change (PAGE_SIZE - 1) with (Z.ones 12). rewrite Z.land_ones by done. done. Qed.

Lemma desc_pa_aligned d : desc_pa d mod PAGE_SIZE = 0.
Proof.
  unfold desc_pa. rewrite <-page_off, <-Z.land_assoc. change (Z.land DESC_ADDR_MASK (PAGE_SIZE - 1)) with 0. apply Z.land_0_r.
Qed.

(** The page of a translation, and the offset in it. *)
Lemma translate_page st root va pa va' :
  translate_user_va st root va = Some pa → va' / PAGE_SIZE = va / PAGE_SIZE →
  pa mod PAGE_SIZE = va mod PAGE_SIZE ∧ translate_user_va st root va' = Some (pa + (va' - va)).
Proof.
  unfold translate_user_va, query_user_mapping. intros (i & Hi & ->)%fmap_Some Hp. rewrite (lookup_same_page _ _ va' va Hp).
  destruct (lookup_user_page_desc st root va) as [d|]; [|done]. simpl in Hi. injection Hi as <-. simpl. rewrite !page_off.
  pose proof (desc_pa_aligned d) as Ha. split.
  - rewrite Zplus_mod, Ha, Z.add_0_l, !Zmod_mod. done.
  - f_equal. unfold PAGE_SIZE in *. rewrite (Z.div_mod va 4096) at 2 by done. rewrite (Z.div_mod va' 4096) at 2 by done. lia.
Qed.

(** What the word loops need of a translation. *)
Definition wordwise (tr : Z → option Z) : Prop :=
  ∀ va pa, tr va = Some pa → va mod 8 = 0 → pa mod 8 = 0 ∧ ∀ k, 0 <= k < 8 → tr (va + k) = Some (pa + k).

Lemma mod_page_8 a : a mod PAGE_SIZE mod 8 = a mod 8.
Proof. apply Z.mod_mod_divide. by exists 512. Qed.

Lemma translate_wordwise st root : wordwise (translate_user_va st root).
Proof.
  intros va pa Hpa Hal. split.
  - destruct (translate_page st root va pa va Hpa eq_refl) as [Hm _]. by rewrite <-mod_page_8, Hm, mod_page_8.
  - intros k Hk. destruct (translate_page st root va pa (va + k) Hpa) as [_ ->]; [|f_equal; lia].
    assert (va mod PAGE_SIZE mod 8 = 0) as Ho by (by rewrite mod_page_8). unfold PAGE_SIZE in *.
    pose proof (Z.mod_pos_bound va 4096). rewrite (Z.div_mod va 4096) at 1 by done.
    replace (4096 * (va / 4096) + va mod 4096 + k) with (va mod 4096 + k + va / 4096 * 4096) by lia.
    rewrite Z.div_add by done. rewrite Z.div_small; [done|].
    pose proof (Z.div_mod (va mod 4096) 8). lia.
Qed.

(** ** The loops against a byte copy *)

(** The physical addresses of the bytes at offsets [off ..] of a user range. *)
Definition reaches (tr : Z → option Z) (va : Z) (off n : nat) (pas : list Z) : Prop :=
  Forall2 (λ k pa, tr (va + Z.of_nat k) = Some pa) (seq off n) pas.

Definition store_at (st : gmap Z Z) (pas l : list Z) : gmap Z Z := foldl (λ st p, store_byte st p.1 p.2) st (zip pas l).

Section loops.
Context (tr : Z → option Z) (va : Z).
Hypothesis Hword : wordwise tr.

Lemma reaches_split off n k pas :
  reaches tr va off (n + k) pas → ∃ p1 p2, pas = p1 ++ p2 ∧ reaches tr va off n p1 ∧ reaches tr va (off + n) k p2.
Proof. unfold reaches. rewrite seq_app. intros (p1 & p2 & H1 & H2 & ->)%Forall2_app_inv_l. by exists p1, p2. Qed.

Lemma reaches_length off n pas : reaches tr va off n pas → length pas = n.
Proof. intros H%Forall2_length. by rewrite length_seq in H. Qed.

(** Eight aligned bytes are one word. *)
Lemma reaches_word off pas :
  reaches tr va off 8 pas → (va + Z.of_nat off) mod 8 = 0 →
  ∃ pa, tr (va + Z.of_nat off) = Some pa ∧ pa mod 8 = 0 ∧ pas = (λ k, pa + Z.of_nat k) <$> seq 0 8.
Proof.
  intros H Hal. assert (∃ pa, tr (va + Z.of_nat off) = Some pa) as [pa Hpa].
  { inversion H as [|? pa ? ? Hpa]. by exists pa. }
  exists pa. split; [done|]. destruct (Hword _ _ Hpa Hal) as [Hp Hk]. split; [done|].
  apply list_eq. intros i. rewrite list_lookup_fmap. destruct (decide (i < 8)%nat) as [Hi|Hi].
  - rewrite lookup_seq_lt by done. simpl. destruct (lookup_lt_is_Some_2 pas i) as [x Hx]; [by rewrite (reaches_length _ _ _ H)|].
    rewrite Hx. f_equal. pose proof (Forall2_lookup_lr _ _ _ i (off + i)%nat x H) as He. cbv beta in He.
    rewrite lookup_seq_lt in He by done. specialize (He eq_refl Hx). specialize (Hk (Z.of_nat i) ltac:(lia)).
    replace (va + Z.of_nat (off + i)) with (va + Z.of_nat off + Z.of_nat i) in He by lia. congruence.
  - rewrite lookup_seq_ge by lia. apply lookup_ge_None. rewrite (reaches_length _ _ _ H). lia.
Qed.

Lemma store_at_app st p1 p2 l1 l2 :
  length p1 = length l1 → store_at st (p1 ++ p2) (l1 ++ l2) = store_at (store_at st p1 l1) p2 l2.
Proof. intros H. unfold store_at. rewrite zip_with_app by done. by rewrite foldl_app. Qed.

Lemma store_at_run st pa l n : length l = n → store_at st ((λ k, pa + Z.of_nat k) <$> seq 0 n) l = store_bytes st pa l.
Proof.
  intros <-. revert st pa. induction l as [|x l IH]; intros st pa; [done|]. cbn [length seq fmap list_fmap store_bytes].
  unfold store_at. cbn [zip zip_with foldl fst snd]. rewrite Z.add_0_r, <-IH. unfold store_at. f_equal. f_equal.
  rewrite <-fmap_S_seq, <-list_fmap_compose. apply list_fmap_ext. intros i k _. simpl. lia.
Qed.

Lemma read_byte_loop_spec st off n pas :
  reaches tr va off n pas → read_byte_loop tr st va off n = Done (load_byte st <$> pas).
Proof.
  revert off pas. induction n as [|n IH]; intros off pas H; [by inversion H|]. cbn [read_byte_loop].
  inversion H as [|? pa ? pas' Hpa Hrest]; subst. unfold user_pa. rewrite Hpa. cbn [expect_o]. rewrite done_bind. by rewrite (IH _ _ Hrest).
Qed.

Lemma read_word_loop_spec st off n pas :
  reaches tr va off (8 * n) pas → (va + Z.of_nat off) mod 8 = 0 → read_word_loop tr st va off n = Done (load_byte st <$> pas).
Proof.
  revert off pas. induction n as [|n IH]; intros off pas H Hal; [by inversion H|]. cbn [read_word_loop].
  replace (8 * S n)%nat with (8 + 8 * n)%nat in H by lia. destruct (reaches_split _ _ _ _ H) as (p1 & p2 & -> & H1 & H2).
  destruct (reaches_word _ _ H1 Hal) as (pa & Hpa & Hp & ->). unfold user_pa. rewrite Hpa. cbn [expect_o]. rewrite done_bind.
  rewrite (IH _ _ H2). 2: { rewrite Nat2Z.inj_add, Z.add_assoc. rewrite Zplus_mod, Hal. done. }
  rewrite done_bind, fmap_app, <-(load_word_bytes pa Hp). f_equal.
Qed.

Lemma write_byte_loop_spec st src off n pas :
  reaches tr va off n pas → (off + n ≤ length src)%nat →
  write_byte_loop tr va src off n st = Done (store_at st pas (take n (drop off src))).
Proof.
  revert st off pas. induction n as [|n IH]; intros st off pas H Hlen; [by inversion H|]. cbn [write_byte_loop].
  inversion H as [|? pa ? pas' Hpa Hrest]; subst. unfold user_pa. rewrite Hpa. cbn [expect_o]. rewrite done_bind.
  destruct (lookup_lt_is_Some_2 src off) as [x Hx]; [lia|]. rewrite Hx. cbn [expect_o]. rewrite done_bind.
  rewrite (IH _ _ _ Hrest) by lia. rewrite (drop_S src x off Hx). done.
Qed.

Lemma write_word_loop_spec st src off n pas :
  reaches tr va off (8 * n) pas → (va + Z.of_nat off) mod 8 = 0 → (off + 8 * n ≤ length src)%nat → Forall is_byte src →
  write_word_loop tr va src off n st = Done (store_at st pas (take (8 * n) (drop off src))).
Proof.
  revert st off pas. induction n as [|n IH]; intros st off pas H Hal Hlen Hb; [by inversion H|]. cbn [write_word_loop].
  replace (8 * S n)%nat with (8 + 8 * n)%nat in * by lia. destruct (reaches_split _ _ _ _ H) as (p1 & p2 & -> & H1 & H2).
  destruct (reaches_word _ _ H1 Hal) as (pa & Hpa & Hp & ->). unfold user_pa. rewrite Hpa. cbn [expect_o]. rewrite done_bind.
  rewrite (IH _ _ _ H2); [|by rewrite Nat2Z.inj_add, Z.add_assoc, Zplus_mod, Hal|lia|done].
  f_equal. rewrite <-(take_drop 8 (take (8 + 8 * n) (drop off src))). rewrite take_take, Nat.min_l by lia.
  assert (length (take 8 (drop off src)) = 8%nat) as Hl8 by (rewrite length_take, length_drop; lia).
  rewrite store_at_app by (by rewrite length_fmap, length_seq).
  rewrite (store_at_run _ _ _ _ Hl8), (store_word_bytes pa Hp); [|done|by apply Forall_take, Forall_drop].
  f_equal. rewrite skipn_firstn_comm, drop_drop. f_equal. lia.
Qed.

(** How a range splits into byte edges and aligned words. *)
Lemma copy_split len :
  let prefix := copy_prefix va len in
  let word_end := copy_word_end prefix len in
  let words := ((word_end - prefix) / 8)%nat in
  len = (prefix + 8 * words + (len - word_end))%nat ∧ word_end = (prefix + 8 * words)%nat ∧
  (words = 0%nat ∨ (va + Z.of_nat prefix) mod 8 = 0).
Proof.
  cbv zeta. unfold copy_word_end. set (p := copy_prefix va len).
  assert (p ≤ len)%nat as Hp by (unfold p, copy_prefix; lia).
  pose proof (Nat.div_mod_eq (len - p) 8) as Hd. pose proof (Nat.mod_upper_bound (len - p) 8 ltac:(lia)) as Hm.
  assert (((len - (len - p) mod 8 - p) / 8)%nat = ((len - p) / 8)%nat) as ->.
  { replace (len - (len - p) mod 8 - p)%nat with ((len - p) / 8 * 8)%nat by lia. by rewrite Nat.div_mul. }
  split_and!; [lia..|]. destruct (decide (p = len)) as [->|Hne]; [left; by rewrite Nat.sub_diag|right].
  assert (Z.of_nat p = (- va) mod 8) as ->.
  { unfold p, copy_prefix in *. rewrite Nat.min_l by lia. change (COPY_WORD_BYTES - 1) with (Z.ones 3).
    rewrite Z.land_ones by done. rewrite Z2Nat.id; [done|]. by apply Z.mod_pos_bound. }
  rewrite Zplus_mod_idemp_r. by rewrite Z.add_opp_diag_r.
Qed.

(** Reading a range reads each of its bytes. *)
Lemma read_validated_spec st len pas :
  reaches tr va 0 len pas → read_validated_user_bytes tr st len va = Done (load_byte st <$> pas).
Proof.
  intros H. unfold read_validated_user_bytes. destruct (copy_split len) as (Hlen & Hend & Hw). cbv zeta.
  set (p := copy_prefix va len) in *. set (e := copy_word_end p len) in *. set (w := ((e - p) / 8)%nat) in *.
  rewrite Hlen in H. destruct (reaches_split _ _ _ _ H) as (p1 & p3 & -> & H1 & H3).
  destruct (reaches_split _ _ _ _ H1) as (p0 & p2 & -> & H0 & H2). rewrite Nat.add_0_l in *. rewrite <-Hend in H3.
  rewrite (read_byte_loop_spec _ _ _ _ H0), done_bind.
  assert (read_word_loop tr st va p w = Done (load_byte st <$> p2)) as ->.
  { destruct Hw as [Hw|Hw]; [|by apply read_word_loop_spec]. rewrite Hw in *. by inversion H2. }
  rewrite done_bind, (read_byte_loop_spec _ _ _ _ H3), done_bind. by rewrite !fmap_app, app_assoc.
Qed.

(** Writing a range stores each of its bytes. *)
Lemma write_validated_spec st src pas :
  reaches tr va 0 (length src) pas → Forall is_byte src →
  write_validated_user_bytes tr va src st = Done (store_at st pas src).
Proof.
  intros H Hb. unfold write_validated_user_bytes. destruct (copy_split (length src)) as (Hlen & Hend & Hw). cbv zeta.
  set (p := copy_prefix va (length src)) in *. set (e := copy_word_end p (length src)) in *. set (w := ((e - p) / 8)%nat) in *.
  rewrite Hlen in H. destruct (reaches_split _ _ _ _ H) as (p1 & p3 & -> & H1 & H3).
  destruct (reaches_split _ _ _ _ H1) as (p0 & p2 & -> & H0 & H2). rewrite Nat.add_0_l in *. rewrite <-Hend in H3.
  rewrite (write_byte_loop_spec _ _ _ _ _ H0), done_bind by lia.
  assert (∀ st, write_word_loop tr va src p w st = Done (store_at st p2 (take (8 * w) (drop p src)))) as Hword'.
  { intros st'. destruct Hw as [Hw|Hw]; [|apply write_word_loop_spec; [done..|lia|done]]. rewrite Hw in *. by inversion H2. }
  rewrite Hword', done_bind, (write_byte_loop_spec _ _ _ _ _ H3) by lia. f_equal. rewrite drop_0.
  assert (take p src ++ take (8 * w) (drop p src) ++ drop e src = src) as Hsrc.
  { rewrite Hend, <-drop_drop. by rewrite !take_drop. }
  transitivity (store_at st ((p0 ++ p2) ++ p3) (take p src ++ take (8 * w) (drop p src) ++ drop e src)); [|by rewrite Hsrc].
  rewrite <-app_assoc. rewrite !store_at_app by (rewrite ?(reaches_length _ _ _ H0), ?(reaches_length _ _ _ H2), length_take, ?length_drop; lia).
  f_equal. apply take_ge. rewrite length_drop. lia.
Qed.
End loops.

(** * Copies between the kernel and user memory are exact *)

(** ** What the user may access *)

Definition perm (access : AccessKind) (i : UserMappingInfo) : bool :=
  match access with AccessRead => um_readable i | AccessWrite => um_writable i end.

Definition may (st : gmap Z Z) (root : Z) (access : AccessKind) (va : Z) : Prop :=
  ∃ i, query_user_mapping st root va = Some i ∧ perm access i = true.

Definition in_window (va : Z) : Prop := USER_TEXT_BASE <= va < USER_STACK_TOP.

(** The byte at a user address, where the user may read it. *)
Definition user_byte (m : Mmu) (va : Z) : option Z :=
  if decide (in_window va) then
    i ← query_user_mapping (memory m) (ttbr0_root m) va;
    if um_readable i then Some (load_byte (memory m) (um_pa i)) else None
  else None.

Definition accessible (m : Mmu) (access : AccessKind) (va : Z) : Prop :=
  in_window va ∧ may (memory m) (ttbr0_root m) access va.

Lemma user_byte_accessible m va : is_Some (user_byte m va) ↔ accessible m AccessRead va.
Proof.
  unfold user_byte, accessible, may. destruct (decide (in_window va)) as [Hw|Hw]; [|split; [by intros [? ?]|tauto]].
  destruct (query_user_mapping _ _ va) as [i|]; simpl.
  - destruct (um_readable i) eqn:Hr; split.
    + intros _. split; [done|]. by exists i.
    + intros _. by eexists.
    + by intros [? ?].
    + intros (_ & i' & [= <-] & E). simpl in E. congruence.
  - split; [by intros [? ?]|]. intros (_ & i & ? & _). done.
Qed.

Lemma info_perm d va access : check_mapping (user_mapping_info_from_desc d va) access = inl tt ↔ perm access (user_mapping_info_from_desc d va) = true.
Proof. unfold check_mapping. destruct access; simpl; destruct (Z.land d DESC_AP_USER =? 0), (Z.land d DESC_AF =? 0), (Z.land d DESC_AP_RO =? 0); done. Qed.

Lemma info_perm_page d va va' access :
  perm access (user_mapping_info_from_desc d va) = perm access (user_mapping_info_from_desc d va').
Proof. by destruct access. Qed.

Lemma info_write_read d va : um_writable (user_mapping_info_from_desc d va) = true → um_readable (user_mapping_info_from_desc d va) = true.
Proof. simpl. destruct (Z.land d DESC_AP_USER =? 0), (Z.land d DESC_AF =? 0), (Z.land d DESC_AP_RO =? 0); done. Qed.

Lemma may_desc st root access va :
  may st root access va ↔ ∃ d, lookup_user_page_desc st root va = Some d ∧ perm access (user_mapping_info_from_desc d va) = true.
Proof.
  unfold may, query_user_mapping. destruct (lookup_user_page_desc st root va) as [d|]; simpl; split; intros (i & Hi & Hp); try done.
  - injection Hi as <-. by exists d.
  - injection Hi as <-. eauto.
Qed.

Lemma may_same_page st root access va va' : va / PAGE_SIZE = va' / PAGE_SIZE → may st root access va → may st root access va'.
Proof.
  rewrite !may_desc. intros H (d & Hd & Hp). rewrite (lookup_same_page _ _ va va' H) in Hd. exists d. by rewrite (info_perm_page d va' va).
Qed.

Lemma may_write_read st root va : may st root AccessWrite va → may st root AccessRead va.
Proof. rewrite !may_desc. intros (d & Hd & Hp). exists d. split; [done|]. by apply info_write_read. Qed.

Lemma may_translates st root access va : may st root access va → is_Some (translate_user_va st root va).
Proof. intros (i & Hi & _). unfold translate_user_va. rewrite Hi. by eexists. Qed.

Lemma page_eq_iff c va : c mod PAGE_SIZE = 0 → c <= va < c + PAGE_SIZE → va / PAGE_SIZE = c / PAGE_SIZE.
Proof.
  unfold PAGE_SIZE. intros Hc Hva. rewrite (Z.div_mod c 4096), Hc in Hva by done.
  symmetry. apply (Z.div_unique_pos va 4096 (c / 4096) (va - 4096 * (c / 4096))); lia.
Qed.

Lemma same_page_at c va va' :
  c mod PAGE_SIZE = 0 → c <= va < c + PAGE_SIZE → c <= va' < c + PAGE_SIZE → va / PAGE_SIZE = va' / PAGE_SIZE.
Proof. intros Hc H H'. by rewrite (page_eq_iff c va Hc H), (page_eq_iff c va' Hc H'). Qed.

(** ** Bytes stored one after the other *)

Lemma load_store_at st pas l pa :
  length pas = length l → Forall is_byte l →
  (pa ∉ pas → load_byte (store_at st pas l) pa = load_byte st pa) ∧
  (∀ k x, pas !! k = Some pa → l !! k = Some x → (∀ j, (k < j)%nat → pas !! j ≠ Some pa) → load_byte (store_at st pas l) pa = x).
Proof.
  revert st l. induction pas as [|a pas IH]; intros st [|x l] Hlen Hb; [by split; [|intros [] ?]|done..|].
  inversion Hb as [|? ? Hx Hl]; subst. destruct (IH (store_byte st a x) l) as [IH1 IH2]; [by injection Hlen|done|]. split.
  - intros [Ha Hn]%not_elem_of_cons. etrans; [by apply IH1|]. rewrite load_store_byte by done. by rewrite decide_False by congruence.
  - intros [|k] y Hk Hy Hlast; simpl in Hk, Hy.
    + injection Hk as ->. injection Hy as ->. etrans; [apply IH1|rewrite load_store_byte by done; by rewrite decide_True].
      intros (j & Hj)%list_elem_of_lookup. by apply (Hlast (S j)); [lia|].
    + apply (IH2 k y Hk Hy). intros j Hj. apply (Hlast (S j)). lia.
Qed.

(** Only the words that hold the bytes change. *)
Lemma store_at_word st pas l y : (∀ pa, pa ∈ pas → word_addr pa ≠ y) → store_at st pas l !! y = st !! y.
Proof.
  revert st l. induction pas as [|a pas IH]; intros st [|x l] Hy; [done..|].
  etrans; [apply IH; intros pa Hpa; apply Hy; by right|]. unfold store_byte, store_word. apply lookup_insert_ne, Hy. by left.
Qed.

(** A change outside the frames of the tables keeps every address space. *)
Lemma machine_outside m live pool st :
  machine_ok m live pool → (∀ y, align_down y PAGE_SIZE ∈ pool → st !! y = memory m !! y) →
  machine_ok (set_memory (λ _, st) m) live pool ∧
  ∀ r va, r ∈ live → query_user_mapping st r va = query_user_mapping (memory m) r va.
Proof.
  intros (T & l & Hm & Hlive) Hst.
  assert (∀ f i, f ∈ pool → (i < 512)%nat → st !! entry_addr f i = memory m !! entry_addr f i) as Hent.
  { intros f i Hf Hi. apply Hst. destruct (mk_frames _ _ _ _ Hm f Hf) as [[_ Hal] _]. unfold align_down, entry_addr. simpl.
    rewrite (page_eq_iff f) by (done || (unfold PAGE_SIZE; lia)). by rewrite Z.mul_comm, <-(proj2 (Z.div_exact f PAGE_SIZE ltac:(done)) Hal). }
  destruct (tree_ext (memory m) st T) as [Ht Hleaf].
  { intros k pa i Hk Hi. unfold entry. rewrite Hent; [done| |done]. apply (mk_pool _ _ _ _ Hm). eauto. }
  { apply Hm. }
  assert (mmu_ok (set_memory (λ _, st) m) T l pool) as Hm'.
  { destruct Hm as [H1 H2 H3 H4 H5 H6 H7]. split; [done|done|exact Ht| |done|done|done].
    apply fa_ok_store; [done|]. intros f Hf. pose proof (Hent f 0%nat) as E. unfold entry_addr in E. rewrite Z.mul_0_r, Z.add_0_r in E.
    apply E; [|lia]. apply H6. by left. }
  split; [by exists T, l|]. intros r va Hr%Hlive.
  change st with (memory (set_memory (λ _, st) m)) at 1. rewrite (query_leaf _ _ _ _ _ _ Hm' Hr), (query_leaf _ _ _ _ _ _ Hm Hr).
  f_equal. apply Hleaf.
Qed.

(** ** Validation *)

Lemma check_pages_spec st root access fin fuel cursor :
  fin <= USER_STACK_TOP → cursor mod PAGE_SIZE = 0 → fin - cursor <= Z.of_nat fuel * PAGE_SIZE →
  ∃ r, check_pages fuel st root cursor fin access = Done r ∧ (r = inl tt ↔ ∀ va, cursor <= va < fin → may st root access va).
Proof.
  intros Hfin. revert cursor. induction fuel as [|fuel IH]; intros cursor Hal Hf.
  all: simpl; destruct (Z.leb_spec fin cursor); try (exists (inl tt); split; [done|]; split; [intros _ va ?; lia|done]).
  { lia. }
  assert (¬ may st root access cursor → ¬ ∀ va, cursor <= va < fin → may st root access va) as Hno.
  { intros Hn Hall. apply Hn, Hall. lia. }
  rewrite may_desc in Hno. unfold query_user_mapping.
  destruct (lookup_user_page_desc st root cursor) as [d|] eqn:Hd; simpl;
    [|exists (inr CopyNotMapped); split; [done|]; split; [done|]; intros Hall; exfalso; apply Hno in Hall; [done|]; by intros (? & ? & _)].
  pose proof (info_perm d cursor access) as Hp. destruct (check_mapping (user_mapping_info_from_desc d cursor) access) as [[]|e].
  - assert (may st root access cursor) as Hc by (apply may_desc; exists d; split; [done|by apply Hp]).
    unfold u64_checked_add. replace (cursor + PAGE_SIZE <=? u64_max) with true by (unfold PAGE_SIZE, USER_STACK_TOP, u64_max in *; lia).
    destruct (IH (cursor + PAGE_SIZE)) as (r & Hr & Hiff).
    { rewrite <-Hal. replace (cursor + PAGE_SIZE) with (cursor + 1 * PAGE_SIZE) by lia. by apply Z.mod_add. }
    { lia. }
    exists r. split; [done|]. rewrite Hiff. split; [|intros Hall va ?; apply Hall; unfold PAGE_SIZE in *; lia].
    intros Hall va Hva. destruct (decide (va < cursor + PAGE_SIZE)); [|apply Hall; lia].
    apply (may_same_page _ _ _ cursor); [|done]. symmetry. apply page_eq_iff; [done|lia].
  - exists (inr e). split; [done|]. split; [done|]. intros Hall. exfalso. apply Hno in Hall; [done|].
    intros (d' & [= <-] & Hp'). apply Hp in Hp'. done.
Qed.

Section access.
Context (hw_translate : gmap Z Z → Z → Z → option Z) (at_s1e0r : gmap Z Z → Z → Z → bool) (current : option AddressSpaceId).
(** The memory management unit walks the tables; the instruction [AT S1E0R]
    tells whether a user read is permitted. *)
Hypothesis Hhw : ∀ st root va, hw_translate st root va = translate_user_va st root va.
Hypothesis Hat : ∀ st root va, at_s1e0r st root va = true ↔ may st root AccessRead va.

(** The root in use is the current address space's. *)
Definition installed (m : Mmu) : Prop := ∀ a, current = Some a → root_pa a = ttbr0_root m.

(** Validation accepts exactly the ranges of which the user may access every
    byte. *)
Lemma validate_spec m ptr len access :
  installed m → 0 <= ptr <= u64_max → 0 <= len →
  ∃ r, validate_user_range_unbounded at_s1e0r current m ptr len access = Done r ∧
    (r = inl tt ↔ 0 < len ∧ is_Some current ∧ ∀ va, ptr <= va < ptr + len → accessible m access va).
Proof.
  intros Hin Hptr Hlen. unfold validate_user_range_unbounded, u64_checked_add.
  destruct (Z.eqb_spec len 0); [eexists; split; [done|]; split; [done|lia]|].
  assert (¬ (USER_TEXT_BASE <= ptr ∧ ptr + len <= USER_STACK_TOP) →
          ¬ (0 < len ∧ is_Some current ∧ ∀ va, ptr <= va < ptr + len → accessible m access va)) as Hout.
  { intros Hn (_ & _ & Hall). destruct (Hall ptr) as [[? _] _]; [lia|]. destruct (Hall (ptr + len - 1)) as [[_ ?] _]; lia. }
  assert (USER_STACK_TOP <= u64_max) as Hu by (unfold USER_STACK_TOP, u64_max; lia).
  destruct (Z.leb_spec (ptr + len) u64_max); [|eexists; split; [done|]; split; [done|]; intros; exfalso; apply Hout; [lia|done]].
  destruct ((ptr <? USER_TEXT_BASE) || (USER_STACK_TOP <? ptr + len) || (ptr + len <=? ptr)) eqn:Hw.
  { eexists. split; [done|]. split; [done|]. intros Hall. exfalso. apply Hout; [lia|done]. }
  assert (USER_TEXT_BASE <= ptr ∧ ptr + len <= USER_STACK_TOP) as [Hlo Hhi] by lia. clear Hw Hout.
  destruct (align_down_spec ptr) as [Hal Hab]. set (c := align_down ptr PAGE_SIZE) in *.
  assert (∀ va, ptr <= va < ptr + len → in_window va) as Hwin by (unfold in_window; lia).
  assert ((∀ va, c <= va < ptr + len → may (memory m) (ttbr0_root m) access va)
          ↔ ∀ va, ptr <= va < ptr + len → accessible m access va) as Hpages.
  { split; intros Hall va Hva; [split; [by apply Hwin|apply Hall; lia]|].
    destruct (decide (ptr <= va)); [apply Hall; lia|]. destruct (Hall ptr) as [_ Hm]; [lia|].
    apply (may_same_page _ _ _ ptr); [|done]. apply (same_page_at c); [done|lia|lia]. }
  destruct (bool_decide (access = AccessRead) && (c =? align_down (ptr + len - 1) PAGE_SIZE)) eqn:Hone.
  - apply andb_true_iff in Hone as [->%bool_decide_eq_true_1 Hc%Z.eqb_eq]. destruct (align_down_spec (ptr + len - 1)) as [_ Hlast].
    rewrite <-Hc in Hlast. eexists. split; [done|]. unfold current_user_page_readable.
    rewrite <-Hpages. destruct (bool_decide_reflect (is_Some current)) as [Hcur|Hcur]; simpl; [|split; [done|tauto]].
    pose proof (Hat (memory m) (ttbr0_root m) ptr) as Hr. destruct (at_s1e0r _ _ ptr); (split; [|done || intros (_ & _ & Hall)]).
    + intros _. split_and!; [lia|done|]. intros va Hva. apply (may_same_page _ _ _ ptr); [|by apply Hr].
      apply (same_page_at c); [done|lia|lia].
    + done.
    + exfalso. assert (false = true) as [=]. apply Hr, Hall. lia.
  - destruct current as [a|] eqn:Hcur; [|eexists; split; [done|]; split; [done|]; by intros (_ & [? ?] & _)].
    rewrite (Hin a Hcur).
    destruct (check_pages_spec (memory m) (ttbr0_root m) access (ptr + len) (S (Z.to_nat ((ptr + len - c) / PAGE_SIZE))) c Hhi Hal) as (r & Hr & Hiff).
    { pose proof (Z.div_mod (ptr + len - c) PAGE_SIZE ltac:(done)). pose proof (Z.mod_pos_bound (ptr + len - c) PAGE_SIZE ltac:(done)).
      rewrite Nat2Z.inj_succ, Z2Nat.id by (apply Z.div_pos; [lia|done]). lia. }
    exists r. split; [done|]. rewrite Hiff, Hpages. split; [|tauto]. intros Hall. split_and!; [lia|by eexists|done].
Qed.

(** ** Copies *)

Definition user_pas (m : Mmu) (va : Z) (n : nat) : list Z :=
  (λ k, default 0 (translate_user_va (memory m) (ttbr0_root m) (va + Z.of_nat k))) <$> seq 0 n.

Lemma user_tr_eq m va : user_tr hw_translate m va = translate_user_va (memory m) (ttbr0_root m) va.
Proof. apply Hhw. Qed.

Lemma user_tr_wordwise m : wordwise (user_tr hw_translate m).
Proof.
  intros va pa. rewrite user_tr_eq. intros H Hal. destruct (translate_wordwise _ _ _ _ H Hal) as [? Hk].
  split; [done|]. intros k ?. rewrite user_tr_eq. by apply Hk.
Qed.

(** Every byte of an accessible range has its physical address. *)
Lemma accessible_reaches m access va n :
  (∀ a, va <= a < va + Z.of_nat n → accessible m access a) → reaches (user_tr hw_translate m) va 0 n (user_pas m va n).
Proof.
  intros Hall. unfold reaches, user_pas. apply Forall2_fmap_r, Forall_Forall2_diag, Forall_forall. intros k Hk%elem_of_seq. unfold compose. rewrite user_tr_eq.
  destruct (Hall (va + Z.of_nat k)) as [_ Hm]; [lia|]. apply may_translates in Hm as [pa Hpa]. by rewrite Hpa.
Qed.

Lemma user_pas_lookup m access va n k :
  (∀ a, va <= a < va + Z.of_nat n → accessible m access a) → (k < n)%nat →
  ∃ pa, user_pas m va n !! k = Some pa ∧ translate_user_va (memory m) (ttbr0_root m) (va + Z.of_nat k) = Some pa.
Proof.
  intros Hall Hk. destruct (Hall (va + Z.of_nat k)) as [_ Hm]; [lia|]. apply may_translates in Hm as [pa Hpa]. exists pa.
  split; [|done]. unfold user_pas. rewrite list_lookup_fmap, lookup_seq_lt by done. simpl. by rewrite Hpa.
Qed.

Lemma user_byte_load m va pa :
  accessible m AccessRead va → translate_user_va (memory m) (ttbr0_root m) va = Some pa → user_byte m va = Some (load_byte (memory m) pa).
Proof.
  intros [Hw (i & Hi & Hp)] Htr. unfold user_byte. rewrite decide_True by done. unfold translate_user_va in Htr. rewrite Hi in *.
  simpl in *. rewrite Hp. congruence.
Qed.

Lemma read_accessible m va n :
  (∀ a, va <= a < va + Z.of_nat n → accessible m AccessRead a) →
  ∃ bytes, read_validated_user_bytes (user_tr hw_translate m) (memory m) n va = Done bytes ∧ length bytes = n ∧
    ∀ k, (k < n)%nat → bytes !! k = user_byte m (va + Z.of_nat k).
Proof.
  intros Hall. eexists. split; [apply (read_validated_spec _ _ (user_tr_wordwise m) _ _ _ (accessible_reaches _ _ _ _ Hall))|].
  unfold user_pas. split; [by rewrite !length_fmap, length_seq|]. intros k Hk. rewrite list_lookup_fmap.
  destruct (user_pas_lookup m AccessRead va n k Hall Hk) as (pa & Hpa & Htr). unfold user_pas in Hpa. rewrite Hpa. symmetry.
  apply user_byte_load; [apply Hall; lia|done].
Qed.

(** The length bound is reported by the bounded entry points only. *)
Lemma check_pages_not_large fuel st root cursor fin access e : check_pages fuel st root cursor fin access = Done (inr e) → e ≠ CopyTooLarge.
Proof.
  revert cursor. induction fuel as [|fuel IH]; intros cursor; cbn [check_pages]; (destruct (fin <=? cursor); [done|]); [done|].
  destruct (query_user_mapping _ _ _) as [i|]; [|by intros [= <-]]. unfold check_mapping.
  destruct (um_user i), access, (um_readable i), (um_writable i); cbn [negb]; try (by intros [= <-]); (destruct (u64_checked_add _ _); [apply IH|by intros [= <-]]).
Qed.

Lemma validate_not_large m ptr len access e : validate_user_range_unbounded at_s1e0r current m ptr len access = Done (inr e) → e ≠ CopyTooLarge.
Proof.
  unfold validate_user_range_unbounded. destruct (len =? 0); [by intros [= <-]|]. destruct (u64_checked_add _ _); [|by intros [= <-]].
  destruct (_ || _); [by intros [= <-]|]. destruct (_ && _); [destruct (current_user_page_readable _ _ _ _); by intros [= <-]|].
  destruct current; [apply check_pages_not_large|by intros [= <-]].
Qed.

Lemma copy_from_user_spec m va n :
  installed m → 0 <= va <= u64_max →
  ∃ r, copy_from_user hw_translate at_s1e0r current n va m = Done (r, m) ∧
    match r with
    | inl bytes => (n = 0%nat ∨ Z.of_nat n <= MAX_USER_COPY ∧ is_Some current) ∧
        length bytes = n ∧ ∀ k, (k < n)%nat → bytes !! k = user_byte m (va + Z.of_nat k)
    | inr e => n ≠ 0%nat ∧ (e = CopyTooLarge ↔ MAX_USER_COPY < Z.of_nat n) ∧
        ¬ (Z.of_nat n <= MAX_USER_COPY ∧ is_Some current ∧ ∀ k, (k < n)%nat → is_Some (user_byte m (va + Z.of_nat k)))
    end.
Proof.
  intros Hin Hva. unfold copy_from_user. destruct (decide (n = 0%nat)) as [->|Hn]; [exists (inl []); split; [done|]; split_and!; [by left|done|lia]|].
  unfold validate_user_read_range, validate_user_range, try_bind, mbind, M_bind, reads.
  destruct (Z.eqb_spec (Z.of_nat n) 0); [lia|]. destruct (Z.ltb_spec MAX_USER_COPY (Z.of_nat n)); [exists (inr CopyTooLarge); split; [done|split_and!; [done|done|lia]]|].
  destruct (validate_spec m va (Z.of_nat n) AccessRead Hin Hva) as (r & Hr & Hiff); [lia|]. rewrite Hr.
  destruct r as [[]|e].
  - destruct (proj1 Hiff eq_refl) as (_ & Hc & Hall). destruct (read_accessible m va n Hall) as (bytes & Hb & Hs).
    exists (inl bytes). split; [by rewrite Hb|]. split; [by right|done].
  - exists (inr e). split; [done|]. split; [done|]. apply validate_not_large in Hr. split; [split; [done|lia]|]. intros (_ & Hc & Hall). assert (inr e = inl tt) as [=]. apply Hiff. split_and!; [lia|done|].
    intros a Ha. apply user_byte_accessible. specialize (Hall (Z.to_nat (a - va))). replace (va + Z.of_nat (Z.to_nat (a - va))) with a in Hall by lia.
    apply Hall. lia.
Qed.

Lemma write_accessible m va src :
  (∀ a, va <= a < va + Z.of_nat (length src) → accessible m AccessWrite a) → Forall is_byte src →
  write_validated_user_bytes (user_tr hw_translate m) va src (memory m) = Done (store_at (memory m) (user_pas m va (length src)) src).
Proof. intros Hall Hb. by apply write_validated_spec; [apply user_tr_wordwise|eapply accessible_reaches|]. Qed.

Lemma copy_to_user_spec m va src :
  installed m → 0 <= va <= u64_max → Forall is_byte src →
  ∃ r m', copy_to_user hw_translate at_s1e0r current va src m = Done (r, m') ∧
    match r with
    | inl _ => (∀ a, va <= a < va + Z.of_nat (length src) → accessible m AccessWrite a) ∧ Z.of_nat (length src) <= MAX_USER_COPY ∧
        (src = [] ∨ is_Some current) ∧
        m' = set_memory (λ _, store_at (memory m) (user_pas m va (length src)) src) m
    | inr e => m' = m ∧ src ≠ [] ∧ (e = CopyTooLarge ↔ MAX_USER_COPY < Z.of_nat (length src)) ∧
        ¬ (Z.of_nat (length src) <= MAX_USER_COPY ∧ is_Some current ∧
                           ∀ k, (k < length src)%nat → accessible m AccessWrite (va + Z.of_nat k))
    end.
Proof.
  intros Hin Hva Hb. unfold copy_to_user. destruct (decide (src = [])) as [->|Hn].
  { exists (inl tt), m. split; [done|]. split_and!; [simpl; lia|done|by left|]. by destruct m as [[? [] ? ?] ? ?]. }
  assert (0 < Z.of_nat (length src)) as Hpos by (destruct src; [done|simpl; lia]).
  unfold try_bind, mbind, M_bind, reads. destruct (Z.ltb_spec MAX_USER_COPY (Z.of_nat (length src))).
  { exists (inr CopyTooLarge), m. split; [done|]. split_and!; [done|done|done|lia]. }
  destruct (validate_spec m va (Z.of_nat (length src)) AccessWrite Hin Hva) as (r & Hr & Hiff); [lia|]. rewrite Hr.
  destruct r as [[]|e].
  - destruct (proj1 Hiff eq_refl) as (_ & Hc & Hall). exists (inl tt). eexists. split; [|split_and!; [done|done|by right|reflexivity]].
    unfold on_memory. by rewrite (write_accessible m va src Hall Hb).
  - exists (inr e), m. split; [done|]. split; [done|]. split; [done|]. apply validate_not_large in Hr. split; [split; [done|lia]|]. intros (_ & Hc & Hall). assert (inr e = inl tt) as [=]. apply Hiff. split_and!; [lia|done|].
    intros a Ha. specialize (Hall (Z.to_nat (a - va))). replace (va + Z.of_nat (Z.to_nat (a - va))) with a in Hall by lia.
    apply Hall. lia.
Qed.
End access.
