(* ===== verification/UserSafety.v ===== *)
(** * The user-memory claims

    What system calls rely on when they move data across the user boundary:
    a copy moves exactly the validated bytes and nothing else, what was copied
    out reads back and leaves every page table as it was, and the scan for a C
    string ends with the string or with the reason there is none. *)

From stdpp Require Import gmap.
From S2P Require Import Prelude Types Vm MemMap MemMapSpec FrameAlloc FrameSpec PageTable PageTableSpec PhysMem UserCopy UserAccess AddressSpace SpaceSafety.
#[local] Open Scope Z_scope.

(** ** Strings *)

Lemma in_window_same_page va va' : va / PAGE_SIZE = va' / PAGE_SIZE → in_window va → in_window va'.
Proof.
  unfold in_window. intros H. change USER_TEXT_BASE with (0x4000000 * PAGE_SIZE). change USER_STACK_TOP with (0x8000000 * PAGE_SIZE).
  unfold PAGE_SIZE in *. pose proof (Z.div_mod va 4096). pose proof (Z.div_mod va' 4096).
  pose proof (Z.mod_pos_bound va 4096). pose proof (Z.mod_pos_bound va' 4096). lia.
Qed.

Lemma accessible_same_page m access va va' : va / PAGE_SIZE = va' / PAGE_SIZE → accessible m access va → accessible m access va'.
Proof. intros H [Hw Hm]. split; [by eapply in_window_same_page|by eapply may_same_page]. Qed.

(** The errors of validation are about the range. *)
Definition range_error (e : UserCopyError) : Prop := e ≠ CopyNameTooLong ∧ e ≠ CopyOutOfMemory.

Lemma check_pages_error fuel st root cursor fin access e :
  check_pages fuel st root cursor fin access = Done (inr e) → range_error e.
Proof.
  revert cursor. induction fuel as [|fuel IH]; intros cursor; simpl; [by destruct (fin <=? cursor)|].
  destruct (fin <=? cursor); [done|]. destruct (query_user_mapping st root cursor) as [i|]; [|by intros [= <-]].
  unfold check_mapping. destruct (um_user i); simpl; [|by intros [= <-]].
  destruct access; [destruct (um_readable i)|destruct (um_writable i)]; try (by intros [= <-]).
  all: destruct (u64_checked_add cursor PAGE_SIZE); [apply IH|by intros [= <-]].
Qed.

Lemma validate_error at_s1e0r current m ptr len access e :
  validate_user_range_unbounded at_s1e0r current m ptr len access = Done (inr e) → range_error e.
Proof.
  unfold validate_user_range_unbounded. destruct (len =? 0); [by intros [= <-]|].
  destruct (u64_checked_add ptr len) as [fin|]; [|by intros [= <-]]. destruct (_ || _ || _); [by intros [= <-]|].
  destruct (_ && _); [destruct (current_user_page_readable _ _ _ _); [done|by intros [= <-]]|].
  destruct current; [apply check_pages_error|by intros [= <-]].
Qed.

Section cstr.
Context (hw_translate : gmap Z Z → Z → Z → option Z) (at_s1e0r : gmap Z Z → Z → Z → bool) (current : option AddressSpaceId) (granted : nat → bool).
Hypothesis Hhw : ∀ st root va, hw_translate st root va = translate_user_va st root va.
Hypothesis Hat : ∀ st root va, at_s1e0r st root va = true ↔ may st root AccessRead va.
Context (m : Mmu) (ptr : Z) (max_len : nat).
Hypothesis Hin : installed current m.
Hypothesis Hptr : 0 <= ptr <= u64_max.

(** The bytes read so far: those at [ptr], none of them NUL. *)
Definition scanned_bytes (s : list Z) : Prop :=
  ∀ k x, s !! k = Some x → x ≠ 0 ∧ user_byte m (ptr + Z.of_nat k) = Some x.

(** No NUL within the bound. *)
Definition no_nul (n : nat) : Prop := ∀ k, (k < n)%nat → ∃ b, user_byte m (ptr + Z.of_nat k) = Some b ∧ b ≠ 0.

(** What the scan tells of user memory. *)
Definition cstr_result (r : list Z + UserCopyError) : Prop :=
  match r with
  | inl s => (length s ≤ max_len)%nat ∧ (0 ∉ s) ∧
      ∀ k, (k ≤ length s)%nat → user_byte m (ptr + Z.of_nat k) = (s ++ [0]) !! k
  | inr CopyNameTooLong => no_nul (S max_len)
  | inr CopyOutOfMemory => ∃ n, granted n = false
  | inr _ => current = None ∨ ∃ k, (k ≤ max_len)%nat ∧ no_nul k ∧ user_byte m (ptr + Z.of_nat k) = None
  end.

Lemma scanned_bytes_snoc s b : scanned_bytes s → b ≠ 0 → user_byte m (ptr + Z.of_nat (length s)) = Some b → scanned_bytes (s ++ [b]).
Proof.
  intros Hs Hb Hu k x [Hk|(Hge & Hk)]%lookup_app_Some; [by apply Hs|].
  apply list_lookup_singleton_Some in Hk as [Hk <-]. by replace k with (length s) by lia.
Qed.

Lemma scanned_no_nul s : scanned_bytes s → no_nul (length s).
Proof. intros Hs k Hk. apply lookup_lt_is_Some_2 in Hk as [x Hx]. destruct (Hs k x Hx). eauto. Qed.

Lemma no_nul_S n b : no_nul n → user_byte m (ptr + Z.of_nat n) = Some b → b ≠ 0 → no_nul (S n).
Proof. intros Hn Hb Hne k Hk. destruct (decide (k = n)) as [->|]; [eauto|apply Hn; lia]. Qed.

Lemma found_result s : scanned_bytes s → (length s ≤ max_len)%nat → user_byte m (ptr + Z.of_nat (length s)) = Some 0 → cstr_result (inl s).
Proof.
  intros Hs Hl H0. split_and!; [done| |].
  - intros (k & Hk)%list_elem_of_lookup. by destruct (Hs k 0 Hk).
  - intros k Hk. destruct (decide (k = length s)) as [->|Hne]; [by rewrite lookup_app_r, Nat.sub_diag by lia|].
    rewrite lookup_app_l by lia. destruct (lookup_lt_is_Some_2 s k) as [x Hx]; [lia|]. rewrite Hx. by apply Hs.
Qed.

Lemma scan_chunk_spec n path cap :
  scanned_bytes path → (length path ≤ max_len)%nat → (length path + n ≤ S max_len)%nat →
  (∀ a, ptr + Z.of_nat (length path) <= a < ptr + Z.of_nat (length path + n) → accessible m AccessRead a) →
  ∃ r, scan_chunk granted (user_tr hw_translate m) (memory m) max_len (ptr + Z.of_nat (length path)) n path cap = Done r ∧
    match r with
    | inl (inl (p, _)) => scanned_bytes p ∧ length p = (length path + n)%nat ∧ (length p ≤ max_len)%nat
    | inl (inr s) => cstr_result (inl s)
    | inr e => cstr_result (inr e)
    end.
Proof.
  revert path cap. induction n as [|n IH]; intros path cap Hs Hl Hn Hall; simpl.
  { eexists. split; [done|]. simpl. split_and!; [done|lia|done]. }
  destruct (Hall (ptr + Z.of_nat (length path))) as [Hw Hm]; [lia|]. destruct (may_translates _ _ _ _ Hm) as [pa Hpa].
  unfold user_pa. rewrite (user_tr_eq _ Hhw), Hpa. cbn [expect_o]. rewrite done_bind.
  pose proof (user_byte_load m _ pa (conj Hw Hm) Hpa) as Hb. set (b := load_byte (memory m) pa) in *.
  destruct (Z.eqb_spec b 0) as [E|Hb0]; [rewrite E in Hb; eexists; split; [done|by apply found_result]|].
  destruct (decide (length path = max_len)) as [He|He].
  { eexists. split; [done|]. simpl. rewrite <-He. eapply no_nul_S; [by apply scanned_no_nul|done|done]. }
  destruct (granted (length path)) eqn:Hg.
  2: destruct (bool_decide (length path = cap)); [eexists; split; [done|]; simpl; eauto|].
  all: rewrite ?andb_false_r; cbn [negb andb].
  all: specialize (IH (path ++ [b]) (if decide (length path = cap) then (cap + Nat.min (max_len - length path) 64)%nat else cap)).
  all: rewrite length_app in IH; simpl in IH; replace (ptr + Z.of_nat (length path + 1)) with (ptr + Z.of_nat (length path) + 1) in IH by lia.
  all: destruct IH as (r & Hr & Hres); [by apply scanned_bytes_snoc|lia|lia|intros a Ha; apply Hall; lia|].
  all: exists r; split; [exact Hr|]; destruct r as [[[p c]|s]|e]; [|done..].
  all: destruct Hres as (? & ? & ?); split_and!; [done|lia|done].
Qed.

Lemma page_error e k :
  e ≠ CopyNameTooLong → e ≠ CopyOutOfMemory → (k ≤ max_len)%nat → no_nul k →
  (is_Some current → ¬ accessible m AccessRead (ptr + Z.of_nat k)) → cstr_result (inr e).
Proof.
  intros H1 H2 Hk Hn Ha. assert (current = None ∨ ∃ k, (k ≤ max_len)%nat ∧ no_nul k ∧ user_byte m (ptr + Z.of_nat k) = None) as H.
  { destruct current as [c|]; [right|by left]. exists k. split_and!; [done|done|]. apply eq_None_not_Some. rewrite user_byte_accessible. by apply Ha. }
  by destruct e.
Qed.

Lemma scan_pages_spec fuel path cap :
  scanned_bytes path → (length path ≤ max_len)%nat → (max_len - length path < fuel)%nat → 0 <= ptr + Z.of_nat (length path) <= u64_max →
  ∃ r, scan_pages hw_translate at_s1e0r current granted fuel m max_len (ptr + Z.of_nat (length path)) (length path) path cap = Done r ∧ cstr_result r.
Proof.
  revert path cap. induction fuel as [|fuel IH]; intros path cap Hs Hl Hf Hc; [lia|]. simpl. rewrite decide_False by lia.
  set (cur := ptr + Z.of_nat (length path)) in *. destruct (align_down_spec cur) as [Hal Hab].
  unfold u64_checked_add at 1. destruct (Z.leb_spec (align_down cur PAGE_SIZE + PAGE_SIZE) u64_max).
  2: { exists (inr CopyAddressOverflow). split; [done|]. apply (page_error _ (length path)); [done..|by apply scanned_no_nul|].
       intros _ [[_ Hw] _]. unfold cur, USER_STACK_TOP, u64_max, PAGE_SIZE in *. lia. }
  set (pend := align_down cur PAGE_SIZE + PAGE_SIZE) in *.
  set (n := Nat.min (Z.to_nat (u64_saturating_sub pend cur)) (max_len + 1 - length path)).
  assert ((0 < n)%nat ∧ (length path + n ≤ S max_len)%nat ∧ Z.of_nat n <= pend - cur) as (Hn0 & Hn & Hnp) by (unfold n, u64_saturating_sub; lia).
  destruct (validate_spec at_s1e0r current Hat m cur (Z.of_nat n) AccessRead Hin Hc) as (v & Hv & Hiff); [lia|].
  rewrite Hv, done_bind. destruct v as [[]|e].
  - destruct (proj1 Hiff eq_refl) as (_ & _ & Hall).
    assert (cur + Z.of_nat n <= u64_max) as Hfit by (unfold pend in *; lia).
    destruct (scan_chunk_spec n path cap Hs Hl Hn) as (r & Hr & Hres); [intros a Ha; apply Hall; unfold cur; lia|].
    fold cur in Hr. rewrite Hr, done_bind. destruct r as [[[p c]|s]|e]; [|by eexists..]. destruct Hres as (Hp & Hpl & Hpm).
    unfold u64_checked_add. destruct (Z.leb_spec (cur + Z.of_nat n) u64_max); [|lia].
    destruct (IH p c Hp Hpm) as (r & Hr' & Hres'); [lia|unfold cur in *; lia|]. exists r. split; [|done].
    rewrite <-Hr', Hpl. f_equal. unfold cur. lia.
  - destruct (validate_error _ _ _ _ _ _ _ Hv) as [He1 He2]. exists (inr e). split; [done|].
    apply (page_error _ (length path)); [done..|by apply scanned_no_nul|]. intros Hcur Ha. assert (inr e = inl tt) as [=].
    apply Hiff. split_and!; [lia|done|]. intros a Har. apply (accessible_same_page _ _ cur); [|done].
    apply (same_page_at (align_down cur PAGE_SIZE)); [done|lia|]. unfold pend in *. lia.
Qed.

Lemma cstr_scan_spec :
  ∃ r, copy_cstr_from_user hw_translate at_s1e0r current granted ptr max_len m = Done (r, m) ∧ cstr_result r.
Proof.
  destruct (scan_pages_spec (S (S max_len)) [] 0) as (r & Hr & Hres); [done|simpl; lia|simpl; lia|simpl; lia|].
  exists r. split; [|done]. change (length (@nil Z)) with 0%nat in Hr. rewrite Z.add_0_r in Hr. unfold copy_cstr_from_user, reads. by rewrite Hr.
Qed.
End cstr.

(** ** What was stored *)

(** The bytes of memory after a copy, by their user addresses. *)
Lemma stored_bytes m access va src :
  (∀ a, va <= a < va + Z.of_nat (length src) → accessible m access a) → Forall is_byte src →
  let tr k := translate_user_va (memory m) (ttbr0_root m) (va + Z.of_nat k) in
  let st := store_at (memory m) (user_pas m va (length src)) src in
  (∀ pa, (∀ k, (k < length src)%nat → tr k ≠ Some pa) → load_byte st pa = load_byte (memory m) pa) ∧
  (∀ k pa x, src !! k = Some x → tr k = Some pa → (∀ j, (k < j < length src)%nat → tr j ≠ Some pa) → load_byte st pa = x).
Proof.
  intros Hall Hb tr st. assert (length (user_pas m va (length src)) = length src) as Hlen by (unfold user_pas; by rewrite length_fmap, length_seq).
  assert (∀ j pa, user_pas m va (length src) !! j = Some pa → (j < length src)%nat ∧ tr j = Some pa) as Hpas.
  { intros j pa Hj. assert (j < length src)%nat as Hlt by (rewrite <-Hlen; by eapply lookup_lt_Some). split; [done|].
    destruct (user_pas_lookup m access va (length src) j Hall Hlt) as (pa' & Hj' & Ht). unfold tr. congruence. }
  split.
  - intros pa Hn. apply load_store_at; [done..|]. intros (j & Hj)%list_elem_of_lookup. destruct (Hpas j pa Hj). by apply (Hn j).
  - intros k pa x Hx Hk Hlast. destruct (load_store_at (memory m) (user_pas m va (length src)) src pa Hlen Hb) as [_ H].
    assert (k < length src)%nat as Hlt by (by eapply lookup_lt_Some). apply (H k x); [|done|].
    + destruct (user_pas_lookup m access va (length src) k Hall Hlt) as (pa' & Hj' & Ht). unfold tr in Hk. congruence.
    + intros j Hj Hj'. destruct (Hpas j pa Hj') as [? ?]. by apply (Hlast j).
Qed.

Lemma word_addr_page pa : align_down (word_addr pa) PAGE_SIZE = align_down pa PAGE_SIZE.
Proof.
  destruct (align_down_spec pa) as [Hal Hab]. set (c := align_down pa PAGE_SIZE) in *.
  assert (c <= word_addr pa) as Hlo.
  { unfold word_addr, page_aligned, PAGE_SIZE in *. pose proof (Z.div_mod pa 8). pose proof (Z.mod_pos_bound pa 8).
    pose proof (Z.div_mod c 4096). lia. }
  assert (word_addr pa <= pa) as Hhi by (unfold word_addr; pose proof (Z.mod_pos_bound pa 8); lia).
  unfold c, align_down. simpl. f_equal. apply (same_page_at c); [done|lia|lia].
Qed.

(** A copy to pages that are not tables leaves the tables alone. *)
Lemma stored_outside m live pool va src :
  machine_ok m live pool → (∀ a, va <= a < va + Z.of_nat (length src) → accessible m AccessWrite a) →
  (∀ k pa, (k < length src)%nat → translate_user_va (memory m) (ttbr0_root m) (va + Z.of_nat k) = Some pa → align_down pa PAGE_SIZE ∉ pool) →
  let st := store_at (memory m) (user_pas m va (length src)) src in
  machine_ok (set_memory (λ _, st) m) live pool ∧ ∀ r a, r ∈ live → query_user_mapping st r a = query_user_mapping (memory m) r a.
Proof.
  intros Hok Hall Hout st. apply machine_outside; [done|]. intros y Hy. apply store_at_word. intros pa (k & Hk)%list_elem_of_lookup <-.
  rewrite word_addr_page in Hy. assert (k < length src)%nat as Hlt.
  { apply lookup_lt_Some in Hk. unfold user_pas in Hk. by rewrite length_fmap, length_seq in Hk. }
  destruct (user_pas_lookup m AccessWrite va (length src) k Hall Hlt) as (pa' & Hk' & Htr). rewrite Hk in Hk'. injection Hk' as <-.
  by apply (Hout k pa).
Qed.

(** ** A machine to copy on *)

(** The instruction as the tables define it. *)
Definition at_tables (st : gmap Z Z) (root va : Z) : bool :=
  match query_user_mapping st root va with Some i => um_readable i | None => false end.

Lemma at_tables_may st root va : at_tables st root va = true ↔ may st root AccessRead va.
Proof.
  unfold at_tables, may. destruct (query_user_mapping st root va) as [i|]; split; [by exists i|by intros (? & [= <-] & ?)|done|by intros (? & ? & _)].
Qed.

(** Two writable pages at the bottom of the user window, apart in memory. *)
Definition page_one : Mmu := state_after (map_user_page first_root USER_TEXT_BASE 0x48000000 USER_WRITE one_space) one_space.
Definition page_two : Mmu := state_after (map_user_page first_root (USER_TEXT_BASE + PAGE_SIZE) 0x48005000 USER_WRITE page_one) page_one.
Definition user_machine : Mmu := mkMmu (mm_rt page_two) (mm_runtime_tables_active page_two) first_root.
Definition user_current : option AddressSpaceId := Some (mkAddressSpaceId first_root 1).

Lemma mapped_machine_ok m r va pa flags m' :
  machine_ok m {[first_root]} (list_to_set space_frames) → value_of (map_user_page r va pa flags m) = Some (inl tt) →
  m' = state_after (map_user_page r va pa flags m) m → r = first_root → 0 <= va → page_frame pa →
  machine_ok m' {[first_root]} (list_to_set space_frames).
Proof.
  intros Hm Hv -> -> Hva Hpa. pose proof (wp_result _ _ _ _ _ (map_page_machine m _ _ first_root va pa flags Hm ltac:(by apply elem_of_singleton) Hva Hpa)
    (value_state _ _ m Hv)) as [H _]. exact H.
Qed.

(** The tables do not depend on the root in use. *)
Lemma machine_any_root m live pool root :
  machine_ok m live pool → machine_ok (mkMmu (mm_rt m) (mm_runtime_tables_active m) root) live pool.
Proof. intros (T & l & [H1 H2 H3 H4 H5 H6 H7] & Hl). exists T, l. split; [by split|done]. Qed.

Lemma user_machine_ok : machine_ok user_machine {[first_root]} (list_to_set space_frames).
Proof.
  apply machine_any_root, (mapped_machine_ok page_one first_root (USER_TEXT_BASE + PAGE_SIZE) 0x48005000 USER_WRITE);
    [|vm_compute; reflexivity|reflexivity|reflexivity|vm_compute; discriminate|vm_compute; repeat split; congruence].
  apply (mapped_machine_ok one_space first_root USER_TEXT_BASE 0x48000000 USER_WRITE);
    [apply one_space_ok|vm_compute; reflexivity|reflexivity|reflexivity|vm_compute; discriminate|vm_compute; repeat split; congruence].
Qed.

Lemma user_machine_installed : installed user_current user_machine.
Proof. intros a [= <-]. vm_compute. reflexivity. Qed.

(** ** The claims *)

(** C40: scanning for a C string always returns, whatever memory holds.  The
    result is the bytes at the address up to the first NUL, at most [max_len]
    of them; or [NameTooLong], and then the first [max_len + 1] bytes are all
    readable and none is NUL; or [OutOfMemory], and then the heap refused to
    grow the buffer; or a range error, and then there is no current address
    space, or some byte within the bound, before any NUL, is not readable by
    the user.  The scan changes nothing. *)
Theorem cstr_scan_terminates hw_translate at_s1e0r current granted m ptr max_len :
  (∀ st root va, hw_translate st root va = translate_user_va st root va) →
  (∀ st root va, at_s1e0r st root va = true ↔ may st root AccessRead va) →
  installed current m → 0 <= ptr <= u64_max →
  ∃ r, copy_cstr_from_user hw_translate at_s1e0r current granted ptr max_len m = Done (r, m) ∧
    cstr_result current granted m ptr max_len r.
Proof. intros Hhw Hat Hin Hptr. by apply cstr_scan_spec. Qed.

(** A string across the two pages. *)
Definition string_va : Z := USER_TEXT_BASE + PAGE_SIZE - 3.
Definition string_bytes : list Z := [47; 105; 110; 105; 116].
Definition string_machine : Mmu :=
  state_after (copy_to_user translate_user_va at_tables user_current string_va (string_bytes ++ [0]) user_machine) user_machine.

Lemma cstr_scan_terminates_witness :
  ∃ r, copy_cstr_from_user translate_user_va at_tables user_current (λ _, true) string_va 8 string_machine = Done (r, string_machine) ∧
    r = inl string_bytes.
Proof.
  destruct (cstr_scan_terminates translate_user_va at_tables user_current (λ _, true) string_machine string_va 8) as (r & Hr & _).
  - reflexivity.
  - exact at_tables_may.
  - intros a [= <-]. vm_compute. reflexivity.
  - split; vm_compute; discriminate.
  - exists r. split; [exact Hr|].
    assert (value_of (copy_cstr_from_user translate_user_va at_tables user_current (λ _, true) string_va 8 string_machine)
            = Some (inl string_bytes)) as E by (vm_compute; reflexivity).
    rewrite Hr in E. by injection E.
Defined.

(** C38: a copy moves exactly the bytes it was asked for.  An empty copy does
    nothing and succeeds.  Any other copy succeeds exactly when its length is
    within [MAX_USER_COPY], the CPU has a current address space and the user may
    read (copying in) or write (copying out) every byte of the range; it fails
    with [CopyTooLarge] exactly when the length exceeds the bound, and a failure
    changes nothing.  Copying from the user returns the bytes the user reads at
    those addresses.  Copying to the user stores each byte at the physical
    address its user address translates to, and changes no other byte and
    nothing else of the machine.  Neither ever panics or faults. *)
Theorem user_copy_exact hw_translate at_s1e0r current m va len src :
  (∀ st root va, hw_translate st root va = translate_user_va st root va) →
  (∀ st root va, at_s1e0r st root va = true ↔ may st root AccessRead va) →
  installed current m → 0 <= va <= u64_max → Forall is_byte src →
  let tr k := translate_user_va (memory m) (ttbr0_root m) (va + Z.of_nat k) in
  let readable := Z.of_nat len <= MAX_USER_COPY ∧ is_Some current ∧ ∀ k, (k < len)%nat → is_Some (user_byte m (va + Z.of_nat k)) in
  let writable := Z.of_nat (length src) <= MAX_USER_COPY ∧ is_Some current ∧ ∀ k, (k < length src)%nat → accessible m AccessWrite (va + Z.of_nat k) in
  (∃ r, copy_from_user hw_translate at_s1e0r current len va m = Done (r, m) ∧
     match r with
     | inl bytes => (len = 0%nat ∨ readable) ∧ length bytes = len ∧ ∀ k, (k < len)%nat → bytes !! k = user_byte m (va + Z.of_nat k)
     | inr e => len ≠ 0%nat ∧ ¬ readable ∧ (e = CopyTooLarge ↔ MAX_USER_COPY < Z.of_nat len)
     end) ∧
  (∃ r m', copy_to_user hw_translate at_s1e0r current va src m = Done (r, m') ∧ m' = set_memory (λ _, memory m') m ∧
     match r with
     | inl _ => (src = [] ∨ writable) ∧
         (∀ pa, (∀ k, (k < length src)%nat → tr k ≠ Some pa) → load_byte (memory m') pa = load_byte (memory m) pa) ∧
         (∀ k pa x, src !! k = Some x → tr k = Some pa → (∀ j, (k < j < length src)%nat → tr j ≠ Some pa) → load_byte (memory m') pa = x)
     | inr e => m' = m ∧ src ≠ [] ∧ ¬ writable ∧ (e = CopyTooLarge ↔ MAX_USER_COPY < Z.of_nat (length src))
     end).
Proof.
  intros Hhw Hat Hin Hva Hb tr readable writable. split.
  - destruct (copy_from_user_spec _ _ _ Hhw Hat m va len Hin Hva) as (r & Hr & Hres). exists r. split; [done|]. destruct r as [bytes|e].
    + destruct Hres as (Hc & Hl & Hk). split; [|done]. destruct Hc as [->|[Hle Hcur]]; [by left|right]. split_and!; [done|done|].
      intros k Hk'. rewrite <-Hk by done. apply lookup_lt_is_Some_2. lia.
    + by destruct Hres as (? & ? & ?).
  - destruct (copy_to_user_spec _ _ _ Hhw Hat m va src Hin Hva Hb) as (r & m' & Hr & Hres). exists r, m'. split; [done|].
    destruct r as [[]|e]; [|destruct Hres as (-> & ? & ? & ?); split; [by destruct m as [[? [] ? ?] ? ?]|done]].
    destruct Hres as (Hall & Hle & Hc & ->). split; [done|].
    split; [destruct Hc as [->|Hc]; [by left|right; split_and!; [done|done|intros k Hk; apply Hall; lia]]|].
    destruct (stored_bytes m AccessWrite va src Hall Hb) as [H1 H2]. done.
Qed.

Definition witness_bytes : list Z := [1; 2; 3; 4; 5; 6; 7; 8; 9; 10; 11; 12; 13].

Lemma witness_bytes_ok : Forall is_byte witness_bytes.
Proof. repeat (constructor; [split; [discriminate|reflexivity]|]). constructor. Qed.

Definition witness_pas : list Z := Eval vm_compute in user_pas user_machine string_va 13.

Lemma witness_pas_eq : witness_pas = user_pas user_machine string_va 13.
Proof. vm_compute. reflexivity. Qed.

Lemma witness_pas_lookup k pa :
  (k < 13)%nat → translate_user_va (memory user_machine) (ttbr0_root user_machine) (string_va + Z.of_nat k) = Some pa →
  witness_pas !! k = Some pa.
Proof. intros Hk H. rewrite witness_pas_eq. unfold user_pas. rewrite list_lookup_fmap, lookup_seq_lt by exact Hk. cbn. by rewrite H. Qed.

Lemma witness_pas_apart : NoDup witness_pas.
Proof. apply (bool_decide_unpack _). vm_compute. exact I. Qed.

Lemma witness_pas_outside : Forall (λ pa, align_down pa PAGE_SIZE ∉ space_frames) witness_pas.
Proof. apply (bool_decide_unpack _). vm_compute. exact I. Qed.

(** Two bytes of the range have one physical address only when they are the
    same byte. *)
Lemma witness_pas_inj j k pa :
  (j < 13)%nat → (k < 13)%nat → translate_user_va (memory user_machine) (ttbr0_root user_machine) (string_va + Z.of_nat j) = Some pa →
  translate_user_va (memory user_machine) (ttbr0_root user_machine) (string_va + Z.of_nat k) = Some pa → j = k.
Proof. intros Hj Hk Hpj Hpk. by apply (NoDup_lookup _ j k pa witness_pas_apart); apply witness_pas_lookup. Qed.

Lemma user_copy_exact_witness :
  ∃ m', copy_to_user translate_user_va at_tables user_current string_va witness_bytes user_machine = Done (inl tt, m') ∧
    load_byte (memory m') 0x48000fff = 3 ∧ load_byte (memory m') 0x48005000 = 4 ∧ load_byte (memory m') 0x4800500a = 0.
Proof.
  destruct (user_copy_exact translate_user_va at_tables user_current user_machine string_va 0 witness_bytes)
    as (_ & r & m' & Hr & _ & Hres).
  - reflexivity.
  - exact at_tables_may.
  - exact user_machine_installed.
  - split; vm_compute; discriminate.
  - exact witness_bytes_ok.
  - assert (value_of (copy_to_user translate_user_va at_tables user_current string_va witness_bytes user_machine) = Some (inl tt)) as E
      by (vm_compute; reflexivity).
    rewrite Hr in E. injection E as ->. exists m'. split; [exact Hr|]. destruct Hres as (_ & Hout & Hlast). split; [|split].
    + apply (Hlast 2%nat); [reflexivity|vm_compute; reflexivity|]. intros j [Hj1 Hj2] E.
      assert (j = 2%nat) by (apply (witness_pas_inj j 2 0x48000fff); [exact Hj2|lia|exact E|vm_compute; reflexivity]). lia.
    + apply (Hlast 3%nat); [reflexivity|vm_compute; reflexivity|]. intros j [Hj1 Hj2] E.
      assert (j = 3%nat) by (apply (witness_pas_inj j 3 0x48005000); [exact Hj2|lia|exact E|vm_compute; reflexivity]). lia.
    + rewrite Hout; [vm_compute; reflexivity|]. intros j Hj E. apply (witness_pas_lookup j _ Hj), list_elem_of_lookup_2 in E.
      revert E. apply (bool_decide_unpack _). vm_compute. exact I.
Defined.

(** C39: what was copied to the user reads back.  After a copy to pages that
    are not page tables and do not alias each other, copying from the same
    range returns the bytes written; and no copy of this kind touches a page
    table: every address space still translates every address as before, and
    the frame allocator and the tables are as well formed as they were. *)
Theorem user_copy_roundtrip hw_translate at_s1e0r current m live pool va src m' :
  (∀ st root va, hw_translate st root va = translate_user_va st root va) →
  (∀ st root va, at_s1e0r st root va = true ↔ may st root AccessRead va) →
  installed current m → 0 <= va <= u64_max → Forall is_byte src →
  machine_ok m live pool → ttbr0_root m ∈ live →
  (∀ k pa, (k < length src)%nat → translate_user_va (memory m) (ttbr0_root m) (va + Z.of_nat k) = Some pa → align_down pa PAGE_SIZE ∉ pool) →
  (∀ j k pa, (j < length src)%nat → (k < length src)%nat → translate_user_va (memory m) (ttbr0_root m) (va + Z.of_nat j) = Some pa →
     translate_user_va (memory m) (ttbr0_root m) (va + Z.of_nat k) = Some pa → j = k) →
  copy_to_user hw_translate at_s1e0r current va src m = Done (inl tt, m') →
  copy_from_user hw_translate at_s1e0r current (length src) va m' = Done (inl src, m') ∧
  machine_ok m' live pool ∧ ∀ r a, r ∈ live → query_user_mapping (memory m') r a = query_user_mapping (memory m) r a.
Proof.
  intros Hhw Hat Hin Hva Hb Hok Hroot Hout Hinj Hcopy.
  destruct (copy_to_user_spec _ _ _ Hhw Hat m va src Hin Hva Hb) as (r & m1 & Hr & Hres). rewrite Hcopy in Hr. injection Hr as <- <-.
  destruct Hres as (Hall & Hlen & Hcur & Hm'). destruct (stored_outside m live pool va src Hok Hall Hout) as [Hok' Hq].
  rewrite <-Hm' in Hok'. assert (memory m' = store_at (memory m) (user_pas m va (length src)) src) as Hmem by (by rewrite Hm').
  rewrite <-Hmem in Hq. split; [|done].
  assert (∀ k x, src !! k = Some x → user_byte m' (va + Z.of_nat k) = Some x) as Hback.
  { intros k x Hx. assert (k < length src)%nat as Hk by (by eapply lookup_lt_Some).
    destruct (user_pas_lookup m AccessWrite va (length src) k Hall Hk) as (pa & _ & Htr).
    assert (ttbr0_root m' = ttbr0_root m) as Ht by (by rewrite Hm').
    rewrite (user_byte_load m' _ pa); [f_equal|split; [apply Hall; lia|]|].
    - rewrite Hmem. eapply (stored_bytes m AccessWrite va src Hall Hb); [done|done|]. intros j Hj E.
      assert (k = j) by (apply (Hinj k j pa); [done|lia|done|done]). lia.
    - destruct (Hall (va + Z.of_nat k)) as [_ Hw]; [lia|]. apply may_write_read in Hw as (i & Hi & Hp). exists i.
      by rewrite Ht, (Hq _ _ Hroot).
    - unfold translate_user_va. by rewrite Ht, (Hq _ _ Hroot). }
  destruct (copy_from_user_spec hw_translate at_s1e0r current Hhw Hat m' va (length src)) as (r & Hr & Hres); [by rewrite Hm'|done|].
  rewrite Hr. destruct r as [bytes|e].
  - destruct Hres as (_ & Hl & Hbytes). do 3 f_equal. apply (list_eq_same_length _ _ (length src)); [done..|]. intros k x y Hk Hx Hy.
    rewrite (Hbytes k Hk), (Hback k y Hy) in Hx. congruence.
  - exfalso. destruct Hcur as [->|Hcur]; [done|]. apply Hres. split_and!; [done|done|]. intros k Hk.
    apply lookup_lt_is_Some_2 in Hk as [x Hx]. rewrite (Hback k x Hx). by eexists.
Qed.

Lemma user_copy_roundtrip_witness :
  ∃ m', copy_to_user translate_user_va at_tables user_current string_va witness_bytes user_machine = Done (inl tt, m') ∧
    copy_from_user translate_user_va at_tables user_current 13 string_va m' = Done (inl witness_bytes, m').
Proof.
  exists (state_after (copy_to_user translate_user_va at_tables user_current string_va witness_bytes user_machine) user_machine).
  assert (copy_to_user translate_user_va at_tables user_current string_va witness_bytes user_machine = Done (inl tt,
    state_after (copy_to_user translate_user_va at_tables user_current string_va witness_bytes user_machine) user_machine)) as E.
  { apply value_state. vm_compute. reflexivity. }
  split; [exact E|]. refine (proj1 (user_copy_roundtrip translate_user_va at_tables user_current user_machine {[first_root]} (list_to_set space_frames)
    string_va witness_bytes _ _ at_tables_may user_machine_installed _ witness_bytes_ok user_machine_ok _ _ _ E)).
  - reflexivity.
  - split; vm_compute; discriminate.
  - apply elem_of_singleton. vm_compute. reflexivity.
  - intros k pa Hk Htr. pose proof witness_pas_outside as Ho. rewrite Forall_lookup in Ho. rewrite elem_of_list_to_set.
    by apply (Ho k), witness_pas_lookup.
  - exact witness_pas_inj.
Defined.
