(* ===== verification/UserImage.v ===== *)
(** * User memory images

    The frame helpers of [kernel/src/memory/mod.rs], the user stack of
    [kernel/src/memory/user.rs] and the program loader of
    [kernel/src/loader/elf.rs], on the machine with its page tables and frame
    allocator.

    Reading the file's headers is the external crate [elf]: [minimal_parse]
    returns the fields the loader looks at.  Growing a vector asks the heap:
    [reserve n] tells whether it grants room for [n] elements. *)

From stdpp Require Import gmap.
From S2P Require Import Prelude Types Vm MemMap FrameAlloc PageTable PhysMem Sched AddressSpace UserCopy.
#[local] Open Scope Z_scope.

(** ** Frames and their contents *)

Definition write_phys (pa : Z) (l : list Z) : K unit := modify (set_memory (λ st, store_bytes st pa l)).

Definition zero_phys_range (range : AddrRange) : K unit :=
  if r_end range <=? r_start range then mret tt
  else write_phys (r_start range) (replicate (Z.to_nat (r_end range - r_start range)) 0).

Definition copy_bytes_to_phys (dst_pa : Z) (src : list Z) : K unit :=
  if decide (src = []) then mret tt else write_phys dst_pa src.

Definition copy_phys_range (src_pa dst_pa : Z) (size : nat) : K unit :=
  if decide (size = 0%nat) then mret tt
  else
    bytes ← gets (λ m, load_bytes (memory m) src_pa size);
    write_phys dst_pa bytes.

Inductive FrameRangeCloneError := CloneInvalidRange | CloneOutOfFrames.

Definition clone_frame_range (src : AddrRange) : K (AddrRange + FrameRangeCloneError) :=
  match u64_checked_sub (r_end src) (r_start src) with
  | None => mret (inr CloneInvalidRange)
  | Some size =>
      if (size =? 0) || negb (Z.land (r_start src) (PAGE_SIZE - 1) =? 0) || negb (Z.land (r_end src) (PAGE_SIZE - 1) =? 0)
      then mret (inr CloneInvalidRange)
      else
        r ← on_runtime (alloc_contiguous_frames (Z.to_nat (size / PAGE_SIZE)));
        match r with
        | None => mret (inr CloneOutOfFrames)
        | Some dst => copy_phys_range (r_start src) (r_start dst) (Z.to_nat size);; mret (inl dst)
        end
  end.

(** ** The staged address space: its root *)

Definition vm_map_user_page_range (aspace va pa size flags : Z) : K (unit + VmError) :=
  λ m, match map_user_page_range (arch_hook aspace flags) m va pa size with
       | Done (m', r) => Done (r, m')
       | Panic why => Panic why
       end.

Definition vm_create_user_address_space : K (Z + VmError) :=
  r ← create_user_address_space;
  mret (match r with inl root => inl root | inr e => inr (vm_error_from_code (vm_error_code e)) end).

Definition destroy_staged_user_address_space (aspace : Z) : K (unit + VmError) :=
  code ← arch_destroy_user_address_space aspace;
  mret (vm_result code).

(** ** The user stack *)

Definition user_stack_allocate (aspace size : Z) : K (OwnedUserStack + VmError) :=
  if (size =? 0) || negb (Z.land size (PAGE_SIZE - 1) =? 0) || (USER_STACK_TOP <? size) then mret (inr InvalidRange)
  else
    r ← on_runtime (alloc_contiguous_frames (Z.to_nat (size / PAGE_SIZE)));
    match r with
    | None => mret (inr OutOfFrames)
    | Some frames =>
        zero_phys_range frames;;
        let base := USER_STACK_TOP - size in
        r ← vm_map_user_page_range aspace base (r_start frames) size USER_WRITE;
        match r with
        | inr error => on_runtime (free_contiguous_frames frames);; mret (inr error)
        | inl _ => mret (inl (mkOwnedUserStack (r_start frames, r_end frames) base size))
        end
    end.

Definition stack_frames (s : OwnedUserStack) : AddrRange := mkRange (us_frames s).1 (us_frames s).2.

Definition clone_vm_error (e : FrameRangeCloneError) : VmError :=
  match e with CloneInvalidRange => InvalidRange | CloneOutOfFrames => OutOfFrames end.

Definition user_stack_clone_into (stack : OwnedUserStack) (aspace : Z) : K (OwnedUserStack + VmError) :=
  r ← clone_frame_range (stack_frames stack);
  match r with
  | inr e => mret (inr (clone_vm_error e))
  | inl frames =>
      r ← vm_map_user_page_range aspace (us_base stack) (r_start frames) (us_size stack) USER_WRITE;
      match r with
      | inr error => on_runtime (free_contiguous_frames frames);; mret (inr error)
      | inl _ => mret (inl (mkOwnedUserStack (r_start frames, r_end frames) (us_base stack) (us_size stack)))
      end
  end.

Definition user_stack_drop (stack : OwnedUserStack) : K unit :=
  if r_start (stack_frames stack) =? 0 then mret tt else on_runtime (free_contiguous_frames (stack_frames stack)).

(** ** Program files *)

Record ProgramHeader := mkProgramHeader {
  p_type : Z; p_flags : Z; p_offset : Z; p_vaddr : Z; p_filesz : Z; p_memsz : Z; p_align : Z
}.

Record ElfFile := mkElfFile {
  ef_class64 : bool; ef_little : bool; ef_type : Z; ef_machine : Z; ef_entry : Z;
  ef_segments : option (list ProgramHeader);
  ef_sections : option (list Z)                (* the types of the sections *)
}.

Record UserElfSegment := mkUserElfSegment { sg_va : Z; sg_size : Z; sg_frames : AddrRange; sg_flags : Z }.
Record UserElfImage := mkUserElfImage { ui_entry : Z; ui_segments : list UserElfSegment }.

Inductive ElfLoadError :=
| ElfParse | ElfUnsupportedClass | ElfUnsupportedEndian | ElfUnsupportedMachine | ElfUnsupportedType
| ElfUnsupportedProgramHeader | ElfDynamicLinkingUnsupported | ElfInvalidProgramHeader | ElfSegmentOutOfBounds
| ElfSegmentAddressOverflow | ElfSegmentNotPageAligned | ElfInvalidUserRange | ElfFrameAllocationFailed | ElfMappingFailed.

Definition ET_EXEC : Z := 2.
Definition EM_AARCH64 : Z := 183.
Definition PF_X : Z := 1.
Definition PF_W : Z := 2.
Definition PF_R : Z := 4.
Definition PT_LOAD : Z := 1.
Definition PT_DYNAMIC : Z := 2.
Definition PT_INTERP : Z := 3.
Definition PT_TLS : Z := 7.
Definition SHT_RELA : Z := 4.
Definition SHT_REL : Z := 9.

Definition validate_machine (machine : Z) : unit + ElfLoadError :=
  if machine =? EM_AARCH64 then inl tt else inr ElfUnsupportedMachine.

Definition validate_header (file : ElfFile) : unit + ElfLoadError :=
  if negb (ef_class64 file) then inr ElfUnsupportedClass
  else if negb (ef_little file) then inr ElfUnsupportedEndian
  else if negb (ef_type file =? ET_EXEC) then inr ElfUnsupportedType
  else validate_machine (ef_machine file).

Definition reject_relocations (file : ElfFile) : unit + ElfLoadError :=
  match ef_sections file with
  | None => inl tt
  | Some sections =>
      if existsb (λ t, (t =? SHT_REL) || (t =? SHT_RELA)) sections then inr ElfUnsupportedProgramHeader else inl tt
  end.

Definition has_flag (flags bit : Z) : bool := negb (Z.land flags bit =? 0).

Definition validate_program_flags (flags : Z) : unit + ElfLoadError :=
  if negb (has_flag flags PF_R) || (has_flag flags PF_W && has_flag flags PF_X) then inr ElfUnsupportedProgramHeader else inl tt.

Definition validate_load_alignment (vaddr offset align : Z) : unit + ElfLoadError :=
  if align <=? 1 then inl tt
  else if negb (vaddr mod align =? offset mod align) then inr ElfSegmentNotPageAligned
  else inl tt.

Definition elf_validate_user_range (start size : Z) : unit + ElfLoadError :=
  match u64_checked_add start size with
  | None => inr ElfSegmentAddressOverflow
  | Some fin =>
      if (start <? USER_TEXT_BASE) || (fin <=? start) || (USER_STACK_TOP <? fin) then inr ElfInvalidUserRange else inl tt
  end.

Definition map_flags_from_program_flags (flags : Z) : Z :=
  Z.lor (if has_flag flags PF_W then USER_WRITE else 0) (if has_flag flags PF_X then USER_EXECUTE else 0).

Definition map_vm_error (e : VmError) : ElfLoadError :=
  match e with OutOfFrames => ElfFrameAllocationFailed | _ => ElfMappingFailed end.

Definition sum_o {A E} (o : option A) (e : E) : A + E := match o with Some a => inl a | None => inr e end.

(** [&image[start..end]] *)
Definition slice {S} (image : list Z) (start fin : Z) : M S (list Z) :=
  assert_that ((start <=? fin) && (fin <=? Z.of_nat (length image))) "slice index out of range";;
  mret (take (Z.to_nat (fin - start)) (drop (Z.to_nat start) image)).

(** The place of a segment: its pages and its part of the file. *)
Definition segment_place (image : list Z) (ph : ProgramHeader) : (Z * Z * Z) + ElfLoadError :=
  if p_memsz ph <? p_filesz ph then inr ElfInvalidProgramHeader
  else match validate_program_flags (p_flags ph), validate_load_alignment (p_vaddr ph) (p_offset ph) (p_align ph) with
       | inr e, _ | inl _, inr e => inr e
       | inl _, inl _ =>
           match u64_checked_add (p_offset ph) (p_filesz ph) with
           | None => inr ElfSegmentOutOfBounds
           | Some file_end =>
               if Z.of_nat (length image) <? file_end then inr ElfSegmentOutOfBounds
               else match u64_checked_add (p_vaddr ph) (p_memsz ph) with
                    | None => inr ElfSegmentAddressOverflow
                    | Some seg_end =>
                        match elf_validate_user_range (p_vaddr ph) (p_memsz ph) with
                        | inr e => inr e
                        | inl _ =>
                            let map_start := align_down (p_vaddr ph) PAGE_SIZE in
                            match align_up seg_end PAGE_SIZE with
                            | None => inr ElfSegmentAddressOverflow
                            | Some map_end =>
                                match elf_validate_user_range map_start (map_end - map_start) with
                                | inr e => inr e
                                | inl _ =>
                                    match u64_checked_sub map_end map_start with
                                    | None => inr ElfSegmentAddressOverflow
                                    | Some map_size => inl (map_start, map_size, file_end)
                                    end
                                end
                            end
                        end
                    end
           end
       end.

Definition load_segment (image : list Z) (aspace : Z) (ph : ProgramHeader) (loaded : list UserElfSegment)
    : K (list UserElfSegment + ElfLoadError) :=
  if p_memsz ph =? 0 then mret (inl loaded)
  else match segment_place image ph with
       | inr e => mret (inr e)
       | inl (map_start, map_size, file_end) =>
           r ← on_runtime (alloc_contiguous_frames (Z.to_nat (map_size / PAGE_SIZE)));
           match r with
           | None => mret (inr ElfFrameAllocationFailed)
           | Some frame_range =>
               zero_phys_range frame_range;;
               bytes ← slice image (p_offset ph) file_end;
               copy_bytes_to_phys (r_start frame_range + (p_vaddr ph - map_start)) bytes;;
               let flags := map_flags_from_program_flags (p_flags ph) in
               r ← vm_map_user_page_range aspace map_start (r_start frame_range) map_size flags;
               match r with
               | inr err => on_runtime (free_contiguous_frames frame_range);; mret (inr (map_vm_error err))
               | inl _ => mret (inl (loaded ++ [mkUserElfSegment map_start map_size frame_range flags]))
               end
           end
       end.

(** The loop over the program headers: the segments loaded so far, and how it
    ended. *)
Fixpoint load_headers (image : list Z) (aspace : Z) (phs : list ProgramHeader) (loaded : list UserElfSegment)
    : K (list UserElfSegment * (unit + ElfLoadError)) :=
  match phs with
  | [] => mret (loaded, inl tt)
  | ph :: rest =>
      if p_type ph =? PT_LOAD then
        r ← load_segment image aspace ph loaded;
        match r with
        | inr e => mret (loaded, inr e)
        | inl loaded => load_headers image aspace rest loaded
        end
      else if (p_type ph =? PT_INTERP) || (p_type ph =? PT_DYNAMIC) || (p_type ph =? PT_TLS)
      then mret (loaded, inr ElfDynamicLinkingUnsupported)
      else load_headers image aspace rest loaded
  end.

Definition free_segment (segment : UserElfSegment) : K unit :=
  if r_start (sg_frames segment) =? 0 then mret tt else on_runtime (free_contiguous_frames (sg_frames segment)).

Definition free_segments (segments : list UserElfSegment) : K unit := for_each free_segment segments.
Definition free_loaded_segments (image : UserElfImage) : K unit := free_segments (ui_segments image).

Section loader.
Context (minimal_parse : list Z → option ElfFile) (reserve : nat → bool).

Definition load_segments (image : list Z) (file : ElfFile) (aspace : Z) : K (list UserElfSegment * (unit + ElfLoadError)) :=
  match ef_segments file with
  | None | Some [] => mret ([], inr ElfInvalidProgramHeader)
  | Some segments =>
      if negb (reserve (length segments)) then mret ([], inr ElfFrameAllocationFailed)
      else
        '(loaded, r) ← load_headers image aspace segments [];
        mret (loaded, match r with
                      | inr e => inr e
                      | inl _ => if decide (loaded = []) then inr ElfInvalidProgramHeader else inl tt
                      end)
  end.

Definition load_user_elf (image : list Z) (aspace : Z) : K (UserElfImage + ElfLoadError) :=
  match minimal_parse image with
  | None => mret (inr ElfParse)
  | Some file =>
      _ ←? mret (validate_header file);
      _ ←? mret (reject_relocations file);
      let entry := ef_entry file in
      _ ←? mret (elf_validate_user_range entry 1);
      '(loaded, result) ← load_segments image file aspace;
      match result with
      | inr e => free_segments loaded;; mret (inr e)
      | inl _ => mret (inl (mkUserElfImage entry loaded))
      end
  end.
End loader.
