(* ===== verification/FrameRuns.v ===== *)
(** * Runs of frames on the machine

    What taking, filling and returning a run of frames does to the machine:
    the address spaces stay as they are, and the pool of the allocator and the
    tables loses or gains exactly the run. *)

From stdpp Require Import gmap sorting.
From S2P Require Import Prelude Types Vm MemMap MemMapSpec FrameAlloc FrameSpec MemInit PageTable PageTableSpec AddressSpace.
From S2P Require Import PhysMem UserCopy UserAccess UserSafety UserImage.
#[local] Open Scope Z_scope.

Definition usable (m : Mmu) : list AddrRange := match rt_metadata (mm_rt m) with Some md => md_usable_ranges md | None => [] end.

(** The usable ranges are page aligned and have gaps between them. *)
Definition ranges_ok (m : Mmu) : Prop := usable_map (usable m).

Lemma ranges_ok_kept m m' : kept m m' → ranges_ok m → ranges_ok m'.
Proof. unfold kept, settings, ranges_ok, usable. by intros [= _ _ _ -> _]. Qed.

(** A run of frames that can be used and returned. *)
Definition run_ok (m : Mmu) (start : Z) (n : nat) : Prop :=
  (0 < n)%nat ∧ ∀ f, f ∈ pages PAGE_SIZE start n → table_frame f ∧ usable_frame m f.

Abbreviation run_set := (page_set PAGE_SIZE).
Abbreviation run_range start n := (mkRange start (start + Z.of_nat n * PAGE_SIZE)).

Lemma run_ok_kept m m' start n : kept m m' → run_ok m start n → run_ok m' start n.
Proof. intros Hk [Hn Hf]. split; [done|]. intros f Hin. destruct (Hf f Hin). split; [done|]. by eapply kept_usable. Qed.

Lemma run_first m start n : run_ok m start n → 0 < start ∧ start mod PAGE_SIZE = 0.
Proof.
  intros [Hn Hf]. destruct (Hf start) as [[? ?] _]; [apply elem_of_pages; exists 0%nat; split; [done|lia]|]. split; [lia|done].
Qed.

Lemma run_last m start n : run_ok m start n → start + Z.of_nat n * PAGE_SIZE <= 2 ^ 48.
Proof.
  intros [Hn Hf]. destruct (Hf (start + Z.of_nat (n - 1) * PAGE_SIZE)) as [[[_ Hb] Hm] _]; [apply elem_of_pages; exists (n - 1)%nat; split; [lia|done]|].
  unfold PAGE_SIZE in *. apply Z.mod_divide in Hm as [k Hk]; [|done]. change (2 ^ 48) with (68719476736 * 4096) in *. lia.
Qed.

(** ** Runs lie in one usable range *)

Lemma apart_cases (l : list AddrRange) a b : StronglySorted apart l → a ∈ l → b ∈ l → a = b ∨ apart a b ∨ apart b a.
Proof.
  induction 1 as [|x l _ IH Hx]; [by intros ?%elem_of_nil|]. rewrite Forall_forall in Hx.
  intros [->|Ha]%elem_of_cons [->|Hb]%elem_of_cons; [by left|right; left; by apply Hx|right; right; by apply Hx|by apply IH].
Qed.

Lemma usable_frame_in m f : usable_frame m f → ∃ r, r ∈ usable m ∧ r_start r <= f < r_end r.
Proof.
  unfold usable_frame, is_valid_usable_frame. fold (usable m). destruct (negb _); [done|]. intros (r & Hr & H)%existsb_exists.
  exists r. split; [by apply list_elem_of_In|]. lia.
Qed.

Lemma run_in_range m start n :
  ranges_ok m → run_ok m start n → ∃ r, r ∈ usable m ∧ r_start r <= start ∧ start + Z.of_nat n * PAGE_SIZE <= r_end r.
Proof.
  intros [Hr Hs] [Hn Hf]. rewrite Forall_forall in Hr. induction n as [|n IH]; [lia|].
  destruct (Hf (start + Z.of_nat n * PAGE_SIZE)) as [[_ Hal] Hu]; [apply elem_of_pages; exists n; split; [lia|done]|].
  apply usable_frame_in in Hu as (r & Hin & Hb). destruct (Hr r Hin) as (_ & _ & He & _).
  assert (start + Z.of_nat (S n) * PAGE_SIZE <= r_end r) as Hend.
  { unfold PAGE_SIZE in *. apply Z.mod_divide in Hal as [k Hk]; [|done]. apply Z.mod_divide in He as [e He]; [|done]. lia. }
  exists r. split_and!; [done| |done]. destruct n as [|n]; [lia|].
  destruct IH as (r' & Hin' & Hlo & Hhi); [lia|intros f Hp; apply Hf; rewrite pages_S; apply elem_of_app; by left|].
  destruct (apart_cases _ r r' Hs Hin Hin') as [->|[H|H]]; [done| |]; unfold apart in H.
  - destruct (Hr r Hin) as (? & _). unfold PAGE_SIZE in *. lia.
  - unfold PAGE_SIZE in *. lia.
Qed.

Lemma aligned_land a : 0 <= a → a mod PAGE_SIZE = 0 → (Z.land a (PAGE_SIZE - 1) =? 0) = true.
Proof. intros H0 H. rewrite page_off, H. done. Qed.

Lemma run_end_aligned start n : start mod PAGE_SIZE = 0 → (start + Z.of_nat n * PAGE_SIZE) mod PAGE_SIZE = 0.
Proof. intros H. by rewrite Z.mod_add. Qed.

Lemma run_valid m start n :
  ranges_ok m → run_ok m start n → is_valid_usable_frame_range (usable m) (run_range start n) = true.
Proof.
  intros Hm Hrun. destruct (run_in_range m start n Hm Hrun) as (r & Hin & Hlo & Hhi). destruct (run_first _ _ _ Hrun) as [H0 Hal].
  pose proof (proj1 Hrun) as Hn. unfold is_valid_usable_frame_range. cbn [r_start r_end].
  rewrite (proj2 (Z.leb_gt _ _)) by (unfold PAGE_SIZE; lia).
  rewrite (aligned_land start) by (done || lia).
  rewrite (aligned_land (start + _)); [|unfold PAGE_SIZE; lia|by apply run_end_aligned]. cbn [negb orb]. apply existsb_exists. exists r.
  split; [by apply list_elem_of_In|]. rewrite andb_true_iff, !Z.leb_le. done.
Qed.

(** ** Taking a run *)

(** Entries of tables are no free frames. *)
Lemma entry_not_free m T l pool k pa i :
  mmu_ok m T l pool → T !! k = Some pa → (i < 512)%nat → entry_addr pa i ∉ l.
Proof.
  intros Hm Hk Hi Hin. destruct (tr_frame _ _ (mk_tree _ _ _ _ Hm) _ _ Hk) as [_ Hal]. destruct (pool_free _ _ _ _ _ Hm Hin) as [_ Hal'].
  pose proof (entry_addr_frame pa i (entry_addr pa i) Hal Hal' Hi eq_refl) as E. rewrite <-E in Hin. by apply (mk_apart _ _ _ _ Hm pa k).
Qed.

(** The same tables over memory that differs at free frames only. *)
Lemma tables_kept m T l pool st :
  mmu_ok m T l pool → (∀ x, x ∉ l → st !! x = memory m !! x) →
  tree_ok st T ∧ ∀ r va, leaf st T r va = leaf (memory m) T r va.
Proof.
  intros Hm Hst. apply tree_ext; [|apply Hm]. intros k pa i Hk Hi. unfold entry. rewrite Hst; [done|]. by eapply entry_not_free.
Qed.

(** No address of the live spaces translates differently. *)
Definition same_queries (live : gset Z) (m m' : Mmu) : Prop :=
  ∀ r va, r ∈ live → query_user_mapping (memory m') r va = query_user_mapping (memory m) r va.

Lemma same_queries_trans live m1 m2 m3 : same_queries live m1 m2 → same_queries live m2 m3 → same_queries live m1 m3.
Proof. intros H1 H2 r va Hr. by rewrite H2, H1. Qed.

Lemma queries_of_leaves m m' T l l' pool pool' live :
  mmu_ok m T l pool → mmu_ok m' T l' pool' → (∀ r, r ∈ live ↔ T !! (r, []) = Some r) →
  (∀ r va, leaf (memory m') T r va = leaf (memory m) T r va) → same_queries live m m'.
Proof. intros Hm Hm' Hl Hleaf r va Hr%Hl. by rewrite (query_leaf m' T l' pool'), (query_leaf m T l pool), Hleaf. Qed.

Lemma frames_of_run m T l1 l2 pool start n :
  mmu_ok m T (l1 ++ pages PAGE_SIZE start n ++ l2) pool → (0 < n)%nat → run_ok m start n ∧ run_set start n ⊆ pool.
Proof.
  intros Hm Hn. assert (∀ f, f ∈ pages PAGE_SIZE start n → f ∈ pool) as Hin.
  { intros f Hf. apply (mk_pool _ _ _ _ Hm). left. rewrite !elem_of_app. auto. }
  split; [split; [done|]; intros f Hf; by apply (mk_frames _ _ _ _ Hm), Hin|]. intros f Hf%elem_of_page_set. by apply Hin.
Qed.

Lemma alloc_run_machine m live pool n :
  machine_ok m live pool → (0 < n)%nat →
  wp (on_runtime (alloc_contiguous_frames n)) (λ res m', kept m m' ∧ untouched (λ f, f ∈ pool) m m' ∧ same_queries live m m' ∧
    match res with
    | None => m' = m
    | Some rng => ∃ start, rng = run_range start n ∧ run_ok m start n ∧ run_set start n ⊆ pool ∧ machine_ok m' live (pool ∖ run_set start n)
    end) m.
Proof.
  intros (T & l & Hm & Hlive) Hn. apply wp_on_runtime. unfold alloc_contiguous_frames, alloc_contiguous_frames_aligned.
  apply wp_bind, wp_gets. rewrite (mk_init _ _ _ _ Hm). cbn [negb]. apply wp_on_frames.
  eapply wp_mono; [apply (alloc_contiguous_spec PAGE_SIZE page_size_pos PAGE_SIZE n _ l); [apply Hm|done|done|done]|].
  intros [rng|] s Hs; simpl in Hs; [|destruct Hs as [-> _]; by destruct m as [[] ? ?]].
  destruct Hs as (start & l1 & l2 & -> & Hal & -> & Hok & Hst & _). destruct (frames_of_run _ _ _ _ _ _ _ Hm Hn) as [Hrun Hsub].
  set (m' := set_mm_rt _ m). destruct (tables_kept m T _ pool (fs_store s) Hm Hst) as [Htree Hleaf].
  assert (NoDup (l1 ++ pages PAGE_SIZE start n ++ l2)) as Hnd by apply sorted_nodup, Hm.
  assert (mmu_ok m' T (l1 ++ l2) (pool ∖ run_set start n)) as Hm'.
  { destruct Hm as [M1 M2 M3 M4 M5 M6 M7]. split; [done|done|exact Htree|exact Hok| | |].
    - intros f k Hf. apply M5. rewrite !elem_of_app in *. tauto.
    - intros f. rewrite elem_of_difference, elem_of_page_set, M6, !elem_of_app.
      apply NoDup_app in Hnd as (_ & Hd1 & (_ & Hd2 & _)%NoDup_app). specialize (Hd1 f). specialize (Hd2 f). rewrite elem_of_app in Hd1.
      split; [tauto|]. intros [Hf|[k Hk]]; [tauto|]. split; [by eauto|]. intros Hp.
      apply (M5 f k); [rewrite !elem_of_app; tauto|done].
    - intros f [Hf _]%elem_of_difference. by apply M7. }
  split_and!; [done| |by eapply queries_of_leaves|by exists start; split_and!; [done|done|done|exists T, (l1 ++ l2)]].
  intros y Hy. apply Hst. intros Hin. apply (Hy y); [|unfold on_page, PAGE_SIZE; lia]. apply (mk_pool _ _ _ _ Hm). by left.
Qed.

(** ** Returning a run *)

Lemma free_run_machine m live pool start n :
  machine_ok m live pool → ranges_ok m → run_ok m start n → run_set start n ## pool →
  wp (on_runtime (free_contiguous_frames (run_range start n)))
     (λ _ m', kept m m' ∧ untouched (λ f, f ∈ pool ∪ run_set start n) m m' ∧ same_queries live m m' ∧
              machine_ok m' live (pool ∪ run_set start n)) m.
Proof.
  intros (T & l & Hm & Hlive) Hr Hrun Hd. apply wp_on_runtime. unfold free_contiguous_frames.
  apply wp_bind, wp_gets. rewrite (mk_init _ _ _ _ Hm). apply wp_bind, wp_assert; [done|]. apply wp_bind, wp_gets.
  fold (usable m). rewrite (run_valid m start n Hr Hrun). apply wp_bind, wp_assert; [done|]. apply wp_on_frames.
  destruct (run_first _ _ _ Hrun) as [H0 Hal]. pose proof (run_last _ _ _ Hrun) as Hend. change (2 ^ 48) with 281474976710656 in Hend.
  assert (freeable PAGE_SIZE start n l) as Hfree.
  { split; [apply Hrun|lia|done|unfold u64_max; lia|]. intros f Hf Hp%elem_of_page_set. apply (Hd f Hp), (mk_pool _ _ _ _ Hm). by left. }
  eapply wp_mono; [apply (free_contiguous_spec PAGE_SIZE page_size_pos start n _ l); [apply Hm|done]|].
  intros [] s [(a & b & El & Hok) Hst]. set (m' := set_mm_rt _ m).
  assert (∀ k pa i, T !! k = Some pa → (i < 512)%nat → entry_addr pa i ∉ pages PAGE_SIZE start n) as Hent.
  { intros k pa i Hk Hi Hin. destruct (tr_frame _ _ (mk_tree _ _ _ _ Hm) _ _ Hk) as [_ Hpa].
    destruct (proj2 Hrun _ Hin) as [[_ Hx] _]. pose proof (entry_addr_frame pa i _ Hpa Hx Hi eq_refl) as E. rewrite <-E in Hin.
    apply (Hd pa); [by apply elem_of_page_set|]. apply (mk_pool _ _ _ _ Hm). eauto. }
  destruct (tree_ext (memory m) (fs_store s) T) as [Htree Hleaf]; [|apply Hm|].
  { intros k pa i Hk Hi. unfold entry. rewrite Hst; [done|by eapply entry_not_free|by eapply Hent]. }
  assert (mmu_ok m' T (a ++ pages PAGE_SIZE start n ++ b) (pool ∪ run_set start n)) as Hm'.
  { destruct Hm as [M1 M2 M3 M4 M5 M6 M7]. split; [done|done|exact Htree|exact Hok| | |].
    - intros f k Hf Hk. rewrite !elem_of_app in Hf. destruct Hf as [Hf|[Hf|Hf]].
      + apply (M5 f k); [|done]. rewrite El, elem_of_app. by left.
      + apply (Hd f); [by apply elem_of_page_set|]. apply M6. eauto.
      + apply (M5 f k); [|done]. rewrite El, elem_of_app. by right.
    - intros f. rewrite elem_of_union, elem_of_page_set, M6, El, !elem_of_app. tauto.
    - intros f [Hf|Hf%elem_of_page_set]%elem_of_union; [by apply M7|by apply Hrun]. }
  split_and!; [done| |by eapply queries_of_leaves|by exists T, (a ++ pages PAGE_SIZE start n ++ b)].
  intros y Hy. assert (∀ f, f ∈ pool ∪ run_set start n → y ≠ f) as Hne.
  { intros f Hf ->. apply (Hy f Hf). unfold on_page, PAGE_SIZE. lia. }
  apply Hst; intros Hin; apply (Hne y); [|done| |done]; apply elem_of_union; [left; apply (mk_pool _ _ _ _ Hm); by left|right; by apply elem_of_page_set].
Qed.

(** ** Filling a run *)

Lemma on_page_align f y : f mod PAGE_SIZE = 0 → on_page f y ↔ align_down y PAGE_SIZE = f.
Proof.
  intros Hf. destruct (align_down_spec y) as [Ha Hb]. unfold on_page. split; [|intros <-; done].
  intros Hy. unfold align_down, page_aligned, PAGE_SIZE in *. simpl in *.
  apply Z.mod_divide in Hf as [k ->]; [|done]. f_equal. symmetry. apply (Z.div_unique_pos y 4096 k (y - 4096 * k)); lia.
Qed.

(** The page of an address of a run is one of its frames. *)
Lemma run_page start n y :
  start mod PAGE_SIZE = 0 → start <= y < start + Z.of_nat n * PAGE_SIZE → align_down y PAGE_SIZE ∈ pages PAGE_SIZE start n.
Proof.
  intros Hs Hy. destruct (align_down_spec y) as [Ha Hb]. set (c := align_down y PAGE_SIZE) in *. unfold page_aligned, PAGE_SIZE in *.
  apply Z.mod_divide in Hs as [s ->]; [|done]. apply Z.mod_divide in Ha as [k ->]; [|done].
  apply elem_of_pages. exists (Z.to_nat (k - s)). split; lia.
Qed.

Lemma store_bytes_word st pa l y : (∀ k, (k < length l)%nat → word_addr (pa + Z.of_nat k) ≠ y) → store_bytes st pa l !! y = st !! y.
Proof.
  revert st pa. induction l as [|x l IH]; intros st pa Hy; [done|]. cbn [store_bytes]. rewrite IH.
  - unfold store_byte, store_word. apply lookup_insert_ne. specialize (Hy 0%nat ltac:(simpl; lia)). by rewrite Z.add_0_r in Hy.
  - intros k Hk. specialize (Hy (S k) ltac:(simpl; lia)). replace (pa + 1 + Z.of_nat k) with (pa + Z.of_nat (S k)) by lia. done.
Qed.

(** Writing inside a run that does not belong to the pool. *)
Lemma write_run_machine m live pool start n pa l :
  machine_ok m live pool → run_ok m start n → run_set start n ## pool →
  start <= pa → pa + Z.of_nat (length l) <= start + Z.of_nat n * PAGE_SIZE →
  wp (write_phys pa l) (λ _ m', kept m m' ∧ memory m' = store_bytes (memory m) pa l ∧
    untouched (λ f, f ∈ run_set start n) m m' ∧ same_queries live m m' ∧ machine_ok m' live pool) m.
Proof.
  intros Hm Hrun Hd Hlo Hhi. destruct (run_first _ _ _ Hrun) as [_ Hal]. apply wp_modify.
  assert (∀ k, (k < length l)%nat → align_down (word_addr (pa + Z.of_nat k)) PAGE_SIZE ∈ pages PAGE_SIZE start n) as Hin.
  { intros k Hk. rewrite word_addr_page. apply run_page; [done|lia]. }
  destruct (machine_outside m live pool (store_bytes (memory m) pa l) Hm) as [Hm' Hq].
  { intros y Hy. apply store_bytes_word. intros k Hk <-. apply (Hd (align_down (word_addr (pa + Z.of_nat k)) PAGE_SIZE)); [|done].
    apply elem_of_page_set. by apply Hin. }
  split_and!; [done|done| |exact Hq|exact Hm']. intros y Hy. apply store_bytes_word. intros k Hk <-.
  eapply Hy; [apply elem_of_page_set, (Hin k Hk)|]. apply on_page_align; [|done]. by destruct (align_down_spec (word_addr (pa + Z.of_nat k))).
Qed.

(** Memory that is untouched holds the same bytes. *)
Lemma untouched_byte (P : Z → Prop) m m' pa :
  untouched P m m' → (∀ f, P f → f mod PAGE_SIZE = 0) → ¬ P (align_down pa PAGE_SIZE) → load_byte (memory m') pa = load_byte (memory m) pa.
Proof.
  intros Hu Hal Hn. unfold load_byte, load_word. rewrite Hu; [done|]. intros f Hf Hon.
  apply on_page_align in Hon; [|by apply Hal]. rewrite word_addr_page in Hon. by subst f.
Qed.

Lemma pool_aligned m live pool f : machine_ok m live pool → f ∈ pool → f mod PAGE_SIZE = 0.
Proof. intros (T & l & Hm & _) Hf. by destruct (mk_frames _ _ _ _ Hm f Hf) as [[_ ?] _]. Qed.

(** Bytes outside the pool. *)
Lemma untouched_pool_byte m m' live pool pa :
  machine_ok m live pool → untouched (λ f, f ∈ pool) m m' → align_down pa PAGE_SIZE ∉ pool → load_byte (memory m') pa = load_byte (memory m) pa.
Proof. intros Hm Hu Hn. apply (untouched_byte (λ f, f ∈ pool)); [done| |done]. intros f. by eapply pool_aligned. Qed.

(** ** Mapping a run *)

(** The mapping of an address of a run mapped at [va]. *)
Definition run_info (start flags va a : Z) : UserMappingInfo :=
  mkUserMappingInfo (start + (a - va)) true true (flags_contain flags USER_WRITE) (flags_contain flags USER_EXECUTE).

Lemma run_info_page start flags va a :
  va mod PAGE_SIZE = 0 → page_info (start + (a - va) / PAGE_SIZE * PAGE_SIZE) flags a = run_info start flags va a.
Proof.
  intros Hv. unfold page_info, run_info. f_equal. unfold PAGE_SIZE in *. apply Z.mod_divide in Hv as [k ->]; [|done].
  pose proof (Z.div_mod (a - k * 4096) 4096 ltac:(done)) as H.
  assert ((a - k * 4096) mod 4096 = a mod 4096) as E by (replace (a - k * 4096) with (a + (- k) * 4096) by lia; by rewrite Z.mod_add). lia.
Qed.

Definition in_run (va : Z) (n : nat) (a : Z) : Prop := va <= a < va + Z.of_nat n * PAGE_SIZE.

(** A run newly mapped in the space [r], everything else as it was. *)
Definition run_mapped (live : gset Z) (r va start : Z) (n : nat) (flags : Z) (m m' : Mmu) : Prop :=
  (∀ a, in_run va n a → query_user_mapping (memory m) r a = None ∧ query_user_mapping (memory m') r a = Some (run_info start flags va a)) ∧
  (∀ r0 a, r0 ∈ live → 0 <= a → ¬ (r0 = r ∧ in_run va n a) → query_user_mapping (memory m') r0 a = query_user_mapping (memory m) r0 a).

(** Nothing but the range of the space [r] may translate differently. *)
Definition only_range (live : gset Z) (r va : Z) (n : nat) (m m' : Mmu) : Prop :=
  ∀ r0 a, r0 ∈ live → 0 <= a → ¬ (r0 = r ∧ in_run va n a) → query_user_mapping (memory m') r0 a = query_user_mapping (memory m) r0 a.

(** A range that could be mapped was unmapped. *)
Lemma map_each_unmapped n m live pool r va pa flags m' :
  machine_ok m live pool → r ∈ live → 0 <= va → va mod PAGE_SIZE = 0 → 0 <= pa → pa mod PAGE_SIZE = 0 →
  pa + Z.of_nat n * PAGE_SIZE <= 2 ^ 48 → map_each (arch_hook r flags) m (range_pages va pa n) = (m', inl tt) →
  ∀ a, in_run va n a → query_user_mapping (memory m) r a = None.
Proof.
  intros Hm Hr Hva Hva' Hpa Hpa'. revert m va pa Hm Hva Hva' Hpa Hpa'. induction n as [|n IH]; intros m va pa Hm Hva Hva' Hpa Hpa' Hb.
  { unfold in_run. lia. }
  assert (range_pages va pa (S n) = (va, pa) :: range_pages (va + PAGE_SIZE) (pa + PAGE_SIZE) n) as Hpages.
  { unfold range_pages. cbn [seq fmap list_fmap]. f_equal; [f_equal; lia|]. rewrite <-seq_shift, <-list_fmap_compose.
    apply list_fmap_ext. intros j i _. unfold compose. f_equal; lia. }
  rewrite Hpages. cbn [map_each]. unfold Vm.map_user_page.
  destruct (arch_hook_spec m live pool r va pa flags Hm Hr Hva) as (res & m1 & H1 & Hm1 & Hk1 & Ho1 & Hq1); [by split; [unfold PAGE_SIZE in *; lia|]|].
  rewrite H1. destruct res as [[]|e]; [|by rewrite status_code]. destruct Hq1 as (_ & _ & Hnone & Hq1).
  change (vm_result 0) with (@inl unit VmError tt). intros Hrest a Ha.
  destruct (decide (va <= a < va + PAGE_SIZE)) as [Hin|Hout].
  - unfold query_user_mapping in *. rewrite (lookup_same_page _ _ a va); [|by apply page_index].
    destruct (lookup_user_page_desc (memory m) r va); [done|]. done.
  - specialize (Hq1 r a Hr ltac:(unfold in_run in Ha; lia)). rewrite decide_False in Hq1 by (intros [_ ?%page_index]; done).
    rewrite <-Hq1. apply (IH m1 (va + PAGE_SIZE) (pa + PAGE_SIZE)); [done|unfold PAGE_SIZE; lia|by apply next_aligned|unfold PAGE_SIZE; lia|by apply next_aligned|lia|done|].
    unfold in_run in *. unfold PAGE_SIZE in *. lia.
Qed.

Lemma map_run_machine m live pool r va start n flags :
  machine_ok m live pool → run_ok m start n → r ∈ live → 0 <= va → va mod PAGE_SIZE = 0 → va + Z.of_nat n * PAGE_SIZE <= u64_max →
  wp (vm_map_user_page_range r va start (Z.of_nat n * PAGE_SIZE) flags) (λ res m', kept m m' ∧ untouched (λ f, f ∈ pool) m m' ∧
    machine_ok m' live pool ∧ match res with inl _ => run_mapped live r va start n flags m m' | inr _ => only_range live r va n m m' end) m.
Proof.
  intros Hm Hrun Hr Hva Hva' Hb. destruct (run_first _ _ _ Hrun) as [H0 Hal]. pose proof (run_last _ _ _ Hrun) as Hend.
  destruct (map_each_spec n m live pool r va start flags Hm Hr Hva Hva' ltac:(lia) Hal Hend) as (m' & res & He & Hm' & Hk & Ho & Hq).
  apply wp_done. exists res, m'. unfold vm_map_user_page_range.
  rewrite map_user_page_range_exact by (done || (change (2 ^ 48) with 281474976710656 in Hend; unfold u64_max; lia)). rewrite He.
  split; [done|]. split_and!; [done|done|done|].
  assert (only_range live r va n m m') as Hout.
  { intros r0 a Hr0 Ha Hn. specialize (Hq r0 a Hr0 Ha). by rewrite decide_False in Hq. }
  destruct res as [[]|e]; [|done]. split; [|done]. intros a Ha. split; [eapply (map_each_unmapped n m live pool r va start flags m'); (done || lia)|].
  specialize (Hq r a Hr ltac:(unfold in_run in Ha; lia)). rewrite decide_True in Hq by done. rewrite Hq by done. by rewrite run_info_page.
Qed.
