(* ===== verification/ImageSafety.v ===== *)
(** * The image claims

    The user stack and the loaded segments: on success exactly the frames of
    the image left the pool, mapped where and as asked, holding what they
    should; on failure every frame is back.

    Loading a program file into a fresh address space, and what a failed load
    leaves behind. *)

From stdpp Require Import gmap sorting.
From S2P Require Import Prelude Types Vm Sched MemMap MemMapSpec FrameAlloc FrameSpec MemInit PageTable PageTableSpec AddressSpace SpaceSafety.
From S2P Require Import PhysMem UserCopy UserAccess UserSafety UserImage FrameRuns.
#[local] Open Scope Z_scope.

(** ** A run from the pool, filled and mapped *)

Lemma pool_back (pool : gset Z) X : X ⊆ pool → pool ∖ X ∪ X = pool.
Proof. intros H. rewrite difference_union_L. set_solver. Qed.

Lemma pool_apart (pool X : gset Z) : X ## pool ∖ X.
Proof. set_solver. Qed.

Lemma run_mapped_only live r va start n flags m m' : run_mapped live r va start n flags m m' → only_range live r va n m m'.
Proof. by intros [_ ?]. Qed.

Lemma only_range_trans live r va n m1 m2 m3 : only_range live r va n m1 m2 → same_queries live m2 m3 → only_range live r va n m1 m3.
Proof. intros H1 H2 r0 a Hr Ha Hn. rewrite H2 by done. by apply H1. Qed.

(** Mapping a run that was taken from the pool; when that fails the run is
    returned. *)
Lemma place_run {A E} m live pool r va start n flags (x : A) (g : VmError → E) :
  machine_ok m live pool → ranges_ok m → run_ok m start n → run_set start n ## pool → r ∈ live →
  0 <= va → va mod PAGE_SIZE = 0 → va + Z.of_nat n * PAGE_SIZE <= u64_max →
  wp (res ← vm_map_user_page_range r va start (Z.of_nat n * PAGE_SIZE) flags;
      match res with
      | inr e => on_runtime (free_contiguous_frames (run_range start n));; mret (inr (g e))
      | inl _ => mret (inl x)
      end)
     (λ res m', kept m m' ∧
        match res with
        | inl y => y = x ∧ untouched (λ f, f ∈ pool) m m' ∧ machine_ok m' live pool ∧ run_mapped live r va start n flags m m'
        | inr _ => untouched (λ f, f ∈ pool ∪ run_set start n) m m' ∧ machine_ok m' live (pool ∪ run_set start n) ∧ only_range live r va n m m'
        end) m.
Proof.
  intros Hm Hr Hrun Hd Hlive Hva Hva' Hb. apply wp_bind. eapply wp_mono; [by apply (map_run_machine m live pool)|].
  intros [[]|e] m1 (Hk & Ho & Hm1 & Hq); [by apply wp_ret|].
  apply wp_bind. eapply wp_mono; [apply (free_run_machine m1 live pool start n); [done|by eapply ranges_ok_kept|by eapply run_ok_kept|done]|].
  intros [] m2 (Hk2 & Ho2 & Hq2 & Hm2). apply wp_ret. split; [by eapply kept_trans|]. split_and!; [|done|by eapply only_range_trans].
  eapply untouched_trans; [|exact Ho|exact Ho2]. intros f Hf. apply elem_of_union. by left.
Qed.

(** The bytes of a run. *)
Definition run_holds (m : Mmu) (start : Z) (n : nat) (h : Z → Z) : Prop :=
  ∀ i, 0 <= i < Z.of_nat n * PAGE_SIZE → load_byte (memory m) (start + i) = h i.

(** The pool of the machine does not hold a run it does not have. *)
Lemma run_holds_kept m m' live pool start n h :
  machine_ok m live pool → run_ok m start n → run_set start n ## pool → untouched (λ f, f ∈ pool) m m' →
  run_holds m start n h → run_holds m' start n h.
Proof.
  intros Hm Hrun Hd Hu Hh i Hi. rewrite <-Hh by done. apply (untouched_pool_byte m m' live pool); [done|done|].
  intros Hin. apply (Hd (align_down (start + i) PAGE_SIZE)); [|done]. apply elem_of_page_set, run_page; [by destruct (run_first _ _ _ Hrun)|lia].
Qed.

(** Reading back what was stored. *)
Lemma load_stored st pa l a :
  Forall is_byte l →
  load_byte (store_bytes st pa l) a = if decide (pa <= a < pa + Z.of_nat (length l)) then default 0 (l !! Z.to_nat (a - pa)) else load_byte st a.
Proof.
  intros Hl. revert st pa. induction Hl as [|x l Hx _ IH]; intros st pa; cbn [store_bytes length].
  { rewrite decide_False by lia. done. }
  rewrite IH, load_store_byte by done. destruct (decide (pa + 1 <= a < pa + 1 + Z.of_nat (length l))) as [Hin|Hin].
  - rewrite decide_True by lia. replace (Z.to_nat (a - pa)) with (S (Z.to_nat (a - (pa + 1)))) by lia. done.
  - destruct (decide (pa = a)) as [->|Hne].
    + rewrite decide_True by lia. by rewrite Z.sub_diag.
    + rewrite decide_False by lia. done.
Qed.

Lemma zero_run m live pool start n :
  machine_ok m live pool → run_ok m start n → run_set start n ## pool →
  wp (zero_phys_range (run_range start n)) (λ _ m', kept m m' ∧ untouched (λ f, f ∈ run_set start n) m m' ∧ same_queries live m m' ∧
    machine_ok m' live pool ∧ run_holds m' start n (λ _, 0)) m.
Proof.
  intros Hm Hrun Hd. pose proof (proj1 Hrun) as Hn. unfold zero_phys_range. cbn [r_start r_end].
  rewrite (proj2 (Z.leb_gt _ _)) by (unfold PAGE_SIZE; lia).
  eapply wp_mono; [apply (write_run_machine m live pool start n); [done..|lia|rewrite length_replicate; unfold PAGE_SIZE in *; lia]|].
  intros [] m' (Hk & Hmem & Ho & Hq & Hm'). split_and!; [done..|]. intros i Hi. rewrite Hmem, load_stored.
  - rewrite decide_True by (rewrite length_replicate; unfold PAGE_SIZE in *; lia). by destruct (replicate _ 0 !! _) as [x|] eqn:E; [apply lookup_replicate in E as [-> _]|].
  - by apply Forall_replicate.
Qed.

(** Bytes [l] at offset [d] over the contents [h]. *)
Definition overlay (h : Z → Z) (d : Z) (l : list Z) (i : Z) : Z :=
  if decide (d <= i < d + Z.of_nat (length l)) then default 0 (l !! Z.to_nat (i - d)) else h i.

Lemma patch_run m live pool start n h d l :
  machine_ok m live pool → run_ok m start n → run_set start n ## pool → run_holds m start n h → Forall is_byte l →
  0 <= d → d + Z.of_nat (length l) <= Z.of_nat n * PAGE_SIZE →
  wp (copy_bytes_to_phys (start + d) l) (λ _ m', kept m m' ∧ untouched (λ f, f ∈ run_set start n) m m' ∧ same_queries live m m' ∧
    machine_ok m' live pool ∧ run_holds m' start n (overlay h d l)) m.
Proof.
  intros Hm Hrun Hd Hz Hb Hd0 Hl. unfold copy_bytes_to_phys. destruct (decide (l = [])) as [->|Hne].
  { apply wp_ret. split_and!; [done..|]. intros i Hi. rewrite Hz by done. unfold overlay. rewrite decide_False by (simpl; lia). done. }
  eapply wp_mono; [apply (write_run_machine m live pool start n); [done..|lia|lia]|].
  intros [] m' (Hk & Hmem & Ho & Hq & Hm'). split_and!; [done..|]. intros i Hi. rewrite Hmem, load_stored by done. unfold overlay.
  destruct (decide (start + d <= start + i < _)); [rewrite decide_True by lia|rewrite decide_False by lia; by apply Hz].
  do 3 f_equal. lia.
Qed.

(** A run from the pool, filled with zeroes. *)
Lemma fresh_run {B} m live pool n (k : AddrRange → K B) (none : K B) (Q : B → Mmu → Prop) :
  machine_ok m live pool → (0 < n)%nat → wp none Q m →
  (∀ start m1, run_ok m1 start n → run_set start n ⊆ pool → kept m m1 → untouched (λ f, f ∈ pool) m m1 → same_queries live m m1 →
     machine_ok m1 live (pool ∖ run_set start n) → run_holds m1 start n (λ _, 0) → wp (k (run_range start n)) Q m1) →
  wp (r ← on_runtime (alloc_contiguous_frames n);
      match r with None => none | Some frames => zero_phys_range frames;; k frames end) Q m.
Proof.
  intros Hm Hn Hnone Hk. apply wp_bind. eapply wp_mono; [by apply (alloc_run_machine m live pool)|].
  intros [rng|] m1 (K1 & O1 & Q1 & H1); [|by subst m1]. destruct H1 as (start & -> & Hrun & Hsub & Hm1).
  apply (run_ok_kept _ m1) in Hrun; [|done]. apply wp_bind.
  eapply wp_mono; [apply (zero_run m1 live (pool ∖ run_set start n)); [done|done|apply pool_apart]|].
  intros [] m2 (K2 & O2 & Q2 & Hm2 & Hz). apply Hk; [by eapply run_ok_kept|done|by eapply kept_trans| |by eapply same_queries_trans|done|done].
  eapply untouched_trans; [|exact O1|]; [done|]. eapply untouched_mono; [|exact O2]. intros f Hf. by apply Hsub.
Qed.

(** ** The user stack *)

Lemma pages_of_size size : 0 < size → size mod PAGE_SIZE = 0 → (0 < Z.to_nat (size / PAGE_SIZE))%nat ∧ Z.of_nat (Z.to_nat (size / PAGE_SIZE)) * PAGE_SIZE = size.
Proof.
  intros H0 H. pose proof (Z.div_mod size PAGE_SIZE ltac:(done)) as E. rewrite H, Z.add_0_r in E. unfold PAGE_SIZE in *. lia.
Qed.

(** Other spaces are not affected. *)
Definition others_kept (live : gset Z) (r : Z) (m m' : Mmu) : Prop :=
  ∀ r0 a, r0 ∈ live → 0 <= a → r0 ≠ r → query_user_mapping (memory m') r0 a = query_user_mapping (memory m) r0 a.

Lemma only_range_others live r va n m m' : only_range live r va n m m' → others_kept live r m m'.
Proof. intros H r0 a Hr Ha Hne. apply H; [done|done|]. by intros [? _]. Qed.

Lemma same_only live r va n m m' m'' : same_queries live m m' → only_range live r va n m' m'' → only_range live r va n m m''.
Proof. intros H1 H2 r0 a Hr Ha Hn. rewrite H2 by done. by apply H1. Qed.

Lemma same_mapped live r va start n flags m m' m'' :
  r ∈ live → same_queries live m m' → run_mapped live r va start n flags m' m'' → run_mapped live r va start n flags m m''.
Proof.
  intros Hr H1 [H2 H3]. split; [|by eapply same_only]. intros a Ha. destruct (H2 a Ha). split; [|done]. by rewrite <-H1.
Qed.

Lemma aligned_cases a : 0 <= a → (Z.land a (PAGE_SIZE - 1) =? 0) = bool_decide (a mod PAGE_SIZE = 0).
Proof. intros Ha. rewrite page_off. case_bool_decide as H; [by rewrite H|]. by apply Z.eqb_neq. Qed.

Lemma user_stack_allocate_spec m live pool r size :
  machine_ok m live pool → ranges_ok m → r ∈ live → 0 <= size →
  wp (user_stack_allocate r size) (λ res m', kept m m' ∧ untouched (λ f, f ∈ pool) m m' ∧
    match res with
    | inl s => ∃ start n, size = Z.of_nat n * PAGE_SIZE ∧ s = mkOwnedUserStack (start, start + size) (USER_STACK_TOP - size) size ∧
        run_ok m start n ∧ run_set start n ⊆ pool ∧ machine_ok m' live (pool ∖ run_set start n) ∧
        run_mapped live r (USER_STACK_TOP - size) start n USER_WRITE m m' ∧ run_holds m' start n (λ _, 0)
    | inr _ => machine_ok m' live pool ∧ others_kept live r m m'
    end) m.
Proof.
  intros Hm Hr Hlive H0. unfold user_stack_allocate. rewrite aligned_cases by done.
  destruct (Z.eqb_spec size 0) as [|Hne]; [by apply wp_ret|]. case_bool_decide as Hal; [|by apply wp_ret]. cbn [negb orb].
  destruct (Z.ltb_spec USER_STACK_TOP size); [by apply wp_ret|]. destruct (pages_of_size size) as [Hn Hsz]; [lia|done|].
  set (n := Z.to_nat (size / PAGE_SIZE)) in *. apply (fresh_run m live pool n _ (mret (inr OutOfFrames))); [done|done|by apply wp_ret|].
  intros start m1 Hrun Hsub K1 O1 Q1 Hm1 Hz. cbn [r_start r_end]. cbv zeta. rewrite <-Hsz.
  assert (0 <= USER_STACK_TOP - Z.of_nat n * PAGE_SIZE) as Hva by lia.
  assert ((USER_STACK_TOP - Z.of_nat n * PAGE_SIZE) mod PAGE_SIZE = 0) as Hva'.
  { change USER_STACK_TOP with (0x8000000 * PAGE_SIZE). rewrite <-Z.mul_sub_distr_r. by apply Z.mod_mul. }
  eapply wp_mono; [apply (place_run m1 live (pool ∖ run_set start n) r _ start n USER_WRITE); [done|by eapply ranges_ok_kept|done|apply pool_apart|done|done|done|]|].
  { unfold USER_STACK_TOP, u64_max in *. lia. }
  intros [s|e] m2 (K2 & Hres).
  - destruct Hres as (-> & O2 & Hm2 & Hmap). split_and!; [by eapply kept_trans| |].
    { eapply untouched_trans; [|exact O1|]; [done|]. eapply untouched_mono; [|exact O2]. set_solver. }
    exists start, n. split_and!; [done|done| |done|done|by eapply same_mapped|eapply (run_holds_kept m1 m2); [done|done|apply pool_apart|done|done]].
    destruct Hrun as [? Hf]. split; [done|]. intros f Hin. destruct (Hf f Hin). split; [done|]. eapply (kept_usable m1); [|done].
    unfold kept in *. congruence.
  - destruct Hres as (O2 & Hm2 & Hmap). rewrite (pool_back pool _ Hsub) in *. split_and!; [by eapply kept_trans| |done|].
    + eapply untouched_trans; [|exact O1|exact O2]. done.
    + eapply only_range_others, same_only; done.
Qed.

(** ** One segment *)

(** The byte of the image at a virtual address of a segment. *)
Definition seg_byte (image : list Z) (ph : ProgramHeader) (a : Z) : Z :=
  if decide (p_vaddr ph <= a < p_vaddr ph + p_filesz ph) then default 0 (image !! Z.to_nat (p_offset ph + (a - p_vaddr ph))) else 0.

(** The pages of a segment. *)
Definition seg_start (ph : ProgramHeader) : Z := align_down (p_vaddr ph) PAGE_SIZE.
Definition seg_pages (ph : ProgramHeader) (n : nat) : Prop :=
  p_vaddr ph + p_memsz ph <= seg_start ph + Z.of_nat n * PAGE_SIZE < p_vaddr ph + p_memsz ph + PAGE_SIZE.

(** The fields of a header are 64-bit values. *)
Definition header_ok (ph : ProgramHeader) : Prop :=
  0 <= p_offset ph ∧ 0 <= p_vaddr ph ∧ 0 <= p_filesz ph ∧ 0 <= p_memsz ph ∧ 0 <= p_flags ph.

(** What an accepted header says. *)
Record placed (image : list Z) (ph : ProgramHeader) (n : nat) : Prop := {
  pl_some : (0 < n)%nat;
  pl_pages : seg_pages ph n;
  pl_window : USER_TEXT_BASE <= seg_start ph ∧ seg_start ph + Z.of_nat n * PAGE_SIZE <= USER_STACK_TOP;
  pl_file : p_filesz ph <= p_memsz ph ∧ p_offset ph + p_filesz ph <= Z.of_nat (length image);
  pl_flags : has_flag (p_flags ph) PF_R = true ∧ ¬ (has_flag (p_flags ph) PF_W = true ∧ has_flag (p_flags ph) PF_X = true)
}.

Lemma elf_range_inl start size : elf_validate_user_range start size = inl tt → USER_TEXT_BASE <= start ∧ start + size <= USER_STACK_TOP ∧ 0 < size.
Proof.
  unfold elf_validate_user_range, u64_checked_add. destruct (_ <=? _); [|done]. destruct (_ || _ || _) eqn:E; [done|]. intros _. lia.
Qed.

Lemma program_flags_inl flags :
  validate_program_flags flags = inl tt → has_flag flags PF_R = true ∧ ¬ (has_flag flags PF_W = true ∧ has_flag flags PF_X = true).
Proof. unfold validate_program_flags. destruct (has_flag flags PF_R), (has_flag flags PF_W), (has_flag flags PF_X); simpl; try done; intros _; (split; [done|]); by intros [? ?]. Qed.

Lemma segment_place_spec image ph :
  header_ok ph →
  match segment_place image ph with
  | inl (map_start, map_size, file_end) => ∃ n, placed image ph n ∧ map_start = seg_start ph ∧ map_size = Z.of_nat n * PAGE_SIZE ∧ file_end = p_offset ph + p_filesz ph
  | inr _ => True
  end.
Proof.
  intros (H1 & H2 & H3 & H4 & H5). unfold segment_place. destruct (Z.ltb_spec (p_memsz ph) (p_filesz ph)); [done|].
  destruct (validate_program_flags (p_flags ph)) as [[]|] eqn:Hfl; [|done]. destruct (validate_load_alignment _ _ _) as [[]|]; [|done].
  unfold u64_checked_add at 1. destruct (_ <=? u64_max); [|done]. destruct (Z.ltb_spec (Z.of_nat (length image)) (p_offset ph + p_filesz ph)); [done|].
  destruct (u64_checked_add (p_vaddr ph) (p_memsz ph)) as [seg_end|] eqn:Hse; [|done].
  assert (seg_end = p_vaddr ph + p_memsz ph) as -> by (unfold u64_checked_add in Hse; destruct (_ <=? _); congruence).
  destruct (elf_validate_user_range (p_vaddr ph) (p_memsz ph)) as [[]|] eqn:Hw; [|done].
  apply elf_range_inl in Hw as (W1 & W2 & W3). destruct (align_up _ PAGE_SIZE) as [map_end|] eqn:Hup; [|done].
  fold (seg_start ph). destruct (elf_validate_user_range (seg_start ph) (map_end - seg_start ph)) as [[]|] eqn:Hw2; [|done].
  apply elf_range_inl in Hw2 as (V1 & V2 & V3). apply align_up_spec in Hup as [Hme Hmb]. destruct (align_down_spec (p_vaddr ph)) as [Hds Hdb].
  fold (seg_start ph) in Hds, Hdb. unfold u64_checked_sub. destruct (Z.leb_spec (seg_start ph) map_end); [|lia].
  assert ((map_end - seg_start ph) mod PAGE_SIZE = 0) as Hal by (rewrite Zminus_mod; unfold page_aligned in *; by rewrite Hme, Hds).
  destruct (pages_of_size (map_end - seg_start ph) V3 Hal) as [Hn Hsz]. set (n := Z.to_nat _) in *. exists n.
  split_and!; [|done|done|done]. split; [done|unfold seg_pages; lia|lia|lia|by apply program_flags_inl].
Qed.

(** A segment of the image in the space [r]: every address of its pages maps
    to the run with the rights the header grants and holds the image's byte. *)
Definition seg_at (m : Mmu) (r : Z) (image : list Z) (ph : ProgramHeader) (start : Z) (n : nat) : Prop :=
  (∀ a, in_run (seg_start ph) n a →
     query_user_mapping (memory m) r a = Some (run_info start (map_flags_from_program_flags (p_flags ph)) (seg_start ph) a)) ∧
  run_holds m start n (λ i, seg_byte image ph (seg_start ph + i)).

Definition seg_of (ph : ProgramHeader) (start : Z) (n : nat) : UserElfSegment :=
  mkUserElfSegment (seg_start ph) (Z.of_nat n * PAGE_SIZE) (run_range start n) (map_flags_from_program_flags (p_flags ph)).

Lemma patched_seg image ph n i :
  header_ok ph → placed image ph n →
  overlay (λ _, 0) (p_vaddr ph - seg_start ph) (take (Z.to_nat (p_filesz ph)) (drop (Z.to_nat (p_offset ph)) image)) i = seg_byte image ph (seg_start ph + i).
Proof.
  intros (H1 & H2 & H3 & H4 & H5) [_ _ _ [F1 F2] _]. unfold overlay, seg_byte.
  rewrite length_take, length_drop. replace (Z.of_nat (Z.to_nat (p_filesz ph) `min` (length image - Z.to_nat (p_offset ph)))) with (p_filesz ph) by lia.
  destruct (decide (p_vaddr ph - seg_start ph <= i < _)); [rewrite decide_True by lia|by rewrite decide_False by lia].
  rewrite lookup_take_lt, lookup_drop by lia. do 2 f_equal. lia.
Qed.

Lemma load_segment_spec m live pool r image ph loaded :
  machine_ok m live pool → ranges_ok m → r ∈ live → header_ok ph → Forall is_byte image →
  wp (load_segment image r ph loaded) (λ res m', kept m m' ∧ untouched (λ f, f ∈ pool) m m' ∧
    match res with
    | inl loaded' => p_memsz ph = 0 ∧ loaded' = loaded ∧ m' = m ∨ p_memsz ph ≠ 0 ∧
        ∃ start n, loaded' = loaded ++ [seg_of ph start n] ∧ placed image ph n ∧
          run_ok m start n ∧ run_set start n ⊆ pool ∧ machine_ok m' live (pool ∖ run_set start n) ∧ seg_at m' r image ph start n ∧
          run_mapped live r (seg_start ph) start n (map_flags_from_program_flags (p_flags ph)) m m'
    | inr _ => machine_ok m' live pool ∧ others_kept live r m m'
    end) m.
Proof.
  intros Hm Hr Hlive Hph Hb. unfold load_segment. destruct (Z.eqb_spec (p_memsz ph) 0) as [|Hne]; [apply wp_ret; split_and!; [done..|by left]|].
  pose proof (segment_place_spec image ph Hph) as Hpl. destruct (segment_place image ph) as [[[map_start map_size] file_end]|e]; [|by apply wp_ret].
  destruct Hpl as (n & Hpl & -> & -> & ->). pose proof Hpl as [Hn _ [Hlo Hhi] [F1 F2] _]. rewrite Z.div_mul, Nat2Z.id by done.
  destruct (align_down_spec (p_vaddr ph)) as [Hds Hdb]. fold (seg_start ph) in Hds, Hdb. pose proof Hph as (H1 & H2 & H3 & H4 & H5).
  apply (fresh_run m live pool n _ (mret (inr ElfFrameAllocationFailed))); [done|done|by apply wp_ret|].
  intros start m1 Hrun Hsub K1 O1 Q1 Hm1 Hz. cbn [r_start r_end]. apply wp_bind. unfold slice. apply wp_bind, wp_assert; [lia|]. apply wp_ret.
  replace (p_offset ph + p_filesz ph - p_offset ph) with (p_filesz ph) by lia. apply wp_bind.
  eapply wp_mono; [apply (patch_run m1 live (pool ∖ run_set start n) start n); [done|done|apply pool_apart|done|by apply Forall_take, Forall_drop|lia|]|].
  { rewrite length_take, length_drop. destruct Hpl as [_ [? ?] _ _ _]. lia. }
  intros [] m2 (K2 & O2 & Q2 & Hm2 & Hfill). cbv zeta.
  pose proof (kept_trans _ _ _ K1 K2) as K12. pose proof (same_queries_trans _ _ _ _ Q1 Q2) as Q12.
  assert (untouched (λ f, f ∈ pool) m m2) as O12.
  { eapply untouched_trans; [|exact O1|]; [done|]. eapply untouched_mono; [|exact O2]. intros f Hf. by apply Hsub. }
  eapply wp_mono; [apply (place_run m2 live (pool ∖ run_set start n) r _ start n); [done|by eapply ranges_ok_kept|by eapply (run_ok_kept m1)|apply pool_apart|done| |done|]|].
  { unfold USER_TEXT_BASE in Hlo. lia. }
  { unfold USER_STACK_TOP, u64_max in *. lia. }
  intros [l|e] m3 (K3 & Hres); (split; [by eapply kept_trans|]).
  - destruct Hres as (-> & O3 & Hm3 & Hmap). split.
    { eapply untouched_trans; [|exact O12|]; [done|]. eapply untouched_mono; [|exact O3]. set_solver. }
    right. split; [done|]. exists start, n. split_and!; [done|done| |done|done| |by eapply same_mapped].
    + destruct Hrun as [? Hf]. split; [done|]. intros f Hin. destruct (Hf f Hin). split; [done|]. eapply (kept_usable m1); [|done].
      unfold kept in *. congruence.
    + split; [intros a Ha; by apply Hmap|]. intros i Hi. rewrite <-(patched_seg image ph n) by done.
      eapply (run_holds_kept m2 m3); [done|by eapply (run_ok_kept m1)|apply pool_apart|done|done|done].
  - destruct Hres as (O3 & Hm3 & Hmap). rewrite (pool_back pool _ Hsub) in *. split_and!; [|done|by eapply only_range_others, same_only].
    eapply untouched_trans; [|exact O12|exact O3]. done.
Qed.

(** ** Returning the segments *)

(** The frames of a loaded segment. *)
Definition seg_run (s : UserElfSegment) (start : Z) (n : nat) : Prop := sg_frames s = run_range start n ∧ sg_size s = Z.of_nat n * PAGE_SIZE.
Definition seg_set (s : UserElfSegment) : gset Z := run_set (r_start (sg_frames s)) (Z.to_nat (sg_size s / PAGE_SIZE)).
Definition segs_set (l : list UserElfSegment) : gset Z := ⋃ (seg_set <$> l).

Lemma seg_set_run s start n : seg_run s start n → seg_set s = run_set start n.
Proof. intros [E1 E2]. unfold seg_set. rewrite E1, E2, Z.div_mul, Nat2Z.id by done. done. Qed.

(** The segments own disjoint runs. *)
Definition segs_ok (m : Mmu) (l : list UserElfSegment) : Prop :=
  Forall (λ s, ∃ start n, seg_run s start n ∧ run_ok m start n) l ∧ StronglySorted (λ s s', seg_set s ## seg_set s') l.

Lemma segs_ok_kept m m' l : kept m m' → segs_ok m l → segs_ok m' l.
Proof.
  intros Hk [H1 H2]. split; [|done]. eapply Forall_impl; [exact H1|]. intros s (start & n & Hs & Hr). exists start, n. split; [done|]. by eapply run_ok_kept.
Qed.

Lemma free_segments_spec m live pool l :
  machine_ok m live pool → ranges_ok m → segs_ok m l → segs_set l ## pool →
  wp (free_segments l) (λ _ m', kept m m' ∧ untouched (λ f, f ∈ pool ∪ segs_set l) m m' ∧ same_queries live m m' ∧
    machine_ok m' live (pool ∪ segs_set l)) m.
Proof.
  revert m pool. induction l as [|s l IH]; intros m pool Hm Hr [Hf Hs] Hd; unfold free_segments; cbn [for_each].
  { apply wp_ret. unfold segs_set. simpl. rewrite union_empty_r_L. done. }
  apply Forall_cons in Hf as [(start & n & Hseg & Hrun) Hf]. apply StronglySorted_inv in Hs as [Hs Hds].
  assert (segs_set (s :: l) = run_set start n ∪ segs_set l) as Eset by (unfold segs_set; simpl; by rewrite (seg_set_run s start n)).
  rewrite Eset in *. apply wp_bind. unfold free_segment. pose proof Hseg as [E _]. rewrite E. cbn [r_start]. destruct (run_first _ _ _ Hrun) as [Hpos _].
  rewrite (proj2 (Z.eqb_neq _ _)) by lia.
  eapply wp_mono; [apply (free_run_machine m live pool start n); [done|done|done|set_solver]|].
  intros [] m1 (K1 & O1 & Q1 & Hm1). eapply wp_mono; [apply (IH m1 (pool ∪ run_set start n)); [done|by eapply ranges_ok_kept| |]|].
  { eapply segs_ok_kept; [exact K1|]. by split. }
  { assert (run_set start n ## segs_set l); [|set_solver]. unfold segs_set. intros x Hx (Y & Hin & HY)%elem_of_union_list.
    apply list_elem_of_fmap in Hin as (s' & -> & Hs'). rewrite Forall_forall in Hds. specialize (Hds s' Hs').
    rewrite (seg_set_run s start n) in Hds by done. by apply (Hds x). }
  intros [] m2 (K2 & O2 & Q2 & Hm2). rewrite (assoc_L (∪)). split_and!; [by eapply kept_trans| |by eapply same_queries_trans|done].
  eapply untouched_trans; [|exact O1|exact O2]. intros f Hf'. apply elem_of_union. by left.
Qed.

(** ** The whole image *)

Definition in_seg (s : UserElfSegment) (a : Z) : Prop := sg_va s <= a < sg_va s + sg_size s.

(** The machine [m] after the headers [phs] of [image] were loaded into the
    space [r] of [m0], as the segments [segs]. *)
Record loaded_ok (m0 : Mmu) (live pool : gset Z) (r : Z) (image : list Z) (phs : list ProgramHeader) (segs : list UserElfSegment) (m : Mmu) : Prop := {
  lo_kept : kept m0 m;
  lo_out : untouched (λ f, f ∈ pool) m0 m;
  lo_segs : segs_ok m0 segs;
  lo_sub : segs_set segs ⊆ pool;
  lo_machine : machine_ok m live (pool ∖ segs_set segs);
  lo_headers : ∀ ph, ph ∈ phs → p_type ph = PT_LOAD → p_memsz ph ≠ 0 →
    ∃ start n, seg_of ph start n ∈ segs ∧ placed image ph n ∧ seg_at m r image ph start n;
  lo_only : ∀ s, s ∈ segs → ∃ ph start n, ph ∈ phs ∧ p_type ph = PT_LOAD ∧ s = seg_of ph start n ∧ placed image ph n ∧ seg_at m r image ph start n;
  lo_rest : ∀ r0 a, r0 ∈ live → 0 <= a → ¬ (r0 = r ∧ ∃ s, s ∈ segs ∧ in_seg s a) →
    query_user_mapping (memory m) r0 a = query_user_mapping (memory m0) r0 a
}.

(** The machine after loading failed somewhere, before the frames are
    returned. *)
Record load_failed (m0 : Mmu) (live pool : gset Z) (r : Z) (segs : list UserElfSegment) (m : Mmu) : Prop := {
  lf_kept : kept m0 m;
  lf_out : untouched (λ f, f ∈ pool) m0 m;
  lf_segs : segs_ok m0 segs;
  lf_sub : segs_set segs ⊆ pool;
  lf_machine : machine_ok m live (pool ∖ segs_set segs);
  lf_others : others_kept live r m0 m
}.

Lemma loaded_failed m0 live pool r image phs segs m : loaded_ok m0 live pool r image phs segs m → load_failed m0 live pool r segs m.
Proof. intros [H1 H2 H3 H4 H5 H6 H7 H8]. split; [done..|]. intros r0 a Hr Ha Hne. apply H8; [done|done|]. by intros [? _]. Qed.

Lemma loaded_none m live pool r image : machine_ok m live pool → loaded_ok m live pool r image [] [] m.
Proof.
  intros Hm. split; [done|done|split; [apply Forall_nil_2|apply SSorted_nil]|apply empty_subseteq| |intros ph H; by apply elem_of_nil in H|intros s H; by apply elem_of_nil in H|done].
  unfold segs_set. simpl. by rewrite difference_empty_L.
Qed.

(** Headers that load nothing. *)
Lemma loaded_skip m0 live pool r image phs segs m ph :
  loaded_ok m0 live pool r image phs segs m → p_type ph ≠ PT_LOAD ∨ p_memsz ph = 0 → loaded_ok m0 live pool r image (phs ++ [ph]) segs m.
Proof.
  intros [H1 H2 H3 H4 H5 H6 H7 H8] Hph. split; [done..| | |done].
  - intros ph' [Hin|Hin]%elem_of_app Ht Hz; [by apply H6|]. apply list_elem_of_singleton in Hin as ->. tauto.
  - intros s Hs. destruct (H7 s Hs) as (ph' & start & n & Hin & ?). exists ph', start, n. split; [apply elem_of_app; by left|done].
Qed.

Lemma segs_set_snoc l s : segs_set (l ++ [s]) = segs_set l ∪ seg_set s.
Proof. unfold segs_set. rewrite fmap_app, union_list_app_L. simpl. by rewrite union_empty_r_L. Qed.

Lemma seg_of_run ph start n : seg_run (seg_of ph start n) start n.
Proof. done. Qed.

Lemma seg_set_sub (l : list UserElfSegment) s : s ∈ l → seg_set s ⊆ segs_set l.
Proof. intros Hs x Hx. apply elem_of_union_list. exists (seg_set s). split; [|done]. apply list_elem_of_fmap. by exists s. Qed.

(** An earlier segment keeps its place and its bytes. *)
Lemma seg_at_kept m m' live pool r image ph start n va' start' n' flags' :
  machine_ok m live pool → run_ok m start n → run_set start n ## pool → untouched (λ f, f ∈ pool) m m' →
  run_mapped live r va' start' n' flags' m m' → r ∈ live → 0 <= seg_start ph → seg_at m r image ph start n → seg_at m' r image ph start n.
Proof.
  intros Hm Hrun Hd Ho [Hnew Hold] Hr H0 [Hq Hh]. split; [|by eapply run_holds_kept]. intros a Ha. rewrite <-(Hq a Ha).
  apply Hold; [done|unfold in_run in Ha; lia|]. intros [_ Ha']. destruct (Hnew a Ha') as [Hnone _]. rewrite (Hq a Ha) in Hnone. done.
Qed.

Lemma loaded_seg_runs m0 live pool r image phs segs m s ph start n :
  loaded_ok m0 live pool r image phs segs m → s ∈ segs → s = seg_of ph start n → run_ok m start n ∧ run_set start n ## pool ∖ segs_set segs.
Proof.
  intros [H1 _ [H3 _] _ _ _ _ _] Hs ->. rewrite Forall_forall in H3. destruct (H3 _ Hs) as (start' & n' & [E1 E2] & Hrun). simpl in E1, E2.
  injection E1 as <- E1. assert (n' = n) as -> by (unfold PAGE_SIZE in *; lia). split; [by eapply run_ok_kept|].
  apply seg_set_sub in Hs. rewrite (seg_set_run _ start n) in Hs by apply seg_of_run. set_solver.
Qed.

(** One more segment. *)
Lemma loaded_snoc m0 live pool r image phs segs m ph start n m' :
  loaded_ok m0 live pool r image phs segs m → r ∈ live → p_type ph = PT_LOAD →
  kept m m' → untouched (λ f, f ∈ pool ∖ segs_set segs) m m' → placed image ph n → run_ok m start n → run_set start n ⊆ pool ∖ segs_set segs →
  machine_ok m' live (pool ∖ segs_set segs ∖ run_set start n) → seg_at m' r image ph start n →
  run_mapped live r (seg_start ph) start n (map_flags_from_program_flags (p_flags ph)) m m' →
  loaded_ok m0 live pool r image (phs ++ [ph]) (segs ++ [seg_of ph start n]) m'.
Proof.
  intros Hlo Hr Ht Hk Ho Hpl Hrun Hsub Hm' Hat Hmap. pose proof (λ s ph' start' n', loaded_seg_runs _ _ _ _ _ _ _ _ s ph' start' n' Hlo) as Hruns.
  destruct Hlo as [H1 H2 [H3 H3'] H4 H5 H6 H7 H8]. pose proof (seg_set_run _ _ _ (seg_of_run ph start n)) as Eset.
  assert (∀ s ph' start' n', s ∈ segs → s = seg_of ph' start' n' → placed image ph' n' → seg_at m r image ph' start' n' → seg_at m' r image ph' start' n') as Hearlier.
  { intros s ph' start' n' Hs E Hp. destruct (Hruns s ph' start' n' Hs E). eapply seg_at_kept; [done|done|done|done|done|done|].
    destruct Hp as [_ _ [? _] _ _]. unfold USER_TEXT_BASE in *. lia. }
  assert (kept m0 m') as Hk' by (by eapply kept_trans). split.
  - done.
  - eapply untouched_trans; [|exact H2|]; [done|]. eapply untouched_mono; [|exact Ho]. set_solver.
  - split.
    + apply Forall_app. split; [done|]. apply Forall_singleton. exists start, n. split; [done|]. eapply (run_ok_kept m); [|done]. unfold kept in *. congruence.
    + apply StronglySorted_app. split_and!; [|done|apply SSorted_cons; [apply SSorted_nil|apply Forall_nil_2]]. intros s s' Hs ->%list_elem_of_singleton.
      rewrite Eset. apply seg_set_sub in Hs. set_solver.
  - rewrite segs_set_snoc, Eset. set_solver.
  - rewrite segs_set_snoc, Eset. by rewrite <-difference_difference_l_L.
  - intros ph' [Hin|Hin]%elem_of_app Ht' Hz.
    + destruct (H6 ph' Hin Ht' Hz) as (start' & n' & Hs & Hp & Ha). exists start', n'. split_and!; [apply elem_of_app; by left|done|by eapply Hearlier].
    + apply list_elem_of_singleton in Hin as ->. exists start, n. split_and!; [apply elem_of_app; right; by left|done|done].
  - intros s [Hs|Hs]%elem_of_app.
    + destruct (H7 s Hs) as (ph' & start' & n' & Hin & Ht' & E & Hp & Ha). exists ph', start', n'. split_and!; [apply elem_of_app; by left|done|done|done|by eapply Hearlier].
    + apply list_elem_of_singleton in Hs as ->. exists ph, start, n. split_and!; [apply elem_of_app; right; by left|done|done|done|done].
  - intros r0 a Hr0 Ha Hn. rewrite <-H8; [|done|done|].
    + apply Hmap; [done|done|]. intros [-> Hin]. apply Hn. split; [done|]. eexists. split; [apply elem_of_app; right; by left|]. exact Hin.
    + intros (-> & s & Hs & Hin). apply Hn. split; [done|]. exists s. split; [apply elem_of_app; by left|done].
Qed.

Lemma load_headers_spec m0 live pool r image phs before loaded m :
  loaded_ok m0 live pool r image before loaded m → ranges_ok m0 → r ∈ live → Forall header_ok phs → Forall is_byte image →
  wp (load_headers image r phs loaded) (λ '(segs, res) m', match res with
    | inl _ => loaded_ok m0 live pool r image (before ++ phs) segs m'
    | inr _ => load_failed m0 live pool r segs m'
    end) m.
Proof.
  revert before loaded m. induction phs as [|ph phs IH]; intros before loaded m Hlo Hr Hlive Hphs Hb; cbn [load_headers].
  { apply wp_ret. by rewrite app_nil_r. }
  apply Forall_cons in Hphs as [Hph Hphs]. rewrite cons_middle, app_assoc.
  destruct (Z.eqb_spec (p_type ph) PT_LOAD) as [Ht|Ht].
  - apply wp_bind. pose proof Hlo as [H1 H2 H3 H4 H5 H6 H7 H8].
    eapply wp_mono; [apply (load_segment_spec m live (pool ∖ segs_set loaded) r image ph loaded); [done|by eapply ranges_ok_kept|done|done|done]|].
    intros [loaded'|e] m1 (K1 & O1 & Hres).
    + destruct Hres as [(Hz & -> & ->)|(Hz & start & n & -> & Hpl & Hrun & Hsub & Hm1 & Hat & Hmap)].
      * apply IH; [apply loaded_skip; [done|by right]|done..].
      * apply IH; [by eapply loaded_snoc|done..].
    + apply wp_ret. destruct Hres as [Hm1 Hoth]. apply loaded_failed in Hlo as [L1 L2 L3 L4 L5 L6]. split; [by eapply kept_trans| |done|done|done|].
      * eapply untouched_trans; [|exact L2|]; [done|]. eapply untouched_mono; [|exact O1]. set_solver.
      * intros r0 a Hr0 Ha Hne. rewrite Hoth by done. by apply L6.
  - destruct (_ || _ || _); [apply wp_ret; by eapply loaded_failed|]. apply IH; [apply loaded_skip; [done|by left]|done..].
Qed.

(** Returning all frames of a failed load. *)
Lemma load_failed_freed {A E} m0 live pool r segs m (e : E) :
  load_failed m0 live pool r segs m → ranges_ok m0 →
  wp (free_segments segs;; mret (inr e : A + E)) (λ res m', res = inr e ∧ kept m0 m' ∧ untouched (λ f, f ∈ pool) m0 m' ∧
    machine_ok m' live pool ∧ others_kept live r m0 m') m.
Proof.
  intros [L1 L2 L3 L4 L5 L6] Hr. apply wp_bind.
  eapply wp_mono; [apply (free_segments_spec m live (pool ∖ segs_set segs)); [done|by eapply ranges_ok_kept|by eapply segs_ok_kept|apply pool_apart]|].
  intros [] m1 (K1 & O1 & Q1 & Hm1). rewrite (pool_back _ _ L4) in *. apply wp_ret. split_and!; [done|by eapply kept_trans| |done|].
  - eapply untouched_trans; [|exact L2|exact O1]. done.
  - intros r0 a Hr0 Ha Hne. rewrite Q1 by done. by apply L6.
Qed.

(** The rights a loaded page has. *)
Lemma program_rights flags :
  flags_contain (map_flags_from_program_flags flags) USER_WRITE = has_flag flags PF_W ∧
  flags_contain (map_flags_from_program_flags flags) USER_EXECUTE = has_flag flags PF_X.
Proof. unfold map_flags_from_program_flags. by destruct (has_flag flags PF_W), (has_flag flags PF_X). Qed.

(** A page the load added. *)
Lemma loaded_page m0 live pool r image phs segs m a i :
  loaded_ok m0 live pool r image phs segs m → r ∈ live → 0 <= a → query_user_mapping (memory m) r a = Some i →
  query_user_mapping (memory m0) r a = Some i ∨ in_window a ∧ um_readable i = true ∧ ¬ (um_writable i = true ∧ um_executable i = true).
Proof.
  intros Hlo Hr Ha Hi. destruct (decide (Exists (λ s, in_seg s a) segs)) as [Hex|Hno].
  - right. apply Exists_exists in Hex as (s & Hs & Hin). destruct (lo_only _ _ _ _ _ _ _ _ Hlo s Hs) as (ph & start & n & _ & _ & -> & Hpl & Hq & _).
    rewrite (Hq a Hin) in Hi. injection Hi as <-. destruct Hpl as [_ _ [W1 W2] _ [_ F]]. split_and!; [|done|].
    + unfold in_seg, seg_of in Hin. simpl in Hin. unfold in_window. lia.
    + unfold run_info. cbn [um_writable um_executable]. destruct (program_rights (p_flags ph)) as [-> ->]. done.
  - left. rewrite <-Hi. symmetry. apply (lo_rest _ _ _ _ _ _ _ _ Hlo); [done|done|]. intros (_ & s & Hs & Hin). apply Hno, Exists_exists. eauto.
Qed.

(** Loading a program file. *)
Lemma load_elf_spec minimal_parse reserve m live pool r image :
  machine_ok m live pool → ranges_ok m → r ∈ live → Forall is_byte image →
  (∀ file phs, minimal_parse image = Some file → ef_segments file = Some phs → Forall header_ok phs) →
  wp (load_user_elf minimal_parse reserve image r) (λ res m', kept m m' ∧ untouched (λ f, f ∈ pool) m m' ∧
    match res with
    | inl img => ∃ file phs, minimal_parse image = Some file ∧ ef_segments file = Some phs ∧
        ui_entry img = ef_entry file ∧ in_window (ui_entry img) ∧ ui_segments img ≠ [] ∧
        loaded_ok m live pool r image phs (ui_segments img) m' ∧
        ∀ a i, 0 <= a → query_user_mapping (memory m') r a = Some i →
          query_user_mapping (memory m) r a = Some i ∨
          in_window a ∧ um_readable i = true ∧ ¬ (um_writable i = true ∧ um_executable i = true)
    | inr _ => machine_ok m' live pool ∧ others_kept live r m m'
    end) m.
Proof.
  intros Hm Hr Hlive Hb Hphs. unfold load_user_elf. destruct (minimal_parse image) as [file|] eqn:Hp; [|by apply wp_ret].
  apply wp_try, wp_ret. destruct (validate_header file) as [[]|]; [|done]. apply wp_try, wp_ret. destruct (reject_relocations file) as [[]|]; [|done].
  cbv zeta. apply wp_try, wp_ret. destruct (elf_validate_user_range (ef_entry file) 1) as [[]|] eqn:He; [|done].
  apply elf_range_inl in He as (E1 & E2 & _). unfold load_segments.
  destruct (ef_segments file) as [[|ph phs]|] eqn:Hs; [apply wp_bind, wp_ret, wp_bind, wp_ret, wp_ret; by split_and!| |apply wp_bind, wp_ret, wp_bind, wp_ret, wp_ret; by split_and!].
  destruct (reserve (length (ph :: phs))); [|apply wp_bind, wp_ret, wp_bind, wp_ret, wp_ret; by split_and!]. cbn [negb].
  apply wp_bind, wp_bind. eapply wp_mono; [apply (load_headers_spec m live pool r image (ph :: phs) [] [] m); [by apply loaded_none|done|done|by eapply Hphs|done]|].
  intros [segs [[]|e]] m1 H1; apply wp_ret.
  2: { eapply wp_mono; [by apply load_failed_freed|]. by intros res m2 (-> & H). }
  destruct (decide (segs = [])) as [->|Hne].
  { eapply wp_mono; [eapply load_failed_freed; [by eapply loaded_failed|done]|]. by intros res m2 (-> & H). }
  apply wp_ret. split_and!; [apply H1|apply H1|]. exists file, (ph :: phs). split_and!; [done|done|done|unfold in_window; simpl; lia|done|done|].
  intros a i Ha Hi. by eapply loaded_page.
Qed.

(** * The image claims *)

(** C13: loading a program file never panics.  When it succeeds, every byte of
    every loadable segment is mapped in the user window of the target space,
    readable, writable and executable as its header says and never both, and
    holds the byte of the file, or zero behind the file's part and in the rest
    of its pages; every page the load added is such a page; exactly the frames
    of the segments left the pool, and everything else translates as before.
    When it fails, every frame it took is back in the pool, and no other
    address space translates differently.  Either way memory outside the pool
    is untouched. *)
Theorem elf_load_exact minimal_parse reserve m live pool r image :
  machine_ok m live pool → ranges_ok m → r ∈ live → Forall is_byte image →
  (∀ file phs, minimal_parse image = Some file → ef_segments file = Some phs → Forall header_ok phs) →
  ∃ res m', load_user_elf minimal_parse reserve image r m = Done (res, m') ∧ kept m m' ∧ untouched (λ f, f ∈ pool) m m' ∧
    match res with
    | inl img => ∃ file phs, minimal_parse image = Some file ∧ ef_segments file = Some phs ∧
        ui_entry img = ef_entry file ∧ in_window (ui_entry img) ∧ ui_segments img ≠ [] ∧
        loaded_ok m live pool r image phs (ui_segments img) m' ∧
        ∀ a i, 0 <= a → query_user_mapping (memory m') r a = Some i →
          query_user_mapping (memory m) r a = Some i ∨
          in_window a ∧ um_readable i = true ∧ ¬ (um_writable i = true ∧ um_executable i = true)
    | inr _ => machine_ok m' live pool ∧ others_kept live r m m'
    end.
Proof. intros. apply wp_run. by apply load_elf_spec. Qed.

(** A file with one segment: four bytes of code, the rest of the page zero. *)
Definition demo_image : list Z := [0; 0; 0; 0; 11; 22; 33; 44].
Definition demo_header : ProgramHeader := mkProgramHeader PT_LOAD (PF_R + PF_X) 4 (USER_TEXT_BASE + 4) 4 8 4.
Definition demo_file : ElfFile := mkElfFile true true ET_EXEC EM_AARCH64 (USER_TEXT_BASE + 4) (Some [demo_header]) None.
Definition demo_parse (image : list Z) : option ElfFile := Some demo_file.

Definition load_demo : outcome ((UserElfImage + ElfLoadError) * Mmu) := load_user_elf demo_parse (λ _, true) demo_image first_root one_space.

#[local] Opaque one_space load_user_elf.

Lemma one_space_ranges : ranges_ok one_space.
Proof.
  unfold ranges_ok. assert (usable one_space = [mkRange 0x40000000 0x40020000]) as -> by (vm_compute; reflexivity).
  split; [|repeat constructor]. constructor; [|constructor]. vm_compute. repeat split; congruence.
Qed.

Lemma elf_load_exact_witness :
  ∃ img m', load_demo = Done (inl img, m') ∧ length (ui_segments img) = 1%nat ∧
    loaded_ok one_space {[first_root]} (list_to_set space_frames) first_root demo_image [demo_header] (ui_segments img) m'.
Proof.
  destruct (elf_load_exact demo_parse (λ _, true) one_space {[first_root]} (list_to_set space_frames) first_root demo_image one_space_ok)
    as (res & m' & H & _ & _ & Hres).
  - exact one_space_ranges.
  - by apply elem_of_singleton.
  - repeat (constructor; [split; [discriminate|reflexivity]|]). constructor.
  - intros file phs [= <-] [= <-]. constructor; [|constructor]. vm_compute. repeat split; discriminate.
  - assert (option_map (λ r : UserElfImage + ElfLoadError, match r with inl img => Some (length (ui_segments img)) | inr _ => None end)
              (value_of load_demo) = Some (Some 1%nat)) as E by (vm_compute; reflexivity).
    unfold load_demo in *. rewrite H in E. destruct res as [img|e]; [|discriminate E]. injection E as E.
    destruct Hres as (file & phs & [= <-] & [= <-] & _ & _ & _ & Hlo & _). exists img, m'. split; [exact H|]. split; [exact E|exact Hlo].
Defined.
