(* ===== verification/ExecStack.v ===== *)
(** * Program arguments

    [kernel/src/process/image.rs]: collecting the argument and environment
    strings of a program within the budget of the user stack, and laying them
    out on the new stack: strings from the top down, below them the count, the
    argument pointers, a null, the environment pointers, a null.

    [reserve n]: whether the heap grants room for [n] more elements. *)

From stdpp Require Import gmap.
From S2P Require Import Prelude Types Vm MemMap FrameAlloc PageTable PhysMem Sched AddressSpace UserCopy UserImage.
#[local] Open Scope Z_scope.

(** Error numbers, [kernel/src/errno.rs]. *)
Abbreviation Errno := Z.
Definition EPERM : Errno := 1.
Definition ENOENT : Errno := 2.
Definition ESRCH : Errno := 3.
Definition EIO : Errno := 5.
Definition E2BIG : Errno := 7.
Definition ENOEXEC : Errno := 8.
Definition EBADF : Errno := 9.
Definition ECHILD : Errno := 10.
Definition EAGAIN : Errno := 11.
Definition ENOMEM : Errno := 12.
Definition EACCES : Errno := 13.
Definition EFAULT : Errno := 14.
Definition EBUSY : Errno := 16.
Definition ENOTDIR : Errno := 20.
Definition EISDIR : Errno := 21.
Definition EINVAL : Errno := 22.
Definition EMFILE : Errno := 24.
Definition EROFS : Errno := 30.
Definition ERANGE : Errno := 34.
Definition ENAMETOOLONG : Errno := 36.
Definition ENOSYS : Errno := 38.
Definition EOVERFLOW : Errno := 75.
Definition ENOTSUP : Errno := 95.

Definition USER_STACK_SIZE : Z := 64 * 1024.
Definition EXEC_STACK_WORD_BYTES : Z := 8.

Inductive ExecStringVector := Argv | Envp.

Record ExecArgs := mkExecArgs { ea_argv : list (list Z); ea_envp : list (list Z); ea_string_bytes : Z }.

Definition exec_args_empty : ExecArgs := mkExecArgs [] [] 0.

(** [1 + argc + 1 + envc + 1] *)
Definition exec_stack_table_words (argc envc : Z) : option Z :=
  w ← u64_checked_add 1 argc; w ← u64_checked_add w 1; w ← u64_checked_add w envc; u64_checked_add w 1.

Definition exec_arg_string_budget (argc envc : Z) : option Z :=
  w ← exec_stack_table_words argc envc;
  table_bytes ← u64_checked_mul w EXEC_STACK_WORD_BYTES;
  u64_checked_sub USER_STACK_SIZE table_bytes.

Definition exec_vector_slot_increment (vector target : ExecStringVector) : Z :=
  match vector, target with Argv, Argv | Envp, Envp => 1 | _, _ => 0 end.

(** The budget when the vector grows by one string. *)
Definition next_budget (args : ExecArgs) (vector : ExecStringVector) : option Z :=
  exec_arg_string_budget (Z.of_nat (length (ea_argv args)) + exec_vector_slot_increment vector Argv)
                         (Z.of_nat (length (ea_envp args)) + exec_vector_slot_increment vector Envp).

Definition exec_args_push (reserve : nat → bool) (vector : ExecStringVector) (value : list Z) (args : ExecArgs) : ExecArgs + Errno :=
  match u64_checked_add (Z.of_nat (length value)) 1, next_budget args vector with
  | None, _ | Some _, None => inr E2BIG
  | Some bytes_with_nul, Some budget =>
      match u64_checked_add (ea_string_bytes args) bytes_with_nul with
      | None => inr E2BIG
      | Some next_bytes =>
          if budget <? next_bytes then inr E2BIG
          else match vector with
               | Argv => if reserve 1%nat then inl (mkExecArgs (ea_argv args ++ [value]) (ea_envp args) next_bytes) else inr ENOMEM
               | Envp => if reserve 1%nat then inl (mkExecArgs (ea_argv args) (ea_envp args ++ [value]) next_bytes) else inr ENOMEM
               end
      end
  end.

Definition remaining_for_next (vector : ExecStringVector) (args : ExecArgs) : Z + Errno :=
  match next_budget args vector with
  | None => inr E2BIG
  | Some budget => match u64_checked_sub budget (ea_string_bytes args) with None => inr E2BIG | Some n => inl n end
  end.

(** ** Writing to the new stack *)

Section stack.
Context (stack : OwnedUserStack).

Definition write_stack_bytes (stack_base user_va : Z) (bytes : list Z) : K (option unit) :=
  if decide (bytes = []) then mret (Some tt)
  else match u64_checked_sub user_va stack_base with
       | None => mret None
       | Some offset =>
           match u64_checked_add offset (Z.of_nat (length bytes)) with
           | None => mret None
           | Some fin =>
               if USER_STACK_SIZE <? fin then mret None
               else copy_bytes_to_phys (r_start (stack_frames stack) + offset) bytes;; mret (Some tt)
           end
       end.

Definition write_stack_byte (stack_base user_va byte : Z) : K (option unit) :=
  match u64_checked_sub user_va stack_base with
  | None => mret None
  | Some offset =>
      if USER_STACK_SIZE <=? offset then mret None
      else copy_bytes_to_phys (r_start (stack_frames stack) + offset) [byte];; mret (Some tt)
  end.

Definition write_stack_u64 (stack_base user_va value : Z) : K (option unit) := write_stack_bytes stack_base user_va (word_bytes value).

(** [m?] in a function that returns an option. *)
Definition opt_bind {S A B} (m : M S (option A)) (k : A → M S (option B)) : M S (option B) :=
  r ← m; match r with Some a => k a | None => mret None end.

Definition push_stack_cstr (stack_base sp : Z) (bytes : list Z) : K (option Z) :=
  match u64_checked_add (Z.of_nat (length bytes)) 1 with
  | None => mret None
  | Some len =>
      match u64_checked_sub sp len with
      | None => mret None
      | Some sp =>
          if sp <? stack_base then mret None
          else opt_bind (write_stack_bytes stack_base sp bytes)
                 (λ _, opt_bind (write_stack_byte stack_base (sp + Z.of_nat (length bytes)) 0) (λ _, mret (Some sp)))
      end
  end.

(** The strings in the order given; returns the last stack pointer and the
    addresses in that order. *)
Fixpoint push_strings (stack_base : Z) (strings : list (list Z)) (sp : Z) : K (option (Z * list Z)) :=
  match strings with
  | [] => mret (Some (sp, []))
  | s :: rest =>
      opt_bind (push_stack_cstr stack_base sp s)
        (λ sp, opt_bind (push_strings stack_base rest sp) (λ '(last, ptrs), mret (Some (last, sp :: ptrs))))
  end.

Definition stack_word_addr (sp word : Z) : option Z := w ← u64_checked_mul word EXEC_STACK_WORD_BYTES; u64_checked_add sp w.

Definition write_stack_word (stack_base sp word value : Z) : K (option unit) :=
  match stack_word_addr sp word with
  | None => mret None
  | Some addr => write_stack_u64 stack_base addr value
  end.

(** [for ptr in ptrs { write; word += 1 }] *)
Fixpoint write_pointers (stack_base sp word : Z) (ptrs : list Z) : K (option Z) :=
  match ptrs with
  | [] => mret (Some word)
  | ptr :: rest => opt_bind (write_stack_word stack_base sp word ptr) (λ _, write_pointers stack_base sp (word + 1) rest)
  end.

Definition align16 (sp : Z) : Z := Z.land sp (Z.lnot 0xf).

Context (reserve : nat → bool).

Definition build_initial_user_stack (args : ExecArgs) : K (option Z) :=
  let stack_base := us_base stack in
  let argc := Z.of_nat (length (ea_argv args)) in
  let envc := Z.of_nat (length (ea_envp args)) in
  if negb (reserve (length (ea_argv args))) || negb (reserve (length (ea_envp args))) then mret None
  else
    opt_bind (push_strings stack_base (reverse (ea_envp args)) USER_STACK_TOP) (λ '(sp, env_ptrs),
    let env_ptrs := reverse env_ptrs in
    opt_bind (push_strings stack_base (reverse (ea_argv args)) sp) (λ '(sp, arg_ptrs),
    let arg_ptrs := reverse arg_ptrs in
    let sp := align16 sp in
    match (w ← exec_stack_table_words argc envc; u64_checked_mul w EXEC_STACK_WORD_BYTES) with
    | None => mret None
    | Some table_size =>
        match u64_checked_sub sp table_size with
        | None => mret None
        | Some sp =>
            let sp := align16 sp in
            if sp <? stack_base then mret None
            else
              opt_bind (write_stack_u64 stack_base sp argc) (λ _,
              opt_bind (write_pointers stack_base sp 1 arg_ptrs) (λ word,
              opt_bind (write_stack_word stack_base sp word 0) (λ _,
              opt_bind (write_pointers stack_base sp (word + 1) env_ptrs) (λ word,
              opt_bind (write_stack_word stack_base sp word 0) (λ _,
              mret (Some sp))))))
        end
    end)).
End stack.

(** ** Collecting the strings *)

Definition exec_user_copy_errno (e : UserCopyError) : Errno :=
  match e with CopyNameTooLong => ENAMETOOLONG | CopyTooLarge => E2BIG | CopyOutOfMemory => ENOMEM | _ => EFAULT end.
Definition exec_arg_copy_errno (e : UserCopyError) : Errno :=
  match e with CopyNameTooLong | CopyTooLarge => E2BIG | CopyOutOfMemory => ENOMEM | _ => EFAULT end.

Definition map_error {S E E' A} (f : E → E') (m : M S (A + E)) : M S (A + E') :=
  r ← m; mret (match r with inl a => inl a | inr e => inr (f e) end).

Section collect.
Context (hw_translate : gmap Z Z → Z → Z → option Z) (at_s1e0r : gmap Z Z → Z → Z → bool) (current : option AddressSpaceId).
Context (reserve granted : nat → bool).

Definition read_user_usize (ptr : Z) : K (Z + Errno) :=
  bytes ←? map_error exec_user_copy_errno (copy_from_user hw_translate at_s1e0r current 8 ptr);
  mret (inl (of_bytes bytes)).

(** The loop over a vector of pointers; every string it takes uses part of the
    stack's budget, which bounds it. *)
Fixpoint copy_string_vector (fuel : nat) (vector_ptr : Z) (vector : ExecStringVector) (index : Z) (args : ExecArgs) : K (ExecArgs + Errno) :=
  match fuel with
  | O => λ _, Panic "argument vector bound"
  | S fuel' =>
      match (o ← u64_checked_mul index 8; u64_checked_add vector_ptr o) with
      | None => mret (inr EFAULT)
      | Some addr =>
          ptr ←? read_user_usize addr;
          if ptr =? 0 then mret (inl args)
          else
            remaining ←? mret (remaining_for_next vector args);
            match u64_checked_sub remaining 1 with
            | None => mret (inr E2BIG)
            | Some max_string_len =>
                value ←? map_error exec_arg_copy_errno
                           (copy_cstr_from_user hw_translate at_s1e0r current granted ptr (Z.to_nat max_string_len));
                args ←? mret (exec_args_push reserve vector value args);
                match u64_checked_add index 1 with
                | None => mret (inr E2BIG)
                | Some index => copy_string_vector fuel' vector_ptr vector index args
                end
            end
      end
  end.

Definition vector_fuel : nat := S (Z.to_nat USER_STACK_SIZE).

Definition copy_exec_string_vector_from_user (vector_ptr : Z) (vector : ExecStringVector) (args : ExecArgs) : K (ExecArgs + Errno) :=
  copy_string_vector vector_fuel vector_ptr vector 0 args.

Definition copy_exec_args_from_user (path : list Z) (argv_ptr envp_ptr : Z) : K (ExecArgs + Errno) :=
  args ←? (if argv_ptr =? 0 then mret (exec_args_push reserve Argv path exec_args_empty)
           else copy_exec_string_vector_from_user argv_ptr Argv exec_args_empty);
  if envp_ptr =? 0 then mret (inl args) else copy_exec_string_vector_from_user envp_ptr Envp args.
End collect.
