(* ===== verification/ExecRead.v ===== *)
(** * The new stack, read back

    The writes of [ExecStack] as changes of the stack's contents, and the
    layout they leave.

    A program finds its arguments on its first stack through the layout the
    psABI gives: the count at the stack pointer, the argument pointers and a
    null, the environment pointers and a null, each pointer to a string with a
    NUL.  [read_args] reads that layout through the translation of an address
    space; it returns what [build_initial_user_stack] was given. *)

From stdpp Require Import gmap sorting.
From S2P Require Import Prelude Types Vm Sched MemMap MemMapSpec FrameAlloc FrameSpec MemInit PageTable PageTableSpec AddressSpace PhysMem.
From S2P Require Import UserCopy UserAccess UserSafety UserImage FrameRuns ImageSafety ExecStack.
#[local] Open Scope Z_scope.

Definition stack_base : Z := USER_STACK_TOP - USER_STACK_SIZE.
Definition stack_pages : nat := 16.

Lemma stack_pages_size : Z.of_nat stack_pages * PAGE_SIZE = USER_STACK_SIZE.
Proof. done. Qed.

(** ** Contents *)

(** [h'] is [h] from offset [x] on. *)
Definition agree (x : Z) (h h' : Z → Z) : Prop := ∀ i, x <= i → h' i = h i.

Lemma agree_trans x y h1 h2 h3 : x <= y → agree y h1 h2 → agree x h2 h3 → agree y h1 h3.
Proof. intros Hxy H1 H2 i Hi. rewrite H2 by lia. by apply H1. Qed.

(** A string with its NUL at offset [d]. *)
Definition bytes_at (h : Z → Z) (d : Z) (l : list Z) : Prop := ∀ k x, l !! k = Some x → h (d + Z.of_nat k) = x.
Abbreviation cstr_at h d s := (bytes_at h d (s ++ [0])).
Abbreviation word_at h d v := (bytes_at h d (word_bytes v)).

Lemma bytes_at_agree h h' x d l : agree x h h' → x <= d → bytes_at h d l → bytes_at h' d l.
Proof. intros Ha Hd Hb k y Hk. rewrite Ha by lia. by apply Hb. Qed.

Lemma bytes_at_overlay h d l : bytes_at (overlay h d l) d l.
Proof.
  intros k x Hk. pose proof (lookup_lt_Some _ _ _ Hk). unfold overlay. rewrite decide_True by lia.
  replace (Z.to_nat (d + Z.of_nat k - d)) with k by lia. by rewrite Hk.
Qed.

Lemma overlay_agree h d l : agree (d + Z.of_nat (length l)) h (overlay h d l).
Proof. intros i Hi. unfold overlay. by rewrite decide_False by lia. Qed.

Lemma overlay_below h d l i : i < d → overlay h d l i = h i.
Proof. intros Hi. unfold overlay. by rewrite decide_False by lia. Qed.

Section stack.
Context (m0 : Mmu) (live pool : gset Z) (start : Z) (reserve : nat → bool).
Hypothesis Hrun : run_ok m0 start stack_pages.
Hypothesis Hapart : run_set start stack_pages ## pool.

Definition the_stack : OwnedUserStack := mkOwnedUserStack (start, start + USER_STACK_SIZE) stack_base USER_STACK_SIZE.

(** The machine of [m0] with the contents [h] on the stack. *)
Record on_stack (h : Z → Z) (m : Mmu) : Prop := {
  os_kept : kept m0 m;
  os_out : untouched (λ f, f ∈ run_set start stack_pages) m0 m;
  os_queries : same_queries live m0 m;
  os_machine : machine_ok m live pool;
  os_holds : run_holds m start stack_pages h
}.

Lemma on_stack_ext h h' m : (∀ i, h' i = h i) → on_stack h m → on_stack h' m.
Proof. intros He [H1 H2 H3 H4 H5]. split; [done..|]. intros i Hi. rewrite He. by apply H5. Qed.

Lemma copy_to_stack h m d l :
  on_stack h m → Forall is_byte l → 0 <= d → d + Z.of_nat (length l) <= USER_STACK_SIZE →
  wp (copy_bytes_to_phys (start + d) l) (λ _, on_stack (overlay h d l)) m.
Proof.
  intros [H1 H2 H3 H4 H5] Hl Hd Hb.
  eapply wp_mono; [apply (patch_run m live pool start stack_pages h d l); [done|by eapply run_ok_kept|done|done|done|done|by rewrite stack_pages_size]|].
  intros [] m' (K & O & Q & Hm & Hh). split; [by eapply kept_trans| |by eapply same_queries_trans|done|done].
  eapply untouched_trans; [|exact H2|exact O]. done.
Qed.

Lemma write_bytes_spec h m va l :
  on_stack h m → Forall is_byte l → stack_base <= va → va + Z.of_nat (length l) <= USER_STACK_TOP →
  wp (write_stack_bytes the_stack stack_base va l) (λ r m', r = Some tt ∧ on_stack (overlay h (va - stack_base) l) m') m.
Proof.
  intros Hs Hl Hlo Hhi. unfold write_stack_bytes. destruct (decide (l = [])) as [->|Hne].
  { apply wp_ret. split; [done|]. eapply on_stack_ext; [|done]. intros i. unfold overlay. by rewrite decide_False by (simpl; lia). }
  unfold u64_checked_sub, u64_checked_add. rewrite (proj2 (Z.leb_le _ _)) by done.
  assert (USER_STACK_TOP - stack_base = USER_STACK_SIZE) as Es by done. assert (USER_STACK_SIZE <= u64_max) as Eu by done.
  rewrite (proj2 (Z.leb_le (va - stack_base + _) _)) by lia. rewrite (proj2 (Z.ltb_ge _ _)) by lia.
  apply wp_bind. eapply wp_mono; [apply copy_to_stack; [done|done|lia|lia]|]. intros [] m' Hm'. by apply wp_ret.
Qed.

Lemma write_byte_spec h m va x :
  on_stack h m → is_byte x → stack_base <= va < USER_STACK_TOP →
  wp (write_stack_byte the_stack stack_base va x) (λ r m', r = Some tt ∧ on_stack (overlay h (va - stack_base) [x]) m') m.
Proof.
  intros Hs Hx [Hlo Hhi]. unfold write_stack_byte, u64_checked_sub. rewrite (proj2 (Z.leb_le _ _)) by done.
  assert (USER_STACK_TOP - stack_base = USER_STACK_SIZE) as Es by done. rewrite (proj2 (Z.leb_gt _ _)) by lia.
  apply wp_bind. eapply wp_mono; [apply copy_to_stack; [done|by apply Forall_singleton|lia|simpl; lia]|]. intros [] m' Hm'. by apply wp_ret.
Qed.

Lemma wp_opt {A B} (c : K (option A)) (k : A → K (option B)) (Q : option B → Mmu → Prop) m :
  wp c (λ r m', match r with Some a => wp (k a) Q m' | None => Q None m' end) m → wp (opt_bind c k) Q m.
Proof. intros H. apply wp_bind. eapply wp_mono; [exact H|]. intros [a|] m'; [done|]. intros. by apply wp_ret. Qed.

(** ** Strings *)

Definition size_of (s : list Z) : Z := Z.of_nat (length s) + 1.
Definition total (l : list (list Z)) : Z := foldr (λ s n, size_of s + n) 0 l.

Lemma total_nonneg l : 0 <= total l.
Proof. induction l as [|s l IH]; simpl; [done|]. unfold size_of. lia. Qed.

Lemma total_app l l' : total (l ++ l') = total l + total l'.
Proof. induction l as [|s l IH]; simpl; [done|]. rewrite IH. lia. Qed.

Lemma total_reverse l : total (reverse l) = total l.
Proof. induction l as [|s l IH]; [done|]. rewrite reverse_cons, total_app, IH. simpl. lia. Qed.

Lemma push_cstr_spec h m sp s :
  on_stack h m → Forall is_byte s → stack_base <= sp <= USER_STACK_TOP →
  wp (push_stack_cstr the_stack stack_base sp s) (λ r m', match r with
    | None => sp - size_of s < stack_base ∧ m' = m
    | Some sp' => sp' = sp - size_of s ∧ stack_base <= sp' ∧
        ∃ h', on_stack h' m' ∧ agree (sp - stack_base) h h' ∧ cstr_at h' (sp' - stack_base) s
    end) m.
Proof.
  intros Hs Hb [Hlo Hhi]. unfold push_stack_cstr, size_of. assert (stack_base <= u64_max ∧ USER_STACK_TOP <= u64_max ∧ 0 <= stack_base) as (U1 & U2 & U3) by done.
  unfold u64_checked_add. destruct (Z.leb_spec (Z.of_nat (length s) + 1) u64_max); [|apply wp_ret; split; [lia|done]].
  unfold u64_checked_sub. destruct (Z.leb_spec (Z.of_nat (length s) + 1) sp); [|apply wp_ret; split; [lia|done]].
  destruct (Z.ltb_spec (sp - (Z.of_nat (length s) + 1)) stack_base); [by apply wp_ret|].
  set (sp' := sp - (Z.of_nat (length s) + 1)) in *. apply wp_opt. eapply wp_mono; [apply write_bytes_spec; [done|done|done|lia]|].
  intros r m1 (-> & S1). apply wp_opt. eapply wp_mono; [apply write_byte_spec; [exact S1|done|lia]|]. intros r m2 (-> & S2). apply wp_ret.
  split_and!; [done|done|]. eexists. split_and!; [exact S2| |].
  - intros i Hi. rewrite overlay_agree by (simpl; lia). apply overlay_agree. lia.
  - intros k x [Hk|(Hge & Hk)]%lookup_app_Some.
    + pose proof (lookup_lt_Some _ _ _ Hk). rewrite overlay_below by lia. by apply bytes_at_overlay.
    + apply list_lookup_singleton_Some in Hk as [Hk <-]. unfold overlay. rewrite decide_True by (simpl; lia).
      by replace (Z.to_nat _) with 0%nat by lia.
Qed.

(** Strings at the addresses [ptrs], within [lo, hi). *)
Definition strings_at (h : Z → Z) (lo hi : Z) (ptrs : list Z) (l : list (list Z)) : Prop :=
  Forall2 (λ p s, lo <= p ∧ p + size_of s <= hi ∧ cstr_at h (p - stack_base) s) ptrs l.

Lemma strings_at_agree h h' x lo hi lo' hi' ptrs l :
  agree x h h' → x <= lo - stack_base → lo' <= lo → hi <= hi' → strings_at h lo hi ptrs l → strings_at h' lo' hi' ptrs l.
Proof.
  intros Ha Hx Hl Hh H. eapply Forall2_impl; [exact H|]. intros p s (H1 & H2 & H3). split_and!; [lia|lia|].
  eapply bytes_at_agree; [done| |done]. lia.
Qed.

Lemma push_strings_spec l h m sp :
  on_stack h m → Forall (Forall is_byte) l → stack_base <= sp <= USER_STACK_TOP →
  wp (push_strings the_stack stack_base l sp) (λ r m', ∃ h', on_stack h' m' ∧ agree (sp - stack_base) h h' ∧
    match r with
    | None => sp - total l < stack_base
    | Some (sp', ptrs) => sp' = sp - total l ∧ stack_base <= sp' ∧ strings_at h' sp' sp ptrs l
    end) m.
Proof.
  revert h m sp. induction l as [|s l IH]; intros h m sp Hs Hl Hsp; cbn [push_strings].
  { apply wp_ret. exists h. simpl. split_and!; [done|done|lia|lia|]. apply Forall2_nil_2. }
  apply Forall_cons in Hl as [Hb Hl]. pose proof (total_nonneg l). apply wp_opt. eapply wp_mono; [by apply push_cstr_spec|].
  intros [sp1|] m1; cbv beta iota; cbn [total foldr]; fold (total l).
  2: { intros (Hlt & ->). exists h. split_and!; [done|done|lia]. }
  intros (-> & Hlo & h1 & H1 & Ha1 & Hc1). assert (0 < size_of s) as Hpos by (unfold size_of; lia).
  apply wp_opt. eapply wp_mono; [apply (IH h1 m1 (sp - size_of s)); [done|done|lia]|]. intros r m2 (h2 & H2 & Ha2 & Hres).
  assert (agree (sp - stack_base) h h2) as Ha by (eapply agree_trans; [|exact Ha1|exact Ha2]; lia).
  destruct r as [[sp2 ptrs]|]; [|exists h2; split_and!; [done|done|lia]]. destruct Hres as (-> & Hlo2 & Hst). apply wp_ret.
  exists h2. split_and!; [done|done|lia|done|]. apply Forall2_cons. split.
  - split_and!; [lia|lia|]. eapply bytes_at_agree; [exact Ha2|lia|done].
  - apply (strings_at_agree h2 h2 (sp - size_of s - total l - stack_base) (sp - size_of s - total l) (sp - size_of s)); [done|lia|lia|lia|done].
Qed.

(** ** The table of pointers *)

Definition table_at (h : Z → Z) (sp : Z) (ws : list Z) : Prop := ∀ j v, ws !! j = Some v → word_at h (sp - stack_base + 8 * Z.of_nat j) v.
Definition table_end (sp : Z) (ws : list Z) : Z := sp + 8 * Z.of_nat (length ws).

Lemma table_snoc h h' sp ws v :
  table_at h sp ws → (∀ i, i < table_end sp ws - stack_base → h' i = h i) → word_at h' (table_end sp ws - stack_base) v → table_at h' sp (ws ++ [v]).
Proof.
  intros Ht Hb Hw j x [Hj|(Hge & Hj)]%lookup_app_Some.
  - pose proof (lookup_lt_Some _ _ _ Hj). intros k y Hk. pose proof (lookup_lt_Some _ _ _ Hk) as Hk8. rewrite word_bytes_length in Hk8.
    rewrite Hb by (unfold table_end; lia). by apply (Ht j x Hj k y).
  - apply list_lookup_singleton_Some in Hj as [Hj <-]. assert (j = length ws) as -> by lia.
    replace (sp - stack_base + 8 * Z.of_nat (length ws)) with (table_end sp ws - stack_base) by (unfold table_end; lia). done.
Qed.

Lemma write_u64_spec h m va v :
  on_stack h m → stack_base <= va → va + 8 <= USER_STACK_TOP →
  wp (write_stack_u64 the_stack stack_base va v) (λ r m', r = Some tt ∧ on_stack (overlay h (va - stack_base) (word_bytes v)) m') m.
Proof. intros Hs Hlo Hhi. apply write_bytes_spec; [done|apply word_bytes_range|done|]. rewrite word_bytes_length. lia. Qed.

(** One more word of the table. *)
Lemma write_word_spec h m sp ws v :
  on_stack h m → table_at h sp ws → stack_base <= sp → table_end sp (ws ++ [v]) <= USER_STACK_TOP →
  wp (write_stack_word the_stack stack_base sp (Z.of_nat (length ws)) v)
     (λ r m', r = Some tt ∧ ∃ h', on_stack h' m' ∧ table_at h' sp (ws ++ [v]) ∧ agree (table_end sp (ws ++ [v]) - stack_base) h h') m.
Proof.
  intros Hs Ht Hlo Hhi. unfold table_end in Hhi. rewrite length_app in Hhi. simpl in Hhi.
  assert (USER_STACK_TOP <= u64_max ∧ 0 <= stack_base) as [U1 U2] by done.
  unfold write_stack_word, stack_word_addr, u64_checked_mul, EXEC_STACK_WORD_BYTES.
  rewrite (proj2 (Z.leb_le (Z.of_nat (length ws) * 8) u64_max)) by lia. cbn [mbind option_bind]. unfold u64_checked_add.
  rewrite (proj2 (Z.leb_le (sp + Z.of_nat (length ws) * 8) u64_max)) by lia.
  replace (sp + Z.of_nat (length ws) * 8) with (table_end sp ws) by (unfold table_end; lia).
  eapply wp_mono; [apply (write_u64_spec h m (table_end sp ws) v); [done|unfold table_end; lia|unfold table_end; lia]|].
  intros r m' [-> Hm']. split; [done|]. eexists. split_and!; [exact Hm'| |].
  - eapply table_snoc; [done| |]; [|apply bytes_at_overlay]. intros i Hi. by apply overlay_below.
  - intros i Hi. apply overlay_agree. rewrite word_bytes_length. unfold table_end in *. rewrite length_app in Hi. simpl in Hi. lia.
Qed.

Lemma table_end_app sp ws ws' : table_end sp (ws ++ ws') = table_end sp ws + 8 * Z.of_nat (length ws').
Proof. unfold table_end. rewrite length_app. lia. Qed.

Lemma write_pointers_spec ptrs h m sp ws :
  on_stack h m → table_at h sp ws → stack_base <= sp → table_end sp (ws ++ ptrs) <= USER_STACK_TOP →
  wp (write_pointers the_stack stack_base sp (Z.of_nat (length ws)) ptrs)
     (λ r m', r = Some (Z.of_nat (length (ws ++ ptrs))) ∧ ∃ h', on_stack h' m' ∧ table_at h' sp (ws ++ ptrs) ∧
              agree (table_end sp (ws ++ ptrs) - stack_base) h h') m.
Proof.
  revert h m ws. induction ptrs as [|p ptrs IH]; intros h m ws Hs Ht Hlo Hhi; cbn [write_pointers].
  { apply wp_ret. rewrite app_nil_r. split; [done|]. by exists h. }
  rewrite cons_middle, app_assoc in *. apply wp_opt.
  eapply wp_mono; [apply (write_word_spec h m sp ws p); [done..|]|]. { rewrite table_end_app in Hhi. lia. }
  intros r m1 (-> & h1 & H1 & T1 & A1).
  replace (Z.of_nat (length ws) + 1) with (Z.of_nat (length (ws ++ [p]))) by (rewrite length_app; simpl; lia).
  eapply wp_mono; [by apply (IH h1 m1 (ws ++ [p]))|]. intros r m2 (-> & h2 & H2 & T2 & A2). split; [done|]. exists h2. split_and!; [done|done|].
  intros i Hi. rewrite A2 by done. apply A1. rewrite table_end_app in Hi. lia.
Qed.

(** ** The whole stack *)

Record args_ok (args : ExecArgs) : Prop := {
  ao_argv : Forall (Forall is_byte) (ea_argv args);
  ao_envp : Forall (Forall is_byte) (ea_envp args)
}.

Definition table_words (args : ExecArgs) : Z := Z.of_nat (length (ea_argv args)) + Z.of_nat (length (ea_envp args)) + 3.

(** Where the stack pointer ends up. *)
Definition strings_end (args : ExecArgs) : Z := USER_STACK_TOP - total (ea_envp args) - total (ea_argv args).
Definition initial_sp (args : ExecArgs) : Z := align16 (align16 (strings_end args) - 8 * table_words args).

(** The stack a program finds. *)
Record stack_layout (h : Z → Z) (args : ExecArgs) (sp : Z) (argv envp : list Z) : Prop := {
  sl_sp : sp = initial_sp args;
  sl_range : stack_base <= sp ∧ sp + 8 * table_words args <= USER_STACK_TOP;
  sl_table : table_at h sp (Z.of_nat (length (ea_argv args)) :: argv ++ [0] ++ envp ++ [0]);
  sl_argv : strings_at h (sp + 8 * table_words args) USER_STACK_TOP argv (ea_argv args);
  sl_envp : strings_at h (sp + 8 * table_words args) USER_STACK_TOP envp (ea_envp args)
}.

Definition fits (args : ExecArgs) : Prop := stack_base <= strings_end args ∧ stack_base <= initial_sp args.

Lemma align16_spec a : align16 a mod 16 = 0 ∧ align16 a <= a < align16 a + 16.
Proof.
  unfold align16. change (Z.lnot 15) with (Z.lnot (Z.ones 4)). rewrite <-Z.ldiff_land, Z.ldiff_ones_r by done.
  rewrite Z.shiftl_mul_pow2, Z.shiftr_div_pow2 by done. change (2 ^ 4) with 16. rewrite Z.mod_mul by done.
  pose proof (Z.div_mod a 16 ltac:(done)). pose proof (Z.mod_pos_bound a 16 ltac:(done)). lia.
Qed.

Lemma strings_at_reverse h lo hi ptrs l : strings_at h lo hi ptrs (reverse l) → strings_at h lo hi (reverse ptrs) l.
Proof. intros H. unfold strings_at in *. rewrite <-(reverse_involutive l). by apply Forall2_reverse. Qed.

(** The count, the two pointer lists and their terminators. *)
Lemma write_table_spec h m sp argc argv envp :
  let ws := argc :: argv ++ [0] ++ envp ++ [0] in
  on_stack h m → stack_base <= sp → table_end sp ws <= USER_STACK_TOP →
  wp (opt_bind (write_stack_u64 the_stack stack_base sp argc) (λ _,
      opt_bind (write_pointers the_stack stack_base sp 1 argv) (λ word,
      opt_bind (write_stack_word the_stack stack_base sp word 0) (λ _,
      opt_bind (write_pointers the_stack stack_base sp (word + 1) envp) (λ word,
      opt_bind (write_stack_word the_stack stack_base sp word 0) (λ _, mret (Some sp)))))))
     (λ r m', r = Some sp ∧ ∃ h', on_stack h' m' ∧ table_at h' sp ws ∧ agree (table_end sp ws - stack_base) h h') m.
Proof.
  intros ws Hs Hlo Hhi. assert (ws = ((([argc] ++ argv) ++ [0]) ++ envp) ++ [0]) as Ews by (unfold ws; by rewrite <-!app_assoc).
  clearbody ws. subst ws. rewrite !table_end_app in Hhi. simpl in Hhi.
  apply wp_opt. eapply wp_mono; [apply (write_u64_spec h m sp argc); [done|done|unfold table_end in Hhi; simpl in Hhi; lia]|]. intros r m1 (-> & S1).
  assert (table_at (overlay h (sp - stack_base) (word_bytes argc)) sp [argc]) as T1.
  { intros j v Hj. apply list_lookup_singleton_Some in Hj as [-> <-]. rewrite Z.mul_0_r, Z.add_0_r. apply bytes_at_overlay. }
  apply wp_opt. eapply wp_mono; [apply (write_pointers_spec argv _ m1 sp [argc] S1 T1 Hlo); rewrite table_end_app; lia|].
  intros r m2 (-> & h2 & S2 & T2 & A2).
  apply wp_opt. eapply wp_mono; [apply (write_word_spec h2 m2 sp _ 0 S2 T2 Hlo); rewrite !table_end_app; simpl; lia|].
  intros r m3 (-> & h3 & S3 & T3 & A3).
  replace (Z.of_nat (length ([argc] ++ argv)) + 1) with (Z.of_nat (length (([argc] ++ argv) ++ [0]))) by (rewrite !length_app; simpl; lia).
  apply wp_opt. eapply wp_mono; [apply (write_pointers_spec envp h3 m3 sp _ S3 T3 Hlo); rewrite !table_end_app; simpl; lia|].
  intros r m4 (-> & h4 & S4 & T4 & A4).
  apply wp_opt. eapply wp_mono; [apply (write_word_spec h4 m4 sp _ 0 S4 T4 Hlo); rewrite !table_end_app; simpl; lia|].
  intros r m5 (-> & h5 & S5 & T5 & A5). apply wp_ret. split; [done|]. exists h5. split_and!; [done|done|].
  intros i Hi. rewrite !table_end_app in *. cbn [length] in *.
  rewrite A5, A4, A3, A2 by (rewrite ?table_end_app; cbn [length]; lia). apply overlay_agree. rewrite word_bytes_length. unfold table_end in Hi. simpl in Hi. lia.
Qed.

Lemma total_count l : Z.of_nat (length l) <= total l.
Proof. induction l as [|x l IH]; [done|]. cbn [total foldr length]. fold (total l). unfold size_of. lia. Qed.

Lemma table_words_eq args :
  stack_base <= strings_end args →
  (w ← exec_stack_table_words (Z.of_nat (length (ea_argv args))) (Z.of_nat (length (ea_envp args))); u64_checked_mul w EXEC_STACK_WORD_BYTES)
  = Some (8 * table_words args).
Proof.
  intros Hb. unfold strings_end in Hb. pose proof (total_count (ea_argv args)). pose proof (total_count (ea_envp args)).
  assert (stack_base + USER_STACK_SIZE = USER_STACK_TOP ∧ USER_STACK_SIZE * 8 + 24 <= u64_max) as [U1 U2] by done.
  unfold exec_stack_table_words, u64_checked_add, u64_checked_mul, EXEC_STACK_WORD_BYTES, table_words.
  repeat (rewrite (proj2 (Z.leb_le _ _)) by lia; cbn [mbind option_bind]). f_equal. lia.
Qed.

Lemma table_end_words sp (args : ExecArgs) argc argv envp :
  length argv = length (ea_argv args) → length envp = length (ea_envp args) →
  table_end sp (argc :: argv ++ [0] ++ envp ++ [0]) = sp + 8 * table_words args.
Proof. intros H1 H2. unfold table_end, table_words. simpl. rewrite length_app. simpl. rewrite length_app. simpl. lia. Qed.

(** The stack either carries the whole of the arguments or they do not fit. *)
Lemma build_stack_spec h m args :
  on_stack h m → args_ok args →
  wp (build_initial_user_stack the_stack reserve args) (λ r m', ∃ h', on_stack h' m' ∧ match r with
    | None => reserve (length (ea_argv args)) = false ∨ reserve (length (ea_envp args)) = false ∨ ¬ fits args
    | Some sp => ∃ argv envp, stack_layout h' args sp argv envp
    end) m.
Proof.
  intros Hs [Ha He]. unfold build_initial_user_stack. change (us_base the_stack) with stack_base.
  destruct (reserve (length (ea_argv args))) eqn:R1, (reserve (length (ea_envp args))) eqn:R2; cbn [negb orb];
    try (apply wp_ret; exists h; by eauto).
  assert (stack_base <= USER_STACK_TOP ∧ 0 <= stack_base) as [U1 U2] by done. unfold fits.
  apply wp_opt. eapply wp_mono; [apply (push_strings_spec (reverse (ea_envp args)) h m USER_STACK_TOP); [done|by apply Forall_reverse|lia]|].
  pose proof (total_nonneg (ea_argv args)) as N1. pose proof (total_nonneg (ea_envp args)) as N2.
  intros [[sp1 envp]|] m1 (h1 & S1 & A1 & Hr1); rewrite total_reverse in Hr1.
  2: { exists h1. split; [done|]. right; right. unfold strings_end. lia. }
  destruct Hr1 as (-> & Hlo1 & Henv). apply strings_at_reverse in Henv.
  apply wp_opt. eapply wp_mono; [apply (push_strings_spec (reverse (ea_argv args)) h1 m1); [done|by apply Forall_reverse|lia]|].
  intros [[sp2 argv]|] m2 (h2 & S2 & A2 & Hr2); rewrite total_reverse in Hr2.
  2: { exists h2. split; [done|]. right; right. unfold strings_end. lia. }
  destruct Hr2 as (-> & Hlo2 & Harg). apply strings_at_reverse in Harg. fold (strings_end args) in *. rewrite table_words_eq by done.
  set (se := strings_end args) in *. assert (table_words args >= 3) as Hw by (unfold table_words; lia).
  pose proof (align16_spec se) as [_ B1]. pose proof (align16_spec (align16 se - 8 * table_words args)) as [_ B2].
  change (align16 (align16 se - 8 * table_words args)) with (initial_sp args) in *. unfold u64_checked_sub. destruct (Z.leb_spec (8 * table_words args) (align16 se)) as [Hle|Hgt].
  2: { apply wp_ret. exists h2. split; [done|]. right; right. lia. }
  change (align16 (align16 se - 8 * table_words args)) with (initial_sp args). destruct (Z.ltb_spec (initial_sp args) stack_base) as [Hlt|Hge].
  { apply wp_ret. exists h2. split; [done|]. right; right. lia. }
  assert (se <= USER_STACK_TOP) as Hse by (unfold se, strings_end; lia).
  assert (length (reverse argv) = length (ea_argv args)) as L1 by (by eapply Forall2_length).
  assert (length (reverse envp) = length (ea_envp args)) as L2 by (by eapply Forall2_length).
  pose proof (table_end_words (initial_sp args) args (Z.of_nat (length (ea_argv args))) _ _ L1 L2) as Ete.
  eapply wp_mono; [apply (write_table_spec h2 m2); [done|done|rewrite Ete; lia]|]. intros r m3 (-> & h3 & S3 & T3 & A3). rewrite Ete in A3.
  exists h3. split; [done|]. exists (reverse argv), (reverse envp). split; [done|lia|done| |].
  - eapply strings_at_agree; [exact A3| | | |exact Harg]; lia.
  - assert (strings_at h2 (USER_STACK_TOP - total (ea_envp args)) USER_STACK_TOP (reverse envp) (ea_envp args)) as Henv2.
    { eapply strings_at_agree; [exact A2|reflexivity|reflexivity|reflexivity|exact Henv]. }
    eapply strings_at_agree; [exact A3| | |reflexivity|exact Henv2]; unfold se, strings_end in *; lia.
Qed.
End stack.

(** * The new stack, read back *)

(** What the user reads at [va] in the space [r]. *)
Definition space_byte (m : Mmu) (r va : Z) : option Z :=
  i ← query_user_mapping (memory m) r va;
  if um_readable i then Some (load_byte (memory m) (um_pa i)) else None.

Section reader.
Context (byte : Z → option Z).

Definition read_word (va : Z) : option Z := l ← mapM (λ k, byte (va + Z.of_nat k)) (seq 0 8); Some (of_bytes l).

Fixpoint read_cstr (fuel : nat) (va : Z) : option (list Z) :=
  match fuel with
  | O => None
  | S fuel' => x ← byte va; if x =? 0 then Some [] else cons x <$> read_cstr fuel' (va + 1)
  end.

Fixpoint read_vector (strings fuel : nat) (va : Z) : option (list (list Z)) :=
  match fuel with
  | O => None
  | S fuel' =>
      p ← read_word va;
      if p =? 0 then Some [] else s ← read_cstr strings p; cons s <$> read_vector strings fuel' (va + 8)
  end.

(** [fuel] bounds the lengths; the size of the stack is enough. *)
Definition read_args (fuel : nat) (sp : Z) : option (Z * list (list Z) * list (list Z)) :=
  argc ← read_word sp;
  argv ← read_vector fuel fuel (sp + 8);
  envp ← read_vector fuel fuel (sp + 8 + 8 * (Z.of_nat (length argv) + 1));
  Some (argc, argv, envp).
End reader.

Definition text (s : list Z) : Prop := Forall (λ x, 0 < x < 256) s.

(** ** Reading the layout *)

Lemma of_bytes_digits w s n : of_bytes ((λ k, (w / 256 ^ Z.of_nat k) mod 256) <$> seq s n) = (w / 256 ^ Z.of_nat s) mod 256 ^ Z.of_nat n.
Proof.
  revert s. induction n as [|n IH]; intros s; [by rewrite Z.mod_1_r|]. cbn [seq fmap list_fmap of_bytes foldr].
  fold (of_bytes ((λ k, (w / 256 ^ Z.of_nat k) mod 256) <$> seq (S s) n)). rewrite IH, !Nat2Z.inj_succ, !Z.pow_succ_r by lia.
  rewrite Z.rem_mul_r, Z.div_div by lia. by rewrite (Z.mul_comm 256 (256 ^ Z.of_nat s)).
Qed.

Lemma of_bytes_word_bytes w : 0 <= w < 2 ^ 64 → of_bytes (word_bytes w) = w.
Proof. intros H. unfold word_bytes. rewrite of_bytes_digits, Z.div_1_r. by apply Z.mod_small. Qed.

Section layout.
Context (byte : Z → option Z) (h : Z → Z).
Hypothesis Hview : ∀ i, 0 <= i < USER_STACK_SIZE → byte (stack_base + i) = Some (h i).

Lemma view_at va x : stack_base <= va < USER_STACK_TOP → h (va - stack_base) = x → byte va = Some x.
Proof. intros [H1 H2] <-. assert (USER_STACK_TOP = stack_base + USER_STACK_SIZE) by done. rewrite <-Hview by lia. f_equal. lia. Qed.

Lemma read_word_at va w :
  stack_base <= va → va + 8 <= USER_STACK_TOP → 0 <= w < 2 ^ 64 → word_at h (va - stack_base) w → read_word byte va = Some w.
Proof.
  intros H1 H2 Hw Hat. unfold read_word. rewrite (proj2 (mapM_Some _ _ (word_bytes w))).
  - cbn [mbind option_bind]. by rewrite of_bytes_word_bytes.
  - apply Forall2_same_length_lookup_2; [done|]. intros k k' x Hk Hx. apply lookup_seq in Hk as [-> Hk]. apply view_at; [lia|].
    rewrite <-(Hat k x Hx). f_equal. lia.
Qed.

Lemma read_cstr_at s fuel va :
  text s → stack_base <= va → va + size_of s <= USER_STACK_TOP → cstr_at h (va - stack_base) s → (length s < fuel)%nat →
  read_cstr byte fuel va = Some s.
Proof.
  revert fuel va. induction s as [|x s IH]; intros fuel va Ht H1 H2 Hat Hf; unfold size_of in *; (destruct fuel as [|fuel]; [lia|]); cbn [read_cstr].
  - rewrite (view_at va 0); [done|simpl in H2; lia|]. rewrite <-(Hat 0%nat 0 eq_refl). f_equal. lia.
  - apply Forall_cons in Ht as [Hx Ht]. cbn [length] in *. rewrite (view_at va x); [|lia|rewrite <-(Hat 0%nat x eq_refl); f_equal; lia].
    cbn [mbind option_bind]. rewrite (proj2 (Z.eqb_neq x 0)) by lia. rewrite IH; [done|done|lia|lia| |lia].
    intros k y Hk. rewrite <-(Hat (S k) y Hk). f_equal. lia.
Qed.

(** The strings behind a null-terminated run of pointers of the table. *)
Lemma read_vector_at ptrs l sp pre post strings fuel lo :
  table_at h sp (pre ++ ptrs ++ [0] ++ post) → stack_base <= sp → table_end sp (pre ++ ptrs ++ [0]) <= USER_STACK_TOP →
  stack_base <= lo → strings_at h lo USER_STACK_TOP ptrs l → Forall text l → USER_STACK_SIZE <= Z.of_nat strings → (length ptrs < fuel)%nat →
  read_vector byte strings fuel (table_end sp pre) = Some l.
Proof.
  intros Ht H1 H2 Hlo Hs Hl Hst. revert pre fuel Ht H2. induction Hs as [|p s ptrs l (P1 & P2 & P3) Hs IH]; intros pre fuel Ht H2 Hf;
    (destruct fuel as [|fuel]; [simpl in Hf; lia|]); cbn [read_vector]; rewrite !table_end_app, !length_app in H2; cbn [length] in *.
  - rewrite (read_word_at _ 0); [done|unfold table_end; lia|lia|done|].
    replace (table_end sp pre - stack_base) with (sp - stack_base + 8 * Z.of_nat (length pre)) by (unfold table_end; lia).
    apply Ht. rewrite lookup_app_r, Nat.sub_diag by done. done.
  - apply Forall_cons in Hl as [Hts Hl]. assert (0 < stack_base ∧ USER_STACK_TOP < 2 ^ 64 ∧ USER_STACK_TOP - stack_base = USER_STACK_SIZE) as (U1 & U2 & U3) by done.
    unfold size_of in P2. rewrite (read_word_at _ p); [|unfold table_end; lia|lia|lia|].
    2: { replace (table_end sp pre - stack_base) with (sp - stack_base + 8 * Z.of_nat (length pre)) by (unfold table_end; lia).
         apply Ht. rewrite lookup_app_r, Nat.sub_diag by done. done. }
    cbn [mbind option_bind]. rewrite (proj2 (Z.eqb_neq p 0)) by lia. rewrite (read_cstr_at s); [|done|lia|unfold size_of; lia|done|lia].
    cbn [mbind option_bind]. replace (table_end sp pre + 8) with (table_end sp (pre ++ [p])) by (rewrite table_end_app; simpl; lia).
    rewrite IH; [done|done|by rewrite <-app_assoc| |lia]. rewrite !table_end_app, !length_app. cbn [length]. lia.
Qed.

Lemma read_args_layout fuel args sp argv envp :
  USER_STACK_SIZE <= Z.of_nat fuel → stack_layout h args sp argv envp → Forall text (ea_argv args) → Forall text (ea_envp args) →
  read_args byte fuel sp = Some (Z.of_nat (length (ea_argv args)), ea_argv args, ea_envp args).
Proof.
  intros Hf [_ [R1 R2] Ht Ha He] Ta Te. pose proof (Forall2_length _ _ _ Ha) as La. pose proof (Forall2_length _ _ _ He) as Le.
  assert (USER_STACK_TOP - stack_base = USER_STACK_SIZE ∧ USER_STACK_SIZE < 2 ^ 64) as (U1 & U3) by done.
  unfold table_words in *. unfold read_args. rewrite (read_word_at sp (Z.of_nat (length (ea_argv args)))); [|lia|lia|lia|].
  2: { replace (sp - stack_base) with (sp - stack_base + 8 * Z.of_nat 0) by lia. by apply Ht. }
  cbn [mbind option_bind].
  replace (sp + 8) with (table_end sp [Z.of_nat (length (ea_argv args))]) by (unfold table_end; simpl; lia).
  rewrite (read_vector_at argv (ea_argv args) sp _ (envp ++ [0]) fuel fuel (sp + 8 * table_words args)); [|exact Ht|done| | |exact Ha|done|done|].
  2: { rewrite !table_end_app, !length_app. unfold table_end. cbn [length]. lia. }
  2-3: unfold table_words in *; lia.
  cbn [mbind option_bind].
  replace (table_end sp _ + 8 * _) with (table_end sp (Z.of_nat (length (ea_argv args)) :: argv ++ [0]))
    by (unfold table_end; cbn [length]; rewrite length_app; cbn [length]; lia).
  rewrite (read_vector_at envp (ea_envp args) sp _ [] fuel fuel (sp + 8 * table_words args)); [done| |done| | |exact He|done|done|].
  - rewrite app_nil_r. cbn [app]. rewrite <-app_assoc. exact Ht.
  - unfold table_end. rewrite length_app. cbn [length]. rewrite !length_app. cbn [length]. lia.
  - unfold table_words. lia.
  - lia.
Qed.
End layout.

(** ** The round trip *)

Lemma text_bytes s : text s → Forall is_byte s.
Proof. intros H. eapply Forall_impl; [exact H|]. unfold is_byte. lia. Qed.

(** The stack of the space [r] seen through its translation. *)
Lemma stack_view m m1 m2 live pool r start h i :
  r ∈ live → run_mapped live r stack_base start stack_pages USER_WRITE m m1 → on_stack m1 live pool start h m2 →
  0 <= i < USER_STACK_SIZE → space_byte m2 r (stack_base + i) = Some (h i).
Proof.
  intros Hr [Hq _] Hs Hi. unfold space_byte. rewrite (os_queries _ _ _ _ _ _ Hs r _ Hr).
  destruct (Hq (stack_base + i)) as [_ ->]; [unfold in_run; rewrite stack_pages_size; lia|]. cbn [mbind option_bind run_info um_readable um_pa].
  rewrite <-(os_holds _ _ _ _ _ _ Hs i) by (by rewrite stack_pages_size). do 2 f_equal. lia.
Qed.

(** A program started with [sp] in the space [r] reads its arguments, whatever
    happens to memory outside its stack. *)
Definition reads_args (m : Mmu) (r : Z) (fuel : nat) (sp : Z) (args : ExecArgs) : Prop :=
  ∀ byte, (∀ i, 0 <= i < USER_STACK_SIZE → byte (stack_base + i) = space_byte m r (stack_base + i)) →
    read_args byte fuel sp = Some (Z.of_nat (length (ea_argv args)), ea_argv args, ea_envp args).

(** Laying a program's arguments out on its new stack never panics, and the
    program reads back what was laid out; it fails only when the heap refuses
    the pointer lists or the strings and the table do not fit. *)
Lemma build_args_spec reserve m m1 live pool r start args fuel :
  run_ok m1 start stack_pages → run_set start stack_pages ## pool → machine_ok m1 live pool → r ∈ live →
  run_mapped live r stack_base start stack_pages USER_WRITE m m1 →
  Forall text (ea_argv args) → Forall text (ea_envp args) → USER_STACK_SIZE <= Z.of_nat fuel →
  wp (build_initial_user_stack (the_stack start) reserve args) (λ res m2,
    kept m1 m2 ∧ untouched (λ f, f ∈ run_set start stack_pages) m1 m2 ∧ same_queries live m1 m2 ∧ machine_ok m2 live pool ∧
    match res with
    | Some sp => sp mod 16 = 0 ∧ stack_base <= sp < USER_STACK_TOP ∧
        reads_args m2 r fuel sp args
    | None => reserve (length (ea_argv args)) = false ∨ reserve (length (ea_envp args)) = false ∨ ¬ fits args
    end) m1.
Proof.
  intros Hrun Hd Hm1 Hr Hmap Ha He Hf.
  assert (args_ok args) as Hok by (split; eapply Forall_impl; [exact Ha|apply text_bytes|exact He|apply text_bytes]).
  set (h0 := λ i, load_byte (memory m1) (start + i)). assert (on_stack m1 live pool start h0 m1) as Hs by done.
  eapply wp_mono; [exact (build_stack_spec m1 live pool start reserve Hrun Hd h0 m1 args Hs Hok)|].
  intros res m2 (h & Hs2 & Hres). split_and!; [apply Hs2..|]. destruct res as [sp|]; [|done].
  destruct Hres as (argv & envp & Hl). pose proof (sl_sp _ _ _ _ _ Hl) as Hsp. destruct (sl_range _ _ _ _ _ Hl) as [L1 L2]. split_and!; [|done| |].
  - rewrite Hsp. apply align16_spec.
  - unfold table_words in L2. lia.
  - intros byte Hbyte. apply (read_args_layout _ h) with argv envp; [|done..]. intros i Hi. rewrite Hbyte by done. by eapply stack_view.
Qed.
