(* ===== verification/Staging.v ===== *)
(** * Building a process image before it is published

    [stage_exec_image] of [kernel/src/process/exec.rs] and the eager clones of
    [kernel/src/process/fork.rs], with their errno translations of
    [kernel/src/process/error.rs]: everything here happens on the machine, in
    an address space no thread refers to yet, and is taken back on failure.

    [minimal_parse] is the ELF crate, [reserve n] whether the heap grants room
    for [n] elements, [s] the mounted file system. *)

From stdpp Require Import gmap.
From S2P Require Import Prelude Types Vm MemMap FrameAlloc PageTable PhysMem Sched AddressSpace UserCopy UserImage Ramfs PathRes ExecStack.
#[local] Open Scope Z_scope.

Definition exec_vm_errno (e : VmError) : Errno := match e with OutOfFrames => ENOMEM | _ => EINVAL end.
Definition exec_elf_errno (e : ElfLoadError) : Errno := match e with ElfFrameAllocationFailed => ENOMEM | _ => ENOEXEC end.
Definition fork_vm_errno (e : VmError) : Errno := match e with OutOfFrames => ENOMEM | _ => EINVAL end.

Record StagedProcessImage := mkStagedProcessImage {
  si_address_space : AddressSpaceId;
  si_user_image : UserElfImage;
  si_stack : OwnedUserStack;
  si_entry : Z;
  si_initial_sp : Z
}.

Section exec.
Context (minimal_parse : list Z → option ElfFile) (reserve : nat → bool) (s : FsState).

(** What a failed staging built so far. *)
Definition drop_staged (aspace : Z) (user_image : option UserElfImage) (stack : option OwnedUserStack) : K unit :=
  match user_image with Some image => free_loaded_segments image | None => mret tt end;;
  match stack with Some stack => user_stack_drop stack | None => mret tt end;;
  destroy_staged_user_address_space aspace;;
  mret tt.

Definition stage_exec_image (path : ResolvedPath) (args : ExecArgs) (owner_cpu : CpuId) : K (StagedProcessImage + Errno) :=
  match rp_node path with
  | NodeDirectory _ => mret (inr EACCES)
  | NodeFile file_index =>
      match file_data s file_index with
      | None => mret (inr ENOENT)
      | Some image =>
          aspace ←? map_error exec_vm_errno vm_create_user_address_space;
          r ← map_error exec_elf_errno (load_user_elf minimal_parse reserve image aspace);
          match r with
          | inr e => drop_staged aspace None None;; mret (inr e)
          | inl loaded =>
              r ← map_error exec_vm_errno (user_stack_allocate aspace USER_STACK_SIZE);
              match r with
              | inr e => drop_staged aspace (Some loaded) None;; mret (inr e)
              | inl stack =>
                  r ← build_initial_user_stack stack reserve args;
                  match r with
                  | None => drop_staged aspace (Some loaded) (Some stack);; mret (inr E2BIG)
                  | Some initial_sp =>
                      mret (inl (mkStagedProcessImage (mkAddressSpaceId aspace owner_cpu) loaded stack (ui_entry loaded) initial_sp))
                  end
              end
          end
      end
  end.
End exec.

(** ** The clones of [fork] *)

Definition clone_errno (e : FrameRangeCloneError) : Errno := match e with CloneInvalidRange => EINVAL | CloneOutOfFrames => ENOMEM end.

Definition clone_user_segment (segment : UserElfSegment) (dst_aspace : Z) : K (UserElfSegment + Errno) :=
  frames ←? map_error clone_errno (clone_frame_range (sg_frames segment));
  r ← vm_map_user_page_range dst_aspace (sg_va segment) (r_start frames) (sg_size segment) (sg_flags segment);
  match r with
  | inr err => on_runtime (free_contiguous_frames frames);; mret (inr (fork_vm_errno err))
  | inl _ => mret (inl (mkUserElfSegment (sg_va segment) (sg_size segment) frames (sg_flags segment)))
  end.

Definition free_user_segments (segments : list UserElfSegment) : K unit := for_each free_segment segments.

(** The loop over the parent's segments. *)
Fixpoint clone_segments (dst_aspace : Z) (src : list UserElfSegment) (segments : list UserElfSegment) : K (list UserElfSegment + Errno) :=
  match src with
  | [] => mret (inl segments)
  | segment :: rest =>
      r ← clone_user_segment segment dst_aspace;
      match r with
      | inl segment => clone_segments dst_aspace rest (segments ++ [segment])
      | inr errno => free_user_segments segments;; mret (inr errno)
      end
  end.

Definition clone_user_image (reserve : nat → bool) (src : UserElfImage) (dst_aspace : Z) : K (UserElfImage + Errno) :=
  if negb (reserve (length (ui_segments src))) then mret (inr ENOMEM)
  else
    segments ←? clone_segments dst_aspace (ui_segments src) [];
    mret (inl (mkUserElfImage (ui_entry src) segments)).
