(* ===== verification/StageSafety.v ===== *)
(** * The staging claims

    Creating and destroying address spaces as changes of the machine, the
    staged exec image, and the clones of fork.

    What [exec] and [fork] rely on before they publish an image. *)

From stdpp Require Import gmap sorting.
From S2P Require Import Prelude Types Vm Sched MemMap MemMapSpec FrameAlloc FrameSpec MemInit PageTable PageTableSpec AddressSpace SpaceSafety.
From S2P Require Import Ramfs PathRes PhysMem UserCopy UserAccess UserSafety UserImage FrameRuns ImageSafety ExecStack ExecRead.
From S2P Require Import Staging.
#[local] Open Scope Z_scope.

(** ** Address spaces of the machine *)

Lemma create_machine m live pool :
  machine_ok m live pool →
  wp vm_create_user_address_space (λ res m', kept m m' ∧ untouched (λ f, f ∈ pool) m m' ∧ same_queries live m m' ∧
    match res with
    | inl r => (r ∉ live) ∧ r ∈ pool ∧ machine_ok m' ({[r]} ∪ live) pool ∧ (∀ a, query_user_mapping (memory m') r a = None)
    | inr _ => machine_ok m' live pool
    end) m.
Proof.
  intros (T & l & Hm & Hlive). apply wp_bind. eapply wp_mono; [by apply create_spec|].
  intros [r|e] m' (T' & l' & Hm' & Hk & Ho & Hleaf & Hres); apply wp_ret; (split; [done|]; split; [done|]; split).
  - destruct Hres as (Hnone & -> & ->). intros r0 a Hr0%Hlive. assert (r0 ≠ r) by (intros ->; congruence).
    rewrite (query_leaf m' _ l' pool), (query_leaf m T _ pool) by (done || by rewrite lookup_insert_ne by congruence). by rewrite Hleaf.
  - destruct Hres as (Hnone & -> & ->). assert (r ∈ pool) as Hin by (apply (mk_pool _ _ _ _ Hm); left; left).
    split_and!; [intros Hr%Hlive; congruence|done| |].
    + exists (<[(r, []) := r]> T), l'. split; [done|]. intros r0. rewrite elem_of_union, elem_of_singleton, Hlive. split.
      * intros [->|H0]; [apply lookup_insert_eq|]. destruct (decide (r0 = r)) as [->|]; [apply lookup_insert_eq|by rewrite lookup_insert_ne by congruence].
      * intros [[[= ->] _]|[_ ?]]%lookup_insert_Some; [by left|by right].
    + intros a. rewrite (query_leaf m' _ l' pool r a Hm') by apply lookup_insert_eq. rewrite Hleaf. unfold leaf.
      destruct (T !! (r, leaf_path a)) as [c|] eqn:E; [|by destruct (is_user_va a)]. apply (tr_root _ _ (mk_tree _ _ _ _ Hm)) in E. congruence.
  - destruct Hres as (-> & _ & _ & ->). done.
  - destruct Hres as (-> & _ & -> & ->). by exists T, l'.
Qed.

Definition current_root (m : Mmu) : Z := Z.land (mm_ttbr0 m) DESC_ADDR_MASK.

Lemma current_root_kept m m' : kept m m' → current_root m' = current_root m.
Proof. intros Hk. unfold kept, settings in Hk. unfold current_root. by injection Hk as _ -> _ _ _. Qed.

Lemma destroy_machine m live pool r :
  machine_ok m live pool → r ∈ live → current_root m ≠ r →
  wp (destroy_staged_user_address_space r) (λ res m', res = inl tt ∧ kept m m' ∧ untouched (λ f, f ∈ pool) m m' ∧
    same_queries (live ∖ {[r]}) m m' ∧ machine_ok m' (live ∖ {[r]}) pool) m.
Proof.
  intros (T & l & Hm & Hlive) Hr%Hlive Hcur. unfold destroy_staged_user_address_space, arch_destroy_user_address_space, status. apply wp_bind, wp_bind.
  eapply wp_mono; [by apply (destroy_spec m T l pool r)|]. intros res m' (-> & Hk & Ho & (l' & Hm') & Hleaf). apply wp_ret, wp_ret.
  split_and!; [done|done|done| |].
  - intros r0 a [H0%Hlive Hne]%elem_of_difference. rewrite elem_of_singleton in Hne.
    rewrite (query_leaf m' _ l' pool), (query_leaf m T l pool) by (done || by rewrite without_eq). by rewrite Hleaf.
  - exists (without r T), l'. split; [done|]. intros r0. rewrite elem_of_difference, elem_of_singleton, Hlive. split.
    + intros [? ?]. by rewrite without_eq.
    + by intros [? ?]%without_lookup.
Qed.

(** ** Taking a staged image back *)

Definition image_segs (o : option UserElfImage) : list UserElfSegment := match o with Some image => ui_segments image | None => [] end.

(** The run a stack owns, if there is one. *)
Definition stack_run (o : option OwnedUserStack) (X : gset Z) (m : Mmu) : Prop :=
  match o with
  | Some s => ∃ start n, stack_frames s = run_range start n ∧ run_ok m start n ∧ X = run_set start n
  | None => X = ∅
  end.

Lemma drop_image_spec m live pool o :
  machine_ok m live pool → ranges_ok m → segs_ok m (image_segs o) → segs_set (image_segs o) ## pool →
  wp (match o with Some image => free_loaded_segments image | None => mret tt end) (λ _ m', kept m m' ∧
    untouched (λ f, f ∈ pool ∪ segs_set (image_segs o)) m m' ∧ same_queries live m m' ∧ machine_ok m' live (pool ∪ segs_set (image_segs o))) m.
Proof.
  intros Hm Hr Hs Hd. destruct o as [image|]; [by apply free_segments_spec|]. apply wp_ret. unfold segs_set. simpl. by rewrite union_empty_r_L.
Qed.

Lemma drop_stack_spec m live pool o X :
  machine_ok m live pool → ranges_ok m → stack_run o X m → X ## pool →
  wp (match o with Some stack => user_stack_drop stack | None => mret tt end) (λ _ m', kept m m' ∧
    untouched (λ f, f ∈ pool ∪ X) m m' ∧ same_queries live m m' ∧ machine_ok m' live (pool ∪ X)) m.
Proof.
  intros Hm Hr Hs Hd. destruct o as [stack|]; [|simpl in Hs; subst X; apply wp_ret; by rewrite union_empty_r_L].
  destruct Hs as (start & n & E & Hrun & ->). unfold user_stack_drop. rewrite E. cbn [r_start].
  destruct (run_first _ _ _ Hrun). rewrite (proj2 (Z.eqb_neq _ _)) by lia. by apply free_run_machine.
Qed.

Lemma stack_run_kept o X m m' : kept m m' → stack_run o X m → stack_run o X m'.
Proof. intros Hk. destruct o; [|done]. intros (start & n & E & Hrun & HX). exists start, n. split_and!; [done|by eapply run_ok_kept|done]. Qed.

Lemma drop_staged_spec m live pool r image stack X :
  machine_ok m live pool → ranges_ok m → r ∈ live → current_root m ≠ r →
  segs_ok m (image_segs image) → segs_set (image_segs image) ## pool → stack_run stack X m → X ## pool ∪ segs_set (image_segs image) →
  wp (drop_staged r image stack) (λ _ m', kept m m' ∧ untouched (λ f, f ∈ pool ∪ segs_set (image_segs image) ∪ X) m m' ∧
    same_queries (live ∖ {[r]}) m m' ∧ machine_ok m' (live ∖ {[r]}) (pool ∪ segs_set (image_segs image) ∪ X)) m.
Proof.
  intros Hm Hrg Hr Hcur Hs Hd Hst HX. apply wp_bind. eapply wp_mono; [by apply (drop_image_spec m live pool)|]. intros [] m1 (K1 & O1 & Q1 & Hm1).
  apply wp_bind. eapply wp_mono; [apply (drop_stack_spec m1 live _ stack X Hm1); [by eapply ranges_ok_kept|by eapply stack_run_kept|done]|].
  intros [] m2 (K2 & O2 & Q2 & Hm2). pose proof (kept_trans _ _ _ K1 K2) as K12.
  apply wp_bind. eapply wp_mono; [apply (destroy_machine m2 live _ r Hm2 Hr); by rewrite (current_root_kept m)|].
  intros _ m3 (_ & K3 & O3 & Q3 & Hm3). apply wp_ret. split_and!; [by eapply kept_trans| | |done].
  - eapply untouched_trans; [|eapply untouched_trans; [|exact O1|exact O2]|exact O3]; [done|]. intros f Hf. apply elem_of_union. by left.
  - intros r0 a H0. rewrite Q3, Q2, Q1 by set_solver. done.
Qed.

(** Every address space of [live] translates as before. *)
Definition spaces_kept (live : gset Z) (m m' : Mmu) : Prop :=
  ∀ r a, r ∈ live → 0 <= a → query_user_mapping (memory m') r a = query_user_mapping (memory m) r a.

Lemma spaces_kept_trans live m1 m2 m3 : spaces_kept live m1 m2 → spaces_kept live m2 m3 → spaces_kept live m1 m3.
Proof. intros H1 H2 r a Hr Ha. by rewrite H2, H1. Qed.

Lemma queries_spaces live live' m m' : live ⊆ live' → same_queries live' m m' → spaces_kept live m m'.
Proof. intros Hs H r a Hr Ha. apply H. by apply Hs. Qed.

Lemma others_spaces live r m m' : r ∉ live → others_kept ({[r]} ∪ live) r m m' → spaces_kept live m m'.
Proof. intros Hs H r0 a Hr Ha. apply H; [set_solver|done|]. by intros ->. Qed.

Lemma mapped_spaces live r va start n flags m m' : r ∉ live → run_mapped ({[r]} ∪ live) r va start n flags m m' → spaces_kept live m m'.
Proof. intros Hs H. eapply others_spaces; [done|]. eapply only_range_others, run_mapped_only, H. Qed.

(** The machine while the new space [r] is being filled: the frames of the
    pool it has not taken yet, and the spaces of [m0] as they were. *)
Record staging (m0 : Mmu) (live pool : gset Z) (r : Z) (taken : gset Z) (m : Mmu) : Prop := {
  stg_kept : kept m0 m;
  stg_out : untouched (λ f, f ∈ pool) m0 m;
  stg_spaces : spaces_kept live m0 m;
  stg_taken : taken ⊆ pool;
  stg_machine : machine_ok m ({[r]} ∪ live) (pool ∖ taken)
}.

Lemma staging_step m0 live pool r taken m X m' :
  staging m0 live pool r taken m → kept m m' → untouched (λ f, f ∈ pool ∖ taken) m m' → spaces_kept live m m' → X ⊆ pool ∖ taken →
  machine_ok m' ({[r]} ∪ live) (pool ∖ taken ∖ X) → staging m0 live pool r (taken ∪ X) m'.
Proof.
  intros [H1 H2 H3 H4 H5] K O Q HX Hm. split; [by eapply kept_trans| |by eapply spaces_kept_trans|set_solver|by rewrite <-difference_difference_l_L].
  eapply untouched_trans; [|exact H2|]; [done|]. eapply untouched_mono; [|exact O]. set_solver.
Qed.

(** A failed staging leaves nothing behind. *)
Lemma abandon_spec {A} m0 live pool r m image stack X (e : Errno) :
  staging m0 live pool r (segs_set (image_segs image) ∪ X) m → ranges_ok m0 → r ∉ live → current_root m0 ≠ r →
  segs_ok m0 (image_segs image) → stack_run stack X m0 → X ## segs_set (image_segs image) →
  wp (drop_staged r image stack;; mret (inr e : A + Errno)) (λ res m', res = inr e ∧ kept m0 m' ∧ untouched (λ f, f ∈ pool) m0 m' ∧
    spaces_kept live m0 m' ∧ machine_ok m' live pool) m.
Proof.
  intros [H1 H2 H3 H4 H5] Hrg Hr Hcur Hs Hst HX. apply wp_bind. set (Y := segs_set (image_segs image)) in *.
  assert (pool ∖ (Y ∪ X) ∪ Y ∪ X = pool) as Epool by (rewrite <-(assoc_L (∪)); by apply pool_back).
  assert (({[r]} ∪ live) ∖ {[r]} = live) as Elive by set_solver.
  eapply wp_mono; [apply (drop_staged_spec m ({[r]} ∪ live) (pool ∖ (Y ∪ X)) r image stack X H5);
    [by eapply ranges_ok_kept|set_solver|by rewrite (current_root_kept m0)|by eapply segs_ok_kept|fold Y; set_solver|by eapply stack_run_kept|fold Y; set_solver]|].
  fold Y. rewrite Epool, Elive. intros [] m' (K & O & Q & Hm). apply wp_ret. split_and!; [done|by eapply kept_trans| | |done].
  - eapply untouched_trans; [|exact H2|exact O]. done.
  - eapply spaces_kept_trans; [done|]. by eapply queries_spaces.
Qed.

(** ** The image of [exec] *)

(** The new image in the machine [m'] that [m] became. *)
Record exec_image_ok (minimal_parse : list Z → option ElfFile) (m : Mmu) (live pool : gset Z) (image : list Z) (args : ExecArgs) (fuel : nat)
    (st : StagedProcessImage) (m' : Mmu) : Prop := {
  ei_fresh : root_pa (si_address_space st) ∉ live;
  ei_root : root_pa (si_address_space st) ∈ pool;
  ei_file : ∃ file phs, minimal_parse image = Some file ∧ ef_segments file = Some phs ∧ si_entry st = ef_entry file ∧
    (∀ ph, ph ∈ phs → p_type ph = PT_LOAD → p_memsz ph ≠ 0 → ∃ start n, seg_of ph start n ∈ ui_segments (si_user_image st) ∧
       placed image ph n ∧ seg_at m' (root_pa (si_address_space st)) image ph start n);
  ei_only : ∀ s, s ∈ ui_segments (si_user_image st) → ∃ ph start n, s = seg_of ph start n ∧ placed image ph n ∧
    seg_at m' (root_pa (si_address_space st)) image ph start n;
  ei_args : reads_args m' (root_pa (si_address_space st)) fuel (si_initial_sp st) args;
  ei_sp : si_initial_sp st mod 16 = 0 ∧ stack_base <= si_initial_sp st < USER_STACK_TOP;
  ei_owned : ∃ start, si_stack st = the_stack start ∧ run_ok m start stack_pages ∧
    (∀ a, in_run stack_base stack_pages a → query_user_mapping (memory m') (root_pa (si_address_space st)) a = Some (run_info start USER_WRITE stack_base a)) ∧ segs_ok m (ui_segments (si_user_image st)) ∧
    run_set start stack_pages ## segs_set (ui_segments (si_user_image st)) ∧
    staging m live pool (root_pa (si_address_space st)) (segs_set (ui_segments (si_user_image st)) ∪ run_set start stack_pages) m';
  ei_mapped : ∀ a, 0 <= a → is_Some (query_user_mapping (memory m') (root_pa (si_address_space st)) a) →
    (∃ s, s ∈ ui_segments (si_user_image st) ∧ in_seg s a) ∨ in_run stack_base stack_pages a
}.

Lemma run_mapped_same live r va start n flags m m1 m2 :
  r ∈ live → 0 <= va → run_mapped live r va start n flags m m1 → same_queries live m1 m2 → run_mapped live r va start n flags m m2.
Proof.
  intros Hr Hva [H1 H2] Hq. split.
  - intros a Ha. destruct (H1 a Ha) as [? <-]. split; [done|]. by apply Hq.
  - intros r0 a Hr0 Ha Hn. rewrite Hq by done. by apply H2.
Qed.

(** The stack's part of the staging: allocating it and filling it keeps the
    loaded segments where they are. *)
Lemma stack_keeps_segment m1 m2 m4 live pool r image phs segs start ph st n :
  loaded_ok m1 live pool r image phs segs m2 → r ∈ live →
  run_mapped live r stack_base start stack_pages USER_WRITE m2 m4 → untouched (λ f, f ∈ pool ∖ segs_set segs) m2 m4 →
  seg_of ph st n ∈ segs → placed image ph n → seg_at m2 r image ph st n → seg_at m4 r image ph st n.
Proof.
  intros Hlo Hr Hmap Ho Hseg Hpl Hat. destruct (loaded_seg_runs _ _ _ _ _ _ _ _ _ _ _ _ Hlo Hseg eq_refl) as [Hrun Hd].
  eapply (seg_at_kept m2 m4); [apply Hlo|done|done|done|done|done| |done]. destruct Hpl as [_ _ [? _] _ _]. unfold USER_TEXT_BASE in *. lia.
Qed.

(** A space built from nothing maps its program and its stack alone. *)
Lemma built_only m0 m1 m2 spaces pool r data phs segs base start n flags a :
  loaded_ok m0 spaces pool r data phs segs m1 → (∀ a, 0 <= a → query_user_mapping (memory m0) r a = None) → r ∈ spaces →
  run_mapped spaces r base start n flags m1 m2 → 0 <= a → is_Some (query_user_mapping (memory m2) r a) →
  (∃ s, s ∈ segs ∧ in_seg s a) ∨ in_run base n a.
Proof.
  intros Hlo Hnone Hr Hmap Ha Hq. destruct (decide (base <= a < base + Z.of_nat n * PAGE_SIZE)) as [|Hout]; [by right|left].
  rewrite (proj2 Hmap r a) in Hq; [|done|done|by intros [_ Hx]].
  destruct (decide (Exists (λ s, in_seg s a) segs)) as [Hex%Exists_exists|Hn]; [done|].
  rewrite (lo_rest _ _ _ _ _ _ _ _ Hlo), Hnone in Hq; [by destruct Hq|done|done|done|]. rewrite <-Exists_exists. by intros [_ ?].
Qed.

Lemma wp_map_error {S E E' A} (f : E → E') (c : M S (A + E)) (Q : A + E' → S → Prop) s :
  wp c (λ r s', Q (match r with inl a => inl a | inr e => inr (f e) end) s') s → wp (map_error f c) Q s.
Proof. intros H. apply wp_bind. eapply wp_mono; [exact H|]. intros r s' Hr. by apply wp_ret. Qed.

Lemma in_new (r : Z) (live : gset Z) : r ∈ ({[r]} ∪ live : gset Z).
Proof. set_solver. Qed.

Section exec.
Context (minimal_parse : list Z → option ElfFile) (reserve : nat → bool).
Context (m : Mmu) (live pool : gset Z) (r : Z) (image : list Z) (args : ExecArgs) (fuel : nat) (owner : CpuId).
Hypothesis Hranges : ranges_ok m.
Hypothesis Hfresh : r ∉ live.
Hypothesis Hpool : r ∈ pool.
Hypothesis Hcur : current_root m ≠ r.
Hypothesis Hargv : Forall text (ea_argv args).
Hypothesis Henvp : Forall text (ea_envp args).
Hypothesis Hfuel : USER_STACK_SIZE <= Z.of_nat fuel.

(** What a staging may end with. *)
Definition stage_post (res : StagedProcessImage + Errno) (m' : Mmu) : Prop :=
  kept m m' ∧ untouched (λ f, f ∈ pool) m m' ∧ spaces_kept live m m' ∧
  match res with
  | inl st => owner_cpu (si_address_space st) = owner ∧ exec_image_ok minimal_parse m live pool image args fuel st m'
  | inr _ => machine_ok m' live pool
  end.

Lemma abandon_post img stack X e m2 :
  staging m live pool r (segs_set (image_segs img) ∪ X) m2 → segs_ok m (image_segs img) → stack_run stack X m → X ## segs_set (image_segs img) →
  wp (drop_staged r img stack;; mret (inr e)) stage_post m2.
Proof.
  intros Hst Hs Hsr HX. eapply wp_mono; [by eapply (abandon_spec m live pool r m2)|]. by intros res m' (-> & ? & ? & ? & ?).
Qed.

Lemma stage_tail_spec m1 m2 loaded file phs :
  loaded_ok m1 ({[r]} ∪ live) pool r image phs (ui_segments loaded) m2 → kept m m1 → staging m live pool r (segs_set (ui_segments loaded)) m2 →
  (∀ a, 0 <= a → query_user_mapping (memory m1) r a = None) →
  minimal_parse image = Some file → ef_segments file = Some phs → ui_entry loaded = ef_entry file →
  wp (rr ← map_error exec_vm_errno (user_stack_allocate r USER_STACK_SIZE);
      match rr with
      | inr e => drop_staged r (Some loaded) None;; mret (inr e)
      | inl stack =>
          rr ← build_initial_user_stack stack reserve args;
          match rr with
          | None => drop_staged r (Some loaded) (Some stack);; mret (inr E2BIG)
          | Some initial_sp => mret (inl (mkStagedProcessImage (mkAddressSpaceId r owner) loaded stack (ui_entry loaded) initial_sp))
          end
      end) stage_post m2.
Proof.
  intros Hlo K1 Hst Hnone Hp Hph Hen. pose proof (stg_machine _ _ _ _ _ _ Hst) as Hm2. set (Y := segs_set (ui_segments loaded)) in *.
  assert (segs_ok m (ui_segments loaded)) as Hs by (eapply segs_ok_kept; [|apply Hlo]; unfold kept in *; congruence).
  apply wp_bind, wp_map_error. eapply wp_mono; [apply (user_stack_allocate_spec m2 ({[r]} ∪ live) (pool ∖ Y) r); [done|by eapply ranges_ok_kept; [apply Hst|]|apply in_new|done]|].
  intros [stack|e] m3 (K3 & O3 & Hres); cbv beta iota.
  2: { destruct Hres as [Hm3 Hq]. apply abandon_post with ∅; [|done|done|apply disjoint_empty_l]. cbn [image_segs]. fold Y.
       eapply staging_step; [done|done|done|by eapply others_spaces|apply empty_subseteq|by rewrite difference_empty_L]. }
  destruct Hres as (start & n & Hn & -> & Hrun & Hsub & Hm3 & Hmap & _).
  assert (n = stack_pages) as -> by (change USER_STACK_SIZE with (Z.of_nat stack_pages * PAGE_SIZE) in Hn; unfold PAGE_SIZE in Hn; lia).
  change (mkOwnedUserStack (start, start + USER_STACK_SIZE) (USER_STACK_TOP - USER_STACK_SIZE) USER_STACK_SIZE) with (the_stack start).
  change (USER_STACK_TOP - USER_STACK_SIZE) with stack_base in Hmap. set (X := run_set start stack_pages) in *.
  assert (run_ok m start stack_pages) as Hrunm by (eapply run_ok_kept; [|exact Hrun]; pose proof (stg_kept _ _ _ _ _ _ Hst); unfold kept in *; congruence).
  apply wp_bind. eapply wp_mono; [apply (build_args_spec reserve m2 m3 ({[r]} ∪ live) (pool ∖ Y ∖ X) r start args fuel);
    [by eapply run_ok_kept|apply pool_apart|done|apply in_new|done|done|done|done]|].
  intros res m4 (K4 & O4 & Q4 & Hm4 & Hres).
  assert (untouched (λ f, f ∈ pool ∖ Y) m2 m4) as O24.
  { eapply untouched_trans; [|exact O3|]; [done|]. eapply untouched_mono; [|exact O4]. fold X. intros f Hf. by apply Hsub. }
  assert (run_mapped ({[r]} ∪ live) r stack_base start stack_pages USER_WRITE m2 m4) as Hmap4 by (eapply run_mapped_same; [apply in_new|done|done|done]).
  assert (staging m live pool r (Y ∪ X) m4) as Hst4.
  { eapply staging_step; [done|by eapply kept_trans|done|by eapply mapped_spaces|done|done]. }
  assert (X ## Y) as HXY by (intros f Hf Hy; by apply Hsub, elem_of_difference in Hf as [_ ?]). destruct res as [sp|]; cbv beta iota.
  2: { apply abandon_post with X; [done|done|by exists start, stack_pages|done]. }
  destruct Hres as (R1 & R2 & R3). apply wp_ret. split; [apply Hst4|]. split; [apply Hst4|]. split; [apply Hst4|]. split; [done|].
  pose proof (λ ph st n, stack_keeps_segment m1 m2 m4 ({[r]} ∪ live) pool r image phs (ui_segments loaded) start ph st n Hlo (in_new r live) Hmap4 O24) as Hseg.
  split; [done|done| | |done|by split|exists start; split_and!; try done; intros x Hx; by apply Hmap4|].
  3: { intros x. apply (built_only m1 m2 m4 ({[r]} ∪ live) pool r image phs _ stack_base start stack_pages USER_WRITE); [done|done|apply in_new|done]. }
  - exists file, phs. split_and!; [done|done|done|]. intros ph Hin Ht Hz.
    destruct (lo_headers _ _ _ _ _ _ _ _ Hlo ph Hin Ht Hz) as (st & n & H1 & H2 & H3). exists st, n. split_and!; [done|done|]. by apply Hseg.
  - intros s0 Hs0. destruct (lo_only _ _ _ _ _ _ _ _ Hlo s0 Hs0) as (ph & st & n & _ & _ & -> & H2 & H3). exists ph, st, n. split_and!; [done|done|]. by apply Hseg.
Qed.
End exec.

(** * The staging claims *)

(** The files of [s] and what the parser makes of them. *)
Definition files_ok (minimal_parse : list Z → option ElfFile) (s : FsState) : Prop :=
  ∀ i image, file_data s i = Some image → Forall is_byte image ∧
    ∀ file phs, minimal_parse image = Some file → ef_segments file = Some phs → Forall header_ok phs.

Lemma stage_exec_spec minimal_parse reserve s m live pool path args owner fuel :
  machine_ok m live pool → ranges_ok m → (current_root m ∈ pool → current_root m ∈ live) → files_ok minimal_parse s →
  Forall text (ea_argv args) → Forall text (ea_envp args) → USER_STACK_SIZE <= Z.of_nat fuel →
  wp (stage_exec_image minimal_parse reserve s path args owner) (λ res m',
    kept m m' ∧ untouched (λ f, f ∈ pool) m m' ∧ spaces_kept live m m' ∧
    match res with
    | inl st => owner_cpu (si_address_space st) = owner ∧
        ∃ i image, rp_node path = NodeFile i ∧ file_data s i = Some image ∧ exec_image_ok minimal_parse m live pool image args fuel st m'
    | inr _ => machine_ok m' live pool
    end) m.
Proof.
  intros Hm Hrg Hcur Hfiles Ha He Hf. unfold stage_exec_image. destruct (rp_node path) as [i|i]; [|by apply wp_ret].
  destruct (file_data s i) as [image|] eqn:Hi; [|by apply wp_ret]. destruct (Hfiles i image Hi) as [Hb Hphs].
  apply wp_try, wp_map_error. eapply wp_mono; [by apply create_machine|].
  intros [r|e] m1 (K1 & O1 & Q1 & Hres); cbv beta iota; [|split_and!; [done|done|by eapply queries_spaces|done]].
  destruct Hres as (Hfresh & Hpool & Hm1 & Hnone). assert (current_root m ≠ r) as Hne by (intros <-; by apply Hfresh, Hcur).
  apply (wp_mono _ (stage_post minimal_parse m live pool image args fuel owner)).
  2: { intros [st|e] m' (P1 & P2 & P3 & P4); [|done]. split_and!; [done..|apply P4|]. exists i, image. by split_and!; [..|apply P4]. }
  assert (staging m live pool r ∅ m1) as Hst.
  { split; [done|done|by eapply queries_spaces|apply empty_subseteq|by rewrite difference_empty_L]. }
  apply wp_bind, wp_map_error. eapply wp_mono; [apply (load_elf_spec minimal_parse reserve m1 ({[r]} ∪ live) pool r image); [done|by eapply ranges_ok_kept|apply in_new|done|done]|].
  intros [loaded|e] m2 (K2 & O2 & Hres); cbv beta iota.
  - destruct Hres as (file & phs & Hp & Hs & Hen & _ & _ & Hlo & _). apply (stage_tail_spec) with m1 file phs; try done.
    rewrite <-(union_empty_l_L (segs_set _)). apply (staging_step _ _ _ _ _ _ _ _ Hst); rewrite ?difference_empty_L; [done|done| |apply Hlo|apply Hlo].
    eapply others_spaces; [done|]. eapply lf_others, loaded_failed, Hlo.
  - destruct Hres as [Hm2 Hq]. apply abandon_post with ∅; try done.
    + apply (staging_step _ _ _ _ _ _ _ _ Hst); rewrite ?difference_empty_L; [done|done|by eapply others_spaces|apply empty_subseteq|done].
    + split; [apply Forall_nil_2|apply SSorted_nil].
Qed.

(** Staging a new program image is all or nothing and never panics.  When
    it succeeds, a fresh address space translates every byte of every loadable
    segment of the file to a frame that holds it, with the segment's rights,
    and a program started at the entry the file names, with the stack pointer
    returned, sixteen-byte aligned and inside the stack, reads there the number
    of its arguments and exactly the argument and environment strings it was
    given.  The frames it owns left the pool and every other frame and address
    space is as before.  When it fails, every frame it took, page tables
    included, is back in the pool. *)
Theorem exec_stage_exact minimal_parse reserve s m live pool path args owner fuel :
  machine_ok m live pool → ranges_ok m → (current_root m ∈ pool → current_root m ∈ live) → files_ok minimal_parse s →
  Forall text (ea_argv args) → Forall text (ea_envp args) → USER_STACK_SIZE <= Z.of_nat fuel →
  ∃ res m', stage_exec_image minimal_parse reserve s path args owner m = Done (res, m') ∧
    kept m m' ∧ untouched (λ f, f ∈ pool) m m' ∧ spaces_kept live m m' ∧
    match res with
    | inl st => owner_cpu (si_address_space st) = owner ∧
        ∃ i image, rp_node path = NodeFile i ∧ file_data s i = Some image ∧ exec_image_ok minimal_parse m live pool image args fuel st m'
    | inr _ => machine_ok m' live pool
    end.
Proof. intros. apply wp_run. by apply stage_exec_spec. Qed.

(** A file system with the program of [ImageSafety], and its arguments. *)
Definition demo_fs : FsState := mkFsState [] (Some (mkMountedRamfs [mkRamFile [47; 97] ImageSafety.demo_image] [])).
Definition demo_path : ResolvedPath := mkResolvedPath [47; 97] (NodeFile 0) false.
Definition demo_args : ExecArgs := mkExecArgs [[47; 97]; [45; 118]] [[65; 61; 49]] 11.

Lemma demo_files_ok : files_ok demo_parse demo_fs.
Proof.
  intros [|i] image [= <-]. split; [repeat (constructor; [split; [discriminate|reflexivity]|]); constructor|].
  intros file phs [= <-] [= <-]. constructor; [|constructor]. vm_compute. repeat split; discriminate.
Qed.

Lemma space_machine_start :
  machine_ok space_machine ∅ (list_to_set space_frames) ∧ ranges_ok space_machine ∧ current_root space_machine = 0.
Proof.
  split; [|split; [|reflexivity]].
  - exists ∅, space_frames. split; [exact space_machine_ok|]. intros r. rewrite lookup_empty. set_solver.
  - split; [|repeat constructor]. constructor; [|constructor]. vm_compute. repeat split; congruence.
Qed.

Lemma demo_args_text : Forall text (ea_argv demo_args) ∧ Forall text (ea_envp demo_args).
Proof. split; repeat (constructor; [repeat (constructor; [split; reflexivity|]); constructor|]); constructor. Qed.

Lemma zero_not_space : (0 : Z) ∉ (list_to_set space_frames : gset Z).
Proof. rewrite elem_of_list_to_set. intros H. rewrite list_elem_of_In in H. vm_compute in H. repeat (destruct H as [H|H]; [discriminate H|]). done. Qed.

#[local] Opaque space_machine space_frames stage_exec_image.

Lemma exec_stage_exact_witness :
  ∃ res m', stage_exec_image demo_parse (λ _, true) demo_fs demo_path demo_args 0%nat space_machine = Done (res, m') ∧
    untouched (λ f, f ∈ (list_to_set space_frames : gset Z)) space_machine m' ∧
    (∀ st, res = inl st → exec_image_ok demo_parse space_machine ∅ (list_to_set space_frames) ImageSafety.demo_image demo_args (Z.to_nat USER_STACK_SIZE) st m').
Proof.
  destruct (exec_stage_exact demo_parse (λ _, true) demo_fs space_machine ∅ (list_to_set space_frames) demo_path demo_args 0%nat (Z.to_nat USER_STACK_SIZE))
    as (res & m' & H & _ & Ho & _ & Hres).
  - apply space_machine_start.
  - apply space_machine_start.
  - rewrite (proj2 (proj2 space_machine_start)). intros Hin. exfalso. exact (zero_not_space Hin).
  - exact demo_files_ok.
  - apply demo_args_text.
  - apply demo_args_text.
  - rewrite Z2Nat.id; [reflexivity|discriminate].
  - exists res, m'. split; [exact H|]. split; [exact Ho|]. intros st ->. destruct Hres as (_ & i & image & Hi & Hd & Hok).
    injection Hi as <-. injection Hd as <-. exact Hok.
Defined.
