(* ===== verification/CloneSpec.v ===== *)
(** * What cloning an image does

    The eager copies of [fork]: a run of frames, a segment, the whole image
    and the stack.  Cloning never touches the source, and the copy holds, in
    frames of its own, what the source held. *)

From stdpp Require Import gmap sorting.
From S2P Require Import Prelude Types Vm MemMap MemMapSpec FrameAlloc FrameSpec MemInit PageTable PageTableSpec AddressSpace Sched.
From S2P Require Import PhysMem UserCopy UserAccess UserSafety UserImage FrameRuns ImageSafety ExecStack ExecRead Staging StageSafety.
#[local] Open Scope Z_scope.

(** The bytes of a run. *)
Definition run_bytes (m : Mmu) (start : Z) : Z → Z := λ i, load_byte (memory m) (start + i).

Lemma run_bytes_kept m m' live pool start n i :
  machine_ok m live pool → run_ok m start n → run_set start n ## pool → untouched (λ f, f ∈ pool) m m' →
  0 <= i < Z.of_nat n * PAGE_SIZE → run_bytes m' start i = run_bytes m start i.
Proof. intros Hm Hrun Hd Hu Hi. by apply (run_holds_kept m m' live pool start n (run_bytes m start)). Qed.

Lemma copy_run m live pool src start n :
  machine_ok m live pool → run_ok m start n → run_set start n ## pool →
  wp (copy_phys_range src start (Z.to_nat (Z.of_nat n * PAGE_SIZE))) (λ _ m', kept m m' ∧ untouched (λ f, f ∈ run_set start n) m m' ∧
    same_queries live m m' ∧ machine_ok m' live pool ∧ run_holds m' start n (run_bytes m src)) m.
Proof.
  intros Hm Hrun Hd. pose proof (proj1 Hrun) as Hn. unfold copy_phys_range. rewrite decide_False by (unfold PAGE_SIZE; lia).
  apply wp_bind, wp_gets. eapply wp_mono; [apply (write_run_machine m live pool start n); [done..|lia|rewrite load_bytes_length; unfold PAGE_SIZE; lia]|].
  intros [] m' (Hk & Hmem & Ho & Hq & Hm'). split_and!; [done..|]. intros i Hi. rewrite Hmem, load_stored by apply load_bytes_range.
  rewrite load_bytes_length. rewrite decide_True by lia. replace (start + i - start) with i by lia.
  unfold load_bytes, run_bytes. rewrite list_lookup_fmap, lookup_seq_lt by lia. simpl. do 2 f_equal. lia.
Qed.

(** ** Cloning a run *)

Lemma mask_page a : 0 <= a → a mod PAGE_SIZE = 0 → (Z.land a (PAGE_SIZE - 1) =? 0) = true.
Proof. intros H0 Ha. rewrite aligned_cases by done. by apply bool_decide_eq_true. Qed.

Lemma clone_run_spec m live pool start n :
  machine_ok m live pool → run_ok m start n → run_set start n ## pool →
  wp (clone_frame_range (run_range start n)) (λ res m', kept m m' ∧ untouched (λ f, f ∈ pool) m m' ∧ same_queries live m m' ∧
    match res with
    | inl rng => ∃ start', rng = run_range start' n ∧ run_ok m' start' n ∧ run_set start' n ⊆ pool ∧
        machine_ok m' live (pool ∖ run_set start' n) ∧ run_holds m' start' n (run_bytes m start)
    | inr _ => machine_ok m' live pool
    end) m.
Proof.
  intros Hm Hrun Hd. pose proof (proj1 Hrun) as Hn. destruct (run_first _ _ _ Hrun) as [Hpos Hal]. pose proof (run_last _ _ _ Hrun) as Hend.
  unfold clone_frame_range. cbn [r_start r_end]. unfold u64_checked_sub. rewrite (proj2 (Z.leb_le _ _)) by (unfold PAGE_SIZE; lia).
  replace (start + Z.of_nat n * PAGE_SIZE - start) with (Z.of_nat n * PAGE_SIZE) by lia. rewrite (proj2 (Z.eqb_neq _ _)) by (unfold PAGE_SIZE; lia).
  rewrite !mask_page; [|unfold PAGE_SIZE; lia|by rewrite Z.mod_add|lia|done]. cbn [negb orb]. rewrite Z.div_mul, Nat2Z.id by done.
  apply wp_bind. eapply wp_mono; [by apply (alloc_run_machine m live pool)|].
  intros [rng|] m1 (K1 & O1 & Q1 & H1); [|subst m1; by apply wp_ret]. destruct H1 as (start' & -> & Hrun' & Hsub & Hm1).
  apply (run_ok_kept _ m1) in Hrun'; [|done]. apply wp_bind.
  eapply wp_mono; [apply (copy_run m1 live (pool ∖ run_set start' n) start start' n); [done|done|apply pool_apart]|].
  intros [] m2 (K2 & O2 & Q2 & Hm2 & Hh). apply wp_ret. split; [by eapply kept_trans|]. split.
  { eapply untouched_trans; [|exact O1|]; [done|]. eapply untouched_mono; [|exact O2]. intros f Hf. by apply Hsub. }
  split; [by eapply same_queries_trans|]. exists start'. split_and!; [done|by eapply run_ok_kept|done|done|].
  intros i Hi. rewrite (Hh i Hi). by eapply (run_bytes_kept m m1).
Qed.

(** ** A copy mapped in the child *)

(** A range of user addresses a run of [n] pages can be mapped at. *)
Definition mappable (va : Z) (n : nat) : Prop := 0 <= va ∧ va mod PAGE_SIZE = 0 ∧ va + Z.of_nat n * PAGE_SIZE <= u64_max.

(** The run [start] cloned into the space [r] at [va]. *)
Record cloned (m : Mmu) (live pool : gset Z) (r va start : Z) (n : nat) (flags start' : Z) (m' : Mmu) : Prop := {
  cl_run : run_ok m' start' n;
  cl_sub : run_set start' n ⊆ pool;
  cl_machine : machine_ok m' live (pool ∖ run_set start' n);
  cl_mapped : run_mapped live r va start' n flags m m';
  cl_holds : run_holds m' start' n (run_bytes m start)
}.

(** Cloning a run and mapping the copy. *)
Lemma clone_mapped {A E} m live pool r va start n flags (k : AddrRange → A) (e1 : FrameRangeCloneError → E) (e2 : VmError → E) :
  machine_ok m live pool → ranges_ok m → r ∈ live → run_ok m start n → run_set start n ## pool → mappable va n →
  wp (frames ←? map_error e1 (clone_frame_range (run_range start n));
      rr ← vm_map_user_page_range r va (r_start frames) (Z.of_nat n * PAGE_SIZE) flags;
      match rr with
      | inr err => on_runtime (free_contiguous_frames frames);; mret (inr (e2 err))
      | inl _ => mret (inl (k frames))
      end)
     (λ res m', kept m m' ∧ untouched (λ f, f ∈ pool) m m' ∧
        match res with
        | inl x => ∃ start', x = k (run_range start' n) ∧ cloned m live pool r va start n flags start' m'
        | inr _ => machine_ok m' live pool ∧ others_kept live r m m'
        end) m.
Proof.
  intros Hm Hrg Hr Hrun Hd (Hva & Hal & Hmax). apply wp_try, wp_map_error. eapply wp_mono; [by apply (clone_run_spec m live pool)|].
  intros [rng|e] m1 (K1 & O1 & Q1 & Hres); cbv beta iota.
  2: { split_and!; [done|done|done|]. intros r0 a Hr0 _ _. by apply Q1. }
  destruct Hres as (start' & -> & Hrun' & Hsub & Hm1 & Hh). cbn [r_start].
  eapply wp_mono; [apply (place_run m1 live (pool ∖ run_set start' n) r va start' n flags); [done|by eapply ranges_ok_kept|done|apply pool_apart|done|done|done|lia]|].
  intros [x|err] m2 (K2 & Hres); (split; [by eapply kept_trans|]).
  - destruct Hres as (-> & O2 & Hm2 & Hmap). split.
    { eapply untouched_trans; [|exact O1|]; [done|]. eapply untouched_mono; [|exact O2]. set_solver. }
    exists start'. split; [done|]. split; [by eapply run_ok_kept|done|done|by eapply same_mapped|].
    eapply (run_holds_kept m1 m2); [done|done|apply pool_apart|done|done].
  - destruct Hres as (O2 & Hm2 & Hmap). rewrite (pool_back pool _ Hsub) in *. split_and!; [|done|by eapply only_range_others, same_only].
    eapply untouched_trans; [|exact O1|exact O2]. done.
Qed.

(** ** Segments *)

(** A run mapped in [r] at [va], holding [h]. *)
Definition run_at (m : Mmu) (r va start : Z) (n : nat) (flags : Z) (h : Z → Z) : Prop :=
  (∀ a, in_run va n a → query_user_mapping (memory m) r a = Some (run_info start flags va a)) ∧ run_holds m start n h.

Lemma run_at_kept m m' live pool r va start n flags h va' start' n' flags' :
  machine_ok m live pool → run_ok m start n → run_set start n ## pool → untouched (λ f, f ∈ pool) m m' →
  run_mapped live r va' start' n' flags' m m' → r ∈ live → 0 <= va → run_at m r va start n flags h → run_at m' r va start n flags h.
Proof.
  intros Hm Hrun Hd Ho [Hnew Hold] Hr H0 [Hq Hh]. split; [|by eapply run_holds_kept]. intros a Ha. rewrite <-(Hq a Ha).
  apply Hold; [done|unfold in_run in Ha; lia|]. intros [_ Ha']. destruct (Hnew a Ha') as [Hnone _]. rewrite (Hq a Ha) in Hnone. done.
Qed.

Lemma cloned_at m live pool r va start n flags start' m' :
  cloned m live pool r va start n flags start' m' → run_at m' r va start' n flags (run_bytes m start).
Proof. intros [_ _ _ [Hq _] Hh]. split; [|done]. intros a Ha. by apply Hq. Qed.

(** A segment whose frames are not the allocator's and that can be cloned. *)
Definition seg_source (m : Mmu) (pool : gset Z) (s : UserElfSegment) : Prop :=
  ∃ start n, seg_run s start n ∧ run_ok m start n ∧ run_set start n ## pool ∧ mappable (sg_va s) n.

(** [s'] is the clone of [s] in the space [r]. *)
Definition seg_clone (m0 : Mmu) (r : Z) (m : Mmu) (s s' : UserElfSegment) : Prop :=
  ∃ start n, s' = mkUserElfSegment (sg_va s) (sg_size s) (run_range start n) (sg_flags s) ∧ sg_size s = Z.of_nat n * PAGE_SIZE ∧
    0 <= sg_va s ∧ run_at m r (sg_va s) start n (sg_flags s) (run_bytes m0 (r_start (sg_frames s))).

(** The segments [src] of [m0] cloned into [r] as [segs]. *)
Record image_cloned (m0 : Mmu) (live pool : gset Z) (r : Z) (src segs : list UserElfSegment) (m : Mmu) : Prop := {
  ic_kept : kept m0 m;
  ic_out : untouched (λ f, f ∈ pool) m0 m;
  ic_segs : segs_ok m0 segs;
  ic_sub : segs_set segs ⊆ pool;
  ic_machine : machine_ok m live (pool ∖ segs_set segs);
  ic_others : others_kept live r m0 m;
  ic_clones : Forall2 (seg_clone m0 r m) src segs;
  ic_rest : ∀ a, 0 <= a → ¬ (∃ s, s ∈ segs ∧ in_seg s a) → query_user_mapping (memory m) r a = query_user_mapping (memory m0) r a
}.

Lemma image_cloned_failed m0 live pool r src segs m : image_cloned m0 live pool r src segs m → load_failed m0 live pool r segs m.
Proof. by intros []. Qed.

Lemma clone_segment_spec m live pool r s :
  machine_ok m live pool → ranges_ok m → r ∈ live → seg_source m pool s →
  wp (clone_user_segment s r) (λ res m', kept m m' ∧ untouched (λ f, f ∈ pool) m m' ∧
    match res with
    | inl s' => ∃ start' n, s' = mkUserElfSegment (sg_va s) (sg_size s) (run_range start' n) (sg_flags s) ∧ sg_size s = Z.of_nat n * PAGE_SIZE ∧
        cloned m live pool r (sg_va s) (r_start (sg_frames s)) n (sg_flags s) start' m'
    | inr _ => machine_ok m' live pool ∧ others_kept live r m m'
    end) m.
Proof.
  intros Hm Hrg Hr (start & n & [E1 E2] & Hrun & Hd & Hmap). unfold clone_user_segment. rewrite E1, E2.
  eapply wp_mono; [apply (clone_mapped m live pool r (sg_va s) start n (sg_flags s)
    (λ frames, mkUserElfSegment (sg_va s) (Z.of_nat n * PAGE_SIZE) frames (sg_flags s)) clone_errno fork_vm_errno); done|].
  intros [s'|e] m' (K & O & Hres); (split; [done|]; split; [done|]); [|done]. destruct Hres as (start' & -> & Hcl). by exists start', n.
Qed.

Lemma segs_ok_snoc m segs s start n :
  segs_ok m segs → seg_run s start n → run_ok m start n → run_set start n ## segs_set segs → segs_ok m (segs ++ [s]).
Proof.
  intros [H1 H2] Hs Hrun Hd. split.
  - apply Forall_app. split; [done|]. apply Forall_singleton. by exists start, n.
  - apply StronglySorted_app. split_and!; [|done|apply SSorted_cons; [apply SSorted_nil|apply Forall_nil_2]].
    intros s1 s2 H ->%list_elem_of_singleton. rewrite (seg_set_run s start n) by done. apply seg_set_sub in H. set_solver.
Qed.

Lemma kept_sym m m' : kept m m' → kept m' m.
Proof. unfold kept. congruence. Qed.

(** The run of a clone, from the list that owns it. *)
Lemma clone_run m0 segs (va size flags start : Z) n :
  segs_ok m0 segs → mkUserElfSegment va size (run_range start n) flags ∈ segs → size = Z.of_nat n * PAGE_SIZE →
  run_ok m0 start n ∧ run_set start n ⊆ segs_set segs.
Proof.
  intros [Hs _] Hin E. rewrite Forall_forall in Hs. destruct (Hs _ Hin) as (st & n' & [E1 E2] & Hrun). cbn [sg_frames sg_size] in *.
  injection E1 as <- E1. assert (n' = n) as -> by (unfold PAGE_SIZE in *; lia). split; [done|].
  apply seg_set_sub in Hin. rewrite (seg_set_run _ start n) in Hin by done. done.
Qed.

Lemma image_cloned_snoc m0 live pool r src segs m s start' n m' :
  image_cloned m0 live pool r src segs m → machine_ok m0 live pool → r ∈ live → seg_source m0 pool s →
  kept m m' → untouched (λ f, f ∈ pool ∖ segs_set segs) m m' → sg_size s = Z.of_nat n * PAGE_SIZE →
  cloned m live (pool ∖ segs_set segs) r (sg_va s) (r_start (sg_frames s)) n (sg_flags s) start' m' →
  image_cloned m0 live pool r (src ++ [s]) (segs ++ [mkUserElfSegment (sg_va s) (sg_size s) (run_range start' n) (sg_flags s)]) m'.
Proof.
  intros [H1 H2 H3 H4 H5 H6 H7 H8] Hm0 Hr (start & n' & [E1 E2] & Hrun & Hd & Hva & Hal & Hmax) K O Esz Hcl.
  assert (n' = n) as -> by (unfold PAGE_SIZE in *; lia). rewrite E1 in *. cbn [r_start] in *.
  pose proof (cl_sub _ _ _ _ _ _ _ _ _ _ Hcl) as Hsub. pose proof (kept_trans _ _ _ H1 K) as K'.
  set (s' := mkUserElfSegment _ _ _ _). assert (seg_run s' start' n) as Hs' by done.
  assert (run_ok m0 start' n) as Hrun' by (eapply run_ok_kept; [by apply kept_sym|apply Hcl]).
  assert (segs_set (segs ++ [s']) = segs_set segs ∪ run_set start' n) as Eset by (by rewrite segs_set_snoc, (seg_set_run s' start' n)).
  split; [done| |apply (segs_ok_snoc m0 segs s' start' n); [done|done|done|set_solver]|set_solver|rewrite Eset, <-difference_difference_l_L; apply Hcl| | |].
  - eapply untouched_trans; [|exact H2|]; [done|]. eapply untouched_mono; [|exact O]. set_solver.
  - intros r0 a Hr0 Ha Hne. rewrite <-H6 by done. apply (cl_mapped _ _ _ _ _ _ _ _ _ _ Hcl); [done|done|]. by intros [? _].
  - apply Forall2_app; [|apply Forall2_cons; split; [|apply Forall2_nil_2]].
    + apply Forall2_same_length_lookup_2; [by eapply Forall2_length|]. intros i s1 s2 Hi1 Hi2.
      destruct (Forall2_lookup_lr _ _ _ _ _ _ H7 Hi1 Hi2) as (st & k & -> & Ek & Hk0 & Hat). exists st, k. split_and!; [done|done|done|].
      apply list_elem_of_lookup_2 in Hi2. destruct (clone_run _ _ _ _ _ _ _ H3 Hi2 Ek) as [Hrk Hsk].
      eapply (run_at_kept m m'); [done|by eapply run_ok_kept|set_solver|done|apply Hcl|done|done|done].
    + exists start', n. rewrite E1. cbn [r_start]. split_and!; [done|done|done|]. destruct (cloned_at _ _ _ _ _ _ _ _ _ _ Hcl) as [Hq Hh]. split; [done|].
      intros i Hi. rewrite (Hh i Hi). by eapply (run_bytes_kept m0 m).
  - intros a Ha Hn. rewrite <-H8; [|done|].
    + apply (cl_mapped _ _ _ _ _ _ _ _ _ _ Hcl); [done|done|]. intros [_ Hin]. destruct Hn. exists s'. split; [apply elem_of_app; right; by left|].
      unfold in_seg, s'. cbn [sg_va sg_size]. unfold in_run in Hin. lia.
    + intros (s0 & Hs0 & Hin). destruct Hn. exists s0. split; [apply elem_of_app; by left|done].
Qed.

Lemma clone_segments_spec m0 live pool r rest src segs m :
  image_cloned m0 live pool r src segs m → machine_ok m0 live pool → ranges_ok m0 → r ∈ live → Forall (seg_source m0 pool) rest →
  wp (clone_segments r rest segs) (λ res m', match res with
    | inl segs' => image_cloned m0 live pool r (src ++ rest) segs' m'
    | inr _ => kept m0 m' ∧ untouched (λ f, f ∈ pool) m0 m' ∧ machine_ok m' live pool ∧ others_kept live r m0 m'
    end) m.
Proof.
  intros Hic Hm0 Hrg Hr. revert src segs m Hic. induction rest as [|s rest IH]; intros src segs m Hic Hsrc; cbn [clone_segments].
  { apply wp_ret. by rewrite app_nil_r. }
  apply Forall_cons in Hsrc as [Hs Hsrc]. rewrite cons_middle, app_assoc. pose proof Hic as [H1 H2 H3 H4 H5 H6 H7 _]. apply wp_bind.
  eapply wp_mono; [apply (clone_segment_spec m live (pool ∖ segs_set segs) r s); [done|by eapply ranges_ok_kept|done|]|].
  { destruct Hs as (start & n & ? & ? & ? & ?). exists start, n. split_and!; [done|by eapply run_ok_kept|set_solver|done]. }
  intros [s'|e] m1 (K & O & Hres).
  - destruct Hres as (start' & n & -> & E & Hcl). apply IH; [|done]. by eapply image_cloned_snoc.
  - destruct Hres as [Hm1 Hq]. eapply wp_mono; [apply (load_failed_freed m0 live pool r segs m1 e); [|done]|by intros res m2 (-> & ?)].
    split; [by eapply kept_trans| |done|done|done|].
    + eapply untouched_trans; [|exact H2|]; [done|]. eapply untouched_mono; [|exact O]. set_solver.
    + intros r0 a Hr0 Ha Hne. rewrite Hq by done. by apply H6.
Qed.

Lemma image_cloned_none m live pool r : machine_ok m live pool → image_cloned m live pool r [] [] m.
Proof.
  intros Hm. split; [done|done|split; [apply Forall_nil_2|apply SSorted_nil]|apply empty_subseteq| |done|apply Forall2_nil_2|done].
  unfold segs_set. simpl. by rewrite difference_empty_L.
Qed.

Lemma clone_image_spec reserve m live pool r src :
  machine_ok m live pool → ranges_ok m → r ∈ live → Forall (seg_source m pool) (ui_segments src) →
  wp (clone_user_image reserve src r) (λ res m', match res with
    | inl img => ui_entry img = ui_entry src ∧ image_cloned m live pool r (ui_segments src) (ui_segments img) m'
    | inr _ => kept m m' ∧ untouched (λ f, f ∈ pool) m m' ∧ machine_ok m' live pool ∧ others_kept live r m m'
    end) m.
Proof.
  intros Hm Hrg Hr Hsrc. unfold clone_user_image. destruct (reserve _); [|by apply wp_ret]. cbn [negb]. apply wp_try.
  eapply wp_mono; [apply (clone_segments_spec m live pool r (ui_segments src) [] [] m); [by apply image_cloned_none|done..]|].
  intros [segs|e] m' H; [|done]. by apply wp_ret.
Qed.

(** ** The stack *)

Definition stack_source (m : Mmu) (pool : gset Z) (s : OwnedUserStack) : Prop :=
  ∃ start n, stack_frames s = run_range start n ∧ us_size s = Z.of_nat n * PAGE_SIZE ∧ run_ok m start n ∧ run_set start n ## pool ∧ mappable (us_base s) n.

Lemma clone_stack_spec m live pool r s :
  machine_ok m live pool → ranges_ok m → r ∈ live → stack_source m pool s →
  wp (user_stack_clone_into s r) (λ res m', kept m m' ∧ untouched (λ f, f ∈ pool) m m' ∧
    match res with
    | inl s' => ∃ start' n, s' = mkOwnedUserStack (start', start' + Z.of_nat n * PAGE_SIZE) (us_base s) (us_size s) ∧
        us_size s = Z.of_nat n * PAGE_SIZE ∧ cloned m live pool r (us_base s) (us_frames s).1 n USER_WRITE start' m'
    | inr _ => machine_ok m' live pool ∧ others_kept live r m m'
    end) m.
Proof.
  intros Hm Hrg Hr (start & n & E1 & E2 & Hrun & Hd & Hmap). assert ((us_frames s).1 = start) as -> by (injection E1 as -> _; done).
  pose proof (clone_mapped m live pool r (us_base s) start n USER_WRITE
    (λ frames, mkOwnedUserStack (r_start frames, r_end frames) (us_base s) (us_size s)) clone_vm_error id Hm Hrg Hr Hrun Hd Hmap) as H.
  unfold wp, user_stack_clone_into, try_bind, map_error, mbind, M_bind in *. rewrite E1, E2 in *.
  destruct (clone_frame_range (run_range start n) m) as [[[rng|e] m1]|]; [|exact H|done]. cbv beta iota in *. unfold mret, M_ret in *.
  destruct (vm_map_user_page_range _ _ _ _ _ m1) as [[[[]|e] m2]|]; [| |done].
  - destruct H as (K & O & start' & E & Hcl). split; [done|]. split; [done|]. by exists start', n.
  - destruct (on_runtime (free_contiguous_frames rng) m2) as [[[] m3]|]; [|done]. exact H.
Qed.
