(* ===== verification/Process.v ===== *)
(** * The process table

    [kernel/src/process]: process identities ([id.rs]), the states and exit
    statuses ([state.rs]), the record and resources of a process ([record.rs],
    [resources.rs]) and the table with its reverse index from threads
    ([table.rs]), with the table's part of exit and wait ([lifecycle.rs],
    [wait.rs]). *)

From stdpp Require Import gmap.
From S2P Require Import Prelude Types Vm Sched UserImage Ramfs FdTable.
#[local] Open Scope Z_scope.

(** ** Identities *)

Definition MAX_PROCESSES : nat := 4.

(** [while capacity < slots { bits += 1; capacity <<= 1 }] *)
Fixpoint index_bits_loop (fuel : nat) (slots bits capacity : Z) : Z :=
  match fuel with
  | O => bits
  | S fuel' => if capacity <? slots then index_bits_loop fuel' slots (bits + 1) (Z.shiftl capacity 1) else bits
  end.
Definition process_id_index_bits (slots : nat) : Z := index_bits_loop slots (Z.of_nat slots) 0 1.
Definition PROCESS_ID_INDEX_BITS : Z := process_id_index_bits MAX_PROCESSES.
Definition PROCESS_ID_INDEX_MASK : Z := Z.shiftl 1 PROCESS_ID_INDEX_BITS - 1.

Record ProcessId := mkProcessId { pid_index : nat; pid_generation : Z }.
#[global] Instance ProcessId_eq_dec : EqDecision ProcessId.
Proof. solve_decision. Defined.

Definition pid_as_raw (pid : ProcessId) : Z := Z.lor (Z.shiftl (pid_generation pid) PROCESS_ID_INDEX_BITS) (Z.of_nat (pid_index pid)).

Definition pid_from_raw (raw : Z) : option ProcessId :=
  if raw =? 0 then None
  else
    let index := Z.land raw PROCESS_ID_INDEX_MASK in
    let raw_generation := Z.shiftr raw PROCESS_ID_INDEX_BITS in
    if u32_max <? raw_generation then None
    else if (Z.of_nat MAX_PROCESSES <=? index) || (raw_generation =? 0) then None
    else Some (mkProcessId (Z.to_nat index) raw_generation).

(** ** Processes *)

Inductive ProcessState := ProcFree | ProcRunning | ProcZombie.
#[global] Instance ProcessState_eq_dec : EqDecision ProcessState.
Proof. solve_decision. Defined.

Inductive UserFaultKind :=
| UnknownSyscall (nr : Z) | InstructionAbort | DataAbort | InstructionTranslationFault | DataTranslationFault
| InstructionPermissionFault | DataPermissionFault | OtherSync.

Inductive ProcessExitStatus := ExitedWith (code : Z) | Faulted (kind : UserFaultKind).

Record ProcessImageResources := mkImageResources { im_address_space : option AddressSpaceId; im_user_image : option UserElfImage }.
Definition image_resources_empty : ProcessImageResources := mkImageResources None None.

Record ProcessResources := mkResources { rs_image : ProcessImageResources; rs_files : ProcessFileState }.
Definition resources_free : ProcessResources := mkResources image_resources_empty file_state_free.
Definition resources_new (files : ProcessFileState) : ProcessResources := mkResources image_resources_empty files.

Record Process := mkProcess {
  pr_state : ProcessState;
  pr_owner_cpu : option CpuId;
  pr_pending_fork_cpu : option CpuId;
  pr_resources : ProcessResources;
  pr_parent : option ProcessId;
  pr_main_thread : option ThreadId;
  pr_exit_status : option ProcessExitStatus;
  pr_consumer : option ThreadId;
  pr_waiter : option WaitToken
}.

Definition process_free : Process := mkProcess ProcFree None None resources_free None None None None None.

Definition process_running (parent : option ProcessId) (fds : FdTable) (cwd_dir : nat) (owner_cpu : CpuId) : Process :=
  mkProcess ProcRunning (Some owner_cpu) None (resources_new (file_state_new fds cwd_dir)) parent None None None None.

Definition process_is_free (p : Process) : bool := bool_decide (pr_state p = ProcFree).

Definition process_owner (p : Process) : outcome CpuId :=
  match pr_owner_cpu p with Some cpu => mret cpu | None => Panic "process: live process lacks owner CPU" end.

Definition next_child_cpu (p : Process) : outcome CpuId :=
  match pr_pending_fork_cpu p with Some cpu => mret cpu | None => process_owner p end.

(** Field updates. *)
Definition set_pending_fork_cpu (v : option CpuId) (p : Process) : Process :=
  mkProcess (pr_state p) (pr_owner_cpu p) v (pr_resources p) (pr_parent p) (pr_main_thread p) (pr_exit_status p) (pr_consumer p) (pr_waiter p).
Definition set_image (v : ProcessImageResources) (p : Process) : Process :=
  mkProcess (pr_state p) (pr_owner_cpu p) (pr_pending_fork_cpu p) (mkResources v (rs_files (pr_resources p))) (pr_parent p)
    (pr_main_thread p) (pr_exit_status p) (pr_consumer p) (pr_waiter p).
Definition set_files (v : ProcessFileState) (p : Process) : Process :=
  mkProcess (pr_state p) (pr_owner_cpu p) (pr_pending_fork_cpu p) (mkResources (rs_image (pr_resources p)) v) (pr_parent p)
    (pr_main_thread p) (pr_exit_status p) (pr_consumer p) (pr_waiter p).
Definition set_main_thread (v : option ThreadId) (p : Process) : Process :=
  mkProcess (pr_state p) (pr_owner_cpu p) (pr_pending_fork_cpu p) (pr_resources p) (pr_parent p) v (pr_exit_status p) (pr_consumer p) (pr_waiter p).
Definition set_status (state : ProcessState) (v : option ProcessExitStatus) (p : Process) : Process :=
  mkProcess state (pr_owner_cpu p) (pr_pending_fork_cpu p) (pr_resources p) (pr_parent p) (pr_main_thread p) v (pr_consumer p) (pr_waiter p).
Definition set_consumer (v : option ThreadId) (p : Process) : Process :=
  mkProcess (pr_state p) (pr_owner_cpu p) (pr_pending_fork_cpu p) (pr_resources p) (pr_parent p) (pr_main_thread p) (pr_exit_status p) v (pr_waiter p).
Definition set_waiter (v : option WaitToken) (p : Process) : Process :=
  mkProcess (pr_state p) (pr_owner_cpu p) (pr_pending_fork_cpu p) (pr_resources p) (pr_parent p) (pr_main_thread p) (pr_exit_status p) (pr_consumer p) v.

(** ** The table *)

Record ProcessSlot := mkProcessSlot { ps_generation : Z; ps_process : Process }.
Definition process_slot_free : ProcessSlot := mkProcessSlot 0 process_free.

Record ProcessTable := mkProcessTable { pt_slots : list ProcessSlot; pt_owners : list (option ProcessId) }.

Definition process_table_new : ProcessTable :=
  mkProcessTable (replicate MAX_PROCESSES process_slot_free) (replicate KERNEL_THREAD_CAPACITY None).

(** The process a generation-bearing identity names. *)
Definition pt_slot (t : ProcessTable) (pid : ProcessId) : option Process :=
  s ← pt_slots t !! pid_index pid;
  if bool_decide (ps_generation s = pid_generation pid) && negb (process_is_free (ps_process s)) then Some (ps_process s) else None.

Definition alter_process (f : Process → Process) (pid : ProcessId) (t : ProcessTable) : ProcessTable :=
  mkProcessTable (alter (λ s, mkProcessSlot (ps_generation s) (f (ps_process s))) (pid_index pid) (pt_slots t)) (pt_owners t).

Definition set_owner (index : nat) (v : option ProcessId) (t : ProcessTable) : ProcessTable :=
  mkProcessTable (pt_slots t) (<[index := v]> (pt_owners t)).

Definition process_for_thread (t : ProcessTable) (thread : ThreadId) : outcome (option ProcessId) :=
  match pt_owners t !! tid_index thread with
  | None | Some None => mret None
  | Some (Some pid) =>
      match pt_slot t pid with
      | None => Panic "process: stale reverse owner"
      | Some p => if decide (pr_main_thread p = Some thread) then mret (Some pid) else Panic "process: reverse owner mismatch"
      end
  end.

Abbreviation PT := (M ProcessTable).

Definition slot_or {A} (pid : ProcessId) (none : PT A) (k : Process → PT A) : PT A :=
  o ← gets (λ t, pt_slot t pid); match o with Some p => k p | None => none end.

Definition validate_user_ownership (process_owner thread_home address_owner : CpuId) : PT unit :=
  assert_that (bool_decide (process_owner = thread_home) && bool_decide (thread_home = address_owner)) "process: ownership mismatch".

Definition bind_main_thread (pid : ProcessId) (thread : ThreadId) (home_cpu : CpuId) (address_space : AddressSpaceId) : PT unit :=
  owner ← gets (λ t, pt_owners t !! tid_index thread);
  match owner with
  | None => panic "process: main thread index outside reverse owner table"
  | Some (Some _) => panic "process: main thread already belongs to a process"
  | Some None =>
      slot_or pid (panic "process: published thread lost slot") (λ p,
      cpu ← reads (λ _, process_owner p);
      validate_user_ownership cpu home_cpu (owner_cpu address_space);;
      assert_that (bool_decide (im_address_space (rs_image (pr_resources p)) = Some address_space)) "process: published address space does not match process owner";;
      assert_that (bool_decide (pr_main_thread p = None)) "process: already has a main thread";;
      modify (alter_process (set_main_thread (Some thread)) pid);;
      modify (set_owner (tid_index thread) (Some pid)))
  end.

Definition unbind_main_thread (pid : ProcessId) : PT unit :=
  slot_or pid (panic "process: unbind of invalid slot") (λ p,
  thread ← expect (pr_main_thread p) "process: no main thread to unbind";
  owner ← gets (λ t, pt_owners t !! tid_index thread);
  owner ← expect owner "process: main thread index outside reverse owner table";
  assert_that (bool_decide (owner = Some pid)) "process: reverse owner missing during unbind";;
  modify (set_owner (tid_index thread) None)).

Definition release_slot (pid : ProcessId) (generation : Z) : PT unit :=
  slot_or pid (panic "process: release of invalid slot") (λ p,
  match pr_main_thread p with
  | None => mret tt
  | Some thread =>
      owner ← gets (λ t, pt_owners t !! tid_index thread);
      owner ← expect owner "process: main thread index outside reverse owner table";
      if decide (owner = Some pid) then modify (set_owner (tid_index thread) None) else mret tt
  end;;
  modify (λ t, mkProcessTable (<[pid_index pid := mkProcessSlot generation process_free]> (pt_slots t)) (pt_owners t))).

Definition next_process_generation (generation : Z) : Z :=
  let next := (generation + 1) mod 2 ^ 32 in if next =? 0 then 1 else next.

Inductive ProcessError :=
| PInvalidProcess | PNoProcessSlots | PVm (e : VmError) | POutOfFrames | PSpawn (e : SpawnError) | PElf (e : ElfLoadError) | PInitramfs (e : InitramfsError).

(** [s] is the mounted file system. *)
Definition allocate_process_slot (s : FsState) (parent : option ProcessId) (fds : FdTable) (cwd_dir : nat) (owner_cpu : CpuId)
    : PT (ProcessId + ProcessError) :=
  match dir_path s cwd_dir with
  | None => mret (inr PInvalidProcess)
  | Some _ =>
      free ← gets (λ t, list_find (λ s, process_is_free (ps_process s) = true) (pt_slots t));
      match free with
      | None => mret (inr PNoProcessSlots)
      | Some (index, old) =>
          let generation := next_process_generation (ps_generation old) in
          modify (λ t, mkProcessTable (<[index := mkProcessSlot generation (process_running parent fds cwd_dir owner_cpu)]> (pt_slots t)) (pt_owners t));;
          mret (inl (mkProcessId index generation))
      end
  end.

Definition attach_process_resources (pid : ProcessId) (address_space : AddressSpaceId) (user_image : UserElfImage) : PT unit :=
  slot_or pid (panic "process: reserved slot disappeared before resource attach") (λ p,
  cpu ← reads (λ _, process_owner p);
  assert_that (bool_decide (owner_cpu address_space = cpu)) "process: attached address space has a different owner CPU";;
  modify (alter_process (λ p, set_status ProcRunning (pr_exit_status p) (set_image (mkImageResources (Some address_space) (Some user_image)) p)) pid)).

Definition process_owner_cpu (pid : ProcessId) : PT (option CpuId) :=
  slot_or pid (mret None) (λ p, cpu ← reads (λ _, process_owner p); mret (Some cpu)).

Definition consume_pending_fork_cpu (pid : ProcessId) : PT unit :=
  slot_or pid (panic "process: parent disappeared during child publication") (λ _, modify (alter_process (set_pending_fork_cpu None) pid)).

Definition take_process_image_resources (pid : ProcessId) : PT ProcessImageResources :=
  slot_or pid (mret image_resources_empty) (λ p,
  modify (alter_process (set_image image_resources_empty) pid);;
  mret (rs_image (pr_resources p))).

Definition free_process_slot (pid : ProcessId) : PT unit :=
  slot_or pid (mret tt) (λ _, release_slot pid (pid_generation pid)).

(** The requested CPU of the next child. *)
Definition request_fork_cpu (pid : ProcessId) (cpu : option CpuId) : PT bool :=
  slot_or pid (mret false) (λ _, modify (alter_process (set_pending_fork_cpu cpu) pid);; mret true).

(** The table's part of an exec: the new image for the old one. *)
Definition swap_process_image (pid : ProcessId) (address_space : AddressSpaceId) (user_image : UserElfImage) : PT ProcessImageResources :=
  slot_or pid (panic "process: prevalidated exec slot disappeared during swap") (λ p,
  modify (alter_process (λ p, set_status ProcRunning None (set_image (mkImageResources (Some address_space) (Some user_image)) p)) pid);;
  mret (rs_image (pr_resources p))).

(** An operation on the file state of a process. *)
Definition update_process_files {A} (pid : ProcessId) (f : ProcessFileState → (A + FdError) * ProcessFileState) : PT (A + FdError) :=
  slot_or pid (mret (inr FdBadFd)) (λ p,
  let '(r, files) := f (rs_files (pr_resources p)) in
  modify (alter_process (set_files files) pid);; mret r).

(** ** Exit and wait: the table's part *)

Definition finish_process (pid : ProcessId) (status : ProcessExitStatus) : PT (option (option WaitToken)) :=
  slot_or pid (mret None) (λ p,
  match pr_exit_status p with
  | Some _ => mret (Some None)
  | None =>
      modify (alter_process (λ p, set_status ProcZombie (Some status) (set_files (file_state_close_all (rs_files (pr_resources p))) p)) pid);;
      unbind_main_thread pid;;
      mret (Some (pr_waiter p))
  end).

Inductive ProcessJoinError := PJInvalidProcess | PJJoinInProgress | PJSelfJoin | PJSchedulerNotInitialized.

Definition claim_process_consumer (pid : ProcessId) (caller : ThreadId) : PT (ThreadId + ProcessJoinError) :=
  slot_or pid (mret (inr PJInvalidProcess)) (λ p,
  match pr_consumer p with
  | Some _ => mret (inr PJJoinInProgress)
  | None =>
      match pr_main_thread p with
      | None => mret (inr PJInvalidProcess)
      | Some main_thread =>
          modify (alter_process (set_consumer (Some caller)) pid);;
          mret (inl main_thread)
      end
  end).

Record ReclaimedProcess := mkReclaimed { rc_status : ProcessExitStatus; rc_resources : ProcessImageResources }.
Inductive ConsumeProcessError := ConsumeWouldBlock | ConsumeJoin (e : ProcessJoinError).

(** Taking the status out of the slot and releasing the slot for reuse. *)
Definition take_and_release (pid : ProcessId) : PT unit :=
  modify (alter_process (λ p, set_waiter None (set_image image_resources_empty (set_status (pr_state p) None p))) pid);;
  release_slot pid (next_process_generation (pid_generation pid)).

Definition consume_process_for_join (pid : ProcessId) (caller : ThreadId) : PT (ReclaimedProcess + ConsumeProcessError) :=
  slot_or pid (mret (inr (ConsumeJoin PJInvalidProcess))) (λ p,
  if decide (pr_consumer p = Some caller) then
    match pr_exit_status p with
    | None => mret (inr ConsumeWouldBlock)
    | Some status => take_and_release pid;; mret (inl (mkReclaimed status (rs_image (pr_resources p))))
    end
  else mret (inr (ConsumeJoin PJJoinInProgress))).

Record WaitedProcess := mkWaited {
  wd_pid : ProcessId; wd_status : ProcessExitStatus; wd_resources : ProcessImageResources;
  wd_main_thread : ThreadId; wd_wait_token : option WaitToken
}.

Inductive ChildClaim := ChildConsumed (waited : WaitedProcess) | ChildRunning | ChildRefused.

(** [prepare_wait_child_locked] up to the preparation of the wait. *)
Definition claim_child (parent_pid child_pid : ProcessId) (caller : ThreadId) : PT ChildClaim :=
  slot_or child_pid (mret ChildRefused) (λ p,
  if negb (bool_decide (pr_parent p = Some parent_pid)) then mret ChildRefused
  else if match pr_consumer p with Some consumer => negb (bool_decide (consumer = caller)) | None => false end then mret ChildRefused
  else
    match pr_consumer p with
    | Some _ => mret tt
    | None => modify (alter_process (set_consumer (Some caller)) child_pid)
    end;;
    if match pr_waiter p with Some waiter => negb (bool_decide (wt_thread waiter = caller)) | None => false end then mret ChildRefused
    else
      match pr_exit_status p with
      | None =>
          assert_that (bool_decide (pr_waiter p = None)) "waitpid: current caller already owns an unfinished child wait";;
          mret ChildRunning
      | Some status =>
          main_thread ← expect (pr_main_thread p) "waitpid: terminal process has no main thread";
          take_and_release child_pid;;
          mret (ChildConsumed (mkWaited child_pid status (rs_image (pr_resources p)) main_thread (pr_waiter p)))
      end).

(** Publishing the prepared wait's token in the child's slot. *)
Definition register_waiter (child_pid : ProcessId) (token : WaitToken) : PT unit :=
  modify (alter_process (set_waiter (Some token)) child_pid).

Definition encode_wait_status (status : ProcessExitStatus) : Z :=
  match status with
  | ExitedWith code => Z.shiftl (Z.land (code mod 2 ^ 32) 0xff) 8
  | Faulted _ => 0x7f
  end.
