(* ===== verification/ProcessOps.v ===== *)
(** * Process operations

    The operations of [kernel/src/process] on the whole machine: the scheduler
    and its CPUs, the process table, and the memory with its page tables.

    [waitpid] and [process_join] call the scheduler's blocking join in the
    middle: each is given as the part before the call, which ends with the
    thread to join, and the part after it, which starts with the result.  The
    publication callback of a user spawn runs under the process-table lock,
    which the scheduler does not take, so it is given as the table update that
    follows the spawn.  [s] is the mounted file system, [reserve n] whether the
    heap grants room for [n] elements, [minimal_parse] the ELF crate. *)

From stdpp Require Import gmap.
From S2P Require Import Prelude Types Wait Context Vm Sched World Transition Handoff MemMap FrameAlloc PageTable PhysMem AddressSpace.
From S2P Require Import UserCopy UserImage Ramfs PathRes FdTable ExecStack Staging Process.
#[local] Open Scope Z_scope.

Record Kernel := mkKernel { k_world : World; k_procs : ProcessTable; k_mmu : Mmu }.
Abbreviation P := (M Kernel).

Definition on_procs {A} (m : PT A) : P A :=
  λ k, match m (k_procs k) with Done (a, t) => Done (a, mkKernel (k_world k) t (k_mmu k)) | Panic why => Panic why end.
Definition on_mmu {A} (m : K A) : P A :=
  λ k, match m (k_mmu k) with Done (a, mm) => Done (a, mkKernel (k_world k) (k_procs k) mm) | Panic why => Panic why end.

(** ** Errors *)

Definition spawn_errno (e : SpawnError) : Errno :=
  match e with
  | NoThreadSlots | NoStackSlots => EAGAIN
  | SchedulerNotInitialized | InvalidCpuAffinity | CpuOffline | UserThreadMustBeJoinable => EINVAL
  end.

Definition fork_errno (e : ProcessError) : Errno :=
  match e with
  | PNoProcessSlots => EAGAIN | POutOfFrames => ENOMEM | PVm e => fork_vm_errno e | PSpawn _ => EAGAIN
  | PInvalidProcess => EINVAL | PElf _ | PInitramfs _ => ENOEXEC
  end.

Section ops.
Context (E : Env) (s : FsState) (reserve : nat → bool) (minimal_parse : list Z → option ElfFile).

(** The user root in the executing CPU's TTBR0: the one the CPU has installed,
    or none. *)
Definition user_ttbr0 (w : World) : Z :=
  match w_vm w !! e_cpu E with
  | Some u => if installed u =? NO_ACTIVE_USER_ROOT then 0 else installed u
  | None => 0
  end.

(** The scheduler activates and clears address spaces, which writes TTBR0. *)
Definition on_world {A} (m : W A) : P A :=
  λ k, match m (k_world k) with
       | Done (a, w) => Done (a, mkKernel w (k_procs k) (set_mm_ttbr0 (user_ttbr0 w) (k_mmu k)))
       | Panic why => Panic why
       end.

(** ** The current process *)

Definition current_process_id : P (option ProcessId) :=
  thread ← on_world (current_thread E);
  match thread with
  | None => mret None
  | Some thread => on_procs (reads (λ t, process_for_thread t thread))
  end.

Definition current_user_stack : W (option OwnedUserStack) :=
  current ← current_thread E;
  match current with
  | None => mret None
  | Some current => t ← with_sched (λ s, thread_at s (tid_index current)); mret (ur_stack <$> t_user t)
  end.

Definition set_current_pending_fork_cpu (cpu : option CpuId) : P bool :=
  pid ← current_process_id;
  match pid with
  | None => mret false
  | Some pid => on_procs (request_fork_cpu pid cpu)
  end.

(** [vm::destroy_user_address_space] *)
Definition vm_destroy_user_address_space (aspace : AddressSpaceId) : P (unit + VmError) :=
  active ← gets (λ k, existsb (λ c, (installed c =? root_pa aspace)%Z) (w_vm (k_world k)));
  if active : bool then mret (inr ActiveAddressSpace) else on_mmu (destroy_staged_user_address_space (root_pa aspace)).

Definition cleanup_process_image_resources (resources : ProcessImageResources) : P unit :=
  match im_user_image resources with Some image => on_mmu (free_loaded_segments image) | None => mret tt end;;
  match im_address_space resources with
  | Some aspace => _ ← vm_destroy_user_address_space aspace; mret tt
  | None => mret tt
  end.

(** ** Fork *)

Definition scheduler_online (cpu : CpuId) : P bool :=
  gets (λ k, match cpus (w_sched (k_world k)) !! cpu with Some c => cs_online c | None => false end).

Definition set_fork_affinity_current (raw_cpu : Z) : P (unit + Errno) :=
  pending ←? (if raw_cpu =? -1 then mret (inl None)
              else if raw_cpu <? -1 then mret (inr EINVAL)
              else match CpuId_from_index (Z.to_nat raw_cpu) with
                   | None => mret (inr EINVAL)
                   | Some cpu =>
                       online ← scheduler_online cpu;
                       if bool_decide (e_registered E ≤ cpu)%nat || negb online then mret (inr EINVAL) else mret (inl (Some cpu))
                   end);
  done ← set_current_pending_fork_cpu pending;
  mret (if done : bool then inl tt else inr EINVAL).

Record ForkSnapshot := mkForkSnapshot {
  fk_parent_pid : ProcessId; fk_user_image : UserElfImage; fk_stack : OwnedUserStack;
  fk_fds : FdTable; fk_cwd_dir : nat; fk_child_owner_cpu : CpuId
}.

Definition fork_snapshot_current : P (ForkSnapshot + Errno) :=
  pid ← current_process_id;
  match pid with
  | None => mret (inr EINVAL)
  | Some parent_pid =>
      stack ← on_world current_user_stack;
      match stack with
      | None => mret (inr EINVAL)
      | Some stack =>
          on_procs (slot_or parent_pid (mret (inr EINVAL)) (λ p,
          match im_user_image (rs_image (pr_resources p)), pf_cwd_dir (rs_files (pr_resources p)) with
          | None, _ | Some _, None => mret (inr EINVAL)
          | Some user_image, Some cwd_dir =>
              cpu ← reads (λ _, next_child_cpu p);
              mret (inl (mkForkSnapshot parent_pid user_image stack (pf_fds (rs_files (pr_resources p))) cwd_dir cpu))
          end))
      end
  end.

(** The address space, the image and the stack of the child, as far as they
    could be built. *)
Definition clone_process (snapshot : ForkSnapshot) : K ((Z * UserElfImage * OwnedUserStack) + (option Z * option UserElfImage * Errno)) :=
  r ← map_error fork_vm_errno vm_create_user_address_space;
  match r with
  | inr e => mret (inr (None, None, e))
  | inl aspace =>
      r ← clone_user_image reserve (fk_user_image snapshot) aspace;
      match r with
      | inr e => mret (inr (Some aspace, None, e))
      | inl image =>
          r ← map_error fork_vm_errno (user_stack_clone_into (fk_stack snapshot) aspace);
          mret (match r with inr e => inr (Some aspace, Some image, e) | inl stack => inl (aspace, image, stack) end)
      end
  end.

(** The cleanup of a failed fork: what was built and not attached, and what was
    attached to the child. *)
Definition drop_fork (child_pid : ProcessId) (aspace : option Z) (image : option UserElfImage) (stack : option OwnedUserStack) : P unit :=
  attached ← on_procs (take_process_image_resources child_pid);
  match image, im_user_image attached with
  | Some image, _ | None, Some image => on_mmu (free_loaded_segments image)
  | None, None => mret tt
  end;;
  match stack with Some stack => on_mmu (user_stack_drop stack) | None => mret tt end;;
  match im_address_space attached, aspace with
  | Some aspace, _ => _ ← vm_destroy_user_address_space aspace; mret tt
  | None, Some aspace => _ ← on_mmu (destroy_staged_user_address_space aspace); mret tt
  | None, None => mret tt
  end;;
  on_procs (free_process_slot child_pid).

Definition fork_current : P (Z + Errno) :=
  snapshot ←? fork_snapshot_current;
  child_pid ←? map_error fork_errno
                 (on_procs (allocate_process_slot s (Some (fk_parent_pid snapshot)) (fk_fds snapshot) (fk_cwd_dir snapshot) (fk_child_owner_cpu snapshot)));
  r ← on_mmu (clone_process snapshot);
  match r with
  | inr (aspace, image, errno) => drop_fork child_pid aspace image None;; mret (inr errno)
  | inl (aspace, image, stack) =>
      on_procs (attach_process_resources child_pid (mkAddressSpaceId aspace (fk_child_owner_cpu snapshot)) image);;
      child_aspace ← on_procs (gets (λ t, p ← pt_slot t child_pid; im_address_space (rs_image (pr_resources p))));
      match child_aspace with
      | None => drop_fork child_pid None None (Some stack);; mret (inr ENOMEM)
      | Some child_aspace =>
      r ← on_world (spawn_user_thread_from_context E child_aspace stack
                      (mkThreadAttrs true (AffinityCpu (fk_child_owner_cpu snapshot))) (λ _ _ _, mret tt));
      match r with
      | inr (error, stack) => drop_fork child_pid None None (Some stack);; mret (inr (spawn_errno error))
      | inl thread =>
          on_procs (bind_main_thread child_pid thread (fk_child_owner_cpu snapshot) child_aspace;;
                    consume_pending_fork_cpu (fk_parent_pid snapshot));;
          mret (inl (pid_as_raw child_pid))
      end
      end
  end.

(** ** Exec *)

Definition commit_exec_image (pid : ProcessId) (staged : StagedProcessImage) : P (ProcessImageResources * UserThreadResources) :=
  on_procs (slot_or pid (panic "process: validated exec slot disappeared before commit") (λ _, mret tt));;
  r ← on_world (replace_current_user_resources E (si_address_space staged) (si_stack staged));
  match r with
  | inr _ => panic "process: staged exec address-space activation failed"
  | inl old_stack =>
      old ← on_procs (swap_process_image pid (si_address_space staged) (si_user_image staged));
      on_world (f ← active_context E; set_active_context E (replace_user_context_after_exec f (si_entry staged) (si_initial_sp staged)));;
      mret (old, old_stack)
  end.

Definition execve_current (path : ResolvedPath) (args : ExecArgs) : P (unit + Errno) :=
  pid ← current_process_id;
  match pid with
  | None => mret (inr EINVAL)
  | Some pid =>
      owner ← on_procs (process_owner_cpu pid);
      match owner with
      | None => mret (inr EINVAL)
      | Some owner_cpu =>
          staged ←? on_mmu (stage_exec_image minimal_parse reserve s path args owner_cpu);
          '(old, old_stack) ← commit_exec_image pid staged;
          on_mmu (user_stack_drop (ur_stack old_stack));;
          cleanup_process_image_resources old;;
          mret (inl tt)
      end
  end.

(** ** The first process *)

Definition INIT_PATH : list Z := [47; 105; 110; 105; 116].

(** Loading [/init], its stack and its arguments, as far as they could be
    built. *)
Definition build_init (aspace : Z)
    : K ((UserElfImage * OwnedUserStack * Z) + (option UserElfImage * option OwnedUserStack * ProcessError)) :=
  match init_file s with
  | inr e => mret (inr (None, None, PInitramfs e))
  | inl file =>
      r ← load_user_elf minimal_parse reserve file aspace;
      match r with
      | inr e => mret (inr (None, None, PElf e))
      | inl image =>
          r ← user_stack_allocate aspace USER_STACK_SIZE;
          match r with
          | inr e => mret (inr (Some image, None, PVm e))
          | inl stack =>
              match exec_args_push reserve Argv INIT_PATH exec_args_empty with
              | inr _ => mret (inr (Some image, Some stack, POutOfFrames))
              | inl args =>
                  sp ← build_initial_user_stack stack reserve args;
                  mret (match sp with Some sp => inl (image, stack, sp) | None => inr (Some image, Some stack, POutOfFrames) end)
              end
          end
      end
  end.

Definition spawn_first_user_process : P (ProcessId + ProcessError) :=
  match root_dir_index s with
  | None => mret (inr PInvalidProcess)
  | Some cwd_dir =>
      let owner := e_cpu E in
      pid ←? on_procs (allocate_process_slot s None fdtable_new cwd_dir owner);
      r ← on_mmu vm_create_user_address_space;
      match r with
      | inr err => on_procs (free_process_slot pid);; mret (inr (PVm err))
      | inl aspace =>
          r ← on_mmu (build_init aspace);
          match r with
          | inr (image, stack, err) => drop_fork pid (Some aspace) image stack;; mret (inr err)
          | inl (image, stack, initial_sp) =>
              on_procs (attach_process_resources pid (mkAddressSpaceId aspace owner) image);;
              address_space ← on_procs (gets (λ t, p ← pt_slot t pid; im_address_space (rs_image (pr_resources p))));
              match address_space with
              | None => drop_fork pid None None (Some stack);; mret (inr PInvalidProcess)
              | Some address_space =>
                  r ← on_world (spawn_user_thread E address_space stack (ui_entry image) initial_sp 0
                                  (mkThreadAttrs true (AffinityCpu owner)) (λ _ _ _, mret tt));
                  match r with
                  | inr (error, stack) => drop_fork pid None None (Some stack);; mret (inr (PSpawn error))
                  | inl thread =>
                      on_procs (bind_main_thread pid thread owner address_space);;
                      mret (inl pid)
                  end
              end
          end
      end
  end.

(** ** Exit *)

Inductive ProcessFaultError := NoCurrentProcess | InvalidProcess.

(** The table's part, the notification of the waiter, and the thread's exit. *)
Definition finish_current_process (status : ProcessExitStatus) (thread_code : Z) : P (unit + ProcessFaultError) :=
  on_world (assert_preemption_enabled_on E (e_cpu E) "process terminal state change");;
  pid ← current_process_id;
  match pid with
  | None => mret (inr NoCurrentProcess)
  | Some pid =>
      wake ← on_procs (finish_process pid status);
      match wake with
      | None => mret (inr InvalidProcess)
      | Some wake =>
          match wake with
          | Some waiter => _ ← on_world (transition_complete_wait E waiter Notified); mret tt
          | None => mret tt
          end;;
          on_world (on_thread_exit_sync E thread_code);;
          mret (inl tt)
      end
  end.

Definition process_exit_current (code : Z) : P unit :=
  on_world (assert_preemption_enabled_on E (e_cpu E) "process exit state change");;
  r ← finish_current_process (ExitedWith code) code;
  match r with inl _ => mret tt | inr _ => panic "process: sys_exit without current process" end.

Definition kill_current_process_on_user_fault (fault : UserFaultKind) : P (unit + ProcessFaultError) :=
  on_world (assert_preemption_enabled_on E (e_cpu E) "process fault exit state change");;
  finish_current_process (Faulted fault) u64_max.

(** ** Wait *)

Context (hw_translate : gmap Z Z → Z → Z → option Z) (at_s1e0r : gmap Z Z → Z → Z → bool).

(** A user copy runs in the address space the executing CPU has installed. *)
Definition with_user_space {A} (f : option AddressSpaceId → K A) : P A :=
  current ← on_world (reads (λ w, current_user_address_space (w_vm w) (Some (e_cpu E))));
  on_mmu (f current).

Inductive WaitPidAction := WaitReturn (r : Z + Errno) | WaitBlocked.
Inductive WaitChildPrepare := WaitConsumed (waited : WaitedProcess) | WaitPrepared (prepared : PreparedWait) | WaitErr (e : Errno).

Definition prepare_wait_child_locked (parent_pid child_pid : ProcessId) (caller : ThreadId) : P WaitChildPrepare :=
  claim ← on_procs (claim_child parent_pid child_pid caller);
  match claim with
  | ChildRefused => mret (WaitErr ECHILD)
  | ChildConsumed waited => mret (WaitConsumed waited)
  | ChildRunning =>
      on_world (assert_preemption_enabled_on E (e_cpu E) "process waiter publication");;
      prepared ← on_world (transition_prepare_wait E);
      on_procs (register_waiter child_pid (pw_token prepared));;
      mret (WaitPrepared prepared)
  end.

(** Up to the join of the child's thread. *)
Definition waitpid_enter (raw_pid status_ptr : Z) : P (WaitPidAction + WaitedProcess) :=
  if raw_pid <=? 0 then mret (inl (WaitReturn (inr ECHILD)))
  else match pid_from_raw raw_pid with
  | None => mret (inl (WaitReturn (inr ECHILD)))
  | Some child_pid =>
      writable ← (if status_ptr =? 0 then mret true
                  else with_user_space (λ current, r ← reads (λ m, validate_user_write_range at_s1e0r current m status_ptr 4);
                                                   mret (match r with inl _ => true | inr _ => false end)));
      if negb writable then mret (inl (WaitReturn (inr EFAULT)))
      else
        parent ← current_process_id;
        caller ← on_world (current_thread E);
        match parent, caller with
        | None, _ | Some _, None => mret (inl (WaitReturn (inr EINVAL)))
        | Some parent_pid, Some caller =>
            prepare ← prepare_wait_child_locked parent_pid child_pid caller;
            match prepare with
            | WaitErr e => mret (inl (WaitReturn (inr e)))
            | WaitPrepared prepared =>
                on_world (f ← active_context E; f' ← reads (λ _, restart_current_syscall f); set_active_context E f');;
                r ← on_world (commit_prepared_wait E prepared);
                match r with
                | CommitStaleResult => panic "waitpid: prepared wait became stale before commit"
                | _ => mret (inl WaitBlocked)
                end
            | WaitConsumed waited =>
                match wd_wait_token waited with
                | None => mret tt
                | Some token =>
                    r ← on_world (transition_finish_wait E token);
                    match r with inr NotCompleted => panic "waitpid: child wait not completed" | _ => mret tt end
                end;;
                mret (inr waited)
            end
        end
  end.

(** After the join. *)
Definition waitpid_resume (status_ptr : Z) (waited : WaitedProcess) (joined : Z + JoinError) : P WaitPidAction :=
  match joined with
  | inr _ => mret (WaitReturn (inr ECHILD))
  | inl _ =>
      cleanup_process_image_resources (wd_resources waited);;
      copied ← (if status_ptr =? 0 then mret (inl tt)
                else with_user_space (λ current, copy_to_user hw_translate at_s1e0r current status_ptr
                                                   (take 4 (word_bytes (encode_wait_status (wd_status waited))))));
      mret (WaitReturn (match copied with inl _ => inl (pid_as_raw (wd_pid waited)) | inr _ => inr EFAULT end))
  end.

(** ** Joining from the kernel *)

Definition process_join_enter (pid : ProcessId) : P ((ThreadId * ThreadId) + ProcessJoinError) :=
  current ← current_process_id;
  if decide (current = Some pid) then mret (inr PJSelfJoin)
  else
    caller ← on_world (current_thread E);
    match caller with
    | None => mret (inr PJSchedulerNotInitialized)
    | Some caller =>
        main_thread ←? on_procs (claim_process_consumer pid caller);
        mret (inl (caller, main_thread))
    end.

Definition process_join_resume (pid : ProcessId) (caller : ThreadId) (joined : Z + JoinError) : P (ProcessExitStatus + ProcessJoinError) :=
  match joined with
  | inr JoinInProgress => mret (inr PJJoinInProgress)
  | inr _ => mret (inr PJInvalidProcess)
  | inl _ =>
      r ← on_procs (consume_process_for_join pid caller);
      match r with
      | inr ConsumeWouldBlock => mret (inr PJInvalidProcess)
      | inr (ConsumeJoin err) => mret (inr err)
      | inl reclaimed =>
          cleanup_process_image_resources (rc_resources reclaimed);;
          mret (inl (rc_status reclaimed))
      end
  end.

(** ** Placement and files *)

Definition USER_PID_MAX : Z := 2 ^ 31 - 1.

Definition process_affinity (raw_pid : Z) : P (CpuId + Errno) :=
  pid ← (if raw_pid =? 0 then current_process_id
         else if (raw_pid <? 0) || (USER_PID_MAX <? raw_pid) then mret None else mret (pid_from_raw raw_pid));
  match pid with
  | None => mret (inr ESRCH)
  | Some pid =>
      on_procs (slot_or pid (mret (inr ESRCH)) (λ p,
      match pr_main_thread p with
      | None => mret (inr ESRCH)
      | Some _ =>
          owner ← reads (λ _, process_owner p);
          aspace ← expect (im_address_space (rs_image (pr_resources p))) "process: published process lacks an address space";
          assert_that (bool_decide (owner = owner_cpu aspace)) "process: published process has inconsistent CPU ownership";;
          mret (inl owner)
      end))
  end.

Inductive ProcessPathError := PathNoCurrentProcess | PathInvalidDirectory.

Definition current_cwd_dir : P (nat + ProcessPathError) :=
  pid ← current_process_id;
  match pid with
  | None => mret (inr PathNoCurrentProcess)
  | Some pid => on_procs (slot_or pid (mret (inr PathNoCurrentProcess)) (λ p,
      mret (match pf_cwd_dir (rs_files (pr_resources p)) with Some dir => inl dir | None => inr PathInvalidDirectory end)))
  end.

Definition current_cwd_path : P (list Z + ProcessPathError) :=
  dir ←? current_cwd_dir;
  mret (match dir_path s dir with Some path => inl path | None => inr PathInvalidDirectory end).

Definition set_current_cwd (dir_index : nat) : P (unit + ProcessPathError) :=
  match dir_path s dir_index with
  | None => mret (inr PathInvalidDirectory)
  | Some _ =>
      pid ← current_process_id;
      match pid with
      | None => mret (inr PathNoCurrentProcess)
      | Some pid => on_procs (slot_or pid (mret (inr PathNoCurrentProcess)) (λ p,
          modify (alter_process (λ p, set_files (file_state_set_cwd dir_index (rs_files (pr_resources p))) p) pid);; mret (inl tt)))
      end
  end.

Definition with_current_file_state {A} (f : ProcessFileState → A + FdError) : P (A + FdError) :=
  pid ← current_process_id;
  match pid with
  | None => mret (inr FdBadFd)
  | Some pid => on_procs (slot_or pid (mret (inr FdBadFd)) (λ p, mret (f (rs_files (pr_resources p)))))
  end.

Definition with_current_file_state_mut {A} (f : ProcessFileState → (A + FdError) * ProcessFileState) : P (A + FdError) :=
  pid ← current_process_id;
  match pid with
  | None => mret (inr FdBadFd)
  | Some pid => on_procs (update_process_files pid f)
  end.

(** A descriptor-table operation on the file state. *)
Definition on_fds {A} (f : FdTable → (A + FdError) * FdTable) (files : ProcessFileState) : (A + FdError) * ProcessFileState :=
  let '(r, fds) := f (pf_fds files) in (r, mkProcessFileState fds (pf_cwd_dir files)).

Definition open_current_ram_file (file_index : nat) := with_current_file_state_mut (on_fds (open_ram_file file_index)).
Definition open_current_ram_dir (dir_index : nat) := with_current_file_state_mut (on_fds (open_ram_dir dir_index)).
Definition current_fd_read_slice (fd : nat) (max_len : Z) := with_current_file_state (λ files, read_slice s (pf_fds files) fd max_len).
Definition advance_current_fd_read (fd : nat) (amount : Z) := with_current_file_state_mut (on_fds (advance_read s fd amount)).
Definition current_fd_dir_entry_at (fd relative_offset : nat) := with_current_file_state (λ files, fd_dir_entry_at s (pf_fds files) fd relative_offset).
Definition advance_current_fd_dir_read (fd : nat) (amount : Z) := with_current_file_state_mut (on_fds (advance_dir_read s fd amount)).
Definition close_current_fd (fd : nat) := with_current_file_state_mut (on_fds (close_fd fd)).
Definition current_fd_is_open (fd : nat) := with_current_file_state (λ files, inl (is_open (pf_fds files) fd)).
End ops.
