(* ===== verification/Syscall.v ===== *)
(** * System calls

    Models [kernel/src/syscall.rs], [errno::syscall_ret] and the request side of
    [kernel/src/power.rs]: the dispatcher and every handler, over the whole
    machine with the mounted file system and the console.

    The live register frame is the one of the executing CPU; a handler stores
    its result there.  [waitpid] joins the child's thread in the middle, where
    the caller may block: dispatch ends with [Joining], and [waitpid_joined] is
    what the thread does after the join.  A power request that succeeds does not
    come back.

    Parameters: [hw_translate] and [at_s1e0r] are the translation hardware (see
    [UserCopy]), [reserve] and [granted] the answers of the heap,
    [minimal_parse] the ELF crate, [firmware op] what the power hook returns if
    it returns.  The optional profiling calls are those of a kernel built
    without profiling. *)

From stdpp Require Import gmap.
From S2P Require Import Prelude Types Wait TimeConv Context Vm Sched World Transition Handoff Console.
From S2P Require Import MemMap FrameAlloc PageTable PhysMem AddressSpace UserCopy UserImage Ramfs PathRes FdTable ExecStack Staging Process ProcessOps.
#[local] Open Scope Z_scope.

Definition SYS_READ : Z := 0.
Definition SYS_WRITE : Z := 1.
Definition SYS_EXIT : Z := 2.
Definition SYS_OPEN : Z := 3.
Definition SYS_CLOSE : Z := 4.
Definition SYS_FORK : Z := 5.
Definition SYS_EXECVE : Z := 6.
Definition SYS_WAITPID : Z := 7.
Definition SYS_GETDENTS64 : Z := 8.
Definition SYS_CHDIR : Z := 9.
Definition SYS_GETCWD : Z := 10.
Definition SYS_SCHED_SETFORKAFFINITY : Z := 11.
Definition SYS_SCHED_GETAFFINITY : Z := 12.
Definition SYS_REBOOT : Z := 13.
Definition SYS_CLOCK_GETTIME : Z := 14.
Definition SYS_CLOCK_GETRES : Z := 15.
Definition SYS_CLOCK_NANOSLEEP : Z := 16.
Definition SYS_PROFILE_CONTROL : Z := 17.
Definition SYS_PROFILE_READ : Z := 18.

Definition CLOCK_MONOTONIC : Z := 1.
Definition TIMER_ABSTIME : Z := 1.
Definition NANOSECONDS_PER_SECOND : Z := 1000000000.
Definition USER_TIMESPEC_SIZE : nat := 16.
Definition USER_CPU_SET_BITS : nat := 1024.
Definition USER_CPU_SET_BYTES : nat := USER_CPU_SET_BITS / 8.

Definition O_RDONLY : Z := 0.
Definition O_WRONLY : Z := 1.
Definition O_RDWR : Z := 2.
Definition O_ACCMODE : Z := 3.
Definition O_CREAT : Z := 64.
Definition O_TRUNC : Z := 512.
Definition O_APPEND : Z := 1024.
Definition O_DIRECTORY : Z := 65536.
Definition SUPPORTED_OPEN_FLAGS : Z :=
  Z.lor (Z.lor (Z.lor (Z.lor O_ACCMODE O_CREAT) O_TRUNC) O_APPEND) O_DIRECTORY.

Definition DIRENT64_ALIGN : Z := 8.
Definition DT_DIR : Z := 4.
Definition DT_REG : Z := 8.
Definition DIRENT64_HEADER_SIZE : Z := 19.

Definition i64_max : Z := 2 ^ 63 - 1.

(** [value as isize] of a [usize], [i64::from_ne_bytes]. *)
Definition as_isize (z : Z) : Z := if z <=? i64_max then z else z - (u64_max + 1).

(** [!flags] on [usize]. *)
Definition usize_not (z : Z) : Z := Z.lxor u64_max z.

Record SyscallRequest := mkSyscallRequest { rq_number : Z; rq_args : list Z }.
Definition arg (rq : SyscallRequest) (i : nat) : Z := nth i (rq_args rq) 0.

(** ** Errors and results *)

Definition syscall_ret (result : Z + Errno) : Z := match result with inl value => as_isize value | inr errno => - errno end.

Definition user_copy_errno (e : UserCopyError) : Errno :=
  match e with
  | CopyTooLarge => EINVAL
  | CopyNameTooLong => ENAMETOOLONG
  | CopyEmpty => EINVAL
  | CopyOutOfMemory => ENOMEM
  | CopyAddressOverflow | CopyNotUserRange | CopyNotMapped | CopyNotReadable | CopyNotWritable | CopyNoCurrentAddressSpace => EFAULT
  end.

Definition path_copy_errno (e : UserCopyError) : Errno :=
  match e with CopyNameTooLong => ENAMETOOLONG | CopyEmpty => ENOENT | CopyOutOfMemory => ENOMEM | _ => EFAULT end.

Definition path_errno (e : PathError) : Errno :=
  match e with
  | PathEmpty => ENOENT | PathNotFound => ENOENT | PathNotDirectory => ENOTDIR
  | PathNameTooLong => ENAMETOOLONG | PathInvalidBase => EINVAL | PathNoMemory => ENOMEM
  end.

Definition process_path_errno (e : ProcessPathError) : Errno :=
  match e with PathNoCurrentProcess | PathInvalidDirectory => EINVAL end.

Definition fd_errno (e : FdError) : Errno :=
  match e with
  | FdBadFd => EBADF | FdIsDirectory => EISDIR | FdNotDirectory => ENOTDIR | FdTooManyOpenFiles => EMFILE | FdUnsupported => ENOTSUP
  end.

Definition time_errno (e : TimeConversionError) : Errno := match e with InvalidFrequency => EINVAL | Overflow => EOVERFLOW end.

Definition validate_open_flags (flags : Z) : unit + Errno :=
  if negb (Z.land flags (usize_not SUPPORTED_OPEN_FLAGS) =? 0) then inr EINVAL
  else if negb (Z.land flags (Z.lor O_CREAT O_TRUNC) =? 0) then inr EROFS
  else if negb (Z.land flags O_APPEND =? 0) then inr ENOTSUP
  else
    let mode := Z.land flags O_ACCMODE in
    if mode =? O_RDONLY then inl tt
    else if (mode =? O_WRONLY) || (mode =? O_RDWR) then inr ENOTSUP
    else inr EINVAL.

Definition validate_clock_id (clock_id : Z) : unit + Errno := if clock_id =? CLOCK_MONOTONIC then inl tt else inr EINVAL.

(** One directory record: inode, offset of the next record, length, type, name
    and padding with zeros, in [dst_len] bytes at most. *)
Definition encode_dirent64 (dst_len : nat) (ino off d_type : Z) (name : list Z) : option (list Z) :=
  raw_len ← u64_checked_add DIRENT64_HEADER_SIZE (Z.of_nat (length name));
  raw_len ← u64_checked_add raw_len 1;
  record_len ← align_up raw_len DIRENT64_ALIGN;
  if (Z.of_nat dst_len <? record_len) || (65535 <? record_len) || bool_decide (47 ∈ name) then None
  else
    let header := word_bytes ino ++ word_bytes (off mod (u64_max + 1)) ++ take 2 (word_bytes record_len) ++ [d_type] in
    Some (header ++ name ++ replicate (Z.to_nat record_len - length header - length name) 0).

(** ** Power requests *)

Inductive PowerOperation := Restart | PowerOff.

Definition LINUX_REBOOT_MAGIC1 : Z := 0xfee1dead.
Definition LINUX_REBOOT_MAGIC2 : list Z := [672274793; 85072278; 369367448; 537993216].
Definition LINUX_REBOOT_CMD_RESTART : Z := 0x01234567.
Definition LINUX_REBOOT_CMD_POWER_OFF : Z := 0x4321fedc.

Definition parse_linux_reboot (magic magic2 command : Z) : PowerOperation + Errno :=
  let magic := as_u32 magic in
  let magic2 := as_u32 magic2 in
  let command := as_u32 command in
  if negb (magic =? LINUX_REBOOT_MAGIC1) || negb (bool_decide (magic2 ∈ LINUX_REBOOT_MAGIC2)) then inr EINVAL
  else if command =? LINUX_REBOOT_CMD_RESTART then inl Restart
  else if command =? LINUX_REBOOT_CMD_POWER_OFF then inl PowerOff
  else inr EINVAL.

Definition backend_errno (status : Z) : Errno := if status =? 2 then ENOTSUP else if status =? 3 then EPERM else EIO.

(** ** The machine *)

Record Sys := mkSys { y_kernel : Kernel; y_fs : FsState; y_stdin : StdinRx; y_console : Console }.
Abbreviation Y := (M Sys).

Definition on_kernel {A} (m : FsState → P A) : Y A :=
  λ y, match m (y_fs y) (y_kernel y) with
       | Done (a, k) => Done (a, mkSys k (y_fs y) (y_stdin y) (y_console y))
       | Panic why => Panic why
       end.
Definition on_fs {A} (m : FS A) : Y A :=
  λ y, match m (y_fs y) with
       | Done (a, s) => Done (a, mkSys (y_kernel y) s (y_stdin y) (y_console y))
       | Panic why => Panic why
       end.
Definition on_console (f : Console → outcome Console) : Y unit :=
  λ y, match f (y_console y) with
       | Done c => Done (tt, mkSys (y_kernel y) (y_fs y) (y_stdin y) c)
       | Panic why => Panic why
       end.
(** An operation of the scheduler that also changes the receive queue. *)
Definition on_stdin {A} (E : Env) (m : StdinRx → W (A * StdinRx)) : Y A :=
  λ y, match on_world E (m (y_stdin y)) (y_kernel y) with
       | Done (a, i, k) => Done (a, mkSys k (y_fs y) i (y_console y))
       | Panic why => Panic why
       end.

(** [.map_err(f)?] on a value. *)
Definition lift {A} (r : A + Errno) : Y (A + Errno) := mret r.
Definition fails_as {A F} (f : F → Errno) (m : Y (A + F)) : Y (A + Errno) :=
  r ← m; mret (match r with inl a => inl a | inr e => inr (f e) end).

Inductive ReadAction := ReadReturn (r : Z + Errno) | ReadBlocked.

(** What becomes of the caller. *)
Inductive Dispatched :=
| Handled                                          (* the call is done, or its thread blocked or gone *)
| Joining (waited : WaitedProcess) (status_ptr : Z)  (* [waitpid] goes on with a join *)
| Unknown (number : Z)
| NoReturn (op : PowerOperation).
#[global] Instance PowerOperation_eq_dec : EqDecision PowerOperation.
Proof. solve_decision. Defined.

Section syscalls.
Context (E : Env) (reserve : nat → bool) (minimal_parse : list Z → option ElfFile).
Context (hw_translate : gmap Z Z → Z → Z → option Z) (at_s1e0r : gmap Z Z → Z → Z → bool) (granted : nat → bool).
Context (firmware : PowerOperation → option Z).

Definition set_result (value : Z) : Y unit :=
  on_kernel (λ _, on_world E (f ← active_context E; set_active_context E (set_syscall_result f value))).
Definition return_result (result : Z + Errno) : Y unit := set_result (syscall_ret result).

(** User copies, in the address space of the executing CPU. *)
Definition in_user {A} (f : option AddressSpaceId → K A) : Y A := on_kernel (λ _, with_user_space E f).
Definition user_to (ptr : Z) (bytes : list Z) : Y (unit + Errno) :=
  fails_as user_copy_errno (in_user (λ current, copy_to_user hw_translate at_s1e0r current ptr bytes)).
Definition user_from (len : nat) (ptr : Z) : Y (list Z + Errno) :=
  fails_as user_copy_errno (in_user (λ current, copy_from_user hw_translate at_s1e0r current len ptr)).
Definition user_path (ptr : Z) : Y (list Z + Errno) :=
  fails_as path_copy_errno (in_user (λ current, copy_path_cstr_from_user hw_translate at_s1e0r current granted ptr)).
Definition user_writable (ptr len : Z) : Y (unit + Errno) :=
  fails_as user_copy_errno (in_user (λ current, reads (λ m, validate_user_write_range at_s1e0r current m ptr len))).

(** ** Reading and writing *)

Definition copy_stdin (ptr : Z) (bytes : list Z) : Y ReadAction :=
  r ← user_to ptr bytes;
  mret (ReadReturn (match r with inl _ => inl (Z.of_nat (length bytes)) | inr e => inr e end)).

Definition sys_read_stdin (ptr count : Z) : Y ReadAction :=
  if count =? 0 then mret (ReadReturn (inl 0))
  else
    let max_len := Z.min count MAX_USER_COPY in
    v ← user_writable ptr max_len;
    match v with
    | inr e => mret (ReadReturn (inr e))
    | inl _ =>
        bytes ← on_stdin E (read_stdin E (Z.to_nat max_len));
        if decide (bytes ≠ []) then copy_stdin ptr bytes
        else
          blocked ← on_stdin E (block_current_stdin_read_if_empty E);
          match blocked with
          | inl true => mret ReadBlocked
          | inl false =>
              bytes ← on_stdin E (read_stdin E (Z.to_nat max_len));
              if decide (bytes ≠ []) then copy_stdin ptr bytes else mret (ReadReturn (inr EFAULT))
          | inr _ => mret (ReadReturn (inr ENOTSUP))
          end
    end.

Definition sys_read_file (fd ptr count : Z) : Y (Z + Errno) :=
  if count =? 0 then mret (inl 0)
  else if (fd =? Z.of_nat STDOUT) || (fd =? Z.of_nat STDERR) then mret (inr EBADF)
  else
    let max_len := Z.min count MAX_USER_COPY in
    chunk ←? fails_as fd_errno (on_kernel (λ s, current_fd_read_slice E s (Z.to_nat fd) max_len));
    if decide (chunk = []) then mret (inl 0)
    else
      _ ←? user_to ptr chunk;
      _ ←? fails_as fd_errno (on_kernel (λ s, advance_current_fd_read E s (Z.to_nat fd) (Z.of_nat (length chunk))));
      mret (inl (Z.of_nat (length chunk))).

Definition sys_read (rq : SyscallRequest) : Y unit :=
  let fd := arg rq 0 in
  let ptr := arg rq 1 in
  let count := arg rq 2 in
  if fd =? Z.of_nat STDIN then
    action ← sys_read_stdin ptr count;
    match action with ReadReturn result => return_result result | ReadBlocked => mret tt end
  else result ← sys_read_file fd ptr count; return_result result.

Definition sys_write (rq : SyscallRequest) : Y unit :=
  let fd := arg rq 0 in
  let ptr := arg rq 1 in
  let len := arg rq 2 in
  result ← (if negb (fd =? Z.of_nat STDOUT) && negb (fd =? Z.of_nat STDERR) then
              is_open ←? fails_as fd_errno (on_kernel (λ _, current_fd_is_open E (Z.to_nat fd)));
              mret (inr (if is_open : bool then ENOTSUP else EBADF))
            else if len =? 0 then mret (inl 0)
            else
              let len := Z.min len MAX_USER_COPY in
              buffer ←? user_from (Z.to_nat len) ptr;
              on_console (write_bytes buffer);;
              mret (inl len));
  return_result result.

(** ** Files and directories *)

Definition resolve_current_path (input : list Z) : Y (ResolvedPath + Errno) :=
  cwd_dir ←? fails_as process_path_errno (on_kernel (λ _, current_cwd_dir E));
  fails_as path_errno (on_fs (resolve_existing_path cwd_dir input)).

Definition sys_open (rq : SyscallRequest) : Y unit :=
  let path_ptr := arg rq 0 in
  let flags := arg rq 1 in
  result ← (_ ←? lift (validate_open_flags flags);
            input ←? user_path path_ptr;
            path ←? resolve_current_path input;
            fd ←? match rp_node path with
                  | NodeDirectory dir_index => fails_as fd_errno (on_kernel (λ _, open_current_ram_dir E dir_index))
                  | NodeFile file_index =>
                      if negb (Z.land flags O_DIRECTORY =? 0) then mret (inr ENOTDIR)
                      else fails_as fd_errno (on_kernel (λ _, open_current_ram_file E file_index))
                  end;
            mret (inl (Z.of_nat fd)));
  return_result result.

Definition sys_close (rq : SyscallRequest) : Y unit :=
  result ← (_ ←? fails_as fd_errno (on_kernel (λ _, close_current_fd E (Z.to_nat (arg rq 0)))); mret (inl 0));
  return_result result.

(** The records that fit into [max_len] bytes, from the entry at [emitted] on:
    the bytes, how many entries they are, or the error of a first record that
    does not fit. *)
Fixpoint getdents_loop (fuel : nat) (fd : Z) (first_entry : option FdDirEntry) (max_len : nat) (buffer : list Z) (emitted : nat) : Y ((list Z * nat) + Errno) :=
  match fuel with
  | O => λ _, Panic "directory records bound"
  | S fuel' =>
      dir_entry ←? (if decide (emitted = 0%nat) then mret (inl first_entry)
                    else fails_as fd_errno (on_kernel (λ s, current_fd_dir_entry_at E s (Z.to_nat fd) emitted)));
      match dir_entry with
      | None => mret (inl (buffer, emitted))
      | Some dir_entry =>
          let entry := fde_entry dir_entry in
          let d_type := match rde_kind entry with KindDirectory => DT_DIR | KindFile => DT_REG end in
          let next_offset := as_isize (u64_saturating_add (Z.of_nat (fde_offset dir_entry)) 1) in
          match encode_dirent64 (max_len - length buffer) (rde_ino entry) next_offset d_type (rde_name entry) with
          | None => mret (if decide (buffer = []) then inr EINVAL else inl (buffer, emitted))
          | Some record => getdents_loop fuel' fd first_entry max_len (buffer ++ record) (S emitted)
          end
      end
  end.

Definition sys_getdents64_impl (fd ptr count : Z) : Y (Z + Errno) :=
  if count =? 0 then mret (inr EINVAL)
  else
    first_entry ←? fails_as fd_errno (on_kernel (λ s, current_fd_dir_entry_at E s (Z.to_nat fd) 0));
    let max_len := Z.min count MAX_USER_COPY in
    _ ←? user_writable ptr max_len;
    records ←? getdents_loop (S (Z.to_nat max_len)) fd first_entry (Z.to_nat max_len) [] 0;
    let '(buffer, emitted) := records in
    if decide (buffer = []) then mret (inl 0)
    else
      _ ←? user_to ptr buffer;
      _ ←? fails_as fd_errno (on_kernel (λ s, advance_current_fd_dir_read E s (Z.to_nat fd) (Z.of_nat emitted)));
      mret (inl (Z.of_nat (length buffer))).

Definition sys_getdents64 (rq : SyscallRequest) : Y unit :=
  result ← sys_getdents64_impl (arg rq 0) (arg rq 1) (arg rq 2);
  return_result result.

Definition sys_chdir (rq : SyscallRequest) : Y unit :=
  result ← (input ←? user_path (arg rq 0);
            path ←? resolve_current_path input;
            match rp_node path with
            | NodeDirectory dir_index =>
                _ ←? fails_as process_path_errno (on_kernel (λ s, set_current_cwd E s dir_index));
                mret (inl 0)
            | NodeFile _ => mret (inr ENOTDIR)
            end);
  return_result result.

Definition sys_getcwd (rq : SyscallRequest) : Y unit :=
  let ptr := arg rq 0 in
  let size := arg rq 1 in
  result ← (cwd ←? fails_as process_path_errno (on_kernel (λ s, current_cwd_path E s));
            match u64_checked_add (Z.of_nat (length cwd)) 1 with
            | None => mret (inr ERANGE)
            | Some required =>
                if size <? required then mret (inr ERANGE)
                else
                  _ ←? fails_as user_copy_errno
                         (in_user (λ current, copy_cstr_to_user hw_translate at_s1e0r current ptr cwd (Z.of_nat GENRT_PATH_MAX + 1)));
                  mret (inl required)
            end);
  return_result result.

(** ** Processes *)

Definition sys_exit (rq : SyscallRequest) : Y unit := on_kernel (λ _, process_exit_current E (arg rq 0)).

Definition sys_fork : Y unit :=
  result ← on_kernel (λ s, fork_current E s reserve);
  return_result result.

Definition sys_execve (rq : SyscallRequest) : Y unit :=
  let path_ptr := arg rq 0 in
  let argv_ptr := arg rq 1 in
  let envp_ptr := arg rq 2 in
  result ← (input ←? user_path path_ptr;
            path ←? resolve_current_path input;
            args ←? in_user (λ current, copy_exec_args_from_user hw_translate at_s1e0r current reserve granted (rp_absolute path) argv_ptr envp_ptr);
            on_kernel (λ s, execve_current E s reserve minimal_parse path args));
  match result with inl _ => mret tt | inr errno => set_result (- errno) end.

Definition return_wait (action : WaitPidAction) : Y unit :=
  match action with WaitReturn result => return_result result | WaitBlocked => mret tt end.

Definition sys_waitpid (rq : SyscallRequest) : Y Dispatched :=
  let pid := as_isize (arg rq 0) in
  let status_ptr := arg rq 1 in
  let options := arg rq 2 in
  if negb (options =? 0) then set_result (- ENOTSUP);; mret Handled
  else
    r ← on_kernel (λ _, waitpid_enter E at_s1e0r pid status_ptr);
    match r with
    | inl action => return_wait action;; mret Handled
    | inr waited => mret (Joining waited status_ptr)
    end.

(** The rest of [waitpid], after the join. *)
Definition waitpid_joined (waited : WaitedProcess) (status_ptr : Z) (joined : Z + JoinError) : Y unit :=
  action ← on_kernel (λ _, waitpid_resume E hw_translate at_s1e0r status_ptr waited joined);
  return_wait action.

Definition sys_sched_setforkaffinity (rq : SyscallRequest) : Y unit :=
  result ← on_kernel (λ _, set_fork_affinity_current E (as_isize (arg rq 0)));
  return_result (match result with inl _ => inl 0 | inr e => inr e end).

Definition sys_sched_getaffinity (rq : SyscallRequest) : Y unit :=
  let raw_pid := as_isize (arg rq 0) in
  let cpusetsize := arg rq 1 in
  let mask_ptr := arg rq 2 in
  result ← (if cpusetsize <? Z.of_nat USER_CPU_SET_BYTES then mret (inr EINVAL)
            else
              cpu ←? on_kernel (λ _, process_affinity E raw_pid);
              assert_that (bool_decide (cpu < USER_CPU_SET_BITS)%nat) "syscall: process owner exceeds userspace CPU set ABI";;
              let mask := <[(cpu / 8)%nat := Z.shiftl 1 (Z.of_nat (cpu mod 8))]> (replicate USER_CPU_SET_BYTES 0) in
              _ ←? user_to mask_ptr mask;
              mret (inl 0));
  return_result result.

(** ** Power and time *)

Definition sys_reboot (rq : SyscallRequest) : Y Dispatched :=
  match parse_linux_reboot (arg rq 0) (arg rq 1) (arg rq 2) with
  | inr err => set_result (- err);; mret Handled
  | inl op =>
      match firmware op with
      | None => mret (NoReturn op)
      | Some status => set_result (- backend_errno status);; mret Handled
      end
  end.

Definition copy_timespec_to_user (ptr : Z) (value : MonotonicTime) : Y (unit + Errno) :=
  if i64_max <? mt_seconds value then mret (inr EOVERFLOW)
  else user_to ptr (word_bytes (mt_seconds value) ++ word_bytes (mt_nanoseconds value)).

Definition copy_timespec_from_user (ptr : Z) : Y ((Z * Z) + Errno) :=
  bytes ←? user_from USER_TIMESPEC_SIZE ptr;
  mret (inl (as_isize (of_bytes (take 8 bytes)), as_isize (of_bytes (drop 8 bytes)))).

Definition read_counter : Y Z := on_kernel (λ _, on_world E (now_counter E)).

Definition sys_clock_gettime (rq : SyscallRequest) : Y unit :=
  result ← (_ ←? lift (validate_clock_id (as_isize (arg rq 0)));
            counter ← read_counter;
            now ←? fails_as time_errno (mret (counter_to_monotonic_time_at_frequency counter (e_freq E)));
            _ ←? copy_timespec_to_user (arg rq 1) now;
            mret (inl 0));
  return_result result.

Definition sys_clock_getres (rq : SyscallRequest) : Y unit :=
  result ← (_ ←? lift (validate_clock_id (as_isize (arg rq 0)));
            let result_ptr := arg rq 1 in
            if result_ptr =? 0 then mret (inl 0)
            else
              resolution ←? fails_as time_errno (mret (monotonic_resolution (e_freq E)));
              _ ←? copy_timespec_to_user result_ptr resolution;
              mret (inl 0));
  return_result result.

(** The deadline of a sleep, if it is not over yet. *)
Definition nanosleep_deadline (clock_id flags request_ptr : Z) : Y (option Z + Errno) :=
  _ ←? lift (validate_clock_id clock_id);
  if negb (Z.land flags (usize_not TIMER_ABSTIME) =? 0) then mret (inr EINVAL)
  else
    requested ←? copy_timespec_from_user request_ptr;
    let '(seconds, nanoseconds) := requested in
    if (seconds <? 0) || (nanoseconds <? 0) || (u32_max <? nanoseconds) || (NANOSECONDS_PER_SECOND <=? nanoseconds) then mret (inr EINVAL)
    else
      deadline ←? (if flags =? TIMER_ABSTIME then
                     d ←? fails_as time_errno (mret (monotonic_time_to_counter_at_frequency seconds nanoseconds (e_freq E)));
                     mret (inl (Some d))
                   else
                     duration ←? fails_as time_errno (mret (monotonic_duration_to_counts seconds nanoseconds (e_freq E)));
                     if duration =? 0 then mret (inl None)
                     else
                       now ← read_counter;
                       mret (match u64_checked_add now duration with Some d => inl (Some d) | None => inr EOVERFLOW end));
      match deadline with
      | None => mret (inl None)
      | Some deadline =>
          now ← read_counter;
          mret (inl (if deadline <=? now then None else Some deadline))
      end.

Definition sys_clock_nanosleep (rq : SyscallRequest) : Y unit :=
  result ← nanosleep_deadline (as_isize (arg rq 0)) (arg rq 1) (arg rq 2);
  match result with
  | inl (Some deadline) =>
      set_result 0;;
      _ ← on_kernel (λ _, on_world E (sleep_user_until_counter E deadline));
      mret tt
  | inl None => set_result 0
  | inr err => set_result (- err)
  end.

(** ** Dispatch *)

Definition dispatch_other (rq : SyscallRequest) : Y Dispatched :=
  let nr := rq_number rq in
  if nr =? SYS_READ then sys_read rq;; mret Handled
  else if nr =? SYS_WRITE then sys_write rq;; mret Handled
  else if nr =? SYS_EXIT then sys_exit rq;; mret Handled
  else if nr =? SYS_OPEN then sys_open rq;; mret Handled
  else if nr =? SYS_CLOSE then sys_close rq;; mret Handled
  else if nr =? SYS_FORK then sys_fork;; mret Handled
  else if nr =? SYS_EXECVE then sys_execve rq;; mret Handled
  else if nr =? SYS_WAITPID then sys_waitpid rq
  else if nr =? SYS_GETDENTS64 then sys_getdents64 rq;; mret Handled
  else if nr =? SYS_CHDIR then sys_chdir rq;; mret Handled
  else if nr =? SYS_GETCWD then sys_getcwd rq;; mret Handled
  else if nr =? SYS_SCHED_SETFORKAFFINITY then sys_sched_setforkaffinity rq;; mret Handled
  else if nr =? SYS_SCHED_GETAFFINITY then sys_sched_getaffinity rq;; mret Handled
  else if nr =? SYS_REBOOT then sys_reboot rq
  else if nr =? SYS_CLOCK_GETTIME then sys_clock_gettime rq;; mret Handled
  else if nr =? SYS_CLOCK_GETRES then sys_clock_getres rq;; mret Handled
  else if (nr =? SYS_PROFILE_CONTROL) || (nr =? SYS_PROFILE_READ) then set_result (- ENOSYS);; mret Handled
  else mret (Unknown nr).

Definition dispatch (rq : SyscallRequest) : Y Dispatched :=
  if rq_number rq =? SYS_CLOCK_NANOSLEEP then sys_clock_nanosleep rq;; mret Handled
  else dispatch_other rq.
End syscalls.
