(* ===== verification/ProcSpec.v ===== *)
(** * The process table as a map

    A table stands for the map from live identities to processes and the
    reverse index; the operations of [Process] are updates of the two, and keep
    the invariant that ties them together. *)

From stdpp Require Import gmap.
From S2P Require Import Prelude Types Vm Sched UserImage Ramfs FdTable Process.
#[local] Open Scope Z_scope.

(** ** Lookups after updates *)

Lemma pt_slot_Some t pid p :
  pt_slot t pid = Some p ↔ pt_slots t !! pid_index pid = Some (mkProcessSlot (pid_generation pid) p) ∧ process_is_free p = false.
Proof.
  unfold pt_slot. destruct (pt_slots t !! pid_index pid) as [[g q]|] eqn:E; simpl; [|by split; [|intros []]].
  case_bool_decide as Hg; simpl; [subst g|split; [done|]; intros [[= ? ?] ?]; done].
  destruct (process_is_free q) eqn:Hq; simpl; (split; [|intros [[= ->] ?]]); [done|congruence|by intros [= ->]|done].
Qed.

Lemma pt_slot_live t pid p : pt_slot t pid = Some p → process_is_free p = false.
Proof. by intros [_ ?]%pt_slot_Some. Qed.

(** Two live identities with one index are the same. *)
Lemma pt_slot_index t pid pid' p p' : pt_slot t pid = Some p → pt_slot t pid' = Some p' → pid_index pid = pid_index pid' → pid = pid'.
Proof. intros [H1 _]%pt_slot_Some [H2 _]%pt_slot_Some E. rewrite E in H1. destruct pid, pid'. simpl in *. congruence. Qed.

Lemma pt_slot_insert t (i : nat) g p owners pid :
  (i < length (pt_slots t))%nat →
  pt_slot (mkProcessTable (<[i := mkProcessSlot g p]> (pt_slots t)) owners) pid
  = if decide (pid_index pid = i) then if bool_decide (g = pid_generation pid) && negb (process_is_free p) then Some p else None
    else pt_slot t pid.
Proof.
  intros Hi. unfold pt_slot. cbn [pt_slots]. destruct (decide (pid_index pid = i)) as [->|Hne].
  - by rewrite list_lookup_insert_eq.
  - by rewrite list_lookup_insert_ne.
Qed.

Lemma pt_slot_alter f t pid p pid' :
  pt_slot t pid = Some p → process_is_free (f p) = false →
  pt_slot (alter_process f pid t) pid' = if decide (pid' = pid) then Some (f p) else pt_slot t pid'.
Proof.
  intros [Hs Hf]%pt_slot_Some Hf'. unfold pt_slot, alter_process. cbn [pt_slots]. destruct (decide (pid_index pid' = pid_index pid)) as [E|Hne].
  - rewrite E, list_lookup_alter_eq, Hs. simpl. destruct (decide (pid' = pid)) as [->|Hne].
    + by rewrite bool_decide_eq_true_2, Hf'.
    + rewrite bool_decide_eq_false_2; [done|]. intros Eg. apply Hne. destruct pid, pid'. simpl in *. congruence.
  - rewrite list_lookup_alter_ne by done. by rewrite decide_False by (intros ->; done).
Qed.

Lemma pt_slot_owner t i v pid : pt_slot (set_owner i v t) pid = pt_slot t pid.
Proof. done. Qed.

Lemma pt_slot_release t pid p owners g pid' :
  pt_slot t pid = Some p →
  pt_slot (mkProcessTable (<[pid_index pid := mkProcessSlot g process_free]> (pt_slots t)) owners) pid' = if decide (pid' = pid) then None else pt_slot t pid'.
Proof.
  intros Hp. pose proof (proj1 (pt_slot_Some _ _ _) Hp) as [Hs _]. apply lookup_lt_Some in Hs as Hi.
  rewrite pt_slot_insert by done. destruct (decide (pid_index pid' = pid_index pid)) as [E|Hne].
  - rewrite andb_false_r. destruct (decide (pid' = pid)) as [|Hne]; [done|].
    destruct (pt_slot t pid') as [p'|] eqn:Hp'; [|done]. destruct Hne. by eapply pt_slot_index.
  - by rewrite decide_False by (intros ->; done).
Qed.

(** ** The invariant *)

Record process_ok (p : Process) : Prop := {
  po_owner : is_Some (pr_owner_cpu p);
  po_zombie : pr_state p = ProcZombie ↔ is_Some (pr_exit_status p);
  po_main : pr_state p = ProcZombie → is_Some (pr_main_thread p);
  po_space : ∀ th, pr_main_thread p = Some th → ∃ a, im_address_space (rs_image (pr_resources p)) = Some a ∧ pr_owner_cpu p = Some (owner_cpu a);
  po_waiter : ∀ w, pr_waiter p = Some w → pr_consumer p = Some (wt_thread w)
}.

Record table_ok (t : ProcessTable) : Prop := {
  to_slots : length (pt_slots t) = MAX_PROCESSES;
  to_owners : length (pt_owners t) = KERNEL_THREAD_CAPACITY;
  to_generation : ∀ i s, pt_slots t !! i = Some s → 0 <= ps_generation s <= u32_max;
  to_live : ∀ pid p, pt_slot t pid = Some p → 1 <= pid_generation pid ∧ process_ok p;
  to_main : ∀ pid p th, pt_slot t pid = Some p → pr_main_thread p = Some th → (tid_index th < KERNEL_THREAD_CAPACITY)%nat;
  (* the reverse index names exactly the running processes with a main thread *)
  to_index : ∀ i pid, pt_owners t !! i = Some (Some pid) ↔
    ∃ p th, pt_slot t pid = Some p ∧ pr_main_thread p = Some th ∧ tid_index th = i ∧ pr_state p = ProcRunning
}.

Lemma table_new_ok : table_ok process_table_new.
Proof.
  assert (∀ pid, pt_slot process_table_new pid = None) as Hn.
  { intros pid. unfold pt_slot, process_table_new. cbn [pt_slots]. destruct (replicate _ _ !! _) as [s|] eqn:E; [|done].
    apply lookup_replicate in E as [-> _]. simpl. by rewrite andb_false_r. }
  split; [done|done| |intros pid p; by rewrite Hn|intros pid p th; by rewrite Hn|].
  - intros i s [-> _]%lookup_replicate. done.
  - intros i pid. split; [intros E%lookup_replicate; by destruct E|]. intros (p & th & H & _). by rewrite Hn in H.
Qed.

(** At most one running process has a main thread with a given index. *)
Lemma main_unique t pid pid' p p' th th' :
  table_ok t → pt_slot t pid = Some p → pt_slot t pid' = Some p' → pr_main_thread p = Some th → pr_main_thread p' = Some th' →
  tid_index th = tid_index th' → pr_state p = ProcRunning → pr_state p' = ProcRunning → pid = pid'.
Proof.
  intros Ht Hp Hp' Hm Hm' E Hr Hr'.
  assert (pt_owners t !! tid_index th = Some (Some pid)) as H1 by (apply (to_index _ Ht); eauto 10).
  assert (pt_owners t !! tid_index th = Some (Some pid')) as H2 by (apply (to_index _ Ht); eauto 10). congruence.
Qed.

Lemma process_for_thread_bound t pid p th :
  table_ok t → pt_slot t pid = Some p → pr_main_thread p = Some th → pr_state p = ProcRunning → process_for_thread t th = Done (Some pid).
Proof.
  intros Ht Hp Hm Hr. unfold process_for_thread. assert (pt_owners t !! tid_index th = Some (Some pid)) as -> by (apply (to_index _ Ht); eauto 10).
  by rewrite Hp, decide_True.
Qed.

Lemma process_for_thread_Some t th pid :
  table_ok t → process_for_thread t th = Done (Some pid) → ∃ p, pt_slot t pid = Some p ∧ pr_main_thread p = Some th ∧ pr_state p = ProcRunning.
Proof.
  intros Ht. unfold process_for_thread. destruct (pt_owners t !! tid_index th) as [[pid'|]|] eqn:E; [|done..].
  apply (to_index _ Ht) in E as (p & th' & Hp & Hm & _ & Hr). rewrite Hp. destruct (decide _) as [Hd|]; [|done]. intros [= <-]. eauto.
Qed.

(** ** Updates that keep the invariant *)

Lemma alter_shape f pid t :
  table_ok t → length (pt_slots (alter_process f pid t)) = MAX_PROCESSES ∧
  ∀ i s, pt_slots (alter_process f pid t) !! i = Some s → 0 <= ps_generation s <= u32_max.
Proof.
  intros Ht. unfold alter_process. cbn [pt_slots]. split; [rewrite length_alter; apply Ht|]. intros i s.
  rewrite list_lookup_alter. case_decide as E; [subst i|apply (to_generation _ Ht)].
  destruct (pt_slots t !! pid_index pid) as [s0|] eqn:E; [|done]. intros [= <-]. exact (to_generation _ Ht _ _ E).
Qed.

(** An update of a live process that keeps its thread. *)
Lemma table_ok_alter f t pid p :
  table_ok t → pt_slot t pid = Some p → process_ok (f p) → process_is_free (f p) = false →
  pr_main_thread (f p) = pr_main_thread p → (pr_state (f p) = ProcRunning ↔ pr_state p = ProcRunning) → table_ok (alter_process f pid t).
Proof.
  intros Ht Hp Hok Hf Hm Hr. destruct (alter_shape f pid t Ht) as [S1 S2]. split; [done|apply Ht|done| | |].
  - intros pid' p'. rewrite (pt_slot_alter f t pid p) by done. case_decide as E; [|apply Ht]. intros [= <-]. subst pid'. split; [|done]. by eapply to_live.
  - intros pid' p' th. rewrite (pt_slot_alter f t pid p) by done. case_decide as E; [|apply Ht]. intros [= <-] Hth. subst pid'. eapply (to_main _ Ht); [done|congruence].
  - intros i pid'. change (pt_owners (alter_process f pid t)) with (pt_owners t). rewrite (to_index _ Ht), (pt_slot_alter f t pid p) by done.
    case_decide as E; [subst pid'|done]. split; intros (q & th & Hq & H1 & H2 & H3).
    + assert (q = p) as -> by congruence. exists (f p), th. split_and!; [done|congruence|done|by apply Hr].
    + injection Hq as <-. exists p, th. split_and!; [done|congruence|done|by apply Hr].
Qed.

(** Binding a thread to a running process. *)
Lemma table_ok_bind t pid p th a :
  table_ok t → pt_slot t pid = Some p → pr_main_thread p = None → pr_state p = ProcRunning → im_address_space (rs_image (pr_resources p)) = Some a →
  pr_owner_cpu p = Some (owner_cpu a) → pt_owners t !! tid_index th = Some None →
  table_ok (set_owner (tid_index th) (Some pid) (alter_process (set_main_thread (Some th)) pid t)).
Proof.
  intros Ht Hp Hm Hr Ha Hcpu Hown. set (f := set_main_thread (Some th)). apply lookup_lt_Some in Hown as Hlt.
  destruct (alter_shape f pid t Ht) as [S1 S2]. destruct (to_live _ Ht _ _ Hp) as [Hg [P1 P2 P3 P4 P5]].
  assert (process_is_free (f p) = false) as Hf by by apply pt_slot_live in Hp.
  assert (∀ pid', pt_slot (set_owner (tid_index th) (Some pid) (alter_process f pid t)) pid' = if decide (pid' = pid) then Some (f p) else pt_slot t pid') as Hslot.
  { intros pid'. rewrite pt_slot_owner. by apply pt_slot_alter. }
  split; [done|cbn [set_owner pt_owners]; rewrite length_insert; apply Ht|done| | |].
  - intros pid' p'. rewrite Hslot. case_decide as E; [|apply Ht]. intros [= <-]. subst pid'. split; [done|]. split; try done. intros th' [= <-]. by exists a.
  - intros pid' p' th'. rewrite Hslot. case_decide as E; [|apply Ht]. intros [= <-] [= <-]. by rewrite (to_owners _ Ht) in Hlt.
  - intros i pid'. cbn [set_owner alter_process pt_owners]. rewrite Hslot. destruct (decide (i = tid_index th)) as [->|Hi].
    + rewrite list_lookup_insert_eq by done. split; [intros [= <-]; rewrite decide_True by done; by exists (f p), th|].
      intros (q & th' & Hq & H1 & H2 & H3). case_decide as E; [by subst|]. exfalso.
      assert (pt_owners t !! tid_index th = Some (Some pid')) by (apply (to_index _ Ht); by exists q, th'). congruence.
    + rewrite list_lookup_insert_ne, (to_index _ Ht) by done. case_decide as E; [subst pid'|done].
      split; intros (q & th' & Hq & H1 & H2 & H3); [congruence|]. injection Hq as <-. injection H1 as <-. by destruct Hi.
Qed.

(** The end of a running process. *)
Lemma table_ok_finish f t pid p th :
  table_ok t → pt_slot t pid = Some p → pr_main_thread p = Some th → pr_state p = ProcRunning →
  process_ok (f p) → pr_state (f p) = ProcZombie → pr_main_thread (f p) = Some th →
  table_ok (set_owner (tid_index th) None (alter_process f pid t)).
Proof.
  intros Ht Hp Hm Hr Hok Hz Hm'. destruct (alter_shape f pid t Ht) as [S1 S2].
  assert (process_is_free (f p) = false) as Hf by (unfold process_is_free; by rewrite Hz).
  assert (∀ pid', pt_slot (set_owner (tid_index th) None (alter_process f pid t)) pid' = if decide (pid' = pid) then Some (f p) else pt_slot t pid') as Hslot.
  { intros pid'. rewrite pt_slot_owner. by apply pt_slot_alter. }
  assert (tid_index th < length (pt_owners t))%nat as Hlt by (rewrite (to_owners _ Ht); by eapply to_main).
  split; [done|cbn [set_owner pt_owners]; rewrite length_insert; apply Ht|done| | |].
  - intros pid' p'. rewrite Hslot. case_decide as E; [|apply Ht]. intros [= <-]. subst pid'. split; [|done]. by eapply to_live.
  - intros pid' p' th'. rewrite Hslot. case_decide as E; [|apply Ht]. intros [= <-] H. eapply (to_main _ Ht); [done|congruence].
  - intros i pid'. cbn [set_owner alter_process pt_owners]. rewrite Hslot. destruct (decide (i = tid_index th)) as [->|Hi].
    + rewrite list_lookup_insert_eq by done. split; [done|]. intros (q & th' & Hq & H1 & H2 & H3). exfalso.
      case_decide as E; [congruence|]. apply E. by eapply (main_unique t pid' pid q p th' th).
    + rewrite list_lookup_insert_ne, (to_index _ Ht) by done. case_decide as E; [subst pid'|done].
      split; intros (q & th' & Hq & H1 & H2 & H3); congruence.
Qed.

(** A slot given back: the process is not the one its thread's index names. *)
Lemma table_ok_release t pid p g :
  table_ok t → pt_slot t pid = Some p → (pr_main_thread p = None ∨ pr_state p = ProcZombie) → 0 <= g <= u32_max →
  table_ok (mkProcessTable (<[pid_index pid := mkProcessSlot g process_free]> (pt_slots t)) (pt_owners t)).
Proof.
  intros Ht Hp Hno Hg. pose proof (pt_slot_release t pid p (pt_owners t) g) as Hslot. split.
  - cbn [pt_slots]. rewrite length_insert. apply Ht.
  - apply Ht.
  - cbn [pt_slots]. intros i s Hs. apply list_lookup_insert_Some in Hs as [(_ & <- & _)|[_ Hs]]; [done|]. by eapply to_generation.
  - intros pid' p'. rewrite Hslot by done. case_decide; [done|apply Ht].
  - intros pid' p' th. rewrite Hslot by done. case_decide; [done|apply Ht].
  - intros i pid'. cbn [pt_owners]. rewrite (to_index _ Ht), Hslot by done. case_decide as E; [subst pid'|done].
    split; [|by intros (q & th & Hq & _)]. intros (q & th & Hq & H1 & H2 & H3). assert (q = p) as -> by congruence. destruct Hno; congruence.
Qed.

(** A free slot taken. *)
Lemma table_ok_allocate t i s g p :
  table_ok t → pt_slots t !! i = Some s → process_is_free (ps_process s) = true → 1 <= g <= u32_max →
  process_ok p → process_is_free p = false → pr_main_thread p = None →
  let t' := mkProcessTable (<[i := mkProcessSlot g p]> (pt_slots t)) (pt_owners t) in
  table_ok t' ∧ pt_slot t (mkProcessId i g) = None ∧ ∀ pid, pt_slot t' pid = if decide (pid = mkProcessId i g) then Some p else pt_slot t pid.
Proof.
  intros Ht Hs Hfree Hg Hok Hf Hm t'. apply lookup_lt_Some in Hs as Hi.
  assert (∀ pid, pid_index pid = i → pt_slot t pid = None) as Hnone.
  { intros pid <-. unfold pt_slot. rewrite Hs. simpl. by rewrite Hfree, andb_false_r. }
  assert (∀ pid, pt_slot t' pid = if decide (pid = mkProcessId i g) then Some p else pt_slot t pid) as Hslot.
  { intros pid. unfold t'. rewrite pt_slot_insert, Hf, andb_true_r by done. destruct (decide (pid_index pid = i)) as [E|E].
    - case_bool_decide as Eg; [rewrite decide_True; [done|]; destruct pid; simpl in *; congruence|].
      rewrite decide_False by (intros ->; done). symmetry. by apply Hnone.
    - by rewrite decide_False by (intros ->; done). }
  split; [|split; [by apply Hnone|done]]. split.
  - unfold t'. cbn [pt_slots]. rewrite length_insert. apply Ht.
  - apply Ht.
  - unfold t'. cbn [pt_slots]. intros j s' H. apply list_lookup_insert_Some in H as [(_ & <- & _)|[_ H]]; [simpl; lia|]. by eapply to_generation.
  - intros pid p'. rewrite Hslot. case_decide as E; [|apply Ht]. intros [= <-]. subst pid. split; [simpl; lia|done].
  - intros pid p' th. rewrite Hslot. case_decide as E; [|apply Ht]. intros [= <-]. congruence.
  - intros j pid. change (pt_owners t') with (pt_owners t). rewrite (to_index _ Ht), Hslot. case_decide as E; [subst pid|done].
    rewrite Hnone by done. split; [by intros (q & th & Hq & _)|]. intros (q & th & [= <-] & H & _). congruence.
Qed.

(** ** The operations *)

(** [t'] is [t] but for what [pid] names. *)
Definition updated (t t' : ProcessTable) (pid : ProcessId) (o : option Process) : Prop :=
  ∀ q, pt_slot t' q = if decide (q = pid) then o else pt_slot t q.

Lemma updated_at t t' pid o : updated t t' pid o → pt_slot t' pid = o.
Proof. intros H. by rewrite H, decide_True. Qed.

Lemma updated_other t t' pid o q : updated t t' pid o → q ≠ pid → pt_slot t' q = pt_slot t q.
Proof. intros H Hq. by rewrite H, decide_False. Qed.

Lemma updated_trans t t1 t2 pid o o' : updated t t1 pid o → updated t1 t2 pid o' → updated t t2 pid o'.
Proof. intros H1 H2 q. rewrite H2, H1. by case_decide. Qed.

Lemma updated_alter f t pid p : pt_slot t pid = Some p → process_is_free (f p) = false → updated t (alter_process f pid t) pid (Some (f p)).
Proof. intros Hp Hf q. by apply pt_slot_alter. Qed.

(** An update that keeps the state and the thread of a process. *)
Lemma alter_keeps f t pid p :
  table_ok t → pt_slot t pid = Some p → process_ok (f p) → pr_state (f p) = pr_state p → pr_main_thread (f p) = pr_main_thread p →
  table_ok (alter_process f pid t) ∧ updated t (alter_process f pid t) pid (Some (f p)).
Proof.
  intros Ht Hp Hok Hs Hm. assert (process_is_free (f p) = false) as Hf by (unfold process_is_free; rewrite Hs; by apply pt_slot_live in Hp).
  split; [|by apply updated_alter]. apply (table_ok_alter f t pid p); try done. by rewrite Hs.
Qed.

Lemma wp_slot_or {A} pid (none : PT A) k Q t :
  match pt_slot t pid with Some p => wp (k p) Q t | None => wp none Q t end → wp (slot_or pid none k) Q t.
Proof. intros H. apply wp_bind, wp_gets. by destruct (pt_slot t pid). Qed.

Lemma next_process_generation_range g : 0 <= g <= u32_max → 1 <= next_process_generation g <= u32_max.
Proof.
  intros Hg. unfold next_process_generation, u32_max in *. destruct (Z.eqb_spec ((g + 1) mod 2 ^ 32) 0); [lia|].
  pose proof (Z.mod_pos_bound (g + 1) (2 ^ 32) ltac:(done)). lia.
Qed.

Lemma running_ok parent fds cwd owner : process_ok (process_running parent fds cwd owner).
Proof. split; [by eexists|split; [done|by intros []]|done|done|done]. Qed.

Lemma allocate_spec s parent fds cwd owner t :
  table_ok t →
  wp (allocate_process_slot s parent fds cwd owner) (λ r t', table_ok t' ∧ pt_owners t' = pt_owners t ∧
    match r with
    | inl pid => is_Some (dir_path s cwd) ∧ pt_slot t pid = None ∧ 1 <= pid_generation pid <= u32_max ∧ (pid_index pid < MAX_PROCESSES)%nat ∧
        updated t t' pid (Some (process_running parent fds cwd owner))
    | inr e => t' = t ∧ (e = PInvalidProcess ∧ dir_path s cwd = None ∨
        e = PNoProcessSlots ∧ ∀ i, (i < MAX_PROCESSES)%nat → ∃ pid p, pid_index pid = i ∧ pt_slot t pid = Some p)
    end) t.
Proof.
  intros Ht. unfold allocate_process_slot. destruct (dir_path s cwd) as [d|]; [|apply wp_ret; split; [done|]; split; [done|]; split; [done|]; by left]. apply wp_bind, wp_gets.
  destruct (list_find _ (pt_slots t)) as [[i old]|] eqn:Hfind.
  - apply list_find_Some in Hfind as (Hi & Hfree & _). apply wp_bind, wp_modify, wp_ret. pose proof (to_generation _ Ht _ _ Hi) as Hg.
    destruct (table_ok_allocate t i old (next_process_generation (ps_generation old)) (process_running parent fds cwd owner) Ht Hi Hfree)
      as (Hok & Hnone & Hslot); [by apply next_process_generation_range|apply running_ok|done|done|].
    split; [done|]. split; [done|]. split; [by eexists|]. split; [done|]. split; [by apply next_process_generation_range|]. split; [|done].
    apply lookup_lt_Some in Hi. by rewrite (to_slots _ Ht) in Hi.
  - apply wp_ret. split; [done|]. split; [done|]. split; [done|]. right. split; [done|]. intros i Hi.
    destruct (lookup_lt_is_Some_2 (pt_slots t) i) as [sl Hsl]; [by rewrite (to_slots _ Ht)|].
    assert (process_is_free (ps_process sl) = false) as Hf.
    { apply list_find_None in Hfind. rewrite Forall_forall in Hfind. specialize (Hfind sl (list_elem_of_lookup_2 _ _ _ Hsl)).
      by destruct (process_is_free (ps_process sl)). }
    exists (mkProcessId i (ps_generation sl)), (ps_process sl). split; [done|]. apply pt_slot_Some. split; [|done]. cbn [pid_index pid_generation]. rewrite Hsl. by destruct sl.
Qed.

Lemma attach_spec t pid p a image :
  table_ok t → pt_slot t pid = Some p → pr_state p = ProcRunning → pr_owner_cpu p = Some (owner_cpu a) →
  wp (attach_process_resources pid a image) (λ _ t', table_ok t' ∧ pt_owners t' = pt_owners t ∧
    updated t t' pid (Some (set_image (mkImageResources (Some a) (Some image)) p))) t.
Proof.
  intros Ht Hp Hr Hcpu. apply wp_slot_or. rewrite Hp. apply wp_bind. eapply wp_reads; [unfold process_owner; by rewrite Hcpu|].
  apply wp_bind, wp_assert; [by apply bool_decide_eq_true|]. apply wp_modify. destruct (to_live _ Ht _ _ Hp) as [_ [P1 P2 P3 P4 P5]].
  set (f := λ p : Process, _). assert (f p = set_image (mkImageResources (Some a) (Some image)) p) as Ef by (unfold f, set_status, set_image; destruct p; simpl in *; by subst).
  assert (process_is_free (f p) = false) as Hf by (rewrite Ef; by apply pt_slot_live in Hp).
  split; [|split; [done|]].
  - apply (table_ok_alter f t pid p); [done|done| |done|by rewrite Ef|by rewrite Ef]. rewrite Ef. split; try done. intros th Hth. by exists a.
  - rewrite <-Ef. by apply updated_alter.
Qed.

Lemma bind_spec t pid p th a :
  table_ok t → pt_slot t pid = Some p → pr_main_thread p = None → pr_state p = ProcRunning → im_address_space (rs_image (pr_resources p)) = Some a →
  pr_owner_cpu p = Some (owner_cpu a) → pt_owners t !! tid_index th = Some None →
  wp (bind_main_thread pid th (owner_cpu a) a) (λ _ t', table_ok t' ∧ updated t t' pid (Some (set_main_thread (Some th) p))) t.
Proof.
  intros Ht Hp Hm Hr Ha Hcpu Hown. unfold bind_main_thread. apply wp_bind, wp_gets. rewrite Hown. apply wp_slot_or. rewrite Hp. apply wp_bind.
  eapply wp_reads; [unfold process_owner; by rewrite Hcpu|]. apply wp_bind, wp_assert; [by rewrite bool_decide_eq_true_2|].
  apply wp_bind, wp_assert; [by apply bool_decide_eq_true|]. apply wp_bind, wp_assert; [by apply bool_decide_eq_true|].
  apply wp_bind, wp_modify, wp_modify. split; [by eapply table_ok_bind|]. intros q. rewrite pt_slot_owner. apply pt_slot_alter; [done|]. by apply pt_slot_live in Hp.
Qed.

Lemma take_image_spec t pid p :
  table_ok t → pt_slot t pid = Some p → pr_main_thread p = None →
  wp (take_process_image_resources pid) (λ r t', r = rs_image (pr_resources p) ∧ table_ok t' ∧ pt_owners t' = pt_owners t ∧
    updated t t' pid (Some (set_image image_resources_empty p))) t.
Proof.
  intros Ht Hp Hm. apply wp_slot_or. rewrite Hp. apply wp_bind, wp_modify, wp_ret. destruct (to_live _ Ht _ _ Hp) as [_ [P1 P2 P3 P4 P5]].
  assert (process_is_free (set_image image_resources_empty p) = false) as Hf by by apply pt_slot_live in Hp.
  split_and!; [done| |done|by apply updated_alter].
  apply (table_ok_alter _ t pid p); [done|done| |done|done|done]. split; try done. intros th Hth. simpl in Hth. congruence.
Qed.

Lemma release_spec t pid p g :
  table_ok t → pt_slot t pid = Some p → pr_main_thread p = None ∨ pr_state p = ProcZombie → 0 <= g <= u32_max →
  wp (release_slot pid g) (λ _ t', table_ok t' ∧ pt_owners t' = pt_owners t ∧ updated t t' pid None) t.
Proof.
  intros Ht Hp Hno Hg. apply wp_slot_or. rewrite Hp. apply wp_bind.
  assert (∀ t', t' = t → wp (modify (λ t, mkProcessTable (<[pid_index pid := mkProcessSlot g process_free]> (pt_slots t)) (pt_owners t)))
    (λ _ t', table_ok t' ∧ pt_owners t' = pt_owners t ∧ updated t t' pid None) t') as Hmod.
  { intros t' ->. apply wp_modify. split_and!; [by eapply table_ok_release|done|]. intros q. by eapply pt_slot_release. }
  destruct (pr_main_thread p) as [th|] eqn:Hm; [|apply wp_ret; by apply Hmod]. destruct Hno as [?|Hz]; [done|].
  pose proof (to_main _ Ht _ _ _ Hp Hm) as Hlt. rewrite <-(to_owners _ Ht) in Hlt. apply lookup_lt_is_Some in Hlt as [o Ho].
  apply wp_bind, wp_gets. rewrite Ho. apply wp_bind, wp_ret. rewrite decide_False; [apply wp_ret; by apply Hmod|].
  intros ->. apply (to_index _ Ht) in Ho as (q & th' & Hq & _ & _ & Hr). congruence.
Qed.

Lemma free_slot_spec t pid p :
  table_ok t → pt_slot t pid = Some p → pr_main_thread p = None →
  wp (free_process_slot pid) (λ _ t', table_ok t' ∧ pt_owners t' = pt_owners t ∧ updated t t' pid None) t.
Proof.
  intros Ht Hp Hm. apply wp_slot_or. rewrite Hp. apply (release_spec t pid p); [done|done|by left|].
  apply pt_slot_Some in Hp as [Hs _]. exact (to_generation _ Ht _ _ Hs).
Qed.

Lemma consume_fork_spec t pid p :
  table_ok t → pt_slot t pid = Some p →
  wp (consume_pending_fork_cpu pid) (λ _ t', table_ok t' ∧ pt_owners t' = pt_owners t ∧ updated t t' pid (Some (set_pending_fork_cpu None p))) t.
Proof.
  intros Ht Hp. destruct (to_live _ Ht _ _ Hp) as [_ [P1 P2 P3 P4 P5]]. apply wp_slot_or. rewrite Hp. apply wp_modify.
  destruct (alter_keeps (set_pending_fork_cpu None) t pid p) as [? ?]; [done..|]. by split_and!.
Qed.

(** ** Exit and wait *)

Definition finished (status : ProcessExitStatus) (p : Process) : Process :=
  set_status ProcZombie (Some status) (set_files (file_state_close_all (rs_files (pr_resources p))) p).

Lemma running_no_status t pid p : table_ok t → pt_slot t pid = Some p → pr_state p = ProcRunning → pr_exit_status p = None.
Proof.
  intros Ht Hp Hr. destruct (to_live _ Ht _ _ Hp) as [_ Hok]. destruct (pr_exit_status p) as [st|] eqn:E; [|done].
  assert (pr_state p = ProcZombie) by (apply (po_zombie _ Hok); by rewrite E). congruence.
Qed.

Lemma live_cases t pid p : table_ok t → pt_slot t pid = Some p →
  pr_state p = ProcRunning ∧ pr_exit_status p = None ∨ pr_state p = ProcZombie ∧ is_Some (pr_exit_status p).
Proof.
  intros Ht Hp. destruct (to_live _ Ht _ _ Hp) as [_ Hok]. pose proof (pt_slot_live _ _ _ Hp) as Hf. unfold process_is_free in Hf.
  destruct (pr_state p) eqn:E; [done|left|right; split; [done|by apply (po_zombie _ Hok)]]. split; [done|]. by eapply running_no_status.
Qed.

Lemma finish_spec t pid p th status :
  table_ok t → pt_slot t pid = Some p → pr_state p = ProcRunning → pr_main_thread p = Some th →
  wp (finish_process pid status) (λ r t', r = Some (pr_waiter p) ∧ table_ok t' ∧ updated t t' pid (Some (finished status p))) t.
Proof.
  intros Ht Hp Hr Hm. apply wp_slot_or. rewrite Hp, (running_no_status t pid p) by done. apply wp_bind, wp_modify.
  change (alter_process _ pid t) with (alter_process (finished status) pid t).
  assert (process_is_free (finished status p) = false) as Hf by done. pose proof (updated_alter (finished status) t pid p Hp Hf) as Hu.
  apply wp_bind, wp_slot_or. rewrite (updated_at _ _ _ _ Hu). cbn [pr_main_thread finished set_status set_files]. rewrite Hm.
  apply wp_bind, wp_ret, wp_bind, wp_gets. cbn [alter_process pt_owners].
  assert (pt_owners t !! tid_index th = Some (Some pid)) as Ho by (apply (to_index _ Ht); by exists p, th). rewrite Ho.
  apply wp_bind, wp_ret, wp_bind, wp_assert; [by apply bool_decide_eq_true|]. apply wp_modify, wp_ret. split; [done|]. split; [|done].
  eapply table_ok_finish; [done|done|done|done| |done|done]. destruct (to_live _ Ht _ _ Hp) as [_ [P1 P2 P3 P4 P5]].
  split; [done|split; [by eexists|done]|by exists th|done|done].
Qed.

Lemma insert_alter {A} (f : A → A) i x (l : list A) : <[i := x]> (alter f i l) = <[i := x]> l.
Proof. revert i. induction l as [|y l IH]; intros [|i]; [done..|]. simpl. f_equal. apply IH. Qed.

Lemma take_and_release_spec t pid p :
  table_ok t → pt_slot t pid = Some p → pr_state p = ProcZombie →
  wp (take_and_release pid) (λ _ t', table_ok t' ∧ pt_owners t' = pt_owners t ∧ updated t t' pid None) t.
Proof.
  intros Ht Hp Hz. apply wp_bind, wp_modify. set (f := λ p : Process, _). assert (process_is_free (f p) = false) as Hf by by apply pt_slot_live in Hp.
  assert (1 <= next_process_generation (pid_generation pid) <= u32_max) as Hg.
  { apply next_process_generation_range. apply pt_slot_Some in Hp as [Hs _]. exact (to_generation _ Ht _ _ Hs). }
  apply wp_slot_or. rewrite (updated_at _ _ _ _ (updated_alter f t pid p Hp Hf)). change (pr_main_thread (f p)) with (pr_main_thread p).
  destruct (to_live _ Ht _ _ Hp) as [_ Hok]. destruct (po_main _ Hok Hz) as [th Hm]. rewrite Hm. apply wp_bind, wp_bind, wp_gets.
  cbn [alter_process pt_owners]. pose proof (to_main _ Ht _ _ _ Hp Hm) as Hlt. rewrite <-(to_owners _ Ht) in Hlt. apply lookup_lt_is_Some in Hlt as [o Ho].
  rewrite Ho. apply wp_bind, wp_ret. rewrite decide_False.
  2: { intros ->. apply (to_index _ Ht) in Ho as (q & th' & Hq & _ & _ & Hr). congruence. }
  apply wp_ret, wp_modify. cbn [alter_process pt_slots pt_owners]. rewrite insert_alter.
  split_and!; [apply (table_ok_release t pid p); [done|done|by right|lia]|done|]. intros q. by apply (pt_slot_release t pid p).
Qed.

(** Who may wait for the process [p] as its parent. *)
Definition may_wait (p : Process) (parent : ProcessId) (caller : ThreadId) : Prop :=
  pr_parent p = Some parent ∧ (pr_consumer p = None ∨ pr_consumer p = Some caller).
#[global] Instance may_wait_dec p parent caller : Decision (may_wait p parent caller).
Proof. unfold may_wait. apply _. Defined.

(** A caller has no wait of its own left open on a running child. *)
Definition wait_free (p : Process) (caller : ThreadId) : Prop :=
  pr_exit_status p = None → ∀ w, pr_waiter p = Some w → wt_thread w ≠ caller.

Definition waited_of (pid : ProcessId) (p : Process) (status : ProcessExitStatus) (main : ThreadId) : WaitedProcess :=
  mkWaited pid status (rs_image (pr_resources p)) main (pr_waiter p).

Definition claimed (t : ProcessTable) (parent child : ProcessId) (caller : ThreadId) (r : ChildClaim) (t' : ProcessTable) : Prop :=
  match pt_slot t child with
  | None => r = ChildRefused ∧ t' = t
  | Some p =>
      if decide (may_wait p parent caller) then
        match pr_exit_status p with
        | None => r = ChildRunning ∧ pr_waiter p = None ∧ updated t t' child (Some (set_consumer (Some caller) p))
        | Some status => ∃ main, pr_main_thread p = Some main ∧ r = ChildConsumed (waited_of child p status main) ∧ updated t t' child None
        end
      else r = ChildRefused ∧ t' = t
  end.

Lemma updated_refl t pid p : pt_slot t pid = Some p → updated t t pid (Some p).
Proof. intros Hp q. case_decide; [by subst|done]. Qed.

Lemma claim_consumer_spec t child p caller :
  table_ok t → pt_slot t child = Some p → pr_consumer p = None ∨ pr_consumer p = Some caller →
  wp (match pr_consumer p with Some _ => mret tt | None => modify (alter_process (set_consumer (Some caller)) child) end)
     (λ _ t', table_ok t' ∧ pt_owners t' = pt_owners t ∧ updated t t' child (Some (set_consumer (Some caller) p))) t.
Proof.
  intros Ht Hp Hc. destruct (to_live _ Ht _ _ Hp) as [_ [P1 P2 P3 P4 P5]]. destruct (pr_consumer p) as [c|] eqn:E.
  - destruct Hc as [?|[= ->]]; [done|]. apply wp_ret. split_and!; [done|done|].
    replace (set_consumer (Some caller) p) with p by (destruct p; simpl in *; by rewrite E). by apply updated_refl.
  - apply wp_modify. assert (process_is_free (set_consumer (Some caller) p) = false) as Hf by by apply pt_slot_live in Hp.
    split_and!; [|done|by apply updated_alter]. apply (table_ok_alter _ t child p); [done|done| |done|done|done]. split; try done.
    intros w Hw. simpl in Hw. apply P5 in Hw. congruence.
Qed.

Lemma claim_child_spec t parent child caller :
  table_ok t → (∀ p, pt_slot t child = Some p → wait_free p caller) →
  wp (claim_child parent child caller) (λ r t', table_ok t' ∧ pt_owners t' = pt_owners t ∧ claimed t parent child caller r t') t.
Proof.
  intros Ht Hfree. apply wp_slot_or. unfold claimed. destruct (pt_slot t child) as [p|] eqn:Hp; [|by apply wp_ret].
  destruct (decide (may_wait p parent caller)) as [[Hpar Hcon]|Hno].
  2: { destruct (decide (pr_parent p = Some parent)) as [Hpar|Hpar]; [rewrite bool_decide_eq_true_2 by done|by rewrite bool_decide_eq_false_2; [apply wp_ret|]].
       cbn [negb]. destruct (pr_consumer p) as [c|] eqn:Hc; [|destruct Hno; by split; [|left]].
       rewrite bool_decide_eq_false_2; [by apply wp_ret|]. intros ->. destruct Hno. by split; [|right]. }
  rewrite bool_decide_eq_true_2 by done. cbn [negb].
  assert (match pr_consumer p with Some consumer => negb (bool_decide (consumer = caller)) | None => false end = false) as ->.
  { destruct Hcon as [->| ->]; [done|]. by rewrite bool_decide_eq_true_2. }
  apply wp_bind. eapply wp_mono; [by apply claim_consumer_spec|]. intros [] t1 (Ht1 & Ho1 & Hu1).
  destruct (to_live _ Ht _ _ Hp) as [_ Hok].
  assert (match pr_waiter p with Some waiter => negb (bool_decide (wt_thread waiter = caller)) | None => false end = false) as ->.
  { destruct (pr_waiter p) as [w|] eqn:Hw; [|done]. apply (po_waiter _ Hok) in Hw. destruct Hcon; [congruence|]. rewrite bool_decide_eq_true_2; [done|congruence]. }
  destruct (pr_exit_status p) as [status|] eqn:Hst.
  - destruct (live_cases t child p Ht Hp) as [[_ ?]|[Hz _]]; [congruence|]. destruct (po_main _ Hok Hz) as [main Hm]. rewrite Hm.
    apply wp_bind, wp_ret, wp_bind. eapply wp_mono; [apply (take_and_release_spec t1 child (set_consumer (Some caller) p)); [done|by apply (updated_at _ _ _ _ Hu1)|done]|].
    intros [] t2 (Ht2 & Ho2 & Hu2). apply wp_ret. split_and!; [done|congruence|]. exists main. split_and!; [done|done|]. by eapply updated_trans.
  - assert (pr_waiter p = None) as Hw.
    { destruct (pr_waiter p) as [w|] eqn:Hw; [|done]. exfalso. apply (Hfree p eq_refl Hst w Hw). apply (po_waiter _ Hok) in Hw. destruct Hcon; congruence. }
    rewrite Hw. apply wp_bind, wp_assert; [done|]. by apply wp_ret.
Qed.

Lemma register_waiter_spec t child p w :
  table_ok t → pt_slot t child = Some p → pr_consumer p = Some (wt_thread w) →
  wp (register_waiter child w) (λ _ t', table_ok t' ∧ pt_owners t' = pt_owners t ∧ updated t t' child (Some (set_waiter (Some w) p))) t.
Proof.
  intros Ht Hp Hc. apply wp_modify. destruct (to_live _ Ht _ _ Hp) as [_ [P1 P2 P3 P4 P5]].
  assert (process_is_free (set_waiter (Some w) p) = false) as Hf by by apply pt_slot_live in Hp. split_and!; [|done|by apply updated_alter].
  apply (table_ok_alter _ t child p); [done|done| |done|done|done]. split; try done. by intros w' [= <-].
Qed.
