(* ===== verification/ProcHistory.v ===== *)
(** * Histories of the process table

    The operations [kernel/src/process] applies to the table, as one type, and
    the tables that histories of them reach.  An operation is allowed where its
    callers use it: resources and the main thread are given to a process that is
    being built, its slot is freed only before it has a thread, a wait is
    registered by the thread that claimed the child. *)

From stdpp Require Import gmap.
From S2P Require Import Prelude Types Vm Sched UserImage Ramfs FdTable Process ProcSpec.
#[local] Open Scope Z_scope.

Inductive table_op :=
| OpAllocate (s : FsState) (parent : option ProcessId) (fds : FdTable) (cwd_dir : nat) (cpu : CpuId)
| OpAttach (pid : ProcessId) (a : AddressSpaceId) (image : UserElfImage)
| OpBind (pid : ProcessId) (th : ThreadId) (a : AddressSpaceId)
| OpTakeImage (pid : ProcessId)
| OpFree (pid : ProcessId)
| OpRequestForkCpu (pid : ProcessId) (cpu : option CpuId)
| OpConsumeForkCpu (pid : ProcessId)
| OpSwapImage (pid : ProcessId) (a : AddressSpaceId) (image : UserElfImage)
| OpFiles (pid : ProcessId) (f : ProcessFileState → (nat + FdError) * ProcessFileState)
| OpFinish (pid : ProcessId) (status : ProcessExitStatus)
| OpClaimConsumer (pid : ProcessId) (caller : ThreadId)
| OpConsumeJoin (pid : ProcessId) (caller : ThreadId)
| OpClaimChild (parent child : ProcessId) (caller : ThreadId)
| OpRegister (child : ProcessId) (w : WaitToken).

(** The identity an operation issued, if any. *)
Definition exec_op (op : table_op) : PT (option ProcessId) :=
  match op with
  | OpAllocate s parent fds cwd cpu =>
      r ← allocate_process_slot s parent fds cwd cpu; mret (match r with inl pid => Some pid | inr _ => None end)
  | OpAttach pid a image => attach_process_resources pid a image;; mret None
  | OpBind pid th a => bind_main_thread pid th (owner_cpu a) a;; mret None
  | OpTakeImage pid => _ ← take_process_image_resources pid; mret None
  | OpFree pid => free_process_slot pid;; mret None
  | OpRequestForkCpu pid cpu => _ ← request_fork_cpu pid cpu; mret None
  | OpConsumeForkCpu pid => consume_pending_fork_cpu pid;; mret None
  | OpSwapImage pid a image => _ ← swap_process_image pid a image; mret None
  | OpFiles pid f => _ ← update_process_files pid f; mret None
  | OpFinish pid status => _ ← finish_process pid status; mret None
  | OpClaimConsumer pid caller => _ ← claim_process_consumer pid caller; mret None
  | OpConsumeJoin pid caller => _ ← consume_process_for_join pid caller; mret None
  | OpClaimChild parent child caller => _ ← claim_child parent child caller; mret None
  | OpRegister child w => register_waiter child w;; mret None
  end.

(** A running process without a main thread. *)
Definition building (t : ProcessTable) (pid : ProcessId) (p : Process) : Prop :=
  pt_slot t pid = Some p ∧ pr_state p = ProcRunning ∧ pr_main_thread p = None.

Definition allowed (t : ProcessTable) (op : table_op) : Prop :=
  match op with
  | OpAttach pid a image => ∃ p, building t pid p ∧ pr_owner_cpu p = Some (owner_cpu a)
  | OpBind pid th a => (∃ p, building t pid p ∧ im_address_space (rs_image (pr_resources p)) = Some a ∧ pr_owner_cpu p = Some (owner_cpu a)) ∧
      pt_owners t !! tid_index th = Some None
  | OpTakeImage pid | OpFree pid => ∀ p, pt_slot t pid = Some p → pr_main_thread p = None
  | OpConsumeForkCpu pid => is_Some (pt_slot t pid)
  | OpSwapImage pid a image => ∃ p, pt_slot t pid = Some p ∧ pr_state p = ProcRunning ∧ pr_owner_cpu p = Some (owner_cpu a)
  | OpFinish pid status => ∀ p, pt_slot t pid = Some p → is_Some (pr_main_thread p)
  | OpClaimChild parent child caller => ∀ p, pt_slot t child = Some p → wait_free p caller
  | OpRegister child w => ∃ p, pt_slot t child = Some p ∧ pr_consumer p = Some (wt_thread w)
  | _ => True
  end.

(** [history t0 ids t]: allowed operations lead from [t0] to [t] and issue the
    identities [ids], the newest first. *)
Inductive history (t0 : ProcessTable) : list ProcessId → ProcessTable → Prop :=
| history_start : history t0 [] t0
| history_step ids t op o t' :
    history t0 ids t → allowed t op → exec_op op t = Done (o, t') → history t0 (option_list o ++ ids) t'.

(** ** Every allowed operation succeeds and keeps the invariant *)

(** What a step did to the identities: at most [o] is new. *)
Definition issues (t : ProcessTable) (o : option ProcessId) (t' : ProcessTable) : Prop :=
  match o with
  | Some pid => pt_slot t pid = None ∧ is_Some (pt_slot t' pid) ∧ ∀ q, q ≠ pid → pt_slot t' q = pt_slot t q
  | None => ∀ q, pt_slot t q = None → pt_slot t' q = None
  end.

Lemma issues_updated t t' pid p o : pt_slot t pid = Some p → updated t t' pid o → issues t None t'.
Proof. intros Hp Hu q Hq. rewrite Hu. case_decide; [congruence|done]. Qed.

Lemma issues_refl t : issues t None t.
Proof. by intros q Hq. Qed.

Lemma wp_updated {A} (m : PT A) t pid p o :
  pt_slot t pid = Some p → wp m (λ _ t', table_ok t' ∧ updated t t' pid o) t →
  wp (_ ← m; mret None) (λ o t', table_ok t' ∧ issues t o t') t.
Proof.
  intros Hp Hm. apply wp_bind. eapply wp_mono; [exact Hm|]. intros a t' [Hok Hu]. apply wp_ret. split; [done|]. by eapply issues_updated.
Qed.

Lemma wp_unchanged {A} (m : PT A) t :
  table_ok t → wp m (λ _ t', t' = t) t → wp (_ ← m; mret None) (λ o t', table_ok t' ∧ issues t o t') t.
Proof. intros Hok Hm. apply wp_bind. eapply wp_mono; [exact Hm|]. intros a t' ->. apply wp_ret. split; [done|apply issues_refl]. Qed.

Lemma wp_drop_owners {A} (m : PT A) (Q : ProcessTable → Prop) t :
  wp m (λ _ t', table_ok t' ∧ pt_owners t' = pt_owners t ∧ Q t') t → wp m (λ _ t', table_ok t' ∧ Q t') t.
Proof. intros H. eapply wp_mono; [exact H|]. intros a t' (? & _ & ?). by split. Qed.

Lemma consume_join_spec t pid caller :
  table_ok t →
  wp (consume_process_for_join pid caller) (λ r t', table_ok t' ∧ pt_owners t' = pt_owners t ∧
    match pt_slot t pid with
    | None => r = inr (ConsumeJoin PJInvalidProcess) ∧ t' = t
    | Some p =>
        if decide (pr_consumer p = Some caller) then
          match pr_exit_status p with
          | None => r = inr ConsumeWouldBlock ∧ t' = t
          | Some status => r = inl (mkReclaimed status (rs_image (pr_resources p))) ∧ updated t t' pid None
          end
        else r = inr (ConsumeJoin PJJoinInProgress) ∧ t' = t
    end) t.
Proof.
  intros Ht. apply wp_slot_or. destruct (pt_slot t pid) as [p|] eqn:Hp; [|by apply wp_ret]. case_decide; [|by apply wp_ret].
  destruct (pr_exit_status p) as [status|] eqn:Hst; [|by apply wp_ret].
  destruct (live_cases t pid p Ht Hp) as [[_ ?]|[Hz _]]; [congruence|]. apply wp_bind.
  eapply wp_mono; [by apply (take_and_release_spec t pid p)|]. intros _ t' (? & ? & ?). by apply wp_ret.
Qed.

Lemma claim_join_spec t pid caller :
  table_ok t →
  wp (claim_process_consumer pid caller) (λ r t', table_ok t' ∧ pt_owners t' = pt_owners t ∧
    match pt_slot t pid with
    | None => r = inr PJInvalidProcess ∧ t' = t
    | Some p =>
        match pr_consumer p, pr_main_thread p with
        | Some _, _ => r = inr PJJoinInProgress ∧ t' = t
        | None, None => r = inr PJInvalidProcess ∧ t' = t
        | None, Some th => r = inl th ∧ updated t t' pid (Some (set_consumer (Some caller) p))
        end
    end) t.
Proof.
  intros Ht. apply wp_slot_or. destruct (pt_slot t pid) as [p|] eqn:Hp; [|by apply wp_ret].
  destruct (pr_consumer p) as [c|] eqn:Hc; [by apply wp_ret|]. destruct (pr_main_thread p) as [th|]; [|by apply wp_ret]. apply wp_bind.
  pose proof (claim_consumer_spec t pid p caller Ht Hp (or_introl Hc)) as H. rewrite Hc in H.
  eapply wp_mono; [exact H|]. intros [] t' (? & ? & ?). by apply wp_ret.
Qed.

Lemma swap_spec t pid p a image :
  table_ok t → pt_slot t pid = Some p → pr_state p = ProcRunning → pr_owner_cpu p = Some (owner_cpu a) →
  wp (swap_process_image pid a image) (λ old t', old = rs_image (pr_resources p) ∧ table_ok t' ∧ pt_owners t' = pt_owners t ∧
    updated t t' pid (Some (set_image (mkImageResources (Some a) (Some image)) p))) t.
Proof.
  intros Ht Hp Hr Hcpu. apply wp_slot_or. rewrite Hp. apply wp_bind, wp_modify, wp_ret. pose proof (running_no_status t pid p Ht Hp Hr) as Hst.
  destruct (to_live _ Ht _ _ Hp) as [_ [P1 P2 P3 P4 P5]]. set (f := λ p : Process, _).
  assert (f p = set_image (mkImageResources (Some a) (Some image)) p) as Ef by (unfold f, set_status, set_image; destruct p; simpl in *; by subst).
  rewrite <-Ef. destruct (alter_keeps f t pid p Ht Hp) as [Hok Hu]; [|by rewrite Ef|by rewrite Ef|done].
  rewrite Ef. split; try done. intros th Hth. by exists a.
Qed.

Lemma op_spec t op : table_ok t → allowed t op → wp (exec_op op) (λ o t', table_ok t' ∧ issues t o t') t.
Proof.
  intros Ht. destruct op as [s parent fds cwd cpu|pid a image|pid th a|pid|pid|pid cpu|pid|pid a image|pid f|pid status|pid caller|pid caller|parent child caller|child w]; cbn [allowed exec_op].
  - intros _. apply wp_bind. eapply wp_mono; [by apply allocate_spec|]. intros [pid|e] t' (Hok & _ & Hr); apply wp_ret; (split; [done|]).
    + destruct Hr as (_ & Hn & _ & _ & Hu). split; [done|]. split; [rewrite (updated_at _ _ _ _ Hu); by eexists|]. intros q. by apply (updated_other _ _ _ _ _ Hu).
    + destruct Hr as [-> _]. apply issues_refl.
  - intros (p & (Hp & Hr & _) & Hcpu). eapply wp_updated; [exact Hp|]. apply wp_drop_owners. by apply attach_spec.
  - intros ((p & (Hp & Hr & Hm) & Ha & Hcpu) & Hown). eapply wp_updated; [exact Hp|]. by apply bind_spec.
  - intros Hm. destruct (pt_slot t pid) as [p|] eqn:Hp; [|apply wp_unchanged; [done|]; apply wp_slot_or; rewrite Hp; by apply wp_ret].
    eapply wp_updated; [exact Hp|]. eapply wp_mono; [apply (take_image_spec t pid p); auto|]. intros ? ? (_ & ? & _ & ?). by split.
  - intros Hm. destruct (pt_slot t pid) as [p|] eqn:Hp; [|apply wp_unchanged; [done|]; apply wp_slot_or; rewrite Hp; by apply wp_ret].
    eapply wp_updated; [exact Hp|]. apply wp_drop_owners. by apply (free_slot_spec t pid p); auto.
  - intros _. destruct (pt_slot t pid) as [p|] eqn:Hp; [|apply wp_unchanged; [done|]; apply wp_slot_or; rewrite Hp; by apply wp_ret].
    destruct (to_live _ Ht _ _ Hp) as [_ [P1 P2 P3 P4 P5]]. eapply wp_updated; [exact Hp|]. apply wp_slot_or. rewrite Hp.
    apply wp_bind, wp_modify, wp_ret. by apply alter_keeps.
  - intros [p Hp]. eapply wp_updated; [exact Hp|]. apply wp_drop_owners. by apply consume_fork_spec.
  - intros (p & Hp & Hr & Hcpu). eapply wp_updated; [exact Hp|]. apply wp_drop_owners. eapply wp_mono; [by apply swap_spec|]. by intros r t' (_ & ? & ? & ?).
  - intros _. destruct (pt_slot t pid) as [p|] eqn:Hp; [|apply wp_unchanged; [done|]; apply wp_slot_or; rewrite Hp; by apply wp_ret].
    destruct (to_live _ Ht _ _ Hp) as [_ [P1 P2 P3 P4 P5]]. destruct (f (rs_files (pr_resources p))) as [r files] eqn:Ef.
    eapply wp_updated; [exact Hp|]. apply wp_slot_or. rewrite Hp, Ef. apply wp_bind, wp_modify, wp_ret. by apply (alter_keeps (set_files files)).
  - intros Hm. destruct (pt_slot t pid) as [p|] eqn:Hp; [|apply wp_unchanged; [done|]; apply wp_slot_or; rewrite Hp; by apply wp_ret].
    destruct (Hm p eq_refl) as [th Hth]. destruct (live_cases t pid p Ht Hp) as [[Hr Hst]|[Hz [st Hst]]].
    + eapply wp_updated; [exact Hp|]. eapply wp_mono; [by eapply finish_spec|]. intros ? ? (_ & ? & ?). by split.
    + apply wp_unchanged; [done|]. apply wp_slot_or. rewrite Hp, Hst. by apply wp_ret.
  - intros _. apply wp_bind. eapply wp_mono; [by apply claim_join_spec|]. intros r t' (Hok & _ & Hr). apply wp_ret. split; [done|].
    destruct (pt_slot t pid) as [p|] eqn:Hp; [|destruct Hr as [_ ->]; apply issues_refl].
    destruct (pr_consumer p), (pr_main_thread p); destruct Hr as [_ Hr]; subst; try apply issues_refl. by eapply issues_updated.
  - intros _. apply wp_bind. eapply wp_mono; [by apply consume_join_spec|]. intros r t' (Hok & _ & Hr). apply wp_ret. split; [done|].
    destruct (pt_slot t pid) as [p|] eqn:Hp; [|destruct Hr as [_ ->]; apply issues_refl].
    destruct (decide _); [|destruct Hr as [_ ->]; apply issues_refl].
    destruct (pr_exit_status p); destruct Hr as [_ Hr]; [by eapply issues_updated|subst; apply issues_refl].
  - intros Hfree. apply wp_bind. eapply wp_mono; [by apply claim_child_spec|]. intros r t' (Hok & _ & Hr). apply wp_ret. split; [done|].
    unfold claimed in Hr. destruct (pt_slot t child) as [p|] eqn:Hp; [|destruct Hr as [_ ->]; apply issues_refl].
    destruct (decide _); [|destruct Hr as [_ ->]; apply issues_refl].
    destruct (pr_exit_status p); [destruct Hr as (? & _ & _ & Hr)|destruct Hr as (_ & _ & Hr)]; by eapply issues_updated.
  - intros (p & Hp & Hc). eapply wp_updated; [exact Hp|]. apply wp_drop_owners. by apply register_waiter_spec.
Qed.

(** ** Generations *)

Definition slot_alive (s : ProcessSlot) : Prop := process_is_free (ps_process s) = false.

(** Without an allocation a slot keeps its generation and does not come alive;
    or it was alive, dies and moves to the next generation. *)
Definition slot_aged (s s' : ProcessSlot) : Prop :=
  ps_generation s' = ps_generation s ∧ (slot_alive s' → slot_alive s) ∨
  slot_alive s ∧ ¬ slot_alive s' ∧ ps_generation s' = next_process_generation (ps_generation s).

Definition aged (t t' : ProcessTable) : Prop :=
  ∀ i s', pt_slots t' !! i = Some s' → ∃ s, pt_slots t !! i = Some s ∧ slot_aged s s'.

#[global] Instance aged_preorder : PreOrder aged.
Proof.
  split; [intros t i s Hs; exists s; split; [done|by left]|]. intros t1 t2 t3 H12 H23 i s3 H3.
  destruct (H23 _ _ H3) as (s2 & H2 & A23). destruct (H12 _ _ H2) as (s1 & H1 & A12). exists s1. split; [done|].
  destruct A12 as [[E1 L1]|(L1 & D1 & E1)], A23 as [[E2 L2]|(L2 & D2 & E2)].
  - left. split; [congruence|auto].
  - right. split_and!; [auto|done|congruence].
  - right. split_and!; [done|auto|congruence].
  - done.
Qed.

(** Every slot keeps its generation. *)
Definition same_generations (t t' : ProcessTable) : Prop := ps_generation <$> pt_slots t' = ps_generation <$> pt_slots t.

#[global] Instance same_generations_preorder : PreOrder same_generations.
Proof. split; [by intros t|]. intros t1 t2 t3 H12 H23. unfold same_generations in *. congruence. Qed.

(** [m] relates its tables by [R]. *)
Definition keeps (R : relation ProcessTable) {A} (m : PT A) : Prop := ∀ t a t', m t = Done (a, t') → R t t'.

Create HintDb keeps discriminated.

Section keeps.
Context (R : relation ProcessTable) `{!PreOrder R}.

Lemma keeps_ret {A} (a : A) : keeps R (mret a).
Proof. intros t a' t' [= <- <-]. reflexivity. Qed.

Lemma keeps_bind {A B} (m : PT A) (k : A → PT B) : keeps R m → (∀ a, keeps R (k a)) → keeps R (m ≫= k).
Proof.
  intros Hm Hk t b t2 H. unfold mbind, M_bind in H. destruct (m t) as [[a t1]|] eqn:E; [|done].
  transitivity t1; [by eapply Hm|by eapply Hk].
Qed.

Lemma keeps_panic {A} why : keeps R (panic why : PT A).
Proof. by intros t a t'. Qed.

Lemma keeps_gets {A} (f : ProcessTable → A) : keeps R (gets f).
Proof. intros t a t' [= <- <-]. reflexivity. Qed.

Lemma keeps_reads {A} (f : ProcessTable → outcome A) : keeps R (reads f).
Proof. intros t a t' H. unfold reads in H. destruct (f t); [|done]. injection H as <- <-. reflexivity. Qed.

Lemma keeps_assert b why : keeps R (assert_that b why : PT unit).
Proof. destruct b; [apply keeps_ret|apply keeps_panic]. Qed.

Lemma keeps_expect {A} (o : option A) why : keeps R (expect o why : PT A).
Proof. destruct o; [apply keeps_ret|apply keeps_panic]. Qed.

Lemma keeps_slot_or {A} pid (none : PT A) k : keeps R none → (∀ p, keeps R (k p)) → keeps R (slot_or pid none k).
Proof. intros Hn Hk. apply keeps_bind; [apply keeps_gets|]. by intros [p|]. Qed.
End keeps.

Lemma generations_alter f pid : keeps same_generations (modify (alter_process f pid)).
Proof.
  intros t [] t' [= <-]. apply list_eq. intros i. rewrite !list_lookup_fmap. cbn [alter_process pt_slots]. rewrite list_lookup_alter.
  case_decide; [subst i|done]. by destruct (pt_slots t !! _).
Qed.

Lemma generations_owner i o : keeps same_generations (modify (set_owner i o)).
Proof. by intros t [] t' [= <-]. Qed.

(** An update that brings no process to life. *)
Lemma aged_alter f pid : (∀ p, process_is_free (f p) = false → process_is_free p = false) → keeps aged (modify (alter_process f pid)).
Proof.
  intros Hf t [] t' [= <-] i s'. cbn [alter_process pt_slots]. rewrite list_lookup_alter. case_decide as E; [subst i|].
  - destruct (pt_slots t !! pid_index pid) as [s|] eqn:Hs; [|done]. intros [= <-]. exists s. split; [done|]. left. split; [done|]. apply Hf.
  - intros Hs. exists s'. split; [done|]. by left.
Qed.

#[export] Hint Resolve keeps_ret keeps_panic keeps_gets keeps_reads keeps_assert keeps_expect generations_alter generations_owner : keeps.
#[export] Hint Extern 1 (PreOrder _) => apply _ : keeps.
#[export] Hint Extern 2 (keeps aged (modify (alter_process _ _))) => apply aged_alter; by intros ? : keeps.

Ltac keeps :=
  repeat first
    [ progress auto with keeps nocore
    | apply keeps_slot_or; [apply _| |intros ?]
    | apply keeps_bind; [apply _| |intros ?]
    | case_match ].

Lemma aged_release pid g : (g = pid_generation pid ∨ g = next_process_generation (pid_generation pid)) → keeps aged (release_slot pid g).
Proof.
  intros Hg t a t' H. cbv [release_slot slot_or mbind M_bind mret M_ret gets modify panic expect] in H. destruct (pt_slot t pid) as [p|] eqn:Hp; [|done].
  assert (∃ t1, pt_slots t1 = pt_slots t ∧ t' = mkProcessTable (<[pid_index pid := mkProcessSlot g process_free]> (pt_slots t1)) (pt_owners t1)) as (t1 & Es & ->).
  { destruct (pr_main_thread p) as [th|]; [|injection H as _ <-; by exists t].
    destruct (pt_owners t !! tid_index th); [|done]. destruct (decide _); injection H as _ <-; [by eexists (set_owner _ _ t)|by exists t]. }
  apply pt_slot_Some in Hp as [Hs Hl]. intros i s'. cbn [pt_slots]. rewrite Es. destruct (decide (i = pid_index pid)) as [->|Hne].
  - rewrite list_lookup_insert_eq by (by eapply lookup_lt_Some). intros [= <-]. exists (mkProcessSlot (pid_generation pid) p). split; [done|].
    destruct Hg as [->| ->]; [left; by split|right]. by split_and!.
  - rewrite list_lookup_insert_ne by done. intros H'. exists s'. split; [done|]. by left.
Qed.

Lemma aged_take_and_release pid : keeps aged (take_and_release pid).
Proof. apply keeps_bind; [apply _|by apply aged_alter|intros []]. apply aged_release. by right. Qed.

Lemma aged_free pid : keeps aged (free_process_slot pid).
Proof. apply keeps_slot_or; [apply _|by apply keeps_ret; apply _|intros ?]. apply aged_release. by left. Qed.
#[export] Hint Resolve aged_take_and_release aged_free : keeps.

(** A slot keeps its generation, or it was alive and moves to the next one. *)
Definition generation_stepped (t t' : ProcessTable) : Prop :=
  ∀ i s', pt_slots t' !! i = Some s' →
  ∃ s, pt_slots t !! i = Some s ∧ (ps_generation s' = ps_generation s ∨ slot_alive s ∧ ps_generation s' = next_process_generation (ps_generation s)).

Lemma stepped_aged t t' : aged t t' → generation_stepped t t'.
Proof. intros H i s' Hs. destruct (H _ _ Hs) as (s & ? & [[? _]|(? & _ & ?)]); eauto. Qed.

Lemma stepped_same t t' : same_generations t t' → generation_stepped t t'.
Proof.
  intros H i s' Hs. apply (f_equal (λ l, l !! i)) in H. rewrite !list_lookup_fmap, Hs in H. cbn in H.
  destruct (pt_slots t !! i) as [s|]; [|done]. injection H as H. eauto.
Qed.

Definition op_quiet (op : table_op) : Prop := match op with OpAllocate _ _ _ _ _ => False | _ => True end.

Definition op_releases (op : table_op) : bool :=
  match op with OpFree _ | OpConsumeJoin _ _ | OpClaimChild _ _ _ => true | _ => false end.

Lemma op_keeps op : op_quiet op → if op_releases op then keeps aged (exec_op op) else keeps same_generations (exec_op op).
Proof.
  intros Hq. destruct op; [done|..]; cbn [op_releases exec_op]; (apply keeps_bind; [apply _| |intros ?; by apply keeps_ret; apply _]).
  all: unfold attach_process_resources, bind_main_thread, validate_user_ownership, take_process_image_resources, request_fork_cpu,
    consume_pending_fork_cpu, swap_process_image, update_process_files, finish_process, unbind_main_thread, claim_process_consumer, register_waiter,
    consume_process_for_join, claim_child; keeps.
Qed.

Lemma op_stepped op t o t' : op_quiet op → exec_op op t = Done (o, t') → generation_stepped t t'.
Proof.
  intros Hq H. pose proof (op_keeps op Hq) as Hk. destruct (op_releases op); [apply stepped_aged|apply stepped_same]; by eapply Hk.
Qed.

Lemma allocate_stepped s parent fds cwd cpu t o t' :
  exec_op (OpAllocate s parent fds cwd cpu) t = Done (o, t') →
  o = None ∧ t' = t ∨ ∃ i old, pt_slots t !! i = Some old ∧ o = Some (mkProcessId i (next_process_generation (ps_generation old))) ∧
    pt_slots t' = <[i := mkProcessSlot (next_process_generation (ps_generation old)) (process_running parent fds cwd cpu)]> (pt_slots t).
Proof.
  cbn [exec_op]. cbv [allocate_process_slot mbind M_bind mret M_ret gets modify]. destruct (dir_path s cwd); [|intros [= <- <-]; by left].
  destruct (list_find _ _) as [[i old]|] eqn:Hf; [|intros [= <- <-]; by left]. intros [= <- <-]. right.
  apply list_find_Some in Hf as (Hi & _). by exists i, old.
Qed.

(** ** Identities along a history *)

Lemma history_ok t0 ids t : table_ok t0 → history t0 ids t → table_ok t.
Proof.
  intros H0. induction 1 as [|ids t op o t' _ IH Ha He]; [done|]. apply (op_spec t op) in Ha; [|done]. unfold wp in Ha. rewrite He in Ha. apply Ha.
Qed.

(** While fewer than 2^31 identities were issued no generation has wrapped. *)
Record young (ids : list ProcessId) (t : ProcessTable) : Prop := {
  y_bound : ∀ i s, pt_slots t !! i = Some s → ps_generation s <= 2 * Z.of_nat (length ids);
  y_live : ∀ i s, pt_slots t !! i = Some s → slot_alive s → ps_generation s < 2 * Z.of_nat (length ids);
  y_issued : ∀ pid, pid ∈ ids → ∃ s, pt_slots t !! pid_index pid = Some s ∧ pid_generation pid <= ps_generation s;
  y_slots : ∀ pid, is_Some (pt_slot t pid) → pid ∈ ids;
  y_nodup : NoDup ids
}.

Lemma slot_alive_pid t i s : pt_slots t !! i = Some s → slot_alive s → pt_slot t (mkProcessId i (ps_generation s)) = Some (ps_process s).
Proof. intros Hs Hl. apply pt_slot_Some. split; [|done]. cbn. by destruct s. Qed.

Lemma next_generation_succ g : 0 <= g < u32_max → next_process_generation g = g + 1.
Proof.
  intros Hg. unfold next_process_generation, u32_max in *. rewrite Z.mod_small by lia. destruct (Z.eqb_spec (g + 1) 0); lia.
Qed.

Lemma young_quiet ids t t' :
  table_ok t → young ids t → 2 * Z.of_nat (length ids) <= u32_max → generation_stepped t t' → issues t None t' → length (pt_slots t') = length (pt_slots t) → young ids t'.
Proof.
  intros Ht [Y1 Y2 Y3 Y4 Y5] Hn Hs Hi Hlen.
  assert (∀ i s, pt_slots t !! i = Some s → slot_alive s → next_process_generation (ps_generation s) = ps_generation s + 1) as Hnext.
  { intros i s Hsl Hl. apply next_generation_succ. pose proof (to_generation _ Ht _ _ Hsl). pose proof (Y2 _ _ Hsl Hl). lia. }
  split; [| | | |done].
  - intros i s' Hs'. destruct (Hs _ _ Hs') as (s & Hsl & [->|[Hl ->]]); [by eapply Y1|]. rewrite (Hnext _ _ Hsl Hl). pose proof (Y2 _ _ Hsl Hl). lia.
  - intros i s' Hs' Hl'. pose proof (slot_alive_pid _ _ _ Hs' Hl') as Hp'.
    destruct (pt_slot t (mkProcessId i (ps_generation s'))) as [p|] eqn:Hp; [|apply Hi in Hp; congruence].
    apply pt_slot_Some in Hp as [Hsl Hl]. exact (Y2 _ _ Hsl Hl).
  - intros pid Hpid. destruct (Y3 _ Hpid) as (s & Hsl & Hle). pose proof (lookup_lt_Some _ _ _ Hsl) as Hlt. rewrite <-Hlen in Hlt.
    apply lookup_lt_is_Some in Hlt as [s' Hs']. exists s'. split; [done|]. destruct (Hs _ _ Hs') as (s0 & Hsl0 & [->|[Hl ->]]).
    + by replace s0 with s by congruence.
    + rewrite (Hnext _ _ Hsl0 Hl). replace s0 with s by congruence. lia.
  - intros pid [p' Hp']. apply Y4. destruct (pt_slot t pid) as [p|] eqn:Hp; [by eexists|]. apply Hi in Hp. congruence.
Qed.

Lemma young_allocate ids t t' i old p :
  table_ok t → young ids t → 2 * (Z.of_nat (length ids) + 1) <= u32_max → pt_slots t !! i = Some old →
  let g := next_process_generation (ps_generation old) in
  pt_slots t' = <[i := mkProcessSlot g p]> (pt_slots t) → process_is_free p = false →
  issues t (Some (mkProcessId i g)) t' → young (mkProcessId i g :: ids) t'.
Proof.
  intros Ht [Y1 Y2 Y3 Y4 Y5] Hn Hi g Hs' Hf (Hnone & _ & Hother). pose proof (to_generation _ Ht _ _ Hi) as Hg. pose proof (Y1 _ _ Hi) as Hb.
  assert (g = ps_generation old + 1) as Eg by (apply next_generation_succ; lia). pose proof (lookup_lt_Some _ _ _ Hi) as Hlt.
  assert (∀ j s, pt_slots t' !! j = Some s → j = i ∧ s = mkProcessSlot g p ∨ j ≠ i ∧ pt_slots t !! j = Some s) as Hlook.
  { intros j s. rewrite Hs'. destruct (decide (j = i)) as [->|Hne]; [rewrite list_lookup_insert_eq by done; intros [= <-]; by left|].
    rewrite list_lookup_insert_ne by done. by right. }
  split; cbn [length].
  - intros j s [[-> ->]|[_ H]]%Hlook; [cbn; lia|]. apply Y1 in H. lia.
  - intros j s [[-> ->]|[_ H]]%Hlook Hl; [cbn; lia|]. pose proof (Y2 _ _ H Hl). lia.
  - intros pid [->|Hpid]%elem_of_cons.
    + exists (mkProcessSlot g p). cbn. rewrite Hs', list_lookup_insert_eq by done. by split.
    + destruct (Y3 _ Hpid) as (s & Hsl & Hle). rewrite Hs'. destruct (decide (pid_index pid = i)) as [E|Hne].
      * exists (mkProcessSlot g p). rewrite E, list_lookup_insert_eq by done. split; [done|]. cbn. rewrite E, Hi in Hsl. injection Hsl as <-. lia.
      * exists s. by rewrite list_lookup_insert_ne by done.
  - intros pid Hp. apply elem_of_cons. destruct (decide (pid = mkProcessId i g)) as [|Hne]; [by left|right]. apply Y4. by rewrite <-Hother.
  - constructor; [|done]. intros Hin. destruct (Y3 _ Hin) as (s & Hsl & Hle). cbn in Hsl, Hle. rewrite Hi in Hsl. injection Hsl as <-. lia.
Qed.

Lemma stepped_length op t o t' : table_ok t → allowed t op → exec_op op t = Done (o, t') → length (pt_slots t') = length (pt_slots t).
Proof.
  intros Ht Ha He. apply (op_spec t op Ht) in Ha. unfold wp in Ha. rewrite He in Ha. destruct Ha as [Ht' _]. by rewrite (to_slots _ Ht), (to_slots _ Ht').
Qed.

Lemma quiet_issues_none op t o t' : op_quiet op → exec_op op t = Done (o, t') → o = None.
Proof.
  assert (∀ A (m : PT A), (_ ← m; mret None) t = Done (o, t') → o = None) as H.
  { intros A m H. unfold mbind, M_bind in H. destruct (m t) as [[a t1]|]; [by injection H|done]. }
  intros Hq He. destruct op; [done|by eapply H..].
Qed.

Lemma young_step ids t op o t' :
  table_ok t → young ids t → 2 * Z.of_nat (length (option_list o ++ ids)) <= u32_max → allowed t op → exec_op op t = Done (o, t') →
  young (option_list o ++ ids) t'.
Proof.
  intros Ht Hy Hn Ha He. pose proof (stepped_length _ _ _ _ Ht Ha He) as Hlen. apply (op_spec t op Ht) in Ha. unfold wp in Ha.
  rewrite He in Ha. destruct Ha as [_ Hi]. assert (op_quiet op ∨ ∃ s parent fds cwd cpu, op = OpAllocate s parent fds cwd cpu) as [Hq|(s & parent & fds & cwd & cpu & ->)].
  { destruct op; [right; eauto 10|by left..]. }
  - pose proof (quiet_issues_none _ _ _ _ Hq He) as ->. eapply young_quiet; [exact Ht|exact Hy|exact Hn|by eapply op_stepped|exact Hi|exact Hlen].
  - destruct (allocate_stepped _ _ _ _ _ _ _ _ He) as [[-> ->]|(i & old & Hold & -> & Hs)]; [done|]. rewrite length_app in Hn. simpl in Hn.
    apply (young_allocate _ _ _ _ _ _ Ht Hy) with (2 := Hold) (3 := Hs); [lia|done|exact Hi].
Qed.

Lemma young_new : young [] process_table_new.
Proof.
  assert (∀ i s, pt_slots process_table_new !! i = Some s → s = process_slot_free) as Hs by by intros i s [-> _]%lookup_replicate.
  split; [by intros i s ->%Hs|by intros i s ->%Hs|by intros pid ?%elem_of_nil| |by constructor].
  intros pid [p Hp]. apply pt_slot_Some in Hp as [Hp Hl]. apply Hs in Hp. by injection Hp as _ ->.
Qed.


Lemma history_young ids t : history process_table_new ids t → 2 * Z.of_nat (length ids) <= u32_max → young ids t.
Proof.
  induction 1 as [|ids t op o t' Hh IH Ha He]; intros Hn; [apply young_new|].
  assert (2 * Z.of_nat (length ids) <= u32_max) by (rewrite length_app in Hn; lia).
  eapply young_step; [by apply (history_ok _ _ _ table_new_ok Hh)|auto|done|exact Ha|exact He].
Qed.

Lemma history_app t0 ids t ids' t' : history t0 ids t → history t ids' t' → history t0 (ids' ++ ids) t'.
Proof. intros H0. induction 1; [done|]. rewrite <-app_assoc. by econstructor. Qed.

Lemma dead_stays_dead ids t ids' t' pid :
  history process_table_new ids t → history t ids' t' → 2 * Z.of_nat (length (ids' ++ ids)) <= u32_max →
  pid ∈ ids → pt_slot t pid = None → pt_slot t' pid = None.
Proof.
  intros H0 H1 Hn Hin Hdead. induction H1 as [|ids' t1 op o t2 H1 IH Ha He]; [done|].
  pose proof (history_app _ _ _ _ _ H0 H1) as H01. pose proof (history_app _ _ _ _ _ H0 (history_step _ _ _ _ _ _ H1 Ha He)) as H02.
  assert (pt_slot t1 pid = None) as H1dead by (apply IH; rewrite !length_app in *; lia).
  apply (op_spec t1 op) in Ha; [|by apply (history_ok _ _ _ table_new_ok H01)]. unfold wp in Ha. rewrite He in Ha. destruct Ha as [_ Hi].
  destruct o as [new|]; [|by apply Hi]. destruct Hi as (_ & _ & Hi). rewrite Hi; [done|]. intros ->.
  pose proof (y_nodup _ _ (history_young _ _ H02 Hn)) as Hnd. cbn [option_list app] in Hnd. apply NoDup_cons in Hnd as [Hnd _]. destruct Hnd. set_solver.
Qed.

(** ** Numbers *)

Lemma lor_shift g i : 0 <= g → 0 <= i < 4 → Z.lor (Z.shiftl g 2) i = g * 4 + i.
Proof.
  intros Hg Hi. assert (Z.land (Z.shiftl g 2) i = 0) as H0.
  { replace i with (Z.land i (Z.ones 2)) by (rewrite Z.land_ones by done; apply Z.mod_small; lia).
    rewrite Z.land_assoc, (Z.land_comm (Z.shiftl g 2)), <-Z.land_assoc, Z.land_ones, Z.shiftl_mul_pow2, Z.mod_mul by done. apply Z.land_0_r. }
  pose proof (Z.add_lor_land (Z.shiftl g 2) i) as H. rewrite H0, Z.shiftl_mul_pow2 in H by done. rewrite Z.shiftl_mul_pow2 by done. lia.
Qed.

(** ** A history: a parent, a child it waits for, and the next child *)

Definition history_fs : FsState := mkFsState [] (Some (mkMountedRamfs [] [mkRamDir [47] []])).
Definition parent_pid : ProcessId := mkProcessId 0 1.
Definition child_pid : ProcessId := mkProcessId 1 1.
Definition parent_thread : ThreadId := mkThreadId 3 1.
Definition child_thread : ThreadId := mkThreadId 4 7.
Definition parent_space : AddressSpaceId := mkAddressSpaceId 0x40001000 0%nat.
Definition child_space : AddressSpaceId := mkAddressSpaceId 0x40002000 0%nat.
Definition some_image : UserElfImage := mkUserElfImage 0 [].
Definition child_wait : WaitToken := mkWaitToken parent_thread 0%nat 5.

Definition first_ops : list table_op :=
  [OpAllocate history_fs None fdtable_new 0 0; OpAttach parent_pid parent_space some_image; OpBind parent_pid parent_thread parent_space;
   OpAllocate history_fs (Some parent_pid) fdtable_new 0 0; OpAttach child_pid child_space some_image; OpBind child_pid child_thread child_space;
   OpClaimChild parent_pid child_pid parent_thread; OpRegister child_pid child_wait].
Definition exit_ops : list table_op := [OpFinish child_pid (ExitedWith 3); OpClaimChild parent_pid child_pid parent_thread].
Definition next_ops : list table_op := [OpAllocate history_fs (Some parent_pid) fdtable_new 0 0].

Definition run_op (ids_t : list ProcessId * ProcessTable) (op : table_op) : list ProcessId * ProcessTable :=
  match exec_op op ids_t.2 with Done (o, t') => (option_list o ++ ids_t.1, t') | Panic _ => ids_t end.
Definition run_ops (t : ProcessTable) (ops : list table_op) : list ProcessId * ProcessTable := foldl run_op ([], t) ops.

Definition waiting_table : ProcessTable := Eval vm_compute in (run_ops process_table_new first_ops).2.
Definition reaped_table : ProcessTable := Eval vm_compute in (run_ops waiting_table exit_ops).2.
Definition reused_table : ProcessTable := Eval vm_compute in (run_ops reaped_table next_ops).2.

Lemma history_foldl t0 ops ids' t' : ∀ ids t,
  history t0 ids t → foldl run_op (ids, t) ops = (ids', t') →
  (∀ k op, ops !! k = Some op → let '(_, t1) := foldl run_op (ids, t) (take k ops) in allowed t1 op ∧ ∃ r, exec_op op t1 = Done r) → history t0 ids' t'.
Proof.
  induction ops as [|op ops IH]; intros ids t Hh Ht' Hops; [by injection Ht' as <- <-|]. destruct (Hops 0%nat op eq_refl) as [Ha [[o t1] Hr]].
  cbn [take foldl] in Ha, Hr. assert (run_op (ids, t) op = (option_list o ++ ids, t1)) as E by (unfold run_op; cbn [snd fst]; by rewrite Hr).
  cbn [foldl] in Ht'. rewrite E in Ht'. apply (IH _ _ (history_step _ _ _ _ _ _ Hh Ha Hr) Ht'). intros k op' Hk. specialize (Hops (S k) op' Hk). cbn [take foldl] in Hops. by rewrite E in Hops.
Qed.

(** Evaluates the table an operation starts from and finds its process. *)
Ltac allowed_here :=
  vm_compute;
  repeat match goal with
  | |- _ ∧ _ => split
  | |- ∃ r : _ * _, _ => eexists
  | |- ∃ p : Process, _ => eexists
  | |- ∃ th : ThreadId, _ => eexists
  | |- ∀ p : Process, _ => intros p [= <-]
  | |- True => exact I
  | |- None = None → _ => intros _ w [=]
  | |- Some _ = None → _ => intros [=]
  | |- _ => reflexivity
  end.

Lemma waiting_history : history process_table_new [child_pid; parent_pid] waiting_table.
Proof.
  apply (history_foldl process_table_new first_ops _ _ [] process_table_new (history_start _)); [vm_compute; reflexivity|].
  intros k op. do 8 (destruct k as [|k]; [intros [= <-]; solve [allowed_here]|]). done.
Qed.

Lemma reaped_history : history process_table_new [child_pid; parent_pid] reaped_table.
Proof.
  apply (history_app _ _ _ [] _ waiting_history).
  apply (history_foldl waiting_table exit_ops _ _ [] waiting_table (history_start _)); [vm_compute; reflexivity|].
  intros k op. do 2 (destruct k as [|k]; [intros [= <-]; solve [allowed_here]|]). done.
Qed.

Lemma reused_history : history reaped_table [mkProcessId 1 3] reused_table.
Proof.
  apply (history_foldl reaped_table next_ops _ _ [] reaped_table (history_start _)); [vm_compute; reflexivity|].
  intros [|k] op; [intros [= <-]; solve [allowed_here]|done].
Qed.

(** ** The claims *)

(** C11: the process table never goes wrong.  In every table that allowed
    operations reach, every allowed operation succeeds and the result is again
    well formed: a process is a zombie exactly when it has an exit status, and
    keeps its thread until it is reaped; a process with a thread owns an address
    space on the CPU of the process; a registered waiter is the claimed
    consumer; and the reverse index finds, for a thread, exactly the running
    process whose main thread it is, with no two processes sharing one. *)
Theorem process_table_safe ids t :
  history process_table_new ids t →
  (∀ op, allowed t op → ∃ o t', exec_op op t = Done (o, t')) ∧
  (∀ pid p, pt_slot t pid = Some p →
    is_Some (pr_owner_cpu p) ∧ (pr_state p = ProcZombie ↔ is_Some (pr_exit_status p)) ∧
    (pr_state p = ProcZombie → is_Some (pr_main_thread p)) ∧
    (∀ th, pr_main_thread p = Some th →
       ∃ a, im_address_space (rs_image (pr_resources p)) = Some a ∧ pr_owner_cpu p = Some (owner_cpu a)) ∧
    (∀ w, pr_waiter p = Some w → pr_consumer p = Some (wt_thread w)) ∧
    (∀ th, pr_main_thread p = Some th → pr_state p = ProcRunning →
       process_for_thread t th = Done (Some pid) ∧
       ∀ pid' p' th', pt_slot t pid' = Some p' → pr_main_thread p' = Some th' → pr_state p' = ProcRunning → tid_index th' = tid_index th → pid' = pid)) ∧
  (∀ th, (∀ pid p th', pt_slot t pid = Some p → pr_main_thread p = Some th' → pr_state p = ProcRunning → tid_index th' ≠ tid_index th) →
     process_for_thread t th = Done None).
Proof.
  intros Hh. apply history_ok in Hh as Ht; [|apply table_new_ok]. split; [|split].
  - intros op Ha. apply (op_spec t op Ht) in Ha. apply wp_run in Ha as (o & t' & ? & _). eauto.
  - intros pid p Hp. destruct (to_live _ Ht _ _ Hp) as [_ [P1 P2 P3 P4 P5]]. do 5 (split; [done|]). intros th Hm Hr.
    split; [by eapply process_for_thread_bound|]. intros pid' p' th' Hp' Hm' Hr' E. by eapply (main_unique t pid' pid p' p th' th).
  - intros th Hno. unfold process_for_thread. destruct (pt_owners t !! tid_index th) as [[pid|]|] eqn:E; [|done..].
    apply (to_index _ Ht) in E as (p & th' & Hp & Hm & Hi & Hr). by destruct (Hno pid p th' Hp Hm Hr).
Qed.

Lemma process_table_safe_witness :
  process_for_thread waiting_table parent_thread = Done (Some parent_pid) ∧
  ∃ o t', exec_op (OpFinish child_pid (ExitedWith 3)) waiting_table = Done (o, t').
Proof.
  destruct (process_table_safe _ _ waiting_history) as (Hop & Hslot & _). split.
  - destruct (pt_slot waiting_table parent_pid) as [p|] eqn:Hp; [|vm_compute in Hp; discriminate].
    destruct (Hslot parent_pid p Hp) as (_ & _ & _ & _ & _ & Hth). vm_compute in Hp. injection Hp as <-. by apply Hth.
  - apply Hop. allowed_here.
Defined.

(** C12: a process identity names at most one process.  As long as fewer than
    2^31 identities were issued, no identity is issued twice, only issued
    identities name processes, and one whose process was reaped or never started
    names nothing ever after, whatever operations follow. *)
Theorem pid_names_one_process ids t ids' t' :
  history process_table_new ids t → history t ids' t' → 2 * Z.of_nat (length (ids' ++ ids)) <= u32_max →
  NoDup (ids' ++ ids) ∧ (∀ pid p, pt_slot t' pid = Some p → pid ∈ ids' ++ ids) ∧
  ∀ pid, pid ∈ ids → pt_slot t pid = None → pt_slot t' pid = None.
Proof.
  intros H0 H1 Hn. destruct (history_young _ _ (history_app _ _ _ _ _ H0 H1) Hn) as [_ _ _ Y4 Y5]. split; [done|]. split.
  - intros pid p Hp. apply Y4. by eexists.
  - intros pid. by eapply dead_stays_dead.
Qed.

Lemma pid_names_one_process_witness :
  is_Some (pt_slot waiting_table child_pid) ∧ pt_slot reaped_table child_pid = None ∧ pt_slot reused_table child_pid = None ∧
  is_Some (pt_slot reused_table (mkProcessId 1 3)).
Proof.
  destruct (pid_names_one_process _ _ _ _ reaped_history reused_history) as (_ & _ & Hdead); [vm_compute; discriminate|].
  split; [vm_compute; by eexists|]. assert (pt_slot reaped_table child_pid = None) as H by (vm_compute; reflexivity). split; [exact H|].
  split; [apply Hdead; [left|exact H]|vm_compute; by eexists].
Defined.

(** The number of a process and its identity determine each other: a
    number decodes to an identity exactly when it is that identity's encoding,
    and exactly the identities a table can issue have one. *)
Theorem pid_raw_roundtrip raw pid :
  0 <= raw →
  pid_from_raw raw = Some pid ↔ raw = pid_as_raw pid ∧ (pid_index pid < MAX_PROCESSES)%nat ∧ 1 <= pid_generation pid <= u32_max.
Proof.
  intros Hraw. unfold pid_from_raw, pid_as_raw. change PROCESS_ID_INDEX_BITS with 2. change PROCESS_ID_INDEX_MASK with (Z.ones 2).
  rewrite Z.land_ones, Z.shiftr_div_pow2 by done. change (2 ^ 2) with 4. change (Z.of_nat MAX_PROCESSES) with 4.
  pose proof (Z.mod_pos_bound raw 4 ltac:(done)) as Hmod. pose proof (Z.div_mod raw 4 ltac:(done)) as Hdiv. split.
  - destruct (Z.eqb_spec raw 0); [done|]. destruct (Z.ltb_spec u32_max (raw / 4)); [done|]. destruct (Z.leb_spec 4 (raw mod 4)); [done|].
    destruct (Z.eqb_spec (raw / 4) 0); [done|]. intros [= <-]. cbn [pid_index pid_generation orb]. rewrite Z2Nat.id, lor_shift by lia.
    split; [lia|]. split; [unfold MAX_PROCESSES; lia|]. pose proof (Z.div_pos raw 4 Hraw ltac:(done)). lia.
  - destruct pid as [i g]. cbn [pid_index pid_generation]. intros (-> & Hi & Hg). unfold MAX_PROCESSES in Hi. rewrite lor_shift by lia.
    rewrite (Z.add_comm (g * 4)), Z.mod_add, Z.div_add, Z.mod_small, Z.div_small by lia.
    destruct (Z.eqb_spec (Z.of_nat i + g * 4) 0); [lia|]. rewrite Z.add_0_l. destruct (Z.ltb_spec u32_max g); [lia|].
    destruct (Z.leb_spec 4 (Z.of_nat i)); [lia|]. destruct (Z.eqb_spec g 0); [lia|]. cbn [orb]. by rewrite Nat2Z.id.
Qed.

Lemma pid_raw_roundtrip_witness : pid_from_raw 13 = Some (mkProcessId 1 3) ∧ pid_as_raw (mkProcessId 1 3) = 13.
Proof.
  destruct (pid_raw_roundtrip 13 (mkProcessId 1 3) ltac:(done)) as [_ H]. split; [apply H|reflexivity].
  split; [reflexivity|]. split; [vm_compute; lia|]. split; vm_compute; discriminate.
Defined.
