(* ===== verification/ForkSpec.v ===== *)
(** * What fork does to memory

    The child's address space, image and stack: built from frames of their own,
    with the bytes and rights the parent has at every address of its segments
    and its stack. *)

From stdpp Require Import gmap sorting.
From S2P Require Import Prelude Types Wait Context Vm MemMap MemMapSpec FrameAlloc FrameSpec MemInit PageTable PageTableSpec AddressSpace Sched.
From S2P Require Import PhysMem UserCopy UserAccess UserSafety UserImage FrameRuns ImageSafety Ramfs PathRes FdTable ExecStack ExecRead.
From S2P Require Import World Transition Handoff Staging StageSafety CloneSpec Process ProcessOps ProcSpec.
#[local] Open Scope Z_scope.

(** ** What a process sees *)

(** The byte at a user address, and whether it can be written and executed. *)
Definition view (m : Mmu) (r a : Z) : option (Z * bool * bool) :=
  i ← query_user_mapping (memory m) r a; Some (load_byte (memory m) (um_pa i), um_writable i, um_executable i).

Lemma run_at_view m r va start n flags h a :
  run_at m r va start n flags h → in_run va n a → view m r a = Some (h (a - va), flags_contain flags USER_WRITE, flags_contain flags USER_EXECUTE).
Proof.
  intros [Hq Hh] Ha. unfold view. rewrite (Hq a Ha). cbn [mbind option_bind run_info um_pa um_writable um_executable].
  rewrite Hh; [done|]. unfold in_run in Ha. lia.
Qed.

(** The space [r] maps the frames of a run at [va], and they are not the
    allocator's. *)
Record user_run (m : Mmu) (pool : gset Z) (r va start : Z) (n : nat) (flags : Z) : Prop := {
  ur_run : run_ok m start n;
  ur_apart : run_set start n ## pool;
  ur_place : mappable va n;
  ur_mapped : ∀ a, in_run va n a → query_user_mapping (memory m) r a = Some (run_info start flags va a)
}.

Definition user_segment (m : Mmu) (pool : gset Z) (r : Z) (s : UserElfSegment) : Prop :=
  ∃ start n, seg_run s start n ∧ user_run m pool r (sg_va s) start n (sg_flags s).

Definition user_stack (m : Mmu) (pool : gset Z) (r : Z) (s : OwnedUserStack) : Prop :=
  ∃ start n, stack_frames s = run_range start n ∧ us_size s = Z.of_nat n * PAGE_SIZE ∧ user_run m pool r (us_base s) start n USER_WRITE.

(** The addresses of a program and its stack. *)
Definition user_address (image : UserElfImage) (stack : OwnedUserStack) (a : Z) : Prop :=
  (∃ s, s ∈ ui_segments image ∧ in_seg s a) ∨ us_base stack <= a < us_base stack + us_size stack.

(** The memory of a process: its segments and its stack in the space [r], and
    nothing else. *)
Record user_memory (m : Mmu) (spaces pool : gset Z) (r : Z) (image : UserElfImage) (stack : OwnedUserStack) : Prop := {
  um_space : r ∈ spaces;
  um_segments : Forall (user_segment m pool r) (ui_segments image);
  um_stack : user_stack m pool r stack;
  um_owned : segs_ok m (ui_segments image);
  um_disjoint : ∀ start n, stack_frames stack = run_range start n → run_set start n ## segs_set (ui_segments image);
  um_only : ∀ a, 0 <= a → is_Some (query_user_mapping (memory m) r a) → user_address image stack a
}.

(** The frames of a stack. *)
Definition stack_set (s : OwnedUserStack) : gset Z := run_set (us_frames s).1 (Z.to_nat (us_size s / PAGE_SIZE)).

(** The frames a program owns. *)
Definition owned_frames (image : UserElfImage) (stack : OwnedUserStack) : gset Z := stack_set stack ∪ segs_set (ui_segments image).

(** A user address leads to a frame of the program. *)
Lemma user_frame m spaces pool r image stack a pa :
  user_memory m spaces pool r image stack → 0 <= a → translate_user_va (memory m) r a = Some pa →
  align_down pa PAGE_SIZE ∈ owned_frames image stack.
Proof.
  intros [_ M2 M3 _ _ M6] Ha Ht. unfold translate_user_va in Ht. destruct (query_user_mapping (memory m) r a) as [i|] eqn:Hq; [|done].
  injection Ht as <-. unfold owned_frames. apply elem_of_union. destruct (M6 a Ha ltac:(by eexists)) as [(sg & Hsg & Hin)|Hin].
  - right. rewrite Forall_forall in M2. destruct (M2 sg Hsg) as (start & n & Hs & [R1 _ _ R4]). pose proof Hs as [_ E2].
    rewrite R4 in Hq by (unfold in_run, in_seg in *; lia). injection Hq as <-. cbn [um_pa run_info].
    eapply seg_set_sub; [exact Hsg|]. rewrite (seg_set_run _ _ _ Hs). apply elem_of_page_set, run_page; [by destruct (run_first _ _ _ R1)|unfold in_seg in Hin; lia].
  - left. destruct M3 as (start & n & E1 & E2 & [R1 _ _ R4]). rewrite R4 in Hq by (unfold in_run; lia). injection Hq as <-. cbn [um_pa run_info].
    assert (stack_set stack = run_set start n) as -> by (unfold stack_set; rewrite E2, Z.div_mul, Nat2Z.id by done; by injection E1 as -> _).
    apply elem_of_page_set, run_page; [by destruct (run_first _ _ _ R1)|lia].
Qed.

Lemma segs_apart m pool r segs : Forall (user_segment m pool r) segs → segs_set segs ## pool.
Proof.
  intros Hf f Hf1 Hf2. apply elem_of_union_list in Hf1 as (Y & HY & Hf1). apply list_elem_of_fmap in HY as (sg & -> & Hsg).
  rewrite Forall_forall in Hf. destruct (Hf sg Hsg) as (start & n & Hs & [_ Hd _ _]). rewrite (seg_set_run _ _ _ Hs) in Hf1. by eapply Hd.
Qed.

Lemma owned_apart m spaces pool r image stack : user_memory m spaces pool r image stack → owned_frames image stack ## pool.
Proof.
  intros [_ M2 (start & n & E1 & E2 & [_ R2 _ _]) _ _ _]. unfold owned_frames, stack_set. rewrite E2, Z.div_mul, Nat2Z.id by done.
  pose proof (segs_apart _ _ _ _ M2) as Hs. assert ((us_frames stack).1 = start) as -> by (by injection E1 as -> _). set_solver.
Qed.

(** The program's frames depend on the tables alone. *)
Lemma user_memory_kept m m' spaces spaces' pool pool' r image stack :
  kept m m' → spaces_kept spaces m m' → r ∈ spaces' → pool' ⊆ pool → user_memory m spaces pool r image stack → user_memory m' spaces' pool' r image stack.
Proof.
  intros K Q Hr Hp [M1 M2 (b & n & M3 & M4 & [R1 R2 R3 R4]) M5 M6 M7].
  assert (∀ a, 0 <= a → query_user_mapping (memory m') r a = query_user_mapping (memory m) r a) as Hq by (intros a; by apply Q).
  split; [done| | |by eapply segs_ok_kept|done|].
  - eapply Forall_impl; [exact M2|]. intros sg (b' & n' & Hs & [S1 S2 S3 S4]). exists b', n'. split; [done|].
    split; [by eapply run_ok_kept|set_solver|done|]. intros a Ha. rewrite Hq; [by apply S4|]. destruct S3 as (? & _ & _). unfold in_run in Ha. lia.
  - exists b, n. split_and!; [done|done|]. split; [by eapply run_ok_kept|set_solver|done|]. intros a Ha. rewrite Hq; [by apply R4|].
    destruct R3 as (? & _ & _). unfold in_run in Ha. lia.
  - intros a Ha. rewrite Hq by done. by apply M7.
Qed.

(** No page of a program whose frames were the allocator's is a page of an
    older program. *)
Lemma programs_apart m0 m spaces spaces' pool pool' r0 r image stack image' stack' x y px py :
  user_memory m0 spaces pool r0 image stack → kept m0 m → spaces_kept spaces m0 m → user_memory m spaces' pool' r image' stack' →
  owned_frames image' stack' ⊆ pool → 0 <= x → 0 <= y → translate_user_va (memory m) r x = Some px → translate_user_va (memory m) r0 y = Some py →
  align_down px PAGE_SIZE ≠ align_down py PAGE_SIZE.
Proof.
  intros H0 K Q H1 Hsub Hx Hy Hpx Hpy E. apply (owned_apart _ _ _ _ _ _ H0 (align_down px PAGE_SIZE)).
  - rewrite E. eapply (user_frame m spaces pool r0); [|exact Hy|exact Hpy]. eapply user_memory_kept; [exact K|exact Q|apply H0|done|exact H0].
  - apply Hsub. eapply user_frame; [exact H1|exact Hx|exact Hpx].
Qed.

Lemma user_run_at m pool r va start n flags : user_run m pool r va start n flags → run_at m r va start n flags (run_bytes m start).
Proof. intros [_ _ _ Hq]. split; [done|]. by intros i Hi. Qed.

Lemma user_segment_source m pool r s : user_segment m pool r s → seg_source m pool s.
Proof. intros (start & n & Hs & [? ? ? ?]). exists start, n. by split_and!. Qed.

Lemma user_stack_source m pool r s : user_stack m pool r s → stack_source m pool s.
Proof. intros (start & n & E & Hs & [? ? ? ?]). exists start, n. by split_and!. Qed.

Lemma seg_clone_view m0 pool r0 r m s s' a :
  user_segment m0 pool r0 s → seg_clone m0 r m s s' → sg_va s <= a < sg_va s + sg_size s → view m r a = view m0 r0 a.
Proof.
  intros (start & n & [E1 E2] & Hrun) (start' & n' & _ & E3 & _ & Hat) Ha. assert (n' = n) as -> by (unfold PAGE_SIZE in *; lia).
  assert (in_run (sg_va s) n a) as Hin by (unfold in_run; lia). rewrite (run_at_view _ _ _ _ _ _ _ _ Hat Hin).
  rewrite (run_at_view _ _ _ _ _ _ _ _ (user_run_at _ _ _ _ _ _ _ Hrun) Hin). by rewrite E1.
Qed.

(** A step that leaves the frames of a run and the translations alone. *)
Lemma user_run_view_kept m m' spaces pool r va start n flags a :
  machine_ok m spaces pool → user_run m pool r va start n flags → r ∈ spaces → untouched (λ f, f ∈ pool) m m' → spaces_kept spaces m m' →
  in_run va n a → view m' r a = view m r a.
Proof.
  intros Hm Hrun Hr Ho Hq Ha. rewrite (run_at_view _ _ _ _ _ _ _ _ (user_run_at _ _ _ _ _ _ _ Hrun) Ha). destruct Hrun as [R1 R2 [R3 _] R4].
  apply (run_at_view m' r va start n flags); [|done]. split; [|by eapply (run_holds_kept m m' spaces pool)].
  intros b Hb. rewrite <-(R4 b Hb). apply Hq; [done|]. unfold in_run in Hb. lia.
Qed.

(** ** The child's memory *)

Record fork_memory (m0 : Mmu) (spaces pool : gset Z) (src_image : UserElfImage) (src_stack : OwnedUserStack)
    (r : Z) (image : UserElfImage) (stack : OwnedUserStack) (m : Mmu) : Prop := {
  fm_fresh : r ∉ spaces;
  fm_root : r ∈ pool;
  fm_entry : ui_entry image = ui_entry src_image;
  fm_segments : Forall2 (seg_clone m0 r m) (ui_segments src_image) (ui_segments image);
  fm_owned : segs_ok m0 (ui_segments image);
  fm_stack : ∃ start n, stack = mkOwnedUserStack (start, start + Z.of_nat n * PAGE_SIZE) (us_base src_stack) (us_size src_stack) ∧
    us_size src_stack = Z.of_nat n * PAGE_SIZE ∧ run_ok m0 start n ∧ run_set start n ## segs_set (ui_segments image) ∧
    run_at m r (us_base src_stack) start n USER_WRITE (run_bytes m0 (us_frames src_stack).1) ∧
    staging m0 spaces pool r (segs_set (ui_segments image) ∪ run_set start n) m;
  fm_only : ∀ a, 0 <= a → is_Some (query_user_mapping (memory m) r a) → user_address image stack a
}.

(** What a clone that failed had built. *)
Definition fork_partial (m0 : Mmu) (spaces pool : gset Z) (aspace : option Z) (image : option UserElfImage) (m : Mmu) : Prop :=
  match aspace with
  | None => image = None ∧ kept m0 m ∧ untouched (λ f, f ∈ pool) m0 m ∧ spaces_kept spaces m0 m ∧ machine_ok m spaces pool
  | Some r => (r ∉ spaces) ∧ r ∈ pool ∧ segs_ok m0 (image_segs image) ∧ staging m0 spaces pool r (segs_set (image_segs image)) m
  end.

Lemma segs_ok_none m : segs_ok m [].
Proof. split; [apply Forall_nil_2|apply SSorted_nil]. Qed.

Lemma seg_clones_kept m0 m m' spaces pool r src segs va start n flags :
  Forall2 (seg_clone m0 r m) src segs → segs_ok m0 segs → kept m0 m → machine_ok m spaces (pool ∖ segs_set segs) → r ∈ spaces →
  untouched (λ f, f ∈ pool ∖ segs_set segs) m m' → run_mapped spaces r va start n flags m m' → Forall2 (seg_clone m0 r m') src segs.
Proof.
  intros Hf Hs K Hm Hr Ho Hmap. apply Forall2_same_length_lookup_2; [by eapply Forall2_length|]. intros i s1 s2 Hi1 Hi2.
  destruct (Forall2_lookup_lr _ _ _ _ _ _ Hf Hi1 Hi2) as (st & k & -> & Ek & Hk0 & Hat). exists st, k. split_and!; [done|done|done|].
  apply list_elem_of_lookup_2 in Hi2. destruct (clone_run _ _ _ _ _ _ _ Hs Hi2 Ek) as [Hrk Hsk].
  eapply (run_at_kept m m'); [done|by eapply run_ok_kept|set_solver|done|exact Hmap|done|done|done].
Qed.

Section clone.
Context (reserve : nat → bool) (m0 : Mmu) (spaces pool : gset Z) (snapshot : ForkSnapshot) (rp : Z).
Hypothesis Hm0 : machine_ok m0 spaces pool.
Hypothesis Hranges : ranges_ok m0.
Hypothesis Hparent : user_memory m0 spaces pool rp (fk_user_image snapshot) (fk_stack snapshot).

Definition clone_post (res : (Z * UserElfImage * OwnedUserStack) + (option Z * option UserElfImage * Errno)) (m' : Mmu) : Prop :=
  match res with
  | inl (r, image, stack) => fork_memory m0 spaces pool (fk_user_image snapshot) (fk_stack snapshot) r image stack m'
  | inr (aspace, image, e) => fork_partial m0 spaces pool aspace image m'
  end.

Lemma source_kept m1 s : kept m0 m1 → seg_source m0 pool s → seg_source m1 pool s.
Proof. intros K (start & n & H1 & H2 & H3 & H4). exists start, n. split_and!; [done|by eapply run_ok_kept|done|done]. Qed.

(** The frames of the source are not the allocator's: creating the space and
    cloning other runs leave their bytes alone. *)
Lemma clone_bytes_kept m1 start n i :
  run_ok m0 start n → run_set start n ## pool → untouched (λ f, f ∈ pool) m0 m1 → 0 <= i < Z.of_nat n * PAGE_SIZE →
  run_bytes m1 start i = run_bytes m0 start i.
Proof. intros. by eapply (run_bytes_kept m0 m1). Qed.

Lemma seg_clone_from m1 r m s s' :
  seg_source m0 pool s → untouched (λ f, f ∈ pool) m0 m1 → seg_clone m1 r m s s' → seg_clone m0 r m s s'.
Proof.
  intros (st & k & [E1 E2] & Hrun & Hd & _) Ho (start & n & -> & En & H0 & Hq & Hh). exists start, n. split_and!; [done|done|done|]. split; [done|].
  intros i Hi. rewrite (Hh i Hi). rewrite E1. cbn [r_start]. apply (clone_bytes_kept m1 st k); [done|done|done|].
  assert (k = n) as -> by (unfold PAGE_SIZE in *; lia). done.
Qed.

Lemma clone_stack_tail m1 m2 r image :
  kept m0 m1 → untouched (λ f, f ∈ pool) m0 m1 → same_queries spaces m0 m1 → r ∉ spaces → r ∈ pool →
  (∀ a, query_user_mapping (memory m1) r a = None) → ui_entry image = ui_entry (fk_user_image snapshot) →
  image_cloned m1 ({[r]} ∪ spaces) pool r (ui_segments (fk_user_image snapshot)) (ui_segments image) m2 →
  wp (rr ← map_error fork_vm_errno (user_stack_clone_into (fk_stack snapshot) r);
      mret (match rr with inr e => inr (Some r, Some image, e) | inl stack => inl (r, image, stack) end)) clone_post m2.
Proof.
  intros K1 O1 Q1 Hfresh Hpool Hnone Hen Hic. pose proof Hparent as [Prp Psegs Pst _ _ _]. pose proof Hic as [I1 I2 I3 I4 I5 I6 I7 I8].
  pose proof (kept_trans _ _ _ K1 I1) as K2. assert (untouched (λ f, f ∈ pool) m0 m2) as O2 by (eapply untouched_trans; [|exact O1|exact I2]; done).
  assert (spaces_kept spaces m0 m2) as S2.
  { eapply spaces_kept_trans; [by eapply queries_spaces|]. by eapply others_spaces. }
  assert (segs_ok m0 (ui_segments image)) as Hso by (eapply (segs_ok_kept m1); [by apply kept_sym|done]).
  assert (staging m0 spaces pool r (segs_set (ui_segments image)) m2) as Hst by by split.
  assert (Forall2 (seg_clone m0 r m2) (ui_segments (fk_user_image snapshot)) (ui_segments image)) as Hcl.
  { apply Forall2_same_length_lookup_2; [by eapply Forall2_length|]. intros i s1 s2 Hi1 Hi2. eapply (seg_clone_from m1); [|done|by eapply Forall2_lookup_lr].
    eapply user_segment_source. rewrite Forall_forall in Psegs. eapply Psegs, list_elem_of_lookup_2, Hi1. }
  destruct (user_stack_source _ _ _ _ Pst) as (st & n & E1 & E2 & Hrun & Hd & Hmp).
  assert (stack_source m2 (pool ∖ segs_set (ui_segments image)) (fk_stack snapshot)) as Hss.
  { exists st, n. split_and!; [done|done|by eapply run_ok_kept|set_solver|done]. }
  apply wp_bind, wp_map_error. eapply wp_mono; [apply (clone_stack_spec m2 ({[r]} ∪ spaces) (pool ∖ segs_set (ui_segments image)) r (fk_stack snapshot) I5);
    [by eapply ranges_ok_kept|apply in_new|done]|].
  intros [stack|e] m3 (K3 & O3 & Hres); apply wp_ret; cbn [clone_post].
  - destruct Hres as (start' & n' & -> & En & Hc). pose proof Hc as [C1 C2 C3 C4 C5]. assert (n' = n) as -> by (unfold PAGE_SIZE in *; lia).
    split; [done|done|done| |done| |].
    + eapply (seg_clones_kept m0 m2 m3); [exact Hcl|done|done|exact I5|apply in_new|done|exact C4].
    + exists start', n. split_and!; [done|done|eapply run_ok_kept; [apply kept_sym; by eapply kept_trans|done]|set_solver| |].
      * destruct (cloned_at _ _ _ _ _ _ _ _ _ _ Hc) as [Hq Hh]. split; [done|]. intros i Hi. rewrite (Hh i Hi).
        assert ((us_frames (fk_stack snapshot)).1 = st) as -> by (injection E1 as -> _; done). by apply (clone_bytes_kept m2 st n).
      * eapply staging_step; [exact Hst|done|done|by eapply mapped_spaces|done|done].
    + intros a Ha Hq. unfold user_address. cbn [us_base us_size].
      destruct (decide (us_base (fk_stack snapshot) <= a < us_base (fk_stack snapshot) + us_size (fk_stack snapshot))) as [Hin|Hout]; [by right|left].
      rewrite (proj2 C4 r a) in Hq; [|apply in_new|done|intros [_ Hx]; unfold in_run in Hx; lia].
      destruct (decide (Exists (λ s, in_seg s a) (ui_segments image))) as [Hex%Exists_exists|Hn]; [done|].
      rewrite (I8 a Ha), Hnone in Hq; [by destruct Hq|]. by rewrite <-Exists_exists.
  - destruct Hres as [Hm3 Hq]. split_and!; [done|done|done|]. rewrite <-(union_empty_r_L (segs_set _)).
    eapply staging_step; [exact Hst|done|done|by eapply others_spaces|apply empty_subseteq|by rewrite difference_empty_L].
Qed.

Lemma clone_process_spec : wp (clone_process reserve snapshot) clone_post m0.
Proof.
  pose proof Hparent as [Prp Psegs Pst _ _ _]. apply wp_bind, wp_map_error. eapply wp_mono; [by apply create_machine|].
  intros [r|e] m1 (K1 & O1 & Q1 & Hres); cbv beta iota; [|apply wp_ret; split_and!; [done|done|done|by eapply queries_spaces|done]].
  destruct Hres as (Hfresh & Hpool & Hm1 & Hnone). apply wp_bind.
  eapply wp_mono; [apply (clone_image_spec reserve m1 ({[r]} ∪ spaces) pool r (fk_user_image snapshot) Hm1); [by eapply ranges_ok_kept|apply in_new|]|].
  { eapply Forall_impl; [exact Psegs|]. intros s Hs. by eapply source_kept, user_segment_source. }
  intros [image|e] m2 Hres; cbv beta iota; [destruct Hres as [Hen Hic]; by apply (clone_stack_tail m1)|].
  destruct Hres as (K2 & O2 & Hm2 & Hq). apply wp_ret. split; [done|]. split; [done|]. split; [apply segs_ok_none|].
  split; [by eapply kept_trans|eapply untouched_trans; [|exact O1|exact O2]; done| |apply empty_subseteq|unfold segs_set; simpl; by rewrite difference_empty_L].
  eapply spaces_kept_trans; [by eapply queries_spaces|]. by eapply others_spaces.
Qed.
End clone.

(** ** A freshly built process *)

Lemma built_memory m0 m1 m2 spaces pool r data phs image size start n :
  loaded_ok m0 spaces pool r data phs (ui_segments image) m1 → (∀ a, 0 <= a → query_user_mapping (memory m0) r a = None) → r ∈ spaces → 0 < size <= USER_STACK_TOP →
  kept m1 m2 → untouched (λ f, f ∈ pool ∖ segs_set (ui_segments image)) m1 m2 → size = Z.of_nat n * PAGE_SIZE →
  run_ok m1 start n → run_set start n ⊆ pool ∖ segs_set (ui_segments image) →
  run_mapped spaces r (USER_STACK_TOP - size) start n USER_WRITE m1 m2 →
  user_memory m2 spaces (pool ∖ segs_set (ui_segments image) ∖ run_set start n) r image (mkOwnedUserStack (start, start + size) (USER_STACK_TOP - size) size).
Proof.
  intros Hlo Hnone Hr Hsz K O En Hrun Hsub Hmap. pose proof Hlo as [L1 _ L3 L4 L5 _ L7 L8]. pose proof (kept_trans _ _ _ L1 K) as K'. split; [done| | | | |].
  - apply Forall_forall. intros sg Hsg. destruct (L7 sg Hsg) as (ph & b & k & _ & _ & -> & [_ _ [W1 W2] _ _] & Hat).
    destruct (loaded_seg_runs _ _ _ _ _ _ _ _ _ _ _ _ Hlo Hsg eq_refl) as [Hrk Hdk]. exists b, k. split; [apply seg_of_run|].
    assert (0 <= seg_start ph) as H0 by (unfold USER_TEXT_BASE in *; lia).
    destruct (seg_at_kept m1 m2 _ _ _ _ _ _ _ _ _ _ _ L5 Hrk Hdk O Hmap Hr H0 Hat) as [Hq _].
    split; [exact (run_ok_kept m1 m2 _ _ K Hrk)|set_solver| |done]. cbn [sg_va seg_of]. split_and!; [done|apply align_down_spec|unfold USER_STACK_TOP, u64_max in *; lia].
  - exists start, n. rewrite En. split; [done|]. split; [done|]. cbn [us_base]. split; [exact (run_ok_kept m1 m2 _ _ K Hrun)|set_solver| |].
    + split_and!; [lia| |unfold USER_STACK_TOP, u64_max in *; lia].
      change USER_STACK_TOP with (0x8000000 * PAGE_SIZE). rewrite <-Z.mul_sub_distr_r. by apply Z.mod_mul.
    + intros x Hx. rewrite <-En in *. by apply Hmap.
  - exact (segs_ok_kept m0 m2 _ K' L3).
  - intros start' n' E'. injection E' as <- E'. assert (n' = n) as -> by (unfold PAGE_SIZE in *; lia). set_solver.
  - intros a Ha Hq. destruct (built_only m0 m1 m2 spaces pool r data phs (ui_segments image) _ start n USER_WRITE a Hlo Hnone Hr Hmap Ha Hq) as [?|Hin]; [by left|right].
    cbn [us_base us_size]. unfold in_run in Hin. lia.
Qed.
