(* ===== verification/ProcKernel.v ===== *)
(** * Processes on the whole machine: fork

    The invariant that ties the scheduler, the process table and memory
    together, and what [fork] does to all three. *)

From stdpp Require Import gmap sorting.
From S2P Require Import Prelude Types Wait TimeConv Deadline Preempt Context Time MemMap MemMapSpec FrameAlloc FrameSpec MemInit.
From S2P Require Import PageTable PageTableSpec AddressSpace PhysMem UserCopy UserImage FrameRuns ImageSafety Ramfs PathRes FdTable ExecStack.
From S2P Require Import Vm Sched World Transition Handoff CpuInv SchedInv Switch Lifecycle TransitionSpec LifecycleSpec WorldInv TimeSpec.
From S2P Require Import SwitchSpec WakeSpec Frames EntrySpec BlockSpec JoinSpec ThreadSpec SpawnSpec.
From S2P Require Import Staging StageSafety CloneSpec Process ProcessOps ProcSpec ForkSpec.

(** ** Running on one part of the state *)

Lemma wp_on_world {A} E (m : W A) Q w t mm :
  wp m (λ a w', Q a (mkKernel w' t (set_mm_ttbr0 (user_ttbr0 E w') mm))) w → wp (on_world E m) Q (mkKernel w t mm).
Proof. unfold wp, on_world. cbn [k_world]. by destruct (m w) as [[a w']|]. Qed.

(** TTBR0 holds the root the executing CPU has installed. *)
Definition synced (E : Env) (w : World) (mm : Mmu) : Prop := mm_ttbr0 mm = user_ttbr0 E w.

Lemma set_synced E w mm : synced E w mm → set_mm_ttbr0 (user_ttbr0 E w) mm = mm.
Proof. intros <-. by destruct mm. Qed.

Lemma user_ttbr0_vm E w w' : w_vm w' = w_vm w → user_ttbr0 E w' = user_ttbr0 E w.
Proof. unfold user_ttbr0. by intros ->. Qed.

Lemma synced_kept E w w' mm mm' : w_vm w' = w_vm w → kept mm mm' → synced E w mm → synced E w' mm'.
Proof.
  intros Hv Hk Hs. unfold synced. rewrite (user_ttbr0_vm E w w' Hv), <-Hs. unfold kept, settings in Hk. by injection Hk as _ -> _ _ _.
Qed.

(** A scheduler operation that leaves the address spaces alone. *)
Lemma wp_on_world_aside {A} E (m : W A) Q w t mm :
  synced E w mm → wp m (λ a w', w_vm w' = w_vm w ∧ Q a (mkKernel w' t mm)) w → wp (on_world E m) Q (mkKernel w t mm).
Proof.
  intros Hs H. apply wp_on_world. eapply wp_mono; [exact H|]. intros a w' [Hv HQ]. by rewrite (user_ttbr0_vm E w w' Hv), set_synced.
Qed.

Lemma wp_on_procs {A} (m : PT A) Q w t mm : wp m (λ a t', Q a (mkKernel w t' mm)) t → wp (on_procs m) Q (mkKernel w t mm).
Proof. unfold wp, on_procs. cbn [k_procs]. by destruct (m t) as [[a t']|]. Qed.

Lemma wp_on_mmu {A} (m : K A) Q w t mm : wp m (λ a mm', Q a (mkKernel w t mm')) mm → wp (on_mmu m) Q (mkKernel w t mm).
Proof. unfold wp, on_mmu. cbn [k_mmu]. by destruct (m mm) as [[a mm']|]. Qed.

(** ** The invariant *)

Record kernel_inv (E : Env) (N : nat) (spaces pool : gset Z) (k : Kernel) : Prop := {
  ki_world : kernel_ok N (k_world k);
  ki_table : table_ok (k_procs k);
  ki_machine : machine_ok (k_mmu k) spaces pool;
  ki_ranges : ranges_ok (k_mmu k);
  ki_ttbr : synced E (k_world k) (k_mmu k);
  ki_roots : ∀ tid t r, live (w_sched (k_world k)) tid t → thread_root t = Some r → r ∈ spaces;
  ki_installed : ∀ c u, w_vm (k_world k) !! c = Some u → installed u = NO_ACTIVE_USER_ROOT ∨ installed u ∈ spaces;
  ki_unique : ∀ tid1 t1 tid2 t2 r, live (w_sched (k_world k)) tid1 t1 → live (w_sched (k_world k)) tid2 t2 →
    thread_root t1 = Some r → thread_root t2 = Some r → tid1 = tid2;
  ki_bound : ∀ pid p th, pt_slot (k_procs k) pid = Some p → pr_state p = ProcRunning → pr_main_thread p = Some th →
    ∃ t u, live (w_sched (k_world k)) th t ∧ t_user t = Some u ∧ im_address_space (rs_image (pr_resources p)) = Some (ur_address_space u)
}.

Lemma pool_root_valid m spaces pool r : machine_ok m spaces pool → r ∈ pool → r ≠ NO_ACTIVE_USER_ROOT.
Proof. intros (T & l & Hm & _) Hr. destruct (mk_frames _ _ _ _ Hm r Hr) as [[[_ Hlt] _] _]. unfold NO_ACTIVE_USER_ROOT, u64_max. lia. Qed.

(** A root the kernel does not use yet. *)
Lemma fresh_root_free E N spaces pool k r h :
  kernel_inv E N spaces pool k → r ∉ spaces → r ∈ pool → root_free (w_sched (k_world k)) (w_vm (k_world k)) h r.
Proof.
  intros [_ _ Hm _ _ Hroots Hinst _ _] Hr Hp. pose proof (pool_root_valid _ _ _ _ Hm Hp) as Hv. split; [done| |].
  - intros tid t Hl Ht. destruct Hr. by eapply Hroots.
  - intros c u Hu Eu. destruct (Hinst c u Hu) as [?|?]; [congruence|]. destruct Hr. by rewrite <-Eu.
Qed.

Lemma fresh_root_inactive E N spaces pool k r :
  kernel_inv E N spaces pool k → r ∉ spaces → r ∈ pool → existsb (λ c, (installed c =? r)%Z) (w_vm (k_world k)) = false.
Proof.
  intros Hk Hr Hp. destruct (existsb _ _) eqn:Eu; [|done]. apply existsb_exists in Eu as (u & Hu & Eu). apply Z.eqb_eq in Eu.
  apply list_elem_of_In, list_elem_of_lookup in Hu as [c Hu]. destruct (ki_installed _ _ _ _ _ Hk c u Hu) as [H|H].
  - by destruct (pool_root_valid _ _ _ _ (ki_machine _ _ _ _ _ Hk) Hp); congruence.
  - destruct Hr. by rewrite <-Eu.
Qed.

Lemma space_frame m spaces pool r : machine_ok m spaces pool → r ∈ spaces → table_frame r ∧ r ∈ pool.
Proof.
  intros (T & l & Hm & Hl) Hr%Hl. assert (r ∈ pool) as Hp by (apply (mk_pool _ _ _ _ Hm); right; by eexists).
  split; [apply (mk_frames _ _ _ _ Hm r Hp)|done].
Qed.

(** The root in TTBR0 is none or one of the address spaces. *)
Lemma current_root_space E N spaces pool k :
  kernel_inv E N spaces pool k → current_root (k_mmu k) ∈ pool → current_root (k_mmu k) ∈ spaces.
Proof.
  intros [_ _ Hm _ Hs _ Hinst _ _]. unfold current_root. rewrite Hs. unfold user_ttbr0.
  assert (Z.land 0 DESC_ADDR_MASK ∈ pool → Z.land 0 DESC_ADDR_MASK ∈ spaces) as H0.
  { intros Hp. destruct Hm as (T & l & Hm & _). destruct (mk_frames _ _ _ _ Hm _ Hp) as [[[H0 _] _] _]. rewrite Z.land_0_l in H0. lia. }
  destruct (w_vm (k_world k) !! e_cpu E) as [u|] eqn:Hu; [|done]. destruct (Z.eqb_spec (installed u) NO_ACTIVE_USER_ROOT) as [|Hne]; [done|].
  destruct (Hinst _ _ Hu) as [?|Hin]; [done|]. destruct (space_frame _ _ _ _ Hm Hin) as [Hf _]. by rewrite (land_addr_mask _ (table_page_frame _ Hf)).
Qed.

(** A slot without a thread is not the main thread of a process. *)
Lemma free_slot_unbound E N spaces pool k i slot :
  kernel_inv E N spaces pool k → table_slots (w_sched (k_world k)) !! i = Some slot → sl_thread slot = None →
  pt_owners (k_procs k) !! i = Some None.
Proof.
  intros Hk Hs Hn. pose proof (ki_table _ _ _ _ _ Hk) as Ht.
  assert (i < length (pt_owners (k_procs k)))%nat as Hlt.
  { rewrite (to_owners _ Ht). apply lookup_lt_Some in Hs. pose proof (sh_capacity _ _ (so_shape _ _ _ (wo_sched _ _ _ (ko_world _ _ _ (ki_world _ _ _ _ _ Hk))))). lia. }
  apply lookup_lt_is_Some in Hlt as [[pid|] Ho]; [|done]. apply (to_index _ Ht) in Ho as (p & th & Hp & Hm & Hi & Hr).
  destruct (ki_bound _ _ _ _ _ Hk pid p th Hp Hr Hm) as (t & _ & Hl & _). apply live_slot in Hl as (slot' & Hs' & _ & Hth).
  rewrite Hi, Hs in Hs'. injection Hs' as <-. congruence.
Qed.

(** ** Undoing a fork that failed *)

(** [drop_staged], one operation at a time. *)
Lemma wp_drop_parts r image stack (destroy : P (unit + VmError)) (rest : P unit) Q w t mm :
  (∀ Q' mm', wp (on_mmu (destroy_staged_user_address_space r)) Q' (mkKernel w t mm') → wp destroy Q' (mkKernel w t mm')) →
  wp (drop_staged r image stack) (λ _ mm', wp rest Q (mkKernel w t mm')) mm →
  wp (match image with Some i => on_mmu (free_loaded_segments i) | None => mret tt end;;
      match stack with Some s => on_mmu (user_stack_drop s) | None => mret tt end;;
      (_ ← destroy; mret tt);; rest) Q (mkKernel w t mm).
Proof.
  intros Hdestroy H. apply wp_bind_inv in H. apply wp_bind.
  assert (wp (match image with Some i => on_mmu (free_loaded_segments i) | None => mret tt end)
    (λ _ k, ∃ mm1, k = mkKernel w t mm1 ∧ wp (match stack with Some s => user_stack_drop s | None => mret tt end;;
        destroy_staged_user_address_space r;; mret tt) (λ _ mm', wp rest Q (mkKernel w t mm')) mm1) (mkKernel w t mm)) as H1.
  { destruct image; [apply wp_on_mmu; (eapply wp_mono; [exact H|]); intros []; eauto|apply wp_ret; exists mm; by split]. }
  eapply wp_mono; [exact H1|]. clear H H1. intros [] k (mm1 & -> & H). apply wp_bind_inv in H. apply wp_bind.
  assert (wp (match stack with Some s => on_mmu (user_stack_drop s) | None => mret tt end)
    (λ _ k, ∃ mm2, k = mkKernel w t mm2 ∧ wp (destroy_staged_user_address_space r;; mret tt) (λ _ mm', wp rest Q (mkKernel w t mm')) mm2) (mkKernel w t mm1)) as H2.
  { destruct stack; [apply wp_on_mmu; (eapply wp_mono; [exact H|]); intros []; eauto|apply wp_ret; exists mm1; by split]. }
  eapply wp_mono; [exact H2|]. clear H H2. intros [] k (mm2 & -> & H). apply wp_bind_inv in H. apply wp_bind, wp_bind, Hdestroy, wp_on_mmu.
  eapply wp_mono; [exact H|]. intros res mm3 H3. by apply wp_ret.
Qed.

(** Nothing of the machine changed but frames of the allocator that are free. *)
Definition undone (spaces pool : gset Z) (m0 m : Mmu) : Prop :=
  kept m0 m ∧ untouched (λ f, f ∈ pool) m0 m ∧ spaces_kept spaces m0 m ∧ machine_ok m spaces pool.

Lemma drop_staged_undone m0 spaces pool r m image stack X :
  staging m0 spaces pool r (segs_set (image_segs image) ∪ X) m → ranges_ok m0 → r ∉ spaces → current_root m0 ≠ r →
  segs_ok m0 (image_segs image) → stack_run stack X m0 → X ## segs_set (image_segs image) →
  wp (drop_staged r image stack) (λ _ m', undone spaces pool m0 m') m.
Proof.
  intros H1 H2 H3 H4 H5 H6 H7. pose proof (abandon_spec (A:=unit) m0 spaces pool r m image stack X EINVAL H1 H2 H3 H4 H5 H6 H7) as H.
  apply wp_bind_inv in H. eapply wp_mono; [exact H|]. intros a m' Hw. by destruct Hw as (_ & ? & ? & ? & ?).
Qed.

(** What a failed fork ends with. *)
Definition fork_undone (spaces pool : gset Z) (m0 : Mmu) (w : World) (t : ProcessTable) (child : ProcessId) (k : Kernel) : Prop :=
  k_world k = w ∧ table_ok (k_procs k) ∧ pt_owners (k_procs k) = pt_owners t ∧ updated t (k_procs k) child None ∧ undone spaces pool m0 (k_mmu k).

Lemma free_child_spec spaces pool m0 w t child q mm :
  table_ok t → pt_slot t child = Some q → pr_main_thread q = None → undone spaces pool m0 mm →
  wp (on_procs (free_process_slot child)) (λ _ k, fork_undone spaces pool m0 w t child k) (mkKernel w t mm).
Proof.
  intros Ht Hq Hm Hu. apply wp_on_procs. eapply wp_mono; [by eapply free_slot_spec|]. intros [] t' (? & ? & ?). by split_and!.
Qed.

Lemma fork_undone_from spaces pool m0 w t t1 child o k :
  updated t t1 child o → pt_owners t1 = pt_owners t → fork_undone spaces pool m0 w t1 child k → fork_undone spaces pool m0 w t child k.
Proof. intros Hu Ho (? & ? & E & Hu' & ?). split_and!; [done|done|congruence|by eapply updated_trans|done]. Qed.

(** Before the child owns anything. *)
Lemma drop_unattached_spec spaces pool m0 w t child q mm aspace image :
  table_ok t → pt_slot t child = Some q → pr_main_thread q = None → rs_image (pr_resources q) = image_resources_empty →
  ranges_ok m0 → (current_root m0 ∈ pool → current_root m0 ∈ spaces) →
  fork_partial m0 spaces pool aspace image mm →
  wp (drop_fork child aspace image None) (λ _ k, fork_undone spaces pool m0 w t child k) (mkKernel w t mm).
Proof.
  intros Ht Hq Hm He Hrg Hcur Hpart. apply wp_bind, wp_on_procs. eapply wp_mono; [by apply (take_image_spec t child q)|].
  intros attached t1 (-> & Ht1 & Ho1 & Hu1). rewrite He. cbn [im_user_image im_address_space image_resources_empty].
  pose proof (updated_at _ _ _ _ Hu1) as Hq1.
  assert (∀ mm', undone spaces pool m0 mm' → wp (on_procs (free_process_slot child)) (λ _ k, fork_undone spaces pool m0 w t child k) (mkKernel w t1 mm')) as Hfree.
  { intros mm' Hud. eapply wp_mono; [by apply (free_child_spec spaces pool m0 w t1 child _ mm' Ht1 Hq1)|].
    intros [] k Hk. by eapply fork_undone_from. }
  destruct aspace as [r|]; cbn [fork_partial] in Hpart.
  - destruct Hpart as (Hr & Hrp & Hs & Hst). assert (current_root m0 ≠ r) as Hne by (intros <-; by apply Hr, Hcur).
    assert (wp (drop_staged r image None) (λ _ m', undone spaces pool m0 m') mm) as Hd.
    { apply drop_staged_undone with ∅; try done. by rewrite union_empty_r_L. }
    destruct image as [i|]; [apply (wp_drop_parts r (Some i) None)|apply (wp_drop_parts r None None)]; [done| |done|]; (eapply wp_mono; [exact Hd|]); intros [] mm'; apply Hfree.
  - destruct Hpart as (-> & Hud). apply wp_bind, wp_ret, wp_bind, wp_ret, wp_bind, wp_ret. by apply Hfree.
Qed.

(** After the image was attached to the child. *)
Lemma drop_attached_spec spaces pool m0 w t child q mm a src_image src_stack image stack :
  table_ok t → pt_slot t child = Some q → pr_main_thread q = None → rs_image (pr_resources q) = mkImageResources (Some a) (Some image) →
  ranges_ok m0 → (current_root m0 ∈ pool → current_root m0 ∈ spaces) → existsb (λ c, (installed c =? root_pa a)%Z) (w_vm w) = false →
  fork_memory m0 spaces pool src_image src_stack (root_pa a) image stack mm →
  wp (drop_fork child None None (Some stack)) (λ _ k, fork_undone spaces pool m0 w t child k) (mkKernel w t mm).
Proof.
  intros Ht Hq Hm He Hrg Hcur Hinact [F1 F2 F3 F4 F5 (start & n & -> & Hn & Hrun & Hd & _ & Hst) _].
  apply wp_bind, wp_on_procs. eapply wp_mono; [by apply (take_image_spec t child q)|].
  intros attached t1 (-> & Ht1 & Ho1 & Hu1). rewrite He. cbn [im_user_image im_address_space].
  assert (current_root m0 ≠ root_pa a) as Hne by (intros H; apply F1; rewrite <-H; apply Hcur; by rewrite H).
  apply (wp_drop_parts (root_pa a) (Some image) (Some _)).
  { intros Q' mm' H. apply wp_bind, wp_gets. cbn [k_world]. by rewrite Hinact. }
  eapply wp_mono; [apply (drop_staged_undone m0 spaces pool (root_pa a) mm (Some image) _ (run_set start n)); try done; by exists start, n|].
  intros [] mm' Hud. eapply wp_mono; [apply (free_child_spec spaces pool m0 w t1 child _ mm' Ht1 (updated_at _ _ _ _ Hu1)); done|].
  intros [] k Hk. by eapply fork_undone_from.
Qed.

(** ** Fork *)

Lemma placed_changed here id gen tc rest sch slot :
  table_slots sch !! id = Some slot → sl_thread slot = None →
  thread_changed sch (placed_s here (mkThreadId id gen) tc rest sch) (mkThreadId id gen) (Some tc).
Proof.
  intros Hs Hn x. transitivity (table_get (fill_s id gen tc (set_free_slots rest sch)) x); [unfold placed_s; cbv zeta; by destruct (decide _)|].
  by rewrite (table_get_fill _ _ _ _ slot).
Qed.

Lemma placed_cur {N} here tid tc rest sch c :
  sched_ok N None sch → (here < KERNEL_CPU_CAPACITY)%nat → cur (placed_s here tid tc rest sch) c = cur sch c ∧ cs_online (cst (placed_s here tid tc rest sch) c) = cs_online (cst sch c).
Proof.
  intros Hs Hh. unfold placed_s. cbv zeta. destruct (decide _); [|done]. unfold cur, queue_local_s.
  rewrite cst_alter_cpu by (by apply (here_length Hs)). by destruct (decide (here = c)) as [<-|].
Qed.

(** The process that runs on the executing CPU. *)
Record calling (E : Env) (k : Kernel) (pid : ProcessId) (p : Process) (th : ThreadId) (t : Thread) (a : AddressSpaceId) (stack : OwnedUserStack) : Prop := {
  ca_current : cur (w_sched (k_world k)) (e_cpu E) = Some th;
  ca_online : cs_online (cst (w_sched (k_world k)) (e_cpu E)) = true;
  ca_thread : live (w_sched (k_world k)) th t;
  ca_user : t_user t = Some (mkUserThreadResources a stack);
  ca_slot : pt_slot (k_procs k) pid = Some p;
  ca_main : pr_main_thread p = Some th;
  ca_running : pr_state p = ProcRunning
}.

Section fork.
Context (E : Env) (s : FsState) (reserve : nat → bool) {N : nat}.
Context (w : World) (t : ProcessTable) (mm : Mmu) (spaces pool : gset Z).
Context (pid : ProcessId) (p : Process) (th : ThreadId) (thread : Thread) (a : AddressSpaceId) (stack : OwnedUserStack).
Abbreviation k := (mkKernel w t mm).
Hypothesis Hcpu : (e_cpu E < KERNEL_CPU_CAPACITY)%nat.
Hypothesis Harch : arch_ok E.
Hypothesis Hk : kernel_inv E N spaces pool k.
Hypothesis Hcall : calling E k pid p th thread a stack.

Lemma wp_current_process (Q : option ProcessId → Kernel → Prop) : Q (Some pid) k → wp (current_process_id E) Q k.
Proof.
  intros HQ. destruct Hcall as [C1 C2 C3 C4 C5 C6 C7]. destruct (ki_world _ _ _ _ _ Hk) as [[Hs _ _] _]. cbn [k_world] in *.
  apply wp_bind, (wp_on_world_aside _ _ _ _ _ _ (ki_ttbr _ _ _ _ _ Hk)). cbn [k_world]. eapply wp_current_thread; [by apply (cst_lookup Hs)|]. split; [done|].
  change (cs_current (cst (w_sched w) (e_cpu E))) with (cur (w_sched w) (e_cpu E)).
  rewrite C1. cbv iota. apply wp_on_procs. eapply wp_reads; [|exact HQ].
  eapply process_for_thread_bound; [apply (ki_table _ _ _ _ _ Hk)|done..].
Qed.

Lemma wp_current_stack (Q : option OwnedUserStack → World → Prop) : Q (Some stack) w → wp (current_user_stack E) Q w.
Proof.
  intros HQ. destruct Hcall as [C1 C2 C3 C4 C5 C6 C7]. destruct (ki_world _ _ _ _ _ Hk) as [[Hs _ _] _]. cbn [k_world] in *.
  apply wp_bind. eapply wp_current_thread; [by apply (cst_lookup Hs)|]. change (cs_current (cst (w_sched w) (e_cpu E))) with (cur (w_sched w) (e_cpu E)).
  rewrite C1. cbv iota. apply wp_bind. eapply (wp_with_sched _ _ _ thread); [by apply live_thread_at|]. apply wp_ret. by rewrite C4.
Qed.

(** The CPU of the next child. *)
Definition child_cpu : CpuId := default (default 0%nat (pr_owner_cpu p)) (pr_pending_fork_cpu p).

Lemma next_child_cpu_done : next_child_cpu p = Done child_cpu.
Proof.
  destruct (to_live _ (ki_table _ _ _ _ _ Hk) _ _ (ca_slot _ _ _ _ _ _ _ _ Hcall)) as [_ [[o Ho] _ _ _ _]].
  unfold next_child_cpu, process_owner, child_cpu. rewrite Ho. by destruct (pr_pending_fork_cpu p).
Qed.

Lemma snapshot_spec image :
  im_user_image (rs_image (pr_resources p)) = Some image →
  wp (fork_snapshot_current E) (λ res k', k' = k ∧
    res = match pf_cwd_dir (rs_files (pr_resources p)) with
          | None => inr EINVAL
          | Some dir => inl (mkForkSnapshot pid image stack (pf_fds (rs_files (pr_resources p))) dir child_cpu)
          end) k.
Proof.
  intros Hi. apply wp_bind, wp_current_process. apply wp_bind, (wp_on_world_aside _ _ _ _ _ _ (ki_ttbr _ _ _ _ _ Hk)), wp_current_stack. split; [done|]. cbv iota. apply wp_on_procs, wp_slot_or.
  pose proof (ca_slot _ _ _ _ _ _ _ _ Hcall) as Hs. cbn [k_procs] in Hs. rewrite Hs, Hi. destruct (pf_cwd_dir _) as [dir|]; [|by apply wp_ret].
  apply wp_bind. eapply wp_reads; [apply next_child_cpu_done|]. by apply wp_ret.
Qed.

Context (image : UserElfImage) (dir : nat) (frame : TrapFrame).
Hypothesis Himage : im_user_image (rs_image (pr_resources p)) = Some image.
Hypothesis Hdir : pf_cwd_dir (rs_files (pr_resources p)) = Some dir.
Hypothesis Hmemory : user_memory mm spaces pool (root_pa a) image stack.
Hypothesis Hframe : w_active w !! e_cpu E = Some frame.

(** Nothing happened. *)
Record fork_failed (k' : Kernel) : Prop := {
  ff_world : k_world k' = w;
  ff_table : ∀ q, pt_slot (k_procs k') q = pt_slot t q;
  ff_kept : kept mm (k_mmu k');
  ff_memory : untouched (λ f, f ∈ pool) mm (k_mmu k');
  ff_spaces : spaces_kept spaces mm (k_mmu k');
  ff_inv : kernel_inv E N spaces pool k'
}.

(** The record of the child. *)
Definition child_new : Process := process_running (Some pid) (pf_fds (rs_files (pr_resources p))) dir child_cpu.
Definition child_record (r : Z) (image' : UserElfImage) (tid : ThreadId) : Process :=
  set_main_thread (Some tid) (set_image (mkImageResources (Some (mkAddressSpaceId r child_cpu)) (Some image')) child_new).

(** The child [c] with its thread [tid], in the address space [r]. *)
Record forked (c : ProcessId) (tid : ThreadId) (r : Z) (image' : UserElfImage) (stack' : OwnedUserStack) (pool' : gset Z) (k' : Kernel) : Prop := {
  fo_new : pt_slot t c = None;
  fo_child : pt_slot (k_procs k') c = Some (child_record r image' tid);
  fo_parent : pt_slot (k_procs k') pid = Some (set_pending_fork_cpu None p);
  fo_others : ∀ q, q ≠ c → q ≠ pid → pt_slot (k_procs k') q = pt_slot t q;
  fo_thread : table_get (w_sched w) tid = None ∧ ∃ tc, thread_changed (w_sched w) (w_sched (k_world k')) tid (Some tc) ∧ t_home_cpu tc = child_cpu ∧
    t_user tc = Some (mkUserThreadResources (mkAddressSpaceId r child_cpu) stack');
  fo_frames : ∃ top, frames_added tid (fork_child frame top) w (k_world k');
  fo_caller : calling E k' pid (set_pending_fork_cpu None p) th thread a stack;
  fo_active : w_active (k_world k') = w_active w;
  fo_kept : kept mm (k_mmu k');
  fo_outside : untouched (λ f, f ∈ pool) mm (k_mmu k');
  fo_spaces : spaces_kept spaces mm (k_mmu k');
  fo_view : ∀ x, user_address image stack x → view (k_mmu k') r x = view mm (root_pa a) x ∧ view (k_mmu k') (root_pa a) x = view mm (root_pa a) x;
  fo_memory : user_memory (k_mmu k') ({[r]} ∪ spaces) pool' r image' stack';
  fo_taken : owned_frames image' stack' ⊆ pool ∧ pool' = pool ∖ owned_frames image' stack';
  fo_private : ∀ x y px py, (0 <= x)%Z → (0 <= y)%Z → translate_user_va (memory (k_mmu k')) r x = Some px →
    translate_user_va (memory (k_mmu k')) (root_pa a) y = Some py → align_down px PAGE_SIZE ≠ align_down py PAGE_SIZE;
  fo_apart : (r ∉ spaces) ∧ pool' ⊆ pool;
  fo_inv : kernel_inv E N ({[r]} ∪ spaces) pool' k'
}.

Definition fork_post (res : Z + Errno) (k' : Kernel) : Prop :=
  match res with
  | inl raw => ∃ c tid r image' stack' pool', raw = pid_as_raw c ∧ forked c tid r image' stack' pool' k'
  | inr _ => fork_failed k'
  end.

(** ** The failures *)

Lemma undone_inv m1 t1 : undone spaces pool mm m1 → table_ok t1 → (∀ q, pt_slot t1 q = pt_slot t q) → kernel_inv E N spaces pool (mkKernel w t1 m1).
Proof.
  intros (K & _ & _ & Hm) Ht1 Hslot. destruct Hk as [I1 I2 I3 I4 I5 I6 I7 IU I8]. cbn [k_world k_procs k_mmu] in *. split; cbn [k_world k_procs k_mmu]; [done|done|done| | |done|done|done|].
  - by eapply ranges_ok_kept.
  - by eapply synced_kept.
  - intros q pq thq. rewrite Hslot. apply I8.
Qed.

Lemma fork_undone_failed c t1 o k' :
  pt_slot t c = None → updated t t1 c o → fork_undone spaces pool mm w t1 c k' → fork_failed k'.
Proof.
  intros Hc Hu (Hw & Ht' & _ & Hu' & Hud). destruct k' as [w' t' m']. cbn [k_world k_procs k_mmu] in *. subst w'.
  assert (∀ q, pt_slot t' q = pt_slot t q) as Hslot.
  { intros q. rewrite (updated_trans _ _ _ _ _ _ Hu Hu' q). case_decide; [by subst|done]. }
  pose proof Hud as (? & ? & ? & _). split; [done|done|done|done|done|]. by apply undone_inv.
Qed.

(** ** The child's thread *)

Lemma resolve_cpu sch cpu home : resolve_s E sch (AffinityCpu cpu) = inl home → home = cpu.
Proof. unfold resolve_s. cbv zeta. destruct (_ || _); [done|]. destruct (cs_online _); [|done]. by intros [= <-]. Qed.

Section publish.
Context (c : ProcessId) (t2 : ProcessTable) (r : Z) (image' : UserElfImage) (stack' : OwnedUserStack) (m1 : Mmu).
Abbreviation ca := (mkAddressSpaceId r child_cpu).
Abbreviation q2 := (set_image (mkImageResources (Some ca) (Some image')) child_new).
Hypothesis Hnew : pt_slot t c = None.
Hypothesis Ht2 : table_ok t2.
Hypothesis Ho2 : pt_owners t2 = pt_owners t.
Hypothesis Hu2 : updated t t2 c (Some q2).
Hypothesis Hfm : fork_memory mm spaces pool image stack r image' stack' m1.

Lemma child_not_parent : c ≠ pid.
Proof. intros ->. pose proof (ca_slot _ _ _ _ _ _ _ _ Hcall) as H. cbn [k_procs] in H. congruence. Qed.

Lemma child_run : ∃ start n, stack' = mkOwnedUserStack (start, (start + Z.of_nat n * PAGE_SIZE)%Z) (us_base stack) (us_size stack) ∧
  us_size stack = (Z.of_nat n * PAGE_SIZE)%Z ∧ run_ok mm start n ∧ run_set start n ## segs_set (ui_segments image') ∧
  run_at m1 r (us_base stack) start n USER_WRITE (run_bytes mm (us_frames stack).1) ∧
  staging mm spaces pool r (segs_set (ui_segments image') ∪ run_set start n) m1.
Proof. destruct (fm_stack _ _ _ _ _ _ _ _ _ Hfm) as (start & n & ? & ? & ? & ? & ? & ?). by exists start, n. Qed.

Lemma child_view x : user_address image stack x → view m1 r x = view mm (root_pa a) x ∧ view m1 (root_pa a) x = view mm (root_pa a) x.
Proof.
  destruct Hmemory as [M1 M2 M3 M4 M5 _]. destruct child_run as (start & n & _ & En & _ & _ & Hat & Hst). rewrite Forall_forall in M2.
  intros [(sg & Hsg & Hx)|Hx].
  - pose proof Hsg as [i Hi]%list_elem_of_lookup. destruct (Forall2_lookup_l _ _ _ _ _ (fm_segments _ _ _ _ _ _ _ _ _ Hfm) Hi) as (sg' & _ & Hcl).
    split; [by eapply seg_clone_view; [apply M2|..]|]. destruct (M2 _ Hsg) as (st & k0 & [E1 E2] & Hrun).
    apply (user_run_view_kept mm m1 spaces pool _ _ _ _ _ _ (ki_machine _ _ _ _ _ Hk) Hrun); [done|apply Hst|apply Hst|unfold in_run, in_seg in *; lia].
  - destruct M3 as (st & k0 & E1 & E2 & Hrun). assert (k0 = n) as -> by (unfold PAGE_SIZE in *; lia).
    assert (in_run (us_base stack) n x) as Hin by (unfold in_run; lia). split.
    + rewrite (run_at_view _ _ _ _ _ _ _ _ Hat Hin), (run_at_view _ _ _ _ _ _ _ _ (user_run_at _ _ _ _ _ _ _ Hrun) Hin).
      by injection E1 as -> _.
    + apply (user_run_view_kept mm m1 spaces pool _ _ _ _ _ _ (ki_machine _ _ _ _ _ Hk) Hrun); [done|apply Hst|apply Hst|done].
Qed.

Lemma child_memory start n :
  stack' = mkOwnedUserStack (start, (start + Z.of_nat n * PAGE_SIZE)%Z) (us_base stack) (us_size stack) → us_size stack = (Z.of_nat n * PAGE_SIZE)%Z →
  run_ok mm start n → run_set start n ## segs_set (ui_segments image') → run_at m1 r (us_base stack) start n USER_WRITE (run_bytes mm (us_frames stack).1) →
  staging mm spaces pool r (segs_set (ui_segments image') ∪ run_set start n) m1 →
  user_memory m1 ({[r]} ∪ spaces) (pool ∖ (segs_set (ui_segments image') ∪ run_set start n)) r image' stack'.
Proof.
  intros -> En Hrun Hdis [Hq _] Hst. destruct Hmemory as [M1 M2 M3 M4 M5 _]. pose proof (stg_kept _ _ _ _ _ _ Hst) as K. split; [apply in_new| | |eapply segs_ok_kept; [exact K|apply Hfm]| |].
  - rewrite Forall_forall in M2. apply Forall_forall. intros sg' Hsg'. pose proof Hsg' as [i Hi]%list_elem_of_lookup.
    destruct (Forall2_lookup_r _ _ _ _ _ (fm_segments _ _ _ _ _ _ _ _ _ Hfm) Hi) as (sg & Hsg & (st & k0 & -> & Ek & H0 & Hqs & _)).
    destruct (clone_run _ _ _ _ _ _ _ (fm_owned _ _ _ _ _ _ _ _ _ Hfm) Hsg' Ek) as [Hrk Hsk].
    destruct (M2 sg (list_elem_of_lookup_2 _ _ _ Hsg)) as (st0 & k1 & [_ E2] & [_ _ Hmp _]). assert (k1 = k0) as -> by (unfold PAGE_SIZE in *; lia).
    exists st, k0. split; [by split|]. split; [by eapply run_ok_kept|set_solver|done|done].
  - destruct M3 as (st0 & k1 & _ & E2 & [_ _ Hmp _]). assert (k1 = n) as -> by (unfold PAGE_SIZE in *; lia).
    exists start, n. split; [done|]. split; [done|]. split; [by eapply run_ok_kept|set_solver|done|done].
  - intros start' n' E'. injection E' as <- E'. assert (n' = n) as -> by (unfold PAGE_SIZE in *; lia). done.
  - apply (fm_only _ _ _ _ _ _ _ _ _ Hfm).
Qed.

Lemma child_owned start n :
  stack' = mkOwnedUserStack (start, (start + Z.of_nat n * PAGE_SIZE)%Z) (us_base stack) (us_size stack) → us_size stack = (Z.of_nat n * PAGE_SIZE)%Z →
  owned_frames image' stack' = segs_set (ui_segments image') ∪ run_set start n.
Proof. intros -> En. unfold owned_frames, stack_set. cbn [us_frames us_size fst]. rewrite En, Z.div_mul, Nat2Z.id by done. apply (comm_L (∪)). Qed.

(** The invariant with the child in place. *)
Lemma child_inv w' tid tc t4 start n :
  kernel_ok N w' → thread_changed (w_sched w) (w_sched w') tid (Some tc) → t_user tc = Some (mkUserThreadResources ca stack') → w_vm w' = w_vm w → table_ok t4 →
  (∀ q pq, pt_slot t4 q = Some pq → q = c ∧ pq = child_record r image' tid ∨ ∃ pq', pt_slot t q = Some pq' ∧ pr_main_thread pq' = pr_main_thread pq ∧
     pr_state pq' = pr_state pq ∧ rs_image (pr_resources pq') = rs_image (pr_resources pq)) →
  table_get (w_sched w) tid = None →
  staging mm spaces pool r (segs_set (ui_segments image') ∪ run_set start n) m1 →
  kernel_inv E N ({[r]} ∪ spaces) (pool ∖ (segs_set (ui_segments image') ∪ run_set start n)) (mkKernel w' t4 m1).
Proof.
  intros Hkw Hch Hroot Hvm Ht4 Hslots Hdead Hst. destruct Hk as [I1 I2 I3 I4 I5 I6 I7 IU I8]. cbn [k_world k_procs k_mmu] in *.
  pose proof (stg_kept _ _ _ _ _ _ Hst) as K. split; cbn [k_world k_procs k_mmu]; [done|done|apply Hst|by eapply ranges_ok_kept| | | | |].
  - by eapply synced_kept.
  - intros x tx r0 Hl Hr0. unfold live in Hl. rewrite Hch in Hl. apply elem_of_union. case_decide.
    + injection Hl as <-. left. apply elem_of_singleton. unfold thread_root in Hr0. rewrite Hroot in Hr0. by injection Hr0 as <-.
    + right. by eapply I6.
  - intros c0 u. rewrite Hvm. intros Hu. destruct (I7 c0 u Hu); [by left|right]. apply elem_of_union. by right.
  - assert (∀ x tx r0, live (w_sched w') x tx → thread_root tx = Some r0 → x = tid ∧ r0 = r ∨ x ≠ tid ∧ live (w_sched w) x tx) as Hcase.
    { intros x tx r0 Hl Hr0. unfold live in *. rewrite Hch in Hl. case_decide; [left|by right]. split; [done|]. injection Hl as <-.
      unfold thread_root in Hr0. rewrite Hroot in Hr0. by injection Hr0 as <-. }
    intros x1 t1 x2 tx2 r0 L1 L2 R1 R2. pose proof (fm_fresh _ _ _ _ _ _ _ _ _ Hfm) as Hfr.
    destruct (Hcase _ _ _ L1 R1) as [[-> ->]|[N1 L1']], (Hcase _ _ _ L2 R2) as [[-> E2]|[N2 L2']]; [done| | |by eapply IU].
    + destruct Hfr. by eapply I6.
    + subst r0. destruct Hfr. by eapply I6.
  - intros q pq thq Hq Hrq Hmq. destruct (Hslots q pq Hq) as [[-> ->]|(pq' & Hq' & Em & Es & Ei)].
    + injection Hmq as <-. exists tc, (mkUserThreadResources ca stack'). split; [|by split]. unfold live. by rewrite Hch, decide_True.
    + destruct (I8 q pq' thq Hq') as (tq & u & Hlq & Hu & Ha); [congruence|congruence|]. exists tq, u. split; [|split; [done|congruence]].
      unfold live in *. rewrite Hch. case_decide; [congruence|done].
Qed.

(** The new thread becomes the child's main thread. *)
Lemma bind_child_spec w' id rest slot kstack top
    (tid := mkThreadId id (next_generation (sl_generation slot)))
    (tc := fresh_thread child_cpu true (Some (mkUserThreadResources ca stack')) (sl_next_wait_sequence slot) kstack (fork_child frame top)) :
  kernel_ok N w' → aside w w' → free_slots (lifecycle (w_sched w)) = id :: rest → table_slots (w_sched w) !! id = Some slot →
  frames_added tid (fork_child frame top) w w' → w_sched w' = placed_s (e_cpu E) tid tc rest (w_sched w) →
  wp (on_procs (bind_main_thread c tid child_cpu ca;; consume_pending_fork_cpu pid);; mret (inl (pid_as_raw c))) fork_post (mkKernel w' t2 m1).
Proof.
  intros Hkw Has Hfree Hsl Hf Hsw. destruct (free_slot w id rest (ki_world _ _ _ _ _ Hk) Hfree) as (slot' & ks' & Hsl' & Hn & _).
  assert (slot' = slot) as -> by congruence. pose proof child_not_parent as Hcp. pose proof (ca_slot _ _ _ _ _ _ _ _ Hcall) as Hp. cbn [k_procs] in Hp.
  assert (thread_changed (w_sched w) (w_sched w') tid (Some tc)) as Hch by (rewrite Hsw; by eapply placed_changed).
  assert (pt_owners t2 !! tid_index tid = Some None) as Hown by (rewrite Ho2; by eapply (free_slot_unbound E N spaces pool k)).
  apply wp_bind, wp_on_procs, wp_bind.
  eapply wp_mono; [apply (bind_spec t2 c q2 tid ca Ht2 (updated_at _ _ _ _ Hu2)); done|]. intros [] t3 [Ht3 Hu3].
  assert (pt_slot t3 pid = Some p) as Hp3 by (by rewrite (updated_other _ _ _ _ _ Hu3), (updated_other _ _ _ _ _ Hu2) by done).
  eapply wp_mono; [by apply (consume_fork_spec t3 pid p)|]. intros [] t4 (Ht4 & _ & Hu4). apply wp_ret.
  destruct child_run as (start & n & Est & En & Hrun & Hdis & Hat & Hst). pose proof (child_owned start n Est En) as Eown.
  assert (owned_frames image' stack' ⊆ pool) as Hsub by (rewrite Eown; apply Hst). set (pool' := pool ∖ owned_frames image' stack').
  assert (user_memory m1 ({[r]} ∪ spaces) pool' r image' stack') as Hum by (unfold pool'; rewrite Eown; by eapply child_memory).
  exists c, tid, r, image', stack', pool'.
  assert (pt_slot t4 c = Some (child_record r image' tid)) as Hc4 by (by rewrite (updated_other _ _ _ _ _ Hu4), (updated_at _ _ _ _ Hu3) by done).
  assert (∀ q, q ≠ c → q ≠ pid → pt_slot t4 q = pt_slot t q) as Hoth.
  { intros q H1 H2. by rewrite (updated_other _ _ _ _ _ Hu4), (updated_other _ _ _ _ _ Hu3), (updated_other _ _ _ _ _ Hu2) by done. }
  split; [done|]. split; cbn [k_world k_procs k_mmu]; [done|done|by apply (updated_at _ _ _ _ Hu4)|done| | | |apply Has|apply Hst|apply Hst|apply Hst|apply child_view|done|done| | |].
  - split; [by eapply free_dead|]. by exists tc.
  - by exists top.
  - destruct Hcall as [C1 C2 C3 C4 C5 C6 C7]. cbn [k_world k_procs] in *. pose proof (wo_sched _ _ _ (ko_world _ _ _ (ki_world _ _ _ _ _ Hk))) as Hso.
    destruct (placed_cur (e_cpu E) tid tc rest (w_sched w) (e_cpu E) Hso Hcpu) as [Ec Eo].
    split; cbn [k_world k_procs]; [by rewrite Hsw, Ec|by rewrite Hsw, Eo| |done|by apply (updated_at _ _ _ _ Hu4)|done|done].
    unfold live. rewrite Hch. case_decide as Hx; [|exact C3]. rewrite Hx in C3. pose proof (free_dead (w_sched w) id (next_generation (sl_generation slot)) slot Hsl Hn) as Hnone. unfold live, tid in C3. congruence.
  - intros x y px py Hx Hy. apply (programs_apart mm m1 spaces ({[r]} ∪ spaces) pool pool' (root_pa a) r image stack image' stack' x y px py Hmemory); [apply Hst|apply Hst|done|done|done|done].
  - split; [apply Hfm|]. intros x Hx. by apply elem_of_difference in Hx as [? _].
  - unfold pool'. rewrite Eown. apply (child_inv w' tid tc); [done|done|done|apply Has|done| |by eapply free_dead|done].
    intros q pq Hq. destruct (decide (q = c)) as [->|Hqc]; [left; split; [done|congruence]|]. right.
    destruct (decide (q = pid)) as [->|Hqp]; [|rewrite Hoth in Hq by done; by exists pq]. rewrite (updated_at _ _ _ _ Hu4) in Hq. injection Hq as <-. by exists p.
Qed.

Lemma publish_child_spec :
  wp (rr ← on_world E (spawn_user_thread_from_context E ca stack' (mkThreadAttrs true (AffinityCpu child_cpu)) (λ _ _ _, mret tt));
      match rr with
      | inr (error, stack) => drop_fork c None None (Some stack);; mret (inr (spawn_errno error))
      | inl thread => on_procs (bind_main_thread c thread child_cpu ca;; consume_pending_fork_cpu pid);; mret (inl (pid_as_raw c))
      end) fork_post (mkKernel w t2 m1).
Proof.
  pose proof Hk as [I1 I2 I3 I4 I5 I6 I7 IU I8]. cbn [k_world k_procs k_mmu] in *. pose proof Hfm as [F1 F2 _ _ _ _ _].
  assert (∀ e, wp (drop_fork c None None (Some stack');; mret (inr (spawn_errno e))) fork_post (mkKernel w t2 m1)) as Hdrop.
  { intros e. apply wp_bind. eapply wp_mono; [apply (drop_attached_spec spaces pool mm w t2 c q2 m1 ca image stack image' stack' Ht2 (updated_at _ _ _ _ Hu2)); try done;
      [by apply (current_root_space E N spaces pool k)|by apply (fresh_root_inactive E N spaces pool k)]|]. intros [] k' Hud. apply wp_ret. by eapply fork_undone_failed. }
  apply wp_bind, wp_on_world_aside; [destruct child_run as (? & ? & _ & _ & _ & _ & _ & Hst); by eapply synced_kept; [|apply Hst|]|].
  eapply wp_mono; [apply (spawn_user_from_context_spec E (N:=N) Hcpu Harch w frame ca stack' (mkThreadAttrs true (AffinityCpu child_cpu))
    (λ _ _ _, mret tt) I1 (ca_online _ _ _ _ _ _ _ _ Hcall) Hframe)|].
  { intros tid' home a' w'. by apply wp_ret. }
  { intros home ->%resolve_cpu. split; [done|]. by apply (fresh_root_free E N spaces pool k). }
  intros rr w' (Hkw & Has & Hsp). split; [apply Has|]. unfold user_spawned in Hsp. cbn [at_affinity at_joinable] in Hsp.
  destruct (resolve_s _ _ _) as [home|e] eqn:Hres; [|destruct Hsp as [-> ->]; apply Hdrop]. apply resolve_cpu in Hres as ->.
  destruct Hsp as (o & -> & Hsp). unfold spawned in Hsp. destruct (free_slots _) as [|id rest] eqn:Hfree; [destruct Hsp as [-> ->]; apply Hdrop|].
  destruct Hsp as (slot & kstack & Hsl & _ & -> & Hf & Hsw). by eapply bind_child_spec.
Qed.
End publish.

Lemma fork_spec : wp (fork_current E s reserve) fork_post k.
Proof.
  pose proof Hk as [I1 I2 I3 I4 I5 I6 I7 IU I8]. cbn [k_world k_procs k_mmu] in *.
  assert (fork_failed k) as Hsame by (split; [done|done|done|done|done|exact Hk]).
  apply wp_try. eapply wp_mono; [by apply (snapshot_spec image)|]. intros res k1 [-> ->]. rewrite Hdir. cbv iota beta.
  apply wp_try, wp_map_error, wp_on_procs. cbn [fk_parent_pid fk_fds fk_cwd_dir fk_child_owner_cpu].
  eapply wp_mono; [by apply allocate_spec|]. intros [c|e] t1 (Ht1 & Ho1 & Hr); cbv iota beta; [|destruct Hr as [-> _]; exact Hsame].
  destruct Hr as (_ & Hnew & _ & _ & Hu1). pose proof (updated_at _ _ _ _ Hu1) as Hc1.
  apply wp_bind, wp_on_mmu. eapply wp_mono; [apply (clone_process_spec reserve mm spaces pool _ (root_pa a)); done|].
  intros [[[r image'] stack']|[[aspace image'] e]] m1 Hres; cbn [clone_post] in Hres; cbv iota beta.
  - cbn [fk_user_image fk_stack fk_child_owner_cpu] in *. apply wp_bind, wp_on_procs.
    eapply wp_mono; [by apply (attach_spec t1 c child_new (mkAddressSpaceId r child_cpu) image')|]. intros [] t2 (Ht2 & Ho2 & Hu2).
    apply wp_bind, wp_on_procs, wp_gets. rewrite (updated_at _ _ _ _ Hu2). cbn [mbind option_bind pr_resources set_image rs_image im_address_space]. cbv iota.
    apply (publish_child_spec c t2 r image' stack' m1); [done|done|congruence|by eapply updated_trans|done].
  - apply wp_bind. eapply wp_mono; [apply (drop_unattached_spec spaces pool mm w t1 c child_new m1 aspace image'); try done; by apply (current_root_space E N spaces pool k)|].
    intros [] k' Hud. apply wp_ret. by eapply fork_undone_failed.
Qed.
End fork.
