(* ===== verification/ExecKernel.v ===== *)
(** * Processes on the whole machine: exec

    What [execve] does to the scheduler, the process table and memory: the new
    image takes the place of the old one, whose frames and tables go back to
    the allocator; a failure changes nothing. *)

From stdpp Require Import gmap sorting.
From S2P Require Import Prelude Types Wait TimeConv Deadline Preempt Context Time MemMap MemMapSpec FrameAlloc FrameSpec MemInit.
From S2P Require Import PageTable PageTableSpec AddressSpace PhysMem UserCopy UserAccess UserImage FrameRuns ImageSafety Ramfs PathRes FdTable ExecStack ExecRead.
From S2P Require Import Vm Sched World Transition Handoff CpuInv SchedInv Switch Lifecycle TransitionSpec LifecycleSpec WorldInv TimeSpec.
From S2P Require Import SwitchSpec WakeSpec Frames EntrySpec BlockSpec JoinSpec ThreadSpec SpawnSpec.
From S2P Require Import Staging StageSafety CloneSpec Process ProcessOps ProcSpec ProcHistory ForkSpec ProcKernel.

(** ** The TTBR0 write *)

Lemma machine_ok_ttbr0 v m spaces pool : machine_ok m spaces pool → machine_ok (set_mm_ttbr0 v m) spaces pool.
Proof. intros (T & l & [? ? ? ? ? ? Hf] & Hl). exists T, l. split; [by split|done]. Qed.

Lemma ranges_ok_ttbr0 v m : ranges_ok m → ranges_ok (set_mm_ttbr0 v m).
Proof. done. Qed.

Lemma segs_ok_ttbr0 v m segs : segs_ok m segs → segs_ok (set_mm_ttbr0 v m) segs.
Proof. done. Qed.

Lemma user_memory_ttbr0 v m spaces pool r image stack : user_memory m spaces pool r image stack → user_memory (set_mm_ttbr0 v m) spaces pool r image stack.
Proof.
  intros [M1 M2 (b & n & M3 & M4 & [? ? ? ?]) M5 M6 M7]. split; [done| |exists b, n; split_and!; [done|done|by split]|done|done|done].
  eapply Forall_impl; [exact M2|]. intros sg (b' & n' & Hs & [? ? ? ?]). exists b', n'. split; [done|by split].
Qed.

(** Memory outside the frames of a machine's allocator. *)
Lemma run_holds_back m m' spaces pool start n h :
  machine_ok m' spaces pool → run_ok m' start n → run_set start n ## pool → untouched (λ f, f ∈ pool) m m' →
  run_holds m start n h → run_holds m' start n h.
Proof.
  intros Hm Hrun Hd Hu Hh i Hi. rewrite <-Hh by done. symmetry. apply (untouched_pool_byte m' m spaces pool); [done|intros y Hy; symmetry; by apply Hu|].
  intros Hin. apply (Hd (align_down (start + i) PAGE_SIZE)); [|done]. apply elem_of_page_set, run_page; [by destruct (run_first _ _ _ Hrun)|lia].
Qed.

(** ** Taking the old image back *)

Section retire.
Context (w : World) (t : ProcessTable) (m : Mmu) (spaces pool : gset Z) (a : AddressSpaceId) (image : UserElfImage) (stack : OwnedUserStack) (X : gset Z).
Hypothesis Hm : machine_ok m spaces pool.
Hypothesis Hranges : ranges_ok m.
Hypothesis Hspace : root_pa a ∈ spaces.
Hypothesis Hcur : current_root m ≠ root_pa a.
Hypothesis Hinactive : existsb (λ c, (installed c =? root_pa a)%Z) (w_vm w) = false.
Hypothesis Hsegs : segs_ok m (ui_segments image).
Hypothesis Hstack : stack_run (Some stack) X m.
Hypothesis HX : X ## pool.
Hypothesis Hapart : segs_set (ui_segments image) ## pool ∪ X.

Lemma retire_spec :
  wp (on_mmu (user_stack_drop stack);; cleanup_process_image_resources (mkImageResources (Some a) (Some image));; mret (inl tt : unit + Errno))
     (λ res k, res = inl tt ∧ k_world k = w ∧ k_procs k = t ∧ kept m (k_mmu k) ∧
        untouched (λ f, f ∈ pool ∪ X ∪ segs_set (ui_segments image)) m (k_mmu k) ∧ same_queries (spaces ∖ {[root_pa a]}) m (k_mmu k) ∧
        machine_ok (k_mmu k) (spaces ∖ {[root_pa a]}) (pool ∪ X ∪ segs_set (ui_segments image))) (mkKernel w t m).
Proof.
  apply wp_bind, wp_on_mmu. eapply wp_mono; [by apply (drop_stack_spec m spaces pool (Some stack) X)|]. intros [] m1 (K1 & O1 & Q1 & Hm1).
  apply wp_bind, wp_bind, wp_on_mmu. cbn [im_user_image im_address_space].
  eapply wp_mono; [apply (drop_image_spec m1 spaces (pool ∪ X) (Some image)); [done|by eapply ranges_ok_kept|by eapply segs_ok_kept|done]|].
  cbn [image_segs]. intros [] m2 (K2 & O2 & Q2 & Hm2). pose proof (kept_trans _ _ _ K1 K2) as K12.
  apply wp_bind, wp_bind, wp_gets. cbn [k_world]. rewrite Hinactive. cbv iota. apply wp_on_mmu.
  eapply wp_mono; [apply (destroy_machine m2 spaces _ (root_pa a) Hm2 Hspace); by rewrite (current_root_kept m)|].
  intros _ m3 (_ & K3 & O3 & Q3 & Hm3). apply wp_ret, wp_ret. split_and!; [done|done|done|by eapply kept_trans| | |done].
  - eapply untouched_trans; [|eapply untouched_trans; [|exact O1|exact O2]|exact O3]; [done|]. set_solver.
  - intros r0 x H0. cbn [k_mmu]. rewrite Q3, Q2, Q1 by set_solver. done.
Qed.
End retire.

Lemma returned_frames (pool taken X O : gset Z) : X ∪ O ⊆ pool ∖ taken ∪ X ∪ O ∧ pool ∖ taken ∪ X ∪ O ⊆ pool ∪ (X ∪ O).
Proof. split; set_solver. Qed.

(** ** Committing the new image *)

Section exec.
Context (E : Env) (s : FsState) (reserve : nat → bool) (minimal_parse : list Z → option ElfFile) {N : nat}.
Context (w : World) (t : ProcessTable) (mm : Mmu) (spaces pool : gset Z).
Context (pid : ProcessId) (p : Process) (th : ThreadId) (thread : Thread) (a : AddressSpaceId) (stack : OwnedUserStack).
Context (image : UserElfImage) (frame : TrapFrame).
Abbreviation k := (mkKernel w t mm).
Abbreviation c := (e_cpu E).
Hypothesis Hcpu : (e_cpu E < KERNEL_CPU_CAPACITY)%nat.
Hypothesis Harch : arch_ok E.
Hypothesis Hk : kernel_inv E N spaces pool k.
Hypothesis Hcall : calling E k pid p th thread a stack.
Hypothesis Himage : im_user_image (rs_image (pr_resources p)) = Some image.
Hypothesis Hmemory : user_memory mm spaces pool (root_pa a) image stack.
Hypothesis Hframe : w_active w !! c = Some frame.

Lemma caller_space : im_address_space (rs_image (pr_resources p)) = Some a.
Proof.
  destruct Hcall as [_ _ C3 C4 C5 C6 C7]. destruct (ki_bound _ _ _ _ _ Hk pid p th C5 C7 C6) as (t' & u & Hl & Hu & Ha).
  rewrite (live_fun _ _ _ _ Hl C3), C4 in Hu. injection Hu as <-. exact Ha.
Qed.

Lemma caller_image : rs_image (pr_resources p) = mkImageResources (Some a) (Some image).
Proof. pose proof caller_space as Hs. destruct (rs_image (pr_resources p)). simpl in *. by subst. Qed.

Lemma caller_home : t_home_cpu thread = c ∧ owner_cpu a = c ∧ pr_owner_cpu p = Some c.
Proof.
  destruct Hcall as [C1 _ C3 C4 C5 C6 C7]. pose proof (ki_world _ _ _ _ _ Hk) as [[Hs _ _] _]. cbn [k_world k_procs] in *.
  pose proof (current_home E Hcpu _ _ _ _ Hs C1 C3) as Hh. destruct (tk_user _ _ (so_threads _ _ _ Hs _ _ C3) _ C4) as [Ho _]. cbn in Ho.
  destruct (to_live _ (ki_table _ _ _ _ _ Hk) _ _ C5) as [_ [_ _ _ P4 _]]. destruct (P4 th C6) as (a' & Ha' & Hown).
  pose proof caller_space as Hsp. assert (a' = a) as -> by congruence. split_and!; congruence.
Qed.

(** The old root is installed at most here. *)
Lemma old_root_here c' u : w_vm w !! c' = Some u → installed u = root_pa a → c' = c.
Proof.
  intros Hu Hi. destruct Hcall as [_ _ C3 C4 _ _ _]. pose proof (ki_world _ _ _ _ _ Hk) as [[_ _ Hlk] _]. cbn [k_world] in *.
  rewrite (ro_installed _ _ (lk_roots _ _ _ Hlk) th thread (root_pa a) c' u C3); [apply caller_home| |done|done].
  unfold thread_root. by rewrite C4.
Qed.

Section commit.
Context (st : StagedProcessImage) (m1 : Mmu).
Abbreviation na := (si_address_space st).
Abbreviation r := (root_pa na).
Hypothesis Howner : owner_cpu na = c.
Hypothesis Hfresh : r ∉ spaces.
Hypothesis Hroot : r ∈ pool.
Hypothesis Hkept : kept mm m1.

Definition new_thread : Thread := set_t_user (Some (mkUserThreadResources na (si_stack st))) thread.
Definition new_record : Process := set_image (mkImageResources (Some na) (Some (si_user_image st))) p.

(** The scheduler with the new resources of the calling thread. *)
Record swapped (w2 : World) : Prop := {
  sw_kernel : kernel_ok N w2;
  sw_thread : thread_changed (w_sched w) (w_sched w2) th (Some new_thread);
  sw_cur : ∀ c', cur (w_sched w2) c' = cur (w_sched w) c' ∧ cs_online (cst (w_sched w2) c') = cs_online (cst (w_sched w) c');
  sw_vm : w_vm w2 = <[c := mkCpuUserAddressSpace r true]> (w_vm w);
  sw_active : w_active w2 = <[c := replace_user_context_after_exec frame (si_entry st) (si_initial_sp st)]> (w_active w)
}.

Lemma new_root_ttbr0 w2 : w_vm w2 = <[c := mkCpuUserAddressSpace r true]> (w_vm w) → user_ttbr0 E w2 = r.
Proof.
  intros Hv. pose proof (ki_world _ _ _ _ _ Hk) as [[_ _ Hlk] _]. cbn [k_world] in *. unfold user_ttbr0. rewrite Hv, list_lookup_insert_eq.
  - cbn [installed]. rewrite (proj2 (Z.eqb_neq _ _)); [done|]. eapply pool_root_valid; [apply Hk|done].
  - by rewrite (proj2 (ro_apart _ _ (lk_roots _ _ _ Hlk))).
Qed.

Lemma commit_spec :
  wp (commit_exec_image E pid st) (λ res k', res = (rs_image (pr_resources p), mkUserThreadResources a stack) ∧
    ∃ w2 t2, k' = mkKernel w2 t2 (set_mm_ttbr0 r m1) ∧ swapped w2 ∧ table_ok t2 ∧ updated t t2 pid (Some new_record)) (mkKernel w t m1).
Proof.
  destruct Hcall as [C1 C2 C3 C4 C5 C6 C7]. pose proof (ki_world _ _ _ _ _ Hk) as Hkw. cbn [k_world k_procs] in *. destruct caller_home as (Hh & Hoa & Hop).
  apply wp_bind, wp_on_procs, wp_slot_or. rewrite C5. apply wp_ret, wp_bind, wp_on_world.
  eapply wp_mono; [apply (replace_user_spec E (N:=N) Hcpu Harch w th thread _ na (si_stack st) Hkw C1 C3 C4 Howner);
    by apply (fresh_root_free E N spaces pool k)|].
  intros rr w1 (Hk1 & _ & -> & Hs1 & Hv1 & Ha1). rewrite (new_root_ttbr0 w1 Hv1). cbv iota. apply wp_bind, wp_on_procs.
  eapply wp_mono; [apply (swap_spec t pid p na (si_user_image st) (ki_table _ _ _ _ _ Hk) C5 C7); congruence|].
  intros old t2 (-> & Ht2 & _ & Hu2). apply wp_bind, wp_on_world, wp_bind.
  eapply (wp_reads _ _ _ frame); [by rewrite Ha1, Hframe|]. apply wp_modify, wp_ret. split; [done|].
  assert (∀ f, user_ttbr0 E (set_w_active f w1) = r) as Ht by (intros f; by apply new_root_ttbr0).
  eexists _, t2. split; [by rewrite Ht|]. split; [|by split]. destruct Hk1 as [Hw1 Hsp1]. split.
  - split; [|done]. apply world_ok_active; [done|]. rewrite length_insert. apply (hw_active _ _ (wo_hw _ _ _ Hw1)).
  - change (thread_changed (w_sched w) (w_sched w1) th (Some new_thread)). rewrite Hs1. by apply alter_thread_changed.
  - intros c'. change (cur (w_sched w1) c' = cur (w_sched w) c' ∧ cs_online (cst (w_sched w1) c') = cs_online (cst (w_sched w) c')). by rewrite Hs1.
  - done.
  - cbn [w_active set_w_active]. by rewrite Ha1.
Qed.

(** The invariant with the new image in place. *)
Lemma exec_inv w2 t2 m' pool' :
  swapped w2 → table_ok t2 → updated t t2 pid (Some new_record) → ranges_ok m' → machine_ok m' (({[r]} ∪ spaces) ∖ {[root_pa a]}) pool' → mm_ttbr0 m' = r →
  kernel_inv E N (({[r]} ∪ spaces) ∖ {[root_pa a]}) pool' (mkKernel w2 t2 m').
Proof.
  intros [S1 S2 S3 S4 S5] Ht2 Hu2 Hrg Hm' Httbr. destruct Hk as [I1 I2 I3 I4 I5 I6 I7 IU I8]. cbn [k_world k_procs k_mmu] in *.
  pose proof (um_space _ _ _ _ _ _ Hmemory) as Hold. assert (r ≠ root_pa a) as Hne by (intros Hx; by rewrite Hx in Hfresh).
  assert (∀ x tx r0, live (w_sched w2) x tx → thread_root tx = Some r0 → x = th ∧ r0 = r ∨ x ≠ th ∧ live (w_sched w) x tx ∧ r0 ∈ spaces ∧ r0 ≠ root_pa a) as Hcase.
  { intros x tx r0 Hl Hr0. unfold live in *. rewrite S2 in Hl. case_decide as Hx; [left; split; [done|]; injection Hl as <-; by injection Hr0 as <-|].
    right. split_and!; [done|done|by eapply I6|]. intros ->. apply Hx. eapply IU; [exact Hl|apply (ca_thread _ _ _ _ _ _ _ _ Hcall)|exact Hr0|].
    unfold thread_root. by rewrite (ca_user _ _ _ _ _ _ _ _ Hcall). }
  split; cbn [k_world k_procs k_mmu]; [done|done|done|done| | | | |].
  - unfold synced. by rewrite Httbr, (new_root_ttbr0 w2 S4).
  - intros x tx r0 Hl Hr0. destruct (Hcase x tx r0 Hl Hr0) as [[_ ->]|(_ & _ & ? & ?)]; set_solver.
  - intros c' u. rewrite S4. intros Hu. destruct (decide (c' = c)) as [->|Hc].
    + right. rewrite list_lookup_insert_eq in Hu by (by eapply list_lookup_insert_Some in Hu as [(_ & _ & ?)|[? _]]). injection Hu as <-. cbn [installed]. set_solver.
    + rewrite list_lookup_insert_ne in Hu by done. destruct (I7 c' u Hu) as [?|Hin]; [by left|right].
      apply elem_of_difference. split; [set_solver|]. rewrite elem_of_singleton. intros Hx. apply Hc. by eapply old_root_here.
  - intros x1 tx1 x2 tx2 r0 L1 L2 R1 R2. destruct (Hcase _ _ _ L1 R1) as [[-> ->]|(N1 & L1' & Hr1 & _)], (Hcase _ _ _ L2 R2) as [[-> E2]|(N2 & L2' & Hr2 & _)];
      [done|done|by subst r0|by eapply IU].
  - intros q pq thq Hq Hrq Hmq. rewrite Hu2 in Hq. case_decide as Hqp.
    + injection Hq as <-. subst q. pose proof (ca_main _ _ _ _ _ _ _ _ Hcall) as Hth. cbn in Hmq. rewrite Hth in Hmq. injection Hmq as <-.
      exists new_thread, (mkUserThreadResources na (si_stack st)). split; [|done]. unfold live. by rewrite S2, decide_True.
    + destruct (I8 q pq thq Hq Hrq Hmq) as (tq & u & Hl & Hu & Ha). destruct (decide (thq = th)) as [->|Hthq].
      * destruct Hqp. eapply (main_unique t q pid); [done|exact Hq|apply (ca_slot _ _ _ _ _ _ _ _ Hcall)|exact Hmq|apply (ca_main _ _ _ _ _ _ _ _ Hcall)|done|done|apply (ca_running _ _ _ _ _ _ _ _ Hcall)].
      * exists tq, u. split; [|done]. unfold live in *. by rewrite S2, decide_False.
Qed.
End commit.

(** ** The new program in memory *)

Section image.
Context (st : StagedProcessImage) (m1 m' : Mmu) (data : list Z) (args : ExecArgs) (fuel : nat) (X O : gset Z) (start : Z).
Abbreviation r := (root_pa (si_address_space st)).
Abbreviation segs := (ui_segments (si_user_image st)).
Abbreviation taken := (segs_set segs ∪ run_set start stack_pages).
Abbreviation spaces' := (({[r]} ∪ spaces) ∖ {[root_pa a]}).
Abbreviation pool' := (pool ∖ taken ∪ X ∪ O).
Hypothesis Hst : exec_image_ok minimal_parse mm spaces pool data args fuel st m1.
Hypothesis Hstart : si_stack st = the_stack start.
Hypothesis Hrun : run_ok mm start stack_pages.
Hypothesis Hmapped : ∀ x, in_run stack_base stack_pages x → query_user_mapping (memory m1) r x = Some (run_info start USER_WRITE stack_base x).
Hypothesis Hsegs : segs_ok mm segs.
Hypothesis Hdis : run_set start stack_pages ## segs_set segs.
Hypothesis Hstaging : staging mm spaces pool r taken m1.
Hypothesis HX : X ## pool.
Hypothesis HO : O ## pool.
Hypothesis Hkept : ∀ b n, run_ok mm b n → run_ok m' b n.
Hypothesis Ho : untouched (λ f, f ∈ pool') m1 m'.
Hypothesis Hq : same_queries spaces' m1 m'.
Hypothesis Hm' : machine_ok m' spaces' pool'.

Lemma new_space : r ∈ spaces'.
Proof.
  pose proof (um_space _ _ _ _ _ _ Hmemory) as Hold. pose proof (ei_fresh _ _ _ _ _ _ _ _ _ Hst) as Hfr.
  apply elem_of_difference. split; [apply in_new|]. rewrite elem_of_singleton. intros Hx. by rewrite Hx in Hfr.
Qed.

Lemma taken_apart Y : Y ⊆ taken → Y ## pool'.
Proof. intros HY. pose proof (stg_taken _ _ _ _ _ _ Hstaging) as Hsub. set_solver. Qed.

Lemma new_seg_run ph b n : seg_of ph b n ∈ segs → run_ok mm b n ∧ run_set b n ⊆ taken.
Proof.
  intros Hin. destruct Hsegs as [Hf _]. rewrite Forall_forall in Hf. destruct (Hf _ Hin) as (b' & n' & Hr' & Hok).
  destruct (seg_of_run ph b n) as [E1 E2]. destruct Hr' as [E1' E2']. rewrite E1 in E1'. injection E1' as <- E1'. rewrite E2 in E2'.
  assert (n' = n) as -> by (unfold PAGE_SIZE in *; lia). split; [done|]. apply seg_set_sub in Hin. rewrite (seg_set_run _ b n) in Hin by apply seg_of_run. set_solver.
Qed.

Lemma new_seg_at ph b n : seg_of ph b n ∈ segs → seg_at m1 r data ph b n → seg_at m' r data ph b n.
Proof.
  intros Hin [Hm Hh]. destruct (new_seg_run ph b n Hin) as [Hok Hsub]. split.
  - intros x Hx. rewrite (Hq r x new_space). by apply Hm.
  - eapply (run_holds_back m1 m'); [exact Hm'|by apply Hkept|by apply taken_apart|exact Ho|exact Hh].
Qed.

Lemma new_stack_view i : (0 <= i < USER_STACK_SIZE)%Z → space_byte m' r (stack_base + i) = space_byte m1 r (stack_base + i).
Proof.
  intros Hi. assert (load_byte (memory m') (start + i) = load_byte (memory m1) (start + i)) as Hb.
  { apply (run_holds_back m1 m' spaces' pool' start stack_pages (λ i, load_byte (memory m1) (start + i)));
      [exact Hm'|by apply Hkept|apply taken_apart; set_solver|exact Ho|done|by rewrite stack_pages_size]. }
  unfold space_byte. rewrite (Hq r _ new_space). rewrite Hmapped by (unfold in_run; rewrite stack_pages_size; lia).
  cbn [mbind option_bind run_info um_readable um_pa]. replace (start + (stack_base + i - stack_base))%Z with (start + i)%Z by lia. by rewrite Hb.
Qed.

Lemma new_args : reads_args m' r fuel (si_initial_sp st) args.
Proof. intros byte Hb. apply (ei_args _ _ _ _ _ _ _ _ _ Hst). intros i Hi. rewrite Hb by done. by apply new_stack_view. Qed.

Lemma new_memory : user_memory m' spaces' pool' r (si_user_image st) (si_stack st).
Proof.
  split; [apply new_space| | | | |].
  - apply Forall_forall. intros sg Hsg. destruct (ei_only _ _ _ _ _ _ _ _ _ Hst sg Hsg) as (ph & b & n & -> & [_ _ [Hw1 Hw2] _ _] & Hat).
    destruct (new_seg_run ph b n Hsg) as [Hok Hsub]. exists b, n. split; [apply seg_of_run|]. destruct (new_seg_at ph b n Hsg Hat) as [Hm _].
    split; [by apply Hkept|by apply taken_apart| |done]. cbn [sg_va seg_of]. split_and!; [unfold USER_TEXT_BASE in *; lia|apply align_down_spec|unfold USER_STACK_TOP, u64_max in *; lia].
  - exists start, stack_pages. rewrite Hstart. split; [done|]. split; [done|]. split; [by apply Hkept|apply taken_apart; set_solver|done|].
    intros x Hx. rewrite (Hq r x new_space). by apply Hmapped.
  - destruct Hsegs as [Hf Hs]. split; [|done]. eapply Forall_impl; [exact Hf|]. intros sg (b & n & ? & ?). exists b, n. split; [done|by apply Hkept].
  - rewrite Hstart. intros b n Eb. injection Eb as <- Eb. assert (n = stack_pages) as -> by (pose proof stack_pages_size; unfold PAGE_SIZE in *; lia). done.
  - intros x Hx. rewrite (Hq r x new_space). rewrite Hstart. intros [?|Hin]%(ei_mapped _ _ _ _ _ _ _ _ _ Hst); [by left|right|done].
    unfold in_run in Hin. rewrite stack_pages_size in Hin. done.
Qed.
End image.

(** ** The whole call *)

Record exec_failed (k' : Kernel) : Prop := {
  xf_world : k_world k' = w;
  xf_table : k_procs k' = t;
  xf_kept : kept mm (k_mmu k');
  xf_memory : untouched (λ f, f ∈ pool) mm (k_mmu k');
  xf_spaces : spaces_kept spaces mm (k_mmu k');
  xf_inv : kernel_inv E N spaces pool k'
}.

Abbreviation old_frames := (owned_frames image stack).

(** The process runs the program [data] with [args], as [st] describes it. *)
Record execed (data : list Z) (args : ExecArgs) (fuel : nat) (st : StagedProcessImage) (pool' : gset Z) (k' : Kernel) : Prop := {
  xe_fresh : root_pa (si_address_space st) ∉ spaces;
  xe_slot : pt_slot (k_procs k') pid = Some (new_record st);
  xe_others : ∀ q, q ≠ pid → pt_slot (k_procs k') q = pt_slot t q;
  xe_threads : thread_changed (w_sched w) (w_sched (k_world k')) th (Some (new_thread st));
  xe_caller : calling E k' pid (new_record st) th (new_thread st) (si_address_space st) (si_stack st);
  xe_frames : w_active (k_world k') = <[c := replace_user_context_after_exec frame (si_entry st) (si_initial_sp st)]> (w_active w);
  xe_file : ∃ file phs, minimal_parse data = Some file ∧ ef_segments file = Some phs ∧ si_entry st = ef_entry file ∧
    ∀ ph, ph ∈ phs → p_type ph = PT_LOAD → p_memsz ph ≠ 0%Z →
      ∃ start n, placed data ph n ∧ seg_at (k_mmu k') (root_pa (si_address_space st)) data ph start n;
  xe_args : reads_args (k_mmu k') (root_pa (si_address_space st)) fuel (si_initial_sp st) args;
  xe_sp : (si_initial_sp st mod 16 = 0)%Z ∧ (stack_base <= si_initial_sp st < USER_STACK_TOP)%Z;
  xe_memory : user_memory (k_mmu k') (({[root_pa (si_address_space st)]} ∪ spaces) ∖ {[root_pa a]}) pool' (root_pa (si_address_space st)) (si_user_image st) (si_stack st);
  xe_returned : old_frames ⊆ pool' ∧ pool' ⊆ pool ∪ old_frames;
  xe_taken : owned_frames (si_user_image st) (si_stack st) ⊆ pool;
  xe_outside : untouched (λ f, f ∈ pool ∪ old_frames) mm (k_mmu k');
  xe_spaces : spaces_kept (spaces ∖ {[root_pa a]}) mm (k_mmu k');
  xe_inv : kernel_inv E N (({[root_pa (si_address_space st)]} ∪ spaces) ∖ {[root_pa a]}) pool' k'
}.

Lemma old_stack_run : ∃ start n, stack_frames stack = run_range start n ∧ run_ok mm start n ∧ run_set start n ## pool ∧ stack_set stack = run_set start n.
Proof.
  destruct (um_stack _ _ _ _ _ _ Hmemory) as (start & n & E1 & E2 & [R1 R2 _ _]). exists start, n. split_and!; [done|done|done|].
  unfold stack_set. rewrite E2, Z.div_mul, Nat2Z.id by done. by injection E1 as -> _.
Qed.

Lemma old_root_gone st w2 :
  swapped st w2 → root_pa (si_address_space st) ≠ root_pa a → existsb (λ c, (installed c =? root_pa a)%Z) (w_vm w2) = false.
Proof.
  intros Hsw Hne. destruct (existsb _ _) eqn:Hx; [|done]. apply existsb_exists in Hx as (u & Hu & Hx). apply Z.eqb_eq in Hx.
  apply list_elem_of_In, list_elem_of_lookup in Hu as [c' Hu]. rewrite (sw_vm _ _ Hsw) in Hu.
  apply list_lookup_insert_Some in Hu as [(_ & <- & _)|[Hc Hu]]; [done|]. destruct Hc. symmetry. by eapply old_root_here.
Qed.

(** What the retirement of the old image leaves. *)
Lemma exec_done data args fuel st m1 w2 t2 m' start ob on :
  owner_cpu (si_address_space st) = c → exec_image_ok minimal_parse mm spaces pool data args fuel st m1 → si_stack st = the_stack start → run_ok mm start stack_pages →
  (∀ x, in_run stack_base stack_pages x → query_user_mapping (memory m1) (root_pa (si_address_space st)) x = Some (run_info start USER_WRITE stack_base x)) →
  segs_ok mm (ui_segments (si_user_image st)) → run_set start stack_pages ## segs_set (ui_segments (si_user_image st)) →
  let taken := segs_set (ui_segments (si_user_image st)) ∪ run_set start stack_pages in
  let pool' := pool ∖ taken ∪ run_set ob on ∪ segs_set (ui_segments image) in
  let spaces' := ({[root_pa (si_address_space st)]} ∪ spaces) ∖ {[root_pa a]} in
  staging mm spaces pool (root_pa (si_address_space st)) taken m1 →
  stack_set stack = run_set ob on → run_set ob on ## pool → segs_set (ui_segments image) ## pool →
  swapped st w2 → table_ok t2 → updated t t2 pid (Some (new_record st)) →
  kept (set_mm_ttbr0 (root_pa (si_address_space st)) m1) m' → untouched (λ f, f ∈ pool') m1 m' → same_queries spaces' m1 m' → machine_ok m' spaces' pool' →
  execed data args fuel st pool' (mkKernel w2 t2 m').
Proof.
  intros Howner Hst Hstart Hrun Hmapped Hsegs Hdis taken pool' spaces' Hstg Eset Hod Hsd Hsw Ht2 Hu2 K O Q Hm'.
  pose proof (stg_kept _ _ _ _ _ _ Hstg) as K1. assert (∀ b n, run_ok mm b n → run_ok m' b n) as Hro.
  { intros b n Hb. eapply run_ok_kept; [exact K|]. destruct (run_ok_kept mm m1 b n K1 Hb). by split. }
  assert (old_frames = run_set ob on ∪ segs_set (ui_segments image)) as Eold by (unfold owned_frames; by rewrite Eset).
  destruct (returned_frames pool taken (run_set ob on) (segs_set (ui_segments image))) as [R1 R2].
  pose proof Hst as [Hfresh Hroot (file & phs & Hfile & Hphs & Hentry & Hheads) _ _ Hsp _ _].
  split; cbn [k_world k_procs k_mmu]; try rewrite Eold.
  - exact Hfresh.
  - by apply (updated_at _ _ _ _ Hu2).
  - intros q. by apply (updated_other _ _ _ _ _ Hu2).
  - apply Hsw.
  - destruct Hcall as [C1 C2 C3 C4 C5 C6 C7]. destruct (sw_cur _ _ Hsw c) as [Ec Eo]. cbn [k_world k_procs] in *.
    split; cbn [k_world k_procs]; [by rewrite Ec|by rewrite Eo| |done|by apply (updated_at _ _ _ _ Hu2)|done|done].
    unfold live. by rewrite (sw_thread _ _ Hsw), decide_True.
  - apply Hsw.
  - exists file, phs. split_and!; [done|done|done|]. intros ph Hph Ht Hz. destruct (Hheads ph Hph Ht Hz) as (b & n & Hin & Hpl & Hat). exists b, n. split; [done|].
    by apply (new_seg_at st m1 m' data args fuel _ _ start Hst Hstart Hrun Hmapped Hsegs Hdis Hstg Hod Hsd Hro O Q Hm').
  - exact (new_args st m1 m' data args fuel _ _ start Hst Hstart Hrun Hmapped Hsegs Hdis Hstg Hod Hsd Hro O Q Hm').
  - exact Hsp.
  - exact (new_memory st m1 m' data args fuel _ _ start Hst Hstart Hrun Hmapped Hsegs Hdis Hstg Hod Hsd Hro O Q Hm').
  - by split.
  - rewrite Hstart. unfold owned_frames. change (stack_set (the_stack start)) with (run_set start stack_pages).
    pose proof (stg_taken _ _ _ _ _ _ Hstg) as Hsub. intros f Hf. apply Hsub. apply elem_of_union. apply elem_of_union in Hf. tauto.
  - eapply untouched_trans; [|apply (stg_out _ _ _ _ _ _ Hstg)|]; [intros f Hf; apply elem_of_union; by left|]. eapply untouched_mono; [|exact O]. intros f Hf. by apply R2.
  - intros r0 x [Hr0 Hr1]%elem_of_difference Hx. rewrite Q; [by apply (stg_spaces _ _ _ _ _ _ Hstg)|].
    apply elem_of_difference. split; [apply elem_of_union; by right|done].
  - apply (exec_inv st m1); try done; [by eapply ranges_ok_kept; [exact K|]; apply ranges_ok_ttbr0; eapply ranges_ok_kept; [exact K1|apply Hk]|].
    unfold kept, settings in K. by injection K as _ -> _ _ _.
Qed.

Lemma exec_commit_spec data args fuel st m1 :
  owner_cpu (si_address_space st) = c → exec_image_ok minimal_parse mm spaces pool data args fuel st m1 →
  wp ('(old, old_stack) ← commit_exec_image E pid st;
      on_mmu (user_stack_drop (ur_stack old_stack));; cleanup_process_image_resources old;; mret (inl tt))
     (λ res k', res = (inl tt : unit + Errno) ∧ ∃ pool', execed data args fuel st pool' k') (mkKernel w t m1).
Proof.
  intros Howner Hst. pose proof Hst as [Hfresh Hroot _ _ _ _ (start & Hstart & Hrun & Hmapped & Hsegs & Hdis & Hstg) _].
  destruct Hmemory as [M1 M2 M3 M4 M5 _]. destruct old_stack_run as (ob & on & Eo & Hor & Hod & Eset). pose proof (segs_apart _ _ _ _ M2) as Hsd.
  assert (root_pa (si_address_space st) ≠ root_pa a) as Hne by (intros Hx; by rewrite Hx in Hfresh). pose proof (stg_kept _ _ _ _ _ _ Hstg) as K1.
  apply wp_bind. eapply wp_mono; [apply (commit_spec st m1 Howner Hfresh Hroot)|]. intros [old os] k2 ([= -> ->] & w2 & t2 & -> & Hsw & Ht2 & Hu2).
  rewrite caller_image. cbn [ur_stack].
  eapply wp_mono; [apply (retire_spec w2 t2 _ ({[root_pa (si_address_space st)]} ∪ spaces)
    (pool ∖ (segs_set (ui_segments (si_user_image st)) ∪ run_set start stack_pages)) a image stack (run_set ob on))|].
  - apply machine_ok_ttbr0, Hstg.
  - apply ranges_ok_ttbr0. eapply ranges_ok_kept; [exact K1|apply Hk].
  - apply elem_of_union. by right.
  - unfold current_root. cbn [mm_ttbr0 set_mm_ttbr0]. rewrite land_addr_mask; [done|].
    apply table_page_frame. destruct (ki_machine _ _ _ _ _ Hk) as (T & l & Hm0 & _). by apply (mk_frames _ _ _ _ Hm0).
  - by apply (old_root_gone st).
  - apply segs_ok_ttbr0. by eapply segs_ok_kept.
  - exists ob, on. split_and!; [done| |done]. destruct (run_ok_kept mm m1 ob on K1 Hor) as [? ?]. by split.
  - intros f Hf [Hf2 _]%elem_of_difference. by apply (Hod f).
  - intros f Hf [[Hf2 _]%elem_of_difference|Hf2]%elem_of_union; [by apply (Hsd f)|]. by apply (M5 ob on Eo f).
  - intros res [w' t' m'] (-> & Hw' & Ht' & K & O & Q & Hm'). cbn [k_world k_procs k_mmu] in *. subst w' t'. split; [done|]. eexists. by eapply exec_done.
Qed.

Lemma execve_spec path args fuel :
  files_ok minimal_parse s → Forall text (ea_argv args) → Forall text (ea_envp args) → (USER_STACK_SIZE <= Z.of_nat fuel)%Z →
  wp (execve_current E s reserve minimal_parse path args) (λ res k', match res with
    | inl _ => ∃ i data st pool', rp_node path = NodeFile i ∧ file_data s i = Some data ∧ execed data args fuel st pool' k'
    | inr _ => exec_failed k'
    end) k.
Proof.
  intros Hfiles Ha He Hf. pose proof Hk as [I1 I2 I3 I4 I5 I6 I7 IU I8]. cbn [k_world k_procs k_mmu] in *. destruct caller_home as (_ & _ & Hop).
  apply wp_bind, (wp_current_process E w t mm spaces pool pid p th thread a stack Hcpu Hk Hcall). apply wp_bind, wp_on_procs, wp_slot_or.
  pose proof (ca_slot _ _ _ _ _ _ _ _ Hcall) as Hslot. cbn [k_procs] in Hslot. rewrite Hslot. apply wp_bind.
  eapply wp_reads; [unfold process_owner; by rewrite Hop|]. apply wp_ret. cbv iota beta. apply wp_try, wp_on_mmu.
  eapply wp_mono; [apply (stage_exec_spec minimal_parse reserve s mm spaces pool path args c fuel); try done; apply (current_root_space E N spaces pool k Hk)|].
  intros [st|e] m1 (K & O & Q & Hres); cbv iota beta.
  - destruct Hres as (Ho & i & data & Hi & Hd & Hst). eapply wp_mono; [by apply (exec_commit_spec data args fuel st m1)|].
    intros res k' (-> & pool' & Hx). by exists i, data, st, pool'.
  - split; [done|done|done|done|done|]. by apply (undone_inv E w t mm spaces pool Hk).
Qed.
End exec.
