(* ===== verification/SyscallSpec.v ===== *)
(** * System calls: the building blocks

    What one step of a handler does to the machine: user copies, descriptor
    operations, path resolution, and storing the result, for a process that
    runs on the executing CPU.  [safe] says that a computation returns, keeps
    the caller's invariant and stays within the caller's own frames and the
    allocator's; it composes. *)

From stdpp Require Import gmap sorting.
From S2P Require Import Prelude Types Wait TimeConv Deadline Preempt Context Time MemMap MemMapSpec FrameAlloc FrameSpec MemInit.
From S2P Require Import PageTable PageTableSpec AddressSpace PhysMem UserCopy UserAccess UserSafety UserImage FrameRuns ImageSafety Ramfs RamfsSpec Mount PathRes FdTable ExecStack ExecRead.
From S2P Require Import Vm Sched World Transition Handoff CpuInv SchedInv Switch Lifecycle TransitionSpec LifecycleSpec WorldInv TimeSpec.
From S2P Require Import SwitchSpec WakeSpec Frames EntrySpec BlockSpec JoinSpec ThreadSpec SpawnSpec Console ConsoleSpec.
From S2P Require Import Staging StageSafety CloneSpec Process ProcessOps Syscall ProcSpec ProcHistory ForkSpec ProcKernel ExecKernel.
#[local] Open Scope Z_scope.

(** ** Stores through the user's mappings *)

(** A machine that differs from [m] in the program's own bytes. *)
Record stored (spaces pool own : gset Z) (m m' : Mmu) : Prop := {
  sd_kept : kept m m';
  sd_out : untouched (λ f, f ∈ own) m m';
  sd_queries : same_queries spaces m m';
  sd_machine : machine_ok m' spaces pool
}.

Lemma stored_refl spaces pool own m : machine_ok m spaces pool → stored spaces pool own m m.
Proof. by split. Qed.

Section store.
Context (m : Mmu) (spaces pool : gset Z) (r : Z) (image : UserElfImage) (stack : OwnedUserStack).
Hypothesis Hm : machine_ok m spaces pool.
Hypothesis Hu : user_memory m spaces pool r image stack.
Hypothesis Hr : ttbr0_root m = r.
Abbreviation own := (owned_frames image stack).

Lemma store_own st :
  (∀ y, align_down y PAGE_SIZE ∉ own → st !! y = memory m !! y) → stored spaces pool own m (set_memory (λ _, st) m).
Proof.
  intros Hst. destruct (machine_outside m spaces pool st Hm) as [Hm' Hq].
  { intros y Hy. apply Hst. intros Hin. by apply (owned_apart _ _ _ _ _ _ Hu _ Hin). }
  split; [apply kept_memory| |intros r0 a; apply Hq|done].
  intros y Hy. cbn. apply Hst. intros Hin. apply (Hy _ Hin). destruct (align_down_spec y) as [_ ?]. unfold on_page. lia.
Qed.

Lemma store_copy va src :
  (∀ a, va <= a < va + Z.of_nat (length src) → accessible m AccessWrite a) →
  stored spaces pool own m (set_memory (λ _, store_at (memory m) (user_pas m va (length src)) src) m).
Proof.
  intros Hall. apply store_own. intros y Hy. apply store_at_word. intros pa (k & Hk)%list_elem_of_lookup <-. apply Hy. rewrite word_addr_page.
  assert (k < length src)%nat as Hlt by (apply lookup_lt_Some in Hk; unfold user_pas in Hk; by rewrite length_fmap, length_seq in Hk).
  destruct (user_pas_lookup m AccessWrite va (length src) k Hall Hlt) as (pa' & Hk' & Htr). rewrite Hk in Hk'. injection Hk' as <-.
  rewrite Hr in Htr. eapply user_frame; [exact Hu| |exact Htr]. destruct (Hall (va + Z.of_nat k)) as [[? _] _]; [lia|]. unfold USER_TEXT_BASE in *. lia.
Qed.
End store.

(** ** The caller *)

(** Who calls: the process, its thread and its memory, and what the kernel
    keeps of it. *)
Record Caller := mkCaller {
  cl_spaces : gset Z; cl_pool : gset Z; cl_pid : ProcessId; cl_process : Process; cl_tid : ThreadId; cl_thread : Thread;
  cl_space : AddressSpaceId; cl_stack : OwnedUserStack; cl_image : UserElfImage; cl_cwd : list (list Z); cl_frame : TrapFrame
}.

(** The frames a call may write: the allocator's and the caller's own. *)
Definition footprint (x : Caller) : gset Z := cl_pool x ∪ owned_frames (cl_image x) (cl_stack x).
(** The other address spaces. *)
Definition others (x : Caller) : gset Z := cl_spaces x ∖ {[root_pa (cl_space x)]}.

(** A later state of the same caller. *)
Record within (x x' : Caller) : Prop := {
  wi_pid : cl_pid x' = cl_pid x;
  wi_tid : cl_tid x' = cl_tid x;
  wi_foot : footprint x' ⊆ footprint x;
  wi_others : others x ⊆ others x'
}.

#[global] Instance within_preorder : PreOrder within.
Proof. split; [by split|]. intros x y z [] []. split; [congruence|congruence|set_solver|set_solver]. Qed.

(** The strings of the mounted tree are text. *)
Definition ramfs_text (s : FsState) : Prop :=
  ∀ fs, RAMFS s = Some fs → Forall (λ d, text (rd_path d) ∧ Forall (λ e, text (rde_name e)) (rd_entries d)) (fs_dirs fs) ∧
    Forall (λ f, text (rf_path f)) (fs_files fs).

(** The CPU numbers the process table holds. *)
Definition cpus_bounded (t : ProcessTable) : Prop :=
  ∀ q p, pt_slot t q = Some p → ∀ c, pr_owner_cpu p = Some c ∨ pr_pending_fork_cpu p = Some c → (c < KERNEL_CPU_CAPACITY)%nat.

Section caller.
Context (E : Env) (N : nat) (tree : FsState).

Record here (x : Caller) (y : Sys) : Prop := {
  he_kernel : kernel_inv E N (cl_spaces x) (cl_pool x) (y_kernel y);
  he_calling : calling E (y_kernel y) (cl_pid x) (cl_process x) (cl_tid x) (cl_thread x) (cl_space x) (cl_stack x);
  he_image : im_user_image (rs_image (pr_resources (cl_process x))) = Some (cl_image x);
  he_memory : user_memory (k_mmu (y_kernel y)) (cl_spaces x) (cl_pool x) (root_pa (cl_space x)) (cl_image x) (cl_stack x);
  he_frame : w_active (k_world (y_kernel y)) !! e_cpu E = Some (cl_frame x);
  he_cwd : path_ok (cl_cwd x) ∧ ∃ dir, pf_cwd_dir (rs_files (pr_resources (cl_process x))) = Some dir ∧ lookup_dir tree (render (cl_cwd x)) = Some dir;
  he_tree : RAMFS (y_fs y) = RAMFS tree;
  he_console : ∃ q, tx_holds (co_tx (y_console y)) q;
  he_cpus : cpus_bounded (k_procs (y_kernel y))
}.

(** What a call of [x] leaves alone. *)
Record confined (x : Caller) (y y' : Sys) : Prop := {
  cf_memory : untouched (λ f, f ∈ footprint x) (k_mmu (y_kernel y)) (k_mmu (y_kernel y'));
  cf_spaces : spaces_kept (others x) (k_mmu (y_kernel y)) (k_mmu (y_kernel y'));
  cf_processes : ∀ q p, q ≠ cl_pid x → pt_slot (k_procs (y_kernel y)) q = Some p → pt_slot (k_procs (y_kernel y')) q = Some p;
  cf_threads : ∀ tid t, tid ≠ cl_tid x → live (w_sched (k_world (y_kernel y))) tid t → live (w_sched (k_world (y_kernel y'))) tid t;
  cf_frames : ∀ c, c ≠ e_cpu E → w_active (k_world (y_kernel y')) !! c = w_active (k_world (y_kernel y)) !! c;
  cf_stdin : y_stdin y' = y_stdin y
}.

Lemma confined_refl x y : confined x y y.
Proof. by split. Qed.

Lemma confined_trans x x' y1 y2 y3 : within x x' → confined x y1 y2 → confined x' y2 y3 → confined x y1 y3.
Proof.
  intros [W1 W2 W3 W4] [A1 A2 A3 A4 A5 A6] [B1 B2 B3 B4 B5 B6]. rewrite W1 in *. rewrite W2 in *. split.
  - eapply untouched_trans; [|exact A1|]; [done|]. eapply untouched_mono; [|exact B1]. intros f Hf. by apply W3.
  - intros r a Hr Ha. rewrite B2, A2; [done|done|done|by apply W4|done].
  - intros q p Hq Hp. apply B3; [done|]. by apply A3.
  - intros q p Hq Hp. apply B4; [done|]. by apply A4.
  - intros c Hc. by rewrite B5, A5.
  - congruence.
Qed.

(** The computation returns, with a result in [Φ], the caller's invariant and
    nothing else touched. *)
Definition safe {A} (Φ : A → Prop) (m : Y A) : Prop :=
  ∀ x y, here x y → wp m (λ r y', Φ r ∧ ∃ x', here x' y' ∧ within x x' ∧ confined x y y') y.

Lemma safe_ret {A} (Φ : A → Prop) a : Φ a → safe Φ (mret a).
Proof. intros Ha x y Hx. apply wp_ret. split; [done|]. exists x. split_and!; [done|done|apply confined_refl]. Qed.

Lemma safe_mono {A} (Φ Ψ : A → Prop) m : safe Φ m → (∀ a, Φ a → Ψ a) → safe Ψ m.
Proof. intros Hm HΦ x y Hx. eapply wp_mono; [by apply Hm|]. intros a y' [Ha H]. split; [by apply HΦ|done]. Qed.

Lemma safe_bind {A B} (Φ : A → Prop) (Ψ : B → Prop) (m : Y A) (k : A → Y B) :
  safe Φ m → (∀ a, Φ a → safe Ψ (k a)) → safe Ψ (a ← m; k a).
Proof.
  intros Hm Hk x y Hx. apply wp_bind. eapply wp_mono; [by apply Hm|]. intros a y1 (Ha & x1 & Hx1 & W1 & C1).
  eapply wp_mono; [by apply (Hk a Ha x1)|]. intros b y2 (Hb & x2 & Hx2 & W2 & C2). split; [done|].
  exists x2. split_and!; [done|by etrans|by eapply confined_trans].
Qed.

(** [?] *)
Definition good {A} (Φ : A → Prop) (r : A + Errno) : Prop := match r with inl a => Φ a | inr _ => True end.
Abbreviation any := (λ _, True).

Lemma safe_try {A B} (Φ : A → Prop) (Ψ : B → Prop) (m : Y (A + Errno)) (k : A → Y (B + Errno)) :
  safe (good Φ) m → (∀ a, Φ a → safe (good Ψ) (k a)) → safe (good Ψ) (try_bind m k).
Proof. intros Hm Hk. apply (safe_bind (good Φ)); [done|]. intros [a|e] Ha; [by apply Hk|by apply safe_ret]. Qed.

Lemma safe_fails {A F} (Φ : A → Prop) (f : F → Errno) (m : Y (A + F)) :
  safe (λ r, match r with inl a => Φ a | inr _ => True end) m → safe (good Φ) (fails_as f m).
Proof. intros Hm. eapply safe_bind; [exact Hm|]. intros [a|e] Ha; by apply safe_ret. Qed.

Lemma safe_lift {A} (Φ : A → Prop) r : good Φ r → safe (good Φ) (lift r).
Proof. apply safe_ret. Qed.

Lemma safe_if {A} (Φ : A → Prop) (b : bool) m1 m2 : safe Φ m1 → safe Φ m2 → safe Φ (if b then m1 else m2).
Proof. by destruct b. Qed.
End caller.

(** ** Parts of the state *)

Lemma wp_on_kernel {A} (m : FsState → P A) Q y :
  wp (m (y_fs y)) (λ a k, Q a (mkSys k (y_fs y) (y_stdin y) (y_console y))) (y_kernel y) → wp (on_kernel m) Q y.
Proof. unfold wp, on_kernel. by destruct (m (y_fs y) (y_kernel y)) as [[a k]|]. Qed.

Lemma wp_on_fs {A} (m : FS A) Q y :
  wp m (λ a s, Q a (mkSys (y_kernel y) s (y_stdin y) (y_console y))) (y_fs y) → wp (on_fs m) Q y.
Proof. unfold wp, on_fs. by destruct (m (y_fs y)) as [[a s]|]. Qed.

Lemma wp_on_console f c' Q y :
  f (y_console y) = Done c' → Q tt (mkSys (y_kernel y) (y_fs y) (y_stdin y) c') → wp (on_console f) Q y.
Proof. unfold wp, on_console. by intros ->. Qed.

Lemma kernel_eta k : mkKernel (k_world k) (k_procs k) (k_mmu k) = k.
Proof. by destruct k. Qed.

Definition with_kernel (k : Kernel) (y : Sys) : Sys := mkSys k (y_fs y) (y_stdin y) (y_console y).
Definition with_world (w : World) (y : Sys) : Sys := with_kernel (mkKernel w (k_procs (y_kernel y)) (k_mmu (y_kernel y))) y.
Definition with_procs (t : ProcessTable) (y : Sys) : Sys := with_kernel (mkKernel (k_world (y_kernel y)) t (k_mmu (y_kernel y))) y.
Definition with_mmu (m : Mmu) (y : Sys) : Sys := with_kernel (mkKernel (k_world (y_kernel y)) (k_procs (y_kernel y)) m) y.

Definition with_frame (f : TrapFrame) (x : Caller) : Caller :=
  mkCaller (cl_spaces x) (cl_pool x) (cl_pid x) (cl_process x) (cl_tid x) (cl_thread x) (cl_space x) (cl_stack x) (cl_image x) (cl_cwd x) f.
Definition with_process (p : Process) (cwd : list (list Z)) (x : Caller) : Caller :=
  mkCaller (cl_spaces x) (cl_pool x) (cl_pid x) p (cl_tid x) (cl_thread x) (cl_space x) (cl_stack x) (cl_image x) cwd (cl_frame x).

Lemma wp_fails {A F} (f : F → Errno) (m : Y (A + F)) Q y :
  wp m (λ r y', Q (match r with inl a => inl a | inr e => inr (f e) end) y') y → wp (fails_as f m) Q y.
Proof. intros H. apply wp_bind. eapply wp_mono; [exact H|]. intros r y' Hr. by apply wp_ret. Qed.

Lemma wp_done_run {S A} (m : M S A) Q s a s' : m s = Done (a, s') → Q a s' → wp m Q s.
Proof. unfold wp. by intros ->. Qed.

Lemma user_byte_range m a b : user_byte m a = Some b → is_byte b.
Proof.
  unfold user_byte. destruct (decide _); [|done]. destruct (query_user_mapping _ _ _) as [info|]; simpl; [|done]. destruct (um_readable info); [|done].
  intros [= <-]. apply load_byte_range.
Qed.

(** ** Failed copies *)

Lemma check_pages_fault fuel st root cursor fin access e :
  check_pages fuel st root cursor fin access = Done (inr e) → user_copy_errno e = EFAULT.
Proof.
  revert cursor. induction fuel as [|fuel IH]; intros cursor; simpl; [by destruct (fin <=? cursor)|].
  destruct (fin <=? cursor); [done|]. destruct (query_user_mapping st root cursor) as [i|]; [|by intros [= <-]].
  unfold check_mapping. destruct (um_user i); simpl; [|by intros [= <-]].
  destruct access; [destruct (um_readable i)|destruct (um_writable i)]; try (by intros [= <-]).
  all: destruct (u64_checked_add cursor PAGE_SIZE); [apply IH|by intros [= <-]].
Qed.

Lemma validate_fault at_s1e0r current m ptr len access e :
  len ≠ 0 → access = AccessWrite → validate_user_range_unbounded at_s1e0r current m ptr len access = Done (inr e) → user_copy_errno e = EFAULT.
Proof.
  intros Hl ->. unfold validate_user_range_unbounded. rewrite (proj2 (Z.eqb_neq _ _) Hl).
  destruct (u64_checked_add _ _) as [fin|]; [|by intros [= <-]]. destruct (_ || _ || _); [by intros [= <-]|].
  rewrite bool_decide_eq_false_2 by done. cbn [andb]. destruct current; [apply check_pages_fault|by intros [= <-]].
Qed.

(** A copy out of a buffer that is neither empty nor too long fails with
    [EFAULT] alone. *)
Lemma copy_to_fault hw_translate at_s1e0r current ptr src m e m' :
  src ≠ [] → Z.of_nat (length src) <= MAX_USER_COPY →
  copy_to_user hw_translate at_s1e0r current ptr src m = Done (inr e, m') → user_copy_errno e = EFAULT.
Proof.
  intros Hne Hl. unfold copy_to_user. rewrite decide_False by done. destruct (Z.ltb_spec MAX_USER_COPY (Z.of_nat (length src))); [lia|].
  unfold try_bind, mbind, M_bind, reads. destruct (validate_user_range_unbounded at_s1e0r current m ptr (Z.of_nat (length src)) AccessWrite) as [[[]|e']|] eqn:Hv; [| |done].
  - unfold on_memory. by destruct (write_validated_user_bytes _ _ _ _).
  - intros [= <- _]. eapply validate_fault; [|reflexivity|exact Hv]. destruct src; [done|simpl; lia].
Qed.

(** The strings a user passes. *)
Lemma scanned_text granted m ptr max_len cur s : cstr_result cur granted m ptr max_len (inl s) → text s.
Proof.
  intros (_ & H0 & Hb). apply Forall_lookup. intros k b Hk. specialize (Hb k). rewrite lookup_app_l in Hb by (by eapply lookup_lt_Some).
  rewrite Hk in Hb. pose proof (user_byte_range _ _ _ (Hb ltac:(apply lookup_lt_Some in Hk; lia))) as Hr. unfold is_byte in Hr.
  assert (b ≠ 0) by (intros ->; apply H0; by eapply list_elem_of_lookup_2). lia.
Qed.

(** A whole line, or nothing, goes to the console. *)
Lemma drain_console_ok fuel pc c q :
  tx_holds (co_tx c) q → (3 * rg_len (co_tx c) + drain_weight (tx_is_empty (co_tx c)) pc ≤ fuel)%nat →
  ∃ c' q', drain_console fuel pc c = Done c' ∧ tx_holds (co_tx c') q'.
Proof.
  revert pc c q. induction fuel as [|fuel IH]; intros pc c q Hq Hf; (destruct (decide (pc = DrainLeft)) as [->|Hne]; [simpl; eauto|]).
  - destruct (drain_step_spec pc c q Hq) as (pc' & c' & Hs & _). destruct (drain_step_pays pc pc' c c' q Hq Hne Hs). lia.
  - destruct (drain_step_spec pc c q Hq) as (pc' & c' & Hs & Hm). destruct (moved pc q (in_flight pc)) as [[q' ch] sent]. destruct Hm as [Hq' _].
    destruct (drain_step_pays pc pc' c c' q Hq Hne Hs). destruct (IH pc' c' q' Hq') as (c2 & q2 & Hd & Hq2); [lia|].
    exists c2, q2. split; [|done]. destruct pc; try done; cbn [drain_console]; rewrite Hs, done_bind; exact Hd.
Qed.

Lemma write_bytes_ok bytes c q : tx_holds (co_tx c) q → ∃ c' q', write_bytes bytes c = Done c' ∧ tx_holds (co_tx c') q'.
Proof.
  intros Hq. unfold write_bytes. destruct (write_enqueue_spec c q bytes Hq) as (pc & c' & Hw & _ & _ & He). rewrite Hw, done_bind.
  case_decide; destruct He as [-> Hq']; eapply drain_console_ok; try exact Hq'; simpl; lia.
Qed.

Section steps.
Context (E : Env) {N : nat} (tree : FsState).
Context (hw_translate : gmap Z Z → Z → Z → option Z) (at_s1e0r : gmap Z Z → Z → Z → bool) (granted : nat → bool).
Hypothesis Hcpu : (e_cpu E < KERNEL_CPU_CAPACITY)%nat.
Hypothesis Hhw : ∀ st root va, hw_translate st root va = translate_user_va st root va.
Hypothesis Hat : ∀ st root va, at_s1e0r st root va = true ↔ may st root AccessRead va.
Abbreviation here := (here E N tree).
Abbreviation confined := (confined E).
Abbreviation safe := (safe E N tree).

(** The step from [y] to [y'] of the caller [x], who is [x'] now. *)
Definition step_ok (x : Caller) (y : Sys) (x' : Caller) (y' : Sys) : Prop := here x' y' ∧ within x x' ∧ confined x y y'.

Lemma safe_step {A} (Φ : A → Prop) (m : Y A) :
  (∀ x y, here x y → wp m (λ r y', Φ r ∧ ∃ x', step_ok x y x' y') y) → safe Φ m.
Proof. done. Qed.

(** ** The world *)

Lemma world_step x y f : here x y → step_ok x y (with_frame f x) (with_world (set_w_active (<[e_cpu E := f]> (w_active (k_world (y_kernel y)))) (k_world (y_kernel y))) y).
Proof.
  intros [[I1 I2 I3 I4 I5 I6 I7 IU I8] H2 H3 H4 H5 H6 H7 H8 H9]. destruct y as [[w t mm] fs sin con]. cbn [y_kernel k_world k_procs k_mmu] in *.
  assert (length (w_active w) = KERNEL_CPU_CAPACITY) as Hl by apply (hw_active _ _ (wo_hw _ _ _ (ko_world _ _ _ I1))). split; [|split].
  - split; try done; [|by destruct H2|cbn; apply list_lookup_insert_eq; by rewrite Hl]. destruct I1 as [Hw Hs].
    split; cbn; try done. split; [apply world_ok_active; [done|by rewrite length_insert]|done].
  - by split.
  - split; try done. intros c Hc. cbn. by rewrite list_lookup_insert_ne.
Qed.

Lemma clock_step x y n : here x y → step_ok x y x (with_world (set_w_reads n (k_world (y_kernel y))) y).
Proof.
  intros [[I1 I2 I3 I4 I5 I6 I7 IU I8] H2 H3 H4 H5 H6 H7 H8 H9]. destruct y as [[w t mm] fs sin con]. cbn [y_kernel k_world k_procs k_mmu] in *.
  split; [|split; [done|by split]]. split; try done; [|by destruct H2]. destruct I1 as [Hw Hs].
  split; cbn; try done. split; [|done]. destruct Hw as [? [] []]. split; [done|by split|by split].
Qed.

(** ** The address space of the caller *)

Lemma caller_root x y : here x y →
  current_user_address_space (w_vm (k_world (y_kernel y))) (Some (e_cpu E)) = Done (Some (mkAddressSpaceId (root_pa (cl_space x)) (e_cpu E))) ∧
  ttbr0_root (k_mmu (y_kernel y)) = root_pa (cl_space x) ∧ 0 <= root_pa (cl_space x).
Proof.
  intros [HK [C1 C2 C3 C4 C5 C6 C7] H3 H4 H5 H6 H7 H8 H9].
  pose proof (ko_space _ _ _ (ki_world _ _ _ _ _ HK) (e_cpu E) _ _ C2 C1 C3) as Hsp. unfold space_of, thread_root in Hsp. rewrite C4 in Hsp. cbn in Hsp.
  destruct (space_frame _ _ _ _ (ki_machine _ _ _ _ _ HK) (um_space _ _ _ _ _ _ H4)) as [Hf Hp].
  pose proof (pool_root_valid _ _ _ _ (ki_machine _ _ _ _ _ HK) Hp) as Hv.
  split_and!.
  - unfold current_user_address_space, vm_slot. rewrite Hsp. cbn [expect_o]. rewrite done_bind. unfold for_usercopy. cbn [user_access Vm.installed].
    by rewrite (proj2 (Z.eqb_neq _ _) Hv).
  - unfold ttbr0_root. rewrite (ki_ttbr _ _ _ _ _ HK). unfold user_ttbr0. rewrite Hsp. cbn [Vm.installed].
    rewrite (proj2 (Z.eqb_neq _ _) Hv). by apply land_addr_mask, table_page_frame.
  - destruct Hf as [[? _] _]. lia.
Qed.

Abbreviation current x := (Some (mkAddressSpaceId (root_pa (cl_space x)) (e_cpu E))).

Lemma caller_installed x y : here x y → UserAccess.installed (current x) (k_mmu (y_kernel y)).
Proof. intros Hx a [= <-]. by destruct (caller_root x y Hx) as (_ & -> & _). Qed.

Lemma wp_in_user {A} (f : option AddressSpaceId → K A) Q x y :
  here x y → wp (f (current x)) (λ a m, Q a (with_mmu m y)) (k_mmu (y_kernel y)) → wp (in_user E f) Q y.
Proof.
  intros Hx H. destruct (caller_root x y Hx) as (Hc & _ & _). pose proof (ki_ttbr _ _ _ _ _ (he_kernel _ _ _ _ _ Hx)) as Hs.
  apply wp_on_kernel. destruct y as [[w t mm] fs sin con]. cbn [y_kernel k_world k_mmu] in *.
  apply wp_bind, wp_on_world_aside; [done|]. eapply wp_reads; [exact Hc|]. split; [done|]. by apply wp_on_mmu.
Qed.

Lemma memory_step x y m' :
  here x y → stored (cl_spaces x) (cl_pool x) (owned_frames (cl_image x) (cl_stack x)) (k_mmu (y_kernel y)) m' → step_ok x y x (with_mmu m' y).
Proof.
  intros [[I1 I2 I3 I4 I5 I6 I7 IU I8] H2 H3 H4 H5 H6 H7 H8 H9] [K O Q M]. destruct y as [[w t mm] fs sin con]. cbn [y_kernel k_world k_procs k_mmu] in *.
  split; [|split; [done|]].
  - split; try done; [|by destruct H2|eapply user_memory_kept; [exact K|by eapply queries_spaces|apply H4|done|exact H4]]. split; cbn; try done; [by eapply ranges_ok_kept|by eapply synced_kept].
  - split; try done; cbn.
    + eapply untouched_mono; [|exact O]. intros f Hf. apply elem_of_union. by right.
    + intros r a Hr Ha. apply Q. by apply elem_of_difference in Hr as [? _].
Qed.

(** ** User copies *)

Abbreviation any := (λ _, True).

(** Copying out: all bytes or none. *)
Lemma user_to_spec x y ptr bytes :
  here x y → 0 <= ptr <= u64_max → Forall is_byte bytes →
  wp (user_to E hw_translate at_s1e0r ptr bytes) (λ r y', match r with
    | inl _ => let mm := k_mmu (y_kernel y) in
        (∀ a, ptr <= a < ptr + Z.of_nat (length bytes) → accessible mm AccessWrite a) ∧
        y' = with_mmu (set_memory (λ _, store_at (memory mm) (user_pas mm ptr (length bytes)) bytes) mm) y ∧ step_ok x y x y'
    | inr e => y' = y ∧ (bytes ≠ [] → Z.of_nat (length bytes) <= MAX_USER_COPY → e = EFAULT) ∧
        ¬ (Z.of_nat (length bytes) <= MAX_USER_COPY ∧ ∀ k, (k < length bytes)%nat → accessible (k_mmu (y_kernel y)) AccessWrite (ptr + Z.of_nat k))
    end) y.
Proof.
  intros Hx Hp Hb. apply wp_fails, (wp_in_user _ _ x); [done|].
  destruct (copy_to_user_spec _ _ _ Hhw Hat (k_mmu (y_kernel y)) ptr bytes (caller_installed x y Hx) Hp Hb) as (r & m' & Hc & Hr).
  eapply wp_done_run; [exact Hc|]. destruct r as [[]|e].
  - destruct Hr as (Hall & _ & _ & ->). split_and!; [done|done|]. apply memory_step; [done|].
    apply (store_copy _ _ _ (root_pa (cl_space x))); [apply Hx|apply Hx|by apply caller_root|done].
  - destruct Hr as (-> & _ & _ & Hr). split_and!; [by destruct y as [[]]|intros ? ?; by eapply copy_to_fault|]. intros [? ?]. apply Hr. split_and!; [done|by eexists|done].
Qed.

Lemma user_to_safe ptr bytes : 0 <= ptr <= u64_max → Forall is_byte bytes → safe (good any) (user_to E hw_translate at_s1e0r ptr bytes).
Proof.
  intros Hp Hb x y Hx. eapply wp_mono; [by apply (user_to_spec x)|]. intros [[]|e] y'; simpl.
  - intros (_ & _ & H). split; [done|]. by exists x.
  - intros (-> & _). split; [done|]. exists x. split_and!; [done|done|apply confined_refl].
Qed.

(** Copying in. *)
Lemma user_from_safe len ptr : 0 <= ptr <= u64_max → safe (good (λ l, Forall is_byte l ∧ length l = len)) (user_from E hw_translate at_s1e0r len ptr).
Proof.
  intros Hp x y Hx. apply wp_fails, (wp_in_user _ _ x); [done|].
  destruct (copy_from_user_spec _ _ _ Hhw Hat (k_mmu (y_kernel y)) ptr len (caller_installed x y Hx) Hp) as (r & Hc & Hr).
  eapply wp_done_run; [exact Hc|]. split; [|exists x; by split_and!; [destruct y as [[]]|..]]. destruct r as [bytes|e]; [|done]. destruct Hr as (_ & Hl & Hr).
  split; [|done]. apply Forall_lookup. intros k b Hk. eapply user_byte_range. rewrite <-Hr; [exact Hk|]. rewrite <-Hl. by eapply lookup_lt_Some.
Qed.

Lemma user_writable_spec x y ptr len :
  here x y → 0 <= ptr <= u64_max → 0 <= len →
  wp (user_writable E at_s1e0r ptr len) (λ r y', y' = y ∧ (0 < len <= MAX_USER_COPY → match r with
    | inl _ => ∀ a, ptr <= a < ptr + len → accessible (k_mmu (y_kernel y)) AccessWrite a
    | inr e => e = EFAULT ∧ ¬ (∀ a, ptr <= a < ptr + len → accessible (k_mmu (y_kernel y)) AccessWrite a)
    end)) y.
Proof.
  intros Hx Hp Hl. apply wp_fails, (wp_in_user _ _ x); [done|]. unfold validate_user_write_range.
  destruct (validate_spec at_s1e0r (current x) Hat (k_mmu (y_kernel y)) ptr len AccessWrite (caller_installed x y Hx) Hp Hl) as (r & Hr & Hiff).
  assert (∃ r', validate_user_range at_s1e0r (current x) (k_mmu (y_kernel y)) ptr len AccessWrite = Done r' ∧ (0 < len <= MAX_USER_COPY → r' = r)) as (r' & Hr' & Hrr).
  { unfold validate_user_range. destruct (Z.eqb_spec len 0); [eexists; split; [done|lia]|]. destruct (Z.ltb_spec MAX_USER_COPY len); [eexists; split; [done|lia]|]. eauto. }
  eapply wp_reads; [exact Hr'|]. split; [by destruct y as [[]]|]. intros Hlen. rewrite (Hrr Hlen) in *. destruct r as [[]|e].
  - by apply Hiff.
  - split; [eapply validate_fault; [|reflexivity|exact Hr]; lia|]. intros Hall. assert (inr e = inl tt) as [=]. apply Hiff. split_and!; [lia|by eexists|done].
Qed.

Lemma user_writable_safe ptr len : 0 <= ptr <= u64_max → 0 <= len → safe (good any) (user_writable E at_s1e0r ptr len).
Proof.
  intros Hp Hl x y Hx. eapply wp_mono; [by apply (user_writable_spec x)|]. intros r y' [-> _]. split; [by destruct r|].
  exists x. split_and!; [done|done|apply confined_refl].
Qed.

Lemma user_path_safe ptr : 0 <= ptr <= u64_max → safe (good text) (user_path E hw_translate at_s1e0r granted ptr).
Proof.
  intros Hp x y Hx. apply wp_fails, (wp_in_user _ _ x); [done|]. apply wp_try.
  destruct (cstr_scan_spec _ _ _ granted Hhw Hat (k_mmu (y_kernel y)) ptr GENRT_PATH_MAX (caller_installed x y Hx) Hp) as (r & Hc & Hr).
  eapply wp_done_run; [exact Hc|]. assert (step_ok x y x (with_mmu (k_mmu (y_kernel y)) y)) as Hs by (by split_and!; [destruct y as [[]]|..]).
  destruct r as [s|e]; [|split; [done|by exists x]]. apply wp_ret. split; [|by exists x]. destruct (decide (s = [])); [done|]. by eapply scanned_text.
Qed.

(** Copying a string out, with its NUL. *)
Lemma user_pas_snoc m va n pa :
  translate_user_va (memory m) (ttbr0_root m) (va + Z.of_nat n) = Some pa → user_pas m va (S n) = user_pas m va n ++ [pa].
Proof. intros Ht. unfold user_pas. rewrite seq_S, fmap_app. cbn [fmap list_fmap]. rewrite Nat.add_0_l, Ht. done. Qed.

Lemma cstr_to_spec x y ptr s limit :
  here x y → 0 <= ptr <= u64_max → Forall is_byte s →
  wp (in_user E (λ current, copy_cstr_to_user hw_translate at_s1e0r current ptr s limit)) (λ r y', match r with
    | inl n => let mm := k_mmu (y_kernel y) in n = Z.of_nat (length s) + 1 ∧
        (∀ a, ptr <= a < ptr + Z.of_nat (length (s ++ [0])) → accessible mm AccessWrite a) ∧
        y' = with_mmu (set_memory (λ _, store_at (memory mm) (user_pas mm ptr (length (s ++ [0]))) (s ++ [0])) mm) y ∧ step_ok x y x y'
    | inr _ => y' = y
    end) y.
Proof.
  intros Hx Hp Hb. apply (wp_in_user _ _ x); [done|]. unfold copy_cstr_to_user. cbv zeta. set (mm := k_mmu (y_kernel y)) in *.
  assert (with_mmu mm y = y) as Hsame by (by destruct y as [[]]). destruct (limit <? _); [by apply wp_ret|].
  destruct (validate_spec at_s1e0r (current x) Hat mm ptr (Z.of_nat (length s) + 1) AccessWrite (caller_installed x y Hx) Hp) as (r & Hr & Hiff); [lia|].
  apply wp_try. eapply wp_reads; [exact Hr|]. destruct r as [[]|e]; [|done]. destruct (proj1 Hiff eq_refl) as (_ & _ & Hall).
  assert (∀ a, ptr <= a < ptr + Z.of_nat (length (s ++ [0])) → accessible mm AccessWrite a) as Hall' by (intros a; rewrite length_app; cbn [length]; intros Ha; apply Hall; lia).
  assert (∀ a, ptr <= a < ptr + Z.of_nat (length s) → accessible mm AccessWrite a) as Halls by (intros a Ha; apply Hall; lia).
  destruct (Hall (ptr + Z.of_nat (length s))) as [[_ Hw] Hmay]; [lia|]. destruct (may_translates _ _ _ _ Hmay) as [pa Hpa].
  apply wp_bind, wp_gets, wp_bind. eapply wp_done_run; [unfold on_memory; by rewrite (write_accessible _ Hhw mm ptr s Halls Hb)|].
  unfold u64_checked_add. rewrite (proj2 (Z.leb_le _ _)) by (unfold USER_STACK_TOP, u64_max in *; lia). cbv iota. apply wp_bind.
  eapply wp_done_run; [unfold on_memory, user_pa; rewrite (user_tr_eq _ Hhw mm), Hpa; cbn [expect_o]; rewrite done_bind; reflexivity|].
  apply wp_ret. split; [done|]. split; [done|].
  assert (store_byte (store_at (memory mm) (user_pas mm ptr (length s)) s) pa 0 = store_at (memory mm) (user_pas mm ptr (length (s ++ [0]))) (s ++ [0])) as Est.
  { rewrite length_app, Nat.add_1_r, (user_pas_snoc _ _ _ pa) by done. rewrite store_at_app by (unfold user_pas; by rewrite length_fmap, length_seq). done. }
  cbn [memory set_memory]. split.
  - f_equal. rewrite <-Est. reflexivity.
  - apply memory_step; [done|]. pose proof (store_copy mm _ _ (root_pa (cl_space x)) _ _ (ki_machine _ _ _ _ _ (he_kernel _ _ _ _ _ Hx)) (he_memory _ _ _ _ _ Hx)
      (proj1 (proj2 (caller_root x y Hx))) ptr (s ++ [0]) Hall') as Hst. rewrite <-Est in Hst. exact Hst.
Qed.

Lemma cstr_to_safe ptr s limit :
  0 <= ptr <= u64_max → Forall is_byte s →
  safe (good any) (fails_as user_copy_errno (in_user E (λ current, copy_cstr_to_user hw_translate at_s1e0r current ptr s limit))).
Proof.
  intros Hp Hb. apply safe_fails. intros x y Hx. eapply wp_mono; [by apply (cstr_to_spec x)|]. intros [n|e] y'; simpl.
  - intros (_ & _ & _ & H). split; [done|]. by exists x.
  - intros ->. split; [done|]. exists x. split_and!; [done|done|apply confined_refl].
Qed.

(** ** The caller's entry in the process table *)

Lemma process_step x y f cwd :
  here x y → let p := cl_process x in
  process_ok (f p) → pr_state (f p) = pr_state p → pr_main_thread (f p) = pr_main_thread p → rs_image (pr_resources (f p)) = rs_image (pr_resources p) →
  pr_owner_cpu (f p) = pr_owner_cpu p → (∀ c, pr_pending_fork_cpu (f p) = Some c → (c < KERNEL_CPU_CAPACITY)%nat) →
  (path_ok cwd ∧ ∃ dir, pf_cwd_dir (rs_files (pr_resources (f p))) = Some dir ∧ lookup_dir tree (render cwd) = Some dir) →
  step_ok x y (with_process (f p) cwd x) (with_procs (alter_process f (cl_pid x) (k_procs (y_kernel y))) y).
Proof.
  intros [[I1 I2 I3 I4 I5 I6 I7 IU I8] [C1 C2 C3 C4 C5 C6 C7] H3 H4 H5 H6 H7 H8 H9] p Hok Es Em Ei Eo Hpend Hcwd. subst p.
  destruct y as [[w t mm] fs sin con]. cbn [y_kernel k_world k_procs k_mmu] in *.
  destruct (alter_keeps f t (cl_pid x) (cl_process x) I2 C5 Hok Es Em) as [Ht' Hu]. split; [|split; [done|]].
  - split; try done; cbn.
    + split; cbn; try done. intros q pq thq Hq Hrq Hmq. rewrite Hu in Hq. case_decide as Hqp; [|by apply (I8 q)].
      subst q. injection Hq as <-. rewrite Ei. apply (I8 (cl_pid x)); [done|congruence|congruence].
    + split; cbn; try done; [by apply (updated_at _ _ _ _ Hu)|congruence|congruence].
    + by rewrite Ei.
    + intros q pq Hq c Hc. rewrite Hu in Hq. case_decide; [|by eapply H9]. injection Hq as <-.
      destruct Hc as [Hc|Hc]; [|by apply Hpend]. rewrite Eo in Hc. eapply H9; [exact C5|by left].
  - split; try done. cbn. intros q pq Hq Hpq. by rewrite (updated_other _ _ _ _ _ Hu).
Qed.

Lemma caller_id x y (Q : option ProcessId → Kernel → Prop) : here x y → Q (Some (cl_pid x)) (y_kernel y) → wp (current_process_id E) Q (y_kernel y).
Proof.
  intros Hx HQ. pose proof (he_calling _ _ _ _ _ Hx) as Hc. pose proof (he_kernel _ _ _ _ _ Hx) as Hk. destruct (y_kernel y) as [w t mm].
  by eapply (wp_current_process E w t mm).
Qed.

Lemma wp_on_procs_at {A} (m : PT A) Q k :
  wp m (λ a t', Q a (mkKernel (k_world k) t' (k_mmu k))) (k_procs k) → wp (on_procs m) Q k.
Proof. destruct k. apply wp_on_procs. Qed.

Abbreviation files x := (rs_files (pr_resources (cl_process x))).

Lemma file_state_spec {A} x y (f : FsState → ProcessFileState → A + FdError) :
  here x y → wp (on_kernel (λ s, with_current_file_state E (f s))) (λ r y', r = f (y_fs y) (files x) ∧ y' = y) y.
Proof.
  intros Hx. apply wp_on_kernel, wp_bind, (caller_id x y); [done|]. cbv iota. apply wp_on_procs_at, wp_slot_or.
  rewrite (ca_slot _ _ _ _ _ _ _ _ (he_calling _ _ _ _ _ Hx)). apply wp_ret. split; [done|]. by destruct y as [[]].
Qed.

Lemma caller_process x y : here x y → process_ok (cl_process x).
Proof. intros Hx. eapply to_live; [apply Hx|apply (ca_slot _ _ _ _ _ _ _ _ (he_calling _ _ _ _ _ Hx))]. Qed.

(** A descriptor operation. *)
Definition with_fds (fds : FdTable) (x : Caller) : Caller :=
  with_process (set_files (mkProcessFileState fds (pf_cwd_dir (files x))) (cl_process x)) (cl_cwd x) x.

Lemma fds_step_spec {A} x y (f : FsState → FdTable → (A + FdError) * FdTable) :
  here x y → wp (on_kernel (λ s, with_current_file_state_mut E (on_fds (f s)))) (λ r y',
    r = (f (y_fs y) (pf_fds (files x))).1 ∧ y_fs y' = y_fs y ∧ k_mmu (y_kernel y') = k_mmu (y_kernel y) ∧ k_world (y_kernel y') = k_world (y_kernel y) ∧
    step_ok x y (with_fds (f (y_fs y) (pf_fds (files x))).2 x) y') y.
Proof.
  intros Hx. apply wp_on_kernel, wp_bind, (caller_id x y); [done|]. cbv iota. apply wp_on_procs_at, wp_slot_or.
  rewrite (ca_slot _ _ _ _ _ _ _ _ (he_calling _ _ _ _ _ Hx)). unfold on_fds. destruct (f (y_fs y) (pf_fds (files x))) as [r fds]. apply wp_bind, wp_modify, wp_ret.
  split_and!; [done..|]. destruct (caller_process x y Hx) as [P1 P2 P3 P4 P5].
  apply (process_step x y (set_files _) (cl_cwd x)); [done|by split|done|done|done|done| |].
  - intros c Hc. eapply (he_cpus _ _ _ _ _ Hx); [apply (ca_slot _ _ _ _ _ _ _ _ (he_calling _ _ _ _ _ Hx))|by right].
  - apply Hx.
Qed.

Lemma fds_safe {A} (Φ : A → Prop) (g : FdError → Errno) (f : FsState → FdTable → (A + FdError) * FdTable) :
  (∀ s t a, (f s t).1 = inl a → Φ a) → safe (good Φ) (fails_as g (on_kernel (λ s, with_current_file_state_mut E (on_fds (f s))))).
Proof.
  intros HΦ. apply safe_fails. intros x y Hx. eapply wp_mono; [by apply (fds_step_spec x)|]. intros r y' (-> & _ & _ & _ & Hs).
  split; [|by eexists]. destruct (f _ _).1 eqn:Hf; [by eapply HΦ|done].
Qed.

(** ** Other steps *)

Lemma set_result_spec x y v :
  here x y → wp (set_result E v) (λ _ y', y' = with_world (set_w_active (<[e_cpu E := set_syscall_result (cl_frame x) v]> (w_active (k_world (y_kernel y)))) (k_world (y_kernel y))) y ∧
    step_ok x y (with_frame (set_syscall_result (cl_frame x) v) x) y') y.
Proof.
  intros Hx. pose proof (world_step x y (set_syscall_result (cl_frame x) v) Hx) as Hs. pose proof (he_frame _ _ _ _ _ Hx) as Hf.
  pose proof (ki_ttbr _ _ _ _ _ (he_kernel _ _ _ _ _ Hx)) as Hsy. apply wp_on_kernel. destruct y as [[w t mm] fs sin con]. cbn [y_kernel k_world k_mmu] in *.
  apply wp_on_world_aside; [done|]. apply wp_bind. eapply wp_reads; [by rewrite Hf|]. apply wp_modify. split; [done|]. by split.
Qed.

Lemma set_result_safe v : safe any (set_result E v).
Proof. intros x y Hx. eapply wp_mono; [by apply (set_result_spec x)|]. intros [] y' [_ Hs]. split; [done|by eexists]. Qed.

Lemma return_safe (r : Z + Errno) : safe any (return_result E r).
Proof. apply set_result_safe. Qed.

Lemma read_counter_safe : safe any (read_counter E).
Proof.
  intros x y Hx. pose proof (clock_step x y (S (w_reads (k_world (y_kernel y)))) Hx) as Hs. pose proof (ki_ttbr _ _ _ _ _ (he_kernel _ _ _ _ _ Hx)) as Hsy.
  apply wp_on_kernel. destruct y as [[w t mm] fs sin con]. cbn [y_kernel k_world k_mmu] in *. apply wp_on_world_aside; [done|].
  apply wp_bind, wp_gets, wp_bind, wp_modify, wp_ret. split; [done|]. split; [done|]. by exists x.
Qed.

Lemma write_safe bytes : safe any (on_console (write_bytes bytes)).
Proof.
  intros x y Hx. destruct (he_console _ _ _ _ _ Hx) as [q Hq]. destruct (write_bytes_ok bytes _ q Hq) as (c' & q' & Hw & Hq').
  eapply wp_on_console; [exact Hw|]. split; [done|]. exists x. split_and!; [|done|by split]. destruct Hx. split; try done. by exists q'.
Qed.

Lemma file_state_safe {A} (Φ : A → Prop) (f : FsState → ProcessFileState → A + FdError) :
  (∀ s p a, RAMFS s = RAMFS tree → f s p = inl a → Φ a) → safe (good Φ) (fails_as fd_errno (on_kernel (λ s, with_current_file_state E (f s)))).
Proof.
  intros HΦ. apply safe_fails. intros x y Hx. eapply wp_mono; [by apply (file_state_spec x)|]. intros r y' [-> ->].
  split; [|exists x; split_and!; [done|done|apply confined_refl]]. destruct (f _ _) eqn:Hf; [|done]. eapply HΦ; [apply Hx|done].
Qed.

(** ** Placement *)

Lemma fork_affinity_safe raw : safe any (on_kernel (λ _, set_fork_affinity_current E raw)).
Proof.
  intros x y Hx. apply wp_on_kernel. assert (step_ok x y x (with_kernel (y_kernel y) y)) as Hsame by (by split_and!; [destruct y as [[]]|..]).
  assert (∀ c, (∀ cpu, c = Some cpu → (cpu < KERNEL_CPU_CAPACITY)%nat) →
    wp (done ← set_current_pending_fork_cpu E c; mret (if done : bool then inl tt else inr EINVAL))
      (λ (_ : unit + Errno) k, True ∧ ∃ x', step_ok x y x' (mkSys k (y_fs y) (y_stdin y) (y_console y))) (y_kernel y)) as Hset.
  { intros c Hc. apply wp_bind, wp_bind, (caller_id x y); [done|]. cbv iota. apply wp_on_procs_at, wp_slot_or.
    rewrite (ca_slot _ _ _ _ _ _ _ _ (he_calling _ _ _ _ _ Hx)). apply wp_bind, wp_modify, wp_ret, wp_ret. split; [done|].
    destruct (caller_process x y Hx) as [P1 P2 P3 P4 P5]. eexists.
    apply (process_step x y (set_pending_fork_cpu c) (cl_cwd x)); [done|by split|done|done|done|done|exact Hc|apply Hx]. }
  apply wp_try. destruct (raw =? -1); [by apply wp_ret, Hset|]. destruct (raw <? -1); [apply wp_ret; eauto|].
  unfold CpuId_from_index. destruct (decide _) as [Hlt|]; [|apply wp_ret; eauto]. apply wp_bind, wp_gets.
  destruct (_ || _); [apply wp_ret; eauto|]. apply wp_ret, Hset. by intros cpu [= <-].
Qed.

Lemma affinity_safe raw : safe (good (λ cpu, (cpu < KERNEL_CPU_CAPACITY)%nat)) (on_kernel (λ _, process_affinity E raw)).
Proof.
  intros x y Hx. apply wp_on_kernel. assert (step_ok x y x (with_kernel (y_kernel y) y)) as Hsame by (by split_and!; [destruct y as [[]]|..]).
  assert (∀ o, wp (match o with
      | None => mret (inr ESRCH)
      | Some pid => on_procs (slot_or pid (mret (inr ESRCH)) (λ p,
          match pr_main_thread p with
          | None => mret (inr ESRCH)
          | Some _ =>
              owner ← reads (λ _, process_owner p);
              aspace ← expect (im_address_space (rs_image (pr_resources p))) "process: published process lacks an address space";
              assert_that (bool_decide (owner = owner_cpu aspace)) "process: published process has inconsistent CPU ownership";;
              mret (inl owner)
          end))
      end) (λ r k, good (λ cpu, (cpu < KERNEL_CPU_CAPACITY)%nat) r ∧ ∃ x', step_ok x y x' (mkSys k (y_fs y) (y_stdin y) (y_console y))) (y_kernel y)) as Hall.
  { assert (∀ e : Errno, good (λ cpu, (cpu < KERNEL_CPU_CAPACITY)%nat) (inr e) ∧ ∃ x', step_ok x y x' (with_kernel (y_kernel y) y)) as Herr by (intros e; split; [done|by exists x]).
    intros [pid|]; [|apply wp_ret, Herr]. apply wp_on_procs_at, wp_slot_or. destruct (pt_slot _ pid) as [p|] eqn:Hp; [|apply wp_ret; rewrite kernel_eta; apply Herr].
    destruct (to_live _ (ki_table _ _ _ _ _ (he_kernel _ _ _ _ _ Hx)) _ _ Hp) as [_ [P1 P2 P3 P4 P5]].
    destruct (pr_main_thread p) as [th|]; [|apply wp_ret; rewrite kernel_eta; apply Herr]. destruct (P4 th eq_refl) as (a & Ha & Ho). apply wp_bind.
    eapply wp_reads; [unfold process_owner; by rewrite Ho|]. apply wp_bind. rewrite Ha. apply wp_ret, wp_bind, wp_assert; [by apply bool_decide_eq_true_2|].
    apply wp_ret. rewrite kernel_eta. split; [|by eexists]. eapply (he_cpus _ _ _ _ _ Hx); [exact Hp|by left]. }
  apply wp_bind. destruct (raw =? 0); [apply (caller_id x y); [done|exact (Hall (Some (cl_pid x)))]|].
  destruct (_ || _); apply wp_ret; [exact (Hall None)|exact (Hall (pid_from_raw raw))].
Qed.

(** ** The current directory *)

Lemma cwd_dir_spec x y (Q : nat + ProcessPathError → Kernel → Prop) :
  here x y → (∀ dir, path_ok (cl_cwd x) → lookup_dir tree (render (cl_cwd x)) = Some dir → Q (inl dir) (y_kernel y)) → wp (current_cwd_dir E) Q (y_kernel y).
Proof.
  intros Hx HQ. apply wp_bind, (caller_id x y); [done|]. cbv iota. apply wp_on_procs_at, wp_slot_or.
  rewrite (ca_slot _ _ _ _ _ _ _ _ (he_calling _ _ _ _ _ Hx)). destruct (he_cwd _ _ _ _ _ Hx) as (Hp & dir & -> & Hl). apply wp_ret.
  rewrite kernel_eta. by apply HQ.
Qed.
End steps.
