(* ===== verification/System.v ===== *)
(** * The kernel as a transition system

    The states the machine can be in after the boot CPU has brought up the
    scheduler: every CPU may, in any order, take interrupts, reach checkpoints
    and make scheduler calls.  A call has a guard, the calling convention of
    that entry point (who may call it, in which state of the calling thread);
    under it no call panics, every reachable state satisfies the kernel
    invariant, and no call touches the registers of a thread.  A call is one
    step; CPUs interleave between calls. *)

From stdpp Require Import gmap.
From S2P Require Import Prelude Types Wait TimeConv Deadline Preempt Context Vm Time Sched World Transition Handoff Boot.
From S2P Require Import CpuInv SchedInv Switch Lifecycle TransitionSpec LifecycleSpec WorldInv TimeSpec.
From S2P Require Import SwitchSpec WakeSpec Frames EntrySpec BlockSpec JoinSpec ThreadSpec.
From S2P Require Import SpawnSpec TimerSpec StartSpec Mailbox MailboxSpec.

(** The entry points of the scheduler, with their arguments; [Execute] is the
    thread on the CPU computing, which changes its live frame.  Mailbox calls
    carry the mailbox they act on. *)
Inductive call :=
| Checkpoint
| Yield
| SchedulerIpi
| TimerInterrupt
| GuardEnter
| GuardDrop (irq_allows : bool)
| SleepSync (deadline : Z)
| UserSleep (deadline : Z)
| ThreadExit (code : Z)
| ThreadJoin (target : ThreadId)
| TakeJoinResult
| FinishWait (tok : WaitToken)
| CompleteWait (tok : WaitToken) (cause : WaitCause)
| CancelDeadline (tok : WaitToken)
| SpawnThread (entry arg : Z) (attrs : ThreadAttrs)
| SpawnUser (a : AddressSpaceId) (stack : OwnedUserStack) (entry user_sp arg0 : Z) (attrs : ThreadAttrs)
| ForkUser (a : AddressSpaceId) (stack : OwnedUserStack) (attrs : ThreadAttrs)
| ExecUser (a : AddressSpaceId) (stack : OwnedUserStack)
| MailboxSend (b : Mailbox Z) (msg : Z)
| MailboxRecv (b : Mailbox Z)
| MailboxWait (b : Mailbox Z) (kind : MailboxWaitKind) (deadline : option Z)
| ClaimCpu (entry arg : Z)
| EnterThread
| Execute (f : TrapFrame).

Definition discard {A} (m : W A) : W unit := _ ← m; mret tt.

Definition call_exec (E : Env) (k : call) : W unit :=
  match k with
  | Checkpoint => preempt_checkpoint E
  | Yield => yield_now E
  | SchedulerIpi => finish_scheduler_ipi E
  | TimerInterrupt => on_timer_interrupt E
  | GuardEnter => preempt_guard_enter E
  | GuardDrop irq_allows => preempt_guard_drop E irq_allows
  | SleepSync deadline => discard (on_sleep_sync E deadline)
  | UserSleep deadline => discard (sleep_user_until_counter E deadline)
  | ThreadExit code => on_thread_exit_sync E code
  | ThreadJoin target => discard (join_thread E target)
  | TakeJoinResult => discard (take_current_join_result E)
  | FinishWait tok => discard (take_completion E (mkSchedCallWaitOutput (Some tok) None))
  | CompleteWait tok cause => discard (transition_complete_wait E tok cause)
  | CancelDeadline tok => cancel_event E (wait_deadline tok)
  | SpawnThread entry arg attrs => discard (spawn_thread E entry arg attrs)
  | SpawnUser a stack entry user_sp arg0 attrs =>
      discard (spawn_user_thread E a stack entry user_sp arg0 attrs (λ _ _ _, mret tt))
  | ForkUser a stack attrs => discard (spawn_user_thread_from_context E a stack attrs (λ _ _ _, mret tt))
  | ExecUser a stack => discard (replace_current_user_resources E a stack)
  | MailboxSend b msg => discard (try_send E b msg)
  | MailboxRecv b => discard (try_recv E b)
  | MailboxWait b kind deadline => discard (on_mailbox_wait_sync E b (kind_raw kind) deadline)
  | ClaimCpu entry arg => discard (initialize_current_cpu E true entry arg)
  | EnterThread => enter_running_thread E
  | Execute f => set_active_context E f
  end.

(** ** Calling conventions *)

Section guards.
Context (E : Env) (w : World).
Abbreviation c := (e_cpu E).
Abbreviation s := (w_sched w).

(** The CPU runs a thread that is not between preparing and committing a
    wait. *)
Definition running : Prop := ∃ from t, preemptible E s from t.

(** Its thread may block: not idle, preemption enabled, no wait open, and the
    64-bit wait sequence not used up. *)
Definition may_block : Prop :=
  ∃ from t, can_block E w from t ∧ active (t_wait t) = None ∧ (next_sequence (t_wait t) < u64_max)%Z.

Definition may_join : Prop :=
  ∃ from t, can_block E w from t ∧ active (t_wait t) = None ∧ (next_sequence (t_wait t) < u64_max)%Z ∧
            t_last_join_result t = None ∧ t_reaped_user t = None.

(** The address space belongs to the CPU the thread will run on, and no other
    CPU uses its root. *)
Definition may_own (attrs : ThreadAttrs) (a : AddressSpaceId) : Prop :=
  ∀ home, resolve_s E s (at_affinity attrs) = inl home → owner_cpu a = home ∧ root_free s (w_vm w) home (root_pa a).

Definition online_here : Prop := cs_online (cst s c) = true.

Definition call_guard (k : call) : Prop :=
  match k with
  | Checkpoint | Yield | SchedulerIpi => running
  | TimerInterrupt => online_here → running
  | GuardEnter => ∃ p, w_preempt w !! c = Some p ∧ (0 <= disable_depth p < u64_max)%Z
  | GuardDrop _ => running ∧ ∃ p, w_preempt w !! c = Some p ∧ (1 <= disable_depth p)%Z
  | SleepSync _ | UserSleep _ => may_block
  | ThreadExit _ => ∃ from t, can_block E w from t ∧ active (t_wait t) = None
  | ThreadJoin _ => may_join
  | TakeJoinResult => ∃ from t r, cur s c = Some from ∧ live s from t ∧ t_last_join_result t = Some r
  | FinishWait tok => cur s c = Some (wt_thread tok) ∧ ∃ t cause k,
      live s (wt_thread tok) t ∧ active (t_wait t) = Some (mkActiveWait tok (Completed cause) k)
  | CompleteWait tok _ => online_here ∧ ¬ joined s tok ∧ ¬ pending w (wt_cpu tok) (wait_deadline tok)
  | CancelDeadline tok => is_Some (time_at w (wt_cpu tok))
  | SpawnThread _ _ _ => running
  | SpawnUser a _ _ _ _ attrs | ForkUser a _ attrs => online_here ∧ may_own attrs a
  | ExecUser a _ => owner_cpu a = c ∧ root_free s (w_vm w) c (root_pa a) ∧
      ∃ from t u, cur s c = Some from ∧ live s from t ∧ t_user t = Some u
  | MailboxSend b _ => online_here ∧ (∃ l, holds b l) ∧
      ∀ x, x ∈ wq_items (mc_recv_waiters (mb_control b)) → claimable w x
  | MailboxRecv b => online_here ∧ (∃ l, holds b l) ∧
      ∀ x, x ∈ wq_items (mc_send_waiters (mb_control b)) → claimable w x
  | MailboxWait b kind _ => (∃ l, holds b l) ∧
      length (wq_items (waiters (mb_control b) kind)) < wq_capacity (waiters (mb_control b) kind) ∧
      ∃ from t, can_block E w from t ∧ active (t_wait t) = None ∧ (next_sequence (t_wait t) < u64_max)%Z ∧
                wait_token E from t ∉ wq_items (waiters (mb_control b) kind)
  | ClaimCpu _ _ => c ≠ 0 ∧ c < e_registered E ∧ unclaimed E s ∧ w_preempt w !! c = Some preemption_new
  | EnterThread => ¬ online_here ∧ is_Some (cur s c) ∧ is_Some (time_at w c)
  | Execute _ => online_here ∧ is_Some (cur s c)
  end.
End guards.

Definition env_ok (E : Env) : Prop := e_cpu E < KERNEL_CPU_CAPACITY ∧ arch_ok E.

(** ** Reachable states *)

(** Boot on CPU [e_cpu E]: the bootstrap and the event queues of [count]
    CPUs. *)
Definition boot_exec (E : Env) (N expected count : nat) (stack_of : nat → OwnedKernelStack)
    (idle : StaticThread) (threads : list StaticThread) (quantum : Z) : W unit :=
  r ← bootstrap E false expected stack_of (st_entry idle) (st_arg idle) threads quantum N;
  assert_that (match r with inl _ => true | inr _ => false end) "sched: failed to bootstrap scheduler";;
  r ← init_cpu_states (λ _, true) count;
  assert_that (match r with inl _ => true | inr _ => false end) "time: failed to initialize CPU states".

Inductive reachable (N : nat) : World → Prop :=
| reach_boot E expected count stack_of idle threads quantum w w' :
    env_ok E → machine_reset w → N ≤ KERNEL_THREAD_CAPACITY → 1 ≤ expected → length threads + expected ≤ N →
    1 ≤ count ≤ KERNEL_CPU_CAPACITY →
    boot_exec E N expected count stack_of idle threads quantum w = Done (tt, w') →
    reachable N w'
| reach_call E k w w' :
    reachable N w → env_ok E → call_guard E w k → call_exec E k w = Done (tt, w') → reachable N w'.

(** ** Every call is safe *)

Definition creates (k : call) : bool :=
  match k with SpawnThread _ _ _ | SpawnUser _ _ _ _ _ _ | ForkUser _ _ _ | ClaimCpu _ _ => true | _ => false end.

(** The register state of every thread that has not exited is what it was,
    except that a thread changes its own registers by executing. *)
Definition frames_step (E : Env) (k : call) (w w' : World) : Prop :=
  ∀ tid t', live (w_sched w') tid t' → t_state t' ≠ Exited →
    (creates k = true ∧ table_get (w_sched w) tid = None) ∨
    ∃ t, live (w_sched w) tid t ∧
         (frame_of w' tid = frame_of w tid ∨ ∃ f, k = Execute f ∧ cur (w_sched w) (e_cpu E) = Some tid).

Lemma frames_kept_step E k w w' : frames_kept w w' → frames_step E k w w'.
Proof. intros H tid t' Hl Hst. right. destruct (H tid t' Hl) as (t & Ht & _ & Hf). exists t. auto. Qed.

Lemma frames_added_step E k tid frame w w1 w' :
  creates k = true → frames_kept w w1 → table_get (w_sched w) tid = None →
  frames_added tid frame w1 w' → frames_step E k w w'.
Proof.
  intros Hc Hk Hnone (_ & _ & Hothers) x tx Hl Hst. destruct (decide (x = tid)) as [->|Hne]; [by left|].
  right. destruct (Hothers x tx Hne Hl) as (t1 & Hl1 & He1 & Hf1). destruct (Hk x t1 Hl1) as (t & Hlt & He & Hf).
  exists t. split; [done|]. left. rewrite Hf1 by done. apply Hf. intros Hx. by apply Hst, He1.
Qed.

(** Slots keep their generation until they are filled again. *)
Definition gens (s : Scheduler) : list Z := sl_generation <$> table_slots s.

Lemma gens_alter g (i : nat) (l : list ThreadSlot) :
  (∀ slot, sl_generation (g slot) = sl_generation slot) → sl_generation <$> alter g i l = sl_generation <$> l.
Proof.
  intros Hg. apply list_eq. intros j. rewrite !list_lookup_fmap, list_lookup_alter.
  destruct (decide (i = j)) as [<-|]; [|done]. destruct (l !! i); simpl; [by rewrite Hg|done].
Qed.

Lemma gens_alter_thread f i s : gens (alter_thread f i s) = gens s.
Proof. by apply gens_alter. Qed.

Lemma gens_release x s : gens (release_s x s) = gens s.
Proof. apply gens_alter. intros slot. by destruct (sl_thread slot). Qed.

Lemma gens_complete here tok cause s : gens (complete_s here tok cause s).2 = gens s.
Proof.
  unfold complete_s. destruct (table_get s (wt_thread tok)) as [t|]; [|done].
  destruct (complete (t_wait t) tok cause) as [[] wm]; simpl; try done; [apply gens_alter_thread|].
  unfold wake_s. destruct (decide _); apply gens_alter_thread.
Qed.

Lemma gens_finalize here s : gens (finalize_s here s) = gens s.
Proof.
  unfold finalize_s. destruct (ret s here) as [x|]; [|done]. destruct (table_get s x) as [t|]; [|done].
  assert (gens (unretire_s x here s) = gens s) as Hu by (unfold unretire_s; by rewrite gens_alter_thread).
  destruct (t_joiner t) as [tok|], (t_exit_code t) as [code|];
    try (destruct (t_joinable t); [exact Hu|rewrite gens_release; done]).
  unfold deliver_s. by rewrite gens_alter_thread, gens_release, gens_alter_thread, gens_complete.
Qed.

(** A handle of the next generation of a slot is not live. *)
Lemma next_dead s s' id slot :
  gens s' = gens s → (0 <= sl_generation slot <= u32_max)%Z → table_slots s' !! id = Some slot →
  table_get s (mkThreadId id (next_generation (sl_generation slot))) = None.
Proof.
  intros Hg Hr Hs. unfold table_get. simpl. destruct (table_slots s !! id) as [slot0|] eqn:H0; [|done].
  apply (f_equal (λ l, l !! id)) in Hg. unfold gens in Hg. rewrite !list_lookup_fmap, Hs, H0 in Hg. injection Hg as Hg.
  rewrite decide_False; [done|]. rewrite <-Hg. unfold next_generation, u32_wrapping_add, u32_max in *.
  destruct (Z.eqb_spec ((sl_generation slot + 1) `mod` (2 ^ 32 - 1 + 1)) 0) as [He|He]; [|].
  - intros Heq. rewrite Heq in He. done.
  - destruct (decide (sl_generation slot = 2 ^ 32 - 1)%Z) as [->|]; [done|]. rewrite Z.mod_small by lia. lia.
Qed.

Section safety.
Context {N : nat} {E : Env}.
Hypothesis Henv : env_ok E.
Abbreviation c := (e_cpu E).

(** What every call establishes. *)
Definition stepped (k : call) (w w' : World) : Prop := kernel_ok N w' ∧ frames_step E k w w'.

Lemma wp_discard {A} (m : W A) k w :
  wp m (λ _ w', stepped k w w') w → wp (discard m) (λ _ w', stepped k w w') w.
Proof. intros H. apply wp_bind. eapply wp_mono; [exact H|]. intros. by apply wp_ret. Qed.

Lemma kept_stepped k w w' : kernel_ok N w' → frames_kept w w' → stepped k w w'.
Proof. intros Hk Hf. split; [done|by apply frames_kept_step]. Qed.

Lemma frame_none w tid : kernel_ok N w → frame_of w tid = None → table_get (w_sched w) tid = None.
Proof.
  intros Hk. unfold frame_of. destruct (table_get (w_sched w) tid) as [t|] eqn:Hl; [|done].
  destruct (on_cpu _ _ _); [|done]. intros Hn%lookup_ge_None. exfalso.
  pose proof (live_home_lt (wo_sched _ _ _ (ko_world _ _ _ Hk)) tid t Hl) as Hh.
  rewrite (hw_active _ _ (wo_hw _ _ _ (ko_world _ _ _ Hk))) in Hn. lia.
Qed.

Lemma user_spawned_step k w w' context a stack attrs r :
  creates k = true → kernel_ok N w → user_spawned E context a stack attrs w r w' → frames_step E k w w'.
Proof.
  intros Hc Hk. unfold user_spawned, spawned.
  destruct (resolve_s _ _ _) as [home|e]; [|by intros [_ ->]; apply frames_kept_step].
  destruct (at_joinable attrs); [|by intros [_ ->]; apply frames_kept_step].
  intros (o & _ & Hsp). destruct (free_slots _) as [|id rest]; [by destruct Hsp as [_ ->]; apply frames_kept_step|].
  destruct Hsp as (slot & stk & _ & _ & _ & Hf & _). eapply (frames_added_step _ _ _ _ w w); [done|done| |exact Hf].
  by eapply frame_none, Hf.
Qed.

Lemma spawn_step w entry arg attrs :
  kernel_ok N w → running E w →
  wp (spawn_thread E entry arg attrs) (λ _ w', stepped (SpawnThread entry arg attrs) w w') w.
Proof.
  destruct Henv as [Hc Ha]. intros Hk (from & t & Hp).
  eapply wp_mono; [by apply (spawn_thread_spec E (N:=N) Hc Ha w from t)|].
  intros r w' (Hk' & _ & w1 & Hf1 & Hsw1 & Hres). split; [done|]. unfold spawned in Hres.
  destruct (resolve_s _ _ _) as [home|e]; [|by destruct Hres as [_ ->]; apply frames_kept_step].
  destruct Hres as (o & _ & Hsp). destruct (free_slots _) as [|id rest]; [by destruct Hsp as [_ ->]; apply frames_kept_step|].
  destruct Hsp as (slot & stk & Hsl & _ & _ & Hf & _). eapply (frames_added_step _ _ _ _ w w1); [done|done| |exact Hf].
  apply (next_dead (w_sched w) (w_sched w1)); [by rewrite Hsw1, gens_finalize| |done].
  pose proof (wo_sched _ _ _ (ko_world _ _ _ Hk)) as Hs. rewrite Hsw1 in Hsl.
  assert (gens (finalize_s c (w_sched w)) !! id = Some (sl_generation slot)) as Hg by (unfold gens; by rewrite list_lookup_fmap, Hsl).
  rewrite gens_finalize in Hg. unfold gens in Hg. apply list_lookup_fmap_Some in Hg as (slot0 & -> & H0).
  apply (sk_gen _ (sh_slots _ _ (so_shape _ _ _ Hs) _ _ H0)).
Qed.

Lemma claim_step w entry arg :
  kernel_ok N w → call_guard E w (ClaimCpu entry arg) →
  wp (initialize_current_cpu E true entry arg) (λ _ w', stepped (ClaimCpu entry arg) w w') w.
Proof.
  destruct Henv as [Hc Ha]. intros Hk (H0 & Hreg & Hun & Hp).
  eapply wp_mono; [by apply (initialize_current_cpu_spec E (N:=N) Hc w entry arg preemption_new)|].
  intros r w' (Hk' & Hres). split; [done|].
  destruct (free_slots _) as [|id rest]; [by destruct Hres as [_ ->]; apply frames_kept_step|].
  destruct Hres as (_ & stack & Hf & _). eapply (frames_added_step _ _ _ _ w w); [done|done| |exact Hf].
  by eapply frame_none, Hf.
Qed.

(** The running thread computes: only its own frame changes. *)
Lemma execute_step w f :
  kernel_ok N w → call_guard E w (Execute f) → wp (set_active_context E f) (λ _ w', stepped (Execute f) w w') w.
Proof.
  destruct Henv as [Hc Ha]. intros [Hok Hsp] [Hon [from Hcur]]. apply wp_modify. split.
  - split; [|done]. apply world_ok_active; [done|]. rewrite length_insert. apply (hw_active _ _ (wo_hw _ _ _ Hok)).
  - intros tid t Hl _. right. exists t. split; [done|]. destruct (decide (cur (w_sched w) c = Some tid)) as [|Hne]; [right; by eexists|left].
    unfold frame_of, on_cpu. simpl. rewrite (Hl : live (w_sched w) tid t). destruct (decide (t_home_cpu t = c)) as [Hh|Hh].
    + rewrite Hh, bool_decide_false, andb_false_r by done. done.
    + by rewrite list_lookup_insert_ne.
Qed.

Ltac by_spec lem := eapply wp_mono; [by apply lem|naive_solver].

(** Under its calling convention a call returns and keeps the invariant. *)
Lemma call_spec k w :
  kernel_ok N w → call_guard E w k → wp (call_exec E k) (λ _ w', stepped k w w') w.
Proof.
  destruct Henv as [Hc Ha]. intros Hk Hg. pose proof kept_stepped as Hst. pose proof user_spawned_step as Hus.
  destruct k; cbn [call_exec] in *; try (lazymatch goal with |- wp (discard _) _ _ => apply wp_discard end);
    [..|by apply claim_step| |by apply execute_step]; cbn [call_guard] in Hg.
  - destruct Hg as (from & t & Hp). by_spec (preempt_checkpoint_spec E (N:=N) Hc Ha w from t).
  - destruct Hg as (from & t & Hp). by_spec (yield_now_spec E (N:=N) Hc Ha w from t).
  - destruct Hg as (from & t & Hp). by_spec (finish_scheduler_ipi_spec E (N:=N) Hc Ha w from t).
  - by_spec (on_timer_interrupt_spec E (N:=N) Hc Ha w).
  - destruct Hg as (p & Hp & Hd). by_spec (guard_enter_spec E (N:=N) Hc w p).
  - destruct Hg as ((from & t & Hp) & p & Hpp & Hd). by_spec (guard_drop_spec E (N:=N) Hc Ha w p from t).
  - destruct Hg as (from & t & Hcb & Hn & Hq). by_spec (on_sleep_sync_spec E (N:=N) Hc Ha w from t).
  - destruct Hg as (from & t & Hcb & Hn & Hq). by_spec (sleep_user_spec E (N:=N) Hc Ha w from t).
  - destruct Hg as (from & t & Hcb & Hn). by_spec (on_thread_exit_sync_spec E (N:=N) Hc Ha w from t).
  - destruct Hg as (from & t & Hcb & Hn & Hq & Hj & Hr). by_spec (join_thread_spec E (N:=N) Hc Ha w from t).
  - destruct Hg as (from & t & r & Hcur & Hl & Hr). by_spec (take_join_result_spec E (N:=N) Hc w from t r).
  - destruct Hg as (Hcur & t & cause & k & Hl & Hcm). by_spec (take_completion_spec E (N:=N) Hc w tok t cause k).
  - destruct Hg as (Hon & Hj & Hp). by_spec (complete_wait_spec E (N:=N) Hc Ha w tok cause).
  - by_spec (cancel_deadline_spec E (N:=N) Hc w tok).
  - by apply spawn_step.
  - destruct Hg as [Hon Ho]. eapply wp_mono; [by apply (spawn_user_thread_spec E (N:=N) Hc Ha w)|]. unfold stepped. naive_solver.
  - destruct Hg as [Hon Ho]. destruct (lookup_lt_is_Some_2 (w_active w) c) as [parent Hpar].
    { by rewrite (hw_active _ _ (wo_hw _ _ _ (ko_world _ _ _ Hk))). }
    eapply wp_mono; [by apply (spawn_user_from_context_spec E (N:=N) Hc Ha w parent)|]. unfold stepped. naive_solver.
  - destruct Hg as (Ho & Hrf & from & t & u & Hcur & Hl & Hu). by_spec (replace_user_spec E (N:=N) Hc Ha w from t u).
  - destruct Hg as (Hon & (l & Hh) & Hcl). eapply wp_mono; [by apply (try_send_spec E (N:=N) Hc Ha b l)|]. intros [r b']. naive_solver.
  - destruct Hg as (Hon & (l & Hh) & Hcl). eapply wp_mono; [by apply (try_recv_spec E (N:=N) Hc Ha b l)|]. intros [r b']. naive_solver.
  - destruct Hg as ((l & Hh) & Hroom & from & t & Hcb & Hn & Hq & Hnin).
    eapply wp_mono; [by apply (mailbox_wait_spec E (N:=N) Hc Ha Hn Hq Hh Hroom Hnin)|]. intros [b' out]. naive_solver.
  - destruct Hg as (Hoff & (from & Hcur) & Hts). apply not_true_is_false in Hoff.
    destruct (current_live (wo_sched _ _ _ (ko_world _ _ _ Hk)) c from Hc Hcur) as (t & Hl & _).
    by_spec (enter_running_thread_spec E (N:=N) Hc Ha w from t).
Qed.
End safety.

(** ** Reachable states satisfy the invariant *)

Lemma boot_exec_spec N E expected count stack_of idle threads quantum w :
  env_ok E → machine_reset w → N ≤ KERNEL_THREAD_CAPACITY → 1 ≤ expected → length threads + expected ≤ N →
  1 ≤ count ≤ KERNEL_CPU_CAPACITY →
  wp (boot_exec E N expected count stack_of idle threads quantum)
     (λ _ w', kernel_ok N w' ∧ booted E (N:=N) stack_of idle threads (w_sched w') ∧
              (∀ c', is_Some (time_at w' c') ↔ c' < count)) w.
Proof.
  intros [Hc Ha] Hr HN He Hl Hct. apply wp_bind.
  eapply wp_mono; [by apply (bootstrap_spec E (N:=N) Hc w expected stack_of idle threads quantum)|].
  intros r w1 (-> & Hk1 & s1 & -> & Hb). wp_step. wp_step; [done|]. wp_step.
  eapply wp_mono; [apply (init_cpu_states_spec E (N:=N) Hc _ (λ _, true) count); [done|apply Hr|apply Hr|done|done]|].
  intros r w2 (-> & -> & Hk2 & Ht2). wp_step; [done|]. done.
Qed.

Lemma wp_eq {A} (m : W A) Q w a w' : wp m Q w → m w = Done (a, w') → Q a w'.
Proof. unfold wp. intros H Hm. by rewrite Hm in H. Qed.

Lemma reachable_ok N w : reachable N w → kernel_ok N w.
Proof.
  induction 1 as [E expected count stack_of idle threads quantum w w' Henv Hr HN He Hl Hct Hx|E k w w' _ IH Henv Hg Hx].
  - eapply wp_eq in Hx; [|by apply boot_exec_spec]. apply Hx.
  - eapply wp_eq in Hx; [|by apply (call_spec (N:=N) Henv k w)]. apply Hx.
Qed.
