(* ===== verification/Demo.v ===== *)
(** * A concrete machine

    Two CPUs, of which CPU0 has booted with an idle thread and two static
    threads and runs the first of them; then a joinable thread is spawned,
    joined and exits, and in another run the first thread goes to sleep.  The
    witnesses of the theorems about the running kernel use these states. *)

From stdpp Require Import gmap.
From S2P Require Import Prelude Types Wait TimeConv Deadline Preempt Context Vm Time Sched World Transition Handoff Boot.
From S2P Require Import CpuInv SchedInv Switch Lifecycle TransitionSpec LifecycleSpec WorldInv TimeSpec.
From S2P Require Import SwitchSpec WakeSpec Frames EntrySpec BlockSpec JoinSpec ThreadSpec.
From S2P Require Import SpawnSpec TimerSpec StartSpec Mailbox MailboxSpec System.

Definition demo_env (cpu : CpuId) (now : Z) : Env :=
  mkEnv cpu 2 (λ n, now + Z.of_nat n)%Z 1000000 true 4096 (λ _, 0%Z) 0 (λ _, true).

Definition demo_reset : World :=
  mkWorld (mkScheduler (mkThreadTable [] []) [] [] [] 0) (replicate KERNEL_CPU_CAPACITY preemption_new)
    (replicate KERNEL_CPU_CAPACITY None) (replicate KERNEL_CPU_CAPACITY None) vm_boot
    (replicate KERNEL_CPU_CAPACITY frame_zeroed) [] 0.

Definition demo_stack (i : nat) : OwnedKernelStack := (1048576 + 65536 * Z.of_nat i)%Z.
Definition demo_threads : list StaticThread := [mkStaticThread 8192 7; mkStaticThread 12288 8].

Definition run_or (w0 : World) (r : outcome (unit * World)) : World :=
  match r with Done (_, w) => w | Panic _ => w0 end.

(** CPU0 has booted and entered its first thread. *)
Definition demo_booted : World :=
  run_or demo_reset
    (boot_exec (demo_env 0 100) 12 2 2 demo_stack (mkStaticThread 16384 0) demo_threads 10 demo_reset).
Definition demo_world : World := run_or demo_booted (call_exec (demo_env 0 200) EnterThread demo_booted).

Definition first_thread : ThreadId := mkThreadId 1 1.
Definition second_thread : ThreadId := mkThreadId 2 1.

Definition third_thread : ThreadId := mkThreadId 11 1.

Definition demo_step (now : Z) (k : call) (w : World) : World := run_or w (call_exec (demo_env 0 now) k w).

(** The first thread spawns a joinable thread and joins it; after a yield of
    the second thread the spawned one runs. *)
Definition demo_spawned : World :=
  demo_step 300 (SpawnThread 20480 5 (mkThreadAttrs true AffinityCurrent)) demo_world.
Definition demo_joining : World := demo_step 400 (ThreadJoin third_thread) demo_spawned.
Definition demo_exiting : World := demo_step 500 Yield demo_joining.

(** The first thread sleeps until 9000; the second thread sleeps as well and
    CPU0 idles. *)
Definition demo_sleeping : World := demo_step 300 (SleepSync 9000) demo_world.
Definition demo_idling : World := demo_step 400 (SleepSync 9500) demo_sleeping.

(** The deadline of the first sleeper has been taken out of the queue. *)
Definition demo_cancelled : World := demo_step 450 (CancelDeadline (mkWaitToken first_thread 0 1)) demo_idling.

(** The first thread waits for a message in an empty mailbox of two. *)
Definition demo_empty_mailbox : Mailbox Z := mkMailbox (control_with_capacity 2 4) (replicate 2 None).
Definition demo_mail_wait : outcome ((Mailbox Z * SchedCallWaitOutput) * World) :=
  on_mailbox_wait_sync (demo_env 0 300) demo_empty_mailbox (kind_raw WaitRecv) None demo_world.
Definition demo_mailbox : Mailbox Z :=
  match demo_mail_wait with Done (b, _, _) => b | Panic _ => demo_empty_mailbox end.
Definition demo_receiving : World :=
  demo_step 300 (MailboxWait demo_empty_mailbox WaitRecv None) demo_world.

Definition demo_token (tid : ThreadId) : WaitToken := mkWaitToken tid 0 1.

Lemma demo_env_ok cpu now : cpu < KERNEL_CPU_CAPACITY → env_ok (demo_env cpu now).
Proof. intros Hc. split; [done|]. by split. Qed.

Lemma demo_booted_reachable : reachable 12 demo_booted.
Proof.
  eapply (reach_boot 12 (demo_env 0 100) 2 2 demo_stack (mkStaticThread 16384 0) demo_threads 10 demo_reset).
  - apply demo_env_ok. unfold KERNEL_CPU_CAPACITY. lia.
  - by split.
  - unfold KERNEL_THREAD_CAPACITY. lia.
  - lia.
  - simpl. lia.
  - unfold KERNEL_CPU_CAPACITY. lia.
  - vm_compute. reflexivity.
Qed.

Lemma demo_world_reachable : reachable 12 demo_world.
Proof.
  eapply (reach_call 12 (demo_env 0 200) EnterThread demo_booted).
  - apply demo_booted_reachable.
  - apply demo_env_ok. unfold KERNEL_CPU_CAPACITY. lia.
  - split_and!; [vm_compute; discriminate|vm_compute; by eexists|vm_compute; by eexists].
  - vm_compute. reflexivity.
Qed.

Ltac by_vm := vm_compute; reflexivity.

(** One more step of CPU0. *)
Lemma demo_step_reachable now k w w' :
  reachable 12 w → call_guard (demo_env 0 now) w k → call_exec (demo_env 0 now) k w = Done (tt, w') → reachable 12 w'.
Proof. intros Hw Hg Hx. eapply reach_call; [done| |done|done]. by apply demo_env_ok; unfold KERNEL_CPU_CAPACITY; lia. Qed.

Lemma demo_running now w from t :
  cs_online (cst (w_sched w) 0) = true → cur (w_sched w) 0 = Some from → table_get (w_sched w) from = Some t →
  wait_is_prepared (t_wait t) = false → running (demo_env 0 now) w.
Proof. intros. exists from, t. by split. Qed.

Lemma demo_can_block now w from t p :
  cs_online (cst (w_sched w) 0) = true → cur (w_sched w) 0 = Some from → table_get (w_sched w) from = Some t →
  bool_decide (idl (w_sched w) 0 = Some from) = false → w_preempt w !! 0 = Some p → preempt_is_disabled p = false →
  can_block (demo_env 0 now) w from t.
Proof. intros H1 H2 H3 H4%bool_decide_eq_false H5 H6. split; try done. by exists p. Qed.

Lemma demo_spawned_reachable : reachable 12 demo_spawned.
Proof.
  eapply (demo_step_reachable 300 (SpawnThread 20480 5 (mkThreadAttrs true AffinityCurrent))); [apply demo_world_reachable| |by_vm].
  eapply demo_running; by_vm.
Qed.

Lemma demo_joining_reachable : reachable 12 demo_joining.
Proof.
  eapply (demo_step_reachable 400 (ThreadJoin third_thread)); [apply demo_spawned_reachable| |by_vm].
  eexists _, _. split; [eapply demo_can_block; by_vm|]. split_and!; by_vm.
Qed.

Lemma demo_exiting_reachable : reachable 12 demo_exiting.
Proof.
  eapply (demo_step_reachable 500 Yield); [apply demo_joining_reachable| |by_vm]. eapply demo_running; by_vm.
Qed.

Lemma demo_sleeping_reachable : reachable 12 demo_sleeping.
Proof.
  eapply (demo_step_reachable 300 (SleepSync 9000)); [apply demo_world_reachable| |by_vm].
  eexists _, _. split; [eapply demo_can_block; by_vm|]. split; by_vm.
Qed.

Lemma demo_idling_reachable : reachable 12 demo_idling.
Proof.
  eapply (demo_step_reachable 400 (SleepSync 9500)); [apply demo_sleeping_reachable| |by_vm].
  eexists _, _. split; [eapply demo_can_block; by_vm|]. split; by_vm.
Qed.

Lemma demo_cancelled_reachable : reachable 12 demo_cancelled.
Proof.
  eapply (demo_step_reachable 450 (CancelDeadline (mkWaitToken first_thread 0 1)));
    [apply demo_idling_reachable|vm_compute; by eexists|by_vm].
Qed.

Lemma demo_receiving_reachable : reachable 12 demo_receiving.
Proof.
  eapply (demo_step_reachable 300 (MailboxWait demo_empty_mailbox WaitRecv None)); [apply demo_world_reachable| |by_vm].
  split; [exists []; by apply (holds_new (T:=Z) 2 4)|]. split; [vm_compute; lia|].
  eexists _, _. split; [eapply demo_can_block; by_vm|]. split_and!; [by_vm|by_vm|apply not_elem_of_nil].
Qed.

(** No slot holds a thread with this joiner. *)
Lemma not_joined s tok :
  forallb (λ slot, match sl_thread slot with
                   | Some t => negb (bool_decide (t_joiner t = Some tok))
                   | None => true
                   end) (table_slots s) = true → ¬ joined s tok.
Proof.
  intros Hf (x & tx & (slot & Hs & _ & Ht)%live_slot & Hj). rewrite forallb_forall in Hf.
  specialize (Hf slot). rewrite Ht, bool_decide_true in Hf by done.
  discriminate Hf. apply list_elem_of_In. by eapply list_elem_of_lookup_2.
Qed.
