(* ===== verification/ProcSafety.v ===== *)
(** * Fork and exec: the claims

    A concrete machine with one process, whose program is the one of
    [ImageSafety]: its memory, its thread and its entry in the process table.
    The witnesses of the theorems about [fork] and [execve] use it.

    What [fork] and [execve] do to the whole machine, called by any process of
    a kernel that satisfies the invariant. *)

From stdpp Require Import gmap sorting.
From S2P Require Import Prelude Types Wait Deadline TimeConv Preempt Context Vm Time Sched World Transition Handoff CpuInv SchedInv Switch.
From S2P Require Import Lifecycle TransitionSpec LifecycleSpec WorldInv TimeSpec SwitchSpec WakeSpec Frames EntrySpec BlockSpec JoinSpec.
From S2P Require Import ThreadSpec SpawnSpec TimerSpec Boot StartSpec Mailbox MailboxSpec MemMap MemMapSpec FrameAlloc FrameSpec MemInit.
From S2P Require Import PageTable PageTableSpec AddressSpace SpaceSafety Ramfs PathRes FdTable PhysMem UserCopy UserAccess UserImage FrameRuns.
From S2P Require Import ImageSafety ExecStack ExecRead Staging StageSafety CloneSpec Process ProcessOps ProcSpec ProcHistory ForkSpec ProcKernel.
From S2P Require Import ExecKernel System Demo.
#[local] Open Scope Z_scope.

(** ** The process's memory *)

Definition proc_image : UserElfImage :=
  Eval vm_compute in match value_of load_demo with Some (inl image) => image | _ => mkUserElfImage 0 [] end.
Definition image_machine : Mmu := state_after load_demo one_space.
Definition allocate_demo : outcome ((OwnedUserStack + VmError) * Mmu) := user_stack_allocate first_root PAGE_SIZE image_machine.
Definition proc_stack : OwnedUserStack :=
  Eval vm_compute in match value_of allocate_demo with Some (inl stack) => stack | _ => mkOwnedUserStack (0, 0) 0 0 end.

Lemma load_demo_done : load_demo = Done (inl proc_image, image_machine).
Proof. apply value_state. vm_compute. reflexivity. Qed.

Lemma allocate_demo_done : allocate_demo = Done (inl proc_stack, state_after allocate_demo image_machine).
Proof. apply value_state. vm_compute. reflexivity. Qed.

#[local] Opaque one_space load_user_elf image_machine user_stack_allocate.

Lemma one_space_empty a : 0 <= a → query_user_mapping (memory one_space) first_root a = None.
Proof.
  intros _. assert (vm_create_user_address_space space_machine = Done (inl first_root, one_space)) as Hc.
  { pose proof one_space_created as E. unfold vm_create_user_address_space, mbind, M_bind. by rewrite E. }
  apply (wp_result _ _ _ _ _ (create_machine _ _ _ (proj1 space_machine_start))) in Hc as (_ & _ & _ & _ & _ & _ & Hn). apply Hn.
Qed.

(** The program and its stack are in place. *)
Definition built_machine : Mmu := state_after allocate_demo image_machine.

Lemma built_memory_ok :
  ∃ pool, machine_ok built_machine {[first_root]} pool ∧ ranges_ok built_machine ∧ user_memory built_machine {[first_root]} pool first_root proc_image proc_stack.
Proof.
  assert (Forall is_byte ImageSafety.demo_image) as Hb by (repeat (constructor; [split; [discriminate|reflexivity]|]); constructor).
  assert (∀ file phs, demo_parse ImageSafety.demo_image = Some file → ef_segments file = Some phs → Forall header_ok phs) as Hh.
  { intros file phs [= <-] [= <-]. constructor; [|constructor]. vm_compute. repeat split; discriminate. }
  assert (first_root ∈ ({[first_root]} : gset Z)) as Hr by by apply elem_of_singleton.
  pose proof (load_elf_spec demo_parse (λ _, true) one_space {[first_root]} (list_to_set space_frames) first_root ImageSafety.demo_image
    one_space_ok one_space_ranges Hr Hb Hh) as Hload.
  pose proof load_demo_done as E. unfold load_demo in E. apply (wp_result _ _ _ _ _ Hload) in E. clear Hload. destruct E as (K1 & O1 & file & phs & _ & _ & _ & _ & _ & Hlo & _).
  pose proof (ranges_ok_kept _ _ K1 one_space_ranges) as Hr1.
  pose proof (user_stack_allocate_spec image_machine {[first_root]} _ first_root PAGE_SIZE (lo_machine _ _ _ _ _ _ _ _ Hlo) Hr1 Hr ltac:(done)) as Ha.
  pose proof allocate_demo_done as E. unfold allocate_demo at 1 in E. apply (wp_result _ _ _ _ _ Ha) in E. clear Ha. destruct E as (K2 & O2 & start & n & En & Est & Hrun & Hsub & Hm2 & Hmap & _). fold built_machine in *.
  eexists. split; [exact Hm2|]. split; [exact (ranges_ok_kept _ _ K2 Hr1)|]. rewrite Est.
  refine (built_memory _ _ _ _ _ _ _ _ _ _ _ _ Hlo one_space_empty Hr _ K2 O2 En Hrun Hsub Hmap). split; [reflexivity|discriminate].
Qed.

(** The process runs: its root is in TTBR0. *)
Definition proc_machine : Mmu := set_mm_ttbr0 first_root built_machine.

(** * The thread of the running process *)

(** ** Its thread *)

Definition user_slots (s : Scheduler) : list (nat * Z) :=
  concat (imap (λ i slot, match sl_thread slot with
                          | Some t => match thread_root t with Some r => [(i, r)] | None => [] end
                          | None => []
                          end) (table_slots s)).

Lemma user_slots_live s tid t r : live s tid t → thread_root t = Some r → (tid_index tid, r) ∈ user_slots s.
Proof.
  intros (slot & Hs & _ & Ht)%live_slot Hr. apply list_elem_of_In, in_concat. exists [(tid_index tid, r)]. split; [|by left].
  apply list_elem_of_In, list_elem_of_lookup. exists (tid_index tid). rewrite list_lookup_imap, Hs. cbn [fmap option_fmap option_map]. by rewrite Ht, Hr.
Qed.

Lemma user_slots_unique s i r tid1 t1 tid2 t2 r1 r2 :
  user_slots s = [(i, r)] → live s tid1 t1 → live s tid2 t2 → thread_root t1 = Some r1 → thread_root t2 = Some r2 → r1 = r ∧ tid1 = tid2.
Proof.
  intros Hu L1 L2 R1 R2. pose proof (user_slots_live _ _ _ _ L1 R1) as H1. pose proof (user_slots_live _ _ _ _ L2 R2) as H2. rewrite Hu in *.
  apply list_elem_of_singleton in H1, H2. injection H1 as E1 ->. injection H2 as E2 ->. split; [done|].
  apply live_slot in L1 as (s1 & S1 & G1 & _), L2 as (s2 & S2 & G2 & _). destruct tid1, tid2. cbn in *. congruence.
Qed.

Definition proc_space : AddressSpaceId := mkAddressSpaceId first_root 0%nat.
Definition proc_thread : ThreadId := mkThreadId 11 1.

Definition user_spawned_world : World :=
  demo_step 300 (SpawnUser proc_space proc_stack (ui_entry proc_image) USER_STACK_TOP 0 (mkThreadAttrs true (AffinityCpu 0))) demo_world.
Definition user_queued_world : World := demo_step 400 Yield user_spawned_world.
Definition proc_world : World := demo_step 500 Yield user_queued_world.

Lemma user_spawned_reachable : reachable 12 user_spawned_world.
Proof.
  eapply (demo_step_reachable 300 (SpawnUser proc_space proc_stack (ui_entry proc_image) USER_STACK_TOP 0 (mkThreadAttrs true (AffinityCpu 0))));
    [apply demo_world_reachable| |by_vm].
  split; [by_vm|]. intros home H. apply resolve_cpu in H. subst home. split; [reflexivity|]. split; [vm_compute; discriminate| |].
  - intros tid t Hl Hr. pose proof (user_slots_live _ _ _ _ Hl Hr) as H. assert (user_slots (w_sched demo_world) = []) as E by by_vm.
    rewrite E in H. destruct (not_elem_of_nil _ H).
  - intros c u Hu Hi. assert (Forall (λ u, Vm.installed u ≠ first_root) (w_vm demo_world)) as Hv.
    { vm_compute. repeat (constructor; [discriminate|]). constructor. }
    rewrite Forall_forall in Hv. destruct (Hv u (list_elem_of_lookup_2 _ _ _ Hu) Hi).
Qed.

Lemma proc_world_reachable : reachable 12 proc_world.
Proof.
  eapply (demo_step_reachable 500 Yield); [eapply (demo_step_reachable 400 Yield); [apply user_spawned_reachable| |by_vm]| |by_vm]; eapply demo_running; by_vm.
Qed.

(** ** Its entry in the process table *)

(** A root directory with the program in it. *)
Definition proc_fs : FsState :=
  mkFsState [] (Some (mkMountedRamfs [mkRamFile [47; 97] ImageSafety.demo_image] [mkRamDir [47] [mkRamDirEntry [97] KindFile 1]])).

Definition proc_pid : ProcessId := mkProcessId 0 1.
Definition proc_ops : list table_op :=
  [OpAllocate proc_fs None fdtable_new 0 0; OpAttach proc_pid proc_space proc_image; OpBind proc_pid proc_thread proc_space].
Definition proc_table : ProcessTable := Eval vm_compute in (run_ops process_table_new proc_ops).2.
Definition proc_record : Process := Eval vm_compute in default process_free (pt_slot proc_table proc_pid).

Lemma proc_history : history process_table_new [proc_pid] proc_table.
Proof.
  apply (history_foldl process_table_new proc_ops _ _ [] process_table_new (history_start _)); [vm_compute; reflexivity|].
  intros k op. do 3 (destruct k as [|k]; [intros [= <-]; solve [allowed_here]|]). done.
Qed.

Lemma proc_slots q p : pt_slot proc_table q = Some p → q = proc_pid ∧ p = proc_record.
Proof.
  intros Hq. assert (q ∈ [proc_pid]) as Hin by (apply (y_slots _ _ (history_young _ _ proc_history ltac:(discriminate))); by exists p).
  apply list_elem_of_singleton in Hin as ->. split; [reflexivity|]. vm_compute in Hq. by injection Hq as <-.
Qed.

(** ** The whole machine *)

Definition proc_env : Env := demo_env 0 600.
Definition proc_kernel : Kernel := mkKernel proc_world proc_table proc_machine.
Definition proc_frame : TrapFrame := Eval vm_compute in default frame_zeroed (w_active proc_world !! 0%nat).
Definition proc_thread_record : Thread := Eval vm_compute in
  default (fresh_thread 0 false None 0 0 frame_zeroed) (table_get (w_sched proc_world) proc_thread).

Lemma proc_users : user_slots (w_sched proc_world) = [(11%nat, first_root)].
Proof. by_vm. Qed.

Lemma proc_calling : calling proc_env proc_kernel proc_pid proc_record proc_thread proc_thread_record proc_space proc_stack.
Proof. split; vm_compute; reflexivity. Qed.

Lemma proc_frame_active : w_active proc_world !! e_cpu proc_env = Some proc_frame.
Proof. by_vm. Qed.

#[local] Opaque built_machine proc_world proc_table.

Lemma proc_kernel_inv :
  ∃ pool, kernel_inv proc_env 12 {[first_root]} pool proc_kernel ∧ user_memory proc_machine {[first_root]} pool first_root proc_image proc_stack.
Proof.
  destruct built_memory_ok as (pool & Hm & Hr & Hu). exists pool. split; [|exact (user_memory_ttbr0 _ _ _ _ _ _ _ Hu)].
  split; cbn [k_world k_procs k_mmu proc_kernel].
  - exact (reachable_ok _ _ proc_world_reachable).
  - exact (history_ok _ _ _ table_new_ok proc_history).
  - exact (machine_ok_ttbr0 _ _ _ _ Hm).
  - exact (ranges_ok_ttbr0 _ _ Hr).
  - unfold synced. transitivity first_root; [reflexivity|]. symmetry. by_vm.
  - intros tid t r Hl Hr'. destruct (user_slots_unique _ _ _ _ _ _ _ _ _ proc_users Hl Hl Hr' Hr') as [-> _]. by apply elem_of_singleton.
  - intros c u Hc. assert (Forall (λ u, Vm.installed u = NO_ACTIVE_USER_ROOT ∨ Vm.installed u = first_root) (w_vm proc_world)) as Hv.
    { vm_compute. repeat (constructor; [first [left; reflexivity|right; reflexivity]|]). constructor. }
    rewrite Forall_forall in Hv. destruct (Hv u (list_elem_of_lookup_2 _ _ _ Hc)) as [H|H]; [by left|right]. rewrite H. by apply elem_of_singleton.
  - intros tid1 t1 tid2 t2 r L1 L2 R1 R2. exact (proj2 (user_slots_unique _ _ _ _ _ _ _ _ _ proc_users L1 L2 R1 R2)).
  - intros q p th Hq Hs Hth. destruct (proc_slots q p Hq) as [-> ->]. injection Hth as <-.
    exists proc_thread_record, (mkUserThreadResources proc_space proc_stack). split_and!; by_vm.
Qed.

(** * Fork and exec: the claims *)

(** C7: [fork] returns on every machine state that satisfies the invariant.
    When it succeeds, the child is a new process with the parent's descriptors
    and directory, whose only thread resumes from a copy of the parent's live
    registers on the CPU chosen for it; at every address of the parent's program
    and stack the child sees the bytes and rights the parent sees, and the parent
    still sees what it saw.  The child's frames are its own: they were the
    allocator's and have left its pool, and no page that the child can reach is
    a page that the parent can reach.  When it fails, no
    process and no thread has changed, memory outside the allocator is as it was
    and every frame is back.  Either way the invariant holds again, so the child
    can fork as well. *)
Theorem fork_exact E s reserve N k spaces pool pid p th thread a stack image dir frame :
  (e_cpu E < KERNEL_CPU_CAPACITY)%nat → arch_ok E → kernel_inv E N spaces pool k → calling E k pid p th thread a stack →
  im_user_image (rs_image (pr_resources p)) = Some image → pf_cwd_dir (rs_files (pr_resources p)) = Some dir →
  user_memory (k_mmu k) spaces pool (root_pa a) image stack → w_active (k_world k) !! e_cpu E = Some frame →
  ∃ res k', fork_current E s reserve k = Done (res, k') ∧
    match res with
    | inl raw => ∃ c tid r image' stack' pool', raw = pid_as_raw c ∧
        forked E (N:=N) (k_world k) (k_procs k) (k_mmu k) spaces pool pid p th thread a stack image dir frame c tid r image' stack' pool' k'
    | inr _ => fork_failed E (N:=N) (k_world k) (k_procs k) (k_mmu k) spaces pool k'
    end.
Proof. destruct k as [w t mm]. intros. apply wp_run. by eapply fork_spec. Qed.

Definition succeeds {A B S} (o : outcome ((A + B) * S)) : bool := match o with Done (inl _, _) => true | _ => false end.
Definition proc_path : ResolvedPath := mkResolvedPath [47; 97] (NodeFile 0) false.

Lemma succeeds_inl {A B S} (o : outcome ((A + B) * S)) res k : succeeds o = true → o = Done (res, k) → ∃ x, res = inl x.
Proof. intros Ho ->. destruct res; [eauto|discriminate]. Qed.

Lemma fork_succeeds : succeeds (fork_current proc_env proc_fs (λ _, true) proc_kernel) = true.
Proof. vm_compute. reflexivity. Qed.

Lemma execve_succeeds : succeeds (execve_current proc_env proc_fs (λ _, true) demo_parse proc_path demo_args proc_kernel) = true.
Proof. vm_compute. reflexivity. Qed.

#[local] Opaque proc_machine proc_world proc_table fork_current execve_current.

Lemma fork_exact_witness :
  ∃ pool raw k', fork_current proc_env proc_fs (λ _, true) proc_kernel = Done (inl raw, k') ∧
    ∃ c tid r image' stack' pool', raw = pid_as_raw c ∧
      forked proc_env (N:=12) proc_world proc_table proc_machine {[first_root]} pool proc_pid proc_record proc_thread proc_thread_record proc_space proc_stack proc_image 0 proc_frame
        c tid r image' stack' pool' k'.
Proof.
  destruct proc_kernel_inv as (pool & Hk & Hm). exists pool.
  destruct (fork_exact proc_env proc_fs (λ _, true) 12 proc_kernel {[first_root]} pool proc_pid proc_record proc_thread proc_thread_record
           proc_space proc_stack proc_image 0 proc_frame) as (res & k' & H & Hres).
  - unfold KERNEL_CPU_CAPACITY. apply Nat.ltb_lt. reflexivity.
  - exact (proj2 (demo_env_ok 0 600 ltac:(unfold KERNEL_CPU_CAPACITY; lia))).
  - exact Hk.
  - exact proc_calling.
  - reflexivity.
  - reflexivity.
  - exact Hm.
  - exact proc_frame_active.
  - destruct (succeeds_inl _ _ _ fork_succeeds H) as (raw & ->). exists raw, k'. split; [exact H|exact Hres].
Defined.

(** C8: [execve] returns on every machine state that satisfies the invariant.
    When it succeeds, the path named a file, the process owns a fresh address
    space in which every loadable segment of the file is mapped with its bytes
    and its rights, the calling thread resumes at the file's entry point with a
    stack pointer from which it reads exactly the argument and environment
    strings given, and the frames of the old program and its stack are back in
    the allocator; no other process, thread or address space has changed.  When
    it fails, the process goes on with its old program: nothing has changed but
    frames of the allocator, which are all back. *)
Theorem execve_exact E s reserve minimal_parse N k spaces pool pid p th thread a stack image frame path args fuel :
  (e_cpu E < KERNEL_CPU_CAPACITY)%nat → arch_ok E → kernel_inv E N spaces pool k → calling E k pid p th thread a stack →
  im_user_image (rs_image (pr_resources p)) = Some image → user_memory (k_mmu k) spaces pool (root_pa a) image stack →
  w_active (k_world k) !! e_cpu E = Some frame →
  files_ok minimal_parse s → Forall text (ea_argv args) → Forall text (ea_envp args) → USER_STACK_SIZE <= Z.of_nat fuel →
  ∃ res k', execve_current E s reserve minimal_parse path args k = Done (res, k') ∧
    match res with
    | inl _ => ∃ i data st pool', rp_node path = NodeFile i ∧ file_data s i = Some data ∧
        execed E minimal_parse (N:=N) (k_world k) (k_procs k) (k_mmu k) spaces pool pid p th thread a stack image frame data args fuel st pool' k'
    | inr _ => exec_failed E (N:=N) (k_world k) (k_procs k) (k_mmu k) spaces pool k'
    end.
Proof. destruct k as [w t mm]. intros. apply wp_run. by eapply execve_spec. Qed.

Lemma execve_exact_witness :
  ∃ pool k', execve_current proc_env proc_fs (λ _, true) demo_parse proc_path demo_args proc_kernel = Done (inl tt, k') ∧
    ∃ st pool', execed proc_env demo_parse (N:=12) proc_world proc_table proc_machine {[first_root]} pool proc_pid proc_record proc_thread
      proc_thread_record proc_space proc_stack proc_image proc_frame ImageSafety.demo_image demo_args (Z.to_nat USER_STACK_SIZE) st pool' k'.
Proof.
  destruct proc_kernel_inv as (pool & Hk & Hm). exists pool.
  destruct (execve_exact proc_env proc_fs (λ _, true) demo_parse 12 proc_kernel {[first_root]} pool proc_pid proc_record proc_thread proc_thread_record
           proc_space proc_stack proc_image proc_frame proc_path demo_args (Z.to_nat USER_STACK_SIZE)) as (res & k' & H & Hres).
  - unfold KERNEL_CPU_CAPACITY. apply Nat.ltb_lt. reflexivity.
  - exact (proj2 (demo_env_ok 0 600 ltac:(unfold KERNEL_CPU_CAPACITY; lia))).
  - exact Hk.
  - exact proc_calling.
  - reflexivity.
  - exact Hm.
  - exact proc_frame_active.
  - intros [|i] data [= <-]. exact (demo_files_ok 0%nat _ eq_refl).
  - apply demo_args_text.
  - apply demo_args_text.
  - rewrite Z2Nat.id; [reflexivity|discriminate].
  - destruct (succeeds_inl _ _ _ execve_succeeds H) as ([] & ->). exists k'. split; [exact H|]. destruct Hres as (i & data & st & pool' & Hi & Hd & Hx).
    injection Hi as <-. injection Hd as <-. exists st, pool'. exact Hx.
Defined.
