(* ===== verification/SyscallSafety.v ===== *)
(** * System calls: the claims

    Every handler that does not block, on every request: it returns, keeps the
    caller's invariant and touches nothing of another process. *)

From stdpp Require Import gmap sorting.
From S2P Require Import Prelude Types Wait TimeConv Deadline Preempt Context Time MemMap MemMapSpec FrameAlloc FrameSpec MemInit.
From S2P Require Import PageTable PageTableSpec AddressSpace PhysMem UserCopy UserAccess UserSafety UserImage FrameRuns ImageSafety Ramfs RamfsSpec Mount PathRes FdTable ExecStack ExecRead.
From S2P Require Import Vm Sched World Transition Handoff CpuInv SchedInv Switch Lifecycle TransitionSpec LifecycleSpec WorldInv TimeSpec.
From S2P Require Import SwitchSpec WakeSpec Frames EntrySpec BlockSpec JoinSpec ThreadSpec SpawnSpec Console ConsoleSpec.
From S2P Require Import Staging StageSafety CloneSpec Process ProcessOps Syscall ProcSpec ProcHistory ForkSpec ProcKernel ExecKernel SyscallSpec.
From S2P Require Import AddressSpace SpaceSafety System Demo ProcSafety.
#[local] Open Scope Z_scope.

(** ** Collecting the arguments of [execve] *)

Definition args_text (args : ExecArgs) : Prop :=
  Forall text (ea_argv args) ∧ Forall text (ea_envp args) ∧ 0 <= ea_string_bytes args <= USER_STACK_SIZE.

Lemma checked_add_inv a b c : u64_checked_add a b = Some c → c = a + b ∧ a + b <= u64_max.
Proof. unfold u64_checked_add. destruct (Z.leb_spec (a + b) u64_max); [|done]. by intros [= <-]. Qed.
Lemma checked_mul_inv a b c : u64_checked_mul a b = Some c → c = a * b.
Proof. unfold u64_checked_mul. destruct (a * b <=? u64_max); [|done]. by intros [= <-]. Qed.
Lemma checked_sub_inv a b c : u64_checked_sub a b = Some c → c = a - b ∧ b <= a.
Proof. unfold u64_checked_sub. destruct (Z.leb_spec b a); [|done]. by intros [= <-]. Qed.

Lemma budget_bound args vector budget : next_budget args vector = Some budget → budget <= USER_STACK_SIZE.
Proof.
  unfold next_budget, exec_arg_string_budget, exec_stack_table_words.
  assert (0 <= exec_vector_slot_increment vector Argv ∧ 0 <= exec_vector_slot_increment vector Envp) as [H1 H2] by (by destruct vector).
  intros (w & Hw & (tb & ->%checked_mul_inv & [-> _]%checked_sub_inv)%bind_Some)%bind_Some.
  apply bind_Some in Hw as (w1 & [-> _]%checked_add_inv & (w2 & [-> _]%checked_add_inv & (w3 & [-> _]%checked_add_inv & [-> _]%checked_add_inv)%bind_Some)%bind_Some).
  unfold EXEC_STACK_WORD_BYTES. lia.
Qed.

Lemma push_text reserve vector value args args' :
  text value → args_text args → exec_args_push reserve vector value args = inl args' → args_text args' ∧ ea_string_bytes args < ea_string_bytes args'.
Proof.
  intros Hv (Ha & He & Hb). unfold exec_args_push. destruct (u64_checked_add (Z.of_nat (length value)) 1) as [n|] eqn:Hn; [|done].
  destruct (next_budget args vector) as [budget|] eqn:Hbud; [|done]. apply budget_bound in Hbud.
  destruct (u64_checked_add (ea_string_bytes args) n) as [next|] eqn:Hnext; [|done]. destruct (Z.ltb_spec budget next); [done|].
  apply checked_add_inv in Hn as [-> _]. apply checked_add_inv in Hnext as [-> _].
  destruct vector, (reserve 1%nat); [|done| |done]; intros [= <-]; unfold args_text; cbn [ea_argv ea_envp ea_string_bytes];
    (split; [split_and!; [done || by apply Forall_app_2; [|apply Forall_singleton]..|lia|lia]|lia]).
Qed.

Section args.
Context (hw_translate : gmap Z Z → Z → Z → option Z) (at_s1e0r : gmap Z Z → Z → Z → bool) (current : option AddressSpaceId) (reserve granted : nat → bool).
Hypothesis Hhw : ∀ st root va, hw_translate st root va = translate_user_va st root va.
Hypothesis Hat : ∀ st root va, at_s1e0r st root va = true ↔ may st root AccessRead va.
Context (m : Mmu).
Hypothesis Hin : UserAccess.installed current m.

Definition args_post (r : ExecArgs + Errno) (m' : Mmu) : Prop := m' = m ∧ match r with inl args => args_text args | inr _ => True end.

Lemma read_usize_spec ptr :
  0 <= ptr <= u64_max → wp (read_user_usize hw_translate at_s1e0r current ptr) (λ r m', m' = m ∧ match r with inl v => 0 <= v <= u64_max | inr _ => True end) m.
Proof.
  intros Hp. apply wp_try, wp_map_error. destruct (copy_from_user_spec _ _ _ Hhw Hat m ptr 8 Hin Hp) as (r & Hc & Hr).
  eapply wp_done_run; [exact Hc|]. destruct r as [bytes|e]; [|done]. destruct Hr as (_ & Hl & Hr). apply wp_ret. split; [done|].
  assert (Forall is_byte bytes) as Hb.
  { apply Forall_lookup. intros k b Hk. eapply user_byte_range. rewrite <-Hr; [exact Hk|]. rewrite <-Hl. by eapply lookup_lt_Some. }
  pose proof (of_bytes_range bytes Hb) as Hrange. rewrite Hl in Hrange. unfold u64_max. lia.
Qed.

Lemma string_vector_spec fuel ptr vector index args :
  0 <= ptr → 0 <= index → args_text args → USER_STACK_SIZE - ea_string_bytes args < Z.of_nat fuel →
  wp (copy_string_vector hw_translate at_s1e0r current reserve granted fuel ptr vector index args) args_post m.
Proof.
  intros Hp. revert index args. induction fuel as [|fuel IH]; intros index args Hi Ha Hf; [destruct Ha as (_ & _ & ?); lia|].
  cbn [copy_string_vector]. destruct (o ← u64_checked_mul index 8; u64_checked_add ptr o) as [addr|] eqn:Haddr; [|by apply wp_ret].
  apply bind_Some in Haddr as (o & ->%checked_mul_inv & [-> Hmax]%checked_add_inv).
  apply wp_try. eapply wp_mono; [apply read_usize_spec; lia|]. intros [p|e] m' [-> Hv]; [|done].
  destruct (p =? 0); [by apply wp_ret|]. apply wp_try, wp_ret. destruct (remaining_for_next vector args) as [remaining|e]; [|done].
  destruct (u64_checked_sub remaining 1) as [max_len|]; [|by apply wp_ret]. apply wp_try, wp_map_error.
  destruct (cstr_scan_spec _ _ _ granted Hhw Hat m p (Z.to_nat max_len) Hin Hv) as (r & Hc & Hr). eapply wp_done_run; [exact Hc|].
  destruct r as [value|e]; [|done]. apply scanned_text in Hr. apply wp_try, wp_ret. destruct (exec_args_push reserve vector value args) as [args'|e] eqn:Hpush; [|done].
  destruct (push_text _ _ _ _ _ Hr Ha Hpush) as [Ha' Hlt]. destruct (u64_checked_add index 1) as [next|] eqn:Hnext; [|by apply wp_ret].
  apply checked_add_inv in Hnext as [-> _]. apply IH; [lia|done|lia].
Qed.

Lemma exec_args_spec path argv_ptr envp_ptr :
  text path → 0 <= argv_ptr → 0 <= envp_ptr →
  wp (copy_exec_args_from_user hw_translate at_s1e0r current reserve granted path argv_ptr envp_ptr) args_post m.
Proof.
  intros Hpath Hav Hev. assert (args_text exec_args_empty) as H0 by (split_and!; [apply Forall_nil_2|apply Forall_nil_2|done|done]).
  assert (∀ vector ptr args, 0 <= ptr → args_text args → wp (copy_exec_string_vector_from_user hw_translate at_s1e0r current reserve granted ptr vector args) args_post m) as Hvec.
  { intros vector ptr args Hp Ha. apply string_vector_spec; [done|done|done|]. unfold vector_fuel. destruct Ha as (_ & _ & ?). lia. }
  apply wp_try. apply (wp_mono _ args_post).
  - destruct (argv_ptr =? 0); [|by apply Hvec]. apply wp_ret. split; [done|]. destruct (exec_args_push _ _ _ _) as [args|e] eqn:Hpush; [|done].
    by eapply push_text.
  - intros [args|e] m' [-> Ha]; [|done]. destruct (envp_ptr =? 0); [by apply wp_ret|]. by apply Hvec.
Qed.
End args.

(** ** One directory record *)

(** A record of [len] bytes. *)
Definition record_bytes (len ino off d_type : Z) (name : list Z) (pad : nat) : list Z :=
  (word_bytes ino ++ word_bytes (off mod (u64_max + 1)) ++ take 2 (word_bytes len) ++ [d_type]) ++ name ++ replicate pad 0.

Lemma record_length len ino off d_type name pad : length (record_bytes len ino off d_type name pad) = (19 + length name + pad)%nat.
Proof. unfold record_bytes. rewrite !length_app, length_take, !word_bytes_length, length_replicate. simpl. lia. Qed.

Lemma encode_record n ino off d_type name record :
  encode_dirent64 n ino off d_type name = Some record →
  ∃ len pad, record = record_bytes len ino off d_type name pad ∧ Z.of_nat (length record) = len ∧ len mod DIRENT64_ALIGN = 0 ∧ (0 < pad ≤ 8)%nat ∧
    (length record ≤ n)%nat ∧ len <= 65535.
Proof.
  unfold encode_dirent64. intros (raw & [-> _]%checked_add_inv & (raw1 & [-> _]%checked_add_inv & (len & Hlen & He)%bind_Some)%bind_Some)%bind_Some.
  unfold align_up, DIRENT64_ALIGN, DIRENT64_HEADER_SIZE in *. cbn [Z.eqb] in Hlen.
  apply bind_Some in Hlen as (a & [-> _]%checked_sub_inv & (v & [-> _]%checked_add_inv & [= <-])%bind_Some).
  set (raw := 19 + Z.of_nat (length name) + 1) in *. set (len := (raw + (8 - 1)) / 8 * 8) in *.
  pose proof (Z.div_mod (raw + (8 - 1)) 8 ltac:(done)) as Hd. pose proof (Z.mod_pos_bound (raw + (8 - 1)) 8 ltac:(done)) as Hm.
  assert (raw <= len < raw + 8) as Hr by (unfold len; lia). destruct ((_ || _) || _) eqn:Hb; [done|].
  apply orb_false_iff in Hb as [[H1 H2]%orb_false_iff _].
  assert (record = record_bytes len ino off d_type name (Z.to_nat len - 19 - length name)) as ->.
  { by injection He as <-. }
  exists len, (Z.to_nat len - 19 - length name)%nat. rewrite record_length. split_and!; [done|lia|unfold len; by apply Z.mod_mul|lia..].
Qed.

Lemma record_is_bytes len ino off d_type name pad : is_byte d_type → Forall is_byte name → Forall is_byte (record_bytes len ino off d_type name pad).
Proof.
  intros Ht Hn. unfold record_bytes. rewrite !Forall_app. split_and!; [apply word_bytes_range..|by apply Forall_take, word_bytes_range|by apply Forall_singleton|done|].
  by apply Forall_replicate.
Qed.

(** ** The calls *)

Section calls.
Context (E : Env) {N : nat} (tree : FsState) (es : list CpioEntry).
Context (reserve : nat → bool) (minimal_parse : list Z → option ElfFile).
Context (hw_translate : gmap Z Z → Z → Z → option Z) (at_s1e0r : gmap Z Z → Z → Z → bool) (granted : nat → bool).
Context (firmware : PowerOperation → option Z).
Hypothesis Hcpu : (e_cpu E < KERNEL_CPU_CAPACITY)%nat.
Hypothesis Harch : arch_ok E.
Hypothesis Hhw : ∀ st root va, hw_translate st root va = translate_user_va st root va.
Hypothesis Hat : ∀ st root va, at_s1e0r st root va = true ↔ may st root AccessRead va.
Hypothesis Hmt : mounted_archive es tree.
Hypothesis Hfiles : files_ok minimal_parse tree.
Hypothesis Htext : ramfs_text tree.
Abbreviation here := (here E N tree).
Abbreviation safe := (safe E N tree).
Abbreviation step_ok := (step_ok E (N:=N) tree).
Abbreviation any := (λ _, True).

(** *** Paths *)

(** A node of the tree with the canonical path of a result. *)
Definition names_node (rp : ResolvedPath) : Prop :=
  ∃ p, path_ok p ∧ rp_absolute rp = render p ∧ text (render p) ∧ node_at tree p = Some (rp_node rp).

Lemma node_text p node : path_ok p → node_at tree p = Some node → text (render p).
Proof.
  intros Hp. unfold node_at, lookup_dir, lookup_file. pose proof Htext as Ht. destruct (RAMFS tree) as [fs|] eqn:Hr; [|done]. cbn [mbind option_bind].
  destruct (Ht fs Hr) as [Hd Hf]. rewrite Forall_forall in Hd. rewrite Forall_forall in Hf.
  destruct (fs_lookup_dir fs (render p)) as [d|] eqn:Hl.
  - intros _. apply fmap_Some in Hl as ([j x] & (Hx & Hk & _)%list_find_Some & ->). rewrite <-Hk. apply Hd. by eapply list_elem_of_lookup_2.
  - destruct (fs_lookup_file fs (render p)) as [i|] eqn:Hl'; [|done]. intros _.
    apply fmap_Some in Hl' as ([j x] & (Hx & Hk & _)%list_find_Some & ->). rewrite <-Hk. apply Hf. by eapply list_elem_of_lookup_2.
Qed.

Lemma resolved_names cwd dir input rp :
  path_ok cwd → lookup_dir tree (render cwd) = Some dir → resolved tree cwd input = inl rp → names_node rp.
Proof.
  intros Hcwd Hdir. unfold resolved. destruct (decide (input = [])); [done|]. cbv zeta.
  set (start := if starts_with_slash input then [] else cwd). destruct (decide (GENRT_PATH_MAX < _)%nat); [done|].
  assert (path_ok start ∧ in_tree es start) as [Hs Ht].
  { unfold start. destruct (starts_with_slash input); [split; [apply Forall_nil_2|right; by left]|]. split; [done|right].
    apply (proj1 (lookup_dir_iff es tree Hmt cwd Hcwd)). by eexists. }
  destruct (walk tree start _) as [p|] eqn:Hw; [|done]. destruct (node_at tree p) as [node|] eqn:Hnode; [|done].
  destruct (_ && _); [done|]. intros [= <-]. cbn [rp_absolute rp_node].
  apply (walk_in_tree es tree Hmt) in Hw as (Hp & _ & _); [|apply split_on_no_slash|done..|lia].
  exists p. split_and!; [done|done|by eapply node_text|done].
Qed.

Lemma resolve_safe input : safe (good names_node) (resolve_current_path E input).
Proof.
  intros x y Hx. apply wp_try, wp_fails, wp_on_kernel. apply (cwd_dir_spec E (N:=N) tree Hcpu x y); [done|]. intros dir Hp Hl. cbv iota.
  change (mkSys (y_kernel y) (y_fs y) (y_stdin y) (y_console y)) with (with_kernel (y_kernel y) y). apply wp_fails, wp_on_fs.
  eapply wp_mono; [apply (resolve_path_spec es tree Hmt (cl_cwd x) dir input Hp Hl); apply Hx|].
  intros r s' [Hs Hr]. split.
  - destruct r as [rp|e]; [|done]. destruct Hr as [[Hr _]|[? _]]; [|done]. by eapply resolved_names.
  - exists x. split_and!; [|done|by split]. destruct Hx. by split.
Qed.

Lemma cwd_path_safe : safe (good text) (fails_as process_path_errno (on_kernel (λ s, current_cwd_path E s))).
Proof.
  apply safe_fails. intros x y Hx. apply wp_on_kernel, wp_try, (cwd_dir_spec E (N:=N) tree Hcpu x y); [done|]. intros dir Hp Hl. cbv iota. apply wp_ret.
  split; [|exists x; by split_and!; [destruct y as [[]]|..]]. rewrite (dir_path_same tree) by apply Hx. rewrite (dir_path_of es tree Hmt _ _ Hp Hl).
  apply (node_text _ (NodeDirectory dir)); [done|]. unfold node_at. by rewrite Hl.
Qed.

Lemma chdir_safe rp dir : names_node rp → rp_node rp = NodeDirectory dir →
  safe (good any) (fails_as process_path_errno (on_kernel (λ s, set_current_cwd E s dir))).
Proof.
  intros (p & Hp & _ & _ & Hn) Hd. rewrite Hd in Hn.
  assert (lookup_dir tree (render p) = Some dir) as Hl by (unfold node_at in Hn; destruct (lookup_dir tree (render p)); [by injection Hn as ->|by destruct (lookup_file tree (render p))]).
  apply safe_fails. intros x y Hx. apply wp_on_kernel. unfold set_current_cwd. rewrite (dir_path_same tree) by apply Hx.
  rewrite (dir_path_of es tree Hmt _ _ Hp Hl). apply wp_bind, (caller_id E (N:=N) tree Hcpu x y); [done|]. cbv iota. apply wp_on_procs_at, wp_slot_or.
  rewrite (ca_slot _ _ _ _ _ _ _ _ (he_calling _ _ _ _ _ Hx)). apply wp_bind, wp_modify, wp_ret. split; [done|].
  destruct (caller_process E tree x y Hx) as [P1 P2 P3 P4 P5]. eexists.
  apply (process_step E tree x y (λ q, set_files (file_state_set_cwd dir (rs_files (pr_resources q))) q) p Hx); [by split|done|done|done|done| |].
  - intros c Hc. eapply (he_cpus _ _ _ _ _ Hx); [apply (ca_slot _ _ _ _ _ _ _ _ (he_calling _ _ _ _ _ Hx))|by right].
  - split; [done|]. by exists dir.
Qed.

(** *** Fork and exec *)

Lemma collect_args_safe path argv_ptr envp_ptr :
  text path → 0 <= argv_ptr → 0 <= envp_ptr →
  safe (good args_text) (in_user E (λ current, copy_exec_args_from_user hw_translate at_s1e0r current reserve granted path argv_ptr envp_ptr)).
Proof.
  intros Hp Ha He x y Hx. apply (wp_in_user E (N:=N) tree Hcpu _ _ x); [done|].
  eapply wp_mono; [by apply (exec_args_spec _ _ _ reserve granted Hhw Hat _ (caller_installed E tree Hcpu x y Hx) path argv_ptr envp_ptr)|].
  intros r m' [-> Hr]. split; [by destruct r|]. exists x. by split_and!; [destruct y as [[]]|..].
Qed.

(** A failure gives every frame back. *)
Lemma undone_step x y k' :
  here x y → let k := y_kernel y in k_world k' = k_world k → (∀ q, pt_slot (k_procs k') q = pt_slot (k_procs k) q) → kept (k_mmu k) (k_mmu k') →
  untouched (λ f, f ∈ cl_pool x) (k_mmu k) (k_mmu k') → spaces_kept (cl_spaces x) (k_mmu k) (k_mmu k') →
  kernel_inv E N (cl_spaces x) (cl_pool x) k' → step_ok x y x (with_kernel k' y).
Proof.
  intros [HK HC HI HM HF HW HT HO HB] k G1 G2 G3 G4 G5 G6. split_and!; [split|done|split]; cbn [with_kernel y_kernel y_fs y_stdin y_console]; try done.
  - destruct HC as [C1 C2 C3 C4 C5 C6 C7]. split; rewrite ?G1, ?G2; done.
  - eapply user_memory_kept; [exact G3|exact G5|apply HM|done|done].
  - by rewrite G1.
  - intros q p. rewrite G2. apply HB.
  - eapply untouched_mono; [|exact G4]. intros f Hf. apply elem_of_union. by left.
  - intros r0 a Hr0 Ha. apply G5; [|done]. by apply elem_of_difference in Hr0 as [? _].
  - intros q p Hq Hp. by rewrite G2.
  - intros q tq Hq Hl. by rewrite G1.
  - intros q Hq. by rewrite G1.
Qed.

Lemma fork_step x y dir c tid r image' stack' pool' k' :
  here x y → let k := y_kernel y in
  forked E (N:=N) (k_world k) (k_procs k) (k_mmu k) (cl_spaces x) (cl_pool x) (cl_pid x) (cl_process x) (cl_tid x) (cl_thread x) (cl_space x) (cl_stack x)
    (cl_image x) dir (cl_frame x) c tid r image' stack' pool' k' → ∃ x', step_ok x y x' (with_kernel k' y).
Proof.
  intros [HK HC HI HM HF HW HT HO HB] k [F1 F2 F3 F4 (F5 & tc & F6 & _) _ F7 F8 F9 F10 F11 _ _ _ _ [F12 F13] F14].
  exists (mkCaller ({[r]} ∪ cl_spaces x) pool' (cl_pid x) (set_pending_fork_cpu None (cl_process x)) (cl_tid x) (cl_thread x) (cl_space x) (cl_stack x) (cl_image x) (cl_cwd x) (cl_frame x)).
  split_and!; [split|split|split]; cbn [with_kernel cl_spaces cl_pool cl_pid cl_process cl_tid cl_thread cl_space cl_stack cl_image cl_cwd cl_frame y_kernel y_fs y_stdin y_console]; try done.
  - eapply user_memory_kept; [exact F9|exact F11|apply elem_of_union; right; apply HM|done|done].
  - by rewrite F8.
  - intros q p Hq cpu Hc. destruct (decide (q = c)) as [->|Hqc].
    + rewrite F2 in Hq. injection Hq as <-. destruct Hc as [[= <-]|[=]]. unfold child_cpu. pose proof (ca_slot _ _ _ _ _ _ _ _ HC) as Hs.
      destruct (pr_pending_fork_cpu (cl_process x)) as [pc|] eqn:Hpc; [by eapply HB; [exact Hs|right]|].
      cbn [default]. destruct (pr_owner_cpu (cl_process x)) as [oc|] eqn:Hoc; [by eapply HB; [exact Hs|left]|cbn; unfold KERNEL_CPU_CAPACITY; lia].
    + destruct (decide (q = cl_pid x)) as [->|Hqp]; [|rewrite F4 in Hq by done; by eapply HB].
      rewrite F3 in Hq. injection Hq as <-. destruct Hc as [Hc|[=]]. eapply HB; [apply HC|by left].
  - unfold footprint. cbn. set_solver.
  - unfold others. cbn. set_solver.
  - eapply untouched_mono; [|exact F10]. intros f Hf. apply elem_of_union. by left.
  - intros r0 a Hr0 Ha. apply F11; [|done]. by apply elem_of_difference in Hr0 as [? _].
  - intros q p Hq Hp. rewrite F4; [done| |done]. intros ->. unfold k in *. congruence.
  - intros q tq Hq Hl. unfold live in *. rewrite F6. case_decide; [unfold k in *; congruence|done].
  - intros q Hq. by rewrite F8.
Qed.

Lemma fork_safe : safe any (on_kernel (λ s, fork_current E s reserve)).
Proof.
  intros x y Hx. pose proof Hx as [HK HC HI HM HF (Hcwd & dir & Hdir & Hlook) HT HO HB]. apply wp_on_kernel. rewrite <-(kernel_eta (y_kernel y)) in HK, HC.
  rewrite <-(kernel_eta (y_kernel y)). eapply wp_mono; [by eapply (fork_spec E (y_fs y) reserve)|]. intros [raw|e] k' Hr; (split; [done|]).
  - destruct Hr as (c & tid & r & image' & stack' & pool' & -> & Hfo). by eapply fork_step.
  - destruct Hr as [G1 G2 G3 G4 G5 G6]. exists x. by apply undone_step.
Qed.

Lemma exec_step x y data args fuel st pool' k' :
  here x y → let k := y_kernel y in
  execed E minimal_parse (N:=N) (k_world k) (k_procs k) (k_mmu k) (cl_spaces x) (cl_pool x) (cl_pid x) (cl_process x) (cl_tid x) (cl_thread x) (cl_space x) (cl_stack x)
    (cl_image x) (cl_frame x) data args fuel st pool' k' → ∃ x', step_ok x y x' (with_kernel k' y).
Proof.
  intros [HK HC HI HM HF HW HT HO HB] k [F0 F1 F2 F3 F4 F5 _ _ _ F6 [F7 F8] F9 F10 F11 F12].
  exists (mkCaller (({[root_pa (si_address_space st)]} ∪ cl_spaces x) ∖ {[root_pa (cl_space x)]}) pool' (cl_pid x) (new_record (cl_process x) st) (cl_tid x) (new_thread (cl_thread x) st)
    (si_address_space st) (si_stack st) (si_user_image st) (cl_cwd x) (replace_user_context_after_exec (cl_frame x) (si_entry st) (si_initial_sp st))).
  split_and!; [split|split|split]; cbn [with_kernel cl_spaces cl_pool cl_pid cl_process cl_tid cl_thread cl_space cl_stack cl_image cl_cwd cl_frame y_kernel y_fs y_stdin y_console]; try done.
  - rewrite F5. apply list_lookup_insert_eq. by eapply lookup_lt_Some.
  - intros q p Hq cpu Hc. destruct (decide (q = cl_pid x)) as [->|Hqp]; [|rewrite F2 in Hq by done; by eapply HB].
    rewrite F1 in Hq. injection Hq as <-. eapply HB; [apply HC|exact Hc].
  - unfold footprint. cbn. set_solver.
  - unfold others. cbn. set_solver.
  - intros q p Hq Hp. by rewrite F2.
  - intros q tq Hq Hl. unfold live in *. rewrite F3. by rewrite decide_False.
  - intros q Hq. rewrite F5. by apply list_lookup_insert_ne.
Qed.

Lemma exec_safe rp args : args_text args → safe any (on_kernel (λ s, execve_current E s reserve minimal_parse rp args)).
Proof.
  intros (Ha & He & _) x y Hx. pose proof Hx as [HK HC HI HM HF HW HT HO HB]. apply wp_on_kernel. rewrite <-(kernel_eta (y_kernel y)) in HK, HC.
  rewrite <-(kernel_eta (y_kernel y)).
  eapply wp_mono; [eapply (execve_spec E (y_fs y) reserve minimal_parse) with (fuel := Z.to_nat USER_STACK_SIZE); try done|].
  { intros i data. unfold file_data. rewrite HT. apply Hfiles. }
  intros [[]|e] k' Hr; (split; [done|]).
  - destruct Hr as (i & data & st & pool' & _ & _ & Hex). by eapply exec_step.
  - destruct Hr as [G1 G2 G3 G4 G5 G6]. exists x. apply undone_step; try done. intros q. by rewrite G2.
Qed.

(** *** Directory records *)

Definition entry_text (o : option FdDirEntry) : Prop := match o with Some e => text (rde_name (fde_entry e)) | None => True end.

Lemma dir_entry_text s t fd off o : RAMFS s = RAMFS tree → fd_dir_entry_at s t fd off = inl o → entry_text o.
Proof.
  intros Hs. unfold fd_dir_entry_at. destruct (fd_user_entry t fd) as [[[|dir pos]|]|]; try done. intros [= <-].
  unfold dir_entry_at. rewrite Hs. pose proof Htext as Ht. destruct (RAMFS tree) as [fs|] eqn:Hr; [|done]. cbn [mbind option_bind].
  destruct (Ht fs Hr) as [Hd _]. rewrite Forall_forall in Hd. destruct (fs_dirs fs !! dir) as [d|] eqn:Ed; [|done]. cbn [mbind option_bind].
  destruct (rd_entries d !! (pos + off)%nat) as [e|] eqn:Ee; [|done]. cbn. destruct (Hd d (list_elem_of_lookup_2 _ _ _ Ed)) as [_ He].
  rewrite Forall_forall in He. apply He. by eapply list_elem_of_lookup_2.
Qed.

Lemma dir_entry_safe fd off : safe (good entry_text) (fails_as fd_errno (on_kernel (λ s, current_fd_dir_entry_at E s fd off))).
Proof. apply (file_state_safe E tree Hcpu). intros s p o Hs. by apply dir_entry_text. Qed.

Lemma getdents_loop_safe fuel fd first max_len buffer emitted :
  entry_text first → Forall is_byte buffer → (length buffer ≤ max_len)%nat → (max_len - length buffer < fuel)%nat →
  safe (good (λ '(bytes, _), Forall is_byte bytes ∧ (length bytes ≤ max_len)%nat)) (getdents_loop E fuel fd first max_len buffer emitted).
Proof.
  intros Hfirst. revert buffer emitted. induction fuel as [|fuel IH]; intros buffer emitted Hb Hl Hf; [lia|]. cbn [getdents_loop].
  apply (safe_try _ _ _ entry_text).
  { destruct (decide (emitted = 0%nat)); [by apply safe_ret|apply dir_entry_safe]. }
  intros [e|] He; [|by apply safe_ret]. cbv zeta.
  destruct (encode_dirent64 _ _ _ _ _) as [record|] eqn:Henc; [|destruct (decide (buffer = [])); by apply safe_ret].
  destruct (encode_record _ _ _ _ _ _ Henc) as (len & pad & Hrec & _ & _ & Hpad & Hrl & _).
  assert (Forall is_byte record) as Hrb by (rewrite Hrec; apply record_is_bytes; [by destruct (rde_kind _)|by apply text_bytes]).
  assert (length record = (19 + length (rde_name (fde_entry e)) + pad)%nat) as Hlen by (rewrite Hrec; apply record_length).
  apply IH; [by apply Forall_app|rewrite length_app; lia|rewrite length_app; lia].
Qed.

(** *** The handlers *)

(** The registers hold 64-bit values. *)
Definition args_ok (rq : SyscallRequest) : Prop := Forall (λ a, 0 <= a <= u64_max) (rq_args rq).

Lemma arg_range rq i : args_ok rq → 0 <= arg rq i <= u64_max.
Proof.
  intros Hrq. unfold arg. destruct (decide (i < length (rq_args rq))%nat) as [Hi|Hi]; [|rewrite nth_overflow by lia; done].
  destruct (lookup_lt_is_Some_2 _ _ Hi) as [a Ha]. rewrite (nth_lookup_Some _ _ _ _ Ha). by eapply Forall_lookup_1 in Hrq.
Qed.

Lemma read_slice_bytes s t fd max_len l : RAMFS s = RAMFS tree → read_slice s t fd max_len = inl l → Forall is_byte l.
Proof.
  intros Hs. unfold read_slice. destruct (fd_user_entry t fd) as [[[i off []|]|]|]; try done. destruct (file_data s i) as [data|] eqn:Hd; [|done].
  intros [= <-]. apply Forall_take, Forall_drop. unfold file_data in Hd. rewrite Hs in Hd. by eapply Hfiles.
Qed.

(** A result that is returned to the user. *)
Lemma returning_safe (m : Y (Z + Errno)) : safe any m → safe any (r ← m; return_result E r).
Proof. intros Hm. apply (safe_bind _ _ _ any); [done|]. intros r _. apply (return_safe E tree Hcpu). Qed.

Lemma good_any {A} (m : Y (A + Errno)) : safe (good any) m → safe any m.
Proof. intros Hm. by eapply safe_mono. Qed.

Lemma any_good {A} (m : Y (A + Errno)) : safe any m → safe (good any) m.
Proof. intros Hm. eapply safe_mono; [exact Hm|]. by intros []. Qed.

Lemma read_file_safe fd ptr count : 0 <= ptr <= u64_max → safe any (sys_read_file E hw_translate at_s1e0r fd ptr count).
Proof.
  intros Hp. apply good_any. unfold sys_read_file. apply safe_if; [by apply safe_ret|]. apply safe_if; [by apply safe_ret|]. cbv zeta.
  apply (safe_try _ _ _ (Forall is_byte)); [apply (file_state_safe E tree Hcpu); intros s p l; apply read_slice_bytes|].
  intros l Hl. destruct (decide (l = [])); [by apply safe_ret|]. apply (safe_try _ _ _ any); [by apply (user_to_safe E tree)|]. intros _ _.
  apply (safe_try _ _ _ any); [by apply (fds_safe E tree Hcpu)|]. intros _ _. by apply safe_ret.
Qed.

Lemma sys_write_safe rq : args_ok rq → safe any (sys_write E hw_translate at_s1e0r rq).
Proof.
  intros Hrq. apply returning_safe, good_any. apply safe_if.
  - apply (safe_try _ _ _ any); [by apply (file_state_safe E tree Hcpu)|]. intros b _. by apply safe_ret.
  - apply safe_if; [by apply safe_ret|]. cbv zeta.
    apply (safe_try _ _ _ any); [eapply safe_mono; [by apply (user_from_safe E tree), arg_range|by intros []]|].
    intros bytes _. apply (safe_bind _ _ _ any); [apply write_safe|]. intros _ _. by apply safe_ret.
Qed.

Lemma sys_open_safe rq : args_ok rq → safe any (sys_open E hw_translate at_s1e0r granted rq).
Proof.
  intros Hrq. apply returning_safe, good_any. apply (safe_try _ _ _ any); [by apply safe_lift; destruct (validate_open_flags _)|]. intros _ _.
  apply (safe_try _ _ _ text); [by apply (user_path_safe E tree), arg_range|]. intros input _.
  apply (safe_try _ _ _ names_node); [apply resolve_safe|]. intros rp _. apply (safe_try _ _ _ any); [|intros fd _; by apply safe_ret].
  destruct (rp_node rp) as [i|d]; [apply safe_if; [by apply safe_ret|]|]; by apply (fds_safe E tree Hcpu).
Qed.

Lemma sys_close_safe rq : safe any (sys_close E rq).
Proof. apply returning_safe, good_any. apply (safe_try _ _ _ any); [by apply (fds_safe E tree Hcpu)|]. intros _ _. by apply safe_ret. Qed.

Lemma sys_getdents64_safe rq : args_ok rq → safe any (sys_getdents64 E hw_translate at_s1e0r rq).
Proof.
  intros Hrq. apply returning_safe, good_any. unfold sys_getdents64_impl. destruct (Z.eqb_spec (arg rq 2) 0) as [|Hc]; [by apply safe_ret|].
  pose proof (arg_range rq 2 Hrq) as Hr2. apply (safe_try _ _ _ entry_text); [apply dir_entry_safe|]. intros first Hfirst. cbv zeta.
  apply (safe_try _ _ _ any); [apply (user_writable_safe E tree); [done|done|by apply arg_range|unfold MAX_USER_COPY; lia]|]. intros _ _.
  apply (safe_try _ _ _ (λ '(bytes, _), Forall is_byte bytes ∧ (length bytes ≤ Z.to_nat (Z.min (arg rq 2) MAX_USER_COPY))%nat)).
  { apply getdents_loop_safe; [done|apply Forall_nil_2|simpl; lia|simpl; lia]. }
  intros [bytes n] [Hb _]. destruct (decide (bytes = [])); [by apply safe_ret|].
  apply (safe_try _ _ _ any); [by apply (user_to_safe E tree); [..|apply arg_range|]|]. intros _ _.
  apply (safe_try _ _ _ any); [by apply (fds_safe E tree Hcpu)|]. intros _ _. by apply safe_ret.
Qed.

Lemma sys_chdir_safe rq : args_ok rq → safe any (sys_chdir E hw_translate at_s1e0r granted rq).
Proof.
  intros Hrq. apply returning_safe, good_any. apply (safe_try _ _ _ text); [by apply (user_path_safe E tree), arg_range|]. intros input _.
  apply (safe_try _ _ _ names_node); [apply resolve_safe|]. intros rp Hrp. destruct (rp_node rp) as [i|d] eqn:Hd; [by apply safe_ret|].
  apply (safe_try _ _ _ any); [by eapply chdir_safe|]. intros _ _. by apply safe_ret.
Qed.

Lemma sys_getcwd_safe rq : args_ok rq → safe any (sys_getcwd E hw_translate at_s1e0r rq).
Proof.
  intros Hrq. apply returning_safe, good_any. apply (safe_try _ _ _ text); [apply cwd_path_safe|]. intros cwd Hcwd.
  destruct (u64_checked_add _ _) as [n|]; [|by apply safe_ret]. apply safe_if; [by apply safe_ret|].
  apply (safe_try _ _ _ any); [apply (cstr_to_safe E tree); try done; [by apply arg_range|by apply text_bytes]|]. intros _ _. by apply safe_ret.
Qed.

Lemma sys_fork_safe : safe any (sys_fork E reserve).
Proof. apply returning_safe, fork_safe. Qed.

Lemma sys_execve_safe rq : args_ok rq → safe any (sys_execve E reserve minimal_parse hw_translate at_s1e0r granted rq).
Proof.
  intros Hrq. apply (safe_bind _ _ _ any).
  - apply good_any. apply (safe_try _ _ _ text); [by apply (user_path_safe E tree), arg_range|]. intros input _.
    apply (safe_try _ _ _ names_node); [apply resolve_safe|]. intros rp (p & _ & Hrp & Ht & _).
    apply (safe_try _ _ _ args_text); [apply collect_args_safe; [by rewrite Hrp|by apply arg_range..]|]. intros args Hargs. by apply any_good, exec_safe.
  - intros [[]|e] _; [by apply safe_ret|apply (set_result_safe E tree Hcpu)].
Qed.

Lemma sys_setforkaffinity_safe rq : safe any (sys_sched_setforkaffinity E rq).
Proof.
  apply (safe_bind _ _ _ any); [apply (fork_affinity_safe E tree Hcpu)|]. intros r _. apply (return_safe E tree Hcpu).
Qed.

Lemma sys_getaffinity_safe rq : args_ok rq → safe any (sys_sched_getaffinity E hw_translate at_s1e0r rq).
Proof.
  intros Hrq. apply returning_safe, good_any. apply safe_if; [by apply safe_ret|].
  apply (safe_try _ _ _ (λ cpu, (cpu < KERNEL_CPU_CAPACITY)%nat)); [apply (affinity_safe E tree Hcpu)|]. intros cpu Hc.
  apply (safe_bind _ _ _ any).
  { unfold assert_that. rewrite bool_decide_eq_true_2 by (unfold USER_CPU_SET_BITS, KERNEL_CPU_CAPACITY in *; lia). by apply safe_ret. }
  intros _ _. cbv zeta. apply (safe_try _ _ _ any); [|intros _ _; by apply safe_ret]. apply (user_to_safe E tree); try done; [by apply arg_range|].
  apply Forall_insert; [by apply Forall_replicate|]. rewrite Z.shiftl_mul_pow2, Z.mul_1_l by lia. unfold is_byte.
  pose proof (Nat.mod_upper_bound cpu 8 ltac:(done)) as Hm. pose proof (Z.pow_pos_nonneg 2 (Z.of_nat (cpu mod 8)) ltac:(done) ltac:(lia)).
  assert (2 ^ Z.of_nat (cpu mod 8) <= 2 ^ 7) by (apply Z.pow_le_mono_r; lia). lia.
Qed.

(** How a call may end: a number of the interface is handled, except that a
    power request the firmware carries out does not come back; any other number
    is reported. *)
Definition is_call (nr : Z) : Prop := 0 <= nr <= SYS_PROFILE_READ.
Definition ends_as (rq : SyscallRequest) (d : Dispatched) : Prop :=
  match d with
  | Handled => is_call (rq_number rq)
  | Joining _ _ => False
  | Unknown nr => nr = rq_number rq ∧ ¬ is_call nr
  | NoReturn op => rq_number rq = SYS_REBOOT ∧ parse_linux_reboot (arg rq 0) (arg rq 1) (arg rq 2) = inl op ∧ firmware op = None
  end.

Lemma sys_reboot_safe rq : rq_number rq = SYS_REBOOT → safe (ends_as rq) (sys_reboot E firmware rq).
Proof.
  intros Hn. unfold sys_reboot. assert (∀ v, safe (ends_as rq) (set_result E v;; mret Handled)) as Hset.
  { intros v. apply (safe_bind _ _ _ any); [apply (set_result_safe E tree Hcpu)|]. intros _ _. apply safe_ret. cbn. by rewrite Hn. }
  destruct (parse_linux_reboot _ _ _) as [op|e] eqn:Hp; [|apply Hset]. destruct (firmware op) eqn:Hf; [apply Hset|]. by apply safe_ret.
Qed.

Lemma timespec_safe ptr t : 0 <= ptr <= u64_max → safe (good any) (copy_timespec_to_user E hw_translate at_s1e0r ptr t).
Proof. intros Hp. apply safe_if; [by apply safe_ret|]. apply (user_to_safe E tree); try done. apply Forall_app. split; apply word_bytes_range. Qed.

Lemma validate_clock_safe id : safe (good any) (lift (validate_clock_id id)).
Proof. apply safe_lift. by destruct (validate_clock_id id). Qed.

Lemma time_safe (r : MonotonicTime + TimeConversionError) : safe (good any) (fails_as time_errno (mret r)).
Proof. apply safe_fails, safe_ret. by destruct r. Qed.

Lemma sys_clock_gettime_safe rq : args_ok rq → safe any (sys_clock_gettime E hw_translate at_s1e0r rq).
Proof.
  intros Hrq. apply returning_safe, good_any. apply (safe_try _ _ _ any); [apply validate_clock_safe|]. intros _ _.
  apply (safe_bind _ _ _ any); [apply read_counter_safe|]. intros n _. apply (safe_try _ _ _ any); [apply time_safe|]. intros t _.
  apply (safe_try _ _ _ any); [by apply timespec_safe, arg_range|]. intros _ _. by apply safe_ret.
Qed.

Lemma sys_clock_getres_safe rq : args_ok rq → safe any (sys_clock_getres E hw_translate at_s1e0r rq).
Proof.
  intros Hrq. apply returning_safe, good_any. apply (safe_try _ _ _ any); [apply validate_clock_safe|]. intros _ _. cbv zeta.
  apply safe_if; [by apply safe_ret|]. apply (safe_try _ _ _ any); [apply time_safe|]. intros t _.
  apply (safe_try _ _ _ any); [by apply timespec_safe, arg_range|]. intros _ _. by apply safe_ret.
Qed.

Lemma sys_read_safe rq : args_ok rq → (arg rq 0 =? Z.of_nat STDIN) = false → safe any (sys_read E hw_translate at_s1e0r rq).
Proof. intros Hrq H0. unfold sys_read. cbv zeta. rewrite H0. by apply returning_safe, read_file_safe, arg_range. Qed.

#[local] Ltac call_numbers :=
  unfold SYS_READ, SYS_WRITE, SYS_EXIT, SYS_OPEN, SYS_CLOSE, SYS_FORK, SYS_EXECVE, SYS_WAITPID, SYS_GETDENTS64, SYS_CHDIR, SYS_GETCWD,
    SYS_SCHED_SETFORKAFFINITY, SYS_SCHED_GETAFFINITY, SYS_REBOOT, SYS_CLOCK_GETTIME, SYS_CLOCK_GETRES, SYS_CLOCK_NANOSLEEP,
    SYS_PROFILE_CONTROL, SYS_PROFILE_READ in *.

(** The requests whose handler neither blocks nor ends the caller. *)
Definition prompt (rq : SyscallRequest) : bool :=
  negb ((rq_number rq =? SYS_EXIT) || (rq_number rq =? SYS_WAITPID) || (rq_number rq =? SYS_CLOCK_NANOSLEEP) ||
        ((rq_number rq =? SYS_READ) && (arg rq 0 =? Z.of_nat STDIN))).

Abbreviation dispatch := (dispatch E reserve minimal_parse hw_translate at_s1e0r granted firmware).

Lemma handled_safe rq nr (m : Y unit) (other : Y Dispatched) :
  is_call nr → safe any m → (rq_number rq ≠ nr → safe (ends_as rq) other) →
  safe (ends_as rq) (if rq_number rq =? nr then m;; mret Handled else other).
Proof.
  intros Hc Hm Ho. destruct (Z.eqb_spec (rq_number rq) nr) as [Hn|Hn]; [|by apply Ho].
  apply (safe_bind _ _ _ any); [done|]. intros _ _. apply safe_ret. cbn. by rewrite Hn.
Qed.

Lemma dispatch_safe rq : args_ok rq → prompt rq = true → safe (ends_as rq) (dispatch rq).
Proof.
  intros Hrq Hp. unfold prompt in Hp. apply negb_true_iff, orb_false_iff in Hp as [[[H2 H3]%orb_false_iff H4]%orb_false_iff H1].
  unfold Syscall.dispatch, dispatch_other. rewrite H2, H3, H4. cbv zeta. apply Z.eqb_neq in H2, H3, H4.
  destruct (Z.eqb_spec (rq_number rq) SYS_READ) as [H0|H0].
  { apply (safe_bind _ _ _ any); [by apply sys_read_safe|]. intros _ _. apply safe_ret. cbn. by rewrite H0. }
  apply handled_safe; [done|by apply sys_write_safe|intros N1]. apply handled_safe; [done|by apply sys_open_safe|intros N2].
  apply handled_safe; [done|apply sys_close_safe|intros N3]. apply handled_safe; [done|apply sys_fork_safe|intros N4].
  apply handled_safe; [done|by apply sys_execve_safe|intros N5]. apply handled_safe; [done|by apply sys_getdents64_safe|intros N6].
  apply handled_safe; [done|by apply sys_chdir_safe|intros N7]. apply handled_safe; [done|by apply sys_getcwd_safe|intros N8].
  apply handled_safe; [done|apply sys_setforkaffinity_safe|intros N9]. apply handled_safe; [done|by apply sys_getaffinity_safe|intros N10].
  destruct (Z.eqb_spec (rq_number rq) SYS_REBOOT) as [H5|N11]; [by apply sys_reboot_safe|].
  apply handled_safe; [done|by apply sys_clock_gettime_safe|intros N12]. apply handled_safe; [done|by apply sys_clock_getres_safe|intros N13].
  assert (is_call (rq_number rq) ↔ rq_number rq = SYS_PROFILE_CONTROL ∨ rq_number rq = SYS_PROFILE_READ) as Hc by (unfold is_call; call_numbers; lia).
  destruct (orb _ _) eqn:Hpr; [apply (safe_bind _ _ _ any); [apply (set_result_safe E tree Hcpu)|intros _ _]|]; apply safe_ret; cbn.
  - apply Hc. by rewrite orb_true_iff, !Z.eqb_eq in Hpr.
  - split; [done|]. rewrite Hc. by rewrite orb_false_iff, !Z.eqb_neq in Hpr; destruct Hpr; intros [].
Qed.

(** Any number of calls. *)
Fixpoint dispatch_all (rqs : list SyscallRequest) : Y (list Dispatched) :=
  match rqs with
  | [] => mret []
  | rq :: rest => d ← dispatch rq; ds ← dispatch_all rest; mret (d :: ds)
  end.

Lemma dispatch_all_safe rqs : Forall (λ rq, args_ok rq ∧ prompt rq = true) rqs → safe (Forall2 ends_as rqs) (dispatch_all rqs).
Proof.
  induction 1 as [|rq rqs [Ha Hp] _ IH]; cbn [dispatch_all]; [by apply safe_ret|]. apply (safe_bind _ _ _ (ends_as rq)); [by apply dispatch_safe|]. intros d Hd.
  apply (safe_bind _ _ _ (Forall2 ends_as rqs)); [exact IH|]. intros ds Hds. apply safe_ret. by constructor.
Qed.
End calls.

(** ** The claims *)

(** C4: a process can make any number of system calls with any register
    contents, except those that give up the CPU ([exit], [waitpid],
    [clock_nanosleep] and reading the console).  None of them panics, which
    would be a kernel crash that a user program can cause.  Every number of the
    interface is handled, except that a power request the firmware carries out
    does not come back; any other number is reported as unknown to the trap
    handler, which is not part of this theorem.  After the calls the kernel's
    invariant holds again for the same thread of the same process, whatever
    children and new program images it asked for.
    All the calls together change no byte outside the allocator's frames and
    the frames the caller owned, no translation of another address space, no
    other process, no other thread, no register frame of another CPU and
    nothing of the console's input. *)
Theorem syscalls_confined E N es reserve minimal_parse hw_translate at_s1e0r granted firmware x y rqs :
  (e_cpu E < KERNEL_CPU_CAPACITY)%nat → arch_ok E →
  (∀ st root va, hw_translate st root va = translate_user_va st root va) →
  (∀ st root va, at_s1e0r st root va = true ↔ may st root AccessRead va) →
  mounted_archive es (y_fs y) → files_ok minimal_parse (y_fs y) → ramfs_text (y_fs y) →
  here E N (y_fs y) x y → Forall (λ rq, args_ok rq ∧ prompt rq = true) rqs →
  ∃ ds y' x', dispatch_all E reserve minimal_parse hw_translate at_s1e0r granted firmware rqs y = Done (ds, y') ∧
    Forall2 (ends_as firmware) rqs ds ∧ here E N (y_fs y) x' y' ∧ within x x' ∧ confined E x y y'.
Proof.
  intros H1 H2 H3 H4 H5 H6 H7 H8 H9.
  destruct (wp_run _ _ _ (dispatch_all_safe E (y_fs y) es reserve minimal_parse hw_translate at_s1e0r granted firmware H1 H2 H3 H4 H5 H6 H7 rqs H9 x y H8))
    as (ds & y' & Hd & ? & x' & ? & ? & ?). by exists ds, y', x'.
Qed.

(** The process of [ProcSafety] on a mounted archive.  It asks for its current
    directory, opens it by the name it got, lists it, closes it and forks. *)
Definition proc_sys : Sys := mkSys proc_kernel PathRes.demo_fs stdin_new console_new.
Definition proc_buffer : Z := USER_STACK_TOP - PAGE_SIZE.
Definition proc_calls : list SyscallRequest :=
  [mkSyscallRequest SYS_GETCWD [proc_buffer; 16]; mkSyscallRequest SYS_OPEN [proc_buffer; O_DIRECTORY]; mkSyscallRequest SYS_GETDENTS64 [3; proc_buffer; 1024];
   mkSyscallRequest SYS_CLOSE [3]; mkSyscallRequest SYS_FORK []].
Definition proc_caller (pool : gset Z) : Caller :=
  mkCaller {[first_root]} pool proc_pid proc_record proc_thread proc_thread_record proc_space proc_stack proc_image [] proc_frame.

Lemma proc_tree_ok : files_ok demo_parse PathRes.demo_fs ∧ ramfs_text PathRes.demo_fs.
Proof.
  split.
  - intros i image Hi. split.
    + do 2 (destruct i as [|i]; [injection Hi as <-; repeat constructor; by vm_compute|]). by destruct i.
    + intros file phs [= <-] [= <-]. constructor; [|constructor]. vm_compute. repeat split; discriminate.
  - intros fs [= <-]. split; repeat (constructor; [split; repeat (constructor; try (split; reflexivity))|]); repeat constructor; by vm_compute.
Qed.

Lemma proc_here : ∃ pool, here proc_env 12 PathRes.demo_fs (proc_caller pool) proc_sys.
Proof.
  destruct proc_kernel_inv as (pool & Hk & Hm). exists pool. split; cbn [proc_sys proc_caller y_kernel y_fs y_console cl_spaces cl_pool cl_pid cl_process cl_tid cl_thread cl_space cl_stack cl_image cl_cwd cl_frame].
  - exact Hk.
  - exact proc_calling.
  - reflexivity.
  - exact Hm.
  - exact proc_frame_active.
  - split; [apply Forall_nil_2|]. exists 0%nat. split; [reflexivity|vm_compute; reflexivity].
  - reflexivity.
  - exists []. apply ring_new_holds. unfold CONSOLE_TX_CAPACITY. lia.
  - intros q p Hq c. destruct (proc_slots q p Hq) as [-> ->]. cbn. intros [[= <-]|[=]]. unfold KERNEL_CPU_CAPACITY. lia.
Qed.

#[local] Opaque proc_kernel dispatch_all.

Lemma syscalls_confined_witness :
  ∃ pool ds y' x', dispatch_all proc_env (λ _, true) demo_parse translate_user_va at_tables (λ _, true) (λ _, None) proc_calls proc_sys = Done (ds, y') ∧
    here proc_env 12 PathRes.demo_fs x' y' ∧ confined proc_env (proc_caller pool) proc_sys y'.
Proof.
  destruct proc_here as (pool & Hx). exists pool.
  destruct (syscalls_confined proc_env 12 (demo_archive PathRes.demo_image) (λ _, true) demo_parse translate_user_va at_tables (λ _, true) (λ _, None)
    (proc_caller pool) proc_sys proc_calls) as (ds & y' & x' & Hd & _ & Hx' & _ & Hc).
  - unfold KERNEL_CPU_CAPACITY. apply Nat.ltb_lt. reflexivity.
  - exact (proj2 (demo_env_ok 0 600 ltac:(unfold KERNEL_CPU_CAPACITY; lia))).
  - reflexivity.
  - exact at_tables_may.
  - exact demo_mounted.
  - apply proc_tree_ok.
  - apply proc_tree_ok.
  - exact Hx.
  - repeat (constructor; [split; [repeat (constructor; [split; discriminate|]); constructor|reflexivity]|]). constructor.
  - exists ds, y', x'. split; [exact Hd|]. split; [exact Hx'|exact Hc].
Defined.
