(* ===== verification/SyscallFiles.v ===== *)
(** * System calls on files: the claims

    What [read] and [getdents64] put into the caller's memory, byte by byte,
    and what they do to the descriptor. *)

From stdpp Require Import gmap sorting.
From S2P Require Import Prelude Types Wait TimeConv Deadline Preempt Context Time MemMap MemMapSpec FrameAlloc FrameSpec MemInit.
From S2P Require Import PageTable PageTableSpec AddressSpace PhysMem UserCopy UserAccess UserSafety UserImage FrameRuns ImageSafety Ramfs RamfsSpec Mount PathRes FdTable ExecStack ExecRead.
From S2P Require Import Vm Sched World Transition Handoff CpuInv SchedInv Switch Lifecycle TransitionSpec LifecycleSpec WorldInv TimeSpec.
From S2P Require Import SwitchSpec WakeSpec Frames EntrySpec BlockSpec JoinSpec ThreadSpec SpawnSpec Console ConsoleSpec.
From S2P Require Import Staging StageSafety CloneSpec Process ProcessOps Syscall ProcSpec ProcHistory ForkSpec ProcKernel ExecKernel SyscallSpec.
From S2P Require Import SpaceSafety System Demo ProcSafety SyscallSafety.
#[local] Open Scope Z_scope.

(** ** User memory as the caller sees it *)

(** The page of a user address, and which run of the program it is in. *)
Lemma user_run_of m spaces pool r image stack a pa :
  user_memory m spaces pool r image stack → 0 <= a → translate_user_va (memory m) r a = Some pa →
  (∃ j sg start n, ui_segments image !! j = Some sg ∧ seg_run sg start n ∧ pa = start + (a - sg_va sg) ∧ align_down pa PAGE_SIZE ∈ seg_set sg) ∨
  (∃ start n, stack_frames stack = run_range start n ∧ pa = start + (a - us_base stack) ∧ align_down pa PAGE_SIZE ∈ run_set start n).
Proof.
  intros [_ M2 M3 _ _ M6] Ha Ht. unfold translate_user_va in Ht. destruct (query_user_mapping (memory m) r a) as [i|] eqn:Hq; [|done].
  injection Ht as <-. destruct (M6 a Ha ltac:(by eexists)) as [(sg & Hsg & Hin)|Hin].
  - left. rewrite Forall_forall in M2. destruct (M2 sg Hsg) as (start & n & Hs & [R1 _ _ R4]). pose proof Hs as [_ E2].
    rewrite R4 in Hq by (unfold in_run, in_seg in *; lia). injection Hq as <-. cbn [um_pa run_info].
    apply list_elem_of_lookup in Hsg as [j Hj]. exists j, sg, start, n. split_and!; [done|done|done|]. rewrite (seg_set_run _ _ _ Hs).
    apply elem_of_page_set, run_page; [by destruct (run_first _ _ _ R1)|unfold in_seg in Hin; lia].
  - right. destruct M3 as (start & n & E1 & E2 & [R1 _ _ R4]). rewrite R4 in Hq by (unfold in_run; lia). injection Hq as <-. cbn [um_pa run_info].
    exists start, n. split_and!; [done|done|]. apply elem_of_page_set, run_page; [by destruct (run_first _ _ _ R1)|lia].
Qed.

Lemma sorted_apart {A} (R : A → A → Prop) (l : list A) i j x y : StronglySorted R l → (i < j)%nat → l !! i = Some x → l !! j = Some y → R x y.
Proof.
  intros Hs. revert i j. induction Hs as [|z l _ IH Hz]; intros i j Hij; [done|]. destruct i as [|i], j as [|j]; cbn; try lia.
  - intros [= <-] Hy. by eapply Forall_lookup_1.
  - apply IH. lia.
Qed.

(** No two addresses share a byte. *)
Lemma user_translate_inj m spaces pool r image stack a b pa :
  user_memory m spaces pool r image stack → 0 <= a → 0 <= b →
  translate_user_va (memory m) r a = Some pa → translate_user_va (memory m) r b = Some pa → a = b.
Proof.
  intros Hu Ha Hb Hta Htb. pose proof (um_owned _ _ _ _ _ _ Hu) as [_ Hsort]. pose proof (um_disjoint _ _ _ _ _ _ Hu) as Hdis.
  destruct (user_run_of _ _ _ _ _ _ _ _ Hu Ha Hta) as [(j & sg & start & n & Hj & [Hs _] & Ep & Hin)|(start & n & Hs & Ep & Hin)],
    (user_run_of _ _ _ _ _ _ _ _ Hu Hb Htb) as [(j' & sg' & start' & n' & Hj' & [Hs' _] & Ep' & Hin')|(start' & n' & Hs' & Ep' & Hin')].
  - destruct (lt_eq_lt_dec j j') as [[Hlt|<-]|Hlt].
    + destruct (sorted_apart _ _ _ _ _ _ Hsort Hlt Hj Hj' _ Hin Hin').
    + assert (sg' = sg) as -> by congruence. rewrite Hs in Hs'. injection Hs' as <- _. lia.
    + destruct (sorted_apart _ _ _ _ _ _ Hsort Hlt Hj' Hj _ Hin' Hin).
  - destruct (Hdis start' n' Hs' _ Hin'). eapply seg_set_sub; [by eapply list_elem_of_lookup_2|exact Hin].
  - destruct (Hdis start n Hs _ Hin). eapply seg_set_sub; [by eapply list_elem_of_lookup_2|exact Hin'].
  - rewrite Hs in Hs'. injection Hs' as <- _. lia.
Qed.

Section seen.
Context (m : Mmu) (spaces pool : gset Z) (r : Z) (image : UserElfImage) (stack : OwnedUserStack) (va : Z) (src : list Z).
Hypothesis Hm : machine_ok m spaces pool.
Hypothesis Hu : user_memory m spaces pool r image stack.
Hypothesis Hr : ttbr0_root m = r.
Hypothesis Hall : ∀ a, va <= a < va + Z.of_nat (length src) → accessible m AccessWrite a.
Hypothesis Hsrc : Forall is_byte src.
Abbreviation m' := (set_memory (λ _, store_at (memory m) (user_pas m va (length src)) src) m).

Lemma stored_query a : query_user_mapping (memory m') r a = query_user_mapping (memory m) r a.
Proof. apply (sd_queries _ _ _ _ _ (store_copy m spaces pool r image stack Hm Hu Hr va src Hall)), Hu. Qed.

(** The copied bytes are seen where they were copied to. *)
Lemma stored_seen k x : src !! k = Some x → user_byte m' (va + Z.of_nat k) = Some x.
Proof.
  intros Hx. pose proof (lookup_lt_Some _ _ _ Hx) as Hk. destruct (Hall (va + Z.of_nat k)) as [Hw Hmay]; [lia|].
  pose proof (may_write_read _ _ _ Hmay) as (i & Hi & Hp). unfold user_byte. rewrite decide_True by done. change (ttbr0_root m') with (ttbr0_root m).
  rewrite Hr in *. rewrite stored_query, Hi. cbn [mbind option_bind]. cbn in Hp. rewrite Hp. f_equal.
  destruct (stored_bytes m AccessWrite va src Hall Hsrc) as [_ H]. rewrite Hr in H.
  assert (translate_user_va (memory m) r (va + Z.of_nat k) = Some (um_pa i)) as Ht by (unfold translate_user_va; by rewrite Hi).
  apply (H k); [done|done|]. intros j Hj Hj'. destruct Hw as [Hlo _]. unfold USER_TEXT_BASE in Hlo.
  assert (va + Z.of_nat k = va + Z.of_nat j) as Heq by (eapply (user_translate_inj m spaces pool r image stack); [exact Hu|lia|lia|exact Ht|exact Hj']). lia.
Qed.

(** The other bytes are as they were. *)
Lemma stored_elsewhere a : ¬ (va <= a < va + Z.of_nat (length src)) → user_byte m' a = user_byte m a.
Proof.
  intros Hn. unfold user_byte. destruct (decide (in_window a)) as [[Hlo _]|]; [|done]. change (ttbr0_root m') with (ttbr0_root m). rewrite Hr, stored_query.
  destruct (query_user_mapping (memory m) r a) as [i|] eqn:Hi; [|done]. cbn [mbind option_bind]. destruct (um_readable i); [|done]. f_equal.
  destruct (stored_bytes m AccessWrite va src Hall Hsrc) as [H _]. rewrite Hr in H. apply H. intros k Hk Ht.
  destruct (Hall (va + Z.of_nat k)) as [[Hlo' _] _]; [lia|]. unfold USER_TEXT_BASE in *. apply Hn.
  assert (translate_user_va (memory m) r a = Some (um_pa i)) as Hta by (unfold translate_user_va; by rewrite Hi).
  assert (a = va + Z.of_nat k) by (eapply (user_translate_inj m spaces pool r image stack); [exact Hu|lia|lia|exact Hta|exact Ht]). lia.
Qed.
End seen.

(** ** Directory records *)

(** An entry as a user program reads it: inode, offset of the next one, type
    and name. *)
Record Dirent := mkDirent { de_ino : Z; de_off : Z; de_type : Z; de_name : list Z }.

Definition dirent_type (kind : DirEntryKind) : Z := match kind with KindDirectory => DT_DIR | KindFile => DT_REG end.
Definition dirent_of (k : nat) (e : RamDirEntry) : Dirent := mkDirent (rde_ino e) (Z.of_nat k + 1) (dirent_type (rde_kind e)) (rde_name e).

(** How a user program takes a buffer of records apart, by the length each of
    them gives; the name ends at the first zero. *)
Fixpoint up_to_nul (l : list Z) : list Z := match l with [] => [] | b :: l' => if b =? 0 then [] else b :: up_to_nul l' end.

Fixpoint decode_dirents (fuel : nat) (l : list Z) : option (list Dirent) :=
  match l, fuel with
  | [], _ => Some []
  | _, O => None
  | _, S fuel' =>
      let reclen := Z.to_nat (of_bytes (take 2 (drop 16 l))) in
      if decide (19 < reclen ≤ length l)%nat then
        d_type ← l !! 18%nat;
        rest ← decode_dirents fuel' (drop reclen l);
        Some (mkDirent (of_bytes (take 8 l)) (as_isize (of_bytes (take 8 (drop 8 l)))) d_type (up_to_nul (drop 19 (take reclen l))) :: rest)
      else None
  end.

(** The length of a record, and the record. *)
Definition dirent_len (e : RamDirEntry) : nat := ((length (rde_name e) + 27) / 8 * 8)%nat.
Definition dirent_bytes (k : nat) (e : RamDirEntry) : list Z :=
  record_bytes (Z.of_nat (dirent_len e)) (rde_ino e) (Z.of_nat k + 1) (dirent_type (rde_kind e)) (rde_name e) (dirent_len e - 19 - length (rde_name e)).
Fixpoint records (k : nat) (l : list RamDirEntry) : list Z :=
  match l with [] => [] | e :: l' => dirent_bytes k e ++ records (S k) l' end.

Definition entry_ok (e : RamDirEntry) : Prop := text (rde_name e) ∧ SLASH ∉ rde_name e ∧ 0 <= rde_ino e <= u64_max ∧ Z.of_nat (dirent_len e) <= 65535.

Lemma dirent_len_range e : (length (rde_name e) + 20 ≤ dirent_len e ≤ length (rde_name e) + 27)%nat.
Proof.
  unfold dirent_len. pose proof (Nat.div_mod (length (rde_name e) + 27) 8 ltac:(done)). pose proof (Nat.mod_upper_bound (length (rde_name e) + 27) 8 ltac:(done)). lia.
Qed.

Lemma dirent_bytes_length k e : length (dirent_bytes k e) = dirent_len e.
Proof. unfold dirent_bytes. rewrite record_length. pose proof (dirent_len_range e). lia. Qed.

Lemma encode_exact n k e :
  entry_ok e → Z.of_nat k + 1 <= i64_max →
  encode_dirent64 n (rde_ino e) (Z.of_nat k + 1) (dirent_type (rde_kind e)) (rde_name e) = if decide (dirent_len e ≤ n)%nat then Some (dirent_bytes k e) else None.
Proof.
  intros (_ & Hs & _ & Hmax) Hk. pose proof (dirent_len_range e) as Hr. unfold encode_dirent64, DIRENT64_HEADER_SIZE, u64_checked_add.
  rewrite (proj2 (Z.leb_le (19 + _) _)) by (unfold u64_max; lia). cbn [mbind option_bind]. rewrite (proj2 (Z.leb_le (19 + _ + 1) _)) by (unfold u64_max; lia). cbn [mbind option_bind].
  assert (align_up (19 + Z.of_nat (length (rde_name e)) + 1) DIRENT64_ALIGN = Some (Z.of_nat (dirent_len e))) as ->.
  { unfold align_up, DIRENT64_ALIGN, u64_checked_sub, u64_checked_add. cbn [Z.eqb Z.leb Z.compare Pos.compare Pos.compare_cont mbind option_bind].
    rewrite (proj2 (Z.leb_le _ _)) by (unfold u64_max; lia). cbn [mbind option_bind]. unfold dirent_len. rewrite Nat2Z.inj_mul, Nat2Z.inj_div.
    replace (19 + Z.of_nat (length (rde_name e)) + 1 + (8 - 1)) with (Z.of_nat (length (rde_name e) + 27)) by lia. done. }
  cbn [mbind option_bind]. rewrite (proj2 (Z.ltb_ge 65535 _)) by lia. rewrite bool_decide_eq_false_2 by exact Hs. rewrite !orb_false_r.
  destruct (Z.ltb_spec (Z.of_nat n) (Z.of_nat (dirent_len e))); case_decide; try lia; [done|]. cbv zeta. f_equal. unfold dirent_bytes, record_bytes. f_equal. f_equal. f_equal.
  rewrite !length_app, length_take, !word_bytes_length. cbn [length]. lia.
Qed.

(** The fields of a header. *)
Lemma header_fields (a b c : list Z) t rest :
  length a = 8%nat → length b = 8%nat → length c = 2%nat → let l := a ++ b ++ c ++ t :: rest in
  take 8 l = a ∧ take 8 (drop 8 l) = b ∧ take 2 (drop 16 l) = c ∧ l !! 18%nat = Some t ∧ drop 19 l = rest.
Proof.
  intros Ha Hb Hc l. assert (∀ k, drop (8 + k) l = drop k (b ++ c ++ t :: rest)) as D8 by (intros k; unfold l; by rewrite drop_app_add').
  assert (∀ k, drop (8 + (8 + k)) l = drop k (c ++ t :: rest)) as D16 by (intros k; rewrite D8; by rewrite drop_app_add').
  assert (∀ k, drop (8 + (8 + (2 + k))) l = drop k (t :: rest)) as D18 by (intros k; rewrite D16; by rewrite drop_app_add').
  split_and!; [unfold l; by rewrite take_app_length'| | | |exact (D18 1%nat)].
  - change (drop 8 l) with (drop (8 + 0) l). rewrite D8, drop_0. by rewrite take_app_length'.
  - change (drop 16 l) with (drop (8 + (8 + 0)) l). rewrite D16, drop_0. by rewrite take_app_length'.
  - change (l !! 18%nat) with (l !! (18 + 0)%nat). rewrite <-lookup_drop. change (drop 18 l) with (drop (8 + (8 + (2 + 0))) l). by rewrite D18.
Qed.

Lemma up_to_nul_text l rest : text l → up_to_nul (l ++ 0 :: rest) = l.
Proof. induction 1 as [|b l Hb _ IH]; [done|]. cbn. rewrite (proj2 (Z.eqb_neq b 0)) by lia. by rewrite IH. Qed.

Lemma small_length_bytes n : (0 <= n <= 65535) → of_bytes (take 2 (word_bytes n)) = n.
Proof.
  intros Hn. assert (take 2 (word_bytes n) = (λ k, (n / 256 ^ Z.of_nat k) mod 256) <$> seq 0 2) as -> by done.
  rewrite of_bytes_digits, Z.div_1_r. apply Z.mod_small. change (256 ^ Z.of_nat 2) with 65536. lia.
Qed.

Fixpoint dirents (k : nat) (l : list RamDirEntry) : list Dirent :=
  match l with [] => [] | e :: l' => dirent_of k e :: dirents (S k) l' end.

Lemma dirent_shape k e : Z.of_nat k + 1 <= i64_max → ∃ pad,
  dirent_bytes k e = word_bytes (rde_ino e) ++ word_bytes (Z.of_nat k + 1) ++ take 2 (word_bytes (Z.of_nat (dirent_len e))) ++
    dirent_type (rde_kind e) :: rde_name e ++ 0 :: replicate pad 0.
Proof.
  intros Hk. pose proof (dirent_len_range e) as Hr. exists (dirent_len e - 20 - length (rde_name e))%nat.
  unfold dirent_bytes, record_bytes. rewrite <-!(assoc_L (++)). cbn [app]. rewrite (Z.mod_small (Z.of_nat k + 1)) by (unfold i64_max, u64_max in *; lia).
  by replace (dirent_len e - 19 - length (rde_name e))%nat with (S (dirent_len e - 20 - length (rde_name e))) by lia.
Qed.

Lemma records_snoc k l e : records k (l ++ [e]) = records k l ++ dirent_bytes (k + length l) e.
Proof.
  revert k. induction l as [|e' l IH]; intros k; cbn [app records length]; [by rewrite app_nil_r, Nat.add_0_r|].
  rewrite IH, (assoc_L (++)). do 2 f_equal. lia.
Qed.

Lemma records_take_S k l n e : l !! n = Some e → records k (take (S n) l) = records k (take n l) ++ dirent_bytes (k + n) e.
Proof.
  intros Hn. rewrite (take_S_r _ _ e) by done. rewrite records_snoc. do 3 f_equal. rewrite length_take. apply lookup_lt_Some in Hn. lia.
Qed.

Lemma records_nil k l : records k l = [] → l = [].
Proof.
  destruct l as [|e l]; [done|]. cbn [records]. intros H. apply (f_equal length) in H. rewrite length_app, dirent_bytes_length in H. pose proof (dirent_len_range e). simpl in H. lia.
Qed.

Lemma decode_records fuel k l :
  Forall entry_ok l → Z.of_nat (k + length l) <= i64_max → (length l ≤ fuel)%nat → decode_dirents fuel (records k l) = Some (dirents k l).
Proof.
  intros Hl. revert fuel k. induction Hl as [|e l (Ht & _ & Hi & Hmax) _ IH]; intros fuel k Hk Hf; [by destruct fuel|]. cbn [length] in *. destruct fuel as [|fuel]; [lia|].
  cbn [records dirents]. pose proof (dirent_len_range e) as Hr. pose proof (dirent_bytes_length k e) as Hlen.
  destruct (dirent_shape k e) as (pad & Eq); [lia|]. set (tl := records (S k) l) in *.
  pose proof (header_fields (word_bytes (rde_ino e)) (word_bytes (Z.of_nat k + 1)) (take 2 (word_bytes (Z.of_nat (dirent_len e)))) (dirent_type (rde_kind e))) as Hh.
  destruct (Hh (rde_name e ++ 0 :: replicate pad 0)) as (_ & _ & _ & _ & Hname); [apply word_bytes_length..|by rewrite length_take, word_bytes_length|].
  destruct (Hh ((rde_name e ++ 0 :: replicate pad 0) ++ tl)) as (H1 & H2 & H3 & H4 & _); [apply word_bytes_length..|by rewrite length_take, word_bytes_length|].
  rewrite <-Eq in Hname.
  assert (dirent_bytes k e ++ tl = word_bytes (rde_ino e) ++ word_bytes (Z.of_nat k + 1) ++ take 2 (word_bytes (Z.of_nat (dirent_len e))) ++
    dirent_type (rde_kind e) :: (rde_name e ++ 0 :: replicate pad 0) ++ tl) as Eq'.
  { rewrite Eq, <-!app_assoc. cbn [app]. by rewrite <-!app_assoc. }
  rewrite <-Eq' in H1. rewrite <-Eq' in H2. rewrite <-Eq' in H3. rewrite <-Eq' in H4. clear Eq Eq' Hh.
  destruct (dirent_bytes k e ++ tl) as [|b0 rest0] eqn:Hcons; [apply (f_equal length) in Hcons; rewrite length_app in Hcons; simpl in Hcons; lia|].
  cbn [decode_dirents]. rewrite <-Hcons in *. rewrite H1, H2, H3, H4, small_length_bytes, Nat2Z.id by lia.
  rewrite decide_True by (rewrite length_app; lia). cbn [mbind option_bind].
  rewrite drop_app_length' by done. unfold tl. rewrite IH by lia. cbn [mbind option_bind]. rewrite take_app_length', Hname, up_to_nul_text by done. f_equal. f_equal. unfold dirent_of. f_equal.
  - apply of_bytes_word_bytes. unfold u64_max in Hi. lia.
  - rewrite of_bytes_word_bytes by (unfold i64_max in *; lia). unfold as_isize. by rewrite (proj2 (Z.leb_le _ _)) by lia.
Qed.

(** ** Reading a file *)

Section files.
Context (E : Env) {N : nat} (tree : FsState).
Context (reserve : nat → bool) (minimal_parse : list Z → option ElfFile).
Context (hw_translate : gmap Z Z → Z → Z → option Z) (at_s1e0r : gmap Z Z → Z → Z → bool) (granted : nat → bool).
Context (firmware : PowerOperation → option Z).
Hypothesis Hcpu : (e_cpu E < KERNEL_CPU_CAPACITY)%nat.
Hypothesis Hhw : ∀ st root va, hw_translate st root va = translate_user_va st root va.
Hypothesis Hat : ∀ st root va, at_s1e0r st root va = true ↔ may st root AccessRead va.
Abbreviation here := (here E N tree).
Abbreviation step_ok := (step_ok E (N:=N) tree).
Abbreviation files x := (rs_files (pr_resources (cl_process x))).
Abbreviation mmu y := (k_mmu (y_kernel y)).
Abbreviation dispatch := (dispatch E reserve minimal_parse hw_translate at_s1e0r granted firmware).

Lemma step_trans x y x1 y1 x2 y2 : step_ok x y x1 y1 → step_ok x1 y1 x2 y2 → step_ok x y x2 y2.
Proof. intros (_ & W1 & C1) (H2 & W2 & C2). split_and!; [done|by etrans|by eapply confined_trans]. Qed.

(** The call ends with [result] in the first register. *)
Definition ends_with (x : Caller) (y : Sys) (x1 : Caller) (y1 : Sys) (value : Z) (d : Dispatched) (y' : Sys) : Prop :=
  d = Handled ∧ mmu y' = mmu y1 ∧ step_ok x y (with_frame (set_syscall_result (cl_frame x1) value) x1) y'.

Lemma end_call x y x1 y1 (result : Z + Errno) :
  step_ok x y x1 y1 → wp (return_result E result;; mret Handled) (ends_with x y x1 y1 (syscall_ret result)) y1.
Proof.
  intros Hs. apply wp_bind. eapply wp_mono; [apply (set_result_spec E (N:=N) tree Hcpu x1 y1); apply Hs|]. intros [] y' [-> Hs']. apply wp_ret.
  split_and!; [done|done|]. by eapply step_trans.
Qed.

Lemma step_same x y : here x y → step_ok x y x y.
Proof. intros Hx. split_and!; [done|done|apply confined_refl]. Qed.

Lemma isize_small n : 0 <= n <= i64_max → as_isize n = n.
Proof. intros [_ Hn]. unfold as_isize. by rewrite (proj2 (Z.leb_le _ _) Hn). Qed.

Lemma writable_iff m ptr (l : list Z) :
  (∀ k, (k < length l)%nat → accessible m AccessWrite (ptr + Z.of_nat k)) ↔ (∀ a, ptr <= a < ptr + Z.of_nat (length l) → accessible m AccessWrite a).
Proof.
  split.
  - intros H a Ha. specialize (H (Z.to_nat (a - ptr))). replace (ptr + Z.of_nat (Z.to_nat (a - ptr))) with a in H by lia. apply H. lia.
  - intros H k Hk. apply H. lia.
Qed.

(** What the caller sees after a copy. *)
Definition copied (m m' : Mmu) (ptr : Z) (l : list Z) : Prop :=
  ∀ a, user_byte m' a = if decide (ptr <= a < ptr + Z.of_nat (length l)) then l !! Z.to_nat (a - ptr) else user_byte m a.

Lemma copied_view x y ptr l :
  here x y → Forall is_byte l → (∀ a, ptr <= a < ptr + Z.of_nat (length l) → accessible (mmu y) AccessWrite a) →
  copied (mmu y) (set_memory (λ _, store_at (memory (mmu y)) (user_pas (mmu y) ptr (length l)) l) (mmu y)) ptr l.
Proof.
  intros Hx Hb Hall a. pose proof (caller_root E tree Hcpu x y Hx) as (_ & Hroot & _).
  pose proof (ki_machine _ _ _ _ _ (he_kernel _ _ _ _ _ Hx)) as Hm. pose proof (he_memory _ _ _ _ _ Hx) as Hu. case_decide as Ha; [|by eapply stored_elsewhere].
  assert (a = ptr + Z.of_nat (Z.to_nat (a - ptr))) as Ea by lia. assert (is_Some (l !! Z.to_nat (a - ptr))) as [b Hk] by (apply lookup_lt_is_Some_2; lia).
  rewrite Hk. rewrite Ea at 1. by eapply stored_seen.
Qed.

Section read.
Context (x : Caller) (y : Sys) (fd : nat) (ptr count : Z) (i off : nat) (data : list Z).
Hypothesis Hx : here x y.
Hypothesis Hfd : fd_user_entry (pf_fds (files x)) fd = Some (Some (HandleRamFile i off true)).
Hypothesis Hdata : file_data (y_fs y) i = Some data.
Hypothesis Hbytes : Forall is_byte data.
Hypothesis Hoff : (off ≤ length data)%nat.
Hypothesis Hsize : Z.of_nat (length data) <= i64_max.
Hypothesis Hptr : 0 <= ptr <= u64_max.
Hypothesis Hcount : 0 <= count <= u64_max.
Definition read_count : nat := Nat.min (Z.to_nat (Z.min count MAX_USER_COPY)) (length data - off).
Abbreviation chunk := (take read_count (drop off data)).

Lemma chunk_length : length chunk = read_count.
Proof. rewrite length_take, length_drop. unfold read_count. lia. Qed.

Lemma clamped_off : advance_clamped off (Z.of_nat read_count) (length data) = (off + read_count)%nat.
Proof. unfold advance_clamped, u64_saturating_add, read_count, i64_max, u64_max in *. lia. Qed.

Lemma slice_is_chunk : 0 < count → read_slice (y_fs y) (pf_fds (files x)) fd (Z.min count MAX_USER_COPY) = inl chunk.
Proof.
  intros Hc. unfold read_slice. rewrite Hfd, Hdata. cbv zeta. rewrite Nat.min_l by done. f_equal. f_equal. unfold advance_clamped, u64_saturating_add, read_count.
  unfold MAX_USER_COPY, i64_max, u64_max in *. lia.
Qed.

(** What the call does: the bytes at the offset go to the caller's buffer and
    the offset moves past them, or nothing happens and the caller gets
    [EFAULT]. *)
Definition read_done (d : Dispatched) (y' : Sys) : Prop :=
  d = Handled ∧ ∃ x', step_ok x y x' y' ∧
  (((∀ k, (k < read_count)%nat → accessible (mmu y) AccessWrite (ptr + Z.of_nat k)) ∧
    cl_frame x' = set_syscall_result (cl_frame x) (Z.of_nat read_count) ∧
    pf_fds (files x') = <[fd := Some (HandleRamFile i (off + read_count) true)]> (pf_fds (files x)) ∧
    copied (mmu y) (mmu y') ptr chunk) ∨
   (¬ (∀ k, (k < read_count)%nat → accessible (mmu y) AccessWrite (ptr + Z.of_nat k)) ∧
    cl_frame x' = set_syscall_result (cl_frame x) (- EFAULT) ∧ pf_fds (files x') = pf_fds (files x) ∧ mmu y' = mmu y)).

Lemma read_nothing : read_count = 0%nat → wp (return_result E (inl 0);; mret Handled) read_done y.
Proof.
  intros Hz. eapply wp_mono; [apply (end_call x y x y), step_same, Hx|]. intros d y' (-> & Hm & Hs). split; [done|]. eexists. split; [exact Hs|]. left. split_and!; [lia|by rewrite Hz| |].
  - rewrite Hz. cbn. rewrite Nat.add_0_r. symmetry. apply list_insert_id. unfold fd_user_entry in Hfd. by destruct (decide _).
  - intros a. rewrite Hm. rewrite decide_False; [done|]. rewrite chunk_length, Hz. lia.
Qed.
Lemma read_copied x1 y1 y2 :
  (∀ a, ptr <= a < ptr + Z.of_nat (length chunk) → accessible (mmu y) AccessWrite a) →
  mmu y1 = set_memory (λ _, store_at (memory (mmu y)) (user_pas (mmu y) ptr (length chunk)) chunk) (mmu y) →
  pf_fds (files x1) = <[fd := Some (HandleRamFile i (off + read_count) true)]> (pf_fds (files x)) → cl_frame x1 = cl_frame x →
  step_ok x y x1 y1 → ends_with x y x1 y1 (Z.of_nat read_count) Handled y2 → read_done Handled y2.
Proof.
  intros Hall Hm1 Hf1 Hfr1 Hs1 (_ & Hm & Hs). split; [done|]. eexists. split; [exact Hs|]. left. split_and!.
  - rewrite <-chunk_length. by apply (writable_iff (mmu y)).
  - cbn. by rewrite Hfr1.
  - exact Hf1.
  - rewrite Hm, Hm1. apply (copied_view x y); [done|by apply Forall_take, Forall_drop|done].
Qed.

Lemma read_spec : wp (dispatch (mkSyscallRequest SYS_READ [Z.of_nat fd; ptr; count])) read_done y.
Proof.
  assert (FIRST_USER_FD ≤ fd)%nat as Hge by (unfold fd_user_entry in Hfd; by destruct (decide _)).
  change (wp (sys_read E hw_translate at_s1e0r (mkSyscallRequest SYS_READ [Z.of_nat fd; ptr; count]);; mret Handled) read_done y).
  unfold sys_read. cbn [arg rq_args nth]. change (Z.of_nat STDIN) with 0. unfold FIRST_USER_FD in Hge. rewrite (proj2 (Z.eqb_neq (Z.of_nat fd) 0)) by lia.
  apply wp_bind, wp_bind. unfold sys_read_file. destruct (Z.eqb_spec count 0) as [Hc|Hc].
  { apply wp_ret. apply wp_bind_inv. apply read_nothing. unfold read_count. lia. }
  change (Z.of_nat STDOUT) with 1. change (Z.of_nat STDERR) with 2. rewrite (proj2 (Z.eqb_neq (Z.of_nat fd) 1)), (proj2 (Z.eqb_neq (Z.of_nat fd) 2)) by lia. cbn [orb]. cbv zeta.
  apply wp_try, wp_fails. rewrite Nat2Z.id.
  eapply wp_mono; [apply (file_state_spec E (N:=N) tree Hcpu x y (λ s p, read_slice s (pf_fds p) fd (Z.min count MAX_USER_COPY)) Hx)|].
  intros r y0 [-> ->]. rewrite slice_is_chunk by lia. pose proof chunk_length as Hlen. destruct (decide (chunk = [])) as [Hnil|Hne].
  { apply wp_ret, wp_bind_inv. apply read_nothing. rewrite <-Hlen, Hnil. done. }
  assert (Forall is_byte chunk) as Hb by (by apply Forall_take, Forall_drop).
  assert (Z.of_nat (length chunk) <= MAX_USER_COPY) as Hmax by (rewrite Hlen; unfold read_count, MAX_USER_COPY in *; lia).
  apply wp_try. eapply wp_mono; [apply (user_to_spec E (N:=N) tree hw_translate at_s1e0r Hcpu Hhw Hat x y ptr chunk Hx Hptr Hb)|]. intros [[]|e] y1.
  - intros (Hall & Hy1 & Hs1). assert (y_fs y1 = y_fs y) as Hfs by (by rewrite Hy1). apply (f_equal (λ y, mmu y)) in Hy1. apply wp_try, wp_fails.
    eapply wp_mono; [apply (fds_step_spec E (N:=N) tree Hcpu x _ (λ s, advance_read s fd (Z.of_nat (length chunk)))); apply Hs1|].
    intros r y2 (-> & _ & Hm2 & _ & Hs2). rewrite Hfs in *. unfold advance_read in *. rewrite Hfd, Hdata in *. cbn [fst snd] in *.
    rewrite Hlen, clamped_off in Hs2. apply wp_ret, wp_bind_inv.
    eapply wp_mono; [eapply (end_call x y); eapply step_trans; [exact Hs1|exact Hs2]|]. cbn [syscall_ret].
    rewrite Hlen, isize_small by (unfold read_count, i64_max, MAX_USER_COPY; lia). intros d y3 Hend. pose proof Hend as (-> & _ & _).
    refine (read_copied _ _ _ Hall _ _ _ _ Hend); [rewrite Hm2; exact Hy1|reflexivity|reflexivity|eapply step_trans; [exact Hs1|exact Hs2]].
  - intros (-> & He & Hno). rewrite He by done. apply wp_bind_inv.
    eapply wp_mono; [apply (end_call x y x y), step_same, Hx|]. intros d y2 (-> & Hm & Hs). split; [done|]. eexists. split; [exact Hs|]. right.
    split_and!; [|done|done|done]. rewrite <-Hlen. intros Hw. apply Hno. by split.
Qed.
End read.

Section list.
Context (x : Caller) (y : Sys) (fd : nat) (ptr count : Z) (dir pos : nat) (entries : list RamDirEntry).
Hypothesis Hx : here x y.
Hypothesis Hfd : fd_user_entry (pf_fds (files x)) fd = Some (Some (HandleRamDir dir pos)).
Hypothesis Hentries : ∀ k, dir_entry_at (y_fs y) dir k = entries !! k.
Hypothesis Hsize : dir_entry_count (y_fs y) dir = Some (length entries).
Hypothesis Hok : Forall entry_ok entries.
Hypothesis Hpos : (pos ≤ length entries)%nat.
Hypothesis Hmax : Z.of_nat (length entries) < i64_max.
Hypothesis Hptr : 0 <= ptr <= u64_max.
Hypothesis Hcount : 0 < count <= u64_max.
Definition list_size : nat := Z.to_nat (Z.min count MAX_USER_COPY).
Abbreviation rest := (drop pos entries).
Abbreviation bytes n := (records pos (take n rest)).
Abbreviation first := (mkFdDirEntry pos <$> entries !! pos).

Lemma entry_at k : fd_dir_entry_at (y_fs y) (pf_fds (files x)) fd k = inl (mkFdDirEntry (pos + k) <$> rest !! k).
Proof. unfold fd_dir_entry_at. rewrite Hfd. cbv zeta. by rewrite Hentries, lookup_drop. Qed.

(** Where the loop stops: at the end of the directory, or before the record
    that does not fit any more. *)
Definition loop_done (emitted : nat) (r : list Z * nat + Errno) (y' : Sys) : Prop :=
  y' = y ∧ match r with
  | inl (l, n) => (emitted ≤ n ≤ length rest)%nat ∧ l = bytes n ∧ (length l ≤ list_size)%nat ∧
      (n = length rest ∨ (list_size < length (bytes (S n)))%nat) ∧ (n = 0%nat → rest = [])
  | inr e => e = EINVAL ∧ (list_size < length (bytes 1))%nat
  end.

Lemma loop_entry emitted :
  wp (if decide (emitted = 0%nat) then mret (inl first) else fails_as fd_errno (on_kernel (λ s, current_fd_dir_entry_at E s (Z.to_nat (Z.of_nat fd)) emitted)))
     (λ r y', y' = y ∧ r = inl (mkFdDirEntry (pos + emitted) <$> rest !! emitted)) y.
Proof.
  destruct (decide (emitted = 0%nat)) as [->|].
  - apply wp_ret. split; [done|]. by rewrite lookup_drop, Nat.add_0_r.
  - apply wp_fails. rewrite Nat2Z.id. eapply wp_mono; [apply (file_state_spec E (N:=N) tree Hcpu x y (λ s p, fd_dir_entry_at s (pf_fds p) fd emitted) Hx)|].
    intros r y' [-> ->]. split; [done|]. by rewrite entry_at.
Qed.

Lemma loop_spec fuel emitted :
  (emitted ≤ length rest)%nat → (length (bytes emitted) ≤ list_size)%nat → (list_size - length (bytes emitted) < fuel)%nat →
  wp (getdents_loop E fuel (Z.of_nat fd) first list_size (bytes emitted) emitted) (loop_done emitted) y.
Proof.
  revert emitted. induction fuel as [|fuel IH]; intros emitted Hem Hlen Hf; [lia|]. cbn [getdents_loop]. apply wp_try.
  eapply wp_mono; [apply loop_entry|]. intros r y' [-> ->]. destruct (rest !! emitted) as [e|] eqn:He; cbn [fmap option_fmap option_map].
  2: { apply wp_ret. split; [done|]. apply lookup_ge_None in He. split_and!; [lia|lia|done|done|left; lia|]. intros ->. apply nil_length_inv. lia. }
  assert (entry_ok e) as Heo by (eapply Forall_lookup_1; [by apply Forall_drop|exact He]).
  pose proof (lookup_lt_Some _ _ _ He) as Hlt. rewrite length_drop in Hlt. cbv zeta. cbn [fde_offset fde_entry].
  change (match rde_kind e with KindDirectory => DT_DIR | KindFile => DT_REG end) with (dirent_type (rde_kind e)).
  unfold u64_saturating_add. rewrite Z.min_l by (unfold i64_max, u64_max in *; lia). rewrite isize_small by lia. rewrite encode_exact by (done || lia).
  pose proof (records_take_S pos rest emitted e He) as Hnext. pose proof (f_equal length Hnext) as Hnl. rewrite length_app, dirent_bytes_length in Hnl.
  pose proof (dirent_len_range e) as Hr. case_decide as Hfit.
  - rewrite <-Hnext. eapply wp_mono; [apply IH; [rewrite length_drop; lia|lia|lia]|]. intros [[l n]|er] y2 [-> Hr2].
    + split; [done|]. destruct Hr2 as (? & ? & ? & ? & ?). split_and!; try done; lia.
    + done.
  - destruct (decide (bytes emitted = [])) as [Hnil|Hne]; apply wp_ret; (split; [done|]).
    + split; [done|]. apply records_nil, (f_equal length) in Hnil. rewrite length_take, length_drop in Hnil. cbn [length] in Hnil. assert (emitted = 0%nat) as -> by lia. lia.
    + split_and!; [lia|rewrite length_drop; lia|done|done|right; lia|]. by intros ->.
Qed.

(** What the call does. *)
Definition list_done (d : Dispatched) (y' : Sys) : Prop :=
  d = Handled ∧ ∃ x', step_ok x y x' y' ∧
  let writable := ∀ a, ptr <= a < ptr + Z.of_nat list_size → accessible (mmu y) AccessWrite a in
  let fails e := cl_frame x' = set_syscall_result (cl_frame x) (- e) ∧ pf_fds (files x') = pf_fds (files x) ∧ mmu y' = mmu y in
  (¬ writable ∧ fails EFAULT) ∨
  (writable ∧ (list_size < length (bytes 1))%nat ∧ fails EINVAL) ∨
  (writable ∧ ∃ n l, (n ≤ length rest)%nat ∧ (n = 0%nat → rest = []) ∧ (n = length rest ∨ (list_size < length (bytes (S n)))%nat) ∧
    decode_dirents n l = Some (dirents pos (take n rest)) ∧ copied (mmu y) (mmu y') ptr l ∧
    cl_frame x' = set_syscall_result (cl_frame x) (Z.of_nat (length l)) ∧
    pf_fds (files x') = <[fd := Some (HandleRamDir dir (pos + n))]> (pf_fds (files x))).

Lemma list_failed e :
  let writable := ∀ a, ptr <= a < ptr + Z.of_nat list_size → accessible (mmu y) AccessWrite a in
  (e = EFAULT ∧ ¬ writable) ∨ (e = EINVAL ∧ writable ∧ (list_size < length (bytes 1))%nat) → wp (return_result E (inr e);; mret Handled) list_done y.
Proof.
  intros writable Hw. eapply wp_mono; [apply (end_call x y x y), step_same, Hx|]. intros d y' (-> & Hm & Hs). split; [done|]. eexists. split; [exact Hs|].
  destruct Hw as [[-> ?]|(-> & ? & ?)]; [by left|]. by right; left.
Qed.

Lemma bytes_ok n : Forall is_byte (bytes n) ∧ decode_dirents n (bytes n) = Some (dirents pos (take n rest)).
Proof.
  assert (Forall entry_ok (take n rest)) as Ho by (by apply Forall_take, Forall_drop). split.
  - clear Hfd. revert pos Ho Hpos. intros p Ho _. generalize p at 1. induction Ho as [|e l (Ht & _ & _) _ IH]; intros q; cbn [records]; [apply Forall_nil_2|].
    apply Forall_app. split; [|apply IH]. apply record_is_bytes; [by destruct (rde_kind e)|by apply text_bytes].
  - apply decode_records; [done|rewrite length_take, length_drop; lia|rewrite length_take; lia].
Qed.

Abbreviation writable := (∀ a, ptr <= a < ptr + Z.of_nat list_size → accessible (mmu y) AccessWrite a).

Lemma list_copied n y1 x1 d y2 :
  writable → (n ≤ length rest)%nat → (n = 0%nat → rest = []) → (n = length rest ∨ (list_size < length (bytes (S n)))%nat) → (length (bytes n) ≤ list_size)%nat →
  copied (mmu y) (mmu y1) ptr (bytes n) → cl_frame x1 = cl_frame x → pf_fds (files x1) = <[fd := Some (HandleRamDir dir (pos + n))]> (pf_fds (files x)) →
  ends_with x y x1 y1 (as_isize (Z.of_nat (length (bytes n)))) d y2 → list_done d y2.
Proof.
  intros Hw Hn H0 Hstop Hl Hc Hf1 Hf2 (-> & Hm & Hs). split; [done|]. eexists. split; [exact Hs|]. right. right. split; [done|]. exists n, (bytes n).
  rewrite isize_small by (unfold list_size, MAX_USER_COPY, i64_max in *; lia). rewrite Hm. split_and!; [done..|apply bytes_ok|done|cbn; by rewrite Hf1|done].
Qed.

Lemma list_spec : wp (dispatch (mkSyscallRequest SYS_GETDENTS64 [Z.of_nat fd; ptr; count])) list_done y.
Proof.
  change (wp (sys_getdents64 E hw_translate at_s1e0r (mkSyscallRequest SYS_GETDENTS64 [Z.of_nat fd; ptr; count]);; mret Handled) list_done y).
  unfold sys_getdents64. cbn [arg rq_args nth]. apply wp_bind, wp_bind. unfold sys_getdents64_impl. rewrite (proj2 (Z.eqb_neq count 0)) by lia.
  apply wp_try, wp_fails. rewrite Nat2Z.id. eapply wp_mono; [apply (file_state_spec E (N:=N) tree Hcpu x y (λ s p, fd_dir_entry_at s (pf_fds p) fd 0) Hx)|].
  intros r y0 [-> ->]. rewrite entry_at, lookup_drop, Nat.add_0_r. cbv zeta. fold list_size.
  assert (Z.min count MAX_USER_COPY = Z.of_nat list_size) as Hz by (unfold list_size, MAX_USER_COPY; lia).
  assert (0 < Z.of_nat list_size <= MAX_USER_COPY) as Hsz by (unfold list_size, MAX_USER_COPY; lia).
  apply wp_try. rewrite Hz. eapply wp_mono; [apply (user_writable_spec E (N:=N) tree at_s1e0r Hcpu Hat x y ptr); [done|done|lia]|].
  intros [[]|e] y1 [-> Hw]; specialize (Hw Hsz); [|apply wp_bind_inv, list_failed; by left].
  apply wp_try. eapply wp_mono; [apply (loop_spec (S list_size) 0); [lia|apply Nat.le_0_l|change (list_size - 0 < S list_size)%nat; lia]|]. intros [[l n]|e] y1 [-> Hr].
  2: { destruct Hr as [-> Hr]. apply wp_bind_inv, list_failed. right. by split_and!. }
  destruct Hr as ([_ Hn] & -> & Hl & Hstop & H0). destruct (bytes_ok n) as [Hb _]. destruct (decide (bytes n = [])) as [Hnil|Hne].
  { assert (n = 0%nat) as -> by (apply records_nil, (f_equal length) in Hnil; rewrite length_take in Hnil; cbn [length] in Hnil; lia). apply wp_ret, wp_bind_inv.
    eapply wp_mono; [apply (end_call x y x y), step_same, Hx|]. intros d y'. apply (list_copied 0); try done.
    - intros a. rewrite decide_False; [done|]. change (length (bytes 0)) with 0%nat. lia.
    - rewrite Nat.add_0_r. symmetry. apply list_insert_id. unfold fd_user_entry in Hfd. by destruct (decide _). }
  apply wp_try. eapply wp_mono; [apply (user_to_spec E (N:=N) tree hw_translate at_s1e0r Hcpu Hhw Hat x y ptr (bytes n) Hx Hptr Hb)|]. intros [[]|e] y1.
  2: { intros (_ & _ & Hno). destruct Hno. split; [lia|]. intros k Hk. apply Hw. lia. }
  intros (Hall & Hy1 & Hs1). assert (y_fs y1 = y_fs y) as Hfs by (by rewrite Hy1). apply (f_equal (λ y, mmu y)) in Hy1. apply wp_try, wp_fails.
  eapply wp_mono; [apply (fds_step_spec E (N:=N) tree Hcpu x _ (λ s, advance_dir_read s fd (Z.of_nat n))); apply Hs1|].
  intros r y2 (-> & _ & Hm2 & _ & Hs2). rewrite Hfs in *. unfold advance_dir_read in *. rewrite Hfd, Hsize in *. cbn [fst snd] in *.
  assert (advance_clamped pos (Z.of_nat n) (length entries) = pos + n)%nat as Hadv.
  { unfold advance_clamped, u64_saturating_add. rewrite length_drop in Hn. unfold i64_max, u64_max in *. lia. }
  rewrite Hadv in Hs2. apply wp_ret, wp_bind_inv. eapply wp_mono; [eapply (end_call x y); eapply step_trans; [exact Hs1|exact Hs2]|].
  intros d y3. apply (list_copied n); try done. rewrite Hm2. pose proof (copied_view x y ptr (bytes n) Hx Hb Hall) as Hc. cbn in Hy1. by rewrite Hy1.
Qed.
End list.
End files.

(** ** The claims *)

(** C9: [read] on an open file.  Let [n] be the smallest of the count asked
    for, the bound of one copy and what is left of the file.  If the caller may
    write to all [n] bytes of its buffer, the call returns [n], the caller's
    memory shows the next [n] bytes of the file there and the old bytes at every
    other address, and the descriptor's offset has moved by [n].  Otherwise it
    returns [-EFAULT] and neither memory nor the descriptor has changed.  Either
    way the invariant holds again and nothing outside the caller is touched. *)
Theorem read_exact E N reserve minimal_parse hw_translate at_s1e0r granted firmware x y fd ptr count i off data :
  (e_cpu E < KERNEL_CPU_CAPACITY)%nat →
  (∀ st root va, hw_translate st root va = translate_user_va st root va) →
  (∀ st root va, at_s1e0r st root va = true ↔ may st root AccessRead va) →
  here E N (y_fs y) x y → fd_user_entry (pf_fds (rs_files (pr_resources (cl_process x)))) fd = Some (Some (HandleRamFile i off true)) →
  file_data (y_fs y) i = Some data → Forall is_byte data → (off ≤ length data)%nat → Z.of_nat (length data) <= i64_max →
  0 <= ptr <= u64_max → 0 <= count <= u64_max →
  ∃ d y', dispatch E reserve minimal_parse hw_translate at_s1e0r granted firmware (mkSyscallRequest SYS_READ [Z.of_nat fd; ptr; count]) y = Done (d, y') ∧
    read_done E (N:=N) (y_fs y) x y fd ptr count i off data d y'.
Proof. intros. apply wp_run. by apply read_spec. Qed.


(** The process of [ProcSafety] with [/init] and the root directory open. *)
Definition open_fds : FdTable := <[4%nat := Some (HandleRamDir 0 0)]> (<[3%nat := Some (HandleRamFile 1 0 true)]> fdtable_new).
Definition open_files (p : Process) : Process := set_files (mkProcessFileState open_fds (Some 0%nat)) p.
Definition open_sys : Sys := with_procs (alter_process open_files proc_pid proc_table) proc_sys.
Definition open_caller (pool : gset Z) : Caller := with_process (open_files proc_record) [] (proc_caller pool).
Definition root_entries : list RamDirEntry := Eval vm_compute in
  match RAMFS PathRes.demo_fs with Some fs => match fs_dirs fs with d :: _ => rd_entries d | [] => [] end | None => [] end.

#[local] Opaque proc_kernel proc_table dispatch.

Lemma open_here : ∃ pool, here proc_env 12 PathRes.demo_fs (open_caller pool) open_sys.
Proof.
  destruct proc_here as (pool & Hx). exists pool. destruct (caller_process _ _ _ _ Hx) as [P1 P2 P3 P4 P5].
  apply (process_step proc_env PathRes.demo_fs (proc_caller pool) proc_sys open_files [] Hx); [by split|reflexivity..| |].
  - intros c [=].
  - split; [apply Forall_nil_2|]. exists 0%nat. split; [reflexivity|vm_compute; reflexivity].
Qed.

Lemma root_entries_ok : Forall entry_ok root_entries.
Proof.
  assert (Forall (λ e, Forall (λ b, 0 < b < 256) (rde_name e) ∧ (SLASH ∉ rde_name e) ∧ 0 <= rde_ino e <= u64_max ∧ Z.of_nat (dirent_len e) <= 65535) root_entries) as H; [|exact H].
  apply (bool_decide_unpack _). vm_compute. reflexivity.
Qed.

Lemma read_exact_witness :
  ∃ pool d y', dispatch proc_env (λ _, true) demo_parse translate_user_va at_tables (λ _, true) (λ _, None) (mkSyscallRequest SYS_READ [Z.of_nat 3; proc_buffer; 2]) open_sys = Done (d, y') ∧
    read_done proc_env (N:=12) PathRes.demo_fs (open_caller pool) open_sys 3 proc_buffer 2 1 0 [7; 8] d y'.
Proof.
  destruct open_here as (pool & Hx). exists pool.
  apply (read_exact proc_env 12 (λ _, true) demo_parse translate_user_va at_tables (λ _, true) (λ _, None) (open_caller pool) open_sys 3 proc_buffer 2 1 0 [7; 8]).
  - unfold KERNEL_CPU_CAPACITY. apply Nat.ltb_lt. reflexivity.
  - reflexivity.
  - exact at_tables_may.
  - exact Hx.
  - reflexivity.
  - reflexivity.
  - repeat (constructor; [split; [discriminate|reflexivity]|]). constructor.
  - apply Nat.le_0_l.
  - discriminate.
  - split; discriminate.
  - split; discriminate.
Defined.

