(* ===== verification/Safety.v ===== *)
(** * Theorems about the running kernel

    Statements about every state the machine can reach: no entry point
    panics under its calling convention, threads keep their registers and are
    in one place each, address spaces stay apart, timed waits end on time,
    yielding is fair, exit codes reach their joiner, input wakes its reader,
    and boot, spawning, joining and mailboxes do exactly what they promise. *)

From stdpp Require Import gmap.
From S2P Require Import Prelude Types Wait TimeConv Deadline Preempt Context Vm Time Sched World Transition Handoff Boot.
From S2P Require Import CpuInv SchedInv Switch Lifecycle TransitionSpec LifecycleSpec WorldInv TimeSpec.
From S2P Require Import SwitchSpec WakeSpec Frames EntrySpec BlockSpec JoinSpec ThreadSpec.
From S2P Require Import SpawnSpec TimerSpec StartSpec Mailbox MailboxSpec Console ConsoleSpec Liveness System Demo.

(** ** Where threads are *)

Definition queued_on (s : Scheduler) (c : CpuId) (tid : ThreadId) : Prop := tid ∈ ready s c ++ remote s c.

(** The place of a thread follows from its state. *)
Definition placed_by_state (s : Scheduler) (c : CpuId) (tid : ThreadId) (st : ThreadState) : Prop :=
  match st with
  | Running => cur s c = Some tid ∧ ¬ queued_on s c tid
  | Ready => cur s c ≠ Some tid ∧ (idl s c = Some tid ∨ queued_on s c tid)
  | Blocked | Exited => cur s c ≠ Some tid ∧ idl s c ≠ Some tid ∧ ¬ queued_on s c tid
  end.

(** Calls at which the scheduler may preempt the running thread. *)
Definition preempts (k : call) : bool :=
  match k with Checkpoint | Yield | SchedulerIpi | TimerInterrupt => true | _ => false end.

(** The demonstration CPUs satisfy the environment's assumptions. *)
Lemma demo_ok now : env_ok (demo_env 0 now).
Proof. apply demo_env_ok. unfold KERNEL_CPU_CAPACITY. lia. Qed.

(** ** Safety *)

(** C1: whatever has happened before, an entry point called under its calling
    convention returns, the state it leaves is again one the machine can
    reach, and the scheduler's own invariant check accepts it.  No assert, no
    index, no capacity check and no [expect] of the modelled paths fails. *)
Theorem kernel_call_safe N E k w :
  reachable N w → env_ok E → call_guard E w k →
  ∃ w', call_exec E k w = Done (tt, w') ∧ reachable N w' ∧ validate_invariants (w_sched w') = Done tt.
Proof.
  intros Hr He Hg. destruct (wp_run _ _ _ (call_spec (N:=N) He k w (reachable_ok _ _ Hr) Hg)) as ([] & w' & Hx & Hk & _).
  exists w'. split_and!; [done|by eapply reach_call|]. eapply sched_ok_validates, wo_sched, Hk.
Qed.

Lemma kernel_call_safe_witness :
  ∃ w', call_exec (demo_env 0 300) (SleepSync 9000) demo_world = Done (tt, w') ∧ reachable 12 w' ∧
        validate_invariants (w_sched w') = Done tt.
Proof.
  apply (kernel_call_safe 12 (demo_env 0 300) (SleepSync 9000) demo_world);
    [apply demo_world_reachable|apply demo_ok|].
  eexists _, _. split; [eapply demo_can_block; by_vm|]. split; by_vm.
Defined.

(** C2: no entry point changes the registers of a thread that goes on
    existing: the saved or live frame of every thread that has not exited is
    the one it had before, whichever CPU switched to whichever thread.  Only a
    thread that computes changes its own frame, and only a creating call adds
    a thread. *)
Theorem context_transparent N E k w w' tid t' :
  reachable N w → env_ok E → call_guard E w k → call_exec E k w = Done (tt, w') →
  live (w_sched w') tid t' → t_state t' ≠ Exited →
  (creates k = true ∧ table_get (w_sched w) tid = None) ∨
  ∃ t, live (w_sched w) tid t ∧
       (frame_of w' tid = frame_of w tid ∨ ∃ f, k = Execute f ∧ cur (w_sched w) (e_cpu E) = Some tid).
Proof.
  intros Hr He Hg Hx Hl Hst. eapply wp_eq in Hx; [|exact (call_spec (N:=N) He k w (reachable_ok _ _ Hr) Hg)].
  destruct Hx as [_ Hf]. exact (Hf tid t' Hl Hst).
Qed.

Lemma context_transparent_witness :
  (creates Yield = true ∧ table_get (w_sched demo_joining) second_thread = None) ∨
  ∃ t, live (w_sched demo_joining) second_thread t ∧
       (frame_of demo_exiting second_thread = frame_of demo_joining second_thread ∨
        ∃ f, Yield = Execute f ∧ cur (w_sched demo_joining) 0 = Some second_thread).
Proof.
  eapply (context_transparent 12 (demo_env 0 500) Yield demo_joining demo_exiting second_thread);
    [apply demo_joining_reachable|apply demo_ok|eapply demo_running; by_vm|by_vm|by_vm|vm_compute; discriminate].
Defined.

(** ** Placement *)

Lemma placement N s tid t :
  sched_ok N None s → live s tid t →
  placed_by_state s (t_home_cpu t) tid (t_state t) ∧ NoDup (ready s (t_home_cpu t) ++ remote s (t_home_cpu t)) ∧
  ∀ c, c < KERNEL_CPU_CAPACITY → c ≠ t_home_cpu t → cur s c ≠ Some tid ∧ ¬ queued_on s c tid.
Proof.
  intros Hs Hl. pose proof (live_home_lt Hs _ _ Hl) as Hh. pose proof (so_cpu _ _ _ Hs _ Hh) as Hinv.
  assert (state_on s (t_home_cpu t) tid = Some (t_state t)) as Hso by (by apply state_on_live).
  assert (cur s (t_home_cpu t) = Some tid ↔ t_state t = Running) as Hcur.
  { unfold cur. rewrite <-(ci_current _ _ _ _ _ Hinv), Hso. split; [by intros [= ->]|by intros ->]. }
  assert (queued_on s (t_home_cpu t) tid ↔ t_state t = Ready ∧ idl s (t_home_cpu t) ≠ Some tid) as Hq.
  { unfold queued_on. rewrite (queued_spec Hs _ tid Hh). split.
    - intros (t' & Hl' & _ & ? & ?). by pose proof (live_fun _ _ _ _ Hl Hl') as <-.
    - intros [??]. by exists t. }
  assert (idl s (t_home_cpu t) = Some tid → t_state t = Ready ∨ t_state t = Running) as Hi.
  { intros Hi. destruct (ci_idle _ _ _ _ _ Hinv tid Hi) as [Hx|Hx]; rewrite Hso in Hx; injection Hx; auto. }
  split_and!.
  - unfold placed_by_state. destruct (decide (idl s (t_home_cpu t) = Some tid)); destruct (t_state t); naive_solver.
  - pose proof (ci_nodup _ _ _ _ _ Hinv) as Hnd. unfold places in Hnd.
    apply NoDup_app in Hnd as (_ & _ & Hnd). rewrite (assoc_L (++)) in Hnd. by apply NoDup_app in Hnd as [Hnd _].
  - intros c Hc Hne. split.
    + intros (t' & Hl' & Hh' & _)%(current_live Hs c tid Hc). rewrite (live_fun _ _ _ _ Hl Hl') in *. done.
    + intros (t' & Hl' & Hh' & _)%(queued_spec Hs c tid Hc). rewrite (live_fun _ _ _ _ Hl Hl') in *. done.
Qed.

(** C3: in every reachable state a thread is in exactly one place: a running
    thread is the current thread of its home CPU and in no queue, a ready one
    is queued once (or is the idle thread), a blocked or exited one is nowhere;
    and no other CPU has it as current thread or in a queue. *)
Theorem thread_in_one_place N w tid t :
  reachable N w → live (w_sched w) tid t →
  placed_by_state (w_sched w) (t_home_cpu t) tid (t_state t) ∧
  NoDup (ready (w_sched w) (t_home_cpu t) ++ remote (w_sched w) (t_home_cpu t)) ∧
  ∀ c, c < KERNEL_CPU_CAPACITY → c ≠ t_home_cpu t → cur (w_sched w) c ≠ Some tid ∧ ¬ queued_on (w_sched w) c tid.
Proof. intros Hr Hl. apply (placement N); [apply (reachable_ok _ _ Hr)|done]. Qed.

Lemma thread_in_one_place_witness :
  placed_by_state (w_sched demo_joining) 0 first_thread Blocked ∧
  NoDup (ready (w_sched demo_joining) 0 ++ remote (w_sched demo_joining) 0) ∧
  ∀ c, c < KERNEL_CPU_CAPACITY → c ≠ 0 →
    cur (w_sched demo_joining) c ≠ Some first_thread ∧ ¬ queued_on (w_sched demo_joining) c first_thread.
Proof.
  pose (t := default (fresh_thread 1 true None 0 0 frame_zeroed) (table_get (w_sched demo_joining) first_thread)).
  apply (thread_in_one_place 12 demo_joining first_thread t); [apply demo_joining_reachable|by_vm].
Defined.

(** ** Address spaces *)

(** C18: an online CPU runs a user thread with exactly that thread's root
    installed and user access on, and a kernel thread with user access off; no
    two CPUs have the same root installed, so no user thread's memory is
    accessible from a CPU that runs another one's home. *)
Theorem address_spaces_isolated N w c tid t :
  reachable N w → cs_online (cst (w_sched w) c) = true → cur (w_sched w) c = Some tid → live (w_sched w) tid t →
  space_of t (w_vm w !! c) ∧
  ∀ c1 c2 u1 u2, w_vm w !! c1 = Some u1 → w_vm w !! c2 = Some u2 → installed u1 = installed u2 →
    installed u1 ≠ NO_ACTIVE_USER_ROOT → c1 = c2.
Proof.
  intros Hr Hon Hc Hl. destruct (reachable_ok _ _ Hr) as [[_ _ Hlk] Hsp]. split; [by eapply Hsp|].
  apply (lk_roots _ _ _ Hlk).
Qed.

Lemma address_spaces_isolated_witness :
  ∃ t, live (w_sched demo_world) first_thread t ∧ space_of t (w_vm demo_world !! 0) ∧
  ∀ c1 c2 u1 u2, w_vm demo_world !! c1 = Some u1 → w_vm demo_world !! c2 = Some u2 → installed u1 = installed u2 →
    installed u1 ≠ NO_ACTIVE_USER_ROOT → c1 = c2.
Proof.
  eexists. split; [by_vm|]. apply (address_spaces_isolated 12 demo_world 0 first_thread);
    [apply demo_world_reachable|by_vm|by_vm|by_vm].
Defined.

(** ** Event queues *)

(** C28: in every reachable state every online CPU has an event queue, and the
    number of pending events of each queue is below the capacity that was
    reserved for that queue, so scheduling one more event, whatever it is,
    succeeds without exhausting the reservation and adds exactly that event. *)
Theorem event_queue_has_room N w c :
  reachable N w →
  (cs_online (cst (w_sched w) c) = true → is_Some (time_at w c)) ∧
  ∀ ts, time_at w c = Some ts → size (abs (ts_queue ts)) < dq_reserved (ts_queue ts) ∧
    ∀ d ev, ∃ q', schedule (ts_queue ts) d ev = Done q' ∧ abs q' = <[ev := d]> (abs (ts_queue ts)).
Proof.
  intros Hr. destruct (reachable_ok _ _ Hr) as [Hok _]. split; [apply (lk_time _ _ _ (wo_links _ _ _ Hok))|].
  intros ts Hts. destruct (event_room Hok Hts) as [Hq Hroom]. split; [done|]. intros d ev.
  destruct (schedule_spec (ts_queue ts) d ev Hq (or_intror Hroom)) as (q' & ? & _ & _ & ?). by exists q'.
Qed.

Lemma event_queue_has_room_witness :
  ∃ ts, time_at demo_idling 0 = Some ts ∧ size (abs (ts_queue ts)) < dq_reserved (ts_queue ts).
Proof.
  destruct (event_queue_has_room 12 demo_idling 0 demo_idling_reachable) as [H1 H2]. destruct H1 as [ts Hts]; [by_vm|].
  exists ts. split; [exact Hts|]. apply (H2 ts Hts).
Defined.

(** ** Progress *)

(** C15: the queue is served in turn.  With preemption enabled, after [k + 1]
    yields on a CPU, whichever threads execute them, the thread that was at
    position [k] of the ready queue is running. *)
Theorem yield_is_fair N E w k x :
  reachable N w → env_ok E → running E w → depth_of w (e_cpu E) = Some 0%Z → ready (w_sched w) (e_cpu E) !! k = Some x →
  ∃ w', yields E (S k) w = Done (tt, w') ∧ cur (w_sched w') (e_cpu E) = Some x.
Proof.
  intros Hr [Hc Ha] (from & t & Hp) Hd Hx.
  destruct (wp_run _ _ _ (yields_turn E (N:=N) Hc Ha k w from t x (reachable_ok _ _ Hr) Hp Hd Hx)) as ([] & w' & Hw & _ & _ & Hcur).
  by exists w'.
Qed.

Lemma yield_is_fair_witness :
  ∃ w', yields (demo_env 0 400) 2 demo_spawned = Done (tt, w') ∧ cur (w_sched w') 0 = Some third_thread.
Proof.
  apply (yield_is_fair 12 (demo_env 0 400) demo_spawned 1 third_thread);
    [apply demo_spawned_reachable|apply demo_ok|eapply demo_running; by_vm|by_vm|by_vm].
Defined.

(** C16: a timed wait ends on time.  The timer interrupt of its CPU completes a
    wait exactly when the counter it reads has reached the deadline: then the
    thread is ready or running, its wait is completed by [Timeout] and the
    event is gone; before that, thread, wait and event are as they were. *)
Theorem timed_wait_ends_on_time N E w tok t k d :
  reachable N w → env_ok E → running E w →
  live (w_sched w) (wt_thread tok) t → active (t_wait t) = Some (mkActiveWait tok PhaseBlocked k) →
  events w (e_cpu E) !! WaitDeadline (e_cpu E) tok = Some d →
  ∃ w' t', on_timer_interrupt E w = Done (tt, w') ∧ live (w_sched w') (wt_thread tok) t' ∧
    if decide (d <= e_clock E (w_reads w))%Z
    then (t_state t' = Ready ∨ t_state t' = Running) ∧ t_wait t' = (complete (t_wait t) tok Timeout).2 ∧
         events w' (e_cpu E) !! WaitDeadline (e_cpu E) tok = None
    else t_state t' = Blocked ∧ t_wait t' = t_wait t ∧ events w' (e_cpu E) !! WaitDeadline (e_cpu E) tok = Some d.
Proof.
  intros Hr [Hc Ha] (from & tf & Hp) Hl Hact Hev.
  assert (wp (on_timer_interrupt E) (λ _ w', kernel_ok N w' ∧ wait_served E tok t d w w') w) as Hwp.
  { eapply timer_ends_waits; [done|done|by apply reachable_ok|intros _; eauto|apply Hp|done|done|done]. }
  destruct (wp_run _ _ _ Hwp) as ([] & w' & Hw & _ & t' & Hserved). by exists w', t'.
Qed.

(** At 9200 the first sleeper (deadline 9000) wakes. *)
Lemma timed_wait_ends_on_time_witness :
  ∃ w' t', on_timer_interrupt (demo_env 0 9200) demo_idling = Done (tt, w') ∧ live (w_sched w') first_thread t' ∧
    (t_state t' = Ready ∨ t_state t' = Running) ∧ events w' 0 !! WaitDeadline 0 (demo_token first_thread) = None.
Proof.
  edestruct (timed_wait_ends_on_time 12 (demo_env 0 9200) demo_idling (demo_token first_thread)) as (w' & t' & H1 & H2 & H3);
    [apply demo_idling_reachable|apply demo_ok|eapply demo_running; by_vm|by_vm|by_vm|by_vm|].
  rewrite decide_True in H3 by (vm_compute; discriminate). destruct H3 as (H3 & _ & H4).
  exists w', t'. exact (conj H1 (conj H2 (conj H3 H4))).
Defined.

(** ** Preemption guards *)

Lemma disabled_keeps_current N E k w :
  kernel_ok N w → env_ok E → call_guard E w k → preempts k = true → depth_of w (e_cpu E) ≠ Some 0%Z →
  wp (call_exec E k) (λ _ w', cur (w_sched w') (e_cpu E) = cur (w_sched w) (e_cpu E)) w.
Proof.
  intros Hk [Hc Ha] Hg Hp Hd. pose proof (wo_sched _ _ _ (ko_world _ _ _ Hk)) as Hs.
  destruct (finalize_keeps N (e_cpu E) (w_sched w) Hs Hc) as [_ Hfc]. destruct (Hfc (e_cpu E)) as (Hf & _ & Hon).
  assert (e_cpu E < length (cpus (finalize_s (e_cpu E) (w_sched w)))) as Hlen by (rewrite length_finalize; by apply (here_length Hs)).
  destruct k; try done; cbn [call_exec call_guard] in *.
  - destruct Hg as (from & t & Hpr). eapply wp_mono; [by apply (preempt_checkpoint_spec E (N:=N) Hc Ha w from t)|].
    intros _ w' (_ & _ & _ & Hcp). by apply checkpointed_disabled in Hcp as ->.
  - destruct Hg as (from & t & Hpr). eapply wp_mono; [by apply (yield_now_spec E (N:=N) Hc Ha w from t)|].
    intros _ w' (_ & _ & _ & Hcp). by apply checkpointed_disabled in Hcp as ->.
  - destruct Hg as (from & t & Hpr). eapply wp_mono; [by apply (finish_scheduler_ipi_spec E (N:=N) Hc Ha w from t)|].
    intros _ w' (_ & _ & _ & Hcp). apply checkpointed_disabled in Hcp as ->; [|done].
    destruct (drain_keeps E (finalize_s (e_cpu E) (w_sched w))) as [_ Hdr]. rewrite <-Hf. by apply (Hdr Hlen).
  - eapply wp_mono; [by apply (on_timer_interrupt_spec E (N:=N) Hc Ha w)|]. intros _ w' (_ & _ & _ & Hres).
    destruct (decide _); [|by subst w']. destruct Hres as (es & _ & Htick & _). unfold ticked in Htick.
    destruct (cs_online (cst (w_sched w) (e_cpu E))); [|by rewrite Htick]. apply checkpointed_disabled in Htick as ->; [|done].
    by rewrite cur_dispatch.
Qed.

(** C21: while a preemption guard is held on a CPU, no checkpoint, yield,
    scheduler notification or timer interrupt takes the CPU from its thread. *)
Theorem guard_prevents_preemption N E k w :
  reachable N w → env_ok E → call_guard E w k → preempts k = true → depth_of w (e_cpu E) ≠ Some 0%Z →
  ∃ w', call_exec E k w = Done (tt, w') ∧ cur (w_sched w') (e_cpu E) = cur (w_sched w) (e_cpu E).
Proof.
  intros Hr He Hg Hp Hd.
  destruct (wp_run _ _ _ (disabled_keeps_current N E k w (reachable_ok _ _ Hr) He Hg Hp Hd)) as ([] & w' & Hw & Hcu).
  by exists w'.
Qed.

(** The first thread holds a guard and takes a timer interrupt. *)
Lemma guard_prevents_preemption_witness :
  ∃ w', call_exec (demo_env 0 600) TimerInterrupt (demo_step 500 GuardEnter demo_spawned) = Done (tt, w') ∧
        cur (w_sched w') 0 = cur (w_sched (demo_step 500 GuardEnter demo_spawned)) 0.
Proof.
  apply (guard_prevents_preemption 12 (demo_env 0 600) TimerInterrupt (demo_step 500 GuardEnter demo_spawned)).
  - eapply (demo_step_reachable 500 GuardEnter); [apply demo_spawned_reachable| |by_vm].
    eexists. split; [by_vm|]. vm_compute. split; [discriminate|reflexivity].
  - apply demo_ok.
  - intros _. eapply demo_running; by_vm.
  - reflexivity.
  - vm_compute. discriminate.
Defined.

(** ** Exit and join *)

(** C22: an exit code reaches the joiner.  When a thread another one has joined
    exits, the notification its CPU sends itself leaves the joiner runnable
    with exactly that exit code and the user resources of the exited thread,
    its wait completed by [Notified]; the exited thread is gone. *)
Theorem exit_reaches_joiner N E w from t tok code :
  reachable N w → env_ok E → can_block E w from t → active (t_wait t) = None → t_joiner t = Some tok →
  ∃ w' j, (on_thread_exit_sync E code;; finish_scheduler_ipi E) w = Done (tt, w') ∧
    table_get (w_sched w') from = None ∧ live (w_sched w') (wt_thread tok) j ∧
    (t_state j = Ready ∨ t_state j = Running) ∧ t_last_join_result j = Some (inl code) ∧ t_reaped_user j = t_user t ∧
    active (t_wait j) = Some (mkActiveWait tok (Completed Notified) Explicit).
Proof.
  intros Hr [Hc Ha] Hcb Hn Hj.
  destruct (wp_run _ _ _ (exit_delivers E (N:=N) Hc Ha w from t tok code (reachable_ok _ _ Hr) Hcb Hn Hj))
    as ([] & w' & Hw & _ & j & []). by exists w', j.
Qed.

Lemma exit_reaches_joiner_witness :
  ∃ w' j, (on_thread_exit_sync (demo_env 0 600) 42;; finish_scheduler_ipi (demo_env 0 600)) demo_exiting = Done (tt, w') ∧
    table_get (w_sched w') third_thread = None ∧ live (w_sched w') first_thread j ∧
    t_last_join_result j = Some (inl 42%Z).
Proof.
  edestruct (exit_reaches_joiner 12 (demo_env 0 600) demo_exiting third_thread) with (tok := demo_token first_thread)
    (code := 42%Z) as (w' & j & H1 & H2 & H3 & _ & H4 & _);
    [apply demo_exiting_reachable|apply demo_ok|eapply demo_can_block; by_vm|by_vm|by_vm|].
  exists w', j. exact (conj H1 (conj H2 (conj H3 H4))).
Defined.

(** C23: joining gives exactly the outcome its target's state calls for: an
    unknown, idle, own, detached or already joined target is refused with its
    error; an exited one yields its code and user resources at once and frees
    its slot; otherwise the caller blocks as the target's joiner.  Nothing else
    of the scheduler changes. *)
Theorem join_outcome_exact N E w from tf target :
  reachable N w → env_ok E → can_block E w from tf → active (t_wait tf) = None →
  (next_sequence (t_wait tf) < u64_max)%Z → t_last_join_result tf = None → t_reaped_user tf = None →
  let s := finalize_s (e_cpu E) (w_sched w) in
  ∃ out w', join_thread E target w = Done (out, w') ∧
    match join_plan s from target with
    | JoinReject e => out = output_new ∧ w_sched w' = result_s from (inr e) s
    | JoinReap t code => out = output_new ∧ w_sched w' = reap_s from target t code s
    | JoinWait => out = mkSchedCallWaitOutput (Some (wait_token E from tf)) None ∧ join_waits E from target tf s (w_sched w')
    end.
Proof.
  intros Hr [Hc Ha] Hcb Hn Hq Hj Hu s.
  destruct (wp_run _ _ _ (join_thread_spec E (N:=N) Hc Ha w from tf target (reachable_ok _ _ Hr) Hcb Hn Hq Hj Hu))
    as (out & w' & Hw & _ & _ & _ & Ho). by exists out, w'.
Qed.

(** The first thread cannot join itself. *)
Lemma join_outcome_exact_witness :
  ∃ out w', join_thread (demo_env 0 300) first_thread demo_world = Done (out, w') ∧
    out = output_new ∧ w_sched w' = result_s first_thread (inr SelfJoin) (finalize_s 0 (w_sched demo_world)).
Proof.
  edestruct (join_outcome_exact 12 (demo_env 0 300) demo_world first_thread) with (target := first_thread)
    as (out & w' & H1 & H2);
    [apply demo_world_reachable|apply demo_ok|eapply demo_can_block; by_vm|by_vm|by_vm|by_vm|by_vm|].
  assert (join_plan (finalize_s 0 (w_sched demo_world)) first_thread first_thread = JoinReject SelfJoin) as Hp by by_vm.
  cbv zeta in H2. cbn [e_cpu demo_env] in H2. rewrite Hp in H2. exists out, w'. exact (conj H1 H2).
Defined.

(** ** Creating threads *)

(** C24: spawning a kernel thread does what its attributes ask for or nothing:
    an invalid or offline CPU and a full table are reported and change nothing
    but the pending finalization; otherwise the new thread has a handle no
    live thread had, a free slot's stack, the entry frame, and is queued once
    on its CPU, with every other thread's registers untouched. *)
Theorem spawn_thread_exact N E w entry arg attrs :
  reachable N w → env_ok E → running E w →
  ∃ r w' w1, spawn_thread E entry arg attrs w = Done (r, w') ∧
    frames_kept w w1 ∧ w_sched w1 = finalize_s (e_cpu E) (w_sched w) ∧
    match resolve_s E (w_sched w1) (at_affinity attrs) with
    | inr e => r = inr e ∧ w' = w1
    | inl home => ∃ o, r = (match o with None => inr NoThreadSlots | Some tid => inl tid end) ∧
        spawned E (λ top, kernel_entry top entry arg (e_bootstrap_pc E)) None attrs home w1 o w'
    end.
Proof.
  intros Hr [Hc Ha] (from & t & Hp).
  destruct (wp_run _ _ _ (spawn_thread_spec E (N:=N) Hc Ha w from t entry arg attrs (reachable_ok _ _ Hr) Hp))
    as (r & w' & Hw & _ & _ & w1 & Hf & Hs & Hres). by exists r, w', w1.
Qed.

(** CPU1 is offline. *)
Lemma spawn_thread_exact_witness :
  ∃ r w' w1, spawn_thread (demo_env 0 300) 4096 0 (mkThreadAttrs true (AffinityCpu 1)) demo_world = Done (r, w') ∧
    frames_kept demo_world w1 ∧ r = inr CpuOffline ∧ w' = w1.
Proof.
  destruct (spawn_thread_exact 12 (demo_env 0 300) demo_world 4096 0 (mkThreadAttrs true (AffinityCpu 1)))
    as (r & w' & w1 & H1 & H2 & H3 & H4); [apply demo_world_reachable|apply demo_ok|eapply demo_running; by_vm|].
  assert (resolve_s (demo_env 0 300) (finalize_s 0 (w_sched demo_world)) (AffinityCpu 1) = inr CpuOffline) as Hp by by_vm.
  rewrite H3 in H4. cbn [e_cpu demo_env at_affinity] in H4. rewrite Hp in H4. destruct H4 as [H4 H5].
  exists r, w', w1. exact (conj H1 (conj H2 (conj H4 H5))).
Defined.

(** ** Boot *)

(** C29: bringing up the scheduler on a reset machine succeeds whenever the
    static threads and one idle slot per expected CPU fit the table, and
    leaves exactly the promised state: idle in slot 0, the static threads in
    order behind it with the boot stacks and entry frames, the first of them
    selected and the others queued in order, all other slots free, every CPU
    offline, and an event queue on each of the [count] CPUs. *)
Theorem boot_exact N E expected count stack_of idle threads quantum w :
  env_ok E → machine_reset w → N ≤ KERNEL_THREAD_CAPACITY → 1 ≤ expected → length threads + expected ≤ N →
  1 ≤ count ≤ KERNEL_CPU_CAPACITY →
  ∃ w', boot_exec E N expected count stack_of idle threads quantum w = Done (tt, w') ∧ reachable N w' ∧
    booted E (N:=N) stack_of idle threads (w_sched w') ∧ ∀ c', is_Some (time_at w' c') ↔ c' < count.
Proof.
  intros He Hr HN He1 Hl Hc.
  destruct (wp_run _ _ _ (boot_exec_spec N E expected count stack_of idle threads quantum w He Hr HN He1 Hl Hc))
    as ([] & w' & Hw & _ & Hb & Ht). exists w'. split_and!; [done|by eapply reach_boot|done|done].
Qed.

Lemma boot_exact_witness :
  ∃ w', boot_exec (demo_env 0 100) 12 2 2 demo_stack (mkStaticThread 16384 0) demo_threads 10 demo_reset = Done (tt, w') ∧
    reachable 12 w' ∧ booted (demo_env 0 100) (N:=12) demo_stack (mkStaticThread 16384 0) demo_threads (w_sched w') ∧
    ∀ c', is_Some (time_at w' c') ↔ c' < 2.
Proof.
  apply (boot_exact 12); [apply demo_ok|by split|unfold KERNEL_THREAD_CAPACITY; lia|lia|simpl; lia
    |unfold KERNEL_CPU_CAPACITY; lia].
Defined.

(** ** Sleeping *)

(** C30: a sleep parks the caller: it is blocked in a wait that belongs to
    this call alone, the deadline is queued on its CPU, preemption nesting is
    as before, and the call's output names that wait. *)
Theorem sleep_parks_caller N E w from t d :
  reachable N w → env_ok E → can_block E w from t → active (t_wait t) = None → (next_sequence (t_wait t) < u64_max)%Z →
  ∃ w' t', on_sleep_sync E d w = Done (mkSchedCallWaitOutput (Some (wait_token E from t)) None, w') ∧
    live (w_sched w') from t' ∧ t_state t' = Blocked ∧
    active (t_wait t') = Some (mkActiveWait (wait_token E from t) PhaseBlocked Explicit) ∧
    events w' (e_cpu E) !! wait_deadline (wait_token E from t) = Some d ∧ ∀ c, depth_of w' c = depth_of w c.
Proof.
  intros Hr [Hc Ha] Hcb Hn Hq.
  destruct (wp_run _ _ _ (on_sleep_sync_spec E (N:=N) Hc Ha w from t d (reachable_ok _ _ Hr) Hcb Hn Hq))
    as (out & w' & Hw & _ & _ & Hd & -> & Hev & t' & Hl & Hst & Hact). by exists w', t'.
Qed.

Lemma sleep_parks_caller_witness :
  ∃ w' t', on_sleep_sync (demo_env 0 300) 9000 demo_world
             = Done (mkSchedCallWaitOutput (Some (demo_token first_thread)) None, w') ∧
    live (w_sched w') first_thread t' ∧ t_state t' = Blocked.
Proof.
  edestruct (sleep_parks_caller 12 (demo_env 0 300) demo_world first_thread) with (d := 9000%Z)
    as (w' & t' & H1 & H2 & H3 & _);
    [apply demo_world_reachable|apply demo_ok|eapply demo_can_block; by_vm|by_vm|by_vm|].
  exists w', t'. exact (conj H1 (conj H2 H3)).
Defined.

(** ** The direct wake *)

(** C25: waking a sleeper out of idle takes a shortcut that hands the CPU over
    without going through the ready queue.  Where its conditions hold, it
    selects the same thread and leaves the same scheduler state as the general
    path: complete the wait into the queue, then switch. *)
Theorem direct_wake_equals_queued_wake N E w from t tok tx wm :
  reachable N w → env_ok E → preemptible E (w_sched w) from t → direct E (w_sched w) from tok tx wm →
  remote (w_sched w) (e_cpu E) = [] → wt_cpu tok = e_cpu E →
  ¬ joined (w_sched w) tok → ¬ pending w (wt_cpu tok) (wait_deadline tok) →
  ∃ w1 w2, transition_timed_wake_from_idle E tok w = Done (Some (Switch from (wt_thread tok)), w1) ∧
    (transition_complete_wait_for_timer E tok;; transition_optional_switch E) w = Done (Switch from (wt_thread tok), w2) ∧
    w_sched w1 = w_sched w2.
Proof.
  intros Hr [Hc Ha] Hp Hd Hrem Htc Hnj Hnp.
  destruct (direct_is_queued E (N:=N) Hc Ha w from t tok tx wm (reachable_ok _ _ Hr) Hp Hd Hrem Htc Hnj Hnp) as [H1 H2].
  destruct (wp_run _ _ _ H1) as (o1 & w1 & E1 & -> & S1), (wp_run _ _ _ H2) as (o2 & w2 & E2 & -> & S2).
  exists w1, w2. split_and!; [done|done|congruence].
Qed.

Lemma direct_wake_equals_queued_wake_witness :
  ∃ w1 w2, transition_timed_wake_from_idle (demo_env 0 500) (demo_token first_thread) demo_cancelled
             = Done (Some (Switch (mkThreadId 0 1) first_thread), w1) ∧
    (transition_complete_wait_for_timer (demo_env 0 500) (demo_token first_thread);;
     transition_optional_switch (demo_env 0 500)) demo_cancelled = Done (Switch (mkThreadId 0 1) first_thread, w2) ∧
    w_sched w1 = w_sched w2.
Proof.
  eapply (direct_wake_equals_queued_wake 12 (demo_env 0 500) demo_cancelled (mkThreadId 0 1) _ (demo_token first_thread));
    [apply demo_cancelled_reachable|apply demo_ok|split; by_vm|split; by_vm|by_vm|by_vm|apply not_joined; by_vm|].
  vm_compute. by intros [].
Defined.

(** ** Mailboxes *)

(** C26: a mailbox is a bounded FIFO.  Whatever sequence of sends and receives
    is made on a fresh mailbox, each of them returns, in order, what a queue
    with that capacity gives: messages come out in the order they went in, a
    full mailbox gives the message back, an empty one gives nothing; and the
    scheduler is left alone. *)
Theorem mailbox_is_bounded_fifo N E w T capacity waiter_capacity (b : Mailbox T) (ops : list (mb_op T)) :
  reachable N w → env_ok E → online_here E w → mailbox_with_capacity capacity waiter_capacity = Done b →
  ∃ b' w', mb_run E b ops w = Done ((fifo_run capacity [] ops).1, b', w') ∧ w_sched w' = w_sched w ∧
           holds b' (fifo_run capacity [] ops).2.
Proof.
  intros Hr [Hc Ha] Hon Hb. assert (unwaited b ∧ mc_capacity (mb_control b) = capacity) as [Hu Hcap].
  { unfold mailbox_with_capacity in Hb. destruct (decide _); [done|]. injection Hb as <-. done. }
  destruct (wp_run _ _ _ (mb_run_spec E (N:=N) Hc Ha b [] ops w capacity (reachable_ok _ _ Hr) Hon (holds_new _ _ _ Hb) Hu Hcap))
    as ([rs b'] & w' & Hw & _ & Hs & -> & Hh). by exists b', w'.
Qed.

Lemma mailbox_is_bounded_fifo_witness :
  ∃ b' w', mb_run (demo_env 0 300) demo_empty_mailbox [MbSend 1%Z; MbSend 2%Z; MbSend 3%Z; MbRecv; MbRecv; MbRecv] demo_world
             = Done ([MbSent; MbSent; MbFull 3%Z; MbGot 1%Z; MbGot 2%Z; MbEmpty], b', w') ∧
           w_sched w' = w_sched demo_world ∧ holds b' [].
Proof.
  apply (mailbox_is_bounded_fifo 12 (demo_env 0 300) demo_world Z 2 4 demo_empty_mailbox
    [MbSend 1%Z; MbSend 2%Z; MbSend 3%Z; MbRecv; MbRecv; MbRecv]);
    [apply demo_world_reachable|apply demo_ok|by_vm|by_vm].
Defined.

(** C27: a send hands its message to a waiting receiver.  If a thread blocked
    in a receive is the first registered receiver, a send that finds room
    appends the message and completes exactly that thread's wait: the thread
    is ready again and no longer registered. *)
Theorem send_wakes_first_receiver N E w T (b : Mailbox T) l msg tok rest j k :
  reachable N w → env_ok E → online_here E w → holds b l → length l ≠ mc_capacity (mb_control b) →
  wq_items (mc_recv_waiters (mb_control b)) = tok :: rest → (∀ x, x ∈ tok :: rest → claimable w x) →
  live (w_sched w) (wt_thread tok) j → active (t_wait j) = Some (mkActiveWait tok PhaseBlocked k) →
  ∃ b' w' j', try_send E b msg w = Done (SendOk, b', w') ∧ holds b' (l ++ [msg]) ∧
    wq_items (mc_recv_waiters (mb_control b')) = rest ∧ live (w_sched w') (wt_thread tok) j' ∧ t_state j' = Ready ∧
    t_wait j' = (complete (t_wait j) tok Notified).2.
Proof.
  intros Hr [Hc Ha] Hon Hh Hroom Hwq Hcl Hl Hact.
  destruct (wp_run _ _ _ (try_send_spec E (N:=N) Hc Ha b l msg w (reachable_ok _ _ Hr) Hon Hh ltac:(by rewrite Hwq)))
    as ([r b'] & w' & Hw & _ & _ & _ & Hres). rewrite decide_False in Hres by done.
  destruct Hres as (-> & Hh' & Hn & _). rewrite Hwq in Hn. cbn [notify_s] in Hn.
  unfold complete_s in Hn. rewrite Hl in Hn. unfold complete in Hn |- *. rewrite Hact in Hn |- *. simpl in Hn |- *.
  rewrite decide_False in Hn |- * by (intros Hx; by apply Hx). injection Hn as Hq Hs.
  eexists b', w', _. split_and!; [done|done|done| | |].
  - rewrite Hs. unfold wake_s. destruct (decide _); by apply (live_alter_same (λ t, set_t_state Ready (set_t_wait _ t))).
  - done.
  - done.
Qed.

Lemma send_wakes_first_receiver_witness :
  ∃ b' w' j', try_send (demo_env 0 400) demo_mailbox 7%Z demo_receiving = Done (SendOk, b', w') ∧ holds b' [7%Z] ∧
    wq_items (mc_recv_waiters (mb_control b')) = [] ∧ live (w_sched w') first_thread j' ∧ t_state j' = Ready.
Proof.
  edestruct (send_wakes_first_receiver 12 (demo_env 0 400) demo_receiving Z demo_mailbox [] 7%Z (demo_token first_thread) [])
    as (b' & w' & j' & H1 & H2 & H3 & H4 & H5 & _);
    [apply demo_receiving_reachable|apply demo_ok|by_vm| |vm_compute; discriminate|by_vm| |by_vm|by_vm|].
  - split; try (vm_compute; lia); try by_vm. by intros i x Hx.
  - intros x ->%list_elem_of_singleton. split; [apply not_joined; by_vm|vm_compute; by eexists].
  - exists b', w', j'. exact (conj H1 (conj H2 (conj H3 (conj H4 H5)))).
Defined.

(** ** Console input *)

(** The frame of the running thread is the live one. *)
Lemma frame_of_running N w c tid : kernel_ok N w → c < KERNEL_CPU_CAPACITY → cs_online (cst (w_sched w) c) = true → cur (w_sched w) c = Some tid →
  frame_of w tid = w_active w !! c.
Proof.
  intros Hk Hc Hon Hcur. destruct (current_live (wo_sched _ _ _ (ko_world _ _ _ Hk)) c tid Hc Hcur) as (t & Hl & Hh & _).
  unfold frame_of, on_cpu. rewrite Hl, Hh, Hon, Hcur. by rewrite bool_decide_true.
Qed.

(** The wait of a blocked reader is completed by the byte, and finished by the
    reader. *)
Lemma reader_completed N E w tok t :
  kernel_ok N w → live (w_sched w) (wt_thread tok) t → active (t_wait t) = Some (mkActiveWait tok PhaseBlocked Explicit) →
  ∃ t', live (complete_s (e_cpu E) tok Notified (w_sched w)).2 (wt_thread tok) t' ∧ t_state t' = Ready ∧ (finish (t_wait t') tok).1 = inl Notified.
Proof.
  intros Hk Hl Ha. unfold complete_s. rewrite Hl. unfold complete. rewrite Ha. simpl. rewrite decide_False by (intros Hx; by apply Hx). simpl.
  eexists. split; [unfold wake_s; destruct (decide _); by apply (live_alter_same (λ t, set_t_state Ready (set_t_wait _ t)))|].
  split; [done|]. unfold finish. simpl. by rewrite decide_False by (intros Hx; by apply Hx).
Qed.


(** The first thread reads; the second one runs; a byte arrives; the second one
    yields. *)
Definition demo_block : outcome ((bool + unit) * StdinRx * World) := block_current_stdin_read_if_empty (demo_env 0 300) stdin_new demo_world.
Definition demo_stdin : StdinRx := match demo_block with Done (_, s, _) => s | Panic _ => stdin_new end.
Definition demo_reading : World := match demo_block with Done (_, _, w) => w | Panic _ => demo_world end.
Definition demo_byte : outcome (StdinRx * World) := on_stdin_byte (demo_env 0 400) 65 demo_stdin demo_reading.
Definition demo_input : StdinRx := match demo_byte with Done (s, _) => s | Panic _ => stdin_new end.
Definition demo_woken : World := match demo_byte with Done (_, w) => w | Panic _ => demo_world end.
Definition demo_rereading : World := demo_step 500 Yield demo_woken.

Lemma demo_block_done : block_current_stdin_read_if_empty (demo_env 0 300) stdin_new demo_world = Done ((inl true, demo_stdin), demo_reading).
Proof. by_vm. Qed.

Lemma demo_byte_done : on_stdin_byte (demo_env 0 400) 65 demo_stdin demo_reading = Done (demo_input, demo_woken).
Proof. by_vm. Qed.

Lemma demo_reread_done : call_exec (demo_env 0 500) Yield demo_woken = Done (tt, demo_rereading).
Proof. by_vm. Qed.

Lemma done_same {A S} (o : outcome (A * S)) a s a' s' : o = Done (a, s) → o = Done (a', s') → a' = a ∧ s' = s.
Proof. intros ->. by intros [= -> ->]. Qed.

